(* ===== verification/_CoqProject ===== *)
-Q . S2P
Prelude.v
Float64.v
Types.v
ValueCopy.v
OpenTable.v
Hashmap.v
StructMap.v
Bindings.v
Context.v
ContextProofs.v
IRLookup.v
Lexer.v
LexerSpec.v
Ast.v
References.v
DepOrder.v
CallArgs.v
Registry.v
RegistryProofs.v
Builtins.v
Parser.v
ParserProofs.v
Printer.v
TypeCheck.v
Define.v
RegistryHistory.v
EvalSupport.v
EvalSupportProofs.v
Formulas.v
FormulaProofs.v
ValueOps.v
ValueArith.v
EvalState.v
TreeEval.v
TreeContext.v
TreeSem.v
TypeCheckProofs.v
TreeEvalProofs.v
TreeContextLaws.v
TreeExamples.v
TypeCheckExamples.v
IR.v
IRFast.v
IRSafety.v
IRCompile.v
IRTyped.v
IRCompileProofs.v
IRContexts.v
IRExamples.v
EvalApi.v
Timeseries.v
History.v
LibraryHost.v
FloatOrder.v
TimeseriesProofs.v
HistoryProofs.v
HistoryContexts.v
HistoryWindows.v
HistoryExamples.v
EvalApiProofs.v
Memory.v
Bulk.v
BulkProofs.v
BulkStore.v
BulkStoreProofs.v
BulkSnapshot.v
BulkSnapshotProofs.v
BulkExamples.v
Resample.v
Provider.v
ProviderProofs.v
Engine.v
EngineProofs.v
EngineContexts.v
EngineScan.v
EngineExamples.v
