(* ===== verification/Prelude.v ===== *)
(** * cxpr: verification library

    cxpr is a C library that parses expressions, binds variables and parameters
    in contexts, and evaluates expressions either over the tree or as a compiled
    stack program (the IR); models, engines and bulk evaluation are built on that
    core.  This library models the core in Rocq and proves what makes it correct.
    Names of definitions are those of the C functions where they model one.

    ** How C is modelled

    - A computation has a result in [run] (this file): [Done], [OutOfFuel] for a
      loop that exceeds the fuel of its definition, [Undef] for behaviour the C
      standard leaves undefined (signed overflow, an access outside an array) and
      for an access through a stale pointer.  Termination and safety theorems say
      that neither of the last two happens, or exactly when it does.
    - Fixed-width integers are [Z] with their range written out ([in_int64],
      [wrap64]); doubles are binary64 numbers of [SpecFloat] ([Float64.v]), and
      [strtod] and [strtoimax] are defined there.
    - A [char*] is a [string]; a pointer into a source is its offset.
    - Allocation failure is an argument where the code handles it (the maps, deep
      copies and contexts); in the parser allocation is assumed to succeed.
      Functions that only release memory have no model.
    - Code reached through function pointers or not modelled yet is a class or an
      argument: [FastHost] (variable lookup, the memo table and defined functions,
      as the fast executors use them), [Copyable] (deep copies of a map's values),
      [FormulaHost] (compilation and evaluation of one named formula), [HostCode]
      (the C math library and registered callbacks), [EvalHost] (callbacks that
      get the tree and the context), [EvalContext] (contexts as the tree evaluator
      uses them, with [EvalContextLaws] for what its proof relies on; both have
      instances for [Context.v]), [IRContext] (the lookups of the typed executor,
      with [IRContextLaws]), [ApiContext] (the direct lookups of the entry points),
      [HistoryContext] (overlays of a history, with [HistoryContextLaws]),
      [EngineContext] (the context of a session, with [EngineContextLaws] and an
      instance for [Context.v]), [EngineMemory] and [EngineRules] (the host's
      columns and the evaluator of a session, with [EngineRulesLaws]),
      [HexFormat] ([printf("%a")]), and the result view of an evaluator attached to
      a context.  [LibraryHost.v] is the [EvalHost] whose callbacks are the
      library's own.
    - Ownership of results and lifetime of trees are modelled where the tree
      evaluator releases memory: see [EvalState.v].

    ** Files

    - [Prelude.v]: [run] and its notation, integers, C strings, tactics, hints.
    - [Float64.v]: binary64 arithmetic, comparisons and conversions.
    - [Types.v] ([include/cxpr/types.h], [token.h], [source_location.h]): error
      codes, tokens, source spans and the tagged union of values.
    - [ValueCopy.v] ([src/struct.c]): deep copies under an allocator that may
      refuse any request.
    - [OpenTable.v]: open addressing with linear probing, shared by the tables of
      [src/hashmap/hashmap.c] and [src/struct.c]: the probe loops, rehashing, and
      removal by re-inserting the run behind a slot, with the invariant
      [table_ok] and the finite map [table_map] a table stores.
    - [Hashmap.v] ([src/hashmap/hashmap.c]): the string-to-double table.
    - [StructMap.v] ([src/struct.c]): the named struct and array maps.
    - [Bindings.v] ([src/context/cache.c], [src/context/values.c]): the linear maps
      for bools, int64s and strings, and the numeric store with its two caches.
    - [Context.v] ([src/context]): a context with its ancestors as a list; the
      setters, getters, clearing and bound slots.  [ContextProofs.v]: contexts as
      typed finite maps.
    - [IRLookup.v] ([src/ir/program.c], [src/ir/exec/fast.c],
      [src/context/lifecycle.c]): the per-instruction lookup cache over contexts
      in memory, overlays and their free list.
    - [Lexer.v] ([src/lexer/lexer.c]): the tokenizer.  [LexerSpec.v]: the grammar of
      its tokens, and the proof that it reads them.
    - [Ast.v] ([src/ast/internal.h], [src/ast/construct.c]): expression trees and
      their constructors.
    - [References.v] ([src/ast/references.c], [src/ast/inspect.c]): the names a
      tree refers to.  [DepOrder.v] ([src/expression/expression.c]): the cycle
      search and the queue order of named formulas, over an abstract graph.
    - [CallArgs.v] ([src/call/args.c]): binding of named and positional arguments.
    - [Registry.v] ([src/registry/internal.h], [helpers.c], [add.c], [index.c]):
      function entries, registration, overlays, release of user data, index
      capabilities.  [RegistryProofs.v]: the registry as a finite map and the
      ledger of user data.
    - [Builtins.v] ([src/registry/defaults.c], [call.c], [src/timeseries.c],
      [src/window.c]): the numeric builtins, the tables they are registered from,
      and calls through the registry.  [Define.v] ([src/registry/define.c]):
      functions defined from text or as records.  [RegistryHistory.v]: the theorems
      on every history of registrations, definitions and capabilities.
    - [EvalSupport.v] ([src/eval/helpers], [src/lookback.c]): hashing and
      comparison of subtrees, the memo, cached registry lookups, constant folding
      and cache keys.  [EvalSupportProofs.v]: their theorems.
    - [Formulas.v] ([src/expression]): the evaluator of named formulas, on top of
      [DepOrder.v] and [Context.v].  [FormulaProofs.v]: its theorems.
    - [Parser.v] ([src/parser]): the recursive-descent parser, one function of the
      source per definition.  [ParserProofs.v]: its theorems.
    - [ValueOps.v] ([src/value_ops.c]): operators on typed values.  [ValueArith.v]:
      what arithmetic on scalars and structs gives.
    - [EvalState.v] ([src/eval/internal.h], [helpers/base.c]): the state of an
      evaluation, its monad, errors and ownership.  [TreeEval.v] ([src/eval/tree.c],
      [calls.c], [calls/producer.c], [helpers]): the tree evaluator.
      [TreeContext.v]: contexts for it; [TreeContextLaws.v]: their laws.
    - [TreeSem.v]: a big-step semantics of expressions, the specification of the
      evaluator.  [TreeEvalProofs.v]: the evaluator computes it.
      [TreeExamples.v]: the functions of the library satisfy what the theorem
      asks for, and inputs on which the evaluator goes wrong.
    - [Printer.v] ([src/ast/printer.c]): the text of a tree, with the decimal
      formats of [printf].
    - [TypeCheck.v] ([src/typecheck.c]): the type checker.  [TypeCheckProofs.v]: it
      is total and sound for [TreeSem.v]; [TypeCheckExamples.v]: its use.
    - [IR.v] ([src/ir/internal.h], [src/ir/validate.c]): the instruction set and
      the two stack validators.  [IRFast.v] ([src/ir/exec/fast.c]): the scalar and
      the boolean executor as step functions.  [IRSafety.v]: their theorems.
    - [IRCompile.v] ([src/ir/compile], [src/ir/compile.c], [src/ir/program.c],
      [src/ir/cache_key.c]): the compiler from trees to programs.  [IRTyped.v]
      ([src/ir/exec/typed.c], [calls.c], [lookup.c]): the typed executor.
      [IRCompileProofs.v]: compiled programs compute [TreeSem.v].
      [IRContexts.v]: contexts for the executor; [IRExamples.v]: inputs on which
      the two evaluators differ.
    - [EvalApi.v] ([src/eval/api.c], [src/ir/exec/api.c]): the entry points, with
      automatic compilation, the walk on doubles and evaluation at an offset.
      [EvalApiProofs.v]: the program a node caches, and where the paths differ.
    - [Timeseries.v] ([src/timeseries.c]): the time-series functions.
      [FloatOrder.v]: doubles as a weak order.  [TimeseriesProofs.v]: the functions
      over a series.
    - [History.v] ([src/history.c]): columns behind names.  [HistoryProofs.v]: an
      indexed expression is the expression some samples back.
      [HistoryContexts.v]: contexts under a history.
    - [LibraryHost.v] ([src/registry/defaults.c]): [contains] and [within], and the
      host of the library's callbacks.  [HistoryWindows.v]: windows over a history
      through the evaluator.  [HistoryExamples.v]: concrete histories.
    - [Memory.v]: blocks of an array, [memcpy], [memmove] and their lemmas, shared
      by the bulk files.  [Bulk.v] ([src/bulk.c], [include/cxpr/generated.h]): one
      tick of a generated model over columns of elements; [BulkProofs.v].
      [BulkStore.v] ([src/bulk_state_store.c]): the state blocks of agents in the
      order of their identifiers; [BulkStoreProofs.v].  [BulkSnapshot.v]
      ([src/bulk_snapshot.c]): their binary format; [BulkSnapshotProofs.v].
      [BulkExamples.v]: a concrete model, view, store and snapshot.
    - [Resample.v] ([src/resample.c]): fixed durations and resample calls.
    - [Provider.v] ([src/provider/provider.c], [src/runtime/call.c], parts of
      [src/provider/registry.c]): functions and sources of a host and calls of
      them.  [ProviderProofs.v]: its theorems.
    - [Engine.v] ([src/engine/internal.h], [source.c], [session.c], the resolver of
      [lookback.c]): sessions, their rings, sources, ticks and lookback.
      [EngineProofs.v]: its theorems.  [EngineContexts.v]: contexts under a session.
      [EngineScan.v] ([src/engine/lookback.c]): the depths a rule set looks back.
      [EngineExamples.v]: a concrete session.

    ** Theorems

    - Lexer: every call skips exactly the blanks and comments before a token and
      returns the longest token of a grammar that does not mention the lexer, with
      the position of its first character; reading tokens ends; int64 literals
      round-trip.
    - Parser: parsing ends on every source; it returns a tree and [CXPR_OK], or no
      tree and an error inside the text; trees are well formed and their spans are
      stretches of the source that are not empty; a copied subtree is the original.
    - IR: each validator always answers and accepts exactly the programs with a
      consistent stack depth per instruction; on an accepted program the executor
      stays inside its stacks and, when jumps go forward, returns.
    - Tables: the hash map and the struct and array maps refine finite maps over
      arbitrary sequences of operations, the latter under arbitrary allocation
      failures; removal deletes exactly its key.
    - Contexts: the caches are transparent while addresses of released arrays are
      not reused; a typed lookup is the documented priority order along the
      parents; the last write of a name wins where no older type shadows it, and
      other names are untouched; clearing leaves nothing.  On a root context the
      lookup cache of an instruction is transparent while the context lives, by
      induction on the steps of the context and of the cache.
    - Values: arithmetic is that of doubles on numbers and exact on int64s with an
      error for overflow and zero divisors, and works field by field, at any depth,
      on structs; the timestamp and duration algebra has its documented types; the
      operator function is total.
    - Named formulas: what a formula refers to is defined on its tree, apart from
      the code's collector of references, and the theorems are for formulas that
      collector covers.  The dependency order exists exactly when there is no cycle
      and lists dependencies first; the compiled flag implies a valid order in
      every reachable evaluator; evaluation computes the order up to the first
      formula that fails, and each result is the formula's value over the final
      results of what it refers to.
    - Registry: any history of registrations, definitions, resolvers and
      capabilities is a sequence of updates of a finite map; user data a registry
      accepted is destroyed exactly once, and the calls that drop theirs are named; the two builtin tables agree; a
      definition is stored completely or not at all; the lookup a call node caches
      is coherent across registrations.
    - Calls: binding permutes the arguments into a window of parameters, and no
      store of its three loops leaves the arrays when an entry has at most 32
      parameters; the comparison behind a memo hit is equality of trees; cache
      keys of producer calls identify the call.
    - Tree evaluator: the semantics is deterministic and does not depend on source
      spans; on trees of literals, names, operators, conditionals, arrays and calls
      of functions that depend on their arguments, one evaluation pass succeeds
      exactly when the expression has a value and returns it, so the memo, the
      lookup caches and the sticky error record do not show.
    - Type checker: it answers on every tree; when it accepts a tree of the
      evaluator's fragment whose functions return their declared types, a value of
      the tree is of the type it infers.
    - Compiler: a tree of the compilable fragment that has a value and needs a stack
      of at most 64 compiles, and the typed executor returns that value; so the two
      evaluators agree there.
    - History: [target[k]] is the target where its sources have the values [k]
      before the cursor; [highest] and [lowest] of a name with a history are
      extreme values of a column without NaN; window aggregates are those of the samples that
      are numbers; the compiled program a node caches is the one of the registry's
      version.
    - Bulk evaluation: a run gives each element of its range one tick and touches
      nothing else, so disjoint ranges commute; the state store refines a finite
      map from identifiers to blocks under any allocation failures; a snapshot
      restores what was saved, and a changed, cut or extended one is refused.
    - Resampling: exactly the texts that are durations are accepted, without
      overflow, and the canonical text reads back; the validation of a tree decides
      that every resample call and index in it is well formed.
    - Runtime calls: each parameter is handed the argument the call gives to it, by
      its place before the first named argument or by its name;
      the scope of an expression is the one of its first scoped call.
    - Engine: a ring holds the latest samples of its series; a tick returns, reads
      the value each source has at the new cursor once and in order, and with
      watches on bools reports exactly the edges between two successful ticks and
      keeps the session consistent; a lookback at a source or a rule is its value
      that many ticks ago; in a rule without the constructs it skips (arrays, an
      index on a field of an expression, a repeat without a count) the scan misses
      no read under literal lookbacks, so the rings are deep enough.
    - Counterexamples: where the code departs from its contract, a theorem gives
      the input: an overrun on an unclosed call with eight arguments, a full hash
      table, temporal overflow, a masked record error, callbacks that break their
      declared type, shadowed context bindings, parameter lookup that skips the
      parent, slots that stay valid after a clear, a reused cache address,
      lookup caches that outlive the context or overlay they were filled from,
      missed dependencies and refused result types of named formulas, more than 32
      parameter names, user data lost by a struct overlay, callbacks that survive
      a redefinition, memo entries of freed trees, string literals freed by
      records, arguments captured by record fields, an error lost between the
      arguments of a native function, opcodes that differ from the functions they
      replace, a name mentioned twice in an indexed expression, named arguments of
      window functions taken by position, the endless check of a function that
      calls itself, a name array shared by the specifications of all sources, a
      count of numeric arguments that depends on the order of named ones, and in an
      engine a rule under two lookbacks, a field of an expression compared with the
      names of rules, sources inside arrays that are not read, calls with a NaN
      argument, and a source that is pulled twice in a tick.

    ** Fuel and bounds

    Parsing functions take fuel bounded by the length of the source: every
    recursive call is behind a consumed token, and [parse_terminates] shows that
    the fuel of [cxpr_expr_ast_parse] is enough.  Probe loops get one iteration
    per slot, enough when a slot is free; a full table exceeds any fuel.  The
    validators get one step per instruction, each being queued at most once; the
    executors one per instruction, enough for forward jumps.  Operations on values recurse on the
    sum of the depths.  The tree evaluator takes one unit of fuel per nested call;
    the height of the tree is enough without defined functions, whose recursion
    may not end.  The compiler and the type checker take the height of the tree;
    an executor of compiled code one step per instruction.  [library_host] has one
    level of callbacks inside callbacks per unit of its depth.  An overlay of a
    history takes 50 numbers, each doubling its table at most.  The binary search
    of a state store has one step per identifier, more than it needs.  Sequences of table
    operations are bounded by [2^60], below
    which a capacity cannot reach [SIZE_MAX / 2].

    ** Not modelled

    The cache fields of tree nodes other than the compiled program; context cloning
    and the history offset, which hosts read; the IR lookup of structs and
    fields; models and window state; of the engine, the construction of programs,
    the seeding of parameters and roles, and the counting of resolvers installed on
    a shared registry; baskets, source plans and the
    registration of providers, which are mostly callbacks into the host; C code
    generation, whose statement needs a semantics of the emitted text; snapshots
    and JSON output, which is formatting.

    The order of further work: window state and baskets; the printer's round trip;
    the IR lookup cache as an instance of [FastHost]; context cloning; the evaluator
    of [Formulas.v] as an instance of [EngineRules]; models. *)

From Stdlib Require Import Ascii String ZArith Lia SpecFloat.
From stdpp Require Import base list strings gmap.

(** ** Results of modelled C code

    A C computation ends in a value, exceeds the fuel a definition gives to a
    loop of the source (a theorem shows for each loop that this does not
    happen, or when it does), or has behaviour the C standard leaves undefined
    (signed overflow, a read outside an array). *)
Inductive run (A : Type) : Type :=
  | Done (a : A)
  | OutOfFuel
  | Undef.
Arguments Done {A} a.
Arguments OutOfFuel {A}.
Arguments Undef {A}.

Definition run_bind {A B} (m : run A) (k : A → run B) : run B :=
  match m with
  | Done a => k a
  | OutOfFuel => OutOfFuel
  | Undef => Undef
  end.

Declare Scope run_scope.
Delimit Scope run_scope with run.
Notation "'let*' x ':=' m 'in' k" := (run_bind m (fun x => k))
  (at level 10, x name, m at level 100, k at level 200) : run_scope.
Notation "'let*' ' p ':=' m 'in' k" := (run_bind m (fun x => match x with p => k end))
  (at level 10, p strict pattern, m at level 100, k at level 200) : run_scope.

Lemma run_bind_Done {A B} (m : run A) (k : A → run B) b :
  run_bind m k = Done b ↔ ∃ a, m = Done a ∧ k a = Done b.
Proof. destruct m; simpl; split; naive_solver. Qed.

(** ** Fixed-width integers *)

Definition INT64_MIN : Z := (- 2 ^ 63)%Z.
Definition INT64_MAX : Z := (2 ^ 63 - 1)%Z.
Definition SIZE_MAX : Z := (2 ^ 64 - 1)%Z.

Definition in_int64 (z : Z) : bool := (INT64_MIN <=? z)%Z && (z <=? INT64_MAX)%Z.

(** Unsigned 64-bit wrap-around ([unsigned long] and [size_t] of the LP64
    targets the library is built for). *)
Definition wrap64 (z : Z) : Z := (z mod 2 ^ 64)%Z.

Lemma in_int64_spec z : in_int64 z = true ↔ (INT64_MIN ≤ z ≤ INT64_MAX)%Z.
Proof. unfold in_int64. rewrite andb_true_iff, !Z.leb_le. lia. Qed.

Lemma wrap64_range z : (0 ≤ wrap64 z < 2 ^ 64)%Z.
Proof. apply Z.mod_pos_bound. lia. Qed.

Lemma wrap64_small z : (0 ≤ z < 2 ^ 64)%Z → wrap64 z = z.
Proof. apply Z.mod_small. Qed.

(** ** C strings

    A [char*] that the source reads is a [string]; reading at the end gives the
    NUL terminator.  A pointer into a string is the suffix that starts there. *)
Abbreviation strlen := String.length.

Definition NUL : ascii := Ascii.zero.

(** [*p] *)
Definition char_at0 (s : string) : ascii :=
  match s with
  | EmptyString => NUL
  | String c _ => c
  end.

(** [p + 1]; the end of the string has no successor. *)
Definition str_tail (s : string) : string :=
  match s with
  | EmptyString => EmptyString
  | String _ s' => s'
  end.

(** [p[n]] *)
Fixpoint char_at (n : nat) (s : string) : ascii :=
  match n, s with
  | _, EmptyString => NUL
  | O, String c _ => c
  | S n', String _ s' => char_at n' s'
  end.

(** [memcpy] of the first [n] characters. *)
Fixpoint str_take (n : nat) (s : string) : string :=
  match n, s with
  | O, _ => EmptyString
  | _, EmptyString => EmptyString
  | S n', String c s' => String c (str_take n' s')
  end.

Fixpoint str_drop (n : nat) (s : string) : string :=
  match n, s with
  | O, _ => s
  | _, EmptyString => EmptyString
  | S n', String _ s' => str_drop n' s'
  end.

Arguments char_at n s : simpl nomatch.
Arguments str_take n s : simpl nomatch.
Arguments str_drop n s : simpl nomatch.

Definition ascii_code (c : ascii) : Z := Z.of_N (N_of_ascii c).

Lemma strlen_take n s : strlen (str_take n s) = Nat.min n (strlen s).
Proof. revert s; induction n as [|n IH]; intros [|c s]; simpl; auto. Qed.

Lemma strlen_drop n s : strlen (str_drop n s) = strlen s - n.
Proof. revert s; induction n as [|n IH]; intros [|c s]; simpl; auto with lia. Qed.

Lemma str_take_all n s : strlen s ≤ n → str_take n s = s.
Proof.
  revert s; induction n as [|n IH]; intros [|c s]; simpl; intros H; auto; [lia|].
  f_equal; apply IH; lia.
Qed.

Lemma strlen_append s t : strlen (String.append s t) = strlen s + strlen t.
Proof. induction s; simpl; auto. Qed.

Lemma str_drop_drop n m s : str_drop n (str_drop m s) = str_drop (m + n) s.
Proof.
  revert s; induction m as [|m IH]; intros s; simpl; auto.
  destruct s; simpl; auto. destruct n; auto.
Qed.

Lemma str_tail_drop s n : str_tail (str_drop n s) = str_drop (S n) s.
Proof. revert s; induction n as [|n IH]; intros [|c s]; simpl; auto; destruct s; auto; apply IH. Qed.

Lemma strlen_tail s : strlen (str_tail s) = strlen s - 1.
Proof. destruct s; simpl; lia. Qed.

Lemma char_at0_nonnul s : char_at0 s ≠ NUL → 0 < strlen s.
Proof. destruct s; simpl; [done|lia]. Qed.

(** ** Automation

    [inv_run] inverts a chain of [let*] that ended in a value; [split_matches]
    performs the case analysis of the goal's or of a hypothesis's matches. *)
Ltac inv_run :=
  repeat match goal with
  | H : run_bind _ _ = Done _ |- _ =>
      apply run_bind_Done in H; destruct H as (? & ? & H)
  | H : Done _ = Done _ |- _ => injection H as H
  | H : OutOfFuel = Done _ |- _ => discriminate H
  | H : Undef = Done _ |- _ => discriminate H
  end.

Ltac split_matches :=
  repeat match goal with
  | |- context [match ?x with _ => _ end] => destruct x eqn:?
  end.

Create HintDb cxpr discriminated.
Create Rewrite HintDb cxpr.
#[export] Hint Rewrite strlen_take strlen_drop strlen_append strlen_tail : cxpr.
