(* ===== verification/Float64.v ===== *)
(** * Float64: the C type [double]

    IEEE 754 binary64 values and the operations of the language and of
    [<math.h>] the sources use, on the Standard Library's executable
    specification of floating point ([SpecFloat]; one NaN, as the sources never
    inspect a payload). *)

From Stdlib Require Import Ascii String ZArith Lia SpecFloat.
From stdpp Require Import base list strings.
From S2P Require Import Prelude.
Local Open Scope Z_scope.

Definition float64 : Type := spec_float.

Definition prec64 : Z := 53.
Definition emax64 : Z := 1024.

Definition fzero : float64 := S754_zero false.
Definition fnan : float64 := S754_nan.

Definition fadd (x y : float64) : float64 := SFadd prec64 emax64 x y.
Definition fsub (x y : float64) : float64 := SFsub prec64 emax64 x y.
Definition fmul (x y : float64) : float64 := SFmul prec64 emax64 x y.
Definition fdiv (x y : float64) : float64 := SFdiv prec64 emax64 x y.
Definition fneg (x : float64) : float64 := SFopp x.
Definition fabs (x : float64) : float64 := SFabs x.
Definition fsqrt (x : float64) : float64 := SFsqrt prec64 emax64 x.

(** The C comparison operators; every one but [!=] is false on a NaN. *)
Definition feqb (x y : float64) : bool := SFeqb x y.
Definition fneb (x y : float64) : bool := negb (SFeqb x y).
Definition fltb (x y : float64) : bool := SFltb x y.
Definition fleb (x y : float64) : bool := SFleb x y.
Definition fgtb (x y : float64) : bool := SFltb y x.
Definition fgeb (x y : float64) : bool := SFleb y x.

Definition fisnan (x : float64) : bool :=
  match x with S754_nan => true | _ => false end.
Definition fisinf (x : float64) : bool :=
  match x with S754_infinity _ => true | _ => false end.
Definition fisfinite (x : float64) : bool :=
  match x with S754_zero _ | S754_finite _ _ _ => true | _ => false end.

(** Conversion of an integer, round to nearest even. *)
Definition of_Z (z : Z) : float64 := binary_normalize prec64 emax64 z 0 false.

Definition fone : float64 := of_Z 1.

Definition of_bool (b : bool) : float64 := if b then fone else fzero.

(** The signed integer part of a finite value and the way it was rounded.
    [Zscale s m e] is the value [s m 2^e] as a numerator over [2^k]. *)
Definition round_with (f : Z -> Z -> Z) (x : float64) : float64 :=
  match x with
  | S754_finite s m e =>
      if 0 <=? e then x
      else
        let d := 2 ^ (- e) in
        let n := if s then - Z.pos m else Z.pos m in
        binary_normalize prec64 emax64 (f n d) 0 s
  | _ => x
  end.

(** [floor], [ceil], [trunc] and [round] (half away from zero). *)
Definition ffloor : float64 -> float64 := round_with (fun n d => n / d).
Definition fceil : float64 -> float64 := round_with (fun n d => - ((- n) / d)).
Definition ftrunc : float64 -> float64 := round_with Z.quot.
Definition Zround_away (n d : Z) : Z := Z.sgn n * ((2 * Z.abs n + d) / (2 * d)).
Definition fround : float64 -> float64 := round_with Zround_away.

(** The value of an integral (or truncated) finite double. *)
Definition to_Z (x : float64) : option Z :=
  match x with
  | S754_zero _ => Some 0
  | S754_finite s m e =>
      let n := if s then - Z.pos m else Z.pos m in
      Some (if 0 <=? e then n * 2 ^ e else Z.quot n (2 ^ (- e)))
  | _ => None
  end.

(** [llround]; outside the range of [long long] the result is unspecified. *)
Definition llround (x : float64) : option Z :=
  match to_Z (fround x) with
  | Some z => if in_int64 z then Some z else None
  | None => None
  end.

(** [fmod]: the exact remainder with the sign of the dividend. *)
Definition fmod (x y : float64) : float64 :=
  match x, y with
  | S754_nan, _ | _, S754_nan => S754_nan
  | S754_infinity _, _ => S754_nan
  | _, S754_zero _ => S754_nan
  | S754_zero _, _ => x
  | S754_finite _ _ _, S754_infinity _ => x
  | S754_finite sx mx ex, S754_finite _ my ey =>
      let e := Z.min ex ey in
      match (Z.pos mx * 2 ^ (ex - e)) mod (Z.pos my * 2 ^ (ey - e)) with
      | Z0 => S754_zero sx
      | Z.pos r | Z.neg r => binary_round prec64 emax64 sx r e
      end
  end.

(** ** [strtod] on decimal subject sequences

    [m * 10^k] correctly rounded. *)
Definition of_decimal (m k : Z) : float64 :=
  match m with
  | Z.pos p =>
      if 0 <=? k then binary_normalize prec64 emax64 (m * 10 ^ k) 0 false
      else
        let '(q, e, l) := SFdiv_core_binary prec64 emax64 m 0 (10 ^ (- k)) 0 in
        binary_round_aux prec64 emax64 false q e l
  | _ => fzero
  end.

Definition is_digit (c : ascii) : bool := (48 <=? ascii_code c) && (ascii_code c <=? 57).
Definition digit_val (c : ascii) : Z := ascii_code c - 48.

(** Digits from the front of [s]: value, count, rest. *)
Fixpoint read_digits (s : string) (acc : Z) (n : Z) : Z * Z * string :=
  match s with
  | String c s' =>
      if is_digit c then read_digits s' (acc * 10 + digit_val c) (n + 1) else (acc, n, s)
  | EmptyString => (acc, n, s)
  end.

(** The optional exponent part: consumed only when a digit follows. *)
Definition read_exponent (s : string) : Z :=
  match s with
  | String c s' =>
      if (c =? "e")%char || (c =? "E")%char then
        let '(neg, s'') :=
          match s' with
          | String d t =>
              if (d =? "-")%char then (true, t)
              else if (d =? "+")%char then (false, t) else (false, s')
          | EmptyString => (false, s')
          end in
        let '(v, n, _) := read_digits s'' 0 0 in
        if n =? 0 then 0 else if neg then - v else v
      else 0
  | EmptyString => 0
  end.

Definition strtod (s : string) : float64 :=
  let '(m, _, s1) := read_digits s 0 0 in
  let '(m, fd, s2) :=
    match s1 with
    | String c s' =>
        if (c =? ".")%char then read_digits s' m 0 else (m, 0, s1)
    | EmptyString => (m, 0, s1)
    end in
  of_decimal m (read_exponent s2 - fd).

(** [strtoimax] in base 10 on a run of digits; [None] is [ERANGE]. *)
Definition strtoimax (s : string) : option Z :=
  let '(v, _, _) := read_digits s 0 0 in
  if v <=? INT64_MAX then Some v else None.

(** ** Facts *)

Lemma feqb_fneb x y : fneb x y = negb (feqb x y).
Proof. reflexivity. Qed.

Lemma fisfinite_not_nan x : fisfinite x = true -> fisnan x = false.
Proof. destruct x; simpl; congruence. Qed.

(** Values of literals, checked against their IEEE encodings. *)
Example strtod_0_1 : strtod "0.1" = S754_finite false 7205759403792794 (-56).
Proof. vm_compute. reflexivity. Qed.
Example strtod_sci : strtod "2.5e3" = of_Z 2500.
Proof. vm_compute. reflexivity. Qed.
Example strtod_huge : strtod "1e400" = S754_infinity false.
Proof. vm_compute. reflexivity. Qed.
Example fmod_ex : fmod (strtod "7.5") (of_Z 2) = strtod "1.5".
Proof. vm_compute. reflexivity. Qed.
Example ffloor_neg : ffloor (fneg (strtod "2.5")) = of_Z (-3).
Proof. vm_compute. reflexivity. Qed.
Example fround_half : fround (strtod "2.5") = of_Z 3 /\ fround (fneg (strtod "2.5")) = of_Z (-3).
Proof. vm_compute. split; reflexivity. Qed.

(** ** Small integers are exact *)

Lemma digits2_log2 p : Z.pos (digits2_pos p) = Z.log2 (Z.pos p) + 1.
Proof.
  induction p as [p IH|p IH|]; [| |done]; simpl digits2_pos.
  - rewrite Pos2Z.inj_succ, IH. change (Z.pos p~1) with (2 * Z.pos p + 1).
    rewrite Z.log2_succ_double by lia. lia.
  - rewrite Pos2Z.inj_succ, IH. change (Z.pos p~0) with (2 * Z.pos p). rewrite Z.log2_double by lia. lia.
Qed.

Lemma pos_iter_xO m d : Z.pos (Pos.iter xO m d) = Z.pos m * 2 ^ Z.pos d.
Proof.
  induction d as [|d IH] using Pos.peano_ind; [simpl; lia|].
  rewrite Pos.iter_succ, Pos2Z.inj_xO, IH, Pos2Z.inj_succ, Z.pow_succ_r by lia. lia.
Qed.

(** A positive integer below [2^53] as a canonical double. *)
Lemma of_Z_small n : 0 < n < 2 ^ 53 →
  of_Z n = S754_finite false (Z.to_pos (n * 2 ^ (52 - Z.log2 n))) (Z.log2 n - 52).
Proof.
  intros Hn. destruct n as [|p|]; [lia| |lia]. unfold of_Z, binary_normalize, binary_round.
  assert (Hl : 0 <= Z.log2 (Z.pos p) <= 52).
  { split; [apply Z.log2_nonneg|]. cut (Z.log2 (Z.pos p) < 53); [lia|]. apply Z.log2_lt_pow2; lia. }
  set (l := Z.log2 (Z.pos p)) in *. set (q := Z.to_pos (Z.pos p * 2 ^ (52 - l))).
  assert (Hq : Z.pos q = Z.pos p * 2 ^ (52 - l)) by (unfold q; rewrite Z2Pos.id; lia).
  assert (Hs : shl_align p 0 (fexp prec64 emax64 (Z.pos (digits2_pos p) + 0)) = (q, l - 52)).
  { unfold shl_align, fexp. rewrite digits2_log2. fold l.
    change (SpecFloat.emin prec64 emax64) with (-1074). change prec64 with 53.
    replace (Z.max (l + 1 + 0 - 53) (-1074) - 0) with (l - 52) by lia.
    destruct (l - 52) as [|d|d] eqn:Hd; [|lia|].
    - f_equal. apply Pos2Z.inj. rewrite Hq. replace (52 - l) with 0 by lia. lia.
    - f_equal; [|lia]. apply Pos2Z.inj. rewrite pos_iter_xO, Hq.
      replace (52 - l) with (Z.pos d) by lia. done. }
  rewrite Hs. unfold binary_round_aux.
  assert (Hf : ∀ r, shr_fexp prec64 emax64 (Z.pos q) (l - 52) r = (shr_record_of_loc (Z.pos q) r, l - 52)).
  { intros r. unfold shr_fexp, fexp. simpl Zdigits2. rewrite digits2_log2.
    change (SpecFloat.emin prec64 emax64) with (-1074). change prec64 with 53.
    replace (Z.log2 (Z.pos q)) with 52.
    - replace (Z.max (52 + 1 + (l - 52) - 53) (-1074) - (l - 52)) with 0 by lia. done.
    - rewrite Hq, Z.log2_mul_pow2 by lia. fold l. lia. }
  rewrite Hf. simpl shr_record_of_loc. cbn [shr_m loc_of_shr_record round_nearest_even]. 
  rewrite Hf. cbn [shr_record_of_loc shr_m].
  replace (l - 52 <=? emax64 - prec64) with true; [done|]. symmetry. apply Z.leb_le. unfold emax64, prec64. lia.
Qed.

(** A non-negative double that compares below a small integer truncates below it. *)
Lemma to_Z_below d n : valid_binary prec64 emax64 d = true → 0 <= n < 2 ^ 53 →
  fisfinite d = true → fltb d fzero = false → fltb d (of_Z n) = true →
  ∃ z, to_Z d = Some z ∧ 0 <= z < n.
Proof.
  intros Hv Hn Hfin Hpos Hlt. destruct (decide (n = 0)) as [->|Hn0]; [change (of_Z 0) with fzero in Hlt; congruence|].
  rewrite of_Z_small in Hlt by lia.
  destruct d as [s| | |s m e]; try done; simpl to_Z.
  { exists 0. split; [done|lia]. }
  destruct s; [done|].
  assert (Hl : 0 <= Z.log2 n <= 52).
  { split; [apply Z.log2_nonneg|]. cut (Z.log2 n < 53); [lia|]. apply Z.log2_lt_pow2; lia. }
  pose proof (Z.log2_spec n ltac:(lia)) as [Hlow _].
  assert (Hm : Z.pos m < 2 ^ 53).
  { apply andb_true_iff in Hv as [Hc _]. apply Z.eqb_eq in Hc. unfold fexp in Hc.
    rewrite digits2_log2 in Hc. change prec64 with 53 in Hc. apply Z.log2_lt_pow2; lia. }
  set (m2 := Z.to_pos (n * 2 ^ (52 - Z.log2 n))) in *.
  assert (Hm2 : Z.pos m2 = n * 2 ^ (52 - Z.log2 n)) by (unfold m2; rewrite Z2Pos.id; lia).
  unfold fltb, SFltb in Hlt. simpl in Hlt.
  set (l := Z.log2 n) in *.
  destruct (Z.compare_spec e (l - 52)) as [He|He|He]; [| |done].
  - subst e. change (Pos.compare_cont Eq m m2) with (m ?= m2)%positive in Hlt.
    destruct (Pos.compare_spec m m2) as [|Hmm|]; try done. assert (Z.pos m < Z.pos m2) by lia.
    destruct (0 <=? l - 52) eqn:Hneg.
    + apply Z.leb_le in Hneg. replace (l - 52) with 0 by lia. exists (Z.pos m). split; [f_equal; lia|].
      replace (52 - l) with 0 in Hm2 by lia. lia.
    + apply Z.leb_gt in Hneg. eexists. split; [done|]. rewrite Z.quot_div_nonneg by lia.
      split; [apply Z.div_pos; lia|]. apply Z.div_lt_upper_bound; [lia|].
      replace (- (l - 52)) with (52 - l) by lia. lia.
  - replace (0 <=? e) with false by (symmetry; apply Z.leb_gt; lia).
    eexists. split; [done|]. rewrite Z.quot_div_nonneg by lia. split; [apply Z.div_pos; lia|].
    apply Z.div_lt_upper_bound; [lia|].
    apply Z.lt_le_trans with (2 ^ 53); [lia|].
    apply Z.le_trans with (2 ^ (- e) * 2 ^ l); [|apply Z.mul_le_mono_nonneg_l; lia].
    rewrite <- Z.pow_add_r by lia. apply Z.pow_le_mono_r; lia.
Qed.
