(* ===== verification/Types.v ===== *)
(** * Types: public data of the library

    Error codes and payloads, token tags, source locations and typed values
    ([include/cxpr/types.h], [token.h], [source_location.h]). *)

From Stdlib Require Import Ascii String ZArith Lia.
From stdpp Require Import base list strings.
From S2P Require Import Prelude Float64.

Inductive cxpr_error_code : Type :=
  | CXPR_OK
  | CXPR_ERR_SYNTAX
  | CXPR_ERR_UNKNOWN_IDENTIFIER
  | CXPR_ERR_UNKNOWN_FUNCTION
  | CXPR_ERR_WRONG_ARITY
  | CXPR_ERR_DIVISION_BY_ZERO
  | CXPR_ERR_CIRCULAR_DEPENDENCY
  | CXPR_ERR_TYPE_MISMATCH
  | CXPR_ERR_OUT_OF_MEMORY
  | CXPR_ERR_INVALID_INDEX
  | CXPR_ERR_INDEX_OUT_OF_RANGE.

#[export] Instance cxpr_error_code_eq_dec : EqDecision cxpr_error_code.
Proof. solve_decision. Defined.

(** The error payload; [None] stands for a NULL [message]. *)
Record cxpr_error : Type := mk_error {
  err_code : cxpr_error_code;
  err_message : option string;
  err_position : nat;
  err_line : nat;
  err_column : nat
}.

(** [(cxpr_error){0}] *)
Definition error_zero : cxpr_error := mk_error CXPR_OK None 0 0 0.

Inductive cxpr_token_type : Type :=
  | CXPR_TOK_NUMBER | CXPR_TOK_IDENTIFIER | CXPR_TOK_VARIABLE | CXPR_TOK_TRUE
  | CXPR_TOK_FALSE | CXPR_TOK_STRING
  | CXPR_TOK_PLUS | CXPR_TOK_MINUS | CXPR_TOK_STAR | CXPR_TOK_SLASH
  | CXPR_TOK_PERCENT | CXPR_TOK_POWER
  | CXPR_TOK_ASSIGN | CXPR_TOK_EQ | CXPR_TOK_NEQ | CXPR_TOK_LT | CXPR_TOK_GT
  | CXPR_TOK_LTE | CXPR_TOK_GTE
  | CXPR_TOK_AND | CXPR_TOK_OR | CXPR_TOK_NOT | CXPR_TOK_IN
  | CXPR_TOK_LPAREN | CXPR_TOK_RPAREN | CXPR_TOK_LBRACKET | CXPR_TOK_RBRACKET
  | CXPR_TOK_LBRACE | CXPR_TOK_RBRACE | CXPR_TOK_COMMA | CXPR_TOK_DOT
  | CXPR_TOK_PIPE | CXPR_TOK_QUESTION | CXPR_TOK_COLON
  | CXPR_TOK_EOF | CXPR_TOK_ERROR.

#[export] Instance cxpr_token_type_eq_dec : EqDecision cxpr_token_type.
Proof. solve_decision. Defined.

(** The C comparison [a == b] of two token tags. *)
Definition tok_eqb (a b : cxpr_token_type) : bool := bool_decide (a = b).

Lemma tok_eqb_eq a b : tok_eqb a b = true ↔ a = b.
Proof. apply bool_decide_eq_true. Qed.

Lemma tok_eqb_refl a : tok_eqb a a = true.
Proof. by apply tok_eqb_eq. Qed.

Record cxpr_source_pos : Type := mk_pos {
  pos_offset : nat;
  pos_line : nat;
  pos_column : nat
}.

Record cxpr_source_span : Type := mk_span {
  span_start : cxpr_source_pos;
  span_end : cxpr_source_pos
}.

Inductive cxpr_value_type : Type :=
  | CXPR_VALUE_NUMBER | CXPR_VALUE_BOOL | CXPR_VALUE_STRUCT | CXPR_VALUE_STRING
  | CXPR_VALUE_NULL | CXPR_VALUE_TIMESTAMP | CXPR_VALUE_DURATION
  | CXPR_VALUE_ARRAY | CXPR_VALUE_INT64.

#[export] Instance cxpr_value_type_eq_dec : EqDecision cxpr_value_type.
Proof. solve_decision. Defined.

Local Set Warnings "-register-all".

(** The tagged union [cxpr_value].  A struct value is its parallel arrays of
    field names and field values as one list of pairs. *)
Inductive cxpr_value : Type :=
  | VNum (d : float64)
  | VBool (b : bool)
  | VStruct (fields : list (string * cxpr_value))
  | VString (str : string)
  | VNull
  | VTimestamp (i64 : Z)
  | VDuration (i64 : Z)
  | VArray (values : list cxpr_value)
  | VInt64 (i64 : Z).

Definition value_type (v : cxpr_value) : cxpr_value_type :=
  match v with
  | VNum _ => CXPR_VALUE_NUMBER
  | VBool _ => CXPR_VALUE_BOOL
  | VStruct _ => CXPR_VALUE_STRUCT
  | VString _ => CXPR_VALUE_STRING
  | VNull => CXPR_VALUE_NULL
  | VTimestamp _ => CXPR_VALUE_TIMESTAMP
  | VDuration _ => CXPR_VALUE_DURATION
  | VArray _ => CXPR_VALUE_ARRAY
  | VInt64 _ => CXPR_VALUE_INT64
  end.
