(* ===== verification/ValueCopy.v ===== *)
(** * ValueCopy: deep copies of values ([src/struct.c])

    A copy asks an allocator that may refuse any request; the theorem of the
    file says that a copy is the value or is refused, never a partial value. *)

From Stdlib Require Import Ascii String ZArith Lia.
From stdpp Require Import base list strings.
From S2P Require Import Prelude Float64 Types.
Local Open Scope nat_scope.

(** ** Copies

    [ok n] is the answer to the [n]-th allocation request; a copy takes the
    number of requests made before it and returns the number made after it.
    [None] is a NULL payload, which [cxpr_value_clone_failed] detects. *)
Section copies.
Context (ok : nat → bool).

Section fields.
Context (clone : cxpr_value → nat → option cxpr_value * nat).

(** The loop of [cxpr_struct_value_new] over the fields. *)
Fixpoint copy_fields (fields : list (string * cxpr_value)) (n : nat)
    : option (list (string * cxpr_value)) * nat :=
  match fields with
  | [] => (Some [], n)
  | (name, value) :: rest =>
      if negb (ok n) then (None, S n)
      else
        let '(copy, n) := clone value (S n) in
        match copy with
        | None => (None, n)
        | Some value' =>
            let '(rest', n) := copy_fields rest n in
            (option_map (cons (name, value')) rest', n)
        end
  end.

Definition struct_value_new (fields : list (string * cxpr_value)) (n : nat)
    : option (list (string * cxpr_value)) * nat :=
  if negb (ok n) then (None, S n)
  else match fields with
       | [] => (Some [], S n)
       | _ => if ok (n + 1) && ok (n + 2) then copy_fields fields (n + 3) else (None, n + 3)
       end.

(** The loop of [cxpr_array_value_new] over the elements. *)
Fixpoint copy_values (values : list cxpr_value) (n : nat) : option (list cxpr_value) * nat :=
  match values with
  | [] => (Some [], n)
  | value :: rest =>
      let '(copy, n) := clone value n in
      match copy with
      | None => (None, n)
      | Some value' =>
          let '(rest', n) := copy_values rest n in
          (option_map (cons value') rest', n)
      end
  end.

Definition array_value_new (values : list cxpr_value) (n : nat)
    : option (list cxpr_value) * nat :=
  if negb (ok n) then (None, S n)
  else match values with
       | [] => (Some [], S n)
       | _ => if negb (ok (n + 1)) then (None, n + 2) else copy_values values (n + 2)
       end.
End fields.

Fixpoint cxpr_value_clone (value : cxpr_value) (n : nat) : option cxpr_value * nat :=
  match value with
  | VNum d => (Some (VNum d), n)
  | VBool b => (Some (VBool b), n)
  | VInt64 i => (Some (VInt64 i), n)
  | VStruct fields =>
      let '(s, n) := struct_value_new cxpr_value_clone fields n in (option_map VStruct s, n)
  | VString str => (if ok n then Some (VString str) else None, S n)
  | VNull => (Some VNull, n)
  | VTimestamp i => (Some (VTimestamp i), n)
  | VDuration i => (Some (VDuration i), n)
  | VArray values =>
      let '(a, n) := array_value_new cxpr_value_clone values n in (option_map VArray a, n)
  end.

Definition cxpr_struct_value_new := struct_value_new cxpr_value_clone.
Definition cxpr_array_value_new := array_value_new cxpr_value_clone.
End copies.

(** ** Induction on values *)

Lemma value_ind' (P : cxpr_value → Prop) :
  (∀ d, P (VNum d)) → (∀ b, P (VBool b)) →
  (∀ fields, Forall (λ f, P (snd f)) fields → P (VStruct fields)) →
  (∀ s, P (VString s)) → P VNull → (∀ z, P (VTimestamp z)) → (∀ z, P (VDuration z)) →
  (∀ vs, Forall P vs → P (VArray vs)) → (∀ z, P (VInt64 z)) → ∀ v, P v.
Proof.
  intros Hn Hb Hs Hst Hnull Ht Hd Ha Hi. fix IH 1. intros [d|b|fields|s| |z|z|vs|z];
    [apply Hn|apply Hb| |apply Hst|apply Hnull|apply Ht|apply Hd| |apply Hi].
  - apply Hs. induction fields as [|[n v] fields IHf]; constructor; [apply IH|apply IHf].
  - apply Ha. induction vs as [|v vs IHv]; constructor; [apply IH|apply IHv].
Qed.

(** ** Copies are exact or refused *)

(** What a copy of [x] that starts after [n] requests may answer: [x] itself, or
    NULL when a request it made was refused. *)
Definition exact_or_refused {A} (ok : nat → bool) (x : A) (n : nat) (r : option A * nat) : Prop :=
  match r with
  | (Some c, n') => c = x ∧ n ≤ n'
  | (None, n') => ∃ m, n ≤ m < n' ∧ ok m = false
  end.

Section exact.
Context (ok : nat → bool) (clone : cxpr_value → nat → option cxpr_value * nat).

Lemma exact_weaken {A} (x : A) n m r :
  n ≤ m → exact_or_refused ok x m r → exact_or_refused ok x n r.
Proof. destruct r as [[c|] n']; simpl; [|intros ? (k & ? & ?); exists k]; intuition lia. Qed.

Lemma refused_here {A} (x : A) n m n' :
  n ≤ m < n' → ok m = false → exact_or_refused ok x n (None, n').
Proof. simpl. eauto. Qed.

Lemma copy_fields_exact fields n :
  Forall (λ f, ∀ n, exact_or_refused ok (snd f) n (clone (snd f) n)) fields →
  exact_or_refused ok fields n (copy_fields ok clone fields n).
Proof.
  intros IH. revert n. induction IH as [|[name v] fields Hv _ IHf]; intros n; simpl; [auto|].
  destruct (ok n) eqn:E; cbn [negb]; [|by apply refused_here with n; [lia|]].
  specialize (Hv (S n)). simpl in Hv. destruct (clone v (S n)) as [[c|] n1]; simpl in Hv.
  - destruct Hv as [-> ?]. specialize (IHf n1).
    destruct (copy_fields ok clone fields n1) as [[rest|] n2]; simpl in *.
    + destruct IHf as [-> ?]. split; [done|lia].
    + destruct IHf as (m & ? & ?). exists m. split; [lia|done].
  - destruct Hv as (m & ? & ?). apply refused_here with m; [lia|done].
Qed.

Lemma copy_values_exact vs n :
  Forall (λ v, ∀ n, exact_or_refused ok v n (clone v n)) vs →
  exact_or_refused ok vs n (copy_values clone vs n).
Proof.
  intros IH. revert n. induction IH as [|v vs Hv _ IHv]; intros n; simpl; [auto|].
  specialize (Hv n). destruct (clone v n) as [[c|] n1]; simpl in Hv; [|done].
  destruct Hv as [-> ?]. specialize (IHv n1).
  destruct (copy_values clone vs n1) as [[rest|] n2]; simpl in *.
  - destruct IHv as [-> ?]. split; [done|lia].
  - destruct IHv as (m & ? & ?). exists m. split; [lia|done].
Qed.

Lemma struct_new_exact fields n :
  Forall (λ f, ∀ n, exact_or_refused ok (snd f) n (clone (snd f) n)) fields →
  exact_or_refused ok fields n (struct_value_new ok clone fields n).
Proof.
  intros IH. unfold struct_value_new.
  destruct (ok n) eqn:E; cbn [negb]; [|apply refused_here with n; [lia|done]].
  destruct fields as [|f fields]; [simpl; auto with lia|].
  destruct (ok (n + 1)) eqn:E1; cbn [andb]; [|apply refused_here with (n + 1); [lia|done]].
  destruct (ok (n + 2)) eqn:E2; [|apply refused_here with (n + 2); [lia|done]].
  apply exact_weaken with (n + 3); [lia|]. by apply copy_fields_exact.
Qed.

Lemma array_new_exact vs n :
  Forall (λ v, ∀ n, exact_or_refused ok v n (clone v n)) vs →
  exact_or_refused ok vs n (array_value_new ok clone vs n).
Proof.
  intros IH. unfold array_value_new.
  destruct (ok n) eqn:E; cbn [negb]; [|apply refused_here with n; [lia|done]].
  destruct vs as [|v vs]; [simpl; auto with lia|].
  destruct (ok (n + 1)) eqn:E1; cbn [negb]; [|apply refused_here with (n + 1); [lia|done]].
  apply exact_weaken with (n + 2); [lia|]. by apply copy_values_exact.
Qed.
End exact.

Lemma value_clone_exact ok v n : exact_or_refused ok v n (cxpr_value_clone ok v n).
Proof.
  revert n. induction v as [| |fields IH| | | | |vs IH|] using value_ind'; intros n; simpl;
    try (split; [done|lia]).
  - pose proof (struct_new_exact ok (cxpr_value_clone ok) fields n IH) as H.
    destruct (struct_value_new _ _ fields n) as [[s|] n1]; simpl in *; [|done].
    destruct H as [-> ?]. auto.
  - destruct (ok n) eqn:E; [split; [done|lia]|exists n; split; [lia|done]].
  - pose proof (array_new_exact ok (cxpr_value_clone ok) vs n IH) as H.
    destruct (array_value_new _ _ vs n) as [[a|] n1]; simpl in *; [|done].
    destruct H as [-> ?]. auto.
Qed.

Lemma struct_value_new_exact ok fields n :
  exact_or_refused ok fields n (cxpr_struct_value_new ok fields n).
Proof. apply struct_new_exact, Forall_true. intros f m. apply value_clone_exact. Qed.

Lemma array_value_new_exact ok vs n :
  exact_or_refused ok vs n (cxpr_array_value_new ok vs n).
Proof. apply array_new_exact, Forall_true. intros v m. apply value_clone_exact. Qed.

Lemma exact_granted {A} ok (x : A) n r :
  (∀ m, ok m = true) → exact_or_refused ok x n r → fst r = Some x.
Proof.
  intros Hok. destruct r as [[c|] n']; simpl; [by intros [-> _]|].
  intros (m & _ & Hm). by rewrite Hok in Hm.
Qed.

Lemma struct_copy_all fields n : fst (cxpr_struct_value_new (λ _, true) fields n) = Some fields.
Proof. eapply exact_granted; [done|]. apply (struct_value_new_exact (λ _, true)). Qed.

Lemma array_copy_all vs n : fst (cxpr_array_value_new (λ _, true) vs n) = Some vs.
Proof. eapply exact_granted; [done|]. apply (array_value_new_exact (λ _, true)). Qed.
