(* ===== verification/OpenTable.v ===== *)
(** * OpenTable: open addressing with linear probing

    The table the sources use four times, for numbers ([src/hashmap/hashmap.c])
    and for named structs and arrays ([src/struct.c]): an array of slots, a slot
    [None] when its key is NULL, the home slot of a key its hash modulo the
    capacity, and probe loops that step to the next slot.  The definitions are
    the loops of those files; the lemmas show that a well-formed table with a
    free slot is a finite map, that inserting, rehashing and removing keep it so,
    and that every loop ends. *)

From Stdlib Require Import Ascii String ZArith Lia.
From stdpp Require Import base list strings gmap fin_maps.
From S2P Require Import Prelude Float64.
Local Open Scope run_scope.
Local Open Scope nat_scope.

(** What the allocator answers during one call; [strdup_ok] is asked per key. *)
Record alloc : Type := mk_alloc {
  malloc_ok : bool;
  calloc_ok : bool;
  strdup_ok : string → bool
}.

Definition alloc_all : alloc := mk_alloc true true (λ _, true).

Definition CXPR_HASHMAP_INITIAL_CAPACITY : nat := 32.

(** [while ((c = *str++)) hash = ((hash << 5) + hash) + c], in [unsigned long]. *)
Fixpoint hash_from (hash : Z) (str : string) : Z :=
  match str with
  | EmptyString => hash
  | String c str' =>
      if (c =? NUL)%char then hash
      else hash_from (wrap64 (wrap64 (Z.shiftl hash 5) + hash + ascii_code c)) str'
  end.

Definition cxpr_hash_string (str : string) : Z := hash_from 5381 str.

(** [(double)(count + 1) / capacity > CXPR_HASHMAP_LOAD_FACTOR].  Capacities are
    powers of two, so the quotient is exact and the comparison is that of the
    rationals (checked against the floating-point test below). *)
Definition overloaded (count capacity : nat) : bool := (3 * capacity <? 4 * (count + 1))%nat.

(** The load test of [overloaded], as the code computes it. *)
Definition overloaded_double (count capacity : nat) : bool :=
  fgtb (fdiv (of_Z (Z.of_nat (count + 1))) (of_Z (Z.of_nat capacity))) (strtod "0.75").

Example overloaded_exact :
  forallb (λ cap, forallb (λ n, eqb (overloaded n cap) (overloaded_double n cap)) (seq 0 cap))
    [32; 64; 128; 256] = true.
Proof. vm_compute. reflexivity. Qed.

Section table.
Context {V : Type}.
Abbreviation entry := (string * V)%type.
Abbreviation slots := (list (option entry)).
Implicit Types es : slots.

(** The probe loops [while (entries[hash].key) { ...; hash = (hash + 1) % capacity; }]:
    the first slot at which [stop] holds.  A read behind the array is undefined;
    the fuel bounds the iterations. *)
Fixpoint probe (stop : option entry → bool) (fuel : nat) (entries : slots)
    (capacity hash : nat) : run nat :=
  match fuel with
  | O => OutOfFuel
  | S fuel' =>
      match entries !! hash with
      | None => Undef
      | Some e =>
          if stop e then Done hash
          else probe stop fuel' entries capacity ((hash + 1) mod capacity)
      end
  end.

(** The loop condition fails: the slot has no key. *)
Definition stop_free (e : option entry) : bool :=
  match e with None => true | Some _ => false end.

(** The loop condition fails or the body returns: no key, or this key. *)
Definition stop_key (key : string) (e : option entry) : bool :=
  match e with None => true | Some (k, _) => (k =? key)%string end.

(** [hash % capacity] *)
Definition slot_of (hash : Z) (capacity : nat) : nat := Z.to_nat (hash mod Z.of_nat capacity).

(** The body of the rehashing loop of [cxpr_hashmap_grow], slot by slot. *)
Fixpoint rehash (old : slots) (new_entries : slots) (new_capacity : nat) : run slots :=
  match old with
  | [] => Done new_entries
  | None :: old' => rehash old' new_entries new_capacity
  | Some (key, value) :: old' =>
      let* hash := probe stop_free new_capacity new_entries new_capacity
                     (slot_of (cxpr_hash_string key) new_capacity) in
      rehash old' (<[hash := Some (key, value)]> new_entries) new_capacity
  end.

(** ** Probing *)

Section probing.
Context (cap : nat) (Hcap : 0 < cap).

Lemma slot_of_lt hash : slot_of hash cap < cap.
Proof. unfold slot_of. pose proof (Z.mod_pos_bound hash (Z.of_nat cap) ltac:(lia)). lia. Qed.

(** The [n]-th slot of the probe sequence from [h]. *)
Definition nth_slot (h n : nat) : nat := (h + n) mod cap.

Lemma nth_slot_lt h n : nth_slot h n < cap.
Proof. apply Nat.mod_upper_bound. lia. Qed.

Lemma nth_slot_0 h : h < cap → nth_slot h 0 = h.
Proof. intros. unfold nth_slot. rewrite Nat.add_0_r. by apply Nat.mod_small. Qed.

Lemma nth_slot_S h n : nth_slot ((h + 1) mod cap) n = nth_slot h (S n).
Proof.
  unfold nth_slot. rewrite Nat.Div0.add_mod_idemp_l. f_equal. lia.
Qed.

(** Every slot is on every probe sequence. *)
Lemma nth_slot_surj h i : h < cap → i < cap → ∃ n, n < cap ∧ nth_slot h n = i.
Proof.
  intros Hh Hi. unfold nth_slot. destruct (decide (h ≤ i)).
  - exists (i - h). split; [lia|]. replace (h + (i - h)) with i by lia. by apply Nat.mod_small.
  - exists (i + cap - h). split; [lia|]. replace (h + (i + cap - h)) with (i + 1 * cap) by lia.
    rewrite Nat.Div0.mod_add. by apply Nat.mod_small.
Qed.

Context (es : slots) (Hlen : length es = cap).

Definition stops (stop : option entry → bool) (i : nat) : Prop :=
  ∃ e, es !! i = Some e ∧ stop e = true.

Lemma probe_spec stop fuel h n :
  h < cap → n < fuel → stops stop (nth_slot h n) →
  ∃ k, k ≤ n ∧ probe stop fuel es cap h = Done (nth_slot h k) ∧
    stops stop (nth_slot h k) ∧ ∀ d, d < k → ¬ stops stop (nth_slot h d).
Proof.
  revert h n; induction fuel as [|fuel IH]; intros h n Hh Hn Hstop; [lia|]. cbn [probe].
  destruct (lookup_lt_is_Some_2 es h) as [e He]; [lia|]. rewrite He.
  destruct (stop e) eqn:Ee.
  { exists 0. rewrite nth_slot_0 by done. split_and!; [lia|done|by exists e|lia]. }
  assert (Hh0 : ¬ stops stop h) by (intros (e' & ? & ?); congruence).
  destruct n as [|n]; [by rewrite nth_slot_0 in Hstop by done|].
  rewrite <- nth_slot_S in Hstop.
  destruct (IH ((h + 1) mod cap) n) as (k & Hk & -> & Hs & Hd);
    [apply Nat.mod_upper_bound; lia|lia|done|].
  rewrite nth_slot_S in *. exists (S k). split_and!; [lia|done|done|].
  intros [|d] Hdk; [by rewrite nth_slot_0|]. rewrite <- nth_slot_S. apply Hd. lia.
Qed.

(** Without a slot to stop at, the loop never ends. *)
Lemma probe_diverges stop fuel h :
  h < cap → (∀ i, ¬ stops stop i) → probe stop fuel es cap h = OutOfFuel.
Proof.
  revert h; induction fuel as [|fuel IH]; intros h Hh Hno; cbn [probe]; [done|].
  destruct (lookup_lt_is_Some_2 es h) as [e He]; [lia|]. rewrite He.
  destruct (stop e) eqn:Ee; [by destruct (Hno h); exists e|].
  apply IH; [apply Nat.mod_upper_bound; lia|done].
Qed.
End probing.

(** ** The table invariant *)

(** The entries stored in the table, in slot order. *)
Fixpoint used (es : slots) : list entry :=
  match es with
  | [] => []
  | Some e :: es' => e :: used es'
  | None :: es' => used es'
  end.

Definition occ (es : slots) : nat := length (used es).

Definition home (es : slots) (key : string) : nat := slot_of (cxpr_hash_string key) (length es).

Definition occupied (es : slots) (i : nat) : Prop := ∃ e, es !! i = Some (Some e).

(** Keys are distinct, and every key is reached from its home slot over
    occupied slots only. *)
Record table_ok (es : slots) : Prop := {
  table_uniq i j k v w : es !! i = Some (Some (k, v)) → es !! j = Some (Some (k, w)) → i = j;
  table_chain i k v : es !! i = Some (Some (k, v)) →
    ∃ n, n < length es ∧ i = nth_slot (length es) (home es k) n ∧
      ∀ d, d < n → occupied es (nth_slot (length es) (home es k) d)
}.

(** The finite map a table stores. *)
Definition table_map (es : slots) : gmap string V := list_to_map (used es).

Lemma occ_le es : occ es ≤ length es.
Proof. unfold occ. induction es as [|[e|] es IH]; simpl; lia. Qed.

Lemma occ_insert_free es i e :
  es !! i = Some None → occ (<[i := Some e]> es) = S (occ es).
Proof.
  unfold occ. revert i; induction es as [|[e'|] es IH]; intros [|i] H; simpl in *; simplify_eq; auto.
Qed.

Lemma occ_insert_occupied es i e e' :
  es !! i = Some (Some e') → occ (<[i := Some e]> es) = occ es.
Proof.
  unfold occ. revert i; induction es as [|[e''|] es IH]; intros [|i] H; simpl in *; simplify_eq; auto.
Qed.

Lemma occ_free es : occ es < length es → ∃ i, es !! i = Some None.
Proof.
  unfold occ. induction es as [|[e|] es IH]; simpl; intros H; [lia| |by exists 0].
  destruct IH as [i Hi]; [lia|]. by exists (S i).
Qed.

Lemma occ_full es i : occ es = length es → es !! i ≠ Some None.
Proof.
  unfold occ. revert i; induction es as [|[e|] es IH]; intros [|i] H; simpl in *; try done.
  - apply IH. lia.
  - pose proof (occ_le es). unfold occ in *. lia.
  - pose proof (occ_le es). unfold occ in *. lia.
Qed.

Lemma occ_replicate n : occ (replicate n None) = 0.
Proof. unfold occ. by induction n. Qed.

Lemma table_elem es k v : (k, v) ∈ used es ↔ ∃ i, es !! i = Some (Some (k, v)).
Proof.
  induction es as [|[e|] es IH]; simpl.
  - split; [by intros ?%elem_of_nil|by intros []].
  - rewrite elem_of_cons, IH. split.
    + intros [->|[i Hi]]; [by exists 0|by exists (S i)].
    + intros [[|i] Hi]; simpl in Hi; [left; by simplify_eq|right; by exists i].
  - rewrite IH. split; [intros [i Hi]; by exists (S i)|].
    intros [[|i] Hi]; simpl in Hi; [done|by exists i].
Qed.

Lemma table_nodup es : table_ok es → NoDup (used es).*1.
Proof.
  intros [Hu _].
  assert (H : ∀ i j k v w, es !! i = Some (Some (k, v)) → es !! j = Some (Some (k, w)) → i = j)
    by exact Hu. clear Hu.
  induction es as [|[[k v]|] es IH]; simpl; [constructor| |].
  - constructor.
    + intros ([k' w] & -> & Hin)%list_elem_of_fmap. apply table_elem in Hin as [i Hi].
      by specialize (H 0 (S i) k' v w eq_refl Hi).
    + apply IH. intros i j k' v' w Hi Hj. by specialize (H (S i) (S j) k' v' w Hi Hj) as [=].
  - apply IH. intros i j k' v' w Hi Hj. by specialize (H (S i) (S j) k' v' w Hi Hj) as [=].
Qed.

Lemma table_map_lookup es k v :
  table_ok es → table_map es !! k = Some v ↔ ∃ i, es !! i = Some (Some (k, v)).
Proof.
  intros Hok. unfold table_map. rewrite <- table_elem. symmetry.
  apply elem_of_list_to_map, table_nodup, Hok.
Qed.

Lemma table_map_None es k :
  table_ok es → table_map es !! k = None ↔ ∀ i v, es !! i ≠ Some (Some (k, v)).
Proof.
  intros Hok. rewrite eq_None_not_Some. unfold is_Some.
  setoid_rewrite (table_map_lookup es k _ Hok). naive_solver.
Qed.

Lemma occupied_insert es i e j : occupied es j → occupied (<[i := Some e]> es) j.
Proof.
  intros [e' He']. destruct (decide (i = j)) as [->|].
  - exists e. apply list_lookup_insert_eq. by eapply lookup_lt_Some.
  - exists e'. by rewrite list_lookup_insert_ne.
Qed.

(** A write that keeps the keys distinct and is reachable keeps the invariant. *)
Lemma table_ok_insert es i key v :
  table_ok es → i < length es →
  (∀ j w, es !! j = Some (Some (key, w)) → i = j) →
  (∀ e, es !! i = Some (Some e) → fst e = key) →
  (∃ n, n < length es ∧ i = nth_slot (length es) (home es key) n ∧
     ∀ d, d < n → occupied es (nth_slot (length es) (home es key) d)) →
  table_ok (<[i := Some (key, v)]> es) ∧
  table_map (<[i := Some (key, v)]> es) = <[key := v]> (table_map es).
Proof.
  intros Hok Hi Hkey Hold Hchain.
  assert (Hlook : ∀ j k w, <[i := Some (key, v)]> es !! j = Some (Some (k, w)) →
    (j = i ∧ k = key ∧ w = v) ∨ (j ≠ i ∧ k ≠ key ∧ es !! j = Some (Some (k, w)))).
  { intros j k w. destruct (decide (i = j)) as [->|].
    - rewrite list_lookup_insert_eq by done. intros [= <- <-]. auto.
    - rewrite list_lookup_insert_ne by done. intros Hj. right.
      split_and!; auto. intros ->. by apply n, (Hkey j w). }
  assert (Hok' : table_ok (<[i := Some (key, v)]> es)).
  { split.
    - intros j1 j2 k w1 w2 [(->&->&->)|(?&?&?)]%Hlook [(->&?&->)|(?&?&?)]%Hlook; try done.
      by eapply (table_uniq es Hok).
    - unfold home. rewrite length_insert. intros j k w [(->&->&->)|(?&?&Hj)]%Hlook.
      + destruct Hchain as (n & ? & ? & Hd). exists n. eauto using occupied_insert.
      + destruct (table_chain es Hok _ _ _ Hj) as (n & ? & ? & Hd).
        exists n. eauto using occupied_insert. }
  split; [done|]. apply map_eq. intros k. apply option_eq. intros w.
  rewrite table_map_lookup by done. destruct (decide (k = key)) as [->|Hk].
  - rewrite lookup_insert_eq. split.
    + intros [j [(->&_&->)|(_&?&_)]%Hlook]; done.
    + intros [= <-]. exists i. by rewrite list_lookup_insert_eq.
  - rewrite lookup_insert_ne, table_map_lookup by done. split.
    + intros [j [(_&?&_)|(_&_&?)]%Hlook]; [done|eauto].
    + intros [j Hj]. exists j. destruct (decide (i = j)) as [->|].
      * apply Hold in Hj. simpl in Hj. congruence.
      * by rewrite list_lookup_insert_ne.
Qed.

(** Looking a key up: the probe stops at the key, or at a free slot when the
    key is absent. *)
Lemma probe_key_spec es key :
  table_ok es → occ es < length es →
  ∃ i, probe (stop_key key) (length es) es (length es) (home es key) = Done i ∧
    ((∃ v, es !! i = Some (Some (key, v)) ∧ table_map es !! key = Some v) ∨
     (es !! i = Some None ∧ table_map es !! key = None)).
Proof.
  intros Hok Hocc. assert (Hcap : 0 < length es) by lia.
  pose proof (slot_of_lt _ Hcap (cxpr_hash_string key)) as Hh. fold (home es key) in Hh.
  destruct (occ_free es Hocc) as [f Hf].
  destruct (nth_slot_surj _ Hcap (home es key) f Hh) as (n & Hn & Hfn); [by eapply lookup_lt_Some|].
  destruct (probe_spec _ Hcap es eq_refl (stop_key key) (length es) (home es key) n)
    as (k & Hk & -> & (e & He & Hs) & Hmin); [done..|rewrite Hfn; by exists None|].
  eexists; split; [done|]. destruct e as [[k' v]|]; simpl in Hs.
  - apply String.eqb_eq in Hs as ->. left. exists v. split; [done|].
    apply table_map_lookup; eauto.
  - right. split; [done|]. apply table_map_None; [done|]. intros i v Hi.
    destruct (table_chain es Hok _ _ _ Hi) as (m & Hm & -> & Hd).
    destruct (Nat.lt_trichotomy k m) as [Hlt|[->|Hgt]].
    + destruct (Hd k Hlt) as [e He']. congruence.
    + congruence.
    + apply (Hmin m Hgt). exists (Some (key, v)). split; [done|]. apply String.eqb_refl.
Qed.

(** The slot found for a key is reached from its home slot over occupied slots. *)
Lemma probe_key_chain es key i :
  occ es < length es →
  probe (stop_key key) (length es) es (length es) (home es key) = Done i →
  ∃ n, n < length es ∧ i = nth_slot (length es) (home es key) n ∧
    ∀ d, d < n → occupied es (nth_slot (length es) (home es key) d).
Proof.
  intros Hocc Hprobe. assert (Hcap : 0 < length es) by lia.
  pose proof (slot_of_lt _ Hcap (cxpr_hash_string key)) as Hh. fold (home es key) in Hh.
  destruct (occ_free es Hocc) as [f Hf].
  destruct (nth_slot_surj _ Hcap (home es key) f Hh) as (n & Hn & Hfn); [by eapply lookup_lt_Some|].
  destruct (probe_spec _ Hcap es eq_refl (stop_key key) (length es) (home es key) n)
    as (k & Hk & Hp & _ & Hmin); [done..|rewrite Hfn; by exists None|].
  rewrite Hp in Hprobe. injection Hprobe as <-. exists k. split_and!; [lia|done|].
  intros d Hd. destruct (lookup_lt_is_Some_2 es (nth_slot (length es) (home es key) d)) as [[e|] He];
    [by apply nth_slot_lt|by exists e|]. destruct (Hmin d Hd). by exists None.
Qed.

(** Inserting a new key in the first free slot of its probe sequence. *)
Lemma probe_free_spec es key v :
  table_ok es → occ es < length es → table_map es !! key = None →
  ∃ i, probe stop_free (length es) es (length es) (home es key) = Done i ∧
    i < length es ∧ es !! i = Some None ∧
    table_ok (<[i := Some (key, v)]> es) ∧
    table_map (<[i := Some (key, v)]> es) = <[key := v]> (table_map es).
Proof.
  intros Hok Hocc Hnone. assert (Hcap : 0 < length es) by lia.
  pose proof (slot_of_lt _ Hcap (cxpr_hash_string key)) as Hh. fold (home es key) in Hh.
  destruct (occ_free es Hocc) as [f Hf].
  destruct (nth_slot_surj _ Hcap (home es key) f Hh) as (n & Hn & Hfn); [by eapply lookup_lt_Some|].
  destruct (probe_spec _ Hcap es eq_refl stop_free (length es) (home es key) n)
    as (k & Hk & -> & ([e|] & He & Hs) & Hmin); [done..|rewrite Hfn; by exists None|done|].
  pose proof (nth_slot_lt _ Hcap (home es key) k) as Hi.
  eexists; do 3 (split; [done|]). apply table_ok_insert; auto.
  - intros j w Hj. by destruct (proj1 (table_map_None es key Hok) Hnone j w).
  - intros e He'. congruence.
  - exists k. split_and!; [lia|done|]. intros d Hd.
    destruct (lookup_lt_is_Some_2 es (nth_slot (length es) (home es key) d)) as [[e|] He'];
      [by apply nth_slot_lt|by exists e|].
    destruct (Hmin d Hd). by exists None.
Qed.

Lemma table_ok_empty n : table_ok (replicate n None).
Proof.
  assert (H : ∀ i (e : entry), replicate n None !! i ≠ Some (Some e))
    by (intros i e [? _]%lookup_replicate; done).
  split; intros * Hi; by apply H in Hi.
Qed.

Lemma table_map_empty n : table_map (replicate n None) = ∅.
Proof. unfold table_map. assert (used (replicate n None) = []) as -> by (by induction n). done. Qed.

Lemma used_occ_nil es : occ es = 0 → table_map es = ∅.
Proof. unfold occ, table_map. by intros ->%length_zero_iff_nil. Qed.

(** Rehashing moves every entry of the old table into the new one. *)
Lemma rehash_spec old new :
  table_ok new → NoDup (used old).*1 → (∀ k v, (k, v) ∈ used old → table_map new !! k = None) →
  occ new + occ old < length new →
  ∃ es, rehash old new (length new) = Done es ∧ table_ok es ∧ length es = length new ∧
    occ es = occ new + occ old ∧ table_map es = list_to_map (used old) ∪ table_map new.
Proof.
  revert new; induction old as [|[[k v]|] old IH]; intros new Hok Hnd Hfresh Hocc; simpl in *.
  - exists new. split_and!; auto. by rewrite (left_id_L ∅ (∪)).
  - apply NoDup_cons in Hnd as [Hk Hnd]. unfold occ in Hocc at 2. simpl in Hocc.
    fold (home new k).
    destruct (probe_free_spec new k v) as (i & -> & Hi & Hnone & Hok' & Hmap);
      [done|lia|apply (Hfresh k v); by left|]. simpl.
    rewrite <- (length_insert new i (Some (k, v))).
    destruct (IH (<[i := Some (k, v)]> new)) as (es & -> & ? & Hlen & Hoc & Hm); auto.
    + intros k' v' Hin. rewrite Hmap, lookup_insert_ne; [apply (Hfresh k' v'); by right|].
      intros ->. apply Hk, list_elem_of_fmap. by exists (k', v').
    + rewrite occ_insert_free, length_insert by done. unfold occ in *. lia.
    + exists es. split_and!; auto.
      * rewrite Hoc, occ_insert_free by done. unfold occ; simpl; lia.
      * rewrite Hm, Hmap. symmetry. rewrite <- insert_union_l, insert_union_r; [done|].
        by apply not_elem_of_list_to_map_1.
  - destruct (IH new) as (es & -> & ? & ? & ? & ?); auto.
    exists es. split_and!; auto.
Qed.

(** ** Removal

    [cxpr_context_remove_struct] and [cxpr_context_remove_array] empty the slot
    of a key and then take every entry of the run of occupied slots behind it out
    and put it back at the first free slot of its own probe sequence. *)

(** The [while (entries[index].name)] loop, with the updates of [count]. *)
Fixpoint reinsert_run (fuel : nat) (entries : slots) (count capacity index : nat)
    : run (slots * nat) :=
  match fuel with
  | O => OutOfFuel
  | S fuel' =>
      match entries !! index with
      | None => Undef
      | Some None => Done (entries, count)
      | Some (Some (key, value)) =>
          let entries := <[index := None]> entries in
          let count := if 0 <? count then count - 1 else count in
          let* target := probe (stop_key key) capacity entries capacity
                           (slot_of (cxpr_hash_string key) capacity) in
          reinsert_run fuel' (<[target := Some (key, value)]> entries) (count + 1) capacity
            ((index + 1) mod capacity)
      end
  end.

Lemma nth_slot_add cap h x y : nth_slot cap h (x + y) = nth_slot cap (nth_slot cap h x) y.
Proof. unfold nth_slot. rewrite Nat.Div0.add_mod_idemp_l. f_equal. lia. Qed.

Lemma nth_slot_inj cap h x y : x < cap → y < cap → nth_slot cap h x = nth_slot cap h y → x = y.
Proof.
  unfold nth_slot. intros Hx Hy Heq.
  assert (∀ a b, a ≤ b → b < cap → (h + a) mod cap = (h + b) mod cap → a = b) as Hle.
  { intros a b Hab Hb Hm.
    pose proof (Nat.div_mod_eq (h + a) cap). pose proof (Nat.div_mod_eq (h + b) cap).
    assert ((h + b) / cap = (h + a) / cap ∨ (h + a) / cap < (h + b) / cap) as [E|E].
    { pose proof (Nat.Div0.div_le_mono (h + a) (h + b) cap). lia. }
    - rewrite E in *. lia.
    - assert (cap * S ((h + a) / cap) ≤ cap * ((h + b) / cap)) by (apply Nat.mul_le_mono_l; lia). lia. }
  destruct (Nat.le_gt_cases x y); [by apply Hle|]. symmetry. apply Hle; auto; lia.
Qed.

Section removal.
Context (cap i0 e : nat) (Hi0 : i0 < cap) (He1 : 1 ≤ e) (Hecap : e < cap).

(** The slots behind the emptied one. *)
Definition behind (d : nat) : nat := nth_slot cap i0 d.

(** The key is reached from its home slot over occupied slots. *)
Definition reached (es : slots) (k : string) (p : nat) : Prop :=
  ∃ n, n < cap ∧ p = nth_slot cap (slot_of (cxpr_hash_string k) cap) n ∧
    ∀ x, x < n → occupied es (nth_slot cap (slot_of (cxpr_hash_string k) cap) x).

(** A chain of occupied slots through a slot of the run ends inside the run. *)
Lemma chain_in_run es h n x m :
  n < cap → x < n → nth_slot cap h x = behind m → m < e → es !! behind e = Some None →
  (∀ y, y < n → occupied es (nth_slot cap h y)) →
  es !! nth_slot cap h n ≠ Some None →
  m + (n - x) < e ∧ nth_slot cap h n = behind (m + (n - x)).
Proof.
  intros Hn Hx Hm Hme Hfree Hocc Hp.
  assert (Hat : ∀ y, nth_slot cap h (x + y) = behind (m + y)).
  { intros y. unfold behind in Hm |- *. by rewrite nth_slot_add, Hm, <- nth_slot_add. }
  assert (Hpn : nth_slot cap h n = behind (m + (n - x))).
  { rewrite <- Hat. f_equal. lia. }
  split; [|done]. destruct (Nat.lt_ge_cases (m + (n - x)) e) as [|Hge]; [done|]. exfalso.
  destruct (decide (m + (n - x) = e)) as [Heq|Hne].
  { rewrite Hpn, Heq in Hp. congruence. }
  destruct (Hocc (x + (e - m))) as [v Hv]; [lia|].
  rewrite Hat in Hv. replace (m + (e - m)) with e in Hv by lia. congruence.
Qed.

(** The state of the loop at [behind m]: the entries not yet visited are
    [behind m .. behind (e - 1)]. *)
Record run_inv (m : nat) (es : slots) : Prop := {
  ri_len : length es = cap;
  ri_m : m ≤ e;
  ri_run d : m ≤ d < e → occupied es (behind d);
  ri_end : es !! behind e = Some None;
  ri_uniq i j k v w : es !! i = Some (Some (k, v)) → es !! j = Some (Some (k, w)) → i = j;
  ri_done p k v : es !! p = Some (Some (k, v)) → (∀ d, m ≤ d < e → p ≠ behind d) → reached es k p;
  ri_todo d k v : m ≤ d < e → es !! behind d = Some (Some (k, v)) →
    ∃ n, n < cap ∧ behind d = nth_slot cap (slot_of (cxpr_hash_string k) cap) n ∧
      ∀ x, x < n → occupied es (nth_slot cap (slot_of (cxpr_hash_string k) cap) x) ∨
                   ∃ y, y < m ∧ nth_slot cap (slot_of (cxpr_hash_string k) cap) x = behind y
}.

Lemma occupied_delete es i j : i ≠ j → occupied es j → occupied (<[i := None]> es) j.
Proof. intros Hne [x Hx]. exists x. by rewrite list_lookup_insert_ne. Qed.

(** An entry outside the rest of the run is reached without the slot [behind m]. *)
Lemma reached_beside m es p k v :
  run_inv m es → m < e → es !! p = Some (Some (k, v)) → p ≠ behind m →
  (∀ d, S m ≤ d < e → p ≠ behind d) →
  ∃ n, n < cap ∧ p = nth_slot cap (slot_of (cxpr_hash_string k) cap) n ∧
    ∀ x, x < n → occupied es (nth_slot cap (slot_of (cxpr_hash_string k) cap) x) ∧
                 nth_slot cap (slot_of (cxpr_hash_string k) cap) x ≠ behind m.
Proof.
  intros Hinv Hm Hp Hne Hnot. assert (Hr : reached es k p).
  { eapply ri_done; [done|done|]. intros d Hd. destruct (decide (d = m)) as [->|]; [done|].
    apply Hnot. lia. }
  destruct Hr as (n & Hn & -> & Hx). exists n. split_and!; [done|done|].
  intros x Hxn. split; [by apply Hx|]. intros Heq.
  destruct (chain_in_run es _ n x m Hn Hxn Heq Hm (ri_end _ _ Hinv) Hx) as [Hlt Hpos].
  { rewrite Hp. done. }
  apply (Hnot (m + (n - x))); [lia|done].
Qed.

(** The table with the entry at [behind m] taken out and put back at [t], a free
    slot of its own chain among the visited ones. *)
Lemma run_inv_step m es k v t n :
  run_inv m es → m < e → es !! behind m = Some (Some (k, v)) →
  n < cap → t = nth_slot cap (slot_of (cxpr_hash_string k) cap) n →
  (t = behind m ∨ (es !! t = Some None ∧ ∃ y, y < m ∧ t = behind y)) →
  (∀ x, x < n → occupied (<[behind m := None]> es) (nth_slot cap (slot_of (cxpr_hash_string k) cap) x)) →
  run_inv (S m) (<[t := Some (k, v)]> (<[behind m := None]> es)).
Proof.
  intros Hinv Hm Hk Hn Ht Hwhere Hchain.
  set (es' := <[t := Some (k, v)]> (<[behind m := None]> es)).
  assert (Hcap : 0 < cap) by lia.
  assert (Hb : ∀ d, behind d < cap) by (intros; apply nth_slot_lt; lia).
  assert (Hlen : length es = cap) by apply Hinv.
  assert (Htlt : t < cap) by (subst t; apply nth_slot_lt; lia).
  assert (Hinj : ∀ x y, x < cap → y < cap → behind x = behind y → x = y)
    by (intros x y; unfold behind; apply nth_slot_inj).
  assert (Htv : ∃ y, y ≤ m ∧ t = behind y).
  { destruct Hwhere as [->|(_ & y & ? & ->)]; [by exists m|exists y; split; [lia|done]]. }
  assert (Hlook : ∀ p x, es' !! p = Some (Some x) →
    (p = t ∧ x = (k, v)) ∨ (p ≠ t ∧ p ≠ behind m ∧ es !! p = Some (Some x))).
  { intros p x. unfold es'. rewrite !list_lookup_insert_Some. naive_solver. }
  assert (Hother : ∀ p, p ≠ t → p ≠ behind m → es' !! p = es !! p).
  { intros p ??. unfold es'. by rewrite !list_lookup_insert_ne. }
  assert (Hocc : ∀ p, p ≠ behind m → occupied es p → occupied es' p).
  { intros p Hp Ho. apply occupied_insert, occupied_delete; auto. }
  assert (Hafter : ∀ d, m < d ≤ e → es' !! behind d = es !! behind d).
  { intros d Hd. destruct Htv as (y & Hy & ->).
    apply Hother; intros Heq; apply Hinj in Heq; lia. }
  split.
  - unfold es'. by rewrite !length_insert.
  - lia.
  - intros d Hd. destruct (ri_run _ _ Hinv d) as [x Hx]; [lia|].
    exists x. by rewrite Hafter by lia.
  - rewrite Hafter by lia. apply Hinv.
  - intros i j k' a b Hi Hj.
    apply Hlook in Hi as [[-> [= -> ->]]|(Hi1 & Hi2 & Hi)];
      apply Hlook in Hj as [[-> [= <-]]|(Hj1 & Hj2 & Hj)]; try done.
    + destruct Hj2. by eapply ri_uniq.
    + simplify_eq. destruct Hi2. by eapply ri_uniq.
    + by eapply ri_uniq.
  - intros p k' a Hp Hnot. apply Hlook in Hp as [[-> [= -> ->]]|(Hp1 & Hp2 & Hp)].
    + exists n. split_and!; [done|done|]. intros x Hx. by apply occupied_insert, Hchain.
    + destruct (reached_beside m es p k' a Hinv Hm Hp Hp2 Hnot) as (n' & Hn' & -> & Hx).
      exists n'. split_and!; [done|done|]. intros x Hxn. by apply Hocc; apply Hx.
  - intros d k' a Hd Hda. rewrite Hafter in Hda by lia.
    destruct (ri_todo _ _ Hinv d k' a) as (n' & Hn' & Hpos & Hx); [lia|done|].
    exists n'. split_and!; [done|done|]. intros x Hxn.
    destruct (decide (nth_slot cap (slot_of (cxpr_hash_string k') cap) x = behind m)) as [Heq|Hne].
    + right. exists m. split; [lia|done].
    + destruct (Hx x Hxn) as [Ho|(y & Hy & Heq)]; [left; by apply Hocc|right; exists y; split; [lia|done]].
Qed.

(** The slot [cxpr_struct_map_find_slot] finds for the entry taken out. *)
Lemma run_inv_probe m es k v :
  run_inv m es → m < e → es !! behind m = Some (Some (k, v)) →
  ∃ n, n < cap ∧
    probe (stop_key k) cap (<[behind m := None]> es) cap (slot_of (cxpr_hash_string k) cap)
    = Done (nth_slot cap (slot_of (cxpr_hash_string k) cap) n) ∧
    <[behind m := None]> es !! nth_slot cap (slot_of (cxpr_hash_string k) cap) n = Some None ∧
    (nth_slot cap (slot_of (cxpr_hash_string k) cap) n = behind m ∨
     (es !! nth_slot cap (slot_of (cxpr_hash_string k) cap) n = Some None ∧
      ∃ y, y < m ∧ nth_slot cap (slot_of (cxpr_hash_string k) cap) n = behind y)) ∧
    (∀ x, x < n →
       occupied (<[behind m := None]> es) (nth_slot cap (slot_of (cxpr_hash_string k) cap) x)).
Proof.
  intros Hinv Hm Hk. set (h := slot_of (cxpr_hash_string k) cap).
  assert (Hcap : 0 < cap) by lia. pose proof (ri_len _ _ Hinv) as Hlen.
  destruct (ri_todo _ _ Hinv m k v) as (n0 & Hn0 & Hpos & Hx); [lia|done|]. fold h in Hpos, Hx.
  assert (Hb : behind m < length es) by (rewrite Hlen; apply nth_slot_lt; lia).
  destruct (probe_spec cap Hcap (<[behind m := None]> es) ltac:(by rewrite length_insert)
              (stop_key k) cap h n0) as (n & Hn & Hprobe & (x & Hxe & Hstop) & Hmin).
  { apply slot_of_lt. lia. }
  { lia. }
  { exists None. rewrite <- Hpos. by rewrite list_lookup_insert_eq. }
  assert (x = None) as ->.
  { destruct x as [[k' w]|]; [|done]. simpl in Hstop. apply String.eqb_eq in Hstop as ->.
    apply list_lookup_insert_Some in Hxe as [(_ & ? & _)|[Hne Hxe]]; [done|].
    destruct Hne. by eapply ri_uniq. }
  exists n. split_and!; [lia|done|done| |].
  - destruct (decide (n = n0)) as [->|Hne]; [by left|right].
    assert (Hneq : behind m ≠ nth_slot cap h n).
    { rewrite Hpos. intros Heq. apply Hne. symmetry. by apply (nth_slot_inj cap h); lia. }
    rewrite list_lookup_insert_ne in Hxe by done. split; [done|].
    destruct (Hx n) as [[w Hw]|(y & Hy & Heq)]; [lia|congruence|by exists y].
  - intros y Hy. destruct (lookup_lt_is_Some_2 (<[behind m := None]> es) (nth_slot cap h y))
      as [[w|] Hw]; [rewrite length_insert, Hlen; apply nth_slot_lt; lia|by exists w|].
    destruct (Hmin y Hy). by exists None.
Qed.

Lemma occ_delete es i x : es !! i = Some (Some x) → S (occ (<[i := None]> es)) = occ es.
Proof.
  unfold occ. revert i; induction es as [|[y|] es IH]; intros [|i] Hi; simpl in *; simplify_eq; auto.
Qed.

(** Moving an entry to a free slot keeps the contents. *)
Lemma move_contents es i t x :
  es !! i = Some (Some x) → <[i := None]> es !! t = Some None →
  occ (<[t := Some x]> (<[i := None]> es)) = occ es ∧
  ∀ k v, (∃ p, <[t := Some x]> (<[i := None]> es) !! p = Some (Some (k, v))) ↔
         ∃ p, es !! p = Some (Some (k, v)).
Proof.
  intros Hi Ht. split; [rewrite occ_insert_free by done; by eapply occ_delete|].
  assert (Htl : t < length (<[i := None]> es)) by (by eapply lookup_lt_Some).
  intros k v. split.
  - intros [p Hp]. apply list_lookup_insert_Some in Hp as [(<- & [= ->] & _)|[_ Hp]]; [eauto|].
    apply list_lookup_insert_Some in Hp as [(_ & ? & _)|[_ Hp]]; [done|eauto].
  - intros [p Hp]. destruct (decide (p = i)) as [->|Hne].
    + exists t. rewrite list_lookup_insert_eq by done. congruence.
    + exists p. destruct (decide (t = p)) as [->|].
      * rewrite list_lookup_insert_ne in Ht by done. congruence.
      * by rewrite !list_lookup_insert_ne by done.
Qed.

Lemma reinsert_run_spec fuel m es :
  run_inv m es → e - m < fuel →
  ∃ es', reinsert_run fuel es (occ es) cap (behind m) = Done (es', occ es') ∧
    run_inv e es' ∧ occ es' = occ es ∧
    ∀ k v, (∃ p, es' !! p = Some (Some (k, v))) ↔ ∃ p, es !! p = Some (Some (k, v)).
Proof.
  revert m es; induction fuel as [|fuel IH]; intros m es Hinv Hf; [lia|]. cbn [reinsert_run].
  destruct (decide (m = e)) as [->|Hne].
  { rewrite (ri_end _ _ Hinv). exists es. split_and!; done. }
  pose proof (ri_m _ _ Hinv). destruct (ri_run _ _ Hinv m) as [[k v] Hk]; [lia|]. rewrite Hk.
  destruct (run_inv_probe m es k v Hinv ltac:(lia) Hk) as (n & Hn & -> & Hfree & Hw & Hch).
  cbn [run_bind]. pose proof (occ_delete es (behind m) _ Hk) as Hdel.
  rewrite (proj2 (Nat.ltb_lt 0 (occ es))) by lia. rewrite Nat.sub_add by lia.
  replace ((behind m + 1) mod cap) with (behind (S m)).
  2: { unfold behind. rewrite <- Nat.add_1_r, nth_slot_add. done. }
  destruct (move_contents es (behind m) _ (k, v) Hk Hfree) as [Ho Hc].
  destruct (IH (S m) (<[nth_slot cap (slot_of (cxpr_hash_string k) cap) n := Some (k, v)]>
                        (<[behind m := None]> es))) as (es' & Hr & Hi & Hocc & Hcont).
  { eapply run_inv_step; eauto. lia. }
  { lia. }
  rewrite Ho in Hr, Hocc. rewrite Hr. exists es'. split_and!; [done|done|done|]. intros k' v'. by rewrite Hcont, Hc.
Qed.

Lemma run_inv_table es : run_inv e es → table_ok es.
Proof.
  intros Hinv. pose proof (ri_len _ _ Hinv) as Hlen. split.
  - apply Hinv.
  - intros i k v Hi. unfold home. rewrite Hlen. eapply ri_done; [done|done|]. lia.
Qed.
End removal.

(** The first free slot behind an occupied one. *)
Lemma run_end es i x :
  es !! i = Some (Some x) → occ es < length es →
  ∃ e, 1 ≤ e < length es ∧ es !! behind (length es) i e = Some None ∧
    ∀ d, d < e → occupied es (behind (length es) i d).
Proof.
  intros Hi Hocc. assert (Hil : i < length es) by (by eapply lookup_lt_Some).
  destruct (occ_free es Hocc) as [f Hf].
  assert (Hcap : 0 < length es) by lia.
  destruct (nth_slot_surj (length es) Hcap i f Hil) as (n & Hn & Hfn); [by eapply lookup_lt_Some|].
  assert (Hleast : ∀ n, (∃ e, e ≤ n ∧ es !! behind (length es) i e = Some None ∧
                            ∀ d, d < e → occupied es (behind (length es) i d)) ∨
                        ∀ d, d ≤ n → occupied es (behind (length es) i d)).
  { clear n Hn Hfn. induction n as [|n [(e & ? & ? & ?)|IH]].
    - right. intros d Hd. exists x. replace d with 0 by lia. unfold behind. by rewrite nth_slot_0.
    - left. exists e. split_and!; auto.
    - destruct (lookup_lt_is_Some_2 es (behind (length es) i (S n))) as [[y|] Hy];
        [apply nth_slot_lt; lia| |].
      + right. intros d Hd. destruct (decide (d = S n)) as [->|]; [by exists y|apply IH; lia].
      + left. exists (S n). split_and!; auto. intros d Hd. apply IH. lia. }
  destruct (Hleast n) as [(e & He & Hfree & Hrun)|Hall].
  - exists e. split_and!; [|lia|done|done]. destruct e; [|lia].
    unfold behind in Hfree. rewrite nth_slot_0 in Hfree by done. congruence.
  - destruct (Hall n) as [y Hy]; [done|]. unfold behind in Hy. rewrite Hfn in Hy. congruence.
Qed.

(** Emptying a slot of a well-formed table leaves the run behind it to do. *)
Lemma run_inv_start es i key v e :
  table_ok es → es !! i = Some (Some (key, v)) → 1 ≤ e < length es →
  es !! behind (length es) i e = Some None →
  (∀ d, d < e → occupied es (behind (length es) i d)) →
  run_inv (length es) i e 1 (<[i := None]> es).
Proof.
  intros Hok Hi He Hend Hrun. assert (Hil : i < length es) by (by eapply lookup_lt_Some).
  assert (Hb0 : behind (length es) i 0 = i) by (unfold behind; by apply nth_slot_0).
  assert (Hne : ∀ d, 1 ≤ d ≤ e → i ≠ behind (length es) i d).
  { intros d Hd Heq. rewrite <- Hb0 in Heq at 1. apply nth_slot_inj in Heq; lia. }
  assert (Hlook : ∀ p x, <[i := None]> es !! p = Some (Some x) → p ≠ i ∧ es !! p = Some (Some x)).
  { intros p x Hp. apply list_lookup_insert_Some in Hp as [(_ & ? & _)|[? ?]]; done. }
  assert (Hchain : ∀ p k w, es !! p = Some (Some (k, w)) →
    ∃ n, n < length es ∧ p = nth_slot (length es) (home es k) n ∧
      ∀ x, x < n → occupied es (nth_slot (length es) (home es k) x)) by apply Hok.
  split.
  - by rewrite length_insert.
  - lia.
  - intros d Hd. apply occupied_delete; [apply Hne; lia|apply Hrun; lia].
  - rewrite list_lookup_insert_ne by (apply Hne; lia). done.
  - intros a b k w1 w2 [_ Ha]%Hlook [_ Hb]%Hlook. by eapply (table_uniq es Hok).
  - intros p k w [Hpi Hp]%Hlook Hnot. destruct (Hchain p k w Hp) as (n & Hn & Hpn & Hx).
    exists n. split_and!; [done|done|]. intros x Hxn. apply occupied_delete; [|by apply Hx].
    intros Heq. destruct (chain_in_run (length es) i e Hil ltac:(lia) ltac:(lia) es (home es k) n x 0) as [Hlt Hpos];
      [done|done|by rewrite Hb0|lia|done|done|congruence|].
    destruct (decide (n - x = 0)); [lia|].
    apply (Hnot (0 + (n - x))); [lia|]. by rewrite Hpn.
  - intros d k w Hd [_ Hdw]%Hlook. destruct (Hchain _ k w Hdw) as (n & Hn & Hpn & Hx).
    exists n. split_and!; [done|done|]. intros x Hxn.
    destruct (decide (nth_slot (length es) (slot_of (cxpr_hash_string k) (length es)) x = i)) as [Heq|].
    + right. exists 0. split; [lia|]. by rewrite Hb0.
    + left. apply occupied_delete; [done|by apply Hx].
Qed.

(** Removing a key gives a well-formed table without it. *)
Lemma remove_spec es i key v :
  table_ok es → occ es < length es → es !! i = Some (Some (key, v)) →
  ∃ es', reinsert_run (length es) (<[i := None]> es) (occ es - 1) (length es)
           ((i + 1) mod length es) = Done (es', occ es') ∧ table_ok es' ∧ length es' = length es ∧ S (occ es') = occ es ∧
    table_map es' = delete key (table_map es).
Proof.
  intros Hok Hocc Hi. assert (Hil : i < length es) by (by eapply lookup_lt_Some).
  destruct (run_end es i (key, v) Hi Hocc) as (e & He & Hend & Hrun).
  pose proof (run_inv_start es i key v e Hok Hi He Hend Hrun) as Hinv.
  destruct (reinsert_run_spec (length es) i e Hil ltac:(lia) ltac:(lia) (length es) 1 _ Hinv)
    as (es' & Hr & Hinv' & Ho & Hc); [lia|].
  pose proof (occ_delete es i _ Hi) as Hdel.
  replace (occ es - 1) with (occ (<[i := None]> es)) by lia.
  assert (Hok' : table_ok es') by (apply (run_inv_table (length es) i e); [lia..|done]).
  exists es'. split_and!; [exact Hr|done|apply Hinv'| |].
  - lia.
  - apply map_eq. intros k. apply option_eq. intros w.
    rewrite table_map_lookup, Hc, lookup_delete_Some, table_map_lookup by done. split.
    + intros [p Hp]. apply list_lookup_insert_Some in Hp as [(_ & ? & _)|[Hne Hp]]; [done|].
      split; [|eauto]. intros <-. apply Hne. by eapply (table_uniq es Hok).
    + intros [Hne [p Hp]]. exists p. rewrite list_lookup_insert_ne; [done|]. congruence.
Qed.
End table.
