(* ===== verification/Hashmap.v ===== *)
(** * Hashmap: the string-to-double table ([src/hashmap/hashmap.c])

    An open-addressed table with linear probing.  [hm_entries] is [None] for a
    NULL [entries] pointer; a slot is [None] when its key is NULL.  The outcome
    of the allocations a call makes is an argument of the call.  The file's
    theorems show that the table implements a finite map. *)

From Stdlib Require Import Ascii String ZArith Lia.
From stdpp Require Import base list strings gmap fin_maps.
From S2P Require Import Prelude Float64 OpenTable.
Local Open Scope run_scope.
Local Open Scope nat_scope.

(** ** Data *)

Abbreviation cxpr_hashmap_entry := (string * float64)%type.
Abbreviation slots := (list (option cxpr_hashmap_entry)).

Record cxpr_hashmap : Type := mk_hashmap {
  hm_entries : option slots;
  hm_capacity : nat;
  hm_count : nat
}.

(** ** Operations *)

Definition cxpr_hashmap_init (mem : alloc) : cxpr_hashmap :=
  let capacity := CXPR_HASHMAP_INITIAL_CAPACITY in
  mk_hashmap (if calloc_ok mem then Some (replicate capacity None) else None) capacity 0.

Definition cxpr_hashmap_destroy (map : cxpr_hashmap) : cxpr_hashmap :=
  match hm_entries map with
  | None => map
  | Some _ => mk_hashmap None 0 0
  end.

Definition cxpr_hashmap_grow (mem : alloc) (map : cxpr_hashmap) : run (bool * cxpr_hashmap) :=
  if (SIZE_MAX / 2 <? Z.of_nat (hm_capacity map))%Z then Done (false, map)
  else
    let new_capacity := hm_capacity map * 2 in
    if negb (calloc_ok mem) then Done (false, map)
    else
      match hm_entries map with
      | None => if hm_capacity map =? 0
                then Done (true, mk_hashmap (Some []) new_capacity (hm_count map)) else Undef
      | Some old =>
          let* new_entries := rehash old (replicate new_capacity None) new_capacity in
          Done (true, mk_hashmap (Some new_entries) new_capacity (hm_count map))
      end.

(** The index of the slot the returned pointer addresses. *)
Definition cxpr_hashmap_find_prehashed_slot (map : cxpr_hashmap) (key : string) (hash : Z)
    : run (option nat) :=
  match hm_entries map with
  | None => Done None
  | Some entries =>
      if hm_count map =? 0 then Done None
      else
        if hm_capacity map =? 0 then Undef
        else
          let* i := probe (stop_key key) (hm_capacity map) entries (hm_capacity map)
                      (slot_of hash (hm_capacity map)) in
          match entries !! i with
          | Some (Some _) => Done (Some i)
          | _ => Done None
          end
  end.

Definition cxpr_hashmap_set_prehashed (mem : alloc) (map : cxpr_hashmap) (key : string)
    (hash : Z) (value : float64) : run (bool * cxpr_hashmap) :=
  let* entry := cxpr_hashmap_find_prehashed_slot map key hash in
  match entry, hm_entries map with
  | Some i, Some entries =>
      Done (false, mk_hashmap (Some (<[i := Some (key, value)]> entries))
                     (hm_capacity map) (hm_count map))
  | _, _ =>
      let* '(_, map) :=
        if overloaded (hm_count map) (hm_capacity map) then cxpr_hashmap_grow mem map
        else Done (true, map) in
      if hm_capacity map =? 0 then Undef
      else
        match hm_entries map with
        | None => Undef
        | Some entries =>
            let* slot := probe stop_free (hm_capacity map) entries (hm_capacity map)
                           (slot_of hash (hm_capacity map)) in
            let entry := if strdup_ok mem key then Some (key, value) else None in
            Done (true, mk_hashmap (Some (<[slot := entry]> entries))
                          (hm_capacity map) (hm_count map + 1))
        end
  end.

(** [cxpr_hashmap_set] hashes the key and then runs the same code. *)
Definition cxpr_hashmap_set (mem : alloc) (map : cxpr_hashmap) (key : string) (value : float64)
    : run (bool * cxpr_hashmap) :=
  let hash := cxpr_hash_string key in
  cxpr_hashmap_set_prehashed mem map key hash value.

(** The returned number and [*found]. *)
Definition cxpr_hashmap_get_prehashed (map : cxpr_hashmap) (key : string) (hash : Z)
    : run (float64 * bool) :=
  match hm_entries map with
  | None => Done (fzero, false)
  | Some entries =>
      if hm_count map =? 0 then Done (fzero, false)
      else if hm_capacity map =? 0 then Undef
      else
        let* i := probe (stop_key key) (hm_capacity map) entries (hm_capacity map)
                    (slot_of hash (hm_capacity map)) in
        match entries !! i with
        | Some (Some (_, value)) => Done (value, true)
        | _ => Done (fzero, false)
        end
  end.

Definition cxpr_hashmap_get (map : cxpr_hashmap) (key : string) : run (float64 * bool) :=
  cxpr_hashmap_get_prehashed map key (cxpr_hash_string key).

(** The read-only twin of [cxpr_hashmap_find_prehashed_slot]; the entry itself. *)
Definition cxpr_hashmap_find_prehashed_entry (map : cxpr_hashmap) (key : string) (hash : Z)
    : run (option cxpr_hashmap_entry) :=
  match hm_entries map with
  | None => Done None
  | Some entries =>
      if hm_count map =? 0 then Done None
      else if hm_capacity map =? 0 then Undef
      else
        let* i := probe (stop_key key) (hm_capacity map) entries (hm_capacity map)
                    (slot_of hash (hm_capacity map)) in
        match entries !! i with
        | Some (Some e) => Done (Some e)
        | _ => Done None
        end
  end.

Definition cxpr_hashmap_clear (map : cxpr_hashmap) : run cxpr_hashmap :=
  match hm_entries map with
  | Some _ => Done (mk_hashmap (Some (replicate (hm_capacity map) None)) (hm_capacity map) 0)
  | None => if hm_capacity map =? 0 then Done (mk_hashmap None 0 0) else Undef
  end.

(** [None] is the NULL result. *)
Definition cxpr_hashmap_clone (mem : alloc) (map : cxpr_hashmap) : run (option cxpr_hashmap) :=
  if negb (malloc_ok mem) then Done None
  else if negb (calloc_ok mem) then Done None
  else
    match hm_entries map with
    | None => if hm_capacity map =? 0
              then Done (Some (mk_hashmap (Some []) 0 (hm_count map))) else Undef
    | Some entries =>
        let copy e := match e with
                      | Some (key, value) => if strdup_ok mem key then Some (key, value) else None
                      | None => None
                      end in
        Done (Some (mk_hashmap (Some (copy <$> entries)) (hm_capacity map) (hm_count map)))
    end.

(** ** The hash map as a finite map

    [hashmap_wf map]: the entries are a well-formed table of [capacity] slots
    that holds [count] keys and has a free slot, which every probe loop needs
    to end. *)
Record hashmap_wf (map : cxpr_hashmap) (es : slots) : Prop := {
  wf_entries : hm_entries map = Some es;
  wf_capacity : hm_capacity map = length es;
  wf_table : table_ok es;
  wf_count : hm_count map = occ es;
  wf_free : occ es < length es
}.

Implicit Types es : slots.

Lemma get_spec map es key :
  hashmap_wf map es →
  cxpr_hashmap_get map key =
  Done (match table_map es !! key with Some v => (v, true) | None => (fzero, false) end).
Proof.
  intros [He Hc Hok Hn Hf]. unfold cxpr_hashmap_get, cxpr_hashmap_get_prehashed.
  rewrite He, Hn, Hc. destruct (occ es =? 0) eqn:E0.
  { apply Nat.eqb_eq in E0. by rewrite used_occ_nil, lookup_empty by done. }
  rewrite (proj2 (Nat.eqb_neq (length es) 0)) by lia.
  destruct (probe_key_spec es key Hok Hf) as (i & Hp & [(v & Hi & Hm)|[Hi Hm]]);
    unfold home in Hp; rewrite Hp; simpl run_bind; by rewrite Hi, Hm.
Qed.

Lemma find_slot_spec map es key :
  hashmap_wf map es →
  match table_map es !! key with
  | Some v => ∃ i, cxpr_hashmap_find_prehashed_slot map key (cxpr_hash_string key) = Done (Some i)
                   ∧ es !! i = Some (Some (key, v))
  | None => cxpr_hashmap_find_prehashed_slot map key (cxpr_hash_string key) = Done None
  end.
Proof.
  intros [He Hc Hok Hn Hf]. unfold cxpr_hashmap_find_prehashed_slot.
  rewrite He, Hn, Hc. destruct (occ es =? 0) eqn:E0.
  { apply Nat.eqb_eq in E0. by rewrite used_occ_nil, lookup_empty by done. }
  rewrite (proj2 (Nat.eqb_neq (length es) 0)) by lia.
  destruct (probe_key_spec es key Hok Hf) as (i & Hp & [(v & Hi & Hm)|[Hi Hm]]);
    unfold home in Hp; rewrite Hp, Hm; simpl run_bind; rewrite Hi; eauto.
Qed.

(** Growing keeps the map and doubles the capacity; it is refused only when the
    doubled capacity does not fit or the allocation fails. *)
Lemma grow_spec mem map es :
  hashmap_wf map es →
  let refused := (SIZE_MAX / 2 <? Z.of_nat (hm_capacity map))%Z || negb (calloc_ok mem) in
  ∃ map' es', cxpr_hashmap_grow mem map = Done (negb refused, map') ∧ hashmap_wf map' es' ∧
    table_map es' = table_map es ∧ hm_count map' = hm_count map ∧
    hm_capacity map' = (if refused then hm_capacity map else hm_capacity map * 2) ∧
    (hm_capacity map' = hm_capacity map → es' = es).
Proof.
  intros Hwf refused. pose proof Hwf as [He Hc Hok Hn Hf]. unfold cxpr_hashmap_grow, refused.
  destruct (_ <? _)%Z; simpl; [exists map, es; by split_and!|].
  destruct (calloc_ok mem); simpl; [|exists map, es; by split_and!].
  rewrite He. set (cap := hm_capacity map * 2).
  destruct (rehash_spec es (replicate cap None)) as (es' & Hr & Hok' & Hlen & Hocc & Hm).
  - apply table_ok_empty.
  - by apply table_nodup.
  - intros. by rewrite table_map_empty, lookup_empty.
  - rewrite occ_replicate, length_replicate. unfold cap. lia.
  - rewrite length_replicate in *. rewrite occ_replicate in Hocc. rewrite Hr. simpl.
    exists (mk_hashmap (Some es') cap (hm_count map)), es'. split_and!; auto.
    + split; simpl; auto; lia.
    + rewrite Hm, table_map_empty. by rewrite (right_id_L ∅ (∪)).
    + simpl. unfold cap. intros ?. lia.
Qed.

(** The outcome of [cxpr_hashmap_set]: [key] is bound to [value], the result says
    whether the key is new, and capacity and count move as described. *)
Definition set_outcome (mem : alloc) (map : cxpr_hashmap) (es : slots) (key : string)
    (value : float64) (b : bool) (map' : cxpr_hashmap) (es' : slots) : Prop :=
  table_map es' = <[key := value]> (table_map es) ∧
  b = bool_decide (table_map es !! key = None) ∧
  hm_entries map' = Some es' ∧ table_ok es' ∧ hm_capacity map' = length es' ∧
  hm_count map' = occ es' ∧ occ es' = occ es + (if b then 1 else 0) ∧
  hm_capacity map' =
    (if b && overloaded (hm_count map) (hm_capacity map)
         && (Z.of_nat (hm_capacity map) <=? SIZE_MAX / 2)%Z && calloc_ok mem
    then hm_capacity map * 2 else hm_capacity map) ∧
  (hm_capacity map' = hm_capacity map → ∀ j k v, es !! j = Some (Some (k, v)) →
     ∃ w, es' !! j = Some (Some (k, w))).

Lemma overwrite_spec mem map es key w value i :
  hashmap_wf map es → table_map es !! key = Some w → es !! i = Some (Some (key, w)) →
  set_outcome mem map es key value false
    (mk_hashmap (Some (<[i := Some (key, value)]> es)) (hm_capacity map) (hm_count map))
    (<[i := Some (key, value)]> es).
Proof.
  intros [He Hc Hok Hn Hf] Hm Hi.
  destruct (table_ok_insert es i key value) as [Hok' Hm']; auto.
  - by eapply lookup_lt_Some.
  - intros j v Hj. by eapply (table_uniq es Hok).
  - intros e He'. rewrite Hi in He'. by injection He' as <-.
  - by eapply table_chain.
  - unfold set_outcome; simpl. rewrite length_insert, (occ_insert_occupied es i _ (key, w)) by done.
    split_and!; auto; [by rewrite bool_decide_false by (rewrite Hm; done)|].
    intros _ j k u Hj. destruct (decide (i = j)) as [->|].
    + rewrite Hi in Hj. injection Hj as <- <-. exists value. apply list_lookup_insert_eq.
      by eapply lookup_lt_Some.
    + exists u. by rewrite list_lookup_insert_ne.
Qed.

Lemma set_spec mem map es key value :
  hashmap_wf map es → strdup_ok mem key = true →
  ∃ b map' es', cxpr_hashmap_set mem map key value = Done (b, map') ∧
    set_outcome mem map es key value b map' es'.
Proof.
  intros Hwf Hdup. unfold cxpr_hashmap_set, cxpr_hashmap_set_prehashed.
  pose proof (find_slot_spec map es key Hwf) as Hfind.
  destruct (table_map es !! key) as [w|] eqn:Hm.
  { destruct Hfind as (i & -> & Hi). simpl. rewrite (wf_entries _ _ Hwf).
    eexists false, _, _. split; [done|]. by eapply overwrite_spec. }
  rewrite Hfind. simpl.
  assert (Hgrow : ∃ g map1 es1,
    (if overloaded (hm_count map) (hm_capacity map) then cxpr_hashmap_grow mem map
     else Done (true, map)) = Done (g, map1) ∧ hashmap_wf map1 es1 ∧
    table_map es1 = table_map es ∧ hm_count map1 = hm_count map ∧
    hm_capacity map1 =
      (if overloaded (hm_count map) (hm_capacity map)
         && (Z.of_nat (hm_capacity map) <=? SIZE_MAX / 2)%Z && calloc_ok mem
      then hm_capacity map * 2 else hm_capacity map) ∧
    (hm_capacity map1 = hm_capacity map → es1 = es)).
  { destruct (overloaded _ _); [|exists true, map, es; by split_and!].
    destruct (grow_spec mem map es Hwf) as (map1 & es1 & Hg & ? & ? & ? & Hcap & ?).
    eexists _, map1, es1. split_and!; [exact Hg|done..| |done].
    rewrite Hcap, Z.leb_antisym. by destruct (_ <? _)%Z, (calloc_ok mem). }
  destruct Hgrow as (g & map1 & es1 & -> & [He1 Hc1 Hok1 Hn1 Hf1] & Hm1 & Hcount & Hcap & Hkeep). simpl.
  rewrite (proj2 (Nat.eqb_neq (hm_capacity map1) 0)) by lia. rewrite He1.
  destruct (probe_free_spec es1 key value) as (i & Hp & Hi & Hfree & Hok' & Hm');
    [done|lia|by rewrite Hm1|]. unfold home in Hp. rewrite Hc1, Hp. simpl. rewrite Hdup.
  eexists true, _, (<[i := Some (key, value)]> es1). split; [done|].
  unfold set_outcome; simpl. rewrite length_insert, Hm', Hm1, occ_insert_free by done.
  split_and!; auto.
  - by rewrite bool_decide_true.
  - lia.
  - rewrite <- Hn1, Hcount, (wf_count _ _ Hwf). lia.
  - by rewrite <- Hc1.
  - intros Hsame j k v Hj. rewrite <- Hc1 in Hsame. rewrite <- (Hkeep Hsame) in Hj. exists v.
    rewrite list_lookup_insert_ne by congruence. done.
Qed.

Lemma clear_spec map es :
  hashmap_wf map es →
  ∃ map' es', cxpr_hashmap_clear map = Done map' ∧ hashmap_wf map' es' ∧ table_map es' = ∅ ∧
    hm_capacity map' = hm_capacity map ∧ hm_count map' = 0.
Proof.
  intros [He Hc Hok Hn Hf]. unfold cxpr_hashmap_clear. rewrite He.
  eexists _, _. split_and!; [done| |apply table_map_empty|done|done].
  split; simpl; rewrite ?length_replicate, ?occ_replicate; auto using table_ok_empty; lia.
Qed.

Lemma clone_spec mem map es :
  hashmap_wf map es → malloc_ok mem = true → calloc_ok mem = true → (∀ k, strdup_ok mem k = true) →
  cxpr_hashmap_clone mem map = Done (Some map).
Proof.
  intros [He Hc Hok Hn Hf] Hm Hca Hs. unfold cxpr_hashmap_clone. rewrite Hm, Hca, He. simpl.
  do 3 f_equal. destruct map as [e c n]; simpl in *. subst. f_equal. f_equal.
  rewrite <- (list_fmap_id es) at 2. apply list_fmap_ext. intros i [[k v]|] _; [|done].
  by rewrite Hs.
Qed.

(** Looking a key up in a well-formed hash map terminates and returns exactly
    what the finite map it stores has for the key: the value and [true], or
    [0.0] and [false]. *)
Theorem hashmap_get_correct map es key :
  hashmap_wf map es →
  cxpr_hashmap_get map key =
  Done (match table_map es !! key with Some v => (v, true) | None => (fzero, false) end).
Proof. apply get_spec. Qed.

(** A slot stays free after a key was added: the table is not about to be filled,
    or it can be grown. *)
Definition has_room (mem : alloc) (map : cxpr_hashmap) : Prop :=
  hm_count map + 1 < hm_capacity map ∨
  (calloc_ok mem = true ∧ (Z.of_nat (hm_capacity map) ≤ SIZE_MAX / 2)%Z).

Lemma set_wf_spec mem map es key value :
  hashmap_wf map es → strdup_ok mem key = true → has_room mem map →
  ∃ b map' es', cxpr_hashmap_set mem map key value = Done (b, map') ∧ hashmap_wf map' es' ∧
    table_map es' = <[key := value]> (table_map es) ∧
    b = bool_decide (table_map es !! key = None) ∧
    hm_capacity map ≤ hm_capacity map' ∧
    (hm_capacity map' = hm_capacity map → ∀ j k v, es !! j = Some (Some (k, v)) →
       ∃ w, es' !! j = Some (Some (k, w))).
Proof.
  intros Hwf Hdup Hroom. destruct (set_spec mem map es key value Hwf Hdup) as (b & map' & es' & -> & Ho).
  destruct Ho as (Hm & Hb & He & Hok & Hcap & Hcount & Hocc & Hcap' & Hkeep).
  exists b, map', es'. destruct Hwf as [_ Hc _ Hn Hf]. split; [done|].
  assert (hm_capacity map ≤ hm_capacity map') by (rewrite Hcap'; destruct (_ && _); lia).
  split_and!; auto. split; auto.
  destruct b; [|lia]. destruct Hroom as [Hroom|[Hca Hmax]]; [lia|].
  rewrite Hca, (proj2 (Z.leb_le _ _) Hmax), !andb_true_r in Hcap'. simpl in Hcap'.
  unfold overloaded in Hcap'.
  destruct (3 * hm_capacity map <? 4 * (hm_count map + 1)) eqn:E; [lia|].
  apply Nat.ltb_ge in E. lia.
Qed.

(** Setting a key in a well-formed hash map terminates, binds the key and
    leaves every other key alone, returns true exactly when the key was absent,
    and keeps the map well-formed, also across a resize, provided a slot stays
    free: the table is not about to be filled, or it can be grown. *)
Theorem hashmap_set_correct mem map es key value :
  hashmap_wf map es → strdup_ok mem key = true →
  hm_count map + 1 < hm_capacity map ∨
    (calloc_ok mem = true ∧ (Z.of_nat (hm_capacity map) ≤ SIZE_MAX / 2)%Z) →
  ∃ b map' es', cxpr_hashmap_set mem map key value = Done (b, map') ∧ hashmap_wf map' es' ∧
    table_map es' = <[key := value]> (table_map es) ∧
    b = bool_decide (table_map es !! key = None) ∧
    hm_capacity map ≤ hm_capacity map'.
Proof.
  intros Hwf Hdup Hroom.
  destruct (set_wf_spec mem map es key value Hwf Hdup Hroom) as (b & map' & es' & ? & ? & ? & ? & ? & _).
  exists b, map', es'. by split_and!.
Qed.

Lemma hashmap_init_wf mem :
  calloc_ok mem = true → hashmap_wf (cxpr_hashmap_init mem) (replicate 32 None).
Proof.
  intros H. unfold cxpr_hashmap_init. rewrite H.
  split; [done|done|apply table_ok_empty|done|vm_compute; lia].
Qed.

Lemma hashmap_get_correct_witness :
  hashmap_wf (cxpr_hashmap_init alloc_all) (replicate 32 None) ∧
  cxpr_hashmap_get (cxpr_hashmap_init alloc_all) "x" = Done (fzero, false).
Proof.
  split; [by apply hashmap_init_wf|].
  rewrite (hashmap_get_correct _ _ "x" (hashmap_init_wf alloc_all eq_refl)). reflexivity.
Defined.

Lemma hashmap_set_correct_witness :
  ∃ b map' es', cxpr_hashmap_set alloc_all (cxpr_hashmap_init alloc_all) "x" fone = Done (b, map') ∧
    hashmap_wf map' es' ∧ table_map es' = <["x" := fone]> ∅.
Proof.
  destruct (hashmap_set_correct alloc_all (cxpr_hashmap_init alloc_all) _ "x" fone
    (hashmap_init_wf alloc_all eq_refl) eq_refl) as (b & map' & es' & H1 & H2 & H3 & _);
    [left; vm_compute; lia|].
  exists b, map', es'. split_and!; [exact H1|exact H2|]. rewrite H3. reflexivity.
Defined.

(** ** Refinement of a finite map

    A client drives the table by a sequence of operations; the specification
    runs the same operations on a [gmap]. *)
Inductive hm_op : Type :=
  | OpSet (key : string) (value : float64)
  | OpGet (key : string)
  | OpClear
  | OpClone.

Inductive hm_out : Type :=
  | OutSet (added : bool)
  | OutGet (value : float64) (found : bool)
  | OutUnit.

Definition hm_step (op : hm_op) (map : cxpr_hashmap) : run (hm_out * cxpr_hashmap) :=
  match op with
  | OpSet key value =>
      let* '(b, map') := cxpr_hashmap_set alloc_all map key value in Done (OutSet b, map')
  | OpGet key =>
      let* '(v, found) := cxpr_hashmap_get map key in Done (OutGet v found, map)
  | OpClear => let* map' := cxpr_hashmap_clear map in Done (OutUnit, map')
  | OpClone =>
      let* c := cxpr_hashmap_clone alloc_all map in
      match c with Some map' => Done (OutUnit, map') | None => Undef end
  end.

Fixpoint hm_run (ops : list hm_op) (map : cxpr_hashmap) : run (list hm_out * cxpr_hashmap) :=
  match ops with
  | [] => Done ([], map)
  | op :: ops' =>
      let* '(out, map1) := hm_step op map in
      let* '(outs, map2) := hm_run ops' map1 in
      Done (out :: outs, map2)
  end.

Definition spec_step (op : hm_op) (m : gmap string float64) : hm_out * gmap string float64 :=
  match op with
  | OpSet key value => (OutSet (bool_decide (m !! key = None)), <[key := value]> m)
  | OpGet key => (match m !! key with Some v => OutGet v true | None => OutGet fzero false end, m)
  | OpClear => (OutUnit, ∅)
  | OpClone => (OutUnit, m)
  end.

Fixpoint spec_run (ops : list hm_op) (m : gmap string float64)
    : list hm_out * gmap string float64 :=
  match ops with
  | [] => ([], m)
  | op :: ops' =>
      let '(out, m1) := spec_step op m in
      let '(outs, m2) := spec_run ops' m1 in
      (out :: outs, m2)
  end.

(** The simulation relation; [n] bounds the keys ever added, hence the capacity. *)
Definition hm_sim (n : nat) (map : cxpr_hashmap) (m : gmap string float64) : Prop :=
  ∃ es, hashmap_wf map es ∧ table_map es = m ∧ 4 * hm_count map ≤ 3 * hm_capacity map ∧
    3 * hm_capacity map ≤ 96 + 8 * n ∧ hm_count map ≤ n.

Lemma hm_sim_mono n n' map m : n ≤ n' → hm_sim n map m → hm_sim n' map m.
Proof. intros Hn (es & ? & ? & ? & ? & ?). exists es. split_and!; auto; lia. Qed.

Lemma hm_step_sim n op map m :
  hm_sim n map m → (Z.of_nat n < 2 ^ 60)%Z →
  ∃ map', hm_step op map = Done (fst (spec_step op m), map') ∧
    hm_sim (S n) map' (snd (spec_step op m)).
Proof.
  intros (es & Hwf & <- & Hload & Hcap & Hn) Hmax.
  destruct op as [key value|key| |]; unfold hm_step, spec_step.
  - destruct (set_spec alloc_all map es key value Hwf eq_refl)
      as (b & map' & es' & -> & Hm & -> & He & Hok & Hc & Hcnt & Hocc & Hcap' & _).
    set (b := bool_decide _) in *. exists map'. split; [done|].
    rewrite (proj2 (Z.leb_le _ _)) in Hcap' by (change (SIZE_MAX / 2)%Z with 9223372036854775807%Z; lia).
    simpl in Hcap'. rewrite !andb_true_r in Hcap'.
    pose proof (wf_count _ _ Hwf). pose proof (wf_free _ _ Hwf). pose proof (wf_capacity _ _ Hwf).
    exists es'. simpl. unfold overloaded in Hcap'.
    destruct b, (3 * hm_capacity map <? 4 * (hm_count map + 1)) eqn:E; simpl in Hcap';
      first [apply Nat.ltb_lt in E|apply Nat.ltb_ge in E];
      (split_and!; [split; auto; lia|done|lia..]).
  - rewrite (get_spec map es key Hwf). exists map.
    split; [by destruct (table_map es !! key)|]. exists es. split_and!; auto; lia.
  - destruct (clear_spec map es Hwf) as (map' & es' & -> & ? & ? & Hc & H0).
    exists map'. split; [done|]. exists es'. rewrite Hc, H0. split_and!; auto; lia.
  - rewrite (clone_spec alloc_all map es) by done. exists map. split; [done|].
    exists es. split_and!; auto; lia.
Qed.

Lemma hm_run_sim ops n map m :
  hm_sim n map m → (Z.of_nat (n + length ops) < 2 ^ 60)%Z →
  ∃ map', hm_run ops map = Done (fst (spec_run ops m), map') ∧
    hm_sim (n + length ops) map' (snd (spec_run ops m)).
Proof.
  revert n map m; induction ops as [|op ops IH]; intros n map m Hsim Hmax; simpl in *.
  { exists map. split; [done|]. by rewrite Nat.add_0_r. }
  destruct (hm_step_sim n op map m Hsim ltac:(lia)) as (map1 & -> & Hsim1). simpl.
  destruct (spec_step op m) as [out m1]. simpl in *.
  destruct (IH (S n) map1 m1 Hsim1 ltac:(lia)) as (map2 & -> & Hsim2).
  destruct (spec_run ops m1) as [outs m2]. simpl in *. exists map2. split; [done|].
  by replace (n + S (length ops)) with (S (n + length ops)) by lia.
Qed.

(** C31: refinement: starting from a fresh hash map, any sequence of fewer than
    [2^60] set, get, clear and clone operations runs to completion and returns
    exactly the results of the same operations on a finite map. *)
Theorem hashmap_refines_map ops :
  (Z.of_nat (length ops) < 2 ^ 60)%Z →
  ∃ map' es', hm_run ops (cxpr_hashmap_init alloc_all) = Done (fst (spec_run ops ∅), map') ∧
    hashmap_wf map' es' ∧ table_map es' = snd (spec_run ops ∅).
Proof.
  intros Hmax. destruct (hm_run_sim ops 0 (cxpr_hashmap_init alloc_all) ∅) as (map' & Hr & es' & ? & ? & _).
  - exists (replicate 32 None). split_and!; [by apply hashmap_init_wf|apply table_map_empty|vm_compute; lia..].
  - done.
  - exists map', es'. by split_and!.
Qed.

Lemma hashmap_refines_map_witness :
  ∃ map' es',
    hm_run [OpSet "a" fone; OpSet "a" fzero; OpGet "a"; OpClone; OpGet "b"] (cxpr_hashmap_init alloc_all)
    = Done ([OutSet true; OutSet false; OutGet fzero true; OutUnit; OutGet fzero false], map') ∧
    hashmap_wf map' es'.
Proof.
  destruct (hashmap_refines_map [OpSet "a" fone; OpSet "a" fzero; OpGet "a"; OpClone; OpGet "b"])
    as (map' & es' & H1 & H2 & _); [simpl; lia|].
  exists map', es'. split; [exact H1|exact H2].
Defined.

(** ** A failed resize

    The result of [cxpr_hashmap_grow] is ignored, so keys are still added after
    a resize failed. *)

(** In a table whose slots are all occupied, the probe loop of a lookup of
    an absent key never ends, whatever the number of iterations. *)
Theorem hashmap_full_diverges map es key :
  hm_entries map = Some es → hm_capacity map = length es → occ es = length es → 0 < length es →
  table_ok es → table_map es !! key = None →
  ∀ fuel, probe (stop_key key) fuel es (hm_capacity map)
            (slot_of (cxpr_hash_string key) (hm_capacity map)) = OutOfFuel.
Proof.
  intros He Hc Hfull Hpos Hok Hnone fuel. rewrite Hc. apply probe_diverges; auto using slot_of_lt.
  intros i ([[k v]|] & Hi & Hs); simpl in Hs.
  - apply String.eqb_eq in Hs as ->. by destruct (proj1 (table_map_None es key Hok) Hnone i v).
  - by apply (occ_full es i Hfull).
Qed.

Lemma hashmap_full_diverges_witness :
  probe (stop_key "b") 1000 [Some ("a", fone)] 1 (slot_of (cxpr_hash_string "b") 1) = OutOfFuel.
Proof.
  refine (hashmap_full_diverges (mk_hashmap (Some [Some ("a", fone)]) 1 1) [Some ("a", fone)] "b"
            eq_refl eq_refl eq_refl (Nat.lt_0_succ 0) _ eq_refl 1000).
  split.
  - intros [|i] [|j] k v w Hi Hj; simpl in *; done.
  - intros [|i] k v Hi; simpl in Hi; [|done]. exists 0. split_and!; simpl; [lia| |lia].
    by injection Hi as <- <-.
Defined.

(** Such a table is reached by adding keys while the allocator refuses to grow
    it: the 33rd key does not return. *)
Definition alloc_no_grow : alloc := mk_alloc true false (λ _, true).

Fixpoint fill (n : nat) (map : cxpr_hashmap) : run cxpr_hashmap :=
  match n with
  | O => Done map
  | S n' =>
      let* '(_, map') :=
        cxpr_hashmap_set alloc_no_grow map (String (ascii_of_nat (48 + n)) EmptyString) fone in
      fill n' map'
  end.

Example hashmap_full_reached :
  (let* map := fill 32 (cxpr_hashmap_init alloc_all) in Done (hm_count map, hm_capacity map))
  = Done (32, 32) ∧
  (let* map := fill 32 (cxpr_hashmap_init alloc_all) in
   cxpr_hashmap_set alloc_no_grow map "x" fone) = OutOfFuel.
Proof. vm_compute. split; reflexivity. Qed.
