(* ===== verification/StructMap.v ===== *)
(** * StructMap: the named struct and array maps ([src/struct.c])

    The struct map and the array map of the source are the same code over two
    value types: [named_map] is that code over a value type [V] with a copy
    operation, and the two maps are its instances.  The theorems show that the
    maps implement a finite map whatever the allocator answers: a store is
    performed or has no effect, and removal, which re-inserts the entries behind
    the emptied slot, deletes exactly its key. *)

From Stdlib Require Import Ascii String ZArith Lia.
From stdpp Require Import base list strings gmap fin_maps.
From S2P Require Import Prelude Float64 Types ValueCopy OpenTable.
Local Open Scope run_scope.
Local Open Scope nat_scope.

(** A value type whose deep copies, under an allocator [ok], are exact or
    refused; the copies of structs and arrays are its instances. *)
Class Copyable (V : Type) : Type := {
  value_new : (nat → bool) → V → option V;
  value_new_exact ok v c : value_new ok v = Some c → c = v;
  value_new_granted v : value_new (λ _, true) v = Some v
}.

Section named.
Context {V : Type} `{!Copyable V}.
Abbreviation slots := (list (option (string * V))).

(** [nm_entries] is [None] for a NULL [entries] pointer, a slot is [None] when
    its name is NULL. *)
Record named_map : Type := mk_named {
  nm_entries : option slots;
  nm_capacity : nat;
  nm_count : nat
}.

(** The index of the slot the returned pointer addresses; [None] is NULL. *)
Definition named_find_slot (map : named_map) (name : string) : run (option nat) :=
  match nm_entries map with
  | None => Done None
  | Some entries =>
      if nm_capacity map =? 0 then Done None
      else
        let* i := probe (stop_key name) (nm_capacity map) entries (nm_capacity map)
                    (slot_of (cxpr_hash_string name) (nm_capacity map)) in
        Done (Some i)
  end.

Definition named_grow (mem : alloc) (map : named_map) : run (bool * named_map) :=
  if (SIZE_MAX / 2 <? Z.of_nat (nm_capacity map))%Z then Done (false, map)
  else
    let new_capacity := nm_capacity map * 2 in
    if negb (calloc_ok mem) then Done (false, map)
    else
      match nm_entries map with
      | None => if nm_capacity map =? 0
                then Done (true, mk_named (Some []) new_capacity (nm_count map)) else Undef
      | Some old =>
          let* new_entries := rehash old (replicate new_capacity None) new_capacity in
          Done (true, mk_named (Some new_entries) new_capacity (nm_count map))
      end.

Definition named_init : named_map := mk_named None 0 0.

Definition named_destroy (map : named_map) : named_map :=
  match nm_entries map with
  | None => map
  | Some _ => mk_named None 0 0
  end.

(** The loop empties the first [capacity] slots. *)
Definition named_clear (map : named_map) : run named_map :=
  match nm_entries map with
  | Some entries =>
      if length entries <? nm_capacity map then Undef
      else Done (mk_named (Some (replicate (nm_capacity map) None
                                 ++ drop (nm_capacity map) entries)) (nm_capacity map) 0)
  | None => if nm_capacity map =? 0 then Done (mk_named None 0 0) else Undef
  end.

(** [if ((double)(count + 1) / capacity > LOAD && !grow(map))]: [false] when the
    map had to grow and could not. *)
Definition named_make_room (mem : alloc) (map : named_map) : run (bool * named_map) :=
  if overloaded (nm_count map) (nm_capacity map) then named_grow mem map else Done (true, map).

Definition named_store (mem : alloc) (ok : nat → bool) (map : named_map) (name : string)
    (value : V) : run named_map :=
  match value_new ok value with
  | None => Done map
  | Some copy =>
      let map0 :=
        match nm_entries map with
        | Some _ => Some map
        | None =>
            if calloc_ok mem
            then Some (mk_named (Some (replicate CXPR_HASHMAP_INITIAL_CAPACITY None))
                         CXPR_HASHMAP_INITIAL_CAPACITY (nm_count map))
            else None
        end in
      match map0 with
      | None => Done (mk_named None 0 (nm_count map))
      | Some map =>
          let* '(room, map) := named_make_room mem map in
          if negb room then Done map
          else
            let* slot := named_find_slot map name in
            match slot, nm_entries map with
            | Some i, Some entries =>
                match entries !! i with
                | Some (Some (k, _)) =>
                    Done (mk_named (Some (<[i := Some (k, copy)]> entries))
                            (nm_capacity map) (nm_count map))
                | Some None =>
                    if strdup_ok mem name
                    then Done (mk_named (Some (<[i := Some (name, copy)]> entries))
                                 (nm_capacity map) (nm_count map + 1))
                    else Done map
                | None => Undef
                end
            | _, _ => Undef
            end
      end
  end.

Definition named_remove (map : named_map) (name : string) : run named_map :=
  let* slot := named_find_slot map name in
  match slot, nm_entries map with
  | Some i, Some entries =>
      match entries !! i with
      | Some (Some _) =>
          let count := if 0 <? nm_count map then nm_count map - 1 else nm_count map in
          let* '(entries, count) :=
            reinsert_run (nm_capacity map) (<[i := None]> entries) count (nm_capacity map)
              ((i + 1) mod nm_capacity map) in
          Done (mk_named (Some entries) (nm_capacity map) count)
      | Some None => Done map
      | None => Undef
      end
  | _, _ => Done map
  end.

(** The entry, [None] for NULL. *)
Definition named_get (map : named_map) (name : string) : run (option (string * V)) :=
  let* slot := named_find_slot map name in
  match slot, nm_entries map with
  | Some i, Some entries =>
      match entries !! i with
      | Some e => Done e
      | None => Undef
      end
  | _, _ => Done None
  end.

Definition named_lookup (map : named_map) (name : string) : run (option V) :=
  let* entry := named_get map name in
  Done (option_map snd entry).

(** The loop of the clone over the slots of the source; [mem i] and [ok i] are
    the allocator during iteration [i].  A name that cannot be copied leaves the
    slot without a name and ends the loop. *)
Fixpoint named_clone_loop (mem : nat → alloc) (ok : nat → nat → bool) (i : nat) (src : slots)
    (dst : named_map) : run (bool * named_map) :=
  match src with
  | [] => Done (true, dst)
  | None :: src' => named_clone_loop mem ok (S i) src' dst
  | Some (name, value) :: src' =>
      match value_new (ok i) value with
      | None => Done (false, dst)
      | Some copy =>
          let* '(room, dst) := named_make_room (mem i) dst in
          if negb room then Done (false, dst)
          else
            let* slot := named_find_slot dst name in
            match slot, nm_entries dst with
            | Some j, Some entries =>
                if negb (strdup_ok (mem i) name)
                then Done (false, mk_named (Some (<[j := None]> entries))
                                    (nm_capacity dst) (nm_count dst))
                else
                  named_clone_loop mem ok (S i) src'
                    (mk_named (Some (<[j := Some (name, copy)]> entries))
                       (nm_capacity dst) (nm_count dst + 1))
            | _, _ => Undef
            end
      end
  end.

Definition named_clone (mem0 : alloc) (mem : nat → alloc) (ok : nat → nat → bool)
    (src : named_map) : run (bool * named_map) :=
  match nm_entries src with
  | None => Done (true, named_init)
  | Some entries =>
      if nm_count src =? 0 then Done (true, named_init)
      else if negb (calloc_ok mem0)
      then Done (false, mk_named None CXPR_HASHMAP_INITIAL_CAPACITY 0)
      else
        named_clone_loop mem ok 0 (take (nm_capacity src) entries)
          (mk_named (Some (replicate CXPR_HASHMAP_INITIAL_CAPACITY None))
             CXPR_HASHMAP_INITIAL_CAPACITY 0)
  end.

(** ** The maps as finite maps *)

(** The map is empty and unallocated, or a well-formed table with a free slot. *)
Record allocated (map : named_map) (es : slots) : Prop := {
  al_entries : nm_entries map = Some es;
  al_capacity : nm_capacity map = length es;
  al_table : table_ok es;
  al_count : nm_count map = occ es;
  al_free : occ es < length es
}.

Inductive stores (map : named_map) (m : gmap string V) : Prop :=
  | stores_null : map = named_init → m = ∅ → stores map m
  | stores_table es : allocated map es → m = table_map es → stores map m.

Lemma named_find_spec map es name :
  allocated map es →
  ∃ i, named_find_slot map name = Done (Some i) ∧
    ((∃ v, es !! i = Some (Some (name, v)) ∧ table_map es !! name = Some v) ∨
     (es !! i = Some None ∧ table_map es !! name = None)).
Proof.
  intros [He Hc Hok Hn Hf]. unfold named_find_slot. rewrite He, Hc.
  rewrite (proj2 (Nat.eqb_neq (length es) 0)) by lia.
  destruct (probe_key_spec es name Hok Hf) as (i & Hp & Hcase). unfold home in Hp.
  rewrite Hp. simpl. eauto.
Qed.

Lemma named_get_spec map m name :
  stores map m → named_get map name = Done (option_map (pair name) (m !! name)).
Proof.
  intros [-> ->|es Hal ->]; [done|]. unfold named_get.
  destruct (named_find_spec map es name Hal) as (i & -> & [(v & Hi & Hm)|[Hi Hm]]);
    simpl; by rewrite (al_entries _ _ Hal), Hi, Hm.
Qed.

Lemma named_lookup_spec map m name : stores map m → named_lookup map name = Done (m !! name).
Proof.
  intros Hst. unfold named_lookup. rewrite (named_get_spec map m name Hst). simpl.
  by destruct (m !! name).
Qed.

(** After [n] operations the map holds at most [n] names, and its capacity is
    bounded accordingly. *)
Definition bounded (n : nat) (map : named_map) : Prop :=
  nm_count map ≤ n ∧ 3 * nm_capacity map ≤ 96 + 8 * n.

Lemma bounded_S n map : bounded n map → bounded (S n) map.
Proof. unfold bounded. lia. Qed.

Lemma named_make_room_spec mem map es :
  allocated map es →
  ∃ room map' es', named_make_room mem map = Done (room, map') ∧ allocated map' es' ∧
    table_map es' = table_map es ∧ (room = true → occ es' + 1 < length es') ∧
    (calloc_ok mem = true → (Z.of_nat (nm_capacity map) ≤ SIZE_MAX / 2)%Z → room = true) ∧
    (∀ n, bounded n map → bounded (S n) map') ∧ nm_count map' = nm_count map.
Proof.
  intros Hal. pose proof Hal as [He Hc Hok Hn Hf]. unfold named_make_room, overloaded.
  destruct (3 * nm_capacity map <? 4 * (nm_count map + 1)) eqn:E.
  2: { apply Nat.ltb_ge in E. exists true, map, es. split_and!; auto using bounded_S; lia. }
  unfold named_grow. destruct (_ <? _)%Z eqn:Emax.
  { exists false, map, es. apply Z.ltb_lt in Emax. split_and!; auto using bounded_S; [done|lia]. }
  apply Nat.ltb_lt in E.
  destruct (calloc_ok mem); cbn [negb]; [|exists false, map, es; by split_and!; auto using bounded_S].
  rewrite He. set (cap := nm_capacity map * 2).
  destruct (rehash_spec es (replicate cap None)) as (es' & Hr & Hok' & Hlen & Hocc & Hm).
  - apply table_ok_empty.
  - by apply table_nodup.
  - intros. by rewrite table_map_empty, lookup_empty.
  - rewrite occ_replicate, length_replicate. unfold cap. lia.
  - rewrite length_replicate in *. rewrite occ_replicate in Hocc. rewrite Hr. simpl.
    exists true, (mk_named (Some es') cap (nm_count map)), es'. split_and!; auto.
    + split; simpl; auto; lia.
    + rewrite Hm, table_map_empty. by rewrite (right_id_L ∅ (∪)).
    + intros _. lia.
    + unfold bounded. simpl. lia.
Qed.

(** Writing a value at the slot found for a name. *)
Lemma named_write_spec map es name v i :
  allocated map es → named_find_slot map name = Done (Some i) →
  table_ok (<[i := Some (name, v)]> es) ∧
  table_map (<[i := Some (name, v)]> es) = <[name := v]> (table_map es) ∧
  ((∃ w, es !! i = Some (Some (name, w)) ∧ occ (<[i := Some (name, v)]> es) = occ es) ∨
   (es !! i = Some None ∧ table_map es !! name = None ∧
    occ (<[i := Some (name, v)]> es) = occ es + 1)).
Proof.
  intros Hal Hfind. pose proof Hal as [He Hc Hok Hn Hf].
  destruct (named_find_spec map es name Hal) as (i' & Hi' & Hcase).
  assert (i' = i) as -> by congruence. clear Hi'.
  assert (Hchain : ∃ n, n < length es ∧ i = nth_slot (length es) (home es name) n ∧
    ∀ d, d < n → occupied es (nth_slot (length es) (home es name) d)).
  { unfold named_find_slot in Hfind. rewrite He, Hc in Hfind.
    rewrite (proj2 (Nat.eqb_neq (length es) 0)) in Hfind by lia.
    destruct (probe (stop_key name) _ _ _ _) as [j| |] eqn:Ep; simpl in Hfind; try done.
    injection Hfind as ->. by apply probe_key_chain. }
  assert (Hins : table_ok (<[i := Some (name, v)]> es) ∧
                 table_map (<[i := Some (name, v)]> es) = <[name := v]> (table_map es)).
  { destruct Hcase as [(w & Hi & Hm)|[Hi Hm]]; apply table_ok_insert; auto.
    - by eapply lookup_lt_Some.
    - intros j u Hj. by eapply (table_uniq es Hok).
    - intros e He'. rewrite Hi in He'. by injection He' as <-.
    - by eapply lookup_lt_Some.
    - intros j u Hj. by destruct (proj1 (table_map_None es name Hok) Hm j u).
    - intros e He'. congruence. }
  destruct Hins as [? ?]. split_and!; auto.
  destruct Hcase as [(w & Hi & Hm)|[Hi Hm]]; [left|right].
  - exists w. split; [done|]. by apply (occ_insert_occupied es i _ (name, w)).
  - split_and!; auto. rewrite occ_insert_free by done. lia.
Qed.

Lemma initial_allocated :
  allocated (mk_named (Some (replicate CXPR_HASHMAP_INITIAL_CAPACITY None))
               CXPR_HASHMAP_INITIAL_CAPACITY 0) (replicate CXPR_HASHMAP_INITIAL_CAPACITY None).
Proof.
  split; cbn [nm_entries nm_capacity nm_count]; rewrite ?length_replicate, ?occ_replicate;
    auto using table_ok_empty. unfold CXPR_HASHMAP_INITIAL_CAPACITY. lia.
Qed.

(** Storing in an allocated map: performed, or refused without effect. *)
Lemma named_store_allocated mem ok map es name v :
  allocated map es →
  ∃ map' m', named_store mem ok map name v = Done map' ∧ stores map' m' ∧
    (∀ n, bounded n map → bounded (S n) map') ∧
    (m' = <[name := v]> (table_map es) ∨
     m' = table_map es ∧
       (value_new ok v = None ∨ calloc_ok mem = false ∨
        (SIZE_MAX / 2 < Z.of_nat (nm_capacity map))%Z ∨ strdup_ok mem name = false)).
Proof.
  intros Hal. unfold named_store. destruct (value_new ok v) as [c|] eqn:Ev.
  2: { exists map, (table_map es). split_and!; eauto using stores, bounded_S. }
  apply value_new_exact in Ev as ->. rewrite (al_entries _ _ Hal).
  destruct (named_make_room_spec mem map es Hal)
    as (room & map1 & es1 & -> & Hal1 & Hm1 & Hroom & Hgrant & Hbound & Hcount). cbn [run_bind].
  destruct room; cbn [negb].
  2: { exists map1, (table_map es1). split_and!; eauto using stores. right. split; [done|].
       destruct (calloc_ok mem) eqn:Ec; auto.
       destruct (Z.le_gt_cases (Z.of_nat (nm_capacity map)) (SIZE_MAX / 2)); auto.
       by discriminate Hgrant. }
  destruct (named_find_spec map1 es1 name Hal1) as (i & Hfind & Hcase). rewrite Hfind.
  cbn [run_bind]. rewrite (al_entries _ _ Hal1).
  destruct (named_write_spec map1 es1 name v i Hal1 Hfind) as (Hok' & Hm' & Hocc).
  pose proof Hal1 as [He1 Hc1 Hok1 Hn1 Hf1]. specialize (Hroom eq_refl).
  assert (Hput : ∀ count, count = occ (<[i := Some (name, v)]> es1) → count ≤ nm_count map1 + 1 →
    let map' := mk_named (Some (<[i := Some (name, v)]> es1)) (nm_capacity map1) count in
    stores map' (<[name := v]> (table_map es)) ∧ ∀ n, bounded n map → bounded (S n) map').
  { intros count -> Hle. split; [|intros n Hn; pose proof (Hbound n Hn); unfold bounded in *; simpl; lia].
    eapply stores_table; [|by rewrite Hm', Hm1]. split; simpl; rewrite ?length_insert; auto.
    destruct Hocc as [(w & _ & ->)|(_ & _ & ->)]; lia. }
  destruct Hocc as [(w & Hi & Ho)|(Hi & Hnone & Ho)]; rewrite Hi.
  - destruct (Hput (nm_count map1)) as [? ?]; [lia..|]. eexists _, _. eauto.
  - destruct (strdup_ok mem name).
    + destruct (Hput (nm_count map1 + 1)) as [? ?]; [lia..|]. eexists _, _. eauto.
    + exists map1, (table_map es1). split; [done|]. split; [by eapply stores_table|]. auto 10.
Qed.

Lemma named_store_spec mem ok map m name v :
  stores map m →
  ∃ map' m', named_store mem ok map name v = Done map' ∧ stores map' m' ∧
    (∀ n, bounded n map → bounded (S n) map') ∧
    (m' = <[name := v]> m ∨
     m' = m ∧ (value_new ok v = None ∨ calloc_ok mem = false ∨
               (SIZE_MAX / 2 < Z.of_nat (nm_capacity map))%Z ∨ strdup_ok mem name = false)).
Proof.
  intros [-> ->|es Hal ->]; [|by apply named_store_allocated].
  destruct (value_new ok v) as [c|] eqn:Ev.
  2: { unfold named_store. rewrite Ev. exists named_init, ∅. split; [done|].
       split; [by apply stores_null|]. auto 10 using bounded_S. }
  destruct (calloc_ok mem) eqn:Ec.
  2: { unfold named_store. rewrite Ev, Ec. exists named_init, ∅. split; [done|].
       split; [by apply stores_null|]. auto 10 using bounded_S. }
  destruct (named_store_allocated mem ok _ _ name v initial_allocated) as (map' & m' & Hs & Hst & Hb & Hor).
  rewrite table_map_empty in Hor.
  assert (Hsame : named_store mem ok named_init name v =
    named_store mem ok (mk_named (Some (replicate CXPR_HASHMAP_INITIAL_CAPACITY None))
      CXPR_HASHMAP_INITIAL_CAPACITY 0) name v) by (unfold named_store; by rewrite Ev, Ec).
  rewrite Hsame, Hs. exists map', m'. split; [done|]. split; [done|]. split.
  { intros n _. destruct (Hb n); [|split; done]. split; simpl; [lia|].
    unfold CXPR_HASHMAP_INITIAL_CAPACITY. lia. }
  destruct Hor as [?|(? & [?|[?|[Hbig|?]]])]; [by left|congruence|congruence| |by auto 10].
  vm_compute in Hbig. discriminate Hbig.
Qed.

Lemma named_remove_spec map m name :
  stores map m →
  ∃ map', named_remove map name = Done map' ∧ stores map' (delete name m) ∧
    ∀ n, bounded n map → bounded n map'.
Proof.
  intros [-> ->|es Hal ->].
  { exists named_init. split; [done|]. rewrite delete_empty.
    split; [by apply stores_null|auto]. }
  pose proof Hal as [He Hc Hok Hn Hf]. unfold named_remove.
  destruct (named_find_spec map es name Hal) as (i & -> & [(v & Hi & Hm)|[Hi Hm]]);
    cbn [run_bind]; rewrite He, Hi.
  2: { exists map. split; [done|]. rewrite delete_id by done.
       split; [by eapply stores_table|auto]. }
  destruct (remove_spec es i name v Hok Hf Hi) as (es' & Hr & Hok' & Hlen & Hocc & Hm').
  rewrite Hn, Hc, (proj2 (Nat.ltb_lt 0 (occ es))) by lia. rewrite Hr. cbn [run_bind].
  eexists. split; [done|]. split.
  - eapply (stores_table _ _ es'); [|done]. split; simpl; auto; lia.
  - intros n. unfold bounded. simpl. lia.
Qed.

Lemma named_clear_spec map m :
  stores map m →
  ∃ map', named_clear map = Done map' ∧ stores map' ∅ ∧ ∀ n, bounded n map → bounded n map'.
Proof.
  intros [-> ->|es Hal ->]; unfold named_clear.
  { exists named_init. split; [done|]. split; [by apply stores_null|auto]. }
  pose proof Hal as [He Hc Hok Hn Hf]. rewrite He, Hc, Nat.ltb_irrefl, drop_all, app_nil_r.
  eexists. split; [done|]. split; [|unfold bounded; simpl; lia].
  eapply (stores_table _ _ (replicate (length es) None)); [|by rewrite table_map_empty].
  split; simpl; rewrite ?length_replicate, ?occ_replicate; auto using table_ok_empty; lia.
Qed.

(** The loop of the clone adds the remaining entries of the source. *)
Lemma named_clone_loop_spec src i dst es :
  allocated dst es → NoDup (used src).*1 →
  (∀ k v, (k, v) ∈ used src → table_map es !! k = None) →
  bounded (nm_count dst) dst →
  (Z.of_nat (nm_count dst + occ src) < 2 ^ 60)%Z →
  ∃ dst', named_clone_loop (λ _, alloc_all) (λ _ _, true) i src dst = Done (true, dst') ∧
    stores dst' (list_to_map (used src) ∪ table_map es).
Proof.
  revert i dst es; induction src as [|[[name v]|] src IH]; intros i dst es Hal Hnd Hfresh Hcap Hmax;
    cbn [named_clone_loop used].
  - exists dst. split; [done|]. simpl. rewrite (left_id_L ∅ (∪)). by eapply stores_table.
  - apply NoDup_cons in Hnd as [Hname Hnd]. rewrite value_new_granted.
    destruct (named_make_room_spec alloc_all dst es Hal)
      as (room & dst1 & es1 & -> & Hal1 & Hm1 & Hroom & Hgrant & Hcap1 & Hsame). cbn [run_bind].
    assert (room = true) as ->.
    { apply Hgrant; [done|]. change (SIZE_MAX / 2)%Z with 9223372036854775807%Z.
      unfold bounded in Hcap. lia. }
    cbn [negb]. destruct (named_find_spec dst1 es1 name Hal1) as (j & Hfind & _). rewrite Hfind.
    cbn [run_bind]. pose proof Hal1 as [He1 Hc1 Hok1 Hn1 Hf1]. rewrite He1. cbn [negb strdup_ok alloc_all].
    destruct (named_write_spec dst1 es1 name v j Hal1 Hfind) as (Hok' & Hm' & Hocc).
    assert (Hnone : table_map es1 !! name = None) by (rewrite Hm1; apply (Hfresh name v); by left).
    assert (Ho : occ (<[j := Some (name, v)]> es1) = occ es1 + 1).
    { destruct Hocc as [(w & Hj & _)|(_ & _ & ?)]; [|done].
      by destruct (proj1 (table_map_None es1 name Hok1) Hnone j w). }
    edestruct (IH (S i)) as (dst' & -> & Hst).
    + split; cbn [nm_entries nm_capacity nm_count]; [done|rewrite length_insert; done|done|lia|].
      rewrite Ho, length_insert. specialize (Hroom eq_refl). lia.
    + done.
    + intros k w Hin. rewrite Hm', Hm1, lookup_insert_ne; [apply (Hfresh k w); by right|].
      intros ->. apply Hname, list_elem_of_fmap. by exists (k, w).
    + apply Hcap1 in Hcap. unfold bounded in *. cbn [nm_capacity nm_count]. lia.
    + cbn [nm_count]. unfold occ in Hmax |- *. simpl in Hmax. lia.
    + exists dst'. split; [done|]. simpl. rewrite Hm', Hm1 in Hst.
      rewrite <- insert_union_l, insert_union_r; [done|]. by apply not_elem_of_list_to_map_1.
  - by apply IH.
Qed.

Lemma named_clone_spec map m :
  stores map m → (Z.of_nat (nm_count map) < 2 ^ 60)%Z →
  ∃ map', named_clone alloc_all (λ _, alloc_all) (λ _ _, true) map = Done (true, map') ∧
    stores map' m.
Proof.
  intros [-> ->|es Hal ->] Hmax; unfold named_clone.
  { exists named_init. split; [done|]. by apply stores_null. }
  pose proof Hal as [He Hc Hok Hn Hf]. rewrite He, Hn, Hc. destruct (occ es =? 0) eqn:E0.
  { apply Nat.eqb_eq in E0. exists named_init. split; [done|]. rewrite used_occ_nil by done.
    by apply stores_null. }
  rewrite firstn_all. cbn [calloc_ok alloc_all negb].
  destruct (named_clone_loop_spec es 0 _ _ initial_allocated) as (map' & -> & Hst).
  - by apply table_nodup.
  - intros k v _. by rewrite table_map_empty, lookup_empty.
  - unfold bounded, CXPR_HASHMAP_INITIAL_CAPACITY. simpl. lia.
  - cbn [nm_count]. lia.
  - exists map'. split; [done|]. rewrite table_map_empty, (right_id_L ∅ (∪)) in Hst. done.
Qed.

(** ** Refinement

    A client drives the map by a sequence of operations, each store with its own
    allocator; the specification runs them on a finite map, on which a store is
    dropped only when its allocator refused a request. *)
Inductive nm_op : Type :=
  | NStore (mem : alloc) (ok : nat → bool) (name : string) (value : V)
  | NRemove (name : string)
  | NLookup (name : string)
  | NClear.

Definition nm_step (op : nm_op) (map : named_map) : run (option V * named_map) :=
  match op with
  | NStore mem ok name value =>
      let* map := named_store mem ok map name value in Done (None, map)
  | NRemove name => let* map := named_remove map name in Done (None, map)
  | NLookup name => let* out := named_lookup map name in Done (out, map)
  | NClear => let* map := named_clear map in Done (None, map)
  end.

Fixpoint nm_run (ops : list nm_op) (map : named_map) : run (list (option V) * named_map) :=
  match ops with
  | [] => Done ([], map)
  | op :: ops' =>
      let* '(out, map) := nm_step op map in
      let* '(outs, map) := nm_run ops' map in
      Done (out :: outs, map)
  end.

Inductive nm_spec : nm_op → gmap string V → option V → gmap string V → Prop :=
  | spec_store mem ok name value m :
      nm_spec (NStore mem ok name value) m None (<[name := value]> m)
  | spec_store_refused mem ok name value m :
      value_new ok value = None ∨ calloc_ok mem = false ∨ strdup_ok mem name = false →
      nm_spec (NStore mem ok name value) m None m
  | spec_remove name m : nm_spec (NRemove name) m None (delete name m)
  | spec_lookup name m : nm_spec (NLookup name) m (m !! name) m
  | spec_clear m : nm_spec NClear m None ∅.

Inductive nm_spec_run : list nm_op → gmap string V → list (option V) → gmap string V → Prop :=
  | spec_nil m : nm_spec_run [] m [] m
  | spec_cons op ops m m1 m2 out outs :
      nm_spec op m out m1 → nm_spec_run ops m1 outs m2 →
      nm_spec_run (op :: ops) m (out :: outs) m2.

Lemma nm_step_sim n op map m :
  stores map m → bounded n map → (Z.of_nat n < 2 ^ 60)%Z →
  ∃ out map' m', nm_step op map = Done (out, map') ∧ nm_spec op m out m' ∧ stores map' m' ∧
    bounded (S n) map'.
Proof.
  intros Hst Hb Hmax. destruct op as [mem ok name v|name|name|]; simpl.
  - destruct (named_store_spec mem ok map m name v Hst) as (map' & m' & -> & Hst' & Hb' & Hor).
    exists None, map', m'. split; [done|]. split; [|by auto].
    destruct Hor as [->|(-> & [?|[?|[Hbig|?]]])]; try solve [by constructor; auto].
    exfalso. change (SIZE_MAX / 2)%Z with 9223372036854775807%Z in Hbig. unfold bounded in Hb. lia.
  - destruct (named_remove_spec map m name Hst) as (map' & -> & Hst' & Hb').
    exists None, map', (delete name m). split_and!; auto using nm_spec, bounded_S.
  - rewrite (named_lookup_spec map m name Hst). exists (m !! name), map, m.
    split_and!; auto using nm_spec, bounded_S.
  - destruct (named_clear_spec map m Hst) as (map' & -> & Hst' & Hb').
    exists None, map', ∅. split_and!; auto using nm_spec, bounded_S.
Qed.

Lemma nm_run_sim ops n map m :
  stores map m → bounded n map → (Z.of_nat (n + length ops) < 2 ^ 60)%Z →
  ∃ outs map' m', nm_run ops map = Done (outs, map') ∧ nm_spec_run ops m outs m' ∧ stores map' m'.
Proof.
  revert n map m; induction ops as [|op ops IH]; intros n map m Hst Hb Hmax; simpl in *.
  { exists [], map, m. split_and!; [done|constructor|done]. }
  destruct (nm_step_sim n op map m Hst Hb) as (out & map1 & m1 & -> & Hs & Hst1 & Hb1); [lia|].
  cbn [run_bind]. destruct (IH (S n) map1 m1 Hst1 Hb1) as (outs & map2 & m2 & -> & Hr & Hst2); [lia|].
  exists (out :: outs), map2, m2. split_and!; [done|by econstructor|done].
Qed.

(** Refinement: from the empty map, any sequence of fewer than [2^60] stores,
    removals, lookups and clears runs to completion, with any allocation
    failures, and answers as a finite map on which a store either takes effect
    or, only when one of its allocations failed, changes nothing. *)
Theorem named_map_refines ops :
  (Z.of_nat (length ops) < 2 ^ 60)%Z →
  ∃ outs map' m', nm_run ops named_init = Done (outs, map') ∧ nm_spec_run ops ∅ outs m' ∧
    stores map' m'.
Proof.
  intros Hmax. apply (nm_run_sim ops 0); [by apply stores_null|unfold bounded; simpl; lia|done].
Qed.

(** Removing a name from a well-formed map terminates and deletes exactly
    that name: every other entry of the probe chain stays reachable, and looking
    any name up afterwards gives the map without it. *)
Theorem named_remove_correct map m name :
  stores map m →
  ∃ map', named_remove map name = Done map' ∧ stores map' (delete name m) ∧
    ∀ other, named_lookup map' other = Done (delete name m !! other).
Proof.
  intros Hst. destruct (named_remove_spec map m name Hst) as (map' & -> & Hst' & _).
  exists map'. split_and!; auto. intros other. by apply named_lookup_spec.
Qed.

(** Cloning a well-formed map with an allocator that grants every request
    succeeds and gives a map with the same contents. *)
Theorem named_clone_correct map m :
  stores map m → (Z.of_nat (nm_count map) < 2 ^ 60)%Z →
  ∃ map', named_clone alloc_all (λ _, alloc_all) (λ _ _, true) map = Done (true, map') ∧
    stores map' m.
Proof. apply named_clone_spec. Qed.
End named.
Arguments named_map V : clear implicits.
Arguments nm_op V : clear implicits.

(** ** The two maps *)

Abbreviation cxpr_struct_value := (list (string * cxpr_value)).
Abbreviation cxpr_array_value := (list cxpr_value).

#[export] Program Instance struct_copyable : Copyable cxpr_struct_value := {|
  value_new ok s := fst (cxpr_struct_value_new ok s 0)
|}.
Next Obligation.
  intros ok v c H. cbv beta in H. pose proof (struct_value_new_exact ok v 0) as He.
  destruct (cxpr_struct_value_new ok v 0) as [r n]. cbn [fst] in H.
  rewrite H in He. by destruct He.
Qed.
Next Obligation. intros v. apply struct_copy_all. Qed.

#[export] Program Instance array_copyable : Copyable cxpr_array_value := {|
  value_new ok a := fst (cxpr_array_value_new ok a 0)
|}.
Next Obligation.
  intros ok v c H. cbv beta in H. pose proof (array_value_new_exact ok v 0) as He.
  destruct (cxpr_array_value_new ok v 0) as [r n]. cbn [fst] in H.
  rewrite H in He. by destruct He.
Qed.
Next Obligation. intros v. apply array_copy_all. Qed.

Definition cxpr_struct_map : Type := named_map cxpr_struct_value.
Definition cxpr_struct_map_find_slot : cxpr_struct_map → string → run (option nat) :=
  named_find_slot.
Definition cxpr_struct_map_grow : alloc → cxpr_struct_map → run (bool * cxpr_struct_map) :=
  named_grow.
Definition cxpr_struct_map_init : cxpr_struct_map := named_init.
Definition cxpr_struct_map_destroy : cxpr_struct_map → cxpr_struct_map := named_destroy.
Definition cxpr_struct_map_clear : cxpr_struct_map → run cxpr_struct_map := named_clear.
Definition cxpr_struct_map_clone : alloc → (nat → alloc) → (nat → nat → bool) →
    cxpr_struct_map → run (bool * cxpr_struct_map) := named_clone.
Definition cxpr_context_store_struct : alloc → (nat → bool) → cxpr_struct_map → string →
    cxpr_struct_value → run cxpr_struct_map := named_store.
Definition cxpr_context_remove_struct : cxpr_struct_map → string → run cxpr_struct_map :=
  named_remove.
Definition cxpr_context_lookup_struct_map :
    cxpr_struct_map → string → run (option cxpr_struct_value) := named_lookup.

Definition cxpr_array_map : Type := named_map cxpr_array_value.
Definition cxpr_array_map_find_slot : cxpr_array_map → string → run (option nat) :=
  named_find_slot.
Definition cxpr_array_map_grow : alloc → cxpr_array_map → run (bool * cxpr_array_map) :=
  named_grow.
Definition cxpr_array_map_init : cxpr_array_map := named_init.
Definition cxpr_array_map_destroy : cxpr_array_map → cxpr_array_map := named_destroy.
Definition cxpr_array_map_clear : cxpr_array_map → run cxpr_array_map := named_clear.
Definition cxpr_array_map_clone : alloc → (nat → alloc) → (nat → nat → bool) →
    cxpr_array_map → run (bool * cxpr_array_map) := named_clone.
Definition cxpr_context_store_array : alloc → (nat → bool) → cxpr_array_map → string →
    cxpr_array_value → run cxpr_array_map := named_store.
Definition cxpr_context_remove_array : cxpr_array_map → string → run cxpr_array_map :=
  named_remove.
Definition cxpr_context_lookup_array_map :
    cxpr_array_map → string → run (option cxpr_array_value) := named_lookup.

(** ** Witnesses

    "a" and "A" have the same home slot in a table of 32 slots. *)
Definition sample_ops : list (nm_op cxpr_array_value) :=
  [NStore alloc_all (λ _, true) "a" [VNull];
   NStore alloc_all (λ _, true) "A" [VInt64 1];
   NStore alloc_all (λ _, false) "a" [VInt64 2];
   NRemove "a"; NLookup "A"; NLookup "a"].

Lemma named_map_refines_witness :
  ∃ map' m', nm_run sample_ops cxpr_array_map_init
             = Done ([None; None; None; None; Some [VInt64 1]; None], map') ∧ stores map' m'.
Proof.
  destruct (named_map_refines sample_ops) as (outs & map' & m' & Hr & _ & Hst); [simpl; lia|].
  exists map', m'. split; [|exact Hst]. unfold cxpr_array_map_init. rewrite Hr. vm_compute in Hr. injection Hr as <- <-.
  reflexivity.
Defined.

(** Two names that collide, stored. *)
Lemma sample_stores :
  ∃ map m, nm_run (take 2 sample_ops) cxpr_array_map_init = Done ([None; None], map) ∧
    nm_count map = 2 ∧ stores map m ∧ m !! "A" = Some [VInt64 1].
Proof.
  destruct (nm_run_sim (take 2 sample_ops) 0 cxpr_array_map_init ∅) as (outs & map & m & Hr & _ & Hst);
    [by apply stores_null|unfold bounded; simpl; lia|simpl; lia|].
  exists map, m. pose proof (named_lookup_spec map m "A" Hst) as Hl.
  vm_compute in Hr. injection Hr as <- <-. split_and!; [reflexivity|reflexivity|done|].
  assert (Done (m !! "A") = Done (Some [VInt64 1])) as [= ->]; [|done].
  rewrite <- Hl. vm_compute. reflexivity.
Qed.

Lemma named_remove_correct_witness :
  ∃ map map' m', named_remove map "a" = Done map' ∧ stores (V := cxpr_array_value) map' m' ∧
    named_lookup map' "A" = Done (Some [VInt64 1]).
Proof.
  destruct sample_stores as (map & m & _ & _ & Hst & HA).
  destruct (named_remove_correct map m "a" Hst) as (map' & Hr & Hst' & Hl).
  exists map, map', (delete "a" m). split; [exact Hr|]. split; [exact Hst'|].
  rewrite Hl, lookup_delete_ne by discriminate. by rewrite HA.
Defined.

Lemma named_clone_correct_witness :
  ∃ map map' m, named_clone alloc_all (λ _, alloc_all) (λ _ _, true) map = Done (true, map') ∧
    stores (V := cxpr_array_value) map' m ∧ m !! "A" = Some [VInt64 1].
Proof.
  destruct sample_stores as (map & m & _ & Hn & Hst & HA).
  destruct (named_clone_correct map m Hst) as (map' & Hr & Hst'); [rewrite Hn; lia|].
  exists map, map', m. split; [exact Hr|]. split; [exact Hst'|exact HA].
Defined.
