(* ===== verification/Bindings.v ===== *)
(** * Bindings: the stores a context is made of
    ([src/context/cache.c], [src/context/values.c])

    Bools, int64s and strings live in growable arrays searched linearly; numbers
    live in a hash map behind two direct-mapped caches of 64 buckets, one indexed
    by the hash of the name and one by the address of the name.  The theorems
    show that a linear map is a finite map, and that the caches are transparent:
    a numeric store answers as the finite map of its hash map. *)

From Stdlib Require Import Ascii String ZArith Lia.
From stdpp Require Import base list strings gmap fin_maps.
From S2P Require Import Prelude Float64 Types OpenTable Hashmap.
Local Open Scope run_scope.
Local Open Scope nat_scope.

(** ** Linear maps

    [cxpr_bool_map], [cxpr_int64_map] and [cxpr_string_map] are the same code
    over three value types.  [lm_entries] is the first [count] elements of the
    array; [malloc_ok] is the answer of [realloc]. *)
Section linear.
Context {V : Type}.

Record linear_map : Type := mk_linear {
  lm_entries : list (string * V);
  lm_capacity : nat
}.

Definition linear_empty : linear_map := mk_linear [] 0.

(** The index of the first entry with the name. *)
Fixpoint find_index (entries : list (string * V)) (name : string) : option nat :=
  match entries with
  | [] => None
  | (k, _) :: rest => if (k =? name)%string then Some 0 else option_map S (find_index rest name)
  end.

Definition linear_find (map : linear_map) (name : string) : option nat :=
  find_index (lm_entries map) name.

Definition linear_set (mem : alloc) (map : linear_map) (name : string) (value : V)
    : bool * linear_map :=
  match linear_find map name with
  | Some i => (true, mk_linear (<[i := (name, value)]> (lm_entries map)) (lm_capacity map))
  | None =>
      let grown :=
        if length (lm_entries map) =? lm_capacity map
        then if malloc_ok mem
             then Some (if lm_capacity map =? 0 then 8 else lm_capacity map * 2) else None
        else Some (lm_capacity map) in
      match grown with
      | None => (false, map)
      | Some capacity =>
          if strdup_ok mem name
          then (true, mk_linear (lm_entries map ++ [(name, value)]) capacity)
          else (false, mk_linear (lm_entries map) capacity)
      end
  end.

Definition linear_remove (map : linear_map) (name : string) : linear_map :=
  match linear_find map name with
  | Some i => mk_linear (take i (lm_entries map) ++ drop (S i) (lm_entries map)) (lm_capacity map)
  | None => map
  end.

(** The value, [None] when [*found] is false. *)
Definition linear_get (map : linear_map) (name : string) : option V :=
  match linear_find map name with
  | Some i => option_map snd (lm_entries map !! i)
  | None => None
  end.

(** *** Linear maps as finite maps *)

Record linear_ok (map : linear_map) : Prop := {
  lm_nodup : NoDup (lm_entries map).*1;
  lm_fits : length (lm_entries map) ≤ lm_capacity map
}.

Definition linear_contents (map : linear_map) : gmap string V := list_to_map (lm_entries map).

Lemma find_index_Some es name i :
  find_index es name = Some i → ∃ v, es !! i = Some (name, v).
Proof.
  revert i; induction es as [|[k v] es IH]; intros i; simpl; [done|].
  destruct (k =? name)%string eqn:E.
  - intros [= <-]. apply String.eqb_eq in E as ->. by exists v.
  - destruct (find_index es name) as [j|]; simpl; [|done]. intros [= <-]. by apply IH.
Qed.

Lemma find_index_None es name : find_index es name = None → name ∉ es.*1.
Proof.
  induction es as [|[k v] es IH]; simpl; [by intros _ ?%elem_of_nil|].
  destruct (k =? name)%string eqn:E; [done|].
  destruct (find_index es name) eqn:Ef; simpl; [done|]. intros _ [->|Hin]%elem_of_cons.
  - by rewrite String.eqb_refl in E.
  - by apply IH.
Qed.

Lemma linear_get_spec map name :
  linear_ok map → linear_get map name = linear_contents map !! name.
Proof.
  intros [Hnd _]. unfold linear_get, linear_find, linear_contents.
  destruct (find_index (lm_entries map) name) as [i|] eqn:E.
  - apply find_index_Some in E as [v Hv]. rewrite Hv. symmetry. simpl.
    apply elem_of_list_to_map_1; [done|]. by eapply list_elem_of_lookup_2.
  - symmetry. apply not_elem_of_list_to_map_1. by apply find_index_None.
Qed.

Lemma linear_remove_spec map name :
  linear_ok map →
  linear_ok (linear_remove map name) ∧
  linear_contents (linear_remove map name) = delete name (linear_contents map).
Proof.
  intros [Hnd Hfit]. unfold linear_remove, linear_find, linear_contents.
  destruct (find_index (lm_entries map) name) as [i|] eqn:E; simpl.
  2: { split; [done|]. rewrite delete_id; [done|]. by apply not_elem_of_list_to_map_1, find_index_None. }
  apply find_index_Some in E as [v Hv].
  pose proof (take_drop_middle _ _ _ Hv) as Heq. rewrite <- Heq in Hnd, Hfit.
  rewrite fmap_app, fmap_cons in Hnd. simpl in Hnd.
  apply NoDup_app in Hnd as (Hn1 & Hdis & [Hn2 Hn3]%NoDup_cons).
  assert (Hnot : name ∉ (take i (lm_entries map)).*1) by (intros Hin; by apply (Hdis name Hin); left).
  split.
  - split; simpl.
    + rewrite fmap_app. apply NoDup_app. split_and!; auto. intros k Hk Hk'. apply (Hdis k Hk). by right.
    + rewrite length_app in *. simpl in Hfit. lia.
  - rewrite <- Heq at 3. rewrite !list_to_map_app. simpl.
    rewrite delete_union, delete_insert_id by (by apply not_elem_of_list_to_map_1).
    rewrite (delete_id (list_to_map (take _ _))) by (by apply not_elem_of_list_to_map_1). done.
Qed.

(** A write is refused only when a request of its allocator is. *)
Lemma linear_set_spec mem map name v :
  linear_ok map →
  let r := linear_set mem map name v in
  linear_ok (snd r) ∧
  linear_contents (snd r) = (if fst r then <[name := v]> else id) (linear_contents map) ∧
  (malloc_ok mem = true → strdup_ok mem name = true → fst r = true).
Proof.
  intros Hok r. subst r. pose proof Hok as [Hnd Hfit]. unfold linear_set, linear_find.
  destruct (find_index (lm_entries map) name) as [i|] eqn:E; simpl.
  - apply find_index_Some in E as [w Hw]. split_and!; auto.
    + split; simpl; [|by rewrite length_insert].
      rewrite list_fmap_insert. simpl. rewrite list_insert_id; [done|].
      by rewrite list_lookup_fmap, Hw.
    + unfold linear_contents. simpl. pose proof (take_drop_middle _ _ _ Hw) as Heq.
      assert (Hnot : name ∉ (take i (lm_entries map)).*1).
      { rewrite <- Heq, fmap_app, fmap_cons in Hnd. apply NoDup_app in Hnd as (_ & Hdis & _).
        intros Hin. by apply (Hdis name Hin); left. }
      rewrite insert_take_drop by (by eapply lookup_lt_Some). rewrite <- Heq at 3.
      rewrite !list_to_map_app. simpl.
      rewrite <- !insert_union_r by (by apply not_elem_of_list_to_map_1). by rewrite insert_insert_eq.
  - assert (Happ : name ∉ (lm_entries map).*1) by (by apply find_index_None).
    assert (Hgo : ∀ cap, length (lm_entries map) < cap →
      let r := if strdup_ok mem name
               then (true, mk_linear (lm_entries map ++ [(name, v)]) cap)
               else (false, mk_linear (lm_entries map) cap) in
      linear_ok (snd r) ∧
      linear_contents (snd r) = (if fst r then <[name := v]> else id) (linear_contents map) ∧
      (malloc_ok mem = true → strdup_ok mem name = true → fst r = true)).
    { intros cap Hcap. destruct (strdup_ok mem name); simpl; split_and!; auto.
      - split; simpl; [|rewrite length_app; simpl; lia].
        rewrite fmap_app. apply NoDup_app. split_and!; auto; [|apply NoDup_singleton].
        intros k Hk [->|Hn]%elem_of_cons; [done|by apply elem_of_nil in Hn].
      - unfold linear_contents. simpl. rewrite list_to_map_app. simpl.
        rewrite <- insert_union_r by (by apply not_elem_of_list_to_map_1).
        by rewrite (right_id_L ∅ (∪)).
      - split; simpl; [done|lia]. }
    destruct (length (lm_entries map) =? lm_capacity map) eqn:Ec.
    + apply Nat.eqb_eq in Ec. destruct (malloc_ok mem); [|by split_and!].
      apply Hgo. destruct (lm_capacity map =? 0) eqn:E0; [apply Nat.eqb_eq in E0; lia|].
      apply Nat.eqb_neq in E0. lia.
    + apply Nat.eqb_neq in Ec. apply Hgo. lia.
Qed.

Lemma linear_empty_ok : linear_ok linear_empty.
Proof. split; simpl; [constructor|lia]. Qed.
End linear.
Arguments linear_map V : clear implicits.

Definition cxpr_bool_map : Type := linear_map bool.
Definition cxpr_bool_map_find : cxpr_bool_map → string → option nat := linear_find.
Definition cxpr_bool_map_set : alloc → cxpr_bool_map → string → bool → bool * cxpr_bool_map :=
  linear_set.
Definition cxpr_bool_map_remove : cxpr_bool_map → string → cxpr_bool_map := linear_remove.
Definition cxpr_bool_map_get : cxpr_bool_map → string → option bool := linear_get.

Definition cxpr_int64_map : Type := linear_map Z.
Definition cxpr_int64_map_find : cxpr_int64_map → string → option nat := linear_find.
Definition cxpr_int64_map_set : alloc → cxpr_int64_map → string → Z → bool * cxpr_int64_map :=
  linear_set.
Definition cxpr_int64_map_remove : cxpr_int64_map → string → cxpr_int64_map := linear_remove.
Definition cxpr_int64_map_get : cxpr_int64_map → string → option Z := linear_get.

Definition cxpr_string_map : Type := linear_map string.
Definition cxpr_string_map_find : cxpr_string_map → string → option nat := linear_find.
(** The value is copied before the name is searched. *)
Definition cxpr_string_map_set (mem : alloc) (map : cxpr_string_map) (name value : string)
    : bool * cxpr_string_map :=
  if strdup_ok mem value then linear_set mem map name value else (false, map).
Definition cxpr_string_map_remove : cxpr_string_map → string → cxpr_string_map := linear_remove.
Definition cxpr_string_map_get : cxpr_string_map → string → option string := linear_get.

(** ** The numeric store and its caches *)

(** A [const char*] argument: its address and the string it points to. *)
Record cname : Type := mk_name {
  name_ptr : Z;
  name_str : string
}.

Definition NULL : Z := 0%Z.
Definition CXPR_CONTEXT_ENTRY_CACHE_SIZE : Z := 64.

(** A bucket of the cache indexed by hash.  [key_ref] points to the key the table
    owns and is only read as a string. *)
Record hash_bucket : Type := mk_hash_bucket {
  hb_key : option string;
  hb_hash : Z;
  hb_slot : nat;
  hb_base : Z
}.

(** A bucket of the cache indexed by address.  [key_ref] is only compared. *)
Record ptr_bucket : Type := mk_ptr_bucket {
  pb_key : Z;
  pb_slot : nat;
  pb_base : Z
}.

Definition hash_bucket_zero : hash_bucket := mk_hash_bucket None 0 0 NULL.
Definition ptr_bucket_zero : ptr_bucket := mk_ptr_bucket NULL 0 NULL.

(** A hash map with the address of its entries, the two caches (a bucket that
    was never written is zero) and the version counter. *)
Record num_store : Type := mk_store {
  ns_map : cxpr_hashmap;
  ns_base : Z;
  ns_cache : gmap Z hash_bucket;
  ns_ptr_cache : gmap Z ptr_bucket;
  ns_version : Z
}.

Definition with_map (map : cxpr_hashmap) (s : num_store) : num_store :=
  mk_store map (ns_base s) (ns_cache s) (ns_ptr_cache s) (ns_version s).

(** [hash & (SIZE - 1)] and [((uintptr_t)key >> 4) & (SIZE - 1)] *)
Definition cxpr_context_cache_bucket (hash : Z) : Z :=
  Z.land hash (CXPR_CONTEXT_ENTRY_CACHE_SIZE - 1).
Definition cxpr_context_pointer_cache_bucket (key : Z) : Z :=
  Z.land (Z.shiftr key 4) (CXPR_CONTEXT_ENTRY_CACHE_SIZE - 1).

Definition hash_bucket_at (s : num_store) (i : Z) : hash_bucket :=
  default hash_bucket_zero (ns_cache s !! i).
Definition ptr_bucket_at (s : num_store) (i : Z) : ptr_bucket :=
  default ptr_bucket_zero (ns_ptr_cache s !! i).

Definition set_hash_bucket (i : Z) (b : hash_bucket) (s : num_store) : num_store :=
  mk_store (ns_map s) (ns_base s) (<[i := b]> (ns_cache s)) (ns_ptr_cache s) (ns_version s).
Definition set_ptr_bucket (i : Z) (b : ptr_bucket) (s : num_store) : num_store :=
  mk_store (ns_map s) (ns_base s) (ns_cache s) (<[i := b]> (ns_ptr_cache s)) (ns_version s).

(** [&map->entries[slot]]: the slot, when the array has it. *)
Definition slot_at (s : num_store) (i : nat) : run (option cxpr_hashmap_entry) :=
  match hm_entries (ns_map s) with
  | None => Undef
  | Some entries => match entries !! i with Some e => Done e | None => Undef end
  end.

(** The index of the entry, [None] for NULL. *)
Definition cxpr_context_lookup_pointer_cached_entry (s : num_store) (key : cname)
    : run (option nat) :=
  let bucket := ptr_bucket_at s (cxpr_context_pointer_cache_bucket (name_ptr key)) in
  if (pb_base bucket =? ns_base s)%Z && (pb_key bucket =? name_ptr key)%Z then
    let* e := slot_at s (pb_slot bucket) in
    match e with
    | Some (k, _) => Done (if (k =? name_str key)%string then Some (pb_slot bucket) else None)
    | None => Done None
    end
  else Done None.

Definition cxpr_context_lookup_cached_entry (s : num_store) (key : cname) (hash : Z)
    : run (option nat * num_store) :=
  let i := cxpr_context_cache_bucket hash in
  let bucket := hash_bucket_at s i in
  if (hb_base bucket =? ns_base s)%Z && (hb_hash bucket =? hash)%Z &&
     match hb_key bucket with Some k => (k =? name_str key)%string | None => false end
  then Done (Some (hb_slot bucket), s)
  else
    let* entry := cxpr_hashmap_find_prehashed_slot (ns_map s) (name_str key) hash in
    match entry with
    | Some slot =>
        Done (Some slot,
              set_hash_bucket i (mk_hash_bucket (Some (name_str key)) hash slot (ns_base s)) s)
    | None => Done (None, set_hash_bucket i hash_bucket_zero s)
    end.

Definition cxpr_context_refresh_cache (s : num_store) (key : cname) (hash : Z) : run num_store :=
  let* entry := cxpr_hashmap_find_prehashed_slot (ns_map s) (name_str key) hash in
  let i := cxpr_context_cache_bucket hash in
  Done (set_hash_bucket i
          match entry with
          | Some slot => mk_hash_bucket (Some (name_str key)) hash slot (ns_base s)
          | None => mk_hash_bucket None hash 0 NULL
          end s).

Definition cxpr_context_refresh_pointer_cache (s : num_store) (key : cname) (entry : option nat)
    : num_store :=
  match entry with
  | None => s
  | Some slot =>
      set_ptr_bucket (cxpr_context_pointer_cache_bucket (name_ptr key))
        (mk_ptr_bucket (name_ptr key) slot (ns_base s)) s
  end.

(** Both caches of a store. *)
Definition cxpr_context_clear_entry_cache (s : num_store) : num_store :=
  mk_store (ns_map s) (ns_base s) ∅ ∅ (ns_version s).

(** [entry->value].  An entry pointer to a slot without a key is stale: the model
    does not say what is read or written through it. *)
Definition value_at (s : num_store) (slot : nat) : run float64 :=
  let* e := slot_at s slot in
  match e with Some (_, value) => Done value | None => Undef end.

(** [entry->value = value] *)
Definition write_value (s : num_store) (slot : nat) (value : float64) : run num_store :=
  match hm_entries (ns_map s) with
  | None => Undef
  | Some entries =>
      match entries !! slot with
      | Some (Some (k, _)) =>
          Done (with_map (mk_hashmap (Some (<[slot := Some (k, value)]> entries))
                            (hm_capacity (ns_map s)) (hm_count (ns_map s))) s)
      | _ => Undef
      end
  end.

(** [new_base] is the address a new entry array would get; the array is new when
    the capacity changed. *)
Definition cxpr_context_set_hashed (mem : alloc) (new_base : Z) (s : num_store) (name : cname)
    (hash : Z) (value : float64) : run num_store :=
  let* entry := cxpr_context_lookup_pointer_cached_entry s name in
  match entry with
  | Some slot => write_value s slot value
  | None =>
      let* '(entry, s) := cxpr_context_lookup_cached_entry s name hash in
      match entry with
      | Some slot => write_value (cxpr_context_refresh_pointer_cache s name (Some slot)) slot value
      | None =>
          let* '(added, map) := cxpr_hashmap_set_prehashed mem (ns_map s) (name_str name) hash value in
          let base := if hm_capacity map =? hm_capacity (ns_map s) then ns_base s else new_base in
          let version := if added then wrap64 (ns_version s + 1) else ns_version s in
          let s := mk_store map base (ns_cache s) (ns_ptr_cache s) version in
          let* s := cxpr_context_refresh_cache s name hash in
          let* entry := cxpr_hashmap_find_prehashed_slot (ns_map s) (name_str name) hash in
          Done (cxpr_context_refresh_pointer_cache s name entry)
      end
  end.

(** The lookups of the getters: by address, then by hash; a hit refreshes the
    address cache. *)
Definition store_lookup (s : num_store) (name : cname) : run (option float64 * num_store) :=
  let* entry := cxpr_context_lookup_pointer_cached_entry s name in
  match entry with
  | Some slot => let* value := value_at s slot in Done (Some value, s)
  | None =>
      let* '(entry, s) := cxpr_context_lookup_cached_entry s name (cxpr_hash_string (name_str name)) in
      match entry with
      | Some slot =>
          let s := cxpr_context_refresh_pointer_cache s name (Some slot) in
          let* value := value_at s slot in Done (Some value, s)
      | None => Done (None, s)
      end
  end.

(** ** The caches are transparent *)

(** A bucket that names the current entry array holds the slot of its key; an
    address bucket holds a slot of the array. *)
Record store_wf (s : num_store) (es : slots) : Prop := {
  sw_map : hashmap_wf (ns_map s) es;
  sw_base : ns_base s ≠ NULL;
  sw_hash i : hb_base (hash_bucket_at s i) = ns_base s →
    ∃ k v, hb_key (hash_bucket_at s i) = Some k ∧
      es !! hb_slot (hash_bucket_at s i) = Some (Some (k, v));
  sw_ptr i : pb_base (ptr_bucket_at s i) = ns_base s → pb_slot (ptr_bucket_at s i) < length es
}.

(** The store implements the finite map [m]. *)
Definition store_ok (s : num_store) (m : gmap string float64) : Prop :=
  ∃ es, store_wf s es ∧ table_map es = m.

Definition holds (es : slots) (slot : nat) (key : string) : Prop :=
  ∃ v, es !! slot = Some (Some (key, v)).

Lemma bucket_in_cache hash : (0 ≤ cxpr_context_cache_bucket hash < CXPR_CONTEXT_ENTRY_CACHE_SIZE)%Z.
Proof.
  unfold cxpr_context_cache_bucket, CXPR_CONTEXT_ENTRY_CACHE_SIZE.
  change (64 - 1)%Z with (Z.ones 6). rewrite Z.land_ones by lia. apply Z.mod_pos_bound. lia.
Qed.

Lemma pointer_bucket_in_cache key :
  (0 ≤ cxpr_context_pointer_cache_bucket key < CXPR_CONTEXT_ENTRY_CACHE_SIZE)%Z.
Proof. apply (bucket_in_cache (Z.shiftr key 4)). Qed.

Lemma pointer_lookup_spec s es key :
  store_wf s es →
  ∃ r, cxpr_context_lookup_pointer_cached_entry s key = Done r ∧
    match r with Some slot => holds es slot (name_str key) | None => True end.
Proof.
  intros Hwf. unfold cxpr_context_lookup_pointer_cached_entry.
  set (i := cxpr_context_pointer_cache_bucket _).
  destruct (pb_base (ptr_bucket_at s i) =? ns_base s)%Z eqn:Eb; cbn [andb]; [|by exists None].
  destruct (pb_key _ =? _)%Z; [|by exists None]. apply Z.eqb_eq in Eb.
  pose proof (sw_ptr _ _ Hwf i Eb) as Hlt. unfold slot_at.
  rewrite (wf_entries _ _ (sw_map _ _ Hwf)).
  destruct (lookup_lt_is_Some_2 es _ Hlt) as [e He]. rewrite He. cbn [run_bind].
  destruct e as [[k v]|]; [|by exists None].
  eexists. split; [done|]. destruct (k =? name_str key)%string eqn:Ek; [|done].
  apply String.eqb_eq in Ek as <-. by exists v.
Qed.

Lemma set_hash_bucket_wf s es i b :
  store_wf s es →
  (hb_base b = ns_base s → ∃ k v, hb_key b = Some k ∧ es !! hb_slot b = Some (Some (k, v))) →
  store_wf (set_hash_bucket i b s) es.
Proof.
  intros [? ? Hh ?] Hb. split; simpl; auto. intros j. unfold hash_bucket_at. simpl.
  destruct (decide (i = j)) as [->|].
  - by rewrite lookup_insert_eq.
  - rewrite lookup_insert_ne by done. apply Hh.
Qed.

Lemma refresh_pointer_wf s es key slot :
  store_wf s es → match slot with Some i => i < length es | None => True end →
  store_wf (cxpr_context_refresh_pointer_cache s key slot) es.
Proof.
  intros Hwf Hlt. destruct slot as [slot|]; [|done]. destruct Hwf as [? ? ? Hp].
  split; simpl; auto. intros j. unfold ptr_bucket_at. simpl.
  destruct (decide (cxpr_context_pointer_cache_bucket (name_ptr key) = j)) as [->|].
  - by rewrite lookup_insert_eq.
  - rewrite lookup_insert_ne by done. apply Hp.
Qed.

(** What a lookup does not change. *)
Definition same_map (s s' : num_store) : Prop :=
  ns_map s' = ns_map s ∧ ns_base s' = ns_base s ∧ ns_version s' = ns_version s.

(** The address of a new entry array: no bucket has it. *)
Definition fresh_base (b : Z) (s : num_store) : Prop :=
  b ≠ NULL ∧ ∀ i, hb_base (hash_bucket_at s i) ≠ b ∧ pb_base (ptr_bucket_at s i) ≠ b.

Lemma fresh_base_intro b s :
  b ≠ NULL → map_Forall (λ _ x, hb_base x ≠ b) (ns_cache s) →
  map_Forall (λ _ x, pb_base x ≠ b) (ns_ptr_cache s) → fresh_base b s.
Proof.
  intros Hb Hh Hp. split; [done|]. intros i. unfold hash_bucket_at, ptr_bucket_at. split.
  - destruct (ns_cache s !! i) as [x|] eqn:E; [by apply (Hh i x)|simpl; auto].
  - destruct (ns_ptr_cache s !! i) as [x|] eqn:E; [by apply (Hp i x)|simpl; auto].
Qed.

Lemma fresh_base_reset b i s : fresh_base b s → fresh_base b (set_hash_bucket i hash_bucket_zero s).
Proof.
  intros [Hb Hf]. split; [done|]. intros j. split; [|apply Hf]. unfold hash_bucket_at. simpl.
  destruct (decide (i = j)) as [->|].
  - rewrite lookup_insert_eq. simpl. auto.
  - rewrite lookup_insert_ne by done. apply Hf.
Qed.

Lemma cached_lookup_spec s es key :
  store_wf s es →
  ∃ r s', cxpr_context_lookup_cached_entry s key (cxpr_hash_string (name_str key)) = Done (r, s') ∧
    store_wf s' es ∧ same_map s s' ∧
    match r with
    | Some slot => holds es slot (name_str key)
    | None => table_map es !! name_str key = None ∧ ∀ b, fresh_base b s → fresh_base b s'
    end.
Proof.
  intros Hwf. unfold cxpr_context_lookup_cached_entry. set (i := cxpr_context_cache_bucket _).
  match goal with |- context [if ?b then _ else _] => destruct b eqn:E end.
  { apply andb_true_iff in E as [[Eb%Z.eqb_eq _]%andb_true_iff Ek].
    destruct (sw_hash _ _ Hwf i Eb) as (k & v & Hk & Hs). rewrite Hk in Ek.
    apply String.eqb_eq in Ek as ->. eexists _, s. split_and!; [done..|]. by exists v. }
  pose proof (find_slot_spec _ es (name_str key) (sw_map _ _ Hwf)) as Hfind.
  destruct (table_map es !! name_str key) as [v|] eqn:Hm.
  - destruct Hfind as (slot & -> & Hs). cbn [run_bind]. eexists _, _.
    split_and!; [done| |done..|by exists v]. apply set_hash_bucket_wf; [done|]. simpl. eauto.
  - rewrite Hfind. cbn [run_bind]. eexists _, _. split_and!; [done| |done..|].
    + apply set_hash_bucket_wf; [done|]. simpl. intros H. by destruct (sw_base _ _ Hwf).
    + split; [done|]. intros b. apply fresh_base_reset.
Qed.

Lemma value_at_spec s es slot key :
  store_wf s es → holds es slot key →
  ∃ v, value_at s slot = Done v ∧ table_map es !! key = Some v.
Proof.
  intros Hwf [v Hv]. exists v. unfold value_at, slot_at.
  rewrite (wf_entries _ _ (sw_map _ _ Hwf)), Hv. split; [done|].
  apply table_map_lookup; [apply (sw_map _ _ Hwf)|eauto].
Qed.

Lemma lookup_wf s es key :
  store_wf s es →
  ∃ r s', store_lookup s key = Done (r, s') ∧ store_wf s' es ∧ same_map s s' ∧
    r = table_map es !! name_str key.
Proof.
  intros Hwf. unfold store_lookup.
  destruct (pointer_lookup_spec s es key Hwf) as (r & -> & Hr). cbn [run_bind].
  destruct r as [slot|].
  { destruct (value_at_spec s es slot _ Hwf Hr) as (v & -> & ->). by exists (Some v), s. }
  destruct (cached_lookup_spec s es key Hwf) as (r & s' & -> & Hwf' & Hsame & Hr'). cbn [run_bind].
  destruct r as [slot|].
  - assert (Hwf2 : store_wf (cxpr_context_refresh_pointer_cache s' key (Some slot)) es).
    { apply refresh_pointer_wf; [done|]. destruct Hr' as [v Hv]. by eapply lookup_lt_Some. }
    destruct (value_at_spec _ es slot _ Hwf2 Hr') as (v & -> & ->). cbn [run_bind]. by eexists _, _.
  - destruct Hr' as [-> _]. by exists None, s'.
Qed.

Lemma store_lookup_spec s m key :
  store_ok s m →
  ∃ s', store_lookup s key = Done (m !! name_str key, s') ∧ store_ok s' m ∧ same_map s s'.
Proof.
  intros (es & Hwf & <-). destruct (lookup_wf s es key Hwf) as (r & s' & -> & Hwf' & Hsame & ->).
  exists s'. split_and!; [done|by exists es|done..].
Qed.

(** Every key stays in its slot. *)
Definition keeps (es es' : slots) : Prop :=
  ∀ j k v, es !! j = Some (Some (k, v)) → ∃ w, es' !! j = Some (Some (k, w)).

Lemma update_wf s es map' es' version :
  store_wf s es → hashmap_wf map' es' →
  (∀ j k v, es !! j = Some (Some (k, v)) → ∃ w, es' !! j = Some (Some (k, w))) →
  length es ≤ length es' →
  store_wf (mk_store map' (ns_base s) (ns_cache s) (ns_ptr_cache s) version) es'.
Proof.
  intros [? ? Hh Hp] Hwf' Hkeep Hlen. split; simpl; auto.
  - intros i Hi. destruct (Hh i Hi) as (k & v & Hk & Hs). destruct (Hkeep _ _ _ Hs) as [w ?]. eauto.
  - intros i Hi. specialize (Hp i Hi). unfold ptr_bucket_at in *. simpl in *. lia.
Qed.

Lemma write_value_spec s es slot key v :
  store_wf s es → holds es slot key →
  ∃ s' es', write_value s slot v = Done s' ∧ store_wf s' es' ∧
    table_map es' = <[key := v]> (table_map es) ∧
    ns_base s' = ns_base s ∧ ns_version s' = ns_version s ∧ keeps es es'.
Proof.
  intros Hwf [w Hw]. pose proof (sw_map _ _ Hwf) as Hm. unfold write_value.
  rewrite (wf_entries _ _ Hm), Hw.
  assert (Hlook : table_map es !! key = Some w) by (apply table_map_lookup; [apply Hm|eauto]).
  destruct (overwrite_spec alloc_all _ _ key w v slot Hm Hlook Hw)
    as (Hm' & _ & He & Hok & Hc & Hn & Ho & _ & Hkeep).
  eexists _, (<[slot := Some (key, v)]> es). split_and!; [done| |done..|exact (Hkeep eq_refl)].
  apply update_wf with es; auto.
  - destruct Hm as [_ ? _ ? ?]. split; auto. rewrite length_insert, Ho. simpl. lia.
  - by apply Hkeep.
  - by rewrite length_insert.
Qed.

Lemma fresh_wf s map es b version :
  fresh_base b s → hashmap_wf map es →
  store_wf (mk_store map b (ns_cache s) (ns_ptr_cache s) version) es.
Proof.
  intros [Hb Hf] Hwf. split; simpl; auto; intros i Hi; destruct (Hf i) as [? ?]; done.
Qed.

(** Adding a key to the hash map behind the caches. *)
Lemma add_spec mem b s es name v :
  store_wf s es → fresh_base b s → strdup_ok mem (name_str name) = true →
  has_room mem (ns_map s) → table_map es !! name_str name = None →
  ∃ map' es' , cxpr_hashmap_set_prehashed mem (ns_map s) (name_str name)
                 (cxpr_hash_string (name_str name)) v = Done (true, map') ∧
    table_map es' = <[name_str name := v]> (table_map es) ∧
    store_wf (mk_store map' (if hm_capacity map' =? hm_capacity (ns_map s) then ns_base s else b)
                (ns_cache s) (ns_ptr_cache s) (wrap64 (ns_version s + 1))) es' ∧
    (hm_capacity map' = hm_capacity (ns_map s) → keeps es es').
Proof.
  intros Hwf Hfresh Hdup Hroom Hnone. pose proof (sw_map _ _ Hwf) as Hm.
  destruct (set_wf_spec mem _ es (name_str name) v Hm Hdup Hroom)
    as (added & map' & es' & Hset & Hwf' & Hm' & -> & Hcap & Hkeep).
  rewrite bool_decide_true in Hset by done. exists map', es'. split_and!; auto.
  destruct (hm_capacity map' =? hm_capacity (ns_map s)) eqn:Ec.
  - apply Nat.eqb_eq in Ec. apply update_wf with es; [done|done|by apply Hkeep|].
    pose proof (wf_capacity _ _ Hm). pose proof (wf_capacity _ _ Hwf'). lia.
  - by apply fresh_wf.
Qed.

Lemma set_hashed_wf mem b s es name v :
  store_wf s es → fresh_base b s → strdup_ok mem (name_str name) = true →
  has_room mem (ns_map s) →
  ∃ s' es', cxpr_context_set_hashed mem b s name (cxpr_hash_string (name_str name)) v = Done s' ∧
    store_wf s' es' ∧ table_map es' = <[name_str name := v]> (table_map es) ∧
    ((table_map es !! name_str name = None ∧ ns_version s' = wrap64 (ns_version s + 1) ∧
      (ns_base s' = b ∨ ns_base s' = ns_base s ∧ keeps es es')) ∨
     (is_Some (table_map es !! name_str name) ∧ ns_version s' = ns_version s ∧
      ns_base s' = ns_base s ∧ keeps es es')).
Proof.
  intros Hwf Hfresh Hdup Hroom. unfold cxpr_context_set_hashed.
  destruct (pointer_lookup_spec s es name Hwf) as (r & -> & Hr). cbn [run_bind].
  destruct r as [slot|].
  { destruct (write_value_spec s es slot _ v Hwf Hr) as (s' & es' & -> & ? & ? & ? & ? & ?).
    exists s', es'. split_and!; auto. right. split_and!; auto.
    destruct (value_at_spec s es slot _ Hwf Hr) as (w & _ & ->). eauto. }
  destruct (cached_lookup_spec s es name Hwf) as (r & s1 & -> & Hwf1 & (Hm1 & Hb1 & Hv1) & Hr1).
  cbn [run_bind]. destruct r as [slot|].
  { assert (Hwf2 : store_wf (cxpr_context_refresh_pointer_cache s1 name (Some slot)) es).
    { apply refresh_pointer_wf; [done|]. destruct Hr1 as [w Hw]. by eapply lookup_lt_Some. }
    destruct (write_value_spec _ es slot _ v Hwf2 Hr1) as (s' & es' & -> & ? & ? & Hb' & Hv' & ?).
    cbn [cxpr_context_refresh_pointer_cache set_ptr_bucket ns_version ns_base] in Hb', Hv'.
    exists s', es'. split_and!; auto. right. split_and!; auto; [|congruence..].
    destruct (value_at_spec s1 es slot _ Hwf1 Hr1) as (w & _ & ->). eauto. }
  rewrite <- Hm1 in Hroom. destruct Hr1 as [Hnone Hfresh1].
  destruct (add_spec mem b s1 es name v Hwf1 (Hfresh1 b Hfresh) Hdup Hroom Hnone) as (map' & es' & -> & Hm' & Hwf' & Hkeep).
  cbn [run_bind]. set (s2 := mk_store map' _ _ _ _) in *. unfold cxpr_context_refresh_cache.
  pose proof (find_slot_spec _ es' (name_str name) (sw_map _ _ Hwf')) as Hfind.
  rewrite Hm', lookup_insert_eq in Hfind. destruct Hfind as (slot & Hfind & Hs). rewrite Hfind.
  cbn [run_bind]. set (s3 := set_hash_bucket _ _ s2).
  assert (Hwf3 : store_wf s3 es') by (apply set_hash_bucket_wf; [done|simpl; eauto]).
  change (ns_map s3) with (ns_map s2). rewrite Hfind. cbn [run_bind].
  eexists _, es'. split_and!; [done| |done|left; split; [done|split; [cbn; by rewrite Hv1|]]].
  { apply refresh_pointer_wf; [done|]. by eapply lookup_lt_Some. }
  subst s3 s2. cbn [cxpr_context_refresh_pointer_cache set_ptr_bucket set_hash_bucket ns_base]. rewrite Hb1.
  destruct (Nat.eqb_spec (hm_capacity map') (hm_capacity (ns_map s1))); [right; by auto|by left].
Qed.

Lemma set_hashed_spec mem b s m name v :
  store_ok s m → fresh_base b s → strdup_ok mem (name_str name) = true →
  has_room mem (ns_map s) →
  ∃ s', cxpr_context_set_hashed mem b s name (cxpr_hash_string (name_str name)) v = Done s' ∧
    store_ok s' (<[name_str name := v]> m) ∧
    ns_version s' = (if bool_decide (m !! name_str name = None)
                     then wrap64 (ns_version s + 1) else ns_version s).
Proof.
  intros (es & Hwf & <-) Hfresh Hdup Hroom.
  destruct (set_hashed_wf mem b s es name v Hwf Hfresh Hdup Hroom)
    as (s' & es' & -> & Hwf' & Hm & Hcase).
  exists s'. split_and!; [done|by exists es'|].
  destruct Hcase as [(Hn & Hv & _)|([w Hw] & Hv & _)].
  - by rewrite bool_decide_true.
  - rewrite bool_decide_false; [done|]. by rewrite Hw.
Qed.

(** C32: the caches are transparent: setting a number in a well-formed store whose
    next entry array would get an address no bucket remembers terminates, and
    afterwards a lookup by any pointer to any name answers as the finite map with
    that one binding changed and keeps the store well-formed; the version moves
    exactly when the name is new. *)
Theorem cached_store_correct mem b s m name v :
  store_ok s m → fresh_base b s → strdup_ok mem (name_str name) = true → has_room mem (ns_map s) →
  ∃ s', cxpr_context_set_hashed mem b s name (cxpr_hash_string (name_str name)) v = Done s' ∧
    ns_version s' = (if bool_decide (m !! name_str name = None)
                     then wrap64 (ns_version s + 1) else ns_version s) ∧
    ∀ other, ∃ s'', store_lookup s' other = Done (<[name_str name := v]> m !! name_str other, s'') ∧
                    store_ok s'' (<[name_str name := v]> m).
Proof.
  intros Hok Hfresh Hdup Hroom.
  destruct (set_hashed_spec mem b s m name v Hok Hfresh Hdup Hroom) as (s' & -> & Hok' & Hver).
  exists s'. split_and!; auto. intros other.
  destruct (store_lookup_spec s' _ other Hok') as (s'' & ? & ? & _). eauto.
Qed.

(** [cxpr_hashmap_init] with its entries at [base]. *)
Definition store_init (base : Z) : num_store :=
  mk_store (cxpr_hashmap_init alloc_all) base ∅ ∅ 1.

Lemma store_init_ok base : base ≠ NULL → store_ok (store_init base) ∅.
Proof.
  intros Hb. exists (replicate 32 None). split; [|apply table_map_empty].
  split; [by apply hashmap_init_wf|done|..]; simpl; intros i Hi; by symmetry in Hi.
Qed.

Lemma store_init_fresh base b : b ≠ NULL → fresh_base b (store_init base).
Proof. intros Hb. split; [done|]. intros i. by split; intros ?. Qed.

Lemma cached_store_correct_witness :
  ∃ s', cxpr_context_set_hashed alloc_all 2 (store_init 1) (mk_name 100 "x")
          (cxpr_hash_string "x") fone = Done s' ∧ ns_version s' = 2%Z ∧
    ∃ s'', store_lookup s' (mk_name 200 "x") = Done (Some fone, s'').
Proof.
  destruct (cached_store_correct alloc_all 2 (store_init 1) ∅ (mk_name 100 "x") fone
    (store_init_ok 1 ltac:(discriminate)) (store_init_fresh 1 2 ltac:(discriminate)) eq_refl)
    as (s' & Hset & Hver & Hget); [left; vm_compute; lia|].
  exists s'. split; [exact Hset|]. split; [exact Hver|].
  destruct (Hget (mk_name 200 "x")) as (s'' & Hl & _). exists s''. rewrite Hl. reflexivity.
Defined.

(** *** A reused address

    The hash bucket of a name is only compared with the address of the entry
    array.  When the table grows twice and the second new array gets the address
    of the first one, the bucket hits with the slot of the old, smaller table. *)
Definition reuse_key (n : nat) : string :=
  String (ascii_of_nat (65 + n)) EmptyString.

(** Adds [n] names, bound to their numbers; [base] is the address a new entry
    array gets. *)
Fixpoint add_names (base : Z) (from n : nat) (s : num_store) : run num_store :=
  match n with
  | O => Done s
  | S n' =>
      let k := reuse_key from in
      let* s := cxpr_context_set_hashed alloc_all base s (mk_name (16 * Z.of_nat from) k)
                  (cxpr_hash_string k) (of_Z (Z.of_nat from)) in
      add_names base (S from) n' s
  end.

(** The table starts at address 1, grows to address 2 and grows again to the
    released address 1. *)
Definition reused : run num_store :=
  let* s := add_names 2 0 24 (store_init 1) in add_names 1 24 26 s.

(** The hash cache is not safe against a reused address: 50 names are set, the
    second resize gets the address the first one released, and the lookup of the
    first name, which the hash map still binds to 0, returns the value of
    another name. *)
Theorem reused_base_wrong_value :
  (let* s := reused in
   let* bound := cxpr_hashmap_get (ns_map s) "A" in
   let* '(returned, _) := store_lookup s (mk_name 99999 "A") in
   Done (bound, returned))
  = Done ((of_Z 0, true), Some (of_Z 32)).
Proof. vm_compute. reflexivity. Qed.
