(* ===== verification/Context.v ===== *)
(** * Context: typed bindings of variables and parameters
    ([src/context/values.c], [src/context/structs.c], [src/context/lifecycle.c],
    [src/context/slot.c])

    A context keeps one store per type for variables and one for parameters; a
    setter writes one store and clears the name in some of the others, and a
    getter tries the stores of the context in a fixed order and then those of its
    parent.  The getters also move the caches of the contexts they visit, so a
    lookup returns the updated contexts.

    A context with its ancestors is a list, the context first.  The result view
    of an attached evaluator ([expression_scope]) is a partial function. *)

From Stdlib Require Import Ascii String ZArith Lia.
From stdpp Require Import base list strings gmap fin_maps.
From S2P Require Import Prelude Float64 Types ValueCopy OpenTable Hashmap StructMap Bindings.
Local Open Scope run_scope.
Local Open Scope nat_scope.

(** ** Data *)

Record cxpr_context : Type := mk_context {
  variables : num_store;
  params : num_store;
  bools : cxpr_bool_map;
  bool_params : cxpr_bool_map;
  int64s : cxpr_int64_map;
  int64_params : cxpr_int64_map;
  strings : cxpr_string_map;
  string_params : cxpr_string_map;
  structs : cxpr_struct_map;
  cached_structs : cxpr_struct_map;
  arrays : cxpr_array_map;
  array_params : cxpr_array_map;
  expression_scope : option (string → option cxpr_value)
}.

(** What the allocator answers during one call: the requests of the maps, those
    of deep copies, and the address of a new entry array. *)
Record env : Type := mk_env {
  e_mem : alloc;
  e_ok : nat → bool;
  e_base : Z
}.

(** ** Updates of one field *)

Definition set_variables s c := mk_context s (params c) (bools c) (bool_params c) (int64s c)
  (int64_params c) (strings c) (string_params c) (structs c) (cached_structs c) (arrays c)
  (array_params c) (expression_scope c).
Definition set_params s c := mk_context (variables c) s (bools c) (bool_params c) (int64s c)
  (int64_params c) (strings c) (string_params c) (structs c) (cached_structs c) (arrays c)
  (array_params c) (expression_scope c).
Definition set_bools s c := mk_context (variables c) (params c) s (bool_params c) (int64s c)
  (int64_params c) (strings c) (string_params c) (structs c) (cached_structs c) (arrays c)
  (array_params c) (expression_scope c).
Definition set_bool_params s c := mk_context (variables c) (params c) (bools c) s (int64s c)
  (int64_params c) (strings c) (string_params c) (structs c) (cached_structs c) (arrays c)
  (array_params c) (expression_scope c).
Definition set_int64s s c := mk_context (variables c) (params c) (bools c) (bool_params c) s
  (int64_params c) (strings c) (string_params c) (structs c) (cached_structs c) (arrays c)
  (array_params c) (expression_scope c).
Definition set_int64_params s c := mk_context (variables c) (params c) (bools c) (bool_params c)
  (int64s c) s (strings c) (string_params c) (structs c) (cached_structs c) (arrays c)
  (array_params c) (expression_scope c).
Definition set_strings s c := mk_context (variables c) (params c) (bools c) (bool_params c)
  (int64s c) (int64_params c) s (string_params c) (structs c) (cached_structs c) (arrays c)
  (array_params c) (expression_scope c).
Definition set_string_params s c := mk_context (variables c) (params c) (bools c) (bool_params c)
  (int64s c) (int64_params c) (strings c) s (structs c) (cached_structs c) (arrays c)
  (array_params c) (expression_scope c).
Definition set_structs s c := mk_context (variables c) (params c) (bools c) (bool_params c)
  (int64s c) (int64_params c) (strings c) (string_params c) s (cached_structs c) (arrays c)
  (array_params c) (expression_scope c).
Definition set_cached_structs s c := mk_context (variables c) (params c) (bools c) (bool_params c)
  (int64s c) (int64_params c) (strings c) (string_params c) (structs c) s (arrays c)
  (array_params c) (expression_scope c).
Definition set_arrays s c := mk_context (variables c) (params c) (bools c) (bool_params c)
  (int64s c) (int64_params c) (strings c) (string_params c) (structs c) (cached_structs c) s
  (array_params c) (expression_scope c).
Definition set_array_params s c := mk_context (variables c) (params c) (bools c) (bool_params c)
  (int64s c) (int64_params c) (strings c) (string_params c) (structs c) (cached_structs c)
  (arrays c) s (expression_scope c).
Definition set_scope s c := mk_context (variables c) (params c) (bools c) (bool_params c)
  (int64s c) (int64_params c) (strings c) (string_params c) (structs c) (cached_structs c)
  (arrays c) (array_params c) s.

(** [version++] *)
Definition bump (s : num_store) : num_store :=
  mk_store (ns_map s) (ns_base s) (ns_cache s) (ns_ptr_cache s) (wrap64 (ns_version s + 1)).

Definition drop_bool (name : cname) (c : cxpr_context) : cxpr_context :=
  set_bools (cxpr_bool_map_remove (bools c) (name_str name)) c.
Definition drop_int64 (name : cname) (c : cxpr_context) : cxpr_context :=
  set_int64s (cxpr_int64_map_remove (int64s c) (name_str name)) c.
Definition drop_string (name : cname) (c : cxpr_context) : cxpr_context :=
  set_strings (cxpr_string_map_remove (strings c) (name_str name)) c.
Definition drop_array (name : cname) (c : cxpr_context) : run cxpr_context :=
  let* a := cxpr_context_remove_array (arrays c) (name_str name) in Done (set_arrays a c).
Definition drop_struct (name : cname) (c : cxpr_context) : run cxpr_context :=
  let* s := cxpr_context_remove_struct (structs c) (name_str name) in Done (set_structs s c).

(** ** Variables: setters *)

Definition cxpr_context_set_prehashed (e : env) (c : cxpr_context) (name : cname) (hash : Z)
    (value : float64) : run cxpr_context :=
  let c := drop_string name (drop_int64 name (drop_bool name c)) in
  let* c := drop_array name c in
  let* c := drop_struct name c in
  let* v := cxpr_context_set_hashed (e_mem e) (e_base e) (variables c) name hash value in
  Done (set_variables v c).

Definition cxpr_context_set (e : env) (c : cxpr_context) (name : cname) (value : float64)
    : run cxpr_context :=
  cxpr_context_set_prehashed e c name (cxpr_hash_string (name_str name)) value.

Definition cxpr_context_set_bool (e : env) (c : cxpr_context) (name : cname) (value : bool)
    : run cxpr_context :=
  let c := drop_int64 name (drop_string name c) in
  let* c := drop_array name c in
  let* c := drop_struct name c in
  let '(done, m) := cxpr_bool_map_set (e_mem e) (bools c) (name_str name) value in
  let c := set_bools m c in
  Done (if done then set_variables (bump (variables c)) c else c).

Definition cxpr_context_set_int64 (e : env) (c : cxpr_context) (name : cname) (value : Z)
    : run cxpr_context :=
  let c := drop_string name (drop_bool name c) in
  let* c := drop_array name c in
  let* c := drop_struct name c in
  let '(done, m) := cxpr_int64_map_set (e_mem e) (int64s c) (name_str name) value in
  let c := set_int64s m c in
  Done (if done then set_variables (bump (variables c)) c else c).

Definition cxpr_context_set_string (e : env) (c : cxpr_context) (name : cname) (value : string)
    : run cxpr_context :=
  let c := drop_bool name c in
  let* c := drop_array name c in
  let* c := drop_struct name c in
  let '(done, m) := cxpr_string_map_set (e_mem e) (strings c) (name_str name) value in
  let c := set_strings m c in
  Done (if done then set_variables (bump (variables c)) c else c).

Definition cxpr_context_set_struct (e : env) (c : cxpr_context) (name : cname)
    (value : cxpr_struct_value) : run cxpr_context :=
  let* s := cxpr_context_store_struct (e_mem e) (e_ok e) (structs c) (name_str name) value in
  Done (set_structs s c).

Definition cxpr_context_set_cached_struct (e : env) (c : cxpr_context) (name : cname)
    (value : cxpr_struct_value) : run cxpr_context :=
  let* s := cxpr_context_store_struct (e_mem e) (e_ok e) (cached_structs c) (name_str name) value in
  Done (set_cached_structs s c).

Definition cxpr_context_set_value (e : env) (c : cxpr_context) (name : cname) (value : cxpr_value)
    : run cxpr_context :=
  match value with
  | VNum d => cxpr_context_set e c name d
  | VBool b => cxpr_context_set_bool e c name b
  | VInt64 i => cxpr_context_set_int64 e c name i
  | VString s => cxpr_context_set_string e c name s
  | VStruct s =>
      let c := drop_string name (drop_bool name c) in
      let* c := drop_array name c in
      cxpr_context_set_struct e c name s
  | VArray a =>
      let c := drop_string name (drop_bool name c) in
      let* c := drop_struct name c in
      let* m := cxpr_context_store_array (e_mem e) (e_ok e) (arrays c) (name_str name) a in
      let c := set_arrays m c in
      Done (set_variables (bump (variables c)) c)
  | VNull | VTimestamp _ | VDuration _ => Done c
  end.

(** The entries up to the NULL name; [e i] is the allocator during iteration [i]. *)
Fixpoint set_each (set : env → cxpr_context → cname → float64 → run cxpr_context)
    (e : nat → env) (i : nat) (entries : list (cname * float64)) (c : cxpr_context)
    : run cxpr_context :=
  match entries with
  | [] => Done c
  | (name, value) :: rest =>
      let* c := set (e i) c name value in set_each set e (S i) rest c
  end.

Definition cxpr_context_set_array (e : nat → env) (c : cxpr_context)
    (entries : list (cname * float64)) : run cxpr_context :=
  set_each cxpr_context_set e 0 entries c.

(** ** Variables: getters *)

(** [cxpr_array(cxpr_array_value_new(...))] and [cxpr_struct(cxpr_struct_value_new(...))],
    with the copy granted. *)
Definition copied_array (a : cxpr_array_value) : cxpr_value :=
  VArray (default [] (fst (cxpr_array_value_new (λ _, true) a 0))).
Definition copied_struct (s : cxpr_struct_value) : cxpr_value :=
  VStruct (default [] (fst (cxpr_struct_value_new (λ _, true) s 0))).

Definition cxpr_context_get_local_bool (c : cxpr_context) (name : cname) : option bool :=
  cxpr_bool_map_get (bools c) (name_str name).
Definition cxpr_context_get_local_int64 (c : cxpr_context) (name : cname) : option Z :=
  cxpr_int64_map_get (int64s c) (name_str name).
Definition cxpr_context_get_local_string (c : cxpr_context) (name : cname) : option string :=
  cxpr_string_map_get (strings c) (name_str name).

(** The part of [cxpr_context_get_typed] that looks in one context. *)
Definition get_typed_local (c : cxpr_context) (name : cname)
    : run (option cxpr_value * cxpr_context) :=
  match (match expression_scope c with Some lookup => lookup (name_str name) | None => None end) with
  | Some value => Done (Some value, c)
  | None =>
  match cxpr_context_get_local_bool c name with
  | Some b => Done (Some (VBool b), c)
  | None =>
  match cxpr_context_get_local_int64 c name with
  | Some i => Done (Some (VInt64 i), c)
  | None =>
  match cxpr_context_get_local_string c name with
  | Some s => Done (Some (VString s), c)
  | None =>
      let* a := cxpr_context_lookup_array_map (arrays c) (name_str name) in
      match a with
      | Some a => Done (Some (copied_array a), c)
      | None =>
          let* '(number, v) := store_lookup (variables c) name in
          let c := set_variables v c in
          match number with
          | Some d => Done (Some (VNum d), c)
          | None =>
              let* s := cxpr_context_lookup_struct_map (structs c) (name_str name) in
              match s with
              | Some s => Done (Some (copied_struct s), c)
              | None =>
                  let* s := cxpr_context_lookup_struct_map (cached_structs c) (name_str name) in
                  Done (option_map copied_struct s, c)
              end
          end
      end
  end end end end.

(** The value ([None] when [*found] is false) and the contexts visited. *)
Fixpoint cxpr_context_get_typed (chain : list cxpr_context) (name : cname)
    : run (option cxpr_value * list cxpr_context) :=
  match chain with
  | [] => Done (None, [])
  | c :: parents =>
      let* '(value, c) := get_typed_local c name in
      match value with
      | Some v => Done (Some v, c :: parents)
      | None =>
          let* '(value, parents) := cxpr_context_get_typed parents name in
          Done (value, c :: parents)
      end
  end.

(** Numbers and bools only; any other type is a miss. *)
Definition cxpr_context_get (chain : list cxpr_context) (name : cname)
    : run (float64 * bool * list cxpr_context) :=
  let* '(typed, chain) := cxpr_context_get_typed chain name in
  Done (match typed with
        | Some (VNum d) => (d, true, chain)
        | Some (VBool b) => (if b then fone else fzero, true, chain)
        | _ => (fzero, false, chain)
        end).

Fixpoint cxpr_context_get_bool (chain : list cxpr_context) (name : cname) : option bool :=
  match chain with
  | [] => None
  | c :: parents =>
      match cxpr_bool_map_get (bools c) (name_str name) with
      | Some b => Some b
      | None => cxpr_context_get_bool parents name
      end
  end.

Fixpoint cxpr_context_get_string (chain : list cxpr_context) (name : cname) : option string :=
  match chain with
  | [] => None
  | c :: parents =>
      match cxpr_string_map_get (strings c) (name_str name) with
      | Some s => Some s
      | None => cxpr_context_get_string parents name
      end
  end.

Fixpoint cxpr_context_get_struct (chain : list cxpr_context) (name : cname)
    : run (option cxpr_struct_value) :=
  match chain with
  | [] => Done None
  | c :: parents =>
      let* s := cxpr_context_lookup_struct_map (structs c) (name_str name) in
      match s with
      | Some s => Done (Some s)
      | None => cxpr_context_get_struct parents name
      end
  end.

Fixpoint cxpr_context_get_cached_struct (chain : list cxpr_context) (name : cname)
    : run (option cxpr_struct_value) :=
  match chain with
  | [] => Done None
  | c :: parents =>
      let* s := cxpr_context_lookup_struct_map (cached_structs c) (name_str name) in
      match s with
      | Some s => Done (Some s)
      | None => cxpr_context_get_cached_struct parents name
      end
  end.

(** The first field with the name. *)
Fixpoint field_of (s : cxpr_struct_value) (field : string) : option cxpr_value :=
  match s with
  | [] => None
  | (k, v) :: rest => if (k =? field)%string then Some v else field_of rest field
  end.

Definition cxpr_context_get_field (chain : list cxpr_context) (name : cname) (field : string)
    : run (option cxpr_value * list cxpr_context) :=
  let* s := cxpr_context_get_struct chain name in
  match s with
  | Some s => Done (field_of s field, chain)
  | None =>
      let* '(root, chain) := cxpr_context_get_typed chain name in
      Done (match root with Some (VStruct s) => field_of s field | _ => None end, chain)
  end.

(** ** Parameters: setters *)

Definition drop_bool_param (name : cname) (c : cxpr_context) : cxpr_context :=
  set_bool_params (cxpr_bool_map_remove (bool_params c) (name_str name)) c.
Definition drop_int64_param (name : cname) (c : cxpr_context) : cxpr_context :=
  set_int64_params (cxpr_int64_map_remove (int64_params c) (name_str name)) c.
Definition drop_string_param (name : cname) (c : cxpr_context) : cxpr_context :=
  set_string_params (cxpr_string_map_remove (string_params c) (name_str name)) c.
Definition drop_array_param (name : cname) (c : cxpr_context) : run cxpr_context :=
  let* a := cxpr_context_remove_array (array_params c) (name_str name) in
  Done (set_array_params a c).

Definition cxpr_context_set_param_prehashed (e : env) (c : cxpr_context) (name : cname) (hash : Z)
    (value : float64) : run cxpr_context :=
  let c := drop_string_param name (drop_int64_param name (drop_bool_param name c)) in
  let* c := drop_array_param name c in
  let* c := drop_struct name c in
  let* p := cxpr_context_set_hashed (e_mem e) (e_base e) (params c) name hash value in
  Done (set_params p c).

Definition cxpr_context_set_param (e : env) (c : cxpr_context) (name : cname) (value : float64)
    : run cxpr_context :=
  cxpr_context_set_param_prehashed e c name (cxpr_hash_string (name_str name)) value.

Definition cxpr_context_set_param_array (e : nat → env) (c : cxpr_context)
    (entries : list (cname * float64)) : run cxpr_context :=
  set_each cxpr_context_set_param e 0 entries c.

Definition cxpr_context_set_param_bool (e : env) (c : cxpr_context) (name : cname) (value : bool)
    : run cxpr_context :=
  let c := drop_int64_param name (drop_string_param name c) in
  let* c := drop_array_param name c in
  let* c := drop_struct name c in
  let '(done, m) := cxpr_bool_map_set (e_mem e) (bool_params c) (name_str name) value in
  let c := set_bool_params m c in
  Done (if done then set_params (bump (params c)) c else c).

Definition cxpr_context_set_param_int64 (e : env) (c : cxpr_context) (name : cname) (value : Z)
    : run cxpr_context :=
  let c := drop_string_param name (drop_bool_param name c) in
  let '(done, m) := cxpr_int64_map_set (e_mem e) (int64_params c) (name_str name) value in
  let c := set_int64_params m c in
  Done (if done then set_params (bump (params c)) c else c).

Definition cxpr_context_set_param_string (e : env) (c : cxpr_context) (name : cname)
    (value : string) : run cxpr_context :=
  let c := drop_bool_param name c in
  let* c := drop_array_param name c in
  let* c := drop_struct name c in
  let '(done, m) := cxpr_string_map_set (e_mem e) (string_params c) (name_str name) value in
  let c := set_string_params m c in
  Done (if done then set_params (bump (params c)) c else c).

Definition cxpr_context_set_param_value (e : env) (c : cxpr_context) (name : cname)
    (value : cxpr_value) : run cxpr_context :=
  match value with
  | VNum d => cxpr_context_set_param e c name d
  | VBool b => cxpr_context_set_param_bool e c name b
  | VInt64 i => cxpr_context_set_param_int64 e c name i
  | VString s => cxpr_context_set_param_string e c name s
  | VStruct s =>
      let c := drop_string_param name (drop_bool_param name c) in
      let* c := drop_array_param name c in
      let* m := cxpr_context_store_struct (e_mem e) (e_ok e) (structs c) (name_str name) s in
      let c := set_structs m c in
      Done (set_params (bump (params c)) c)
  | VArray a =>
      let c := drop_string_param name (drop_bool_param name c) in
      let* c := drop_struct name c in
      let* m := cxpr_context_store_array (e_mem e) (e_ok e) (array_params c) (name_str name) a in
      let c := set_array_params m c in
      Done (set_params (bump (params c)) c)
  | VNull | VTimestamp _ | VDuration _ => Done c
  end.

(** ** Parameters: getters *)

Definition cxpr_context_get_local_param_bool (c : cxpr_context) (name : cname) : option bool :=
  cxpr_bool_map_get (bool_params c) (name_str name).
Definition cxpr_context_get_local_param_int64 (c : cxpr_context) (name : cname) : option Z :=
  cxpr_int64_map_get (int64_params c) (name_str name).
Definition cxpr_context_get_local_param_string (c : cxpr_context) (name : cname) : option string :=
  cxpr_string_map_get (string_params c) (name_str name).

Fixpoint cxpr_context_get_param_bool (chain : list cxpr_context) (name : cname) : option bool :=
  match chain with
  | [] => None
  | c :: parents =>
      match cxpr_bool_map_get (bool_params c) (name_str name) with
      | Some b => Some b
      | None => cxpr_context_get_param_bool parents name
      end
  end.

Fixpoint cxpr_context_get_param_string (chain : list cxpr_context) (name : cname) : option string :=
  match chain with
  | [] => None
  | c :: parents =>
      match cxpr_string_map_get (string_params c) (name_str name) with
      | Some s => Some s
      | None => cxpr_context_get_param_string parents name
      end
  end.

Fixpoint cxpr_context_get_param (chain : list cxpr_context) (name : cname)
    : run (option float64 * list cxpr_context) :=
  match chain with
  | [] => Done (None, [])
  | c :: parents =>
      let* '(number, p) := store_lookup (params c) name in
      let c := set_params p c in
      match number with
      | Some d => Done (Some d, c :: parents)
      | None =>
          let* '(number, parents) := cxpr_context_get_param parents name in
          Done (number, c :: parents)
      end
  end.

(** [strchr]: the text before the first [c] and the text after it. *)
Fixpoint split_at (c : ascii) (s : string) : option (string * string) :=
  match s with
  | EmptyString => None
  | String a s' =>
      if (a =? c)%char then Some (EmptyString, s')
      else option_map (λ p, (String a (fst p), snd p)) (split_at c s')
  end.

(** A name [root.field] with one dot and a root of 1 to 255 characters. *)
Definition dotted_name (name : string) : option (string * string) :=
  match split_at "." name with
  | Some (root, field) =>
      match split_at "." field with
      | Some _ => None
      | None => if (0 <? strlen root) && (strlen root <? 256) then Some (root, field) else None
      end
  | None => None
  end.

(** The part of [cxpr_context_get_param_typed] that looks in one context, up to
    the numeric parameter. *)
Definition get_param_local (c : cxpr_context) (name : cname) : run (option cxpr_value) :=
  match cxpr_context_get_local_param_bool c name with
  | Some b => Done (Some (VBool b))
  | None =>
  match cxpr_context_get_local_param_int64 c name with
  | Some i => Done (Some (VInt64 i))
  | None =>
  match cxpr_context_get_local_param_string c name with
  | Some s => Done (Some (VString s))
  | None =>
      let* a := cxpr_context_lookup_array_map (array_params c) (name_str name) in
      match a with
      | Some a => Done (Some (copied_array a))
      | None =>
          let* s := cxpr_context_lookup_struct_map (structs c) (name_str name) in
          match s with
          | Some s => Done (Some (copied_struct s))
          | None =>
              match dotted_name (name_str name) with
              | None => Done None
              | Some (root, field) =>
                  let* s := cxpr_context_lookup_struct_map (structs c) root in
                  Done (match s with Some s => field_of s field | None => None end)
              end
          end
      end
  end end end.

(** The numeric parameter is searched in the whole chain before the parent's
    stores of the other types. *)
Fixpoint cxpr_context_get_param_typed (chain : list cxpr_context) (name : cname)
    : run (option cxpr_value * list cxpr_context) :=
  match chain with
  | [] => Done (None, [])
  | c :: parents =>
      let* value := get_param_local c name in
      match value with
      | Some v => Done (Some v, c :: parents)
      | None =>
          let* '(number, chain) := cxpr_context_get_param (c :: parents) name in
          match number, chain with
          | Some d, _ => Done (Some (VNum d), chain)
          | None, c :: _ =>
              let* '(value, parents) := cxpr_context_get_param_typed parents name in
              Done (value, c :: parents)
          | None, [] => Undef
          end
      end
  end.

(** ** Lifecycle *)

(** [vars] and [pars] are the addresses of the two entry arrays. *)
Definition cxpr_context_new (vars pars : Z) : cxpr_context :=
  mk_context (mk_store (cxpr_hashmap_init alloc_all) vars ∅ ∅ 1)
    (mk_store (cxpr_hashmap_init alloc_all) pars ∅ ∅ 1)
    linear_empty linear_empty linear_empty linear_empty linear_empty linear_empty
    cxpr_struct_map_init cxpr_struct_map_init cxpr_array_map_init cxpr_array_map_init None.

(** [map->count = 0], the capacity stays. *)
Definition linear_clear {V} (map : linear_map V) : linear_map V := mk_linear [] (lm_capacity map).

Definition clear_store (s : num_store) : run num_store :=
  let* map := cxpr_hashmap_clear (ns_map s) in
  Done (bump (cxpr_context_clear_entry_cache (with_map map s))).

Definition cxpr_context_clear (c : cxpr_context) : run cxpr_context :=
  let* v := clear_store (variables c) in
  let* p := clear_store (params c) in
  let* s := cxpr_struct_map_clear (structs c) in
  let* cs := cxpr_struct_map_clear (cached_structs c) in
  let* a := cxpr_array_map_clear (arrays c) in
  let* ap := cxpr_array_map_clear (array_params c) in
  Done (mk_context v p (linear_clear (bools c)) (linear_clear (bool_params c))
          (linear_clear (int64s c)) (linear_clear (int64_params c)) (linear_clear (strings c))
          (linear_clear (string_params c)) s cs a ap (expression_scope c)).

Definition cxpr_context_clear_cached_structs (c : cxpr_context) : run cxpr_context :=
  let* cs := cxpr_struct_map_clear (cached_structs c) in Done (set_cached_structs cs c).

Definition cxpr_context_set_expression_scope (scope : string → option cxpr_value)
    (c : cxpr_context) : cxpr_context := set_scope (Some scope) c.
Definition cxpr_context_clear_expression_scope (c : cxpr_context) : cxpr_context :=
  set_scope None c.

(** ** Bound slots ([src/context/slot.c])

    A slot is the index of an entry and the address of the entry array. *)
Record cxpr_context_slot : Type := mk_slot {
  slot_ptr : option nat;
  slot_base : Z
}.

Definition slot_null : cxpr_context_slot := mk_slot None NULL.

Definition cxpr_context_slot_bind (c : cxpr_context) (name : cname)
    : run (bool * cxpr_context_slot) :=
  let* entry := cxpr_hashmap_find_prehashed_slot (ns_map (variables c)) (name_str name)
                  (cxpr_hash_string (name_str name)) in
  Done match entry with
       | None => (false, slot_null)
       | Some i => (true, mk_slot (Some i) (ns_base (variables c)))
       end.

Definition cxpr_context_slot_valid (c : cxpr_context) (slot : cxpr_context_slot) : bool :=
  match slot_ptr slot with
  | None => false
  | Some _ => (slot_base slot =? ns_base (variables c))%Z
  end.

(** Binds every name or none: the first failure resets all slots. *)
Fixpoint bind_slots (c : cxpr_context) (names : list cname) : run (option (list cxpr_context_slot)) :=
  match names with
  | [] => Done (Some [])
  | name :: rest =>
      let* '(ok, slot) := cxpr_context_slot_bind c name in
      if negb ok then Done None
      else
        let* slots := bind_slots c rest in
        Done (option_map (cons slot) slots)
  end.

Definition cxpr_context_slots_bind (c : cxpr_context) (names : list cname)
    : run (bool * list cxpr_context_slot) :=
  let* slots := bind_slots c names in
  Done match slots with
       | Some slots => (true, slots)
       | None => (false, replicate (length names) slot_null)
       end.

(** Reading and writing through a valid slot. *)
Definition cxpr_context_slot_get (c : cxpr_context) (slot : cxpr_context_slot) : run float64 :=
  if cxpr_context_slot_valid c slot then
    match slot_ptr slot with Some i => value_at (variables c) i | None => Undef end
  else Undef.

Definition cxpr_context_slot_set (c : cxpr_context) (slot : cxpr_context_slot) (value : float64)
    : run cxpr_context :=
  if cxpr_context_slot_valid c slot then
    match slot_ptr slot with
    | Some i => let* v := write_value (variables c) i value in Done (set_variables v c)
    | None => Undef
    end
  else Undef.

(** The loop stops at the first undefined write. *)
Fixpoint cxpr_context_slots_set (c : cxpr_context) (slots : list (cxpr_context_slot * float64))
    : run cxpr_context :=
  match slots with
  | [] => Done c
  | (slot, value) :: rest =>
      let* c := cxpr_context_slot_set c slot value in cxpr_context_slots_set c rest
  end.

(** ** Fields

    [snprintf(key, sizeof(key), "%s.%s", prefix, field)] into the buffer of 256
    bytes at [key]; every field uses the same buffer. *)
Definition field_key (key : Z) (prefix field : string) : cname :=
  mk_name key (str_take 255 (prefix ++ "." ++ field)).

(** [None] is a NULL field name, which the loop skips. *)
Fixpoint set_flat_fields (e : nat → env) (i : nat) (key : Z) (prefix : string)
    (fields : list (option string * float64)) (c : cxpr_context) : run cxpr_context :=
  match fields with
  | [] => Done c
  | (None, _) :: rest => set_flat_fields e (S i) key prefix rest c
  | (Some field, value) :: rest =>
      let* c := cxpr_context_set (e i) c (field_key key prefix field) value in
      set_flat_fields e (S i) key prefix rest c
  end.

(** The struct; copying a NULL name is undefined. *)
Fixpoint struct_of_fields (fields : list (option string * float64)) : option cxpr_struct_value :=
  match fields with
  | [] => Some []
  | (None, _) :: _ => None
  | (Some field, value) :: rest => option_map (cons (field, VNum value)) (struct_of_fields rest)
  end.

Definition cxpr_context_set_fields (e : nat → env) (c : cxpr_context) (key : Z) (prefix : cname)
    (fields : list (option string * float64)) : run cxpr_context :=
  let* c := set_flat_fields e 0 key (name_str prefix) fields c in
  let e' := e (S (length fields)) in
  let e := e (length fields) in
  if negb (calloc_ok (e_mem e)) then Done c
  else
    match struct_of_fields fields with
    | None => Undef
    | Some s =>
        match value_new (e_ok e) s with
        | None => Done c
        | Some s => cxpr_context_set_struct e' c prefix s
        end
    end.
