(* ===== verification/ContextProofs.v ===== *)
(** * ContextProofs: contexts as typed finite maps

    [view] is the abstract context, one finite map per store; [view_lookup] is
    the order in which a typed lookup tries them.  The file shows that the
    getters compute [view_lookup] along the chain of contexts and that each
    setter changes the view as described by [view_set]; the laws of the interface
    (the last write wins, other names are untouched) are then proved of the view,
    with the inputs on which the code does not satisfy them. *)

From Stdlib Require Import Ascii String ZArith Lia.
From stdpp Require Import base list strings gmap fin_maps.
From S2P Require Import Prelude Float64 Types ValueCopy OpenTable Hashmap StructMap Bindings Context.
Local Open Scope run_scope.
Local Open Scope nat_scope.

Record view : Type := mk_view {
  w_num : gmap string float64;
  w_bool : gmap string bool;
  w_int : gmap string Z;
  w_str : gmap string string;
  w_arr : gmap string cxpr_array_value;
  w_struct : gmap string cxpr_struct_value;
  w_cached : gmap string cxpr_struct_value
}.

(** The variables of a context, as a view. *)
Record vars_ok (c : cxpr_context) (w : view) : Prop := {
  ok_num : store_ok (variables c) (w_num w);
  ok_bool : linear_ok (bools c) ∧ linear_contents (bools c) = w_bool w;
  ok_int : linear_ok (int64s c) ∧ linear_contents (int64s c) = w_int w;
  ok_str : linear_ok (strings c) ∧ linear_contents (strings c) = w_str w;
  ok_arr : stores (arrays c) (w_arr w);
  ok_struct : stores (structs c) (w_struct w);
  ok_cached : stores (cached_structs c) (w_cached w)
}.

Definition orelse {A} (x y : option A) : option A := match x with Some _ => x | None => y end.
Infix "<or>" := orelse (at level 60, right associativity).

(** The order of [cxpr_context_get_typed] in one context. *)
Definition view_lookup (w : view) (name : string) : option cxpr_value :=
  (VBool <$> w_bool w !! name) <or> (VInt64 <$> w_int w !! name) <or>
  (VString <$> w_str w !! name) <or> (VArray <$> w_arr w !! name) <or>
  (VNum <$> w_num w !! name) <or> (VStruct <$> w_struct w !! name) <or>
  (VStruct <$> w_cached w !! name).

(** The results of an attached evaluator come first. *)
Definition scoped_lookup (cw : option (string → option cxpr_value) * view) (name : string)
    : option cxpr_value :=
  match fst cw with Some lookup => lookup name | None => None end <or> view_lookup (snd cw) name.

Fixpoint chain_lookup (ws : list (option (string → option cxpr_value) * view)) (name : string)
    : option cxpr_value :=
  match ws with
  | [] => None
  | w :: ws' => scoped_lookup w name <or> chain_lookup ws' name
  end.

Definition ctx_ok (c : cxpr_context) (cw : option (string → option cxpr_value) * view) : Prop :=
  expression_scope c = fst cw ∧ vars_ok c (snd cw).

(** ** Getters *)

Lemma copied_array_id a : copied_array a = VArray a.
Proof. unfold copied_array. by rewrite array_copy_all. Qed.

Lemma copied_struct_id s : copied_struct s = VStruct s.
Proof. unfold copied_struct. by rewrite struct_copy_all. Qed.

Lemma get_typed_local_spec c cw name :
  ctx_ok c cw →
  ∃ c', get_typed_local c name = Done (scoped_lookup cw (name_str name), c') ∧ ctx_ok c' cw.
Proof.
  destruct cw as [scope w]. intros [Hs Hok]. pose proof Hok as [Hnum [Hb Eb] [Hi Ei] [Hst Est] Ha Hstr Hc].
  cbn [fst snd] in *. unfold get_typed_local, scoped_lookup, view_lookup. cbn [fst snd]. rewrite Hs.
  assert (Hsame : ctx_ok c (scope, w)) by done.
  destruct (match scope with Some lookup => lookup (name_str name) | None => None end); [by exists c|].
  unfold cxpr_context_get_local_bool, cxpr_bool_map_get. rewrite linear_get_spec, Eb by done.
  destruct (w_bool w !! name_str name); [by exists c|].
  unfold cxpr_context_get_local_int64, cxpr_int64_map_get. rewrite linear_get_spec, Ei by done.
  destruct (w_int w !! name_str name); [by exists c|].
  unfold cxpr_context_get_local_string, cxpr_string_map_get. rewrite linear_get_spec, Est by done.
  destruct (w_str w !! name_str name); [by exists c|].
  unfold cxpr_context_lookup_array_map. rewrite (named_lookup_spec _ _ _ Ha). cbn [run_bind].
  destruct (w_arr w !! name_str name); [exists c; by rewrite copied_array_id|].
  destruct (store_lookup_spec _ _ name Hnum) as (v' & -> & Hnum' & _). cbn [run_bind].
  assert (Hsame' : ctx_ok (set_variables v' c) (scope, w)) by (split; [done|by split]).
  destruct (w_num w !! name_str name); [by eexists|].
  unfold cxpr_context_lookup_struct_map. cbn [structs cached_structs set_variables].
  rewrite (named_lookup_spec _ _ _ Hstr). cbn [run_bind].
  destruct (w_struct w !! name_str name); [eexists; by rewrite copied_struct_id|].
  rewrite (named_lookup_spec _ _ _ Hc). cbn [run_bind]. eexists. split; [|done].
  destruct (w_cached w !! name_str name); [simpl; by rewrite copied_struct_id|done].
Qed.

Lemma get_typed_spec chain ws name :
  Forall2 ctx_ok chain ws →
  ∃ chain', cxpr_context_get_typed chain name = Done (chain_lookup ws (name_str name), chain') ∧
    Forall2 ctx_ok chain' ws.
Proof.
  induction 1 as [|c w chain ws Hc Hchain IH]; simpl; [by exists []|].
  destruct (get_typed_local_spec c w name Hc) as (c' & -> & Hc'). cbn [run_bind].
  destruct (scoped_lookup w (name_str name)); simpl.
  - eexists. split; [done|]. by constructor.
  - destruct IH as (chain' & -> & Hchain'). cbn [run_bind]. eexists. split; [done|]. by constructor.
Qed.

(** A typed lookup terminates without undefined behaviour, returns the first
    binding found in the order evaluator results, bool, int64, string, array,
    number, struct, cached struct of the nearest context that has one, and leaves
    every binding of every context visited unchanged. *)
Theorem get_typed_correct chain ws name :
  Forall2 ctx_ok chain ws →
  ∃ chain', cxpr_context_get_typed chain name = Done (chain_lookup ws (name_str name), chain') ∧
    Forall2 ctx_ok chain' ws.
Proof. apply get_typed_spec. Qed.

(** ** Setters *)

(** The setters on views: the store written and the stores the name is removed
    from, as in [cxpr_context_set_value]. *)
Definition view_set (name : string) (v : cxpr_value) (w : view) : view :=
  match v with
  | VNum d => mk_view (<[name := d]> (w_num w)) (delete name (w_bool w)) (delete name (w_int w))
                (delete name (w_str w)) (delete name (w_arr w)) (delete name (w_struct w)) (w_cached w)
  | VBool b => mk_view (w_num w) (<[name := b]> (w_bool w)) (delete name (w_int w))
                 (delete name (w_str w)) (delete name (w_arr w)) (delete name (w_struct w)) (w_cached w)
  | VInt64 i => mk_view (w_num w) (delete name (w_bool w)) (<[name := i]> (w_int w))
                  (delete name (w_str w)) (delete name (w_arr w)) (delete name (w_struct w)) (w_cached w)
  | VString s => mk_view (w_num w) (delete name (w_bool w)) (w_int w)
                   (<[name := s]> (w_str w)) (delete name (w_arr w)) (delete name (w_struct w)) (w_cached w)
  | VStruct s => mk_view (w_num w) (delete name (w_bool w)) (w_int w)
                   (delete name (w_str w)) (delete name (w_arr w)) (<[name := s]> (w_struct w)) (w_cached w)
  | VArray a => mk_view (w_num w) (delete name (w_bool w)) (w_int w)
                  (delete name (w_str w)) (<[name := a]> (w_arr w)) (delete name (w_struct w)) (w_cached w)
  | VNull | VTimestamp _ | VDuration _ => w
  end.

(** Every request of the call is granted, a new entry array gets an address no
    bucket remembers, and no table is half the address space. *)
Record granted (e : env) (c : cxpr_context) : Prop := {
  gr_mem : e_mem e = alloc_all;
  gr_ok : e_ok e = λ _, true;
  gr_fresh : fresh_base (e_base e) (variables c);
  gr_vars : (Z.of_nat (hm_capacity (ns_map (variables c))) ≤ SIZE_MAX / 2)%Z;
  gr_structs : (Z.of_nat (nm_capacity (structs c)) ≤ SIZE_MAX / 2)%Z;
  gr_arrays : (Z.of_nat (nm_capacity (arrays c)) ≤ SIZE_MAX / 2)%Z
}.

Lemma drop_bool_ok name c w :
  vars_ok c w →
  vars_ok (drop_bool name c) (mk_view (w_num w) (delete (name_str name) (w_bool w)) (w_int w)
                               (w_str w) (w_arr w) (w_struct w) (w_cached w)).
Proof.
  intros [? [Hb Eb] ? ? ? ? ?]. destruct (linear_remove_spec (bools c) (name_str name) Hb).
  split; auto. simpl. by rewrite <- Eb.
Qed.

Lemma drop_int64_ok name c w :
  vars_ok c w →
  vars_ok (drop_int64 name c) (mk_view (w_num w) (w_bool w) (delete (name_str name) (w_int w))
                                (w_str w) (w_arr w) (w_struct w) (w_cached w)).
Proof.
  intros [? ? [Hb Eb] ? ? ? ?]. destruct (linear_remove_spec (int64s c) (name_str name) Hb).
  split; auto. simpl. by rewrite <- Eb.
Qed.

Lemma drop_string_ok name c w :
  vars_ok c w →
  vars_ok (drop_string name c) (mk_view (w_num w) (w_bool w) (w_int w)
                                 (delete (name_str name) (w_str w)) (w_arr w) (w_struct w) (w_cached w)).
Proof.
  intros [? ? ? [Hb Eb] ? ? ?]. destruct (linear_remove_spec (strings c) (name_str name) Hb).
  split; auto. simpl. by rewrite <- Eb.
Qed.

Lemma drop_array_ok name c w :
  vars_ok c w →
  ∃ a, drop_array name c = Done (set_arrays a c) ∧
    vars_ok (set_arrays a c) (mk_view (w_num w) (w_bool w) (w_int w) (w_str w)
                               (delete (name_str name) (w_arr w)) (w_struct w) (w_cached w)).
Proof.
  intros [? ? ? ? Ha ? ?]. unfold drop_array, cxpr_context_remove_array.
  destruct (named_remove_spec (arrays c) _ (name_str name) Ha) as (a & -> & ? & _).
  exists a. split; [done|]. by split.
Qed.

Lemma drop_struct_ok name c w :
  vars_ok c w →
  ∃ s, drop_struct name c = Done (set_structs s c) ∧
    vars_ok (set_structs s c) (mk_view (w_num w) (w_bool w) (w_int w) (w_str w) (w_arr w)
                                (delete (name_str name) (w_struct w)) (w_cached w)).
Proof.
  intros [? ? ? ? ? Hs ?]. unfold drop_struct, cxpr_context_remove_struct.
  destruct (named_remove_spec (structs c) _ (name_str name) Hs) as (s & -> & ? & _).
  exists s. split; [done|]. by split.
Qed.

Lemma bump_ok s m : store_ok s m → store_ok (bump s) m.
Proof.
  intros (es & [? ? ? ?] & ?). exists es. split; [|done]. by split.
Qed.

Lemma vars_ok_bump c w : vars_ok c w → vars_ok (set_variables (bump (variables c)) c) w.
Proof. intros [? ? ? ? ? ? ?]. split; auto. by apply bump_ok. Qed.

Lemma linear_set_granted {V} (map : linear_map V) name v :
  linear_ok map →
  ∃ map', linear_set alloc_all map name v = (true, map') ∧ linear_ok map' ∧
    linear_contents map' = <[name := v]> (linear_contents map).
Proof.
  intros Hok. destruct (linear_set_spec alloc_all map name v Hok) as (Hok' & Hc & Hd).
  specialize (Hd eq_refl eq_refl). destruct (linear_set alloc_all map name v) as [b map'].
  simpl in *. subst b. eauto.
Qed.

Lemma store_granted {V} `{!Copyable V} (map : named_map V) m name v :
  stores map m → (Z.of_nat (nm_capacity map) ≤ SIZE_MAX / 2)%Z →
  ∃ map', named_store alloc_all (λ _, true) map name v = Done map' ∧ stores map' (<[name := v]> m).
Proof.
  intros Hst Hcap. destruct (named_store_spec alloc_all (λ _, true) map m name v Hst)
    as (map' & m' & Hs & Hst' & _ & [->|(_ & Hor)]); [eauto|exfalso].
  rewrite value_new_granted in Hor. destruct Hor as [?|[?|[?|?]]]; [done|done|lia|done].
Qed.

(** The name is removed from the stores of arrays and structs, as most setters
    begin. *)
Lemma drop_compound_ok name c w :
  vars_ok c w →
  ∃ a s, (∀ k : cxpr_context → run cxpr_context,
            (let* c := drop_array name c in let* c := drop_struct name c in k c)
            = k (set_structs s (set_arrays a c))) ∧
    vars_ok (set_structs s (set_arrays a c))
      (mk_view (w_num w) (w_bool w) (w_int w) (w_str w)
         (delete (name_str name) (w_arr w)) (delete (name_str name) (w_struct w)) (w_cached w)).
Proof.
  intros Hok. destruct (drop_array_ok name c w Hok) as (a & -> & Hok1). cbn [run_bind].
  destruct (drop_struct_ok name _ _ Hok1) as (s & -> & Hok2). exists a, s. by split; [intros k|].
Qed.

Section setters.
Context (e : env) (c : cxpr_context) (w : view) (name : cname).
Hypothesis Hok : vars_ok c w.
Hypothesis Hgr : granted e c.

Lemma set_number_spec d :
  ∃ c', cxpr_context_set e c name d = Done c' ∧ vars_ok c' (view_set (name_str name) (VNum d) w) ∧
    expression_scope c' = expression_scope c.
Proof.
  unfold cxpr_context_set, cxpr_context_set_prehashed.
  pose proof (drop_string_ok name _ _ (drop_int64_ok name _ _ (drop_bool_ok name _ _ Hok))) as Hok1.
  destruct (drop_compound_ok name _ _ Hok1) as (a & s & Hk & Hok2). rewrite Hk. clear Hk Hok1.
  destruct (set_hashed_spec (e_mem e) (e_base e) (variables c) _ name d (ok_num _ _ Hok))
    as (v & Hv & Hnum & _).
  - apply Hgr.
  - by rewrite (gr_mem _ _ Hgr).
  - right. rewrite (gr_mem _ _ Hgr). split; [done|apply Hgr].
  - cbn [variables set_structs set_arrays drop_string drop_int64 drop_bool set_strings set_int64s set_bools].
    rewrite Hv. cbn [run_bind]. eexists. split; [done|]. split; [|done].
    destruct Hok2. split; auto.
Qed.

Lemma set_bool_spec b :
  ∃ c', cxpr_context_set_bool e c name b = Done c' ∧
    vars_ok c' (view_set (name_str name) (VBool b) w) ∧ expression_scope c' = expression_scope c.
Proof.
  unfold cxpr_context_set_bool.
  pose proof (drop_int64_ok name _ _ (drop_string_ok name _ _ Hok)) as Hok1.
  destruct (drop_compound_ok name _ _ Hok1) as (a & s & Hk & Hok2). rewrite Hk. clear Hk Hok1.
  rewrite (gr_mem _ _ Hgr). unfold cxpr_bool_map_set.
  destruct (ok_bool _ _ Hok) as [Hl El].
  destruct (linear_set_granted (bools c) (name_str name) b Hl) as (m & Hm & Hl' & El').
  rewrite El in El'. cbn [bools set_structs set_arrays drop_string drop_int64 drop_bool set_strings
    set_int64s set_bools]. rewrite Hm.
  eexists. split; [done|]. split; [|done]. apply vars_ok_bump. destruct Hok2. split; auto.
Qed.

Lemma set_int64_spec i :
  ∃ c', cxpr_context_set_int64 e c name i = Done c' ∧
    vars_ok c' (view_set (name_str name) (VInt64 i) w) ∧ expression_scope c' = expression_scope c.
Proof.
  unfold cxpr_context_set_int64.
  pose proof (drop_string_ok name _ _ (drop_bool_ok name _ _ Hok)) as Hok1.
  destruct (drop_compound_ok name _ _ Hok1) as (a & s & Hk & Hok2). rewrite Hk. clear Hk Hok1.
  rewrite (gr_mem _ _ Hgr). unfold cxpr_int64_map_set.
  destruct (ok_int _ _ Hok) as [Hl El].
  destruct (linear_set_granted (int64s c) (name_str name) i Hl) as (m & Hm & Hl' & El').
  rewrite El in El'. cbn [int64s set_structs set_arrays drop_string drop_int64 drop_bool set_strings
    set_int64s set_bools]. rewrite Hm.
  eexists. split; [done|]. split; [|done]. apply vars_ok_bump. destruct Hok2. split; auto.
Qed.

Lemma set_string_spec str :
  ∃ c', cxpr_context_set_string e c name str = Done c' ∧
    vars_ok c' (view_set (name_str name) (VString str) w) ∧ expression_scope c' = expression_scope c.
Proof.
  unfold cxpr_context_set_string.
  pose proof (drop_bool_ok name _ _ Hok) as Hok1.
  destruct (drop_compound_ok name _ _ Hok1) as (a & s & Hk & Hok2). rewrite Hk. clear Hk Hok1.
  rewrite (gr_mem _ _ Hgr). unfold cxpr_string_map_set. cbn [strdup_ok alloc_all].
  destruct (ok_str _ _ Hok) as [Hl El].
  destruct (linear_set_granted (strings c) (name_str name) str Hl) as (m & Hm & Hl' & El').
  rewrite El in El'. cbn [strings set_structs set_arrays drop_string drop_int64 drop_bool set_strings
    set_int64s set_bools]. rewrite Hm.
  eexists. split; [done|]. split; [|done]. apply vars_ok_bump. destruct Hok2. split; auto.
Qed.

Lemma set_value_spec v :
  ∃ c', cxpr_context_set_value e c name v = Done c' ∧ vars_ok c' (view_set (name_str name) v w) ∧
    expression_scope c' = expression_scope c.
Proof.
  destruct v as [d|b|s|str| |z|z|a|i]; simpl cxpr_context_set_value; try (by exists c);
    auto using set_number_spec, set_bool_spec, set_string_spec, set_int64_spec.
  - pose proof (drop_string_ok name _ _ (drop_bool_ok name _ _ Hok)) as Hok1.
    destruct (drop_array_ok name _ _ Hok1) as (a & -> & Hok2). cbn [run_bind].
    unfold cxpr_context_set_struct, cxpr_context_store_struct. rewrite (gr_mem _ _ Hgr), (gr_ok _ _ Hgr).
    destruct (store_granted (structs c) _ (name_str name) s (ok_struct _ _ Hok) (gr_structs _ _ Hgr))
      as (m & Hm & Hst).
    cbn [structs set_arrays drop_string drop_bool set_strings set_bools]. rewrite Hm. cbn [run_bind].
    eexists. split; [done|]. split; [|done]. destruct Hok2. split; auto.
  - pose proof (drop_string_ok name _ _ (drop_bool_ok name _ _ Hok)) as Hok1.
    destruct (drop_struct_ok name _ _ Hok1) as (s & -> & Hok2). cbn [run_bind].
    unfold cxpr_context_store_array. rewrite (gr_mem _ _ Hgr), (gr_ok _ _ Hgr).
    destruct (store_granted (arrays c) _ (name_str name) a (ok_arr _ _ Hok) (gr_arrays _ _ Hgr))
      as (m & Hm & Hst).
    change (arrays (set_structs s (drop_string name (drop_bool name c)))) with (arrays c).
    rewrite Hm. cbn [run_bind]. eexists. split; [done|]. split; [|done].
    apply (vars_ok_bump (set_arrays m (set_structs s (drop_string name (drop_bool name c))))).
    destruct Hok2. split; auto.
Qed.
End setters.

(** ** Laws of the typed interface *)

(** The binding that hides a value just set: [cxpr_context_set_string] and the
    array and struct cases of [cxpr_context_set_value] leave the int64 of the
    name in place, the struct case also its number. *)
Definition shadow (v : cxpr_value) (name : string) (w : view) : option cxpr_value :=
  match v with
  | VString _ | VArray _ => VInt64 <$> w_int w !! name
  | VStruct _ => (VInt64 <$> w_int w !! name) <or> (VNum <$> w_num w !! name)
  | _ => None
  end.

(** The types [cxpr_context_set_value] stores; it ignores the others. *)
Definition storable (v : cxpr_value) : bool :=
  match v with VNull | VTimestamp _ | VDuration _ => false | _ => true end.

Lemma view_set_same v name w :
  storable v = true → view_lookup (view_set name v w) name = shadow v name w <or> Some v.
Proof.
  destruct v; intros Hs; try discriminate Hs; unfold view_lookup, shadow; cbn [view_set w_bool w_int
    w_str w_arr w_num w_struct w_cached]; rewrite ?lookup_insert_eq, ?lookup_delete_eq; simpl;
    by destruct (w_int w !! name), (w_num w !! name).
Qed.

Lemma view_set_other v name other w :
  other ≠ name → view_lookup (view_set name v w) other = view_lookup w other.
Proof.
  intros Hne. destruct v; unfold view_lookup; cbn [view_set w_bool w_int w_str w_arr w_num w_struct
    w_cached]; by rewrite ?lookup_insert_ne, ?lookup_delete_ne by done.
Qed.

Section laws.
Context (e : env) (c : cxpr_context) (w : view) (parents : list cxpr_context)
  (ws : list (option (string → option cxpr_value) * view)) (name : cname) (v : cxpr_value).
Hypothesis Hok : vars_ok c w.
Hypothesis Hparents : Forall2 ctx_ok parents ws.
Hypothesis Hscope : expression_scope c = None.
Hypothesis Hgr : granted e c.
Hypothesis Hv : storable v = true.

Lemma set_get_spec :
  ∃ c', cxpr_context_set_value e c name v = Done c' ∧
    ∀ other, ∃ chain', cxpr_context_get_typed (c' :: parents) other =
      Done (if (name_str other =? name_str name)%string
            then shadow v (name_str name) w <or> Some v
            else chain_lookup ((None, w) :: ws) (name_str other), chain').
Proof.
  destruct (set_value_spec e c w name Hok Hgr v) as (c' & -> & Hok' & Hsc). exists c'. split; [done|].
  intros other.
  destruct (get_typed_spec (c' :: parents) ((None, view_set (name_str name) v w) :: ws) other)
    as (chain' & -> & _).
  { constructor; [|done]. split; [by rewrite Hsc|done]. }
  exists chain'. do 2 f_equal. simpl. unfold scoped_lookup. cbn [fst snd].
  destruct (String.eqb_spec (name_str other) (name_str name)) as [->|Hne].
  - unfold orelse at 2. rewrite view_set_same by done. by destruct (shadow v (name_str name) w).
  - unfold orelse at 2. by rewrite view_set_other.
Qed.
End laws.

(** The last write wins and nothing else changes: after a typed value was set
    in a well-formed context, where no older binding of the name shadows the new
    type, looking the name up gives that value, and looking any other name up
    gives what it gave before, parents included. *)
Theorem set_value_get e c w parents ws name v :
  vars_ok c w → Forall2 ctx_ok parents ws → expression_scope c = None → granted e c →
  storable v = true → shadow v (name_str name) w = None →
  ∃ c', cxpr_context_set_value e c name v = Done c' ∧
    ∀ other, ∃ chain', cxpr_context_get_typed (c' :: parents) other =
      Done (if (name_str other =? name_str name)%string then Some v
            else chain_lookup ((None, w) :: ws) (name_str other), chain').
Proof.
  intros Hok Hp Hs Hgr Hv Hsh.
  destruct (set_get_spec e c w parents ws name v Hok Hp Hs Hgr Hv) as (c' & Hset & Hget).
  exists c'. split; [done|]. intros other. destruct (Hget other) as (chain' & ->).
  exists chain'. by rewrite Hsh.
Qed.

(** Numbers, bools and int64s are never shadowed; a string, array or struct set
    over an int64 of the same name, or a struct set over a number, is: the lookup
    still returns the older binding. *)
Theorem set_value_shadowed e c w parents ws name v old :
  vars_ok c w → Forall2 ctx_ok parents ws → expression_scope c = None → granted e c →
  storable v = true → shadow v (name_str name) w = Some old →
  ∃ c' chain', cxpr_context_set_value e c name v = Done c' ∧
    cxpr_context_get_typed (c' :: parents) name = Done (Some old, chain') ∧
    value_type old ≠ value_type v.
Proof.
  intros Hok Hp Hs Hgr Hv Hsh.
  destruct (set_get_spec e c w parents ws name v Hok Hp Hs Hgr Hv) as (c' & Hset & Hget).
  destruct (Hget name) as (chain' & Hg). rewrite String.eqb_refl, Hsh in Hg.
  exists c', chain'. split_and!; auto.
  destruct v; simpl in Hsh; try done; destruct (w_int w !! name_str name); simpl in Hsh;
    try (injection Hsh as <-; done); try done.
  destruct (w_num w !! name_str name); simpl in Hsh; [by injection Hsh as <-|done].
Qed.

(** ** Concrete contexts *)

Definition empty_view : view := mk_view ∅ ∅ ∅ ∅ ∅ ∅ ∅.

Lemma context_new_ok vars pars : vars ≠ NULL → vars_ok (cxpr_context_new vars pars) empty_view.
Proof.
  intros Hv. split; try (split; [apply linear_empty_ok|done]); try (by apply stores_null).
  by apply (store_init_ok vars).
Qed.

Definition env_at (base : Z) : env := mk_env alloc_all (λ _, true) base.

Lemma context_new_granted base vars pars :
  base ≠ NULL → granted (env_at base) (cxpr_context_new vars pars).
Proof.
  intros Hb. split; try done; vm_compute; discriminate.
Qed.

Definition x_name : cname := mk_name 100 "x".

Lemma set_value_get_witness :
  ∃ c' chain', cxpr_context_set_value (env_at 3) (cxpr_context_new 1 2) x_name (VInt64 7) = Done c' ∧
    cxpr_context_get_typed [c'] x_name = Done (Some (VInt64 7), chain').
Proof.
  destruct (set_value_get (env_at 3) (cxpr_context_new 1 2) empty_view [] [] x_name (VInt64 7)
    (context_new_ok 1 2 ltac:(discriminate)) ltac:(constructor) eq_refl
    (context_new_granted 3 1 2 ltac:(discriminate)) eq_refl eq_refl) as (c' & Hset & Hget).
  destruct (Hget x_name) as (chain' & Hg). exists c', chain'. split; [exact Hset|exact Hg].
Defined.

Lemma get_typed_correct_witness :
  ∃ chain', cxpr_context_get_typed [cxpr_context_new 1 2] x_name = Done (None, chain').
Proof.
  destruct (get_typed_correct [cxpr_context_new 1 2] [(None, empty_view)] x_name) as (chain' & H & _).
  - constructor; [|constructor]. split; [reflexivity|]. apply context_new_ok. discriminate.
  - exists chain'. exact H.
Defined.

(** [x] was set to the int64 7; its store is the empty one but for that. *)
Definition int64_context : cxpr_context :=
  set_int64s (mk_linear [("x"%string, 7%Z)] 8) (cxpr_context_new 1 2).

Definition int64_view : view := mk_view ∅ ∅ {["x"%string := 7%Z]} ∅ ∅ ∅ ∅.

Lemma int64_context_ok : vars_ok int64_context int64_view.
Proof.
  destruct (context_new_ok 1 2) as [? ? ? ? ? ? ?]; [discriminate|].
  split; auto. split; [|reflexivity]. split; simpl; [apply NoDup_singleton|lia].
Qed.

Lemma set_value_shadowed_witness :
  ∃ c' chain', cxpr_context_set_value (env_at 3) int64_context x_name (VString "text") = Done c' ∧
    cxpr_context_get_typed [c'] x_name = Done (Some (VInt64 7), chain').
Proof.
  destruct (set_value_shadowed (env_at 3) int64_context int64_view [] [] x_name (VString "text") (VInt64 7)
    int64_context_ok ltac:(constructor) eq_refl) as (c' & chain' & Hset & Hget & _);
    [|reflexivity|reflexivity|].
  - destruct (context_new_granted 3 1 2) as [? ? ? ? ? ?]; [discriminate|]. split; done.
  - exists c', chain'. split; [exact Hset|exact Hget].
Defined.

(** ** Clearing *)

(** The parameter stores of a context are well formed, with the numbers [nums]
    and the arrays [arrs]. *)
Record params_ok (c : cxpr_context) (nums : gmap string float64)
    (arrs : gmap string cxpr_array_value) : Prop := {
  okp_num : store_ok (params c) nums;
  okp_bool : linear_ok (bool_params c);
  okp_int : linear_ok (int64_params c);
  okp_str : linear_ok (string_params c);
  okp_arr : stores (array_params c) arrs
}.

Lemma clear_store_spec s m : store_ok s m → ∃ s', clear_store s = Done s' ∧ store_ok s' ∅.
Proof.
  intros (es & [Hm Hb _ _] & _). unfold clear_store.
  destruct (clear_spec (ns_map s) es Hm) as (map' & es' & -> & Hwf & Hempty & _). cbn [run_bind].
  eexists. split; [done|]. apply bump_ok. exists es'. split; [|done].
  split; [done|done|..]; intros i Hi; cbn in Hi; by destruct Hb.
Qed.

Lemma linear_clear_ok {V} (map : linear_map V) :
  linear_ok (linear_clear map) ∧ linear_contents (linear_clear map) = ∅.
Proof. split; [|done]. split; simpl; [constructor|lia]. Qed.

(** Clearing a well-formed context succeeds and leaves no variable and no
    parameter of any type. *)
Theorem clear_empties c w nums arrs :
  vars_ok c w → params_ok c nums arrs →
  ∃ c', cxpr_context_clear c = Done c' ∧ vars_ok c' empty_view ∧ params_ok c' ∅ ∅ ∧
    linear_contents (bool_params c') = ∅ ∧ linear_contents (int64_params c') = ∅ ∧
    linear_contents (string_params c') = ∅.
Proof.
  intros [Hn _ _ _ Ha Hs Hc] [Hpn _ _ _ Hpa]. unfold cxpr_context_clear.
  destruct (clear_store_spec _ _ Hn) as (v & -> & Hv). cbn [run_bind].
  destruct (clear_store_spec _ _ Hpn) as (p & -> & Hp). cbn [run_bind].
  unfold cxpr_struct_map_clear, cxpr_array_map_clear.
  destruct (named_clear_spec _ _ Hs) as (s & -> & Hs' & _). cbn [run_bind].
  destruct (named_clear_spec _ _ Hc) as (cs & -> & Hc' & _). cbn [run_bind].
  destruct (named_clear_spec _ _ Ha) as (a & -> & Ha' & _). cbn [run_bind].
  destruct (named_clear_spec _ _ Hpa) as (ap & -> & Hpa' & _). cbn [run_bind].
  eexists. split; [done|]. split; [|split; [|split_and!; apply linear_clear_ok]].
  - split; auto; apply linear_clear_ok.
  - split; auto; apply linear_clear_ok.
Qed.

Lemma clear_empties_witness :
  ∃ c', cxpr_context_clear int64_context = Done c' ∧ vars_ok c' empty_view.
Proof.
  destruct (clear_empties int64_context int64_view ∅ ∅ int64_context_ok) as (c' & H & Hv & _).
  - split; try apply linear_empty_ok; [|by apply stores_null]. apply (store_init_ok 2). discriminate.
  - exists c'. split; [exact H|exact Hv].
Defined.

(** ** Two places where the interface surprises *)

Definition p_name : cname := mk_name 200 "p".

(** A context whose parent binds the parameter to [true] and whose grandparent
    binds it to the number 7. *)
Definition param_chain : run (list cxpr_context) :=
  let* parent := cxpr_context_set_param_bool (env_at 5) (cxpr_context_new 1 2) p_name true in
  let* grandparent := cxpr_context_set_param (env_at 6) (cxpr_context_new 3 4) p_name (of_Z 7) in
  Done [parent; grandparent].

(** A typed parameter lookup does not respect the nearest context: a context
    without the parameter, whose parent binds it to a bool and whose grandparent
    binds it to a number, answers the grandparent's number, although the same
    lookup in the parent answers the bool. *)
Theorem param_lookup_skips_parent :
  (let* chain := param_chain in
   let* '(from_child, _) := cxpr_context_get_param_typed (cxpr_context_new 7 8 :: chain) p_name in
   let* '(from_parent, _) := cxpr_context_get_param_typed chain p_name in
   Done (from_child, from_parent))
  = Done (Some (VNum (of_Z 7)), Some (VBool true)).
Proof. vm_compute. reflexivity. Qed.

(** A bound slot survives a clear: after the variable was set, bound and the
    context cleared, the slot is still reported valid although the variable is
    gone. *)
Theorem slot_valid_after_clear :
  (let* c := cxpr_context_set (env_at 3) (cxpr_context_new 1 2) x_name fone in
   let* '(bound, slot) := cxpr_context_slot_bind c x_name in
   let* c := cxpr_context_clear c in
   let* '(value, _) := cxpr_context_get_typed [c] x_name in
   Done (bound, cxpr_context_slot_valid c slot, value))
  = Done (true, true, None).
Proof. vm_compute. reflexivity. Qed.

(** ** One key buffer for many fields

    [cxpr_context_set_fields] passes the same buffer, at the same address, with a
    new text for every field, which the cache indexed by address must not confuse. *)
Definition bar_fields : list (option string * float64) :=
  [(Some "open"%string, of_Z 1); (Some "high"%string, of_Z 2); (Some "low"%string, of_Z 3)].

(** Setting the fields of a struct binds each dotted name to its own value and
    the prefix to the struct, although the names are passed in one buffer. *)
Example set_fields_distinct :
  (let* c := cxpr_context_set_fields (λ i, env_at (10 + Z.of_nat i)) (cxpr_context_new 1 2) 800
               (mk_name 100 "bar") bar_fields in
   let* '(o, _) := cxpr_context_get_typed [c] (mk_name 300 "bar.open") in
   let* '(h, _) := cxpr_context_get_typed [c] (mk_name 800 "bar.high") in
   let* '(l, _) := cxpr_context_get_field [c] (mk_name 100 "bar") "low" in
   Done (o, h, l))
  = Done (Some (VNum (of_Z 1)), Some (VNum (of_Z 2)), Some (VNum (of_Z 3))).
Proof. vm_compute. reflexivity. Qed.
