(* ===== verification/IRLookup.v ===== *)
(** * IRLookup: the per-instruction lookup cache of the IR
    ([src/ir/exec/fast.c], [src/ir/program.c])

    An instruction that loads a variable or a parameter remembers where it found
    it: the context asked, the context that owned the entry, the address of the
    entry array, the slot, and a summary of the versions of the contexts between.
    Contexts are addressed: [heap] maps the address of a context to the context
    and its parent's address.  The theorems show that on a root context the cached
    lookup answers as the hash map does across any updates, as long as the context
    lives, and give the inputs on which a cache entry outlives its context. *)

From Stdlib Require Import Ascii String ZArith Lia.
From stdpp Require Import base list strings gmap fin_maps.
From S2P Require Import Prelude Float64 Types OpenTable Hashmap StructMap Bindings Context.
Local Open Scope run_scope.
Local Open Scope nat_scope.

Record cxpr_ir_lookup_cache : Type := mk_lookup_cache {
  lc_request : Z;
  lc_owner : Z;
  lc_base : Z;
  lc_slot : nat;
  lc_version : Z
}.

Definition lookup_cache_zero : cxpr_ir_lookup_cache := mk_lookup_cache NULL NULL NULL 0 0.

Record context_node : Type := mk_node {
  node_ctx : cxpr_context;
  node_parent : Z
}.

Abbreviation heap := (gmap Z context_node).

(** [param_lookup ? params : variables] *)
Definition store_of (param : bool) (c : cxpr_context) : num_store :=
  if param then params c else variables c.

(** The cache of an instruction; [None] when the program has none. *)
Definition fill_cache (cache : option cxpr_ir_lookup_cache) (entry : cxpr_ir_lookup_cache)
    : option cxpr_ir_lookup_cache :=
  match cache with Some _ => Some entry | None => None end.

(** [cxpr_hashmap_find_prehashed_entry] with the slot of the entry it returns. *)
Definition find_entry (s : num_store) (name : string) (hash : Z) : run (option (nat * float64)) :=
  let* slot := cxpr_hashmap_find_prehashed_slot (ns_map s) name hash in
  match slot with
  | None => Done None
  | Some i => let* v := value_at s i in Done (Some (i, v))
  end.

Definition cxpr_ir_exec_lookup_root_cached (ctx : Z) (s : num_store) (version : Z)
    (name : string) (hash : Z) (cache : option cxpr_ir_lookup_cache)
    : run (option float64 * option cxpr_ir_lookup_cache) :=
  if match cache with
     | Some c => (lc_request c =? ctx)%Z && (lc_base c =? ns_base s)%Z && (lc_version c =? version)%Z
     | None => false
     end
  then
    let* v := value_at s (match cache with Some c => lc_slot c | None => 0 end) in
    Done (Some v, cache)
  else
    let* entry := find_entry s name hash in
    match entry with
    | None => Done (None, fill_cache cache lookup_cache_zero)
    | Some (slot, v) =>
        Done (Some v, fill_cache cache (mk_lookup_cache ctx ctx (ns_base s) slot version))
    end.

Definition cxpr_ir_lookup_version (c : cxpr_context) (param : bool) : Z :=
  ns_version (store_of param c).

(** [fingerprint ^= version + 0x9e3779b97f4a7c15 + (fingerprint << 6) + (fingerprint >> 2)] *)
Definition mix_version (fingerprint version : Z) : Z :=
  Z.lxor fingerprint
    (wrap64 (version + 11400714819323198485 + wrap64 (Z.shiftl fingerprint 6)
             + Z.shiftr fingerprint 2)).

Fixpoint shadow_loop (fuel : nat) (h : heap) (current owner : Z) (param : bool) (fingerprint : Z)
    : run Z :=
  if (current =? NULL)%Z then Done fingerprint
  else
    match fuel, h !! current with
    | O, _ => OutOfFuel
    | S _, None => Undef
    | S fuel', Some node =>
        let fingerprint := mix_version fingerprint (cxpr_ir_lookup_version (node_ctx node) param) in
        if (current =? owner)%Z then Done fingerprint
        else shadow_loop fuel' h (node_parent node) owner param fingerprint
    end.

Definition cxpr_ir_lookup_shadow_version (h : heap) (request owner : Z) (param : bool) : run Z :=
  shadow_loop (size h) h request owner param 1469598103934665603.

(** The [while (current)] loop of [cxpr_ir_lookup_cached_scalar]. *)
Fixpoint search_chain (fuel : nat) (h : heap) (ctx current : Z) (param : bool) (name : cname)
    (hash : Z) (cache : option cxpr_ir_lookup_cache)
    : run (option float64 * option cxpr_ir_lookup_cache) :=
  if (current =? NULL)%Z then Done (None, fill_cache cache lookup_cache_zero)
  else
    match fuel, h !! current with
    | O, _ => OutOfFuel
    | S _, None => Undef
    | S fuel', Some node =>
        let c := node_ctx node in
        let* entry := find_entry (store_of param c) (name_str name) hash in
        match (if param then None else cxpr_context_get_local_bool c name), entry with
        | Some b, _ =>
            Done (Some (if b then fone else fzero), fill_cache cache lookup_cache_zero)
        | None, Some (slot, v) =>
            let* version := cxpr_ir_lookup_shadow_version h ctx current param in
            Done (Some v, fill_cache cache
                            (mk_lookup_cache ctx current (ns_base (store_of param c)) slot version))
        | None, None => search_chain fuel' h ctx (node_parent node) param name hash cache
        end
    end.

(** A hit in the owner the cache remembers, which is dereferenced. *)
Definition owner_hit (h : heap) (ctx : Z) (param : bool) (c : cxpr_ir_lookup_cache)
    : run (option float64) :=
  if (lc_request c =? ctx)%Z && negb (lc_owner c =? NULL)%Z && negb (lc_base c =? NULL)%Z then
    match h !! lc_owner c with
    | None => Undef
    | Some owner =>
        let s := store_of param (node_ctx owner) in
        if (lc_base c =? ns_base s)%Z then
          let* version := cxpr_ir_lookup_shadow_version h ctx (lc_owner c) param in
          if (lc_version c =? version)%Z then let* v := value_at s (lc_slot c) in Done (Some v)
          else Done None
        else Done None
    end
  else Done None.

Definition cxpr_ir_lookup_cached_scalar (h : heap) (ctx : Z) (param : bool) (name : cname)
    (hash : Z) (cache : option cxpr_ir_lookup_cache)
    : run (option float64 * option cxpr_ir_lookup_cache) :=
  match h !! ctx with
  | None => Undef
  | Some node =>
      let c := node_ctx node in
      let s := store_of param c in
      match (if param then None else
               match expression_scope c with Some lookup => lookup (name_str name) | None => None end)
      with
      | Some (VNum d) => Done (Some d, cache)
      | Some (VBool b) => Done (Some (if b then fone else fzero), cache)
      | Some _ => Done (None, cache)
      | None =>
      match (if param then None else cxpr_context_get_local_bool c name) with
      | Some b => Done (Some (if b then fone else fzero), fill_cache cache lookup_cache_zero)
      | None =>
          let no_bools := match lm_entries (bools c) with [] => true | _ => false end in
          let no_scope := match expression_scope c with None => true | Some _ => false end in
          if (negb param || no_bools) && (node_parent node =? NULL)%Z && no_scope then
            let version := cxpr_ir_lookup_version c param in
            if match cache with
               | Some k => (lc_request k =? ctx)%Z && (lc_owner k =? ctx)%Z
                           && (lc_base k =? ns_base s)%Z && (lc_version k =? version)%Z
               | None => false
               end
            then
              let* v := value_at s (match cache with Some k => lc_slot k | None => 0 end) in
              Done (Some v, cache)
            else
              let* entry := find_entry s (name_str name) hash in
              match entry with
              | Some (slot, v) =>
                  Done (Some v, fill_cache cache (mk_lookup_cache ctx ctx (ns_base s) slot version))
              | None => Done (None, fill_cache cache lookup_cache_zero)
              end
          else
            let* direct :=
              match cache with
              | Some k =>
                  if (lc_request k =? ctx)%Z && (lc_owner k =? ctx)%Z && (lc_base k =? ns_base s)%Z then
                    let* version := cxpr_ir_lookup_shadow_version h ctx ctx param in
                    if (lc_version k =? version)%Z
                    then let* v := value_at s (lc_slot k) in Done (Some v) else Done None
                  else Done None
              | None => Done None
              end in
            match direct with
            | Some v => Done (Some v, cache)
            | None =>
                let* owned := match cache with Some k => owner_hit h ctx param k | None => Done None end in
                match owned with
                | Some v => Done (Some v, cache)
                | None => search_chain (size h) h ctx ctx param name hash cache
                end
            end
      end end
  end.

Definition cxpr_ir_exec_lookup_scalar_fast (h : heap) (ctx : Z) (param : bool) (name : cname)
    (hash : Z) (cache : option cxpr_ir_lookup_cache)
    : run (option float64 * option cxpr_ir_lookup_cache) :=
  match h !! ctx with
  | None => Undef
  | Some node =>
      let c := node_ctx node in
      let s := store_of param c in
      let no_bools := match lm_entries (bools c) with [] => true | _ => false end in
      let no_scope := match expression_scope c with None => true | Some _ => false end in
      if (node_parent node =? NULL)%Z && no_scope && (param || no_bools) then
        if match cache with
           | Some k => (lc_request k =? ctx)%Z && (lc_owner k =? ctx)%Z
                       && (lc_base k =? ns_base s)%Z && (lc_version k =? ns_version s)%Z
           | None => false
           end
        then
          let* v := value_at s (match cache with Some k => lc_slot k | None => 0 end) in
          Done (Some v, cache)
        else
          let* entry := find_entry s (name_str name) hash in
          match entry with
          | Some (slot, v) =>
              Done (Some v, fill_cache cache (mk_lookup_cache ctx ctx (ns_base s) slot (ns_version s)))
          | None => Done (None, fill_cache cache lookup_cache_zero)
          end
      else cxpr_ir_lookup_cached_scalar h ctx param name hash cache
  end.

(** ** Overlays and their free list ([src/context/lifecycle.c])

    [free_list] is the thread's list of empty overlays kept for reuse; a context
    on it stays in the heap.  The evaluation memo is not part of the model. *)
Record context_memory : Type := mk_memory {
  mem_heap : heap;
  free_list : list Z
}.

Definition CXPR_OVERLAY_CONTEXT_CACHE_MAX : nat := 64.

Definition reset_version (s : num_store) : num_store :=
  mk_store (ns_map s) (ns_base s) (ns_cache s) (ns_ptr_cache s) 1.

Definition cxpr_context_reset_empty_overlay (node : context_node) (parent : Z) : context_node :=
  let c := node_ctx node in
  mk_node (set_scope None (set_params (reset_version (params c))
             (set_variables (reset_version (variables c)) c))) parent.

(** [count == 0u && entries == NULL] *)
Definition linear_unused {V} (m : linear_map V) : bool :=
  match lm_entries m with [] => lm_capacity m =? 0 | _ => false end.
Definition named_unused {V} (m : named_map V) : bool :=
  (nm_count m =? 0) && match nm_entries m with None => true | Some _ => false end.

Definition cxpr_context_can_cache_empty_overlay (node : context_node) : bool :=
  let c := node_ctx node in
  negb (node_parent node =? NULL)%Z
  && (ns_version (variables c) =? 1)%Z && (ns_version (params c) =? 1)%Z
  && (hm_count (ns_map (variables c)) =? 0) && (hm_count (ns_map (params c)) =? 0)
  && linear_unused (bools c) && linear_unused (bool_params c)
  && (lm_capacity (int64s c) =? 0) && (lm_capacity (int64_params c) =? 0)
  && linear_unused (strings c) && linear_unused (string_params c)
  && named_unused (structs c) && named_unused (cached_structs c)
  && named_unused (arrays c) && named_unused (array_params c)
  && match expression_scope c with None => true | Some _ => false end.

(** The address of the overlay; [fresh] and [vars], [pars] are the addresses a new
    context and its entry arrays get. *)
Definition cxpr_context_overlay_new (mem : context_memory) (parent fresh vars pars : Z)
    : run (Z * context_memory) :=
  match free_list mem with
  | ctx :: rest =>
      match mem_heap mem !! ctx with
      | None => Undef
      | Some node =>
          Done (ctx, mk_memory (<[ctx := cxpr_context_reset_empty_overlay node parent]>
                                  (mem_heap mem)) rest)
      end
  | [] =>
      Done (fresh, mk_memory (<[fresh := mk_node (cxpr_context_new vars pars) parent]>
                                (mem_heap mem)) [])
  end.

Definition cxpr_context_free (mem : context_memory) (ctx : Z) : run context_memory :=
  match mem_heap mem !! ctx with
  | None => Undef
  | Some node =>
      if cxpr_context_can_cache_empty_overlay node
         && (length (free_list mem) <? CXPR_OVERLAY_CONTEXT_CACHE_MAX)
      then Done (mk_memory (<[ctx := cxpr_context_reset_empty_overlay node NULL]> (mem_heap mem))
                   (ctx :: free_list mem))
      else Done (mk_memory (delete ctx (mem_heap mem)) (free_list mem))
  end.

(** ** Coherence on a root context *)

Section root.
Context (ctx : Z) (name : string).
Hypothesis Hctx : ctx ≠ NULL.

(** An entry that matches the context, the array and the version holds the slot of
    the name; the version of an entry is not ahead of the context's. *)
Definition cache_ok (s : num_store) (es : slots) (cache : option cxpr_ir_lookup_cache) : Prop :=
  match cache with
  | None => True
  | Some c =>
      (lc_version c ≤ ns_version s)%Z ∧
      (lc_request c = ctx → lc_base c = ns_base s → lc_version c = ns_version s →
       holds es (lc_slot c) name)
  end.

Definition coherent (st : num_store * option cxpr_ir_lookup_cache) : Prop :=
  ∃ es, store_wf (fst st) es ∧ (0 ≤ ns_version (fst st))%Z ∧ cache_ok (fst st) es (snd st).

Lemma find_entry_spec s es :
  store_wf s es →
  match table_map es !! name with
  | Some v => ∃ slot, find_entry s name (cxpr_hash_string name) = Done (Some (slot, v)) ∧
                      holds es slot name
  | None => find_entry s name (cxpr_hash_string name) = Done None
  end.
Proof.
  intros Hwf. pose proof (find_slot_spec _ es name (sw_map _ _ Hwf)) as Hfind. unfold find_entry.
  destruct (table_map es !! name) as [v|] eqn:Hm; [|by rewrite Hfind].
  destruct Hfind as (slot & -> & Hs). cbn [run_bind]. exists slot.
  destruct (value_at_spec s es slot name Hwf) as (w & -> & Hw); [by exists v|].
  split; [|by exists v]. cbn [run_bind]. congruence.
Qed.

Lemma fill_ok s es cache c :
  (0 ≤ ns_version s)%Z → cache_ok s es (Some c) → cache_ok s es (fill_cache cache c).
Proof. by destruct cache. Qed.

Lemma zero_ok s es : (0 ≤ ns_version s)%Z → cache_ok s es (Some lookup_cache_zero).
Proof. intros H. split; [done|]. simpl. intros Hc. by destruct Hctx. Qed.

Lemma root_lookup_spec s es cache :
  store_wf s es → (0 ≤ ns_version s)%Z → cache_ok s es cache →
  ∃ cache', cxpr_ir_exec_lookup_root_cached ctx s (ns_version s) name (cxpr_hash_string name) cache
            = Done (table_map es !! name, cache') ∧ cache_ok s es cache'.
Proof.
  intros Hwf Hv Hok. unfold cxpr_ir_exec_lookup_root_cached.
  match goal with |- context [if ?b then _ else _] => destruct b eqn:E end.
  - destruct cache as [c|]; [|done]. destruct Hok as [Hle Hh].
    apply andb_true_iff in E as [[E1%Z.eqb_eq E2%Z.eqb_eq]%andb_true_iff E3%Z.eqb_eq].
    destruct (value_at_spec s es _ name Hwf (Hh E1 E2 E3)) as (v & -> & ->).
    exists (Some c). by split.
  - pose proof (find_entry_spec s es Hwf) as Hfind.
    destruct (table_map es !! name) as [v|].
    + destruct Hfind as (slot & -> & Hs). cbn [run_bind]. eexists. split; [done|].
      apply fill_ok; [done|]. by split.
    + rewrite Hfind. cbn [run_bind]. eexists. split; [done|]. by apply fill_ok, zero_ok.
Qed.

(** ** The life of a root context and of one instruction's cache

    A new entry array gets an address no bucket of the context remembers, and the
    version counter does not wrap.  The instruction may remember the address: the
    version tells the arrays apart. *)
Inductive root_step : num_store * option cxpr_ir_lookup_cache →
                      num_store * option cxpr_ir_lookup_cache → Prop :=
  | step_set mem b var value s s' cache :
      fresh_base b s → strdup_ok mem (name_str var) = true → has_room mem (ns_map s) →
      (ns_version s + 1 < 2 ^ 64)%Z →
      cxpr_context_set_hashed mem b s var (cxpr_hash_string (name_str var)) value = Done s' →
      root_step (s, cache) (s', cache)
  | step_clear s s' cache :
      (ns_version s + 1 < 2 ^ 64)%Z → clear_store s = Done s' → root_step (s, cache) (s', cache)
  | step_get var s s' r cache :
      store_lookup s var = Done (r, s') → root_step (s, cache) (s', cache)
  | step_lookup r s cache cache' :
      cxpr_ir_exec_lookup_root_cached ctx s (ns_version s) name (cxpr_hash_string name) cache
      = Done (r, cache') →
      root_step (s, cache) (s, cache').

Lemma version_next v : (0 ≤ v)%Z → (v + 1 < 2 ^ 64)%Z → wrap64 (v + 1) = (v + 1)%Z.
Proof. intros. unfold wrap64. apply Z.mod_small. lia. Qed.

Lemma outdated_ok s s' es es' cache :
  cache_ok s es cache → (ns_version s < ns_version s')%Z → cache_ok s' es' cache.
Proof. destruct cache as [c|]; [|done]. intros [? ?] ?. split; [lia|]. intros. lia. Qed.

Lemma root_step_coherent st st' : root_step st st' → coherent st → coherent st'.
Proof.
  intros Hstep (es & Hwf & Hv & Hok). destruct Hstep as
    [mem b var value s s' cache Hfresh Hdup Hroom Hmax Hset|s s' cache Hmax Hclear
    |var s s' r cache Hget|r s cache cache' Hl]; cbn [fst snd] in *.
  - destruct (set_hashed_wf mem b s es var value Hwf Hfresh Hdup Hroom)
      as (s1 & es1 & Hs1 & Hwf1 & _ & Hcase).
    rewrite Hs1 in Hset. injection Hset as ->. exists es1. cbn [fst snd].
    destruct Hcase as [(_ & Hver & _)|(_ & Hver & Hb & Hkeep)].
    + rewrite version_next in Hver by done. split_and!; [done|lia|]. eapply outdated_ok; [done|lia].
    + split_and!; [done|lia|]. destruct cache as [c|]; [|done]. destruct Hok as [Hle Hh].
      split; [lia|]. rewrite Hb, Hver. intros H1 H2 H3. destruct (Hh H1 H2 H3) as [v Hs].
      by eapply Hkeep.
  - unfold clear_store in Hclear. destruct (clear_spec (ns_map s) es (sw_map _ _ Hwf))
      as (map' & es' & Hc & Hwf' & Hempty & _). rewrite Hc in Hclear. cbn [run_bind] in Hclear.
    injection Hclear as <-. exists es'. cbn [fst snd ns_version bump cxpr_context_clear_entry_cache with_map].
    rewrite version_next by done. split_and!; [|lia|].
    + split; [done|apply Hwf|..]; intros i Hi; cbn in Hi; by destruct (sw_base _ _ Hwf).
    + eapply outdated_ok; [done|]. cbn. rewrite version_next by done. lia.
  - destruct (lookup_wf s es var Hwf) as (r1 & s1 & Hs1 & Hwf1 & (_ & Hb & Hver) & _).
    rewrite Hs1 in Hget. injection Hget as _ <-. exists es. cbn [fst snd]. rewrite Hver.
    split_and!; [done|done|]. unfold cache_ok in *. by rewrite Hb, Hver.
  - destruct (root_lookup_spec s es cache Hwf Hv Hok) as (c1 & Hc1 & Hok1).
    rewrite Hc1 in Hl. injection Hl as <- <-. exists es. by split_and!.
Qed.
End root.

(** As long as a root context lives, its instruction cache is transparent: after
    any interleaving of sets, clears, plain lookups and cached lookups from a new
    context, the cached lookup ends and returns exactly what the hash map binds
    the name to at that moment. *)
Theorem root_lookup_coherent ctx name base cache0 s cache :
  ctx ≠ NULL → base ≠ NULL → cache0 = None ∨ cache0 = Some lookup_cache_zero →
  rtc (root_step ctx name) (store_init base, cache0) (s, cache) →
  ∃ r cache',
    cxpr_ir_exec_lookup_root_cached ctx s (ns_version s) name (cxpr_hash_string name) cache
    = Done (r, cache') ∧
    cxpr_hashmap_get (ns_map s) name
    = Done (match r with Some v => (v, true) | None => (fzero, false) end).
Proof.
  intros Hctx Hbase Hc0 Hsteps.
  assert (Hinit : coherent ctx name (store_init base, cache0)).
  { destruct (store_init_ok base Hbase) as (es & Hwf & _). exists es. split_and!; [done|simpl; lia|].
    destruct Hc0 as [->| ->]; [done|]. by apply zero_ok. }
  assert (Hcoh : coherent ctx name (s, cache)).
  { revert Hinit. generalize (store_init base, cache0), (s, cache), Hsteps. clear Hsteps.
    induction 1; eauto using root_step_coherent. }
  destruct Hcoh as (es & Hwf & Hv & Hok).
  destruct (root_lookup_spec ctx name Hctx s es cache Hwf Hv Hok) as (cache' & -> & _).
  exists (table_map es !! name), cache'. split; [done|]. apply get_spec, Hwf.
Qed.

(** ** Cache entries that outlive their context *)

(** The memory has the context [c] at address 10. *)
Definition at10 (c : cxpr_context) : heap := {[10%Z := mk_node c NULL]}.

(** A context at fixed addresses with one variable. *)
Definition one_variable (var : string) (value : float64) : run cxpr_context :=
  cxpr_context_set (mk_env alloc_all (λ _, true) 5) (cxpr_context_new 1 2) (mk_name 100 var) value.

Definition load_name (var : string) (h : heap) (ctx : Z) (cache : option cxpr_ir_lookup_cache)
    : run (option float64 * option cxpr_ir_lookup_cache) :=
  cxpr_ir_exec_lookup_scalar_fast h ctx false (mk_name 200 var) (cxpr_hash_string var) cache.

(** A compiled program evaluated on a context, and then on another one that was
    allocated at the same addresses after the first was freed, reads a variable
    that the second context does not have: the loaded "A" is the value of "a". *)
Theorem lookup_cache_survives_context :
  (let* first := one_variable "A" (of_Z 1) in
   let* '(v1, cache) := load_name "A" (at10 first) 10 (Some lookup_cache_zero) in
   let* second := one_variable "a" (of_Z 2) in
   let* '(v2, _) := load_name "A" (at10 second) 10 cache in
   let* '(plain, _) := cxpr_context_get_typed [second] (mk_name 300 "A") in
   Done (v1, v2, plain))
  = Done (Some (of_Z 1), Some (of_Z 2), None).
Proof. vm_compute. reflexivity. Qed.

(** Two live contexts that bind [x] to 1 and to 2, at the addresses 10 and 20. *)
Definition two_parents : run context_memory :=
  let* p := one_variable "x" (of_Z 1) in
  let* q := cxpr_context_set (mk_env alloc_all (λ _, true) 6) (cxpr_context_new 3 4)
              (mk_name 100 "x") (of_Z 2) in
  Done (mk_memory {[10%Z := mk_node p NULL; 20%Z := mk_node q NULL]} []).

(** An empty overlay that is freed and taken from the free list for another
    parent keeps its address, so an instruction that was evaluated on the overlay
    of the first parent still loads the first parent's variable. *)
Theorem lookup_cache_survives_overlay :
  (let* mem := two_parents in
   let* '(o1, mem) := cxpr_context_overlay_new mem 10 30 7 8 in
   let* '(v1, cache) := load_name "x" (mem_heap mem) o1 (Some lookup_cache_zero) in
   let* mem := cxpr_context_free mem o1 in
   let* '(o2, mem) := cxpr_context_overlay_new mem 20 40 9 11 in
   let* '(v2, _) := load_name "x" (mem_heap mem) o2 cache in
   let* '(uncached, _) := load_name "x" (mem_heap mem) o2 None in
   Done (o1, v1, o2, v2, uncached))
  = Done (30%Z, Some (of_Z 1), 30%Z, Some (of_Z 1), Some (of_Z 2)).
Proof. vm_compute. reflexivity. Qed.

(** ** Witness: a set, a cached lookup and an update *)

Definition after_set (s : num_store) (value : float64) : num_store :=
  match cxpr_context_set_hashed alloc_all 2 s (mk_name 100 "x") (cxpr_hash_string "x") value with
  | Done s' => s'
  | _ => s
  end.

Definition warm_store : num_store := after_set (store_init 1) fone.

Definition warm_cache : option cxpr_ir_lookup_cache :=
  match cxpr_ir_exec_lookup_root_cached 10 warm_store 2 "x" (cxpr_hash_string "x")
          (Some lookup_cache_zero) with
  | Done (_, cache) => cache
  | _ => None
  end.

Lemma root_lookup_coherent_witness :
  warm_cache ≠ Some lookup_cache_zero ∧
  ∃ cache', cxpr_ir_exec_lookup_root_cached 10 (after_set warm_store (of_Z 2)) 2 "x"
              (cxpr_hash_string "x") warm_cache = Done (Some (of_Z 2), cache').
Proof.
  split; [vm_compute; discriminate|].
  destruct (root_lookup_coherent 10 "x" 1 (Some lookup_cache_zero) (after_set warm_store (of_Z 2))
              warm_cache ltac:(discriminate) ltac:(discriminate) (or_intror eq_refl))
    as (r & cache' & Hl & Hg).
  - apply rtc_l with (warm_store, Some lookup_cache_zero).
    { apply step_set with (mem := alloc_all) (b := 2%Z) (var := mk_name 100 "x") (value := fone);
        [apply store_init_fresh; discriminate|reflexivity|left; vm_compute; lia
        |vm_compute; reflexivity|vm_compute; reflexivity]. }
    apply rtc_l with (warm_store, warm_cache).
    { apply step_lookup with (r := Some fone). vm_compute. reflexivity. }
    apply rtc_l with (after_set warm_store (of_Z 2), warm_cache); [|apply rtc_refl].
    apply step_set with (mem := alloc_all) (b := 3%Z) (var := mk_name 100 "x") (value := of_Z 2);
      [|reflexivity|left; vm_compute; lia|vm_compute; reflexivity|vm_compute; reflexivity].
    apply fresh_base_intro; [discriminate| |]; apply (bool_decide_unpack (map_Forall _ _));
      vm_compute; exact I.
  - exists cache'. vm_compute in Hg. destruct r as [v|]; [|discriminate].
    injection Hg as <-. exact Hl.
Defined.
