(* ===== verification/Lexer.v ===== *)
(** * Lexer: the tokenizer ([src/lexer/lexer.c])

    One definition per function of the file.  A [const char*] into the source
    is the suffix of the source that starts there, so [lx_current] is
    [lexer->current].  Character classes are those of the "C" locale. *)

From Stdlib Require Import Ascii String ZArith Lia.
From stdpp Require Import base list strings.
From S2P Require Import Prelude Float64 Types.

(** ** State *)

Record cxpr_token : Type := mk_token {
  tok_type : cxpr_token_type;
  tok_start : string;
  tok_length : nat;
  tok_number_value : float64;
  tok_int64_value : Z;
  tok_is_int64 : bool;
  tok_position : nat;
  tok_line : nat;
  tok_column : nat
}.

Record cxpr_lexer : Type := mk_lexer {
  lx_source : string;
  lx_current : string;
  lx_line : nat;
  lx_column : nat;
  lx_position : nat
}.

(** The lexeme of a token. *)
Definition tok_text (t : cxpr_token) : string := str_take (tok_length t) (tok_start t).

(** ** Character classes *)

Definition in_range (c : ascii) (lo hi : Z) : bool :=
  ((lo <=? ascii_code c) && (ascii_code c <=? hi))%Z.

Definition isspace (c : ascii) : bool := in_range c 9 13 || in_range c 32 32.
Definition isdigit (c : ascii) : bool := is_digit c.
Definition isalpha (c : ascii) : bool := in_range c 65 90 || in_range c 97 122.
Definition isalnum (c : ascii) : bool := isalpha c || isdigit c.

Definition cxpr_is_ident_start (c : ascii) : bool := isalpha c || (c =? "_")%char.
Definition cxpr_is_ident_char (c : ascii) : bool := isalnum c || (c =? "_")%char.

Definition newline : ascii := "010"%char.
Definition backslash : ascii := "092"%char.
Definition dquote : ascii := "034"%char.
Definition squote : ascii := "039"%char.

(** ** Cursor *)

Definition cxpr_lexer_advance (lx : cxpr_lexer) : cxpr_lexer :=
  let nl := (char_at0 (lx_current lx) =? newline)%char in
  {| lx_source := lx_source lx;
     lx_current := str_tail (lx_current lx);
     lx_line := if nl then S (lx_line lx) else lx_line lx;
     lx_column := if nl then 1 else S (lx_column lx);
     lx_position := S (lx_position lx) |}.

Definition cxpr_lexer_peek_next (lx : cxpr_lexer) : ascii :=
  if (char_at0 (lx_current lx) =? NUL)%char then NUL else char_at 1 (lx_current lx).

(** [while (p( *current)) advance] *)
Fixpoint lex_while_from (p : ascii → bool) (s : string) (lx : cxpr_lexer) : cxpr_lexer :=
  match s with
  | EmptyString => lx
  | String c s' => if p c then lex_while_from p s' (cxpr_lexer_advance lx) else lx
  end.

Definition lex_while (p : ascii → bool) (lx : cxpr_lexer) : cxpr_lexer :=
  lex_while_from p (lx_current lx) lx.

Definition not_nul_space (c : ascii) : bool := negb (c =? NUL)%char && isspace c.
Definition not_nul_newline (c : ascii) : bool := negb (c =? NUL)%char && negb (c =? newline)%char.

(** The body of a block comment, up to and including its end marker. *)
Fixpoint lex_block_comment_from (s : string) (lx : cxpr_lexer) : cxpr_lexer :=
  match s with
  | EmptyString => lx
  | String c s' =>
      if (c =? NUL)%char then lx
      else if (c =? "*")%char && (char_at0 s' =? "/")%char
      then cxpr_lexer_advance (cxpr_lexer_advance lx)
      else lex_block_comment_from s' (cxpr_lexer_advance lx)
  end.

Definition lex_block_comment (lx : cxpr_lexer) : cxpr_lexer :=
  lex_block_comment_from (lx_current lx) lx.

(** The [for (;;)] loop; an iteration that continues consumes a character, so
    [strlen current] iterations are enough (see [skip_whitespace_done]). *)
Fixpoint skip_whitespace_loop (fuel : nat) (lx : cxpr_lexer) : cxpr_lexer :=
  match fuel with
  | O => lx
  | S fuel' =>
      let lx := lex_while not_nul_space lx in
      if (char_at0 (lx_current lx) =? "#")%char then
        skip_whitespace_loop fuel' (lex_while not_nul_newline lx)
      else if (char_at0 (lx_current lx) =? "/")%char && (char_at 1 (lx_current lx) =? "/")%char then
        skip_whitespace_loop fuel' (lex_while not_nul_newline lx)
      else if (char_at0 (lx_current lx) =? "/")%char && (char_at 1 (lx_current lx) =? "*")%char then
        skip_whitespace_loop fuel'
          (lex_block_comment (cxpr_lexer_advance (cxpr_lexer_advance lx)))
      else lx
  end.

Definition cxpr_lexer_skip_whitespace (lx : cxpr_lexer) : cxpr_lexer :=
  skip_whitespace_loop (S (strlen (lx_current lx))) lx.

(** ** Tokens *)

Definition cxpr_make_token (type : cxpr_token_type) (start : string) (length : nat)
    (position line column : nat) : cxpr_token :=
  mk_token type start length fzero 0 false position line column.

Definition cxpr_make_error_token (message : string) (lx : cxpr_lexer) : cxpr_token :=
  mk_token CXPR_TOK_ERROR message (strlen message) fzero 0 false
    (lx_position lx) (lx_line lx) (lx_column lx).

Definition cxpr_keywords : list (string * cxpr_token_type) :=
  [ ("and", CXPR_TOK_AND); ("AND", CXPR_TOK_AND);
    ("or", CXPR_TOK_OR); ("OR", CXPR_TOK_OR);
    ("not", CXPR_TOK_NOT); ("NOT", CXPR_TOK_NOT);
    ("in", CXPR_TOK_IN); ("IN", CXPR_TOK_IN);
    ("true", CXPR_TOK_TRUE); ("TRUE", CXPR_TOK_TRUE);
    ("false", CXPR_TOK_FALSE); ("FALSE", CXPR_TOK_FALSE);
    ("eq", CXPR_TOK_EQ); ("EQ", CXPR_TOK_EQ);
    ("ne", CXPR_TOK_NEQ); ("NE", CXPR_TOK_NEQ);
    ("neq", CXPR_TOK_NEQ); ("NEQ", CXPR_TOK_NEQ);
    ("lt", CXPR_TOK_LT); ("LT", CXPR_TOK_LT);
    ("gt", CXPR_TOK_GT); ("GT", CXPR_TOK_GT);
    ("le", CXPR_TOK_LTE); ("LE", CXPR_TOK_LTE);
    ("lte", CXPR_TOK_LTE); ("LTE", CXPR_TOK_LTE);
    ("ge", CXPR_TOK_GTE); ("GE", CXPR_TOK_GTE);
    ("gte", CXPR_TOK_GTE); ("GTE", CXPR_TOK_GTE) ]%string.

Fixpoint keyword_scan (kws : list (string * cxpr_token_type)) (text : string) (length : nat)
    : cxpr_token_type :=
  match kws with
  | [] => CXPR_TOK_IDENTIFIER
  | (kw, type) :: kws' =>
      if (strlen kw =? length)%nat && (kw =? str_take length text)%string then type
      else keyword_scan kws' text length
  end.

Definition cxpr_check_keyword (text : string) (length : nat) : cxpr_token_type :=
  keyword_scan cxpr_keywords text length.

(** [sizeof(buf)] in [cxpr_lexer_number]. *)
Definition number_buf_size : nat := 64.

(** The digits, fraction and exponent of a literal: the cursor behind them and
    whether the literal is written as an integer; [None] is the exponent error
    (the cursor is still needed for its position). *)
Definition lex_number_integer (lx : cxpr_lexer) : cxpr_lexer := lex_while isdigit lx.

Definition lex_number_fraction (lx : cxpr_lexer) : bool * cxpr_lexer :=
  if (char_at0 (lx_current lx) =? ".")%char && isdigit (char_at 1 (lx_current lx)) then
    (false, lex_while isdigit (cxpr_lexer_advance lx))
  else (true, lx).

Definition lex_number_exponent (integer_syntax : bool) (lx : cxpr_lexer)
    : (bool * bool) * cxpr_lexer :=
  if (char_at0 (lx_current lx) =? "e")%char || (char_at0 (lx_current lx) =? "E")%char then
    let lx := cxpr_lexer_advance lx in
    let lx :=
      if (char_at0 (lx_current lx) =? "+")%char || (char_at0 (lx_current lx) =? "-")%char
      then cxpr_lexer_advance lx else lx in
    if negb (isdigit (char_at0 (lx_current lx))) then ((false, false), lx)
    else ((true, false), lex_while isdigit lx)
  else ((true, integer_syntax), lx).

Definition cxpr_lexer_number (lx0 : cxpr_lexer) : cxpr_token * cxpr_lexer :=
  let start := lx_current lx0 in
  let '(integer_syntax, lx) := lex_number_fraction (lex_number_integer lx0) in
  let '((ok, integer_syntax), lx) := lex_number_exponent integer_syntax lx in
  if negb ok then (cxpr_make_error_token "Invalid scientific notation" lx, lx)
  else
    let len := (lx_position lx - lx_position lx0)%nat in
    let lx :=
      if integer_syntax && (char_at 0 (lx_current lx) =? "i")%char
         && (char_at 1 (lx_current lx) =? "6")%char
         && (char_at 2 (lx_current lx) =? "4")%char
         && negb (isalnum (char_at 3 (lx_current lx)))
         && negb (char_at 3 (lx_current lx) =? "_")%char
      then cxpr_lexer_advance (cxpr_lexer_advance (cxpr_lexer_advance lx)) else lx in
    let length := (lx_position lx - lx_position lx0)%nat in
    let tok := cxpr_make_token CXPR_TOK_NUMBER start length
                 (lx_position lx0) (lx_line lx0) (lx_column lx0) in
    if integer_syntax && (length =? len + 3)%nat then
      if (number_buf_size <=? len)%nat
      then (cxpr_make_error_token "int64 literal is too long" lx, lx)
      else
        match strtoimax (str_take len start) with
        | None => (cxpr_make_error_token "int64 literal is out of range" lx, lx)
        | Some v =>
            (mk_token CXPR_TOK_NUMBER start length fzero v true
               (lx_position lx0) (lx_line lx0) (lx_column lx0), lx)
        end
    else
      let len := if (number_buf_size <=? length)%nat then (number_buf_size - 1)%nat else length in
      (mk_token CXPR_TOK_NUMBER start length (strtod (str_take len start)) 0 false
         (lx_position lx0) (lx_line lx0) (lx_column lx0), lx).

Definition cxpr_lexer_identifier (lx0 : cxpr_lexer) : cxpr_token * cxpr_lexer :=
  let start := lx_current lx0 in
  let lx := lex_while cxpr_is_ident_char lx0 in
  let length := (lx_position lx - lx_position lx0)%nat in
  if (length =? 4)%nat &&
     ((str_take 4 start =? "null")%string || (str_take 4 start =? "NULL")%string
      || (str_take 4 start =? "Null")%string)
  then
    (mk_token CXPR_TOK_NUMBER start length fnan 0 false
       (lx_position lx0) (lx_line lx0) (lx_column lx0), lx)
  else
    (cxpr_make_token (cxpr_check_keyword start length) start length
       (lx_position lx0) (lx_line lx0) (lx_column lx0), lx).

(** The dotted tail of a [$group.param] path; an iteration consumes the dot. *)
Fixpoint lex_variable_path (fuel : nat) (lx : cxpr_lexer) : bool * cxpr_lexer :=
  match fuel with
  | O => (true, lx)
  | S fuel' =>
      if (char_at0 (lx_current lx) =? ".")%char then
        if negb (cxpr_is_ident_start (cxpr_lexer_peek_next lx)) then (false, lx)
        else lex_variable_path fuel' (lex_while cxpr_is_ident_char (cxpr_lexer_advance lx))
      else (true, lx)
  end.

Definition cxpr_lexer_variable (lx0 : cxpr_lexer) : cxpr_token * cxpr_lexer :=
  let lx := cxpr_lexer_advance lx0 in
  let name_start := lx_current lx in
  let name_position := lx_position lx in
  if negb (cxpr_is_ident_start (char_at0 (lx_current lx)))
  then (cxpr_make_error_token "Expected identifier after '$'" lx, lx)
  else
    let lx := lex_while cxpr_is_ident_char lx in
    let '(ok, lx) := lex_variable_path (S (strlen (lx_current lx))) lx in
    if negb ok
    then (cxpr_make_error_token "Expected identifier after '.' in variable" lx, lx)
    else
      (cxpr_make_token CXPR_TOK_VARIABLE name_start (lx_position lx - name_position)%nat
         (lx_position lx0) (lx_line lx0) (lx_column lx0), lx).

Fixpoint lex_string_body (quote : ascii) (s : string) (lx : cxpr_lexer) : cxpr_lexer :=
  match s with
  | EmptyString => lx
  | String c s' =>
      if (c =? NUL)%char || (c =? quote)%char then lx
      else if (c =? backslash)%char then
        match s' with
        | String d s'' =>
            if (d =? NUL)%char then lex_string_body quote s' (cxpr_lexer_advance lx)
            else lex_string_body quote s'' (cxpr_lexer_advance (cxpr_lexer_advance lx))
        | EmptyString => lex_string_body quote s' (cxpr_lexer_advance lx)
        end
      else lex_string_body quote s' (cxpr_lexer_advance lx)
  end.

Definition cxpr_lexer_string (lx0 : cxpr_lexer) : cxpr_token * cxpr_lexer :=
  let quote := char_at0 (lx_current lx0) in
  let lx := cxpr_lexer_advance lx0 in
  let value_start := lx_current lx in
  let value_position := lx_position lx in
  let lx := lex_string_body quote (lx_current lx) lx in
  if negb (char_at0 (lx_current lx) =? quote)%char
  then (cxpr_make_error_token "Unterminated string literal" lx, lx)
  else
    (cxpr_make_token CXPR_TOK_STRING value_start (lx_position lx - value_position)%nat
       (lx_position lx0) (lx_line lx0) (lx_column lx0),
     cxpr_lexer_advance lx).

Definition cxpr_lexer_init (source : string) : cxpr_lexer :=
  mk_lexer source source 1 1 0.

(** The single-character cases of the [switch] in [cxpr_lexer_next]. *)
Definition single_char_token (c : ascii) : option cxpr_token_type :=
  match c with
  | "+" => Some CXPR_TOK_PLUS
  | "-" => Some CXPR_TOK_MINUS
  | "/" => Some CXPR_TOK_SLASH
  | "%" => Some CXPR_TOK_PERCENT
  | "^" => Some CXPR_TOK_POWER
  | "(" => Some CXPR_TOK_LPAREN
  | ")" => Some CXPR_TOK_RPAREN
  | "[" => Some CXPR_TOK_LBRACKET
  | "]" => Some CXPR_TOK_RBRACKET
  | "{" => Some CXPR_TOK_LBRACE
  | "}" => Some CXPR_TOK_RBRACE
  | "," => Some CXPR_TOK_COMMA
  | "." => Some CXPR_TOK_DOT
  | ":" => Some CXPR_TOK_COLON
  | "?" => Some CXPR_TOK_QUESTION
  | _ => None
  end%char.

(** The cases that look at the next character: the two-character token, and
    the token of the first character alone when there is one. *)
Definition double_char_token (c next : ascii)
    : option cxpr_token_type * option cxpr_token_type :=
  match c with
  | "*" => (if (next =? "*")%char then Some CXPR_TOK_POWER else None, Some CXPR_TOK_STAR)
  | "!" => (if (next =? "=")%char then Some CXPR_TOK_NEQ else None, Some CXPR_TOK_NOT)
  | "=" => (if (next =? "=")%char then Some CXPR_TOK_EQ else None, Some CXPR_TOK_ASSIGN)
  | "<" => (if (next =? "=")%char then Some CXPR_TOK_LTE else None, Some CXPR_TOK_LT)
  | ">" => (if (next =? "=")%char then Some CXPR_TOK_GTE else None, Some CXPR_TOK_GT)
  | "&" => (if (next =? "&")%char then Some CXPR_TOK_AND else None, None)
  | "|" => (if (next =? "|")%char then Some CXPR_TOK_OR
            else if (next =? ">")%char then Some CXPR_TOK_PIPE else None, None)
  | _ => (None, None)
  end%char.

Definition lexer_operator (lx0 : cxpr_lexer) : cxpr_token * cxpr_lexer :=
  let start := lx_current lx0 in
  let c := char_at0 start in
  let lx := cxpr_lexer_advance lx0 in
  let mk type len :=
    cxpr_make_token type start len (lx_position lx0) (lx_line lx0) (lx_column lx0) in
  match single_char_token c with
  | Some type => (mk type 1, lx)
  | None =>
      match double_char_token c (char_at0 (lx_current lx)) with
      | (Some type, _) => (mk type 2, cxpr_lexer_advance lx)
      | (None, Some type) => (mk type 1, lx)
      | (None, None) => (cxpr_make_error_token "Unexpected character" lx, lx)
      end
  end.

Definition cxpr_lexer_next (lx : cxpr_lexer) : cxpr_token * cxpr_lexer :=
  let lx := cxpr_lexer_skip_whitespace lx in
  let c := char_at0 (lx_current lx) in
  if (c =? NUL)%char then
    (cxpr_make_token CXPR_TOK_EOF (lx_current lx) 0
       (lx_position lx) (lx_line lx) (lx_column lx), lx)
  else if isdigit c || ((c =? ".")%char && isdigit (cxpr_lexer_peek_next lx)) then
    cxpr_lexer_number lx
  else if cxpr_is_ident_start c then cxpr_lexer_identifier lx
  else if (c =? "$")%char then cxpr_lexer_variable lx
  else if (c =? dquote)%char || (c =? squote)%char then cxpr_lexer_string lx
  else lexer_operator lx.

Definition cxpr_lexer_peek (lx : cxpr_lexer) : cxpr_token := fst (cxpr_lexer_next lx).

(** The token stream of a source, up to and including its first [EOF] or
    [ERROR] token. *)
Fixpoint token_stream (fuel : nat) (lx : cxpr_lexer) : option (list cxpr_token) :=
  match fuel with
  | O => None
  | S fuel' =>
      let '(tok, lx') := cxpr_lexer_next lx in
      match tok_type tok with
      | CXPR_TOK_EOF | CXPR_TOK_ERROR => Some [tok]
      | _ => option_map (cons tok) (token_stream fuel' lx')
      end
  end.

(** ** Positions

    [line_of n src] and [col_of n src] are the one-based line and column of
    offset [n]: one plus the newlines before [n], and one plus the characters
    since the last of them. *)
Fixpoint line_of (n : nat) (src : string) : nat :=
  match n, src with
  | S n', String c s => (if (c =? newline)%char then 1 else 0) + line_of n' s
  | _, _ => 1
  end.

Fixpoint col_from (col : nat) (n : nat) (src : string) : nat :=
  match n, src with
  | S n', String c s => col_from (if (c =? newline)%char then 1 else S col) n' s
  | _, _ => col
  end.

Arguments line_of n src : simpl nomatch.
Arguments col_from col n src : simpl nomatch.

Definition col_of (n : nat) (src : string) : nat := col_from 1 n src.

(** The lexer state at offset [n] of [src]. *)
Definition state_at (src : string) (n : nat) : cxpr_lexer :=
  mk_lexer src (str_drop n src) (line_of n src) (col_of n src) n.

(** A lexer state that points into its source: the cursor is at or before the
    terminator and the three position counters agree with it. *)
Definition lexer_wf (lx : cxpr_lexer) : Prop :=
  lx_position lx ≤ strlen (lx_source lx) ∧ lx = state_at (lx_source lx) (lx_position lx).

(** ** Lemmas on the cursor *)

Lemma line_of_S n src :
  n < strlen src →
  line_of (S n) src = if (char_at n src =? newline)%char then S (line_of n src) else line_of n src.
Proof.
  revert src; induction n as [|n IH]; intros [|c s] Hn; simpl in Hn; try lia.
  - simpl. destruct (c =? newline)%char; reflexivity.
  - change (line_of (S (S n)) (String c s)) with
      ((if (c =? newline)%char then 1 else 0) + line_of (S n) s).
    rewrite IH by lia. simpl. destruct (char_at n s =? newline)%char; lia.
Qed.

Lemma col_from_S k n src :
  n < strlen src →
  col_from k (S n) src = if (char_at n src =? newline)%char then 1 else S (col_from k n src).
Proof.
  revert k src; induction n as [|n IH]; intros k [|c s] Hn; simpl in Hn; try lia.
  - simpl. destruct (c =? newline)%char; reflexivity.
  - change (col_from k (S (S n)) (String c s)) with
      (col_from (if (c =? newline)%char then 1 else S k) (S n) s).
    rewrite IH by lia. reflexivity.
Qed.

Lemma char_at0_drop n s : char_at0 (str_drop n s) = char_at n s.
Proof. revert s; induction n as [|n IH]; intros [|c s]; simpl; auto. Qed.

Lemma char_at_drop i n s : char_at i (str_drop n s) = char_at (n + i) s.
Proof.
  revert s; induction n as [|n IH]; intros s; simpl; auto.
  destruct s; simpl; auto. destruct i; auto.
Qed.

Lemma char_at_end n s : strlen s ≤ n → char_at n s = NUL.
Proof. revert s; induction n as [|n IH]; intros [|c s] H; simpl in *; auto with lia. Qed.

Lemma char_at_inside n s : char_at n s ≠ NUL → n < strlen s.
Proof. intros H. destruct (decide (n < strlen s)); auto. destruct H. apply char_at_end. lia. Qed.

Lemma str_drop_cons n s :
  n < strlen s → str_drop n s = String (char_at n s) (str_drop (S n) s).
Proof. revert s; induction n as [|n IH]; intros [|c s] H; simpl in *; auto with lia. Qed.

Lemma str_drop_end n s : strlen s ≤ n → str_drop n s = EmptyString.
Proof. revert s; induction n as [|n IH]; intros [|c s] H; simpl in *; auto with lia. Qed.

Lemma str_drop_inv c s n src :
  String c s = str_drop n src →
  n < strlen src ∧ c = char_at n src ∧ s = str_drop (S n) src.
Proof.
  intros Hs. destruct (decide (n < strlen src)).
  - rewrite str_drop_cons in Hs by done. repeat split; auto; congruence.
  - rewrite str_drop_end in Hs by lia. discriminate.
Qed.

Lemma advance_state_at src n :
  n < strlen src → cxpr_lexer_advance (state_at src n) = state_at src (S n).
Proof.
  intros Hn. unfold cxpr_lexer_advance, state_at.
  cbn [lx_current lx_line lx_column lx_position lx_source].
  rewrite char_at0_drop, str_tail_drop, (line_of_S n) by done.
  unfold col_of. rewrite (col_from_S 1 n) by done. reflexivity.
Qed.

Lemma current_state_at src n : lx_current (state_at src n) = str_drop n src.
Proof. reflexivity. Qed.

Lemma ascii_eqb_true c d : (c =? d)%char = true → c = d.
Proof. apply Ascii.eqb_eq. Qed.

Lemma ascii_eqb_false c d : (c =? d)%char = false → c ≠ d.
Proof. apply Ascii.eqb_neq. Qed.

(** What [while (p( *current)) advance] does: it stops at the first offset
    where [p] fails or the source ends. *)
Lemma lex_while_state_at p src n :
  n ≤ strlen src →
  ∃ m, lex_while p (state_at src n) = state_at src m ∧ n ≤ m ≤ strlen src ∧
    (∀ i, n ≤ i < m → p (char_at i src) = true) ∧
    (m < strlen src → p (char_at m src) = false).
Proof.
  unfold lex_while; rewrite current_state_at.
  remember (str_drop n src) as s eqn:Hs. revert n Hs.
  induction s as [|c s IH]; intros n Hs Hn; simpl.
  - exists n. repeat split; try lia. intros. exfalso.
    rewrite str_drop_cons in Hs by lia. congruence.
  - destruct (str_drop_inv _ _ _ _ Hs) as (Hlt & -> & Hs').
    destruct (p (char_at n src)) eqn:Hp.
    + rewrite advance_state_at by done.
      destruct (IH (S n) Hs' ltac:(lia)) as (m & -> & Hm & Hall & Hstop).
      exists m. repeat split; auto; try lia.
      intros i Hi. destruct (decide (i = n)) as [->|]; auto. apply Hall; lia.
    + exists n. repeat split; auto; lia.
Qed.

(** A state at or after offset [n] of [src]. *)
Definition from_offset (src : string) (n : nat) (lx : cxpr_lexer) : Prop :=
  ∃ m, n ≤ m ≤ strlen src ∧ lx = state_at src m.

Lemma lex_while_from_offset p src n :
  n ≤ strlen src → from_offset src n (lex_while p (state_at src n)).
Proof. intros H. destruct (lex_while_state_at p src n H) as (m & -> & ? & _). by exists m. Qed.

(** A loop whose condition holds at the cursor consumes a character. *)
Lemma lex_while_progress p src n :
  n < strlen src → p (char_at n src) = true →
  from_offset src (S n) (lex_while p (state_at src n)).
Proof.
  intros Hn Hp. destruct (lex_while_state_at p src n) as (m & -> & Hm & _ & Hstop); [lia|].
  exists m. split; auto. destruct (decide (m = n)) as [->|]; [|lia].
  rewrite Hstop in Hp by done. discriminate.
Qed.

Lemma lex_block_comment_from_offset src n :
  n ≤ strlen src → from_offset src n (lex_block_comment (state_at src n)).
Proof.
  unfold lex_block_comment; rewrite current_state_at.
  remember (str_drop n src) as s eqn:Hs. revert n Hs.
  induction s as [|c s IH]; intros n Hs Hn; simpl; [by exists n|].
  destruct (str_drop_inv _ _ _ _ Hs) as (Hlt & -> & Hs').
  destruct (char_at n src =? NUL)%char; [exists n; by auto|].
  rewrite advance_state_at by done.
  destruct ((char_at n src =? "*")%char && (char_at0 s =? "/")%char) eqn:E.
  - apply andb_prop in E as [_ E]. rewrite Hs', char_at0_drop in E.
    apply ascii_eqb_true in E.
    assert (S n < strlen src) by (apply char_at_inside; rewrite E; done).
    rewrite advance_state_at by done. exists (S (S n)). split; [lia|done].
  - destruct (IH (S n) Hs' ltac:(lia)) as (m & ? & ->). exists m. split; [lia|done].
Qed.

Lemma from_offset_weaken src n m lx : m ≤ n → from_offset src n lx → from_offset src m lx.
Proof. intros ? (k & ? & ->). exists k. split; [lia|done]. Qed.

(** Offset [n] is at the first character of a token or at the end: no blank and
    no comment starts there. *)
Definition at_token (src : string) (n : nat) : Prop :=
  not_nul_space (char_at n src) = false ∧ char_at n src ≠ "#"%char ∧
  (char_at n src = "/"%char → char_at (S n) src ≠ "/"%char ∧ char_at (S n) src ≠ "*"%char).

Lemma not_nul_space_NUL : not_nul_space NUL = false.
Proof. reflexivity. Qed.

Lemma char_inside c n src : char_at n src = c → c ≠ NUL → n < strlen src.
Proof. intros <-. apply char_at_inside. Qed.

Lemma skip_whitespace_loop_spec fuel src n :
  n ≤ strlen src → strlen src - n < fuel →
  ∃ m, skip_whitespace_loop fuel (state_at src n) = state_at src m ∧
    n ≤ m ≤ strlen src ∧ at_token src m.
Proof.
  revert n; induction fuel as [|fuel IH]; intros n Hn Hf; [lia|].
  cbn [skip_whitespace_loop].
  destruct (lex_while_state_at not_nul_space src n Hn) as (k & -> & Hk & _ & Hstop).
  rewrite current_state_at, char_at0_drop, char_at_drop, Nat.add_1_r.
  assert (Hsp : not_nul_space (char_at k src) = false).
  { destruct (decide (k < strlen src)); auto. by rewrite char_at_end by lia. }
  assert (Hcomment : ∀ lx, from_offset src (S k) lx →
    ∃ m, skip_whitespace_loop fuel lx = state_at src m ∧ n ≤ m ≤ strlen src ∧ at_token src m).
  { intros lx (j & Hj & ->). destruct (IH j) as (m & Hm & ? & ?); [lia..|].
    exists m. split_and!; auto; lia. }
  destruct (char_at k src =? "#")%char eqn:Ehash.
  { apply ascii_eqb_true in Ehash. apply Hcomment, lex_while_progress;
      [by apply (char_inside _ _ _ Ehash)|by rewrite Ehash]. }
  destruct ((char_at k src =? "/")%char && (char_at (S k) src =? "/")%char) eqn:Eline.
  { apply andb_prop in Eline as [E1%ascii_eqb_true _]. apply Hcomment, lex_while_progress;
      [by apply (char_inside _ _ _ E1)|by rewrite E1]. }
  destruct ((char_at k src =? "/")%char && (char_at (S k) src =? "*")%char) eqn:Eblock.
  { apply andb_prop in Eblock as [E1%ascii_eqb_true E2%ascii_eqb_true].
    assert (S k < strlen src) by by apply (char_inside _ _ _ E2).
    rewrite !advance_state_at by lia.
    apply Hcomment. apply from_offset_weaken with (S (S k)); [lia|].
    apply lex_block_comment_from_offset. lia. }
  exists k. repeat split; auto; try lia.
  - by apply ascii_eqb_false.
  - rewrite H in Eline. simpl in Eline. by apply ascii_eqb_false.
  - rewrite H in Eblock. simpl in Eblock. by apply ascii_eqb_false.
Qed.

Lemma skip_whitespace_spec src n :
  n ≤ strlen src →
  ∃ m, cxpr_lexer_skip_whitespace (state_at src n) = state_at src m ∧
    n ≤ m ≤ strlen src ∧ at_token src m.
Proof.
  intros H. apply skip_whitespace_loop_spec; auto.
  rewrite current_state_at, strlen_drop. lia.
Qed.

(** ** Tokens and their place in the source

    [token_at src k tok m]: the lexer read [tok] from offset [k] and stopped at
    [m].  An ordinary token records the position of [k] and its lexeme is the
    source text from [k] (behind the quote or the [$] for a string and a
    parameter), and ends at [m]; an error token records the position of [m]. *)
Definition token_at (src : string) (k : nat) (tok : cxpr_token) (m : nat) : Prop :=
  match tok_type tok with
  | CXPR_TOK_ERROR =>
      k < m ∧ tok_position tok = m ∧ tok_line tok = line_of m src ∧ tok_column tok = col_of m src
  | CXPR_TOK_STRING =>
      tok_start tok = str_drop (S k) src ∧ m = k + tok_length tok + 2 ∧
      tok_position tok = k ∧ tok_line tok = line_of k src ∧ tok_column tok = col_of k src
  | CXPR_TOK_VARIABLE =>
      tok_start tok = str_drop (S k) src ∧ m = k + tok_length tok + 1 ∧
      tok_position tok = k ∧ tok_line tok = line_of k src ∧ tok_column tok = col_of k src
  | CXPR_TOK_EOF =>
      tok_start tok = str_drop k src ∧ tok_length tok = 0 ∧ m = k ∧ char_at k src = NUL ∧
      tok_position tok = k ∧ tok_line tok = line_of k src ∧ tok_column tok = col_of k src
  | _ =>
      tok_start tok = str_drop k src ∧ m = k + tok_length tok ∧ k < m ∧
      tok_position tok = k ∧ tok_line tok = line_of k src ∧ tok_column tok = col_of k src
  end.

(** The result of one tokenizing function called at offset [k]. *)
Definition reads_token (src : string) (k : nat) (r : cxpr_token * cxpr_lexer) : Prop :=
  ∃ m, m ≤ strlen src ∧ snd r = state_at src m ∧ token_at src k (fst r) m.

Lemma error_token_at src k m msg :
  k < m ≤ strlen src →
  reads_token src k (cxpr_make_error_token msg (state_at src m), state_at src m).
Proof. intros. exists m. split; [lia|]. split; [done|]. by repeat split; simpl; try lia. Qed.

(** Tags of tokens whose lexeme starts at the token itself. *)
Definition plain_tag (t : cxpr_token_type) : bool :=
  match t with
  | CXPR_TOK_ERROR | CXPR_TOK_STRING | CXPR_TOK_VARIABLE | CXPR_TOK_EOF => false
  | _ => true
  end.

Lemma plain_token_at src k m type nv iv ii :
  plain_tag type = true → k < m ≤ strlen src →
  reads_token src k
    (mk_token type (str_drop k src) (m - k) nv iv ii k (line_of k src) (col_of k src),
     state_at src m).
Proof.
  intros Ht Hm. exists m. split; [lia|]. split; [done|].
  unfold token_at; simpl. destruct type; try discriminate; repeat split; lia.
Qed.

Lemma isdigit_NUL : isdigit NUL = false.
Proof. reflexivity. Qed.

Lemma pred_inside (p : ascii → bool) n src :
  p NUL = false → p (char_at n src) = true → n < strlen src.
Proof. intros HN Hp. apply char_at_inside. intros E. rewrite E in Hp. congruence. Qed.

(** The three scanning steps of a number move the cursor forward. *)
Lemma lex_number_fraction_spec src n :
  n ≤ strlen src →
  from_offset src n (snd (lex_number_fraction (state_at src n))) ∧
  (char_at n src = "."%char → isdigit (char_at (S n) src) = true →
   from_offset src (S n) (snd (lex_number_fraction (state_at src n)))).
Proof.
  intros Hn. unfold lex_number_fraction.
  rewrite current_state_at, char_at0_drop, char_at_drop, Nat.add_1_r.
  destruct (_ && _) eqn:E; simpl.
  - apply andb_prop in E as [E1%ascii_eqb_true _].
    assert (n < strlen src) by by apply (char_inside _ _ _ E1).
    rewrite advance_state_at by done.
    assert (from_offset src (S n) (lex_while isdigit (state_at src (S n))))
      by (apply lex_while_from_offset; lia).
    split; auto. by apply from_offset_weaken with (S n); [lia|].
  - split; [by exists n|]. intros E1 E2. rewrite E1, E2 in E. discriminate.
Qed.

Lemma lex_number_exponent_spec b src n :
  n ≤ strlen src →
  let r := lex_number_exponent b (state_at src n) in
  from_offset src n (snd r) ∧ (fst (fst r) = false → from_offset src (S n) (snd r)).
Proof.
  intros Hn. unfold lex_number_exponent.
  rewrite current_state_at, char_at0_drop.
  destruct (_ || _) eqn:E; [|by split; [exists n|]].
  assert (Hlt : n < strlen src).
  { apply char_at_inside. intros H. by rewrite H in E. }
  rewrite advance_state_at by done.
  rewrite current_state_at, char_at0_drop.
  assert (Hj : ∃ j, S n ≤ j ≤ strlen src ∧
    (if (char_at (S n) src =? "+")%char || (char_at (S n) src =? "-")%char
     then cxpr_lexer_advance (state_at src (S n)) else state_at src (S n)) = state_at src j).
  { destruct ((char_at (S n) src =? "+")%char || (char_at (S n) src =? "-")%char) eqn:E2;
      [|exists (S n); split; [lia|done]].
    assert (S n < strlen src).
    { apply char_at_inside. intros H. by rewrite H in E2. }
    exists (S (S n)). split; [lia|]. by apply advance_state_at. }
  destruct Hj as (j & Hj & ->).
  assert (Hw : from_offset src (S n) (lex_while isdigit (state_at src j))).
  { apply from_offset_weaken with j; [lia|]. apply lex_while_from_offset; lia. }
  assert (Hs : from_offset src (S n) (state_at src j)) by by exists j.
  destruct (negb _); simpl; split; auto; by apply from_offset_weaken with (S n); [lia|].
Qed.

Lemma state_at_position src n : lx_position (state_at src n) = n.
Proof. reflexivity. Qed.

Lemma lexer_number_spec src k :
  isdigit (char_at k src) = true ∨
    (char_at k src = "."%char ∧ isdigit (char_at (S k) src) = true) →
  reads_token src k (cxpr_lexer_number (state_at src k)).
Proof.
  intros Hstart. unfold cxpr_lexer_number.
  assert (Hk : k < strlen src).
  { destruct Hstart as [H|[H _]]; [by apply (pred_inside isdigit)|by apply (char_inside _ _ _ H)]. }
  (* integer part and fraction *)
  assert (Hfr : ∃ b j, lex_number_fraction (lex_number_integer (state_at src k)) = (b, state_at src j)
                 ∧ k < j ≤ strlen src).
  { unfold lex_number_integer.
    destruct (lex_while_state_at isdigit src k) as (i & -> & Hi & _ & Hstop); [lia|].
    destruct (lex_number_fraction_spec src i) as [(j & Hj & Ej) Hdot]; [lia|].
    destruct (lex_number_fraction (state_at src i)) as [b lx] eqn:E; simpl in *; subst lx.
    exists b, j. split; auto. split; [|lia].
    destruct (decide (k < i)); [lia|]. assert (i = k) as -> by lia.
    destruct Hstart as [H|[H1 H2]]; [rewrite Hstop in H by done; discriminate|].
    destruct (Hdot H1 H2) as (j' & Hj' & Ej').
    apply (f_equal lx_position) in Ej'. simpl in Ej'. lia. }
  destruct Hfr as (b & j & -> & Hj).
  destruct (lex_number_exponent_spec b src j) as [(m & Hm & Em) _]; [lia|].
  destruct (lex_number_exponent b (state_at src j)) as [[ok isyn] lx]; simpl in Em; subst lx.
  destruct ok; simpl negb; cbn match; [|apply error_token_at; lia].
  rewrite !state_at_position.
  (* the optional suffix *)
  match goal with |- context [if ?c then cxpr_lexer_advance _ else _] => destruct c eqn:Esuf end.
  - repeat (apply andb_prop in Esuf as [Esuf ?]).
    assert (m + 2 < strlen src).
    { rewrite current_state_at, char_at_drop in *.
      match goal with H : (char_at (m + 2) src =? "4")%char = true |- _ =>
        apply ascii_eqb_true in H; by apply (char_inside _ _ _ H) end. }
    rewrite !advance_state_at by lia. rewrite !state_at_position.
    case_match; [|apply plain_token_at; [done|lia]].
    case_match; [apply error_token_at; lia|].
    case_match; [apply plain_token_at; [done|lia]|apply error_token_at; lia].
  - clear Esuf. rewrite !state_at_position.
    destruct (isyn && _) eqn:E.
    { apply andb_prop in E as [_ E%Nat.eqb_eq]. lia. }
    apply plain_token_at; [done|lia].
Qed.

Lemma keyword_scan_tag (P : cxpr_token_type → Prop) kws text len :
  P CXPR_TOK_IDENTIFIER → Forall (λ kt, P (snd kt)) kws → P (keyword_scan kws text len).
Proof.
  intros Hid. induction 1 as [|[kw t] kws Ht _ IH]; simpl; [done|]. by destruct (_ && _).
Qed.

Lemma check_keyword_plain text len : plain_tag (cxpr_check_keyword text len) = true.
Proof. apply (keyword_scan_tag (λ t, plain_tag t = true)); [done|]. by repeat constructor. Qed.

Lemma ident_start_char c : cxpr_is_ident_start c = true → cxpr_is_ident_char c = true.
Proof.
  unfold cxpr_is_ident_start, cxpr_is_ident_char, isalnum.
  destruct (isalpha c); simpl; [done|]. intros ->. apply orb_true_r.
Qed.

Lemma lexer_identifier_spec src k :
  cxpr_is_ident_start (char_at k src) = true →
  reads_token src k (cxpr_lexer_identifier (state_at src k)).
Proof.
  intros Hs. assert (Hk : k < strlen src) by by apply (pred_inside cxpr_is_ident_start).
  unfold cxpr_lexer_identifier.
  destruct (lex_while_progress cxpr_is_ident_char src k) as (m & Hm & ->); auto using ident_start_char.
  rewrite !state_at_position.
  destruct (_ && _); apply plain_token_at; try lia; auto using check_keyword_plain.
Qed.

Lemma lex_variable_path_spec fuel src n :
  n ≤ strlen src → from_offset src n (snd (lex_variable_path fuel (state_at src n))).
Proof.
  revert n; induction fuel as [|fuel IH]; intros n Hn; simpl; [by exists n|].
  rewrite char_at0_drop.
  destruct (char_at n src =? ".")%char eqn:E; simpl; [|by exists n].
  apply ascii_eqb_true in E. assert (n < strlen src) by by apply (char_inside _ _ _ E).
  destruct (negb _); [by exists n|].
  rewrite advance_state_at by done.
  destruct (lex_while_from_offset cxpr_is_ident_char src (S n)) as (j & Hj & ->); [lia|].
  destruct (IH j) as (m & Hm & ->); [lia|]. exists m. split; [lia|done].
Qed.

Lemma lexer_variable_spec src k :
  char_at k src = "$"%char → reads_token src k (cxpr_lexer_variable (state_at src k)).
Proof.
  intros Hs. assert (Hk : k < strlen src) by by apply (char_inside _ _ _ Hs).
  unfold cxpr_lexer_variable. rewrite advance_state_at by done.
  destruct (negb _); [apply error_token_at; lia|].
  destruct (lex_while_from_offset cxpr_is_ident_char src (S k)) as (j & Hj & ->); [lia|].
  pose proof (lex_variable_path_spec (S (strlen (lx_current (state_at src j)))) src j) as Hp.
  destruct (lex_variable_path _ _) as [ok lx].
  destruct Hp as (m & Hm & Hlx); [lia|]. simpl in Hlx. subst lx.
  destruct ok; simpl negb; cbn match; [|apply error_token_at; lia].
  exists m. split; [lia|]. split; [done|].
  unfold token_at; simpl. split_and!; auto; lia.
Qed.

Lemma lex_string_body_spec quote fuel src n :
  strlen src - n < fuel → n ≤ strlen src →
  from_offset src n (lex_string_body quote (str_drop n src) (state_at src n)).
Proof.
  revert n; induction fuel as [|fuel IH]; intros n Hf Hn; [lia|].
  destruct (decide (n < strlen src)) as [Hlt|]; [|by rewrite str_drop_end by lia; exists n].
  rewrite (str_drop_cons n) by done. cbn [lex_string_body].
  destruct (_ || _); [by exists n|].
  rewrite advance_state_at by done.
  assert (Hnext : from_offset src n
    (lex_string_body quote (str_drop (S n) src) (state_at src (S n)))).
  { apply from_offset_weaken with (S n); [lia|]. apply IH; lia. }
  destruct (char_at n src =? backslash)%char; [|done].
  destruct (str_drop (S n) src) as [|d s] eqn:Ed; [done|].
  destruct (str_drop_inv d s (S n) src) as (Hlt' & -> & ->); [done|].
  destruct (_ =? NUL)%char; [done|].
  rewrite advance_state_at by done.
  apply from_offset_weaken with (S (S n)); [lia|]. apply IH; lia.
Qed.

Lemma lexer_string_spec src k :
  char_at k src = dquote ∨ char_at k src = squote →
  reads_token src k (cxpr_lexer_string (state_at src k)).
Proof.
  intros Hq. assert (Hq' : char_at k src ≠ NUL) by (destruct Hq as [-> | ->]; done).
  pose proof (char_at_inside _ _ Hq') as Hk.
  unfold cxpr_lexer_string. rewrite advance_state_at by done.
  rewrite !current_state_at, char_at0_drop.
  destruct (lex_string_body_spec (char_at k src) (S (strlen src)) src (S k)) as (m & Hm & ->); [lia..|].
  rewrite current_state_at, char_at0_drop.
  destruct (negb _) eqn:E; [apply error_token_at; lia|].
  apply negb_false_iff, ascii_eqb_true in E.
  assert (m < strlen src) by (apply char_at_inside; by rewrite E).
  rewrite advance_state_at by done.
  exists (S m). split; [lia|]. split; [done|].
  unfold token_at; simpl. split_and!; auto; lia.
Qed.

Lemma single_char_plain c t : single_char_token c = Some t → plain_tag t = true.
Proof. destruct c as [[] [] [] [] [] [] [] []]; simpl; intros [=]; subst; done. Qed.

Lemma double_char_plain c d t1 t2 :
  double_char_token c d = (t1, t2) →
  (∀ t, t1 = Some t → plain_tag t = true ∧ d ≠ NUL) ∧ (∀ t, t2 = Some t → plain_tag t = true).
Proof.
  intros H. destruct c as [[] [] [] [] [] [] [] []]; simpl in H; injection H as <- <-;
    (split; intros t Ht; [|by simplify_eq]); try done;
    repeat match type of Ht with (if ?b then _ else _) = _ => destruct b eqn:? end;
    simplify_eq;
    repeat match goal with E : (_ =? _)%char = true |- _ => apply ascii_eqb_true in E end;
    by subst.
Qed.

Lemma lexer_operator_spec src k :
  char_at k src ≠ NUL → reads_token src k (lexer_operator (state_at src k)).
Proof.
  intros Hc. pose proof (char_at_inside _ _ Hc) as Hk.
  unfold lexer_operator. rewrite advance_state_at by done.
  rewrite !current_state_at, !char_at0_drop, !state_at_position. unfold cxpr_make_token.
  destruct (single_char_token _) as [t|] eqn:E1.
  { replace 1 with (S k - k) at 1 by lia. apply plain_token_at; [|lia]. by eapply single_char_plain. }
  destruct (double_char_token _ _) as [t1 t2] eqn:E2.
  apply double_char_plain in E2 as [H1 H2].
  destruct t1 as [t|].
  { destruct (H1 _ eq_refl) as [Ht Hd]. pose proof (char_at_inside _ _ Hd).
    rewrite advance_state_at by done.
    replace 2 with (S (S k) - k) at 1 by lia. by apply plain_token_at; [|lia]. }
  destruct t2 as [t|]; [|apply error_token_at; lia].
  replace 1 with (S k - k) at 1 by lia. apply plain_token_at; [|lia]. by apply H2.
Qed.

(** One call of [cxpr_lexer_next] from offset [n] that skips to [k] reads a
    token there and leaves the cursor behind it. *)
Lemma lexer_next_at src n k :
  cxpr_lexer_skip_whitespace (state_at src n) = state_at src k → k ≤ strlen src →
  reads_token src k (cxpr_lexer_next (state_at src n)).
Proof.
  intros Hskip Hk. unfold cxpr_lexer_next. rewrite Hskip.
  unfold cxpr_lexer_peek_next. rewrite !current_state_at, char_at0_drop, char_at_drop, Nat.add_1_r.
  destruct (char_at k src =? NUL)%char eqn:ENUL.
  { apply ascii_eqb_true in ENUL. exists k. split; [lia|]. split; [done|].
    unfold token_at; simpl. by split_and!. }
  apply ascii_eqb_false in ENUL.
  destruct (isdigit _ || _) eqn:Enum.
  { apply lexer_number_spec. apply orb_prop in Enum as [|[E%ascii_eqb_true ?]%andb_prop]; auto. }
  destruct (cxpr_is_ident_start _) eqn:Eid; [by apply lexer_identifier_spec|].
  destruct (char_at k src =? "$")%char eqn:Evar; [by apply lexer_variable_spec, ascii_eqb_true|].
  destruct ((char_at k src =? dquote)%char || (char_at k src =? squote)%char) eqn:Estr;
    [|by apply lexer_operator_spec].
  apply lexer_string_spec. apply orb_prop in Estr as [E%ascii_eqb_true|E%ascii_eqb_true]; auto.
Qed.

Lemma lexer_next_spec src n :
  n ≤ strlen src →
  ∃ k, n ≤ k ≤ strlen src ∧ at_token src k ∧
    reads_token src k (cxpr_lexer_next (state_at src n)).
Proof.
  intros Hn. destruct (skip_whitespace_spec src n Hn) as (k & Hskip & Hk & Hat).
  exists k. split; [lia|]. split; [done|]. apply lexer_next_at; [done|lia].
Qed.

Lemma lexer_wf_state_at lx :
  lexer_wf lx ↔ ∃ n, n ≤ strlen (lx_source lx) ∧ lx = state_at (lx_source lx) n.
Proof.
  split; [intros [H1 H2]; eauto|]. intros (n & Hn & E). unfold lexer_wf.
  rewrite E. simpl. auto.
Qed.

Lemma token_at_le src k tok m : token_at src k tok m → k ≤ m.
Proof. unfold token_at. destruct (tok_type tok); lia. Qed.

Lemma token_at_progress src k tok m :
  token_at src k tok m → tok_type tok ≠ CXPR_TOK_EOF → k < m.
Proof. unfold token_at. intros H Ht. destruct (tok_type tok); simpl in *; try done; lia. Qed.

(** ** Streams of tokens *)

Lemma lexer_init_wf src : lexer_wf (cxpr_lexer_init src).
Proof. split; [simpl; lia|]. by destruct src. Qed.

Definition stops_stream (t : cxpr_token_type) : bool :=
  match t with CXPR_TOK_EOF | CXPR_TOK_ERROR => true | _ => false end.

(** Tokens read one after the other: each starts at or after the end of the
    one before, and only the last ends the stream. *)
Fixpoint stream_from (src : string) (n : nat) (toks : list cxpr_token) : Prop :=
  match toks with
  | [] => False
  | tok :: rest =>
      ∃ k m, n ≤ k ≤ m ∧ m ≤ strlen src ∧ at_token src k ∧ token_at src k tok m ∧
        if stops_stream (tok_type tok) then rest = [] else k < m ∧ stream_from src m rest
  end.

Lemma token_stream_S fuel lx :
  token_stream (S fuel) lx =
  let '(tok, lx') := cxpr_lexer_next lx in
  if stops_stream (tok_type tok) then Some [tok] else option_map (cons tok) (token_stream fuel lx').
Proof. simpl. destruct (cxpr_lexer_next lx) as [tok lx']. by destruct (tok_type tok). Qed.

Lemma token_stream_from src fuel n :
  n ≤ strlen src → strlen src - n < fuel →
  ∃ toks, token_stream fuel (state_at src n) = Some toks ∧ stream_from src n toks ∧
    length toks ≤ S (strlen src - n).
Proof.
  revert n; induction fuel as [|fuel IH]; intros n Hn Hf; [lia|].
  rewrite token_stream_S.
  destruct (lexer_next_spec src n Hn) as (k & Hk & Hat & m & Hm & E & Ht).
  destruct (cxpr_lexer_next (state_at src n)) as [tok lx']. simpl in E, Ht. subst lx'.
  pose proof (token_at_le _ _ _ _ Ht).
  destruct (stops_stream (tok_type tok)) eqn:Estop.
  { exists [tok]. split_and!; [done| |simpl; lia].
    exists k, m. rewrite Estop. split_and!; auto; lia. }
  assert (k < m). { eapply token_at_progress; [done|]. intros E. by rewrite E in Estop. }
  destruct (IH m) as (toks & -> & Hs & Hl); [lia..|].
  exists (tok :: toks). split_and!; [done| |simpl; lia].
  exists k, m. rewrite Estop. split_and!; auto; lia.
Qed.

(** Tokenizing terminates: reading tokens from the start of any source
    reaches the end of input or a lexical error within [strlen src + 1] calls,
    every other token consumes at least one character, and the tokens lie in the
    source in order and without overlap. *)
Theorem token_stream_total src :
  ∃ toks, token_stream (S (strlen src)) (cxpr_lexer_init src) = Some toks ∧
    stream_from src 0 toks ∧ length toks ≤ S (strlen src).
Proof.
  replace (cxpr_lexer_init src) with (state_at src 0) by by destruct src.
  destruct (token_stream_from src (S (strlen src)) 0) as (toks & ? & ? & ?); [lia..|].
  exists toks. split_and!; auto. lia.
Qed.

(** ** Literals

    [print_dec] is the decimal text of a non-negative integer, as [printf]
    writes it with [PRId64]. *)
Fixpoint dec_digits (fuel : nat) (z : Z) : string :=
  match fuel with
  | O => EmptyString
  | S fuel' =>
      let d := String (ascii_of_N (Z.to_N (48 + z mod 10))) EmptyString in
      if (z <? 10)%Z then d else String.append (dec_digits fuel' (z / 10)) d
  end.

Definition print_dec (z : Z) : string := dec_digits (S (Z.to_nat (Z.log2 z))) z.

Fixpoint all_chars (p : ascii → bool) (s : string) : bool :=
  match s with
  | EmptyString => true
  | String c s' => p c && all_chars p s'
  end.

Definition dec_value (acc : Z) (s : string) : Z := fst (fst (read_digits s acc 0)).

Lemma all_chars_app p s t :
  all_chars p (String.append s t) = all_chars p s && all_chars p t.
Proof. induction s; simpl; [done|]. by rewrite IHs, andb_assoc. Qed.

Lemma read_digits_count s acc n m : fst (fst (read_digits s acc n)) = fst (fst (read_digits s acc m)).
Proof.
  revert acc n m; induction s as [|c s IH]; intros acc n m; simpl; [done|].
  destruct (is_digit c); [apply IH|done].
Qed.

Lemma dec_value_app acc s t :
  all_chars isdigit s = true → dec_value acc (String.append s t) = dec_value (dec_value acc s) t.
Proof.
  unfold dec_value. revert acc; induction s as [|c s IH]; intros acc; simpl; [done|].
  unfold isdigit. intros [-> Hs]%andb_prop.
  rewrite (read_digits_count _ _ (0 + 1) 0), IH by done.
  by rewrite (read_digits_count s _ (0 + 1) 0).
Qed.

Lemma digit_char z :
  (0 ≤ z)%Z → let c := ascii_of_N (Z.to_N (48 + z mod 10)) in
  isdigit c = true ∧ digit_val c = (z mod 10)%Z.
Proof.
  intros Hz c. pose proof (Z.mod_pos_bound z 10 ltac:(lia)).
  assert (Hc : ascii_code c = (48 + z mod 10)%Z).
  { unfold c, ascii_code. rewrite N_ascii_embedding by lia. lia. }
  unfold isdigit, is_digit, digit_val. rewrite Hc, andb_true_iff, !Z.leb_le. lia.
Qed.

Lemma dec_digits_spec fuel z :
  (0 ≤ z)%Z → (z < 2 ^ Z.of_nat fuel)%Z → fuel ≠ 0 →
  all_chars isdigit (dec_digits fuel z) = true ∧ dec_value 0 (dec_digits fuel z) = z ∧
  0 < strlen (dec_digits fuel z) ∧
  (∀ k : nat, 0 < k → (z < 10 ^ Z.of_nat k)%Z → strlen (dec_digits fuel z) ≤ k).
Proof.
  revert z; induction fuel as [|fuel IH]; intros z Hz Hf Hne; [done|].
  simpl. destruct (digit_char z Hz) as [Hd Hv].
  set (c := ascii_of_N _) in *.
  destruct (z <? 10)%Z eqn:E.
  - apply Z.ltb_lt in E. simpl. rewrite Hd. split_and!; try done; [|lia].
    unfold dec_value; simpl. unfold isdigit in Hd. rewrite Hd, Hv. simpl. apply Z.mod_small. lia.
  - apply Z.ltb_ge in E.
    assert (Hq : (0 ≤ z / 10)%Z) by (apply Z.div_pos; lia).
    assert (Hm : z = (10 * (z / 10) + z mod 10)%Z) by (apply Z.div_mod; lia).
    pose proof (Z.mod_pos_bound z 10 ltac:(lia)).
    rewrite Nat2Z.inj_succ, Z.pow_succ_r in Hf by lia.
    assert (fuel ≠ 0). { intros ->. simpl in Hf. lia. }
    destruct (IH (z / 10)%Z) as (Ha & Hval & Hpos & Hlen); [lia| |done|].
    { lia. }
    rewrite all_chars_app, dec_value_app, Ha, Hval, strlen_append by done. simpl. rewrite Hd.
    split_and!; [done| |lia|].
    + unfold dec_value; simpl. unfold isdigit in Hd. rewrite Hd, Hv. simpl. lia.
    + intros k Hk Hz10. destruct k as [|[|k]]; [lia|simpl in Hz10; lia|].
      rewrite (Nat2Z.inj_succ (S k)), Z.pow_succ_r in Hz10 by lia.
      specialize (Hlen (S k) ltac:(lia)). lia.
Qed.

Lemma print_dec_spec z :
  (0 ≤ z)%Z →
  all_chars isdigit (print_dec z) = true ∧ dec_value 0 (print_dec z) = z ∧
  0 < strlen (print_dec z) ∧
  (∀ k : nat, 0 < k → (z < 10 ^ Z.of_nat k)%Z → strlen (print_dec z) ≤ k).
Proof.
  intros Hz. apply dec_digits_spec; [done| |lia].
  rewrite Nat2Z.inj_succ, Z2Nat.id by apply Z.log2_nonneg.
  destruct (decide (z = 0%Z)) as [->|]; [done|]. apply Z.log2_spec. lia.
Qed.

Lemma char_at_all p s t n :
  all_chars p s = true → n < strlen s → p (char_at n (String.append s t)) = true.
Proof.
  revert n; induction s as [|c s IH]; intros n; simpl; [lia|].
  intros [Hc Hs]%andb_prop Hn. destruct n; simpl; [done|]. apply IH; auto. lia.
Qed.

Lemma char_at_app_r s t n : char_at (strlen s + n) (String.append s t) = char_at n t.
Proof. induction s; simpl; auto. Qed.

Lemma str_take_app s t : str_take (strlen s) (String.append s t) = s.
Proof. induction s; simpl; [by destruct t|]. by f_equal. Qed.

(** A loop stops exactly behind the longest prefix its condition accepts. *)
Lemma lex_while_exact p src n m :
  n ≤ m ≤ strlen src → (∀ i, n ≤ i < m → p (char_at i src) = true) →
  p (char_at m src) = false ∨ m = strlen src →
  lex_while p (state_at src n) = state_at src m.
Proof.
  intros Hnm Hall Hstop.
  destruct (lex_while_state_at p src n) as (k & -> & Hk & Hkall & Hkstop); [lia|].
  f_equal. destruct (Nat.lt_trichotomy k m) as [Hlt|[->|Hgt]]; [|done|].
  - rewrite Hall in Hkstop by lia. discriminate Hkstop. lia.
  - destruct Hstop as [Hstop|]; [|lia]. rewrite Hkall in Hstop by lia. discriminate.
Qed.

Lemma skip_whitespace_token src n :
  n ≤ strlen src → at_token src n →
  cxpr_lexer_skip_whitespace (state_at src n) = state_at src n.
Proof.
  intros Hn (H1 & H2 & H3). unfold cxpr_lexer_skip_whitespace. cbn [skip_whitespace_loop].
  rewrite (lex_while_exact _ _ _ n) by (auto with lia).
  rewrite !current_state_at, !char_at0_drop, !char_at_drop, !Nat.add_1_r.
  rewrite (proj2 (Ascii.eqb_neq _ _) H2).
  destruct (char_at n src =? "/")%char eqn:E; simpl; [|done].
  apply ascii_eqb_true in E. destruct (H3 E) as [Ha Hb].
  by rewrite (proj2 (Ascii.eqb_neq _ _) Ha), (proj2 (Ascii.eqb_neq _ _) Hb).
Qed.

Lemma in_range_neq c lo hi d :
  in_range c lo hi = true → (ascii_code d < lo ∨ hi < ascii_code d)%Z → c ≠ d.
Proof. unfold in_range. intros [H1%Z.leb_le H2%Z.leb_le]%andb_prop Hd ->. lia. Qed.

Lemma isdigit_at_token src n : isdigit (char_at n src) = true → at_token src n.
Proof.
  intros H. change (in_range (char_at n src) 48 57 = true) in H. split_and!.
  - unfold not_nul_space, isspace, in_range in *. apply andb_prop in H as [H1%Z.leb_le H2%Z.leb_le].
    apply andb_false_iff; right. apply orb_false_iff; split; apply andb_false_iff; right; apply Z.leb_gt; lia.
  - apply (in_range_neq _ _ _ _ H). by left.
  - intros E. exfalso. revert E. apply (in_range_neq _ _ _ _ H). by left.
Qed.

(** The token [cxpr_lexer_next] reads from the text of an int64 literal. *)
Definition int64_literal_token (z : Z) : cxpr_token * cxpr_lexer :=
  let src := String.append (print_dec z) "i64" in
  let lx' := state_at src (strlen src) in
  if (z <=? INT64_MAX)%Z
  then (mk_token CXPR_TOK_NUMBER src (strlen src) fzero z true 0 1 1, lx')
  else (cxpr_make_error_token "int64 literal is out of range" lx', lx').

Lemma lexer_number_int64 s :
  all_chars isdigit s = true → 0 < strlen s < number_buf_size →
  let src := String.append s "i64" in
  let lx' := state_at src (strlen src) in
  cxpr_lexer_number (state_at src 0) =
  if (dec_value 0 s <=? INT64_MAX)%Z
  then (mk_token CXPR_TOK_NUMBER src (strlen src) fzero (dec_value 0 s) true 0 1 1, lx')
  else (cxpr_make_error_token "int64 literal is out of range" lx', lx').
Proof.
  intros Hs Hlen src lx'. unfold cxpr_lexer_number, lex_number_integer.
  assert (Hsrc : strlen src = strlen s + 3) by (unfold src; by rewrite strlen_append).
  assert (Hc : ∀ n, char_at (strlen s + n) src = char_at n "i64") by apply char_at_app_r.
  rewrite (lex_while_exact isdigit src 0 (strlen s)); [|lia| |].
  2: { intros i Hi. apply char_at_all; [done|lia]. }
  2: { left. pose proof (Hc 0) as H0. by rewrite Nat.add_0_r in H0; rewrite H0. }
  assert (H0 : char_at (strlen s) src = "i"%char) by (rewrite <- (Nat.add_0_r (strlen s)); apply Hc).
  unfold lex_number_fraction. rewrite current_state_at, char_at0_drop, H0. simpl (_ && _).
  cbv beta iota. unfold lex_number_exponent. rewrite current_state_at, char_at0_drop, H0.
  simpl (_ || _). cbv beta iota. simpl negb. cbv iota.
  rewrite !current_state_at, !char_at_drop, !Hc.
  match goal with |- context [if ?c then cxpr_lexer_advance _ else _] => change c with true end.
  cbv iota. rewrite !advance_state_at by lia. rewrite !state_at_position, !Nat.sub_0_r.
  replace (S (S (S (strlen s)))) with (strlen s + 3) by lia. rewrite Nat.eqb_refl.
  cbn [andb]. rewrite (proj2 (Nat.leb_gt _ _)) by lia.
  replace (str_drop 0 src) with src by by destruct src.
  unfold strtoimax. unfold src at 1. rewrite str_take_app.
  unfold dec_value, lx'. rewrite Hsrc.
  destruct (read_digits s 0 0) as [[v n] rest]. simpl. by destruct (v <=? INT64_MAX)%Z.
Qed.

(** Int64 literals are read exactly: the decimal text of an integer followed
    by [i64] is one token carrying that integer when it fits in 64 bits, and the
    out-of-range error otherwise, for any integer of at most 63 digits (the size
    of the conversion buffer). *)
Theorem int64_literal_roundtrip (z : Z) :
  (0 ≤ z < 10 ^ 63)%Z →
  cxpr_lexer_next (cxpr_lexer_init (String.append (print_dec z) "i64")) = int64_literal_token z.
Proof.
  intros [Hz Hmax]. destruct (print_dec_spec z Hz) as (Hd & Hv & Hpos & Hlen).
  specialize (Hlen 63%nat ltac:(lia) Hmax).
  set (src := String.append _ _).
  replace (cxpr_lexer_init src) with (state_at src 0) by by destruct src.
  assert (Hc : isdigit (char_at 0 src) = true) by by apply char_at_all.
  unfold cxpr_lexer_next. rewrite skip_whitespace_token by (auto using isdigit_at_token with lia).
  rewrite current_state_at, char_at0_drop, Hc.
  destruct (char_at 0 src =? NUL)%char eqn:E; [apply ascii_eqb_true in E; by rewrite E in Hc|].
  cbn [orb]. unfold src. rewrite lexer_number_int64 by (auto; unfold number_buf_size; lia).
  by rewrite Hv.
Qed.

Lemma int64_literal_roundtrip_witness :
  cxpr_lexer_next (cxpr_lexer_init "9223372036854775807i64") = int64_literal_token INT64_MAX ∧
  cxpr_lexer_next (cxpr_lexer_init "9223372036854775808i64") = int64_literal_token (INT64_MAX + 1).
Proof.
  split.
  - exact (int64_literal_roundtrip 9223372036854775807 ltac:(lia)).
  - exact (int64_literal_roundtrip 9223372036854775808 ltac:(lia)).
Defined.
