(* ===== verification/LexerSpec.v ===== *)
(** * LexerSpec: the lexical grammar, and the tokenizer against it

    The grammar of blanks, comments and tokens is given by relations on offsets
    of the source that do not mention the functions of [Lexer.v]; the theorem
    says that one call of [cxpr_lexer_next] skips exactly the blanks and comments
    in front of the cursor and reads exactly the token, or reports exactly the
    error, that the grammar gives there. *)

From Stdlib Require Import Ascii String ZArith Lia.
From stdpp Require Import base list strings.
From S2P Require Import Prelude Float64 Types Lexer.

(** ** Grammar *)

(** The longest run of characters of a class from [i] on ends at [j]. *)
Definition maximal (p : ascii → bool) (src : string) (i j : nat) : Prop :=
  i ≤ j ∧ (∀ x, i ≤ x < j → p (char_at x src) = true) ∧ p (char_at j src) = false.

(** The text of the source between two offsets. *)
Definition text_of (src : string) (i j : nat) : string := str_take (j - i) (str_drop i src).

(** The string stands at the offset. *)
Definition stands_at (src : string) (k : nat) (t : string) : Prop :=
  ∀ i, i < strlen t → char_at (k + i) src = char_at i t.

Definition line_comment (src : string) (n : nat) : Prop := stands_at src n "#" ∨ stands_at src n "//".

(** A block comment whose text starts at [i] ends at [e]: behind the first end
    marker, or where the source ends. *)
Definition block_end (src : string) (i e : nat) : Prop :=
  ∃ x, i ≤ x ∧ (∀ y, i ≤ y < x → char_at y src ≠ NUL ∧ ¬ stands_at src y "*/") ∧
    (stands_at src x "*/" ∧ e = x + 2 ∨ char_at x src = NUL ∧ e = x).

(** Nothing but blanks and whole comments lies between two offsets. *)
Inductive skipped (src : string) : nat → nat → Prop :=
  | skipped_nothing n : skipped src n n
  | skipped_blank n m : isspace (char_at n src) = true → skipped src (S n) m → skipped src n m
  | skipped_line n e m :
      line_comment src n → maximal not_nul_newline src n e → skipped src e m → skipped src n m
  | skipped_block n e m : stands_at src n "/*" → block_end src (n + 2) e → skipped src e m → skipped src n m.

Definition number_start (src : string) (k : nat) : Prop :=
  isdigit (char_at k src) = true ∨ char_at k src = "."%char ∧ isdigit (char_at (S k) src) = true.

Definition fraction (src : string) (i : nat) (present : bool) (j : nat) : Prop :=
  if present then char_at i src = "."%char ∧ isdigit (char_at (S i) src) = true ∧ maximal isdigit src (S i) j
  else j = i ∧ ¬ (char_at i src = "."%char ∧ isdigit (char_at (S i) src) = true).

Definition exponent_mark (src : string) (j : nat) : Prop := char_at j src = "e"%char ∨ char_at j src = "E"%char.
Definition is_sign (c : ascii) : bool := (c =? "+")%char || (c =? "-")%char.
(** Where the digits of an exponent start. *)
Definition exponent_digits (src : string) (j : nat) : nat := if is_sign (char_at (S j) src) then j + 2 else j + 1.

Definition exponent (src : string) (j : nat) (present : bool) (m : nat) : Prop :=
  if present then exponent_mark src j ∧ isdigit (char_at (exponent_digits src j) src) = true ∧
                  maximal isdigit src (exponent_digits src j) m
  else m = j ∧ ¬ exponent_mark src j.

(** Digits, a fraction and an exponent from [k] to [m]; [integer] when neither of
    the latter is there. *)
Definition numeral (src : string) (k : nat) (integer : bool) (m : nat) : Prop :=
  ∃ i j f x, maximal isdigit src k i ∧ fraction src i f j ∧ exponent src j x m ∧ integer = negb f && negb x.

Definition int64_suffix (src : string) (m : nat) : Prop :=
  stands_at src m "i64" ∧ cxpr_is_ident_char (char_at (m + 3) src) = false.

(** A dotted path of names, and one that has a dot without a name behind it. *)
Inductive name_path (src : string) : nat → nat → Prop :=
  | path_name i m : cxpr_is_ident_start (char_at i src) = true → maximal cxpr_is_ident_char src i m →
      char_at m src ≠ "."%char → name_path src i m
  | path_dot i j m : cxpr_is_ident_start (char_at i src) = true → maximal cxpr_is_ident_char src i j →
      char_at j src = "."%char → name_path src (S j) m → name_path src i m.
Inductive broken_path (src : string) : nat → nat → Prop :=
  | broken_here i j : cxpr_is_ident_start (char_at i src) = true → maximal cxpr_is_ident_char src i j →
      char_at j src = "."%char → cxpr_is_ident_start (char_at (S j) src) = false → broken_path src i j
  | broken_later i j m : cxpr_is_ident_start (char_at i src) = true → maximal cxpr_is_ident_char src i j →
      char_at j src = "."%char → broken_path src (S j) m → broken_path src i m.

(** The text of a string literal from [i] on ends at [e]: at the quote or the end
    of the source; a backslash takes the next character with it. *)
Inductive string_text (src : string) (quote : ascii) : nat → nat → Prop :=
  | string_end e : char_at e src = NUL ∨ char_at e src = quote → string_text src quote e e
  | string_escape i e : char_at i src = backslash → char_at i src ≠ quote → char_at (S i) src ≠ NUL →
      string_text src quote (S (S i)) e → string_text src quote i e
  | string_char i e : char_at i src ≠ NUL → char_at i src ≠ quote →
      char_at i src ≠ backslash ∨ char_at (S i) src = NUL →
      string_text src quote (S i) e → string_text src quote i e.

Definition operators : list (string * cxpr_token_type) :=
  [ ("+", CXPR_TOK_PLUS); ("-", CXPR_TOK_MINUS); ("*", CXPR_TOK_STAR); ("/", CXPR_TOK_SLASH);
    ("%", CXPR_TOK_PERCENT); ("^", CXPR_TOK_POWER); ("**", CXPR_TOK_POWER); ("==", CXPR_TOK_EQ);
    ("!=", CXPR_TOK_NEQ); ("<", CXPR_TOK_LT); ("<=", CXPR_TOK_LTE); (">", CXPR_TOK_GT);
    (">=", CXPR_TOK_GTE); ("&&", CXPR_TOK_AND); ("||", CXPR_TOK_OR); ("!", CXPR_TOK_NOT);
    ("|>", CXPR_TOK_PIPE); ("=", CXPR_TOK_ASSIGN); ("(", CXPR_TOK_LPAREN); (")", CXPR_TOK_RPAREN);
    ("[", CXPR_TOK_LBRACKET); ("]", CXPR_TOK_RBRACKET); ("{", CXPR_TOK_LBRACE); ("}", CXPR_TOK_RBRACE);
    (",", CXPR_TOK_COMMA); (".", CXPR_TOK_DOT); (":", CXPR_TOK_COLON); ("?", CXPR_TOK_QUESTION) ]%string.

(** The longest operator at the offset. *)
Definition operator_at (src : string) (k : nat) (op : string) (t : cxpr_token_type) : Prop :=
  In (op, t) operators ∧ stands_at src k op ∧
  ∀ op' t', In (op', t') operators → stands_at src k op' → strlen op' ≤ strlen op.

(** Neither a number, a word, a parameter nor a string starts at the offset. *)
Definition symbol_start (src : string) (k : nat) : Prop :=
  char_at k src ≠ NUL ∧ ¬ number_start src k ∧ cxpr_is_ident_start (char_at k src) = false ∧
  char_at k src ≠ "$"%char ∧ char_at k src ≠ dquote ∧ char_at k src ≠ squote.

Definition null_word (t : string) : Prop := t = "null"%string ∨ t = "NULL"%string ∨ t = "Null"%string.
Definition word_type (t : string) (ty : cxpr_token_type) : Prop :=
  In (t, ty) cxpr_keywords ∨ ty = CXPR_TOK_IDENTIFIER ∧ ∀ ty', ¬ In (t, ty') cxpr_keywords.

Definition is_quote (c : ascii) : Prop := c = dquote ∨ c = squote.

(** The token at offset [k], up to [m]: its kind and its value. *)
Inductive described (src : string) (k : nat) (tok : cxpr_token) : nat → Prop :=
  | is_end : char_at k src = NUL → tok_type tok = CXPR_TOK_EOF → described src k tok k
  | is_real integer m : number_start src k → numeral src k integer m → ¬ (integer = true ∧ int64_suffix src m) →
      tok_type tok = CXPR_TOK_NUMBER → tok_is_int64 tok = false →
      tok_number_value tok = strtod (str_take (number_buf_size - 1) (text_of src k m)) → described src k tok m
  | is_int64 m v : number_start src k → numeral src k true m → int64_suffix src m → m - k < number_buf_size →
      strtoimax (text_of src k m) = Some v → tok_type tok = CXPR_TOK_NUMBER → tok_is_int64 tok = true →
      tok_int64_value tok = v → described src k tok (m + 3)
  | is_null m : maximal cxpr_is_ident_char src k m → null_word (text_of src k m) →
      tok_type tok = CXPR_TOK_NUMBER → tok_is_int64 tok = false → tok_number_value tok = fnan → described src k tok m
  | is_word m : cxpr_is_ident_start (char_at k src) = true → maximal cxpr_is_ident_char src k m →
      ¬ null_word (text_of src k m) → word_type (text_of src k m) (tok_type tok) → described src k tok m
  | is_parameter m : char_at k src = "$"%char → name_path src (S k) m → tok_type tok = CXPR_TOK_VARIABLE →
      described src k tok m
  | is_string e : is_quote (char_at k src) → string_text src (char_at k src) (S k) e →
      char_at e src = char_at k src → tok_type tok = CXPR_TOK_STRING → described src k tok (S e)
  | is_operator op : symbol_start src k → operator_at src k op (tok_type tok) → described src k tok (k + strlen op).

(** The lexical error at offset [k], found at [m]. *)
Inductive misspelt (src : string) (k : nat) : string → nat → Prop :=
  | bad_exponent i j f : number_start src k → maximal isdigit src k i → fraction src i f j → exponent_mark src j →
      isdigit (char_at (exponent_digits src j) src) = false →
      misspelt src k "Invalid scientific notation" (exponent_digits src j)
  | long_int64 m : number_start src k → numeral src k true m → int64_suffix src m → number_buf_size ≤ m - k →
      misspelt src k "int64 literal is too long" (m + 3)
  | big_int64 m : number_start src k → numeral src k true m → int64_suffix src m → m - k < number_buf_size →
      strtoimax (text_of src k m) = None → misspelt src k "int64 literal is out of range" (m + 3)
  | bare_dollar : char_at k src = "$"%char → cxpr_is_ident_start (char_at (S k) src) = false →
      misspelt src k "Expected identifier after '$'" (S k)
  | bad_path m : char_at k src = "$"%char → broken_path src (S k) m →
      misspelt src k "Expected identifier after '.' in variable" m
  | open_string e : is_quote (char_at k src) → string_text src (char_at k src) (S k) e → char_at e src = NUL →
      misspelt src k "Unterminated string literal" e
  | no_operator : symbol_start src k → (∀ op t, In (op, t) operators → ¬ stands_at src k op) →
      misspelt src k "Unexpected character" (S k).

(** The token, or the error token with its message. *)
Definition lexed (src : string) (k : nat) (tok : cxpr_token) (m : nat) : Prop :=
  if decide (tok_type tok = CXPR_TOK_ERROR) then misspelt src k (tok_start tok) m else described src k tok m.

(** ** Blanks and comments *)

Lemma lex_while_maximal p src n :
  p NUL = false → n ≤ strlen src →
  ∃ m, lex_while p (state_at src n) = state_at src m ∧ m ≤ strlen src ∧ maximal p src n m.
Proof.
  intros Hp Hn. destruct (lex_while_state_at p src n Hn) as (m & E & Hm & Hall & Hstop).
  exists m. split_and!; [done|lia|]. split; [lia|]. split; [done|].
  destruct (decide (m < strlen src)); [auto|]. by rewrite char_at_end by lia.
Qed.

Lemma stands_at_1 src n c : stands_at src n (String c "") ↔ char_at n src = c.
Proof.
  split; [intros H; specialize (H 0 ltac:(simpl; lia)); by rewrite Nat.add_0_r in H|].
  intros H [|i] Hi; [by rewrite Nat.add_0_r|simpl in Hi; lia].
Qed.

Lemma stands_at_2 src n c d :
  stands_at src n (String c (String d "")) ↔ char_at n src = c ∧ char_at (S n) src = d.
Proof.
  split.
  - intros H. pose proof (H 0 ltac:(simpl; lia)) as H0. pose proof (H 1 ltac:(simpl; lia)) as H1.
    rewrite Nat.add_0_r in H0. rewrite Nat.add_1_r in H1. done.
  - intros [Hc Hd] [|[|i]] Hi; [by rewrite Nat.add_0_r|by rewrite Nat.add_1_r|simpl in Hi; lia].
Qed.

Lemma block_comment_spec src n :
  n ≤ strlen src →
  ∃ e, lex_block_comment (state_at src n) = state_at src e ∧ n ≤ e ≤ strlen src ∧ block_end src n e.
Proof.
  unfold lex_block_comment; rewrite current_state_at.
  remember (str_drop n src) as s eqn:Hs. revert n Hs.
  induction s as [|c s IH]; intros n Hs Hn; simpl.
  { exists n. split_and!; [done|lia|lia|]. exists n. split_and!; [lia|lia|]. right. split; [|done].
    apply char_at_end. destruct (decide (n < strlen src)); [|lia]. by rewrite str_drop_cons in Hs. }
  destruct (str_drop_inv _ _ _ _ Hs) as (Hlt & -> & Hs').
  destruct (char_at n src =? NUL)%char eqn:EN.
  { apply ascii_eqb_true in EN. exists n. split_and!; [done|lia|lia|]. exists n. split_and!; [lia|lia|]. by right. }
  apply ascii_eqb_false in EN. rewrite advance_state_at by done. rewrite Hs', char_at0_drop.
  destruct ((char_at n src =? "*")%char && (char_at (S n) src =? "/")%char) eqn:E.
  - apply andb_prop in E as [E1%ascii_eqb_true E2%ascii_eqb_true].
    assert (S n < strlen src) by (apply char_at_inside; by rewrite E2). rewrite advance_state_at by done.
    exists (n + 2). split_and!; [f_equal; lia|lia|lia|]. exists n. split_and!; [lia|lia|]. left. by rewrite stands_at_2.
  - rewrite <- Hs'. destruct (IH (S n) Hs' ltac:(lia)) as (e & -> & He & x & Hx & Hbefore & Hend).
    exists e. split_and!; [done|lia|lia|]. exists x. split_and!; [lia| |done]. intros y Hy.
    destruct (decide (y = n)) as [->|]; [|apply Hbefore; lia]. split; [done|]. rewrite stands_at_2.
    intros [H1 H2]. by rewrite H1, H2 in E.
Qed.

Lemma skipped_trans src n m k : skipped src n m → skipped src m k → skipped src n k.
Proof. induction 1; intros; [done|eauto using skipped..]. Qed.

Lemma blanks_skipped src n m : maximal not_nul_space src n m → skipped src n m.
Proof.
  intros (Hle & Hall & _). induction Hle as [|m Hle IH]; [constructor|].
  apply (skipped_trans _ _ m); [apply IH; intros; apply Hall; lia|].
  apply skipped_blank; [|constructor]. specialize (Hall m ltac:(lia)). by apply andb_prop in Hall as [_ ?].
Qed.

Lemma skip_loop_skips fuel src n :
  n ≤ strlen src → strlen src - n < fuel →
  ∃ m, skip_whitespace_loop fuel (state_at src n) = state_at src m ∧ n ≤ m ≤ strlen src ∧ at_token src m ∧ skipped src n m.
Proof.
  revert n; induction fuel as [|fuel IH]; intros n Hn Hf; [lia|]. cbn [skip_whitespace_loop].
  destruct (lex_while_maximal not_nul_space src n eq_refl Hn) as (k & -> & Hk & Hmax).
  pose proof (blanks_skipped _ _ _ Hmax) as Hblank. destruct Hmax as (Hle & _ & Hsp).
  rewrite current_state_at, char_at0_drop, char_at_drop, Nat.add_1_r.
  assert (Hgo : ∀ e, k < e ≤ strlen src → (∀ m, skipped src e m → skipped src k m) →
    ∃ m, skip_whitespace_loop fuel (state_at src e) = state_at src m ∧ n ≤ m ≤ strlen src ∧ at_token src m ∧ skipped src n m).
  { intros e He Hstep. destruct (IH e) as (m & -> & ? & ? & ?); [lia..|]. exists m. split_and!; try done; try lia.
    apply (skipped_trans _ _ k); auto. }
  assert (Hline : line_comment src k → k < strlen src → not_nul_newline (char_at k src) = true →
    ∃ m, skip_whitespace_loop fuel (lex_while not_nul_newline (state_at src k)) = state_at src m ∧
      n ≤ m ≤ strlen src ∧ at_token src m ∧ skipped src n m).
  { intros Hc Hlt Hnl. destruct (lex_while_maximal not_nul_newline src k eq_refl Hk) as (e & -> & He & Hmax).
    apply Hgo; [|by intros; eapply skipped_line]. split; [|done]. destruct Hmax as (? & _ & Hstop).
    destruct (decide (e = k)) as [->|]; [congruence|lia]. }
  destruct (char_at k src =? "#")%char eqn:Ehash.
  { apply ascii_eqb_true in Ehash. apply Hline; [left; by apply stands_at_1|by apply (char_inside _ _ _ Ehash)|by rewrite Ehash]. }
  destruct ((char_at k src =? "/")%char && (char_at (S k) src =? "/")%char) eqn:Eline.
  { apply andb_prop in Eline as [E1%ascii_eqb_true E2%ascii_eqb_true].
    apply Hline; [right; by apply stands_at_2|by apply (char_inside _ _ _ E1)|by rewrite E1]. }
  destruct ((char_at k src =? "/")%char && (char_at (S k) src =? "*")%char) eqn:Eblock.
  { apply andb_prop in Eblock as [E1%ascii_eqb_true E2%ascii_eqb_true].
    assert (S k < strlen src) by by apply (char_inside _ _ _ E2). rewrite !advance_state_at by lia.
    destruct (block_comment_spec src (S (S k))) as (e & -> & He & Hend); [lia|]. apply Hgo; [lia|].
    intros m. apply skipped_block; [by apply stands_at_2|]. by replace (k + 2) with (S (S k)) by lia. }
  exists k. split_and!; [done|lia|lia| |done]. split; [done|]. split; [by apply ascii_eqb_false|].
  intros H. rewrite H in Eline, Eblock. simpl in Eline, Eblock. split; by apply ascii_eqb_false.
Qed.

Lemma skip_skips src n :
  n ≤ strlen src →
  ∃ m, cxpr_lexer_skip_whitespace (state_at src n) = state_at src m ∧ n ≤ m ≤ strlen src ∧ at_token src m ∧ skipped src n m.
Proof. intros H. apply skip_loop_skips; auto. rewrite current_state_at, strlen_drop. lia. Qed.

Lemma maximal_unique p src n e e' : maximal p src n e → maximal p src n e' → e = e'.
Proof.
  intros (Hle & Hall & Hstop) (Hle' & Hall' & Hstop').
  destruct (Nat.lt_trichotomy e e') as [H|[->|H]]; [|done|].
  - by rewrite Hall' in Hstop by lia.
  - by rewrite Hall in Hstop' by lia.
Qed.

Lemma block_end_unique src i e e' : block_end src i e → block_end src i e' → e = e'.
Proof.
  intros (x & Hx & Hb & He) (x' & Hx' & Hb' & He').
  assert (Hlt : ∀ a b ea eb, i ≤ a → a < b → (∀ y, i ≤ y < b → char_at y src ≠ NUL ∧ ¬ stands_at src y "*/") →
    (stands_at src a "*/" ∧ ea = a + 2 ∨ char_at a src = NUL ∧ ea = a) → ea = eb).
  { intros a b ea eb Ha Hab Hbefore Hend. destruct (Hbefore a ltac:(lia)). destruct Hend as [[? _]|[? _]]; done. }
  destruct (Nat.lt_trichotomy x x') as [H|[->|H]]; [by eapply (Hlt x x')| |symmetry; by eapply (Hlt x' x)].
  destruct He as [[Hs ->]|[Hn ->]], He' as [[Hs' ->]|[Hn' ->]]; try done.
  - apply stands_at_2 in Hs as [E _]. by rewrite Hn' in E.
  - apply stands_at_2 in Hs' as [E _]. by rewrite Hn in E.
Qed.

Lemma at_token_stays src n m : at_token src n → skipped src n m → m = n.
Proof.
  intros (Hsp & Hhash & Hslash) Hs. destruct Hs as [|n m Hblank _|n e m Hc _ _|n e m Hc _ _]; [done|exfalso..].
  - unfold not_nul_space in Hsp. rewrite Hblank, andb_true_r in Hsp. apply negb_false_iff, ascii_eqb_true in Hsp. by rewrite Hsp in Hblank.
  - destruct Hc as [Hc%stands_at_1|[H1 H2]%stands_at_2]; [done|]. by destruct (Hslash H1).
  - apply stands_at_2 in Hc as [H1 H2]. by destruct (Hslash H1).
Qed.

(** The first offset behind blanks and comments is determined by the source. *)
Lemma skipped_unique src n k k' :
  skipped src n k → at_token src k → skipped src n k' → at_token src k' → k = k'.
Proof.
  intros Hs Hk. revert k'. induction Hs as [n|n m Hblank Hs IH|n e m Hc Hmax Hs IH|n e m Hc Hend Hs IH]; intros k' Hs' Hk'.
  - symmetry. by apply (at_token_stays src).
  - inversion Hs' as [|? ? _ Hs2|? ? ? Hc|? ? ? Hc]; subst; [|by apply IH|exfalso..].
    + by eapply at_token_stays; [|by eapply skipped_blank].
    + destruct Hc as [Hc%stands_at_1|[Hc _]%stands_at_2]; by rewrite Hc in Hblank.
    + apply stands_at_2 in Hc as [Hc _]. by rewrite Hc in Hblank.
  - inversion Hs' as [|? ? Hblank|? e' ? _ Hmax' Hs2|? ? ? Hc' ? ?]; subst.
    + by eapply at_token_stays; [|by eapply skipped_line].
    + exfalso. destruct Hc as [Hc%stands_at_1|[Hc _]%stands_at_2]; by rewrite Hc in Hblank.
    + rewrite (maximal_unique _ _ _ _ _ Hmax Hmax') in IH. by apply IH.
    + exfalso. apply stands_at_2 in Hc' as [H1 H2]. destruct Hc as [Hc%stands_at_1|[_ Hc]%stands_at_2]; congruence.
  - inversion Hs' as [|? ? Hblank|? ? ? Hc' ? ?|? e' ? _ Hend' Hs2]; subst.
    + by eapply at_token_stays; [|by eapply skipped_block].
    + exfalso. apply stands_at_2 in Hc as [Hc _]. by rewrite Hc in Hblank.
    + exfalso. apply stands_at_2 in Hc as [H1 H2]. destruct Hc' as [Hc%stands_at_1|[_ Hc]%stands_at_2]; congruence.
    + rewrite (block_end_unique _ _ _ _ Hend Hend') in IH. by apply IH.
Qed.

(** ** Tokens *)

Definition lexes (src : string) (k : nat) (r : cxpr_token * cxpr_lexer) : Prop :=
  ∃ m, snd r = state_at src m ∧ lexed src k (fst r) m.

Lemma lexes_token src k tok m :
  tok_type tok ≠ CXPR_TOK_ERROR → described src k tok m → lexes src k (tok, state_at src m).
Proof. intros Hne Hd. exists m. split; [done|]. unfold lexed. cbn [fst]. by rewrite decide_False. Qed.

Lemma lexes_error src k msg m :
  misspelt src k msg m → lexes src k (cxpr_make_error_token msg (state_at src m), state_at src m).
Proof. intros Hd. exists m. split; [done|]. unfold lexed. cbn [fst cxpr_make_error_token tok_type tok_start]. by rewrite decide_True. Qed.

Lemma fraction_spec src i :
  i ≤ strlen src →
  ∃ f j, lex_number_fraction (state_at src i) = (negb f, state_at src j) ∧ j ≤ strlen src ∧ i ≤ j ∧ fraction src i f j.
Proof.
  intros Hi. unfold lex_number_fraction. rewrite current_state_at, char_at0_drop, char_at_drop, Nat.add_1_r.
  destruct (_ && _) eqn:E.
  - apply andb_prop in E as [E1%ascii_eqb_true E2]. assert (i < strlen src) by by apply (char_inside _ _ _ E1).
    rewrite advance_state_at by done.
    destruct (lex_while_maximal isdigit src (S i) eq_refl) as (j & -> & Hj & Hmax); [lia|].
    exists true, j. split_and!; try done. destruct Hmax. lia.
  - exists false, i. split_and!; try done. split; [done|]. intros [E1 E2]. by rewrite E1, E2 in E.
Qed.

Lemma sign_spec src j :
  j < strlen src →
  (if (char_at (S j) src =? "+")%char || (char_at (S j) src =? "-")%char
   then cxpr_lexer_advance (state_at src (S j)) else state_at src (S j)) = state_at src (exponent_digits src j) ∧
  exponent_digits src j ≤ strlen src.
Proof.
  intros Hj. unfold exponent_digits, is_sign. destruct (_ || _) eqn:E.
  - assert (S j < strlen src) by (apply char_at_inside; intros H; by rewrite H in E).
    rewrite advance_state_at by done. split; [f_equal; lia|lia].
  - split; [f_equal; lia|lia].
Qed.

Lemma exponent_spec b src j :
  j ≤ strlen src →
  (∃ x m, lex_number_exponent b (state_at src j) = ((true, b && negb x), state_at src m) ∧ j ≤ m ≤ strlen src ∧ exponent src j x m) ∨
  (exponent_mark src j ∧ isdigit (char_at (exponent_digits src j) src) = false ∧
   lex_number_exponent b (state_at src j) = ((false, false), state_at src (exponent_digits src j))).
Proof.
  intros Hj. unfold lex_number_exponent. rewrite current_state_at, char_at0_drop. destruct (_ || _) eqn:E; cycle 1.
  { left. exists false, j. rewrite andb_true_r. split_and!; try done. split; [done|].
    intros [H|H]; by rewrite H in E. }
  assert (Hmark : exponent_mark src j).
  { apply orb_prop in E as [H%ascii_eqb_true|H%ascii_eqb_true]; [by left|by right]. }
  assert (Hlt : j < strlen src) by (destruct Hmark as [H|H]; by apply (char_inside _ _ _ H)).
  rewrite advance_state_at by done. rewrite current_state_at, char_at0_drop.
  destruct (sign_spec src j Hlt) as [-> Hd]. rewrite current_state_at, char_at0_drop.
  destruct (isdigit _) eqn:Edig; cbn [negb]; [|by right]. left.
  destruct (lex_while_maximal isdigit src (exponent_digits src j) eq_refl Hd) as (m & -> & Hm & Hmax).
  exists true, m. rewrite andb_false_r. split_and!; try done. destruct Hmax as [Hle _].
  unfold exponent_digits in Hle. destruct (is_sign _); lia.
Qed.

Lemma suffix_spec src m :
  (char_at 0 (str_drop m src) =? "i")%char && (char_at 1 (str_drop m src) =? "6")%char
    && (char_at 2 (str_drop m src) =? "4")%char && negb (isalnum (char_at 3 (str_drop m src)))
    && negb (char_at 3 (str_drop m src) =? "_")%char = true ↔ int64_suffix src m.
Proof.
  rewrite !char_at_drop, !andb_true_iff, !negb_true_iff, !Ascii.eqb_eq, Nat.add_0_r. unfold int64_suffix, cxpr_is_ident_char.
  rewrite orb_false_iff. split.
  - intros ((((H0 & H1) & H2) & H3) & H4). split; [|done]. intros [|[|[|i]]] Hi; [by rewrite Nat.add_0_r|done|done|simpl in Hi; lia].
  - intros [Hs [H3 H4]]. pose proof (Hs 0 ltac:(simpl; lia)) as H0. rewrite Nat.add_0_r in H0.
    split_and!; try done; [apply (Hs 1)|apply (Hs 2)]; simpl; lia.
Qed.

Lemma str_take_take n m s : str_take n (str_take m s) = str_take (Nat.min n m) s.
Proof. revert m s. induction n as [|n IH]; intros [|m] [|c s]; simpl; try done. by rewrite IH. Qed.

Lemma truncated_text src k m :
  m ≤ strlen src →
  str_take (if (number_buf_size <=? m - k)%nat then number_buf_size - 1 else m - k) (str_drop k src) =
  str_take (number_buf_size - 1) (text_of src k m).
Proof.
  intros Hm. unfold text_of. rewrite str_take_take. f_equal. unfold number_buf_size.
  destruct (Nat.leb_spec 64 (m - k)); lia.
Qed.

Lemma number_lexes src k :
  number_start src k → lexes src k (cxpr_lexer_number (state_at src k)).
Proof.
  intros Hstart. unfold cxpr_lexer_number, lex_number_integer.
  assert (Hk : k < strlen src).
  { destruct Hstart as [H|[H _]]; [by apply (pred_inside isdigit)|by apply (char_inside _ _ _ H)]. }
  destruct (lex_while_maximal isdigit src k eq_refl) as (i & -> & Hi & Hint); [lia|].
  destruct (fraction_spec src i Hi) as (f & j & -> & Hj & Hij & Hf).
  destruct (exponent_spec (negb f) src j Hj) as [(x & m & -> & Hm & Hx)|(Hmark & Hnd & ->)]; cbn [negb];
    [|by apply lexes_error, (bad_exponent _ _ i j f)].
  set (integer := negb f && negb x). assert (Hnum : numeral src k integer m) by (by exists i, j, f, x).
  rewrite !state_at_position, !current_state_at.
  set (suffix := integer && _ && _ && _ && _ && _).
  assert (Hsuf : suffix = true ↔ integer = true ∧ int64_suffix src m).
  { unfold suffix. rewrite <- suffix_spec, <- !andb_assoc, andb_true_iff. done. }
  assert (Hkm : k ≤ m) by (destruct Hint; lia).
  destruct suffix eqn:Es.
  - destruct (proj1 Hsuf eq_refl) as [Hinteger Hs]. rewrite Hinteger in *. cbn [andb].
    assert (m + 2 < strlen src). { apply (char_inside "4"); [|done]. destruct Hs as [Hs _]. apply (Hs 2). simpl; lia. }
    rewrite !advance_state_at by lia. rewrite !state_at_position.
    replace (S (S (S m))) with (m + 3) by lia. replace (m + 3 - k =? m - k + 3)%nat with true by (symmetry; apply Nat.eqb_eq; lia).
    destruct (Nat.leb_spec number_buf_size (m - k)) as [Hb|Hb]; [by apply lexes_error, (long_int64 _ _ m)|].
    fold (text_of src k m). destruct (strtoimax (text_of src k m)) as [v|] eqn:Ev; [|by apply lexes_error, big_int64].
    apply lexes_token; [done|]. by eapply is_int64.
  - rewrite !state_at_position. replace (m - k =? m - k + 3)%nat with false by (symmetry; apply Nat.eqb_neq; lia).
    rewrite andb_false_r, truncated_text by lia. apply lexes_token; [done|]. eapply is_real; try done.
    intros Hb. by apply Hsuf in Hb.
Qed.

Lemma keyword_scan_word kws t len :
  (∀ kw ty, In (kw, ty) kws → 0 < strlen kw) → len ≤ strlen t →
  In (str_take len t, keyword_scan kws t len) kws ∨
  keyword_scan kws t len = CXPR_TOK_IDENTIFIER ∧ ∀ ty, ¬ In (str_take len t, ty) kws.
Proof.
  intros Hpos Hlen. induction kws as [|[kw ty] kws IH]; [right; split; [done|by intros ty []]|]. cbn [keyword_scan].
  destruct (_ && _) eqn:E.
  { apply andb_prop in E as [_ E%String.eqb_eq]. left. left. by rewrite E. }
  destruct IH as [Hin|[-> Hno]]; [by intros; eapply Hpos; right|left; by right|]. right. split; [done|].
  intros ty' [[= Hkw Hty]|Hin]; [|by apply (Hno ty')]. rewrite <- Hkw, String.eqb_refl, andb_true_r in E.
  apply Nat.eqb_neq in E. rewrite Hkw, strlen_take in E. lia.
Qed.

Lemma identifier_lexes src k :
  cxpr_is_ident_start (char_at k src) = true → lexes src k (cxpr_lexer_identifier (state_at src k)).
Proof.
  intros Hs. assert (Hk : k < strlen src) by by apply (pred_inside cxpr_is_ident_start).
  unfold cxpr_lexer_identifier. destruct (lex_while_maximal cxpr_is_ident_char src k eq_refl) as (m & -> & Hm & Hmax); [lia|].
  rewrite !state_at_position, current_state_at. destruct Hmax as [Hle Hmax].
  assert (Hlen : strlen (text_of src k m) = m - k) by (unfold text_of; rewrite strlen_take, strlen_drop; lia).
  destruct (_ && _) eqn:E.
  - apply andb_prop in E as [E%Nat.eqb_eq Hnull]. apply lexes_token; [done|]. eapply is_null; try done.
    unfold null_word, text_of. rewrite E. rewrite !orb_true_iff, !String.eqb_eq in Hnull. tauto.
  - assert (Hword : word_type (text_of src k m) (cxpr_check_keyword (str_drop k src) (m - k))).
    { apply keyword_scan_word; [|rewrite strlen_drop; lia]. intros kw ty Hin. repeat destruct Hin as [[= <- _]|Hin]; try (simpl; lia). done. }
    apply lexes_token.
    { pose proof (check_keyword_plain (str_drop k src) (m - k)) as Hp. cbn [cxpr_make_token tok_type]. intros He. by rewrite He in Hp. }
    apply is_word; try done. intros Hnull. unfold null_word in Hnull.
    assert (E4 : m - k = 4) by (rewrite <- Hlen; destruct Hnull as [->|[->| ->]]; done).
    unfold text_of in Hnull. rewrite E4 in *. cbn [Nat.eqb andb] in E. rewrite !orb_false_iff, !String.eqb_neq in E. tauto.
Qed.

(** The dotted tail of a parameter, behind a name from [i] to [j]. *)
Lemma variable_path_spec fuel src i j :
  strlen src - j < fuel → j ≤ strlen src →
  cxpr_is_ident_start (char_at i src) = true → maximal cxpr_is_ident_char src i j →
  ∃ ok m, lex_variable_path fuel (state_at src j) = (ok, state_at src m) ∧
    (if ok : bool then name_path src i m else broken_path src i m).
Proof.
  revert i j. induction fuel as [|fuel IH]; intros i j Hf Hj Hi Hmax; [lia|]. cbn [lex_variable_path].
  unfold cxpr_lexer_peek_next. rewrite !current_state_at, !char_at0_drop, !char_at_drop, !Nat.add_1_r.
  destruct (char_at j src =? ".")%char eqn:Edot; cycle 1.
  { exists true, j. split; [done|]. apply path_name; [done..|]. by apply ascii_eqb_false. }
  apply ascii_eqb_true in Edot. assert (j < strlen src) by by apply (char_inside _ _ _ Edot).
  rewrite Edot. change ("."%char =? NUL)%char with false. cbv iota.
  destruct (cxpr_is_ident_start (char_at (S j) src)) eqn:Es; cbn [negb].
  - rewrite advance_state_at by done.
    destruct (lex_while_maximal cxpr_is_ident_char src (S j) eq_refl) as (e & -> & He & Hmax'); [lia|].
    destruct (IH (S j) e) as (ok & m & -> & Hok); try done; [destruct Hmax'; lia|].
    exists ok, m. split; [done|]. destruct ok; [by eapply path_dot|by eapply broken_later].
  - exists false, j. split; [done|]. by apply broken_here.
Qed.

Lemma variable_lexes src k :
  char_at k src = "$"%char → lexes src k (cxpr_lexer_variable (state_at src k)).
Proof.
  intros Hs. assert (Hk : k < strlen src) by by apply (char_inside _ _ _ Hs).
  unfold cxpr_lexer_variable. rewrite advance_state_at by done. rewrite !current_state_at, char_at0_drop.
  destruct (cxpr_is_ident_start (char_at (S k) src)) eqn:Es; cbn [negb]; [|by apply lexes_error, bare_dollar].
  destruct (lex_while_maximal cxpr_is_ident_char src (S k) eq_refl) as (j & -> & Hj & Hmax); [lia|].
  destruct (variable_path_spec (S (strlen (lx_current (state_at src j)))) src (S k) j) as (ok & m & -> & Hok); try done.
  { rewrite current_state_at, strlen_drop. lia. }
  destruct ok; cbn [negb]; [|by apply lexes_error, bad_path]. apply lexes_token; [done|]. by apply is_parameter.
Qed.

Lemma string_body_spec quote fuel src n :
  strlen src - n < fuel → n ≤ strlen src →
  ∃ e, lex_string_body quote (str_drop n src) (state_at src n) = state_at src e ∧ e ≤ strlen src ∧ string_text src quote n e.
Proof.
  revert n; induction fuel as [|fuel IH]; intros n Hf Hn; [lia|].
  destruct (decide (n < strlen src)) as [Hlt|]; cycle 1.
  { rewrite str_drop_end by lia. exists n. split_and!; try done. apply string_end. left. apply char_at_end. lia. }
  rewrite (str_drop_cons n) by done. cbn [lex_string_body].
  destruct (_ || _) eqn:E.
  { exists n. split_and!; [done|lia|]. apply string_end. apply orb_prop in E as [E%ascii_eqb_true|E%ascii_eqb_true]; auto. }
  apply orb_false_iff in E as [EN%ascii_eqb_false EQ%ascii_eqb_false]. rewrite advance_state_at by done.
  assert (Hnext : char_at n src ≠ backslash ∨ char_at (S n) src = NUL →
    ∃ e, lex_string_body quote (str_drop (S n) src) (state_at src (S n)) = state_at src e ∧ e ≤ strlen src ∧ string_text src quote n e).
  { intros Hc. destruct (IH (S n)) as (e & -> & He & Ht); [lia..|]. exists e. split_and!; try done. by apply string_char. }
  destruct (char_at n src =? backslash)%char eqn:Eb; [|apply Hnext; left; by apply ascii_eqb_false].
  apply ascii_eqb_true in Eb. destruct (str_drop (S n) src) as [|d s] eqn:Ed.
  { apply Hnext. right. apply char_at_end. destruct (decide (S n < strlen src)); [|lia]. by rewrite str_drop_cons in Ed. }
  destruct (str_drop_inv d s (S n) src) as (Hlt' & -> & ->); [done|].
  destruct (_ =? NUL)%char eqn:En; [apply Hnext; right; by apply ascii_eqb_true|].
  rewrite advance_state_at by done. destruct (IH (S (S n))) as (e & -> & He & Ht); [lia..|].
  exists e. split_and!; try done. apply string_escape; try done. by apply ascii_eqb_false.
Qed.

Lemma string_text_end src quote i e : string_text src quote i e → char_at e src = NUL ∨ char_at e src = quote.
Proof. induction 1; done. Qed.

Lemma string_lexes src k :
  is_quote (char_at k src) → lexes src k (cxpr_lexer_string (state_at src k)).
Proof.
  intros Hq. assert (Hq' : char_at k src ≠ NUL) by (destruct Hq as [-> | ->]; done).
  pose proof (char_at_inside _ _ Hq') as Hk. unfold cxpr_lexer_string. rewrite advance_state_at by done.
  rewrite !current_state_at, char_at0_drop.
  destruct (string_body_spec (char_at k src) (S (strlen src)) src (S k)) as (e & -> & He & Ht); [lia..|].
  rewrite current_state_at, char_at0_drop. destruct (char_at e src =? char_at k src)%char eqn:E; cbn [negb].
  - apply ascii_eqb_true in E. assert (e < strlen src) by (apply char_at_inside; by rewrite E).
    rewrite advance_state_at by done. apply lexes_token; [done|]. by apply is_string.
  - apply ascii_eqb_false in E. apply lexes_error, open_string; try done. by destruct (string_text_end _ _ _ _ Ht).
Qed.

(** ** Operators *)

(** The operator matches the two characters at the cursor. *)
Definition matches (op : string) (c d : ascii) : bool :=
  match op with
  | String a EmptyString => (a =? c)%char
  | String a (String b EmptyString) => (a =? c)%char && (b =? d)%char
  | _ => false
  end.

(** The operator the code reads from two characters. *)
Definition code_operator (c d : ascii) : option (cxpr_token_type * nat) :=
  match single_char_token c, double_char_token c d with
  | Some t, _ => Some (t, 1)
  | None, (Some t, _) => Some (t, 2)
  | None, (None, Some t) => Some (t, 1)
  | None, (None, None) => None
  end.

Definition operator_checked (c d : ascii) : bool :=
  match code_operator c d with
  | Some (t, n) =>
      existsb (λ o, matches (fst o) c d && bool_decide (snd o = t) && (strlen (fst o) =? n)) operators
      && forallb (λ o, negb (matches (fst o) c d) || (strlen (fst o) <=? n)) operators
      && negb (bool_decide (t = CXPR_TOK_ERROR))
  | None => forallb (λ o, negb (matches (fst o) c d)) operators
  end.

Definition all_chars_list : list ascii := map ascii_of_nat (seq 0 256).

Lemma in_all_chars c : In c all_chars_list.
Proof.
  apply in_map_iff. exists (nat_of_ascii c). split; [apply ascii_nat_embedding|]. apply in_seq.
  pose proof (nat_ascii_bounded c). lia.
Qed.

Lemma operators_checked c d : operator_checked c d = true.
Proof.
  assert (H : forallb (λ c, forallb (operator_checked c) all_chars_list) all_chars_list = true) by (vm_compute; reflexivity).
  rewrite forallb_forall in H. specialize (H c (in_all_chars c)). rewrite forallb_forall in H. apply H, in_all_chars.
Qed.

Lemma matches_stands src k op t :
  In (op, t) operators → matches op (char_at k src) (char_at (S k) src) = true ↔ stands_at src k op.
Proof.
  intros Hin. assert (Hlen : strlen op = 1 ∨ strlen op = 2).
  { repeat destruct Hin as [[= <- _]|Hin]; try (simpl; lia). done. }
  destruct op as [|a [|b [|]]]; simpl in Hlen; try lia; cbn [matches].
  - rewrite stands_at_1, Ascii.eqb_eq. split; congruence.
  - rewrite stands_at_2, andb_true_iff, !Ascii.eqb_eq. by split; intros [-> ->].
Qed.

Lemma operator_lexes src k : symbol_start src k → lexes src k (lexer_operator (state_at src k)).
Proof.
  intros Hsym. pose proof Hsym as (HN & _). pose proof (char_at_inside _ _ HN) as Hk.
  pose proof (operators_checked (char_at k src) (char_at (S k) src)) as Hc. unfold operator_checked in Hc.
  assert (Hread : lexer_operator (state_at src k) =
    match code_operator (char_at k src) (char_at (S k) src) with
    | Some (t, n) => (cxpr_make_token t (str_drop k src) n k (line_of k src) (col_of k src),
                      if n =? 1 then state_at src (S k) else cxpr_lexer_advance (state_at src (S k)))
    | None => (cxpr_make_error_token "Unexpected character" (state_at src (S k)), state_at src (S k))
    end).
  { unfold lexer_operator, code_operator. rewrite advance_state_at by done. rewrite !current_state_at, !char_at0_drop.
    destruct (single_char_token _); [done|]. by destruct (double_char_token _ _) as [[|] [|]]. }
  rewrite Hread. destruct (code_operator _ _) as [[t n]|]; cycle 1.
  { apply lexes_error, no_operator; [done|]. intros op t Hin Hst. rewrite forallb_forall in Hc.
    specialize (Hc _ Hin). cbn [fst] in Hc. apply negb_true_iff in Hc. by rewrite (proj2 (matches_stands _ _ _ _ Hin) Hst) in Hc. }
  rewrite !andb_true_iff, existsb_exists, forallb_forall in Hc. destruct Hc as [[(o & Hin & Ho) Hlong] Hne].
  destruct o as [op t']. cbn [fst snd] in *. rewrite !andb_true_iff, bool_decide_eq_true, Nat.eqb_eq in Ho. destruct Ho as [[Hm ->] Hn].
  apply (matches_stands _ _ _ _ Hin) in Hm.
  assert (Hop : operator_at src k op t).
  { split_and!; [done..|]. intros op' t' Hin' Hst'. specialize (Hlong _ Hin'). cbn [fst] in Hlong.
    rewrite (proj2 (matches_stands _ _ _ _ Hin') Hst') in Hlong. apply Nat.leb_le in Hlong. lia. }
  assert (Hend : (if n =? 1 then state_at src (S k) else cxpr_lexer_advance (state_at src (S k))) = state_at src (k + strlen op)).
  { assert (Hlen : strlen op = 1 ∨ strlen op = 2) by (clear -Hin; repeat destruct Hin as [[= <- _]|Hin]; try (simpl; lia); done).
    destruct Hlen as [Hl|Hl]; rewrite <- Hn, Hl; cbn [Nat.eqb]; [f_equal; lia|].
    rewrite advance_state_at; [f_equal; lia|]. destruct op as [|a [|b [|]]]; simpl in Hl; try lia.
    apply stands_at_2 in Hm as [_ Hb]. apply (char_inside _ _ _ Hb). intros ->.
    clear -Hin. repeat destruct Hin as [[=]|Hin]; done. }
  rewrite Hend. apply lexes_token; [cbn; by apply negb_true_iff, bool_decide_eq_false in Hne|]. by apply is_operator.
Qed.

Lemma next_lexes src n k :
  cxpr_lexer_skip_whitespace (state_at src n) = state_at src k → lexes src k (cxpr_lexer_next (state_at src n)).
Proof.
  intros Hskip. unfold cxpr_lexer_next. rewrite Hskip. unfold cxpr_lexer_peek_next.
  rewrite !current_state_at, char_at0_drop, char_at_drop, Nat.add_1_r.
  destruct (char_at k src =? NUL)%char eqn:EN.
  { apply ascii_eqb_true in EN. apply lexes_token; [done|]. by apply is_end. }
  apply ascii_eqb_false in EN. destruct (isdigit _ || _) eqn:Enum.
  { apply number_lexes. apply orb_prop in Enum as [|[E%ascii_eqb_true ?]%andb_prop]; [by left|by right]. }
  apply orb_false_iff in Enum as [Ed Edot].
  destruct (cxpr_is_ident_start _) eqn:Eid; [by apply identifier_lexes|].
  destruct (char_at k src =? "$")%char eqn:Evar; [by apply variable_lexes, ascii_eqb_true|].
  destruct ((char_at k src =? dquote)%char || (char_at k src =? squote)%char) eqn:Estr.
  { apply string_lexes. apply orb_prop in Estr as [E%ascii_eqb_true|E%ascii_eqb_true]; [by left|by right]. }
  apply orb_false_iff in Estr as [E1%ascii_eqb_false E2%ascii_eqb_false]. apply operator_lexes.
  split_and!; try done; [|by apply ascii_eqb_false]. intros [H|[H1 H2]]; [congruence|]. by rewrite H1, H2 in Edot.
Qed.

(** C1: one call of [cxpr_lexer_next] on a lexer whose cursor is inside its
    source skips exactly the blanks and whole comments in front of it, to the
    offset [k] (which the source determines, see [skipped_unique]), and reads there
    the token the lexical grammar gives, with its longest text, its kind and its
    value, or reports the grammar's error with its message.  A token records the
    offset, line and column of its first character, an error token those of the
    place [m] where the text goes wrong; the cursor is left at the end of the token
    (at [m]) with exact counters. *)
Theorem lexer_next_correct (lx : cxpr_lexer) (Hwf : lexer_wf lx) :
  let '(tok, lx') := cxpr_lexer_next lx in
  lexer_wf lx' ∧ lx_source lx' = lx_source lx ∧
  ∃ k, lx_position lx ≤ k ≤ lx_position lx' ∧ skipped (lx_source lx) (lx_position lx) k ∧
    at_token (lx_source lx) k ∧ lexed (lx_source lx) k tok (lx_position lx') ∧
    token_at (lx_source lx) k tok (lx_position lx').
Proof.
  destruct Hwf as [Hn Hlx].
  destruct (skip_skips (lx_source lx) (lx_position lx) Hn) as (k & Hskip & Hk & Hat & Hsk).
  destruct (lexer_next_at _ _ k Hskip) as (m & Hm & E & Ht); [lia|].
  destruct (next_lexes _ _ k Hskip) as (m' & E' & Hd).
  rewrite <- Hlx in E, E', Ht, Hd. destruct (cxpr_lexer_next lx) as [tok lx']. cbn [fst snd] in *.
  assert (m' = m) as -> by (rewrite E in E'; by injection E' as ?). subst lx'.
  split_and!; [by split|done|]. exists k. split_and!; auto; simpl; [lia|by eapply token_at_le].
Qed.

Lemma lexer_next_correct_witness :
  let src := "a /* c */ >= $p.q"%string in
  ∃ k tok lx', cxpr_lexer_next (state_at src 1) = (tok, lx') ∧ tok_type tok = CXPR_TOK_GTE ∧
    skipped src 1 k ∧ at_token src k ∧ described src k tok (lx_position lx').
Proof.
  intros src. assert (H : lexer_wf (state_at src 1)) by (split; [vm_compute; lia|reflexivity]).
  assert (Htype : tok_type (fst (cxpr_lexer_next (state_at src 1))) = CXPR_TOK_GTE) by (vm_compute; reflexivity).
  pose proof (lexer_next_correct _ H) as Hc. destruct (cxpr_lexer_next (state_at src 1)) as [tok lx'].
  destruct Hc as (_ & _ & k & _ & Hs & Ha & Hl & _). exists k, tok, lx'. cbn [fst] in Htype.
  unfold lexed in Hl. rewrite Htype in Hl. split_and!; done.
Defined.
