(* ===== verification/Ast.v ===== *)
(** * Ast: expression trees ([src/ast/internal.h], [src/ast/construct.c])

    A node is its optional source span and its tagged payload; the payload's
    constructors are those of the union in [struct cxpr_expr_ast].  The compile,
    typecheck and lookup caches of a node are not part of the model: no function
    of these files reads them.  Constructors are total: allocation succeeds. *)

From Stdlib Require Import Ascii String ZArith Lia.
From stdpp Require Import base list strings.
From S2P Require Import Prelude Float64 Types.
Local Open Scope nat_scope.
Local Set Warnings "-register-all".

(** ** Nodes *)

(** An argument list carries an optional array of optional names, parallel to
    the arguments ([args], [arg_names], [argc]). *)
Inductive ast_data (A : Type) : Type :=
  | CXPR_NODE_NUMBER (value : float64)
  | CXPR_NODE_INT64 (value : Z)
  | CXPR_NODE_BOOL (value : bool)
  | CXPR_NODE_ARRAY (elements : list A)
  | CXPR_NODE_RECORD (field_names : list string) (field_values : list A)
  | CXPR_NODE_STRING (value : string)
  | CXPR_NODE_IDENTIFIER (name : string)
  | CXPR_NODE_VARIABLE (name : string)
  | CXPR_NODE_FIELD_ACCESS (base : option A) (object : option string) (field : string)
      (full_key : option string)
  | CXPR_NODE_CHAIN_ACCESS (path : list string) (full_key : string)
  | CXPR_NODE_PRODUCER_ACCESS (name : string) (args : list A)
      (arg_names : option (list (option string))) (field : string) (full_key : string)
  | CXPR_NODE_BINARY_OP (op : cxpr_token_type) (left right : A)
  | CXPR_NODE_UNARY_OP (op : cxpr_token_type) (operand : A)
  | CXPR_NODE_FUNCTION_CALL (name : string) (args : list A)
      (arg_names : option (list (option string)))
  | CXPR_NODE_INDEX (target index : A)
  | CXPR_NODE_TERNARY (condition true_branch false_branch : A).

Arguments CXPR_NODE_NUMBER {A}. Arguments CXPR_NODE_INT64 {A}. Arguments CXPR_NODE_BOOL {A}.
Arguments CXPR_NODE_ARRAY {A}. Arguments CXPR_NODE_RECORD {A}. Arguments CXPR_NODE_STRING {A}.
Arguments CXPR_NODE_IDENTIFIER {A}. Arguments CXPR_NODE_VARIABLE {A}.
Arguments CXPR_NODE_FIELD_ACCESS {A}. Arguments CXPR_NODE_CHAIN_ACCESS {A}.
Arguments CXPR_NODE_PRODUCER_ACCESS {A}. Arguments CXPR_NODE_BINARY_OP {A}.
Arguments CXPR_NODE_UNARY_OP {A}. Arguments CXPR_NODE_FUNCTION_CALL {A}.
Arguments CXPR_NODE_INDEX {A}. Arguments CXPR_NODE_TERNARY {A}.

Inductive cxpr_expr_ast : Type :=
  | Ast (source_span : option cxpr_source_span) (data : ast_data cxpr_expr_ast).

Definition ast_span (a : cxpr_expr_ast) : option cxpr_source_span := let '(Ast s _) := a in s.
Definition ast_node (a : cxpr_expr_ast) : ast_data cxpr_expr_ast := let '(Ast _ d) := a in d.

(** A fresh node ([calloc]) has no span. *)
Definition new_node (d : ast_data cxpr_expr_ast) : cxpr_expr_ast := Ast None d.

Definition cxpr_expr_ast_set_source_span (a : cxpr_expr_ast) (span : cxpr_source_span)
    : cxpr_expr_ast := Ast (Some span) (ast_node a).

(** ** Constructors *)

Definition cxpr_expr_ast_join_with_dot (left right : string) : string :=
  String.append left (String "." right).

(** The span of a node built from [first] to [last]. *)
Definition cxpr_expr_ast_inherit_range (node first last : cxpr_expr_ast) : cxpr_expr_ast :=
  match ast_span first, ast_span last with
  | Some s, Some e => Ast (Some (mk_span (span_start s) (span_end e))) (ast_node node)
  | _, _ => node
  end.

Definition cxpr_expr_ast_number_new (value : float64) : cxpr_expr_ast :=
  new_node (CXPR_NODE_NUMBER value).
Definition cxpr_expr_ast_int64_new (value : Z) : cxpr_expr_ast := new_node (CXPR_NODE_INT64 value).
Definition cxpr_expr_ast_bool_new (value : bool) : cxpr_expr_ast := new_node (CXPR_NODE_BOOL value).
Definition cxpr_expr_ast_array_new (elements : list cxpr_expr_ast) : cxpr_expr_ast :=
  new_node (CXPR_NODE_ARRAY elements).
Definition cxpr_expr_ast_record_new (field_names : list string)
    (field_values : list cxpr_expr_ast) : cxpr_expr_ast :=
  new_node (CXPR_NODE_RECORD field_names field_values).
Definition cxpr_expr_ast_new_string (value : string) : cxpr_expr_ast :=
  new_node (CXPR_NODE_STRING value).
Definition cxpr_expr_ast_identifier_new (name : string) : cxpr_expr_ast :=
  new_node (CXPR_NODE_IDENTIFIER name).
Definition cxpr_expr_ast_param_new (name : string) : cxpr_expr_ast :=
  new_node (CXPR_NODE_VARIABLE name).
Definition cxpr_expr_ast_field_new (object field : string) : cxpr_expr_ast :=
  new_node (CXPR_NODE_FIELD_ACCESS None (Some object) field
              (Some (cxpr_expr_ast_join_with_dot object field))).
Definition cxpr_expr_ast_field_expr_new (base : cxpr_expr_ast) (field : string) : cxpr_expr_ast :=
  new_node (CXPR_NODE_FIELD_ACCESS (Some base) None field None).

(** The segments joined with dots, as the copy loop of
    [cxpr_expr_ast_new_chain_access] writes them. *)
Fixpoint join_path (path : list string) : string :=
  match path with
  | [] => EmptyString
  | [s] => s
  | s :: path' => cxpr_expr_ast_join_with_dot s (join_path path')
  end.

(** [None] when fewer than two segments are given. *)
Definition cxpr_expr_ast_new_chain_access (path : list string) : option cxpr_expr_ast :=
  if length path <? 2 then None
  else Some (new_node (CXPR_NODE_CHAIN_ACCESS path (join_path path))).

Definition cxpr_expr_ast_producer_field_named_new (name : string) (args : list cxpr_expr_ast)
    (arg_names : option (list (option string))) (field : string) : cxpr_expr_ast :=
  new_node (CXPR_NODE_PRODUCER_ACCESS name args arg_names field
              (cxpr_expr_ast_join_with_dot name field)).
Definition cxpr_expr_ast_producer_field_new (name : string) (args : list cxpr_expr_ast)
    (field : string) : cxpr_expr_ast :=
  cxpr_expr_ast_producer_field_named_new name args None field.

Definition cxpr_expr_ast_binary_new (op : cxpr_token_type) (left right : cxpr_expr_ast)
    : cxpr_expr_ast :=
  cxpr_expr_ast_inherit_range (new_node (CXPR_NODE_BINARY_OP op left right)) left right.

Definition cxpr_expr_ast_unary_new (op : cxpr_token_type) (operand : cxpr_expr_ast)
    : cxpr_expr_ast :=
  match ast_span operand with
  | Some s => Ast (Some s) (CXPR_NODE_UNARY_OP op operand)
  | None => new_node (CXPR_NODE_UNARY_OP op operand)
  end.

Definition cxpr_expr_ast_call_named_new (name : string) (args : list cxpr_expr_ast)
    (arg_names : option (list (option string))) : cxpr_expr_ast :=
  new_node (CXPR_NODE_FUNCTION_CALL name args arg_names).
Definition cxpr_expr_ast_call_new (name : string) (args : list cxpr_expr_ast) : cxpr_expr_ast :=
  cxpr_expr_ast_call_named_new name args None.

Definition cxpr_expr_ast_index_new (target index : cxpr_expr_ast) : cxpr_expr_ast :=
  cxpr_expr_ast_inherit_range (new_node (CXPR_NODE_INDEX target index)) target index.
Definition cxpr_expr_ast_lookback_new (target index : cxpr_expr_ast) : cxpr_expr_ast :=
  cxpr_expr_ast_index_new target index.

Definition cxpr_expr_ast_ternary_new (condition true_branch false_branch : cxpr_expr_ast)
    : cxpr_expr_ast :=
  cxpr_expr_ast_inherit_range (new_node (CXPR_NODE_TERNARY condition true_branch false_branch))
    condition false_branch.

(** ** Traversal *)

Definition children {A} (d : ast_data A) : list A :=
  match d with
  | CXPR_NODE_ARRAY elements => elements
  | CXPR_NODE_RECORD _ values => values
  | CXPR_NODE_FIELD_ACCESS (Some base) _ _ _ => [base]
  | CXPR_NODE_PRODUCER_ACCESS _ args _ _ _ => args
  | CXPR_NODE_BINARY_OP _ l r => [l; r]
  | CXPR_NODE_UNARY_OP _ a => [a]
  | CXPR_NODE_FUNCTION_CALL _ args _ => args
  | CXPR_NODE_INDEX t i => [t; i]
  | CXPR_NODE_TERNARY c t f => [c; t; f]
  | _ => []
  end.

(** Induction on trees, with the hypothesis for every child. *)
Lemma ast_ind (P : cxpr_expr_ast → Prop) :
  (∀ s d, Forall P (children d) → P (Ast s d)) → ∀ a, P a.
Proof.
  intros H. fix IH 1. intros [s d]. apply H.
  assert (Hl : ∀ l, Forall P l) by (induction l; constructor; auto).
  destruct d as [| | | | | | | |[] | | | | | | |]; simpl; repeat constructor; auto.
Qed.

(** [ast_all P a]: [P] holds of every node of [a]. *)
Inductive ast_all (P : cxpr_expr_ast → Prop) : cxpr_expr_ast → Prop :=
  | ast_all_node a : P a → Forall (ast_all P) (children (ast_node a)) → ast_all P a.

Lemma ast_all_inv P a : ast_all P a → P a ∧ Forall (ast_all P) (children (ast_node a)).
Proof. by destruct 1. Qed.

(** The height of a tree. *)
Fixpoint height (a : cxpr_expr_ast) : nat :=
  let '(Ast _ d) := a in
  S (match d with
     | CXPR_NODE_ARRAY els => list_max (map height els)
     | CXPR_NODE_RECORD _ vals => list_max (map height vals)
     | CXPR_NODE_FIELD_ACCESS (Some b) _ _ _ => height b
     | CXPR_NODE_PRODUCER_ACCESS _ args _ _ _ => list_max (map height args)
     | CXPR_NODE_BINARY_OP _ x y => height x `max` height y
     | CXPR_NODE_UNARY_OP _ x => height x
     | CXPR_NODE_FUNCTION_CALL _ args _ => list_max (map height args)
     | CXPR_NODE_INDEX x y => height x `max` height y
     | CXPR_NODE_TERNARY c x y => height c `max` (height x `max` height y)
     | _ => 0
     end).

Lemma height_list l : Forall (λ c, height c ≤ list_max (map height l)) l.
Proof.
  pose proof (proj1 (list_max_le (map height l) _) (le_n _)) as H.
  apply List.Forall_map in H. by apply Forall_forall; intros x Hx; apply (proj1 (List.Forall_forall _ _) H), list_elem_of_In.
Qed.

Lemma height_children a : Forall (λ c, height c < height a) (children (ast_node a)).
Proof.
  assert (Hl : ∀ l n, S (list_max (map height l)) ≤ n → Forall (λ c, height c < n) l).
  { intros l n Hn. eapply Forall_impl; [apply height_list|]. simpl. lia. }
  destruct a as [s [| | | | | | | |[]| | | | | | |]]; cbn [ast_node children height];
    first [by apply Hl|rewrite ?Forall_cons; split_and?; try apply Forall_nil_2; lia|apply Forall_nil_2].
Qed.

(** The shape the constructors promise: parallel arrays have one length, dotted
    keys are the joined segments, operators are the ones of the grammar. *)
Definition names_ok (arg_names : option (list (option string))) (argc : nat) : Prop :=
  match arg_names with Some names => length names = argc | None => True end.

Definition binary_operator (op : cxpr_token_type) : bool :=
  match op with
  | CXPR_TOK_PLUS | CXPR_TOK_MINUS | CXPR_TOK_STAR | CXPR_TOK_SLASH | CXPR_TOK_PERCENT
  | CXPR_TOK_POWER | CXPR_TOK_EQ | CXPR_TOK_NEQ | CXPR_TOK_LT | CXPR_TOK_GT | CXPR_TOK_LTE
  | CXPR_TOK_GTE | CXPR_TOK_AND | CXPR_TOK_OR => true
  | _ => false
  end.

Definition unary_operator (op : cxpr_token_type) : bool :=
  match op with CXPR_TOK_MINUS | CXPR_TOK_NOT => true | _ => false end.

Definition shape_ok (a : cxpr_expr_ast) : Prop :=
  match ast_node a with
  | CXPR_NODE_RECORD names values => length names = length values
  | CXPR_NODE_FIELD_ACCESS (Some _) object _ full_key => object = None ∧ full_key = None
  | CXPR_NODE_FIELD_ACCESS None object field full_key =>
      ∃ o, object = Some o ∧ full_key = Some (cxpr_expr_ast_join_with_dot o field)
  | CXPR_NODE_CHAIN_ACCESS path full_key => 3 ≤ length path ∧ full_key = join_path path
  | CXPR_NODE_PRODUCER_ACCESS name args arg_names field full_key =>
      names_ok arg_names (length args) ∧ full_key = cxpr_expr_ast_join_with_dot name field
  | CXPR_NODE_BINARY_OP op _ _ => binary_operator op = true
  | CXPR_NODE_UNARY_OP op _ => unary_operator op = true
  | CXPR_NODE_FUNCTION_CALL _ args arg_names => names_ok arg_names (length args)
  | _ => True
  end.
