(* ===== verification/References.v ===== *)
(** * References: what a tree mentions ([src/ast/references.c],
    [src/ast/inspect.c])

    The collectors walk a tree and add each name they meet to a caller-supplied
    array, unless it is among the names already stored there.  The array and the
    returned count are a [name_buf]: the stored prefix and the count, which goes
    on growing when the array is full.

    The theorems relate each collector to the list of occurrences in the tree: the
    array holds the distinct names in order of first occurrence, cut at its
    length, and the boolean queries agree with it. *)

From Stdlib Require Import Ascii String ZArith Lia.
From stdpp Require Import base list strings sets.
From S2P Require Import Prelude Float64 Types Ast.
Local Open Scope nat_scope.

(** ** Accessors *)

Definition cxpr_expr_ast_full_reference (a : cxpr_expr_ast) : option string :=
  match ast_node a with
  | CXPR_NODE_FIELD_ACCESS _ _ _ full_key => full_key
  | CXPR_NODE_CHAIN_ACCESS _ full_key => Some full_key
  | _ => None
  end.

Inductive cxpr_expr_ast_kind : Type :=
  | KIND_NUMBER | KIND_INT64 | KIND_BOOL | KIND_ARRAY | KIND_RECORD | KIND_STRING
  | KIND_IDENTIFIER | KIND_VARIABLE | KIND_FIELD_ACCESS | KIND_CHAIN_ACCESS
  | KIND_PRODUCER_ACCESS | KIND_BINARY_OP | KIND_UNARY_OP | KIND_FUNCTION_CALL
  | KIND_INDEX | KIND_TERNARY.

#[export] Instance cxpr_expr_ast_kind_eq_dec : EqDecision cxpr_expr_ast_kind.
Proof. solve_decision. Defined.

Definition node_kind {A} (d : ast_data A) : cxpr_expr_ast_kind :=
  match d with
  | CXPR_NODE_NUMBER _ => KIND_NUMBER
  | CXPR_NODE_INT64 _ => KIND_INT64
  | CXPR_NODE_BOOL _ => KIND_BOOL
  | CXPR_NODE_ARRAY _ => KIND_ARRAY
  | CXPR_NODE_RECORD _ _ => KIND_RECORD
  | CXPR_NODE_STRING _ => KIND_STRING
  | CXPR_NODE_IDENTIFIER _ => KIND_IDENTIFIER
  | CXPR_NODE_VARIABLE _ => KIND_VARIABLE
  | CXPR_NODE_FIELD_ACCESS _ _ _ _ => KIND_FIELD_ACCESS
  | CXPR_NODE_CHAIN_ACCESS _ _ => KIND_CHAIN_ACCESS
  | CXPR_NODE_PRODUCER_ACCESS _ _ _ _ _ => KIND_PRODUCER_ACCESS
  | CXPR_NODE_BINARY_OP _ _ _ => KIND_BINARY_OP
  | CXPR_NODE_UNARY_OP _ _ => KIND_UNARY_OP
  | CXPR_NODE_FUNCTION_CALL _ _ _ => KIND_FUNCTION_CALL
  | CXPR_NODE_INDEX _ _ => KIND_INDEX
  | CXPR_NODE_TERNARY _ _ _ => KIND_TERNARY
  end.

Definition cxpr_expr_ast_kind_of (a : cxpr_expr_ast) : cxpr_expr_ast_kind := node_kind (ast_node a).

Definition cxpr_expr_ast_named_args_present (arg_names : option (list (option string))) : bool :=
  match arg_names with
  | None => false
  | Some names => existsb (fun n => match n with Some _ => true | None => false end) names
  end.

Definition cxpr_expr_ast_call_uses_named_args (a : cxpr_expr_ast) : bool :=
  match ast_node a with
  | CXPR_NODE_FUNCTION_CALL _ _ arg_names => cxpr_expr_ast_named_args_present arg_names
  | CXPR_NODE_PRODUCER_ACCESS _ _ arg_names _ _ => cxpr_expr_ast_named_args_present arg_names
  | _ => false
  end.

Fixpoint cxpr_expr_ast_is_boolean_expression (a : cxpr_expr_ast) : bool :=
  let '(Ast _ d) := a in
  match d with
  | CXPR_NODE_BOOL _ => true
  | CXPR_NODE_BINARY_OP op _ _ =>
      match op with
      | CXPR_TOK_EQ | CXPR_TOK_NEQ | CXPR_TOK_LT | CXPR_TOK_GT | CXPR_TOK_LTE | CXPR_TOK_GTE
      | CXPR_TOK_AND | CXPR_TOK_OR | CXPR_TOK_IN => true
      | _ => false
      end
  | CXPR_NODE_UNARY_OP op _ => tok_eqb op CXPR_TOK_NOT
  | CXPR_NODE_FUNCTION_CALL name _ _ =>
      String.eqb name "contains" || String.eqb name "within" ||
      String.eqb name "cross_above" || String.eqb name "cross_below"
  | CXPR_NODE_TERNARY c t f =>
      cxpr_expr_ast_is_boolean_expression c &&
      (cxpr_expr_ast_is_boolean_expression t && cxpr_expr_ast_is_boolean_expression f)
  | _ => false
  end.

(** ** Arrays of distinct names *)

Record name_buf (A : Type) : Type := mk_buf { buf_names : list A; buf_count : nat }.
Arguments mk_buf {A}. Arguments buf_names {A}. Arguments buf_count {A}.

Definition buf_empty {A} : name_buf A := mk_buf [] 0.

(** The stored prefix has [min count max] entries, so the linear search is over
    all of [buf_names]. *)
Definition add_unique {A} `{EqDecision A} (max : nat) (buf : name_buf A) (x : A) : name_buf A :=
  if bool_decide (x ∈ buf_names buf) then buf
  else mk_buf (if buf_count buf <? max then buf_names buf ++ [x] else buf_names buf)
              (buf_count buf + 1).

Definition cxpr_add_unique_name (max_names : nat) (buf : name_buf string) (name : string)
    : name_buf string := add_unique max_names buf name.

(** A producer field reference is the pair of producer name and field name. *)
Definition cxpr_add_unique_producer_field (max_refs : nat) (buf : name_buf (string * string))
    (producer_name field_name : string) : name_buf (string * string) :=
  add_unique max_refs buf (producer_name, field_name).

(** ** Collectors *)

Section collect.
Context (max : nat).

Fixpoint cxpr_collect_references (a : cxpr_expr_ast) (buf : name_buf string) : name_buf string :=
  match cxpr_expr_ast_full_reference a with
  | Some full_ref => cxpr_add_unique_name max buf full_ref
  | None =>
      let '(Ast _ d) := a in
      match d with
      | CXPR_NODE_IDENTIFIER name => cxpr_add_unique_name max buf name
      | CXPR_NODE_ARRAY elements =>
          fold_left (fun buf e => cxpr_collect_references e buf) elements buf
      | CXPR_NODE_RECORD _ values =>
          fold_left (fun buf e => cxpr_collect_references e buf) values buf
      | CXPR_NODE_BINARY_OP _ l r => cxpr_collect_references r (cxpr_collect_references l buf)
      | CXPR_NODE_UNARY_OP _ e => cxpr_collect_references e buf
      | CXPR_NODE_FUNCTION_CALL _ args _ =>
          fold_left (fun buf e => cxpr_collect_references e buf) args buf
      | CXPR_NODE_PRODUCER_ACCESS _ args _ _ _ =>
          fold_left (fun buf e => cxpr_collect_references e buf) args buf
      | CXPR_NODE_INDEX t i => cxpr_collect_references i (cxpr_collect_references t buf)
      | CXPR_NODE_TERNARY c t f =>
          cxpr_collect_references f (cxpr_collect_references t (cxpr_collect_references c buf))
      | _ => buf
      end
  end.

Fixpoint cxpr_collect_functions (a : cxpr_expr_ast) (buf : name_buf string) : name_buf string :=
  let '(Ast _ d) := a in
  match d with
  | CXPR_NODE_ARRAY elements =>
      fold_left (fun buf e => cxpr_collect_functions e buf) elements buf
  | CXPR_NODE_RECORD _ values =>
      fold_left (fun buf e => cxpr_collect_functions e buf) values buf
  | CXPR_NODE_FUNCTION_CALL name args _ =>
      fold_left (fun buf e => cxpr_collect_functions e buf) args (cxpr_add_unique_name max buf name)
  | CXPR_NODE_PRODUCER_ACCESS name args _ _ _ =>
      fold_left (fun buf e => cxpr_collect_functions e buf) args (cxpr_add_unique_name max buf name)
  | CXPR_NODE_BINARY_OP _ l r => cxpr_collect_functions r (cxpr_collect_functions l buf)
  | CXPR_NODE_UNARY_OP _ e => cxpr_collect_functions e buf
  | CXPR_NODE_INDEX t i => cxpr_collect_functions i (cxpr_collect_functions t buf)
  | CXPR_NODE_TERNARY c t f =>
      cxpr_collect_functions f (cxpr_collect_functions t (cxpr_collect_functions c buf))
  | _ => buf
  end.

Fixpoint cxpr_collect_variables (a : cxpr_expr_ast) (buf : name_buf string) : name_buf string :=
  let '(Ast _ d) := a in
  match d with
  | CXPR_NODE_VARIABLE name => cxpr_add_unique_name max buf name
  | CXPR_NODE_ARRAY elements =>
      fold_left (fun buf e => cxpr_collect_variables e buf) elements buf
  | CXPR_NODE_RECORD _ values =>
      fold_left (fun buf e => cxpr_collect_variables e buf) values buf
  | CXPR_NODE_BINARY_OP _ l r => cxpr_collect_variables r (cxpr_collect_variables l buf)
  | CXPR_NODE_UNARY_OP _ e => cxpr_collect_variables e buf
  | CXPR_NODE_FUNCTION_CALL _ args _ =>
      fold_left (fun buf e => cxpr_collect_variables e buf) args buf
  | CXPR_NODE_PRODUCER_ACCESS _ args _ _ _ =>
      fold_left (fun buf e => cxpr_collect_variables e buf) args buf
  | CXPR_NODE_INDEX t i => cxpr_collect_variables i (cxpr_collect_variables t buf)
  | CXPR_NODE_TERNARY c t f =>
      cxpr_collect_variables f (cxpr_collect_variables t (cxpr_collect_variables c buf))
  | _ => buf
  end.

Fixpoint cxpr_collect_producer_fields (a : cxpr_expr_ast) (buf : name_buf (string * string))
    : name_buf (string * string) :=
  let '(Ast _ d) := a in
  match d with
  | CXPR_NODE_ARRAY elements =>
      fold_left (fun buf e => cxpr_collect_producer_fields e buf) elements buf
  | CXPR_NODE_RECORD _ values =>
      fold_left (fun buf e => cxpr_collect_producer_fields e buf) values buf
  | CXPR_NODE_PRODUCER_ACCESS name args _ field _ =>
      fold_left (fun buf e => cxpr_collect_producer_fields e buf) args
        (cxpr_add_unique_producer_field max buf name field)
  | CXPR_NODE_FUNCTION_CALL _ args _ =>
      fold_left (fun buf e => cxpr_collect_producer_fields e buf) args buf
  | CXPR_NODE_BINARY_OP _ l r =>
      cxpr_collect_producer_fields r (cxpr_collect_producer_fields l buf)
  | CXPR_NODE_UNARY_OP _ e => cxpr_collect_producer_fields e buf
  | CXPR_NODE_INDEX t i => cxpr_collect_producer_fields i (cxpr_collect_producer_fields t buf)
  | CXPR_NODE_TERNARY c t f =>
      cxpr_collect_producer_fields f
        (cxpr_collect_producer_fields t (cxpr_collect_producer_fields c buf))
  | _ => buf
  end.

End collect.

(** ** Queries *)

Section contains.
Context (name : string).

(** The guard [name[0] == 0] of every level is the same at each, so the empty
    name is refused once, in the two public functions. *)
Fixpoint contains_reference (a : cxpr_expr_ast) : bool :=
  match cxpr_expr_ast_full_reference a with
  | Some full_ref => String.eqb full_ref name
  | None =>
      let '(Ast _ d) := a in
      match d with
      | CXPR_NODE_IDENTIFIER n => String.eqb n name
      | CXPR_NODE_ARRAY elements => existsb contains_reference elements
      | CXPR_NODE_RECORD _ values => existsb contains_reference values
      | CXPR_NODE_BINARY_OP _ l r => contains_reference l || contains_reference r
      | CXPR_NODE_UNARY_OP _ e => contains_reference e
      | CXPR_NODE_FUNCTION_CALL _ args _ => existsb contains_reference args
      | CXPR_NODE_PRODUCER_ACCESS _ args _ _ _ => existsb contains_reference args
      | CXPR_NODE_INDEX t i => contains_reference t || contains_reference i
      | CXPR_NODE_TERNARY c t f =>
          contains_reference c || contains_reference t || contains_reference f
      | _ => false
      end
  end.

Fixpoint contains_variable (a : cxpr_expr_ast) : bool :=
  let '(Ast _ d) := a in
  match d with
  | CXPR_NODE_VARIABLE n => String.eqb n name
  | CXPR_NODE_ARRAY elements => existsb contains_variable elements
  | CXPR_NODE_RECORD _ values => existsb contains_variable values
  | CXPR_NODE_BINARY_OP _ l r => contains_variable l || contains_variable r
  | CXPR_NODE_UNARY_OP _ e => contains_variable e
  | CXPR_NODE_FUNCTION_CALL _ args _ => existsb contains_variable args
  | CXPR_NODE_PRODUCER_ACCESS _ args _ _ _ => existsb contains_variable args
  | CXPR_NODE_INDEX t i => contains_variable t || contains_variable i
  | CXPR_NODE_TERNARY c t f => contains_variable c || contains_variable t || contains_variable f
  | _ => false
  end.

End contains.

Definition cxpr_expr_ast_contains_reference_impl (a : cxpr_expr_ast) (name : string) : bool :=
  negb (String.eqb name "") && contains_reference name a.
Definition cxpr_expr_ast_contains_variable_impl (a : cxpr_expr_ast) (name : string) : bool :=
  negb (String.eqb name "") && contains_variable name a.

(** The calls and producers one of whose arguments mentions [name]. *)
Section contexts.
Context (max : nat) (name : string) (variable : bool).

Definition mentions (a : cxpr_expr_ast) : bool :=
  if variable then cxpr_expr_ast_contains_variable_impl a name
  else cxpr_expr_ast_contains_reference_impl a name.

Fixpoint cxpr_collect_call_arg_contexts (a : cxpr_expr_ast) (buf : name_buf string)
    : name_buf string :=
  let '(Ast _ d) := a in
  match d with
  | CXPR_NODE_ARRAY elements =>
      fold_left (fun buf e => cxpr_collect_call_arg_contexts e buf) elements buf
  | CXPR_NODE_RECORD _ values =>
      fold_left (fun buf e => cxpr_collect_call_arg_contexts e buf) values buf
  | CXPR_NODE_FUNCTION_CALL fn args _ | CXPR_NODE_PRODUCER_ACCESS fn args _ _ _ =>
      fold_left
        (fun buf arg =>
           cxpr_collect_call_arg_contexts arg
             (if mentions arg then cxpr_add_unique_name max buf fn else buf))
        args buf
  | CXPR_NODE_BINARY_OP _ l r =>
      cxpr_collect_call_arg_contexts r (cxpr_collect_call_arg_contexts l buf)
  | CXPR_NODE_UNARY_OP _ e => cxpr_collect_call_arg_contexts e buf
  | CXPR_NODE_INDEX t i => cxpr_collect_call_arg_contexts i (cxpr_collect_call_arg_contexts t buf)
  | CXPR_NODE_TERNARY c t f =>
      cxpr_collect_call_arg_contexts f
        (cxpr_collect_call_arg_contexts t (cxpr_collect_call_arg_contexts c buf))
  | _ => buf
  end.

End contexts.

(** ** Public functions *)

Definition cxpr_expr_ast_references (a : cxpr_expr_ast) (max_names : nat) : name_buf string :=
  cxpr_collect_references max_names a buf_empty.
Definition cxpr_expr_ast_functions_used (a : cxpr_expr_ast) (max_names : nat) : name_buf string :=
  cxpr_collect_functions max_names a buf_empty.
Definition cxpr_expr_ast_producer_fields_used (a : cxpr_expr_ast) (max_refs : nat)
    : name_buf (string * string) := cxpr_collect_producer_fields max_refs a buf_empty.
Definition cxpr_expr_ast_variables_used (a : cxpr_expr_ast) (max_names : nat) : name_buf string :=
  cxpr_collect_variables max_names a buf_empty.
Definition cxpr_expr_ast_contains_reference (a : cxpr_expr_ast) (name : string) : bool :=
  cxpr_expr_ast_contains_reference_impl a name.
Definition cxpr_expr_ast_contains_variable (a : cxpr_expr_ast) (name : string) : bool :=
  cxpr_expr_ast_contains_variable_impl a name.
Definition cxpr_expr_ast_call_arg_contexts_for_reference (a : cxpr_expr_ast) (reference : string)
    (max_names : nat) : name_buf string :=
  cxpr_collect_call_arg_contexts max_names reference false a buf_empty.
Definition cxpr_expr_ast_call_arg_contexts_for_variable (a : cxpr_expr_ast) (variable : string)
    (max_names : nat) : name_buf string :=
  cxpr_collect_call_arg_contexts max_names variable true a buf_empty.

(** ** Specification: the occurrences of a tree *)

(** The children a collector descends into: all but the base of a field access
    on an expression. *)
Definition visited_children {A} (d : ast_data A) : list A :=
  match d with
  | CXPR_NODE_FIELD_ACCESS _ _ _ _ => []
  | _ => children d
  end.

(** What a tree mentions, in the order of a pre-order walk: [own] at a node, and
    [edge] on the way from a node to one of its children. *)
Section occurrences.
Context {A : Type} (own : ast_data cxpr_expr_ast → list A)
  (edge : ast_data cxpr_expr_ast → cxpr_expr_ast → list A).

Fixpoint occurrences (a : cxpr_expr_ast) : list A :=
  let '(Ast _ d) := a in
  own d ++
  match d with
  | CXPR_NODE_ARRAY es => flat_map (fun e => edge d e ++ occurrences e) es
  | CXPR_NODE_RECORD _ es => flat_map (fun e => edge d e ++ occurrences e) es
  | CXPR_NODE_PRODUCER_ACCESS _ es _ _ _ => flat_map (fun e => edge d e ++ occurrences e) es
  | CXPR_NODE_FUNCTION_CALL _ es _ => flat_map (fun e => edge d e ++ occurrences e) es
  | CXPR_NODE_BINARY_OP _ l r => flat_map (fun e => edge d e ++ occurrences e) [l; r]
  | CXPR_NODE_UNARY_OP _ e => flat_map (fun e => edge d e ++ occurrences e) [e]
  | CXPR_NODE_INDEX t i => flat_map (fun e => edge d e ++ occurrences e) [t; i]
  | CXPR_NODE_TERNARY c t f => flat_map (fun e => edge d e ++ occurrences e) [c; t; f]
  | _ => []
  end.

Lemma occurrences_eq s d :
  occurrences (Ast s d) = own d ++ flat_map (fun e => edge d e ++ occurrences e) (visited_children d).
Proof. by destruct d. Qed.

End occurrences.

Definition own_reference (d : ast_data cxpr_expr_ast) : list string :=
  match d with
  | CXPR_NODE_IDENTIFIER name => [name]
  | CXPR_NODE_FIELD_ACCESS _ _ _ (Some full_key) => [full_key]
  | CXPR_NODE_CHAIN_ACCESS _ full_key => [full_key]
  | _ => []
  end.
Definition own_function (d : ast_data cxpr_expr_ast) : list string :=
  match d with
  | CXPR_NODE_FUNCTION_CALL name _ _ | CXPR_NODE_PRODUCER_ACCESS name _ _ _ _ => [name]
  | _ => []
  end.
Definition own_variable (d : ast_data cxpr_expr_ast) : list string :=
  match d with CXPR_NODE_VARIABLE name => [name] | _ => [] end.
Definition own_producer_field (d : ast_data cxpr_expr_ast) : list (string * string) :=
  match d with CXPR_NODE_PRODUCER_ACCESS name _ _ field _ => [(name, field)] | _ => [] end.
Definition no_edge {A} (_ : ast_data cxpr_expr_ast) (_ : cxpr_expr_ast) : list A := [].
Definition call_edge (name : string) (variable : bool) (d : ast_data cxpr_expr_ast)
    (arg : cxpr_expr_ast) : list string :=
  if mentions name variable arg then own_function d else [].

Abbreviation reference_names := (occurrences own_reference no_edge).
Abbreviation function_names := (occurrences own_function no_edge).
Abbreviation variable_names := (occurrences own_variable no_edge).
Abbreviation producer_fields := (occurrences own_producer_field no_edge).

(** The distinct elements of a list, in order of first occurrence. *)
Definition distinct {A} `{EqDecision A} (l : list A) : list A :=
  fold_left (fun acc x => if bool_decide (x ∈ acc) then acc else acc ++ [x]) l [].

Section distinct.
Context {A : Type} `{EqDecision A}.
Implicit Types (l acc : list A).

Lemma distinct_acc l acc :
  NoDup acc →
  let r := fold_left (fun acc x => if bool_decide (x ∈ acc) then acc else acc ++ [x]) l acc in
  NoDup r ∧ (∀ x, x ∈ r ↔ x ∈ acc ∨ x ∈ l) ∧ acc `prefix_of` r.
Proof.
  revert acc; induction l as [|y l IH]; intros acc Hnd; simpl; [set_solver|].
  case_bool_decide as Hy.
  - destruct (IH acc Hnd) as (? & Hin & ?). split_and!; [done| |done]. intros x.
    rewrite Hin. set_solver.
  - destruct (IH (acc ++ [y])) as (? & Hin & Hp).
    + apply NoDup_app. split_and!; [done|set_solver|apply NoDup_singleton].
    + split_and!; [done| |by etrans; [apply prefix_app_r|]]. intros x. rewrite Hin. set_solver.
Qed.

Lemma elem_of_distinct l x : x ∈ distinct l ↔ x ∈ l.
Proof. destruct (distinct_acc l [] ltac:(constructor)) as (_ & H & _). unfold distinct. set_solver. Qed.

Lemma NoDup_distinct l : NoDup (distinct l).
Proof. apply (distinct_acc l [] ltac:(constructor)). Qed.

End distinct.

(** What an array of [max] slots holds when [occ] was added to it. *)
Definition collected {A} `{EqDecision A} (max : nat) (occ : list A) (buf : name_buf A) : Prop :=
  buf_names buf = take max (distinct occ) ∧
  (length (distinct occ) ≤ max → buf_count buf = length (distinct occ)) ∧
  (max < length (distinct occ) → max < buf_count buf).

Section collected.
Context {A : Type} `{EqDecision A} (max : nat).
Implicit Types (buf : name_buf A) (acc : list A).

Definition represents acc buf : Prop :=
  buf_names buf = take max acc ∧
  (length acc ≤ max → buf_count buf = length acc) ∧
  (max < length acc → max < buf_count buf).

Lemma add_unique_represents acc buf x :
  represents acc buf →
  represents (if bool_decide (x ∈ acc) then acc else acc ++ [x]) (add_unique max buf x).
Proof.
  intros (Hn & Hle & Hgt). unfold add_unique, represents. rewrite Hn.
  destruct (decide (length acc < max)) as [Hlt|Hge].
  - rewrite take_ge by lia. case_bool_decide as Hx; simpl.
    + rewrite Hn, take_ge by lia. auto with lia.
    + rewrite length_app, take_ge by (rewrite length_app; simpl; lia). simpl.
      rewrite Hle by lia. rewrite (proj2 (Nat.ltb_lt _ _)) by lia. auto with lia.
  - assert (Hc : (buf_count buf <? max) = false).
    { apply Nat.ltb_ge. destruct (decide (length acc = max)); [rewrite Hle|]; lia. }
    rewrite Hc.
    case_bool_decide as H1; case_bool_decide as H2; simpl; rewrite ?length_app; simpl; auto.
    + rewrite elem_of_take in H1. destruct H1 as (i & Hi & _).
      by apply list_elem_of_lookup_2 in Hi.
    + split; [done|]. split; [|lia].
      intros Hl. assert (length acc = max) by lia.
      rewrite take_ge in H1 by lia. done.
    + rewrite take_app_le by lia. split; [done|]. split; [lia|]. intros _.
      destruct (decide (length acc = max)); [rewrite Hle|]; lia.
Qed.

Lemma fold_represents l acc buf :
  represents acc buf →
  represents (fold_left (fun acc x => if bool_decide (x ∈ acc) then acc else acc ++ [x]) l acc)
             (fold_left (add_unique max) l buf).
Proof.
  revert acc buf; induction l as [|x l IH]; intros acc buf Hr; simpl; [done|].
  apply IH, add_unique_represents, Hr.
Qed.

(** A walk that adds [own] at a node and [edge] before each child adds the
    occurrences of the tree. *)
Lemma walk_occurrences own edge (walk : cxpr_expr_ast → name_buf A → name_buf A) :
  (∀ s d buf, walk (Ast s d) buf =
     fold_left (fun buf e => walk e (fold_left (add_unique max) (edge d e) buf))
       (visited_children d) (fold_left (add_unique max) (own d) buf)) →
  ∀ a buf, walk a buf = fold_left (add_unique max) (occurrences own edge a) buf.
Proof.
  intros Hw. induction a as [s d IH] using ast_ind. intros buf.
  rewrite Hw, occurrences_eq, fold_left_app.
  assert (IH' : Forall (fun e => ∀ buf, walk e buf =
    fold_left (add_unique max) (occurrences own edge e) buf) (visited_children d))
    by (destruct d; simpl; auto). clear IH.
  generalize (fold_left (add_unique max) (own d) buf). clear buf.
  induction IH' as [|e l He _ IHl]; intros buf; simpl; [done|].
  by rewrite IHl, He, !fold_left_app.
Qed.

Lemma walk_collected own edge (walk : cxpr_expr_ast → name_buf A → name_buf A) a :
  (∀ s d buf, walk (Ast s d) buf =
     fold_left (fun buf e => walk e (fold_left (add_unique max) (edge d e) buf))
       (visited_children d) (fold_left (add_unique max) (own d) buf)) →
  collected max (occurrences own edge a) (walk a buf_empty).
Proof.
  intros Hw. rewrite (walk_occurrences own edge walk Hw). apply fold_represents.
  unfold represents. simpl. rewrite take_nil. auto with lia.
Qed.

End collected.

(** ** Correctness *)

Lemma fold_left_ext {A B} (f g : A → B → A) l a :
  (∀ a b, f a b = g a b) → fold_left f l a = fold_left g l a.
Proof. intros H. revert a; induction l; intros a'; simpl; [done|]. by rewrite H. Qed.

Lemma collect_references_eq max s d buf :
  cxpr_collect_references max (Ast s d) buf =
  fold_left (fun buf e => cxpr_collect_references max e (fold_left (add_unique max) (no_edge d e) buf))
    (visited_children d) (fold_left (add_unique max) (own_reference d) buf).
Proof. destruct d as [| | | | | | | |? ? ? []| | | | | | |]; reflexivity. Qed.

(** The empty name is never reported; any other name is found exactly when it
    occurs. *)
Lemma contains_occurrences own (query : string → cxpr_expr_ast → bool) name :
  (∀ s d, query name (Ast s d) = true ↔
     name ∈ own d ∨ Exists (fun e => query name e = true) (visited_children d)) →
  ∀ a, query name a = true ↔ name ∈ occurrences own no_edge a.
Proof.
  intros Hq. induction a as [s d IH] using ast_ind.
  rewrite Hq, occurrences_eq, elem_of_app. f_equiv.
  assert (IH' : Forall (fun e => query name e = true ↔ name ∈ occurrences own no_edge e)
                  (visited_children d)) by (destruct d; simpl; auto). clear IH.
  induction IH' as [|e l He _ IHl]; simpl; [by rewrite Exists_nil, elem_of_nil|].
  by rewrite Exists_cons, elem_of_app, He, IHl.
Qed.

Lemma Exists_existsb {A} (f : A → bool) l : Exists (fun e => f e = true) l ↔ existsb f l = true.
Proof. by rewrite existsb_exists, Exists_exists; setoid_rewrite list_elem_of_In. Qed.

Ltac solve_query :=
  simpl; rewrite ?Exists_cons, ?Exists_nil, ?orb_true_iff, ?Exists_existsb, ?elem_of_nil,
    ?list_elem_of_singleton, ?String.eqb_eq; intuition congruence.

Lemma contains_reference_spec name a :
  contains_reference name a = true ↔ name ∈ reference_names a.
Proof.
  apply contains_occurrences. intros s d.
  destruct d as [| | | | | | | |? ? ? []| | | | | | |]; solve_query.
Qed.

Lemma contains_variable_spec name a :
  contains_variable name a = true ↔ name ∈ variable_names a.
Proof. apply contains_occurrences. intros s d. destruct d; solve_query. Qed.

Lemma references_collected a max :
  collected max (reference_names a) (cxpr_expr_ast_references a max).
Proof. apply walk_collected. intros s d buf. apply collect_references_eq. Qed.

Lemma variables_collected a max :
  collected max (variable_names a) (cxpr_expr_ast_variables_used a max).
Proof. apply walk_collected. intros s d buf. by destruct d. Qed.

Lemma collected_all {A} `{EqDecision A} max (occ : list A) buf x :
  collected max occ buf → length occ ≤ max → x ∈ buf_names buf ↔ x ∈ occ.
Proof.
  intros (Hn & _) Hl. rewrite Hn, take_ge; [apply elem_of_distinct|].
  transitivity (length occ); [|done]. apply submseteq_length, NoDup_submseteq; [apply NoDup_distinct|].
  intros y. by rewrite elem_of_distinct.
Qed.

Lemma collected_sub {A} `{EqDecision A} max (occ : list A) buf x :
  collected max occ buf → x ∈ buf_names buf → x ∈ occ.
Proof.
  intros (Hn & _). rewrite Hn. intros (i & Hi & _)%elem_of_take.
  by apply elem_of_distinct, list_elem_of_lookup_2 with i.
Qed.

(** Every collector stores the distinct names of its kind in the order of
    their first occurrence in the tree, cut at the length of the caller's array,
    and returns their number when they fit, a larger number than the array's
    length when they do not. *)
Theorem collectors_correct a max :
  collected max (reference_names a) (cxpr_expr_ast_references a max) ∧
  collected max (function_names a) (cxpr_expr_ast_functions_used a max) ∧
  collected max (variable_names a) (cxpr_expr_ast_variables_used a max) ∧
  collected max (producer_fields a) (cxpr_expr_ast_producer_fields_used a max) ∧
  ∀ name variable,
    collected max (occurrences (fun _ => []) (call_edge name variable) a)
      (cxpr_collect_call_arg_contexts max name variable a buf_empty).
Proof.
  split_and!; [apply references_collected| |apply variables_collected| |intros name variable];
    apply walk_collected; intros s d buf; [by destruct d..|].
  destruct d; simpl; try done; try (by unfold call_edge; repeat case_match);
    apply fold_left_ext; intros b e; unfold call_edge; by case_match.
Qed.

(** The boolean queries agree with the collectors: a non-empty name is
    reported exactly when it is among the names a large enough array would
    receive, and the empty name never. *)
Theorem contains_iff_collected a name max :
  length (reference_names a) ≤ max → length (variable_names a) ≤ max →
  (cxpr_expr_ast_contains_reference a name = true ↔
     name ≠ "" ∧ name ∈ buf_names (cxpr_expr_ast_references a max)) ∧
  (cxpr_expr_ast_contains_variable a name = true ↔
     name ≠ "" ∧ name ∈ buf_names (cxpr_expr_ast_variables_used a max)).
Proof.
  intros Hr Hv.
  unfold cxpr_expr_ast_contains_reference, cxpr_expr_ast_contains_variable,
    cxpr_expr_ast_contains_reference_impl, cxpr_expr_ast_contains_variable_impl.
  rewrite !andb_true_iff, !negb_true_iff, !String.eqb_neq.
  rewrite contains_reference_spec, contains_variable_spec.
  rewrite (collected_all _ _ _ _ (references_collected a max) Hr).
  by rewrite (collected_all _ _ _ _ (variables_collected a max) Hv).
Qed.

(** [a + $p * a.b]: both queries at work. *)
Definition sample_tree : cxpr_expr_ast :=
  cxpr_expr_ast_binary_new CXPR_TOK_PLUS (cxpr_expr_ast_identifier_new "a")
    (cxpr_expr_ast_binary_new CXPR_TOK_STAR (cxpr_expr_ast_param_new "p")
       (cxpr_expr_ast_field_new "a" "b")).

Lemma contains_iff_collected_witness :
  cxpr_expr_ast_contains_reference sample_tree "a.b" = true ∧
  "p" ∈ buf_names (cxpr_expr_ast_variables_used sample_tree 8).
Proof.
  pose proof (contains_iff_collected sample_tree "a.b" 8 ltac:(vm_compute; lia)
    ltac:(vm_compute; lia)) as [[_ Hr] _].
  split; [|vm_compute; by left].
  apply Hr. split; [done|]. vm_compute. right. by left.
Defined.
