(* ===== verification/DepOrder.v ===== *)
(** * DepOrder: ordering by dependencies ([src/expression/expression.c])

    The two graph algorithms of [cxpr_expression_topo_sort] over [n] entries and
    the test [dep i j], "entry [i] depends on entry [j]": the depth-first search
    for a cycle and the queue that orders the entries.  The search decides whether
    the dependencies have a cycle ([has_cycle_false]); when they have none the
    queue emits every entry behind everything it depends on ([queue_order_spec]). *)

From Stdlib Require Import ZArith Lia.
From stdpp Require Import base list sets relations.
From S2P Require Import Prelude.
Local Open Scope run_scope.
Local Open Scope nat_scope.

(** The values 0, 1 and 2 of the array [visited]. *)
Inductive colour : Type := White | Grey | Black.

#[export] Instance colour_eq_dec : EqDecision colour.
Proof. solve_decision. Defined.

Section algorithms.
Context (n : nat) (dep : nat → nat → bool).

(** ** The search for a cycle *)

(** The loop over the successors of [node]; [dfs] is the recursive call. *)
Fixpoint dfs_successors (dfs : nat → list colour → bool * list colour) (node : nat)
    (idx : list nat) (visited : list colour) : bool * list colour :=
  match idx with
  | [] => (false, visited)
  | i :: idx =>
      if i =? node then dfs_successors dfs node idx visited
      else if negb (dep node i) then dfs_successors dfs node idx visited
      else match visited !! i with
           | Some Grey => (true, visited)
           | Some White =>
               let '(found, visited) := dfs i visited in
               if found then (true, visited) else dfs_successors dfs node idx visited
           | _ => dfs_successors dfs node idx visited
           end
  end.

(** [remaining] is [max_depth + 1 - depth]: it is zero when [depth > max_depth]. *)
Fixpoint dfs_cycle (remaining : nat) (node : nat) (visited : list colour) : bool * list colour :=
  match remaining with
  | O => (true, visited)
  | S remaining =>
      let visited := <[node := Grey]> visited in
      if dep node node then (true, visited)
      else
        let '(found, visited) := dfs_successors (dfs_cycle remaining) node (seq 0 n) visited in
        if found then (true, visited) else (false, <[node := Black]> visited)
  end.

(** The loop over all entries. *)
Fixpoint dfs_all (idx : list nat) (visited : list colour) : bool :=
  match idx with
  | [] => false
  | i :: idx =>
      match visited !! i with
      | Some White =>
          let '(found, visited) := dfs_cycle (n + 1) i visited in
          if found then true else dfs_all idx visited
      | _ => dfs_all idx visited
      end
  end.

Definition has_cycle : bool := dfs_all (seq 0 n) (replicate n White).

(** ** The queue *)

Definition in_degree_of (i : nat) : Z :=
  Z.of_nat (length (filter (fun j => i ≠ j ∧ dep i j = true) (seq 0 n))).
Definition in_degrees : list Z := map in_degree_of (seq 0 n).

(** [queue[back++] = i] into an array of [n] slots. *)
Definition enqueue (queue : list nat) (i : nat) : run (list nat) :=
  if length queue <? n then Done (queue ++ [i]) else Undef.

(** The loop over the dependents of [node]. *)
Fixpoint relax (node : nat) (idx : list nat) (in_degree : list Z) (queue : list nat)
    : run (list Z * list nat) :=
  match idx with
  | [] => Done (in_degree, queue)
  | i :: idx =>
      if negb (i =? node) && dep i node then
        match in_degree !! i with
        | None => Undef
        | Some d =>
            let d := wrap64 (d - 1) in
            let in_degree := <[i := d]> in_degree in
            if (d =? 0)%Z
            then let* queue := enqueue queue i in relax node idx in_degree queue
            else relax node idx in_degree queue
        end
      else relax node idx in_degree queue
  end.

Fixpoint first_ready (idx : list nat) (in_degree : list Z) (queue : list nat) : run (list nat) :=
  match idx with
  | [] => Done queue
  | i :: idx =>
      if bool_decide (in_degree !! i = Some 0%Z)
      then let* queue := enqueue queue i in first_ready idx in_degree queue
      else first_ready idx in_degree queue
  end.

(** [while (front < back)] *)
Fixpoint drain (fuel front : nat) (in_degree : list Z) (queue order : list nat)
    : run (list nat) :=
  match fuel with
  | O => OutOfFuel
  | S fuel =>
      match queue !! front with
      | None => Done order
      | Some node =>
          let* '(in_degree, queue) := relax node (seq 0 n) in_degree queue in
          drain fuel (S front) in_degree queue (order ++ [node])
      end
  end.

(** The entries in the order the queue emits them. *)
Definition queue_order : run (list nat) :=
  let* queue := first_ready (seq 0 n) in_degrees [] in
  drain (n + 1) 0 in_degrees queue [].

(** ** Specification *)

Definition edge (i j : nat) : Prop := i < n ∧ j < n ∧ dep i j = true.
Definition acyclic : Prop := ∀ i, ¬ tc edge i i.

(** Everything [i] depends on stands before it. *)
Definition ordered (order : list nat) : Prop :=
  ∀ k i j, order !! k = Some i → edge i j → ∃ m, m < k ∧ order !! m = Some j.

Abbreviation grounded := (Acc (flip edge)).

(** ** The search is correct *)

Implicit Types (v : list colour) (path : list nat).

(** What the search maintains on the way to [node]: the grey entries are a [path]
    that leads to it, and a black entry has no infinite chain of dependencies. *)
Definition search_inv (node : nat) path v : Prop :=
  length v = n ∧ NoDup path ∧ (∀ g, v !! g = Some Grey ↔ g ∈ path) ∧
  (∀ g, g ∈ path → rtc edge g node) ∧ (∀ b, v !! b = Some Black → grounded b).

(** The change of the colours by a search that found no cycle. *)
Definition searched v v' : Prop :=
  length v' = length v ∧ (∀ i, v' !! i = Some Grey ↔ v !! i = Some Grey) ∧
  (∀ i, v !! i = Some Black → v' !! i = Some Black) ∧
  (∀ b, v' !! b = Some Black → grounded b).

Definition search_post (post : list colour → Prop) v (r : bool * list colour) : Prop :=
  if fst r then ∃ x, tc edge x x else searched v (snd r) ∧ post (snd r).

Lemma searched_refl v : (∀ b, v !! b = Some Black → grounded b) → searched v v.
Proof. intros H. by split_and!. Qed.

Lemma searched_trans v v' v'' : searched v v' → searched v' v'' → searched v v''.
Proof.
  intros (Hl & Hg & Hb & _) (Hl' & Hg' & Hb' & HG).
  split_and!; [congruence|intros i; by rewrite Hg'|auto|done].
Qed.

Lemma searched_inv node path v v' :
  search_inv node path v → searched v v' → search_inv node path v'.
Proof.
  intros (Hl & Hnd & Hg & Hp & _) (Hl' & Hg' & _ & HG). split_and!; [congruence|done| |done|done].
  intros g. by rewrite Hg'.
Qed.

Lemma path_bound node path v : search_inv node path v → length path ≤ n.
Proof.
  intros (Hl & Hnd & Hg & _). rewrite <- (length_seq n 0).
  apply submseteq_length, NoDup_submseteq; [done|]. intros g Hin.
  apply Hg, lookup_lt_Some in Hin. apply elem_of_seq. lia.
Qed.

(** The loop over the successors, given the search at a smaller depth. *)
Lemma dfs_successors_spec dfs node path idx v :
  (∀ i v, edge node i → v !! i = Some White → search_inv i path v →
     search_post (fun v' => v' !! i = Some Black) v (dfs i v)) →
  node ∈ path → node < n → Forall (fun i => i < n) idx → search_inv node path v →
  search_post (fun v' => ∀ i, i ∈ idx → i ≠ node → edge node i → v' !! i = Some Black) v
    (dfs_successors dfs node idx v).
Proof.
  intros Hdfs Hnode Hn. revert v. induction idx as [|i idx IH]; intros v Hidx Hinv; simpl.
  { split; [apply searched_refl, Hinv|]. by intros i ?%elem_of_nil. }
  apply Forall_cons in Hidx as [Hi Hidx].
  assert (Hskip : ∀ v', searched v v' →
      (i ≠ node → edge node i → v' !! i = Some Black) →
      search_post (fun v' => ∀ i0, i0 ∈ i :: idx → i0 ≠ node → edge node i0 → v' !! i0 = Some Black)
        v (dfs_successors dfs node idx v')).
  { intros v' Hs Hb. pose proof (IH v' Hidx (searched_inv _ _ _ _ Hinv Hs)) as H.
    unfold search_post in *. destruct (fst _); [done|]. destruct H as [H1 H2].
    split; [by eapply searched_trans|]. intros k [->|Hk]%elem_of_cons Hne He; [|by apply H2].
    destruct H1 as (_ & _ & Hkeep & _). auto. }
  pose proof (searched_refl v ltac:(apply Hinv)) as Hrefl.
  destruct (Nat.eqb_spec i node) as [->|Hne]; [by apply Hskip|].
  destruct (dep node i) eqn:Hd; simpl; [|apply Hskip; [done|]; intros _ (_ & _ & ?); congruence].
  assert (He : edge node i) by done.
  destruct (v !! i) as [[]|] eqn:Hc.
  - pose proof (Hdfs i v He Hc) as H. destruct (dfs i v) as [found v'].
    assert (Hi' : search_inv i path v).
    { destruct Hinv as (? & ? & ? & Hp & ?). split_and!; try done. intros g Hg.
      eapply rtc_r; [by apply Hp|done]. }
    specialize (H Hi'). unfold search_post in H. simpl in H. destruct found; [done|].
    destruct H as [Hs Hb]. by apply Hskip.
  - unfold search_post. simpl. exists node. destruct Hinv as (_ & _ & Hg & Hp & _).
    apply tc_rtc_r with i; [by apply tc_once|]. by apply Hp, Hg.
  - by apply Hskip.
  - apply lookup_ge_None in Hc. destruct Hinv as (? & _). lia.
Qed.

Lemma search_enter node path v :
  node < n → v !! node = Some White → search_inv node path v →
  search_inv node (node :: path) (<[node := Grey]> v).
Proof.
  intros Hn Hw (Hl & Hnd & Hg & Hp & Hb). split_and!; [by rewrite length_insert| | | |].
  - constructor; [|done]. intros Hin. apply Hg in Hin. congruence.
  - intros g. rewrite elem_of_cons, <- Hg, list_lookup_insert_Some.
    destruct (decide (node = g)) as [<-|]; [|naive_solver].
    split; [auto|]. intros _. left. split_and!; auto. lia.
  - intros g [->|?]%elem_of_cons; [done|auto].
  - intros b Hbl. apply list_lookup_insert_Some in Hbl as [(_ & ? & _)|[_ ?]]; [done|auto].
Qed.

Lemma dfs_cycle_spec remaining node path v :
  length path + remaining = n + 1 → node < n → v !! node = Some White →
  search_inv node path v →
  search_post (fun v' => v' !! node = Some Black) v (dfs_cycle remaining node v).
Proof.
  revert node path v. induction remaining as [|remaining IH]; intros node path v Hr Hn Hw Hinv.
  { pose proof (path_bound _ _ _ Hinv). lia. }
  simpl. destruct (dep node node) eqn:Hself; [exists node; by apply tc_once|].
  pose proof (search_enter _ _ _ Hn Hw Hinv) as Hinv'.
  pose proof (dfs_successors_spec (dfs_cycle remaining) node (node :: path) (seq 0 n) _
    ltac:(intros i v' He Hw' Hi; apply (IH i (node :: path)); [simpl; lia|apply He|done|done])
    ltac:(by left) Hn ltac:(apply Forall_forall; intros i Hi; apply elem_of_seq in Hi; lia) Hinv') as H.
  destruct (dfs_successors _ _ _ _) as [found v']. unfold search_post in *. simpl in *.
  destruct found; [done|]. destruct H as [(Hl & Hg & Hb & HG) Hblack]. simpl.
  assert (Hnode : node < length v) by (by eapply lookup_lt_Some).
  rewrite length_insert in Hl.
  assert (Hacc : grounded node).
  { constructor. intros i He. apply HG, Hblack; [apply elem_of_seq; destruct He; lia| |done].
    intros ->. destruct He as (_ & _ & ?). congruence. }
  split; [|by rewrite list_lookup_insert_eq by lia].
  split_and!.
  - by rewrite length_insert.
  - intros i. destruct (decide (node = i)) as [<-|Hne].
    + rewrite list_lookup_insert_eq by lia. rewrite Hw. naive_solver.
    + by rewrite list_lookup_insert_ne, Hg, list_lookup_insert_ne.
  - intros i Hi. destruct (decide (node = i)) as [<-|Hne]; [by rewrite list_lookup_insert_eq by lia|].
    rewrite list_lookup_insert_ne by done. apply Hb. by rewrite list_lookup_insert_ne.
  - intros b Hbl. destruct (decide (node = b)) as [<-|Hne]; [done|].
    rewrite list_lookup_insert_ne in Hbl by done. by apply HG.
Qed.

Lemma grounded_no_cycle i : grounded i → ¬ tc edge i i.
Proof.
  induction 1 as [i _ IH]. intros Hc. inversion Hc as [|? y ? He Hc']; subst.
  - by apply (IH i); [|apply tc_once].
  - apply (IH y He). eapply tc_r; [exact Hc'|exact He].
Qed.

Lemma dfs_all_spec idx v :
  Forall (fun i => i < n) idx → length v = n → (∀ i, v !! i ≠ Some Grey) →
  (∀ b, v !! b = Some Black → grounded b) →
  if dfs_all idx v then ∃ x, tc edge x x
  else ∀ i, i ∈ idx → grounded i.
Proof.
  revert v. induction idx as [|i idx IH]; intros v Hidx Hl Hg Hb; simpl.
  { by intros i ?%elem_of_nil. }
  apply Forall_cons in Hidx as [Hi Hidx].
  assert (Hcons : ∀ b : bool, grounded i → (if b then ∃ x, tc edge x x else ∀ j, j ∈ idx → grounded j) →
            if b then ∃ x, tc edge x x else ∀ j, j ∈ i :: idx → grounded j).
  { intros [] Hgi Hr; [done|]. intros j [->|?]%elem_of_cons; auto. }
  destruct (v !! i) as [[]|] eqn:Hc; [|by destruct (Hg i)| |].
  - assert (Hinv : search_inv i [] v).
    { split_and!; [done|constructor| |by intros g ?%elem_of_nil|done].
      intros g. rewrite elem_of_nil. by split; [apply Hg|]. }
    pose proof (dfs_cycle_spec (n + 1) i [] v ltac:(simpl; lia) Hi Hc Hinv) as H.
    destruct (dfs_cycle (n + 1) i v) as [found v']. unfold search_post in H. simpl in H.
    destruct found; [done|]. destruct H as [(Hl' & Hg' & _ & HG) Hblack].
    apply Hcons; [by apply HG|]. apply IH; [done|congruence| |done].
    intros j Hj. apply Hg' in Hj. by apply (Hg j).
  - apply Hcons; [by apply Hb|]. by apply IH.
  - apply lookup_ge_None in Hc. lia.
Qed.

Lemma has_cycle_spec :
  if has_cycle then ∃ x, tc edge x x else ∀ i, i < n → grounded i.
Proof.
  assert (H : if has_cycle then ∃ x, tc edge x x else ∀ i, i ∈ seq 0 n → grounded i).
  { apply dfs_all_spec.
    - apply Forall_forall. intros i ?%elem_of_seq. lia.
    - apply length_replicate.
    - intros i. rewrite lookup_replicate. naive_solver.
    - intros b. rewrite lookup_replicate. naive_solver. }
  destruct has_cycle; [done|]. intros i Hi. apply H, elem_of_seq. lia.
Qed.

Lemma has_cycle_false : has_cycle = false ↔ acyclic.
Proof.
  pose proof has_cycle_spec as H. split.
  - intros E i Hc. rewrite E in H. eapply grounded_no_cycle, Hc.
    apply H. inversion Hc as [? ? [? _]|? ? ? [? _] _]; done.
  - intros Ha. destruct has_cycle; [|done]. destruct H as [x Hx]. by destruct (Ha x).
Qed.

(** ** The queue is correct *)

Implicit Types (done queue order : list nat) (in_degree : list Z).

(** What [i] depends on and is not among [done]. *)
Definition pending done (i : nat) : list nat :=
  filter (fun j => i ≠ j ∧ dep i j = true ∧ j ∉ done) (seq 0 n).

Lemma elem_of_pending done i j :
  j ∈ pending done i ↔ j < n ∧ i ≠ j ∧ dep i j = true ∧ j ∉ done.
Proof. unfold pending. rewrite list_elem_of_filter, elem_of_seq. intuition lia. Qed.

Lemma NoDup_pending done i : NoDup (pending done i).
Proof. apply NoDup_filter, NoDup_seq. Qed.

Lemma pending_snoc done node i :
  node ∉ done → node < n →
  length (pending done i) =
  length (pending (done ++ [node]) i) + (if negb (i =? node) && dep i node then 1 else 0).
Proof.
  intros Hd Hn. destruct (negb (i =? node) && dep i node) eqn:Hc.
  - apply andb_true_iff in Hc as [Hne%negb_true_iff%Nat.eqb_neq Hdep].
    transitivity (length (node :: pending (done ++ [node]) i)); [|simpl; lia].
    apply Permutation_length, NoDup_Permutation; [apply NoDup_pending| |].
    + constructor; [|apply NoDup_pending]. rewrite elem_of_pending. set_solver.
    + intros j. rewrite elem_of_cons, !elem_of_pending.
      destruct (decide (j = node)) as [->|]; [|set_solver]. naive_solver.
  - rewrite Nat.add_0_r. apply Permutation_length, NoDup_Permutation; [apply NoDup_pending..|].
    intros j. rewrite !elem_of_pending. destruct (decide (j = node)) as [->|]; [|set_solver].
    split; [|set_solver]. intros (_ & Hne & Hdep & _). rewrite Hdep, andb_true_r in Hc.
    apply negb_false_iff, Nat.eqb_eq in Hc. congruence.
Qed.

(** The in-degrees count what is pending. *)
Definition counts done in_degree : Prop :=
  ∀ i, i < n → in_degree !! i = Some (Z.of_nat (length (pending done i))).

Lemma in_degrees_counts : counts [] in_degrees.
Proof.
  intros i Hi. unfold in_degrees. rewrite list_lookup_fmap, lookup_seq_lt by lia. simpl.
  unfold in_degree_of, pending. do 3 f_equal. apply list_filter_iff. set_solver.
Qed.

Lemma bounded_length (l : list nat) : NoDup l → (∀ i, i ∈ l → i < n) → length l ≤ n.
Proof.
  intros Hnd Hb. rewrite <- (length_seq n 0). apply submseteq_length, NoDup_submseteq; [done|].
  intros i Hi. apply elem_of_seq. specialize (Hb i Hi). lia.
Qed.

Lemma first_ready_spec idx in_degree queue :
  length queue + length (filter (fun i => in_degree !! i = Some 0%Z) idx) ≤ n →
  first_ready idx in_degree queue =
  Done (queue ++ filter (fun i => in_degree !! i = Some 0%Z) idx).
Proof.
  revert queue. induction idx as [|i idx IH]; intros queue; [by simpl; rewrite app_nil_r|].
  rewrite filter_cons. simpl. unfold enqueue. case_decide as Hd.
  - rewrite bool_decide_eq_true_2 by done. simpl. intros Hl.
    rewrite (proj2 (Nat.ltb_lt _ _)) by lia. cbn [run_bind].
    rewrite IH by (rewrite length_app; simpl; lia). by rewrite <- app_assoc.
  - rewrite bool_decide_eq_false_2 by done. apply IH.
Qed.

(** The entries of [idx] that become ready when [node] is done. *)
Definition readied (node : nat) in_degree (idx : list nat) : list nat :=
  filter (fun i => i ≠ node ∧ dep i node = true ∧ in_degree !! i = Some 1%Z) idx.

Lemma readied_insert node in_degree i d idx :
  i ∉ idx → readied node (<[i := d]> in_degree) idx = readied node in_degree idx.
Proof.
  unfold readied. induction idx as [|j idx IH]; intros Hi; [done|].
  apply not_elem_of_cons in Hi as [Hne Hi]. rewrite !filter_cons, IH by done.
  by rewrite list_lookup_insert_ne.
Qed.

(** The in-degree of [i] after [node] is done. *)
Definition relaxed (node : nat) (idx : list nat) in_degree (i : nat) : option Z :=
  if decide (i ∈ idx ∧ i ≠ node ∧ dep i node = true) then Z.pred <$> in_degree !! i
  else in_degree !! i.

Lemma relax_spec node idx in_degree queue :
  NoDup idx →
  (∀ i, i ∈ idx → i ≠ node → dep i node = true →
     ∃ d, in_degree !! i = Some d ∧ (1 ≤ d < 2 ^ 64)%Z) →
  length queue + length (readied node in_degree idx) ≤ n →
  ∃ in_degree', relax node idx in_degree queue =
      Done (in_degree', queue ++ readied node in_degree idx) ∧
    ∀ i, in_degree' !! i = relaxed node idx in_degree i.
Proof.
  revert in_degree queue. induction idx as [|i idx IH]; intros in_degree queue Hnd Hd Hl.
  { exists in_degree. simpl. by rewrite app_nil_r. }
  apply NoDup_cons in Hnd as [Hi Hnd]. simpl.
  destruct (negb (i =? node) && dep i node) eqn:Hc.
  - apply andb_true_iff in Hc as [Hne%negb_true_iff%Nat.eqb_neq Hdep].
    destruct (Hd i ltac:(by left) Hne Hdep) as (d & Hdi & Hrange). rewrite Hdi.
    assert (Hw : wrap64 (d - 1) = Z.pred d) by (unfold wrap64; rewrite Z.mod_small; lia). rewrite Hw.
    assert (Hrest : ∀ queue', length queue' + length (readied node in_degree idx) ≤ n →
      ∃ in_degree', relax node idx (<[i:=Z.pred d]> in_degree) queue' =
          Done (in_degree', queue' ++ readied node in_degree idx) ∧
        ∀ j, in_degree' !! j = relaxed node (i :: idx) in_degree j).
    { intros queue' Hl'. destruct (IH (<[i:=Z.pred d]> in_degree) queue' Hnd) as (deg' & E & Hdeg').
      - intros j Hj Hjn Hjd. rewrite list_lookup_insert_ne by congruence. apply Hd; [by right|done|done].
      - by rewrite readied_insert.
      - exists deg'. rewrite E, readied_insert by done. split; [done|]. intros j. rewrite Hdeg'.
        unfold relaxed. destruct (decide (j = i)) as [->|Hji].
        + rewrite decide_False by tauto. rewrite decide_True by (split_and!; [by left|done..]).
          rewrite Hdi, list_lookup_insert_eq by (by eapply lookup_lt_Some). done.
        + rewrite list_lookup_insert_ne by done. apply decide_ext. set_solver. }
    unfold readied in Hl |- *. rewrite filter_cons in Hl |- *. fold (readied node in_degree idx) in *.
    destruct (Z.eqb_spec (Z.pred d) 0) as [Hz|Hz].
    + assert (d = 1%Z) as -> by lia. rewrite decide_True in Hl |- * by done. simpl in Hl.
      unfold enqueue. rewrite (proj2 (Nat.ltb_lt _ _)) by lia. cbn [run_bind].
      destruct (Hrest (queue ++ [i])) as (deg' & E & ?); [rewrite length_app; simpl; lia|].
      exists deg'. by rewrite E, <- app_assoc.
    + rewrite decide_False in Hl |- * by (intros (_ & _ & E); rewrite Hdi in E; congruence || (injection E; lia)).
      by apply Hrest.
  - assert (Hno : ¬ (i ≠ node ∧ dep i node = true)).
    { intros [Hne Hdep]. rewrite Hdep, andb_true_r in Hc.
      by apply negb_false_iff, Nat.eqb_eq in Hc. }
    unfold readied in Hl |- *. rewrite filter_cons in Hl |- *.
    rewrite decide_False in Hl |- * by tauto. fold (readied node in_degree idx) in *.
    destruct (IH in_degree queue Hnd) as (deg' & E & Hdeg'); [|done|].
    + intros j Hj. apply Hd. by right.
    + exists deg'. split; [done|]. intros j. rewrite Hdeg'. unfold relaxed.
      apply decide_ext. destruct (decide (j = i)) as [->|]; set_solver.
Qed.

(** What the loop over the queue maintains: [front] entries are done, the queue
    holds exactly the entries with nothing pending, each behind the entries it
    depends on, which are done. *)
Definition queue_inv (front : nat) in_degree queue : Prop :=
  (NoDup queue ∧ (∀ i, i ∈ queue → i < n) ∧ front ≤ length queue) ∧
  counts (take front queue) in_degree ∧
  (∀ i, i < n → i ∈ queue ↔ pending (take front queue) i = []) ∧
  (∀ k i j, queue !! k = Some i → i ≠ j → edge i j → ∃ m, m < k ∧ m < front ∧ queue !! m = Some j).

Lemma pending_nil done i j : pending done i = [] → i ≠ j → edge i j → j ∈ done.
Proof.
  intros Hp Hne (_ & Hj & Hdep). destruct (decide (j ∈ done)) as [|Hd]; [done|].
  assert (Hin : j ∈ pending done i) by (by apply elem_of_pending). rewrite Hp in Hin. set_solver.
Qed.

Lemma pending_bound done i : length (pending done i) ≤ n.
Proof.
  apply bounded_length; [apply NoDup_pending|]. by intros j (? & _)%elem_of_pending.
Qed.

Lemma queue_first :
  ∃ queue, first_ready (seq 0 n) in_degrees [] = Done queue ∧ queue_inv 0 in_degrees queue.
Proof.
  set (ready := filter (fun i => in_degrees !! i = Some 0%Z) (seq 0 n)).
  assert (Hin : ∀ i, i ∈ ready ↔ i < n ∧ pending [] i = []).
  { intros i. unfold ready. rewrite list_elem_of_filter, elem_of_seq. split.
    - intros [Hz Hi]. rewrite (in_degrees_counts i) in Hz by lia.
      split; [lia|]. apply length_zero_iff_nil. injection Hz. lia.
    - intros [Hi Hp]. rewrite (in_degrees_counts i Hi), Hp. split; [done|lia]. }
  assert (Hnd : NoDup ready) by apply NoDup_filter, NoDup_seq.
  exists ready. rewrite first_ready_spec.
  - split; [done|]. split_and!; [done|by intros i [? _]%Hin|lia|apply in_degrees_counts| |].
    + intros i Hi. rewrite Hin. naive_solver.
    + intros k i j Hk Hne He. apply list_elem_of_lookup_2, Hin in Hk as [_ Hp].
      by apply (pending_nil _ _ j Hp Hne), elem_of_nil in He.
  - simpl. fold ready. apply bounded_length; [done|]. by intros i [? _]%Hin.
Qed.

Lemma queue_front front in_degree queue node :
  queue_inv front in_degree queue → queue !! front = Some node →
  node < n ∧ node ∉ take front queue ∧ take (S front) queue = take front queue ++ [node].
Proof.
  intros ((Hnd & Hb & _) & _) Hnode. split_and!.
  - by eapply Hb, list_elem_of_lookup_2.
  - intros (m & Hm & Hlt)%elem_of_take. pose proof (NoDup_lookup _ _ _ _ Hnd Hm Hnode). lia.
  - by apply take_S_r.
Qed.

Lemma elem_of_readied front in_degree queue node i :
  queue_inv front in_degree queue → queue !! front = Some node →
  i ∈ readied node in_degree (seq 0 n) ↔
  i < n ∧ i ∉ queue ∧ pending (take front queue ++ [node]) i = [].
Proof.
  intros Hinv Hnode. pose proof (queue_front _ _ _ _ Hinv Hnode) as (Hn & Hnew & _).
  destruct Hinv as (_ & Hcounts & Hready & _).
  unfold readied. rewrite list_elem_of_filter, elem_of_seq.
  pose proof (pending_snoc (take front queue) node i Hnew Hn) as Hlen. split.
  - intros ((Hne & Hdep & Hone) & Hi). rewrite Hcounts in Hone by lia. injection Hone as Hone.
    rewrite (proj2 (Nat.eqb_neq _ _) Hne), Hdep in Hlen. simpl in Hlen.
    split_and!; [lia| |apply length_zero_iff_nil; lia].
    rewrite Hready by lia. intros E. rewrite E in Hone. done.
  - intros (Hi & Hq & Hp). rewrite Hready in Hq by done. rewrite Hp in Hlen. simpl in Hlen.
    assert (length (pending (take front queue) i) ≠ 0) by (by rewrite length_zero_iff_nil).
    destruct (negb (i =? node) && dep i node) eqn:Hc; [|lia].
    apply andb_true_iff in Hc as [Hne%negb_true_iff%Nat.eqb_neq Hdep].
    split_and!; [done|done| |lia|lia]. rewrite Hcounts, Hlen by done. done.
Qed.

Lemma queue_step front in_degree queue node :
  (Z.of_nat n < 2 ^ 64)%Z → queue_inv front in_degree queue → queue !! front = Some node →
  ∃ in_degree' queue', relax node (seq 0 n) in_degree queue = Done (in_degree', queue') ∧
    queue_inv (S front) in_degree' queue' ∧ take (S front) queue' = take front queue ++ [node].
Proof.
  intros Hsize Hinv Hnode. pose proof (queue_front _ _ _ _ Hinv Hnode) as (Hn & Hnew & Htake).
  pose proof (fun i => elem_of_readied _ _ _ _ i Hinv Hnode) as Hr.
  set (ready := readied node in_degree (seq 0 n)) in *.
  pose proof Hinv as ((Hnd & Hb & Hfront) & Hcounts & Hready & Hord).
  assert (Hlt : front < length queue) by (by eapply lookup_lt_Some).
  assert (Hnd' : NoDup (queue ++ ready)).
  { apply NoDup_app. split_and!; [done|by intros i Hi (_ & ? & _)%Hr|apply NoDup_filter, NoDup_seq]. }
  assert (Hb' : ∀ i, i ∈ queue ++ ready → i < n).
  { intros i [?|Hi]%elem_of_app; [auto|by apply Hr in Hi as [? _]]. }
  destruct (relax_spec node (seq 0 n) in_degree queue) as (deg' & E & Hdeg'); [apply NoDup_seq| | |].
  { intros i Hi%elem_of_seq Hne Hdep. rewrite Hcounts by lia. eexists. split; [done|].
    pose proof (pending_bound (take front queue) i). split; [|lia].
    rewrite (pending_snoc _ node i Hnew Hn), (proj2 (Nat.eqb_neq _ _) Hne), Hdep. simpl. lia. }
  { rewrite <- length_app. by apply bounded_length. }
  exists deg', (queue ++ ready). rewrite E.
  assert (Htake' : take (S front) (queue ++ ready) = take front queue ++ [node])
    by (rewrite take_app_le; [done|lia]).
  split; [done|]. split; [|done]. split_and!; [done|done|rewrite length_app; lia| | |].
  - intros i Hi. rewrite Htake', Hdeg'. unfold relaxed. rewrite Hcounts by done.
    pose proof (pending_snoc _ node i Hnew Hn) as Hlen. case_decide as Hd.
    + destruct Hd as (_ & Hne & Hdep).
      rewrite (proj2 (Nat.eqb_neq _ _) Hne), Hdep in Hlen. simpl in *. f_equal. lia.
    + f_equal. destruct (negb (i =? node) && dep i node) eqn:Hc; [|lia]. destruct Hd.
      apply andb_true_iff in Hc as [?%negb_true_iff%Nat.eqb_neq ?].
      split; [apply elem_of_seq; lia|done].
  - intros i Hi. rewrite Htake', elem_of_app, Hr. split; [|destruct (decide (i ∈ queue)); auto].
    intros [Hq|(_ & _ & ?)]; [|done]. apply Hready in Hq; [|done].
    pose proof (pending_snoc _ node i Hnew Hn) as Hlen. rewrite Hq in Hlen. simpl in Hlen.
    apply length_zero_iff_nil. lia.
  - intros k i j Hk Hne He. apply lookup_app_Some in Hk as [Hk|[Hk Hk']].
    + destruct (Hord k i j Hk Hne He) as (m & ? & ? & Hm). exists m.
      split_and!; [done|lia|by apply lookup_app_l_Some].
    + apply list_elem_of_lookup_2, Hr in Hk' as (_ & _ & Hp).
      pose proof (pending_nil _ _ _ Hp Hne He) as Hj. rewrite <- Htake in Hj.
      apply elem_of_take in Hj as (m & Hm & Hlt'). exists m.
      split_and!; [lia|done|by apply lookup_app_l_Some].
Qed.

Lemma drain_spec fuel front in_degree queue :
  (Z.of_nat n < 2 ^ 64)%Z → n < fuel + front → queue_inv front in_degree queue →
  ∃ in_degree' order, drain fuel front in_degree queue (take front queue) = Done order ∧
    queue_inv (length order) in_degree' order.
Proof.
  intros Hsize. revert front in_degree queue.
  induction fuel as [|fuel IH]; intros front in_degree queue Hfuel Hinv.
  - pose proof Hinv as ((Hnd & Hb & ?) & _). pose proof (bounded_length queue Hnd Hb). lia.
  - simpl. destruct (queue !! front) as [node|] eqn:Hnode.
    + destruct (queue_step _ _ _ _ Hsize Hinv Hnode) as (deg' & queue' & E & Hinv' & Htake).
      rewrite E. cbn [run_bind]. rewrite <- Htake. by apply IH; [lia|].
    + apply lookup_ge_None in Hnode. pose proof Hinv as ((_ & _ & ?) & _).
      assert (front = length queue) as -> by lia. exists in_degree, queue.
      by rewrite firstn_all.
Qed.

(** An entry whose chains of dependencies end reaches the queue. *)
Lemma grounded_queued in_degree order i :
  queue_inv (length order) in_degree order → grounded i → i < n → i ∈ order.
Proof.
  intros (_ & _ & Hready & _). rewrite firstn_all in Hready.
  induction 1 as [i _ IH]. intros Hi. apply Hready; [done|].
  destruct (pending order i) as [|j l] eqn:Hp; [done|].
  assert (Hj : j ∈ pending order i) by (rewrite Hp; by left).
  apply elem_of_pending in Hj as (Hj & Hne & Hdep & Hout). destruct Hout. by apply IH.
Qed.

(** ** The order is correct *)

Lemma queue_order_spec :
  (Z.of_nat n < 2 ^ 64)%Z → acyclic →
  ∃ order, queue_order = Done order ∧ order ≡ₚ seq 0 n ∧ ordered order.
Proof.
  intros Hsize Hacyc. unfold queue_order.
  pose proof has_cycle_spec as Hc. rewrite (proj2 has_cycle_false Hacyc) in Hc.
  destruct queue_first as (queue & Hq & Hinv). rewrite Hq. cbn [run_bind].
  destruct (drain_spec (n + 1) 0 in_degrees queue Hsize ltac:(lia) Hinv) as (deg & order & Hd & Hinv').
  rewrite take_0 in Hd. exists order. split; [done|].
  pose proof Hinv' as ((Hnd & Hb & _) & _ & _ & Hord). split.
  - apply NoDup_Permutation; [done|apply NoDup_seq|]. intros i. rewrite elem_of_seq. split.
    + intros Hi%Hb. lia.
    + intros [_ Hi]. by eapply grounded_queued; [|apply Hc|].
  - intros k i j Hk He.
    destruct (decide (i = j)) as [->|Hne]; [by destruct (Hacyc j); apply tc_once|].
    destruct (Hord k i j Hk Hne He) as (m & ? & _ & ?). by exists m.
Qed.

End algorithms.
