(* ===== verification/CallArgs.v ===== *)
(** * CallArgs: binding the arguments of a call ([src/call/args.c])

    A call gives positional arguments and then named ones; the binder puts them
    in the order of the function's parameters.  Names may fill any window of
    consecutive parameters (leading parameters with defaults may be left out);
    when no window fits, a second pass finds the error to report.

    The caller's array and the window's [candidate_args] have
    [CXPR_MAX_CALL_ARGS] slots: every store is written out, and one behind its
    array is [Undef].  The binder is generic in the type of arguments. *)

From Stdlib Require Import Ascii String ZArith Lia.
From stdpp Require Import base list strings sets.
From S2P Require Import Prelude Float64 Types Ast References.
Local Open Scope run_scope.
Local Open Scope nat_scope.

Definition CXPR_MAX_PARAM_NAMES : nat := 64.
Definition CXPR_CALL_SLOTS : nat := 32.

Definition cxpr_call_param_name_matches (param_name arg_name : string) : bool :=
  String.eqb param_name arg_name ||
  (String.eqb param_name "value" && String.eqb arg_name "condition") ||
  (String.eqb param_name "mult" && String.eqb arg_name "multiplier") ||
  (String.eqb param_name "multiplier" && String.eqb arg_name "mult") ||
  (String.eqb param_name "samples" && String.eqb arg_name "bars").

(** The index of the first parameter that matches. *)
Fixpoint find_param (params : list string) (arg_name : string) : option nat :=
  match params with
  | [] => None
  | p :: params =>
      if cxpr_call_param_name_matches p arg_name then Some 0
      else option_map S (find_param params arg_name)
  end.

Section bind.
Context {A : Type}.

(** ** Stores

    The caller's array and [candidate_args] have [CXPR_CALL_SLOTS] entries.  An
    array is the list of the entries the binder looks at, [None] for one that was
    not stored to; a store behind the array is undefined. *)
Definition write_slot (j : nat) (a : A) (slots : list (option A)) : run (list (option A)) :=
  if j <? CXPR_CALL_SLOTS then Done (<[j := Some a]> slots) else Undef.

(** [for (i = 0; i < argc; ++i) out_args[i] = args[i];] *)
Fixpoint copy_out (i : nat) (args : list A) (out : list (option A)) : run (list (option A)) :=
  match args with
  | [] => Done out
  | a :: args => let* out := write_slot i a out in copy_out (S i) args out
  end.

Definition bind_error : Type := cxpr_error_code * string.

(** The first [argc] entries of the caller's array. *)
Definition read_out (argc : nat) (out : list (option A)) : run (list A + bind_error) :=
  match mapM id (take argc out) with
  | Some bound => Done (inl bound)
  | None => Undef
  end.

(** ** A window of parameters

    [slots] are [candidate_args] with [candidate_used]: an unused slot is
    [None]. *)
Fixpoint window_loop (window : list string) (args : list (option string * A)) (positional : nat)
    (seen_named : bool) (slots : list (option A)) : run (option (list (option A))) :=
  match args with
  | [] => Done (Some slots)
  | (None, a) :: args =>
      if seen_named || (length window <=? positional) then Done None
      else let* slots := write_slot positional a slots in
           window_loop window args (S positional) false slots
  | (Some arg_name, a) :: args =>
      match find_param window arg_name with
      | None => Done None
      | Some j =>
          match slots !! j with
          | Some None => let* slots := write_slot j a slots in window_loop window args positional true slots
          | _ => Done None
          end
      end
  end.

(** The arguments of a window in which every slot is used. *)
Definition try_window (args : list (option string * A)) (window : list string) : run (option (list A)) :=
  let* r := window_loop window args 0 false (replicate (length args) None) in
  Done (match r with None => None | Some slots => mapM id slots end).

Fixpoint first_window (args : list (option string * A)) (params : list string)
    (starts : list nat) : run (option (list A)) :=
  match starts with
  | [] => Done None
  | s :: starts =>
      let* r := try_window args (take (length args) (drop s params)) in
      match r with
      | Some bound => Done (Some bound)
      | None => first_window args params starts
      end
  end.

(** [window_start + argc <= param_count]; the arguments of the first window that
    fits are stored to the caller's array. *)
Definition cxpr_call_bind_named_window (args : list (option string * A)) (params : list string)
    : run (option (list (option A))) :=
  let* r := first_window args params (seq 0 (length params + 1 - length args)) in
  match r with
  | Some bound => let* out := copy_out 0 bound (replicate (length args) None) in Done (Some out)
  | None => Done None
  end.

(** ** The second pass *)

Fixpoint bind_loop (params : list string) (args : list (option string * A)) (positional : nat)
    (seen_named : bool) (slots : list (option A)) : run (list (option A) + bind_error) :=
  match args with
  | [] => Done (inl slots)
  | (None, a) :: args =>
      if seen_named
      then Done (inr (CXPR_ERR_SYNTAX, "Positional arguments cannot follow named arguments"))
      else if length params <=? positional
      then Done (inr (CXPR_ERR_WRONG_ARITY, "Wrong number of arguments"))
      else let* slots := write_slot positional a slots in
           bind_loop params args (S positional) false slots
  | (Some arg_name, a) :: args =>
      match find_param params arg_name with
      | None => Done (inr (CXPR_ERR_SYNTAX, "Unknown named argument"))
      | Some j =>
          match slots !! j with
          | Some None =>
              let* slots := write_slot j a slots in
              bind_loop params args positional true slots
          | _ => Done (inr (CXPR_ERR_SYNTAX, "Duplicate argument"))
          end
      end
  end.

(** [arg_names ? arg_names[i] : NULL] *)
Definition named_args (args : list A) (arg_names : option (list (option string)))
    : list (option string * A) :=
  match arg_names with
  | Some names => zip names args
  | None => map (pair None) args
  end.

(** [params] is the array of [cxpr_registry_entry_param_names], empty for NULL. *)
Definition cxpr_call_bind_args (args : list A) (arg_names : option (list (option string)))
    (params : list string) : run (list A + bind_error) :=
  let argc := length args in
  if CXPR_CALL_SLOTS <? argc
  then Done (inr (CXPR_ERR_WRONG_ARITY, "Too many function arguments"))
  else if negb (cxpr_expr_ast_named_args_present arg_names)
  then let* out := copy_out 0 args (replicate argc None) in read_out argc out
  else if (length params =? 0) || (CXPR_MAX_PARAM_NAMES <? length params)
  then Done (inr (CXPR_ERR_SYNTAX, "Named arguments are not supported for this function"))
  else
    let* window := cxpr_call_bind_named_window (named_args args arg_names) params in
    match window with
    | Some out => read_out argc out
    | None =>
        let* r := bind_loop params (named_args args arg_names) 0 false
                    (replicate CXPR_MAX_PARAM_NAMES None) in
        match r with
        | inr e => Done (inr e)
        | inl slots =>
            match mapM id (take argc slots) with
            | Some bound => Done (inl bound)
            | None => Done (inr (CXPR_ERR_SYNTAX, "Named arguments must fill a positional prefix"))
            end
        end
    end.

(** ** The first pass without its stores *)

Fixpoint window_places (window : list string) (args : list (option string * A)) (positional : nat)
    (seen_named : bool) (slots : list (option A)) : option (list (option A)) :=
  match args with
  | [] => Some slots
  | (None, a) :: args =>
      if seen_named || (length window <=? positional) then None
      else window_places window args (S positional) false (<[positional := Some a]> slots)
  | (Some arg_name, a) :: args =>
      match find_param window arg_name with
      | None => None
      | Some j =>
          match slots !! j with
          | Some None => window_places window args positional true (<[j := Some a]> slots)
          | _ => None
          end
      end
  end.

Definition try_places (args : list (option string * A)) (window : list string) : option (list A) :=
  match window_places window args 0 false (replicate (length args) None) with
  | None => None
  | Some slots => mapM id slots
  end.

Fixpoint first_places (args : list (option string * A)) (params : list string)
    (starts : list nat) : option (list A) :=
  match starts with
  | [] => None
  | s :: starts =>
      match try_places args (take (length args) (drop s params)) with
      | Some bound => Some bound
      | None => first_places args params starts
      end
  end.

Definition window_bound (args : list (option string * A)) (params : list string)
    : option (list A) :=
  first_places args params (seq 0 (length params + 1 - length args)).

(** The result when every store of the first pass is in its array. *)
Definition bind_result (args : list A) (arg_names : option (list (option string)))
    (params : list string) : run (list A + bind_error) :=
  let argc := length args in
  if CXPR_CALL_SLOTS <? argc
  then Done (inr (CXPR_ERR_WRONG_ARITY, "Too many function arguments"))
  else if negb (cxpr_expr_ast_named_args_present arg_names) then Done (inl args)
  else if (length params =? 0) || (CXPR_MAX_PARAM_NAMES <? length params)
  then Done (inr (CXPR_ERR_SYNTAX, "Named arguments are not supported for this function"))
  else match window_bound (named_args args arg_names) params with
       | Some bound => Done (inl bound)
       | None =>
           let* r := bind_loop params (named_args args arg_names) 0 false
                       (replicate CXPR_MAX_PARAM_NAMES None) in
           match r with
           | inr e => Done (inr e)
           | inl slots =>
               match mapM id (take argc slots) with
               | Some bound => Done (inl bound)
               | None => Done (inr (CXPR_ERR_SYNTAX, "Named arguments must fill a positional prefix"))
               end
           end
       end.

(** ** Placement

    [placed params args k seen slots ps slots']: the arguments go to the
    positions [ps], positional ones from [k] on and named ones at the first
    parameter that matches, each into an unused slot. *)
Inductive placed (params : list string)
    : list (option string * A) → nat → bool → list (option A) → list nat → list (option A) → Prop :=
  | placed_nil k seen slots : placed params [] k seen slots [] slots
  | placed_positional a args k slots ps slots' :
      k < length params → placed params args (S k) false (<[k := Some a]> slots) ps slots' →
      placed params ((None, a) :: args) k false slots (k :: ps) slots'
  | placed_named n a args k seen slots j ps slots' :
      find_param params n = Some j → slots !! j = Some None →
      placed params args k true (<[j := Some a]> slots) ps slots' →
      placed params ((Some n, a) :: args) k seen slots (j :: ps) slots'.

Implicit Types (params window : list string) (args : list (option string * A))
  (slots : list (option A)) (ps : list nat).

Lemma window_places_placed window args k seen slots slots' :
  window_places window args k seen slots = Some slots' ↔ ∃ ps, placed window args k seen slots ps slots'.
Proof.
  revert k seen slots. induction args as [|[[n|] a] args IH]; intros k seen slots; simpl.
  - split; [intros [= ->]; exists []; constructor|]. intros [ps Hp]. by inversion Hp.
  - destruct (find_param window n) as [j|] eqn:Hf.
    2: { split; [done|]. intros [ps Hp]. inversion Hp; congruence. }
    destruct (slots !! j) as [[?|]|] eqn:Hj.
    + split; [done|]. intros [ps Hp]. inversion Hp; congruence.
    + rewrite IH. split; intros [ps Hp]; [exists (j :: ps); by constructor|].
      inversion Hp; simplify_eq. eauto.
    + split; [done|]. intros [ps Hp]. inversion Hp; congruence.
  - destruct seen; simpl.
    { split; [done|]. intros [ps Hp]. inversion Hp. }
    destruct (Nat.leb_spec (length window) k) as [Hle|Hlt].
    { split; [done|]. intros [ps Hp]. inversion Hp; subst. lia. }
    rewrite IH. split; intros [ps Hp]; [exists (k :: ps); by constructor|].
    inversion Hp; subst. eauto.
Qed.

Lemma bind_loop_placed params args k seen slots slots' :
  bind_loop params args k seen slots = Done (inl slots') →
  ∃ ps, placed params args k seen slots ps slots'.
Proof.
  revert k seen slots. induction args as [|[[n|] a] args IH]; intros k seen slots; simpl.
  - intros [= ->]. exists []. constructor.
  - destruct (find_param params n) as [j|] eqn:Hf; [|done].
    destruct (slots !! j) as [[?|]|] eqn:Hj; [done| |done]. unfold write_slot.
    destruct (j <? CXPR_CALL_SLOTS); [|done]. cbn [run_bind].
    intros [ps Hp]%IH. exists (j :: ps). by econstructor.
  - destruct seen; [done|]. destruct (Nat.leb_spec (length params) k) as [Hle|Hlt]; [done|].
    unfold write_slot. destruct (k <? CXPR_CALL_SLOTS); [|done]. cbn [run_bind].
    intros [ps Hp]%IH. exists (k :: ps). by constructor.
Qed.

Lemma find_param_lt params n j : find_param params n = Some j → j < length params.
Proof.
  revert j. induction params as [|p params IH]; intros j; simpl; [done|].
  destruct (cxpr_call_param_name_matches p n); [intros [= <-]; lia|].
  destruct (find_param params n) as [j'|]; [|done]. intros [= <-]. specialize (IH j' eq_refl). lia.
Qed.

Lemma find_param_matches params n j :
  find_param params n = Some j →
  ∃ q, params !! j = Some q ∧ cxpr_call_param_name_matches q n = true.
Proof.
  revert j. induction params as [|p params IH]; intros j; simpl; [done|].
  destruct (cxpr_call_param_name_matches p n) eqn:Hm; [intros [= <-]; by exists p|].
  destruct (find_param params n) as [j'|]; [|done]. intros [= <-]. by apply IH.
Qed.

Lemma find_param_take params n j m :
  find_param params n = Some j → j < m → find_param (take m params) n = Some j.
Proof.
  revert j m. induction params as [|p params IH]; intros j m; simpl; [done|].
  destruct m as [|m]; [lia|]. simpl.
  destruct (cxpr_call_param_name_matches p n); [done|].
  destruct (find_param params n) as [j'|]; [|done]. intros [= <-] Hlt.
  by rewrite (IH j' m eq_refl ltac:(lia)).
Qed.

(** Slots from [k] on are unused as long as no name was seen. *)
Definition unused_from (k : nat) (seen : bool) slots : Prop :=
  seen = false → ∀ p, k ≤ p → p < length slots → slots !! p = Some None.

Lemma unused_step k slots a : unused_from k false slots → unused_from (S k) false (<[k := Some a]> slots).
Proof.
  intros Hu _ p Hk Hp. rewrite length_insert in Hp. rewrite list_lookup_insert_ne by lia.
  by apply Hu; [|lia|].
Qed.

(** Where argument [i] went. *)
Definition at_position params (k : nat) (i : nat) (name : option string) (p : nat) : Prop :=
  match name with
  | None => p = k + i
  | Some n => ∃ q, params !! p = Some q ∧ cxpr_call_param_name_matches q n = true
  end.

Lemma placed_named_rest params args k slots ps slots' i a :
  placed params args k true slots ps slots' → args !! i ≠ Some (None, a).
Proof.
  remember true as seen eqn:Hseen. intros Hp. revert i.
  induction Hp as [| |n b args k seen slots j ps slots' Hf Hj Hp IH]; intros i; [done|done|].
  destruct i as [|i]; simpl; [done|]. by apply IH.
Qed.

Lemma placed_spec params args k seen slots ps slots' :
  placed params args k seen slots ps slots' → unused_from k seen slots → length params ≤ length slots →
  length ps = length args ∧ NoDup ps ∧ length slots' = length slots ∧
  (∀ p, p ∈ ps → slots !! p = Some None) ∧ (∀ p, p ∉ ps → slots' !! p = slots !! p) ∧
  (∀ p, p ∈ ps → p < length params) ∧
  (∀ i name a, args !! i = Some (name, a) →
     ∃ p, ps !! i = Some p ∧ slots' !! p = Some (Some a) ∧ at_position params k i name p).
Proof.
  induction 1 as [k seen slots|a args k slots ps slots' Hk Hp IH|n a args k seen slots j ps slots' Hf Hj Hp IH];
    intros Hu Hl.
  { split_and!; [done|constructor|done|set_solver..|set_solver|done]. }
  - assert (Hfree : slots !! k = Some None) by (apply Hu; [done|lia|lia]).
    destruct IH as (Hlen & Hnd & Hls & Hfresh & Hkeep & Hlt & Hat);
      [by apply unused_step|by rewrite length_insert|].
    assert (Hout : k ∉ ps).
    { intros Hin. apply Hfresh in Hin. rewrite list_lookup_insert_eq in Hin by lia. done. }
    rewrite length_insert in Hls. split_and!; [simpl; by f_equal|by constructor|done| | | |].
    + intros p [->|Hin]%elem_of_cons; [done|]. rewrite <- (Hfresh p Hin).
      rewrite list_lookup_insert_ne; [done|]. by intros ->.
    + intros p [Hne Hnin]%not_elem_of_cons. rewrite Hkeep by done. by rewrite list_lookup_insert_ne.
    + intros p [->|?]%elem_of_cons; auto.
    + intros [|i] name b Hi; simpl in Hi.
      * simplify_eq. exists k. split; [done|]. rewrite Hkeep by done.
        rewrite list_lookup_insert_eq by lia. split; [done|]. simpl. lia.
      * destruct (Hat i name b Hi) as (p & ? & ? & Hpos). exists p. split_and!; [done|done|].
        destruct name; [done|]. simpl in *. lia.
  - destruct IH as (Hlen & Hnd & Hls & Hfresh & Hkeep & Hlt & Hat); [done|by rewrite length_insert|].
    assert (Hjl : j < length slots) by (by eapply lookup_lt_Some).
    assert (Hout : j ∉ ps).
    { intros Hin. apply Hfresh in Hin. rewrite list_lookup_insert_eq in Hin by lia. done. }
    rewrite length_insert in Hls. split_and!; [simpl; by f_equal|by constructor|done| | | |].
    + intros p [->|Hin]%elem_of_cons; [done|]. rewrite <- (Hfresh p Hin).
      rewrite list_lookup_insert_ne; [done|]. by intros ->.
    + intros p [Hne Hnin]%not_elem_of_cons. rewrite Hkeep by done. by rewrite list_lookup_insert_ne.
    + intros p [->|?]%elem_of_cons; [by eapply find_param_lt|auto].
    + intros [|i] name b Hi; simpl in Hi.
      * simplify_eq. exists j. split; [done|]. rewrite Hkeep by done.
        rewrite list_lookup_insert_eq by lia. split; [done|]. by apply find_param_matches.
      * destruct (Hat i name b Hi) as (p & ? & ? & Hpos). exists p. split_and!; [done|done|].
        destruct name as [m|]; [done|]. by apply (placed_named_rest _ _ _ _ _ _ i b) in Hp.
Qed.

Lemma placed_take params args k seen slots ps slots' m :
  placed params args k seen slots ps slots' → (∀ p, p ∈ ps → p < m) →
  placed (take m params) args k seen (take m slots) ps (take m slots').
Proof.
  induction 1 as [k seen slots|a args k slots ps slots' Hk Hp IH
    |n a args k seen slots j ps slots' Hf Hj Hp IH]; intros Hm; [constructor| |].
  - assert (k < m) by (apply Hm; set_solver). constructor; [rewrite length_take; lia|].
    rewrite <- take_insert_lt by done. apply IH. set_solver.
  - assert (j < m) by (apply Hm; set_solver).
    econstructor; [by apply find_param_take|by rewrite lookup_take_lt|].
    rewrite <- take_insert_lt by done. apply IH. set_solver.
Qed.

Lemma unused_replicate n : unused_from 0 false (replicate n None).
Proof. intros _ p _ Hp. rewrite length_replicate in Hp. by apply lookup_replicate_2. Qed.

Lemma positions_perm ps n : NoDup ps → length ps = n → (∀ p, p ∈ ps → p < n) → ps ≡ₚ seq 0 n.
Proof.
  intros Hnd Hlen Hlt. apply submseteq_length_Permutation; [|rewrite length_seq; lia].
  apply NoDup_submseteq; [done|]. intros p Hp%Hlt. apply elem_of_seq. lia.
Qed.

Lemma mapM_id_lookup slots (bound : list A) p a :
  mapM id slots = Some bound → slots !! p = Some (Some a) → bound !! p = Some a.
Proof.
  intros Hm%mapM_Some_1 Hp. destruct (Forall2_lookup_l _ _ _ _ _ Hm Hp) as (b & Hb & Hab).
  by simplify_eq/=.
Qed.

(** The arguments bound by one window. *)
Lemma try_places_spec args window bound :
  try_places args window = Some bound → length window = length args →
  ∃ ps, ps ≡ₚ seq 0 (length args) ∧ length bound = length args ∧
    ∀ i name a, args !! i = Some (name, a) →
      ∃ p, ps !! i = Some p ∧ bound !! p = Some a ∧ at_position window 0 i name p.
Proof.
  unfold try_places. intros Htry Hlen.
  destruct (window_places _ _ _ _ _) as [slots|] eqn:Hloop; [|done].
  apply window_places_placed in Hloop as [ps Hp].
  apply placed_spec in Hp as (Hps & Hnd & Hls & _ & _ & Hlt & Hat);
    [|apply unused_replicate|rewrite length_replicate; lia].
  rewrite length_replicate in Hls. exists ps. split_and!.
  - apply positions_perm; [done..|]. intros p Hp. rewrite <- Hlen. auto.
  - apply mapM_Some_1, Forall2_length in Htry. lia.
  - intros i name a Hi. destruct (Hat i name a Hi) as (p & ? & ? & ?). exists p.
    split_and!; [done|by eapply mapM_id_lookup|done].
Qed.

Lemma first_places_some args params starts bound :
  first_places args params starts = Some bound →
  ∃ s, s ∈ starts ∧ try_places args (take (length args) (drop s params)) = Some bound.
Proof.
  induction starts as [|s starts IH]; simpl; [done|].
  destruct (try_places _ _) eqn:Htry; [intros [= <-]; exists s; set_solver|].
  intros (s' & ? & ?)%IH. exists s'. set_solver.
Qed.

Lemma first_places_none args params starts s :
  first_places args params starts = None → s ∈ starts →
  try_places args (take (length args) (drop s params)) = None.
Proof.
  induction starts as [|s' starts IH]; simpl; [set_solver|]. intros Hn Hin.
  destruct (try_places args (take (length args) (drop s' params))) eqn:Htry; [done|].
  apply elem_of_cons in Hin as [->|?]; auto.
Qed.

Lemma write_slot_in j a (slots : list (option A)) : j < CXPR_CALL_SLOTS → write_slot j a slots = Done (<[j := Some a]> slots).
Proof. intros Hj. unfold write_slot. by destruct (Nat.ltb_spec j CXPR_CALL_SLOTS); [|lia]. Qed.

Lemma copy_out_all done (args : list A) :
  length done + length args ≤ CXPR_CALL_SLOTS →
  copy_out (length done) args ((Some <$> done) ++ replicate (length args) None) = Done (Some <$> (done ++ args)).
Proof.
  revert done. induction args as [|a args IH]; intros done Hl; simpl in *; [by rewrite !app_nil_r|].
  rewrite write_slot_in by lia. cbn [run_bind].
  replace (<[length done := Some a]> ((Some <$> done) ++ None :: replicate (length args) None))
    with ((Some <$> (done ++ [a])) ++ replicate (length args) None).
  - specialize (IH (done ++ [a])). rewrite length_app, Nat.add_1_r in IH. rewrite IH by lia. by rewrite <- (assoc_L app).
  - rewrite fmap_app, <- (assoc_L app). replace (length done) with (length (Some <$> done) + 0) by (rewrite length_fmap; lia).
    by rewrite insert_app_r.
Qed.

Lemma mapM_id_Some (l : list A) : mapM id (Some <$> l) = Some l.
Proof. apply mapM_Some_2. induction l; by constructor. Qed.

Lemma copied_out n (args : list A) :
  length args ≤ CXPR_CALL_SLOTS → length args ≤ n →
  copy_out 0 args (replicate (length args) None) = Done (Some <$> args) ∧
  read_out n (Some <$> args) = Done (inl args).
Proof.
  intros Hl Hn. split; [apply (copy_out_all []); simpl; lia|]. unfold read_out.
  rewrite take_ge by (by rewrite length_fmap). by rewrite mapM_id_Some.
Qed.

Lemma window_loop_eq window args k seen slots :
  length window ≤ CXPR_CALL_SLOTS → window_loop window args k seen slots = Done (window_places window args k seen slots).
Proof.
  intros Hw. revert k seen slots. induction args as [|[[n|] a] args IH]; intros k seen slots; simpl; [done| |].
  - destruct (find_param window n) as [j|] eqn:Hf; [|done]. destruct (slots !! j) as [[|]|]; try done.
    apply find_param_lt in Hf. rewrite write_slot_in by lia. apply IH.
  - destruct seen; [done|]. destruct (Nat.leb_spec (length window) k); [done|]. simpl.
    rewrite write_slot_in by lia. apply IH.
Qed.

Lemma first_window_eq args params starts :
  length args ≤ CXPR_CALL_SLOTS → first_window args params starts = Done (first_places args params starts).
Proof.
  intros Hl. induction starts as [|s starts IH]; [done|]. cbn [first_window first_places]. unfold try_window, try_places.
  rewrite window_loop_eq by (rewrite length_take; lia). cbn [run_bind].
  destruct (window_places _ _ _ _ _) as [slots|]; [|done]. by destruct (mapM id slots).
Qed.

Lemma try_places_length args window bound : try_places args window = Some bound → length bound = length args.
Proof.
  unfold try_places. destruct (window_places _ _ _ _ _) as [slots|] eqn:Hw; [|done]. intros Hm%mapM_Some_1%Forall2_length.
  apply window_places_placed in Hw as [ps Hp]. assert (Hlen : ∀ k seen s ps s', placed window args k seen s ps s' → length s' = length s).
  { clear. induction 1; by rewrite ?length_insert in *. }
  apply Hlen in Hp. rewrite length_replicate in Hp. lia.
Qed.

Lemma bind_args_eq (args : list A) arg_names params :
  cxpr_call_bind_args args arg_names params = bind_result args arg_names params.
Proof.
  unfold cxpr_call_bind_args, bind_result. destruct (Nat.ltb_spec CXPR_CALL_SLOTS (length args)) as [|Hl]; [done|].
  destruct (negb _). { destruct (copied_out _ args Hl (le_n _)) as [-> H]. cbn [run_bind]. exact H. }
  destruct (_ || _); [done|]. unfold cxpr_call_bind_named_window, window_bound.
  assert (Hlen : length (named_args args arg_names) ≤ length args).
  { destruct arg_names as [names|]; simpl; [rewrite length_zip_with; lia|by rewrite length_map]. }
  rewrite first_window_eq by lia. cbn [run_bind]. destruct (first_places _ _ _) as [bound|] eqn:Hf; [|done].
  apply first_places_some in Hf as (s & _ & Ht%try_places_length). rewrite <- Ht in *.
  destruct (copied_out (length args) bound ltac:(lia) Hlen) as [-> H]. cbn [run_bind]. exact H.
Qed.

Lemma mapM_id_used slots (bound : list A) p :
  mapM id slots = Some bound → p < length slots → ∃ a, slots !! p = Some (Some a).
Proof.
  intros Hm%mapM_Some_1 Hp. apply lookup_lt_is_Some_2 in Hp as [o Ho].
  destruct (Forall2_lookup_l _ _ _ _ _ Hm Ho) as (b & _ & Hob). simpl in Hob. subst o. eauto.
Qed.

(** What the second pass could still accept, the first window accepts. *)
Lemma bind_loop_window args params slots (bound : list A) :
  length params ≤ CXPR_MAX_PARAM_NAMES → length args ≤ CXPR_MAX_PARAM_NAMES → 0 < length args →
  bind_loop params args 0 false (replicate CXPR_MAX_PARAM_NAMES None) = Done (inl slots) →
  mapM id (take (length args) slots) = Some bound →
  length args ≤ length params ∧ try_places args (take (length args) params) = Some bound.
Proof.
  intros Hpl Hal Hpos [ps Hp]%bind_loop_placed Hm.
  destruct (placed_spec _ _ _ _ _ _ _ Hp) as (Hps & Hnd & Hls & Hfresh & Hkeep & Hlt & _);
    [apply unused_replicate|by rewrite length_replicate|]. rewrite length_replicate in Hls.
  assert (Hall : ∀ p, p < length args → p ∈ ps).
  { intros p Hlen. destruct (decide (p ∈ ps)) as [|Hout]; [done|].
    destruct (mapM_id_used _ _ p Hm) as [a Ha]; [rewrite length_take, Hls; lia|].
    rewrite lookup_take_lt, (Hkeep p Hout), lookup_replicate_2 in Ha by (done || lia). done. }
  assert (Hperm : seq 0 (length args) ≡ₚ ps).
  { apply submseteq_length_Permutation; [|rewrite length_seq; lia].
    apply NoDup_submseteq; [apply NoDup_seq|]. intros p Hin%elem_of_seq. apply Hall. lia. }
  assert (Hlow : ∀ p, p ∈ ps → p < length args).
  { intros p Hin. rewrite <- Hperm in Hin. apply elem_of_seq in Hin. lia. }
  assert (Hle : length args ≤ length params).
  { assert (Hlast : length args - 1 ∈ ps) by (apply Hall; lia). apply Hlt in Hlast. lia. }
  split; [done|]. unfold try_places.
  pose proof (placed_take _ _ _ _ _ _ _ _ Hp Hlow) as Hp'. rewrite take_replicate, min_l in Hp' by lia.
  assert (Hw : window_places (take (length args) params) args 0 false (replicate (length args) None)
               = Some (take (length args) slots)) by (apply window_places_placed; eauto).
  by rewrite Hw.
Qed.

(** With at most 32 parameters every write stays in the caller's array. *)
Lemma bind_loop_defined params args k seen slots :
  length params ≤ CXPR_CALL_SLOTS → ∃ r, bind_loop params args k seen slots = Done r.
Proof.
  intros Hp. revert k seen slots.
  assert (Hw : ∀ j a slots, j < length params → write_slot j a slots = Done (<[j := Some a]> slots)).
  { intros j a slots Hj. unfold write_slot. by destruct (Nat.ltb_spec j CXPR_CALL_SLOTS); [|lia]. }
  induction args as [|[[n|] a] args IH]; intros k seen slots; simpl; [eauto| |].
  - destruct (find_param params n) as [j|] eqn:Hf; [|eauto].
    destruct (slots !! j) as [[?|]|]; [eauto| |eauto].
    rewrite Hw by (by eapply find_param_lt). cbn [run_bind]. apply IH.
  - destruct seen; [eauto|]. destruct (Nat.leb_spec (length params) k); [eauto|].
    rewrite Hw by done. cbn [run_bind]. apply IH.
Qed.

End bind.

Lemma named_args_lookup {A} (args : list A) names i name a :
  names !! i = Some name → args !! i = Some a →
  named_args args (Some names) !! i = Some (name, a).
Proof. intros Hn Ha. simpl. rewrite lookup_zip_with, Hn, Ha. done. Qed.

Lemma named_args_length {A} (args : list A) names :
  length names = length args → length (named_args args (Some names)) = length args.
Proof. intros Hl. simpl. rewrite length_zip_with. lia. Qed.

Lemma present_pos {A} (args : list A) names :
  length names = length args → cxpr_expr_ast_named_args_present (Some names) = true → 0 < length args.
Proof. intros Hl. destruct names; [done|]. simpl in Hl. lia. Qed.

(** A successful bind of a call with names comes from a window. *)
Lemma bind_args_window {A} (args : list A) names params bound :
  length names = length args → cxpr_expr_ast_named_args_present (Some names) = true →
  cxpr_call_bind_args args (Some names) params = Done (inl bound) →
  ∃ s, s + length args ≤ length params ∧
    try_places (named_args args (Some names)) (take (length args) (drop s params)) = Some bound.
Proof.
  intros Hl Hpres. rewrite bind_args_eq. unfold bind_result.
  destruct (Nat.ltb_spec CXPR_CALL_SLOTS (length args)) as [|Hargs]; [done|]. rewrite Hpres. simpl negb.
  destruct (Nat.ltb_spec CXPR_MAX_PARAM_NAMES (length params)) as [|Hmax];
    [by rewrite orb_true_r|]. rewrite orb_false_r. destruct (length params =? 0); [done|].
  pose proof (named_args_length args names Hl) as Hnl. unfold window_bound.
  rewrite Hnl. destruct (first_places _ _ _) as [b|] eqn:Hfirst.
  { intros [= <-]. apply first_places_some in Hfirst as (s & Hs%elem_of_seq & Htry).
    rewrite Hnl in Htry. exists s. split; [lia|done]. }
  intros (r & Hloop & Hr)%run_bind_Done. destruct r as [slots|]; [|done].
  destruct (mapM id _) as [b|] eqn:Hm; [|done]. simplify_eq. exfalso.
  pose proof (present_pos args names Hl Hpres) as Hpos. unfold CXPR_CALL_SLOTS in Hargs.
  rewrite <- Hnl in Hm. apply (bind_loop_window _ _ _ bound) in Hloop as [Hle Htry];
    [|done|unfold CXPR_MAX_PARAM_NAMES; lia|lia|done].
  apply (first_places_none _ _ _ 0) in Hfirst; [|apply elem_of_seq; lia].
  rewrite drop_0 in Hfirst. congruence.
Qed.

(** C35: whenever the binder accepts a call that names arguments, the arguments
    fill a window of consecutive parameters exactly: they are permuted, none is
    lost or repeated, the i-th positional argument stays at position i, and
    each named argument stands at a parameter its name matches. *)
Theorem bind_args_correct {A} (args : list A) names params bound :
  length names = length args → cxpr_expr_ast_named_args_present (Some names) = true →
  cxpr_call_bind_args args (Some names) params = Done (inl bound) →
  ∃ start ps, start + length args ≤ length params ∧ ps ≡ₚ seq 0 (length args) ∧
    length bound = length args ∧
    ∀ i name a, names !! i = Some name → args !! i = Some a →
      ∃ p, ps !! i = Some p ∧ bound !! p = Some a ∧
        match name with
        | None => p = i
        | Some n => ∃ q, params !! (start + p) = Some q ∧ cxpr_call_param_name_matches q n = true
        end.
Proof.
  intros Hl Hpres Hb. destruct (bind_args_window _ _ _ _ Hl Hpres Hb) as (s & Hs & Htry).
  pose proof (named_args_length args names Hl) as Hnl.
  apply try_places_spec in Htry as (ps & Hperm & Hlen & Hat);
    [|rewrite Hnl, length_take, length_drop; lia]. rewrite Hnl in Hperm, Hlen.
  exists s, ps. split_and!; [done..|]. intros i name a Hn Ha.
  destruct (Hat i name a) as (p & Hp & Hbp & Hpos); [by apply named_args_lookup|].
  exists p. split_and!; [done..|]. destruct name as [n|]; [|done].
  destruct Hpos as (q & Hq & Hm). exists q. split; [|done].
  apply lookup_take_Some in Hq as [Hq _]. by rewrite lookup_drop in Hq.
Qed.

(** [ema(7, multiplier: 2, bars: 14)] with parameters [src, value, samples, mult]. *)
Lemma bind_args_correct_witness :
  ∃ start ps, start + 3 ≤ 4 ∧ ps ≡ₚ seq 0 3 ∧ ps !! 1 = Some 2.
Proof.
  destruct (bind_args_correct [7; 2; 14] [None; Some "multiplier"; Some "bars"]
    ["src"; "value"; "samples"; "mult"] [7; 14; 2] eq_refl eq_refl eq_refl)
    as (s & ps & Hs & Hp & _ & Hat). exists s, ps. split_and!; [done..|].
  destruct (Hat 1 (Some "multiplier"%string) 2 eq_refl eq_refl) as (p & Hp1 & Hb & _).
  by destruct p as [|[|[|p]]]; simplify_eq/=.
Defined.

(** Within the slots every store is defined. *)
Lemma bind_args_defined {A} (args : list A) arg_names params :
  length params ≤ CXPR_CALL_SLOTS → ∃ r, cxpr_call_bind_args args arg_names params = Done r.
Proof.
  intros Hp. rewrite bind_args_eq. unfold bind_result.
  destruct (CXPR_CALL_SLOTS <? length args); [eauto|].
  destruct (negb _); [eauto|]. destruct (_ || _); [eauto|].
  destruct (window_bound _ _); [eauto|].
  destruct (bind_loop_defined params (named_args args arg_names) 0 false
    (replicate CXPR_MAX_PARAM_NAMES None) Hp) as [[slots|e] ->]; cbn [run_bind]; [|eauto].
  destruct (mapM id _); eauto.
Qed.

(** A bound call has as many arguments as it was given, at most 32. *)
Lemma bind_args_length {A} (args : list A) names params bound :
  match names with Some names => length names = length args | None => True end →
  cxpr_call_bind_args args names params = Done (inl bound) →
  length bound = length args ∧ length args ≤ CXPR_CALL_SLOTS.
Proof.
  intros Hn Hb. assert (Hc : length args ≤ CXPR_CALL_SLOTS).
  { rewrite bind_args_eq in Hb. unfold bind_result in Hb. by destruct (Nat.ltb_spec CXPR_CALL_SLOTS (length args)). }
  split; [|done]. destruct (cxpr_expr_ast_named_args_present names) eqn:Hp.
  - destruct names as [names|]; [|done].
    apply (bind_args_window args names params bound Hn Hp) in Hb as (s & Hs & Htry).
    pose proof (named_args_length args names Hn) as Hnl.
    apply try_places_spec in Htry as (_ & _ & Hl & _); [congruence|].
    rewrite length_take, length_drop, Hnl. lia.
  - rewrite bind_args_eq in Hb. unfold bind_result in Hb. rewrite Hp in Hb. simpl in Hb. case_match; by simplify_eq.
Qed.

(** A refused call has an error to report. *)
Lemma bind_loop_error {A} params (args : list (option string * A)) k seen slots code message :
  bind_loop params args k seen slots = Done (inr (code, message)) → code ≠ CXPR_OK.
Proof.
  revert k seen slots. induction args as [|[[name|] a] args IH]; intros k seen slots; simpl; [done|..].
  - destruct (find_param params name) as [j|]; [|by intros [= <- _]].
    destruct (slots !! j) as [[|]|]; try (by intros [= <- _]).
    intros (? & _ & Hl)%run_bind_Done. by eapply IH.
  - destruct seen; [by intros [= <- _]|]. destruct (_ <=? _); [by intros [= <- _]|].
    intros (? & _ & Hl)%run_bind_Done. by eapply IH.
Qed.

Lemma bind_args_error {A} (args : list A) names params code message :
  cxpr_call_bind_args args names params = Done (inr (code, message)) → code ≠ CXPR_OK.
Proof.
  rewrite bind_args_eq. unfold bind_result. destruct (_ <? _); [by intros [= <- _]|]. destruct (negb _); [done|].
  destruct (_ || _); [by intros [= <- _]|]. destruct (window_bound _ _); [done|].
  intros ([slots|[c m]] & Hl & Hr)%run_bind_Done.
  - destruct (mapM id _); simplify_eq; done.
  - injection Hr as -> ->. by apply bind_loop_error in Hl.
Qed.

(** C36: the binder is safe for functions of at most 32 named parameters: for
    any arguments and names it returns a result, and each of its stores -- the
    copy of a call without names, those to [candidate_args] and the copy of a
    window that fits, and those of the second pass -- stays inside the 32 entries
    of its array.  The hypothesis is needed: see [bind_args_overrun]. *)
Theorem bind_args_safe {A} (args : list A) arg_names params :
  length params ≤ CXPR_CALL_SLOTS → ∃ r, cxpr_call_bind_args args arg_names params = Done r.
Proof. apply bind_args_defined. Qed.

Lemma bind_args_safe_witness :
  ∃ r, cxpr_call_bind_args [1; 2] (Some [Some "a"; Some "z"]) ["a"; "b"] = Done r.
Proof. apply bind_args_safe. unfold CXPR_CALL_SLOTS. simpl. lia. Defined.

(** A function with 40 named parameters. *)
Definition wide_params : list string :=
  map (λ i, String "p"%char (String (ascii_of_nat (48 + i)) "")) (seq 0 40).

(** A call of a function of 40 parameters that names the first and the last
    of them fits no window, and the pass that looks for the error to report
    stores an argument behind the 32 slots of the caller's array. *)
Theorem bind_args_overrun :
  cxpr_call_bind_args [1; 2] (Some [Some "p0"; Some "pW"]) wide_params = Undef.
Proof. by vm_compute. Qed.

(** ** The binder moves arguments and does not look at them *)

Section naturality.
#[local] Opaque CXPR_MAX_PARAM_NAMES.
Context {A B : Type} (f : A → B).

Definition map_arg (p : option string * A) : option string * B := (fst p, f (snd p)).

Lemma mapM_id_fmap (l : list (option A)) :
  mapM id (fmap f <$> l) = fmap f <$> mapM id l.
Proof.
  induction l as [|[a|] l IH]; [done| |done]. rewrite fmap_cons. simpl in *.
  rewrite IH. by destruct (mapM id l).
Qed.

Definition map_slot (s : list (option A)) : list (option B) := fmap (M:=option) f <$> s.

Lemma map_slot_insert j (a : A) s : map_slot (<[j := Some a]> s) = <[j := Some (f a)]> (map_slot s).
Proof. unfold map_slot. by rewrite list_fmap_insert. Qed.

Lemma map_slot_lookup j s : map_slot s !! j = fmap (M:=option) f <$> s !! j.
Proof. apply list_lookup_fmap. Qed.

Lemma window_loop_map window (args : list (option string * A)) k seen (slots : list (option A)) :
  window_places window (map_arg <$> args) k seen (map_slot slots) =
  map_slot <$> window_places window args k seen slots.
Proof.
  revert k seen slots. induction args as [|[[n|] a] args IH]; intros k seen slots; csimpl; [done| |].
  - destruct (find_param window n) as [j|]; [|done]. rewrite map_slot_lookup.
    destruct (slots !! j) as [[b|]|]; try done. simpl. by rewrite <- map_slot_insert, IH.
  - destruct (seen || (length window <=? k)); [done|]. by rewrite <- map_slot_insert, IH.
Qed.

Lemma bind_named_window_map (args : list (option string * A)) params :
  window_bound (map_arg <$> args) params =
  fmap (M:=list) f <$> window_bound args params.
Proof.
  unfold window_bound. rewrite length_fmap.
  induction (seq 0 (length params + 1 - length args)) as [|s starts IH]; [done|]. simpl.
  rewrite length_fmap, IH. unfold try_places. rewrite length_fmap.
  replace (replicate (length args) None) with (map_slot (replicate (length args) None))
    by (unfold map_slot; by rewrite fmap_replicate).
  rewrite window_loop_map. destruct (window_places _ args 0 false _) as [slots|]; [|done]. simpl.
  rewrite mapM_id_fmap. by destruct (mapM id slots).
Qed.

Definition map_slots (r : run (list (option A) + bind_error)) : run (list (option B) + bind_error) :=
  let* r := r in Done (match r with inl s => inl (map_slot s) | inr e => inr e end).

Lemma bind_loop_map params (args : list (option string * A)) k seen slots :
  bind_loop params (map_arg <$> args) k seen (map_slot slots) =
  map_slots (bind_loop params args k seen slots).
Proof.
  revert k seen slots. induction args as [|[[n|] a] args IH]; intros k seen slots; csimpl; [done| |].
  - destruct (find_param params n) as [j|]; [|done]. rewrite map_slot_lookup.
    destruct (slots !! j) as [[b|]|]; try done. simpl. unfold write_slot.
    destruct (j <? CXPR_CALL_SLOTS); [|done]. cbn [run_bind]. by rewrite <- map_slot_insert, IH.
  - destruct seen; [done|]. destruct (length params <=? k); [done|]. unfold write_slot.
    destruct (k <? CXPR_CALL_SLOTS); [|done]. cbn [run_bind]. by rewrite <- map_slot_insert, IH.
Qed.

Lemma named_args_map (args : list A) names : named_args (f <$> args) names = map_arg <$> named_args args names.
Proof.
  unfold named_args. destruct names as [names|].
  - revert names. induction args as [|a args IH]; intros [|n names]; try done. csimpl. f_equal. apply IH.
  - induction args as [|a args IH]; [done|]. csimpl. by rewrite IH.
Qed.

Lemma bind_args_map (args : list A) names params :
  cxpr_call_bind_args (f <$> args) names params =
  (let* r := cxpr_call_bind_args args names params in
   Done (match r with inl bound => inl (f <$> bound) | inr e => inr e end)).
Proof.
  rewrite !bind_args_eq. unfold bind_result. rewrite length_fmap.
  destruct (CXPR_CALL_SLOTS <? length args); [done|].
  destruct (negb (cxpr_expr_ast_named_args_present names)); [done|].
  destruct ((length params =? 0) || (CXPR_MAX_PARAM_NAMES <? length params)); [done|].
  rewrite named_args_map, bind_named_window_map.
  destruct (window_bound (named_args args names) params); [done|]. simpl.
  replace (replicate CXPR_MAX_PARAM_NAMES (@None B)) with (map_slot (replicate CXPR_MAX_PARAM_NAMES None))
    by (unfold map_slot; by rewrite fmap_replicate).
  rewrite bind_loop_map. unfold map_slots.
  destruct (bind_loop params _ 0 false _) as [[slots|e]| |]; try done. cbn [run_bind].
  unfold map_slot. rewrite <- fmap_take, mapM_id_fmap. by destruct (mapM id (take (length args) slots)).
Qed.
End naturality.
