(* ===== verification/Registry.v ===== *)
(** * Registry: registered functions ([src/registry/internal.h],
    [src/registry/helpers.c], [src/registry/add.c], [src/registry/index.c])

    A registry is a growing array of entries; an entry holds up to six kinds of
    callbacks with their user data and metadata.  Function pointers are the
    library's own functions by name, or addresses of host code.  Every call of a
    user-data destructor is recorded in [reg_released], the only field that is
    not one of the C struct.  Allocation succeeds; handles, names and callbacks
    are not NULL. *)

From Stdlib Require Import Ascii String ZArith Lia.
From stdpp Require Import base list strings gmap.
From S2P Require Import Prelude Float64 Types Ast References.
Local Open Scope nat_scope.

(** ** Function pointers *)

(** A function of doubles: the static functions of [registry/defaults.c],
    functions of the C math library, and host functions. *)
Inductive scalar_ptr : Type :=
  | fn_clamp | fn_sign | fn_add | fn_sub | fn_mul | fn_div | fn_lerp | fn_smoothstep
  | fn_sigmoid | fn_pi | fn_e | fn_nan | fn_inf | fn_if | fn_radians | fn_degrees
  | fn_libm (symbol : string)
  | fn_scalar (address : Z).

(** [cxpr_func_ptr] *)
Inductive cxpr_func_ptr : Type :=
  | fn_min | fn_max | fn_mean
  | fn_nullary_adapter | fn_unary_adapter | fn_binary_adapter | fn_ternary_adapter
  | fn_sync (address : Z).

Inductive cxpr_value_func_ptr : Type := fn_coalesce | fn_value (address : Z).
Inductive cxpr_typed_func_ptr : Type := fn_isnan | fn_isfinite | fn_is_null | fn_typed (address : Z).
Inductive cxpr_expr_ast_func_ptr : Type :=
  fn_contains | fn_within | fn_timeseries (symbol : string) | fn_ast (address : Z).
Inductive cxpr_lookback_resolver_ptr : Type := fn_column_lookback | fn_lookback (address : Z).

(** A [void*]: NULL, a host pointer, or a block with the wrapped function. *)
Inductive userdata : Type :=
  | ud_null
  | ud_host (address : Z)
  | ud_adapter (fn : scalar_ptr).

Inductive cxpr_userdata_free_fn : Type := free_libc | free_column_lookback | free_host (address : Z).

#[export] Instance scalar_ptr_eq_dec : EqDecision scalar_ptr.
Proof. solve_decision. Defined.
#[export] Instance cxpr_func_ptr_eq_dec : EqDecision cxpr_func_ptr.
Proof. solve_decision. Defined.
#[export] Instance cxpr_value_func_ptr_eq_dec : EqDecision cxpr_value_func_ptr.
Proof. solve_decision. Defined.
#[export] Instance cxpr_typed_func_ptr_eq_dec : EqDecision cxpr_typed_func_ptr.
Proof. solve_decision. Defined.
#[export] Instance cxpr_expr_ast_func_ptr_eq_dec : EqDecision cxpr_expr_ast_func_ptr.
Proof. solve_decision. Defined.
#[export] Instance userdata_eq_dec : EqDecision userdata.
Proof. solve_decision. Defined.
#[export] Instance cxpr_userdata_free_fn_eq_dec : EqDecision cxpr_userdata_free_fn.
Proof. solve_decision. Defined.

(** [native_kind] with [native_scalar]. *)
Inductive native_kind : Type := NATIVE_NULLARY | NATIVE_UNARY | NATIVE_BINARY | NATIVE_TERNARY.

#[export] Instance native_kind_eq_dec : EqDecision native_kind.
Proof. solve_decision. Defined.

(** ** Entries

    A NULL pointer is [None] (an empty list for a name array, which is NULL
    exactly when its count is 0); [fe_return_type] is [None] when
    [has_return_type] is false.  The parameter fields of a defined function are
    one list per parameter. *)
Record cxpr_func_entry : Type := mk_entry {
  fe_name : string;
  fe_sync_func : option cxpr_func_ptr;
  fe_value_func : option cxpr_value_func_ptr;
  fe_typed_func : option cxpr_typed_func_ptr;
  fe_ast_func : option cxpr_expr_ast_func_ptr;
  fe_struct_producer : option Z;
  fe_struct_codegen : option Z;
  fe_codegen_userdata : userdata;
  fe_codegen_free : option cxpr_userdata_free_fn;
  fe_model_producer : option (cxpr_expr_ast_func_ptr * userdata);
  fe_handler : option cxpr_expr_ast_func_ptr;
  fe_handler_userdata : userdata;
  fe_handler_free : option cxpr_userdata_free_fn;
  fe_native : option (native_kind * scalar_ptr);
  fe_min_args : nat;
  fe_max_args : nat;
  fe_param_names : list string;
  fe_arg_types : option (list cxpr_value_type);
  fe_return_type : option cxpr_value_type;
  fe_userdata : userdata;
  fe_userdata_free : option cxpr_userdata_free_fn;
  fe_struct_fields : list string;
  fe_struct_argc : nat;
  fe_defined_body : option cxpr_expr_ast;
  fe_defined_param_names : list string;
  fe_defined_param_fields : option (list (list string));
  fe_defined_return : list (string * cxpr_expr_ast)
}.

(** A zeroed entry with its name. *)
Definition cxpr_registry_prepare_entry (name : string) : cxpr_func_entry :=
  mk_entry name None None None None None None ud_null None None None ud_null None None 0 0 [] None
    None ud_null None [] 0 None [] None [].

(** ** Updates of some fields *)

Definition with_arity (min_args max_args : nat) (e : cxpr_func_entry) : cxpr_func_entry :=
  let '(mk_entry n s v t a p cg cgu cgf mp h hu hf nk _ _ pn aty rt ud uf sf sa db dp df dr) := e in
  mk_entry n s v t a p cg cgu cgf mp h hu hf nk min_args max_args pn aty rt ud uf sf sa db dp df dr.
Definition with_userdata (ud : userdata) (free : option cxpr_userdata_free_fn)
    (e : cxpr_func_entry) : cxpr_func_entry :=
  let '(mk_entry n s v t a p cg cgu cgf mp h hu hf nk mi ma pn aty rt _ _ sf sa db dp df dr) := e in
  mk_entry n s v t a p cg cgu cgf mp h hu hf nk mi ma pn aty rt ud free sf sa db dp df dr.
Definition with_return_type (rt : option cxpr_value_type) (e : cxpr_func_entry) : cxpr_func_entry :=
  let '(mk_entry n s v t a p cg cgu cgf mp h hu hf nk mi ma pn aty _ ud uf sf sa db dp df dr) := e in
  mk_entry n s v t a p cg cgu cgf mp h hu hf nk mi ma pn aty rt ud uf sf sa db dp df dr.
Definition with_arg_types (aty : option (list cxpr_value_type)) (e : cxpr_func_entry)
    : cxpr_func_entry :=
  let '(mk_entry n s v t a p cg cgu cgf mp h hu hf nk mi ma pn _ rt ud uf sf sa db dp df dr) := e in
  mk_entry n s v t a p cg cgu cgf mp h hu hf nk mi ma pn aty rt ud uf sf sa db dp df dr.
Definition with_scalar_funcs (s : option cxpr_func_ptr) (v : option cxpr_value_func_ptr)
    (t : option cxpr_typed_func_ptr) (e : cxpr_func_entry) : cxpr_func_entry :=
  let '(mk_entry n _ _ _ a p cg cgu cgf mp h hu hf nk mi ma pn aty rt ud uf sf sa db dp df dr) := e in
  mk_entry n s v t a p cg cgu cgf mp h hu hf nk mi ma pn aty rt ud uf sf sa db dp df dr.
Definition with_ast_func (a : option cxpr_expr_ast_func_ptr) (e : cxpr_func_entry)
    : cxpr_func_entry :=
  let '(mk_entry n s v t _ p cg cgu cgf mp h hu hf nk mi ma pn aty rt ud uf sf sa db dp df dr) := e in
  mk_entry n s v t a p cg cgu cgf mp h hu hf nk mi ma pn aty rt ud uf sf sa db dp df dr.
Definition with_struct_producer (p : option Z) (e : cxpr_func_entry) : cxpr_func_entry :=
  let '(mk_entry n s v t a _ cg cgu cgf mp h hu hf nk mi ma pn aty rt ud uf sf sa db dp df dr) := e in
  mk_entry n s v t a p cg cgu cgf mp h hu hf nk mi ma pn aty rt ud uf sf sa db dp df dr.
Definition with_codegen (cg : option Z) (cgu : userdata) (cgf : option cxpr_userdata_free_fn)
    (e : cxpr_func_entry) : cxpr_func_entry :=
  let '(mk_entry n s v t a p _ _ _ mp h hu hf nk mi ma pn aty rt ud uf sf sa db dp df dr) := e in
  mk_entry n s v t a p cg cgu cgf mp h hu hf nk mi ma pn aty rt ud uf sf sa db dp df dr.
Definition with_model_producer (mp : option (cxpr_expr_ast_func_ptr * userdata))
    (e : cxpr_func_entry) : cxpr_func_entry :=
  let '(mk_entry n s v t a p cg cgu cgf _ h hu hf nk mi ma pn aty rt ud uf sf sa db dp df dr) := e in
  mk_entry n s v t a p cg cgu cgf mp h hu hf nk mi ma pn aty rt ud uf sf sa db dp df dr.
Definition with_handler (h : option cxpr_expr_ast_func_ptr) (hu : userdata)
    (hf : option cxpr_userdata_free_fn) (e : cxpr_func_entry) : cxpr_func_entry :=
  let '(mk_entry n s v t a p cg cgu cgf mp _ _ _ nk mi ma pn aty rt ud uf sf sa db dp df dr) := e in
  mk_entry n s v t a p cg cgu cgf mp h hu hf nk mi ma pn aty rt ud uf sf sa db dp df dr.
Definition with_native (nk : option (native_kind * scalar_ptr)) (e : cxpr_func_entry)
    : cxpr_func_entry :=
  let '(mk_entry n s v t a p cg cgu cgf mp h hu hf _ mi ma pn aty rt ud uf sf sa db dp df dr) := e in
  mk_entry n s v t a p cg cgu cgf mp h hu hf nk mi ma pn aty rt ud uf sf sa db dp df dr.
Definition with_param_names (pn : list string) (e : cxpr_func_entry) : cxpr_func_entry :=
  let '(mk_entry n s v t a p cg cgu cgf mp h hu hf nk mi ma _ aty rt ud uf sf sa db dp df dr) := e in
  mk_entry n s v t a p cg cgu cgf mp h hu hf nk mi ma pn aty rt ud uf sf sa db dp df dr.
Definition with_struct_fields (sf : list string) (sa : nat) (e : cxpr_func_entry)
    : cxpr_func_entry :=
  let '(mk_entry n s v t a p cg cgu cgf mp h hu hf nk mi ma pn aty rt ud uf _ _ db dp df dr) := e in
  mk_entry n s v t a p cg cgu cgf mp h hu hf nk mi ma pn aty rt ud uf sf sa db dp df dr.
Definition with_defined (db : option cxpr_expr_ast) (dp : list string)
    (df : option (list (list string))) (dr : list (string * cxpr_expr_ast)) (e : cxpr_func_entry)
    : cxpr_func_entry :=
  let '(mk_entry n s v t a p cg cgu cgf mp h hu hf nk mi ma pn aty rt ud uf sf sa _ _ _ _) := e in
  mk_entry n s v t a p cg cgu cgf mp h hu hf nk mi ma pn aty rt ud uf sf sa db dp df dr.

(** ** The registry *)

(** A call of a destructor. *)
Definition release : Type := cxpr_userdata_free_fn * userdata.

Record cxpr_index_capability_entry : Type := mk_capability {
  cap_name : string;
  cap_target : string;
  cap_result_type : cxpr_value_type;
  cap_resolve : Z;
  cap_userdata : userdata;
  cap_free : option cxpr_userdata_free_fn
}.

Record cxpr_registry : Type := mk_registry {
  reg_entries : list cxpr_func_entry;
  reg_capacity : Z;
  reg_version : Z;
  reg_lookback : option cxpr_lookback_resolver_ptr;
  reg_lookback_userdata : userdata;
  reg_lookback_free : option cxpr_userdata_free_fn;
  reg_capabilities : list cxpr_index_capability_entry;
  reg_released : list release
}.

Definition CXPR_REGISTRY_INITIAL_CAPACITY : Z := 64.

Definition cxpr_registry_new : cxpr_registry :=
  mk_registry [] CXPR_REGISTRY_INITIAL_CAPACITY 1 None ud_null None [] [].

Definition set_entries (es : list cxpr_func_entry) (r : cxpr_registry) : cxpr_registry :=
  mk_registry es (reg_capacity r) (reg_version r) (reg_lookback r) (reg_lookback_userdata r)
    (reg_lookback_free r) (reg_capabilities r) (reg_released r).
Definition set_capacity (capacity : Z) (r : cxpr_registry) : cxpr_registry :=
  mk_registry (reg_entries r) capacity (reg_version r) (reg_lookback r) (reg_lookback_userdata r)
    (reg_lookback_free r) (reg_capabilities r) (reg_released r).
Definition set_lookback (f : option cxpr_lookback_resolver_ptr) (ud : userdata)
    (free : option cxpr_userdata_free_fn) (r : cxpr_registry) : cxpr_registry :=
  mk_registry (reg_entries r) (reg_capacity r) (reg_version r) f ud free (reg_capabilities r)
    (reg_released r).
Definition set_capabilities (caps : list cxpr_index_capability_entry) (r : cxpr_registry)
    : cxpr_registry :=
  mk_registry (reg_entries r) (reg_capacity r) (reg_version r) (reg_lookback r)
    (reg_lookback_userdata r) (reg_lookback_free r) caps (reg_released r).
Definition release_all (rel : list release) (r : cxpr_registry) : cxpr_registry :=
  mk_registry (reg_entries r) (reg_capacity r) (reg_version r) (reg_lookback r)
    (reg_lookback_userdata r) (reg_lookback_free r) (reg_capabilities r) (reg_released r ++ rel).

(** [reg->version++] on an [unsigned long]. *)
Definition bump_version (r : cxpr_registry) : cxpr_registry :=
  mk_registry (reg_entries r) (reg_capacity r) (wrap64 (reg_version r + 1)) (reg_lookback r)
    (reg_lookback_userdata r) (reg_lookback_free r) (reg_capabilities r) (reg_released r).

Definition update_entry (i : nat) (f : cxpr_func_entry → cxpr_func_entry) (r : cxpr_registry)
    : cxpr_registry := set_entries (alter f i (reg_entries r)) r.

(** ** Lookup and growth ([helpers.c]) *)

Fixpoint find_entry (name : string) (es : list cxpr_func_entry) : option nat :=
  match es with
  | [] => None
  | e :: es => if String.eqb (fe_name e) name then Some 0 else option_map S (find_entry name es)
  end.

(** The index of the entry. *)
Definition cxpr_registry_find (r : cxpr_registry) (name : string) : option nat :=
  find_entry name (reg_entries r).

(** [cxpr_registry_find] and the entry it points to. *)
Definition registry_lookup (r : cxpr_registry) (name : string) : option cxpr_func_entry :=
  match cxpr_registry_find r name with Some i => reg_entries r !! i | None => None end.

Definition cxpr_registry_entry_param_names (e : cxpr_func_entry) : list string :=
  match fe_defined_param_names e with [] => fe_param_names e | names => names end.

Definition cxpr_registry_grow (r : cxpr_registry) : option cxpr_registry :=
  if (SIZE_MAX / 2 <? reg_capacity r)%Z then None
  else Some (set_capacity (reg_capacity r * 2) r).

(** [if (reg->count >= reg->capacity && !cxpr_registry_grow(reg)) return;] *)
Definition ensure_room (r : cxpr_registry) : option cxpr_registry :=
  if (reg_capacity r <=? Z.of_nat (length (reg_entries r)))%Z then cxpr_registry_grow r else Some r.

Definition free_call (free : option cxpr_userdata_free_fn) (ud : userdata) : list release :=
  match free with Some f => [(f, ud)] | None => [] end.

(** The destructor calls of [cxpr_registry_clear_owned_entry]. *)
Definition entry_releases (e : cxpr_func_entry) : list release :=
  free_call (fe_userdata_free e) (fe_userdata e) ++
  free_call (fe_handler_free e) (fe_handler_userdata e) ++
  free_call (fe_codegen_free e) (fe_codegen_userdata e).

Definition cxpr_registry_clear_owned_entry (e : cxpr_func_entry) : cxpr_func_entry :=
  with_codegen None ud_null None
    (with_handler None ud_null None
      (with_model_producer None
        (with_userdata ud_null None
          (with_defined None [] None []
            (with_return_type None
              (with_arg_types None
                (with_param_names []
                  (with_struct_fields [] 0 e)))))))).

(** ** Adding ([add.c]) *)

Definition cxpr_registry_replace_entry (e : cxpr_func_entry) : cxpr_func_entry :=
  with_native None
    (with_struct_producer None
      (with_ast_func None
        (with_scalar_funcs None None None (cxpr_registry_clear_owned_entry e)))).

(** The two paths of the adders: the entry that exists is replaced and then set
    up by [f], or a new entry is prepared and set up by [f]. *)
Definition replace_or_append (f : cxpr_func_entry → cxpr_func_entry) (r : cxpr_registry)
    (name : string) : cxpr_registry :=
  match cxpr_registry_find r name with
  | Some i =>
      let rel := match reg_entries r !! i with Some e => entry_releases e | None => [] end in
      bump_version (update_entry i (λ e, f (cxpr_registry_replace_entry e)) (release_all rel r))
  | None =>
      match ensure_room r with
      | None => r
      | Some r =>
          bump_version (set_entries (reg_entries r ++ [f (cxpr_registry_prepare_entry name)]) r)
      end
  end.

Definition cxpr_registry_add_numeric (r : cxpr_registry) (name : string) (func : cxpr_func_ptr)
    (min_args max_args : nat) (ud : userdata) (free : option cxpr_userdata_free_fn)
    : cxpr_registry :=
  replace_or_append (λ e,
    with_userdata ud free
      (with_return_type (Some CXPR_VALUE_NUMBER)
        (with_arity min_args max_args (with_scalar_funcs (Some func) None None e)))) r name.

Definition cxpr_registry_add := cxpr_registry_add_numeric.

Definition cxpr_registry_add_value (r : cxpr_registry) (name : string)
    (func : cxpr_value_func_ptr) (min_args max_args : nat) (ud : userdata)
    (free : option cxpr_userdata_free_fn) : cxpr_registry :=
  replace_or_append (λ e,
    with_userdata ud free
      (with_return_type None
        (with_arity min_args max_args (with_scalar_funcs None (Some func) None e)))) r name.

(** The clone of the argument types is NULL for no types and for arity 0. *)
Definition cxpr_registry_clone_arg_types (arg_types : option (list cxpr_value_type))
    (arg_count : nat) : option (list cxpr_value_type) :=
  match arg_count with 0 => None | _ => option_map (take arg_count) arg_types end.

Definition cxpr_registry_add_typed (r : cxpr_registry) (name : string)
    (func : cxpr_typed_func_ptr) (min_args max_args : nat)
    (arg_types : option (list cxpr_value_type)) (return_type : cxpr_value_type) (ud : userdata)
    (free : option cxpr_userdata_free_fn) : cxpr_registry :=
  replace_or_append (λ e,
    with_userdata ud free
      (with_return_type (Some return_type)
        (with_arg_types (cxpr_registry_clone_arg_types arg_types max_args)
          (with_arity min_args max_args (with_scalar_funcs None None (Some func) e))))) r name.

Definition cxpr_registry_add_ast (r : cxpr_registry) (name : string)
    (func : cxpr_expr_ast_func_ptr) (min_args max_args : nat) (return_type : cxpr_value_type)
    (ud : userdata) (free : option cxpr_userdata_free_fn) : cxpr_registry :=
  replace_or_append (λ e,
    with_userdata ud free
      (with_return_type (Some return_type)
        (with_arity min_args max_args (with_ast_func (Some func) e)))) r name.

Definition cxpr_registry_add_timeseries := cxpr_registry_add_ast.

Definition cxpr_registry_add_fn (r : cxpr_registry) (name : string) (func : cxpr_func_ptr)
    (fields : list string) (struct_argc : nat) (ud : userdata)
    (free : option cxpr_userdata_free_fn) : cxpr_registry :=
  if (length fields =? 0) || (struct_argc =? 0) then r
  else
    replace_or_append (λ e,
      with_struct_fields fields struct_argc
        (with_userdata ud free
          (with_return_type (Some CXPR_VALUE_NUMBER)
            (with_arity struct_argc struct_argc (with_scalar_funcs (Some func) None None e)))))
      r name.

(** [cxpr_registry_add_nullary], [_unary], [_binary] and [_ternary]: a block with
    the function is the user data of the adapter. *)
Definition add_native (kind : native_kind) (adapter : cxpr_func_ptr) (arity : nat)
    (r : cxpr_registry) (name : string) (func : scalar_ptr) : cxpr_registry :=
  let r := cxpr_registry_add r name adapter arity arity (ud_adapter func) (Some free_libc) in
  match cxpr_registry_find r name with
  | Some i => update_entry i (with_native (Some (kind, func))) r
  | None => r
  end.

Definition cxpr_registry_add_nullary := add_native NATIVE_NULLARY fn_nullary_adapter 0.
Definition cxpr_registry_add_unary := add_native NATIVE_UNARY fn_unary_adapter 1.
Definition cxpr_registry_add_binary := add_native NATIVE_BINARY fn_binary_adapter 2.
Definition cxpr_registry_add_ternary := add_native NATIVE_TERNARY fn_ternary_adapter 3.

(** Overlays: the entry that exists keeps what is not named here. *)
Definition cxpr_registry_add_ast_handler (r : cxpr_registry) (name : string)
    (func : cxpr_expr_ast_func_ptr) (min_args max_args : nat) (ud : userdata)
    (free : option cxpr_userdata_free_fn) : cxpr_registry :=
  match cxpr_registry_find r name with
  | Some i =>
      let rel := match reg_entries r !! i with
                 | Some e => free_call (fe_handler_free e) (fe_handler_userdata e)
                 | None => [] end in
      bump_version (update_entry i (λ e,
        with_arity (if min_args <? fe_min_args e then min_args else fe_min_args e)
          (if fe_max_args e <? max_args then max_args else fe_max_args e)
          (with_handler (Some func) ud free e)) (release_all rel r))
  | None =>
      match ensure_room r with
      | None => r
      | Some r =>
          bump_version (set_entries (reg_entries r ++
            [with_arity min_args max_args
              (with_handler (Some func) ud free (cxpr_registry_prepare_entry name))]) r)
      end
  end.

(** [!entry->sync_func && !entry->value_func && !entry->typed_func] *)
Definition no_scalar_func (e : cxpr_func_entry) : bool :=
  match fe_sync_func e, fe_value_func e, fe_typed_func e with
  | None, None, None => true
  | _, _, _ => false
  end.

Definition struct_setup (min_args max_args : nat) (ud : userdata)
    (free : option cxpr_userdata_free_fn) (e : cxpr_func_entry) : cxpr_func_entry :=
  with_userdata ud free
    (with_return_type (Some CXPR_VALUE_STRUCT) (with_arity min_args max_args e)).

Definition cxpr_registry_add_struct (r : cxpr_registry) (name : string) (func : Z)
    (min_args max_args : nat) (fields : list string) (ud : userdata)
    (free : option cxpr_userdata_free_fn) : cxpr_registry :=
  if length fields =? 0 then r
  else
    match cxpr_registry_find r name with
    | Some i =>
        bump_version (update_entry i (λ e,
          let e := with_struct_producer (Some func) (with_struct_fields [] 0 e) in
          with_struct_fields fields 0
            (if no_scalar_func e then struct_setup min_args max_args ud free e else e)) r)
    | None =>
        match ensure_room r with
        | None => r
        | Some r =>
            bump_version (set_entries (reg_entries r ++
              [with_struct_fields fields 0 (struct_setup min_args max_args ud free
                (with_struct_producer (Some func) (cxpr_registry_prepare_entry name)))]) r)
        end
    end.

Definition cxpr_registry_set_struct_codegen (r : cxpr_registry) (name : string) (codegen : Z)
    (ud : userdata) (free : option cxpr_userdata_free_fn) : bool * cxpr_registry :=
  match cxpr_registry_find r name with
  | None => (false, r)
  | Some i =>
      match reg_entries r !! i with
      | None => (false, r)
      | Some e =>
          match fe_struct_producer e with
          | None => (false, r)
          | Some _ =>
              if bool_decide (fe_codegen_userdata e = ud) then
                (true, bump_version (update_entry i (with_codegen (Some codegen) ud
                  (match free with Some f => Some f | None => fe_codegen_free e end)) r))
              else
                let rel := match fe_codegen_userdata e with
                           | ud_null => []
                           | old => free_call (fe_codegen_free e) old
                           end in
                (true, bump_version
                   (update_entry i (with_codegen (Some codegen) ud free) (release_all rel r)))
          end
      end
  end.

(** ** Metadata ([helpers.c]) *)

Definition cxpr_registry_set_param_names (r : cxpr_registry) (name : string)
    (names : list string) : bool * cxpr_registry :=
  match cxpr_registry_find r name with
  | None => (false, r)
  | Some i =>
      match names with
      | [] => (true, bump_version (update_entry i (with_param_names []) r))
      | _ =>
          match reg_entries r !! i with
          | None => (false, r)
          | Some e =>
              if length names <? fe_max_args e then (false, r)
              else (true, bump_version (update_entry i (with_param_names names) r))
          end
      end
  end.

Definition cxpr_registry_lookup (r : cxpr_registry) (name : string) : option (nat * nat) :=
  option_map (λ e, (fe_min_args e, fe_max_args e)) (registry_lookup r name).

Definition cxpr_registry_set_lookback_resolver (r : cxpr_registry)
    (resolver : option cxpr_lookback_resolver_ptr) (ud : userdata)
    (free : option cxpr_userdata_free_fn) : cxpr_registry :=
  if bool_decide (reg_lookback_userdata r = ud) then
    set_lookback resolver ud (match free with Some f => Some f | None => reg_lookback_free r end) r
  else
    let rel := match reg_lookback_userdata r with
               | ud_null => []
               | old => free_call (reg_lookback_free r) old
               end in
    set_lookback resolver ud free (release_all rel r).

(** The destructor calls of [cxpr_registry_free], in order. *)
Definition free_nonnull (free : option cxpr_userdata_free_fn) (ud : userdata) : list release :=
  match ud with ud_null => [] | _ => free_call free ud end.

Definition cxpr_registry_free (r : cxpr_registry) : list release :=
  reg_released r ++
  free_nonnull (reg_lookback_free r) (reg_lookback_userdata r) ++
  flat_map entry_releases (reg_entries r) ++
  flat_map (λ c, free_nonnull (cap_free c) (cap_userdata c)) (reg_capabilities r).

(** ** Index capabilities ([index.c])

    The array keeps one entry per target name. *)

Definition cxpr_registry_find_index_capability (r : cxpr_registry) (target_name : string)
    : option cxpr_index_capability_entry :=
  head (filter (λ c, String.eqb (cap_target c) target_name = true) (reg_capabilities r)).

(** The checks of the targets in order: not empty, not registered, not repeated. *)
Fixpoint targets_ok (r : cxpr_registry) (seen targets : list string) : bool :=
  match targets with
  | [] => true
  | t :: targets =>
      negb (String.eqb t "") &&
      negb (match cxpr_registry_find_index_capability r t with Some _ => true | None => false end) &&
      negb (existsb (String.eqb t) seen) && targets_ok r (t :: seen) targets
  end.

(** Only the first entry of a group owns the user data. *)
Definition pending_capabilities (capability_name : string) (result_type : cxpr_value_type)
    (resolve : Z) (ud : userdata) (free : option cxpr_userdata_free_fn) (targets : list string)
    : list cxpr_index_capability_entry :=
  imap (λ i t, mk_capability capability_name t result_type resolve ud
                 (match i with 0 => free | S _ => None end)) targets.

Definition cxpr_registry_add_index_capability_targets (r : cxpr_registry)
    (capability_name : string) (targets : list string) (result_type : cxpr_value_type)
    (resolve : Z) (ud : userdata) (free : option cxpr_userdata_free_fn) : bool * cxpr_registry :=
  if String.eqb capability_name "" || (length targets =? 0) then (false, r)
  else if targets_ok r [] targets then
    (true, set_capabilities (reg_capabilities r ++
       pending_capabilities capability_name result_type resolve ud free targets) r)
  else (false, r).

Definition cxpr_registry_add_index_capability (r : cxpr_registry) (capability_name target : string)
    (result_type : cxpr_value_type) (resolve : Z) (ud : userdata)
    (free : option cxpr_userdata_free_fn) : bool * cxpr_registry :=
  cxpr_registry_add_index_capability_targets r capability_name [target] result_type resolve ud free.

Definition cxpr_registry_index_capability_count (r : cxpr_registry) : nat :=
  length (reg_capabilities r).

Definition cxpr_registry_index_capability_at (r : cxpr_registry) (index : nat)
    : option (string * string * cxpr_value_type) :=
  option_map (λ c, (cap_target c, cap_name c, cap_result_type c)) (reg_capabilities r !! index).

Definition cxpr_registry_index_capability_info (r : cxpr_registry) (target : string)
    : option (string * cxpr_value_type) :=
  option_map (λ c, (cap_name c, cap_result_type c)) (cxpr_registry_find_index_capability r target).

(** What the selection ends with: no capability ([handled] false), one, or the
    error of two that differ. *)
Inductive selection : Type :=
  | sel_none
  | sel_one (c : cxpr_index_capability_entry)
  | sel_conflict.

Fixpoint select_loop (r : cxpr_registry) (references : list string) (selected : selection)
    : selection :=
  match references with
  | [] => selected
  | name :: references =>
      match cxpr_registry_find_index_capability r name with
      | None => select_loop r references selected
      | Some c =>
          match selected with
          | sel_one s =>
              if (cap_resolve s =? cap_resolve c)%Z && bool_decide (cap_userdata s = cap_userdata c)
              then select_loop r references selected
              else sel_conflict
          | _ => select_loop r references (sel_one c)
          end
      end
  end.

(** The references of the target are counted first and collected then. *)
Definition cxpr_registry_select_index_capability (r : cxpr_registry) (target : cxpr_expr_ast)
    : selection :=
  match ast_node target with
  | CXPR_NODE_IDENTIFIER name =>
      match cxpr_registry_find_index_capability r name with
      | Some c => sel_one c
      | None => sel_none
      end
  | _ =>
      let count := buf_count (cxpr_expr_ast_references target 0) in
      select_loop r (buf_names (cxpr_expr_ast_references target count)) sel_none
  end.

Definition cxpr_registry_index_target_info (r : cxpr_registry) (target : cxpr_expr_ast)
    : option (string * cxpr_value_type) :=
  match cxpr_registry_select_index_capability r target with
  | sel_one c => Some (cap_name c, cap_result_type c)
  | _ => None
  end.
