(* ===== verification/RegistryProofs.v ===== *)
(** * RegistryProofs: the registry as a map from names to entries

    The array of entries refines a finite map: each operation of [add.c] and
    [cxpr_registry_set_param_names] keeps names unique, changes the entry of its
    name as written in [spec_entry], and conserves the user data the registry has
    to destroy.  RegistryHistory.v puts the operations in sequence. *)

From Stdlib Require Import Ascii String ZArith Lia.
From stdpp Require Import base list strings gmap fin_maps.
From S2P Require Import Prelude Float64 Types Ast References Registry.
Local Open Scope nat_scope.

(** ** The abstract registry *)

Definition entries_view (es : list cxpr_func_entry) : gmap string cxpr_func_entry :=
  list_to_map ((λ e, (fe_name e, e)) <$> es).

Definition reg_view (r : cxpr_registry) : gmap string cxpr_func_entry :=
  entries_view (reg_entries r).

Lemma find_entry_lookup n es i : find_entry n es = Some i → ∃ e, es !! i = Some e ∧ fe_name e = n.
Proof.
  revert i. induction es as [|e es IH]; intros i; simpl; [done|].
  destruct (String.eqb_spec (fe_name e) n); [intros [= <-]; by exists e|].
  destruct (find_entry n es) as [j|]; [|done]. intros [= <-]. by apply IH.
Qed.

Lemma find_entry_none n es : find_entry n es = None ↔ n ∉ fe_name <$> es.
Proof.
  induction es as [|e es IH]; simpl; [set_solver|].
  destruct (String.eqb_spec (fe_name e) n); [set_solver|].
  destruct (find_entry n es); simpl; set_solver.
Qed.

Lemma entries_view_lookup n es :
  entries_view es !! n = match find_entry n es with Some i => es !! i | None => None end.
Proof.
  unfold entries_view. induction es as [|e es IH]; csimpl; [done|].
  destruct (String.eqb_spec (fe_name e) n) as [->|Hne]; [by rewrite lookup_insert_eq|].
  rewrite lookup_insert_ne by done. rewrite IH. by destruct (find_entry n es).
Qed.

(** [cxpr_registry_find] is the lookup in the map. *)
Lemma registry_lookup_view r n : registry_lookup r n = reg_view r !! n.
Proof. unfold registry_lookup, reg_view, cxpr_registry_find. by rewrite entries_view_lookup. Qed.

Lemma entries_view_alter n es i f :
  find_entry n es = Some i → (∀ e, fe_name (f e) = fe_name e) →
  entries_view (alter f i es) = alter f n (entries_view es).
Proof.
  intros Hf Hname. revert i Hf. unfold entries_view.
  induction es as [|e es IH]; intros i; csimpl; [done|].
  destruct (String.eqb_spec (fe_name e) n) as [Heq|Hne].
  - intros [= <-]. csimpl. by rewrite Hname, Heq, alter_insert_eq.
  - destruct (find_entry n es) as [j|]; [|done]. intros [= <-]. csimpl.
    by rewrite (IH j eq_refl), alter_insert_ne.
Qed.

Lemma entries_view_app es e :
  find_entry (fe_name e) es = None → entries_view (es ++ [e]) = <[fe_name e := e]> (entries_view es).
Proof.
  unfold entries_view. induction es as [|e' es IH]; csimpl; [done|].
  destruct (String.eqb_spec (fe_name e') (fe_name e)) as [|Hne]; [done|].
  destruct (find_entry _ es); [done|]. intros _. rewrite IH by done. by rewrite insert_insert_ne.
Qed.

Lemma names_alter (i : nat) f (es : list cxpr_func_entry) :
  (∀ e, fe_name (f e) = fe_name e) → fe_name <$> alter f i es = fe_name <$> es.
Proof.
  intros Hname. revert i. induction es as [|e es IH]; intros [|i]; csimpl; try done;
    [by rewrite Hname|]. f_equal. apply IH.
Qed.

(** ** Reachable registries *)

Record reg_ok (r : cxpr_registry) : Prop := {
  ok_names : NoDup (fe_name <$> reg_entries r);
  ok_count : (Z.of_nat (length (reg_entries r)) ≤ reg_capacity r)%Z;
  ok_capacity : (0 < reg_capacity r)%Z
}.

(** The array can double once more. *)
Definition reg_room (r : cxpr_registry) : Prop :=
  (Z.of_nat (length (reg_entries r)) ≤ SIZE_MAX / 2)%Z.

Lemma ensure_room_ok r :
  reg_ok r → reg_room r →
  ∃ r', ensure_room r = Some r' ∧ reg_entries r' = reg_entries r ∧ reg_version r' = reg_version r ∧
    reg_released r' = reg_released r ∧ cxpr_registry_free r' = cxpr_registry_free r ∧
    (Z.of_nat (length (reg_entries r)) < reg_capacity r')%Z.
Proof.
  intros [_ Hc Hp] Hroom. unfold reg_room in Hroom. unfold ensure_room, cxpr_registry_grow.
  destruct (Z.leb_spec (reg_capacity r) (Z.of_nat (length (reg_entries r)))) as [Hle|Hlt].
  - destruct (Z.ltb_spec (SIZE_MAX / 2) (reg_capacity r)); [lia|].
    eexists. split_and!; try done. simpl. lia.
  - by exists r.
Qed.

Lemma reg_ok_entries r es c v l u f k rel :
  reg_ok r → fe_name <$> es = fe_name <$> reg_entries r → c = reg_capacity r →
  reg_ok (mk_registry es c v l u f k rel).
Proof.
  intros [Hn Hc Hp] He ->. split; simpl; [by rewrite He| |done].
  rewrite <- (length_fmap fe_name es), He, length_fmap. done.
Qed.

Lemma reg_ok_append r r' e :
  reg_ok r → reg_entries r' = reg_entries r →
  (Z.of_nat (length (reg_entries r)) < reg_capacity r')%Z →
  cxpr_registry_find r (fe_name e) = None →
  reg_ok (bump_version (set_entries (reg_entries r' ++ [e]) r')).
Proof.
  intros [Hn Hc Hp] He Hlt Hf. split; simpl; [|rewrite length_app, He; simpl; lia|lia].
  rewrite He, fmap_app. apply NoDup_app. split_and!; [done| |apply NoDup_singleton].
  intros x Hx. simpl. apply find_entry_none in Hf. set_solver.
Qed.

Lemma reg_ok_release rel r : reg_ok r → reg_ok (release_all rel r).
Proof. intros Hok. by apply (reg_ok_entries r). Qed.

Lemma update_spec r name i f :
  cxpr_registry_find r name = Some i → (∀ e, fe_name (f e) = fe_name e) → reg_ok r →
  let r' := bump_version (update_entry i f r) in
  reg_ok r' ∧ reg_view r' = alter f name (reg_view r) ∧ reg_version r' = wrap64 (reg_version r + 1).
Proof.
  intros Hf Hname Hok r'. split_and!; [|by apply entries_view_alter|done].
  apply (reg_ok_entries r); [done|by apply names_alter|done].
Qed.

Lemma append_spec r name e :
  cxpr_registry_find r name = None → fe_name e = name → reg_ok r → reg_room r →
  ∃ r', ensure_room r = Some r' ∧
    let r'' := bump_version (set_entries (reg_entries r' ++ [e]) r') in
    reg_ok r'' ∧ reg_view r'' = <[name := e]> (reg_view r) ∧
    reg_version r'' = wrap64 (reg_version r + 1) ∧
    cxpr_registry_free r'' ≡ₚ cxpr_registry_free r ++ entry_releases e.
Proof.
  intros Hf <- Hok Hroom.
  destruct (ensure_room_ok r Hok Hroom) as (r' & Hr & He & Hv & _ & Hfree & Hlt).
  exists r'. split; [done|]. split_and!; [by apply (reg_ok_append r)| | |].
  - unfold reg_view. simpl. rewrite He. by apply entries_view_app.
  - simpl. by rewrite Hv.
  - rewrite <- Hfree. unfold cxpr_registry_free. simpl. rewrite flat_map_app. simpl.
    rewrite app_nil_r. solve_Permutation.
Qed.

(** *** The set-up functions of the adders

    They keep the name, and the arity they set hides the one before: so a
    replaced entry ends as a new one does. *)
Record setup (f : cxpr_func_entry → cxpr_func_entry) : Prop := {
  setup_name : ∀ e, fe_name (f e) = fe_name e;
  setup_arity : ∀ e mi ma, f (with_arity mi ma e) = f e
}.

Lemma replace_is_prepare e :
  cxpr_registry_replace_entry e =
  with_arity (fe_min_args e) (fe_max_args e) (cxpr_registry_prepare_entry (fe_name e)).
Proof. by destruct e. Qed.

Ltac setup_tac := split; [by intros []|by intros [] ? ?].

(** *** One lemma for every adder *)
Lemma replace_or_append_spec f r name :
  setup f → reg_ok r → reg_room r →
  let r' := replace_or_append f r name in
  reg_ok r' ∧ reg_view r' = <[name := f (cxpr_registry_prepare_entry name)]> (reg_view r) ∧
  reg_version r' = wrap64 (reg_version r + 1).
Proof.
  intros [Hname Har] Hok Hroom. unfold replace_or_append.
  destruct (cxpr_registry_find r name) as [i|] eqn:Hf.
  - set (rel := match _ with Some e => entry_releases e | None => [] end).
    destruct (update_spec (release_all rel r) name i (λ e, f (cxpr_registry_replace_entry e)))
      as (Hok' & Hview & Hv); [done|intros []; by rewrite Hname|by apply reg_ok_release|].
    split_and!; [apply Hok'| |apply Hv]. etrans; [apply Hview|].
    change (reg_view (release_all rel r)) with (reg_view r). apply map_eq. intros n. destruct (decide (n = name)) as [->|Hne];
      [|by rewrite lookup_alter_ne, lookup_insert_ne].
    rewrite lookup_alter_eq, lookup_insert_eq. unfold reg_view. rewrite entries_view_lookup.
    unfold cxpr_registry_find in Hf. rewrite Hf.
    destruct (find_entry_lookup _ _ _ Hf) as (e & -> & <-). simpl.
    by rewrite replace_is_prepare, Har.
  - destruct (append_spec r name (f (cxpr_registry_prepare_entry name))) as (r' & -> & Hok' & Hview & Hv & _);
      [done|by rewrite Hname|done..].
Qed.

(** ** Operations *)

Inductive native_setup : Type := setup_nullary | setup_unary | setup_binary | setup_ternary.

Definition native_adder (n : native_setup) : cxpr_registry → string → scalar_ptr → cxpr_registry :=
  match n with
  | setup_nullary => cxpr_registry_add_nullary
  | setup_unary => cxpr_registry_add_unary
  | setup_binary => cxpr_registry_add_binary
  | setup_ternary => cxpr_registry_add_ternary
  end.

Definition native_entry (n : native_setup) (name : string) (func : scalar_ptr) : cxpr_func_entry :=
  let make kind adapter arity :=
    with_native (Some (kind, func))
      (with_userdata (ud_adapter func) (Some free_libc)
        (with_return_type (Some CXPR_VALUE_NUMBER)
          (with_arity arity arity
            (with_scalar_funcs (Some adapter) None None (cxpr_registry_prepare_entry name))))) in
  match n with
  | setup_nullary => make NATIVE_NULLARY fn_nullary_adapter 0
  | setup_unary => make NATIVE_UNARY fn_unary_adapter 1
  | setup_binary => make NATIVE_BINARY fn_binary_adapter 2
  | setup_ternary => make NATIVE_TERNARY fn_ternary_adapter 3
  end.

Inductive registry_op : Type :=
  | OpNumeric (name : string) (func : cxpr_func_ptr) (mi ma : nat) (ud : userdata)
      (free : option cxpr_userdata_free_fn)
  | OpValue (name : string) (func : cxpr_value_func_ptr) (mi ma : nat) (ud : userdata)
      (free : option cxpr_userdata_free_fn)
  | OpTyped (name : string) (func : cxpr_typed_func_ptr) (mi ma : nat)
      (arg_types : option (list cxpr_value_type)) (rt : cxpr_value_type) (ud : userdata)
      (free : option cxpr_userdata_free_fn)
  | OpAst (name : string) (func : cxpr_expr_ast_func_ptr) (mi ma : nat) (rt : cxpr_value_type)
      (ud : userdata) (free : option cxpr_userdata_free_fn)
  | OpNative (n : native_setup) (name : string) (func : scalar_ptr)
  | OpHandler (name : string) (func : cxpr_expr_ast_func_ptr) (mi ma : nat) (ud : userdata)
      (free : option cxpr_userdata_free_fn)
  | OpStruct (name : string) (func : Z) (mi ma : nat) (fields : list string)
      (ud : userdata) (free : option cxpr_userdata_free_fn)
  | OpParamNames (name : string) (names : list string)
  | OpFn (name : string) (func : cxpr_func_ptr) (fields : list string) (struct_argc : nat)
      (ud : userdata) (free : option cxpr_userdata_free_fn)
  | OpCodegen (name : string) (codegen : Z) (ud : userdata) (free : option cxpr_userdata_free_fn).

Definition op_name (op : registry_op) : string :=
  match op with
  | OpNumeric n _ _ _ _ _ | OpValue n _ _ _ _ _ | OpTyped n _ _ _ _ _ _ _ | OpAst n _ _ _ _ _ _
  | OpNative _ n _ | OpHandler n _ _ _ _ _ | OpStruct n _ _ _ _ _ _ | OpParamNames n _
  | OpFn n _ _ _ _ _ | OpCodegen n _ _ _ => n
  end.

Definition exec (op : registry_op) (r : cxpr_registry) : cxpr_registry :=
  match op with
  | OpNumeric n f mi ma ud free => cxpr_registry_add_numeric r n f mi ma ud free
  | OpValue n f mi ma ud free => cxpr_registry_add_value r n f mi ma ud free
  | OpTyped n f mi ma at' rt ud free => cxpr_registry_add_typed r n f mi ma at' rt ud free
  | OpAst n f mi ma rt ud free => cxpr_registry_add_ast r n f mi ma rt ud free
  | OpNative k n f => native_adder k r n f
  | OpHandler n f mi ma ud free => cxpr_registry_add_ast_handler r n f mi ma ud free
  | OpStruct n f mi ma fields ud free => cxpr_registry_add_struct r n f mi ma fields ud free
  | OpParamNames n names => snd (cxpr_registry_set_param_names r n names)
  | OpFn n f fields argc ud free => cxpr_registry_add_fn r n f fields argc ud free
  | OpCodegen n codegen ud free => snd (cxpr_registry_set_struct_codegen r n codegen ud free)
  end.

(** What the operation makes of the entry of its name: a whole new entry, or a
    change of the entry that is there. *)
Definition spec_entry (op : registry_op) (old : option cxpr_func_entry) : option cxpr_func_entry :=
  let fresh := cxpr_registry_prepare_entry (op_name op) in
  match op with
  | OpNumeric _ f mi ma ud free =>
      Some (with_userdata ud free (with_return_type (Some CXPR_VALUE_NUMBER)
        (with_arity mi ma (with_scalar_funcs (Some f) None None fresh))))
  | OpValue _ f mi ma ud free =>
      Some (with_userdata ud free
        (with_arity mi ma (with_scalar_funcs None (Some f) None fresh)))
  | OpTyped _ f mi ma at' rt ud free =>
      Some (with_userdata ud free (with_return_type (Some rt)
        (with_arg_types (cxpr_registry_clone_arg_types at' ma)
          (with_arity mi ma (with_scalar_funcs None None (Some f) fresh)))))
  | OpAst _ f mi ma rt ud free =>
      Some (with_userdata ud free (with_return_type (Some rt)
        (with_arity mi ma (with_ast_func (Some f) fresh))))
  | OpNative k n f => Some (native_entry k n f)
  | OpHandler _ f mi ma ud free =>
      Some match old with
           | None => with_arity mi ma (with_handler (Some f) ud free fresh)
           | Some e => with_arity (Nat.min mi (fe_min_args e)) (Nat.max ma (fe_max_args e))
                         (with_handler (Some f) ud free e)
           end
  | OpStruct _ f mi ma fields ud free =>
      match fields, old with
      | [], _ => old
      | _, None =>
          Some (with_struct_fields fields 0 (struct_setup mi ma ud free (with_struct_producer (Some f) fresh)))
      | _, Some e =>
          let e := with_struct_producer (Some f) e in
          Some (with_struct_fields fields 0 (if no_scalar_func e then struct_setup mi ma ud free e else e))
      end
  | OpParamNames _ names =>
      match old with
      | None => None
      | Some e =>
          if (length names <? fe_max_args e) && negb (length names =? 0) then Some e
          else Some (with_param_names names e)
      end
  | OpFn _ f fields argc ud free =>
      match fields, argc with
      | [], _ | _, 0 => old
      | _, _ =>
          Some (with_struct_fields fields argc (with_userdata ud free
            (with_return_type (Some CXPR_VALUE_NUMBER)
              (with_arity argc argc (with_scalar_funcs (Some f) None None fresh)))))
      end
  | OpCodegen _ codegen ud free =>
      match old with
      | Some e =>
          match fe_struct_producer e with
          | None => old
          | Some _ =>
              Some (with_codegen (Some codegen) ud
                match free with
                | None => if bool_decide (fe_codegen_userdata e = ud) then fe_codegen_free e else None
                | _ => free
                end e)
          end
      | None => None
      end
  end.

(** The entries and the version change together. *)
Definition changes (r r' : cxpr_registry) : Prop :=
  (reg_entries r' = reg_entries r ∧ reg_version r' = reg_version r) ∨
  reg_version r' = wrap64 (reg_version r + 1).

Definition refines (op : registry_op) (r r' : cxpr_registry) : Prop :=
  reg_ok r' ∧ reg_view r' = partial_alter (spec_entry op) (op_name op) (reg_view r) ∧ changes r r'.

Lemma refines_replace op f r name v :
  setup f → reg_ok r → reg_room r → op_name op = name →
  (∀ old, spec_entry op old = Some v) → f (cxpr_registry_prepare_entry name) = v →
  refines op r (replace_or_append f r name).
Proof.
  intros Hf Hok Hroom <- Hs <-.
  destruct (replace_or_append_spec f r (op_name op) Hf Hok Hroom) as (? & Hview & ?).
  split_and!; [done| |by right]. rewrite Hview. unfold insert, map_insert.
  apply partial_alter_ext. intros old _. by rewrite Hs.
Qed.

Lemma alter_partial {A} (f : A → A) g (n : string) (m : gmap string A) x :
  m !! n = Some x → g (Some x) = Some (f x) → alter f n m = partial_alter g n m.
Proof.
  intros Hm Hg. unfold alter, map_alter. apply partial_alter_ext. intros old Hold.
  rewrite Hm in Hold. by subst old.
Qed.

Lemma insert_partial {A} g (n : string) (m : gmap string A) x :
  m !! n = None → g None = Some x → <[n := x]> m = partial_alter g n m.
Proof.
  intros Hm Hg. unfold insert, map_insert. apply partial_alter_ext. intros old Hold.
  rewrite Hm in Hold. by subst old.
Qed.

Lemma find_view r name i :
  cxpr_registry_find r name = Some i → ∃ e, reg_entries r !! i = Some e ∧ reg_view r !! name = Some e.
Proof.
  intros Hf. destruct (find_entry_lookup _ _ _ Hf) as (e & He & _). exists e. split; [done|].
  rewrite <- registry_lookup_view. unfold registry_lookup. by rewrite Hf.
Qed.

Lemma find_view_none r name : cxpr_registry_find r name = None → reg_view r !! name = None.
Proof. intros Hf. rewrite <- registry_lookup_view. unfold registry_lookup. by rewrite Hf. Qed.

Lemma view_find r name e : reg_view r !! name = Some e → ∃ i, cxpr_registry_find r name = Some i.
Proof.
  intros Hv. destruct (cxpr_registry_find r name) as [i|] eqn:Hf; [eauto|].
  apply find_view_none in Hf. congruence.
Qed.

Lemma refines_native k r name f :
  reg_ok r → reg_room r → refines (OpNative k name f) r (native_adder k r name f).
Proof.
  intros Hok Hroom.
  assert (Hgen : ∀ kind adapter arity v,
    with_native (Some (kind, f)) (with_userdata (ud_adapter f) (Some free_libc)
      (with_return_type (Some CXPR_VALUE_NUMBER) (with_arity arity arity
        (with_scalar_funcs (Some adapter) None None (cxpr_registry_prepare_entry name))))) = v →
    (∀ old, spec_entry (OpNative k name f) old = Some v) →
    refines (OpNative k name f) r (add_native kind adapter arity r name f)).
  { intros kind adapter arity v <- Hs. unfold add_native, cxpr_registry_add, cxpr_registry_add_numeric.
    match goal with |- context [replace_or_append ?g r name] => set (setup_f := g) end.
    destruct (replace_or_append_spec setup_f r name) as (Hok' & Hview & Hv); [setup_tac|done..|].
    set (r' := replace_or_append _ _ _) in *.
    destruct (view_find r' name (setup_f (cxpr_registry_prepare_entry name))) as [i Hi].
    { by rewrite Hview, lookup_insert_eq. }
    rewrite Hi. destruct (update_spec r' name i (with_native (Some (kind, f))) Hi) as ([Ho1 Ho2 Ho3] & Hview' & _);
      [by intros []|done|].
    split_and!; [split; done| |by right]. etrans; [apply Hview'|]. rewrite Hview.
    rewrite alter_insert_eq. unfold insert, map_insert. apply partial_alter_ext. intros old _.
    by rewrite Hs. }
  destruct k; by eapply Hgen.
Qed.

Lemma refines_handler r name f mi ma ud free :
  reg_ok r → reg_room r →
  refines (OpHandler name f mi ma ud free) r (cxpr_registry_add_ast_handler r name f mi ma ud free).
Proof.
  intros Hok Hroom. unfold cxpr_registry_add_ast_handler.
  destruct (cxpr_registry_find r name) as [i|] eqn:Hf.
  - destruct (find_view r name i Hf) as (e & -> & He).
    match goal with |- context [update_entry i ?g ?r'] =>
      destruct (update_spec r' name i g) as (Hok' & Hview & Hv); [done| |by apply reg_ok_release|] end;
      [|split_and!; [apply Hok'| |right; apply Hv]].
    { by intros []. }
    etrans; [apply Hview|]. apply (alter_partial _ _ _ _ e He). simpl. f_equal.
    f_equal; [destruct (Nat.ltb_spec mi (fe_min_args e)); lia|].
    destruct (Nat.ltb_spec (fe_max_args e) ma); lia.
  - edestruct (append_spec r name) as (r' & -> & Hok' & Hview & Hv & _); [done| |done..|];
      [|split_and!; [apply Hok'| |right; apply Hv]]; [done|].
    etrans; [apply Hview|]. apply insert_partial; [by apply find_view_none|done].
Qed.

Lemma changes_refl r : changes r r.
Proof. by left. Qed.

(** An operation that is refused changes nothing. *)
Lemma refines_refused op r : reg_ok r → spec_entry op (reg_view r !! op_name op) = reg_view r !! op_name op → refines op r r.
Proof. intros Hok Hs. split_and!; [done| |apply changes_refl]. symmetry. by apply partial_alter_id. Qed.

Lemma refines_struct r name f mi ma fields ud free :
  reg_ok r → reg_room r →
  refines (OpStruct name f mi ma fields ud free) r (cxpr_registry_add_struct r name f mi ma fields ud free).
Proof.
  intros Hok Hroom. unfold cxpr_registry_add_struct. destruct fields as [|field fields]; [by apply refines_refused|].
  simpl length. cbn [Nat.eqb].
  destruct (cxpr_registry_find r name) as [i|] eqn:Hf.
  - destruct (find_view r name i Hf) as (e & _ & He).
    match goal with |- context [update_entry i ?g r] =>
      destruct (update_spec r name i g) as (Hok' & Hview & Hv); [done| |done|] end;
      [|split_and!; [apply Hok'| |right; apply Hv]].
    { intros []. simpl. unfold no_scalar_func. simpl. by repeat case_match. }
    etrans; [apply Hview|]. apply (alter_partial _ _ _ _ e He). simpl. destruct e. simpl.
    unfold no_scalar_func. simpl. by repeat case_match.
  - edestruct (append_spec r name) as (r' & -> & Hok' & Hview & Hv & _); [done| |done..|];
      [|split_and!; [apply Hok'| |right; apply Hv]]; [done|].
    etrans; [apply Hview|]. apply insert_partial; [by apply find_view_none|done].
Qed.

Lemma refines_params r name names :
  reg_ok r →
  refines (OpParamNames name names) r (snd (cxpr_registry_set_param_names r name names)).
Proof.
  intros Hok. unfold cxpr_registry_set_param_names.
  destruct (cxpr_registry_find r name) as [i|] eqn:Hf; simpl.
  2: { split_and!; [done| |apply changes_refl]. symmetry. simpl.
       apply partial_alter_id. by rewrite find_view_none. }
  destruct (find_view r name i Hf) as (e & He & Hv).
  assert (Hset : refines (OpParamNames name names) r
    (bump_version (update_entry i (with_param_names names) r)) ∨
    (length names <? fe_max_args e) && negb (length names =? 0) = true).
  { destruct ((length names <? fe_max_args e) && _) eqn:Hg; [by right|left].
    destruct (update_spec r name i (with_param_names names)) as (? & Hview & Hver);
      [done|by intros []|done|].
    split_and!; [done| |by right]. etrans; [apply Hview|].
    apply (alter_partial _ _ _ _ e Hv). simpl. by rewrite Hg. }
  destruct names as [|n names]; simpl.
  { destruct Hset as [H|H]; [done|]. simpl in H. by rewrite andb_false_r in H. }
  rewrite He. destruct (S (length names) <? fe_max_args e) eqn:Hlt.
  - split_and!; [done| |apply changes_refl]. symmetry. simpl.
    apply partial_alter_id. rewrite Hv. simpl. by rewrite Hlt.
  - destruct Hset as [H|H]; [done|]. simpl in H. by rewrite Hlt in H.
Qed.

Lemma refines_fn r name f fields argc ud free :
  reg_ok r → reg_room r →
  refines (OpFn name f fields argc ud free) r (cxpr_registry_add_fn r name f fields argc ud free).
Proof.
  intros Hok Hroom. unfold cxpr_registry_add_fn.
  destruct fields as [|field fields]; [by apply refines_refused|]. destruct argc as [|argc]; [by apply refines_refused|].
  simpl orb. cbv iota. by eapply refines_replace; [setup_tac|..].
Qed.

Lemma refines_codegen r name codegen ud free :
  reg_ok r →
  refines (OpCodegen name codegen ud free) r (snd (cxpr_registry_set_struct_codegen r name codegen ud free)).
Proof.
  intros Hok. unfold cxpr_registry_set_struct_codegen.
  destruct (cxpr_registry_find r name) as [i|] eqn:Hf.
  2: { apply refines_refused; [done|]. cbn [op_name]. by rewrite find_view_none. }
  destruct (find_view r name i Hf) as (e & -> & Hv).
  destruct (fe_struct_producer e) as [p|] eqn:Hp.
  2: { apply refines_refused; [done|]. simpl. by rewrite Hv, Hp. }
  assert (Hset : ∀ rel f, f = match free with
      | None => if bool_decide (fe_codegen_userdata e = ud) then fe_codegen_free e else None | _ => free end →
    refines (OpCodegen name codegen ud free) r
      (bump_version (update_entry i (with_codegen (Some codegen) ud f) (release_all rel r)))).
  { intros rel f Hfree.
    destruct (update_spec (release_all rel r) name i (with_codegen (Some codegen) ud f)) as (? & Hview & Hver);
      [done|by intros []|by apply reg_ok_release|].
    split_and!; [done| |by right]. etrans; [apply Hview|].
    apply (alter_partial _ _ _ _ e Hv). simpl. by rewrite Hp, Hfree. }
  case_bool_decide as Hud; simpl snd.
  - specialize (Hset [] (match free with Some f => Some f | None => fe_codegen_free e end)).
    destruct r. unfold release_all in Hset. simpl in Hset. rewrite app_nil_r in Hset. apply Hset. by destruct free.
  - apply Hset. by destruct free.
Qed.

Lemma exec_refines op r : reg_ok r → reg_room r → refines op r (exec op r).
Proof.
  intros Hok Hroom. destruct op; simpl.
  - by eapply refines_replace; [setup_tac|..].
  - by eapply refines_replace; [setup_tac|..].
  - by eapply refines_replace; [setup_tac|..].
  - by eapply refines_replace; [setup_tac|..].
  - by apply refines_native.
  - by apply refines_handler.
  - by apply refines_struct.
  - by apply refines_params.
  - by apply refines_fn.
  - by apply refines_codegen.
Qed.

(** ** The number of entries *)

Lemma registry_new_ok : reg_ok cxpr_registry_new.
Proof. split; [apply NoDup_nil_2|done|done]. Qed.

Lemma names_in_view r : reg_ok r → length (reg_entries r) = size (reg_view r).
Proof.
  intros [Hn _ _]. unfold reg_view, entries_view. rewrite map_size_list_to_map; [by rewrite length_fmap|].
  by rewrite <- list_fmap_compose.
Qed.

Lemma partial_alter_size (f : option cxpr_func_entry → option cxpr_func_entry) n (m : gmap string cxpr_func_entry) :
  size (partial_alter f n m) ≤ S (size m).
Proof.
  destruct (f (m !! n)) as [x|] eqn:Hx.
  - assert (Heq : partial_alter f n m = <[n := x]> m).
    { unfold insert, map_insert. apply partial_alter_ext. by intros old <-. }
    rewrite Heq, map_size_insert. destruct (m !! n); simpl; lia.
  - assert (Heq : partial_alter f n m = delete n m).
    { unfold delete, map_delete. apply partial_alter_ext. by intros old <-. }
    rewrite Heq, map_size_delete. destruct (m !! n); simpl; lia.
Qed.

Lemma view_grows op r :
  reg_ok r → reg_room r → length (reg_entries (exec op r)) ≤ S (length (reg_entries r)).
Proof.
  intros Hok Hroom. destruct (exec_refines op r Hok Hroom) as (Hok' & Hview & _).
  rewrite !names_in_view, Hview by done. apply partial_alter_size.
Qed.

(** ** Ownership of user data *)

Lemma releases_alter i f es e :
  es !! i = Some e →
  flat_map entry_releases (alter f i es) ++ entry_releases e ≡ₚ
  flat_map entry_releases es ++ entry_releases (f e).
Proof.
  revert i. induction es as [|e' es IH]; intros [|i] Hi; simpl in *; [done|done| |].
  - injection Hi as ->. solve_Permutation.
  - rewrite <- !app_assoc. by rewrite (IH i Hi).
Qed.

(** What an operation hands over together with a destructor.  A registration that
    is refused hands nothing over: a function or a producer without fields, code
    generation for a name that has no struct producer. *)
Definition given (op : registry_op) (r : cxpr_registry) : list release :=
  match op with
  | OpNumeric _ _ _ _ ud free | OpValue _ _ _ _ ud free | OpTyped _ _ _ _ _ _ ud free
  | OpAst _ _ _ _ _ ud free | OpHandler _ _ _ _ ud free => free_call free ud
  | OpStruct _ _ _ _ fields ud free => match fields with [] => [] | _ => free_call free ud end
  | OpNative _ _ f => [(free_libc, ud_adapter f)]
  | OpParamNames _ _ => []
  | OpFn _ _ fields argc ud free => match fields, argc with [], _ | _, 0 => [] | _, _ => free_call free ud end
  | OpCodegen name codegen ud free =>
      match registry_lookup r name ≫= fe_struct_producer with Some _ => free_call free ud | None => [] end
  end.

(** Excepted are a struct producer under a name in use, user data for code
    generation that the entry has already, and such data over a NULL that came
    with a destructor. *)
Definition conserves (op : registry_op) (r : cxpr_registry) : Prop :=
  match op with
  | OpStruct name _ _ _ _ _ _ => cxpr_registry_find r name = None
  | OpCodegen name _ ud _ =>
      ∀ e, registry_lookup r name = Some e →
        fe_codegen_userdata e ≠ ud ∧ (fe_codegen_userdata e = ud_null → fe_codegen_free e = None)
  | _ => True
  end.

Lemma free_update r i e f rel kept g :
  reg_entries r !! i = Some e → entry_releases e ≡ₚ rel ++ kept → entry_releases (f e) ≡ₚ kept ++ g →
  cxpr_registry_free (bump_version (update_entry i f (release_all rel r))) ≡ₚ
  cxpr_registry_free r ++ g.
Proof.
  intros Hi He Hf. pose proof (releases_alter i f _ e Hi) as Hp. rewrite He, Hf in Hp.
  unfold cxpr_registry_free. cbn [bump_version update_entry set_entries release_all reg_entries
    reg_released reg_lookback_free reg_lookback_userdata reg_capabilities].
  apply (Permutation_app_inv_r kept).
  set (es' := flat_map entry_releases (alter f i (reg_entries r))) in *.
  set (es := flat_map entry_releases (reg_entries r)) in *.
  set (lb := free_nonnull _ _). set (caps := flat_map _ _). set (done := reg_released r).
  transitivity (done ++ lb ++ caps ++ (es' ++ rel ++ kept)); [solve_Permutation|].
  rewrite Hp. solve_Permutation.
Qed.

Lemma free_replace f r name g :
  reg_ok r → reg_room r → (∀ e, fe_name (f e) = fe_name e) →
  (∀ e, entry_releases (f (cxpr_registry_replace_entry e)) ≡ₚ g) →
  entry_releases (f (cxpr_registry_prepare_entry name)) ≡ₚ g →
  cxpr_registry_free (replace_or_append f r name) ≡ₚ cxpr_registry_free r ++ g.
Proof.
  intros Hok Hroom Hname Hrel Hnew. unfold replace_or_append.
  destruct (cxpr_registry_find r name) as [i|] eqn:Hf.
  - destruct (find_view r name i Hf) as (e & He & _). rewrite He.
    apply (free_update r i e _ _ []); [done|by rewrite app_nil_r|apply Hrel].
  - destruct (append_spec r name (f (cxpr_registry_prepare_entry name))) as (r' & -> & _ & _ & _ & Hfree);
      [done|by rewrite Hname|done..|]. by rewrite Hfree, Hnew.
Qed.

Lemma alter_absent (f : cxpr_func_entry → cxpr_func_entry) (i : nat) (es : list cxpr_func_entry) :
  es !! i = None → alter f i es = es.
Proof. revert i. induction es as [|e es IH]; intros [|i] Hi; simpl in *; [done..|]. by rewrite <- (IH i Hi) at 2. Qed.

Lemma free_native_update r i k f :
  cxpr_registry_free (update_entry i (with_native (Some (k, f))) r) ≡ₚ cxpr_registry_free r.
Proof.
  destruct (reg_entries r !! i) as [e|] eqn:He.
  - unfold cxpr_registry_free, update_entry. cbn [set_entries reg_entries
      reg_released reg_lookback_free reg_lookback_userdata reg_capabilities].
    assert (Hp : flat_map entry_releases (alter (with_native (Some (k, f))) i (reg_entries r)) ≡ₚ
                 flat_map entry_releases (reg_entries r)).
    { apply (Permutation_app_inv_r (entry_releases e)). rewrite (releases_alter _ _ _ e He). by destruct e. }
    by rewrite Hp.
  - unfold update_entry. rewrite alter_absent by done. by destruct r.
Qed.

Lemma codegen_conserves r name codegen ud free :
  conserves (OpCodegen name codegen ud free) r →
  cxpr_registry_free (snd (cxpr_registry_set_struct_codegen r name codegen ud free)) ≡ₚ
  cxpr_registry_free r ++ given (OpCodegen name codegen ud free) r.
Proof.
  unfold cxpr_registry_set_struct_codegen. simpl. intros Hc.
  destruct (cxpr_registry_find r name) as [i|] eqn:Hf.
  2: { unfold registry_lookup. rewrite Hf. simpl. by rewrite app_nil_r. }
  destruct (find_view r name i Hf) as (e & He & Hv). rewrite <- registry_lookup_view in Hv. rewrite He, Hv. simpl.
  destruct (fe_struct_producer e) as [p|]; [|by rewrite app_nil_r].
  destruct (Hc e Hv) as [Hud Hnull]. rewrite bool_decide_eq_false_2 by done. simpl snd.
  apply (free_update r i e _ _ (free_call (fe_userdata_free e) (fe_userdata e) ++
    free_call (fe_handler_free e) (fe_handler_userdata e))); [done| |by destruct e; unfold entry_releases; simpl; rewrite <- app_assoc].
  unfold entry_releases. destruct (fe_codegen_userdata e) eqn:Hold; try solve_Permutation.
  rewrite Hnull by done. simpl. by rewrite app_nil_r.
Qed.

Lemma exec_conserves op r :
  reg_ok r → reg_room r → conserves op r →
  cxpr_registry_free (exec op r) ≡ₚ cxpr_registry_free r ++ given op r.
Proof.
  intros Hok Hroom Hc.
  destruct op as [| | | |k name f|name f mi ma ud free|name f mi ma fields ud free|name names
                 |name f fields argc ud free|name codegen ud free]; simpl.
  1-4: apply free_replace; [done|done|by intros []|intros []|];
    unfold entry_releases; simpl; by rewrite ?app_nil_r.
  - assert (Hgen : ∀ kind adapter arity,
      cxpr_registry_free (add_native kind adapter arity r name f) ≡ₚ
      cxpr_registry_free r ++ [(free_libc, ud_adapter f)]).
    { intros kind adapter arity. unfold add_native.
      assert (Hadd : cxpr_registry_free (cxpr_registry_add r name adapter arity arity (ud_adapter f)
        (Some free_libc)) ≡ₚ cxpr_registry_free r ++ [(free_libc, ud_adapter f)])
        by (apply free_replace; [done|done|by intros []|by intros []|done]).
      destruct (cxpr_registry_find _ name); [by rewrite free_native_update|done]. }
    destruct k; apply Hgen.
  - unfold cxpr_registry_add_ast_handler. destruct (cxpr_registry_find r name) as [i|] eqn:Hf.
    + destruct (find_view r name i Hf) as (e & He & _). rewrite He.
      apply (free_update r i e _ _ (free_call (fe_userdata_free e) (fe_userdata e) ++
        free_call (fe_codegen_free e) (fe_codegen_userdata e))); [done| |];
        destruct e; unfold entry_releases; simpl; solve_Permutation.
    + edestruct (append_spec r name) as (r' & -> & _ & _ & _ & Hfree); [done| |done..|];
        [|by rewrite Hfree; unfold entry_releases; simpl; rewrite ?app_nil_r]. done.
  - unfold cxpr_registry_add_struct. simpl in Hc. rewrite Hc.
    destruct fields as [|field fields]; [by rewrite app_nil_r|]. cbn [length Nat.eqb].
    edestruct (append_spec r name) as (r' & -> & _ & _ & _ & Hfree); [done| |done..|];
      [|by rewrite Hfree; unfold entry_releases; simpl; rewrite ?app_nil_r]. done.
  - rewrite app_nil_r. unfold cxpr_registry_set_param_names.
    destruct (cxpr_registry_find r name) as [i|] eqn:Hf; [|done].
    destruct (find_view r name i Hf) as (e & He & _).
    assert (Hset : ∀ l, cxpr_registry_free (bump_version (update_entry i (with_param_names l) r)) ≡ₚ
                        cxpr_registry_free r).
    { intros l. rewrite <- (app_nil_r (cxpr_registry_free r)).
      rewrite <- (free_update r i e (with_param_names l) [] (entry_releases e) []); [|done|done|by destruct e; rewrite app_nil_r].
      unfold cxpr_registry_free. simpl. by rewrite app_nil_r. }
    destruct names; simpl; [apply Hset|]. rewrite He. destruct (_ <? _); [done|apply Hset].
  - unfold cxpr_registry_add_fn. destruct fields as [|field fields]; [by rewrite app_nil_r|].
    destruct argc as [|argc]; [by rewrite app_nil_r|].
    apply free_replace; [done|done|by intros []|intros []|]; unfold entry_releases; simpl; by rewrite ?app_nil_r.
  - by apply codegen_conserves.
Qed.

(** A struct producer registered over an existing entry loses user data.
    Over another producer, the first producer's user data is never destroyed.
    Over a scalar function, the new user data is dropped: the producer will be
    called with the user data of the scalar function. *)
Theorem struct_overlay_loses_userdata ud1 ud2 free :
  let add r f ud := cxpr_registry_add_struct r "m" f 0 0 ["line"] ud (Some free) in
  let scalar := cxpr_registry_add_numeric cxpr_registry_new "m" (fn_sync 9) 1 1 ud1 (Some free) in
  cxpr_registry_free (add (add cxpr_registry_new 1%Z ud1) 2%Z ud2) = [(free, ud2)] ∧
  cxpr_registry_free (add scalar 2%Z ud2) = [(free, ud1)] ∧
  ∃ e, registry_lookup (add scalar 2%Z ud2) "m" = Some e ∧
    fe_struct_producer e = Some 2%Z ∧ fe_userdata e = ud1.
Proof. split_and!; [done|done|]. eexists. done. Qed.
