(* ===== verification/Builtins.v ===== *)
(** * Builtins: numeric builtins, native calls and the default registrations
    ([src/registry/defaults.c], [src/registry/call.c], the registrations of
    [src/timeseries.c] and the operator table of [src/window.c])

    Host functions and the C math library are parameters ([HostCode]); a host
    function may change the host's state [W].  The builtins that inspect their
    call's tree are in the evaluator. *)

From Stdlib Require Import Ascii String ZArith Lia SpecFloat.
From stdpp Require Import base list strings gmap.
From S2P Require Import Prelude Float64 Types Ast References Registry RegistryProofs.
Local Open Scope run_scope.
Local Open Scope nat_scope.

(** ** Code outside the sources *)
Class HostCode (W : Type) : Type := {
  libm : string → list float64 → float64;
  host_scalar : Z → list float64 → W → float64 * W;
  host_sync : Z → list float64 → userdata → W → float64 * W;
  host_value : Z → list cxpr_value → userdata → W → cxpr_value * W;
  host_typed : Z → list cxpr_value → userdata → W → cxpr_value * W
}.

(** ** Numeric builtins ([defaults.c]) *)

Definition CXPR_PI : float64 := of_decimal 314159265358979323846 (-20).
Definition CXPR_E : float64 := of_decimal 271828182845904523536 (-20).
Definition finf : float64 := S754_infinity false.

Definition cxpr_clamp (x lo hi : float64) : float64 :=
  let '(lo, hi) := if fgtb lo hi then (hi, lo) else (lo, hi) in
  if fltb x lo then lo else if fgtb x hi then hi else x.

Definition cxpr_sign (x : float64) : float64 :=
  if fgtb x fzero then fone else if fltb x fzero then fneg fone else fzero.

Definition cxpr_min_n (args : list float64) : float64 :=
  match args with
  | [] => fzero
  | a :: args => fold_left (λ out x, if fltb x out then x else out) args a
  end.
Definition cxpr_max_n (args : list float64) : float64 :=
  match args with
  | [] => fzero
  | a :: args => fold_left (λ out x, if fgtb x out then x else out) args a
  end.
Definition cxpr_mean_n (args : list float64) : float64 :=
  match args with
  | [] => fzero
  | _ => fdiv (fold_left fadd args fzero) (of_Z (Z.of_nat (length args)))
  end.

Definition cxpr_lerp (a b t : float64) : float64 := fadd a (fmul (fsub b a) t).
Definition cxpr_smoothstep (x e0 e1 : float64) : float64 :=
  if feqb e0 e1 then (if fgeb x e1 then fone else fzero)
  else
    let t := cxpr_clamp (fdiv (fsub x e0) (fsub e1 e0)) fzero fone in
    fmul (fmul t t) (fsub (of_Z 3) (fmul (of_Z 2) t)).
Definition cxpr_if (cond a b : float64) : float64 := if fneb cond fzero then a else b.
Definition cxpr_radians (degrees : float64) : float64 := fmul degrees (fdiv CXPR_PI (of_Z 180)).
Definition cxpr_degrees (radians : float64) : float64 := fmul radians (fdiv (of_Z 180) CXPR_PI).

Definition cxpr_fn_isnan (args : list cxpr_value) : run cxpr_value :=
  match args with VNum d :: _ => Done (VBool (fisnan d)) | _ => Undef end.
Definition cxpr_fn_isfinite (args : list cxpr_value) : run cxpr_value :=
  match args with VNum d :: _ => Done (VBool (fisfinite d)) | _ => Undef end.
Definition is_null (v : cxpr_value) : bool := match v with VNull => true | _ => false end.
Definition cxpr_fn_is_null (args : list cxpr_value) : run cxpr_value :=
  match args with v :: _ => Done (VBool (is_null v)) | [] => Undef end.
Fixpoint cxpr_fn_coalesce (args : list cxpr_value) : cxpr_value :=
  match args with
  | [] => VNull
  | v :: args => if is_null v then cxpr_fn_coalesce args else v
  end.

Section calls.
Context {W : Type} `{!HostCode W}.

Definition cxpr_sigmoid (x center steepness : float64) : float64 :=
  fdiv fone (fadd fone (libm "exp" [fmul (fneg steepness) (fsub x center)])).

(** A call through a function pointer; another number of arguments than the
    function has is undefined.  The functions of the math library that IEEE 754
    determines are computed. *)
Definition call_scalar (fn : scalar_ptr) (args : list float64) (w : W) : run (float64 * W) :=
  match fn, args with
  | fn_clamp, [x; lo; hi] => Done (cxpr_clamp x lo hi, w)
  | fn_sign, [x] => Done (cxpr_sign x, w)
  | fn_add, [a; b] => Done (fadd a b, w)
  | fn_sub, [a; b] => Done (fsub a b, w)
  | fn_mul, [a; b] => Done (fmul a b, w)
  | fn_div, [a; b] => Done (fdiv a b, w)
  | fn_lerp, [a; b; t] => Done (cxpr_lerp a b t, w)
  | fn_smoothstep, [x; e0; e1] => Done (cxpr_smoothstep x e0 e1, w)
  | fn_sigmoid, [x; c; s] => Done (cxpr_sigmoid x c s, w)
  | fn_pi, [] => Done (CXPR_PI, w)
  | fn_e, [] => Done (CXPR_E, w)
  | fn_nan, [] => Done (fnan, w)
  | fn_inf, [] => Done (finf, w)
  | fn_if, [c; a; b] => Done (cxpr_if c a b, w)
  | fn_radians, [x] => Done (cxpr_radians x, w)
  | fn_degrees, [x] => Done (cxpr_degrees x, w)
  | fn_libm "fabs", [x] => Done (fabs x, w)
  | fn_libm "floor", [x] => Done (ffloor x, w)
  | fn_libm "ceil", [x] => Done (fceil x, w)
  | fn_libm "round", [x] => Done (fround x, w)
  | fn_libm "trunc", [x] => Done (ftrunc x, w)
  | fn_libm "sqrt", [x] => Done (fsqrt x, w)
  | fn_libm "fmod", [x; y] => Done (fmod x y, w)
  | fn_libm symbol, _ => Done (libm symbol args, w)
  | fn_scalar address, _ => Done (host_scalar address args w)
  | _, _ => Undef
  end.

(** [ud->fn(args[0], ...)] of an adapter: reading another user data or a missing
    argument is undefined. *)
Definition call_adapter (arity : nat) (args : list float64) (ud : userdata) (w : W)
    : run (float64 * W) :=
  match ud with
  | ud_adapter fn =>
      if arity <=? length args then call_scalar fn (take arity args) w else Undef
  | _ => Undef
  end.

Definition call_sync (f : cxpr_func_ptr) (args : list float64) (ud : userdata) (w : W)
    : run (float64 * W) :=
  match f with
  | fn_min => Done (cxpr_min_n args, w)
  | fn_max => Done (cxpr_max_n args, w)
  | fn_mean => Done (cxpr_mean_n args, w)
  | fn_nullary_adapter => call_adapter 0 args ud w
  | fn_unary_adapter => call_adapter 1 args ud w
  | fn_binary_adapter => call_adapter 2 args ud w
  | fn_ternary_adapter => call_adapter 3 args ud w
  | fn_sync address => Done (host_sync address args ud w)
  end.

Definition call_value_func (f : cxpr_value_func_ptr) (args : list cxpr_value) (ud : userdata)
    (w : W) : run (cxpr_value * W) :=
  match f with
  | fn_coalesce => Done (cxpr_fn_coalesce args, w)
  | fn_value address => Done (host_value address args ud w)
  end.

Definition call_typed_func (f : cxpr_typed_func_ptr) (args : list cxpr_value) (ud : userdata)
    (w : W) : run (cxpr_value * W) :=
  match f with
  | fn_isnan => let* v := cxpr_fn_isnan args in Done (v, w)
  | fn_isfinite => let* v := cxpr_fn_isfinite args in Done (v, w)
  | fn_is_null => let* v := cxpr_fn_is_null args in Done (v, w)
  | fn_typed address => Done (host_typed address args ud w)
  end.

(** ** Calls by name ([call.c]) *)

(** [snprintf(message, 256, "Unknown function '%s'", name)] *)
Definition cxpr_registry_unknown_function_message (name : string) : string :=
  match name with
  | EmptyString => "Unknown function"
  | _ => str_take 255 ("Unknown function '" ++ name ++ "'")
  end.

Definition call_error (code : cxpr_error_code) (message : string) (w : W)
    : run (cxpr_value * cxpr_error * W) :=
  Done (VNum fnan, mk_error code (Some message) 0 0 0, w).

Fixpoint types_match (args : list cxpr_value) (types : list cxpr_value_type) : bool :=
  match args, types with
  | a :: args, t :: types => bool_decide (value_type a = t) && types_match args types
  | _, _ => true
  end.

(** The doubles of the arguments, if all are numbers. *)
Fixpoint scalar_args (args : list cxpr_value) : option (list float64) :=
  match args with
  | [] => Some []
  | VNum d :: args => option_map (cons d) (scalar_args args)
  | _ :: _ => None
  end.

Definition call_entry (e : cxpr_func_entry) (args : list cxpr_value) (w : W)
    : run (cxpr_value * cxpr_error * W) :=
  let argc := length args in
  if (argc <? fe_min_args e) || (fe_max_args e <? argc)
  then call_error CXPR_ERR_WRONG_ARITY "Wrong number of arguments" w
  else if negb (match fe_arg_types e with Some types => types_match args types | None => true end)
  then call_error CXPR_ERR_TYPE_MISMATCH "Function argument type mismatch" w
  else
    match fe_typed_func e, fe_value_func e with
    | Some f, _ =>
        let* '(v, w) := call_typed_func f args (fe_userdata e) w in Done (v, error_zero, w)
    | None, Some f =>
        let* '(v, w) := call_value_func f args (fe_userdata e) w in Done (v, error_zero, w)
    | None, None =>
        if 32 <? argc then call_error CXPR_ERR_WRONG_ARITY "Too many function arguments" w
        else
          match scalar_args args, fe_sync_func e with
          | None, _ => call_error CXPR_ERR_TYPE_MISMATCH "Function arguments must be numbers" w
          | Some ds, Some f =>
              let* '(d, w) := call_sync f ds (fe_userdata e) w in Done (VNum d, error_zero, w)
          | Some _, None => Undef
          end
    end.

Definition cxpr_registry_call_typed (r : cxpr_registry) (name : string) (args : list cxpr_value)
    (w : W) : run (cxpr_value * cxpr_error * W) :=
  match registry_lookup r name with
  | Some e =>
      if no_scalar_func e
      then call_error CXPR_ERR_UNKNOWN_FUNCTION (cxpr_registry_unknown_function_message name) w
      else call_entry e args w
  | None => call_error CXPR_ERR_UNKNOWN_FUNCTION (cxpr_registry_unknown_function_message name) w
  end.

Definition cxpr_registry_call_value (r : cxpr_registry) (name : string) (args : list float64)
    (w : W) : run (cxpr_value * cxpr_error * W) :=
  if 32 <? length args
  then call_error CXPR_ERR_WRONG_ARITY "Too many function arguments" w
  else cxpr_registry_call_typed r name (map VNum args) w.

Definition cxpr_registry_call (r : cxpr_registry) (name : string) (args : list float64) (w : W)
    : run (float64 * cxpr_error * W) :=
  let* '(value, err, w) := cxpr_registry_call_value r name args w in
  if negb (bool_decide (err_code err = CXPR_OK)) then Done (fnan, err, w)
  else
    match value with
    | VNum d => Done (d, err, w)
    | VBool b => Done (of_bool b, err, w)
    | _ => Done (fnan, mk_error CXPR_ERR_TYPE_MISMATCH
                         (Some "Function did not evaluate to scalar"%string) 0 0 0, w)
    end.

End calls.

(** ** Window operators ([window.c]) *)

Inductive cxpr_window_op : Type :=
  | CXPR_WINDOW_OP_ROC | CXPR_WINDOW_OP_SUM | CXPR_WINDOW_OP_MEAN | CXPR_WINDOW_OP_WMA
  | CXPR_WINDOW_OP_STDDEV | CXPR_WINDOW_OP_HIGHEST | CXPR_WINDOW_OP_LOWEST
  | CXPR_WINDOW_OP_BARS_SINCE_EXTREME | CXPR_WINDOW_OP_MEAN_ABSDEV.

Inductive cxpr_window_reduce : Type :=
  | CXPR_WINDOW_REDUCE_NONE | CXPR_WINDOW_REDUCE_SUM | CXPR_WINDOW_REDUCE_MEAN
  | CXPR_WINDOW_REDUCE_WEIGHTED_MEAN | CXPR_WINDOW_REDUCE_STDDEV | CXPR_WINDOW_REDUCE_HIGHEST
  | CXPR_WINDOW_REDUCE_LOWEST.

Record cxpr_window_ir : Type := mk_window_ir {
  win_op : cxpr_window_op;
  win_name : string;
  win_arity : nat;
  win_period_argument : nat;
  win_history_tail : nat;
  win_reduce : cxpr_window_reduce
}.

Definition window_ops : list cxpr_window_ir :=
  [mk_window_ir CXPR_WINDOW_OP_ROC "__cxpr_window_roc" 2 1 1 CXPR_WINDOW_REDUCE_NONE;
   mk_window_ir CXPR_WINDOW_OP_SUM "__cxpr_window_sum" 2 1 0 CXPR_WINDOW_REDUCE_SUM;
   mk_window_ir CXPR_WINDOW_OP_MEAN "__cxpr_window_mean" 2 1 0 CXPR_WINDOW_REDUCE_MEAN;
   mk_window_ir CXPR_WINDOW_OP_WMA "__cxpr_window_wma" 2 1 0 CXPR_WINDOW_REDUCE_WEIGHTED_MEAN;
   mk_window_ir CXPR_WINDOW_OP_STDDEV "__cxpr_window_stddev" 2 1 0 CXPR_WINDOW_REDUCE_STDDEV;
   mk_window_ir CXPR_WINDOW_OP_HIGHEST "__cxpr_window_highest" 2 1 0 CXPR_WINDOW_REDUCE_HIGHEST;
   mk_window_ir CXPR_WINDOW_OP_LOWEST "__cxpr_window_lowest" 2 1 0 CXPR_WINDOW_REDUCE_LOWEST;
   mk_window_ir CXPR_WINDOW_OP_BARS_SINCE_EXTREME "bars_since_extreme" 3 1 0 CXPR_WINDOW_REDUCE_NONE;
   mk_window_ir CXPR_WINDOW_OP_MEAN_ABSDEV "__cxpr_window_mean_absdev" 3 1 0 CXPR_WINDOW_REDUCE_NONE].

Definition cxpr_window_ir_find (name : string) : option cxpr_window_ir :=
  head (filter (λ w, String.eqb (win_name w) name = true) window_ops).

(** ** Default registrations *)

Inductive cxpr_default_kind : Type :=
  | CXPR_DEFAULT_VARIADIC (fn : cxpr_func_ptr)
  | CXPR_DEFAULT_NULLARY (fn : scalar_ptr)
  | CXPR_DEFAULT_UNARY (fn : scalar_ptr)
  | CXPR_DEFAULT_BINARY (fn : scalar_ptr)
  | CXPR_DEFAULT_TERNARY (fn : scalar_ptr).

Record cxpr_default_entry : Type := mk_default {
  def_name : string;
  def_kind : cxpr_default_kind;
  def_min_args : nat;
  def_max_args : nat
}.

Definition cxpr_default_entries : list cxpr_default_entry :=
  [mk_default "min" (CXPR_DEFAULT_VARIADIC fn_min) 1 8;
   mk_default "max" (CXPR_DEFAULT_VARIADIC fn_max) 1 8;
   mk_default "mean" (CXPR_DEFAULT_VARIADIC fn_mean) 1 8;
   mk_default "clamp" (CXPR_DEFAULT_TERNARY fn_clamp) 3 3;
   mk_default "sign" (CXPR_DEFAULT_UNARY fn_sign) 1 1;
   mk_default "add" (CXPR_DEFAULT_BINARY fn_add) 2 2;
   mk_default "sub" (CXPR_DEFAULT_BINARY fn_sub) 2 2;
   mk_default "mul" (CXPR_DEFAULT_BINARY fn_mul) 2 2;
   mk_default "div" (CXPR_DEFAULT_BINARY fn_div) 2 2;
   mk_default "lerp" (CXPR_DEFAULT_TERNARY fn_lerp) 3 3;
   mk_default "smoothstep" (CXPR_DEFAULT_TERNARY fn_smoothstep) 3 3;
   mk_default "sigmoid" (CXPR_DEFAULT_TERNARY fn_sigmoid) 3 3;
   mk_default "abs" (CXPR_DEFAULT_UNARY (fn_libm "fabs")) 1 1;
   mk_default "floor" (CXPR_DEFAULT_UNARY (fn_libm "floor")) 1 1;
   mk_default "ceil" (CXPR_DEFAULT_UNARY (fn_libm "ceil")) 1 1;
   mk_default "round" (CXPR_DEFAULT_UNARY (fn_libm "round")) 1 1;
   mk_default "trunc" (CXPR_DEFAULT_UNARY (fn_libm "trunc")) 1 1;
   mk_default "sqrt" (CXPR_DEFAULT_UNARY (fn_libm "sqrt")) 1 1;
   mk_default "cbrt" (CXPR_DEFAULT_UNARY (fn_libm "cbrt")) 1 1;
   mk_default "hypot" (CXPR_DEFAULT_BINARY (fn_libm "hypot")) 2 2;
   mk_default "pow" (CXPR_DEFAULT_BINARY (fn_libm "pow")) 2 2;
   mk_default "exp" (CXPR_DEFAULT_UNARY (fn_libm "exp")) 1 1;
   mk_default "exp2" (CXPR_DEFAULT_UNARY (fn_libm "exp2")) 1 1;
   mk_default "expm1" (CXPR_DEFAULT_UNARY (fn_libm "expm1")) 1 1;
   mk_default "log" (CXPR_DEFAULT_UNARY (fn_libm "log")) 1 1;
   mk_default "log10" (CXPR_DEFAULT_UNARY (fn_libm "log10")) 1 1;
   mk_default "log2" (CXPR_DEFAULT_UNARY (fn_libm "log2")) 1 1;
   mk_default "log1p" (CXPR_DEFAULT_UNARY (fn_libm "log1p")) 1 1;
   mk_default "mod" (CXPR_DEFAULT_BINARY (fn_libm "fmod")) 2 2;
   mk_default "copysign" (CXPR_DEFAULT_BINARY (fn_libm "copysign")) 2 2;
   mk_default "radians" (CXPR_DEFAULT_UNARY fn_radians) 1 1;
   mk_default "degrees" (CXPR_DEFAULT_UNARY fn_degrees) 1 1;
   mk_default "sin" (CXPR_DEFAULT_UNARY (fn_libm "sin")) 1 1;
   mk_default "cos" (CXPR_DEFAULT_UNARY (fn_libm "cos")) 1 1;
   mk_default "tan" (CXPR_DEFAULT_UNARY (fn_libm "tan")) 1 1;
   mk_default "asin" (CXPR_DEFAULT_UNARY (fn_libm "asin")) 1 1;
   mk_default "acos" (CXPR_DEFAULT_UNARY (fn_libm "acos")) 1 1;
   mk_default "atan" (CXPR_DEFAULT_UNARY (fn_libm "atan")) 1 1;
   mk_default "atan2" (CXPR_DEFAULT_BINARY (fn_libm "atan2")) 2 2;
   mk_default "sinh" (CXPR_DEFAULT_UNARY (fn_libm "sinh")) 1 1;
   mk_default "cosh" (CXPR_DEFAULT_UNARY (fn_libm "cosh")) 1 1;
   mk_default "tanh" (CXPR_DEFAULT_UNARY (fn_libm "tanh")) 1 1;
   mk_default "pi" (CXPR_DEFAULT_NULLARY fn_pi) 0 0;
   mk_default "e" (CXPR_DEFAULT_NULLARY fn_e) 0 0;
   mk_default "nan" (CXPR_DEFAULT_NULLARY fn_nan) 0 0;
   mk_default "inf" (CXPR_DEFAULT_NULLARY fn_inf) 0 0;
   mk_default "if" (CXPR_DEFAULT_TERNARY fn_if) 3 3].

(** The sequence of calls of a registration function. *)
Definition in_order (calls : list (cxpr_registry → cxpr_registry)) (r : cxpr_registry)
    : cxpr_registry := fold_left (λ r call, call r) calls r.

Definition value_samples_params : list string := ["value"; "samples"].
Definition overlap_params : list string := ["left"; "right"; "bars"].

Definition timeseries_fn (name symbol : string) (min_args max_args : nat)
    (return_type : cxpr_value_type) (r : cxpr_registry) : cxpr_registry :=
  cxpr_registry_add_timeseries r name (fn_timeseries symbol) min_args max_args return_type ud_null None.
Definition param_names (name : string) (names : list string) (r : cxpr_registry) : cxpr_registry :=
  snd (cxpr_registry_set_param_names r name names).

Definition window_fn (op : cxpr_window_op) : string :=
  match op with
  | CXPR_WINDOW_OP_SUM => "window_sum"
  | CXPR_WINDOW_OP_MEAN => "window_mean"
  | CXPR_WINDOW_OP_WMA => "window_wma"
  | CXPR_WINDOW_OP_HIGHEST => "window_highest_value"
  | CXPR_WINDOW_OP_LOWEST => "window_lowest_value"
  | CXPR_WINDOW_OP_STDDEV => "window_stddev"
  | CXPR_WINDOW_OP_ROC => "window_roc"
  | CXPR_WINDOW_OP_BARS_SINCE_EXTREME => "bars_since_extreme"
  | CXPR_WINDOW_OP_MEAN_ABSDEV => "window_mean_absdev"
  end.
Definition window_params (op : cxpr_window_op) : list string :=
  match op with
  | CXPR_WINDOW_OP_BARS_SINCE_EXTREME => ["value"; "samples"; "mode"]
  | CXPR_WINDOW_OP_MEAN_ABSDEV => ["value"; "samples"; "center"]
  | _ => value_samples_params
  end.

Definition cxpr_register_timeseries : cxpr_registry → cxpr_registry :=
  in_order
    ([timeseries_fn "rising" "rising" 2 2 CXPR_VALUE_BOOL;
      param_names "rising" value_samples_params;
      timeseries_fn "falling" "falling" 2 2 CXPR_VALUE_BOOL;
      param_names "falling" value_samples_params;
      timeseries_fn "net_up" "net_up" 2 2 CXPR_VALUE_BOOL;
      param_names "net_up" value_samples_params;
      timeseries_fn "net_down" "net_down" 2 2 CXPR_VALUE_BOOL;
      param_names "net_down" value_samples_params;
      timeseries_fn "repeat" "repeat" 2 2 CXPR_VALUE_BOOL;
      param_names "repeat" value_samples_params;
      timeseries_fn "overlaps" "overlaps" 2 3 CXPR_VALUE_BOOL;
      param_names "overlaps" overlap_params;
      timeseries_fn "signal_overlaps" "overlaps" 2 3 CXPR_VALUE_BOOL;
      param_names "signal_overlaps" overlap_params;
      timeseries_fn "cross_above" "cross_above" 2 2 CXPR_VALUE_BOOL;
      timeseries_fn "cross_below" "cross_below" 2 2 CXPR_VALUE_BOOL;
      timeseries_fn "delta" "delta" 2 2 CXPR_VALUE_NUMBER;
      param_names "delta" value_samples_params;
      timeseries_fn "roc" "roc" 2 2 CXPR_VALUE_NUMBER;
      param_names "roc" value_samples_params;
      timeseries_fn "highest" "highest" 2 2 CXPR_VALUE_NUMBER;
      param_names "highest" value_samples_params;
      timeseries_fn "lowest" "lowest" 2 2 CXPR_VALUE_NUMBER;
      param_names "lowest" value_samples_params] ++
     flat_map (λ w,
       [timeseries_fn (win_name w) (window_fn (win_op w)) (win_arity w) (win_arity w) CXPR_VALUE_NUMBER;
        param_names (win_name w) (take (win_arity w) (window_params (win_op w)))]) window_ops).

Definition cxpr_timeseries_is_builtin (name : string) : bool :=
  existsb (String.eqb name)
    ["rising"; "falling"; "net_up"; "net_down"; "repeat"; "overlaps"; "signal_overlaps";
     "cross_above"; "cross_below"; "delta"; "roc"; "highest"; "lowest"] ||
  match cxpr_window_ir_find name with Some _ => true | None => false end.

Definition add_default (d : cxpr_default_entry) (r : cxpr_registry) : cxpr_registry :=
  match def_kind d with
  | CXPR_DEFAULT_VARIADIC fn =>
      cxpr_registry_add r (def_name d) fn (def_min_args d) (def_max_args d) ud_null None
  | CXPR_DEFAULT_NULLARY fn => cxpr_registry_add_nullary r (def_name d) fn
  | CXPR_DEFAULT_UNARY fn => cxpr_registry_add_unary r (def_name d) fn
  | CXPR_DEFAULT_BINARY fn => cxpr_registry_add_binary r (def_name d) fn
  | CXPR_DEFAULT_TERNARY fn => cxpr_registry_add_ternary r (def_name d) fn
  end.

Definition number_arg : list cxpr_value_type := [CXPR_VALUE_NUMBER].

Definition is_registered (r : cxpr_registry) (name : string) : bool :=
  match cxpr_registry_find r name with Some _ => true | None => false end.

Definition cxpr_register_default_named (r : cxpr_registry) (name : string)
    : bool * cxpr_registry :=
  if is_registered r name then (true, r)
  else
    let done r := (is_registered r name, r) in
    match head (filter (λ d, String.eqb name (def_name d) = true) cxpr_default_entries) with
    | Some d => done (add_default d r)
    | None =>
        if String.eqb name "contains" then
          done (cxpr_registry_add_ast r "contains" fn_contains 2 2 CXPR_VALUE_BOOL ud_null None)
        else if String.eqb name "within" then
          done (cxpr_registry_add_ast r "within" fn_within 3 5 CXPR_VALUE_BOOL ud_null None)
        else if String.eqb name "isnan" then
          done (cxpr_registry_add_typed r "isnan" fn_isnan 1 1 (Some number_arg) CXPR_VALUE_BOOL ud_null None)
        else if String.eqb name "isfinite" then
          done (cxpr_registry_add_typed r "isfinite" fn_isfinite 1 1 (Some number_arg) CXPR_VALUE_BOOL ud_null None)
        else if String.eqb name "coalesce" then
          done (cxpr_registry_add_value r "coalesce" fn_coalesce 1 8 ud_null None)
        else if String.eqb name "is_null" then
          done (cxpr_registry_add_typed r "is_null" fn_is_null 1 1 None CXPR_VALUE_BOOL ud_null None)
        else if cxpr_timeseries_is_builtin name then done (cxpr_register_timeseries r)
        else (false, r)
    end.

Definition cxpr_register_math : cxpr_registry → cxpr_registry :=
  let add name fn mi ma r := cxpr_registry_add r name fn mi ma ud_null None in
  let nullary name fn r := cxpr_registry_add_nullary r name fn in
  let unary name fn r := cxpr_registry_add_unary r name fn in
  let binary name fn r := cxpr_registry_add_binary r name fn in
  let ternary name fn r := cxpr_registry_add_ternary r name fn in
  in_order
    [add "min" fn_min 1 8; add "max" fn_max 1 8; add "mean" fn_mean 1 8;
     ternary "clamp" fn_clamp; unary "sign" fn_sign; binary "add" fn_add; binary "sub" fn_sub;
     binary "mul" fn_mul; binary "div" fn_div; ternary "lerp" fn_lerp;
     ternary "smoothstep" fn_smoothstep; ternary "sigmoid" fn_sigmoid;
     unary "abs" (fn_libm "fabs"); unary "floor" (fn_libm "floor"); unary "ceil" (fn_libm "ceil");
     unary "round" (fn_libm "round"); unary "trunc" (fn_libm "trunc");
     unary "sqrt" (fn_libm "sqrt"); unary "cbrt" (fn_libm "cbrt");
     binary "hypot" (fn_libm "hypot"); binary "pow" (fn_libm "pow"); unary "exp" (fn_libm "exp");
     unary "exp2" (fn_libm "exp2"); unary "expm1" (fn_libm "expm1");
     unary "log" (fn_libm "log"); unary "log10" (fn_libm "log10"); unary "log2" (fn_libm "log2");
     unary "log1p" (fn_libm "log1p");
     binary "mod" (fn_libm "fmod"); binary "copysign" (fn_libm "copysign");
     unary "radians" fn_radians; unary "degrees" fn_degrees;
     unary "sin" (fn_libm "sin"); unary "cos" (fn_libm "cos"); unary "tan" (fn_libm "tan");
     unary "asin" (fn_libm "asin"); unary "acos" (fn_libm "acos"); unary "atan" (fn_libm "atan");
     binary "atan2" (fn_libm "atan2");
     unary "sinh" (fn_libm "sinh"); unary "cosh" (fn_libm "cosh"); unary "tanh" (fn_libm "tanh");
     nullary "pi" fn_pi; nullary "e" fn_e; nullary "nan" fn_nan; nullary "inf" fn_inf;
     ternary "if" fn_if;
     (λ r, cxpr_registry_add_ast r "contains" fn_contains 2 2 CXPR_VALUE_BOOL ud_null None);
     (λ r, cxpr_registry_add_ast r "within" fn_within 3 5 CXPR_VALUE_BOOL ud_null None);
     (λ r, cxpr_registry_add_typed r "isnan" fn_isnan 1 1 (Some number_arg) CXPR_VALUE_BOOL ud_null None);
     (λ r, cxpr_registry_add_typed r "isfinite" fn_isfinite 1 1 (Some number_arg) CXPR_VALUE_BOOL ud_null None);
     (λ r, cxpr_registry_add_value r "coalesce" fn_coalesce 1 8 ud_null None);
     (λ r, cxpr_registry_add_typed r "is_null" fn_is_null 1 1 None CXPR_VALUE_BOOL ud_null None)].

Definition cxpr_register_defaults (r : cxpr_registry) : cxpr_registry :=
  cxpr_register_timeseries (cxpr_register_math r).

(** ** The two ways to register a builtin agree *)

Definition default_op (d : cxpr_default_entry) : registry_op :=
  match def_kind d with
  | CXPR_DEFAULT_VARIADIC fn => OpNumeric (def_name d) fn (def_min_args d) (def_max_args d) ud_null None
  | CXPR_DEFAULT_NULLARY fn => OpNative setup_nullary (def_name d) fn
  | CXPR_DEFAULT_UNARY fn => OpNative setup_unary (def_name d) fn
  | CXPR_DEFAULT_BINARY fn => OpNative setup_binary (def_name d) fn
  | CXPR_DEFAULT_TERNARY fn => OpNative setup_ternary (def_name d) fn
  end.

Definition special_ops : list registry_op :=
  [OpAst "contains" fn_contains 2 2 CXPR_VALUE_BOOL ud_null None;
   OpAst "within" fn_within 3 5 CXPR_VALUE_BOOL ud_null None;
   OpTyped "isnan" fn_isnan 1 1 (Some number_arg) CXPR_VALUE_BOOL ud_null None;
   OpTyped "isfinite" fn_isfinite 1 1 (Some number_arg) CXPR_VALUE_BOOL ud_null None;
   OpValue "coalesce" fn_coalesce 1 8 ud_null None;
   OpTyped "is_null" fn_is_null 1 1 None CXPR_VALUE_BOOL ud_null None].

Definition ts_op (name symbol : string) (mi ma : nat) (rt : cxpr_value_type) : registry_op :=
  OpAst name (fn_timeseries symbol) mi ma rt ud_null None.

Definition timeseries_ops : list registry_op :=
  [ts_op "rising" "rising" 2 2 CXPR_VALUE_BOOL; OpParamNames "rising" value_samples_params;
   ts_op "falling" "falling" 2 2 CXPR_VALUE_BOOL; OpParamNames "falling" value_samples_params;
   ts_op "net_up" "net_up" 2 2 CXPR_VALUE_BOOL; OpParamNames "net_up" value_samples_params;
   ts_op "net_down" "net_down" 2 2 CXPR_VALUE_BOOL; OpParamNames "net_down" value_samples_params;
   ts_op "repeat" "repeat" 2 2 CXPR_VALUE_BOOL; OpParamNames "repeat" value_samples_params;
   ts_op "overlaps" "overlaps" 2 3 CXPR_VALUE_BOOL; OpParamNames "overlaps" overlap_params;
   ts_op "signal_overlaps" "overlaps" 2 3 CXPR_VALUE_BOOL; OpParamNames "signal_overlaps" overlap_params;
   ts_op "cross_above" "cross_above" 2 2 CXPR_VALUE_BOOL;
   ts_op "cross_below" "cross_below" 2 2 CXPR_VALUE_BOOL;
   ts_op "delta" "delta" 2 2 CXPR_VALUE_NUMBER; OpParamNames "delta" value_samples_params;
   ts_op "roc" "roc" 2 2 CXPR_VALUE_NUMBER; OpParamNames "roc" value_samples_params;
   ts_op "highest" "highest" 2 2 CXPR_VALUE_NUMBER; OpParamNames "highest" value_samples_params;
   ts_op "lowest" "lowest" 2 2 CXPR_VALUE_NUMBER; OpParamNames "lowest" value_samples_params] ++
  flat_map (λ w, [ts_op (win_name w) (window_fn (win_op w)) (win_arity w) (win_arity w) CXPR_VALUE_NUMBER;
                  OpParamNames (win_name w) (take (win_arity w) (window_params (win_op w)))]) window_ops.

Definition run_ops (ops : list registry_op) (r : cxpr_registry) : cxpr_registry :=
  fold_left (λ r op, exec op r) ops r.

Lemma in_order_ops calls ops r :
  Forall2 (λ call op, ∀ r, call r = exec op r) calls ops → in_order calls r = run_ops ops r.
Proof.
  intros Hall. revert r. unfold in_order, run_ops.
  induction Hall as [|call op calls ops Hc Hall IH]; intros r; simpl; [done|]. by rewrite Hc, IH.
Qed.

Lemma register_timeseries_ops r : cxpr_register_timeseries r = run_ops timeseries_ops r.
Proof. apply in_order_ops. repeat constructor. Qed.

Lemma register_math_ops r :
  cxpr_register_math r = run_ops (map default_op cxpr_default_entries ++ special_ops) r.
Proof. apply in_order_ops. repeat constructor. Qed.

Lemma add_default_op d r : add_default d r = exec (default_op d) r.
Proof. unfold add_default, default_op. by destruct (def_kind d). Qed.

(** What a sequence of operations makes of the entry of one name. *)
Definition entry_after (n : string) (ops : list registry_op) (old : option cxpr_func_entry)
    : option cxpr_func_entry :=
  fold_left (λ old op, if decide (op_name op = n) then spec_entry op old else old) ops old.

Lemma run_ops_spec ops r n :
  reg_ok r → (Z.of_nat (length (reg_entries r) + length ops) ≤ SIZE_MAX / 2)%Z →
  reg_ok (run_ops ops r) ∧ registry_lookup (run_ops ops r) n = entry_after n ops (registry_lookup r n).
Proof.
  revert r. induction ops as [|op ops IH]; intros r Hok Hlen; simpl; [done|].
  simpl in Hlen. assert (Hroom : reg_room r) by (unfold reg_room; lia).
  destruct (exec_refines op r Hok Hroom) as (Hok' & Hview & _).
  pose proof (view_grows op r Hok Hroom).
  destruct (IH (exec op r) Hok') as [? Hl]; [lia|]. split; [done|].
  etrans; [exact Hl|]. unfold entry_after. simpl. f_equal. rewrite !registry_lookup_view, Hview.
  case_decide as Hn; [subst n; by rewrite lookup_partial_alter_eq|by rewrite lookup_partial_alter_ne].
Qed.

Lemma entry_after_other n ops old :
  Forall (λ op, op_name op ≠ n) ops → entry_after n ops old = old.
Proof. induction 1; simpl; [done|]. by rewrite decide_False. Qed.

Lemma entry_after_app n ops1 ops2 old :
  entry_after n (ops1 ++ ops2) old = entry_after n ops2 (entry_after n ops1 old).
Proof. apply fold_left_app. Qed.

(** The reference: everything registered at once. *)
Definition all_ops : list registry_op :=
  (map default_op cxpr_default_entries ++ special_ops) ++ timeseries_ops.

Lemma register_defaults_lookup n :
  registry_lookup (cxpr_register_defaults cxpr_registry_new) n = entry_after n all_ops None.
Proof.
  unfold cxpr_register_defaults. rewrite register_math_ops, register_timeseries_ops.
  assert (Hrun : run_ops timeseries_ops (run_ops (map default_op cxpr_default_entries ++ special_ops)
    cxpr_registry_new) = run_ops all_ops cxpr_registry_new).
  { unfold run_ops, all_ops. by rewrite !fold_left_app. }
  rewrite Hrun. apply run_ops_spec; [apply registry_new_ok|]. vm_compute. discriminate.
Qed.

(** Every name of the tables has its own operations. *)
Lemma defaults_entries :
  Forall (λ d, entry_after (def_name d) all_ops None = spec_entry (default_op d) None)
    cxpr_default_entries.
Proof. repeat constructor. Qed.

Lemma special_entries :
  Forall (λ op, entry_after (op_name op) all_ops None = spec_entry op None) special_ops.
Proof. repeat constructor. Qed.

Lemma timeseries_entries :
  Forall (λ op, entry_after (op_name op) all_ops None = entry_after (op_name op) timeseries_ops None)
    timeseries_ops.
Proof. repeat constructor. Qed.

Lemma head_filter_some {A} (f : A → bool) l x :
  head (filter (λ y, f y = true) l) = Some x → x ∈ l ∧ f x = true.
Proof.
  intros Hh. assert (Hin : x ∈ filter (λ y, f y = true) l).
  { destruct (filter _ l); [done|]. injection Hh as ->. set_solver. }
  by apply list_elem_of_filter in Hin as [? ?].
Qed.

Lemma head_filter_none {A} (f : A → bool) l x :
  head (filter (λ y, f y = true) l) = None → x ∈ l → f x = false.
Proof.
  intros Hh Hx. destruct (f x) eqn:Hf; [|done].
  assert (Hin : x ∈ filter (λ y, f y = true) l) by (by apply list_elem_of_filter).
  destruct (filter _ l); [set_solver|done].
Qed.

Lemma timeseries_builtin_names name :
  cxpr_timeseries_is_builtin name = true → name ∈ map op_name timeseries_ops.
Proof.
  unfold cxpr_timeseries_is_builtin. intros [H|H]%orb_true_iff.
  - apply existsb_exists in H as (x & Hin%list_elem_of_In & ->%String.eqb_eq).
    revert x Hin. by apply Forall_forall; repeat constructor; apply (bool_decide_unpack _); vm_compute.
  - destruct (cxpr_window_ir_find name) as [w|] eqn:Hw; [|done].
    apply head_filter_some in Hw as [Hin <-%String.eqb_eq]. revert w Hin.
    by apply Forall_forall; repeat constructor; apply (bool_decide_unpack _); vm_compute.
Qed.

Lemma timeseries_names_builtin op :
  op ∈ timeseries_ops → cxpr_timeseries_is_builtin (op_name op) = true.
Proof. revert op. apply Forall_forall. repeat constructor. Qed.

Lemma is_registered_lookup r name :
  is_registered r name = true ↔ is_Some (registry_lookup r name).
Proof.
  unfold is_registered, registry_lookup. destruct (cxpr_registry_find r name) as [i|] eqn:Hf.
  - destruct (find_view r name i Hf) as (e & -> & _). by split; eauto.
  - split; [done|]. by intros [].
Qed.

Lemma exec_new op r :
  reg_ok r → reg_room r → registry_lookup r (op_name op) = None →
  registry_lookup (exec op r) (op_name op) = spec_entry op None.
Proof.
  intros Hok Hroom Hnone. destruct (exec_refines op r Hok Hroom) as (_ & Hview & _).
  rewrite registry_lookup_view in Hnone.
  by rewrite registry_lookup_view, Hview, lookup_partial_alter_eq, Hnone.
Qed.

(** The special names, tried one after the other. *)
Ltac special k :=
  left; exists (nth k special_ops (OpParamNames "" []));
  split_and!; [apply list_elem_of_In, nth_In; simpl; lia|done|done].

Lemma special_cases name r :
  (∃ op, op ∈ special_ops ∧ op_name op = name ∧
     cxpr_register_default_named r name =
       (if is_registered r name then (true, r)
        else match head (filter (λ d, String.eqb name (def_name d) = true) cxpr_default_entries) with
             | Some d => (is_registered (add_default d r) name, add_default d r)
             | None => (is_registered (exec op r) name, exec op r)
             end)) ∨
  ((∀ op, op ∈ special_ops → op_name op ≠ name) ∧
   cxpr_register_default_named r name =
     (if is_registered r name then (true, r)
      else match head (filter (λ d, String.eqb name (def_name d) = true) cxpr_default_entries) with
           | Some d => (is_registered (add_default d r) name, add_default d r)
           | None => if cxpr_timeseries_is_builtin name
                     then (is_registered (cxpr_register_timeseries r) name, cxpr_register_timeseries r)
                     else (false, r)
           end)).
Proof.
  unfold cxpr_register_default_named.
  destruct (String.eqb_spec name "contains") as [->|N1]; [special 0|].
  destruct (String.eqb_spec name "within") as [->|N2]; [special 1|].
  destruct (String.eqb_spec name "isnan") as [->|N3]; [special 2|].
  destruct (String.eqb_spec name "isfinite") as [->|N4]; [special 3|].
  destruct (String.eqb_spec name "coalesce") as [->|N5]; [special 4|].
  destruct (String.eqb_spec name "is_null") as [->|N6]; [special 5|].
  right. split; [|done]. apply Forall_forall. repeat constructor; simpl; congruence.
Qed.

Lemma no_entry name :
  head (filter (λ d, String.eqb name (def_name d) = true) cxpr_default_entries) = None →
  (∀ op, op ∈ special_ops → op_name op ≠ name) → cxpr_timeseries_is_builtin name = false →
  entry_after name all_ops None = None.
Proof.
  intros Hd Hs Ht. apply entry_after_other. unfold all_ops. rewrite !Forall_app. split_and!.
  - apply Forall_map, Forall_forall. intros d Hin Heq.
    apply (head_filter_none (λ d, String.eqb name (def_name d)) _ d) in Hd; [|done].
    assert (Hn : op_name (default_op d) = def_name d) by (unfold default_op; by destruct (def_kind d)).
    rewrite Hn in Heq. cbn beta in Hd. rewrite Heq, String.eqb_refl in Hd. done.
  - by apply Forall_forall.
  - apply Forall_forall. intros op Hin <-. apply timeseries_names_builtin in Hin. congruence.
Qed.

Lemma timeseries_ops_length : length timeseries_ops = 42.
Proof. reflexivity. Qed.

#[local] Opaque all_ops timeseries_ops special_ops cxpr_default_entries cxpr_register_timeseries.

Lemma default_entry_agrees r name d :
  reg_ok r → reg_room r → registry_lookup r name = None →
  head (filter (λ d, String.eqb name (def_name d) = true) cxpr_default_entries) = Some d →
  registry_lookup (add_default d r) name = entry_after name all_ops None.
Proof.
  intros Hok Hroom Hnone Hd.
  apply (head_filter_some (λ d, String.eqb name (def_name d))) in Hd as [Hin Heq%String.eqb_eq].
  assert (Hn : op_name (default_op d) = name) by (subst; unfold default_op; by destruct (def_kind d)).
  pose proof (proj1 (Forall_forall _ _) defaults_entries d Hin) as He. cbn beta in He.
  rewrite <- Heq in He. rewrite add_default_op, He, <- Hn. apply exec_new; [done|done|by rewrite Hn].
Qed.

Lemma special_entry_agrees r name op :
  reg_ok r → reg_room r → registry_lookup r name = None → op ∈ special_ops → op_name op = name →
  registry_lookup (exec op r) name = entry_after name all_ops None.
Proof.
  intros Hok Hroom Hnone Hin <-.
  pose proof (proj1 (Forall_forall _ _) special_entries op Hin) as He. cbn beta in He.
  rewrite He. by apply exec_new.
Qed.

Lemma timeseries_entry_agrees r name :
  reg_ok r → (Z.of_nat (length (reg_entries r) + 50) ≤ SIZE_MAX / 2)%Z → registry_lookup r name = None →
  cxpr_timeseries_is_builtin name = true →
  registry_lookup (cxpr_register_timeseries r) name = entry_after name all_ops None.
Proof.
  intros Hok Hlen Hnone Ht. rewrite register_timeseries_ops.
  destruct (run_ops_spec timeseries_ops r name Hok) as [_ ->]; [rewrite timeseries_ops_length; lia|].
  apply timeseries_builtin_names, list_elem_of_In, in_map_iff in Ht as (op & <- & Hin%list_elem_of_In).
  pose proof (proj1 (Forall_forall _ _) timeseries_entries op Hin) as He. cbn beta in He.
  by rewrite Hnone, He.
Qed.

(** Registering one builtin by name gives exactly the entry that registering
    all of them gives: the two tables of the source agree on every builtin (its
    callback, arity, types and parameter names), and the call succeeds for the
    names of the builtins and for no other name. *)
Theorem default_named_agrees r name :
  reg_ok r → (Z.of_nat (length (reg_entries r) + 50) ≤ SIZE_MAX / 2)%Z → registry_lookup r name = None →
  registry_lookup (snd (cxpr_register_default_named r name)) name =
    registry_lookup (cxpr_register_defaults cxpr_registry_new) name ∧
  (fst (cxpr_register_default_named r name) = true ↔
     is_Some (registry_lookup (cxpr_register_defaults cxpr_registry_new) name)).
Proof.
  intros Hok Hlen Hnone. assert (Hroom : reg_room r) by (unfold reg_room; lia).
  assert (Hreg : is_registered r name = false).
  { apply not_true_is_false. rewrite is_registered_lookup, Hnone. by intros []. }
  rewrite register_defaults_lookup.
  assert (Hfin : ∀ r', registry_lookup r' name = entry_after name all_ops None →
    registry_lookup (snd (is_registered r' name, r')) name = entry_after name all_ops None ∧
    (fst (is_registered r' name, r') = true ↔ is_Some (entry_after name all_ops None))).
  { intros r' Hr'. cbn [fst snd]. by rewrite is_registered_lookup, Hr'. }
  destruct (special_cases name r) as [(op & Hin & Hn & ->)|[Hs ->]]; rewrite Hreg;
    destruct (head _) as [d|] eqn:Hd; [by apply Hfin, default_entry_agrees| |
                                       by apply Hfin, default_entry_agrees|].
  - by apply Hfin, special_entry_agrees.
  - destruct (cxpr_timeseries_is_builtin name) eqn:Ht; [by apply Hfin, timeseries_entry_agrees|].
    rewrite no_entry by done. cbn [fst snd]. rewrite Hnone. split; [done|]. split; [done|by intros []].
Qed.

Lemma default_named_agrees_witness :
  registry_lookup (snd (cxpr_register_default_named cxpr_registry_new "delta")) "delta" =
    registry_lookup (cxpr_register_defaults cxpr_registry_new) "delta".
Proof.
  apply default_named_agrees; [apply registry_new_ok|vm_compute; discriminate|reflexivity].
Defined.
