(* ===== verification/Parser.v ===== *)
(** * Parser: the recursive-descent parser ([src/parser/*.c])

    One definition per function, in state-passing style: a parsing function takes
    the parser state and returns the node ([None] for NULL) and the new state.
    The grammar's recursion goes through [cxpr_parse_expression], so the functions
    below it take that function as an argument and [parse_expression_fuel] ties
    the knot; every loop has the number of characters left as its fuel.  The
    theorems of [ParserProofs] show that neither runs out.  Allocation succeeds. *)

From Stdlib Require Import Ascii String ZArith Lia.
From stdpp Require Import base list strings.
From S2P Require Import Prelude Float64 Types Lexer Ast.
Local Open Scope run_scope.
Local Open Scope nat_scope.

(** ** State and token primitives ([parser.c]) *)

Record cxpr_expr_parser : Type := mk_parser {
  ps_lexer : cxpr_lexer;
  ps_current : cxpr_token;
  ps_previous : cxpr_token;
  ps_had_error : bool;
  ps_last_error : cxpr_error
}.

(** [calloc]: the all-zero parser. *)
Definition token_zero : cxpr_token := mk_token CXPR_TOK_NUMBER EmptyString 0 fzero 0 false 0 0 0.
Definition cxpr_expr_parser_new : cxpr_expr_parser :=
  mk_parser (mk_lexer EmptyString EmptyString 0 0 0) token_zero token_zero false error_zero.

Definition with_error (p : cxpr_expr_parser) (e : cxpr_error) : cxpr_expr_parser :=
  mk_parser (ps_lexer p) (ps_current p) (ps_previous p) true e.

(** The error a parser function records at the current token. *)
Definition error_here (p : cxpr_expr_parser) (code : cxpr_error_code) (message : string)
    : cxpr_error :=
  mk_error code (Some message) (tok_position (ps_current p)) (tok_line (ps_current p))
    (tok_column (ps_current p)).

Definition cxpr_expr_parser_set_error (p : cxpr_expr_parser) (message : string)
    : cxpr_expr_parser :=
  with_error p (error_here p CXPR_ERR_SYNTAX message).

Definition cxpr_expr_parser_advance (p : cxpr_expr_parser) : cxpr_expr_parser :=
  let '(tok, lx) := cxpr_lexer_next (ps_lexer p) in
  let p' := mk_parser lx tok (ps_current p) (ps_had_error p) (ps_last_error p) in
  if tok_eqb (tok_type tok) CXPR_TOK_ERROR
  then with_error p' (error_here p' CXPR_ERR_SYNTAX (tok_start tok))
  else p'.

Definition cxpr_expr_parser_check (p : cxpr_expr_parser) (type : cxpr_token_type) : bool :=
  tok_eqb (tok_type (ps_current p)) type.

Definition cxpr_expr_parser_match (p : cxpr_expr_parser) (type : cxpr_token_type)
    : bool * cxpr_expr_parser :=
  if cxpr_expr_parser_check p type then (true, cxpr_expr_parser_advance p) else (false, p).

Definition cxpr_expr_parser_expect (p : cxpr_expr_parser) (type : cxpr_token_type)
    (message : string) : bool * cxpr_expr_parser :=
  if cxpr_expr_parser_check p type then (true, cxpr_expr_parser_advance p)
  else (false, cxpr_expr_parser_set_error p message).

Definition cxpr_expr_parser_token_starts_primary (type : cxpr_token_type) : bool :=
  match type with
  | CXPR_TOK_NUMBER | CXPR_TOK_IDENTIFIER | CXPR_TOK_VARIABLE | CXPR_TOK_STRING
  | CXPR_TOK_TRUE | CXPR_TOK_FALSE | CXPR_TOK_LPAREN => true
  | _ => false
  end.

(** ** Helpers ([helpers.c]) *)

Definition cxpr_expr_parser_token_to_string (tok : cxpr_token) : string := tok_text tok.

Definition cxpr_expr_parser_peek_next (p : cxpr_expr_parser) : cxpr_token :=
  cxpr_lexer_peek (ps_lexer p).

(** The name array a clone allocates: [argc] entries when there is an argument,
    each copied when the source has one. *)
Definition clone_names (argc : nat) (arg_names : option (list (option string)))
    : option (list (option string)) :=
  if argc =? 0 then None
  else Some (match arg_names with Some names => names | None => replicate argc None end).

Fixpoint cxpr_expr_parser_clone_ast (ast : cxpr_expr_ast) : cxpr_expr_ast :=
  match ast with
  | Ast _ d =>
      match d with
      | CXPR_NODE_NUMBER value => cxpr_expr_ast_number_new value
      | CXPR_NODE_INT64 value => cxpr_expr_ast_int64_new value
      | CXPR_NODE_BOOL value => cxpr_expr_ast_bool_new value
      | CXPR_NODE_ARRAY elements =>
          cxpr_expr_ast_array_new (map cxpr_expr_parser_clone_ast elements)
      | CXPR_NODE_RECORD names values =>
          cxpr_expr_ast_record_new names (map cxpr_expr_parser_clone_ast values)
      | CXPR_NODE_STRING value => cxpr_expr_ast_new_string value
      | CXPR_NODE_IDENTIFIER name => cxpr_expr_ast_identifier_new name
      | CXPR_NODE_VARIABLE name => cxpr_expr_ast_param_new name
      | CXPR_NODE_FIELD_ACCESS (Some base) _ field _ =>
          cxpr_expr_ast_field_expr_new (cxpr_expr_parser_clone_ast base) field
      | CXPR_NODE_FIELD_ACCESS None (Some object) field _ => cxpr_expr_ast_field_new object field
      | CXPR_NODE_FIELD_ACCESS None None field full_key =>
          (* no constructor leaves both [base] and [object] NULL *)
          new_node (CXPR_NODE_FIELD_ACCESS None None field full_key)
      | CXPR_NODE_CHAIN_ACCESS path full_key =>
          match cxpr_expr_ast_new_chain_access path with
          | Some node => node
          | None => (* no chain has fewer than two segments *)
              new_node (CXPR_NODE_CHAIN_ACCESS path full_key)
          end
      | CXPR_NODE_UNARY_OP op operand =>
          cxpr_expr_ast_unary_new op (cxpr_expr_parser_clone_ast operand)
      | CXPR_NODE_BINARY_OP op lhs rhs =>
          cxpr_expr_ast_binary_new op (cxpr_expr_parser_clone_ast lhs)
            (cxpr_expr_parser_clone_ast rhs)
      | CXPR_NODE_FUNCTION_CALL name args arg_names =>
          cxpr_expr_ast_call_named_new name (map cxpr_expr_parser_clone_ast args)
            (clone_names (length args) arg_names)
      | CXPR_NODE_PRODUCER_ACCESS name args arg_names field _ =>
          cxpr_expr_ast_producer_field_named_new name (map cxpr_expr_parser_clone_ast args)
            (clone_names (length args) arg_names) field
      | CXPR_NODE_INDEX target index =>
          cxpr_expr_ast_index_new (cxpr_expr_parser_clone_ast target)
            (cxpr_expr_parser_clone_ast index)
      | CXPR_NODE_TERNARY condition yes no =>
          cxpr_expr_ast_ternary_new (cxpr_expr_parser_clone_ast condition)
            (cxpr_expr_parser_clone_ast yes) (cxpr_expr_parser_clone_ast no)
      end
  end.

(** The names of a call whose argument list gets one more argument in front. *)
Definition prepend_name (argc : nat) (arg_names : option (list (option string)))
    : option (list (option string)) :=
  Some (None :: match arg_names with Some names => names | None => replicate argc None end).

Definition cxpr_expr_parser_pipe_inject_argument (p : cxpr_expr_parser)
    (stage piped : cxpr_expr_ast) : option cxpr_expr_ast * cxpr_expr_parser :=
  match ast_node stage with
  | CXPR_NODE_IDENTIFIER name =>
      (Some (cxpr_expr_ast_call_named_new name [piped] (Some [None])), p)
  | CXPR_NODE_FUNCTION_CALL name args arg_names =>
      (Some (cxpr_expr_ast_call_named_new name (piped :: args)
               (prepend_name (length args) arg_names)), p)
  | CXPR_NODE_PRODUCER_ACCESS name args arg_names field _ =>
      (Some (cxpr_expr_ast_producer_field_named_new name (piped :: args)
               (prepend_name (length args) arg_names) field), p)
  | _ =>
      (None, cxpr_expr_parser_set_error p
               "Expected callable after '|>' (identifier or function call)")
  end.

(** ** Primary expressions ([primary.c]) *)

(** The result of a parsing function. *)
Definition presult : Type := option cxpr_expr_ast * cxpr_expr_parser.

(** [if (!x) return NULL;] between a step and the rest of a function. *)
Definition on_some {A B} (m : run (option A * cxpr_expr_parser))
    (k : A → cxpr_expr_parser → run (option B * cxpr_expr_parser))
    : run (option B * cxpr_expr_parser) :=
  let* '(x, p) := m in
  match x with
  | None => Done (None, p)
  | Some x => k x p
  end.

(** [x = operand(p); if (!x || p->had_error) return NULL;] then the rest. *)
Definition need_operand {A B} (operand : cxpr_expr_parser → run (option A * cxpr_expr_parser))
    (k : A → cxpr_expr_parser → run (option B * cxpr_expr_parser)) (p : cxpr_expr_parser)
    : run (option B * cxpr_expr_parser) :=
  on_some (operand p) (λ x p, if ps_had_error p then Done (None, p) else k x p).

(** [if (!expect(p, type, message)) return NULL;] then the rest. *)
Definition need_token {B} (type : cxpr_token_type) (message : string)
    (k : cxpr_expr_parser → run (option B * cxpr_expr_parser)) (p : cxpr_expr_parser)
    : run (option B * cxpr_expr_parser) :=
  let '(ok, p) := cxpr_expr_parser_expect p type message in
  if ok then k p else Done (None, p).

(** [if (!check(p, IDENTIFIER)) { set the error; return NULL; }], then the rest
    with the identifier's text, behind it. *)
Definition need_identifier {B} (message : string)
    (k : string → cxpr_expr_parser → run (option B * cxpr_expr_parser)) (p : cxpr_expr_parser)
    : run (option B * cxpr_expr_parser) :=
  if negb (cxpr_expr_parser_check p CXPR_TOK_IDENTIFIER)
  then Done (None, cxpr_expr_parser_set_error p message)
  else k (cxpr_expr_parser_token_to_string (ps_current p)) (cxpr_expr_parser_advance p).

Definition cxpr_window_reduction_name (name : string) : option string :=
  if (name =? "max")%string then Some "__cxpr_window_highest"%string
  else if (name =? "min")%string then Some "__cxpr_window_lowest"%string
  else if (name =? "sum")%string then Some "__cxpr_window_sum"%string
  else if (name =? "mean")%string then Some "__cxpr_window_mean"%string
  else if (name =? "stddev")%string then Some "__cxpr_window_stddev"%string
  else if (name =? "wma")%string then Some "__cxpr_window_wma"%string
  else if (name =? "roc")%string then Some "__cxpr_window_roc"%string
  else None.

(** The names of an argument list as [argc] entries. *)
Definition names_of (argc : nat) (arg_names : option (list (option string)))
    : list (option string) :=
  match arg_names with Some names => names | None => replicate argc None end.

(** [expr=] becomes [value=] in the lowered call's first name. *)
Definition rename_expr (names : list (option string)) : list (option string) :=
  match names with
  | Some n :: names' => (if (n =? "expr")%string then Some "value"%string else Some n) :: names'
  | _ => names
  end.

Definition cxpr_parse_lower_window_reduction (node : cxpr_expr_ast) : cxpr_expr_ast :=
  match ast_node node with
  | CXPR_NODE_FUNCTION_CALL name args arg_names =>
      if (name =? "roc")%string && (length args =? 2) then
        Ast (ast_span node) (CXPR_NODE_FUNCTION_CALL "__cxpr_window_roc" args arg_names)
      else
        let lowered_name :=
          if (name =? "mean_absdev")%string && (length args =? 2)
          then Some "__cxpr_window_mean_absdev"%string
          else if negb (length args =? 1) then None
          else cxpr_window_reduction_name name in
        match lowered_name, args with
        | Some lowered_name, window :: tail =>
            match ast_node window with
            | CXPR_NODE_FUNCTION_CALL wname wargs wnames =>
                if (wname =? "window")%string && (length wargs =? 2) then
                  let lowered_names :=
                    names_of (length wargs) wnames ++ drop 1 (names_of (length args) arg_names) in
                  Ast (ast_span node)
                    (CXPR_NODE_FUNCTION_CALL lowered_name (wargs ++ tail)
                       (Some (rename_expr lowered_names)))
                else node
            | _ => node
            end
        | _, _ => node
        end
  | _ => node
  end.

(** The fuel of a loop that consumes a token per iteration. *)
Definition tokens_left (p : cxpr_expr_parser) : nat :=
  strlen (lx_current (ps_lexer p)) +
  (if tok_eqb (tok_type (ps_current p)) CXPR_TOK_EOF then 0 else 1).

Definition loop_fuel (p : cxpr_expr_parser) : nat := S (tokens_left p).

(** [token_end] reads the [width] characters of a token from the source; a read
    behind the terminator is undefined. *)
Fixpoint token_end_loop (width : nat) (source : string) (e : cxpr_source_pos)
    : run cxpr_source_pos :=
  match width with
  | O => Done e
  | S width' =>
      if strlen source <? pos_offset e then Undef
      else
        let ch := char_at (pos_offset e) source in
        token_end_loop width' source
          (if (ch =? newline)%char then mk_pos (S (pos_offset e)) (S (pos_line e)) 0
           else mk_pos (S (pos_offset e)) (pos_line e) (S (pos_column e)))
  end.

Definition token_width (tok : cxpr_token) : nat :=
  tok_length tok +
  match tok_type tok with
  | CXPR_TOK_STRING => 2
  | CXPR_TOK_VARIABLE => 1
  | _ => 0
  end.

Definition cxpr_expr_parser_token_end (p : cxpr_expr_parser) (tok : cxpr_token)
    : run cxpr_source_pos :=
  token_end_loop (token_width tok) (lx_source (ps_lexer p))
    (mk_pos (tok_position tok) (tok_line tok) (tok_column tok - 1)).

Definition cxpr_expr_parser_join_segments (segments : list string) : string := join_path segments.

(** [while (check(DOT))] with an identifier behind every dot; [None] after the
    error [message]. *)
Fixpoint dotted_loop (message : string) (fuel : nat) (segments : list string)
    (p : cxpr_expr_parser) : run (option (list string) * cxpr_expr_parser) :=
  match fuel with
  | O => OutOfFuel
  | S fuel' =>
      if negb (cxpr_expr_parser_check p CXPR_TOK_DOT) then Done (Some segments, p)
      else
        need_identifier message
          (λ segment p, dotted_loop message fuel' (segments ++ [segment]) p)
          (cxpr_expr_parser_advance p)
  end.

(** The segment loops of a [$param] path and of an identifier path. *)
Definition param_segments (name : string) (p : cxpr_expr_parser) :=
  dotted_loop "Expected parameter segment after '.'" (loop_fuel p) [name] p.
Definition field_segments (name : string) (p : cxpr_expr_parser) :=
  dotted_loop "Expected field name after '.'" (loop_fuel p) [name] p.

Section primary.
(** [cxpr_parse_expression] *)
Variable parse_expression : cxpr_expr_parser → run presult.

(** The argument and its name; [None] for [false]. *)
Definition cxpr_parse_call_argument (p : cxpr_expr_parser)
    : run (option (cxpr_expr_ast * option string) * cxpr_expr_parser) :=
  let value name := need_operand parse_expression (λ arg p, Done (Some (arg, name), p)) in
  if cxpr_expr_parser_check p CXPR_TOK_IDENTIFIER
     && tok_eqb (tok_type (cxpr_expr_parser_peek_next p)) CXPR_TOK_ASSIGN
  then
    let name := cxpr_expr_parser_token_to_string (ps_current p) in
    need_token CXPR_TOK_ASSIGN "Expected '=' after named argument" (value (Some name))
      (cxpr_expr_parser_advance p)
  else value None p.

(** The [do ... while (match(COMMA))] loop of an array literal. *)
Fixpoint array_loop (fuel : nat) (elements : list cxpr_expr_ast) (p : cxpr_expr_parser)
    : run (option (list cxpr_expr_ast) * cxpr_expr_parser) :=
  match fuel with
  | O => OutOfFuel
  | S fuel' =>
      need_operand parse_expression (λ e p,
        let elements := elements ++ [e] in
        let '(more, p) := cxpr_expr_parser_match p CXPR_TOK_COMMA in
        if more then array_loop fuel' elements p else Done (Some elements, p)) p
  end.

Definition cxpr_parse_array_literal : cxpr_expr_parser → run presult :=
  need_token CXPR_TOK_LBRACKET "Expected '['" (λ p,
    on_some
      (if cxpr_expr_parser_check p CXPR_TOK_RBRACKET then Done (Some [], p)
       else array_loop (loop_fuel p) [] p) (λ elements,
    need_token CXPR_TOK_RBRACKET "Expected ']' to close array" (λ p,
      Done (Some (cxpr_expr_ast_array_new elements), p)))).

(** The value of a record field: behind [=] or [:], or the field's own name. *)
Definition record_value (name : string) (p : cxpr_expr_parser) : run presult :=
  let '(has_value, p) := cxpr_expr_parser_match p CXPR_TOK_ASSIGN in
  let '(has_value, p) :=
    if has_value then (true, p) else cxpr_expr_parser_match p CXPR_TOK_COLON in
  if has_value then parse_expression p
  else Done (Some (cxpr_expr_ast_identifier_new name), p).

(** A NULL value is reported as an allocation failure. *)
Definition record_field : cxpr_expr_parser
    → run (option (string * cxpr_expr_ast) * cxpr_expr_parser) :=
  need_identifier "Expected record field name" (λ name p,
    let* '(value, p) := record_value name p in
    match value with
    | None =>
        let e := ps_last_error p in
        Done (None, with_error p (mk_error CXPR_ERR_OUT_OF_MEMORY (Some "Out of memory"%string)
                                    (err_position e) (err_line e) (err_column e)))
    | Some value =>
        if ps_had_error p then Done (None, p) else Done (Some (name, value), p)
    end).

Fixpoint record_loop (fuel : nat) (names : list string) (values : list cxpr_expr_ast)
    (p : cxpr_expr_parser)
    : run (option (list string * list cxpr_expr_ast) * cxpr_expr_parser) :=
  match fuel with
  | O => OutOfFuel
  | S fuel' =>
      on_some (record_field p) (λ field p,
        let names := names ++ [fst field] in
        let values := values ++ [snd field] in
        let '(more, p) := cxpr_expr_parser_match p CXPR_TOK_COMMA in
        if more then record_loop fuel' names values p else Done (Some (names, values), p))
  end.

Definition cxpr_parse_record_literal : cxpr_expr_parser → run presult :=
  need_token CXPR_TOK_LBRACE "Expected '{'" (λ p,
    on_some
      (if cxpr_expr_parser_check p CXPR_TOK_RBRACE then Done (Some ([], []), p)
       else record_loop (loop_fuel p) [] [] p) (λ fields,
    need_token CXPR_TOK_RBRACE "Expected '}' to close record" (λ p,
      Done (Some (cxpr_expr_ast_record_new (fst fields) (snd fields)), p)))).

(** The arguments and names of a call. *)
Definition arg_list : Type := list cxpr_expr_ast * list (option string).

(** The [fail] label: it frees [arg_names[0 .. argc]], the entry behind the
    last argument included, which the array of [capacity] entries must have. *)
Definition arg_list_fail (capacity argc : nat) (p : cxpr_expr_parser)
    : run (option arg_list * cxpr_expr_parser) :=
  if capacity <=? argc then Undef else Done (None, p).

Definition arg_list_close (capacity : nat) (args : list cxpr_expr_ast)
    (arg_names : list (option string)) (p : cxpr_expr_parser)
    : run (option arg_list * cxpr_expr_parser) :=
  let '(ok, p) := cxpr_expr_parser_expect p CXPR_TOK_RPAREN
                    "Expected ')' after function arguments" in
  if ok then Done (Some (args, arg_names), p) else arg_list_fail capacity (length args) p.

Fixpoint arg_list_loop (fuel : nat) (capacity : nat) (args : list cxpr_expr_ast)
    (arg_names : list (option string)) (p : cxpr_expr_parser)
    : run (option arg_list * cxpr_expr_parser) :=
  match fuel with
  | O => OutOfFuel
  | S fuel' =>
      let '(more, p) := cxpr_expr_parser_match p CXPR_TOK_COMMA in
      if negb more then arg_list_close capacity args arg_names p
      else
        let capacity := if capacity <=? length args then capacity * 2 else capacity in
        let* '(arg, p) := cxpr_parse_call_argument p in
        match arg with
        | None => arg_list_fail capacity (length args) p
        | Some (arg, name) =>
            arg_list_loop fuel' capacity (args ++ [arg]) (arg_names ++ [name]) p
        end
  end.

Definition cxpr_expr_parser_parse_arg_list (p : cxpr_expr_parser)
    : run (option arg_list * cxpr_expr_parser) :=
  let args_capacity := 8 in
  let p := cxpr_expr_parser_advance p in
  if cxpr_expr_parser_check p CXPR_TOK_RPAREN then arg_list_close args_capacity [] [] p
  else
    let* '(arg, p) := cxpr_parse_call_argument p in
    match arg with
    | None => arg_list_fail args_capacity 0 p
    | Some (arg, name) => arg_list_loop (loop_fuel p) args_capacity [arg] [name] p
    end.

(** A call [name(...)] behind its name, with an optional [.field]; [lower] is
    applied to a plain call. *)
Definition parse_call (lower : cxpr_expr_ast → cxpr_expr_ast) (name : string)
    (p : cxpr_expr_parser) : run presult :=
  on_some (cxpr_expr_parser_parse_arg_list p) (λ list p,
    let '(args, arg_names) := list in
    if cxpr_expr_parser_check p CXPR_TOK_DOT then
      need_identifier "Expected field name after '.'" (λ field p,
        Done (Some (cxpr_expr_ast_producer_field_named_new name args (Some arg_names) field), p))
        (cxpr_expr_parser_advance p)
    else Done (Some (lower (cxpr_expr_ast_call_named_new name args (Some arg_names))), p)).

Definition primary_variable (p : cxpr_expr_parser) : run presult :=
  let name := cxpr_expr_parser_token_to_string (ps_current p) in
  let p := cxpr_expr_parser_advance p in
  if cxpr_expr_parser_check p CXPR_TOK_DOT then
    on_some (param_segments name p) (λ segments p,
      Done (Some (cxpr_expr_ast_param_new (cxpr_expr_parser_join_segments segments)), p))
  else Done (Some (cxpr_expr_ast_param_new name), p).

Definition primary_identifier (p : cxpr_expr_parser) : run presult :=
  let name := cxpr_expr_parser_token_to_string (ps_current p) in
  let p := cxpr_expr_parser_advance p in
  if cxpr_expr_parser_check p CXPR_TOK_LPAREN then
    parse_call cxpr_parse_lower_window_reduction name p
  else if cxpr_expr_parser_check p CXPR_TOK_DOT then
    on_some (field_segments name p) (λ segments p,
      if cxpr_expr_parser_check p CXPR_TOK_LPAREN then
        parse_call id (cxpr_expr_parser_join_segments segments) p
      else
        match segments with
        | [object; field] => Done (Some (cxpr_expr_ast_field_new object field), p)
        | _ => Done (cxpr_expr_ast_new_chain_access segments, p)
        end)
  else Done (Some (cxpr_expr_ast_identifier_new name), p).

(** Behind the opening parenthesis. *)
Definition primary_paren : cxpr_expr_parser → run presult :=
  need_operand parse_expression (λ node,
    need_token CXPR_TOK_RPAREN "Expected closing ')'" (λ p,
      if cxpr_expr_parser_check p CXPR_TOK_DOT then
        need_identifier "Expected field name after '.'" (λ field p,
          Done (Some (cxpr_expr_ast_field_expr_new node field), p))
          (cxpr_expr_parser_advance p)
      else Done (Some node, p))).

(** The alternatives of a primary expression, up to the label [primary_done]. *)
Definition primary_node (p : cxpr_expr_parser) : run presult :=
  let token := ps_current p in
  match tok_type token with
  | CXPR_TOK_NUMBER =>
      Done (Some (if tok_is_int64 token then cxpr_expr_ast_int64_new (tok_int64_value token)
                  else cxpr_expr_ast_number_new (tok_number_value token)),
            cxpr_expr_parser_advance p)
  | CXPR_TOK_TRUE => Done (Some (cxpr_expr_ast_bool_new true), cxpr_expr_parser_advance p)
  | CXPR_TOK_FALSE => Done (Some (cxpr_expr_ast_bool_new false), cxpr_expr_parser_advance p)
  | CXPR_TOK_STRING =>
      Done (Some (cxpr_expr_ast_new_string (tok_text token)), cxpr_expr_parser_advance p)
  | CXPR_TOK_VARIABLE => primary_variable p
  | CXPR_TOK_IDENTIFIER => primary_identifier p
  | CXPR_TOK_LPAREN => primary_paren (cxpr_expr_parser_advance p)
  | CXPR_TOK_LBRACKET => cxpr_parse_array_literal p
  | CXPR_TOK_LBRACE => cxpr_parse_record_literal p
  | _ => Done (None, cxpr_expr_parser_set_error p "Unexpected token")
  end.

(** The index suffixes [ [e] ] behind a primary expression. *)
Fixpoint index_loop (fuel : nat) (node : cxpr_expr_ast) (p : cxpr_expr_parser) : run presult :=
  match fuel with
  | O => OutOfFuel
  | S fuel' =>
      let '(more, p) := cxpr_expr_parser_match p CXPR_TOK_LBRACKET in
      if negb more then Done (Some node, p)
      else
        need_operand parse_expression (λ index,
          need_token CXPR_TOK_RBRACKET "Expected closing ']' after index expression" (λ p,
            index_loop fuel' (cxpr_expr_ast_index_new node index) p)) p
  end.

Definition cxpr_parse_primary (p : cxpr_expr_parser) : run presult :=
  let start_token := ps_current p in
  on_some (primary_node p) (λ node p,
  on_some (index_loop (loop_fuel p) node p) (λ node p,
    let* e := cxpr_expr_parser_token_end p (ps_previous p) in
    let s := mk_pos (tok_position start_token) (tok_line start_token)
               (tok_column start_token - 1) in
    Done (Some (cxpr_expr_ast_set_source_span node (mk_span s e)), p))).
End primary.

(** ** Operators ([expression.c]) *)

Definition cxpr_expr_parser_is_relational_token (type : cxpr_token_type) : bool :=
  match type with
  | CXPR_TOK_LT | CXPR_TOK_GT | CXPR_TOK_LTE | CXPR_TOK_GTE => true
  | _ => false
  end.

Definition cxpr_expr_parser_is_subject_node (ast : cxpr_expr_ast) : bool :=
  match ast_node ast with
  | CXPR_NODE_IDENTIFIER _ | CXPR_NODE_VARIABLE _ | CXPR_NODE_FIELD_ACCESS _ _ _ _
  | CXPR_NODE_CHAIN_ACCESS _ _ | CXPR_NODE_INDEX _ _ | CXPR_NODE_PRODUCER_ACCESS _ _ _ _ _ => true
  | _ => false
  end.

Definition cxpr_expr_parser_is_threshold_node (ast : cxpr_expr_ast) : bool :=
  match ast_node ast with
  | CXPR_NODE_NUMBER _ | CXPR_NODE_VARIABLE _ => true
  | _ => false
  end.

Definition cxpr_expr_parser_relational_ops_cross_bounds (first_op next_op : cxpr_token_type)
    : bool :=
  ((tok_eqb first_op CXPR_TOK_GT || tok_eqb first_op CXPR_TOK_GTE) &&
   (tok_eqb next_op CXPR_TOK_LT || tok_eqb next_op CXPR_TOK_LTE)) ||
  ((tok_eqb first_op CXPR_TOK_LT || tok_eqb first_op CXPR_TOK_LTE) &&
   (tok_eqb next_op CXPR_TOK_GT || tok_eqb next_op CXPR_TOK_GTE)).

(** The loop [while (is_op(current)) { advance; right = operand(); left = binary }]
    of the left-associative levels. *)
Fixpoint binary_loop (operand : cxpr_expr_parser → run presult) (is_op : cxpr_token_type → bool)
    (fuel : nat) (lhs : cxpr_expr_ast) (p : cxpr_expr_parser) : run presult :=
  match fuel with
  | O => OutOfFuel
  | S fuel' =>
      let op := tok_type (ps_current p) in
      if negb (is_op op) then Done (Some lhs, p)
      else
        need_operand operand
          (λ rhs p, binary_loop operand is_op fuel' (cxpr_expr_ast_binary_new op lhs rhs) p)
          (cxpr_expr_parser_advance p)
  end.

(** [if (!left || p->had_error) return left;] before the rest of a level. *)
Definition after_operand (operand : cxpr_expr_parser → run presult)
    (k : cxpr_expr_ast → cxpr_expr_parser → run presult) (p : cxpr_expr_parser) : run presult :=
  on_some (operand p) (λ lhs p, if ps_had_error p then Done (Some lhs, p) else k lhs p).

Definition binary_level (operand : cxpr_expr_parser → run presult)
    (is_op : cxpr_token_type → bool) : cxpr_expr_parser → run presult :=
  after_operand operand (λ lhs p, binary_loop operand is_op (loop_fuel p) lhs p).

Definition is_term_op (t : cxpr_token_type) : bool :=
  match t with CXPR_TOK_STAR | CXPR_TOK_SLASH | CXPR_TOK_PERCENT => true | _ => false end.
Definition is_arithmetic_op (t : cxpr_token_type) : bool :=
  match t with CXPR_TOK_PLUS | CXPR_TOK_MINUS => true | _ => false end.

Section operators.
Variable parse_expression : cxpr_expr_parser → run presult.

Definition cxpr_parse_power (parse_unary : cxpr_expr_parser → run presult)
    : cxpr_expr_parser → run presult :=
  after_operand (cxpr_parse_primary parse_expression) (λ lhs p,
    if cxpr_expr_parser_check p CXPR_TOK_POWER then
      need_operand parse_unary
        (λ rhs p, Done (Some (cxpr_expr_ast_binary_new CXPR_TOK_POWER lhs rhs), p))
        (cxpr_expr_parser_advance p)
    else Done (Some lhs, p)).

(** [cxpr_parse_unary] and [cxpr_parse_power] call each other; every nested
    call is behind a consumed token. *)
Fixpoint parse_unary_fuel (fuel : nat) (p : cxpr_expr_parser) : run presult :=
  match fuel with
  | O => OutOfFuel
  | S fuel' =>
      if cxpr_expr_parser_check p CXPR_TOK_MINUS then
        need_operand (parse_unary_fuel fuel')
          (λ operand p, Done (Some (cxpr_expr_ast_unary_new CXPR_TOK_MINUS operand), p))
          (cxpr_expr_parser_advance p)
      else if cxpr_expr_parser_check p CXPR_TOK_PLUS then
        parse_unary_fuel fuel' (cxpr_expr_parser_advance p)
      else cxpr_parse_power (parse_unary_fuel fuel') p
  end.

Definition cxpr_parse_unary (p : cxpr_expr_parser) : run presult :=
  parse_unary_fuel (loop_fuel p) p.

Definition cxpr_parse_term : cxpr_expr_parser → run presult :=
  binary_level cxpr_parse_unary is_term_op.

Definition cxpr_parse_arithmetic : cxpr_expr_parser → run presult :=
  binary_level cxpr_parse_term is_arithmetic_op.

Definition cxpr_parse_set_membership (p : cxpr_expr_parser) (lhs : cxpr_expr_ast)
    (negated : bool) : run presult :=
  if negb (cxpr_expr_parser_check p CXPR_TOK_LBRACKET)
  then Done (None, cxpr_expr_parser_set_error p "Expected '[' to start set after 'in'")
  else if tok_eqb (tok_type (cxpr_expr_parser_peek_next p)) CXPR_TOK_RBRACKET
  then Done (None, cxpr_expr_parser_set_error p "Set membership requires at least one element")
  else
    need_operand cxpr_parse_arithmetic (λ array p,
      let call := cxpr_expr_ast_call_new "contains" [lhs; array] in
      Done (Some (if negated then cxpr_expr_ast_unary_new CXPR_TOK_NOT call else call), p)) p.

(** The chained comparisons [a < b < c]: every further comparison is joined to
    the previous ones with [and]; its left side is a copy of the previous right
    side, or of the chain's subject when the bounds cross. *)
Fixpoint relational_loop (chain_subject : option cxpr_expr_ast) (first_op : cxpr_token_type)
    (fuel : nat) (lhs rhs : cxpr_expr_ast) (p : cxpr_expr_parser) : run presult :=
  match fuel with
  | O => OutOfFuel
  | S fuel' =>
      let next_op := tok_type (ps_current p) in
      if negb (cxpr_expr_parser_is_relational_token next_op) then Done (Some lhs, p)
      else
        let next_left := cxpr_expr_parser_clone_ast
          match chain_subject with
          | Some subject =>
              if cxpr_expr_parser_relational_ops_cross_bounds first_op next_op
              then subject else rhs
          | None => rhs
          end in
        need_operand cxpr_parse_arithmetic (λ next_right p,
          let next_cmp := cxpr_expr_ast_binary_new next_op next_left next_right in
          relational_loop chain_subject first_op fuel'
            (cxpr_expr_ast_binary_new CXPR_TOK_AND lhs next_cmp) next_right p)
          (cxpr_expr_parser_advance p)
  end.

Definition cxpr_parse_relational : cxpr_expr_parser → run presult :=
  after_operand cxpr_parse_arithmetic (λ lhs p,
    let op := tok_type (ps_current p) in
    if cxpr_expr_parser_is_relational_token op then
      need_operand cxpr_parse_arithmetic (λ rhs p,
        let chain_subject :=
          if cxpr_expr_parser_is_subject_node lhs && cxpr_expr_parser_is_threshold_node rhs
          then Some (cxpr_expr_parser_clone_ast lhs) else None in
        relational_loop chain_subject op (loop_fuel p) (cxpr_expr_ast_binary_new op lhs rhs) rhs p)
        (cxpr_expr_parser_advance p)
    else
      let negated := cxpr_expr_parser_check p CXPR_TOK_NOT in
      if (negated && tok_eqb (tok_type (cxpr_expr_parser_peek_next p)) CXPR_TOK_IN)
         || cxpr_expr_parser_check p CXPR_TOK_IN
      then
        let p := if negated then cxpr_expr_parser_advance p else p in
        cxpr_parse_set_membership (cxpr_expr_parser_advance p) lhs negated
      else Done (Some lhs, p)).

Definition cxpr_parse_equality : cxpr_expr_parser → run presult :=
  after_operand cxpr_parse_relational (λ lhs p,
    if cxpr_expr_parser_check p CXPR_TOK_EQ || cxpr_expr_parser_check p CXPR_TOK_NEQ then
      let op := tok_type (ps_current p) in
      need_operand cxpr_parse_relational
        (λ rhs p, Done (Some (cxpr_expr_ast_binary_new op lhs rhs), p))
        (cxpr_expr_parser_advance p)
    else Done (Some lhs, p)).

Fixpoint parse_not_fuel (fuel : nat) (p : cxpr_expr_parser) : run presult :=
  match fuel with
  | O => OutOfFuel
  | S fuel' =>
      if cxpr_expr_parser_check p CXPR_TOK_NOT then
        need_operand (parse_not_fuel fuel')
          (λ operand p, Done (Some (cxpr_expr_ast_unary_new CXPR_TOK_NOT operand), p))
          (cxpr_expr_parser_advance p)
      else cxpr_parse_equality p
  end.

Definition cxpr_parse_not (p : cxpr_expr_parser) : run presult := parse_not_fuel (loop_fuel p) p.

Definition cxpr_parse_and : cxpr_expr_parser → run presult :=
  binary_level cxpr_parse_not (λ t, tok_eqb t CXPR_TOK_AND).

Definition cxpr_parse_or : cxpr_expr_parser → run presult :=
  binary_level cxpr_parse_and (λ t, tok_eqb t CXPR_TOK_OR).

Definition cxpr_parse_ternary : cxpr_expr_parser → run presult :=
  after_operand cxpr_parse_or (λ condition p,
    let '(question, p) := cxpr_expr_parser_match p CXPR_TOK_QUESTION in
    if question then
      need_operand parse_expression (λ true_branch p,
        need_token CXPR_TOK_COLON "Expected ':' in ternary expression" (
        need_operand parse_expression (λ false_branch p,
          Done (Some (cxpr_expr_ast_ternary_new condition true_branch false_branch), p))) p) p
    else Done (Some condition, p)).

Fixpoint pipe_loop (fuel : nat) (lhs : cxpr_expr_ast) (p : cxpr_expr_parser) : run presult :=
  match fuel with
  | O => OutOfFuel
  | S fuel' =>
      if negb (cxpr_expr_parser_check p CXPR_TOK_PIPE) then Done (Some lhs, p)
      else
        need_operand cxpr_parse_ternary (λ stage p,
          let '(node, p) := cxpr_expr_parser_pipe_inject_argument p stage lhs in
          match node with
          | None => Done (None, p)
          | Some node => if ps_had_error p then Done (None, p) else pipe_loop fuel' node p
          end) (cxpr_expr_parser_advance p)
  end.

Definition cxpr_parse_pipe : cxpr_expr_parser → run presult :=
  after_operand cxpr_parse_ternary (λ lhs p, pipe_loop (loop_fuel p) lhs p).
End operators.

(** [cxpr_parse_expression] calls itself only behind a consumed token. *)
Fixpoint parse_expression_fuel (fuel : nat) (p : cxpr_expr_parser) : run presult :=
  match fuel with
  | O => OutOfFuel
  | S fuel' => cxpr_parse_pipe (parse_expression_fuel fuel') p
  end.

Definition cxpr_parse_expression (p : cxpr_expr_parser) : run presult :=
  parse_expression_fuel (loop_fuel p) p.

(** The public entry point: the tree, the parser and [*err].  [None] stands for a
    NULL argument. *)
Definition cxpr_expr_ast_parse (p : option cxpr_expr_parser) (expression : option string)
    (err : cxpr_error) : run (option cxpr_expr_ast * option cxpr_expr_parser * cxpr_error) :=
  match p, expression with
  | Some p, Some expression =>
      let p := cxpr_expr_parser_advance
                 (mk_parser (cxpr_lexer_init expression) (ps_current p) (ps_previous p) false
                    error_zero) in
      if ps_had_error p then Done (None, Some p, ps_last_error p)
      else
        let* '(ast, p) := cxpr_parse_expression p in
        if ps_had_error p then Done (None, Some p, ps_last_error p)
        else if negb (cxpr_expr_parser_check p CXPR_TOK_EOF) then
          let p := cxpr_expr_parser_set_error p
            (if cxpr_expr_parser_token_starts_primary (tok_type (ps_current p))
             then "Implicit multiplication is not supported; use '*' explicitly"
             else "Unexpected token after expression") in
          Done (None, Some p, ps_last_error p)
        else Done (ast, Some p, mk_error CXPR_OK (err_message err) (err_position err)
                                  (err_line err) (err_column err))
  | _, _ =>
      Done (None, p, mk_error CXPR_ERR_SYNTAX (Some "NULL parser or expression"%string)
                       (err_position err) (err_line err) (err_column err))
  end.
