(* ===== verification/ParserProofs.v ===== *)
(** * ParserProofs: correctness of the parser

    The parser's token state moves forward over the source, every loop and
    recursion ends, a failed parse always leaves an error at a position of the
    source, and a returned tree has the promised shape with exact source spans. *)

From Stdlib Require Import Ascii String ZArith Lia.
From stdpp Require Import base list strings relations.
From S2P Require Import Prelude Float64 Types Lexer Ast Parser.
Local Open Scope run_scope.
Local Open Scope nat_scope.

(** ** Token states *)

Record tstate : Type := mk_tstate {
  ts_lexer : cxpr_lexer;
  ts_current : cxpr_token;
  ts_previous : cxpr_token
}.

Definition toks (p : cxpr_expr_parser) : tstate :=
  mk_tstate (ps_lexer p) (ps_current p) (ps_previous p).

(** A token the parser may consume. *)
Definition solid (tok : cxpr_token) : Prop :=
  tok_type tok ≠ CXPR_TOK_EOF ∧ tok_type tok ≠ CXPR_TOK_ERROR.

Definition ts_advance (ts : tstate) : tstate :=
  let '(tok, lx) := cxpr_lexer_next (ts_lexer ts) in mk_tstate lx tok (ts_current ts).

Definition adv (ts ts' : tstate) : Prop := solid (ts_current ts) ∧ ts' = ts_advance ts.

Lemma toks_advance p : toks (cxpr_expr_parser_advance p) = ts_advance (toks p).
Proof.
  unfold cxpr_expr_parser_advance, ts_advance, toks. simpl.
  destruct (cxpr_lexer_next (ps_lexer p)) as [tok lx]. by destruct (tok_eqb _ _).
Qed.

(** The current token was read from offset [k] of [src] and ends at [m]. *)
Definition cur_at (src : string) (ts : tstate) (k m : nat) : Prop :=
  m ≤ strlen src ∧ ts_lexer ts = state_at src m ∧ token_at src k (ts_current ts) m.

Lemma cur_at_advance src ts k m :
  cur_at src ts k m →
  ∃ k' m', cur_at src (ts_advance ts) k' m' ∧ m ≤ k' ∧ ts_previous (ts_advance ts) = ts_current ts.
Proof.
  intros (Hm & Hlx & Ht). unfold ts_advance. rewrite Hlx.
  destruct (lexer_next_spec src m Hm) as (k' & Hk' & _ & m' & Hm' & E & Ht').
  destruct (cxpr_lexer_next (state_at src m)) as [tok lx]. simpl in E, Ht'. subst lx.
  exists k', m'. split_and!; auto; [by split_and!|lia].
Qed.

(** Where a token starts and ends. *)
Definition tok_end (tok : cxpr_token) : nat := tok_position tok + token_width tok.

Lemma token_at_position src k tok m : token_at src k tok m → k ≤ tok_position tok.
Proof. unfold token_at. destruct (tok_type tok); lia. Qed.

Lemma token_at_solid src k tok m :
  token_at src k tok m → solid tok →
  tok_position tok = k ∧ tok_end tok = m ∧ tok_line tok = line_of k src ∧ tok_column tok = col_of k src.
Proof.
  unfold token_at, solid, tok_end, token_width. intros H [H1 H2].
  destruct (tok_type tok); simpl in *; try done; lia.
Qed.

Lemma token_at_exact src k tok m :
  token_at src k tok m → m ≤ strlen src →
  tok_position tok ≤ strlen src ∧ tok_line tok = line_of (tok_position tok) src ∧
  tok_column tok = col_of (tok_position tok) src.
Proof.
  unfold token_at. intros H Hm.
  destruct (tok_type tok); simpl in *; destruct_and?; split_and!; try lia; congruence.
Qed.

(** ** Progress *)

Definition ts_left (ts : tstate) : nat :=
  strlen (lx_current (ts_lexer ts)) +
  (if tok_eqb (tok_type (ts_current ts)) CXPR_TOK_EOF then 0 else 1).

Lemma tokens_left_ts p : tokens_left p = ts_left (toks p).
Proof. reflexivity. Qed.

Lemma adv_left src ts ts' k m : cur_at src ts k m → adv ts ts' → ts_left ts' < ts_left ts.
Proof.
  intros Hcur [[Hne _] ->]. destruct (cur_at_advance src ts k m Hcur) as (k' & m' & Hcur' & Hle & _).
  destruct Hcur as (Hm & Hlx & _), Hcur' as (Hm' & Hlx' & Ht').
  unfold ts_left. rewrite Hlx, Hlx', !current_state_at, !strlen_drop.
  assert (tok_eqb (tok_type (ts_current ts)) CXPR_TOK_EOF = false) as ->
    by (apply not_true_iff_false; by rewrite tok_eqb_eq).
  pose proof (token_at_le _ _ _ _ Ht').
  destruct (tok_eqb (tok_type (ts_current (ts_advance ts))) CXPR_TOK_EOF) eqn:E; [lia|].
  assert (k' < m'); [|lia]. eapply token_at_progress; [done|]. intros Heof. by rewrite Heof in E.
Qed.

(** Commas still to be read, the current token included. *)
Fixpoint count_commas (s : string) : nat :=
  match s with
  | EmptyString => 0
  | String c s' => (if (c =? ",")%char then 1 else 0) + count_commas s'
  end.

Definition is_comma (tok : cxpr_token) : nat :=
  if tok_eqb (tok_type tok) CXPR_TOK_COMMA then 1 else 0.

Definition ts_commas (ts : tstate) : nat :=
  count_commas (lx_current (ts_lexer ts)) + is_comma (ts_current ts).

Lemma count_commas_drop n m s : n ≤ m → count_commas (str_drop m s) ≤ count_commas (str_drop n s).
Proof.
  intros H. replace m with (n + (m - n)) by lia. rewrite <- str_drop_drop.
  generalize (str_drop n s) as t. induction (m - n) as [|d IH]; intros t; simpl; [done|].
  destruct t as [|c t]; simpl; [lia|]. specialize (IH t). lia.
Qed.

Lemma single_char_comma c : single_char_token c = Some CXPR_TOK_COMMA → c = ","%char.
Proof. destruct c as [[] [] [] [] [] [] [] []]; simpl; intros [=]; done. Qed.

Lemma double_char_comma c d t1 t2 :
  double_char_token c d = (t1, t2) → t1 ≠ Some CXPR_TOK_COMMA ∧ t2 ≠ Some CXPR_TOK_COMMA.
Proof.
  intros H. destruct c as [[] [] [] [] [] [] [] []]; simpl in H; injection H as <- <-;
    split; repeat case_match; done.
Qed.

Lemma keyword_not_comma text len : cxpr_check_keyword text len ≠ CXPR_TOK_COMMA.
Proof.
  apply (keyword_scan_tag (λ t, t ≠ CXPR_TOK_COMMA)); [done|]. by repeat constructor.
Qed.

Lemma lexer_next_comma lx :
  tok_type (fst (cxpr_lexer_next lx)) = CXPR_TOK_COMMA →
  char_at0 (tok_start (fst (cxpr_lexer_next lx))) = ","%char.
Proof.
  unfold cxpr_lexer_next. set (l := cxpr_lexer_skip_whitespace lx).
  case_match; [done|]. case_match.
  { unfold cxpr_lexer_number. repeat case_match; done. }
  case_match.
  { unfold cxpr_lexer_identifier. case_match; simpl; [done|]. by intros ?%keyword_not_comma. }
  case_match; [unfold cxpr_lexer_variable; repeat case_match; done|].
  case_match; [unfold cxpr_lexer_string; repeat case_match; done|].
  unfold lexer_operator. destruct (single_char_token _) eqn:E1.
  { simpl. intros ->. by apply single_char_comma in E1. }
  destruct (double_char_token _ _) as [t1 t2] eqn:E2. apply double_char_comma in E2 as [Hd1 Hd2].
  destruct t1, t2; simpl; intros; by subst.
Qed.

(** Reading one token: where it is and how many commas are left behind it. *)
Lemma next_commas src n tok lx :
  n ≤ strlen src → cxpr_lexer_next (state_at src n) = (tok, lx) →
  ∃ k m, m ≤ strlen src ∧ lx = state_at src m ∧ token_at src k tok m ∧ n ≤ k ∧
    count_commas (str_drop m src) + is_comma tok ≤ count_commas (str_drop n src).
Proof.
  intros Hn E. destruct (lexer_next_spec src n Hn) as (k & Hk & _ & m & Hm & Elx & Ht).
  pose proof (lexer_next_comma (state_at src n)) as Hc. rewrite E in Elx, Ht, Hc.
  simpl in Elx, Ht, Hc. exists k, m. split_and!; auto; [lia|].
  pose proof (token_at_le _ _ _ _ Ht). unfold is_comma.
  destruct (tok_eqb (tok_type tok) CXPR_TOK_COMMA) eqn:Ec.
  2: { rewrite Nat.add_0_r. apply count_commas_drop. lia. }
  apply tok_eqb_eq in Ec. specialize (Hc Ec).
  unfold token_at in Ht. rewrite Ec in Ht. destruct Ht as (Hs & ? & ? & _).
  rewrite Hs, char_at0_drop in Hc.
  pose proof (count_commas_drop n k src ltac:(lia)) as Hd. rewrite (str_drop_cons k) in Hd by lia.
  simpl in Hd. rewrite Hc in Hd. simpl in Hd.
  pose proof (count_commas_drop (S k) m src ltac:(lia)). lia.
Qed.

Lemma adv_commas src ts ts' k m :
  cur_at src ts k m → adv ts ts' → ts_commas ts' + is_comma (ts_current ts) ≤ ts_commas ts.
Proof.
  intros (Hm & Hlx & _) [_ ->]. unfold ts_commas, ts_advance. rewrite Hlx.
  destruct (cxpr_lexer_next (state_at src m)) as [tok lx] eqn:E.
  destruct (next_commas src m tok lx Hm E) as (k' & m' & _ & -> & _ & _ & Hc).
  simpl in *. lia.
Qed.

(** ** Specifications of parsing functions *)

(** Where the next token starts and where the last consumed one ended. *)
Definition lo (p : cxpr_expr_parser) : nat := tok_position (ps_current p).
Definition hi (p : cxpr_expr_parser) : nat := tok_end (ps_previous p).

Definition commas (p : cxpr_expr_parser) : nat := ts_commas (toks p).

(** A recorded error has an error code and an exact position in the source. *)
Definition error_ok (src : string) (e : cxpr_error) : Prop :=
  (err_code e = CXPR_ERR_SYNTAX ∨ err_code e = CXPR_ERR_OUT_OF_MEMORY) ∧
  err_position e ≤ strlen src ∧ err_line e = line_of (err_position e) src ∧
  err_column e = col_of (err_position e) src.

Definition pre (src : string) (p : cxpr_expr_parser) : Prop :=
  (∃ k m, cur_at src (toks p) k m) ∧ (ps_had_error p = true → error_ok src (ps_last_error p)).

(** Tokens consumed between two states: at least one, or any number. *)
Inductive mode : Type := Strict | Lax.

Definition moved (mo : mode) (p p' : cxpr_expr_parser) : Prop :=
  match mo with
  | Strict => tc adv (toks p) (toks p')
  | Lax => rtc adv (toks p) (toks p')
  end.

Definition join (a b : mode) : mode := match a with Strict => Strict | Lax => b end.

Lemma moved_lax mo p p' : moved mo p p' → moved Lax p p'.
Proof. destruct mo; simpl; auto using tc_rtc. Qed.

Lemma moved_weaken mo p p' : moved Strict p p' → moved mo p p'.
Proof. destruct mo; simpl; auto using tc_rtc. Qed.

Lemma moved_trans a b p p' p'' : moved a p p' → moved b p' p'' → moved (join a b) p p''.
Proof.
  destruct a, b; simpl; intros H1 H2.
  - by eapply tc_trans.
  - by eapply tc_rtc_r.
  - by eapply tc_rtc_l.
  - by etrans.
Qed.

Lemma moved_refl p : moved Lax p p.
Proof. apply rtc_refl. Qed.

Lemma tc_last {A} (R : relation A) x z : tc R x z → ∃ y, rtc R x y ∧ R y z.
Proof.
  induction 1 as [x y H|x y z Hxy _ (w & Hyw & Hwz)]; [by exists x; split; [constructor|]|].
  exists w. split; [by eapply rtc_l|done].
Qed.

Section moved.
Context (src : string).

Lemma rtc_cur ts ts' k m :
  cur_at src ts k m → rtc adv ts ts' →
  (∃ k' m', cur_at src ts' k' m' ∧ tok_position (ts_current ts) ≤ tok_position (ts_current ts')) ∧
  ts_left ts' ≤ ts_left ts ∧ ts_commas ts' ≤ ts_commas ts.
Proof.
  intros Hcur Hr. revert k m Hcur. induction Hr as [ts|ts ts1 ts' Hadv Hr IH]; intros k m Hcur.
  { split; [by exists k, m|lia]. }
  pose proof (adv_left _ _ _ _ _ Hcur Hadv). pose proof (adv_commas _ _ _ _ _ Hcur Hadv).
  destruct Hadv as [Hs ->].
  destruct (cur_at_advance src ts k m Hcur) as (k1 & m1 & Hcur1 & Hle & _).
  destruct (IH k1 m1 Hcur1) as ((k' & m' & Hcur' & Hpos) & ? & ?). split; [|lia].
  exists k', m'. split; [done|].
  destruct Hcur as (_ & _ & Ht), Hcur1 as (_ & _ & Ht1).
  destruct (token_at_solid _ _ _ _ Ht Hs) as (-> & _).
  pose proof (token_at_position _ _ _ _ Ht1). pose proof (token_at_le _ _ _ _ Ht). lia.
Qed.

(** After at least one consumed token, the previous token is one of the source,
    not before the first consumed one, and ends before the current one. *)
Lemma tc_prev ts ts' k m :
  cur_at src ts k m → tc adv ts ts' →
  ts_left ts' < ts_left ts ∧
  ∃ kp mp, token_at src kp (ts_previous ts') mp ∧ solid (ts_previous ts') ∧
    tok_position (ts_current ts) ≤ kp ∧ mp ≤ tok_position (ts_current ts') ∧ mp ≤ strlen src.
Proof.
  intros Hcur (ts1 & Hr & Hadv)%tc_last.
  destruct (rtc_cur ts ts1 k m Hcur Hr) as ((k1 & m1 & Hcur1 & Hpos) & Hl & _).
  pose proof (adv_left _ _ _ _ _ Hcur1 Hadv). split; [lia|]. destruct Hadv as [Hs ->].
  destruct (cur_at_advance src ts1 k1 m1 Hcur1) as (k' & m' & (_ & _ & Ht') & Hle & ->).
  destruct Hcur1 as (Hm1 & _ & Ht1). exists k1, m1.
  destruct (token_at_solid _ _ _ _ Ht1 Hs) as (Hp1 & _).
  pose proof (token_at_position _ _ _ _ Ht'). split_and!; auto; lia.
Qed.
End moved.

Section outcome.
Context (src : string).

Definition settled (p : cxpr_expr_parser) : Prop := hi p ≤ lo p ∧ hi p ≤ strlen src.

Lemma moved_facts p p' :
  pre src p → moved Lax p p' →
  (∃ k m, cur_at src (toks p') k m) ∧ tokens_left p' ≤ tokens_left p ∧ commas p' ≤ commas p ∧
  lo p ≤ lo p'.
Proof.
  intros [(k & m & Hcur) _] Hr.
  destruct (rtc_cur src _ _ k m Hcur Hr) as ((k' & m' & ? & ?) & ? & ?).
  split_and!; auto. by exists k', m'.
Qed.

Lemma moved_strict p p' :
  pre src p → moved Strict p p' → tokens_left p' < tokens_left p ∧ lo p < hi p' ∧ settled p'.
Proof.
  intros [(k & m & Hcur) _] Hr.
  destruct (tc_prev src _ _ k m Hcur Hr) as (Hl & kp & mp & Ht & Hs & ? & ? & ?).
  destruct (token_at_solid _ _ _ _ Ht Hs) as (Hk & Hm & _).
  pose proof (token_at_progress _ _ _ _ Ht (proj1 Hs)). split; [exact Hl|].
  unfold settled, hi, lo. simpl in *. rewrite Hm. split_and!; auto; lia.
Qed.

Lemma moved_settled p p' :
  pre src p → settled p → moved Lax p p' → hi p ≤ hi p' ∧ settled p'.
Proof.
  intros Hp Hset Hr. apply rtc_tc in Hr as [Heq|Hr].
  - unfold settled, hi, lo in *. injection Heq as _ <- <-. auto.
  - destruct (moved_strict p p' Hp Hr) as (_ & ? & ?). split; [|done].
    destruct Hset as [? _]. lia.
Qed.

Lemma error_here_ok p code msg :
  pre src p → code = CXPR_ERR_SYNTAX ∨ code = CXPR_ERR_OUT_OF_MEMORY →
  error_ok src (error_here p code msg).
Proof.
  intros [(k & m & Hm & _ & Ht) _] Hc.
  destruct (token_at_exact _ _ _ _ Ht Hm) as (? & ? & ?). split; [exact Hc|]. by split_and!.
Qed.

Lemma with_error_pre p e : pre src p → error_ok src e → pre src (with_error p e).
Proof. intros [Hc _] He. split; [exact Hc|]. by intros _. Qed.

Lemma set_error_pre p msg : pre src p → pre src (cxpr_expr_parser_set_error p msg).
Proof. intros Hp. apply with_error_pre, error_here_ok; auto. Qed.

Lemma advance_ok p :
  pre src p → solid (ps_current p) →
  pre src (cxpr_expr_parser_advance p) ∧ moved Strict p (cxpr_expr_parser_advance p).
Proof.
  intros [(k & m & Hcur) He] Hs.
  assert (Hmv : moved Strict p (cxpr_expr_parser_advance p)).
  { apply tc_once. by rewrite toks_advance. }
  split; [|done].
  destruct (cur_at_advance src _ _ _ Hcur) as (k' & m' & Hcur' & _ & _).
  rewrite <- toks_advance in Hcur'.
  unfold cxpr_expr_parser_advance in *. destruct (cxpr_lexer_next (ps_lexer p)) as [tok lx].
  destruct (tok_eqb (tok_type tok) CXPR_TOK_ERROR).
  - apply (with_error_pre (mk_parser lx tok (ps_current p) (ps_had_error p) (ps_last_error p))).
    { split; [by exists k', m'|exact He]. }
    apply error_here_ok; [|by left]. split; [by exists k', m'|exact He].
  - split; [by exists k', m'|exact He].
Qed.

Lemma check_solid p t :
  cxpr_expr_parser_check p t = true → t ≠ CXPR_TOK_EOF → t ≠ CXPR_TOK_ERROR →
  solid (ps_current p).
Proof. unfold cxpr_expr_parser_check, solid. by intros ->%tok_eqb_eq. Qed.

(** The result [r] of a parsing function called in state [p]: it is a value (or
    undefined, which takes at least [u] commas in the rest of the source); the
    state moved forward; a NULL result comes with a recorded error. *)
Definition outcome {A} (u : nat) (ok : cxpr_expr_parser → A → Prop) (mo : mode)
    (p : cxpr_expr_parser) (r : run (option A * cxpr_expr_parser)) : Prop :=
  match r with
  | Done (a, p') =>
      pre src p' ∧
      match a with
      | Some a => moved mo p p' ∧ ok p' a
      | None => moved Lax p p' ∧ ps_had_error p' = true
      end
  | Undef => u ≤ commas p
  | OutOfFuel => False
  end.

Lemma outcome_some {A} u (ok : cxpr_expr_parser → A → Prop) mo p p' a :
  pre src p' → moved mo p p' → ok p' a → outcome u ok mo p (Done (Some a, p')).
Proof. by split. Qed.

Lemma outcome_error {A} u (ok : cxpr_expr_parser → A → Prop) mo p p' msg :
  pre src p' → moved Lax p p' →
  outcome u ok mo p (Done (None, cxpr_expr_parser_set_error p' msg)).
Proof. intros. split; [by apply set_error_pre|]. by split. Qed.

(** A function that first moves from [p] to [p1]. *)
Lemma outcome_after_u {A} u u' (ok : cxpr_expr_parser → A → Prop) mo1 mo2 p p1 r :
  moved mo1 p p1 → (u ≤ commas p1 → u' ≤ commas p) →
  outcome u ok mo2 p1 r → outcome u' ok (join mo1 mo2) p r.
Proof.
  intros Hm Hu. unfold outcome. destruct r as [[[a|] p']| |]; auto.
  - intros (? & ? & ?). split_and!; auto. by eapply moved_trans.
  - intros (? & ? & ?). split_and!; auto.
    apply (moved_trans Lax Lax _ p1); [by eapply moved_lax|done].
Qed.

Lemma outcome_after {A} u (ok : cxpr_expr_parser → A → Prop) mo1 mo2 p p1 r :
  pre src p → moved mo1 p p1 → outcome u ok mo2 p1 r → outcome u ok (join mo1 mo2) p r.
Proof.
  intros Hp Hm. apply outcome_after_u; [done|].
  destruct (moved_facts p p1) as (_ & _ & ? & _); [done|by eapply moved_lax|]. lia.
Qed.

Lemma outcome_weaken {A} u (ok ok' : cxpr_expr_parser → A → Prop) mo p r :
  (∀ p' a, pre src p' → moved Strict p p' → ok p' a → ok' p' a) →
  outcome u ok Strict p r → outcome u ok' mo p r.
Proof.
  intros Hok. unfold outcome. destruct r as [[[a|] p']| |]; auto.
  intros (? & ? & ?). split_and!; auto using moved_weaken.
Qed.

Lemma outcome_mono {A} u (ok ok' : cxpr_expr_parser → A → Prop) mo p r :
  (∀ p' a, ok p' a → ok' p' a) → outcome u ok mo p r → outcome u ok' mo p r.
Proof.
  intros Hok. unfold outcome. destruct r as [[[a|] p']| |]; auto.
  intros (? & ? & ?). by split_and!; auto.
Qed.

Lemma on_some_spec {A B} u (okA : cxpr_expr_parser → A → Prop)
    (okB : cxpr_expr_parser → B → Prop) mo1 mo2 p m k :
  pre src p → outcome u okA mo1 p m →
  (∀ a p', pre src p' → moved mo1 p p' → okA p' a → outcome u okB mo2 p' (k a p')) →
  outcome u okB (join mo1 mo2) p (on_some m k).
Proof.
  intros Hp Hm Hk. unfold on_some. destruct m as [[[a|] p']| |]; simpl in *; auto.
  destruct Hm as (Hp' & Hmv & Hok). eapply outcome_after; eauto.
Qed.

Lemma need_operand_spec {A B} u (okA : cxpr_expr_parser → A → Prop)
    (okB : cxpr_expr_parser → B → Prop) mo1 mo2 p operand k :
  pre src p → outcome u okA mo1 p (operand p) →
  (∀ a p', pre src p' → moved mo1 p p' → okA p' a → outcome u okB mo2 p' (k a p')) →
  outcome u okB (join mo1 mo2) p (need_operand operand k p).
Proof.
  intros Hp Hm Hk. eapply on_some_spec; eauto. intros a p' Hp' Hmv Hok.
  destruct (ps_had_error p') eqn:E; [|by apply Hk].
  split; [done|]. split; [apply moved_refl|done].
Qed.

Lemma after_operand_spec u (ok : cxpr_expr_parser → cxpr_expr_ast → Prop) p operand k :
  pre src p → outcome u ok Strict p (operand p) →
  (∀ a p', pre src p' → moved Strict p p' → ok p' a → outcome u ok Lax p' (k a p')) →
  outcome u ok Strict p (after_operand operand k p).
Proof.
  intros Hp Hm Hk. eapply (on_some_spec u ok ok Strict Lax); eauto. intros a p' Hp' Hmv Hok.
  destruct (ps_had_error p') eqn:E; [|by apply Hk].
  apply outcome_some; auto using moved_refl.
Qed.

Lemma need_token_spec {B} u (ok : cxpr_expr_parser → B → Prop) mo p t msg k :
  pre src p → t ≠ CXPR_TOK_EOF → t ≠ CXPR_TOK_ERROR →
  (∀ p', pre src p' → moved Strict p p' → outcome u ok mo p' (k p')) →
  outcome u ok Strict p (need_token t msg k p).
Proof.
  intros Hp H1 H2 Hk. unfold need_token, cxpr_expr_parser_expect.
  destruct (cxpr_expr_parser_check p t) eqn:E; [|apply outcome_error; auto using moved_refl].
  destruct (advance_ok p Hp) as [Hp' Hmv]; [by eapply check_solid|].
  apply (outcome_after u ok Strict mo p _ _ Hp Hmv). by apply Hk.
Qed.

Lemma need_identifier_spec {B} u (ok : cxpr_expr_parser → B → Prop) mo p msg k :
  pre src p →
  (∀ name p', pre src p' → moved Strict p p' → outcome u ok mo p' (k name p')) →
  outcome u ok Strict p (need_identifier msg k p).
Proof.
  intros Hp Hk. unfold need_identifier.
  destruct (cxpr_expr_parser_check p CXPR_TOK_IDENTIFIER) eqn:E; cbn [negb];
    [|apply outcome_error; auto using moved_refl].
  destruct (advance_ok p Hp) as [Hp' Hmv]; [by eapply check_solid|].
  apply (outcome_after u ok Strict mo p _ _ Hp Hmv). by apply Hk.
Qed.
End outcome.

(** ** Trees with exact spans *)

(** The position record of an offset: one-based line, zero-based column. *)
Definition pos_at (src : string) (i : nat) : cxpr_source_pos :=
  mk_pos i (line_of i src) (col_of i src - 1).

(** A span inside the offsets [L .. H] of the source. *)
Definition span_in (src : string) (L H : nat) (s : option cxpr_source_span) : Prop :=
  match s with
  | None => True
  | Some s => ∃ i j, L ≤ i < j ∧ j ≤ H ∧ s = mk_span (pos_at src i) (pos_at src j)
  end.

Definition node_ok (src : string) (L H : nat) (a : cxpr_expr_ast) : Prop :=
  shape_ok a ∧ span_in src L H (ast_span a).

Definition ast_ok (src : string) (L H : nat) (a : cxpr_expr_ast) : Prop :=
  ast_all (node_ok src L H) a.

Section ast_ok.
Context (src : string).

Lemma span_in_weaken L H L' H' s : L' ≤ L → H ≤ H' → span_in src L H s → span_in src L' H' s.
Proof. destruct s; simpl; [|done]. intros ? ? (i & j & ? & ? & ->). exists i, j. split_and!; auto; lia. Qed.

Lemma ast_ok_weaken L H L' H' a : L' ≤ L → H ≤ H' → ast_ok src L H a → ast_ok src L' H' a.
Proof.
  intros HL HH. induction a as [s d IH] using ast_ind. intros [[Hs Hsp] Hc]%ast_all_inv.
  constructor; [by split; [|eapply span_in_weaken]|]. rewrite Forall_forall in *.
  intros x Hx. by apply IH, Hc.
Qed.

Lemma ast_ok_weaken_list L H L' H' l :
  L' ≤ L → H ≤ H' → Forall (ast_ok src L H) l → Forall (ast_ok src L' H') l.
Proof. intros ? ? Hl. eapply Forall_impl; [exact Hl|]. intros. by eapply ast_ok_weaken. Qed.

(** A node without a span of its own. *)
Lemma new_node_ok L H d :
  shape_ok (new_node d) → Forall (ast_ok src L H) (children d) → ast_ok src L H (new_node d).
Proof. intros. by constructor. Qed.

Lemma set_span_ok L H a i j :
  ast_ok src L H a → L ≤ i < j → j ≤ H →
  ast_ok src L H (cxpr_expr_ast_set_source_span a (mk_span (pos_at src i) (pos_at src j))).
Proof.
  intros [[Hs _] Hc]%ast_all_inv ? ?. destruct a as [s d]. constructor; [|exact Hc].
  split; [exact Hs|]. exists i, j. split_and!; [lia..|done].
Qed.

(** A node that spans from its first to its last child. *)
Lemma inherit_range_ok L h1 l2 H d first last :
  shape_ok (new_node d) → Forall (ast_ok src L H) (children d) →
  ast_ok src L h1 first → ast_ok src l2 H last → h1 ≤ l2 → L ≤ l2 →
  ast_ok src L H (cxpr_expr_ast_inherit_range (new_node d) first last).
Proof.
  intros Hsh Hch Hf Hl H12 HL. unfold cxpr_expr_ast_inherit_range.
  apply ast_all_inv in Hf as [[_ Hf] _], Hl as [[_ Hl] _].
  destruct (ast_span first) as [s|], (ast_span last) as [e|]; try by apply new_node_ok.
  destruct Hf as (i & j & ? & ? & ->), Hl as (i' & j' & ? & ? & ->). simpl.
  constructor; [|done]. split; [done|]. exists i, j'. split_and!; [lia..|done].
Qed.

Lemma binary_ok L h1 l2 H op l r :
  binary_operator op = true → ast_ok src L h1 l → ast_ok src l2 H r →
  h1 ≤ l2 → L ≤ l2 → l2 ≤ H → ast_ok src L H (cxpr_expr_ast_binary_new op l r).
Proof.
  intros. eapply inherit_range_ok; eauto. simpl.
  rewrite !Forall_cons, Forall_nil. split_and!; [|..|done];
    [apply (ast_ok_weaken L h1)|apply (ast_ok_weaken l2 H)]; auto; lia.
Qed.

Lemma index_ok L h1 l2 H t i :
  ast_ok src L h1 t → ast_ok src l2 H i → h1 ≤ l2 → L ≤ l2 → l2 ≤ H →
  ast_ok src L H (cxpr_expr_ast_index_new t i).
Proof.
  intros. eapply inherit_range_ok; eauto; [done|]. simpl.
  rewrite !Forall_cons, Forall_nil. split_and!; [|..|done];
    [apply (ast_ok_weaken L h1)|apply (ast_ok_weaken l2 H)]; auto; lia.
Qed.

Lemma ternary_ok L h1 l2 h2 l3 H c t f :
  ast_ok src L h1 c → ast_ok src l2 h2 t → ast_ok src l3 H f →
  h1 ≤ l2 → l2 ≤ h2 → h2 ≤ l3 → l3 ≤ H → L ≤ l2 →
  ast_ok src L H (cxpr_expr_ast_ternary_new c t f).
Proof.
  intros. apply inherit_range_ok with (h1 := h1) (l2 := l3); auto; try lia; [done|].
  simpl. rewrite !Forall_cons, Forall_nil. split_and!; [| |..|done];
    [apply (ast_ok_weaken L h1)|apply (ast_ok_weaken l2 h2)|apply (ast_ok_weaken l3 H)]; auto; lia.
Qed.

Lemma unary_ok L H op a :
  unary_operator op = true → ast_ok src L H a → ast_ok src L H (cxpr_expr_ast_unary_new op a).
Proof.
  intros Hop Ha. pose proof (ast_all_inv _ _ Ha) as [[_ Hs] _]. unfold cxpr_expr_ast_unary_new.
  assert (Hch : Forall (ast_ok src L H) [a]) by (by rewrite Forall_singleton).
  destruct (ast_span a) eqn:E; [by constructor|by apply new_node_ok].
Qed.

Lemma call_ok L H name args names :
  Forall (ast_ok src L H) args → names_ok names (length args) →
  ast_ok src L H (cxpr_expr_ast_call_named_new name args names).
Proof. intros. by apply new_node_ok. Qed.

Lemma producer_ok L H name args names field :
  Forall (ast_ok src L H) args → names_ok names (length args) →
  ast_ok src L H (cxpr_expr_ast_producer_field_named_new name args names field).
Proof. intros. by apply new_node_ok. Qed.

Lemma names_of_length n names : names_ok names n → length (names_of n names) = n.
Proof. destruct names; simpl; [done|]. intros _. apply length_replicate. Qed.

Lemma rename_expr_length names : length (rename_expr names) = length names.
Proof. by destruct names as [|[]]. Qed.

(** Lowering keeps the arguments and the parallel name array. *)
Lemma lower_ok L H a : ast_ok src L H a → ast_ok src L H (cxpr_parse_lower_window_reduction a).
Proof.
  intros Ha. pose proof (ast_all_inv _ _ Ha) as [[Hs Hsp] Hc].
  unfold cxpr_parse_lower_window_reduction. destruct a as [s d]; simpl in *.
  destruct d; auto. unfold shape_ok in Hs. simpl in Hs, Hc.
  destruct ((name =? "roc")%string && (length args =? 2)); [by constructor|].
  match goal with |- ast_ok _ _ _ (match ?x with _ => _ end) => destruct x; [|done] end.
  destruct args as [|w tail]; [done|].
  destruct w as [ws wd] eqn:Ew; simpl. destruct wd as [| | | | | | | | | | | | |wname wargs wnames| |]; auto.
  destruct ((wname =? "window")%string && _); [|done].
  apply Forall_cons in Hc as [[[Hws _] Hwc]%ast_all_inv Htail]. unfold shape_ok in Hws. simpl in *.
  constructor; simpl; [|by apply Forall_app].
  split; [|done]. unfold shape_ok; simpl.
  rewrite rename_expr_length, !length_app, length_skipn, !names_of_length by done. simpl. lia.
Qed.
End ast_ok.

Lemma ast_all_impl (P Q : cxpr_expr_ast → Prop) a :
  (∀ b, P b → Q b) → ast_all P a → ast_all Q a.
Proof.
  intros HPQ. induction a as [s d IH] using ast_ind. intros [Hs Hc]%ast_all_inv.
  constructor; [by apply HPQ|]. rewrite Forall_forall in *. intros x Hx. by apply IH, Hc.
Qed.

(** A copy has the shape of the original and no spans. *)
Definition bare (a : cxpr_expr_ast) : Prop := shape_ok a ∧ ast_span a = None.

Lemma clone_names_ok n names : names_ok names n → names_ok (clone_names n names) n.
Proof.
  intros H. unfold clone_names. destruct (n =? 0); [done|]. destruct names; simpl in *; [done|].
  apply length_replicate.
Qed.

Lemma bare_node d : shape_ok (new_node d) → Forall (ast_all bare) (children d) → ast_all bare (new_node d).
Proof. intros. by constructor. Qed.

Lemma bare_span a : ast_all bare a → ast_span a = None.
Proof. by intros [[_ ?] _]%ast_all_inv. Qed.

Lemma bare_map (f : cxpr_expr_ast → cxpr_expr_ast) l :
  Forall (λ a, ast_all shape_ok a → ast_all bare (f a)) l → Forall (ast_all shape_ok) l →
  Forall (ast_all bare) (map f l).
Proof. induction 1; intros Hl; [constructor|]. apply Forall_cons in Hl as [? ?]. constructor; auto. Qed.

Lemma inherit_bare d first last :
  ast_all bare first → ast_all bare (new_node d) →
  ast_all bare (cxpr_expr_ast_inherit_range (new_node d) first last).
Proof. intros Hf Hn. unfold cxpr_expr_ast_inherit_range. by rewrite (bare_span _ Hf). Qed.

Lemma clone_bare a : ast_all shape_ok a → ast_all bare (cxpr_expr_parser_clone_ast a).
Proof.
  induction a as [s d IH] using ast_ind. intros [Hs Hc]%ast_all_inv. simpl in Hc.
  pose proof (bare_map cxpr_expr_parser_clone_ast _ IH Hc) as Hcl.
  destruct d as [v|v|v|els|names vals|v|nm|nm|base obj field key|path key|nm args names field key
    |op l r|op x|nm args names|t i|c t f]; simpl; unfold shape_ok in Hs; simpl in Hs, Hcl;
    try (by apply bare_node).
  - apply bare_node; [|done]. unfold shape_ok; simpl. by rewrite length_map.
  - destruct base as [b|].
    + by apply bare_node.
    + destruct Hs as (o & -> & ->). apply bare_node; [by exists o|done].
  - destruct Hs as [Hl ->]. unfold cxpr_expr_ast_new_chain_access.
    rewrite (proj2 (Nat.ltb_ge _ _)) by lia. by apply bare_node.
  - destruct Hs as [Hn ->]. apply bare_node; [|done]. split; [|done].
    rewrite length_map. by apply clone_names_ok.
  - apply Forall_cons in Hcl as [Hl Hr]. apply inherit_bare; [done|]. apply bare_node; [done|by constructor].
  - apply Forall_cons in Hcl as [Hx _]. unfold cxpr_expr_ast_unary_new. rewrite (bare_span _ Hx).
    apply bare_node; [done|by constructor].
  - apply bare_node; [|done]. unfold shape_ok; simpl. rewrite length_map. by apply clone_names_ok.
  - apply Forall_cons in Hcl as [Hl Hr]. apply inherit_bare; [done|]. apply bare_node; [done|by constructor].
  - apply Forall_cons in Hcl as [Hl Hr]. apply inherit_bare; [done|]. apply bare_node; [done|by constructor].
Qed.

Lemma clone_ok src L H L' H' a :
  ast_ok src L H a → ast_ok src L' H' (cxpr_expr_parser_clone_ast a).
Proof.
  intros Ha. apply (ast_all_impl bare).
  - intros b [? Hb]. split; [done|]. by rewrite Hb.
  - apply clone_bare. eapply ast_all_impl; [|exact Ha]. by intros b [? _].
Qed.

(** ** The end of a token *)

Lemma col_from_pos k n src : 1 ≤ k → 1 ≤ col_from k n src.
Proof.
  revert k src; induction n as [|n IH]; intros k [|c s] Hk; simpl; auto.
  destruct (c =? newline)%char; apply IH; lia.
Qed.

(** Walking over [w] characters of the source from an exact position. *)
Lemma token_end_loop_spec src w i :
  i + w ≤ strlen src → token_end_loop w src (pos_at src i) = Done (pos_at src (i + w)).
Proof.
  revert i; induction w as [|w IH]; intros i Hi; simpl; [by rewrite Nat.add_0_r|].
  rewrite (proj2 (Nat.ltb_ge _ _)) by lia.
  replace (if (char_at i src =? newline)%char
           then mk_pos (S i) (S (line_of i src)) 0
           else mk_pos (S i) (line_of i src) (S (col_of i src - 1)))
    with (pos_at src (S i)); [rewrite IH by lia; by rewrite Nat.add_succ_comm|].
  unfold pos_at, col_of. rewrite line_of_S, col_from_S by lia.
  pose proof (col_from_pos 1 i src ltac:(lia)).
  destruct (char_at i src =? newline)%char; f_equal; lia.
Qed.

(** ** The parsing functions *)

Section levels.
Context (src : string).

Definition from (L : nat) (p : cxpr_expr_parser) (a : cxpr_expr_ast) : Prop :=
  ast_ok src L (hi p) a.

(** [f] is correct in every state with fewer than [B] tokens left. *)
Definition spec_lt (B : nat) (f : cxpr_expr_parser → run presult) : Prop :=
  ∀ p, pre src p → tokens_left p < B → outcome src 7 (from (lo p)) Strict p (f p).

(** The state of a loop that has read a tree from [L] on. *)
Definition at_tree (L : nat) (p : cxpr_expr_parser) (a : cxpr_expr_ast) : Prop :=
  pre src p ∧ settled src p ∧ L ≤ hi p ∧ from L p a.

Lemma at_tree_intro p0 p a :
  pre src p0 → pre src p → moved Strict p0 p → from (lo p0) p a → at_tree (lo p0) p a.
Proof. intros Hp0 Hp Hm Ha. destruct (moved_strict src p0 p Hp0 Hm) as (_ & ? & ?). split_and!; (done || lia). Qed.

(** What is known after one more operand, read from [p1]. *)
Lemma at_tree_next L p p1 p2 a :
  at_tree L p a → pre src p1 → moved Lax p p1 → moved Strict p1 p2 →
  hi p ≤ lo p1 ∧ lo p1 ≤ hi p2 ∧ L ≤ lo p1 ∧ tokens_left p2 < tokens_left p1.
Proof.
  intros (Hp & Hset & HL & _) Hp1 Hm1 Hm2.
  destruct (moved_settled src p p1 Hp Hset Hm1) as (? & [? _]).
  destruct (moved_strict src p1 p2 Hp1 Hm2) as (? & ? & _). lia.
Qed.

Lemma at_tree_binary L p p1 p2 op a b :
  at_tree L p a → pre src p1 → pre src p2 → moved Lax p p1 → moved Strict p1 p2 →
  binary_operator op = true → from (lo p1) p2 b →
  at_tree L p2 (cxpr_expr_ast_binary_new op a b).
Proof.
  intros Ht Hp1 Hp2 Hm1 Hm2 Hop Hb.
  destruct (at_tree_next L p p1 p2 a) as (? & ? & ? & _); auto.
  destruct (moved_strict src p1 p2 Hp1 Hm2) as (_ & _ & Hset).
  split; [done|]. split; [done|]. split; [lia|].
  eapply binary_ok; [done|apply Ht|done|lia..].
Qed.

(** Consuming a token and reading an operand behind it. *)
Lemma consume_operand {A B} p p1 (okA : cxpr_expr_parser → A → Prop)
    (okB : cxpr_expr_parser → B → Prop) mo operand k :
  pre src p → moved Strict p p1 → pre src p1 → outcome src 7 okA Strict p1 (operand p1) →
  (∀ a p2, pre src p2 → moved Strict p1 p2 → okA p2 a → outcome src 7 okB Lax p2 (k a p2)) →
  outcome src 7 okB mo p (need_operand operand k p1).
Proof.
  intros Hp Hm1 Hp1 Hop Hk. apply (outcome_weaken src 7 okB); [auto|].
  apply (outcome_after src 7 okB Strict Strict p p1); auto.
  by apply (need_operand_spec src 7 okA okB Strict Lax).
Qed.

Lemma binary_operator_solid tok : binary_operator (tok_type tok) = true → solid tok.
Proof. unfold solid. destruct (tok_type tok); simpl; done. Qed.

Lemma binary_loop_spec B L operand is_op fuel lhs p :
  (∀ t, is_op t = true → binary_operator t = true) → spec_lt B operand →
  at_tree L p lhs → tokens_left p < fuel → tokens_left p ≤ B →
  outcome src 7 (from L) Lax p (binary_loop operand is_op fuel lhs p).
Proof.
  intros Hop Hspec. revert lhs p. induction fuel as [|fuel IH]; intros lhs p Ht Hf HB; [lia|].
  pose proof Ht as (Hp & _ & _ & Ha). cbn [binary_loop].
  destruct (is_op (tok_type (ps_current p))) eqn:E; cbn [negb];
    [|apply outcome_some; auto using moved_refl].
  destruct (advance_ok src p Hp) as [Hp1 Hm1]; [by apply binary_operator_solid, Hop|].
  pose proof (moved_strict src _ _ Hp Hm1) as (Hl1 & _).
  apply (consume_operand p _ (from (lo (cxpr_expr_parser_advance p)))); auto.
  - apply Hspec; [done|lia].
  - intros rhs p2 Hp2 Hm2 Hb.
    pose proof (moved_strict src _ _ Hp1 Hm2) as (Hl2 & _).
    apply IH; [|lia..].
    eapply at_tree_binary; [exact Ht|exact Hp1|done|by apply (moved_lax Strict)|done|by apply Hop|done].
Qed.

Lemma binary_level_spec B operand is_op :
  (∀ t, is_op t = true → binary_operator t = true) → spec_lt B operand →
  spec_lt B (binary_level operand is_op).
Proof.
  intros Hop Hspec p Hp HB. apply after_operand_spec; [done|by apply Hspec|].
  intros a p1 Hp1 Hm1 Ha. pose proof (moved_strict src _ _ Hp Hm1) as (Hl1 & _).
  apply (binary_loop_spec B); [done|done|by apply at_tree_intro|unfold loop_fuel; lia|lia].
Qed.

(** ** Primary expressions *)

Context (B : nat) (parse_expression : cxpr_expr_parser → run presult).
Hypothesis Hexpr : spec_lt B parse_expression.

(** A call behind a consumed token is within the bound. *)
Lemma expr_after p p1 :
  pre src p → tokens_left p < S B → pre src p1 → moved Strict p p1 →
  outcome src 7 (from (lo p1)) Strict p1 (parse_expression p1).
Proof.
  intros Hp HB Hp1 Hm. pose proof (moved_strict src _ _ Hp Hm) as (? & _). apply Hexpr; [done|lia].
Qed.

Definition arg_from (L : nat) (p : cxpr_expr_parser) (an : cxpr_expr_ast * option string) : Prop :=
  from L p (fst an).

Lemma call_argument_spec p :
  pre src p → tokens_left p < B →
  outcome src 7 (arg_from (lo p)) Strict p (cxpr_parse_call_argument parse_expression p).
Proof.
  intros Hp HB. unfold cxpr_parse_call_argument.
  assert (Hval : ∀ name p1, pre src p1 → moved Lax p p1 →
    outcome src 7 (arg_from (lo p)) Strict p1
      (need_operand parse_expression (λ arg p, Done (Some (arg, name), p)) p1)).
  { intros name p1 Hp1 Hm1. pose proof (moved_facts src p p1 Hp Hm1) as (_ & ? & _ & ?).
    apply (need_operand_spec src 7 (from (lo p1)) _ Strict Lax); [done|apply Hexpr; [done|lia]|].
    intros a p2 Hp2 Hm2 Ha. apply outcome_some; auto using moved_refl. simpl.
    eapply ast_ok_weaken; [| |exact Ha]; lia. }
  destruct (_ && _) eqn:E; [|by apply Hval; auto using moved_refl].
  apply andb_prop in E as [E _].
  destruct (advance_ok src p Hp) as [Hp1 Hm1]; [by eapply check_solid|].
  apply (outcome_after src 7 _ Strict Strict p _ _ Hp Hm1).
  eapply need_token_spec; [done..|]. intros p2 Hp2 Hm2. apply Hval; [done|].
  apply (moved_trans Strict Strict _ _ _ Hm1) in Hm2. by apply (moved_lax Strict).
Qed.

(** A list of trees read from [L] on. *)
Definition list_from (L : nat) (p : cxpr_expr_parser) (l : list cxpr_expr_ast) : Prop :=
  Forall (ast_ok src L (hi p)) l.

Lemma list_from_snoc L p p1 p2 l a :
  pre src p → settled src p → pre src p1 → moved Lax p p1 → moved Strict p1 p2 → L ≤ lo p1 →
  list_from L p l → from (lo p1) p2 a → list_from L p2 (l ++ [a]).
Proof.
  intros Hp Hset Hp1 Hm1 Hm2 HL Hl Ha.
  destruct (moved_settled src p p1 Hp Hset Hm1) as (? & [? _]).
  destruct (moved_strict src p1 p2 Hp1 Hm2) as (? & ? & _).
  apply Forall_app; split; [|constructor; [|constructor]].
  - eapply ast_ok_weaken_list; [| |exact Hl]; lia.
  - eapply ast_ok_weaken; [| |exact Ha]; lia.
Qed.

Lemma match_spec p t :
  pre src p → t ≠ CXPR_TOK_EOF → t ≠ CXPR_TOK_ERROR →
  let '(more, p') := cxpr_expr_parser_match p t in
  pre src p' ∧ if more then moved Strict p p' ∧ tok_type (ps_current p) = t else p' = p.
Proof.
  intros Hp H1 H2. unfold cxpr_expr_parser_match.
  destruct (cxpr_expr_parser_check p t) eqn:E; [|done].
  destruct (advance_ok src p Hp) as [Hp1 Hm1]; [by eapply check_solid|].
  split; [done|]. split; [done|]. by apply tok_eqb_eq.
Qed.

Lemma array_loop_spec L fuel els p :
  pre src p → settled src p → L ≤ lo p → list_from L p els → tokens_left p < B →
  tokens_left p < fuel → outcome src 7 (list_from L) Strict p (array_loop parse_expression fuel els p).
Proof.
  revert els p. induction fuel as [|fuel IH]; intros els p Hp Hset HL Hels HB Hf; [lia|].
  cbn [array_loop].
  apply (need_operand_spec src 7 (from (lo p)) _ Strict Lax); [done|by apply Hexpr|].
  intros a p1 Hp1 Hm1 Ha. pose proof (moved_strict src _ _ Hp Hm1) as (Hl1 & ? & Hset1).
  assert (Hels1 : list_from L p1 (els ++ [a])).
  { eapply list_from_snoc; [exact Hp|done|exact Hp|apply moved_refl|done|done|done|done]. }
  pose proof (match_spec p1 CXPR_TOK_COMMA Hp1) as Hmt.
  destruct (cxpr_expr_parser_match p1 CXPR_TOK_COMMA) as [more p2].
  destruct Hmt as [Hp2 Hmt]; [done..|].
  destruct more; [|subst; apply outcome_some; auto using moved_refl].
  destruct Hmt as [Hm2 _]. pose proof (moved_strict src _ _ Hp1 Hm2) as (? & ? & Hset2).
  apply (outcome_weaken src 7 (list_from L)); [auto|].
  apply (outcome_after src 7 _ Strict Strict p1 p2); [done..|].
  destruct (moved_facts src p1 p2) as (_ & _ & _ & ?); [done|by apply (moved_lax Strict)|].
  destruct (moved_settled src p1 p2) as (? & _); [done|done|by apply (moved_lax Strict)|].
  destruct Hset1. apply IH; [done|done|lia| |lia|lia].
  eapply ast_ok_weaken_list; [| |exact Hels1]; lia.
Qed.

(** Closing a bracketed list whose content was read as [x]. *)
Lemma close_spec {A C} (okA : cxpr_expr_parser → A → Prop) (ok : cxpr_expr_parser → C → Prop)
    p t msg (f : A → C) x :
  pre src p → settled src p → t ≠ CXPR_TOK_EOF → t ≠ CXPR_TOK_ERROR → okA p x →
  (∀ p' , okA p x → hi p ≤ hi p' → ok p' (f x)) →
  outcome src 7 ok Strict p (need_token t msg (λ p, Done (Some (f x), p)) p).
Proof.
  intros Hp Hset H1 H2 Hx Hf. apply (need_token_spec src 7 ok Lax); auto.
  intros p' Hp' Hm. apply outcome_some; auto using moved_refl. apply Hf; [done|].
  by apply (moved_settled src p p' Hp Hset), (moved_lax Strict).
Qed.

Lemma array_literal_spec p :
  pre src p → tokens_left p < S B →
  outcome src 7 (from (lo p)) Strict p (cxpr_parse_array_literal parse_expression p).
Proof.
  intros Hp HB. apply (need_token_spec src 7 _ Strict); [done..|].
  intros p1 Hp1 Hm1. pose proof (moved_strict src _ _ Hp Hm1) as (? & ? & Hset1).
  destruct (moved_facts src p p1) as (_ & _ & _ & ?); [done|by apply (moved_lax Strict)|].
  apply (on_some_spec src 7 (list_from (lo p)) _ Lax Strict); [done| |].
  - destruct (cxpr_expr_parser_check p1 CXPR_TOK_RBRACKET).
    { apply outcome_some; auto using moved_refl. constructor. }
    apply (outcome_weaken src 7 (list_from (lo p))); [auto|].
    apply array_loop_spec; [done|done|lia|constructor|lia|unfold loop_fuel; lia].
  - intros els p2 Hp2 Hm2 Hels.
    destruct (moved_settled src p1 p2 Hp1 Hset1 Hm2) as (_ & Hset2).
    apply (close_spec (list_from (lo p))); [done..|]. intros p' _ Hhi.
    apply new_node_ok; [done|]. simpl. eapply ast_ok_weaken_list; [| |exact Hels]; lia.
Qed.

Lemma record_value_spec name L p :
  pre src p → L ≤ lo p → tokens_left p < B →
  outcome src 7 (from L) Lax p (record_value parse_expression name p).
Proof.
  intros Hp HL HB. unfold record_value.
  assert (Hval : ∀ p1, pre src p1 → moved Strict p p1 →
    outcome src 7 (from L) Lax p (parse_expression p1)).
  { intros p1 Hp1 Hm1. destruct (moved_facts src p p1) as (_ & ? & _ & ?);
      [done|by apply (moved_lax Strict)|].
    apply (outcome_weaken src 7 (from L)); [auto|].
    apply (outcome_after src 7 _ Strict Strict p p1); [done..|].
    apply (outcome_weaken src 7 (from (lo p1))); [|apply Hexpr; [done|lia]].
    intros p' a _ _ Ha. eapply ast_ok_weaken; [| |exact Ha]; lia. }
  pose proof (match_spec p CXPR_TOK_ASSIGN Hp) as Hma.
  destruct (cxpr_expr_parser_match p CXPR_TOK_ASSIGN) as [b1 p1].
  destruct Hma as [Hp1 Hma]; [done..|]. destruct b1; [by apply Hval; [|apply Hma]|]. subst p1.
  pose proof (match_spec p CXPR_TOK_COLON Hp) as Hmc.
  destruct (cxpr_expr_parser_match p CXPR_TOK_COLON) as [b2 p2].
  destruct Hmc as [Hp2 Hmc]; [done..|]. destruct b2; [by apply Hval; [|apply Hmc]|]. subst p2.
  apply outcome_some; auto using moved_refl. by apply new_node_ok.
Qed.

Definition field_from (L : nat) (p : cxpr_expr_parser) (f : string * cxpr_expr_ast) : Prop :=
  from L p (snd f).

Lemma record_field_spec p :
  pre src p → tokens_left p < S B →
  outcome src 7 (field_from (lo p)) Strict p (record_field parse_expression p).
Proof.
  intros Hp HB. apply (need_identifier_spec src 7 _ Lax); [done|]. intros name p1 Hp1 Hm1.
  pose proof (moved_strict src _ _ Hp Hm1) as (? & _).
  destruct (moved_facts src p p1) as (_ & _ & _ & ?); [done|by apply (moved_lax Strict)|].
  pose proof (record_value_spec name (lo p) p1 Hp1 ltac:(lia) ltac:(lia)) as Hv.
  destruct (record_value parse_expression name p1) as [[[a|] p2]| |]; simpl run_bind; try done.
  - destruct Hv as (Hp2 & Hm2 & Ha). destruct (ps_had_error p2) eqn:E.
    + split; [done|]. split; [done|exact E].
    + apply outcome_some; done.
  - destruct Hv as (Hp2 & Hm2 & He). pose proof Hp2 as [_ Herr]. specialize (Herr He).
    split; [|by split]. apply with_error_pre; [done|]. destruct Herr as (_ & Hpos).
    split; [by right|exact Hpos].
Qed.

Definition fields_from (L : nat) (p : cxpr_expr_parser)
    (f : list string * list cxpr_expr_ast) : Prop :=
  length (fst f) = length (snd f) ∧ list_from L p (snd f).

Lemma record_loop_spec L fuel names values p :
  pre src p → settled src p → L ≤ lo p → fields_from L p (names, values) →
  tokens_left p < S B → tokens_left p < fuel →
  outcome src 7 (fields_from L) Strict p (record_loop parse_expression fuel names values p).
Proof.
  revert names values p.
  induction fuel as [|fuel IH]; intros names values p Hp Hset HL [Hlen Hvals] HB Hf; [lia|].
  cbn [record_loop]. simpl in Hlen, Hvals.
  apply (on_some_spec src 7 (field_from (lo p)) _ Strict Lax); [done|by apply record_field_spec|].
  intros [name a] p1 Hp1 Hm1 Ha. pose proof (moved_strict src _ _ Hp Hm1) as (Hl1 & ? & Hset1).
  cbn [fst snd].
  assert (Hvals1 : fields_from L p1 (names ++ [name], values ++ [a])).
  { split; [simpl; rewrite !length_app, Hlen; done|].
    eapply list_from_snoc; [exact Hp|done|exact Hp|apply moved_refl|done|done|done|done]. }
  pose proof (match_spec p1 CXPR_TOK_COMMA Hp1) as Hmt.
  destruct (cxpr_expr_parser_match p1 CXPR_TOK_COMMA) as [more p2].
  destruct Hmt as [Hp2 Hmt]; [done..|].
  destruct more; [|subst; apply outcome_some; auto using moved_refl].
  destruct Hmt as [Hm2 _]. pose proof (moved_strict src _ _ Hp1 Hm2) as (? & ? & Hset2).
  apply (outcome_weaken src 7 (fields_from L)); [auto|].
  apply (outcome_after src 7 _ Strict Strict p1 p2); [done..|].
  destruct (moved_facts src p1 p2) as (_ & _ & _ & ?); [done|by apply (moved_lax Strict)|].
  destruct (moved_settled src p1 p2) as (? & _); [done|done|by apply (moved_lax Strict)|].
  destruct Hset1, Hvals1 as [Hlen1 Hvals1].
  apply IH; [done|done|lia| |lia|lia]. split; [done|].
  eapply ast_ok_weaken_list; [| |exact Hvals1]; lia.
Qed.

Lemma record_literal_spec p :
  pre src p → tokens_left p < S B →
  outcome src 7 (from (lo p)) Strict p (cxpr_parse_record_literal parse_expression p).
Proof.
  intros Hp HB. apply (need_token_spec src 7 _ Strict); [done..|].
  intros p1 Hp1 Hm1. pose proof (moved_strict src _ _ Hp Hm1) as (? & ? & Hset1).
  destruct (moved_facts src p p1) as (_ & _ & _ & ?); [done|by apply (moved_lax Strict)|].
  apply (on_some_spec src 7 (fields_from (lo p)) _ Lax Strict); [done| |].
  - destruct (cxpr_expr_parser_check p1 CXPR_TOK_RBRACE).
    { apply outcome_some; auto using moved_refl. split; [done|constructor]. }
    apply (outcome_weaken src 7 (fields_from (lo p))); [auto|].
    apply record_loop_spec; [done|done|lia|split; [done|constructor]|lia|unfold loop_fuel; lia].
  - intros [names values] p2 Hp2 Hm2 [Hlen Hels].
    destruct (moved_settled src p1 p2 Hp1 Hset1 Hm2) as (_ & Hset2).
    apply (close_spec (fields_from (lo p)) _ p2 _ _
             (λ f, cxpr_expr_ast_record_new (fst f) (snd f)) (names, values)); [done..|].
    intros p' _ Hhi. apply new_node_ok; [done|]. simpl. eapply ast_ok_weaken_list; [| |exact Hels]; lia.
Qed.

Definition args_from (L : nat) (p : cxpr_expr_parser)
    (f : list cxpr_expr_ast * list (option string)) : Prop :=
  length (snd f) = length (fst f) ∧ list_from L p (fst f).

Lemma args_from_mono L p p' f : hi p ≤ hi p' → args_from L p f → args_from L p' f.
Proof. intros ? [? Hl]. split; [done|]. eapply ast_ok_weaken_list; [| |exact Hl]; lia. Qed.

Lemma arg_list_close_spec L cap args names p :
  pre src p → settled src p → args_from L p (args, names) → 8 ≤ cap →
  outcome src (8 - length args) (args_from L) Strict p (arg_list_close cap args names p).
Proof.
  intros Hp Hset Hargs Hcap. unfold arg_list_close, cxpr_expr_parser_expect, arg_list_fail.
  destruct (cxpr_expr_parser_check p CXPR_TOK_RPAREN) eqn:E.
  - destruct (advance_ok src p Hp) as [Hp1 Hm1]; [by eapply check_solid|].
    apply outcome_some; [done|done|]. apply (args_from_mono _ p); [|done].
    by apply (moved_settled src p), (moved_lax Strict).
  - destruct (cap <=? length args) eqn:El; [|by apply outcome_error, moved_refl].
    apply Nat.leb_le in El. simpl. lia.
Qed.

Lemma match_comma p p1 :
  pre src p → cxpr_expr_parser_match p CXPR_TOK_COMMA = (true, p1) →
  pre src p1 ∧ moved Strict p p1 ∧ commas p1 + 1 ≤ commas p.
Proof.
  intros Hp Hmt. pose proof (match_spec p CXPR_TOK_COMMA Hp) as Hs. rewrite Hmt in Hs.
  destruct Hs as (Hp1 & Hm & Ht); [done..|]. split; [done|]. split; [done|].
  unfold cxpr_expr_parser_match in Hmt. destruct (cxpr_expr_parser_check p CXPR_TOK_COMMA); [|done].
  injection Hmt as <-. destruct Hp as [(k & m & Hcur) _]. unfold commas. rewrite toks_advance.
  assert (Hadv : adv (toks p) (ts_advance (toks p))).
  { split; [|done]. unfold solid; simpl. by rewrite Ht. }
  pose proof (adv_commas src _ _ k m Hcur Hadv) as Hc.
  unfold is_comma in Hc. simpl in Hc. rewrite Ht in Hc. exact Hc.
Qed.

Lemma arg_list_loop_spec L fuel cap args names p :
  pre src p → settled src p → L ≤ lo p → args_from L p (args, names) →
  1 ≤ length args ≤ cap → 8 ≤ cap → tokens_left p ≤ B → tokens_left p < fuel →
  outcome src (8 - length args) (args_from L) Strict p
    (arg_list_loop parse_expression fuel cap args names p).
Proof.
  revert cap args names p. induction fuel as [|fuel IH];
    intros cap args names p Hp Hset HL Hargs Hn Hcap HB Hf; [lia|]. cbn [arg_list_loop].
  destruct (cxpr_expr_parser_match p CXPR_TOK_COMMA) as [more p1] eqn:Em.
  destruct more; cbn [negb]; cycle 1.
  { unfold cxpr_expr_parser_match in Em. destruct (cxpr_expr_parser_check _ _); [done|].
    injection Em as <-. by apply arg_list_close_spec. }
  destruct (match_comma p p1 Hp Em) as (Hp1 & Hm1 & Hc1).
  pose proof (moved_strict src _ _ Hp Hm1) as (Hl1 & _).
  destruct (moved_facts src p p1) as (_ & _ & _ & Hlo1); [done|by apply (moved_lax Strict)|].
  set (cap' := if cap <=? length args then cap * 2 else cap).
  assert (Hcap' : length args < cap' ∧ 8 ≤ cap').
  { unfold cap'. destruct (cap <=? length args) eqn:E;
      [apply Nat.leb_le in E|apply Nat.leb_gt in E]; lia. }
  pose proof (call_argument_spec p1 Hp1 ltac:(lia)) as Ha.
  destruct (cxpr_parse_call_argument parse_expression p1) as [[[[a name]|] p2]| |]; simpl run_bind;
    [|..|done| ]; cbv beta iota.
  - destruct Ha as (Hp2 & Hm2 & Ha). pose proof (moved_strict src _ _ Hp1 Hm2) as (Hl2 & ? & Hset2).
    destruct (moved_facts src p1 p2) as (_ & _ & Hc2 & ?); [done|by apply (moved_lax Strict)|].
    apply (outcome_after_u src (8 - length (args ++ [a])) _ _ Strict Strict p p2).
    { by apply (moved_trans Strict Strict _ p1). }
    { rewrite length_app. simpl. lia. }
    apply IH; [done|done|lia| |rewrite ?length_app; simpl; lia..].
    destruct Hargs as [Hlen Hl]. simpl in Hlen, Hl.
    split; [simpl; rewrite !length_app, Hlen; done|].
    eapply (list_from_snoc L p p1 p2); [done|done|done|by apply (moved_lax Strict)|done|lia|done|exact Ha].
  - destruct Ha as (Hp2 & Hm2 & He). unfold arg_list_fail.
    rewrite (proj2 (Nat.leb_gt _ _)) by lia. split; [done|]. split; [|done].
    apply (moved_lax Strict). by apply (moved_trans Strict Lax _ p1).
  - simpl in Ha |- *. lia.
Qed.

Lemma arg_list_spec p :
  pre src p → tokens_left p < S B → tok_type (ps_current p) = CXPR_TOK_LPAREN →
  outcome src 7 (args_from (lo p)) Strict p (cxpr_expr_parser_parse_arg_list parse_expression p).
Proof.
  intros Hp HB Ht. unfold cxpr_expr_parser_parse_arg_list.
  destruct (advance_ok src p Hp) as [Hp1 Hm1]; [unfold solid; by rewrite Ht|].
  set (p1 := cxpr_expr_parser_advance p) in *.
  pose proof (moved_strict src _ _ Hp Hm1) as (Hl1 & Hlo1 & Hset1).
  destruct (moved_facts src p p1) as (_ & _ & ? & ?); [done|by apply (moved_lax Strict)|].
  apply (outcome_after src 7 _ Strict Strict p p1); [done..|].
  destruct (cxpr_expr_parser_check p1 CXPR_TOK_RPAREN).
  { apply (outcome_after_u src 8 7 _ Lax Strict p1 p1); [apply moved_refl|lia|].
    apply arg_list_close_spec; [done|done| |lia]. split; [done|constructor]. }
  pose proof (call_argument_spec p1 Hp1 ltac:(lia)) as Ha.
  destruct (cxpr_parse_call_argument parse_expression p1) as [[[[a name]|] p2]| |];
    cbn [run_bind]; [|done|done|done].
  destruct Ha as (Hp2 & Hm2 & Ha). pose proof (moved_strict src _ _ Hp1 Hm2) as (Hl2 & ? & Hset2).
  destruct (moved_facts src p1 p2) as (_ & _ & ? & ?); [done|by apply (moved_lax Strict)|].
  apply (outcome_after src 7 _ Strict Strict p1 p2); [done..|].
  apply (arg_list_loop_spec _ _ 8 [a] [name]); [done|done|lia| |simpl; unfold loop_fuel; lia..].
  split; [done|]. constructor; [|constructor]. eapply ast_ok_weaken; [| |exact Ha]; lia.
Qed.

Definition segments_ok (n : nat) (_ : cxpr_expr_parser) (l : list string) : Prop := n ≤ length l.

Lemma dotted_loop_spec msg fuel segs p n :
  pre src p → tokens_left p < fuel → n ≤ length segs →
  outcome src 7 (segments_ok (if cxpr_expr_parser_check p CXPR_TOK_DOT then S n else n)) Lax p
    (dotted_loop msg fuel segs p).
Proof.
  revert segs p n. induction fuel as [|fuel IH]; intros segs p n Hp Hf Hn; [lia|].
  cbn [dotted_loop].
  destruct (cxpr_expr_parser_check p CXPR_TOK_DOT) eqn:E; cbn [negb];
    [|by apply outcome_some; auto using moved_refl].
  destruct (advance_ok src p Hp) as [Hp1 Hm1]; [by eapply check_solid|].
  pose proof (moved_strict src _ _ Hp Hm1) as (Hl1 & _).
  apply (outcome_weaken src 7 (segments_ok (S n))); [auto|].
  apply (outcome_after src 7 _ Strict Strict p _ _ Hp Hm1).
  apply (need_identifier_spec src 7 _ Lax); [done|]. intros name p2 Hp2 Hm2.
  pose proof (moved_strict src _ _ Hp1 Hm2) as (Hl2 & _).
  assert (Hlen : S n ≤ length (segs ++ [name])) by (rewrite length_app; simpl; lia).
  specialize (IH (segs ++ [name]) p2 (S n) Hp2 ltac:(lia) Hlen).
  destruct (dotted_loop msg fuel (segs ++ [name]) p2) as [[[l|] p3]| |]; try done.
  destruct IH as (? & ? & Hl). split; [done|]. split; [done|]. unfold segments_ok in *.
  destruct (cxpr_expr_parser_check p2 CXPR_TOK_DOT); lia.
Qed.

Lemma parse_call_spec lower name L p :
  (∀ H a, ast_ok src L H a → ast_ok src L H (lower a)) → L ≤ lo p →
  pre src p → tokens_left p < S B → cxpr_expr_parser_check p CXPR_TOK_LPAREN = true →
  outcome src 7 (from L) Strict p (parse_call parse_expression lower name p).
Proof.
  intros Hlow HL Hp HB Hc. apply tok_eqb_eq in Hc.
  apply (on_some_spec src 7 (args_from (lo p)) _ Strict Lax); [done|by apply arg_list_spec|].
  intros [args names] p1 Hp1 Hm1 [Hlen Hargs]. simpl in Hlen, Hargs.
  pose proof (moved_strict src _ _ Hp Hm1) as (Hl1 & Hlo1 & Hset1).
  assert (HargsL : ∀ H, hi p1 ≤ H → Forall (ast_ok src L H) args).
  { intros H HH. eapply ast_ok_weaken_list; [| |exact Hargs]; lia. }
  destruct (cxpr_expr_parser_check p1 CXPR_TOK_DOT) eqn:E.
  - destruct (advance_ok src p1 Hp1) as [Hp2 Hm2]; [by eapply check_solid|].
    apply (outcome_weaken src 7 (from L)); [auto|].
    apply (outcome_after src 7 _ Strict Strict p1 _ _ Hp1 Hm2).
    apply (need_identifier_spec src 7 _ Lax); [done|]. intros field p3 Hp3 Hm3.
    apply outcome_some; auto using moved_refl. apply producer_ok; [|done]. apply HargsL.
    apply (moved_settled src p1 p3 Hp1 Hset1), (moved_lax Strict).
    by apply (moved_trans Strict Strict _ _ _ Hm2).
  - apply outcome_some; auto using moved_refl. apply Hlow, call_ok; [by apply HargsL|done].
Qed.

Lemma leaf_ok L H d : children d = [] → shape_ok (new_node d) → ast_ok src L H (new_node d).
Proof. intros Hd Hs. apply new_node_ok; [done|]. by rewrite Hd. Qed.

Lemma primary_variable_spec p :
  pre src p → tok_type (ps_current p) = CXPR_TOK_VARIABLE →
  outcome src 7 (from (lo p)) Strict p (primary_variable p).
Proof.
  intros Hp Ht. unfold primary_variable.
  destruct (advance_ok src p Hp) as [Hp1 Hm1]; [unfold solid; by rewrite Ht|].
  destruct (cxpr_expr_parser_check _ CXPR_TOK_DOT) eqn:E;
    [|apply outcome_some; [done|done|by apply leaf_ok]].
  apply (outcome_after src 7 _ Strict Lax p _ _ Hp Hm1).
  apply (on_some_spec src 7 (segments_ok 0) _ Lax Lax); [done| |].
  - eapply (outcome_mono src 7); [|apply (dotted_loop_spec _ _ _ _ 0); [done|unfold loop_fuel; lia|lia]].
    intros p' l Hl. unfold segments_ok in *. lia.
  - intros segs p2 Hp2 Hm2 _. apply outcome_some; auto using moved_refl. by apply leaf_ok.
Qed.

Lemma chain_access_ok L H segs :
  3 ≤ length segs →
  ∃ a, cxpr_expr_ast_new_chain_access segs = Some a ∧ ast_ok src L H a.
Proof.
  intros Hl. unfold cxpr_expr_ast_new_chain_access. rewrite (proj2 (Nat.ltb_ge _ _)) by lia.
  eexists. split; [done|]. by apply leaf_ok.
Qed.

Lemma primary_identifier_spec p :
  pre src p → tokens_left p < S B → tok_type (ps_current p) = CXPR_TOK_IDENTIFIER →
  outcome src 7 (from (lo p)) Strict p (primary_identifier parse_expression p).
Proof.
  intros Hp HB Ht. unfold primary_identifier.
  destruct (advance_ok src p Hp) as [Hp1 Hm1]; [unfold solid; by rewrite Ht|].
  set (p1 := cxpr_expr_parser_advance p) in *.
  pose proof (moved_strict src _ _ Hp Hm1) as (Hl1 & _).
  destruct (moved_facts src p p1) as (_ & _ & _ & Hlo1); [done|by apply (moved_lax Strict)|].
  destruct (cxpr_expr_parser_check p1 CXPR_TOK_LPAREN) eqn:E1.
  { apply (outcome_after src 7 _ Strict Strict p p1); [done..|].
    apply parse_call_spec; [intros; by apply lower_ok|lia|done|lia|done]. }
  destruct (cxpr_expr_parser_check p1 CXPR_TOK_DOT) eqn:E2;
    [|apply outcome_some; [done|done|by apply leaf_ok]].
  apply (outcome_after src 7 _ Strict Lax p p1); [done..|].
  apply (on_some_spec src 7 (segments_ok 2) _ Lax Lax); [done| |].
  - eapply (outcome_mono src 7);
      [|apply (dotted_loop_spec _ _ _ _ 1); [done|unfold loop_fuel; lia|simpl; lia]].
    intros p' l Hl. by rewrite E2 in Hl.
  - intros segs p2 Hp2 Hm2 Hsegs. unfold segments_ok in Hsegs.
    destruct (moved_facts src p1 p2) as (_ & ? & _ & ?); [done..|].
    destruct (cxpr_expr_parser_check p2 CXPR_TOK_LPAREN) eqn:E3.
    { apply (outcome_weaken src 7 (from (lo p))); [auto|].
      apply parse_call_spec; [done|lia|done|lia|done]. }
    destruct segs as [|s1 [|s2 [|s3 segs]]]; simpl in Hsegs; try lia.
    + apply outcome_some; auto using moved_refl. apply leaf_ok; [done|]. by exists s1.
    + destruct (chain_access_ok (lo p) (hi p2) (s1 :: s2 :: s3 :: segs)) as (a & -> & Ha); [simpl; lia|].
      by apply outcome_some; auto using moved_refl.
Qed.

Lemma primary_paren_spec L p :
  pre src p → settled src p → L ≤ lo p → tokens_left p < B →
  outcome src 7 (from L) Strict p (primary_paren parse_expression p).
Proof.
  intros Hp Hset HL HB. apply (need_operand_spec src 7 (from (lo p)) _ Strict Lax); [done|by apply Hexpr|].
  intros a p1 Hp1 Hm1 Ha. pose proof (moved_strict src _ _ Hp Hm1) as (Hl1 & ? & Hset1).
  apply (outcome_weaken src 7 (from L)); [auto|].
  apply (need_token_spec src 7 _ Lax); [done..|]. intros p2 Hp2 Hm2.
  destruct (moved_settled src p1 p2) as (? & Hset2); [done|done|by apply (moved_lax Strict)|].
  assert (HaL : ∀ H, hi p1 ≤ H → ast_ok src L H a) by (intros H' HH; eapply ast_ok_weaken; [| |exact Ha]; lia).
  destruct (cxpr_expr_parser_check p2 CXPR_TOK_DOT) eqn:E;
    [|apply outcome_some; [done|apply moved_refl|by apply HaL]].
  destruct (advance_ok src p2 Hp2) as [Hp3 Hm3]; [by eapply check_solid|].
  apply (outcome_weaken src 7 (from L)); [auto|].
  apply (outcome_after src 7 _ Strict Strict p2 _ _ Hp2 Hm3).
  apply (need_identifier_spec src 7 _ Lax); [done|]. intros field p4 Hp4 Hm4.
  assert (hi p2 ≤ hi p4).
  { apply (moved_settled src p2 p4 Hp2 Hset2), (moved_lax Strict).
    by apply (moved_trans Strict Strict _ _ _ Hm3). }
  apply outcome_some; auto using moved_refl. apply new_node_ok; [done|].
  constructor; [apply HaL; lia|constructor].
Qed.

Lemma primary_node_spec p :
  pre src p → tokens_left p < S B →
  outcome src 7 (from (lo p)) Strict p (primary_node parse_expression p).
Proof.
  intros Hp HB. unfold primary_node.
  assert (Hleaf : ∀ d, solid (ps_current p) → children d = [] → shape_ok (new_node d) →
    outcome src 7 (from (lo p)) Strict p (Done (Some (new_node d), cxpr_expr_parser_advance p))).
  { intros d Hs Hd Hsh. destruct (advance_ok src p Hp Hs) as [Hp1 Hm1].
    apply outcome_some; [done|done|by apply leaf_ok]. }
  destruct (tok_type (ps_current p)) eqn:Et;
    try (by apply outcome_error; auto using moved_refl);
    try (by apply Hleaf; [unfold solid; rewrite Et| |]).
  - destruct (tok_is_int64 _); by apply Hleaf; [unfold solid; rewrite Et| |].
  - by apply primary_identifier_spec.
  - by apply primary_variable_spec.
  - destruct (advance_ok src p Hp) as [Hp1 Hm1]; [unfold solid; by rewrite Et|].
    pose proof (moved_strict src _ _ Hp Hm1) as (? & _ & ?).
    destruct (moved_facts src p (cxpr_expr_parser_advance p)) as (_ & _ & _ & ?);
      [done|by apply (moved_lax Strict)|].
    apply (outcome_after src 7 _ Strict Strict p _ _ Hp Hm1).
    apply primary_paren_spec; [done|done|lia|lia].
  - by apply array_literal_spec.
  - by apply record_literal_spec.
Qed.

Lemma index_loop_spec L fuel node p :
  at_tree L p node → tokens_left p ≤ B → tokens_left p < fuel →
  outcome src 7 (from L) Lax p (index_loop parse_expression fuel node p).
Proof.
  revert node p. induction fuel as [|fuel IH]; intros node p Ht HB Hf; [lia|]. cbn [index_loop].
  pose proof Ht as (Hp & Hset & HL & Ha).
  pose proof (match_spec p CXPR_TOK_LBRACKET Hp) as Hmt.
  destruct (cxpr_expr_parser_match p CXPR_TOK_LBRACKET) as [more p1].
  destruct Hmt as [Hp1 Hmt]; [done..|].
  destruct more; cbn [negb]; [|subst; apply outcome_some; auto using moved_refl].
  destruct Hmt as [Hm1 _]. pose proof (moved_strict src _ _ Hp Hm1) as (? & _).
  apply (consume_operand p p1 (from (lo p1))); [done..|apply Hexpr; [done|lia]|].
  intros i p2 Hp2 Hm2 Hi.
  destruct (at_tree_next L p p1 p2 node) as (? & ? & ? & ?); [done|done|by apply (moved_lax Strict)|done|].
  destruct (moved_strict src _ _ Hp1 Hm2) as (_ & _ & Hset2).
  apply (outcome_weaken src 7 (from L)); [auto|].
  apply (need_token_spec src 7 _ Lax); [done..|]. intros p3 Hp3 Hm3.
  pose proof (moved_strict src _ _ Hp2 Hm3) as (? & _ & Hset3).
  destruct (moved_settled src p2 p3) as (? & _); [done|done|by apply (moved_lax Strict)|].
  apply IH; [|lia|lia]. split; [done|]. split; [done|]. split; [lia|].
  apply (index_ok src L (hi p) (lo p1)); [done| |lia..].
  eapply ast_ok_weaken; [| |exact Hi]; lia.
Qed.

(** The end computed for the previous token is exact. *)
Lemma token_end_spec p p1 :
  pre src p → pre src p1 → moved Strict p p1 →
  cxpr_expr_parser_token_end p1 (ps_previous p1) = Done (pos_at src (hi p1)).
Proof.
  intros [(k & m & Hcur) _] [(k1 & m1 & _ & Hlx & _) _] Hm.
  destruct (tc_prev src _ _ k m Hcur Hm) as (_ & kp & mp & Ht & Hs & _ & _ & Hmp).
  destruct (token_at_solid _ _ _ _ Ht Hs) as (Hk & He & Hli & Hco). simpl in *.
  unfold cxpr_expr_parser_token_end. rewrite Hlx. simpl.
  rewrite Hk, Hli, Hco. unfold hi. rewrite <- Hk. unfold tok_end in *. rewrite Hk in *.
  apply (token_end_loop_spec src (token_width (ps_previous p1)) kp). lia.
Qed.

Lemma primary_spec : spec_lt (S B) (cxpr_parse_primary parse_expression).
Proof.
  intros p Hp HB. unfold cxpr_parse_primary.
  apply (on_some_spec src 7 (from (lo p)) _ Strict Lax); [done|by apply primary_node_spec|].
  intros a p1 Hp1 Hm1 Ha. pose proof (moved_strict src _ _ Hp Hm1) as (Hl1 & _).
  apply (on_some_spec src 7 (from (lo p)) _ Lax Lax); [done| |].
  - apply index_loop_spec; [by apply at_tree_intro|lia|unfold loop_fuel; lia].
  - intros a2 p2 Hp2 Hm2 Ha2.
    assert (Hm02 : moved Strict p p2) by by apply (moved_trans Strict Lax _ p1).
    rewrite (token_end_spec p p2) by done. cbn [run_bind].
    apply outcome_some; auto using moved_refl.
    pose proof Hp as [(k & m & Hm & _ & Ht) _].
    destruct (token_at_exact _ _ _ _ Ht Hm) as (? & Hli & Hco). simpl in Hli, Hco.
    rewrite Hli, Hco. destruct (moved_strict src _ _ Hp Hm02) as (_ & ? & _).
    apply (set_span_ok src (lo p) (hi p2) a2 (lo p) (hi p2)); [done|lia|lia].
Qed.

(** ** Operators *)

(** An optional operator behind a parsed left side. *)
Lemma one_binary_spec L p lhs op operand :
  at_tree L p lhs → solid (ps_current p) → binary_operator op = true →
  (∀ p1, pre src p1 → moved Strict p p1 → outcome src 7 (from (lo p1)) Strict p1 (operand p1)) →
  outcome src 7 (from L) Lax p
    (need_operand operand (λ rhs p, Done (Some (cxpr_expr_ast_binary_new op lhs rhs), p))
       (cxpr_expr_parser_advance p)).
Proof.
  intros Ht Hs Hop Hspec. pose proof Ht as (Hp & _).
  destruct (advance_ok src p Hp Hs) as [Hp1 Hm1].
  apply (consume_operand p _ (from (lo (cxpr_expr_parser_advance p)))); [done..|by apply Hspec|].
  intros rhs p2 Hp2 Hm2 Hr. apply outcome_some; auto using moved_refl.
  by eapply at_tree_binary; [exact Ht|exact Hp1| |apply (moved_lax Strict)| | |].
Qed.

Lemma one_unary_spec mo p op operand :
  pre src p → solid (ps_current p) → unary_operator op = true →
  (∀ p1, pre src p1 → moved Strict p p1 → outcome src 7 (from (lo p1)) Strict p1 (operand p1)) →
  outcome src 7 (from (lo p)) mo p
    (need_operand operand (λ a p, Done (Some (cxpr_expr_ast_unary_new op a), p))
       (cxpr_expr_parser_advance p)).
Proof.
  intros Hp Hs Hop Hspec. destruct (advance_ok src p Hp Hs) as [Hp1 Hm1].
  destruct (moved_facts src p (cxpr_expr_parser_advance p)) as (_ & _ & _ & ?);
    [done|by apply (moved_lax Strict)|].
  apply (consume_operand p _ (from (lo (cxpr_expr_parser_advance p)))); [done..|by apply Hspec|].
  intros a p2 Hp2 Hm2 Ha. apply outcome_some; auto using moved_refl.
  apply unary_ok; [done|]. eapply ast_ok_weaken; [| |exact Ha]; lia.
Qed.

Lemma power_spec n parse_unary :
  (∀ p1, pre src p1 → tokens_left p1 < n → tokens_left p1 < S B →
     outcome src 7 (from (lo p1)) Strict p1 (parse_unary p1)) →
  ∀ p, pre src p → tokens_left p ≤ n → tokens_left p < S B →
  outcome src 7 (from (lo p)) Strict p (cxpr_parse_power parse_expression parse_unary p).
Proof.
  intros Hun p Hp Hn HB. apply after_operand_spec; [done|by apply primary_spec|].
  intros a p1 Hp1 Hm1 Ha. pose proof (moved_strict src _ _ Hp Hm1) as (Hl1 & _).
  destruct (cxpr_expr_parser_check p1 CXPR_TOK_POWER) eqn:E;
    [|apply outcome_some; auto using moved_refl].
  apply one_binary_spec; [by apply at_tree_intro|by eapply check_solid|done|].
  intros p2 Hp2 Hm2. pose proof (moved_strict src _ _ Hp1 Hm2) as (? & _). apply Hun; [done|lia|lia].
Qed.

Lemma unary_fuel_spec fuel p :
  pre src p → tokens_left p < fuel → tokens_left p < S B →
  outcome src 7 (from (lo p)) Strict p (parse_unary_fuel parse_expression fuel p).
Proof.
  revert p. induction fuel as [|fuel IH]; intros p Hp Hf HB; [lia|]. cbn [parse_unary_fuel].
  destruct (cxpr_expr_parser_check p CXPR_TOK_MINUS) eqn:E1.
  { apply one_unary_spec; [done|by eapply check_solid|done|]. intros p1 Hp1 Hm1.
    pose proof (moved_strict src _ _ Hp Hm1) as (? & _). apply IH; [done|lia|lia]. }
  destruct (cxpr_expr_parser_check p CXPR_TOK_PLUS) eqn:E2.
  { destruct (advance_ok src p Hp) as [Hp1 Hm1]; [by eapply check_solid|].
    pose proof (moved_strict src _ _ Hp Hm1) as (? & _).
    destruct (moved_facts src p (cxpr_expr_parser_advance p)) as (_ & _ & _ & ?);
      [done|by apply (moved_lax Strict)|].
    apply (outcome_after src 7 _ Strict Strict p _ _ Hp Hm1).
    eapply (outcome_mono src 7); [|apply IH; [done|lia|lia]].
    intros p' a Ha. eapply ast_ok_weaken; [| |exact Ha]; lia. }
  apply (power_spec fuel); [|done|lia|done]. intros. by apply IH.
Qed.

Lemma unary_spec : spec_lt (S B) (cxpr_parse_unary parse_expression).
Proof. intros p Hp HB. apply unary_fuel_spec; [done|unfold loop_fuel; lia|done]. Qed.

Lemma term_spec : spec_lt (S B) (cxpr_parse_term parse_expression).
Proof. apply binary_level_spec; [by intros []|apply unary_spec]. Qed.

Lemma arithmetic_spec : spec_lt (S B) (cxpr_parse_arithmetic parse_expression).
Proof. apply binary_level_spec; [by intros []|apply term_spec]. Qed.

Lemma set_membership_spec L p p1 lhs negated :
  at_tree L p lhs → pre src p1 → moved Strict p p1 → tokens_left p < S B →
  outcome src 7 (from L) Lax p (cxpr_parse_set_membership parse_expression p1 lhs negated).
Proof.
  intros Ht Hp1 Hm1 HB. pose proof Ht as (Hp & _ & _ & Ha). unfold cxpr_parse_set_membership.
  pose proof (moved_strict src _ _ Hp Hm1) as (? & _).
  destruct (negb _); [by apply outcome_error, (moved_lax Strict)|].
  destruct (tok_eqb _ _); [by apply outcome_error, (moved_lax Strict)|].
  apply (consume_operand p p1 (from (lo p1))); [done..|apply arithmetic_spec; [done|lia]|].
  intros arr p2 Hp2 Hm2 Harr.
  destruct (at_tree_next L p p1 p2 lhs) as (? & ? & ? & _);
    [done|done|by apply (moved_lax Strict)|done|].
  assert (Hcall : ast_ok src L (hi p2) (cxpr_expr_ast_call_new "contains" [lhs; arr])).
  { apply call_ok; [|done]. rewrite !Forall_cons, Forall_nil. split_and!; [..|done].
    - eapply ast_ok_weaken; [| |exact Ha]; lia.
    - eapply ast_ok_weaken; [| |exact Harr]; lia. }
  apply outcome_some; auto using moved_refl. destruct negated; [by apply unary_ok|done].
Qed.

Lemma relational_binary t :
  cxpr_expr_parser_is_relational_token t = true → binary_operator t = true.
Proof. by destruct t. Qed.

Lemma relational_loop_spec L subject first_op fuel lhs rhs p :
  at_tree L p lhs → (∃ L' H', ast_ok src L' H' rhs) →
  (∀ s, subject = Some s → ∃ L' H', ast_ok src L' H' s) →
  tokens_left p < fuel → tokens_left p < S B →
  outcome src 7 (from L) Lax p (relational_loop parse_expression subject first_op fuel lhs rhs p).
Proof.
  revert lhs rhs p. induction fuel as [|fuel IH]; intros lhs rhs p Ht Hrhs Hsub Hf HB; [lia|].
  cbn [relational_loop]. pose proof Ht as (Hp & _ & _ & Ha).
  destruct (cxpr_expr_parser_is_relational_token _) eqn:E; cbn [negb];
    [|apply outcome_some; auto using moved_refl].
  apply relational_binary in E.
  destruct (advance_ok src p Hp) as [Hp1 Hm1]; [by apply binary_operator_solid|].
  set (p1 := cxpr_expr_parser_advance p) in *.
  pose proof (moved_strict src _ _ Hp Hm1) as (? & _).
  apply (consume_operand p p1 (from (lo p1))); [done..|apply arithmetic_spec; [done|lia]|].
  intros r p2 Hp2 Hm2 Hr. pose proof (moved_strict src _ _ Hp1 Hm2) as (? & ? & Hset2).
  destruct (at_tree_next L p p1 p2 lhs) as (? & ? & ? & _);
    [done|done|by apply (moved_lax Strict)|done|].
  apply IH; [|by eexists _, _|done|lia|lia].
  eapply at_tree_binary; [exact Ht|exact Hp1|done|by apply (moved_lax Strict)|done|done|].
  apply (binary_ok src (lo p1) (lo p1) (lo p1)); [done| |done|lia..].
  destruct subject as [s|]; [destruct (cxpr_expr_parser_relational_ops_cross_bounds _ _)|].
  - destruct (Hsub s eq_refl) as (L' & H' & Hs). by eapply clone_ok.
  - destruct Hrhs as (L' & H' & Hs). by eapply clone_ok.
  - destruct Hrhs as (L' & H' & Hs). by eapply clone_ok.
Qed.

Lemma relational_spec : spec_lt (S B) (cxpr_parse_relational parse_expression).
Proof.
  intros p Hp HB. apply after_operand_spec; [done|by apply arithmetic_spec|].
  intros a p1 Hp1 Hm1 Ha. pose proof (moved_strict src _ _ Hp Hm1) as (Hl1 & _).
  assert (Ht : at_tree (lo p) p1 a) by by apply at_tree_intro.
  cbv beta zeta.
  destruct (cxpr_expr_parser_is_relational_token (tok_type (ps_current p1))) eqn:E.
  { apply relational_binary in E.
    destruct (advance_ok src p1 Hp1) as [Hp2 Hm2]; [by apply binary_operator_solid|].
    set (p2 := cxpr_expr_parser_advance p1) in *.
    pose proof (moved_strict src _ _ Hp1 Hm2) as (? & _).
    apply (consume_operand p1 p2 (from (lo p2))); [done..|apply arithmetic_spec; [done|lia]|].
    intros r p3 Hp3 Hm3 Hr. pose proof (moved_strict src _ _ Hp2 Hm3) as (? & _).
    apply relational_loop_spec; [|by eexists _, _| |unfold loop_fuel; lia|lia].
    - by eapply at_tree_binary; [exact Ht|exact Hp2| |apply (moved_lax Strict)| | |].
    - intros s Hs. destruct (_ && _); [|done]. injection Hs as <-.
      exists (lo p), (hi p1). by eapply clone_ok. }
  set (neg := cxpr_expr_parser_check p1 CXPR_TOK_NOT).
  destruct ((neg && _) || _) eqn:Ein; [|apply outcome_some; auto using moved_refl].
  destruct neg eqn:En; unfold neg in En.
  - destruct (advance_ok src p1 Hp1) as [Hp2 Hm2]; [by eapply check_solid|].
    assert (Hin : tok_type (ps_current (cxpr_expr_parser_advance p1)) = CXPR_TOK_IN).
    { apply orb_prop in Ein as [Ein|Ein]; cycle 1.
      { apply tok_eqb_eq in En, Ein. congruence. }
      apply tok_eqb_eq in Ein. unfold cxpr_expr_parser_peek_next, cxpr_lexer_peek in Ein.
      unfold cxpr_expr_parser_advance. destruct (cxpr_lexer_next (ps_lexer p1)) as [tok lx].
      simpl in Ein. by destruct (tok_eqb (tok_type tok) CXPR_TOK_ERROR). }
    destruct (advance_ok src _ Hp2) as [Hp3 Hm3]; [unfold solid; by rewrite Hin|].
    apply set_membership_spec; [done|done| |lia].
    by apply (moved_trans Strict Strict _ (cxpr_expr_parser_advance p1)).
  - simpl in Ein.
    destruct (advance_ok src p1 Hp1) as [Hp2 Hm2]; [by eapply check_solid|].
    by apply set_membership_spec; [| | |lia].
Qed.

Lemma equality_spec : spec_lt (S B) (cxpr_parse_equality parse_expression).
Proof.
  intros p Hp HB. apply after_operand_spec; [done|by apply relational_spec|].
  intros a p1 Hp1 Hm1 Ha. pose proof (moved_strict src _ _ Hp Hm1) as (Hl1 & _).
  destruct (_ || _) eqn:E; [|apply outcome_some; auto using moved_refl].
  assert (Hop : binary_operator (tok_type (ps_current p1)) = true).
  { by apply orb_prop in E as [ ->%tok_eqb_eq | ->%tok_eqb_eq]. }
  apply one_binary_spec; [by apply at_tree_intro|by apply binary_operator_solid|done|].
  intros p2 Hp2 Hm2. pose proof (moved_strict src _ _ Hp1 Hm2) as (? & _).
  apply relational_spec; [done|lia].
Qed.

Lemma not_fuel_spec fuel p :
  pre src p → tokens_left p < fuel → tokens_left p < S B →
  outcome src 7 (from (lo p)) Strict p (parse_not_fuel parse_expression fuel p).
Proof.
  revert p. induction fuel as [|fuel IH]; intros p Hp Hf HB; [lia|]. cbn [parse_not_fuel].
  destruct (cxpr_expr_parser_check p CXPR_TOK_NOT) eqn:E; [|by apply equality_spec].
  apply one_unary_spec; [done|by eapply check_solid|done|]. intros p1 Hp1 Hm1.
  pose proof (moved_strict src _ _ Hp Hm1) as (? & _). apply IH; [done|lia|lia].
Qed.

Lemma or_spec : spec_lt (S B) (cxpr_parse_or parse_expression).
Proof.
  apply binary_level_spec; [by intros t ->%tok_eqb_eq|].
  apply binary_level_spec; [by intros t ->%tok_eqb_eq|].
  intros p Hp HB. apply not_fuel_spec; [done|unfold loop_fuel; lia|done].
Qed.

Lemma ternary_spec : spec_lt (S B) (cxpr_parse_ternary parse_expression).
Proof.
  intros p Hp HB. apply after_operand_spec; [done|by apply or_spec|].
  intros c p1 Hp1 Hm1 Hc. pose proof (moved_strict src _ _ Hp Hm1) as (Hl1 & Hlo1 & Hset1).
  pose proof (match_spec p1 CXPR_TOK_QUESTION Hp1) as Hmt.
  destruct (cxpr_expr_parser_match p1 CXPR_TOK_QUESTION) as [q p2].
  destruct Hmt as [Hp2 Hmt]; [done..|].
  destruct q; [|subst; apply outcome_some; auto using moved_refl]. destruct Hmt as [Hm2 _].
  pose proof (moved_strict src _ _ Hp1 Hm2) as (? & _ & _).
  destruct (at_tree_next (lo p) p1 p1 p2 c) as (_ & _ & _ & _);
    [by apply at_tree_intro|done|apply moved_refl|done|].
  destruct (moved_facts src p1 p2) as (_ & _ & _ & ?); [done|by apply (moved_lax Strict)|].
  apply (consume_operand p1 p2 (from (lo p2))); [done..|apply Hexpr; [done|lia]|].
  intros t p3 Hp3 Hm3 Ht. pose proof (moved_strict src _ _ Hp2 Hm3) as (? & ? & [? ?]).
  apply (outcome_weaken src 7 (from (lo p))); [auto|].
  apply (need_token_spec src 7 _ Strict); [done..|]. intros p4 Hp4 Hm4.
  pose proof (moved_strict src _ _ Hp3 Hm4) as (? & _ & _).
  destruct (moved_facts src p3 p4) as (_ & _ & _ & ?); [done|by apply (moved_lax Strict)|].
  apply (need_operand_spec src 7 (from (lo p4)) _ Strict Lax); [done|apply Hexpr; [done|lia]|].
  intros f p5 Hp5 Hm5 Hf. pose proof (moved_strict src _ _ Hp4 Hm5) as (? & ? & _).
  apply outcome_some; auto using moved_refl. destruct Hset1.
  apply (ternary_ok src (lo p) (hi p1) (lo p2) (hi p3) (lo p4)); [done..|lia|lia|lia|lia|lia].
Qed.

Lemma prepend_name_ok n names : names_ok names n → names_ok (prepend_name n names) (S n).
Proof.
  unfold prepend_name. destruct names as [l|]; simpl; [by intros ->|]. intros _. by rewrite length_replicate.
Qed.

Lemma pipe_inject_spec L p p1 p2 lhs stage :
  at_tree L p lhs → pre src p1 → pre src p2 → moved Lax p p1 → moved Strict p1 p2 →
  from (lo p1) p2 stage →
  let '(node, p3) := cxpr_expr_parser_pipe_inject_argument p2 stage lhs in
  match node with
  | Some a => p3 = p2 ∧ at_tree L p2 a
  | None => ∃ msg, p3 = cxpr_expr_parser_set_error p2 msg
  end.
Proof.
  intros Ht Hp1 Hp2 Hm1 Hm2 Hs.
  destruct (at_tree_next L p p1 p2 lhs) as (? & ? & ? & _); [done..|].
  destruct (moved_strict src _ _ Hp1 Hm2) as (_ & _ & Hset2).
  assert (Hl : ast_ok src L (hi p2) lhs).
  { destruct Ht as (_ & _ & _ & Hl). eapply ast_ok_weaken; [| |exact Hl]; lia. }
  assert (Htree : ∀ a, ast_ok src L (hi p2) a → at_tree L p2 a).
  { intros a Hok. split; [done|]. split; [done|]. split; [lia|done]. }
  pose proof (ast_all_inv _ _ Hs) as [[Hsh _] Hch]. unfold cxpr_expr_parser_pipe_inject_argument.
  destruct stage as [sp d]. unfold shape_ok in Hsh. simpl in *.
  assert (Hchl : Forall (ast_ok src L (hi p2)) (children d)).
  { eapply ast_ok_weaken_list; [| |exact Hch]; lia. }
  destruct d; try (by eexists); (split; [done|]); apply Htree.
  - apply call_ok; [by constructor|done].
  - destruct Hsh as [Hn _]. apply producer_ok; [by constructor|]. by apply prepend_name_ok.
  - apply call_ok; [by constructor|]. by apply prepend_name_ok.
Qed.

Lemma pipe_loop_spec L fuel lhs p :
  at_tree L p lhs → tokens_left p < fuel → tokens_left p < S B →
  outcome src 7 (from L) Lax p (pipe_loop parse_expression fuel lhs p).
Proof.
  revert lhs p. induction fuel as [|fuel IH]; intros lhs p Ht Hf HB; [lia|]. cbn [pipe_loop].
  pose proof Ht as (Hp & _ & _ & Ha).
  destruct (cxpr_expr_parser_check p CXPR_TOK_PIPE) eqn:E; cbn [negb];
    [|apply outcome_some; auto using moved_refl].
  destruct (advance_ok src p Hp) as [Hp1 Hm1]; [by eapply check_solid|].
  set (p1 := cxpr_expr_parser_advance p) in *.
  pose proof (moved_strict src _ _ Hp Hm1) as (? & _).
  apply (consume_operand p p1 (from (lo p1))); [done..|apply ternary_spec; [done|lia]|].
  intros stage p2 Hp2 Hm2 Hs. pose proof (moved_strict src _ _ Hp1 Hm2) as (? & _).
  pose proof (pipe_inject_spec L p p1 p2 lhs stage Ht Hp1 Hp2) as Hi.
  destruct (cxpr_expr_parser_pipe_inject_argument p2 stage lhs) as [[a|] p3];
    specialize (Hi (moved_lax Strict _ _ Hm1) Hm2 Hs).
  - destruct Hi as [-> Ht2]. destruct (ps_had_error p2) eqn:Ee.
    + split; [done|]. split; [apply moved_refl|done].
    + apply IH; [done|lia|lia].
  - destruct Hi as [msg ->]. apply outcome_error; auto using moved_refl.
Qed.

Lemma pipe_spec : spec_lt (S B) (cxpr_parse_pipe parse_expression).
Proof.
  intros p Hp HB. apply after_operand_spec; [done|by apply ternary_spec|].
  intros a p1 Hp1 Hm1 Ha. pose proof (moved_strict src _ _ Hp Hm1) as (Hl1 & _).
  apply pipe_loop_spec; [by apply at_tree_intro|unfold loop_fuel; lia|lia].
Qed.
End levels.

(** The fuel of [cxpr_parse_expression] is enough. *)
Lemma expression_fuel_spec src fuel : spec_lt src fuel (parse_expression_fuel fuel).
Proof.
  induction fuel as [|fuel IH]; [intros p Hp HB; lia|]. exact (pipe_spec src fuel _ IH).
Qed.

Lemma expression_spec src p :
  pre src p → outcome src 7 (from src (lo p)) Strict p (cxpr_parse_expression p).
Proof. intros Hp. apply expression_fuel_spec; [done|]. unfold loop_fuel. lia. Qed.

(** ** The parser as its clients see it *)

Lemma parse_start p0 src :
  let p := cxpr_expr_parser_advance
             (mk_parser (cxpr_lexer_init src) (ps_current p0) (ps_previous p0) false error_zero) in
  pre src p ∧ commas p ≤ count_commas src.
Proof.
  unfold cxpr_expr_parser_advance. cbn [ps_lexer ps_current ps_had_error ps_last_error].
  replace (cxpr_lexer_init src) with (state_at src 0) by by destruct src.
  destruct (cxpr_lexer_next (state_at src 0)) as [tok lx] eqn:E.
  destruct (next_commas src 0 tok lx ltac:(lia) E) as (k & m & Hm & -> & Ht & _ & Hc).
  replace (str_drop 0 src) with src in Hc by by destruct src.
  assert (Hpre : pre src (mk_parser (state_at src m) tok (ps_current p0) false error_zero)).
  { split; [by exists k, m|done]. }
  destruct (tok_eqb (tok_type tok) CXPR_TOK_ERROR); split; try exact Hc; [|done].
  apply with_error_pre; [done|]. apply error_here_ok; [done|by left].
Qed.

Lemma parse_spec p0 src err :
  match cxpr_expr_ast_parse (Some p0) (Some src) err with
  | Done (Some a, Some p, e) =>
      err_code e = CXPR_OK ∧ tok_type (ps_current p) = CXPR_TOK_EOF ∧ ast_ok src 0 (strlen src) a
  | Done (None, Some p, e) => error_ok src e
  | Undef => 7 ≤ count_commas src
  | _ => False
  end.
Proof.
  unfold cxpr_expr_ast_parse.
  pose proof (parse_start p0 src) as [Hp Hc]. set (p := cxpr_expr_parser_advance _) in *. simpl in Hp.
  destruct (ps_had_error p) eqn:E; [by apply Hp|].
  pose proof (expression_spec src p Hp) as Ho.
  destruct (cxpr_parse_expression p) as [[ast p1]| |]; cbn [run_bind outcome] in *; [|done|lia].
  destruct Ho as [Hp1 Ho]. destruct (ps_had_error p1) eqn:E1; [by apply Hp1|].
  destruct ast as [a|]; [|by destruct Ho; congruence].
  destruct (cxpr_expr_parser_check p1 CXPR_TOK_EOF) eqn:Eeof; cbn [negb].
  - destruct Ho as [Hm Ha]. split; [done|]. split; [by apply tok_eqb_eq|].
    destruct (moved_strict src _ _ Hp Hm) as (_ & _ & [_ ?]).
    eapply ast_ok_weaken; [| |exact Ha]; [lia|done].
  - apply (set_error_pre src p1 _ Hp1). done.
Qed.

(** C2: parsing terminates on every source text: the recursion and the loops of
    the parser never run longer than the number of tokens allows, and with fewer
    than seven commas in the text the parser also stays within its arrays. *)
Theorem parse_terminates p src err :
  cxpr_expr_ast_parse (Some p) (Some src) err ≠ OutOfFuel ∧
  (count_commas src < 7 → ∃ r, cxpr_expr_ast_parse (Some p) (Some src) err = Done r).
Proof.
  pose proof (parse_spec p src err) as H.
  destruct (cxpr_expr_ast_parse _ _ _) as [r| |]; [|done|]; (split; [done|]).
  - by exists r.
  - lia.
Qed.

Lemma parse_terminates_witness :
  ∃ r, cxpr_expr_ast_parse (Some cxpr_expr_parser_new) (Some "f(a, b) |> g ? x[1] : {k: 2}"%string)
         error_zero = Done r.
Proof. apply (proj2 (parse_terminates _ _ _)). vm_compute. lia. Defined.

(** C3: a parse that returns gives either a tree, with the error code [CXPR_OK]
    and the whole text consumed, or no tree and an error code, with an offset in
    the text and its exact line and column. *)
Theorem parse_tree_or_error p src err ast p' e :
  cxpr_expr_ast_parse (Some p) (Some src) err = Done (ast, p', e) →
  match ast with
  | Some _ => err_code e = CXPR_OK ∧ option_map (λ q, tok_type (ps_current q)) p' = Some CXPR_TOK_EOF
  | None => error_ok src e
  end.
Proof.
  intros E. pose proof (parse_spec p src err) as H. rewrite E in H.
  destruct ast as [a|], p' as [q|]; try done. destruct H as (? & ? & _). by split; [|simpl; f_equal].
Qed.

Lemma parse_tree_or_error_witness :
  ∃ p' e, cxpr_expr_ast_parse (Some cxpr_expr_parser_new) (Some "1 + )"%string) error_zero
          = Done (None, p', e) ∧ error_ok "1 + )" e.
Proof.
  eexists _, _. split; [vm_compute; reflexivity|].
  refine (parse_tree_or_error cxpr_expr_parser_new "1 + )" error_zero None _ _ _).
  vm_compute. reflexivity.
Defined.

(** C4: every node of a returned tree has the shape its tag promises: parallel
    name and value arrays of one length, dotted keys that are the joined
    segments, at least three segments in a chain, and operator tags of the
    grammar. *)
Theorem parse_tree_shape p src err a p' e :
  cxpr_expr_ast_parse (Some p) (Some src) err = Done (Some a, p', e) → ast_all shape_ok a.
Proof.
  intros E. pose proof (parse_spec p src err) as H. rewrite E in H.
  destruct p' as [q|]; [|done]. destruct H as (_ & _ & Ha).
  eapply ast_all_impl; [|exact Ha]. by intros b [? _].
Qed.

(** ** Which nodes have a span *)

(** A node without children has a span. *)
Definition spanned (a : cxpr_expr_ast) : Prop := children (ast_node a) = [] → is_Some (ast_span a).
Definition yields (f : cxpr_expr_parser → run presult) : Prop :=
  ∀ p a p', f p = Done (Some a, p') → spanned a.

Lemma inherit_spanned d first last : children d ≠ [] → spanned (cxpr_expr_ast_inherit_range (new_node d) first last).
Proof. unfold spanned, cxpr_expr_ast_inherit_range. destruct (ast_span first), (ast_span last); simpl; done. Qed.

Lemma unary_spanned op a : spanned (cxpr_expr_ast_unary_new op a).
Proof. unfold spanned, cxpr_expr_ast_unary_new. destruct (ast_span a); simpl; done. Qed.

Lemma yields_some a : spanned a → yields (λ p, Done (Some a, p)).
Proof. by intros Ha p a' p' [= <- <-]. Qed.

Lemma yields_on_some {A} (m : cxpr_expr_parser → run (option A * cxpr_expr_parser)) k :
  (∀ x, yields (k x)) → yields (λ p, on_some (m p) k).
Proof.
  intros Hk p a p'. unfold on_some. destruct (m p) as [[[x|] q]| |]; cbn [run_bind]; [apply Hk|done..].
Qed.

Lemma yields_need_operand {A} (operand : cxpr_expr_parser → run (option A * cxpr_expr_parser)) k :
  (∀ x, yields (k x)) → yields (need_operand operand k).
Proof.
  intros Hk p a p'. unfold need_operand, on_some. destruct (operand p) as [[[x|] q]| |]; cbn [run_bind]; try done.
  destruct (ps_had_error q); [done|apply Hk].
Qed.

Lemma yields_need_token t msg k : yields k → yields (need_token t msg k).
Proof.
  intros Hk p a p'. unfold need_token. destruct (cxpr_expr_parser_expect p t msg) as [[] q]; [apply Hk|done].
Qed.

Lemma yields_after_operand operand k :
  yields operand → (∀ lhs, spanned lhs → yields (k lhs)) → yields (after_operand operand k).
Proof.
  intros Ho Hk p a p'. unfold after_operand, on_some. destruct (operand p) as [[[x|] q]| |] eqn:E; cbn [run_bind]; try done.
  apply Ho in E. destruct (ps_had_error q); [by intros [= <- <-]|by apply Hk].
Qed.

Lemma yields_primary pe : yields (cxpr_parse_primary pe).
Proof.
  intros p a p'. unfold cxpr_parse_primary, on_some. destruct (primary_node pe p) as [[[x|] q]| |]; cbn [run_bind]; try done.
  destruct (index_loop pe (loop_fuel q) x q) as [[[y|] q']| |]; cbn [run_bind]; try done.
  destruct (cxpr_expr_parser_token_end q' (ps_previous q')) as [e| |]; cbn [run_bind]; try done.
  intros [= <- _] _. by eexists.
Qed.

Lemma yields_binary_loop operand is_op fuel lhs : spanned lhs → yields (binary_loop operand is_op fuel lhs).
Proof.
  revert lhs. induction fuel as [|fuel IH]; intros lhs Hl p a p'; cbn [binary_loop]; [done|].
  destruct (negb _); [by intros [= <- <-]|]. apply yields_need_operand. intros rhs. by apply IH, inherit_spanned.
Qed.

Lemma yields_level operand is_op : yields operand → yields (binary_level operand is_op).
Proof. intros Ho. apply yields_after_operand; [done|]. intros lhs Hl p. by apply yields_binary_loop. Qed.

Lemma yields_unary pe fuel : yields (parse_unary_fuel pe fuel).
Proof.
  induction fuel as [|fuel IH]; intros p a p'; cbn [parse_unary_fuel]; [done|].
  destruct (cxpr_expr_parser_check p CXPR_TOK_MINUS).
  { apply yields_need_operand. intros x. apply yields_some, unary_spanned. }
  destruct (cxpr_expr_parser_check p CXPR_TOK_PLUS); [apply IH|].
  apply yields_after_operand; [apply yields_primary|]. intros lhs Hl q b q'.
  destruct (cxpr_expr_parser_check q CXPR_TOK_POWER); [|by apply yields_some].
  apply yields_need_operand. intros x. by apply yields_some, inherit_spanned.
Qed.

Lemma yields_arithmetic pe : yields (cxpr_parse_arithmetic pe).
Proof. apply yields_level, yields_level. intros p. apply yields_unary. Qed.

Lemma yields_relational_loop pe subject op fuel lhs rhs : spanned lhs → yields (relational_loop pe subject op fuel lhs rhs).
Proof.
  revert lhs rhs. induction fuel as [|fuel IH]; intros lhs rhs Hl p a p'; cbn [relational_loop]; [done|].
  destruct (negb _); [by intros [= <- <-]|]. apply yields_need_operand. intros x. by apply IH, inherit_spanned.
Qed.

Lemma yields_membership pe p lhs negated a p' :
  cxpr_parse_set_membership pe p lhs negated = Done (Some a, p') → spanned a.
Proof.
  unfold cxpr_parse_set_membership. destruct (negb _); [done|]. destruct (tok_eqb _ _); [done|].
  apply yields_need_operand. intros x. apply yields_some. destruct negated; [apply unary_spanned|done].
Qed.

Lemma yields_relational pe : yields (cxpr_parse_relational pe).
Proof.
  apply yields_after_operand; [apply yields_arithmetic|]. intros lhs Hl p a p'. cbv beta zeta.
  destruct (cxpr_expr_parser_is_relational_token _).
  - apply yields_need_operand. intros rhs q. by apply yields_relational_loop, inherit_spanned.
  - destruct (_ || _); [apply yields_membership|by apply yields_some].
Qed.

Lemma yields_not pe fuel : yields (parse_not_fuel pe fuel).
Proof.
  induction fuel as [|fuel IH]; intros p a p'; cbn [parse_not_fuel]; [done|].
  destruct (cxpr_expr_parser_check p CXPR_TOK_NOT).
  { apply yields_need_operand. intros x. apply yields_some, unary_spanned. }
  apply yields_after_operand; [apply yields_relational|]. intros lhs Hl q b q'.
  destruct (_ || _); [|by apply yields_some]. apply yields_need_operand. intros x. by apply yields_some, inherit_spanned.
Qed.

Lemma yields_ternary pe : yields (cxpr_parse_ternary pe).
Proof.
  apply yields_after_operand.
  { apply yields_level, yields_level. intros p. apply yields_not. }
  intros c Hc p a p'. destruct (cxpr_expr_parser_match p CXPR_TOK_QUESTION) as [[] q]; [|by apply yields_some].
  apply yields_need_operand. intros t. apply yields_need_token, yields_need_operand. intros f. by apply yields_some, inherit_spanned.
Qed.

Lemma yields_pipe_loop pe fuel lhs : spanned lhs → yields (pipe_loop pe fuel lhs).
Proof.
  revert lhs. induction fuel as [|fuel IH]; intros lhs Hl p a p'; cbn [pipe_loop]; [done|].
  destruct (negb _); [by intros [= <- <-]|]. apply yields_need_operand. intros stage q b q'.
  destruct (cxpr_expr_parser_pipe_inject_argument q stage lhs) as [[node|] r] eqn:E; [|done].
  destruct (ps_had_error r); [done|]. apply IH. unfold cxpr_expr_parser_pipe_inject_argument in E.
  destruct (ast_node stage); try done; by injection E as <- <-.
Qed.

Lemma yields_expression fuel : yields (parse_expression_fuel fuel).
Proof.
  destruct fuel as [|fuel]; intros p a p'; [done|]. cbn [parse_expression_fuel].
  apply yields_after_operand; [apply yields_ternary|]. intros lhs Hl q. by apply yields_pipe_loop.
Qed.

Lemma parse_yields p src err a p' e : cxpr_expr_ast_parse (Some p) (Some src) err = Done (Some a, p', e) → spanned a.
Proof.
  unfold cxpr_expr_ast_parse. set (q := cxpr_expr_parser_advance _). destruct (ps_had_error q); [done|].
  unfold cxpr_parse_expression. destruct (parse_expression_fuel (loop_fuel q) q) as [[[b|] r]| |] eqn:E; cbn [run_bind]; try done;
    destruct (ps_had_error r); try done; destruct (negb _); try done. intros [= <- <- <-]. by eapply yields_expression.
Qed.

(** C5: every source span of a returned tree is a nonempty range of the text: it
    starts before it ends, ends inside the text, and both ends carry their exact
    line and column.  A tree that is a single literal, name or other node without
    children has one; inner nodes that the parser copies or makes itself (for
    chained comparisons, pipes, [in] and index suffixes) may have none. *)
Theorem parse_tree_spans p src err a p' e :
  cxpr_expr_ast_parse (Some p) (Some src) err = Done (Some a, p', e) →
  ast_all (λ b, span_in src 0 (strlen src) (ast_span b)) a ∧ (children (ast_node a) = [] → is_Some (ast_span a)).
Proof.
  intros E. split; [|exact (parse_yields _ _ _ _ _ _ E)]. pose proof (parse_spec p src err) as H. rewrite E in H.
  destruct p' as [q|]; [|done]. destruct H as (_ & _ & Ha).
  eapply ast_all_impl; [|exact Ha]. by intros b [_ ?].
Qed.

Lemma parse_tree_shape_witness :
  ∃ a p' e, cxpr_expr_ast_parse (Some cxpr_expr_parser_new) (Some "a.b.c + f(1, k=2)"%string) error_zero
            = Done (Some a, p', e) ∧ ast_all shape_ok a.
Proof.
  eexists _, _, _. split; [vm_compute; reflexivity|].
  eapply (parse_tree_shape cxpr_expr_parser_new "a.b.c + f(1, k=2)" error_zero).
  vm_compute. reflexivity.
Defined.

Lemma parse_tree_spans_witness :
  ∃ a p' e, cxpr_expr_ast_parse (Some cxpr_expr_parser_new) (Some "x < 3 < y"%string) error_zero
            = Done (Some a, p', e) ∧
    ast_all (λ b, span_in "x < 3 < y" 0 9 (ast_span b)) a.
Proof.
  eexists _, _, _. split; [vm_compute; reflexivity|].
  eapply (λ H, proj1 (parse_tree_spans cxpr_expr_parser_new "x < 3 < y" error_zero _ _ _ H)).
  vm_compute. reflexivity.
Defined.

(** ** Copies

    [erase a] forgets the spans and gives every argument list its name array. *)
Definition full_names (argc : nat) (names : option (list (option string)))
    : option (list (option string)) := Some (names_of argc names).

Fixpoint erase (a : cxpr_expr_ast) : cxpr_expr_ast :=
  match a with
  | Ast _ d =>
      new_node
        match d with
        | CXPR_NODE_NUMBER v => CXPR_NODE_NUMBER v
        | CXPR_NODE_INT64 v => CXPR_NODE_INT64 v
        | CXPR_NODE_BOOL v => CXPR_NODE_BOOL v
        | CXPR_NODE_ARRAY els => CXPR_NODE_ARRAY (map erase els)
        | CXPR_NODE_RECORD names vals => CXPR_NODE_RECORD names (map erase vals)
        | CXPR_NODE_STRING v => CXPR_NODE_STRING v
        | CXPR_NODE_IDENTIFIER n => CXPR_NODE_IDENTIFIER n
        | CXPR_NODE_VARIABLE n => CXPR_NODE_VARIABLE n
        | CXPR_NODE_FIELD_ACCESS (Some b) o f k => CXPR_NODE_FIELD_ACCESS (Some (erase b)) o f k
        | CXPR_NODE_FIELD_ACCESS None o f k => CXPR_NODE_FIELD_ACCESS None o f k
        | CXPR_NODE_CHAIN_ACCESS path k => CXPR_NODE_CHAIN_ACCESS path k
        | CXPR_NODE_PRODUCER_ACCESS n args names f k =>
            CXPR_NODE_PRODUCER_ACCESS n (map erase args) (full_names (length args) names) f k
        | CXPR_NODE_BINARY_OP op l r => CXPR_NODE_BINARY_OP op (erase l) (erase r)
        | CXPR_NODE_UNARY_OP op x => CXPR_NODE_UNARY_OP op (erase x)
        | CXPR_NODE_FUNCTION_CALL n args names =>
            CXPR_NODE_FUNCTION_CALL n (map erase args) (full_names (length args) names)
        | CXPR_NODE_INDEX t i => CXPR_NODE_INDEX (erase t) (erase i)
        | CXPR_NODE_TERNARY c t f => CXPR_NODE_TERNARY (erase c) (erase t) (erase f)
        end
  end.

Lemma erase_node s s' d : erase (Ast s d) = erase (Ast s' d).
Proof. reflexivity. Qed.

Lemma erase_inherit d f l : erase (cxpr_expr_ast_inherit_range (new_node d) f l) = erase (new_node d).
Proof. unfold cxpr_expr_ast_inherit_range. by destruct (ast_span f), (ast_span l). Qed.

Lemma erase_unary op x : erase (cxpr_expr_ast_unary_new op x) = new_node (CXPR_NODE_UNARY_OP op (erase x)).
Proof. unfold cxpr_expr_ast_unary_new. by destruct (ast_span x). Qed.

Lemma full_clone_names n names :
  names_ok names n → full_names n (clone_names n names) = full_names n names.
Proof.
  unfold full_names, clone_names, names_of. intros Hn. destruct (n =? 0) eqn:E; [|by destruct names].
  apply Nat.eqb_eq in E as ->. destruct names as [[|]|]; simpl in *; [done|done|done].
Qed.

Lemma map_erase_clone (f : cxpr_expr_ast → cxpr_expr_ast) l :
  Forall (λ a, ast_all shape_ok a → erase (f a) = erase a) l → Forall (ast_all shape_ok) l →
  map erase (map f l) = map erase l.
Proof.
  induction 1; intros Hl; [done|]. apply Forall_cons in Hl as [? ?]. simpl. f_equal; auto.
Qed.

(** The copy the parser makes of a subtree, when it rewrites a chained
    comparison, is the original up to source spans. *)
Theorem clone_same_tree a :
  ast_all shape_ok a → erase (cxpr_expr_parser_clone_ast a) = erase a.
Proof.
  induction a as [s d IH] using ast_ind. intros [Hs Hc]%ast_all_inv. simpl in Hc.
  pose proof (map_erase_clone cxpr_expr_parser_clone_ast _ IH Hc) as Hcl.
  destruct d as [v|v|v|els|names vals|v|nm|nm|[b|] obj field key|path key|nm args names field key
    |op l r|op x|nm args names|t i|c t f]; unfold shape_ok in Hs; simpl in Hs, Hcl; simpl cxpr_expr_parser_clone_ast;
    unfold cxpr_expr_ast_binary_new, cxpr_expr_ast_index_new, cxpr_expr_ast_ternary_new;
    rewrite ?erase_inherit, ?erase_unary; try done; try (simpl; congruence).
  - destruct Hs as [-> ->]. simpl. congruence.
  - by destruct Hs as (o & -> & ->).
  - destruct Hs as [Hl ->]. unfold cxpr_expr_ast_new_chain_access.
    by rewrite (proj2 (Nat.ltb_ge _ _)) by lia.
  - destruct Hs as [Hn ->]. simpl. by rewrite Hcl, length_map, full_clone_names.
  - simpl. by rewrite Hcl, length_map, full_clone_names.
Qed.

Lemma clone_same_tree_witness :
  let a := cxpr_expr_ast_binary_new CXPR_TOK_PLUS (cxpr_expr_ast_identifier_new "x")
             (cxpr_expr_ast_call_new "f" [cxpr_expr_ast_bool_new true]) in
  ast_all shape_ok a ∧ erase (cxpr_expr_parser_clone_ast a) = erase a.
Proof.
  intros a.
  assert (H : ast_all shape_ok a) by (repeat (constructor; simpl; auto)).
  split; [exact H|exact (clone_same_tree a H)].
Defined.

(** ** Two error paths of the parser *)

(** An argument list with exactly eight arguments (the initial capacity of
    the argument array) that is not closed runs the clean-up loop one entry
    behind the array of argument names: undefined behaviour. *)
Theorem unclosed_call_overruns :
  cxpr_expr_ast_parse (Some cxpr_expr_parser_new) (Some "f(1,2,3,4,5,6,7,8"%string) error_zero = Undef.
Proof. vm_compute. reflexivity. Qed.

(** A syntax error in the value of a record field is reported as an
    allocation failure, at the position of the syntax error. *)
Theorem record_value_error_masked :
  ∃ p e, cxpr_expr_ast_parse (Some cxpr_expr_parser_new) (Some "{a: }"%string) error_zero
         = Done (None, Some p, e) ∧
    err_code e = CXPR_ERR_OUT_OF_MEMORY ∧ err_message e = Some "Out of memory"%string ∧
    err_position e = 4.
Proof. eexists _, _. vm_compute. split_and!; reflexivity. Qed.
