(* ===== verification/Printer.v ===== *)
(** * Printer: a tree as source text ([src/ast/printer.c])

    The growing buffer is the text built so far: an append never fails when
    memory suffices, so a function is the text it appends, or [None] where the
    source returns 0.

    [printf("%.*g")] is defined here on the exact value of a double, as the
    standard describes it: the value rounded (half to even) to the asked number
    of significant digits, in fixed or exponent style by the decimal exponent,
    without trailing zeros. *)

From Stdlib Require Import Ascii String ZArith Lia SpecFloat.
From stdpp Require Import base list strings.
From S2P Require Import Prelude Float64 Types Lexer Ast.
Local Open Scope string_scope.

(** ** [printf("%.*g")] *)

(** The quotient of two positive integers, rounded half to even. *)
Definition div_half_even (n d : Z) : Z :=
  let q := (n / d)%Z in
  match (2 * (n mod d) ?= d)%Z with
  | Lt => q
  | Gt => (q + 1)%Z
  | Eq => if Z.even q then q else (q + 1)%Z
  end.

(** [n / d * 10^k] *)
Definition scale10 (n d k : Z) : Z * Z :=
  if (0 <=? k)%Z then (n * 10 ^ k, d)%Z else (n, d * 10 ^ (- k))%Z.

(** The decimal exponent of [n / d]: the largest [x] with [10^x <= n / d].  The
    binary exponents give it up to one unit. *)
Definition decimal_exponent (n d : Z) : Z :=
  let guess := ((Z.log2 n - Z.log2 d) * 30103 / 100000)%Z in
  let reaches x := let '(n, d) := scale10 n d (- x) in (d <=? n)%Z in
  if reaches (guess + 1)%Z then (guess + 1)%Z
  else if reaches guess then guess else (guess - 1)%Z.

(** The digits and the exponent of [%e] with [prec] significant digits. *)
Definition e_digits (prec : Z) (n d : Z) : Z * Z :=
  let x := decimal_exponent n d in
  let '(n, d) := scale10 n d (prec - 1 - x) in
  let digits := div_half_even n d in
  if (10 ^ prec <=? digits)%Z then (digits / 10, x + 1)%Z else (digits, x).

Fixpoint strip_zeros (digits : list ascii) : list ascii :=
  match digits with
  | [] => []
  | c :: digits =>
      match strip_zeros digits with
      | [] => if (c =? "0")%char then [] else [c]
      | digits => c :: digits
      end
  end.

Definition zeros (n : Z) : list ascii := replicate (Z.to_nat n) "0"%char.

(** A fraction without its trailing zeros; the point goes with the last digit. *)
Definition with_fraction (whole fraction : list ascii) : list ascii :=
  match strip_zeros fraction with
  | [] => whole
  | fraction => whole ++ "."%char :: fraction
  end.

(** The exponent has two digits at least. *)
Definition exponent_text (x : Z) : string :=
  String "e" (String (if (x <? 0)%Z then "-" else "+")
    (if (Z.abs x <? 10)%Z then String "0" (print_dec (Z.abs x)) else print_dec (Z.abs x))).

Definition format_positive (prec : Z) (n d : Z) : string :=
  let '(digits, x) := e_digits prec n d in
  let text := list_ascii_of_string (print_dec digits) in
  if ((x <? -4) || (prec <=? x))%Z then
    string_of_list_ascii (with_fraction (take 1 text) (drop 1 text)) ++ exponent_text x
  else if (0 <=? x)%Z then
    let whole := Z.to_nat (x + 1) in
    string_of_list_ascii (with_fraction (take whole text) (drop whole text))
  else string_of_list_ascii (with_fraction ["0"%char] (zeros (- x - 1) ++ text)%list).

Definition signed_text (negative : bool) (text : string) : string :=
  if negative then String "-" text else text.

(** [%.*g] of a value that is neither infinite nor a NaN. *)
Definition format_g (prec : Z) (value : float64) : string :=
  match value with
  | S754_finite s m e =>
      let '(n, d) := if (0 <=? e)%Z then (Z.pos m * 2 ^ e, 1)%Z else (Z.pos m, 2 ^ (- e))%Z in
      signed_text s (format_positive prec n d)
  | S754_zero s => signed_text s "0"
  | _ => ""
  end.

(** [strtod] of a text with an optional sign. *)
Definition strtod_signed (s : string) : float64 :=
  match s with
  | String c s' => if (c =? "-")%char then fneg (strtod s') else strtod s
  | EmptyString => strtod s
  end.

(** ** Precedences *)

Definition cxpr_op_precedence (op : cxpr_token_type) : nat :=
  match op with
  | CXPR_TOK_OR => 2
  | CXPR_TOK_AND => 3
  | CXPR_TOK_EQ | CXPR_TOK_NEQ => 5
  | CXPR_TOK_LT | CXPR_TOK_GT | CXPR_TOK_LTE | CXPR_TOK_GTE => 6
  | CXPR_TOK_PLUS | CXPR_TOK_MINUS => 7
  | CXPR_TOK_STAR | CXPR_TOK_SLASH | CXPR_TOK_PERCENT => 8
  | CXPR_TOK_POWER => 10
  | _ => 0
  end.

(** [CXPR_ASSOC_RIGHT] *)
Definition right_assoc (op : cxpr_token_type) : bool := tok_eqb op CXPR_TOK_POWER.

Definition cxpr_expr_ast_precedence (a : cxpr_expr_ast) : nat :=
  match ast_node a with
  | CXPR_NODE_TERNARY _ _ _ => 1
  | CXPR_NODE_BINARY_OP op _ _ => cxpr_op_precedence op
  | CXPR_NODE_UNARY_OP _ _ => 9
  | _ => 11
  end.

Definition cxpr_binary_op_text (op : cxpr_token_type) : option string :=
  match op with
  | CXPR_TOK_PLUS => Some "+" | CXPR_TOK_MINUS => Some "-" | CXPR_TOK_STAR => Some "*"
  | CXPR_TOK_SLASH => Some "/" | CXPR_TOK_PERCENT => Some "%" | CXPR_TOK_POWER => Some "^"
  | CXPR_TOK_EQ => Some "==" | CXPR_TOK_NEQ => Some "!=" | CXPR_TOK_LT => Some "<"
  | CXPR_TOK_GT => Some ">" | CXPR_TOK_LTE => Some "<=" | CXPR_TOK_GTE => Some ">="
  | CXPR_TOK_AND => Some "and" | CXPR_TOK_OR => Some "or"
  | _ => None
  end.

Definition is_ternary (a : cxpr_expr_ast) : bool :=
  match ast_node a with CXPR_NODE_TERNARY _ _ _ => true | _ => false end.
Definition is_binary (a : cxpr_expr_ast) : bool :=
  match ast_node a with CXPR_NODE_BINARY_OP _ _ _ => true | _ => false end.

Definition cxpr_binary_child_needs_parens (child : cxpr_expr_ast) (parent_op : cxpr_token_type)
    (is_right_child : bool) : bool :=
  if is_ternary child then true
  else
    let parent_prec := cxpr_op_precedence parent_op in
    let child_prec := cxpr_expr_ast_precedence child in
    if (child_prec <? parent_prec)%nat then true
    else if negb (is_binary child) || negb (child_prec =? parent_prec)%nat then false
    else if right_assoc parent_op then negb is_right_child else is_right_child.

(** ** Leaves *)

(** The shortest of 15, 16 and 17 digits that reads back. *)
Definition cxpr_print_number (value : float64) : string :=
  if fisnan value then "nan()"
  else if fisinf value then (if fltb value fzero then "-inf()" else "inf()")
  else if feqb (strtod_signed (format_g 15 value)) value then format_g 15 value
  else if feqb (strtod_signed (format_g 16 value)) value then format_g 16 value
  else format_g 17 value.

Definition print_int64 (value : Z) : string := signed_text (value <? 0)%Z (print_dec (Z.abs value)) ++ "i64".

(** A quote gets a backslash unless an odd run of backslashes is before it. *)
Fixpoint escape_quotes (odd_run : bool) (value : string) : string :=
  match value with
  | EmptyString => EmptyString
  | String c value =>
      let rest := String c (escape_quotes ((c =? backslash)%char && negb odd_run) value) in
      if (c =? dquote)%char && negb odd_run then String backslash rest else rest
  end.

Definition cxpr_print_string (value : string) : string :=
  String dquote (escape_quotes false value) ++ String dquote EmptyString.

(** ** Nodes *)

Definition parenthesised (parens : bool) (text : string) : string :=
  if parens then "(" ++ text ++ ")" else text.

(** The items, with [", "] between them. *)
Fixpoint comma_separated (items : list string) : string :=
  match items with
  | [] => ""
  | [item] => item
  | item :: items => item ++ ", " ++ comma_separated items
  end.

Definition arg_prefix (names : option (list (option string))) (i : nat) : string :=
  match names with
  | Some names => match names !! i with Some (Some name) => name ++ "=" | _ => "" end
  | None => ""
  end.

Local Notation "'let?' x ':=' m 'in' k" := (mbind (fun x => k) m)
  (at level 200, x pattern, m at level 100, k at level 200).

(** The result of a loop that prints each item; it fails with the first failure. *)
Definition all_printed (texts : list (option string)) : option (list string) := mapM id texts.

Fixpoint cxpr_print_node (a : cxpr_expr_ast) (parent_prec : nat) : option string :=
  let cxpr_print_call_args (args : list cxpr_expr_ast) names : option string :=
    comma_separated <$>
      all_printed (imap (λ i text, String.append (arg_prefix names i) <$> text)
                     (map (λ arg, cxpr_print_node arg 0) args)) in
  let with_parens (child : cxpr_expr_ast) (parens : bool) : option string :=
    parenthesised parens <$> cxpr_print_node child 0 in
  match ast_node a with
  | CXPR_NODE_NUMBER value => Some (cxpr_print_number value)
  | CXPR_NODE_INT64 value => Some (print_int64 value)
  | CXPR_NODE_BOOL value => Some (if value then "true" else "false")
  | CXPR_NODE_ARRAY elements =>
      let? items := all_printed (map (λ e, cxpr_print_node e 0) elements) in
      Some ("[" ++ comma_separated items ++ "]")
  | CXPR_NODE_RECORD names values =>
      let? items := all_printed (zip_with (λ name text, String.append (name ++ " = ") <$> text) names
                                   (map (λ v, cxpr_print_node v 0) values)) in
      Some ("{" ++ comma_separated items ++ "}")
  | CXPR_NODE_STRING value => Some (cxpr_print_string value)
  | CXPR_NODE_IDENTIFIER name => Some name
  | CXPR_NODE_VARIABLE name => Some ("$" ++ name)
  | CXPR_NODE_FIELD_ACCESS (Some base) _ field _ =>
      let? text := cxpr_print_node base 0 in Some ("(" ++ text ++ ")." ++ field)
  | CXPR_NODE_FIELD_ACCESS None object field _ =>
      let? object := object in Some (object ++ "." ++ field)
  | CXPR_NODE_CHAIN_ACCESS path _ => Some (join_path path)
  | CXPR_NODE_PRODUCER_ACCESS name args names field _ =>
      let? text := cxpr_print_call_args args names in Some (name ++ "(" ++ text ++ ")." ++ field)
  | CXPR_NODE_BINARY_OP op l r =>
      let? op_text := cxpr_binary_op_text op in
      let? left_text := with_parens l (cxpr_binary_child_needs_parens l op false) in
      let? right_text := with_parens r (cxpr_binary_child_needs_parens r op true) in
      Some (parenthesised (cxpr_op_precedence op <? parent_prec)%nat
              (left_text ++ " " ++ op_text ++ " " ++ right_text))
  | CXPR_NODE_UNARY_OP op operand =>
      let? sign := match op with
                   | CXPR_TOK_NOT => Some "not "
                   | CXPR_TOK_MINUS => Some "-"
                   | _ => None
                   end in
      let? text := with_parens operand (cxpr_expr_ast_precedence operand <? 9)%nat in
      Some (parenthesised (9 <? parent_prec)%nat (sign ++ text))
  | CXPR_NODE_FUNCTION_CALL name args names =>
      let? text := cxpr_print_call_args args names in Some (name ++ "(" ++ text ++ ")")
  | CXPR_NODE_INDEX target index =>
      let? target_text := cxpr_print_node target 11 in
      let? index_text := cxpr_print_node index 0 in
      Some (target_text ++ "[" ++ index_text ++ "]")
  | CXPR_NODE_TERNARY condition yes no =>
      let? c := with_parens condition (is_ternary condition) in
      let? y := with_parens yes (is_ternary yes) in
      let? n := with_parens no (is_ternary no) in
      Some (parenthesised (1 <? parent_prec)%nat (c ++ " ? " ++ y ++ " : " ++ n))
  end.

Definition cxpr_expr_ast_to_string (a : cxpr_expr_ast) : option string := cxpr_print_node a 0.
