(* ===== verification/TypeCheck.v ===== *)
(** * TypeCheck: static types of trees ([src/typecheck.c])

    A static type is [None] for [CXPR_STATIC_UNKNOWN]; [CXPR_STATIC_ERROR] is the
    error the pass wrote.  The pass stops at its first error, and every error
    overwrites the whole record, so the record is a result and not a state.  A
    node that selects an element of a literal is checked through the selected
    subtree: the recursion is on fuel, and the height of the tree is enough
    ([infer_total]). *)

From Stdlib Require Import Ascii String ZArith Lia.
From stdpp Require Import base list strings.
From S2P Require Import Prelude Float64 Types Ast References Registry Printer.
Local Open Scope run_scope.
Local Open Scope nat_scope.

(** ** Types and messages *)

Definition static_type : Type := option cxpr_value_type.
Definition CXPR_STATIC_UNKNOWN : static_type := None.
Definition static_result : Type := static_type + cxpr_error.

Definition cxpr_typecheck_type_name (type : static_type) : string :=
  match type with
  | None => "unknown"
  | Some CXPR_VALUE_NUMBER => "number"
  | Some CXPR_VALUE_BOOL => "bool"
  | Some CXPR_VALUE_STRUCT => "struct"
  | Some CXPR_VALUE_STRING => "string"
  | Some CXPR_VALUE_NULL => "null"
  | Some CXPR_VALUE_TIMESTAMP => "timestamp"
  | Some CXPR_VALUE_DURATION => "duration"
  | Some CXPR_VALUE_ARRAY => "array"
  | Some CXPR_VALUE_INT64 => "int64"
  end%string.

Definition cxpr_typecheck_op_name (op : cxpr_token_type) : string :=
  match op with
  | CXPR_TOK_PLUS => "+" | CXPR_TOK_MINUS => "-" | CXPR_TOK_STAR => "*" | CXPR_TOK_SLASH => "/"
  | CXPR_TOK_PERCENT => "%" | CXPR_TOK_POWER => "^" | CXPR_TOK_LT => "<" | CXPR_TOK_LTE => "<="
  | CXPR_TOK_GT => ">" | CXPR_TOK_GTE => ">=" | CXPR_TOK_EQ => "==" | CXPR_TOK_NEQ => "!="
  | CXPR_TOK_AND => "and" | CXPR_TOK_OR => "or" | CXPR_TOK_NOT => "not"
  | _ => "operator"
  end%string.

(** The record a check writes; [node] gives the position. *)
Definition type_error (message : string) (node : option cxpr_expr_ast) : cxpr_error :=
  match node ≫= ast_span with
  | Some span =>
      mk_error CXPR_ERR_TYPE_MISMATCH (Some message) (pos_offset (span_start span))
        (pos_line (span_start span)) (pos_column (span_start span))
  | None => mk_error CXPR_ERR_TYPE_MISMATCH (Some message) 0 0 0
  end.

(** [snprintf] into 512 bytes *)
Definition cxpr_typecheck_error (op expected role : string) (node : cxpr_expr_ast)
    (actual : static_type) : cxpr_error :=
  let expr := default "<expr>"%string (cxpr_expr_ast_to_string node) in
  type_error (str_take 511 ("type error: '" ++ op ++ "' requires " ++ expected ++ ", but " ++ role
                ++ " '" ++ expr ++ "' has type " ++ cxpr_typecheck_type_name actual)) (Some node).

Definition cxpr_typecheck_struct_shape_error (op : string) : cxpr_error :=
  type_error (str_take 255 ("type error: '" ++ op ++ "' requires matching struct fields")) None.

Definition cxpr_typecheck_field_error (field : string) (node : cxpr_expr_ast) : cxpr_error :=
  type_error (str_take 255 ("type error: record has no field '" ++ field ++ "'")) (Some node).

(** ** Records *)

Fixpoint field_of (names : list string) (values : list cxpr_expr_ast) (field : string)
    : option cxpr_expr_ast :=
  match names, values with
  | name :: names, value :: values =>
      if String.eqb name field then Some value else field_of names values field
  | _, _ => None
  end.

Definition cxpr_typecheck_record_field (record : cxpr_expr_ast) (field : string)
    : option cxpr_expr_ast :=
  match ast_node record with
  | CXPR_NODE_RECORD names values => field_of names values field
  | _ => None
  end.

Definition cxpr_typecheck_record_has_field (record : cxpr_expr_ast) (field : string) : bool :=
  match ast_node record with
  | CXPR_NODE_RECORD names _ => existsb (String.eqb field) names
  | _ => false
  end.

Definition cxpr_typecheck_record_shapes_match (left right : cxpr_expr_ast) : bool :=
  match ast_node left, ast_node right with
  | CXPR_NODE_RECORD names _, CXPR_NODE_RECORD names' _ =>
      (length names =? length names') &&
      forallb (cxpr_typecheck_record_has_field right) names
  | _, _ => true
  end.

(** ** Classes of types *)

Definition is_type (t : cxpr_value_type) (type : static_type) : bool :=
  bool_decide (type = Some t).
Definition known (type : static_type) : bool := match type with Some _ => true | None => false end.

Definition cxpr_typecheck_is_numeric (type : static_type) : bool :=
  is_type CXPR_VALUE_NUMBER type || is_type CXPR_VALUE_INT64 type || negb (known type).
Definition cxpr_typecheck_is_struct_arithmetic_operand (type : static_type) : bool :=
  is_type CXPR_VALUE_NUMBER type || is_type CXPR_VALUE_INT64 type
  || is_type CXPR_VALUE_STRUCT type || negb (known type).
Definition cxpr_typecheck_is_bool (type : static_type) : bool :=
  is_type CXPR_VALUE_BOOL type || negb (known type).

(** [a != UNKNOWN && b != UNKNOWN && a != b] *)
Definition differ (a b : static_type) : bool := known a && known b && negb (bool_decide (a = b)).

Definition cxpr_typecheck_join (a b : static_type) (node : cxpr_expr_ast) : static_result :=
  if bool_decide (a = b) then inl a
  else if negb (known a) then inl b
  else if negb (known b) then inl a
  else inr (cxpr_typecheck_error "?:" "branches with matching types" "ternary branch" node b).

(** ** Static selection *)

(** The element a literal index selects in [count] elements. *)
Definition literal_index (index : cxpr_expr_ast) (count : nat) : option nat :=
  match ast_node index with
  | CXPR_NODE_NUMBER d =>
      if fisfinite d && negb (fltb d fzero) && feqb (ffloor d) d && fltb d (of_Z (Z.of_nat count))
      then Z.to_nat <$> to_Z d else None
  | _ => None
  end.

(** A literal array indexed with literals is its element; anything else is itself. *)
Fixpoint cxpr_typecheck_resolve_static_index_value (a : cxpr_expr_ast) : cxpr_expr_ast :=
  match ast_node a with
  | CXPR_NODE_INDEX target index =>
      match ast_node (cxpr_typecheck_resolve_static_index_value target) with
      | CXPR_NODE_ARRAY elements =>
          match literal_index index (length elements) with
          | Some i => default a (elements !! i)
          | None => a
          end
      | _ => a
      end
  | _ => a
  end.

(** ** Inference *)

Definition static_bind (r : run static_result) (k : static_type → run static_result)
    : run static_result :=
  let* r := r in match r with inl type => k type | inr err => Done (inr err) end.

Local Notation "'let^' x ':=' m 'in' k" := (static_bind m (fun x => k))
  (at level 200, x binder, m at level 100, k at level 200).

Definition known_type (t : cxpr_value_type) : run static_result := Done (inl (Some t)).
Definition unknown : run static_result := Done (inl None).
Definition fail_type (err : cxpr_error) : run static_result := Done (inr err).

(** [if (!ok) { cxpr_typecheck_error(...); return CXPR_STATIC_ERROR; }] *)
Definition check (ok : bool) (op expected role : string) (node : cxpr_expr_ast) (actual : static_type)
    (k : run static_result) : run static_result :=
  if ok then k else fail_type (cxpr_typecheck_error op expected role node actual).

(** The result of an operator on operands of two types. *)
Definition binary_type (op : cxpr_token_type) (left right : cxpr_expr_ast) (lt rt : static_type)
    : run static_result :=
  let name := cxpr_typecheck_op_name op in
  let operands (ok : static_type → bool) (expected : string) (k : run static_result) :=
    check (ok lt) name expected "left operand" left lt (
    check (ok rt) name expected "right operand" right rt k) in
  match op with
  | CXPR_TOK_PLUS | CXPR_TOK_MINUS | CXPR_TOK_STAR | CXPR_TOK_SLASH =>
      operands cxpr_typecheck_is_struct_arithmetic_operand "number or struct operands" (
      if negb (cxpr_typecheck_record_shapes_match left right)
      then fail_type (cxpr_typecheck_struct_shape_error name)
      else if is_type CXPR_VALUE_STRUCT lt || is_type CXPR_VALUE_STRUCT rt
      then known_type CXPR_VALUE_STRUCT
      else if is_type CXPR_VALUE_INT64 lt && is_type CXPR_VALUE_INT64 rt
      then known_type CXPR_VALUE_INT64
      else check (negb (differ lt rt)) name "matching numeric types" "right operand" right rt (
        known_type (if is_type CXPR_VALUE_INT64 lt || is_type CXPR_VALUE_INT64 rt
                    then CXPR_VALUE_INT64 else CXPR_VALUE_NUMBER)))
  | CXPR_TOK_PERCENT | CXPR_TOK_POWER =>
      operands cxpr_typecheck_is_numeric "number operands" (known_type CXPR_VALUE_NUMBER)
  | CXPR_TOK_LT | CXPR_TOK_LTE | CXPR_TOK_GT | CXPR_TOK_GTE =>
      operands cxpr_typecheck_is_numeric "number operands" (known_type CXPR_VALUE_BOOL)
  | CXPR_TOK_EQ | CXPR_TOK_NEQ =>
      check (negb (differ lt rt)) name "matching operand types" "right operand" right rt
        (known_type CXPR_VALUE_BOOL)
  | CXPR_TOK_AND | CXPR_TOK_OR =>
      operands cxpr_typecheck_is_bool "bool operands" (known_type CXPR_VALUE_BOOL)
  | _ => unknown
  end.

(** The result of a prefix operator. *)
Definition unary_type (op : cxpr_token_type) (operand : cxpr_expr_ast) (type : static_type)
    : run static_result :=
  match op with
  | CXPR_TOK_MINUS =>
      check (cxpr_typecheck_is_numeric type) "-" "number operand" "operand" operand type
        (known_type CXPR_VALUE_NUMBER)
  | CXPR_TOK_NOT =>
      check (cxpr_typecheck_is_bool type) "not" "bool operand" "operand" operand type
        (known_type CXPR_VALUE_BOOL)
  | _ => unknown
  end.

Section infer.
Context (reg : cxpr_registry).
Context (infer : cxpr_expr_ast → run static_result).

(** The elements' one type; [UNKNOWN] when they have several. *)
Fixpoint element_type (elements : list cxpr_expr_ast) (type : static_type) : run static_result :=
  match elements with
  | [] => Done (inl type)
  | e :: elements =>
      let^ current := infer e in
      if negb (known current) then element_type elements type
      else if negb (known type) then element_type elements current
      else if negb (bool_decide (type = current)) then unknown
      else element_type elements type
  end.

Definition cxpr_typecheck_infer_array_element (elements : list cxpr_expr_ast) (index : cxpr_expr_ast)
    : run static_result :=
  match literal_index index (length elements) with
  | Some i => match elements !! i with Some e => infer e | None => Undef end
  | None => element_type elements None
  end.

Fixpoint position_of (name : string) (names : list string) : option nat :=
  match names with
  | [] => None
  | n :: names => if String.eqb n name then Some 0 else S <$> position_of name names
  end.

(** The parameter a call's argument is for: its name's, or its own place. *)
Definition expected_index (entry : option cxpr_func_entry) (names : option (list (option string)))
    (i : nat) : nat :=
  match entry, names ≫= (λ names, names !! i) with
  | Some e, Some (Some name) => default i (position_of name (cxpr_registry_entry_param_names e))
  | _, _ => i
  end.

Definition quantifier (name : string) : bool := String.eqb name "any" || String.eqb name "all".

Fixpoint check_args (name : string) (entry : option cxpr_func_entry)
    (names : option (list (option string))) (i : nat) (args : list cxpr_expr_ast)
    (k : run static_result) : run static_result :=
  match args with
  | [] => k
  | arg :: args =>
      let^ type := infer arg in
      check (negb (quantifier name) || cxpr_typecheck_is_bool type) name "bool argument" "argument"
        arg type (
      match (e ← entry; types ← fe_arg_types e; types !! expected_index entry names i) with
      | Some expected =>
          check (negb (differ type (Some expected))) name
            (cxpr_typecheck_type_name (Some expected)) "argument" arg type
            (check_args name entry names (S i) args k)
      | None => check_args name entry names (S i) args k
      end)
  end.

Definition cxpr_typecheck_infer_call (name : string) (args : list cxpr_expr_ast)
    (names : option (list (option string))) : run static_result :=
  let general :=
    let entry := registry_lookup reg name in
    check_args name entry names 0 args (Done (inl (entry ≫= fe_return_type))) in
  match args with
  | [c; x; y] =>
      if String.eqb name "if" then
        let^ cond_type := infer c in
        check (cxpr_typecheck_is_bool cond_type || cxpr_typecheck_is_numeric cond_type) name
          "bool or number condition" "condition" c cond_type (
        let^ true_type := infer x in
        let^ false_type := infer y in
        Done (cxpr_typecheck_join true_type false_type y))
      else general
  | _ => general
  end.

Fixpoint infer_all (values : list cxpr_expr_ast) (k : run static_result) : run static_result :=
  match values with
  | [] => k
  | v :: values => let^ _ := infer v in infer_all values k
  end.

Definition scalar_literal (a : cxpr_expr_ast) : bool :=
  match ast_node a with
  | CXPR_NODE_NUMBER _ | CXPR_NODE_BOOL _ | CXPR_NODE_STRING _ | CXPR_NODE_ARRAY _ => true
  | _ => false
  end.

Definition infer_field (a base : cxpr_expr_ast) (field : string) : run static_result :=
  let resolved := cxpr_typecheck_resolve_static_index_value base in
  let^ type := infer base in
  match ast_node resolved with
  | CXPR_NODE_RECORD _ _ =>
      match cxpr_typecheck_record_field resolved field with
      | Some value => infer value
      | None => fail_type (cxpr_typecheck_field_error field a)
      end
  | _ =>
      check (negb (scalar_literal base)) "." "record operand" "base" base type unknown
  end.

Definition infer_index (target index : cxpr_expr_ast) : run static_result :=
  let^ type := infer index in
  check (cxpr_typecheck_is_numeric type) "[]" "number index" "index expression" index type (
  match cxpr_registry_select_index_capability reg target with
  | sel_conflict =>
      fail_type (mk_error CXPR_ERR_TYPE_MISMATCH
                   (Some "Index target references multiple capabilities"%string) 0 0 0)
  | sel_one c => known_type (cap_result_type c)
  | sel_none =>
      match ast_node (cxpr_typecheck_resolve_static_index_value target) with
      | CXPR_NODE_ARRAY elements => cxpr_typecheck_infer_array_element elements index
      | _ => let^ _ := infer target in unknown
      end
  end).

Definition infer_node (a : cxpr_expr_ast) : run static_result :=
  match ast_node a with
  | CXPR_NODE_NUMBER _ => known_type CXPR_VALUE_NUMBER
  | CXPR_NODE_INT64 _ => known_type CXPR_VALUE_INT64
  | CXPR_NODE_BOOL _ => known_type CXPR_VALUE_BOOL
  | CXPR_NODE_STRING _ => known_type CXPR_VALUE_STRING
  | CXPR_NODE_ARRAY _ => known_type CXPR_VALUE_ARRAY
  | CXPR_NODE_RECORD _ values => infer_all values (known_type CXPR_VALUE_STRUCT)
  | CXPR_NODE_IDENTIFIER _ | CXPR_NODE_VARIABLE _ | CXPR_NODE_CHAIN_ACCESS _ _
  | CXPR_NODE_PRODUCER_ACCESS _ _ _ _ _ => unknown
  | CXPR_NODE_FIELD_ACCESS None _ _ _ => unknown
  | CXPR_NODE_FIELD_ACCESS (Some base) _ field _ => infer_field a base field
  | CXPR_NODE_BINARY_OP op l r =>
      let^ lt := infer l in
      let^ rt := infer r in
      binary_type op l r lt rt
  | CXPR_NODE_UNARY_OP op operand =>
      let^ type := infer operand in unary_type op operand type
  | CXPR_NODE_FUNCTION_CALL name args names => cxpr_typecheck_infer_call name args names
  | CXPR_NODE_INDEX target index => infer_index target index
  | CXPR_NODE_TERNARY c x y =>
      let^ type := infer c in
      check (cxpr_typecheck_is_bool type) "?:" "bool condition" "condition" c type (
      let^ true_type := infer x in
      let^ false_type := infer y in
      Done (cxpr_typecheck_join true_type false_type y))
  end.
End infer.

Fixpoint cxpr_typecheck_infer (fuel : nat) (reg : cxpr_registry) (a : cxpr_expr_ast)
    : run static_result :=
  match fuel with
  | O => OutOfFuel
  | S fuel => infer_node reg (cxpr_typecheck_infer fuel reg) a
  end.

(** The entry points; [None] is a NULL tree.  The type is written only when it is
    known. *)
Definition null_ast : cxpr_error := mk_error CXPR_ERR_SYNTAX (Some "NULL AST"%string) 0 0 0.

Definition cxpr_typecheck (a : option cxpr_expr_ast) (reg : cxpr_registry) : run static_result :=
  match a with
  | Some a => cxpr_typecheck_infer (S (height a)) reg a
  | None => Done (inr null_ast)
  end.

Definition cxpr_typecheck_bool_root (a : option cxpr_expr_ast) (reg : cxpr_registry)
    : run (option cxpr_error) :=
  match a with
  | Some a =>
      let* r := cxpr_typecheck_infer (S (height a)) reg a in
      Done match r with
           | inr err => Some err
           | inl type =>
               if cxpr_typecheck_is_bool type then None
               else Some (cxpr_typecheck_error "bool root" "bool expression" "root" a type)
           end
  | None => Done (Some null_ast)
  end.
