(* ===== verification/Define.v ===== *)
(** * Define: functions defined by an expression ([src/registry/define.c])

    [cxpr_registry_define_fn] parses a definition [name(p, q) => body], collects
    which fields of its parameters the body reads, and stores the body in the
    registry; [cxpr_registry_define_record_fn] stores one body per result field.
    Allocation succeeds. *)

From Stdlib Require Import Ascii String ZArith Lia.
From stdpp Require Import base list strings gmap.
From S2P Require Import Prelude Float64 Types Lexer Ast References Registry RegistryProofs Parser ParserProofs.
Local Open Scope run_scope.
Local Open Scope nat_scope.

Definition CXPR_DEF_MAX_PARAMS : nat := 16.

(** ** Fields read of the parameters *)

(** One set of names per parameter, in order of discovery. *)
Definition cxpr_def_field_set_add (set : list string) (field : string) : list string :=
  if existsb (String.eqb field) set then set else set ++ [field].

(** The index of the first parameter of that name. *)
Fixpoint param_index (params : list string) (name : string) : option nat :=
  match params with
  | [] => None
  | p :: params => if String.eqb name p then Some 0 else option_map S (param_index params name)
  end.

Definition add_field (params : list string) (object field : string) (sets : list (list string))
    : list (list string) :=
  match param_index params object with
  | Some i => alter (λ set, cxpr_def_field_set_add set field) i sets
  | None => sets
  end.

Fixpoint collect_fields_in_ast (params : list string) (a : cxpr_expr_ast)
    (sets : list (list string)) : list (list string) :=
  let '(Ast _ d) := a in
  match d with
  | CXPR_NODE_FIELD_ACCESS None (Some object) field _ => add_field params object field sets
  | CXPR_NODE_FIELD_ACCESS (Some base) _ _ _ => collect_fields_in_ast params base sets
  | CXPR_NODE_BINARY_OP _ l r =>
      collect_fields_in_ast params r (collect_fields_in_ast params l sets)
  | CXPR_NODE_UNARY_OP _ x => collect_fields_in_ast params x sets
  | CXPR_NODE_INDEX t i => collect_fields_in_ast params i (collect_fields_in_ast params t sets)
  | CXPR_NODE_FUNCTION_CALL _ args _ =>
      fold_left (λ sets a, collect_fields_in_ast params a sets) args sets
  | CXPR_NODE_TERNARY c t f =>
      collect_fields_in_ast params f
        (collect_fields_in_ast params t (collect_fields_in_ast params c sets))
  | _ => sets
  end.

(** The fields a called function reads of an argument that is a parameter. *)
Definition add_called_fields (params : list string) (args : list cxpr_expr_ast)
    (param_fields : list (list string)) (sets : list (list string)) : list (list string) :=
  fold_left (λ sets '(arg, fields),
    match ast_node arg with
    | CXPR_NODE_IDENTIFIER name =>
        match param_index params name with
        | Some i => fold_left (λ sets f, alter (λ set, cxpr_def_field_set_add set f) i sets) fields sets
        | None => sets
        end
    | _ => sets
    end) (zip args param_fields) sets.

(** [lookup] is the search in the registry. *)
Fixpoint collect_transitive_fields_in_ast (lookup : string → option cxpr_func_entry) (params : list string)
    (a : cxpr_expr_ast) (sets : list (list string)) : list (list string) :=
  let '(Ast _ d) := a in
  match d with
  | CXPR_NODE_FUNCTION_CALL name args _ =>
      let sets :=
        match lookup name with
        | Some e =>
            match fe_defined_param_fields e with
            | Some fields =>
                if length (fe_defined_param_names e) =? length args
                then add_called_fields params args fields sets else sets
            | None => sets
            end
        | None => sets
        end in
      fold_left (λ sets a, collect_transitive_fields_in_ast lookup params a sets) args sets
  | CXPR_NODE_BINARY_OP _ lhs rhs =>
      collect_transitive_fields_in_ast lookup params rhs
        (collect_transitive_fields_in_ast lookup params lhs sets)
  | CXPR_NODE_UNARY_OP _ x => collect_transitive_fields_in_ast lookup params x sets
  | CXPR_NODE_INDEX t i =>
      collect_transitive_fields_in_ast lookup params i (collect_transitive_fields_in_ast lookup params t sets)
  | CXPR_NODE_TERNARY c t f =>
      collect_transitive_fields_in_ast lookup params f
        (collect_transitive_fields_in_ast lookup params t
          (collect_transitive_fields_in_ast lookup params c sets))
  | _ => sets
  end.

(** ** The definition's text *)

Definition is_ident_char (c : ascii) : bool :=
  let n := ascii_code c in
  ((97 <=? n) && (n <=? 122) || (65 <=? n) && (n <=? 90) || (48 <=? n) && (n <=? 57) || (n =? 95))%Z.

Definition is_blank (c : ascii) : bool := (c =? " ")%char || (c =? "009")%char.

Fixpoint skip_blanks (p : string) : string :=
  match p with
  | String c p' => if is_blank c then skip_blanks p' else p
  | EmptyString => p
  end.

(** The identifier characters at [p] and what follows them. *)
Fixpoint scan_ident (p : string) : string * string :=
  match p with
  | String c p' =>
      if is_ident_char c then let '(id, rest) := scan_ident p' in (String c id, rest)
      else (EmptyString, p)
  | EmptyString => (EmptyString, p)
  end.

Definition syntax_error (message : string) : cxpr_error :=
  mk_error CXPR_ERR_SYNTAX (Some message) 0 0 0.

(** The loop over the parameters, behind the opening parenthesis: the names and
    the text behind the closing one. *)
Fixpoint parse_params (fuel : nat) (p : string) (names : list string)
    : run ((list string * string) + cxpr_error) :=
  match fuel with
  | O => OutOfFuel
  | S fuel =>
      let p := skip_blanks p in
      if (char_at0 p =? ")")%char then Done (inl (names, str_tail p))
      else if negb (length names =? 0) && negb (char_at0 p =? ",")%char
      then Done (inr (syntax_error "Expected ',' or ')' in parameter list"))
      else
        let p := if length names =? 0 then p else skip_blanks (str_tail p) in
        let '(name, p) := scan_ident p in
        if strlen name =? 0 then Done (inr (syntax_error "Expected parameter name"))
        else if CXPR_DEF_MAX_PARAMS <=? length names
        then Done (inr (syntax_error "Too many parameters (max 16)"))
        else if 64 <=? strlen name then Done (inr (syntax_error "Parameter name too long"))
        else parse_params fuel p (names ++ [name])
  end.

(** Function name, parameters and text of the body. *)
Definition parse_header (def : string) : run ((string * list string * string) + cxpr_error) :=
  let p := skip_blanks def in
  let p := if (char_at 0 p =? "f")%char && (char_at 1 p =? "n")%char && is_blank (char_at 2 p)
           then skip_blanks (str_drop 2 p) else p in
  let '(fname, p) := scan_ident p in
  if strlen fname =? 0 then Done (inr (syntax_error "Expected function name"))
  else if 256 <=? strlen fname then Done (inr (syntax_error "Function name too long"))
  else
    let p := skip_blanks p in
    if negb (char_at0 p =? "(")%char
    then Done (inr (syntax_error "Expected '(' after function name"))
    else
      let* r := parse_params (S (strlen p)) (str_tail p) [] in
      match r with
      | inr e => Done (inr e)
      | inl (params, p) =>
          let p := skip_blanks p in
          if (char_at0 p =? "=")%char then
            let p := if (char_at 1 p =? ">")%char then str_drop 2 p else str_tail p in
            let p := skip_blanks p in
            if strlen p =? 0 then Done (inr (syntax_error "Empty function body"))
            else Done (inl (fname, params, p))
          else Done (inr (syntax_error "Expected '=>' or '='"))
      end.

(** ** Storing *)

Definition no_sets : list (list string) := replicate CXPR_DEF_MAX_PARAMS [].

(** The entry that exists keeps its tree-aware callback and its producer. *)
Definition define_over (params : list string) (fields : list (list string)) (body : cxpr_expr_ast)
    (e : cxpr_func_entry) : cxpr_func_entry :=
  with_defined (Some body) params (Some fields) []
    (with_userdata ud_null None
      (with_return_type None
        (with_arg_types None
          (with_arity (length params) (length params)
            (with_native None
              (with_scalar_funcs None None None (cxpr_registry_clear_owned_entry e))))))).

Definition define_new (name : string) (params : list string) (fields : list (list string))
    (body : cxpr_expr_ast) : cxpr_func_entry :=
  with_defined (Some body) params (Some fields) []
    (with_return_type None
      (with_arity (length params) (length params) (cxpr_registry_prepare_entry name))).

Definition growth_failed : cxpr_error :=
  mk_error CXPR_ERR_OUT_OF_MEMORY (Some "Registry growth failed"%string) 0 0 0.

Definition cxpr_registry_define_fn (r : cxpr_registry) (def : string)
    : run (cxpr_error * cxpr_registry) :=
  let* header := parse_header def in
  match header with
  | inr e => Done (e, r)
  | inl (fname, params, text) =>
      let* '(body, _, err) := cxpr_expr_ast_parse (Some cxpr_expr_parser_new) (Some text) error_zero in
      match body with
      | None => Done (err, r)
      | Some body =>
          let sets := collect_transitive_fields_in_ast (registry_lookup r) params body
                        (collect_fields_in_ast params body no_sets) in
          let fields := take (length params) sets in
          match cxpr_registry_find r fname with
          | Some i =>
              let rel := match reg_entries r !! i with Some e => entry_releases e | None => [] end in
              Done (err, bump_version
                (update_entry i (define_over params fields body) (release_all rel r)))
          | None =>
              match ensure_room r with
              | None => Done (growth_failed, r)
              | Some r =>
                  Done (err, bump_version
                    (set_entries (reg_entries r ++ [define_new fname params fields body]) r))
              end
          end
      end
  end.

(** The set-up of [cxpr_registry_define_record_fn], for both paths. *)
Definition define_record (params : list string) (fields : list (list string))
    (returns : list (string * cxpr_expr_ast)) (e : cxpr_func_entry) : cxpr_func_entry :=
  with_defined None params (Some fields) returns
    (with_return_type (Some CXPR_VALUE_STRUCT)
      (with_arity (length params) (length params)
        (with_native None
          (with_handler None (fe_handler_userdata e) (fe_handler_free e)
            (with_struct_producer None (with_ast_func None (with_scalar_funcs None None None e))))))).

Definition cxpr_registry_define_record_fn (r : cxpr_registry) (name : string)
    (params : list string) (returns : list (string * cxpr_expr_ast)) : cxpr_error * cxpr_registry :=
  if (length returns =? 0) || (CXPR_DEF_MAX_PARAMS <? length params)
  then (syntax_error "Invalid record function", r)
  else
    let sets := fold_left (λ sets '(_, body),
      collect_transitive_fields_in_ast (registry_lookup r) params body (collect_fields_in_ast params body sets))
      returns no_sets in
    let fields := take (length params) sets in
    let returns := map (λ '(n, body), (n, cxpr_expr_parser_clone_ast body)) returns in
    match cxpr_registry_find r name with
    | Some i =>
        let rel := match reg_entries r !! i with Some e => entry_releases e | None => [] end in
        (error_zero, bump_version
          (update_entry i (λ e, define_record params fields returns (cxpr_registry_clear_owned_entry e))
            (release_all rel r)))
    | None =>
        match ensure_room r with
        | None => (mk_error CXPR_ERR_OUT_OF_MEMORY (Some "Out of memory"%string) 0 0 0, r)
        | Some r =>
            (error_zero, bump_version (set_entries (reg_entries r ++
              [define_record params fields returns (cxpr_registry_prepare_entry name)]) r))
        end
    end.

(** ** The header parser ends *)

Lemma skip_blanks_le p : strlen (skip_blanks p) ≤ strlen p.
Proof. induction p as [|c p IH]; simpl; [lia|]. destruct (is_blank c); simpl; lia. Qed.

Lemma scan_ident_len p id rest : scan_ident p = (id, rest) → strlen p = strlen id + strlen rest.
Proof.
  revert id rest. induction p as [|c p IH]; intros id rest; simpl; [intros [= <- <-]; done|].
  destruct (is_ident_char c); [|intros [= <- <-]; done].
  destruct (scan_ident p) as [id' rest'] eqn:E. intros [= <- <-]. simpl. by rewrite (IH id' rest').
Qed.

Lemma parse_params_done fuel p names :
  strlen p < fuel → length names ≤ CXPR_DEF_MAX_PARAMS →
  match parse_params fuel p names with
  | Done (inl (params, _)) => length params ≤ CXPR_DEF_MAX_PARAMS
  | Done (inr e) => err_code e = CXPR_ERR_SYNTAX
  | _ => False
  end.
Proof.
  revert p names. induction fuel as [|fuel IH]; intros p names Hlen Hn; [lia|]. cbn [parse_params].
  pose proof (skip_blanks_le p) as Hskip. set (q := skip_blanks p) in *.
  destruct (char_at0 q =? ")")%char; [lia|].
  destruct (negb (length names =? 0) && negb (char_at0 q =? ",")%char); [done|].
  set (q' := if length names =? 0 then q else skip_blanks (str_tail q)).
  assert (Hq' : strlen q' ≤ strlen q).
  { subst q'. destruct (length names =? 0); [done|]. pose proof (skip_blanks_le (str_tail q)).
    rewrite strlen_tail in H. lia. }
  destruct (scan_ident q') as [name rest] eqn:Es. apply scan_ident_len in Es.
  destruct (Nat.eqb_spec (strlen name) 0); [done|].
  destruct (Nat.leb_spec CXPR_DEF_MAX_PARAMS (length names)); [done|].
  destruct (64 <=? strlen name); [done|].
  apply IH; [lia|]. rewrite length_app. simpl. lia.
Qed.

Lemma parse_header_done def :
  match parse_header def with
  | Done (inl (_, params, _)) => length params ≤ CXPR_DEF_MAX_PARAMS
  | Done (inr e) => err_code e = CXPR_ERR_SYNTAX
  | _ => False
  end.
Proof.
  unfold parse_header. set (p := if _ && _ then _ else _).
  destruct (scan_ident p) as [fname q]. destruct (strlen fname =? 0); [done|].
  destruct (256 <=? strlen fname); [done|].
  set (s := skip_blanks q). destruct (negb (char_at0 s =? "(")%char); [done|].
  pose proof (parse_params_done (S (strlen s)) (str_tail s) []) as Hp.
  destruct (parse_params _ _ _) as [[[params rest]|e]| |]; cbn [run_bind];
    [|apply Hp|apply Hp|apply Hp]; try (rewrite strlen_tail; lia); try (simpl; lia).
  destruct (char_at0 (skip_blanks rest) =? "=")%char; [|done].
  destruct (strlen _ =? 0); [done|]. apply Hp; [rewrite strlen_tail; lia|simpl; lia].
Qed.

(** ** What a definition does *)

(** The entry of a defined function. *)
Definition defines (params : list string) (body : cxpr_expr_ast) (e : cxpr_func_entry) : Prop :=
  fe_defined_param_names e = params ∧ fe_defined_body e = Some body ∧
  fe_min_args e = length params ∧ fe_max_args e = length params ∧ length params ≤ 16 ∧
  fe_sync_func e = None ∧ fe_value_func e = None ∧ fe_typed_func e = None ∧ fe_handler e = None ∧
  fe_defined_return e = [].

Lemma defines_over params fields body e : length params ≤ 16 → defines params body (define_over params fields body e).
Proof. intros Hl. destruct e. by split_and!. Qed.

Lemma defines_new name params fields body :
  length params ≤ 16 → defines params body (define_new name params fields body).
Proof. intros Hl. by split_and!. Qed.

(** The store step, once the text is parsed. *)
Lemma define_store r fname params fields body :
  reg_ok r → reg_room r → length params ≤ 16 →
  ∃ r' e,
    match cxpr_registry_find r fname with
    | Some i =>
        Some (bump_version (update_entry i (define_over params fields body)
          (release_all match reg_entries r !! i with Some e => entry_releases e | None => [] end r)))
    | None =>
        option_map (λ r, bump_version
          (set_entries (reg_entries r ++ [define_new fname params fields body]) r)) (ensure_room r)
    end = Some r' ∧
    reg_ok r' ∧ reg_view r' = <[fname := e]> (reg_view r) ∧ defines params body e.
Proof.
  intros Hok Hroom Hl. destruct (cxpr_registry_find r fname) as [i|] eqn:Hf.
  - destruct (find_view r fname i Hf) as (e & He & Hv). rewrite He.
    destruct (update_spec (release_all (entry_releases e) r) fname i (define_over params fields body))
      as (Hok' & Hview & _); [done|by intros []|by apply reg_ok_release|].
    eexists _, (define_over params fields body e). split_and!; [done|done| |by apply defines_over].
    etrans; [apply Hview|]. change (reg_view (release_all _ r)) with (reg_view r).
    apply map_eq. intros n. destruct (decide (n = fname)) as [->|];
      [by rewrite lookup_alter_eq, lookup_insert_eq, Hv|by rewrite lookup_alter_ne, lookup_insert_ne].
  - destruct (append_spec r fname (define_new fname params fields body)) as (r' & Hr & Hok' & Hview & _);
      [done..|]. rewrite Hr. eexists _, _. split_and!; [done|done|exact Hview|by apply defines_new].
Qed.

(** A definition is stored completely or not at all.  Reading it always ends;
    if an error is reported the registry is unchanged; otherwise the name has an
    entry with exactly the parsed body and parameters, at most 16 of them, the
    scalar callbacks of an earlier entry are gone, and no other entry changed. *)
Theorem define_fn_all_or_nothing r def :
  reg_ok r → reg_room r →
  match cxpr_registry_define_fn r def with
  | Done (err, r') =>
      if decide (err_code err = CXPR_OK) then
        ∃ fname params body e, reg_ok r' ∧ registry_lookup r' fname = Some e ∧ defines params body e ∧
          ∀ n, n ≠ fname → registry_lookup r' n = registry_lookup r n
      else r' = r
  | OutOfFuel => False
  | Undef => True
  end.
Proof.
  intros Hok Hroom. unfold cxpr_registry_define_fn. pose proof (parse_header_done def) as Hh.
  destruct (parse_header def) as [[[[fname params] text]|e]| |]; cbn [run_bind]; [|by rewrite Hh|done|done].
  pose proof (parse_spec cxpr_expr_parser_new text error_zero) as Hp.
  destruct (cxpr_expr_ast_parse _ _ _) as [[[[body|] [p|]] err]| |]; cbn [run_bind]; try done.
  - destruct Hp as (Hcode & _).
    set (fields := take _ _).
    destruct (define_store r fname params fields body Hok Hroom Hh) as (r' & e & Hr & Hok' & Hview & Hd).
    assert (Hgoal : if decide (err_code err = CXPR_OK) then
      ∃ fname params body e, reg_ok r' ∧ registry_lookup r' fname = Some e ∧ defines params body e ∧
        ∀ n, n ≠ fname → registry_lookup r' n = registry_lookup r n else r' = r).
    { rewrite decide_True by done. exists fname, params, body, e. split_and!; [done| |done|].
      - by rewrite registry_lookup_view, Hview, lookup_insert_eq.
      - intros n Hn. by rewrite !registry_lookup_view, Hview, lookup_insert_ne. }
    destruct (cxpr_registry_find r fname) as [i|]; [by injection Hr as ->|].
    destruct (ensure_room r); [|done]. by injection Hr as ->.
  - destruct Hp as [[Hc|Hc] _]; by rewrite decide_False by congruence.
Qed.

Lemma define_fn_all_or_nothing_witness :
  ∃ e r', cxpr_registry_define_fn cxpr_registry_new "fn mid(a, b) => (a + b) / 2" = Done (e, r') ∧
    (if decide (err_code e = CXPR_OK) then
       ∃ fname params body en, reg_ok r' ∧ registry_lookup r' fname = Some en ∧ defines params body en ∧
         ∀ n, n ≠ fname → registry_lookup r' n = registry_lookup cxpr_registry_new n
     else r' = cxpr_registry_new).
Proof.
  pose proof (define_fn_all_or_nothing cxpr_registry_new "fn mid(a, b) => (a + b) / 2" registry_new_ok) as H.
  assert (Hroom : reg_room cxpr_registry_new) by (vm_compute; discriminate). specialize (H Hroom).
  remember (cxpr_registry_define_fn cxpr_registry_new "fn mid(a, b) => (a + b) / 2") as m eqn:Hm.
  vm_compute in Hm. subst m. eexists _, _. split; [reflexivity|exact H].
Defined.

(** A definition over an entry with a tree-aware callback or a struct
    producer leaves that callback in place, with its user data released and set
    to NULL: the evaluator tries the callback first, so the definition is never
    used. *)
Theorem redefinition_keeps_callback f ud free :
  let r := cxpr_registry_add_ast cxpr_registry_new "delta" f 2 2 CXPR_VALUE_NUMBER ud (Some free) in
  match cxpr_registry_define_fn r "delta(a, b) => a - b" with
  | Done (err, r') =>
      err_code err = CXPR_OK ∧ reg_released r' = [(free, ud)] ∧
      ∃ e, registry_lookup r' "delta" = Some e ∧ fe_defined_body e ≠ None ∧
        fe_ast_func e = Some f ∧ fe_userdata e = ud_null
  | _ => False
  end.
Proof. vm_compute. split; [reflexivity|]. split; [reflexivity|]. eexists. split; [reflexivity|]. done. Qed.
