(* ===== verification/RegistryHistory.v ===== *)
(** * RegistryHistory: what a registry holds after any sequence of changes

    All operations that change a registry, as steps of one machine: the
    registrations and overlays of [add.c], parameter names, code generation,
    definitions ([define.c]), the lookback resolver ([helpers.c]) and index
    capabilities ([index.c]).  Their entries are those of a finite map, and the
    user data they were given is destroyed once. *)

From Stdlib Require Import Ascii String ZArith Lia.
From stdpp Require Import base list strings gmap fin_maps.
From S2P Require Import Prelude Float64 Types Lexer Ast References Registry RegistryProofs Parser ParserProofs Define.
Local Open Scope run_scope.
Local Open Scope nat_scope.

Inductive registry_step : Type :=
  | StepAdd (op : registry_op)
  | StepDefine (def : string)
  | StepRecord (name : string) (params : list string) (returns : list (string * cxpr_expr_ast))
  | StepLookback (resolver : option cxpr_lookback_resolver_ptr) (ud : userdata)
      (free : option cxpr_userdata_free_fn)
  | StepCapability (capability : string) (targets : list string) (result_type : cxpr_value_type)
      (resolve : Z) (ud : userdata) (free : option cxpr_userdata_free_fn).

Definition take_step (s : registry_step) (r : cxpr_registry) : run cxpr_registry :=
  match s with
  | StepAdd op => Done (exec op r)
  | StepDefine def => let* '(_, r) := cxpr_registry_define_fn r def in Done r
  | StepRecord name params returns => Done (snd (cxpr_registry_define_record_fn r name params returns))
  | StepLookback resolver ud free => Done (cxpr_registry_set_lookback_resolver r resolver ud free)
  | StepCapability capability targets rt resolve ud free =>
      Done (snd (cxpr_registry_add_index_capability_targets r capability targets rt resolve ud free))
  end.

Fixpoint take_steps (steps : list registry_step) (r : cxpr_registry) : run cxpr_registry :=
  match steps with
  | [] => Done r
  | s :: steps => let* r := take_step s r in take_steps steps r
  end.

(** ** The map the steps describe *)

(** Name, parameters and body of a definition that is well formed. *)
Definition definition_of (def : string) : option (string * list string * cxpr_expr_ast) :=
  match parse_header def with
  | Done (inl (fname, params, text)) =>
      match cxpr_expr_ast_parse (Some cxpr_expr_parser_new) (Some text) error_zero with
      | Done (Some body, _, _) => Some (fname, params, body)
      | _ => None
      end
  | _ => None
  end.

(** The fields a body reads of each parameter, with those the functions it calls
    read of theirs. *)
Definition fields_read (m : gmap string cxpr_func_entry) (params : list string) (bodies : list cxpr_expr_ast)
    : list (list string) :=
  take (length params) (fold_left (λ sets body,
    collect_transitive_fields_in_ast (λ n, m !! n) params body (collect_fields_in_ast params body sets)) bodies no_sets).

Definition spec_step (s : registry_step) (m : gmap string cxpr_func_entry) : gmap string cxpr_func_entry :=
  match s with
  | StepAdd op => partial_alter (spec_entry op) (op_name op) m
  | StepDefine def =>
      match definition_of def with
      | None => m
      | Some (fname, params, body) =>
          let fields := fields_read m params [body] in
          <[fname := match m !! fname with
                     | Some e => define_over params fields body e
                     | None => define_new fname params fields body
                     end]> m
      end
  | StepRecord name params returns =>
      if (length returns =? 0) || (CXPR_DEF_MAX_PARAMS <? length params) then m
      else
        let fields := fields_read m params (snd <$> returns) in
        let returns := map (λ '(n, body), (n, cxpr_expr_parser_clone_ast body)) returns in
        <[name := define_record params fields returns
                    match m !! name with
                    | Some e => cxpr_registry_clear_owned_entry e
                    | None => cxpr_registry_prepare_entry name
                    end]> m
  | StepLookback _ _ _ | StepCapability _ _ _ _ _ _ => m
  end.

Definition spec_steps (steps : list registry_step) (m : gmap string cxpr_func_entry) : gmap string cxpr_func_entry :=
  fold_left (λ m s, spec_step s m) steps m.

(** Definitions whose body the parser can read without leaving its arrays. *)
Definition readable (s : registry_step) : Prop :=
  match s with
  | StepDefine def =>
      ∀ fname params text, parse_header def = Done (inl (fname, params, text)) → count_commas text < 7
  | _ => True
  end.

(** ** One step *)

Lemma view_alter r name e f :
  reg_view r !! name = Some e → alter f name (reg_view r) = <[name := f e]> (reg_view r).
Proof.
  intros Hv. apply map_eq. intros n. destruct (decide (n = name)) as [->|];
    [by rewrite lookup_alter_eq, lookup_insert_eq, Hv|by rewrite lookup_alter_ne, lookup_insert_ne].
Qed.

Lemma fold_left_mem {A B} (f g : B → A → B) l b : (∀ x b, x ∈ l → f b x = g b x) → fold_left f l b = fold_left g l b.
Proof.
  revert b. induction l as [|x l IH]; intros b Hfg; simpl; [done|].
  rewrite (Hfg x b) by (by left). apply IH. intros y b' Hy. apply Hfg. by right.
Qed.

(** The fields depend on what the search finds and on nothing else. *)
Lemma collect_ext look look' params body :
  (∀ n, look n = look' n) → ∀ sets,
  collect_transitive_fields_in_ast look params body sets = collect_transitive_fields_in_ast look' params body sets.
Proof.
  intros Hl. induction body as [s d IH] using ast_ind.
  destruct d; intros sets; try done; simpl in IH; repeat (apply Forall_cons in IH as [? IH]);
    cbn [collect_transitive_fields_in_ast]; try congruence.
  rewrite Hl. apply fold_left_mem. intros x b Hx. rewrite Forall_forall in IH. by apply IH.
Qed.

Lemma fields_read_view r params bodies :
  take (length params) (fold_left (λ sets body, collect_transitive_fields_in_ast (registry_lookup r) params body
    (collect_fields_in_ast params body sets)) bodies no_sets) = fields_read (reg_view r) params bodies.
Proof.
  unfold fields_read. f_equal. apply fold_left_mem. intros body sets _.
  apply collect_ext. apply registry_lookup_view.
Qed.

(** The two ways to store a definition. *)
Lemma store_over r name i e f :
  reg_ok r → cxpr_registry_find r name = Some i → reg_entries r !! i = Some e → (∀ e, fe_name (f e) = fe_name e) →
  let r' := bump_version (update_entry i f (release_all (entry_releases e) r)) in
  reg_ok r' ∧ reg_view r' = <[name := f e]> (reg_view r) ∧ reg_view r !! name = Some e.
Proof.
  intros Hok Hf He Hname r'. destruct (find_view r name i Hf) as (e' & He' & Hv).
  assert (e' = e) as -> by congruence.
  destruct (update_spec (release_all (entry_releases e) r) name i f) as (Hok' & Hview & _); [done|done|by apply reg_ok_release|].
  split_and!; [done| |done]. etrans; [apply Hview|]. exact (view_alter r name e f Hv).
Qed.

(** A step keeps the registry well formed, does what the map says, and adds at
    most one entry. *)
Definition step_refines (s : registry_step) (r r' : cxpr_registry) : Prop :=
  reg_ok r' ∧ reg_view r' = spec_step s (reg_view r).

Lemma define_refines def r r' err :
  reg_ok r → reg_room r → cxpr_registry_define_fn r def = Done (err, r') → step_refines (StepDefine def) r r'.
Proof.
  intros Hok Hroom. unfold cxpr_registry_define_fn, step_refines. cbn [spec_step]. unfold definition_of.
  destruct (parse_header def) as [[[[fname params] text]|e]| |]; cbn [run_bind]; try done; [|by intros [= <- <-]].
  destruct (cxpr_expr_ast_parse _ _ _) as [[[[body|] p] e]| |]; cbn [run_bind]; try done; [|by intros [= <- <-]].
  pose proof (fields_read_view r params [body]) as Hf. cbn [fold_left] in Hf. rewrite Hf.
  destruct (cxpr_registry_find r fname) as [i|] eqn:Hi.
  - destruct (find_view r fname i Hi) as (en & He & _). rewrite He. intros [= <- <-].
    destruct (store_over r fname i en (define_over params (fields_read (reg_view r) params [body]) body))
      as (? & ? & ->); [done..|by intros []|done].
  - edestruct (append_spec r fname) as (r1 & -> & Hok' & Hview & _); [done| |done..|];
      [|intros [= <- <-]; rewrite find_view_none by done; by split]. done.
Qed.

Lemma record_refines name params returns r :
  reg_ok r → reg_room r →
  step_refines (StepRecord name params returns) r (snd (cxpr_registry_define_record_fn r name params returns)).
Proof.
  intros Hok Hroom. unfold cxpr_registry_define_record_fn, step_refines. cbn [spec_step].
  destruct (_ || _); [done|].
  assert (Hfold : fold_left (λ sets '(_, body), collect_transitive_fields_in_ast (registry_lookup r) params body
      (collect_fields_in_ast params body sets)) returns no_sets =
    fold_left (λ sets body, collect_transitive_fields_in_ast (registry_lookup r) params body
      (collect_fields_in_ast params body sets)) (snd <$> returns) no_sets).
  { generalize no_sets. induction returns as [|[n b] returns IH]; intros sets; csimpl; [done|apply IH]. }
  rewrite Hfold, fields_read_view.
  destruct (cxpr_registry_find r name) as [i|] eqn:Hi; cbn [snd].
  - destruct (find_view r name i Hi) as (en & He & _). rewrite He.
    match goal with |- context [update_entry i ?g _] => destruct (store_over r name i en g) as (? & Hview & ->) end;
      [done..|by intros []|]. split; [done|exact Hview].
  - edestruct (append_spec r name) as (r1 & -> & Hok' & Hview & _); [done| |done..|];
      [|rewrite find_view_none by done; by split]. done.
Qed.

Lemma lookback_ok r resolver ud free :
  reg_ok r → step_refines (StepLookback resolver ud free) r (cxpr_registry_set_lookback_resolver r resolver ud free).
Proof.
  intros Hok. unfold cxpr_registry_set_lookback_resolver, step_refines. cbn [spec_step].
  case_bool_decide; (split; [|done]); by apply (reg_ok_entries r).
Qed.

Lemma capability_ok r capability targets rt resolve ud free :
  reg_ok r → step_refines (StepCapability capability targets rt resolve ud free) r
    (snd (cxpr_registry_add_index_capability_targets r capability targets rt resolve ud free)).
Proof.
  intros Hok. unfold cxpr_registry_add_index_capability_targets, step_refines. cbn [spec_step].
  destruct (_ || _); [done|]. destruct (targets_ok _ _ _); [|done]. split; [|done]. by apply (reg_ok_entries r).
Qed.

Lemma take_step_refines s r r' : reg_ok r → reg_room r → take_step s r = Done r' → step_refines s r r'.
Proof.
  intros Hok Hroom. destruct s as [op|def|name params returns|resolver ud free|]; cbn [take_step].
  - intros [= <-]. destruct (exec_refines op r Hok Hroom) as (? & ? & _). by split.
  - intros ([err r1] & Hd & [= <-])%run_bind_Done. by eapply define_refines.
  - intros [= <-]. by apply record_refines.
  - intros [= <-]. by apply lookback_ok.
  - intros [= <-]. by apply capability_ok.
Qed.

Lemma take_step_done s r : readable s → ∃ r', take_step s r = Done r'.
Proof.
  destruct s as [|def| | |]; cbn [take_step readable]; eauto. intros Hread.
  unfold cxpr_registry_define_fn. pose proof (parse_header_done def) as Hh.
  destruct (parse_header def) as [[[[fname params] text]|e]| |]; cbn [run_bind]; try done; [|by eauto].
  specialize (Hread _ _ _ eq_refl). pose proof (parse_spec cxpr_expr_parser_new text error_zero) as Hp.
  destruct (cxpr_expr_ast_parse _ _ _) as [[[[body|] p] e]| |]; cbn [run_bind]; try done; [| |lia]; [|by eauto].
  destruct (cxpr_registry_find r fname); [by eauto|]. destruct (ensure_room r); by eauto.
Qed.

Lemma insert_size n (e : cxpr_func_entry) m : size (<[n := e]> m : gmap string cxpr_func_entry) ≤ S (size m).
Proof. rewrite map_size_insert. destruct (m !! n); simpl; lia. Qed.

Lemma spec_step_size s m : size (spec_step s m) ≤ S (size m).
Proof.
  destruct s as [op|def|name params returns| |]; cbn [spec_step]; try lia.
  - apply partial_alter_size.
  - destruct (definition_of def) as [[[fname params] body]|]; [apply insert_size|lia].
  - destruct (_ || _); [lia|apply insert_size].
Qed.

Lemma take_steps_refine steps r :
  reg_ok r → (Z.of_nat (length (reg_entries r) + length steps) ≤ SIZE_MAX / 2)%Z → Forall readable steps →
  ∃ r', take_steps steps r = Done r' ∧ reg_ok r' ∧ reg_view r' = spec_steps steps (reg_view r) ∧
    length (reg_entries r') ≤ length (reg_entries r) + length steps.
Proof.
  revert r. induction steps as [|s steps IH]; intros r Hok Hlen Hread; cbn [take_steps].
  { exists r. split_and!; [done..|simpl; lia]. }
  apply Forall_cons in Hread as [Hs Hread]. simpl in Hlen. assert (Hroom : reg_room r) by (unfold reg_room; lia).
  destruct (take_step_done s r Hs) as [r1 Hr1]. destruct (take_step_refines s r r1 Hok Hroom Hr1) as [Hok1 Hview1].
  pose proof (spec_step_size s (reg_view r)) as Hsize. rewrite <- Hview1, <- !names_in_view in Hsize by done.
  destruct (IH r1 Hok1) as (r' & Hr' & Hok' & Hview' & Hlen'); [lia|done|].
  exists r'. rewrite Hr1. cbn [run_bind]. split_and!; [done..| |simpl; lia]. by rewrite Hview', Hview1.
Qed.

(** C33: after any sequence of changes to a fresh registry -- each way to register
    a function or a producer, overlays, parameter names, code generation,
    definitions from text and from records, the lookback resolver, index
    capabilities, refused ones included -- the array of entries is the map the
    sequence describes: names are unique, the linear search answers as the map,
    and a further registration under another name does not change the answer.
    There are at most [SIZE_MAX / 2] changes, allocation succeeds, and the body
    of a text definition has fewer than seven commas. *)
Theorem registry_refines_map (steps : list registry_step) (n : string)
    (Hlen : (Z.of_nat (length steps) ≤ SIZE_MAX / 2)%Z) (Hread : Forall readable steps) :
  ∃ r, take_steps steps cxpr_registry_new = Done r ∧ NoDup (fe_name <$> reg_entries r) ∧
    registry_lookup r n = spec_steps steps ∅ !! n ∧
    ∀ op, op_name op ≠ n → registry_lookup (exec op r) n = registry_lookup r n.
Proof.
  destruct (take_steps_refine steps cxpr_registry_new registry_new_ok) as (r & Hr & Hok & Hview & Hcount);
    [simpl; lia|done|]. exists r. split_and!; [done|apply Hok| |].
  - by rewrite registry_lookup_view, Hview.
  - intros op Hne. destruct (exec_refines op r) as (_ & Hview' & _); [done|unfold reg_room; simpl in Hcount; lia|].
    by rewrite !registry_lookup_view, Hview', lookup_partial_alter_ne.
Qed.

(** Two numeric functions, a definition over one of them, a function of structs
    and a refused one. *)
Definition some_steps : list registry_step :=
  [StepAdd (OpNumeric "f" (fn_sync 10) 1 2 ud_null None);
   StepAdd (OpFn "gap" (fn_sync 11) ["high"; "low"] 1 (ud_host 7) (Some (free_host 1)));
   StepAdd (OpFn "none" (fn_sync 11) [] 1 (ud_host 8) (Some (free_host 1)));
   StepDefine "f(x, y) => x - y";
   StepAdd (OpParamNames "gap" ["bar"])]%list.

Lemma registry_refines_map_witness :
  ∃ r, take_steps some_steps cxpr_registry_new = Done r ∧
    registry_lookup r "none" = None ∧ registry_lookup r "f" = spec_steps some_steps ∅ !! "f"%string.
Proof.
  assert (Hread : Forall readable some_steps).
  { unfold some_steps. rewrite !Forall_cons. split_and!; try exact I; [|apply Forall_nil_2].
    intros fname params text Hh. vm_compute in Hh. injection Hh as _ _ <-. vm_compute. lia. }
  destruct (registry_refines_map some_steps "f" ltac:(vm_compute; discriminate) Hread) as (r & Hr & _ & Hf & _).
  exists r. split_and!; [done| |done]. vm_compute in Hr. injection Hr as <-. reflexivity.
Defined.

(** ** Ownership of user data *)

(** What a step hands over together with a destructor: an index capability that
    is refused hands nothing over, and NULL is never destroyed. *)
Definition step_given (s : registry_step) (r : cxpr_registry) : list release :=
  match s with
  | StepAdd op => given op r
  | StepDefine _ | StepRecord _ _ _ => []
  | StepLookback _ ud free => free_nonnull free ud
  | StepCapability capability targets rt resolve ud free =>
      if fst (cxpr_registry_add_index_capability_targets r capability targets rt resolve ud free)
      then free_nonnull free ud else []
  end.

(** Excepted are, next to those of [conserves], lookback data the registry has
    already. *)
Definition step_conserves (s : registry_step) (r : cxpr_registry) : Prop :=
  match s with
  | StepAdd op => conserves op r
  | StepLookback _ ud _ => reg_lookback_userdata r ≠ ud ∨ ud = ud_null
  | _ => True
  end.

(** Histories, with what they handed over. *)
Inductive ledger : list release → cxpr_registry → Prop :=
  | ledger_new : ledger [] cxpr_registry_new
  | ledger_step g r s r' :
      ledger g r → reg_room r → step_conserves s r → take_step s r = Done r' → ledger (g ++ step_given s r) r'.

Lemma stored_over_free r i e f :
  reg_entries r !! i = Some e → entry_releases (f e) = [] →
  cxpr_registry_free (bump_version (update_entry i f (release_all (entry_releases e) r))) ≡ₚ cxpr_registry_free r.
Proof.
  intros He Hf. rewrite <- (app_nil_r (cxpr_registry_free r)).
  apply (free_update r i e f _ []); [done|by rewrite app_nil_r|by rewrite Hf].
Qed.

Lemma define_conserves def r r' err :
  reg_ok r → reg_room r → cxpr_registry_define_fn r def = Done (err, r') → cxpr_registry_free r' ≡ₚ cxpr_registry_free r.
Proof.
  intros Hok Hroom. unfold cxpr_registry_define_fn.
  destruct (parse_header def) as [[[[fname params] text]|e]| |]; cbn [run_bind]; try done; [|by intros [= <- <-]].
  destruct (cxpr_expr_ast_parse _ _ _) as [[[[body|] p] e]| |]; cbn [run_bind]; try done; [|by intros [= <- <-]].
  set (fields := take _ _). destruct (cxpr_registry_find r fname) as [i|] eqn:Hi.
  - destruct (find_view r fname i Hi) as (en & He & _). rewrite He. intros [= <- <-].
    apply stored_over_free; [done|by destruct en].
  - edestruct (append_spec r fname) as (r1 & -> & _ & _ & _ & Hfree); [done| |done..|];
      [|intros [= <- <-]; rewrite Hfree; unfold entry_releases; simpl; by rewrite app_nil_r]. done.
Qed.

Lemma record_conserves name params returns r :
  reg_ok r → reg_room r →
  cxpr_registry_free (snd (cxpr_registry_define_record_fn r name params returns)) ≡ₚ cxpr_registry_free r.
Proof.
  intros Hok Hroom. unfold cxpr_registry_define_record_fn. destruct (_ || _); [done|]. set (fields := take _ _).
  destruct (cxpr_registry_find r name) as [i|] eqn:Hi; cbn [snd].
  - destruct (find_view r name i Hi) as (en & He & _). rewrite He. apply stored_over_free; [done|by destruct en].
  - edestruct (append_spec r name) as (r1 & -> & _ & _ & _ & Hfree); [done| |done..|];
      [|cbn [snd]; rewrite Hfree; unfold entry_releases; simpl; by rewrite app_nil_r]. done.
Qed.

Lemma lookback_conserves resolver ud free r :
  reg_lookback_userdata r ≠ ud ∨ ud = ud_null →
  cxpr_registry_free (cxpr_registry_set_lookback_resolver r resolver ud free) ≡ₚ
  cxpr_registry_free r ++ free_nonnull free ud.
Proof.
  intros Hc. unfold cxpr_registry_set_lookback_resolver. case_bool_decide as Hud.
  - destruct Hc as [| ->]; [done|]. unfold cxpr_registry_free. cbn [set_lookback reg_released reg_lookback_free
      reg_lookback_userdata reg_entries reg_capabilities]. rewrite Hud. simpl. by rewrite app_nil_r.
  - unfold cxpr_registry_free. cbn [set_lookback release_all reg_released reg_lookback_free
      reg_lookback_userdata reg_entries reg_capabilities].
    unfold free_nonnull at 1 3. destruct (reg_lookback_userdata r); simpl app; solve_Permutation.
Qed.

Lemma pending_releases capability rt resolve ud free targets :
  targets ≠ [] →
  flat_map (λ c, free_nonnull (cap_free c) (cap_userdata c)) (pending_capabilities capability rt resolve ud free targets)
  = free_nonnull free ud.
Proof.
  destruct targets as [|t targets]; [done|intros _]. unfold pending_capabilities. cbn [imap]. cbn [flat_map cap_free cap_userdata].
  assert (Hrest : ∀ (l : list string) (g : nat → string → cxpr_index_capability_entry),
    (∀ i t, cap_free (g i t) = None) → flat_map (λ c, free_nonnull (cap_free c) (cap_userdata c)) (imap g l) = []).
  { induction l as [|x l IH]; intros g Hg; [done|]. simpl. rewrite Hg, IH by (intros; apply Hg).
    by destruct (cap_userdata _). }
  etrans; [|apply app_nil_r]. f_equal. by apply Hrest.
Qed.

Lemma capability_conserves capability targets rt resolve ud free r :
  let s := StepCapability capability targets rt resolve ud free in
  cxpr_registry_free (snd (cxpr_registry_add_index_capability_targets r capability targets rt resolve ud free)) ≡ₚ
  cxpr_registry_free r ++ step_given s r.
Proof.
  intros s. subst s. unfold step_given, cxpr_registry_add_index_capability_targets.
  destruct (_ || _) eqn:Hempty; [by rewrite app_nil_r|]. destruct (targets_ok _ _ _); [|by rewrite app_nil_r].
  cbn [fst snd]. unfold cxpr_registry_free. cbn [set_capabilities reg_released reg_lookback_free
    reg_lookback_userdata reg_entries reg_capabilities].
  rewrite flat_map_app, pending_releases; [solve_Permutation|].
  intros ->. by rewrite orb_true_r in Hempty.
Qed.

Lemma take_step_conserves s r r' :
  reg_ok r → reg_room r → step_conserves s r → take_step s r = Done r' →
  cxpr_registry_free r' ≡ₚ cxpr_registry_free r ++ step_given s r.
Proof.
  intros Hok Hroom Hc. destruct s as [op|def|name params returns|resolver ud free|]; cbn [take_step].
  - intros [= <-]. by apply exec_conserves.
  - intros ([err r1] & Hd & [= <-])%run_bind_Done. rewrite app_nil_r. by eapply define_conserves.
  - intros [= <-]. rewrite app_nil_r. by apply record_conserves.
  - intros [= <-]. by apply lookback_conserves.
  - intros [= <-]. by apply capability_conserves.
Qed.

(** C34: every user data that a registry took over with a destructor -- in a
    registration of any kind, for code generation, as the lookback data or with
    an index capability -- is destroyed exactly once by the time the registry is
    freed, no matter how often entries were replaced or redefined: nothing leaks
    and nothing is freed twice.  A refused registration or capability takes
    nothing over.  Excepted are a struct producer over an existing entry (see
    [struct_overlay_loses_userdata]), data handed over again to the place that has
    it, and NULL with a destructor for code generation; allocation succeeds. *)
Theorem registry_frees_once g r : ledger g r → cxpr_registry_free r ≡ₚ g.
Proof.
  intros H. assert (Hok : reg_ok r ∧ cxpr_registry_free r ≡ₚ g); [|apply Hok].
  induction H as [|g r s r' Hl [Hok IH] Hroom Hc Hs]; [split; [apply registry_new_ok|done]|].
  split; [by eapply take_step_refines|]. by rewrite take_step_conserves, IH by done.
Qed.

Lemma registry_frees_once_witness :
  cxpr_registry_free (exec (OpFn "f" (fn_sync 2) ["high"] 1 (ud_host 8) (Some (free_host 1)))
    (exec (OpNumeric "f" (fn_sync 1) 1 1 (ud_host 7) (Some (free_host 1))) cxpr_registry_new)) ≡ₚ
  [(free_host 1, ud_host 7); (free_host 1, ud_host 8)].
Proof.
  apply registry_frees_once.
  apply (ledger_step [(free_host 1, ud_host 7)]
    (exec (OpNumeric "f" (fn_sync 1) 1 1 (ud_host 7) (Some (free_host 1))) cxpr_registry_new)
    (StepAdd (OpFn "f" (fn_sync 2) ["high"%string] 1 (ud_host 8) (Some (free_host 1))))).
  - apply (ledger_step [] cxpr_registry_new (StepAdd (OpNumeric "f" (fn_sync 1) 1 1 (ud_host 7) (Some (free_host 1))))).
    + apply ledger_new.
    + vm_compute. discriminate.
    + exact I.
    + reflexivity.
  - vm_compute. discriminate.
  - exact I.
  - reflexivity.
Defined.
