(* ===== verification/EvalSupport.v ===== *)
(** * EvalSupport: helpers of the tree evaluator
    ([src/eval/helpers/base.c], [cache.c], [constants.c], [clone.c],
    [src/lookback.c])

    Structural hash and equality of trees, the memo table of an evaluation pass,
    the cached registry lookup of a call node, constant folding, cache keys of
    producer calls and offsets of history accesses.

    A number literal is not NaN: then the test [lhs == rhs] on node pointers is
    implied by the structural comparison. *)

From Stdlib Require Import Ascii String ZArith Lia SpecFloat.
From stdpp Require Import base list strings gmap.
From S2P Require Import Prelude Float64 Types Lexer Ast References Registry RegistryProofs Builtins Parser.
Local Open Scope nat_scope.

(** ** Structural hash ([cache.c]) *)

(** The enumerator of a node tag. *)
Definition node_tag {A} (d : ast_data A) : Z :=
  match d with
  | CXPR_NODE_NUMBER _ => 0
  | CXPR_NODE_INT64 _ => 1
  | CXPR_NODE_BOOL _ => 2
  | CXPR_NODE_ARRAY _ => 3
  | CXPR_NODE_RECORD _ _ => 4
  | CXPR_NODE_STRING _ => 5
  | CXPR_NODE_IDENTIFIER _ => 6
  | CXPR_NODE_VARIABLE _ => 7
  | CXPR_NODE_FIELD_ACCESS _ _ _ _ => 8
  | CXPR_NODE_CHAIN_ACCESS _ _ => 9
  | CXPR_NODE_PRODUCER_ACCESS _ _ _ _ _ => 10
  | CXPR_NODE_BINARY_OP _ _ _ => 11
  | CXPR_NODE_UNARY_OP _ _ => 12
  | CXPR_NODE_FUNCTION_CALL _ _ _ => 13
  | CXPR_NODE_INDEX _ _ => 14
  | CXPR_NODE_TERNARY _ _ _ => 15
  end.

(** The enumerator of an operator token. *)
Definition tok_code (t : cxpr_token_type) : Z :=
  match t with
  | CXPR_TOK_NUMBER => 0 | CXPR_TOK_IDENTIFIER => 1 | CXPR_TOK_VARIABLE => 2 | CXPR_TOK_TRUE => 3
  | CXPR_TOK_FALSE => 4 | CXPR_TOK_STRING => 5 | CXPR_TOK_PLUS => 6 | CXPR_TOK_MINUS => 7
  | CXPR_TOK_STAR => 8 | CXPR_TOK_SLASH => 9 | CXPR_TOK_PERCENT => 10 | CXPR_TOK_POWER => 11
  | CXPR_TOK_ASSIGN => 12 | CXPR_TOK_EQ => 13 | CXPR_TOK_NEQ => 14 | CXPR_TOK_LT => 15
  | CXPR_TOK_GT => 16 | CXPR_TOK_LTE => 17 | CXPR_TOK_GTE => 18 | CXPR_TOK_AND => 19
  | CXPR_TOK_OR => 20 | CXPR_TOK_NOT => 21 | CXPR_TOK_IN => 22 | CXPR_TOK_LPAREN => 23
  | CXPR_TOK_RPAREN => 24 | CXPR_TOK_LBRACKET => 25 | CXPR_TOK_RBRACKET => 26
  | CXPR_TOK_LBRACE => 27 | CXPR_TOK_RBRACE => 28 | CXPR_TOK_COMMA => 29 | CXPR_TOK_DOT => 30
  | CXPR_TOK_PIPE => 31 | CXPR_TOK_QUESTION => 32 | CXPR_TOK_COLON => 33 | CXPR_TOK_EOF => 34
  | CXPR_TOK_ERROR => 35
  end.

(** The bits of a double. *)
Definition float_bits (x : float64) : Z :=
  let sign (s : bool) := (if s then 2 ^ 63 else 0)%Z in
  match x with
  | S754_zero s => sign s
  | S754_infinity s => sign s + 2047 * 2 ^ 52
  | S754_nan => 4095 * 2 ^ 51
  | S754_finite s m e =>
      if Z.pos m <? 2 ^ 52 then sign s + Z.pos m
      else sign s + (e + 1075) * 2 ^ 52 + (Z.pos m - 2 ^ 52)
  end%Z.

Definition cxpr_eval_hash_mix (hash value : Z) : Z :=
  Z.lxor hash (wrap64 (value + 0x9e3779b9 + wrap64 (Z.shiftl hash 6) + Z.shiftr hash 2)).

Fixpoint cxpr_eval_hash_string (hash : Z) (text : string) : Z :=
  match text with
  | EmptyString => hash
  | String c text =>
      cxpr_eval_hash_string (wrap64 (Z.lxor hash (ascii_code c) * 1099511628211)) text
  end.

Definition opt_text (s : option string) : string := default EmptyString s.

Fixpoint cxpr_eval_ast_hash (a : cxpr_expr_ast) : Z :=
  let '(Ast _ d) := a in
  let hash := cxpr_eval_hash_mix 1469598103934665603 (node_tag d) in
  let args_hash hash args names :=
    fold_left (λ hash '(name, h), cxpr_eval_hash_mix (cxpr_eval_hash_string hash (opt_text name)) h)
      (zip (names_of (length args) names) (map cxpr_eval_ast_hash args)) hash in
  match d with
  | CXPR_NODE_NUMBER v => cxpr_eval_hash_mix hash (float_bits v)
  | CXPR_NODE_INT64 v => cxpr_eval_hash_mix hash (wrap64 v)
  | CXPR_NODE_BOOL b => cxpr_eval_hash_mix hash (if b then 1 else 0)
  | CXPR_NODE_ARRAY els =>
      cxpr_eval_hash_mix (fold_left cxpr_eval_hash_mix (map cxpr_eval_ast_hash els) hash)
        (Z.of_nat (length els))
  | CXPR_NODE_RECORD names values =>
      cxpr_eval_hash_mix
        (fold_left (λ hash '(n, h), cxpr_eval_hash_mix (cxpr_eval_hash_string hash n) h)
           (zip names (map cxpr_eval_ast_hash values)) hash)
        (Z.of_nat (length values))
  | CXPR_NODE_STRING s | CXPR_NODE_IDENTIFIER s | CXPR_NODE_VARIABLE s =>
      cxpr_eval_hash_string hash s
  | CXPR_NODE_FIELD_ACCESS base object field _ =>
      let hash := cxpr_eval_hash_mix hash
                    (match base with Some b => cxpr_eval_ast_hash b | None => 0 end) in
      cxpr_eval_hash_string (cxpr_eval_hash_string hash (opt_text object)) field
  | CXPR_NODE_CHAIN_ACCESS path _ =>
      cxpr_eval_hash_mix (fold_left cxpr_eval_hash_string path hash) (Z.of_nat (length path))
  | CXPR_NODE_PRODUCER_ACCESS name args names field _ =>
      let hash := cxpr_eval_hash_string (cxpr_eval_hash_string hash name) field in
      cxpr_eval_hash_mix (args_hash hash args names) (Z.of_nat (length args))
  | CXPR_NODE_BINARY_OP op l r =>
      cxpr_eval_hash_mix
        (cxpr_eval_hash_mix (cxpr_eval_hash_mix hash (tok_code op)) (cxpr_eval_ast_hash l))
        (cxpr_eval_ast_hash r)
  | CXPR_NODE_UNARY_OP op x =>
      cxpr_eval_hash_mix (cxpr_eval_hash_mix hash (tok_code op)) (cxpr_eval_ast_hash x)
  | CXPR_NODE_FUNCTION_CALL name args names =>
      cxpr_eval_hash_mix (args_hash (cxpr_eval_hash_string hash name) args names)
        (Z.of_nat (length args))
  | CXPR_NODE_INDEX t i =>
      cxpr_eval_hash_mix (cxpr_eval_hash_mix hash (cxpr_eval_ast_hash t)) (cxpr_eval_ast_hash i)
  | CXPR_NODE_TERNARY c t f =>
      cxpr_eval_hash_mix
        (cxpr_eval_hash_mix (cxpr_eval_hash_mix hash (cxpr_eval_ast_hash c)) (cxpr_eval_ast_hash t))
        (cxpr_eval_ast_hash f)
  end.

(** ** Structural equality *)

Definition cxpr_eval_opt_string_equal (lhs rhs : option string) : bool :=
  match lhs, rhs with
  | Some l, Some r => String.eqb l r
  | None, None => true
  | _, _ => false
  end.

(** [count] names are compared; a NULL array reads as NULL names. *)
Definition cxpr_eval_arg_names_equal (lhs rhs : option (list (option string))) (count : nat) : bool :=
  forallb (λ '(l, r), cxpr_eval_opt_string_equal l r)
    (zip (names_of count lhs) (names_of count rhs)).

Section all2.
Context {A B : Type} (f : A → B → bool).

(** Arrays of one length, compared element by element. *)
Fixpoint all2 (l : list A) (r : list B) : bool :=
  match l, r with
  | [], [] => true
  | x :: l, y :: r => f x y && all2 l r
  | _, _ => false
  end.
End all2.

Fixpoint cxpr_eval_ast_equal (lhs rhs : cxpr_expr_ast) {struct lhs} : bool :=
  let '(Ast _ l) := lhs in
  let '(Ast _ r) := rhs in
  match l, r with
  | CXPR_NODE_NUMBER x, CXPR_NODE_NUMBER y => feqb x y
  | CXPR_NODE_INT64 x, CXPR_NODE_INT64 y => (x =? y)%Z
  | CXPR_NODE_BOOL x, CXPR_NODE_BOOL y => Bool.eqb x y
  | CXPR_NODE_ARRAY xs, CXPR_NODE_ARRAY ys => all2 cxpr_eval_ast_equal xs ys
  | CXPR_NODE_RECORD ns xs, CXPR_NODE_RECORD ms ys =>
      all2 String.eqb ns ms && all2 cxpr_eval_ast_equal xs ys
  | CXPR_NODE_STRING x, CXPR_NODE_STRING y
  | CXPR_NODE_IDENTIFIER x, CXPR_NODE_IDENTIFIER y
  | CXPR_NODE_VARIABLE x, CXPR_NODE_VARIABLE y => String.eqb x y
  | CXPR_NODE_FIELD_ACCESS b o f _, CXPR_NODE_FIELD_ACCESS b' o' f' _ =>
      match b, b' with
      | Some b, Some b' => cxpr_eval_ast_equal b b'
      | None, None => true
      | _, _ => false
      end && cxpr_eval_opt_string_equal o o' && String.eqb f f'
  | CXPR_NODE_CHAIN_ACCESS p _, CXPR_NODE_CHAIN_ACCESS p' _ => all2 String.eqb p p'
  | CXPR_NODE_PRODUCER_ACCESS n xs ns f _, CXPR_NODE_PRODUCER_ACCESS n' ys ms f' _ =>
      String.eqb n n' && String.eqb f f' && (length xs =? length ys) &&
      cxpr_eval_arg_names_equal ns ms (length xs) && all2 cxpr_eval_ast_equal xs ys
  | CXPR_NODE_BINARY_OP op a b, CXPR_NODE_BINARY_OP op' a' b' =>
      tok_eqb op op' && cxpr_eval_ast_equal a a' && cxpr_eval_ast_equal b b'
  | CXPR_NODE_UNARY_OP op x, CXPR_NODE_UNARY_OP op' y => tok_eqb op op' && cxpr_eval_ast_equal x y
  | CXPR_NODE_FUNCTION_CALL n xs ns, CXPR_NODE_FUNCTION_CALL n' ys ms =>
      String.eqb n n' && (length xs =? length ys) &&
      cxpr_eval_arg_names_equal ns ms (length xs) && all2 cxpr_eval_ast_equal xs ys
  | CXPR_NODE_INDEX t i, CXPR_NODE_INDEX t' i' =>
      cxpr_eval_ast_equal t t' && cxpr_eval_ast_equal i i'
  | CXPR_NODE_TERNARY c t f, CXPR_NODE_TERNARY c' t' f' =>
      cxpr_eval_ast_equal c c' && cxpr_eval_ast_equal t t' && cxpr_eval_ast_equal f f'
  | _, _ => false
  end.

(** ** The memo table of an evaluation pass *)

Definition cxpr_eval_ast_memoable (a : cxpr_expr_ast) (r : cxpr_registry) : bool :=
  match ast_node a with
  | CXPR_NODE_FUNCTION_CALL name _ _ =>
      match registry_lookup r name with
      | None => false
      | Some e =>
          match fe_handler e, fe_ast_func e with
          | None, None =>
              negb (match fe_struct_producer e, fe_sync_func e, fe_value_func e with
                    | Some _, None, None => true
                    | _, _, _ => false
                    end)
          | _, _ => false
          end
      end
  | _ => false
  end.

(** An entry points to a node; [me_tree] says which tree the node belongs to. *)
Record cxpr_eval_memo_entry : Type := mk_memo_entry {
  me_ast : cxpr_expr_ast;
  me_tree : nat;
  me_hash : Z;
  me_value : cxpr_value
}.

Record cxpr_eval_memo : Type := mk_memo {
  memo_entries : list cxpr_eval_memo_entry;
  memo_depth : nat
}.

Definition memo_empty : cxpr_eval_memo := mk_memo [] 0.

Definition cxpr_eval_memo_enter (m : cxpr_eval_memo) : cxpr_eval_memo :=
  mk_memo (if memo_depth m =? 0 then [] else memo_entries m) (S (memo_depth m)).

Definition cxpr_eval_memo_leave (m : cxpr_eval_memo) : cxpr_eval_memo :=
  match memo_depth m with
  | 0 => m
  | S d => mk_memo (if d =? 0 then [] else memo_entries m) d
  end.

Definition cxpr_eval_memo_clear (m : cxpr_eval_memo) : cxpr_eval_memo := memo_empty.

(** Comparing with an entry whose tree has been freed is undefined. *)
Fixpoint memo_search (live : nat → bool) (entries : list cxpr_eval_memo_entry)
    (a : cxpr_expr_ast) (hash : Z) : run (option cxpr_value) :=
  match entries with
  | [] => Done None
  | e :: entries =>
      if (me_hash e =? hash)%Z then
        if live (me_tree e) then
          if cxpr_eval_ast_equal (me_ast e) a then Done (Some (me_value e))
          else memo_search live entries a hash
        else Undef
      else memo_search live entries a hash
  end.

Definition cxpr_eval_memo_get (live : nat → bool) (m : cxpr_eval_memo) (a : cxpr_expr_ast)
    (hash : Z) : run (option cxpr_value) :=
  if memo_depth m =? 0 then Done None else memo_search live (memo_entries m) a hash.

Definition cxpr_eval_memo_set (m : cxpr_eval_memo) (a : cxpr_expr_ast) (tree : nat) (hash : Z)
    (value : cxpr_value) : cxpr_eval_memo :=
  if memo_depth m =? 0 then m
  else
    match value with
    | VNum _ | VBool _ =>
        mk_memo (memo_entries m ++ [mk_memo_entry a tree hash value]) (memo_depth m)
    | _ => m
    end.

(** ** The registry lookup cached in a call node *)

Record lookup_cache : Type := mk_lookup_cache {
  lc_valid : bool;
  lc_version : Z;
  lc_found : bool;
  lc_index : nat
}.

(** [cxpr_eval_cached_function_entry] (and [_producer_entry]) of a node whose
    cache belongs to this registry: the entry's index and the new cache. *)
Definition cxpr_eval_cached_function_entry (c : lookup_cache) (r : cxpr_registry) (name : string)
    : option nat * lookup_cache :=
  if lc_valid c && (lc_version c =? reg_version r)%Z then
    (if lc_found c && (lc_index c <? length (reg_entries r)) then Some (lc_index c) else None, c)
  else
    match find_entry name (reg_entries r) with
    | Some i => (Some i, mk_lookup_cache true (reg_version r) true i)
    | None => (None, mk_lookup_cache true (reg_version r) false 0)
    end.

(** ** String literals in a tree *)

Fixpoint cxpr_eval_ast_contains_string_literal (a : cxpr_expr_ast) : bool :=
  let '(Ast _ d) := a in
  match d with
  | CXPR_NODE_STRING _ => true
  | CXPR_NODE_ARRAY els => existsb cxpr_eval_ast_contains_string_literal els
  | CXPR_NODE_BINARY_OP _ l r =>
      cxpr_eval_ast_contains_string_literal l || cxpr_eval_ast_contains_string_literal r
  | CXPR_NODE_UNARY_OP _ x => cxpr_eval_ast_contains_string_literal x
  | CXPR_NODE_FUNCTION_CALL _ args _ | CXPR_NODE_PRODUCER_ACCESS _ args _ _ _ =>
      existsb cxpr_eval_ast_contains_string_literal args
  | CXPR_NODE_INDEX t i =>
      cxpr_eval_ast_contains_string_literal t || cxpr_eval_ast_contains_string_literal i
  | CXPR_NODE_TERNARY c t f =>
      cxpr_eval_ast_contains_string_literal c || cxpr_eval_ast_contains_string_literal t ||
      cxpr_eval_ast_contains_string_literal f
  | _ => false
  end.

(** ** Copies of trees ([clone.c]): the code of the parser's copy function *)
Definition cxpr_eval_clone_ast : cxpr_expr_ast → cxpr_expr_ast := cxpr_expr_parser_clone_ast.

(** ** Constant folding ([constants.c]) *)

Section constants.
Context {W : Type} `{!HostCode W}.

Definition fpow (x y : float64) : float64 := libm "pow" [x; y].

(** The operators folding knows; a zero divisor is not folded. *)
Definition fold_binary (op : cxpr_token_type) (left right : float64) : option float64 :=
  match op with
  | CXPR_TOK_PLUS => Some (fadd left right)
  | CXPR_TOK_MINUS => Some (fsub left right)
  | CXPR_TOK_STAR => Some (fmul left right)
  | CXPR_TOK_SLASH => if feqb right fzero then None else Some (fdiv left right)
  | CXPR_TOK_PERCENT => if feqb right fzero then None else Some (fmod left right)
  | CXPR_TOK_POWER => Some (fpow left right)
  | _ => None
  end.

Fixpoint cxpr_eval_constant_double (a : cxpr_expr_ast) : option float64 :=
  let '(Ast _ d) := a in
  match d with
  | CXPR_NODE_NUMBER v => Some v
  | CXPR_NODE_UNARY_OP op x =>
      match op with
      | CXPR_TOK_MINUS => option_map fneg (cxpr_eval_constant_double x)
      | _ => None
      end
  | CXPR_NODE_BINARY_OP op l r =>
      match cxpr_eval_constant_double l, cxpr_eval_constant_double r with
      | Some x, Some y => fold_binary op x y
      | _, _ => None
      end
  | CXPR_NODE_TERNARY c t f =>
      match cxpr_eval_constant_double c with
      | None => None
      | Some x => if fneb x fzero then cxpr_eval_constant_double t else cxpr_eval_constant_double f
      end
  | _ => None
  end.

Fixpoint all_constant (args : list cxpr_expr_ast) : option (list float64) :=
  match args with
  | [] => Some []
  | a :: args =>
      match cxpr_eval_constant_double a with
      | Some d => option_map (cons d) (all_constant args)
      | None => None
      end
  end.

End constants.

(** ** Cache keys of producer calls ([constants.c])

    [printf("%a")] is a parameter: it prints a double exactly, in fewer than 32
    characters. *)
Definition is_double (x : float64) : Prop := valid_binary prec64 emax64 x = true.

Class HexFormat : Type := {
  format_a : float64 → string;
  format_a_inj x y :
    is_double x → is_double y → x ≠ fnan → y ≠ fnan → format_a x = format_a y → x = y;
  format_a_chars x :
    is_double x → ∀ c, c ∈ list_ascii_of_string (format_a x) → c ≠ ","%char ∧ c ≠ ")"%char;
  format_a_length x : is_double x → strlen (format_a x) < 32
}.

Section keys.
Context `{!HexFormat}.

Fixpoint key_args (args : list float64) : string :=
  match args with
  | [] => ""
  | [d] => format_a d
  | d :: args => format_a d ++ String "," (key_args args)
  end.

(** The buffer has [strlen(name) + 4 + argc * 32] bytes; output that does not fit
    gives NULL. *)
Definition cxpr_build_struct_cache_key (name : string) (args : list float64) : option string :=
  match args with
  | [] => Some name
  | _ =>
      let key := (name ++ String "(" (key_args args ++ ")"))%string in
      if strlen key <? strlen name + 4 + length args * 32 then Some key else None
  end.
End keys.

(** ** Offsets of history accesses ([lookback.c]) *)

Definition UINT_MAX : Z := (2 ^ 32 - 1)%Z.

(** 1e-9 *)
Definition offset_tolerance : float64 := of_decimal 1 (-9).

(** The conversion of a double to [unsigned] is undefined outside its range. *)
Definition cxpr_lookback_literal_offset (index : cxpr_expr_ast) : run (option Z) :=
  match ast_node index with
  | CXPR_NODE_NUMBER raw =>
      let converted :=
        if fgeb raw fzero then
          match to_Z (ftrunc (fadd raw (fdiv fone (of_Z 2)))) with
          | Some z => if (z <=? UINT_MAX)%Z then Some z else None
          | None => None
          end
        else Some 0%Z in
      match converted with
      | None => Undef
      | Some offset =>
          if negb (fisfinite raw) || fltb raw fzero ||
             fgtb (fabs (fsub raw (of_Z offset))) offset_tolerance
          then Done None else Done (Some offset)
      end
  | _ => Done None
  end.

Definition cxpr_lookback_add_unsigned (base offset : Z) : option Z :=
  if (UINT_MAX - base <? offset)%Z then None else Some (base + offset)%Z.

Definition INT_MAX : Z := (2 ^ 31 - 1)%Z.

Definition cxpr_lookback_add_int (base offset : Z) : option Z :=
  if (base <? 0)%Z || (INT_MAX <? base)%Z || (INT_MAX - base <? offset)%Z then None
  else Some (base + offset)%Z.
