(* ===== verification/EvalSupportProofs.v ===== *)
(** * EvalSupportProofs: properties of the evaluator's helpers

    Structural equality is equality of trees up to spans, the cached registry
    lookup is coherent, cache keys of producer calls determine the call. *)

From Stdlib Require Import Ascii String ZArith Lia SpecFloat.
From stdpp Require Import base list strings gmap.
From S2P Require Import Prelude Float64 Types Lexer Ast References Registry RegistryProofs Builtins Parser ParserProofs EvalSupport.
Local Open Scope nat_scope.

(** ** Equality of trees *)

(** The literals the lexer produces: no NaN, no negative zero. *)
Definition literal_ok (a : cxpr_expr_ast) : Prop :=
  match ast_node a with
  | CXPR_NODE_NUMBER v => v ≠ fnan ∧ v ≠ S754_zero true
  | _ => True
  end.

Definition node_ok (a : cxpr_expr_ast) : Prop := shape_ok a ∧ literal_ok a.

Lemma feqb_eq x y :
  x ≠ fnan → x ≠ S754_zero true → y ≠ S754_zero true → feqb x y = true ↔ x = y.
Proof.
  intros Hn Hx Hy. unfold feqb, SFeqb. split.
  - destruct x as [[]|[]| |[] m e], y as [[]|[]| |[] m' e']; try done; simpl;
      destruct (Z.compare_spec e e'); try done; subst;
      change (Pos.compare_cont Eq m m') with (m ?= m')%positive;
      destruct (Pos.compare_spec m m'); simpl; by subst.
  - intros <-. destruct x as [[]|[]| |[] m e]; try done; simpl; rewrite Z.compare_refl;
      by rewrite Pos.compare_cont_refl.
Qed.

Lemma all2_eq {A} (f : A → A → bool) l r :
  (∀ x y, f x y = true ↔ x = y) → all2 f l r = true ↔ l = r.
Proof.
  intros Hf. revert r. induction l as [|x l IH]; intros [|y r]; simpl; try done.
  rewrite andb_true_iff, Hf, IH. split; [by intros [-> ->]|by intros [= -> ->]].
Qed.

Lemma opt_string_equal_eq x y : cxpr_eval_opt_string_equal x y = true ↔ x = y.
Proof. destruct x, y; simpl; try done. rewrite String.eqb_eq. split; congruence. Qed.

Lemma zip_equal l r :
  length l = length r →
  forallb (λ '(x, y), cxpr_eval_opt_string_equal x y) (zip l r) = true ↔ l = r.
Proof.
  revert r. induction l as [|x l IH]; intros [|y r]; simpl; try done. intros [= Hl].
  rewrite andb_true_iff, opt_string_equal_eq, (IH r Hl). split; [by intros [-> ->]|by intros [= -> ->]].
Qed.

(** The claim for one node against all trees. *)
Definition equal_decides (a : cxpr_expr_ast) : Prop :=
  ∀ b, ast_all node_ok a → ast_all node_ok b → cxpr_eval_ast_equal a b = true ↔ erase a = erase b.

Lemma equal_children xs ys :
  Forall equal_decides xs → Forall (ast_all node_ok) xs → Forall (ast_all node_ok) ys →
  all2 cxpr_eval_ast_equal xs ys = true ↔ map erase xs = map erase ys.
Proof.
  intros Hd Hx. revert ys. induction Hd as [|x xs Hx0 _ IH]; intros [|y ys] Hy; simpl; try done.
  apply Forall_cons in Hx as [Hx1 Hx2]. apply Forall_cons in Hy as [Hy1 Hy2].
  rewrite andb_true_iff, (Hx0 y Hx1 Hy1), (IH Hx2 ys Hy2).
  split; [by intros [-> ->]|intros E; injection E; done].
Qed.

Lemma equal_names (xs ys : list cxpr_expr_ast) ns ms :
  names_ok ns (length xs) → names_ok ms (length ys) → length xs = length ys →
  cxpr_eval_arg_names_equal ns ms (length xs) = true ↔
  full_names (length xs) ns = full_names (length ys) ms.
Proof.
  intros Hn Hm Hl. unfold cxpr_eval_arg_names_equal, full_names. rewrite Hl in Hn |- *.
  rewrite zip_equal by (by rewrite !names_of_length). split; congruence.
Qed.

Lemma map_erase_length xs ys : map erase xs = map erase ys → length xs = length ys.
Proof. intros H%(f_equal length). by rewrite !length_map in H. Qed.

(** Calls: names and arguments together. *)
Lemma equal_args xs ys ns ms :
  Forall equal_decides xs → Forall (ast_all node_ok) xs → Forall (ast_all node_ok) ys →
  names_ok ns (length xs) → names_ok ms (length ys) →
  (length xs =? length ys) && cxpr_eval_arg_names_equal ns ms (length xs) &&
    all2 cxpr_eval_ast_equal xs ys = true ↔
  map erase xs = map erase ys ∧ full_names (length xs) ns = full_names (length ys) ms.
Proof.
  intros Hd Hx Hy Hn Hm. rewrite !andb_true_iff, Nat.eqb_eq, (equal_children xs ys Hd Hx Hy).
  split.
  - intros [[Hl Hnames] He]. split; [done|]. by apply (equal_names xs ys ns ms Hn Hm Hl).
  - intros [He Hnames]. pose proof (map_erase_length _ _ He) as Hl. split; [|done]. split; [done|].
    by apply (equal_names xs ys ns ms Hn Hm Hl).
Qed.

(** Nodes without children. *)
Ltac equal_leaf :=
  rewrite ?Z.eqb_eq, ?Bool.eqb_true_iff, ?String.eqb_eq; split; [by intros ->|by intros [= ->]].

(** [Forall] over the two or three children of a node. *)
Ltac split_children :=
  repeat match goal with
  | H : Forall _ (_ :: _) |- _ => let H1 := fresh H in apply Forall_cons in H as [H1 H]
  | H : Forall _ [] |- _ => clear H
  | Hd : equal_decides ?a, Ha : ast_all node_ok ?a, Hb : ast_all node_ok ?b
      |- context [cxpr_eval_ast_equal ?a ?b] => rewrite (Hd b Ha Hb)
  end.

Lemma equal_decides_all a : equal_decides a.
Proof.
  induction a as [s d IH] using ast_ind. intros [s' d'] [[Hs Hl] Hc]%ast_all_inv [[Hs' Hl'] Hc']%ast_all_inv.
  unfold shape_ok, literal_ok in *. simpl in *.
  destruct d as [v|v|v|els|ns vals|v|n|n|base o f k|path k|n args ns f k|op l r|op x|n args ns|t i|c t f],
    d' as [v'|v'|v'|els'|ns' vals'|v'|n'|n'|base' o' f' k'|path' k'|n' args' ns' f' k'|op' l' r'|op' x'
           |n' args' ns'|t' i'|c' t' f']; simpl in *; try (split; [done|by intros [= ?]]);
    try (destruct base; split; [done|by intros [= ?]|done|by intros [= ?]]);
    try (destruct base'; split; [done|by intros [= ?]|done|by intros [= ?]]); try equal_leaf.
  - destruct Hl, Hl'. rewrite feqb_eq by done. split; [by intros ->|by intros [= ->]].
  - rewrite (equal_children _ _ IH Hc Hc'). split; [by intros ->|by intros [= ->]].
  - rewrite andb_true_iff, (equal_children _ _ IH Hc Hc'), (all2_eq String.eqb) by apply String.eqb_eq.
    split; [by intros [-> ->]|by intros [= -> ->]].
  - rewrite !andb_true_iff, opt_string_equal_eq, String.eqb_eq.
    destruct base as [b|], base' as [b'|]; simpl in *; try (split; [by intros [[] ?]|by intros [= ?]]).
    + apply Forall_cons in IH as [IH _], Hc as [Hc _], Hc' as [Hc' _]. rewrite (IH b' Hc Hc').
      destruct Hs as [-> ->], Hs' as [-> ->]. split; [by intros [[-> _] ->]|by intros [= -> ->]].
    + destruct Hs as (? & -> & ->), Hs' as (? & -> & ->).
      split; [by intros [[_ [= ->]] ->]|by intros [= -> ->]].
  - rewrite (all2_eq String.eqb) by apply String.eqb_eq. destruct Hs as [_ ->], Hs' as [_ ->].
    split; [by intros ->|by intros [= ->]].
  - destruct Hs as [Hn ->], Hs' as [Hn' ->]. rewrite <- !andb_assoc, (andb_assoc (_ =? _)), andb_true_iff,
      andb_true_iff, (equal_args _ _ _ _ IH Hc Hc' Hn Hn'), !String.eqb_eq.
    split; [by intros (-> & -> & -> & ->)|]. intros E. injection E. intros. unfold full_names. split_and!; congruence.
  - rewrite !andb_true_iff. unfold tok_eqb. rewrite bool_decide_eq_true.
    split_children. split; [by intros [[-> ->] ->]|by intros [= -> -> ->]].
  - rewrite !andb_true_iff. unfold tok_eqb. rewrite bool_decide_eq_true.
    split_children. split; [by intros [-> ->]|by intros [= -> ->]].
  - rewrite <- andb_assoc, <- andb_assoc, (andb_assoc (_ =? _)), andb_true_iff,
      (equal_args _ _ _ _ IH Hc Hc' Hs Hs'), String.eqb_eq.
    split; [by intros (-> & -> & ->)|]. intros E. injection E. intros. unfold full_names. split_and!; congruence.
  - rewrite andb_true_iff.
    split_children. split; [by intros [-> ->]|by intros [= -> ->]].
  - rewrite !andb_true_iff.
    split_children. split; [by intros [[-> ->] ->]|by intros [= -> -> ->]].
Qed.



(** ** The cached registry lookup *)

Lemma run_ops_version ops r :
  reg_ok r → (Z.of_nat (length (reg_entries r) + length ops) ≤ SIZE_MAX / 2)%Z →
  ∃ k, k ≤ length ops ∧ wrap64 (reg_version (run_ops ops r)) = wrap64 (reg_version r + Z.of_nat k) ∧
    (k = 0 → reg_entries (run_ops ops r) = reg_entries r).
Proof.
  revert r. induction ops as [|op ops IH]; intros r Hok Hlen.
  { exists 0. split_and!; [done|by rewrite Z.add_0_r|done]. }
  simpl in Hlen. assert (Hroom : reg_room r) by (unfold reg_room; lia).
  destruct (exec_refines op r Hok Hroom) as (Hok' & _ & Hch).
  pose proof (view_grows op r Hok Hroom).
  destruct (IH (exec op r) Hok') as (k & Hk & Hv & He); [lia|].
  destruct Hch as [[Hes Hver]|Hver].
  - exists k. split_and!; [simpl; lia|by rewrite <- Hver|]. intros Hk0. etrans; [exact (He Hk0)|done].
  - exists (S k). split_and!; [simpl; lia| |done]. etrans; [exact Hv|]. rewrite Hver.
    unfold wrap64. rewrite Zplus_mod_idemp_l. f_equal. lia.
Qed.

(** The registry lookup a call node caches is coherent.  After any number of
    registrations below 2^63 since the entry was cached, the cached lookup
    finds the entry the full search finds: an unchanged version number means
    unchanged entries. *)
Theorem cached_lookup_coherent c r ops name :
  reg_ok r → (Z.of_nat (length (reg_entries r) + length ops) ≤ SIZE_MAX / 2)%Z →
  (0 ≤ reg_version r < 2 ^ 64)%Z →
  lc_valid c = false →
  let c' := snd (cxpr_eval_cached_function_entry c r name) in
  fst (cxpr_eval_cached_function_entry c' (run_ops ops r) name) =
  cxpr_registry_find (run_ops ops r) name.
Proof.
  intros Hok Hlen Hv Hc c'. unfold cxpr_registry_find.
  assert (Hc' : c' = mk_lookup_cache true (reg_version r)
    (match find_entry name (reg_entries r) with Some _ => true | None => false end)
    (match find_entry name (reg_entries r) with Some i => i | None => 0 end)).
  { subst c'. unfold cxpr_eval_cached_function_entry. rewrite Hc. simpl.
    by destruct (find_entry name (reg_entries r)). }
  rewrite Hc'. unfold cxpr_eval_cached_function_entry. simpl.
  destruct (Z.eqb_spec (reg_version r) (reg_version (run_ops ops r))) as [Heq|Hne];
    [|by destruct (find_entry name (reg_entries (run_ops ops r)))].
  destruct (run_ops_version ops r Hok Hlen) as (k & Hk & Hver & He).
  rewrite <- Heq in Hver. unfold wrap64 in Hver. rewrite (Z.mod_small _ _ Hv) in Hver.
  assert (k = 0) as Hk0.
  { destruct (decide (k = 0)) as [|Hnz]; [done|exfalso].
    unfold SIZE_MAX in Hlen. change ((2 ^ 64 - 1) / 2)%Z with (2 ^ 63 - 1)%Z in Hlen.
    assert (Hmod : ((reg_version r + Z.of_nat k - reg_version r) mod 2 ^ 64 = 0)%Z).
    { rewrite Zminus_mod, <- Hver, Zminus_mod_idemp_r, Z.sub_diag. done. }
    rewrite Z.mod_small in Hmod; lia. }
  rewrite (He Hk0). destruct (find_entry name (reg_entries r)) as [i|] eqn:Hf; [|done]. simpl.
  destruct (find_entry_lookup _ _ _ Hf) as (e & Hi & _). apply lookup_lt_Some in Hi.
  by destruct (Nat.ltb_spec i (length (reg_entries r))); [|lia].
Qed.

Lemma cached_lookup_coherent_witness :
  let r := exec (OpNative setup_unary "abs" (fn_libm "fabs")) cxpr_registry_new in
  let c' := snd (cxpr_eval_cached_function_entry (mk_lookup_cache false 0 false 0) r "abs") in
  let ops := [OpNumeric "abs" (fn_sync 3) 1 1 ud_null None] in
  fst (cxpr_eval_cached_function_entry c' (run_ops ops r) "abs") = cxpr_registry_find (run_ops ops r) "abs".
Proof.
  apply cached_lookup_coherent; [|vm_compute; discriminate|vm_compute; done|done].
  apply exec_refines; [apply registry_new_ok|vm_compute; discriminate].
Defined.

(** ** Cache keys *)

Definition free_of (c : ascii) (s : string) : Prop := c ∉ list_ascii_of_string s.

Lemma append_sep_inj c s s' t t' :
  free_of c s → free_of c s' →
  (s ++ String c t)%string = (s' ++ String c t')%string → s = s' ∧ t = t'.
Proof.
  unfold free_of. revert s'. induction s as [|a s IH]; intros [|a' s'] Hs Hs' E; simpl in *.
  - by injection E.
  - injection E as -> _. set_solver.
  - injection E as -> _. set_solver.
  - injection E as -> E. destruct (IH s') as [-> ->]; [set_solver|set_solver|done|done].
Qed.

Lemma append_sep_ne c c' s s' t t' :
  free_of c s → free_of c' s → free_of c s' → free_of c' s' → c ≠ c' →
  (s ++ String c t)%string ≠ (s' ++ String c' t')%string.
Proof.
  unfold free_of. intros H1 H2 H3 H4 Hne. revert s' H3 H4.
  induction s as [|a s IH]; intros [|a' s'] H3 H4 E; simpl in *.
  - by injection E.
  - injection E as -> _. set_solver.
  - injection E as -> _. set_solver.
  - injection E as -> E. apply (IH ltac:(set_solver) ltac:(set_solver) s'); [set_solver|set_solver|done].
Qed.

Lemma list_ascii_app s t :
  list_ascii_of_string (s ++ t) = list_ascii_of_string s ++ list_ascii_of_string t.
Proof. induction s as [|a s IH]; [done|]. change (String a s ++ t)%string with (String a (s ++ t)%string). simpl. by rewrite IH. Qed.

Section keys.
Context {HF : HexFormat}.

Lemma format_free x : is_double x → free_of "," (format_a x) ∧ free_of ")" (format_a x).
Proof. intros Hx. split; intros Hin%format_a_chars; naive_solver. Qed.

(** An argument value: a double that is a number. *)
Definition key_arg (x : float64) : Prop := is_double x ∧ x ≠ fnan.

Lemma append_cons a s t : (String a s ++ t)%string = String a (s ++ t).
Proof. reflexivity. Qed.

Lemma append_assoc s t u : ((s ++ t) ++ u)%string = (s ++ (t ++ u))%string.
Proof. induction s as [|a s IH]; [done|]. by rewrite !append_cons, IH. Qed.

Lemma key_args_inj l l' :
  l ≠ [] → l' ≠ [] → Forall key_arg l → Forall key_arg l' →
  (key_args l ++ ")")%string = (key_args l' ++ ")")%string → l = l'.
Proof.
  revert l'. induction l as [|d l IH]; intros l' Hl Hl' Hn Hn' E; [done|].
  destruct l' as [|d' l']; [done|]. apply Forall_cons in Hn as [[V Hd] Hn], Hn' as [[V' Hd'] Hn'].
  destruct (format_free d V) as [F1 F2], (format_free d' V') as [F1' F2'].
  destruct l as [|e l], l' as [|e' l']; cbn [key_args] in E;
    rewrite ?append_assoc, ?append_cons in E.
  - apply append_sep_inj in E as [E _]; [|done|done]. f_equal. by apply format_a_inj.
  - by apply append_sep_ne in E.
  - by apply append_sep_ne in E.
  - apply append_sep_inj in E as [E Er]; [|done|done]. f_equal; [by apply format_a_inj|].
    by apply IH.
Qed.

Lemma key_args_length l : l ≠ [] → Forall key_arg l → strlen (key_args l) + 1 ≤ 32 * length l.
Proof.
  induction l as [|d l IH]; intros Hl Ha; [done|]. apply Forall_cons in Ha as [[V _] Ha].
  pose proof (format_a_length d V). destruct l as [|e l]; cbn [key_args length]; [lia|].
  rewrite strlen_append. cbn [strlen]. specialize (IH ltac:(done) Ha). cbn [key_args length] in *. lia.
Qed.

(** The key under which a producer's result is cached exists for every call
    (the buffer is large enough) and identifies the call: two calls with the same
    key have the same name and the same argument values. *)
Theorem struct_cache_key_injective name name' args args' :
  free_of "(" name → free_of "(" name' →
  Forall key_arg args → Forall key_arg args' →
  (∃ key, cxpr_build_struct_cache_key name args = Some key) ∧
  (cxpr_build_struct_cache_key name args = cxpr_build_struct_cache_key name' args' →
   name = name' ∧ args = args').
Proof.
  intros Hn Hn' Ha Ha'.
  assert (Hkey : ∀ n l, l ≠ [] → Forall key_arg l →
    cxpr_build_struct_cache_key n l = Some (n ++ String "(" (key_args l ++ ")"))%string).
  { intros n l Hl Hk. pose proof (key_args_length l Hl Hk). unfold cxpr_build_struct_cache_key.
    destruct l as [|d l]; [done|]. destruct (Nat.ltb_spec (strlen (n ++ String "(" (key_args (d :: l) ++ ")")))
      (strlen n + 4 + length (d :: l) * 32)) as [|Hge]; [done|].
    rewrite !strlen_append in Hge. cbn [strlen] in Hge. rewrite strlen_append in Hge. cbn [strlen] in Hge. lia. }
  assert (Hhas : ∀ n l, free_of "(" n → n ≠ (name ++ String "(" l)%string ∧ n ≠ (name' ++ String "(" l)%string).
  { intros n l Hf. split; intros ->; apply Hf; rewrite list_ascii_app; set_solver. }
  split; [destruct args; [by exists name|rewrite Hkey by done; eauto]|].
  destruct args as [|d l], args' as [|d' l'].
  - intros E. by injection E.
  - rewrite (Hkey name') by done. intros E. injection E as E. by apply Hhas in E.
  - rewrite (Hkey name) by done. intros E. injection E as E. symmetry in E. by apply Hhas in E.
  - rewrite !Hkey by done. intros E. injection E as E. apply append_sep_inj in E as [-> E]; [|done|done].
    split; [done|]. by apply key_args_inj.
Qed.
End keys.

(** *** A printer of fixed width that meets the laws *)

Definition hex_digit (n : N) : ascii := default "0"%char (list_ascii_of_string "0123456789abcdef" !! N.to_nat n).

Fixpoint hex_fixed (k : nat) (n : N) : string :=
  match k with
  | O => ""
  | S k => String (hex_digit (n mod 16)) (hex_fixed k (n / 16))
  end.

Definition sign_char (s : bool) : ascii := if s then "-"%char else "+"%char.

Definition print_hex (x : float64) : string :=
  match x with
  | S754_zero s => String (sign_char s) "z"
  | S754_infinity s => String (sign_char s) "inf"
  | S754_nan => "nan"
  | S754_finite s m e =>
      String (sign_char s) (hex_fixed 14 (Npos m) ++ String "p" (hex_fixed 3 (Z.to_N (e + 1074))))
  end.

Lemma hex_digit_inj n m : (n < 16)%N → (m < 16)%N → hex_digit n = hex_digit m → n = m.
Proof.
  intros Hn Hm E.
  assert (Hall : forallb (λ n, forallb (λ m, implb (Ascii.eqb (hex_digit n) (hex_digit m)) (N.eqb n m))
    (N.of_nat <$> seq 0 16)) (N.of_nat <$> seq 0 16) = true) by (vm_compute; reflexivity).
  assert (Hin : ∀ k, (k < 16)%N → In k (N.of_nat <$> seq 0 16)).
  { intros k Hk. apply list_elem_of_In, list_elem_of_fmap. exists (N.to_nat k).
    split; [lia|]. apply list_elem_of_In, in_seq. lia. }
  rewrite forallb_forall in Hall. specialize (Hall n (Hin n Hn)). rewrite forallb_forall in Hall.
  specialize (Hall m (Hin m Hm)). rewrite E, Ascii.eqb_refl in Hall. by apply N.eqb_eq.
Qed.

Lemma hex_fixed_inj k n m s t :
  (n < 16 ^ N.of_nat k)%N → (m < 16 ^ N.of_nat k)%N →
  (hex_fixed k n ++ s)%string = (hex_fixed k m ++ t)%string → n = m ∧ s = t.
Proof.
  revert n m. induction k as [|k IH]; intros n m Hn Hm E.
  - split; [change (16 ^ N.of_nat 0)%N with 1%N in *; lia|exact E].
  - rewrite Nat2N.inj_succ, N.pow_succ_r' in Hn, Hm. cbn [hex_fixed] in E. rewrite !append_cons in E.
    injection E as Ed E. apply hex_digit_inj in Ed; [|by apply N.mod_lt..].
    apply IH in E as [Eq ->]; [|by apply N.Div0.div_lt_upper_bound..].
    split; [|done]. by rewrite (N.div_mod n 16), (N.div_mod m 16), Ed, Eq.
Qed.

Lemma hex_fixed_length k n : strlen (hex_fixed k n) = k.
Proof. revert n. induction k; intros n; simpl; [done|]. by rewrite IHk. Qed.

Lemma digits2_pos_bound m : (Zpos m < 2 ^ Zpos (digits2_pos m))%Z.
Proof.
  induction m as [m IH|m IH|]; cbn [digits2_pos]; rewrite ?Pos2Z.inj_succ, ?Z.pow_succ_r by lia; lia.
Qed.

Lemma double_ranges s m e :
  is_double (S754_finite s m e) → (Npos m < 16 ^ 14)%N ∧ (-1074 ≤ e ≤ 971)%Z.
Proof.
  unfold is_double, valid_binary, bounded, canonical_mantissa, fexp, SpecFloat.emin, prec64, emax64.
  intros [Hc He]%andb_prop. apply Zeq_bool_eq in Hc. apply Z.leb_le in He.
  pose proof (digits2_pos_bound m). split; [|lia].
  assert (2 ^ Zpos (digits2_pos m) ≤ 2 ^ 53)%Z by (apply Z.pow_le_mono_r; lia).
  change (16 ^ 14)%N with (Z.to_N (2 ^ 56)). change (2 ^ 53)%Z with 9007199254740992%Z in *.
  change (2 ^ 56)%Z with 72057594037927936%Z. lia.
Qed.

Lemma hex_digit_safe n : hex_digit n ≠ ","%char ∧ hex_digit n ≠ ")"%char.
Proof.
  unfold hex_digit. destruct (list_ascii_of_string "0123456789abcdef" !! N.to_nat n) as [c|] eqn:E;
    [|done].
  apply list_elem_of_lookup_2 in E. cbn [list_ascii_of_string] in E.
  repeat (apply elem_of_cons in E as [->|E]; [done|]). by apply not_elem_of_nil in E.
Qed.

Lemma hex_fixed_safe k n c :
  c ∈ list_ascii_of_string (hex_fixed k n) → c ≠ ","%char ∧ c ≠ ")"%char.
Proof.
  revert n. induction k as [|k IH]; intros n; cbn [hex_fixed list_ascii_of_string].
  - intros []%not_elem_of_nil.
  - intros [->|Hc]%elem_of_cons; [apply hex_digit_safe|by eapply IH].
Qed.

Lemma string_cons_inj a b s t : String a s = String b t → a = b ∧ s = t.
Proof. by intros [= -> ->]. Qed.

Lemma print_hex_inj x y :
  is_double x → is_double y → x ≠ fnan → y ≠ fnan → print_hex x = print_hex y → x = y.
Proof.
  assert (Hs : ∀ s s', sign_char s = sign_char s' → s = s') by (by intros [] []).
  intros Vx Vy Nx Ny E.
  destruct x as [s|s| |s m e], y as [s'|s'| |s' m' e']; try done; cbn [print_hex] in E;
    try (by injection E as ->%Hs); try (by injection E).
  apply double_ranges in Vx as [Hm He], Vy as [Hm' He'].
  apply string_cons_inj in E as [->%Hs E]. apply (hex_fixed_inj 14) in E as [Em E]; [|done..].
  apply string_cons_inj in E as [_ E].
  assert (E3 : (hex_fixed 3 (Z.to_N (e + 1074)) ++ "")%string = (hex_fixed 3 (Z.to_N (e' + 1074)) ++ "")%string)
    by (by rewrite E).
  apply hex_fixed_inj in E3 as [Ee _]; [|change (16 ^ N.of_nat 3)%N with 4096%N; lia..].
  injection Em as ->. f_equal. lia.
Qed.

Lemma print_hex_chars x c : c ∈ list_ascii_of_string (print_hex x) → c ≠ ","%char ∧ c ≠ ")"%char.
Proof.
  assert (Hs : ∀ s, sign_char s ≠ ","%char ∧ sign_char s ≠ ")"%char) by (by intros []).
  destruct x as [s|s| |s m e]; cbn [print_hex list_ascii_of_string];
    try (repeat (intros [->|Hc]%elem_of_cons; [by try apply Hs|revert Hc]); by intros ?%not_elem_of_nil).
  intros [->|Hc]%elem_of_cons; [apply Hs|]. rewrite list_ascii_app in Hc.
  apply elem_of_app in Hc as [Hc|Hc]; [by eapply hex_fixed_safe|].
  apply elem_of_cons in Hc as [->|Hc]; [done|by eapply hex_fixed_safe].
Qed.

Lemma print_hex_length x : strlen (print_hex x) < 32.
Proof.
  destruct x; cbn [print_hex strlen]; try lia.
  rewrite strlen_append, hex_fixed_length. cbn [strlen]. rewrite hex_fixed_length. lia.
Qed.

#[local] Instance print_hex_format : HexFormat := {
  format_a := print_hex;
  format_a_inj := print_hex_inj;
  format_a_chars x _ c := print_hex_chars x c;
  format_a_length x _ := print_hex_length x
}.

Lemma struct_cache_key_injective_witness :
  (∃ key, cxpr_build_struct_cache_key "macd" [fone; fzero] = Some key) ∧
  (cxpr_build_struct_cache_key "macd" [fone; fzero] =
     cxpr_build_struct_cache_key "macd" [fone] →
   "macd"%string = "macd"%string ∧ [fone; fzero] = [fone]).
Proof.
  apply (struct_cache_key_injective (HF := print_hex_format) "macd" "macd" [fone; fzero] [fone]);
    [by vm_compute; set_solver|by vm_compute; set_solver|by repeat constructor|by repeat constructor].
Defined.
