(* ===== verification/Formulas.v ===== *)
(** * Formulas: named expressions that refer to each other
    ([src/expression/expression.c], [src/expression/evaluator.c])

    An evaluator holds named expressions.  Compiling it orders them by their
    references and compiles each; evaluating it computes them in that order, with
    the results already computed visible through the context's expression scope.

    The analysis, the compiler and the evaluators of one expression are the class
    [FormulaHost].  An entry below [count] always has its tree and its name, so
    the tests for a NULL tree have no counterpart. *)

From Stdlib Require Import Ascii String ZArith Lia.
From stdpp Require Import base list strings sets relations pretty.
From S2P Require Import Prelude Float64 Types ValueCopy OpenTable StructMap Bindings Context Lexer Ast References DepOrder Parser.
Local Open Scope run_scope.
Local Open Scope nat_scope.

(** ** Errors as text *)

Definition cxpr_error_string (code : cxpr_error_code) : string :=
  match code with
  | CXPR_OK => "OK"
  | CXPR_ERR_SYNTAX => "Syntax error"
  | CXPR_ERR_UNKNOWN_IDENTIFIER => "Unknown identifier"
  | CXPR_ERR_UNKNOWN_FUNCTION => "Unknown function"
  | CXPR_ERR_WRONG_ARITY => "Wrong number of arguments"
  | CXPR_ERR_DIVISION_BY_ZERO => "Division by zero"
  | CXPR_ERR_CIRCULAR_DEPENDENCY => "Circular dependency"
  | CXPR_ERR_TYPE_MISMATCH => "Type mismatch"
  | CXPR_ERR_OUT_OF_MEMORY => "Out of memory"
  | _ => "Unknown error"
  end.

(** [snprintf] into [size] bytes: the stored text and the full length. *)
Definition snprintf (size : nat) (text : string) : string * nat :=
  (str_take (size - 1) text, strlen text).

Definition cxpr_error_format (err : cxpr_error) (size : nat) : string * nat :=
  match err_code err with
  | CXPR_OK => snprintf size "no error"
  | code =>
      let code_str := cxpr_error_string code in
      let message := default code_str (err_message err) in
      if (err_line err =? 0) && (err_column err =? 0) && (err_position err =? 0)
      then snprintf size (code_str +:+ ": " +:+ message)
      else snprintf size (code_str +:+ " at " +:+ pretty (N.of_nat (err_line err)) +:+ ":" +:+
                          pretty (N.of_nat (err_column err)) +:+ ": " +:+ message)
  end.

(** The code and the message are set, the location stays. *)
Definition set_error (err : cxpr_error) (code : cxpr_error_code) (message : string) : cxpr_error :=
  mk_error code (Some message) (err_position err) (err_line err) (err_column err).
Definition set_code (err : cxpr_error) (code : cxpr_error_code) : cxpr_error :=
  mk_error code (err_message err) (err_position err) (err_line err) (err_column err).

(** ** Interface of one expression

    What the evaluator asks of the analysis, of the compiler, of the registry and
    of the two evaluators.  A context with its ancestors is a list; an evaluation
    may move its caches. *)
Class FormulaHost : Type := {
  program : Type;
  compiled_ir_count : program → nat;
  analyze : cxpr_expr_ast → cxpr_error → bool * cxpr_error;
  compile : cxpr_expr_ast → cxpr_error → option program * cxpr_error;
  compiled_eval : program → list cxpr_context → run (list cxpr_context * cxpr_value * cxpr_error);
  eval_ast : cxpr_expr_ast → list cxpr_context → run (list cxpr_context * cxpr_value * cxpr_error);
  is_struct_producer : cxpr_expr_ast → bool;
  bind_call_args : cxpr_expr_ast → option cxpr_error;
  struct_result : cxpr_expr_ast → list cxpr_context →
    run (list cxpr_context * option cxpr_struct_value * cxpr_error);
  memo_enter : cxpr_context → cxpr_context;
  memo_leave : cxpr_context → cxpr_context
}.

Section formulas.
Context `{FormulaHost}.

(** ** Data *)

Record cxpr_expression_entry : Type := mk_entry {
  en_name : string;
  en_expression : string;
  en_ast : cxpr_expr_ast;
  en_program : option program;
  en_result : cxpr_value;
  en_evaluated : bool;
  en_used_as_struct_prefix : bool
}.

Record cxpr_evaluator : Type := mk_evaluator {
  ev_expressions : list cxpr_expression_entry;
  ev_capacity : Z;
  ev_eval_order : list nat;
  ev_compiled : bool;
  ev_parser : cxpr_expr_parser
}.

Definition ev_count (ev : cxpr_evaluator) : nat := length (ev_expressions ev).

Definition with_expressions (es : list cxpr_expression_entry) (ev : cxpr_evaluator)
    : cxpr_evaluator :=
  mk_evaluator es (ev_capacity ev) (ev_eval_order ev) (ev_compiled ev) (ev_parser ev).
Definition with_compiled (b : bool) (ev : cxpr_evaluator) : cxpr_evaluator :=
  mk_evaluator (ev_expressions ev) (ev_capacity ev) (ev_eval_order ev) b (ev_parser ev).
Definition with_order (order : list nat) (ev : cxpr_evaluator) : cxpr_evaluator :=
  mk_evaluator (ev_expressions ev) (ev_capacity ev) order (ev_compiled ev) (ev_parser ev).

Definition CXPR_EXPRESSION_INITIAL_CAPACITY : Z := 32.

Definition cxpr_evaluator_new : cxpr_evaluator :=
  mk_evaluator [] CXPR_EXPRESSION_INITIAL_CAPACITY [] false cxpr_expr_parser_new.

(** ** Lookup by name *)

Fixpoint find_from (i : nat) (es : list cxpr_expression_entry) (name : string) : option nat :=
  match es with
  | [] => None
  | e :: es => if String.eqb (en_name e) name then Some i else find_from (S i) es name
  end.
Definition cxpr_expression_find (ev : cxpr_evaluator) (name : string) : option nat :=
  find_from 0 (ev_expressions ev) name.

(** [strncmp(s, prefix, strlen(prefix)) == 0] *)
Definition has_prefix (s prefix : string) : bool :=
  String.eqb (str_take (strlen prefix) s) prefix.

Definition cxpr_expression_reference_matches_name (reference name : string) : bool :=
  if String.eqb reference name then true
  else has_prefix reference name && Ascii.eqb (char_at (strlen name) reference) ".".

(** The result, and [*found]. *)
Definition cxpr_expression_lookup_typed_result (ev : cxpr_evaluator) (name : string)
    : option cxpr_value :=
  match cxpr_expression_find ev name with
  | None => None
  | Some idx =>
      match ev_expressions ev !! idx with
      | Some e => if en_evaluated e then Some (en_result e) else None
      | None => None
      end
  end.

Definition cxpr_expression_get (ev : cxpr_evaluator) (name : string) : option cxpr_value :=
  cxpr_expression_lookup_typed_result ev name.
Definition cxpr_expression_get_double (ev : cxpr_evaluator) (name : string) : option float64 :=
  match cxpr_expression_get ev name with Some (VNum d) => Some d | _ => None end.
Definition cxpr_expression_get_bool (ev : cxpr_evaluator) (name : string) : option bool :=
  match cxpr_expression_get ev name with Some (VBool b) => Some b | _ => None end.

(** ** Dependencies *)

Definition max_references : nat := 256.

Definition entry_references (e : cxpr_expression_entry) : list string :=
  buf_names (cxpr_expr_ast_references (en_ast e) max_references).

Definition cxpr_expression_depends_on (ev : cxpr_evaluator) (expression_idx dep_idx : nat) : bool :=
  match ev_expressions ev !! expression_idx, ev_expressions ev !! dep_idx with
  | Some e, Some d =>
      existsb (fun r => cxpr_expression_reference_matches_name r (en_name d)) (entry_references e)
  | _, _ => false
  end.

(** [ok 0] .. [ok 3] are the answers to the requests for [in_degree], [visited],
    [queue] and [order]; only the first failure is reported in [err]. *)
Definition cxpr_expression_topo_sort (ok : nat → bool) (ev : cxpr_evaluator) (err : cxpr_error)
    : run (bool * cxpr_evaluator * cxpr_error) :=
  let n := ev_count ev in
  let dep := cxpr_expression_depends_on ev in
  if n =? 0 then Done (true, ev, err)
  else if negb (ok 0) then Done (false, ev, set_error err CXPR_ERR_OUT_OF_MEMORY "Out of memory")
  else if negb (ok 1) then Done (false, ev, err)
  else if has_cycle n dep then
    Done (false, ev, set_error err CXPR_ERR_CIRCULAR_DEPENDENCY "Circular dependency detected")
  else if negb (ok 2 && ok 3) then Done (false, ev, err)
  else
    let* order := queue_order n dep in
    if length order =? n then Done (true, with_order order ev, err)
    else Done (false, ev,
               set_error err CXPR_ERR_CIRCULAR_DEPENDENCY "Circular dependency detected").

(** ** Registration *)

Definition cxpr_evaluator_grow (ok : bool) (ev : cxpr_evaluator) : option cxpr_evaluator :=
  if (ev_capacity ev >? SIZE_MAX / 2)%Z then None
  else if ok then Some (mk_evaluator (ev_expressions ev) (ev_capacity ev * 2) (ev_eval_order ev)
                          (ev_compiled ev) (ev_parser ev))
  else None.

Definition cxpr_evaluator_reserve_for_entry (ok : bool) (ev : cxpr_evaluator)
    : option cxpr_evaluator :=
  if (Z.of_nat (ev_count ev) >=? ev_capacity ev)%Z then cxpr_evaluator_grow ok ev else Some ev.

(** [None] stands for a NULL argument. *)
Definition cxpr_expression_add (ok : bool) (ev : cxpr_evaluator) (name expression : option string)
    (err : cxpr_error) : run (bool * cxpr_evaluator * cxpr_error) :=
  match name, expression with
  | Some name, Some expression =>
      let* '(ast, parser, parse_err) :=
        cxpr_expr_ast_parse (Some (ev_parser ev)) (Some expression) error_zero in
      let ev := mk_evaluator (ev_expressions ev) (ev_capacity ev) (ev_eval_order ev)
                  (ev_compiled ev) (default (ev_parser ev) parser) in
      match ast with
      | None => Done (false, ev, parse_err)
      | Some ast =>
          match cxpr_evaluator_reserve_for_entry ok ev with
          | None => Done (false, ev, set_error err CXPR_ERR_OUT_OF_MEMORY "Out of memory")
          | Some ev =>
              let entry := mk_entry name expression ast None (VNum fzero) false false in
              Done (true, with_compiled false (with_expressions (ev_expressions ev ++ [entry]) ev),
                    set_code err CXPR_OK)
          end
      end
  | _, _ => Done (false, ev, set_error err CXPR_ERR_SYNTAX "NULL argument")
  end.

Definition cxpr_evaluator_truncate (ev : cxpr_evaluator) (count : nat) : cxpr_evaluator :=
  if ev_count ev <=? count then ev
  else with_compiled false (with_expressions (take count (ev_expressions ev)) ev).

Fixpoint add_each (ok : nat → bool) (ev : cxpr_evaluator) (i : nat)
    (defs : list (option string * option string)) (err : cxpr_error)
    : run (bool * cxpr_evaluator * cxpr_error) :=
  match defs with
  | [] => Done (true, ev, err)
  | (name, expression) :: defs =>
      let* '(added, ev, err) := cxpr_expression_add (ok i) ev name expression err in
      if added then add_each ok ev (S i) defs err else Done (false, ev, err)
  end.

Definition cxpr_expressions_add (ok : nat → bool) (ev : cxpr_evaluator)
    (defs : list (option string * option string)) (err : cxpr_error)
    : run (bool * cxpr_evaluator * cxpr_error) :=
  let start_count := ev_count ev in
  let* '(added, ev, err) := add_each ok ev 0 defs err in
  if added then Done (true, ev, set_code err CXPR_OK)
  else Done (false, cxpr_evaluator_truncate ev start_count, err).

(** ** Compilation *)

(** [snprintf] into the buffers [detail] and [message]. *)
Definition error_detail (err : cxpr_error) : string :=
  str_take 383 (default (cxpr_error_string (err_code err)) (err_message err)).

Definition cxpr_expression_wrap_compile_error (entry : cxpr_expression_entry) (err : cxpr_error)
    : cxpr_error :=
  match err_code err with
  | CXPR_OK => err
  | code => set_error err code
      (str_take 511 ("Expression '" +:+ en_name entry +:+ "': " +:+ error_detail err))
  end.

Definition cxpr_expression_wrap_eval_error (entry : cxpr_expression_entry) (err : cxpr_error)
    : cxpr_error :=
  match err_code err with
  | CXPR_OK => err
  | code => set_error err code
      (str_take 1023 ("Expression '" +:+ en_name entry +:+ "' eval failed: " +:+ error_detail err
                        +:+ "; expr: " +:+ en_expression entry))
  end.

Definition cxpr_expression_entry_used_as_struct_prefix (ev : cxpr_evaluator) (entry_index : nat)
    : bool :=
  match ev_expressions ev !! entry_index with
  | None => false
  | Some entry =>
      let name := en_name entry in
      if strlen name =? 0 then false
      else existsb
        (fun i =>
           negb (i =? entry_index) &&
           match ev_expressions ev !! i with
           | None => false
           | Some e =>
               existsb (fun r => has_prefix r name && Ascii.eqb (char_at (strlen name) r) ".")
                 (entry_references e)
           end)
        (seq 0 (ev_count ev))
  end.

Definition set_program (p : option program) (e : cxpr_expression_entry) : cxpr_expression_entry :=
  mk_entry (en_name e) (en_expression e) (en_ast e) p (en_result e) (en_evaluated e)
    (en_used_as_struct_prefix e).
Definition set_prefix_flag (b : bool) (e : cxpr_expression_entry) : cxpr_expression_entry :=
  mk_entry (en_name e) (en_expression e) (en_ast e) (en_program e) (en_result e) (en_evaluated e) b.
Definition set_result (v : cxpr_value) (evaluated : bool) (e : cxpr_expression_entry)
    : cxpr_expression_entry :=
  mk_entry (en_name e) (en_expression e) (en_ast e) (en_program e) v evaluated
    (en_used_as_struct_prefix e).

(** The loop that analyses and compiles the entries. *)
Fixpoint compile_entries (es : list cxpr_expression_entry) (err : cxpr_error)
    : bool * list cxpr_expression_entry * cxpr_error :=
  match es with
  | [] => (true, [], err)
  | entry :: es =>
      let entry := set_program None entry in
      let '(analyzed, err) := analyze (en_ast entry) err in
      if negb analyzed
      then (false, entry :: es, cxpr_expression_wrap_compile_error entry err)
      else
        let '(p, err) := compile (en_ast entry) err in
        match p with
        | None => (false, entry :: es, cxpr_expression_wrap_compile_error entry err)
        | Some p =>
            let '(done, es, err) := compile_entries es err in
            (done, set_program (Some p) entry :: es, err)
        end
  end.

Definition cxpr_evaluator_compile (ok : nat → bool) (ev : cxpr_evaluator) (err : cxpr_error)
    : run (bool * cxpr_evaluator * cxpr_error) :=
  let* '(sorted, ev, err) := cxpr_expression_topo_sort ok ev err in
  if negb sorted then Done (false, ev, err)
  else
    let '(done, es, err) := compile_entries (ev_expressions ev) err in
    let ev := with_expressions es ev in
    if negb done then Done (false, with_compiled false ev, err)
    else
      let flags := imap (fun i e =>
        set_prefix_flag (cxpr_expression_entry_used_as_struct_prefix ev i) e) (ev_expressions ev) in
      Done (true, with_compiled true (with_expressions flags ev), set_code err CXPR_OK).

(** ** Evaluation *)

(** The three results -1, 0 and 1 of [cxpr_expression_eval_struct_alias]. *)
Inductive alias_result : Type :=
  | AliasError
  | AliasNone
  | AliasValue (v : cxpr_value).

Definition cxpr_expression_eval_struct_alias (entry : cxpr_expression_entry)
    (chain : list cxpr_context) : run (list cxpr_context * alias_result * cxpr_error) :=
  if negb (bool_decide (cxpr_expr_ast_kind_of (en_ast entry) = KIND_FUNCTION_CALL))
  then Done (chain, AliasNone, error_zero)
  else if negb (is_struct_producer (en_ast entry)) then Done (chain, AliasNone, error_zero)
  else match bind_call_args (en_ast entry) with
       | Some e => Done (chain, AliasError, e)
       | None =>
           let* '(chain, produced, e) := struct_result (en_ast entry) chain in
           match err_code e, produced with
           | CXPR_OK, Some fields => Done (chain, AliasValue (VStruct fields), e)
           | _, _ => Done (chain, AliasError, e)
           end
       end.

(** The evaluator a context's expression scope points to changes while the
    entries are evaluated, so the view is taken again for each entry. *)
Definition enter_scope (ev : cxpr_evaluator) (chain : list cxpr_context) : list cxpr_context :=
  match chain with
  | [] => []
  | c :: chain => cxpr_context_set_expression_scope (cxpr_expression_lookup_typed_result ev) c :: chain
  end.

(** The value of an entry, or the error of its struct alias with [None]. *)
Definition eval_entry (entry : cxpr_expression_entry) (chain : list cxpr_context)
    : run (list cxpr_context * option cxpr_value * cxpr_error) :=
  let plain (chain : list cxpr_context) :=
    match en_program entry with
    | Some p => let* '(chain, v, e) := compiled_eval p chain in Done (chain, Some v, e)
    | None => let* '(chain, v, e) := eval_ast (en_ast entry) chain in Done (chain, Some v, e)
    end in
  if en_used_as_struct_prefix entry then
    let* '(chain, alias, e) := cxpr_expression_eval_struct_alias entry chain in
    match alias with
    | AliasError => Done (chain, None, e)
    | AliasNone => plain chain
    | AliasValue v => Done (chain, Some v, e)
    end
  else plain chain.

(** The value types an evaluator stores. *)
Definition supported_result (v : cxpr_value) : bool :=
  match value_type v with
  | CXPR_VALUE_NUMBER | CXPR_VALUE_BOOL | CXPR_VALUE_STRUCT | CXPR_VALUE_STRING | CXPR_VALUE_NULL
  | CXPR_VALUE_TIMESTAMP | CXPR_VALUE_DURATION | CXPR_VALUE_ARRAY => true
  | CXPR_VALUE_INT64 => false
  end.

Definition cxpr_expression_result_clone (ok : nat → bool) (v : cxpr_value)
    : option cxpr_value := fst (cxpr_value_clone ok v 0).

(** The loop over the evaluation order: [None] when every entry was evaluated,
    the error otherwise.  [ok i] answers the requests of the [i]-th copy.  An
    index outside the entries is an access outside the array. *)
Fixpoint eval_loop (ok : nat → nat → bool) (order : list nat) (ev : cxpr_evaluator)
    (chain : list cxpr_context) (err : cxpr_error) : run (cxpr_evaluator * list cxpr_context * option cxpr_error) :=
  match order with
  | [] => Done (ev, chain, None)
  | idx :: order =>
      match ev_expressions ev !! idx with
      | None => Undef
      | Some entry =>
          let* '(chain, value, eval_err) := eval_entry entry (enter_scope ev chain) in
          match value with
          | None => Done (ev, chain, Some eval_err)
          | Some value =>
              match err_code eval_err with
              | CXPR_OK =>
                  if negb (supported_result value) then
                    Done (ev, chain, Some (cxpr_expression_wrap_eval_error entry
                      (set_error err CXPR_ERR_TYPE_MISMATCH
                         "Expression result has unsupported value type")))
                  else
                    match cxpr_expression_result_clone (ok idx) value with
                    | None =>
                        Done (ev, chain, Some (cxpr_expression_wrap_eval_error entry
                          (set_error eval_err CXPR_ERR_OUT_OF_MEMORY "Out of memory")))
                    | Some copy =>
                        eval_loop ok order
                          (with_expressions (<[idx := set_result copy true entry]> (ev_expressions ev))
                             ev) chain err
                    end
              | _ => Done (ev, chain, Some (cxpr_expression_wrap_eval_error entry eval_err))
              end
          end
      end
  end.

Definition cxpr_evaluator_eval (ok : nat → nat → bool) (ev : cxpr_evaluator)
    (chain : list cxpr_context) (err : cxpr_error)
    : run (cxpr_evaluator * list cxpr_context * cxpr_error) :=
  match chain with
  | [] => Done (ev, chain, set_error err CXPR_ERR_SYNTAX "NULL argument")
  | c :: parents =>
      if negb (ev_compiled ev)
      then Done (ev, chain, set_error err CXPR_ERR_SYNTAX "Evaluator not compiled")
      else
        let previous_scope := expression_scope c in
        let* c := cxpr_context_clear_cached_structs c in
        let ev := with_expressions (map (set_result (VNum fzero) false) (ev_expressions ev)) ev in
        let* '(ev, chain, failed) := eval_loop ok (ev_eval_order ev) ev (memo_enter c :: parents) err in
        let chain := match chain with
                     | [] => []
                     | c :: parents => set_scope previous_scope (memo_leave c) :: parents
                     end in
        Done (ev, chain, match failed with Some e => e | None => set_code err CXPR_OK end)
  end.

(** ** Instruction counts and order *)

Definition cxpr_expression_instruction_count_at (ev : cxpr_evaluator) (idx : nat) : nat :=
  match ev_expressions ev !! idx with
  | Some e => match en_program e with Some p => compiled_ir_count p | None => 0 end
  | None => 0
  end.

Fixpoint count_dependencies (count : nat → list bool → run (nat * list bool)) (ev : cxpr_evaluator)
    (idx : nat) (js : list nat) (total : nat) (visited : list bool) : run (nat * list bool) :=
  match js with
  | [] => Done (total, visited)
  | i :: js =>
      if negb (i =? idx) && cxpr_expression_depends_on ev idx i
      then let* '(k, visited) := count i visited in
           count_dependencies count ev idx js (total + k) visited
      else count_dependencies count ev idx js total visited
  end.

Fixpoint cxpr_expression_dependency_instruction_count_at (fuel : nat) (ev : cxpr_evaluator)
    (idx : nat) (visited : list bool) : run (nat * list bool) :=
  match fuel with
  | O => OutOfFuel
  | S fuel =>
      match visited !! idx with
      | Some false =>
          count_dependencies (cxpr_expression_dependency_instruction_count_at fuel ev) ev idx
            (seq 0 (ev_count ev)) (cxpr_expression_instruction_count_at ev idx)
            (<[idx := true]> visited)
      | _ => Done (0, visited)
      end
  end.

Definition cxpr_expression_instruction_count (ev : cxpr_evaluator) (name : string) : option nat :=
  match cxpr_expression_find ev name with
  | None => None
  | Some idx => Some (cxpr_expression_instruction_count_at ev idx)
  end.

(** [ok] is the answer to the request for [visited]. *)
Definition cxpr_expression_dependency_instruction_count (ok : bool) (ev : cxpr_evaluator)
    (name : string) : run (option nat) :=
  match cxpr_expression_find ev name with
  | None => Done None
  | Some idx =>
      if ok then
        let* '(total, _) := cxpr_expression_dependency_instruction_count_at (ev_count ev + 1) ev idx
                              (replicate (ev_count ev) false) in
        Done (Some total)
      else Done (Some (cxpr_expression_instruction_count_at ev idx))
  end.

Definition cxpr_expression_total_instruction_count (ev : cxpr_evaluator) : nat :=
  fold_left (fun total i => total + cxpr_expression_instruction_count_at ev i)
    (seq 0 (ev_count ev)) 0.

(** The names written and the number returned. *)
Definition cxpr_expression_eval_order (ev : cxpr_evaluator) (max_names : nat)
    : list (option string) * nat :=
  if ev_compiled ev
  then (map (fun i => option_map en_name (ev_expressions ev !! i)) (take max_names (ev_eval_order ev)),
        length (ev_eval_order ev))
  else ([], 0).

End formulas.
