(* ===== verification/FormulaProofs.v ===== *)
(** * FormulaProofs: dependency order and evaluation of named expressions

    Theorems on [Formulas.v], for every [FormulaHost]. *)

From Stdlib Require Import Ascii String ZArith Lia.
From stdpp Require Import base list strings sets relations.
From S2P Require Import Prelude Float64 Types ValueCopy OpenTable StructMap Bindings Context Lexer Ast References DepOrder Parser Formulas.
Local Open Scope run_scope.
Local Open Scope nat_scope.

Section proofs.
Context `{FormulaHost}.

(** ** References and names *)

Lemma has_prefix_spec s p : has_prefix s p = true ↔ ∃ rest, s = p +:+ rest.
Proof.
  unfold has_prefix. rewrite String.eqb_eq. revert s.
  induction p as [|c p IH]; intros s; [split; [by exists s|by destruct s]|].
  destruct s as [|c' s]; [split; [done|by intros [? ?]]|]. split.
  - intros E. injection E as -> E. apply IH in E as [rest ->]. by exists rest.
  - intros [rest E]. injection E as -> ->. cbn. f_equal. apply IH. by exists rest.
Qed.

Lemma char_at_append p rest : char_at (strlen p) (p +:+ rest) = char_at0 rest.
Proof. induction p as [|c p IH]; [by destruct rest|]. cbn. apply IH. Qed.

Lemma matches_name_spec reference name :
  cxpr_expression_reference_matches_name reference name = true ↔
  reference = name ∨ ∃ rest, reference = name +:+ String "." rest.
Proof.
  unfold cxpr_expression_reference_matches_name.
  destruct (String.eqb_spec reference name) as [->|Hne]; [naive_solver|].
  rewrite andb_true_iff, has_prefix_spec, Ascii.eqb_eq. split.
  - intros [[rest ->] Hdot]. rewrite char_at_append in Hdot. right.
    destruct rest as [|c rest]; [done|]. simpl in Hdot. subst. by exists rest.
  - intros [->|[rest ->]]; [done|]. rewrite char_at_append. split; [by eexists|done].
Qed.

(** ** What a formula refers to *)

(** The names and dotted paths a tree reads, anywhere in it. *)
Inductive names_in : cxpr_expr_ast → string → Prop :=
  | names_identifier s name : names_in (Ast s (CXPR_NODE_IDENTIFIER name)) name
  | names_field s object field path :
      names_in (Ast s (CXPR_NODE_FIELD_ACCESS None object field (Some path))) path
  | names_chain s parts path : names_in (Ast s (CXPR_NODE_CHAIN_ACCESS parts path)) path
  | names_child s d child name : child ∈ children d → names_in child name → names_in (Ast s d) name.

(** [name] is read, or a path that starts with it. *)
Definition refers_to (a : cxpr_expr_ast) (name : string) : Prop :=
  ∃ r, names_in a r ∧ (r = name ∨ ∃ rest, r = name +:+ String "." rest).

(** Formulas the search for references covers: no field of an expression, as in
    [(a).v], and at most 256 different names. *)
Definition no_field_of_expression (a : cxpr_expr_ast) : Prop :=
  ast_all (λ a, match ast_node a with CXPR_NODE_FIELD_ACCESS (Some _) _ _ _ => False | _ => True end) a.
Definition few_names (a : cxpr_expr_ast) : Prop :=
  ∃ l, length l ≤ 256 ∧ ∀ r, names_in a r → r ∈ l.
Definition covered (a : cxpr_expr_ast) : Prop := no_field_of_expression a ∧ few_names a.

Lemma reference_names_iff a r : no_field_of_expression a → r ∈ reference_names a ↔ names_in a r.
Proof.
  induction a as [s d IH] using ast_ind. intros [Hd Hall]%ast_all_inv. simpl in Hd, Hall.
  assert (Hvisit : visited_children d = children d) by (by destruct d as [| | | | | | | |[]| | | | | | |]).
  rewrite Forall_forall in IH, Hall. rewrite occurrences_eq, elem_of_app, Hvisit.
  assert (Hrest : r ∈ flat_map (λ e, no_edge d e ++ reference_names e) (children d) ↔
    ∃ c, c ∈ children d ∧ names_in c r).
  { rewrite list_elem_of_In, in_flat_map. setoid_rewrite <- list_elem_of_In. simpl.
    split; intros (c & Hc & Hr); exists c; (split; [done|]); by apply (IH c Hc (Hall c Hc)). }
  rewrite Hrest. split.
  - intros [Hown|(c & Hc & Hr)]; [|by eapply names_child].
    destruct d as [| | | | | | | |[] ? ? []| | | | | | |]; simpl in *;
      first [by apply elem_of_nil in Hown|done|apply list_elem_of_singleton in Hown as ->; constructor].
  - inversion 1; subst; simpl; [left; by apply list_elem_of_singleton..|]. right. eauto.
Qed.

(** ** Evaluators with the same formulas *)

Definition formula (e : cxpr_expression_entry) : string * cxpr_expr_ast := (en_name e, en_ast e).
Definition formulas (ev : cxpr_evaluator) : list (string * cxpr_expr_ast) :=
  formula <$> ev_expressions ev.

(** The results, programs and flags of the entries are left out. *)
Definition same_formulas (ev ev' : cxpr_evaluator) : Prop := formulas ev = formulas ev'.

#[local] Instance same_formulas_equivalence : Equivalence same_formulas.
Proof. split; unfold same_formulas; repeat intro; congruence. Qed.

#[local] Instance ev_count_proper : Proper (same_formulas ==> eq) ev_count.
Proof.
  intros ev ev' E. unfold ev_count. rewrite <- (length_fmap formula).
  fold (formulas ev). by rewrite E; unfold formulas; rewrite length_fmap.
Qed.

Lemma depends_on_formulas ev i j :
  cxpr_expression_depends_on ev i j =
  match formulas ev !! i, formulas ev !! j with
  | Some (_, a), Some (name, _) =>
      existsb (fun r => cxpr_expression_reference_matches_name r name)
        (buf_names (cxpr_expr_ast_references a max_references))
  | _, _ => false
  end.
Proof.
  unfold cxpr_expression_depends_on, formulas. rewrite !list_lookup_fmap.
  by destruct (ev_expressions ev !! i), (ev_expressions ev !! j).
Qed.

#[local] Instance depends_on_proper : Proper (same_formulas ==> eq ==> eq ==> eq) cxpr_expression_depends_on.
Proof. intros ev ev' E i ? <- j ? <-. by rewrite !depends_on_formulas, E. Qed.

(** An order of the entries of [ev] behind what the code sees as their
    dependencies. *)
Definition code_order (ev : cxpr_evaluator) (order : list nat) : Prop :=
  order ≡ₚ seq 0 (ev_count ev) ∧ ordered (ev_count ev) (cxpr_expression_depends_on ev) order.

Lemma edge_ext n (dep dep' : nat → nat → bool) i j :
  (∀ i j, dep i j = dep' i j) → edge n dep i j → edge n dep' i j.
Proof. unfold edge. intros E. by rewrite E. Qed.

#[local] Instance code_order_proper : Proper (same_formulas ==> eq ==> iff) code_order.
Proof.
  assert (Hsub : ∀ ev ev' order, same_formulas ev ev' → code_order ev order → code_order ev' order).
  { intros ev ev' order E [Hp Ho]. pose proof (ev_count_proper _ _ E) as En.
    split; [by rewrite <- En|]. intros k i j Hk He.
    apply (Ho k i j Hk). rewrite En. revert He. apply edge_ext.
    intros. symmetry. by apply depends_on_proper. }
  intros ev ev' E order ? <-. split; by apply Hsub.
Qed.

(** ** Ordering *)

Definition code_acyclic (ev : cxpr_evaluator) : Prop :=
  acyclic (ev_count ev) (cxpr_expression_depends_on ev).

(** *** What the formulas mean

    Formula [i] refers to formula [j] by name. *)
Definition depends (ev : cxpr_evaluator) (i j : nat) : Prop :=
  ∃ e d, ev_expressions ev !! i = Some e ∧ ev_expressions ev !! j = Some d ∧ refers_to (en_ast e) (en_name d).

Definition acyclic_formulas (ev : cxpr_evaluator) : Prop := ∀ i, ¬ tc (depends ev) i i.

(** Every formula once, and behind everything it refers to. *)
Definition valid_order (ev : cxpr_evaluator) (order : list nat) : Prop :=
  order ≡ₚ seq 0 (ev_count ev) ∧
  ∀ k i j, order !! k = Some i → depends ev i j → ∃ m, m < k ∧ order !! m = Some j.

Definition formulas_covered (ev : cxpr_evaluator) : Prop := Forall (λ e, covered (en_ast e)) (ev_expressions ev).

(** The references the code collects of a covered formula are all there are. *)
Lemma entry_references_iff e r : covered (en_ast e) → r ∈ entry_references e ↔ names_in (en_ast e) r.
Proof.
  intros [Hf (l & Hl & Hin)]. rewrite <- reference_names_iff by done. unfold entry_references.
  destruct (references_collected (en_ast e) max_references) as [-> _].
  rewrite take_ge; [apply elem_of_distinct|]. transitivity (length l); [|exact Hl].
  apply submseteq_length, NoDup_submseteq; [apply NoDup_distinct|].
  intros x. rewrite elem_of_distinct, reference_names_iff by done. apply Hin.
Qed.

Lemma depends_iff ev i j :
  formulas_covered ev → edge (ev_count ev) (cxpr_expression_depends_on ev) i j ↔ depends ev i j.
Proof.
  intros Hc. unfold edge, cxpr_expression_depends_on, depends, ev_count. split.
  - intros (Hi & Hj & Hdep). destruct (ev_expressions ev !! i) as [e|] eqn:He; [|done].
    destruct (ev_expressions ev !! j) as [d|] eqn:Hd; [|done]. exists e, d. split_and!; [done..|].
    apply existsb_exists in Hdep as (r & Hr & Hm). rewrite <- list_elem_of_In in Hr.
    apply entry_references_iff in Hr; [|exact (Forall_lookup_1 _ _ _ _ Hc He)]. apply matches_name_spec in Hm. by exists r.
  - intros (e & d & He & Hd & r & Hr & Hm). split_and!; [by eapply lookup_lt_Some..|]. rewrite He, Hd.
    apply existsb_exists. exists r. rewrite <- list_elem_of_In. split; [|by apply matches_name_spec].
    apply entry_references_iff; [exact (Forall_lookup_1 _ _ _ _ Hc He)|done].
Qed.

Lemma code_order_iff ev order : formulas_covered ev → code_order ev order ↔ valid_order ev order.
Proof.
  intros Hc. unfold code_order, valid_order, ordered. by setoid_rewrite (λ i j, depends_iff ev i j Hc).
Qed.

Lemma code_acyclic_iff ev : formulas_covered ev → code_acyclic ev ↔ acyclic_formulas ev.
Proof.
  intros Hc. assert (Hsub : ∀ i j, tc (edge (ev_count ev) (cxpr_expression_depends_on ev)) i j ↔ tc (depends ev) i j).
  { intros i j. split; (induction 1 as [x y Hxy|x y z Hxy _ IH]; [apply tc_once|apply (tc_l _ _ y); [|done]]);
      by apply depends_iff. }
  unfold code_acyclic, acyclic, acyclic_formulas. by setoid_rewrite Hsub.
Qed.

Lemma topo_sort_spec ok ev err :
  (Z.of_nat (ev_count ev) < 2 ^ 64)%Z →
  ∃ sorted ev' err', cxpr_expression_topo_sort ok ev err = Done (sorted, ev', err') ∧
  if sorted then
    code_acyclic ev ∧ err' = err ∧
    ∃ order, ev' = with_order order ev ∧
      if decide (ev_count ev = 0) then order = ev_eval_order ev else code_order ev order
  else
    ev' = ev ∧ ((∀ k, k < 4 → ok k = true) →
      ¬ code_acyclic ev ∧ err_code err' = CXPR_ERR_CIRCULAR_DEPENDENCY).
Proof.
  intros Hsize. unfold cxpr_expression_topo_sort.
  destruct (Nat.eqb_spec (ev_count ev) 0) as [Hz|Hnz].
  { exists true, ev, err. split; [done|]. split_and!; [|done|].
    - intros i Hc. assert (i < ev_count ev); [|lia].
      inversion Hc as [? ? [? _]|? ? ? [? _] _]; done.
    - exists (ev_eval_order ev). split; [by destruct ev|by rewrite decide_True]. }
  destruct (ok 0) eqn:H0; cbn [negb]; [|do 3 eexists; split; [done|]; split; [done|]; intros Hok;
    by rewrite (Hok 0 ltac:(lia)) in H0].
  destruct (ok 1) eqn:H1; cbn [negb]; [|do 3 eexists; split; [done|]; split; [done|]; intros Hok;
    by rewrite (Hok 1 ltac:(lia)) in H1].
  pose proof (has_cycle_false (ev_count ev) (cxpr_expression_depends_on ev)) as Hcyc.
  destruct (has_cycle _ _) eqn:Ec.
  { do 3 eexists; split; [done|]. split; [done|]. intros _. split; [|done].
    intros Ha. apply Hcyc in Ha. done. }
  destruct (ok 2 && ok 3) eqn:H23; cbn [negb]; [|do 3 eexists; split; [done|]; split; [done|]; intros Hok;
    by rewrite (Hok 2 ltac:(lia)), (Hok 3 ltac:(lia)) in H23].
  assert (Ha : code_acyclic ev) by (by apply Hcyc).
  destruct (queue_order_spec _ _ Hsize Ha) as (order & -> & Hp & Ho). cbn [run_bind].
  rewrite (Permutation_length Hp), length_seq, Nat.eqb_refl.
  do 3 eexists; split; [done|]. split_and!; [done|done|]. exists order. split; [done|].
  by rewrite decide_False.
Qed.

(** C28: when memory is available, ordering always ends; it succeeds exactly when
    the references between the formulas have no cycle, and then stores an order
    that lists every formula once and behind every formula whose name, or a path
    that starts with it, is read anywhere in its tree; otherwise it reports a
    circular dependency and leaves the evaluator as it was.  The formulas access no
    field of an expression (as [(a).v], see [field_base_dependency_missed]) and
    each reads at most 256 different names; there are fewer than 2^64 of them. *)
Theorem topo_sort_correct ok ev err :
  (Z.of_nat (ev_count ev) < 2 ^ 64)%Z → (∀ k, ok k = true) → 0 < ev_count ev → formulas_covered ev →
  ∃ sorted ev' err', cxpr_expression_topo_sort ok ev err = Done (sorted, ev', err') ∧
    (sorted = true ↔ acyclic_formulas ev) ∧
    if sorted then err' = err ∧ ev' = with_order (ev_eval_order ev') ev ∧
                   valid_order ev (ev_eval_order ev')
    else ev' = ev ∧ err_code err' = CXPR_ERR_CIRCULAR_DEPENDENCY.
Proof.
  intros Hsize Hok Hn Hcov. destruct (topo_sort_spec ok ev err Hsize) as (sorted & ev' & err' & E & Hs).
  exists sorted, ev', err'. split; [done|]. rewrite <- code_acyclic_iff by done. destruct sorted.
  - destruct Hs as (Ha & -> & order & -> & Ho). rewrite decide_False in Ho by lia.
    rewrite code_order_iff in Ho by done. done.
  - destruct Hs as (-> & Hc). destruct (Hc (λ k _, Hok k)) as [? ?]. done.
Qed.

(** ** The state of an evaluator *)

(** A compiled evaluator has a valid evaluation order; an empty one has none. *)
Definition evaluator_ok (ev : cxpr_evaluator) : Prop :=
  (ev_compiled ev = true → code_order ev (ev_eval_order ev)) ∧
  (ev_count ev = 0 → ev_eval_order ev = []).

Lemma code_order_nil ev : ev_count ev = 0 → code_order ev [].
Proof. intros E. split; [by rewrite E|]. by intros k i j Hk. Qed.

Lemma reserve_keeps ok ev ev' :
  cxpr_evaluator_reserve_for_entry ok ev = Some ev' →
  ev_expressions ev' = ev_expressions ev ∧ ev_eval_order ev' = ev_eval_order ev ∧
  ev_compiled ev' = ev_compiled ev.
Proof.
  unfold cxpr_evaluator_reserve_for_entry, cxpr_evaluator_grow.
  repeat case_match; intros; simplify_eq; done.
Qed.

(** What a call of [cxpr_expression_add] changes. *)
Lemma expression_add_spec ok ev name expression err added ev' err' :
  cxpr_expression_add ok ev name expression err = Done (added, ev', err') →
  ev_eval_order ev' = ev_eval_order ev ∧
  if added then ev_compiled ev' = false ∧ err_code err' = CXPR_OK ∧
    ∃ n x a, name = Some n ∧ expression = Some x ∧
      ev_expressions ev' = ev_expressions ev ++ [mk_entry n x a None (VNum fzero) false false]
  else ev_expressions ev' = ev_expressions ev ∧ ev_compiled ev' = ev_compiled ev.
Proof.
  unfold cxpr_expression_add. intros E.
  destruct name as [n|], expression as [x|]; try by simplify_eq.
  apply run_bind_Done in E as ([[ast parser] parse_err] & _ & E). destruct ast as [a|]; [|by simplify_eq].
  destruct (cxpr_evaluator_reserve_for_entry _ _) as [ev1|] eqn:Er; [|by simplify_eq].
  apply reserve_keeps in Er as (He & Ho & Hc). simpl in *. simplify_eq. simpl.
  rewrite Ho, He. split; [done|]. split_and!; [done..|]. by exists n, x, a.
Qed.

Lemma add_each_spec ok ev i defs err added ev' err' :
  add_each ok ev i defs err = Done (added, ev', err') →
  ev_eval_order ev' = ev_eval_order ev ∧
  (∃ es, ev_expressions ev' = ev_expressions ev ++ es ∧
    (added = true → length es = length defs ∧
       Forall2 (fun e d => fst d = Some (en_name e) ∧ snd d = Some (en_expression e)) es defs) ∧
    (ev_compiled ev' = if decide (es = []) then ev_compiled ev else false)).
Proof.
  revert ev i err. induction defs as [|[name x] defs IH]; intros ev i err E; simpl in E.
  - simplify_eq. split; [done|]. exists []. rewrite app_nil_r. by split_and!.
  - apply run_bind_Done in E as ([[added1 ev1] err1] & E1 & E).
    apply expression_add_spec in E1 as [Ho1 H1]. destruct added1.
    + destruct H1 as (Hc1 & _ & n & y & a & -> & -> & He1).
      apply IH in E as (Ho & es & He & Hadded & Hc). split; [congruence|].
      exists (mk_entry n y a None (VNum fzero) false false :: es). rewrite He, He1, <- app_assoc.
      split_and!; [done| |]; [intros Ha; destruct (Hadded Ha); split; [simpl; by f_equal|by constructor]|].
      rewrite decide_False by done. rewrite Hc, Hc1. by case_decide.
    + simplify_eq. destruct H1 as [He Hc]. split; [done|]. exists []. rewrite He, app_nil_r. by split_and!.
Qed.

Lemma truncate_take ev0 ev es :
  ev_expressions ev = ev_expressions ev0 ++ es →
  ev_expressions (cxpr_evaluator_truncate ev (ev_count ev0)) = ev_expressions ev0 ∧
  ev_eval_order (cxpr_evaluator_truncate ev (ev_count ev0)) = ev_eval_order ev ∧
  (ev_compiled (cxpr_evaluator_truncate ev (ev_count ev0)) = true → ev_compiled ev = true).
Proof.
  intros E. unfold cxpr_evaluator_truncate, ev_count. rewrite E, length_app.
  destruct (Nat.leb_spec (length (ev_expressions ev0) + length es) (length (ev_expressions ev0))) as [Hle|Hlt].
  - destruct es; [|simpl in Hle; lia]. by rewrite E, app_nil_r.
  - simpl. by rewrite take_app_length.
Qed.

(** Adding a list of definitions is all or nothing: on success the entries of
    the evaluator are the old ones followed by the definitions in order; on any
    failure (a NULL name or text, a syntax error, no memory) they are the old ones. *)
Theorem expressions_add_all_or_nothing ok ev defs err added ev' err' :
  cxpr_expressions_add ok ev defs err = Done (added, ev', err') →
  if added then
    err_code err' = CXPR_OK ∧ ∃ es, ev_expressions ev' = ev_expressions ev ++ es ∧
      Forall2 (fun e d => fst d = Some (en_name e) ∧ snd d = Some (en_expression e)) es defs
  else ev_expressions ev' = ev_expressions ev.
Proof.
  unfold cxpr_expressions_add. intros E.
  apply run_bind_Done in E as ([[added1 ev1] err1] & E1 & E).
  apply add_each_spec in E1 as (_ & es & He & Hadded & _). destruct added1; simplify_eq.
  - split; [done|]. exists es. split; [done|]. by apply Hadded.
  - by apply truncate_take in He as [? _].
Qed.

Lemma compile_entries_formulas es err done es' err' :
  compile_entries es err = (done, es', err') → formula <$> es' = formula <$> es.
Proof.
  revert err done es' err'. induction es as [|e es IH]; intros err done es' err' E; simpl in E.
  { by simplify_eq. }
  destruct (analyze _ _) as [[] err1]; simpl in E; [|by simplify_eq].
  destruct (compile _ _) as [[p|] err2]; [|by simplify_eq].
  destruct (compile_entries es err2) as [[done1 es1] err3] eqn:E1. simplify_eq. simpl.
  f_equal. by eapply IH.
Qed.

Lemma compile_spec ok ev err done ev' err' :
  (Z.of_nat (ev_count ev) < 2 ^ 64)%Z → cxpr_evaluator_compile ok ev err = Done (done, ev', err') →
  same_formulas ev ev' ∧
  (done = true → code_acyclic ev ∧ ev_compiled ev' = true ∧ err_code err' = CXPR_OK) ∧
  (evaluator_ok ev → evaluator_ok ev').
Proof.
  intros Hsize. unfold cxpr_evaluator_compile.
  destruct (topo_sort_spec ok ev err Hsize) as (sorted & ev1 & err1 & -> & Hs). cbn [run_bind].
  destruct sorted; cbn [negb]; [|destruct Hs as [-> _]; intros E; by simplify_eq].
  destruct Hs as (Ha & _ & order & -> & Ho). simpl.
  destruct (compile_entries _ _) as [[ok1 es1] err2] eqn:Ec.
  apply compile_entries_formulas in Ec as Hf.
  destruct ok1; cbn [negb]; intros E; simplify_eq.
  - assert (Hsame : same_formulas ev (with_compiled true (with_expressions (imap (λ i e,
      set_prefix_flag (cxpr_expression_entry_used_as_struct_prefix (with_expressions es1
        (with_order order ev)) i) e) es1) (with_expressions es1 (with_order order ev))))).
    { unfold same_formulas, formulas. simpl. rewrite <- Hf. clear.
      apply list_eq. intros i. rewrite !list_lookup_fmap, list_lookup_imap.
      by destruct (es1 !! i). }
    split; [done|]. split; [done|]. intros [_ Hempty].
    pose proof (ev_count_proper _ _ Hsame) as Hcount. split; simpl.
    + intros _. rewrite <- Hsame. case_decide as Hz; [|done]. subst.
      rewrite Hempty by done. by apply code_order_nil.
    + rewrite <- Hcount. intros Hz. rewrite decide_True in Ho by done. subst. auto.
  - assert (Hsame : same_formulas ev (with_compiled false (with_expressions es1 (with_order order ev))))
      by done.
    split; [done|]. split; [done|]. intros [_ Hempty]. split; [done|]. simpl.
    rewrite <- (ev_count_proper _ _ Hsame). intros Hz. rewrite decide_True in Ho by done. subst. auto.
Qed.

(** ** Evaluation *)

(** An entry without its result. *)
Definition strip (e : cxpr_expression_entry) : cxpr_expression_entry := set_result VNull false e.

Definition evaluated (ev : cxpr_evaluator) (i : nat) : bool :=
  match ev_expressions ev !! i with Some e => en_evaluated e | None => false end.

(** [ev'] is [ev] with new results for the entries [ks]. *)
Definition computed (ks : list nat) (ev ev' : cxpr_evaluator) : Prop :=
  strip <$> ev_expressions ev' = strip <$> ev_expressions ev ∧
  (ev_eval_order ev' = ev_eval_order ev ∧ ev_compiled ev' = ev_compiled ev) ∧
  ∀ i, i < ev_count ev → evaluated ev' i = evaluated ev i || bool_decide (i ∈ ks).

Lemma computed_refl ev : computed [] ev ev.
Proof. split_and!; [done..|]. intros i _. by rewrite orb_false_r. Qed.

Lemma strip_same_formulas ev ev' :
  strip <$> ev_expressions ev' = strip <$> ev_expressions ev → same_formulas ev ev'.
Proof.
  intros E. unfold same_formulas, formulas.
  assert (Hf : ∀ es : list cxpr_expression_entry, formula <$> es = formula <$> (strip <$> es)).
  { intros es. rewrite <- list_fmap_compose. by apply list_fmap_ext. }
  by rewrite Hf, <- E, <- Hf.
Qed.

Lemma computed_step ks ev0 ev idx entry v :
  computed ks ev0 ev → ev_expressions ev !! idx = Some entry →
  computed (ks ++ [idx]) ev0 (with_expressions (<[idx := set_result v true entry]> (ev_expressions ev)) ev).
Proof.
  intros (Hs & Hsame & He) Hidx. split_and!; simpl; [|by destruct Hsame..|].
  - rewrite list_fmap_insert, <- Hs. apply list_insert_id. rewrite list_lookup_fmap, Hidx. by destruct entry.
  - intros i Hi. unfold evaluated in *. simpl. destruct (decide (i = idx)) as [->|Hne].
    + rewrite list_lookup_insert_eq by (by eapply lookup_lt_Some). simpl.
      rewrite bool_decide_eq_true_2 by set_solver. by rewrite orb_true_r.
    + rewrite list_lookup_insert_ne by done. rewrite He by done. f_equal.
      apply bool_decide_ext. set_solver.
Qed.

(** The loop evaluates a prefix of the order, all of it unless it
    reports an error. *)
Lemma eval_loop_spec ok ev0 ks rest ev chain err ev' chain' failed :
  computed ks ev0 ev → eval_loop ok rest ev chain err = Done (ev', chain', failed) →
  ∃ k, computed (ks ++ take k rest) ev0 ev' ∧
    match failed with None => k = length rest | Some _ => k < length rest end.
Proof.
  revert ks ev chain. induction rest as [|idx rest IH]; intros ks ev chain Hc E; simpl in E.
  { simplify_eq. exists 0. by rewrite app_nil_r. }
  destruct (ev_expressions ev !! idx) as [entry|] eqn:Hidx; [|done].
  apply run_bind_Done in E as ([[chain1 value] e] & _ & E).
  assert (Hstop : ∀ e', Done (ev, chain1, Some e') = Done (ev', chain', failed) →
    ∃ k, computed (ks ++ take k (idx :: rest)) ev0 ev' ∧
      match failed with None => k = length (idx :: rest) | Some _ => k < length (idx :: rest) end).
  { intros e' E'. simplify_eq. exists 0. rewrite take_0, app_nil_r. split; [done|simpl; lia]. }
  destruct value as [value|]; [|by eapply Hstop].
  destruct (err_code e); try by eapply Hstop.
  destruct (supported_result value); cbn [negb] in E; [|by eapply Hstop].
  destruct (cxpr_expression_result_clone _ _) as [copy|]; [|by eapply Hstop].
  apply (IH (ks ++ [idx])) in E as (k & Hk & Hf); [|by apply computed_step].
  exists (S k). rewrite <- app_assoc in Hk. split; [done|]. destruct failed; simpl; lia.
Qed.

(** The evaluator at the start of an evaluation. *)
Definition reset_results (ev : cxpr_evaluator) : cxpr_evaluator :=
  with_expressions (map (set_result (VNum fzero) false) (ev_expressions ev)) ev.

Lemma reset_strip ev : strip <$> ev_expressions (reset_results ev) = strip <$> ev_expressions ev.
Proof. unfold reset_results. simpl. rewrite <- list_fmap_compose. by apply list_fmap_ext. Qed.

Lemma reset_count ev : ev_count (reset_results ev) = ev_count ev.
Proof. apply length_map. Qed.

Lemma reset_evaluated ev i : evaluated (reset_results ev) i = false.
Proof. unfold evaluated, reset_results. simpl. rewrite list_lookup_fmap. by destruct (_ !! i). Qed.

Lemma computed_reset ks ev ev' :
  computed ks (reset_results ev) ev' →
  strip <$> ev_expressions ev' = strip <$> ev_expressions ev ∧
  (ev_eval_order ev' = ev_eval_order ev ∧ ev_compiled ev' = ev_compiled ev) ∧
  ∀ i, i < ev_count ev → evaluated ev' i = bool_decide (i ∈ ks).
Proof.
  intros (Hs & Ho & He). rewrite reset_strip in Hs. split_and!; [done|apply Ho|apply Ho|].
  intros i Hi. rewrite He by (by rewrite reset_count). by rewrite reset_evaluated.
Qed.

Lemma eval_spec ok ev c parents err ev' chain' err' :
  ev_compiled ev = true →
  cxpr_evaluator_eval ok ev (c :: parents) err = Done (ev', chain', err') →
  ∃ k, computed (take k (ev_eval_order ev)) (reset_results ev) ev' ∧
    (k = length (ev_eval_order ev) → err' = set_code err CXPR_OK) ∧
    match chain' with c' :: _ => expression_scope c' = expression_scope c | [] => True end.
Proof.
  intros Hc. unfold cxpr_evaluator_eval. rewrite Hc. cbn [negb]. intros E.
  apply run_bind_Done in E as (c1 & _ & E).
  apply run_bind_Done in E as ([[ev1 chain1] failed] & El & E).
  apply (eval_loop_spec _ (reset_results ev) []) in El as (k & Hk & Hf); [|apply computed_refl].
  simplify_eq. exists k. split; [done|]. split; [|by destruct chain1].
  intros ->. destruct failed; [simpl in Hf; lia|done].
Qed.

Lemma eval_keeps_ok ok ev chain err ev' chain' err' :
  cxpr_evaluator_eval ok ev chain err = Done (ev', chain', err') →
  evaluator_ok ev → evaluator_ok ev'.
Proof.
  intros E [Hv Hempty]. destruct chain as [|c parents]; [simpl in E; by simplify_eq|].
  destruct (ev_compiled ev) eqn:Hc.
  2: { unfold cxpr_evaluator_eval in E. rewrite Hc in E. simpl in E. simplify_eq.
       split; [by rewrite Hc|done]. }
  apply eval_spec in E as (k & Hk & _); [|done]. apply computed_reset in Hk as (Hs & [Ho Hc'] & _).
  apply strip_same_formulas in Hs as Hsame. pose proof (ev_count_proper _ _ Hsame) as Hcount.
  split; rewrite Ho; [intros _|rewrite <- Hcount; done].
  rewrite <- Hsame. by apply Hv.
Qed.

(** ** Reachable evaluators *)

(** The calls of a client; the entries of an evaluator are indexed by [size_t]. *)
Inductive evaluator_step : cxpr_evaluator → cxpr_evaluator → Prop :=
  | step_add ok ev name x err added ev' err' :
      cxpr_expression_add ok ev name x err = Done (added, ev', err') → evaluator_step ev ev'
  | step_add_all ok ev defs err added ev' err' :
      cxpr_expressions_add ok ev defs err = Done (added, ev', err') → evaluator_step ev ev'
  | step_compile ok ev err done ev' err' :
      (Z.of_nat (ev_count ev) < 2 ^ 64)%Z →
      cxpr_evaluator_compile ok ev err = Done (done, ev', err') → evaluator_step ev ev'
  | step_eval ok ev chain err ev' chain' err' :
      cxpr_evaluator_eval ok ev chain err = Done (ev', chain', err') → evaluator_step ev ev'.

Lemma same_entries_ok ev ev' :
  ev_expressions ev' = ev_expressions ev → ev_eval_order ev' = ev_eval_order ev →
  (ev_compiled ev' = true → ev_compiled ev = true) → evaluator_ok ev → evaluator_ok ev'.
Proof.
  intros He Ho Hc [Hv Hz]. assert (Hsame : same_formulas ev ev')
    by (unfold same_formulas, formulas; by rewrite He).
  pose proof (ev_count_proper _ _ Hsame) as Hcount.
  split; rewrite Ho; [|rewrite <- Hcount; done]. intros Ht. rewrite <- Hsame. by apply Hv, Hc.
Qed.

Lemma snoc_ok ev ev' es :
  ev_expressions ev' = ev_expressions ev ++ es → ev_eval_order ev' = ev_eval_order ev →
  ev_compiled ev' = (if decide (es = []) then ev_compiled ev else false) →
  evaluator_ok ev → evaluator_ok ev'.
Proof.
  intros He Ho Hc Hok. case_decide as Hes.
  - subst es. rewrite app_nil_r in He. apply (same_entries_ok ev); congruence.
  - split; [by rewrite Hc|]. unfold ev_count. rewrite He, length_app. destruct es; [done|simpl; lia].
Qed.

Lemma reachable_ok ev : rtc evaluator_step cxpr_evaluator_new ev → evaluator_ok ev.
Proof.
  revert ev.
  apply (rtc_ind_r _ cxpr_evaluator_new); [by split|].
  intros ev1 ev2 _ Hstep Hok. destruct Hstep as [ok ev name x err added ev' err' E
    |ok ev defs err added ev' err' E|ok ev err done ev' err' Hs E|ok ev chain err ev' chain' err' E].
  - apply expression_add_spec in E as [Ho Hadd]. destruct added.
    + destruct Hadd as (Hc & _ & n & y & a & _ & _ & He). by eapply snoc_ok.
    + destruct Hadd as [He Hc]. apply (same_entries_ok ev); congruence.
  - unfold cxpr_expressions_add in E. apply run_bind_Done in E as ([[added1 ev1] err1] & E1 & E).
    apply add_each_spec in E1 as (Ho & es & He & _ & Hc). destruct added1; simplify_eq.
    + by eapply snoc_ok.
    + apply truncate_take in He as (He & Ho' & Hc'). apply (same_entries_ok ev); [done|congruence| |done].
      intros Ht. apply Hc' in Ht. rewrite Hc in Ht. by case_decide.
  - by eapply compile_spec.
  - by eapply eval_keeps_ok.
Qed.

(** C30: in every evaluator a client can reach by adding, compiling and
    evaluating, whatever the outcomes of the calls, the compiled flag implies that
    the stored order is a valid evaluation order of the current formulas: each of
    them once, behind every formula it refers to by name.  The formulas access no
    field of an expression and each reads at most 256 different names. *)
Theorem compiled_order_valid ev :
  rtc evaluator_step cxpr_evaluator_new ev → formulas_covered ev →
  ev_compiled ev = true → valid_order ev (ev_eval_order ev).
Proof. intros Hr Hcov Hc. apply code_order_iff; [done|]. by apply reachable_ok in Hr as [? _]; auto. Qed.

(** An evaluation of a compiled evaluator computes the formulas of a prefix of
    the evaluation order and no others; if the prefix is the whole order it reports
    success.  It keeps the formulas and gives the context its previous expression
    scope back, whether it succeeds or not. *)
Theorem eval_computes_prefix ok ev c parents err ev' chain' err' :
  ev_compiled ev = true →
  cxpr_evaluator_eval ok ev (c :: parents) err = Done (ev', chain', err') →
  same_formulas ev ev' ∧
  (∃ k, (∀ i, i < ev_count ev → evaluated ev' i = bool_decide (i ∈ take k (ev_eval_order ev))) ∧
     (k = length (ev_eval_order ev) → err_code err' = CXPR_OK)) ∧
  match chain' with c' :: _ => expression_scope c' = expression_scope c | [] => True end.
Proof.
  intros Hc E. apply eval_spec in E as (k & Hk & Herr & Hscope); [|done].
  apply computed_reset in Hk as (Hs & _ & He). split; [by apply strip_same_formulas|].
  split; [|done]. exists k. split; [done|]. intros ->. by rewrite Herr.
Qed.

(** ** Every formula gets its result *)

Lemma find_from_spec es name i :
  match find_from i es name with
  | Some k => ∃ e, i ≤ k ∧ es !! (k - i) = Some e ∧ en_name e = name
  | None => ∀ e, e ∈ es → en_name e ≠ name
  end.
Proof.
  revert i. induction es as [|e es IH]; intros i; simpl; [by intros e ?%elem_of_nil|].
  destruct (String.eqb_spec (en_name e) name) as [Hn|Hn].
  - exists e. rewrite Nat.sub_diag. auto.
  - specialize (IH (S i)). destruct (find_from (S i) es name) as [k|].
    + destruct IH as (e' & ? & Hk & ?). exists e'. split; [lia|]. split; [|done].
      by replace (k - i) with (S (k - S i)) by lia.
    + intros e' [->|?]%elem_of_cons; auto.
Qed.

(** The result of a name is there once every entry of that name is evaluated. *)
Lemma lookup_evaluated ev name :
  (∃ j e, ev_expressions ev !! j = Some e ∧ en_name e = name) →
  (∀ j e, ev_expressions ev !! j = Some e → en_name e = name → en_evaluated e = true) →
  is_Some (cxpr_expression_lookup_typed_result ev name).
Proof.
  intros (j & e & Hj & Hn) Hall. unfold cxpr_expression_lookup_typed_result, cxpr_expression_find.
  pose proof (find_from_spec (ev_expressions ev) name 0) as Hf.
  destruct (find_from 0 _ name) as [k|].
  - destruct Hf as (e' & _ & Hk & Hn'). rewrite Nat.sub_0_r in Hk. rewrite Hk, (Hall k e' Hk Hn'). by eexists.
  - destruct (Hf e); [by eapply list_elem_of_lookup_2|done].
Qed.

Lemma eval_entry_strip e e' chain : strip e = strip e' → eval_entry e chain = eval_entry e' chain.
Proof.
  destruct e as [n x a p r b f], e' as [n' x' a' p' r' b' f']. intros E. injection E as -> -> -> -> ->. reflexivity.
Qed.

Lemma strip_lookup ev ev' i e :
  strip <$> ev_expressions ev' = strip <$> ev_expressions ev → ev_expressions ev !! i = Some e →
  ∃ e', ev_expressions ev' !! i = Some e' ∧ strip e' = strip e.
Proof.
  intros E Hi. apply (f_equal (.!! i)) in E. rewrite !list_lookup_fmap, Hi in E. simpl in E.
  destruct (ev_expressions ev' !! i) as [e'|]; [|done]. exists e'. split; [done|]. by apply (inj Some) in E.
Qed.

Lemma code_order_bound ev order i : code_order ev order → i ∈ order → i < ev_count ev.
Proof. intros [Hp _]. rewrite Hp, elem_of_seq. lia. Qed.

(** What the formula at the head of the remaining order depends on has a result. *)
Lemma dependencies_ready ev ks idx rest ev1 j d :
  code_order ev (ks ++ idx :: rest) → computed ks (reset_results ev) ev1 →
  cxpr_expression_depends_on ev idx j = true → ev_expressions ev !! j = Some d →
  is_Some (cxpr_expression_lookup_typed_result ev1 (en_name d)).
Proof.
  intros Hv (Hs & _ & He)%computed_reset Hdep Hj. apply lookup_evaluated.
  - destruct (strip_lookup ev ev1 j d Hs Hj) as (e' & Hj' & E). exists j, e'. split; [done|].
    by apply (f_equal en_name) in E.
  - intros k e Hk Hname. destruct (strip_lookup ev1 ev k e (eq_sym Hs) Hk) as (e0 & Hk0 & E0).
    assert (Hk' : k < ev_count ev) by (by eapply lookup_lt_Some).
    assert (Hdepk : cxpr_expression_depends_on ev idx k = true).
    { revert Hdep. unfold cxpr_expression_depends_on. rewrite Hj, Hk0.
      apply (f_equal en_name) in E0. simpl in E0. by rewrite E0, Hname. }
    pose proof (code_order_bound _ _ idx Hv ltac:(set_solver)) as Hidx.
    destruct (proj2 Hv (length ks) idx k) as (m & Hm & Hmk);
      [by rewrite list_lookup_middle|by split_and!|].
    specialize (He k Hk'). unfold evaluated in He. rewrite Hk in He. rewrite He.
    apply bool_decide_eq_true. rewrite lookup_app_l in Hmk by done. by eapply list_elem_of_lookup_2.
Qed.

(** Every evaluation of a single formula returns, with a value or an error. *)
Definition entries_return (ev : cxpr_evaluator) : Prop :=
  ∀ i entry chain, ev_expressions ev !! i = Some entry → chain ≠ [] →
    ∃ chain' value e, eval_entry entry chain = Done (chain', value, e) ∧ chain' ≠ [].

(** The result of formula [i] in [ev'] is the value its evaluation gave when its
    scope had, for everything it depends on, the result that [ev'] has. *)
Definition from_final_results (dep : nat → nat → Prop) (ev ev' : cxpr_evaluator) (i : nat) : Prop :=
  ∃ entry entry' ev1 chain chain' e,
    ev_expressions ev !! i = Some entry ∧ ev_expressions ev' !! i = Some entry' ∧ en_evaluated entry' = true ∧
    eval_entry entry (enter_scope ev1 chain) = Done (chain', Some (en_result entry'), e) ∧ err_code e = CXPR_OK ∧
    ∀ j d, dep i j → ev_expressions ev !! j = Some d →
      ∃ w, cxpr_expression_lookup_typed_result ev1 (en_name d) = Some w ∧
           cxpr_expression_lookup_typed_result ev' (en_name d) = Some w.

(** The evaluation of formula [i] gave no value the evaluator can keep. *)
Definition gave_up (ev : cxpr_evaluator) (i : nat) : Prop :=
  ∃ entry ev1 chain chain' value e, ev_expressions ev !! i = Some entry ∧
    eval_entry entry (enter_scope ev1 chain) = Done (chain', value, e) ∧
    match value with Some v => err_code e ≠ CXPR_OK ∨ value_type v = CXPR_VALUE_INT64 | None => True end.

Lemma find_from_names es es' name i :
  en_name <$> es = en_name <$> es' → find_from i es name = find_from i es' name.
Proof.
  revert es' i. induction es as [|e es IH]; intros [|e' es'] i Hn; simplify_eq/=; [done|].
  match goal with H : en_name e = en_name e' |- _ => rewrite H end. by rewrite (IH es').
Qed.

(** A result stays what it is while other entries are computed. *)
Lemma lookup_kept ev ks rest ev1 ev' name w :
  NoDup (ks ++ rest) → computed ks (reset_results ev) ev1 → strip <$> ev_expressions ev' = strip <$> ev_expressions ev →
  (∀ i, i ∉ rest → ev_expressions ev' !! i = ev_expressions ev1 !! i) →
  cxpr_expression_lookup_typed_result ev1 name = Some w → cxpr_expression_lookup_typed_result ev' name = Some w.
Proof.
  intros Hnd (Hs & _ & He)%computed_reset Hs' Hkeep.
  assert (Hnames : en_name <$> ev_expressions ev' = en_name <$> ev_expressions ev1).
  { rewrite <- Hs in Hs'. apply (f_equal (fmap en_name)) in Hs'. by rewrite <- !list_fmap_compose in Hs'. }
  unfold cxpr_expression_lookup_typed_result, cxpr_expression_find. rewrite (find_from_names _ _ name 0 Hnames).
  destruct (find_from 0 (ev_expressions ev1) name) as [idx|]; [|done].
  destruct (ev_expressions ev1 !! idx) as [e|] eqn:Hidx; [|done].
  destruct (en_evaluated e) eqn:Hev; [|done]. intros [= <-].
  assert (Hlt : idx < ev_count ev).
  { destruct (strip_lookup ev1 ev idx e (eq_sym Hs) Hidx) as (e0 & Hi & _). by eapply lookup_lt_Some. }
  specialize (He idx Hlt). unfold evaluated in He. rewrite Hidx, Hev in He. symmetry in He. apply bool_decide_eq_true in He.
  apply NoDup_app in Hnd as (_ & Hdisj & _). by rewrite (Hkeep idx (Hdisj idx He)), Hidx, Hev.
Qed.

Lemma all_found ev ev' i e :
  strip <$> ev_expressions ev' = strip <$> ev_expressions ev → ev_expressions ev !! i = Some e →
  (∀ j, j < ev_count ev → evaluated ev' j = true) → is_Some (cxpr_expression_get ev' (en_name e)).
Proof.
  intros Hs Hi Hall. apply lookup_evaluated.
  - destruct (strip_lookup ev ev' i e Hs Hi) as (e' & Hi' & E'). exists i, e'.
    split; [done|]. by apply (f_equal en_name) in E'.
  - intros j e' Hj _. destruct (strip_lookup ev' ev j e' (eq_sym Hs) Hj) as (e0 & Hj0 & _).
    specialize (Hall j (lookup_lt_Some _ _ _ Hj0)). unfold evaluated in Hall. by rewrite Hj in Hall.
Qed.

(** What the loop has done when it ends. *)
Definition loop_done (ev : cxpr_evaluator) (ks rest : list nat) (ev1 ev' : cxpr_evaluator) (failed : option cxpr_error)
    (k : nat) : Prop :=
  computed (ks ++ take k rest) (reset_results ev) ev' ∧
  (∀ i, i ∉ rest → ev_expressions ev' !! i = ev_expressions ev1 !! i) ∧
  (∀ i, i ∈ take k rest → from_final_results (λ i j, cxpr_expression_depends_on ev i j = true) ev ev' i) ∧
  match failed with
  | None => k = length rest
  | Some _ => ∃ i, rest !! k = Some i ∧ gave_up ev i
  end.

Lemma unsupported_int64 v : supported_result v = false ↔ value_type v = CXPR_VALUE_INT64.
Proof. by destruct v. Qed.

Lemma loop_stops ev ks idx rest ev1 e :
  computed ks (reset_results ev) ev1 → gave_up ev idx → loop_done ev ks (idx :: rest) ev1 ev1 (Some e) 0.
Proof.
  intros Hc Hg. split_and!; [by rewrite take_0, app_nil_r|done| |by exists idx].
  intros i Hi. by rewrite take_0, elem_of_nil in Hi.
Qed.

Lemma loop_step ev ks idx rest ev1 ev' failed k entry0 entry chain chain1 value e :
  code_order ev (ks ++ idx :: rest) → computed ks (reset_results ev) ev1 →
  ev_expressions ev !! idx = Some entry0 → ev_expressions ev1 !! idx = Some entry →
  eval_entry entry0 (enter_scope ev1 chain) = Done (chain1, Some value, e) → err_code e = CXPR_OK →
  loop_done ev (ks ++ [idx]) rest
    (with_expressions (<[idx := set_result value true entry]> (ev_expressions ev1)) ev1) ev' failed k →
  loop_done ev ks (idx :: rest) ev1 ev' failed (S k).
Proof.
  intros Hv Hc He0 He1 E He (Hcomp & Hkeep & Hres & Hfail).
  assert (Hnd : NoDup (ks ++ idx :: rest)) by (rewrite (proj1 Hv); apply NoDup_seq).
  assert (Hidx : idx ∉ rest) by (by apply NoDup_app in Hnd as (_ & _ & [? _]%NoDup_cons)).
  assert (Hkeep1 : ∀ i, i ∉ idx :: rest → ev_expressions ev' !! i = ev_expressions ev1 !! i).
  { intros i [Hne Hi]%not_elem_of_cons. rewrite Hkeep by done. simpl. by rewrite list_lookup_insert_ne. }
  split_and!; [by rewrite <- app_assoc in Hcomp|done| |].
  - cbn [take]. intros i [->|Hi]%elem_of_cons; [|by apply Hres].
    exists entry0, (set_result value true entry), ev1, chain, chain1, e. split_and!; try done.
    { rewrite Hkeep by done. simpl. rewrite list_lookup_insert_eq; [done|by eapply lookup_lt_Some]. }
    intros j d Hdep Hj. destruct (dependencies_ready ev ks idx rest ev1 j d Hv Hc Hdep Hj) as [w Hw].
    exists w. split; [done|]. apply (lookup_kept ev ks (idx :: rest) ev1 ev'); try done.
    by apply computed_reset in Hcomp as (? & _).
  - destruct failed; simpl; [done|by f_equal].
Qed.

Lemma eval_loop_results ok ev ks rest ev1 chain err :
  (∀ i k, ok i k = true) → entries_return ev → code_order ev (ks ++ rest) →
  computed ks (reset_results ev) ev1 → chain ≠ [] →
  ∃ ev' chain' failed k, eval_loop ok rest ev1 chain err = Done (ev', chain', failed) ∧
    loop_done ev ks rest ev1 ev' failed k.
Proof.
  intros Hok Hret. revert ks ev1 chain.
  induction rest as [|idx rest IH]; intros ks ev1 chain Hv Hc Hchain; cbn [eval_loop].
  { exists ev1, chain, None, 0. split; [done|]. split_and!; [by rewrite take_0, app_nil_r|done| |done].
    intros i Hi. by apply elem_of_nil in Hi. }
  pose proof (code_order_bound _ _ idx Hv ltac:(set_solver)) as Hidx.
  apply lookup_lt_is_Some_2 in Hidx as [entry0 Hentry0].
  destruct (strip_lookup ev ev1 idx entry0 (proj1 (computed_reset _ _ _ Hc)) Hentry0) as (entry & Hentry & Hstrip).
  rewrite Hentry, (eval_entry_strip _ _ _ Hstrip).
  destruct (Hret idx entry0 (enter_scope ev1 chain) Hentry0) as (chain1 & value & e & E & Hchain1); [by destruct chain|].
  rewrite E. cbn [run_bind].
  assert (Hstop : ∀ e', match value with Some v => err_code e ≠ CXPR_OK ∨ value_type v = CXPR_VALUE_INT64 | None => True end →
    ∃ ev' chain' failed k, Done (ev1, chain1, Some e') = Done (ev', chain', failed) ∧
      loop_done ev ks (idx :: rest) ev1 ev' failed k).
  { intros e' Hg. exists ev1, chain1, (Some e'), 0. split; [done|]. apply loop_stops; [done|].
    exists entry0, ev1, chain, chain1, value, e. done. }
  destruct value as [value|]; [|by apply Hstop].
  destruct (decide (err_code e = CXPR_OK)) as [He|He]; [|destruct (err_code e); try done; apply Hstop; by left].
  rewrite He. destruct (supported_result value) eqn:Hsup; cbn [negb];
    [|apply Hstop; right; by apply unsupported_int64].
  unfold cxpr_expression_result_clone.
  rewrite (exact_granted (ok idx) value 0 _ (Hok idx) (value_clone_exact (ok idx) value 0)).
  set (ev2 := with_expressions _ ev1).
  destruct (IH (ks ++ [idx]) ev2 chain1) as (ev' & chain' & failed & k & E' & Hdone);
    [by rewrite <- app_assoc|by apply computed_step|done|].
  exists ev', chain', failed, (S k). split; [exact E'|].
  by apply (loop_step ev ks idx rest ev1 ev' failed k entry0 entry chain chain1 value e).
Qed.


(** A formula whose value is an int64 makes the evaluation fail with a type
    mismatch, although int64 is a type of expression results. *)
Theorem int64_result_refused ok ev c parents err m idx rest entry z e :
  ev_compiled ev = true → stores (cached_structs c) m → ev_eval_order ev = idx :: rest →
  ev_expressions ev !! idx = Some entry → err_code e = CXPR_OK →
  (∀ chain, ∃ chain', eval_entry entry chain = Done (chain', Some (VInt64 z), e)) →
  ∃ ev' chain' err', cxpr_evaluator_eval ok ev (c :: parents) err = Done (ev', chain', err') ∧
    err_code err' = CXPR_ERR_TYPE_MISMATCH ∧ ∀ i, i < ev_count ev → evaluated ev' i = false.
Proof.
  intros Hc Hcs Ho Hidx He Heval. destruct (named_clear_spec _ _ Hcs) as (cs & Hclear & _).
  unfold cxpr_evaluator_eval. rewrite Hc. cbn [negb].
  unfold cxpr_context_clear_cached_structs, cxpr_struct_map_clear. rewrite Hclear. cbn [run_bind].
  fold (reset_results ev). simpl ev_eval_order. rewrite Ho. cbn [eval_loop].
  destruct (strip_lookup ev (reset_results ev) idx entry (reset_strip ev) Hidx) as (entry' & -> & Hs).
  rewrite (eval_entry_strip _ _ _ Hs).
  match goal with |- context [eval_entry entry ?ch] => destruct (Heval ch) as (chain1 & ->) end.
  cbn [run_bind]. rewrite He. simpl. do 3 eexists. split; [done|]. split; [done|].
  intros i _. apply reset_evaluated.
Qed.

(** [b] refers to [a] through [(a).v]. *)
Definition field_base_formulas : list (option string * option string) :=
  [(Some "b", Some "(a).v"); (Some "a", Some "{v: 1}")].

(** A reference inside the base of a field access is not seen as a
    dependency: with [b = (a).v] added before [a], the evaluation order has [b]
    before [a]. *)
Theorem field_base_dependency_missed :
  ∃ ev ev' err, cxpr_expressions_add (fun _ => true) cxpr_evaluator_new field_base_formulas error_zero
      = Done (true, ev, error_zero) ∧
    cxpr_expression_topo_sort (fun _ => true) ev error_zero = Done (true, ev', err) ∧
    en_name <$> ev_expressions ev' = ["b"; "a"] ∧ ev_eval_order ev' = [0; 1].
Proof. do 3 eexists. split; [vm_compute; reflexivity|]. split; [vm_compute; reflexivity|]. done. Qed.

End proofs.

(** ** A host

    Programs are trees; literals evaluate to themselves and an identifier to the
    result the expression scope has for it. *)
Definition scope_eval (a : cxpr_expr_ast) (chain : list cxpr_context)
    : run (list cxpr_context * cxpr_value * cxpr_error) :=
  match ast_node a with
  | CXPR_NODE_NUMBER d => Done (chain, VNum d, error_zero)
  | CXPR_NODE_INT64 z => Done (chain, VInt64 z, error_zero)
  | CXPR_NODE_IDENTIFIER name =>
      match chain with
      | c :: _ =>
          match expression_scope c with
          | Some scope =>
              match scope name with
              | Some v => Done (chain, v, error_zero)
              | None => Done (chain, VNum fzero, set_code error_zero CXPR_ERR_UNKNOWN_IDENTIFIER)
              end
          | None => Done (chain, VNum fzero, set_code error_zero CXPR_ERR_UNKNOWN_IDENTIFIER)
          end
      | [] => Done (chain, VNum fzero, set_code error_zero CXPR_ERR_UNKNOWN_IDENTIFIER)
      end
  | _ => Done (chain, VNum fzero, set_code error_zero CXPR_ERR_SYNTAX)
  end.

#[local] Instance scope_host : FormulaHost := {|
  program := cxpr_expr_ast;
  compiled_ir_count _ := 1;
  analyze _ err := (true, err);
  compile a err := (Some a, err);
  compiled_eval := scope_eval;
  eval_ast := scope_eval;
  is_struct_producer _ := false;
  bind_call_args _ := None;
  struct_result _ chain := Done (chain, None, error_zero);
  memo_enter c := c;
  memo_leave c := c
|}.

Definition defs_of (l : list (string * string)) : list (option string * option string) :=
  map (fun d => (Some (fst d), Some (snd d))) l.

(** The evaluator after adding [l] and compiling. *)
Definition compiled_set (l : list (string * string)) : run (bool * cxpr_evaluator * cxpr_error) :=
  let* '(_, ev, err) := cxpr_expressions_add (fun _ => true) cxpr_evaluator_new (defs_of l) error_zero in
  cxpr_evaluator_compile (fun _ => true) ev err.

Definition run_evaluator (r : run (bool * cxpr_evaluator * cxpr_error)) : cxpr_evaluator :=
  match r with Done (_, ev, _) => ev | _ => cxpr_evaluator_new end.

Definition b_then_a : cxpr_evaluator := Eval vm_compute in run_evaluator (compiled_set [("b", "a"); ("a", "1")]).

Example b_then_a_order : ev_eval_order b_then_a = [1; 0].
Proof. vm_compute. reflexivity. Qed.

Definition uncompiled_set (l : list (string * string)) : cxpr_evaluator :=
  run_evaluator (cxpr_expressions_add (fun _ => true) cxpr_evaluator_new (defs_of l) error_zero).
Definition cyclic_pair : cxpr_evaluator := Eval vm_compute in uncompiled_set [("a", "b"); ("b", "a")].

(** A formula without fields is covered when its own names are few. *)
Lemma leaf_covered s d r : children d = [] →
  match d with
  | CXPR_NODE_FIELD_ACCESS _ _ _ _ | CXPR_NODE_CHAIN_ACCESS _ _ => False
  | CXPR_NODE_IDENTIFIER name => name = r
  | _ => True
  end → covered (Ast s d).
Proof.
  intros Hc Hd. split.
  - constructor; simpl; [by destruct d|]. rewrite Hc. constructor.
  - exists [r]. split; [simpl; lia|]. intros r' Hr. apply list_elem_of_singleton.
    inversion Hr; subst; try done. match goal with H : _ ∈ children _ |- _ => rewrite Hc in H; by apply elem_of_nil in H end.
Qed.

Lemma cyclic_pair_covered : formulas_covered cyclic_pair.
Proof. repeat constructor; by eapply (leaf_covered _ (CXPR_NODE_IDENTIFIER _)). Qed.

Lemma b_then_a_covered : formulas_covered b_then_a.
Proof.
  apply Forall_cons. split; [by eapply (leaf_covered _ (CXPR_NODE_IDENTIFIER _))|].
  apply Forall_cons. split; [by apply (leaf_covered _ (CXPR_NODE_NUMBER _) "a")|constructor].
Qed.

Lemma topo_sort_correct_witness :
  ∃ ev' err', cxpr_expression_topo_sort (fun _ => true) cyclic_pair error_zero = Done (false, ev', err') ∧
    ¬ acyclic_formulas cyclic_pair ∧ err_code err' = CXPR_ERR_CIRCULAR_DEPENDENCY.
Proof.
  destruct (topo_sort_correct (fun _ => true) cyclic_pair error_zero ltac:(vm_compute; done)
    (fun _ => eq_refl) ltac:(vm_compute; lia) cyclic_pair_covered) as (sorted & ev' & err' & E & Hiff & Hpost).
  assert (Hs : sorted = false).
  { destruct sorted; [|done]. exfalso. revert E. vm_compute. discriminate. }
  subst sorted. exists ev', err'. split; [exact E|]. split; [|apply Hpost].
  intros Ha. by apply Hiff in Ha.
Defined.

Lemma expressions_add_all_or_nothing_witness :
  ∃ ev' err', cxpr_expressions_add (fun _ => true) b_then_a (defs_of [("c", "2"); ("d", "1 +")]) error_zero
      = Done (false, ev', err') ∧ ev_expressions ev' = ev_expressions b_then_a.
Proof.
  eexists _, _. split; [vm_compute; reflexivity|].
  refine (expressions_add_all_or_nothing (fun _ => true) b_then_a (defs_of [("c", "2"); ("d", "1 +")])
    error_zero false _ _ _). vm_compute. reflexivity.
Defined.

Lemma b_then_a_reachable : rtc evaluator_step cxpr_evaluator_new b_then_a.
Proof.
  eapply rtc_l with (uncompiled_set [("b", "a"); ("a", "1")]).
  { eapply (step_add_all (fun _ => true) _ (defs_of [("b", "a"); ("a", "1")]) error_zero true _ error_zero).
    vm_compute. reflexivity. }
  apply rtc_once. eapply (step_compile (fun _ => true) _ error_zero true _ error_zero).
  - vm_compute. done.
  - vm_compute. reflexivity.
Qed.

Lemma compiled_order_valid_witness : valid_order b_then_a [1; 0].
Proof.
  apply (compiled_order_valid b_then_a b_then_a_reachable b_then_a_covered). reflexivity.
Defined.

Definition root : cxpr_context := cxpr_context_new 0 0.

Definition eval_outcome (l : list (string * string)) : run (cxpr_evaluator * list cxpr_context * cxpr_error) :=
  cxpr_evaluator_eval (fun _ _ => true) (run_evaluator (compiled_set l)) [root] error_zero.

Lemma eval_computes_prefix_witness :
  ∃ ev' chain' err',
    cxpr_evaluator_eval (fun _ _ => true) b_then_a [root] error_zero = Done (ev', chain', err') ∧
    same_formulas b_then_a ev'.
Proof.
  destruct (cxpr_evaluator_eval (fun _ _ => true) b_then_a [root] error_zero)
    as [[[ev' chain'] err']| |] eqn:E; [|revert E; vm_compute; discriminate..].
  exists ev', chain', err'. split; [reflexivity|].
  apply (eval_computes_prefix (fun _ _ => true) b_then_a root [] error_zero ev' chain' err' eq_refl E).
Defined.

(** The evaluation of a tree of this host returns. *)
Lemma scope_eval_returns a chain : ∃ v e, scope_eval a chain = Done (chain, v, e).
Proof. unfold scope_eval. repeat case_match; eauto. Qed.

Lemma b_then_a_returns : entries_return b_then_a.
Proof.
  intros i entry chain Hi Hchain. destruct i as [|[|i]]; [| |done]; injection Hi as <-; cbn -[scope_eval];
    match goal with |- context [scope_eval ?a ?ch] => destruct (scope_eval_returns a ch) as (v & e & ->) end;
    eexists _, _, _; (split; [reflexivity|done]).
Qed.


Definition one_int64 : cxpr_evaluator := Eval vm_compute in run_evaluator (compiled_set [("n", "42i64")]).

Lemma int64_result_refused_witness :
  ∃ ev' chain' err',
    cxpr_evaluator_eval (fun _ _ => true) one_int64 [root] error_zero = Done (ev', chain', err') ∧
    err_code err' = CXPR_ERR_TYPE_MISMATCH.
Proof.
  destruct (int64_result_refused (fun _ _ => true) one_int64 root [] error_zero ∅ 0 []
    (default (mk_entry "" "" (new_node (CXPR_NODE_BOOL true)) None VNull false false)
       (ev_expressions one_int64 !! 0)) 42 error_zero eq_refl)
    as (ev' & chain' & err' & E & Hcode & _).
  - by apply stores_null.
  - vm_compute. reflexivity.
  - vm_compute. reflexivity.
  - reflexivity.
  - intros chain. exists chain. reflexivity.
  - exists ev', chain', err'. split; [exact E|exact Hcode].
Defined.
