(* ===== verification/ValueOps.v ===== *)
(** * ValueOps: the typed value algebra ([src/value_ops.c], value copies of
    [src/struct.c])

    [cxpr_value_binary_op] returns 1, 0 or -1 in C; here it returns [Handled],
    [NotHandled] or [ValError] with the fields of [*err] it sets.  The operands of
    an int64, timestamp or duration are 64-bit integers; signed overflow and an
    out-of-range [llround] are [Undef].  Allocation succeeds and a struct value
    has its field table. *)

From Stdlib Require Import Ascii String ZArith Lia.
From stdpp Require Import base list strings.
From S2P Require Import Prelude Float64 Types ValueCopy.
Local Open Scope run_scope.
Local Open Scope nat_scope.

Inductive cxpr_valop : Type :=
  | CXPR_VALOP_ADD | CXPR_VALOP_SUB | CXPR_VALOP_MUL | CXPR_VALOP_DIV
  | CXPR_VALOP_LT | CXPR_VALOP_LTE | CXPR_VALOP_GT | CXPR_VALOP_GTE.

Inductive valop_result : Type :=
  | Handled (out : cxpr_value)
  | NotHandled
  | ValError (code : cxpr_error_code) (message : string).

Definition cxpr_value_op_type_error (message : string) : valop_result :=
  ValError CXPR_ERR_TYPE_MISMATCH message.

Definition cxpr_value_op_div_zero : valop_result :=
  ValError CXPR_ERR_DIVISION_BY_ZERO "Division by zero".

(** ** Operators *)

Fixpoint cxpr_struct_find_field (s : list (string * cxpr_value)) (name : string)
    : option cxpr_value :=
  match s with
  | [] => None
  | (n, v) :: s' => if (n =? name)%string then Some v else cxpr_struct_find_field s' name
  end.

Definition cxpr_value_numeric_binary_op (op : cxpr_valop) (a b : float64) : valop_result :=
  match op with
  | CXPR_VALOP_ADD => Handled (VNum (fadd a b))
  | CXPR_VALOP_SUB => Handled (VNum (fsub a b))
  | CXPR_VALOP_MUL => Handled (VNum (fmul a b))
  | CXPR_VALOP_DIV =>
      if feqb b fzero then cxpr_value_op_div_zero else Handled (VNum (fdiv a b))
  | CXPR_VALOP_LT => Handled (VBool (fltb a b))
  | CXPR_VALOP_LTE => Handled (VBool (fleb a b))
  | CXPR_VALOP_GT => Handled (VBool (fgtb a b))
  | CXPR_VALOP_GTE => Handled (VBool (fgeb a b))
  end.

(** The checked int64 operators of [cxpr_value_binary_op_impl]. *)
Definition int64_binary_op (op : cxpr_valop) (a b : Z) : valop_result :=
  let checked z msg := if in_int64 z then Handled (VInt64 z) else cxpr_value_op_type_error msg in
  match op with
  | CXPR_VALOP_ADD => checked (a + b)%Z "int64 addition overflow"%string
  | CXPR_VALOP_SUB => checked (a - b)%Z "int64 subtraction overflow"%string
  | CXPR_VALOP_MUL => checked (a * b)%Z "int64 multiplication overflow"%string
  | CXPR_VALOP_DIV =>
      if (b =? 0)%Z then cxpr_value_op_div_zero
      else if (a =? INT64_MIN)%Z && (b =? -1)%Z
      then cxpr_value_op_type_error "int64 division overflow"
      else Handled (VInt64 (Z.quot a b))
  | CXPR_VALOP_LT => Handled (VBool (a <? b)%Z)
  | CXPR_VALOP_LTE => Handled (VBool (a <=? b)%Z)
  | CXPR_VALOP_GT => Handled (VBool (b <? a)%Z)
  | CXPR_VALOP_GTE => Handled (VBool (b <=? a)%Z)
  end.

(** Signed 64-bit results: overflow is undefined. *)
Definition signed64 (z : Z) : run Z := if in_int64 z then Done z else Undef.

(** [(int64_t)llround(x)] *)
Definition llround64 (x : float64) : run Z :=
  match llround x with Some z => Done z | None => Undef end.

(** The [switch] at the end of [cxpr_value_binary_op]. *)
Definition temporal_binary_op (op : cxpr_valop) (a b : cxpr_value) : run valop_result :=
  match op with
  | CXPR_VALOP_ADD =>
      match a, b with
      | VTimestamp x, VDuration y => let* z := signed64 (x + y) in Done (Handled (VTimestamp z))
      | VDuration x, VTimestamp y => let* z := signed64 (x + y) in Done (Handled (VTimestamp z))
      | VDuration x, VDuration y => let* z := signed64 (x + y) in Done (Handled (VDuration z))
      | _, _ => Done (cxpr_value_op_type_error
                  "'+' on temporal values requires timestamp+duration or duration+duration")
      end
  | CXPR_VALOP_SUB =>
      match a, b with
      | VTimestamp x, VTimestamp y => let* z := signed64 (x - y) in Done (Handled (VDuration z))
      | VTimestamp x, VDuration y => let* z := signed64 (x - y) in Done (Handled (VTimestamp z))
      | VDuration x, VDuration y => let* z := signed64 (x - y) in Done (Handled (VDuration z))
      | _, _ => Done (cxpr_value_op_type_error
                  "'-' on temporal values requires timestamp-timestamp, timestamp-duration, or duration-duration")
      end
  | CXPR_VALOP_MUL =>
      match a, b with
      | VDuration x, VNum d => let* z := llround64 (fmul (of_Z x) d) in Done (Handled (VDuration z))
      | VNum d, VDuration y => let* z := llround64 (fmul d (of_Z y)) in Done (Handled (VDuration z))
      | _, _ => Done (cxpr_value_op_type_error "'*' on temporal values requires duration*number")
      end
  | CXPR_VALOP_DIV =>
      match a, b with
      | VDuration x, VNum d =>
          if feqb d fzero then Done cxpr_value_op_div_zero
          else let* z := llround64 (fdiv (of_Z x) d) in Done (Handled (VDuration z))
      | VDuration x, VDuration y =>
          if (y =? 0)%Z then Done cxpr_value_op_div_zero
          else Done (Handled (VNum (fdiv (of_Z x) (of_Z y))))
      | _, _ => Done (cxpr_value_op_type_error
                  "'/' on temporal values requires duration/number or duration/duration")
      end
  | CXPR_VALOP_LT | CXPR_VALOP_LTE | CXPR_VALOP_GT | CXPR_VALOP_GTE =>
      match a, b with
      | VTimestamp x, VTimestamp y | VDuration x, VDuration y =>
          Done (Handled (VBool
            match op with
            | CXPR_VALOP_LT => (x <? y)%Z
            | CXPR_VALOP_LTE => (x <=? y)%Z
            | CXPR_VALOP_GT => (y <? x)%Z
            | _ => (y <=? x)%Z
            end))
      | _, _ => Done (cxpr_value_op_type_error "Comparison requires two timestamps or two durations")
      end
  end.

Definition is_struct (v : cxpr_value) : bool := match v with VStruct _ => true | _ => false end.
Definition is_int64 (v : cxpr_value) : bool := match v with VInt64 _ => true | _ => false end.
Definition is_temporal (v : cxpr_value) : bool :=
  match v with VTimestamp _ | VDuration _ => true | _ => false end.

Definition cxpr_value_is_struct_scalar_operand (v : cxpr_value) : bool :=
  match v with VNum _ | VInt64 _ | VTimestamp _ | VDuration _ => true | _ => false end.

Definition is_ordering (op : cxpr_valop) : bool :=
  match op with
  | CXPR_VALOP_LT | CXPR_VALOP_LTE | CXPR_VALOP_GT | CXPR_VALOP_GTE => true
  | _ => false
  end.

Definition struct_fields (v : cxpr_value) : option (list (string * cxpr_value)) :=
  match v with VStruct fields => Some fields | _ => None end.

Section struct_op.
(** [cxpr_value_binary_op_impl], called for the fields. *)
Variable impl : cxpr_valop → cxpr_value → cxpr_value → run valop_result.

(** The loop over the fields of [shape]; the error that ends it, or the
    results. *)
Fixpoint struct_loop (op : cxpr_valop) (a b : cxpr_value) (shape : list (string * cxpr_value))
    : run (sum valop_result (list (string * cxpr_value))) :=
  match shape with
  | [] => Done (inr [])
  | (name, v) :: shape' =>
      let av := if is_struct a then v else a in
      let bv := match struct_fields b with
                | Some fields => cxpr_struct_find_field fields name
                | None => Some b
                end in
      match bv with
      | None => Done (inl (cxpr_value_op_type_error
                             "Struct arithmetic requires matching named fields"))
      | Some bv =>
          let* handled := impl op av bv in
          match handled with
          | Handled r =>
              let* rest := struct_loop op a b shape' in
              match rest with
              | inl e => Done (inl e)
              | inr values => Done (inr ((name, r) :: values))
              end
          | NotHandled =>
              Done (inl (cxpr_value_op_type_error
                           "Struct arithmetic requires numeric or compatible fields"))
          | ValError code message => Done (inl (ValError code message))
          end
      end
  end.

(** The result is a deep copy of the computed fields. *)
Definition struct_result (values : list (string * cxpr_value)) : valop_result :=
  match fst (cxpr_struct_value_new (λ _, true) values 0) with
  | Some result => Handled (VStruct result)
  | None => ValError CXPR_ERR_OUT_OF_MEMORY "Out of memory"
  end.

Definition cxpr_value_struct_binary_op (op : cxpr_valop) (a b : cxpr_value)
    : run valop_result :=
  match (match struct_fields a with Some l => Some l | None => struct_fields b end) with
  | None => Done NotHandled
  | Some shape =>
      if is_ordering op then Done (cxpr_value_op_type_error "Struct comparison is not supported")
      else if negb (is_struct a) && negb (cxpr_value_is_struct_scalar_operand a) then
        Done (cxpr_value_op_type_error "Struct arithmetic requires scalar-compatible operands")
      else if negb (is_struct b) && negb (cxpr_value_is_struct_scalar_operand b) then
        Done (cxpr_value_op_type_error "Struct arithmetic requires scalar-compatible operands")
      else
        let* values := struct_loop op a b shape in
        match values with
        | inl e => Done e
        | inr values =>
            match struct_fields b with
            | Some r =>
                if negb (length r =? length shape)
                then Done (cxpr_value_op_type_error
                             "Struct arithmetic requires matching named fields")
                else Done (struct_result values)
            | None => Done (struct_result values)
            end
        end
  end.

(** [cxpr_value_binary_op] *)
Definition binary_op_body (op : cxpr_valop) (a b : cxpr_value) : run valop_result :=
  if negb (is_temporal a) && negb (is_temporal b) && negb (is_struct a) && negb (is_struct b)
     && negb (is_int64 a) && negb (is_int64 b)
  then Done NotHandled
  else if is_int64 a || is_int64 b then
    if is_int64 a && is_int64 b then impl op a b
    else Done (cxpr_value_op_type_error "int64 arithmetic requires two int64 operands")
  else if is_struct a || is_struct b then cxpr_value_struct_binary_op op a b
  else temporal_binary_op op a b.
End struct_op.

Fixpoint binary_op_impl_fuel (fuel : nat) (op : cxpr_valop) (a b : cxpr_value)
    : run valop_result :=
  match fuel with
  | O => OutOfFuel
  | S fuel' =>
      if is_struct a || is_struct b
      then cxpr_value_struct_binary_op (binary_op_impl_fuel fuel') op a b
      else
        match a, b with
        | VInt64 x, VInt64 y => Done (int64_binary_op op x y)
        | VNum x, VNum y => Done (cxpr_value_numeric_binary_op op x y)
        | _, _ =>
            if is_temporal a || is_temporal b then binary_op_body (binary_op_impl_fuel fuel') op a b
            else Done NotHandled
        end
  end.

(** The nesting of structs inside a value bounds the recursion. *)
Fixpoint depth (v : cxpr_value) : nat :=
  match v with
  | VStruct fields => S (list_max (map (λ f, depth (snd f)) fields))
  | _ => 0
  end.

Definition cxpr_value_binary_op_impl (op : cxpr_valop) (a b : cxpr_value) : run valop_result :=
  binary_op_impl_fuel (S (depth a + depth b)) op a b.

Definition cxpr_value_binary_op (op : cxpr_valop) (a b : cxpr_value) : run valop_result :=
  binary_op_body (binary_op_impl_fuel (S (depth a + depth b))) op a b.


(** ** Recursion over struct fields *)

Lemma depth_field fields n v : (n, v) ∈ fields → depth v < depth (VStruct fields).
Proof.
  intros Hin. change (depth v < S (list_max (map (λ f, depth (snd f)) fields))).
  apply Nat.lt_succ_r.
  pose proof (proj1 (list_max_le (map (λ f, depth (snd f)) fields) _) (le_n _)) as Hle.
  rewrite List.Forall_forall in Hle. apply Hle, in_map_iff. exists (n, v).
  split; [done|]. by apply list_elem_of_In.
Qed.

Lemma find_field_in fields n v : cxpr_struct_find_field fields n = Some v → (n, v) ∈ fields.
Proof.
  induction fields as [|[m w] fields IH]; simpl; [done|].
  destruct (m =? n)%string eqn:E.
  - apply String.eqb_eq in E as ->. intros [= ->]. by left.
  - intros H. right. by apply IH.
Qed.

(** The operands a field of [shape] is computed from. *)
Definition left_operand (a v : cxpr_value) : cxpr_value := if is_struct a then v else a.
Definition right_operand (b : cxpr_value) (name : string) : option cxpr_value :=
  match struct_fields b with
  | Some fields => cxpr_struct_find_field fields name
  | None => Some b
  end.

Definition shape_of (a b : cxpr_value) : option (list (string * cxpr_value)) :=
  match struct_fields a with Some l => Some l | None => struct_fields b end.

Lemma operand_depth a b shape n v w :
  shape_of a b = Some shape → (n, v) ∈ shape → right_operand b n = Some w →
  depth (left_operand a v) + depth w < depth a + depth b.
Proof.
  unfold shape_of, left_operand, right_operand. intros Hs Hin Hw.
  assert (Hb : depth w ≤ depth b ∧ (is_struct b = true → depth w < depth b)).
  { destruct (struct_fields b) as [fields|] eqn:Eb.
    - destruct b; try done. injection Eb as <-.
      apply find_field_in, depth_field in Hw. split; [lia|done].
    - injection Hw as ->. split; [done|]. by destruct w. }
  destruct a as [| |fa| | | | | |]; simpl in Hs;
    try (destruct b as [| |fb| | | | | |]; try done; simpl; destruct Hb as [_ Hb]; specialize (Hb eq_refl);
         simpl in Hb; lia).
  injection Hs as ->. apply depth_field in Hin. unfold is_struct. lia.
Qed.

(** Two implementations that agree on the operands of every field agree on the
    struct. *)
Lemma struct_loop_ext impl1 impl2 op a b shape :
  (∀ n v w, (n, v) ∈ shape → right_operand b n = Some w →
     impl1 op (left_operand a v) w = impl2 op (left_operand a v) w) →
  struct_loop impl1 op a b shape = struct_loop impl2 op a b shape.
Proof.
  induction shape as [|[n v] shape IH]; intros H; simpl; [done|].
  fold (left_operand a v) (right_operand b n).
  destruct (right_operand b n) as [w|] eqn:E; [|done].
  rewrite (H n v w) by (done || by left). rewrite IH; [done|].
  intros n' v' w' Hin. apply H. by right.
Qed.

Lemma struct_op_ext impl1 impl2 op a b :
  (∀ shape n v w, shape_of a b = Some shape → (n, v) ∈ shape → right_operand b n = Some w →
     impl1 op (left_operand a v) w = impl2 op (left_operand a v) w) →
  cxpr_value_struct_binary_op impl1 op a b = cxpr_value_struct_binary_op impl2 op a b.
Proof.
  intros H. unfold cxpr_value_struct_binary_op. fold (shape_of a b).
  destruct (shape_of a b) as [shape|]; [|done].
  by rewrite (struct_loop_ext impl1 impl2) by (intros; by eapply H).
Qed.

Lemma body_scalar_ext impl1 impl2 op a b :
  is_struct a || is_struct b = false → is_temporal a || is_temporal b = true →
  binary_op_body impl1 op a b = binary_op_body impl2 op a b.
Proof. by destruct a, b. Qed.

(** Any fuel above the nesting gives the same result. *)
Lemma impl_fuel_enough f1 f2 op a b :
  depth a + depth b < f1 → depth a + depth b < f2 →
  binary_op_impl_fuel f1 op a b = binary_op_impl_fuel f2 op a b.
Proof.
  revert f2 a b. induction f1 as [|f1 IH]; intros [|f2] a b H1 H2; try lia.
  cbn [binary_op_impl_fuel].
  destruct (is_struct a || is_struct b) eqn:Es.
  - apply struct_op_ext. intros shape n v w Hsh Hin Hw.
    pose proof (operand_depth a b shape n v w Hsh Hin Hw). apply IH; lia.
  - assert (∀ i1 i2, is_temporal a || is_temporal b = true →
      binary_op_body i1 op a b = binary_op_body i2 op a b) by (intros; by apply body_scalar_ext).
    destruct a, b; simpl in *; try done; eauto.
Qed.

Lemma impl_fuel_impl f op a b :
  depth a + depth b < f → binary_op_impl_fuel f op a b = cxpr_value_binary_op_impl op a b.
Proof. intros. apply impl_fuel_enough; lia. Qed.

(** ** What the operators compute *)

(** The two equations of the recursion, without fuel. *)
Lemma impl_struct op a b :
  is_struct a || is_struct b = true →
  cxpr_value_binary_op_impl op a b = cxpr_value_struct_binary_op cxpr_value_binary_op_impl op a b.
Proof.
  intros Hs. unfold cxpr_value_binary_op_impl at 1. cbn [binary_op_impl_fuel]. rewrite Hs.
  apply struct_op_ext. intros shape n v w Hsh Hin Hw.
  pose proof (operand_depth a b shape n v w Hsh Hin Hw). apply impl_fuel_impl. lia.
Qed.

Lemma binary_op_struct op a b :
  is_struct a || is_struct b = true → is_int64 a || is_int64 b = false →
  cxpr_value_binary_op op a b = cxpr_value_struct_binary_op cxpr_value_binary_op_impl op a b.
Proof.
  intros Hs Hi. unfold cxpr_value_binary_op, binary_op_body. rewrite Hi, Hs.
  assert (negb (is_struct a) && negb (is_struct b) = false) as Hn.
  { by destruct (is_struct a), (is_struct b). }
  rewrite <- !andb_assoc, (andb_assoc (negb (is_struct a))), Hn, !andb_false_r.
  apply struct_op_ext. intros shape n v w Hsh Hin Hw.
  pose proof (operand_depth a b shape n v w Hsh Hin Hw). apply impl_fuel_impl. lia.
Qed.

(** [r] never runs out of fuel. *)
Definition ends {A} (r : run A) : Prop := r ≠ OutOfFuel.

Lemma struct_loop_ends impl op a b shape :
  (∀ n v w, (n, v) ∈ shape → right_operand b n = Some w → ends (impl op (left_operand a v) w)) →
  ends (struct_loop impl op a b shape).
Proof.
  induction shape as [|[n v] shape IH]; intros H; simpl; [done|].
  fold (left_operand a v) (right_operand b n).
  destruct (right_operand b n) as [w|] eqn:E; [|done].
  specialize (H n v w (list_elem_of_here _ _) E) as Hi.
  assert (Hrest : ends (struct_loop impl op a b shape)).
  { apply IH. intros n' v' w' Hin. apply H. by right. }
  destruct (impl op (left_operand a v) w) as [[r| |]| |]; try done. simpl.
  by destruct (struct_loop impl op a b shape) as [[|]| |].
Qed.

Lemma struct_op_ends impl op a b :
  (∀ shape n v w, shape_of a b = Some shape → (n, v) ∈ shape → right_operand b n = Some w →
     ends (impl op (left_operand a v) w)) →
  ends (cxpr_value_struct_binary_op impl op a b).
Proof.
  intros H. unfold cxpr_value_struct_binary_op. fold (shape_of a b).
  destruct (shape_of a b) as [shape|]; [|done].
  destruct (is_ordering op); [done|]. destruct (_ && _); [done|]. destruct (_ && _); [done|].
  assert (Hl : ends (struct_loop impl op a b shape)).
  { apply struct_loop_ends. intros. by eapply H. }
  destruct (struct_loop impl op a b shape) as [[|]| |]; simpl; try done. by repeat case_match.
Qed.

Lemma temporal_ends op a b : ends (temporal_binary_op op a b).
Proof.
  unfold ends, temporal_binary_op, signed64, llround64. repeat case_match; simpl; try done;
    by repeat case_match.
Qed.

Lemma impl_ends f op a b : depth a + depth b < f → ends (binary_op_impl_fuel f op a b).
Proof.
  revert a b. induction f as [|f IH]; intros a b Hf; [lia|]. cbn [binary_op_impl_fuel].
  destruct (is_struct a || is_struct b) eqn:Es.
  - apply struct_op_ends. intros shape n v w Hsh Hin Hw.
    pose proof (operand_depth a b shape n v w Hsh Hin Hw). apply IH. lia.
  - pose proof (temporal_ends op a b). destruct a, b; simpl in *; try done; apply temporal_ends.
Qed.

(** Applying an operator to any two values returns: the recursion into
    nested structs ends for every nesting. *)
Theorem binary_op_total op a b : cxpr_value_binary_op op a b ≠ OutOfFuel.
Proof.
  unfold cxpr_value_binary_op, binary_op_body.
  pose proof (impl_ends (S (depth a + depth b)) op a b ltac:(lia)) as Hi.
  destruct (_ && _); [done|]. destruct (_ || _); [by destruct (_ && _)|].
  destruct (_ || _); [|apply temporal_ends].
  apply struct_op_ends. intros shape n v w Hsh Hin Hw.
  pose proof (operand_depth a b shape n v w Hsh Hin Hw). apply impl_ends. lia.
Qed.

Lemma quot_in_int64 x y :
  in_int64 x = true → in_int64 y = true → y ≠ 0%Z →
  in_int64 (Z.quot x y) = negb ((x =? INT64_MIN)%Z && (y =? -1)%Z).
Proof.
  rewrite !in_int64_spec. unfold INT64_MIN, INT64_MAX. intros Hx Hy H0.
  destruct (decide (x = - 2 ^ 63 ∧ y = -1)%Z) as [[-> ->]|Hne]; [done|].
  assert (Hn : (x =? - 2 ^ 63)%Z && (y =? -1)%Z = false).
  { apply not_true_iff_false. rewrite andb_true_iff, !Z.eqb_eq. done. }
  rewrite Hn. simpl. apply in_int64_spec. unfold INT64_MIN, INT64_MAX.
  assert (Ha : (Z.abs (Z.quot x y) ≤ Z.abs x)%Z).
  { rewrite <- Z.quot_abs by done. apply Z.quot_le_upper_bound; [lia|]. nia. }
  destruct (decide (x = - 2 ^ 63)%Z) as [->|]; [|lia].
  destruct (decide (y = 1)%Z) as [->|]; [by rewrite Z.quot_1_r|].
  assert (Hb : (Z.abs (Z.quot (- 2 ^ 63) y) ≤ 2 ^ 62)%Z); [|lia].
  rewrite <- Z.quot_abs by done. apply Z.quot_le_upper_bound; lia.
Qed.

Lemma binary_op_int64 op x y :
  cxpr_value_binary_op op (VInt64 x) (VInt64 y) = Done (int64_binary_op op x y).
Proof. reflexivity. Qed.

(** The typing of the temporal algebra, as documented in [core.h]. *)
Definition temporal_type (op : cxpr_valop) (ta tb : cxpr_value_type) : option cxpr_value_type :=
  match op, ta, tb with
  | CXPR_VALOP_SUB, CXPR_VALUE_TIMESTAMP, CXPR_VALUE_TIMESTAMP => Some CXPR_VALUE_DURATION
  | CXPR_VALOP_ADD, CXPR_VALUE_TIMESTAMP, CXPR_VALUE_DURATION
  | CXPR_VALOP_SUB, CXPR_VALUE_TIMESTAMP, CXPR_VALUE_DURATION
  | CXPR_VALOP_ADD, CXPR_VALUE_DURATION, CXPR_VALUE_TIMESTAMP => Some CXPR_VALUE_TIMESTAMP
  | CXPR_VALOP_ADD, CXPR_VALUE_DURATION, CXPR_VALUE_DURATION
  | CXPR_VALOP_SUB, CXPR_VALUE_DURATION, CXPR_VALUE_DURATION
  | CXPR_VALOP_MUL, CXPR_VALUE_DURATION, CXPR_VALUE_NUMBER
  | CXPR_VALOP_MUL, CXPR_VALUE_NUMBER, CXPR_VALUE_DURATION
  | CXPR_VALOP_DIV, CXPR_VALUE_DURATION, CXPR_VALUE_NUMBER => Some CXPR_VALUE_DURATION
  | CXPR_VALOP_DIV, CXPR_VALUE_DURATION, CXPR_VALUE_DURATION => Some CXPR_VALUE_NUMBER
  | (CXPR_VALOP_LT | CXPR_VALOP_LTE | CXPR_VALOP_GT | CXPR_VALOP_GTE),
    CXPR_VALUE_TIMESTAMP, CXPR_VALUE_TIMESTAMP
  | (CXPR_VALOP_LT | CXPR_VALOP_LTE | CXPR_VALOP_GT | CXPR_VALOP_GTE),
    CXPR_VALUE_DURATION, CXPR_VALUE_DURATION => Some CXPR_VALUE_BOOL
  | _, _, _ => None
  end.

Lemma signed64_bind {A} z (k : Z → run A) :
  run_bind (signed64 z) k = if in_int64 z then k z else Undef.
Proof. unfold signed64. by destruct (in_int64 z). Qed.

Lemma llround64_bind {A} x (k : Z → run A) :
  run_bind (llround64 x) k = match llround x with Some z => k z | None => Undef end.
Proof. unfold llround64. by destruct (llround x). Qed.

(** The temporal algebra is closed and typed as documented: when an operand
    is a timestamp or a duration (and none is a struct or an int64), the operator
    succeeds with the documented result type, or reports division by zero, or is
    outside the 64-bit range, exactly on the documented operand types, and
    reports a type error on all others. *)
Theorem temporal_algebra_typed op a b :
  is_temporal a || is_temporal b = true → is_struct a || is_struct b = false →
  is_int64 a || is_int64 b = false →
  match cxpr_value_binary_op op a b, temporal_type op (value_type a) (value_type b) with
  | Done (Handled v), Some t => value_type v = t
  | Done (ValError code _), Some _ => code = CXPR_ERR_DIVISION_BY_ZERO ∧ op = CXPR_VALOP_DIV
  | Done (ValError code _), None => code = CXPR_ERR_TYPE_MISMATCH
  | Undef, Some _ => is_ordering op = false
  | _, _ => False
  end.
Proof.
  intros Ht Hs Hi. unfold cxpr_value_binary_op, binary_op_body. rewrite Hi, Hs.
  assert (negb (is_temporal a) && negb (is_temporal b) = false) as ->
    by (by destruct (is_temporal a), (is_temporal b)).
  destruct op, a, b; try done; unfold temporal_binary_op;
    rewrite ?signed64_bind, ?llround64_bind; simpl value_type; unfold temporal_type;
    try (destruct (in_int64 _); done); try (destruct (llround _); done).
  - destruct (feqb _ _); [done|]. unfold llround64. by destruct (llround _).
  - by destruct (_ =? 0)%Z.
Qed.

Lemma temporal_algebra_typed_witness :
  cxpr_value_binary_op CXPR_VALOP_SUB (VTimestamp 10) (VTimestamp 4) = Done (Handled (VDuration 6)) ∧
  value_type (VDuration 6) = CXPR_VALUE_DURATION.
Proof.
  split; [reflexivity|].
  exact (temporal_algebra_typed CXPR_VALOP_SUB (VTimestamp 10) (VTimestamp 4) eq_refl eq_refl eq_refl).
Defined.

(** Temporal addition and subtraction are inverse: moving a timestamp by a
    duration and back returns the timestamp, and the difference of two timestamps
    leads from one to the other, whenever the intermediate result fits. *)
Theorem temporal_add_sub_inverse t d s :
  in_int64 t = true →
  (cxpr_value_binary_op CXPR_VALOP_ADD (VTimestamp t) (VDuration d) = Done (Handled s) →
   cxpr_value_binary_op CXPR_VALOP_SUB s (VDuration d) = Done (Handled (VTimestamp t))) ∧
  (cxpr_value_binary_op CXPR_VALOP_SUB (VTimestamp t) (VTimestamp d) = Done (Handled s) →
   cxpr_value_binary_op CXPR_VALOP_ADD (VTimestamp d) s = Done (Handled (VTimestamp t))).
Proof.
  intros Ht. unfold cxpr_value_binary_op, binary_op_body, temporal_binary_op. simpl negb. simpl andb.
  simpl orb. cbv iota. split; rewrite signed64_bind.
  - destruct (in_int64 (t + d)); [|done]. intros [= <-]. simpl. rewrite signed64_bind.
    replace (t + d - d)%Z with t by lia. by rewrite Ht.
  - destruct (in_int64 (t - d)); [|done]. intros [= <-]. simpl. rewrite signed64_bind.
    replace (d + (t - d))%Z with t by lia. by rewrite Ht.
Qed.

Lemma temporal_add_sub_inverse_witness :
  cxpr_value_binary_op CXPR_VALOP_SUB (VTimestamp 15) (VDuration 5) = Done (Handled (VTimestamp 10)).
Proof. exact (proj1 (temporal_add_sub_inverse 10 5 (VTimestamp 15) eq_refl) eq_refl). Defined.

(** Unlike int64 arithmetic, timestamp and duration addition is not checked:
    a sum outside the 64-bit range is a signed overflow. *)
Theorem timestamp_add_overflow t d :
  in_int64 (t + d) = false →
  cxpr_value_binary_op CXPR_VALOP_ADD (VTimestamp t) (VDuration d) = Undef ∧
  ∃ msg, cxpr_value_binary_op CXPR_VALOP_ADD (VInt64 t) (VInt64 d) = Done (cxpr_value_op_type_error msg).
Proof.
  intros Ho. unfold cxpr_value_binary_op, binary_op_body, temporal_binary_op. simpl negb. simpl andb.
  simpl orb. cbv iota. rewrite signed64_bind, Ho. split; [done|].
  change (∃ msg, Done (int64_binary_op CXPR_VALOP_ADD t d) = Done (cxpr_value_op_type_error msg)).
  unfold int64_binary_op. rewrite Ho. eauto.
Qed.

Lemma timestamp_add_overflow_witness :
  cxpr_value_binary_op CXPR_VALOP_ADD (VTimestamp INT64_MAX) (VDuration 1) = Undef.
Proof. exact (proj1 (timestamp_add_overflow INT64_MAX 1 eq_refl)). Defined.

Lemma struct_loop_error impl op a b shape e :
  struct_loop impl op a b shape = Done (inl e) → ∃ code msg, e = ValError code msg.
Proof.
  revert e; induction shape as [|[n v] shape IH]; intros e; simpl; [done|].
  fold (left_operand a v) (right_operand b n).
  destruct (right_operand b n) as [w|]; [|intros [= <-]; by eexists _, _].
  destruct (impl op (left_operand a v) w) as [[r| |code msg]| |]; simpl; try done;
    [|intros [= <-]; by eexists _, _..].
  destruct (struct_loop impl op a b shape) as [[e'|]| |]; simpl; try done.
  intros [= <-]. by apply IH.
Qed.

Lemma struct_op_handles impl op a b :
  is_struct a || is_struct b = true → cxpr_value_struct_binary_op impl op a b ≠ Done NotHandled.
Proof.
  intros Hs. unfold cxpr_value_struct_binary_op. fold (shape_of a b).
  destruct (shape_of a b) as [shape|] eqn:Esh; [|by destruct a, b].
  destruct (is_ordering op); [done|]. destruct (_ && _); [done|]. destruct (_ && _); [done|].
  destruct (struct_loop impl op a b shape) as [[e|values]| |] eqn:El; simpl; try done.
  - apply struct_loop_error in El as (code & msg & ->). done.
  - unfold struct_result. rewrite struct_copy_all. by repeat case_match.
Qed.

(** The operator is left to the caller's numeric path exactly when neither
    operand is an int64, a timestamp, a duration or a struct. *)
Theorem not_handled_iff op a b :
  cxpr_value_binary_op op a b = Done NotHandled ↔
  is_int64 a || is_int64 b || is_temporal a || is_temporal b || is_struct a || is_struct b = false.
Proof.
  destruct (is_struct a || is_struct b) eqn:Es.
  - rewrite <- (orb_assoc _ (is_struct a)), Es, orb_true_r. split; [|done]. intros H. exfalso. revert H.
    destruct (is_int64 a || is_int64 b) eqn:Ei.
    { unfold cxpr_value_binary_op, binary_op_body. rewrite Ei. by destruct a, b. }
    rewrite binary_op_struct by done. by apply struct_op_handles.
  - destruct op, a, b; try done; cbn; unfold signed64, llround64; repeat case_match; cbn; done.
Qed.

(** ** Struct arithmetic *)

Lemma struct_loop_inv impl op a b shape values :
  struct_loop impl op a b shape = Done (inr values) →
  Forall2 (λ f r, fst f = fst r ∧ ∃ w, right_operand b (fst f) = Some w ∧
             impl op (left_operand a (snd f)) w = Done (Handled (snd r))) shape values.
Proof.
  revert values; induction shape as [|[n v] shape IH]; intros values; simpl.
  { intros [= <-]. constructor. }
  fold (left_operand a v) (right_operand b n).
  destruct (right_operand b n) as [w|] eqn:Ew; [|done].
  destruct (impl op (left_operand a v) w) as [[r| |code msg]| |] eqn:Ei; simpl; try done.
  destruct (struct_loop impl op a b shape) as [[e'|rest]| |]; simpl; try done.
  intros [= <-]. constructor; [|by apply IH]. simpl. eauto.
Qed.
