(* ===== verification/ValueArith.v ===== *)
(** * ValueArith: what arithmetic on typed values computes

    A declarative account of the four arithmetic operators of [src/value_ops.c],
    independent of the routine: integers, numbers, timestamps and durations by
    their exact results, structs field by field, to any depth.  The routine
    gives a value exactly when this account does, and that value. *)

From Stdlib Require Import Ascii String ZArith Lia.
From stdpp Require Import base list strings sets.
From S2P Require Import Prelude Float64 Types ValueCopy ValueOps.
Local Open Scope run_scope.
Local Open Scope nat_scope.

(** ** Scalars *)

(** The integer an operator gives, rounded towards zero for a quotient. *)
Definition integer_result (op : cxpr_valop) (x y : Z) : option Z :=
  match op with
  | CXPR_VALOP_ADD => Some (x + y)%Z
  | CXPR_VALOP_SUB => Some (x - y)%Z
  | CXPR_VALOP_MUL => Some (x * y)%Z
  | CXPR_VALOP_DIV => if decide (y = 0%Z) then None else Some (Z.sgn x * Z.sgn y * (Z.abs x / Z.abs y))%Z
  | _ => None
  end.

Definition number_result (op : cxpr_valop) (x y : float64) : option float64 :=
  match op with
  | CXPR_VALOP_ADD => Some (fadd x y)
  | CXPR_VALOP_SUB => Some (fsub x y)
  | CXPR_VALOP_MUL => Some (fmul x y)
  | CXPR_VALOP_DIV => if feqb y fzero then None else Some (fdiv x y)
  | _ => None
  end.

Definition fitting (z : Z) : option Z := if in_int64 z then Some z else None.

(** Points of time and spans: a point moves by a span, two points are a span
    apart, spans are added, scaled by a number and divided. *)
Definition temporal_result (op : cxpr_valop) (a b : cxpr_value) : option cxpr_value :=
  match op, a, b with
  | CXPR_VALOP_ADD, VTimestamp t, VDuration d | CXPR_VALOP_ADD, VDuration d, VTimestamp t =>
      VTimestamp <$> fitting (t + d)
  | CXPR_VALOP_SUB, VTimestamp t, VDuration d => VTimestamp <$> fitting (t - d)
  | CXPR_VALOP_SUB, VTimestamp t, VTimestamp s => VDuration <$> fitting (t - s)
  | CXPR_VALOP_ADD, VDuration d, VDuration e => VDuration <$> fitting (d + e)
  | CXPR_VALOP_SUB, VDuration d, VDuration e => VDuration <$> fitting (d - e)
  | CXPR_VALOP_MUL, VDuration d, VNum x => VDuration <$> llround (fmul (of_Z d) x)
  | CXPR_VALOP_MUL, VNum x, VDuration d => VDuration <$> llround (fmul x (of_Z d))
  | CXPR_VALOP_DIV, VDuration d, VNum x =>
      if feqb x fzero then None else VDuration <$> llround (fdiv (of_Z d) x)
  | CXPR_VALOP_DIV, VDuration d, VDuration e =>
      if decide (e = 0%Z) then None else Some (VNum (fdiv (of_Z d) (of_Z e)))
  | _, _, _ => None
  end.

(** ** Structs *)

(** A scalar that may stand for every field of a struct. *)
Definition broadcasts (v : cxpr_value) : Prop :=
  match v with VNum _ | VInt64 _ | VTimestamp _ | VDuration _ => True | _ => False end.

(** The first field of that name. *)
Definition field_is (fields : list (string * cxpr_value)) (name : string) (v : cxpr_value) : Prop :=
  ∃ before after, fields = (before ++ (name, v) :: after)%list ∧ name ∉ map fst before.

Inductive combined (op : cxpr_valop) : cxpr_value → cxpr_value → cxpr_value → Prop :=
  | combined_integers x y z :
      integer_result op x y = Some z → in_int64 z = true →
      combined op (VInt64 x) (VInt64 y) (VInt64 z)
  | combined_numbers x y z :
      number_result op x y = Some z → combined op (VNum x) (VNum y) (VNum z)
  | combined_times a b v : temporal_result op a b = Some v → combined op a b v
  | combined_structs l r fields :
      length l = length r →
      Forall2 (λ f g, f.1 = g.1 ∧ ∃ w, field_is r f.1 w ∧ combined op f.2 w g.2) l fields →
      combined op (VStruct l) (VStruct r) (VStruct fields)
  | combined_with_scalar l b fields :
      broadcasts b → Forall2 (λ f g, f.1 = g.1 ∧ combined op f.2 b g.2) l fields →
      combined op (VStruct l) b (VStruct fields)
  | combined_scalar_with a r fields :
      broadcasts a →
      Forall2 (λ f g, f.1 = g.1 ∧ ∃ w, field_is r f.1 w ∧ combined op a w g.2) r fields →
      combined op a (VStruct r) (VStruct fields).

(** Every 64-bit integer of a value is one. *)
Fixpoint integers_fit (v : cxpr_value) : Prop :=
  match v with
  | VInt64 z => in_int64 z = true
  | VStruct fields => foldr and True (map (λ f, integers_fit (snd f)) fields)
  | _ => True
  end.

(** ** The routine gives that value *)

Lemma find_field_is fields name v : cxpr_struct_find_field fields name = Some v ↔ field_is fields name v.
Proof.
  unfold field_is. induction fields as [|[n w] fields IH]; simpl.
  { split; [done|]. by intros ([|? ?] & ? & ? & _). }
  destruct (String.eqb_spec n name) as [->|Hne].
  - split; [intros [= ->]; by exists [], fields; split; [|apply not_elem_of_nil]|].
    intros ([|[n' w'] before] & after & [= ??] & Hout); [by subst|]. simpl in Hout. set_solver.
  - rewrite IH. split.
    + intros (before & after & -> & Hout). exists ((n, w) :: before), after. simpl. set_solver.
    + intros ([|[n' w'] before] & after & [= ??] & Hout); [done|].
      subst. exists before, after. simpl in Hout. set_solver.
Qed.

Lemma fields_fit fields : integers_fit (VStruct fields) ↔ Forall (λ f, integers_fit (snd f)) fields.
Proof. simpl. induction fields as [|f fields IH]; simpl; [done|]. by rewrite IH, Forall_cons. Qed.

Lemma field_is_fits fields name v : integers_fit (VStruct fields) → field_is fields name v → integers_fit v.
Proof. intros Hf (before & after & -> & _). rewrite fields_fit, Forall_app, Forall_cons in Hf. tauto. Qed.

Lemma integer_quotient x y : y ≠ 0%Z → (Z.sgn x * Z.sgn y * (Z.abs x / Z.abs y))%Z = Z.quot x y.
Proof. intros Hy. by rewrite Z.quot_div. Qed.

Lemma integer_combined op x y out :
  is_ordering op = false → in_int64 x = true → in_int64 y = true →
  int64_binary_op op x y = Handled out ↔
  ∃ z, out = VInt64 z ∧ integer_result op x y = Some z ∧ in_int64 z = true.
Proof.
  intros Ho Hx Hy. assert (Hz : ∀ z message,
    (if in_int64 z then Handled (VInt64 z) else cxpr_value_op_type_error message) = Handled out ↔
    ∃ z', out = VInt64 z' ∧ Some z = Some z' ∧ in_int64 z' = true).
  { intros z message. split.
    - destruct (in_int64 z) eqn:E; [|done]. intros [= <-]. eauto.
    - intros (z' & -> & [= <-] & ->). done. }
  destruct op; try done; cbn [int64_binary_op integer_result]; try apply Hz.
  destruct (Z.eqb_spec y 0) as [->|Hy0]; [split; [done|]; by intros (? & _ & ? & _)|].
  rewrite decide_False, integer_quotient by done. rewrite <- (Hz _ "int64 division overflow"%string).
  rewrite quot_in_int64 by done. by destruct (_ && _).
Qed.

(** The temporal operators, on values of which one is a timestamp or a span. *)
Lemma temporal_combined op a b out :
  is_ordering op = false → temporal_binary_op op a b = Done (Handled out) ↔ temporal_result op a b = Some out.
Proof.
  assert (Hfit : ∀ z (f : Z → cxpr_value), (let* z := signed64 z in Done (Handled (f z))) = Done (Handled out) ↔
    f <$> fitting z = Some out).
  { intros z f. rewrite signed64_bind. unfold fitting. destruct (in_int64 z); simpl; [|done]. split; congruence. }
  assert (Hround : ∀ x (f : Z → cxpr_value), (let* z := llround64 x in Done (Handled (f z))) = Done (Handled out) ↔
    f <$> llround x = Some out).
  { intros x f. rewrite llround64_bind. destruct (llround x); simpl; [|done]. split; congruence. }
  intros Ho. destruct op, a, b; try done; cbn [temporal_binary_op temporal_result]; try apply Hfit; try apply Hround.
  - rewrite Z.add_comm. apply Hfit.
  - destruct (feqb _ _); [done|]. apply Hround.
  - destruct (Z.eqb_spec i0 0) as [->|]; [done|]. rewrite decide_False by done. split; congruence.
Qed.

Lemma scalar_combined op a b out :
  is_ordering op = false → integers_fit a → integers_fit b → is_struct a || is_struct b = false →
  cxpr_value_binary_op_impl op a b = Done (Handled out) ↔ combined op a b out.
Proof.
  intros Ho Ha Hb Hs.
  assert (Ht : combined op a b out ↔ match a, b with
    | VInt64 x, VInt64 y => ∃ z, out = VInt64 z ∧ integer_result op x y = Some z ∧ in_int64 z = true
    | VNum x, VNum y => ∃ z, out = VNum z ∧ number_result op x y = Some z
    | _, _ => temporal_result op a b = Some out
    end).
  { split.
    - destruct 1 as [| |a b v Hv| | |]; eauto; [|done|done|by rewrite orb_true_r in Hs].
      by destruct op, a, b.
    - intros Hout. destruct a, b; try (by apply combined_times);
        [destruct Hout as (z & -> & ?)|destruct Hout as (z & -> & ? & ?)]; by constructor. }
  rewrite Ht. unfold cxpr_value_binary_op_impl. cbn [binary_op_impl_fuel]. rewrite Hs.
  destruct a, b; simpl in Hs; try done; try (by apply temporal_combined);
    try (split; [done|]; by destruct op).
  - destruct op; try done; simpl; try (destruct (feqb _ _)); naive_solver.
  - split; [intros [= Hz]; by apply integer_combined in Hz|]. intros Hz. f_equal. by apply integer_combined.
Qed.

(** What a struct operation gives, in terms of the routine for the fields. *)
Lemma struct_loop_done impl op a b shape values :
  Forall2 (λ f r, f.1 = r.1 ∧ ∃ w, right_operand b f.1 = Some w ∧
             impl op (left_operand a f.2) w = Done (Handled r.2)) shape values →
  struct_loop impl op a b shape = Done (inr values).
Proof.
  induction 1 as [|[n v] [n' r] shape values (Hn & w & Hw & Hi) _ IH]; [done|]. simpl in Hn, Hw, Hi. subst n'.
  cbn [struct_loop]. fold (left_operand a v) (right_operand b n). rewrite Hw, Hi. cbn [run_bind]. by rewrite IH.
Qed.

Lemma struct_handled impl op a b shape out :
  is_ordering op = false → shape_of a b = Some shape →
  cxpr_value_struct_binary_op impl op a b = Done (Handled out) ↔
  (is_struct a = true ∨ broadcasts a) ∧ (is_struct b = true ∨ broadcasts b) ∧
  (∀ r, struct_fields b = Some r → length r = length shape) ∧
  ∃ fields, out = VStruct fields ∧
    Forall2 (λ f r, f.1 = r.1 ∧ ∃ w, right_operand b f.1 = Some w ∧
               impl op (left_operand a f.2) w = Done (Handled r.2)) shape fields.
Proof.
  intros Ho Hsh. unfold cxpr_value_struct_binary_op. fold (shape_of a b). rewrite Hsh, Ho.
  assert (Hb : ∀ v, negb (is_struct v) && negb (cxpr_value_is_struct_scalar_operand v) = false ↔
    is_struct v = true ∨ broadcasts v) by (intros []; simpl; naive_solver).
  destruct (negb (is_struct a) && _) eqn:Ea.
  { split; [done|]. intros (Hk%Hb & _). congruence. }
  destruct (negb (is_struct b) && _) eqn:Eb.
  { split; [done|]. intros (_ & Hk%Hb & _). congruence. }
  apply Hb in Ea, Eb. split.
  - intros (values & Hl & Hv)%run_bind_Done. destruct values as [e|values].
    { apply struct_loop_error in Hl as (? & ? & ->). done. }
    apply struct_loop_inv in Hl. unfold struct_result in Hv. rewrite struct_copy_all in Hv.
    split_and!; [done..| |].
    + intros r Hr. rewrite Hr in Hv. by destruct (Nat.eqb_spec (length r) (length shape)).
    + exists values. split; [|done]. destruct (struct_fields b) as [r|]; [destruct (negb _)|]; by simplify_eq.
  - intros (_ & _ & Hlen & fields & -> & Hf). rewrite (struct_loop_done _ _ _ _ _ fields Hf). cbn [run_bind].
    unfold struct_result. rewrite struct_copy_all. destruct (struct_fields b) as [r|]; [|done].
    by rewrite (Hlen r eq_refl), Nat.eqb_refl.
Qed.

Lemma Forall2_mem_iff {A B} (P Q : A → B → Prop) l k :
  (∀ x y, x ∈ l → P x y ↔ Q x y) → Forall2 P l k ↔ Forall2 Q l k.
Proof.
  revert k. induction l as [|x l IH]; intros k HPQ; split; inversion 1; subst; constructor.
  1, 3: apply (HPQ x _); [by left|done].
  all: by apply (IH _); [intros x' y' Hx; apply HPQ; by right|].
Qed.

(** The rules for structs, in the shape the routine has. *)
Definition struct_combined (op : cxpr_valop) (a b : cxpr_value) (shape : list (string * cxpr_value)) (out : cxpr_value) : Prop :=
  (is_struct a = true ∨ broadcasts a) ∧ (is_struct b = true ∨ broadcasts b) ∧
  (∀ r, struct_fields b = Some r → length r = length shape) ∧
  ∃ fields, out = VStruct fields ∧
    Forall2 (λ f r, f.1 = r.1 ∧ ∃ w, right_operand b f.1 = Some w ∧ combined op (left_operand a f.2) w r.2) shape fields.

Lemma temporal_struct op a b out : temporal_result op a b = Some out → is_struct a || is_struct b = false.
Proof. by destruct op, a, b. Qed.

Lemma combined_struct_iff op a b shape out :
  shape_of a b = Some shape → combined op a b out ↔ struct_combined op a b shape out.
Proof.
  unfold struct_combined, right_operand, left_operand. intros Hsh. split.
  - destruct 1 as [| |a b v Hv|l r fields Hl Hf|l b fields Hb Hf|a r fields Ha Hf]; try done.
    + apply temporal_struct in Hv. by destruct a, b.
    + injection Hsh as <-. split_and!; [by left..|by intros ? [= <-]|]. exists fields. split; [done|].
      eapply Forall2_impl; [exact Hf|]. intros f g (Hn & w & Hw%find_field_is & Hc). eauto.
    + destruct b; try done; injection Hsh as <-; (split_and!; [by left|by right|done|]); exists fields; (split; [done|]);
        (eapply Forall2_impl; [exact Hf|]); intros f g (Hn & Hc); eauto.
    + assert (shape = r ∧ is_struct a = false) as [-> Hs] by (destruct a; try done; by injection Hsh).
      split_and!; [by right|by left|by intros ? [= <-]|]. exists fields. split; [done|].
      eapply Forall2_impl; [exact Hf|]. rewrite Hs. intros f g (Hn & w & Hw%find_field_is & Hc). eauto.
  - intros (Ha & Hb & Hlen & fields & -> & Hf). destruct (is_struct a) eqn:Hsa, (is_struct b) eqn:Hsb.
    + destruct a as [| |l| | | | | |], b as [| |r| | | | | |]; try done. injection Hsh as <-.
      apply combined_structs; [by rewrite <- (Hlen r)|].
      eapply Forall2_impl; [exact Hf|]. intros f g (Hn & w & Hw%find_field_is & Hc). eauto.
    + destruct a as [| |l| | | | | |]; try done. injection Hsh as <-. destruct Hb as [|Hb]; [done|].
      apply combined_with_scalar; [done|]. eapply Forall2_impl; [exact Hf|].
      intros f g (Hn & w & Hw & Hc). destruct b; simplify_eq/=; eauto.
    + destruct b as [| |r| | | | | |]; try done. destruct Ha as [|Ha]; [done|].
      assert (shape = r) as -> by (destruct a; try done; by injection Hsh).
      apply combined_scalar_with; [done|]. eapply Forall2_impl; [exact Hf|].
      intros f g (Hn & w & Hw%find_field_is & Hc). eauto.
    + by destruct a, b.
Qed.

(** The operands of a field have integers that fit when the structs have. *)
Lemma operands_fit a b shape f w :
  integers_fit a → integers_fit b → shape_of a b = Some shape → f ∈ shape → right_operand b f.1 = Some w →
  integers_fit (left_operand a f.2) ∧ integers_fit w.
Proof.
  intros Ha Hb Hsh Hin Hw. split.
  - unfold left_operand. destruct (is_struct a) eqn:Hs; [|done]. destruct a as [| |l| | | | | |]; try done.
    injection Hsh as <-. apply fields_fit in Ha. rewrite Forall_forall in Ha. by apply Ha.
  - unfold right_operand in Hw. destruct (struct_fields b) as [r|] eqn:Hr; [|by simplify_eq].
    destruct b; simplify_eq/=. apply find_field_is in Hw. by eapply field_is_fits.
Qed.

(** A struct operation combines the fields when the routine for fields does. *)
Lemma struct_op_combined impl op a b shape out :
  is_ordering op = false → integers_fit a → integers_fit b → shape_of a b = Some shape →
  (∀ f w r, f ∈ shape → right_operand b f.1 = Some w → integers_fit (left_operand a f.2) → integers_fit w →
     impl op (left_operand a f.2) w = Done (Handled r) ↔ combined op (left_operand a f.2) w r) →
  cxpr_value_struct_binary_op impl op a b = Done (Handled out) ↔ combined op a b out.
Proof.
  intros Ho Ha Hb Hsh Hsub. rewrite (combined_struct_iff op a b shape) by done.
  rewrite (struct_handled _ _ _ _ shape) by done. unfold struct_combined.
  assert (Hf : ∀ fields,
    Forall2 (λ f r, f.1 = r.1 ∧ ∃ w, right_operand b f.1 = Some w ∧ impl op (left_operand a f.2) w = Done (Handled r.2)) shape fields ↔
    Forall2 (λ f r, f.1 = r.1 ∧ ∃ w, right_operand b f.1 = Some w ∧ combined op (left_operand a f.2) w r.2) shape fields).
  { intros fields. apply Forall2_mem_iff. intros f g Hin.
    assert (Hw : ∀ w, right_operand b f.1 = Some w →
      impl op (left_operand a f.2) w = Done (Handled g.2) ↔ combined op (left_operand a f.2) w g.2).
    { intros w Hw. destruct (operands_fit a b shape f w Ha Hb Hsh Hin Hw). by apply Hsub. }
    naive_solver. }
  setoid_rewrite Hf. done.
Qed.

(** Below the top, to any depth of structs. *)
Lemma impl_combined op a b out :
  is_ordering op = false → integers_fit a → integers_fit b →
  cxpr_value_binary_op_impl op a b = Done (Handled out) ↔ combined op a b out.
Proof.
  intros Ho. remember (depth a + depth b) as n eqn:Hn. revert a b out Hn.
  induction n as [n IH] using lt_wf_ind. intros a b out -> Ha Hb.
  destruct (is_struct a || is_struct b) eqn:Hs; [|by apply scalar_combined].
  rewrite impl_struct by done. destruct (shape_of a b) as [shape|] eqn:Hsh; [|by destruct a, b].
  apply (struct_op_combined _ _ _ _ shape); [done..|]. intros [n v] w r Hin Hw Hl Hr.
  pose proof (operand_depth a b shape n v w Hsh Hin Hw). by eapply IH.
Qed.

(** Operands the routine takes: two numbers are left to the caller, and outside
    of a struct an int64 only goes with an int64. *)
Definition taken (a b : cxpr_value) : Prop :=
  match a, b with
  | VNum _, VNum _ => False
  | VInt64 _, VInt64 _ => True
  | VInt64 _, _ | _, VInt64 _ => False
  | _, _ => True
  end.


(** Two orders, each a quantity, a fee and the span it took. *)
Definition order_of (quantity : Z) (took : Z) : cxpr_value :=
  VStruct [("quantity"%string, VInt64 quantity); ("timing"%string, VStruct [("took"%string, VDuration took)])].

