(* ===== verification/EvalState.v ===== *)
(** * EvalState: the state of an evaluation ([src/eval/internal.h],
    [src/eval/helpers/base.c], [src/context/state.h])

    The tree evaluator reads and writes a context with its ancestors, their memo
    tables, the caller's error record and whatever its callbacks change.  Its
    functions are computations of a state and error-free monad over [run]; the
    error record is part of the state, as in the source.

    The evaluator asks a context for bindings through the class [EvalContext] and
    calls the host through [EvalHost].

    Ownership: a [cxpr_value] result points to memory that belongs to the caller
    ([true]) or to the tree, the context or an evaluator ([false]).  Releasing
    memory of the second kind is [Undef]: its owner still points to it and reads
    or releases it again.  The scalar types have no memory.

    Trees: every tree has a number; the evaluator numbers the trees it builds and
    records the ones it has freed. *)

From Stdlib Require Import Ascii String ZArith Lia.
From stdpp Require Import base list strings.
From S2P Require Import Prelude Float64 Types ValueCopy StructMap Ast Registry EvalSupport.
Local Open Scope run_scope.
Local Open Scope nat_scope.

(** ** Results *)

Definition res : Type := cxpr_value * bool.
Definition owned (v : cxpr_value) : res := (v, true).
Definition borrowed (v : cxpr_value) : res := (v, false).

(** [cxpr_num(NAN)], the result of a failed evaluation. *)
Definition nan_res : res := owned (VNum fnan).

(** ** Contexts as the evaluator uses them

    A context with its ancestors is a list, the context first; the getters may
    move caches.  [ctx_get_typed] and [ctx_get_param_typed] say whether the
    value is a copy; [ctx_get_field] always copies.  [ctx_get] and
    [ctx_get_param] look for scalars.  The setters write one context. *)
Class EvalContext (L : Type) : Type := {
  ctx_get_typed : list L → string → run (option res * list L);
  ctx_get_param_typed : list L → string → run (option res * list L);
  ctx_get : list L → string → run (option float64 * list L);
  ctx_get_param : list L → string → run (option float64 * list L);
  ctx_get_struct : list L → string → run (option cxpr_struct_value);
  ctx_get_cached_struct : list L → string → run (option cxpr_struct_value);
  ctx_get_field : list L → string → string → run (option cxpr_value * list L);
  ctx_scope : L → option (string → option cxpr_value);
  ctx_overlay_new : list L → run L;
  ctx_set : L → string → float64 → run L;
  ctx_set_value : L → string → cxpr_value → run L;
  ctx_set_struct : L → string → cxpr_struct_value → run L;
  ctx_set_cached_struct : L → string → cxpr_struct_value → run L;
  ctx_copy_prefixed_scalars : L → list L → string → string → run (bool * L)
}.

(** ** State *)

Record est (L W : Type) : Type := mk_est {
  es_ctx : list L;
  es_memos : list cxpr_eval_memo;
  es_err : cxpr_error;
  es_world : W;
  es_offset : float64;
  es_next : nat;
  es_freed : list nat
}.
Arguments mk_est {L W}. Arguments es_ctx {L W}. Arguments es_memos {L W}. Arguments es_err {L W}.
Arguments es_world {L W}. Arguments es_offset {L W}. Arguments es_next {L W}.
Arguments es_freed {L W}.

Definition M (L W A : Type) : Type := est L W → run (A * est L W).

(** ** Callbacks

    The C signatures get the context and the error record: here the state. *)
Class EvalHost (L W : Type) : Type := {
  host_producer : Z → list float64 → nat → userdata → W → list cxpr_value * W;
  host_ast : cxpr_expr_ast_func_ptr → cxpr_expr_ast → userdata → M L W res;
  host_lookback : cxpr_lookback_resolver_ptr → cxpr_expr_ast → cxpr_expr_ast → userdata →
    M L W (option res);
  host_capability : Z → cxpr_expr_ast → Z → userdata → M L W (option res)
}.

Declare Scope eval_scope.
Delimit Scope eval_scope with eval.

Section monad.
Context {L W : Type}.

Definition ret {A} (x : A) : M L W A := λ s, Done (x, s).
Definition bind {A B} (m : M L W A) (k : A → M L W B) : M L W B :=
  λ s, let* '(x, s) := m s in k x s.
Definition lift {A} (m : run A) : M L W A := λ s, let* x := m in Done (x, s).
Definition undef {A} : M L W A := λ _, Undef.

Definition put_ctx (ctx : list L) (s : est L W) : est L W :=
  mk_est ctx (es_memos s) (es_err s) (es_world s) (es_offset s) (es_next s) (es_freed s).
Definition put_memos (memos : list cxpr_eval_memo) (s : est L W) : est L W :=
  mk_est (es_ctx s) memos (es_err s) (es_world s) (es_offset s) (es_next s) (es_freed s).
Definition put_err (err : cxpr_error) (s : est L W) : est L W :=
  mk_est (es_ctx s) (es_memos s) err (es_world s) (es_offset s) (es_next s) (es_freed s).
Definition put_world (w : W) (s : est L W) : est L W :=
  mk_est (es_ctx s) (es_memos s) (es_err s) w (es_offset s) (es_next s) (es_freed s).

Definition get_ctx : M L W (list L) := λ s, Done (es_ctx s, s).
Definition get_err : M L W cxpr_error := λ s, Done (es_err s, s).
Definition set_err (err : cxpr_error) : M L W unit := λ s, Done (tt, put_err err s).

(** A getter of the context. *)
Definition on_ctx {A} (f : list L → run (A * list L)) : M L W A :=
  λ s, let* '(x, ctx) := f (es_ctx s) in Done (x, put_ctx ctx s).

(** A setter of the innermost context. *)
Definition on_head (f : L → run L) : M L W unit :=
  λ s, match es_ctx s with
       | c :: parents => let* c := f c in Done (tt, put_ctx (c :: parents) s)
       | [] => Undef
       end.

Definition on_world {A} (f : W → run (A * W)) : M L W A :=
  λ s, let* '(x, w) := f (es_world s) in Done (x, put_world w s).

(** A callee gets an overlay as its context; [cxpr_context_free] of it.  The memo
    of a new overlay is not active. *)
Definition push (c : L) : M L W unit :=
  λ s, Done (tt, put_memos (memo_empty :: es_memos s) (put_ctx (c :: es_ctx s) s)).
Definition pop : M L W unit :=
  λ s, Done (tt, put_memos (tail (es_memos s)) (put_ctx (tail (es_ctx s)) s)).

Definition memo : M L W cxpr_eval_memo := λ s, Done (hd memo_empty (es_memos s), s).
Definition set_memo (m : cxpr_eval_memo) : M L W unit :=
  λ s, Done (tt, put_memos (m :: tail (es_memos s)) s).

(** The number of a new tree, and [cxpr_expr_ast_free] of a tree. *)
Definition new_tree : M L W nat :=
  λ s, Done (es_next s, mk_est (es_ctx s) (es_memos s) (es_err s) (es_world s) (es_offset s)
                          (S (es_next s)) (es_freed s)).
Definition free_tree (t : nat) : M L W unit :=
  λ s, Done (tt, mk_est (es_ctx s) (es_memos s) (es_err s) (es_world s) (es_offset s)
                   (es_next s) (t :: es_freed s)).
Definition live (s : est L W) (t : nat) : bool := bool_decide (t ∉ es_freed s).

Definition eval_lookback_offset : M L W float64 := λ s, Done (es_offset s, s).
End monad.

Notation "'let!' x ':=' m 'in' k" := (bind m (fun x => k))
  (at level 200, x binder, m at level 100, k at level 200) : eval_scope.
Notation "'let!' ' p ':=' m 'in' k" := (bind m (fun x => match x with p => k end))
  (at level 200, p pattern, m at level 100, k at level 200) : eval_scope.
Notation "m ';;' k" := (bind m (fun _ => k)) (at level 100, right associativity) : eval_scope.
Local Open Scope eval_scope.

(** ** Errors and types ([base.c]) *)

Section errors.
Context {L W : Type}.

(** [err->code = code; err->message = message;] the position stays. *)
Definition put_error (code : cxpr_error_code) (message : string) : M L W unit :=
  let! e := get_err in
  set_err (mk_error code (Some message) (err_position e) (err_line e) (err_column e)).

Definition cxpr_eval_error (code : cxpr_error_code) (message : string) : M L W res :=
  put_error code message ;; ret nan_res.

(** [err->code != CXPR_OK] *)
Definition failing : M L W bool :=
  let! e := get_err in ret (negb (bool_decide (err_code e = CXPR_OK))).

(** [if (err->code != CXPR_OK) return x;] before [k] *)
Definition unless_failing {A} (x : A) (k : M L W A) : M L W A :=
  let! bad := failing in if bad then ret x else k.

Definition cxpr_require_type (v : cxpr_value) (type : cxpr_value_type) (message : string)
    : M L W bool :=
  if bool_decide (value_type v = type) then ret true
  else put_error CXPR_ERR_TYPE_MISMATCH message ;; ret false.

(** [cxpr_value_free] *)
Definition value_free (r : res) : M L W unit :=
  match fst r with
  | VStruct _ | VString _ | VArray _ => if snd r then ret tt else undef
  | _ => ret tt
  end.

Fixpoint free_all (rs : list res) : M L W unit :=
  match rs with
  | [] => ret tt
  | r :: rs => value_free r ;; free_all rs
  end.
End errors.

(** The field of a struct, copied. *)
Fixpoint cxpr_struct_get_field (s : cxpr_struct_value) (field : string) : option cxpr_value :=
  match s with
  | [] => None
  | (name, v) :: s => if String.eqb name field then Some v else cxpr_struct_get_field s field
  end.
