(* ===== verification/TreeEval.v ===== *)
(** * TreeEval: the tree-walking evaluator ([src/eval/tree.c], [src/eval/calls.c],
    [src/eval/calls/producer.c], [src/eval/helpers/cache.c], [constants.c])

    One definition per function of the source, over the state of [EvalState.v].
    The functions that call [cxpr_eval_node] take it as an argument [rec]; it is
    tied with fuel at the end, one unit per nested call.

    Simplifications: the tree, the context and the registry are not NULL and
    allocation succeeds, so the tests for these have no counterpart; the lookups
    and keys a node caches are computed anew (the cached lookup is coherent, see
    [EvalSupportProofs.v], and a cached key is a function of the node). *)

From Stdlib Require Import Ascii String ZArith Lia.
From stdpp Require Import base list strings.
From S2P Require Import Prelude Float64 Types ValueCopy StructMap Ast References CallArgs Registry Builtins EvalSupport Formulas ValueOps EvalState.
Local Open Scope run_scope.
Local Open Scope eval_scope.
Local Open Scope nat_scope.

(** ** Messages: [snprintf] into 256 bytes *)

Definition quoted (prefix name empty : string) : string :=
  match name with
  | EmptyString => empty
  | _ => str_take 255 (prefix ++ name ++ "'")
  end.

Definition cxpr_eval_unknown_function_message (name : string) : string :=
  quoted "Unknown function '" name "Unknown function".
Definition cxpr_eval_unknown_identifier_message (name : string) : string :=
  quoted "Unknown identifier '" name "Unknown identifier".
Definition cxpr_eval_unknown_parameter_message (name : string) : string :=
  quoted "Unknown parameter variable '$" name "Unknown parameter variable".
Definition cxpr_eval_unknown_field_message (name : string) : string :=
  quoted "Unknown field access '" name "Unknown field access".

(** ** Operators on values *)

(** [None] when the types differ or have no equality. *)
Definition cxpr_eval_values_equal (left right : cxpr_value) : option bool :=
  match left, right with
  | VNum a, VNum b => Some (feqb a b)
  | VBool a, VBool b => Some (Bool.eqb a b)
  | VString a, VString b => Some (String.eqb a b)
  | VNull, VNull => Some true
  | VTimestamp a, VTimestamp b | VDuration a, VDuration b | VInt64 a, VInt64 b => Some (a =? b)%Z
  | _, _ => None
  end.

Definition cxpr_tok_to_arith_valop (op : cxpr_token_type) : option cxpr_valop :=
  match op with
  | CXPR_TOK_PLUS => Some CXPR_VALOP_ADD
  | CXPR_TOK_MINUS => Some CXPR_VALOP_SUB
  | CXPR_TOK_STAR => Some CXPR_VALOP_MUL
  | CXPR_TOK_SLASH => Some CXPR_VALOP_DIV
  | _ => None
  end.

Definition comparison_valop (op : cxpr_token_type) : cxpr_valop :=
  match op with
  | CXPR_TOK_LT => CXPR_VALOP_LT
  | CXPR_TOK_LTE => CXPR_VALOP_LTE
  | CXPR_TOK_GT => CXPR_VALOP_GT
  | _ => CXPR_VALOP_GTE
  end.

Section operators.
Context {L W : Type} `{!HostCode W}.

(** What [handled] 1, -1 and 0 lead to. *)
Definition valop_outcome (r : valop_result) (otherwise : M L W res) : M L W res :=
  match r with
  | Handled out => ret (owned out)
  | ValError code message => cxpr_eval_error code message
  | NotHandled => otherwise
  end.

(** The [switch] on two numbers; [default] is the power. *)
Definition arithmetic (op : cxpr_token_type) (a b : float64) : float64 :=
  match op with
  | CXPR_TOK_PLUS => fadd a b
  | CXPR_TOK_MINUS => fsub a b
  | CXPR_TOK_STAR => fmul a b
  | CXPR_TOK_SLASH => fdiv a b
  | CXPR_TOK_PERCENT => fmod a b
  | _ => fpow a b
  end.

Definition divides (op : cxpr_token_type) : bool :=
  match op with CXPR_TOK_SLASH | CXPR_TOK_PERCENT => true | _ => false end.

Definition cxpr_eval_arithmetic_op (op : cxpr_token_type) (left right : cxpr_value) : M L W res :=
  match left, right with
  | VNum a, VNum b =>
      if divides op && feqb b fzero
      then cxpr_eval_error CXPR_ERR_DIVISION_BY_ZERO
             (match op with CXPR_TOK_SLASH => "Division by zero" | _ => "Modulo by zero" end)
      else ret (owned (VNum (arithmetic op a b)))
  | _, _ =>
      let mismatch := cxpr_eval_error CXPR_ERR_TYPE_MISMATCH "Arithmetic requires double operands" in
      match cxpr_tok_to_arith_valop op with
      | Some vop => let! r := lift (cxpr_value_binary_op vop left right) in valop_outcome r mismatch
      | None => mismatch
      end
  end.

Definition compare_numbers (op : cxpr_token_type) (a b : float64) : bool :=
  match op with
  | CXPR_TOK_LT => fltb a b
  | CXPR_TOK_LTE => fleb a b
  | CXPR_TOK_GT => fgtb a b
  | _ => fgeb a b
  end.

Definition cxpr_eval_comparison_op (op : cxpr_token_type) (left right : cxpr_value) : M L W res :=
  match left, right with
  | VNum a, VNum b => ret (owned (VBool (compare_numbers op a b)))
  | _, _ =>
      let! r := lift (cxpr_value_binary_op (comparison_valop op) left right) in
      valop_outcome r
        (cxpr_eval_error CXPR_ERR_TYPE_MISMATCH "Comparison requires double operands")
  end.

Definition cxpr_eval_equality_op (op : cxpr_token_type) (left right : cxpr_value) : M L W res :=
  match cxpr_eval_values_equal left right with
  | None => cxpr_eval_error CXPR_ERR_TYPE_MISMATCH "Equality requires matching scalar types"
  | Some equal => ret (owned (VBool (match op with CXPR_TOK_EQ => equal | _ => negb equal end)))
  end.

Definition cxpr_eval_binary_values (op : cxpr_token_type) (left right : cxpr_value) : M L W res :=
  match op with
  | CXPR_TOK_PLUS | CXPR_TOK_MINUS | CXPR_TOK_STAR | CXPR_TOK_SLASH | CXPR_TOK_PERCENT
  | CXPR_TOK_POWER => cxpr_eval_arithmetic_op op left right
  | CXPR_TOK_LT | CXPR_TOK_LTE | CXPR_TOK_GT | CXPR_TOK_GTE => cxpr_eval_comparison_op op left right
  | CXPR_TOK_EQ | CXPR_TOK_NEQ => cxpr_eval_equality_op op left right
  | _ => cxpr_eval_error CXPR_ERR_SYNTAX "Unknown binary operator"
  end.

Definition unary_value (op : cxpr_token_type) (operand : cxpr_value) : M L W res :=
  match op with
  | CXPR_TOK_MINUS =>
      match operand with
      | VInt64 i =>
          if (i =? INT64_MIN)%Z
          then cxpr_eval_error CXPR_ERR_TYPE_MISMATCH "int64 negation overflow"
          else ret (owned (VInt64 (- i)))
      | VNum d => ret (owned (VNum (fneg d)))
      | _ => cxpr_eval_error CXPR_ERR_TYPE_MISMATCH "Unary minus requires double"
      end
  | CXPR_TOK_NOT =>
      match operand with
      | VBool b => ret (owned (VBool (negb b)))
      | _ => cxpr_eval_error CXPR_ERR_TYPE_MISMATCH "Logical not requires bool"
      end
  | _ => cxpr_eval_error CXPR_ERR_SYNTAX "Unknown unary operator"
  end.
End operators.

(** ** Substitution of arguments into a body ([calls.c]) *)

Section substitution.
Context (params : list string) (args : list cxpr_expr_ast).

(** The argument of the first parameter with the name. *)
Fixpoint arg_for_name (params : list string) (args : list cxpr_expr_ast) (name : string)
    : option cxpr_expr_ast :=
  match params, args with
  | p :: params, a :: args => if String.eqb p name then Some a else arg_for_name params args name
  | _, _ => None
  end.

Definition cxpr_eval_defined_arg_for_name (name : string) : option cxpr_expr_ast :=
  arg_for_name params args name.

Definition cxpr_eval_clone_chain_with_replaced_root (path : list string) (chain root : cxpr_expr_ast)
    : option cxpr_expr_ast :=
  match ast_node root with
  | CXPR_NODE_IDENTIFIER name => cxpr_expr_ast_new_chain_access (name :: tail path)
  | _ =>
      match path with
      | [_; field] => Some (cxpr_expr_ast_field_expr_new (cxpr_eval_clone_ast root) field)
      | _ => Some (cxpr_eval_clone_ast chain)
      end
  end.

(** The arrays of a copied call: the names are allocated with the arguments. *)
Definition copied_names (argc : nat) (names : option (list (option string)))
    : option (list (option string)) :=
  if argc =? 0 then None else Some (default (replicate argc None) names).

Fixpoint all_some (l : list (option cxpr_expr_ast)) : option (list cxpr_expr_ast) :=
  match l with
  | [] => Some []
  | Some a :: l => option_map (cons a) (all_some l)
  | None :: _ => None
  end.

Fixpoint cxpr_eval_substitute_defined_args (a : cxpr_expr_ast) : option cxpr_expr_ast :=
  let '(Ast _ d) := a in
  match d with
  | CXPR_NODE_IDENTIFIER name =>
      Some (cxpr_eval_clone_ast (default a (cxpr_eval_defined_arg_for_name name)))
  | CXPR_NODE_FIELD_ACCESS (Some base) _ field _ =>
      match cxpr_eval_substitute_defined_args base with
      | Some base => Some (cxpr_expr_ast_field_expr_new base field)
      | None => None
      end
  | CXPR_NODE_FIELD_ACCESS None object field _ =>
      match cxpr_eval_defined_arg_for_name (default EmptyString object) with
      | Some mapped =>
          match ast_node mapped with
          | CXPR_NODE_IDENTIFIER name => Some (cxpr_expr_ast_field_new name field)
          | _ => Some (cxpr_expr_ast_field_expr_new (cxpr_eval_clone_ast mapped) field)
          end
      | None => Some (cxpr_eval_clone_ast a)
      end
  | CXPR_NODE_CHAIN_ACCESS path _ =>
      match path with
      | root :: _ =>
          match cxpr_eval_defined_arg_for_name root with
          | Some mapped => cxpr_eval_clone_chain_with_replaced_root path a mapped
          | None => Some (cxpr_eval_clone_ast a)
          end
      | [] => Some (cxpr_eval_clone_ast a)
      end
  | CXPR_NODE_NUMBER _ | CXPR_NODE_INT64 _ | CXPR_NODE_BOOL _ | CXPR_NODE_STRING _
  | CXPR_NODE_VARIABLE _ => Some (cxpr_eval_clone_ast a)
  | CXPR_NODE_ARRAY els =>
      option_map cxpr_expr_ast_array_new (all_some (map cxpr_eval_substitute_defined_args els))
  | CXPR_NODE_RECORD names values =>
      option_map (cxpr_expr_ast_record_new names)
        (all_some (map cxpr_eval_substitute_defined_args values))
  | CXPR_NODE_UNARY_OP op x =>
      option_map (cxpr_expr_ast_unary_new op) (cxpr_eval_substitute_defined_args x)
  | CXPR_NODE_BINARY_OP op l r =>
      match cxpr_eval_substitute_defined_args l, cxpr_eval_substitute_defined_args r with
      | Some l, Some r => Some (cxpr_expr_ast_binary_new op l r)
      | _, _ => None
      end
  | CXPR_NODE_FUNCTION_CALL name cargs names =>
      option_map (λ l, cxpr_expr_ast_call_named_new name l (copied_names (length cargs) names))
        (all_some (map cxpr_eval_substitute_defined_args cargs))
  | CXPR_NODE_PRODUCER_ACCESS name cargs names field _ =>
      option_map (λ l, cxpr_expr_ast_producer_field_named_new name l
                         (copied_names (length cargs) names) field)
        (all_some (map cxpr_eval_substitute_defined_args cargs))
  | CXPR_NODE_INDEX target index =>
      match cxpr_eval_substitute_defined_args target, cxpr_eval_substitute_defined_args index with
      | Some t, Some i => Some (cxpr_expr_ast_index_new t i)
      | _, _ => None
      end
  | CXPR_NODE_TERNARY c t f =>
      match cxpr_eval_substitute_defined_args c, cxpr_eval_substitute_defined_args t,
            cxpr_eval_substitute_defined_args f with
      | Some c, Some t, Some f => Some (cxpr_expr_ast_ternary_new c t f)
      | _, _, _ => None
      end
  end.
End substitution.

(** ** Evaluation *)

Section eval.
Context {L W : Type} `{!EvalContext L} `{!HostCode W} `{!HexFormat} `{!EvalHost L W}.
Context (reg : cxpr_registry).

(** A number of a finite struct field list, [cxpr_eval_struct_field_value]. *)
Definition cxpr_eval_struct_field_value (record : cxpr_struct_value) (field : string) : M L W res :=
  match cxpr_struct_get_field record field with
  | Some v => ret (owned v)
  | None => cxpr_eval_error CXPR_ERR_UNKNOWN_IDENTIFIER (cxpr_eval_unknown_field_message field)
  end.

(** The results of the evaluator attached to the innermost context. *)
Definition scope_lookup (name : string) : M L W (option cxpr_value) :=
  let! ctx := get_ctx in
  ret (match ctx with
       | c :: _ => match ctx_scope c with Some lookup => lookup name | None => None end
       | [] => None
       end).
Definition has_scope : M L W bool :=
  let! ctx := get_ctx in
  ret (match ctx with
       | c :: _ => match ctx_scope c with Some _ => true | None => false end
       | [] => false
       end).

(** *** Chains *)

(** [walk_fields]: the segments from [start_index] on. *)
Fixpoint walk_fields (full_key : string) (current : cxpr_struct_value) (path : list string)
    : M L W res :=
  match path with
  | [] => cxpr_eval_error CXPR_ERR_UNKNOWN_IDENTIFIER "Unknown field access"
  | name :: path =>
      match cxpr_struct_get_field current name, path with
      | None, _ =>
          cxpr_eval_error CXPR_ERR_UNKNOWN_IDENTIFIER (cxpr_eval_unknown_field_message full_key)
      | Some value, [] => ret (owned value)
      | Some (VStruct next), _ => walk_fields full_key next path
      | Some _, _ =>
          cxpr_eval_error CXPR_ERR_TYPE_MISMATCH "Chain access requires struct intermediates"
      end
  end.

(** The prefixes of the path that the evaluator may know, built in 512 bytes: the
    first that is a struct with the segments behind it, or whether one was
    found. *)
Fixpoint scoped_prefix (prefix : string) (first : bool) (path : list string) (found_any : bool)
    : M L W (cxpr_struct_value * list string + bool) :=
  match path with
  | segment :: ((_ :: _) as rest) =>
      let text := if first then segment else String "." segment in
      if (strlen text =? 0) || (512 - strlen prefix <=? strlen text) then ret (inr found_any)
      else
        let prefix := (prefix ++ text)%string in
        let! scoped := scope_lookup prefix in
        match scoped with
        | Some (VStruct s) => ret (inl (s, rest))
        | Some _ => scoped_prefix prefix false rest true
        | None => scoped_prefix prefix false rest found_any
        end
  | _ => ret (inr found_any)
  end.

Definition chain_from_context (path : list string) (full_key : string) : M L W res :=
  let root := hd EmptyString path in
  let! ctx := get_ctx in
  let! s := lift (ctx_get_struct ctx root) in
  let! s :=
    match s with
    | Some s => ret (Some s)
    | None =>
        let! v := on_ctx (λ ctx, ctx_get_typed ctx root) in
        ret (match v with Some (VStruct s, _) => Some s | _ => None end)
    end in
  match s with
  | None =>
      cxpr_eval_error CXPR_ERR_UNKNOWN_IDENTIFIER (cxpr_eval_unknown_identifier_message root)
  | Some current => walk_fields full_key current (tail path)
  end.

Definition cxpr_eval_chain_access (path : list string) (full_key : string) : M L W res :=
  let! scoped := has_scope in
  if scoped then
    let! whole := scope_lookup full_key in
    match whole with
    | Some v => ret (borrowed v)
    | None =>
        let! p := scoped_prefix EmptyString true path false in
        match p with
        | inl (current, rest) => walk_fields full_key current rest
        | inr true =>
            cxpr_eval_error CXPR_ERR_UNKNOWN_IDENTIFIER "Expression-scope chain has no struct prefix"
        | inr false => chain_from_context path full_key
        end
    end
  else chain_from_context path full_key.

(** *** Constant folding with parameters ([constants.c]) *)

Fixpoint cxpr_eval_const_or_param_double (a : cxpr_expr_ast) : M L W (option float64) :=
  let '(Ast _ d) := a in
  match d with
  | CXPR_NODE_VARIABLE name => on_ctx (λ ctx, ctx_get_param ctx name)
  | CXPR_NODE_NUMBER v => ret (Some v)
  | CXPR_NODE_UNARY_OP op x =>
      match op with
      | CXPR_TOK_MINUS => let! v := cxpr_eval_const_or_param_double x in ret (option_map fneg v)
      | _ => ret None
      end
  | CXPR_NODE_BINARY_OP op l r =>
      let! x := cxpr_eval_const_or_param_double l in
      match x with
      | None => ret None
      | Some x =>
          let! y := cxpr_eval_const_or_param_double r in
          ret (match y with Some y => fold_binary op x y | None => None end)
      end
  | CXPR_NODE_TERNARY c t f =>
      let! x := cxpr_eval_const_or_param_double c in
      match x with
      | None => ret None
      | Some x =>
          if fneb x fzero then cxpr_eval_const_or_param_double t
          else cxpr_eval_const_or_param_double f
      end
  | _ => ret None
  end.

Fixpoint const_or_param_all (args : list cxpr_expr_ast) : M L W (option (list float64)) :=
  match args with
  | [] => ret (Some [])
  | a :: args =>
      let! v := cxpr_eval_const_or_param_double a in
      match v with
      | None => ret None
      | Some d => let! ds := const_or_param_all args in ret (option_map (cons d) ds)
      end
  end.

(** The key of a call of literals, or NULL. *)
Definition cxpr_eval_prepare_const_key_for_call (name : string) (args : list cxpr_expr_ast)
    (names : option (list (option string))) : option string :=
  if cxpr_expr_ast_named_args_present names || (32 <? length args) then None
  else match all_constant args with
       | Some values => cxpr_build_struct_cache_key name values
       | None => None
       end.

(** *** Functions that evaluate subtrees *)

Context (rec : nat → cxpr_expr_ast → M L W res).

Definition cxpr_eval_scalar_arg (t : nat) (a : cxpr_expr_ast) : M L W float64 :=
  let! v := rec t a in
  unless_failing fnan
    (let! ok := cxpr_require_type (fst v) CXPR_VALUE_NUMBER "Expected double argument" in
     ret (match ok, fst v with true, VNum d => d | _, _ => fnan end)).

(** [Some] arguments in the order of the parameters. *)
Definition cxpr_eval_bind_call_args (e : cxpr_func_entry) (args : list cxpr_expr_ast)
    (names : option (list (option string))) : M L W (option (list cxpr_expr_ast)) :=
  let! r := lift (cxpr_call_bind_args args names (cxpr_registry_entry_param_names e)) in
  match r with
  | inl bound => ret (Some bound)
  | inr (code, message) => put_error code message ;; ret None
  end.

(** The loop over the arguments of a producer: [None] when one fails. *)
Fixpoint scalar_args_loop (t : nat) (args : list cxpr_expr_ast) : M L W (option (list float64)) :=
  match args with
  | [] => ret (Some [])
  | a :: args =>
      let! d := cxpr_eval_scalar_arg t a in
      unless_failing None
        (let! ds := scalar_args_loop t args in ret (option_map (cons d) ds))
  end.

Definition CXPR_MAX_PRODUCER_FIELDS : nat := 64.

(** The call of the producer and the struct of its outputs. *)
Definition produce (e : cxpr_func_entry) (producer : Z) (args : list float64)
    : M L W cxpr_struct_value :=
  let count := length (fe_struct_fields e) in
  let! outputs := on_world (λ w, Done (host_producer producer args count (fe_userdata e) w)) in
  if length outputs =? count then ret (zip (fe_struct_fields e) outputs) else undef.

(** The struct stays in the context's cache. *)
Definition cxpr_eval_struct_result (e : cxpr_func_entry) (name : string) (t : nat)
    (args : list cxpr_expr_ast) (cache_key_hint : option string) : M L W (option cxpr_struct_value) :=
  let argc := length args in
  match fe_struct_producer e with
  | None => put_error CXPR_ERR_UNKNOWN_FUNCTION (cxpr_eval_unknown_function_message name) ;; ret None
  | Some producer =>
  if (argc <? fe_min_args e) || (fe_max_args e <? argc)
  then put_error CXPR_ERR_WRONG_ARITY "Wrong number of arguments" ;; ret None
  else if (32 <? argc) || (CXPR_MAX_PRODUCER_FIELDS <? length (fe_struct_fields e))
  then put_error CXPR_ERR_SYNTAX "Producer arity too large" ;; ret None
  else
    let! values := scalar_args_loop t args in
    match values with
    | None => ret None
    | Some values =>
        match (match cache_key_hint with Some k => Some k
                | None => cxpr_build_struct_cache_key name values end) with
        | None => put_error CXPR_ERR_OUT_OF_MEMORY "Out of memory" ;; ret None
        | Some key =>
            let! ctx := get_ctx in
            let! existing := lift (ctx_get_cached_struct ctx key) in
            match existing with
            | Some s => ret (Some s)
            | None =>
                let! s := produce e producer values in
                on_head (λ c, ctx_set_cached_struct c key s) ;;
                let! ctx := get_ctx in lift (ctx_get_cached_struct ctx key)
            end
        end
    end
  end.

(** A struct result as a value; a NULL pointer is undefined. *)
Definition produced_struct (s : option cxpr_struct_value) : M L W res :=
  unless_failing nan_res
    (match s with Some s => ret (borrowed (VStruct s)) | None => undef end).

Definition cxpr_eval_struct_producer (e : cxpr_func_entry) (name field : string) (t : nat)
    (args : list cxpr_expr_ast) : M L W res :=
  let unknown := cxpr_eval_error CXPR_ERR_UNKNOWN_IDENTIFIER "Unknown field access" in
  match fe_struct_producer e with
  | None => unknown
  | Some _ =>
      let! s := cxpr_eval_struct_result e name t args None in
      unless_failing nan_res
        (match match s with Some s => cxpr_struct_get_field s field | None => None end with
         | Some v => ret (owned v)
         | None => unknown
         end)
  end.

(** *** Overlays for parameters *)

(** [ordered_args[i]]: the entries behind the arguments are NULL. *)
Definition eval_arg (t : nat) (a : option cxpr_expr_ast) : M L W res :=
  match a with
  | Some a => rec t a
  | None => cxpr_eval_error CXPR_ERR_SYNTAX "NULL AST node"
  end.

Definition set_param_value (tmp : L) (name : string) (v : cxpr_value) : run L :=
  match v with VNum d => ctx_set tmp name d | _ => ctx_set_value tmp name v end.

(** Evaluate each argument, bind it in the overlay and release it; [None] when one
    fails. *)
Fixpoint bind_params (t : nat) (bindings : list (string * option cxpr_expr_ast)) (tmp : L)
    : M L W (option L) :=
  match bindings with
  | [] => ret (Some tmp)
  | (name, arg) :: bindings =>
      let! v := eval_arg t arg in
      unless_failing None
        (let! tmp := lift (set_param_value tmp name (fst v)) in
         value_free v ;; bind_params t bindings tmp)
  end.

(** The trees of the registry are never freed during an evaluation. *)
Definition registry_tree : nat := 0.

(** The bodies of a record function, evaluated in the innermost context; after a
    failure the values so far, the last included, are released. *)
Fixpoint eval_return_fields (bodies : list (string * cxpr_expr_ast)) (done : list res)
    : M L W (option (list res)) :=
  match bodies with
  | [] => ret (Some done)
  | (_, body) :: bodies =>
      let! v := rec registry_tree body in
      let! bad := failing in
      if bad then free_all (done ++ [v]) ;; ret None
      else eval_return_fields bodies (done ++ [v])
  end.

(** The record of a record function: [None] after an error. *)
Definition eval_defined_record (e : cxpr_func_entry) (t : nat) (args : list cxpr_expr_ast)
    : M L W (option cxpr_struct_value) :=
  let! ctx := get_ctx in
  let! tmp := lift (ctx_overlay_new ctx) in
  let! tmp := bind_params t (imap (λ i p, (p, args !! i)) (fe_defined_param_names e)) tmp in
  match tmp with
  | None => ret None
  | Some tmp =>
      push tmp ;;
      let! fields := eval_return_fields (fe_defined_return e) [] in
      match fields with
      | None => pop ;; ret None
      | Some fields =>
          free_all fields ;; pop ;;
          ret (Some (zip (fst <$> fe_defined_return e) (fst <$> fields)))
      end
  end.

(** *** Producer access ([calls/producer.c]) *)

(** The argument values, if all are finite numbers. *)
Fixpoint finite_args (t : nat) (args : list cxpr_expr_ast) : M L W (option (list float64)) :=
  match args with
  | [] => ret (Some [])
  | a :: args =>
      let! d := cxpr_eval_scalar_arg t a in
      unless_failing None
        (if fisfinite d
         then let! ds := finite_args t args in ret (option_map (cons d) ds)
         else ret None)
  end.

Definition cxpr_eval_prepare_const_key_for_producer (name : string) (t : nat)
    (args : list cxpr_expr_ast) (ordered : list cxpr_expr_ast)
    (names : option (list (option string))) : M L W (option string) :=
  if 32 <? length args then ret None
  else
    match (if cxpr_expr_ast_named_args_present names then None else all_constant args) with
    | Some values => ret (cxpr_build_struct_cache_key name values)
    | None =>
        let! folded := const_or_param_all ordered in
        match folded, ordered with
        | Some values, _ :: _ => ret (cxpr_build_struct_cache_key name values)
        | _, _ =>
            let! values := finite_args t ordered in
            ret (match values with Some vs => cxpr_build_struct_cache_key name vs | None => None end)
        end
    end.

(** [call] is the node, passed to the callback of a model. *)
Definition cxpr_eval_cached_producer_access (call : cxpr_expr_ast) (t : nat) (name : string)
    (args : list cxpr_expr_ast) (names : option (list (option string))) (field : string)
    : M L W res :=
  let unknown := cxpr_eval_error CXPR_ERR_UNKNOWN_FUNCTION (cxpr_eval_unknown_function_message name) in
  let missing := cxpr_eval_error CXPR_ERR_UNKNOWN_IDENTIFIER "Unknown field access" in
  match registry_lookup reg name with
  | None => unknown
  | Some e =>
      match fe_struct_producer e, fe_model_producer e, fe_defined_return e with
      | None, None, [] => unknown
      | _, _, _ =>
          let! ordered := cxpr_eval_bind_call_args e args names in
          match ordered with
          | None => ret nan_res
          | Some ordered =>
              match fe_model_producer e, fe_defined_return e with
              | Some (model, ud), _ => host_ast model call ud
              | None, _ :: _ =>
                  let! record := eval_defined_record e t ordered in
                  match record with
                  | None => ret nan_res
                  | Some record =>
                      match cxpr_struct_get_field record field with
                      | Some v => ret (owned v)
                      | None => missing
                      end
                  end
              | None, [] =>
                  let! key := cxpr_eval_prepare_const_key_for_producer name t args ordered names in
                  let! ctx := get_ctx in
                  let! cached := match key with
                                 | Some k => lift (ctx_get_cached_struct ctx k)
                                 | None => ret None
                                 end in
                  let! s := match cached with
                            | Some s => ret (Some s)
                            | None => cxpr_eval_struct_result e name t ordered key
                            end in
                  unless_failing nan_res
                    (match s with
                     | None => undef
                     | Some s =>
                         match cxpr_struct_get_field s field with
                         | Some v => ret (owned v)
                         | None => missing
                         end
                     end)
              end
          end
      end
  end.

(** *** Fields *)

Definition produces_struct (e : cxpr_func_entry) : bool :=
  match fe_struct_producer e, fe_model_producer e, fe_defined_return e with
  | None, None, [] => false
  | _, _, _ => true
  end.

(** The field of an expression: of a producer call, or of a struct value. *)
Definition eval_field_of_base (t : nat) (base : cxpr_expr_ast) (field : string) : M L W res :=
  let plain :=
    let! v := rec t base in
    unless_failing nan_res
      (match fst v with
       | VStruct s => cxpr_eval_struct_field_value s field
       | _ => cxpr_eval_error CXPR_ERR_TYPE_MISMATCH "Field access requires a struct base"
       end) in
  match ast_node base with
  | CXPR_NODE_FUNCTION_CALL name args names =>
      match registry_lookup reg name with
      | Some e =>
          if produces_struct e
          then cxpr_eval_cached_producer_access
                 (new_node (CXPR_NODE_PRODUCER_ACCESS name args names field EmptyString))
                 t name args names field
          else plain
      | None => plain
      end
  | _ => plain
  end.

Definition eval_field_of_name (t : nat) (object field full_key : string) : M L W res :=
  let! value := on_ctx (λ ctx, ctx_get_field ctx object field) in
  match value with
  | Some v => ret (owned v)
  | None =>
      let! fallback := on_ctx (λ ctx, ctx_get ctx full_key) in
      match fallback with
      | Some d => ret (owned (VNum d))
      | None =>
          match registry_lookup reg object with
          | Some e =>
              match fe_struct_producer e with
              | Some _ =>
                  let! v := cxpr_eval_struct_producer e object field t [] in
                  unless_failing nan_res (ret v)
              | None =>
                  cxpr_eval_error CXPR_ERR_UNKNOWN_IDENTIFIER
                    (cxpr_eval_unknown_field_message full_key)
              end
          | None =>
              cxpr_eval_error CXPR_ERR_UNKNOWN_IDENTIFIER (cxpr_eval_unknown_field_message full_key)
          end
      end
  end.

Definition cxpr_eval_field_access (t : nat) (base : option cxpr_expr_ast) (object field full_key : string)
    : M L W res :=
  match base with
  | Some base => eval_field_of_base t base field
  | None =>
      let! whole := scope_lookup full_key in
      match whole with
      | Some v => ret (borrowed v)
      | None =>
          let! scoped := scope_lookup object in
          match scoped with
          | Some (VStruct s) => cxpr_eval_struct_field_value s field
          | Some _ =>
              cxpr_eval_error CXPR_ERR_UNKNOWN_IDENTIFIER
                "Expression-scope chain has no struct prefix"
          | None => eval_field_of_name t object field full_key
          end
      end
  end.

(** *** Defined functions ([calls.c]) *)

(** [err->message] names the function; [snprintf] into 512 and 1024 bytes. *)
Definition cxpr_eval_wrap_defined_function_error (e : cxpr_func_entry) : M L W unit :=
  let! err := get_err in
  if bool_decide (err_code err = CXPR_OK) then ret tt
  else
    let detail := str_take 511 (default (cxpr_error_string (err_code err)) (err_message err)) in
    put_error (err_code err)
      (str_take 1023 ("Function '" ++ fe_name e ++ "' eval failed: " ++ detail)).

(** The fields a parameter is used with; none for a scalar. *)
Definition param_fields (e : cxpr_func_entry) (i : nat) : list string :=
  match fe_defined_param_fields e with
  | Some fields => default [] (fields !! i)
  | None => []
  end.
Definition has_fields (e : cxpr_func_entry) (i : nat) : bool :=
  negb (length (param_fields e i) =? 0).

Definition cxpr_eval_defined_inline_arg_is_stable (a : cxpr_expr_ast) : bool :=
  match ast_node a with
  | CXPR_NODE_IDENTIFIER _ | CXPR_NODE_VARIABLE _ | CXPR_NODE_NUMBER _ | CXPR_NODE_BOOL _
  | CXPR_NODE_STRING _ => true
  | _ => false
  end.

Definition cxpr_eval_defined_call_can_inline_value_args (e : cxpr_func_entry)
    (args : list cxpr_expr_ast) : bool :=
  match fe_defined_body e, fe_defined_return e with
  | Some _, [] =>
      forallb (λ i, negb (has_fields e i)) (seq 0 (length (fe_defined_param_names e))) &&
      forallb cxpr_eval_defined_inline_arg_is_stable
        (take (length (fe_defined_param_names e)) args)
  | _, _ => false
  end.

(** A struct the name is bound to: its own or a cached one. *)
Definition named_struct (name : string) : M L W (option cxpr_struct_value) :=
  let! ctx := get_ctx in
  let! s := lift (ctx_get_struct ctx name) in
  match s with
  | Some s => ret (Some s)
  | None => lift (ctx_get_cached_struct ctx name)
  end.

(** Every argument with fields is the name of a struct. *)
Fixpoint inline_struct_args (e : cxpr_func_entry) (i : nat) (args : list cxpr_expr_ast) : M L W bool :=
  match args with
  | [] => ret true
  | a :: args =>
      if has_fields e i then
        match ast_node a with
        | CXPR_NODE_IDENTIFIER name =>
            let! s := named_struct name in
            match s with Some _ => inline_struct_args e (S i) args | None => ret false end
        | _ => ret false
        end
      else inline_struct_args e (S i) args
  end.

Definition cxpr_eval_defined_call_can_inline_struct_args (e : cxpr_func_entry)
    (args : list cxpr_expr_ast) : M L W bool :=
  match fe_defined_return e with
  | [] => inline_struct_args e 0 args
  | _ => ret false
  end.

(** The parameter and field a body of the form [p.f] reads. *)
Definition body_field (body : cxpr_expr_ast) : option (string * string) :=
  match ast_node body with
  | CXPR_NODE_FIELD_ACCESS None object field _ => Some (default EmptyString object, field)
  | CXPR_NODE_CHAIN_ACCESS [param; field] _ => Some (param, field)
  | _ => None
  end.

Definition cxpr_eval_defined_overlay_direct_field (e : cxpr_func_entry) (args : list cxpr_expr_ast)
    : M L W (option res) :=
  match match fe_defined_body e with Some body => body_field body | None => None end with
  | None => ret None
  | Some (param, field) =>
      match arg_for_name (fe_defined_param_names e) args param with
      | None => ret None
      | Some arg =>
          match ast_node arg with
          | CXPR_NODE_IDENTIFIER name =>
              let! s := named_struct name in
              match match s with Some s => cxpr_struct_get_field s field | None => None end with
              | Some v => ret (Some (owned v))
              | None =>
                  let key := cxpr_expr_ast_join_with_dot name field in
                  if strlen key <? 256 then
                    let! d := on_ctx (λ ctx, ctx_get ctx key) in
                    ret (option_map (λ d, owned (VNum d)) d)
                  else ret None
              end
          | _ => ret None
          end
      end
  end.

(** Evaluate the body with the arguments put in, as a tree of its own. *)
Definition eval_inlined (e : cxpr_func_entry) (body : cxpr_expr_ast) (args : list cxpr_expr_ast)
    : M L W res :=
  match cxpr_eval_substitute_defined_args (fe_defined_param_names e) args body with
  | None => cxpr_eval_error CXPR_ERR_OUT_OF_MEMORY "Out of memory"
  | Some inlined =>
      let! tree := new_tree in
      let! result := rec tree inlined in
      free_tree tree ;; cxpr_eval_wrap_defined_function_error e ;; ret result
  end.

(** Evaluate the body in the overlay and drop it. *)
Definition eval_body_in (e : cxpr_func_entry) (tmp : L) : M L W res :=
  match fe_defined_body e with
  | None => undef
  | Some body =>
      push tmp ;;
      let! result := rec registry_tree body in
      pop ;; cxpr_eval_wrap_defined_function_error e ;; ret result
  end.

(** Bind one parameter of [cxpr_eval_defined_with_overlay]: a name passes its
    struct, its scalar or its prefixed scalars on. *)
Definition pass_through (tmp : L) (param : string) (arg : cxpr_expr_ast) : M L W (option L) :=
  match ast_node arg with
  | CXPR_NODE_IDENTIFIER name =>
      let! s := named_struct name in
      match s with
      | Some s => let! tmp := lift (ctx_set_struct tmp param s) in ret (Some tmp)
      | None =>
          let! d := on_ctx (λ ctx, ctx_get ctx name) in
          match d with
          | Some d => let! tmp := lift (ctx_set tmp param d) in ret (Some tmp)
          | None =>
              let! ctx := get_ctx in
              let! '(copied, tmp) := lift (ctx_copy_prefixed_scalars tmp ctx name param) in
              ret (if copied then Some tmp else None)
          end
      end
  | _ => ret None
  end.

Fixpoint pass_params (t : nat) (bindings : list (string * cxpr_expr_ast)) (tmp : L)
    : M L W (option L) :=
  match bindings with
  | [] => ret (Some tmp)
  | (param, arg) :: bindings =>
      let! passed := pass_through tmp param arg in
      match passed with
      | Some tmp => pass_params t bindings tmp
      | None =>
          let! bound := bind_params t [(param, Some arg)] tmp in
          match bound with Some tmp => pass_params t bindings tmp | None => ret None end
      end
  end.

Definition cxpr_eval_defined_with_overlay (e : cxpr_func_entry) (t : nat) (args : list cxpr_expr_ast)
    (names : option (list (option string))) : M L W res :=
  let! ordered := cxpr_eval_bind_call_args e args names in
  match ordered with
  | None => ret nan_res
  | Some ordered =>
      let! direct := cxpr_eval_defined_overlay_direct_field e ordered in
      match direct with
      | Some v => ret v
      | None =>
          let! ctx := get_ctx in
          let! tmp := lift (ctx_overlay_new ctx) in
          let! tmp := pass_params t (zip (fe_defined_param_names e) ordered) tmp in
          match tmp with None => ret nan_res | Some tmp => eval_body_in e tmp end
      end
  end.

(** [snprintf] of [a sep b] into 256 bytes *)
Definition key256 (a sep b : string) : string := str_take 255 (a ++ sep ++ b).

(** The value of one field of a struct argument: of the evaluated struct, or of the
    name through the context and its flat keys. *)
Definition arg_field (arg : cxpr_expr_ast) (evaluated : option cxpr_struct_value) (field : string)
    : M L W (option cxpr_value) :=
  match evaluated with
  | Some s => ret (cxpr_struct_get_field s field)
  | None =>
      match ast_node arg with
      | CXPR_NODE_IDENTIFIER name =>
          let! v := on_ctx (λ ctx, ctx_get_field ctx name field) in
          match v with
          | Some v => ret (Some v)
          | None =>
              let! d := on_ctx (λ ctx, ctx_get ctx (key256 name "." field)) in
              match d with
              | Some d => ret (Some (VNum d))
              | None =>
                  let! d := on_ctx (λ ctx, ctx_get ctx (key256 name "_" field)) in
                  ret (VNum <$> d)
              end
          end
      | _ => ret None
      end
  end.

Fixpoint bind_fields (param : string) (arg : cxpr_expr_ast) (evaluated : option cxpr_struct_value)
    (release : M L W unit) (fields : list string) (tmp : L) : M L W (option L) :=
  match fields with
  | [] => release ;; ret (Some tmp)
  | field :: fields =>
      let! v := arg_field arg evaluated field in
      match v with
      | None =>
          release ;; put_error CXPR_ERR_UNKNOWN_IDENTIFIER "Unknown struct field" ;; ret None
      | Some v =>
          let! ok := cxpr_require_type v CXPR_VALUE_NUMBER
                       "Struct function arguments must be scalar doubles" in
          match ok, v with
          | true, VNum d =>
              let! tmp := lift (ctx_set tmp (key256 param "." field) d) in
              bind_fields param arg evaluated release fields tmp
          | _, _ => release ;; ret None
          end
      end
  end.

(** A parameter with fields takes the fields of its argument, another one its
    value. *)
Fixpoint bind_struct_params (e : cxpr_func_entry) (t : nat) (i : nat)
    (bindings : list (string * cxpr_expr_ast)) (tmp : L) : M L W (option L) :=
  match bindings with
  | [] => ret (Some tmp)
  | (param, arg) :: bindings =>
      let! bound :=
        if has_fields e i then
          match ast_node arg with
          | CXPR_NODE_IDENTIFIER _ => bind_fields param arg None (ret tt) (param_fields e i) tmp
          | _ =>
              let! v := rec t arg in
              unless_failing None
                (let! ok := cxpr_require_type (fst v) CXPR_VALUE_STRUCT
                              "Struct argument must be a struct" in
                 match ok, fst v with
                 | true, VStruct s =>
                     bind_fields param arg (Some s) (value_free v) (param_fields e i) tmp
                 | _, _ => value_free v ;; ret None
                 end)
          end
        else bind_params t [(param, Some arg)] tmp in
      match bound with
      | Some tmp => bind_struct_params e t (S i) bindings tmp
      | None => ret None
      end
  end.

(** A name among the arguments that is no scalar of the context. *)
Fixpoint needs_passthrough (args : list cxpr_expr_ast) : M L W bool :=
  match args with
  | [] => ret false
  | a :: args =>
      match ast_node a with
      | CXPR_NODE_IDENTIFIER name =>
          let! d := on_ctx (λ ctx, ctx_get ctx name) in
          match d with Some _ => needs_passthrough args | None => ret true end
      | _ => needs_passthrough args
      end
  end.

(** A call with struct parameters. *)
Definition eval_defined_structs (e : cxpr_func_entry) (t : nat) (ordered : list cxpr_expr_ast)
    : M L W res :=
  let! direct := cxpr_eval_defined_overlay_direct_field e ordered in
  match direct with
  | Some v => ret v
  | None =>
      let! inline := cxpr_eval_defined_call_can_inline_struct_args e ordered in
      match inline, fe_defined_body e with
      | true, Some body => eval_inlined e body ordered
      | _, _ =>
          let! ctx := get_ctx in
          let! tmp := lift (ctx_overlay_new ctx) in
          let! tmp := bind_struct_params e t 0 (zip (fe_defined_param_names e) ordered) tmp in
          match tmp with None => ret nan_res | Some tmp => eval_body_in e tmp end
      end
  end.

(** A call with scalar parameters.  The branch of the source that runs the
    compiled body is not reached: [scalar_only] is false whenever no argument
    needs to be passed through. *)
Definition eval_defined_scalars (e : cxpr_func_entry) (t : nat) (args : list cxpr_expr_ast)
    (names : option (list (option string))) (ordered : list cxpr_expr_ast) : M L W res :=
  let! pass := needs_passthrough ordered in
  if pass then cxpr_eval_defined_with_overlay e t args names
  else
    let! ctx := get_ctx in
    let! tmp := lift (ctx_overlay_new ctx) in
    let! tmp := bind_params t (zip (fe_defined_param_names e) (Some <$> ordered)) tmp in
    match tmp with None => ret nan_res | Some tmp => eval_body_in e tmp end.

Definition cxpr_eval_defined_function (e : cxpr_func_entry) (t : nat) (args : list cxpr_expr_ast)
    (names : option (list (option string))) : M L W res :=
  if negb (length args =? length (fe_defined_param_names e))
  then cxpr_eval_error CXPR_ERR_WRONG_ARITY "Wrong number of arguments"
  else
    let! ordered := cxpr_eval_bind_call_args e args names in
    match ordered with
    | None => ret nan_res
    | Some ordered =>
        match cxpr_eval_defined_call_can_inline_value_args e ordered, fe_defined_body e with
        | true, Some body => eval_inlined e body ordered
        | _, _ =>
            match fe_defined_return e with
            | _ :: _ =>
                let! record := eval_defined_record e t ordered in
                ret (match record with Some s => owned (VStruct s) | None => nan_res end)
            | [] =>
                if existsb (has_fields e) (seq 0 (length (fe_defined_param_names e)))
                then eval_defined_structs e t ordered
                else eval_defined_scalars e t args names ordered
            end
        end
    end.

(** *** Indexing *)

(** A finite non-negative integer up to [max]. *)
Definition index_value (v : cxpr_value) (max : float64) : option float64 :=
  match v with
  | VNum d =>
      if negb (fisfinite d) || fltb d fzero || fneb (ffloor d) d || fgtb d max then None else Some d
  | _ => None
  end.

(** The conversion of a double to an integer type with the range [0 .. last]. *)
Definition convert_index (d : float64) (last : Z) : M L W Z :=
  match to_Z d with
  | Some z => if (z <=? last)%Z then ret z else undef
  | None => undef
  end.

Definition cxpr_eval_array_index (array : list cxpr_value) (t : nat) (index_ast : cxpr_expr_ast)
    : M L W res :=
  let! v := rec t index_ast in
  unless_failing nan_res
    (match index_value (fst v) (of_Z SIZE_MAX) with
     | None =>
         value_free v ;;
         cxpr_eval_error CXPR_ERR_INVALID_INDEX "Array index must be a finite non-negative integer"
     | Some d =>
         let! index := convert_index d SIZE_MAX in
         value_free v ;;
         match array !! Z.to_nat index with
         | None => cxpr_eval_error CXPR_ERR_INDEX_OUT_OF_RANGE "Array index is out of range"
         | Some element => ret (owned element)
         end
     end).

(** [a[j][i]] with literal offsets is [a[i + j]]: peel the targets while their
    offsets add up. *)
Fixpoint peel_offsets (target : cxpr_expr_ast) (offset : Z) : run (cxpr_expr_ast * Z) :=
  let '(Ast _ d) := target in
  match d with
  | CXPR_NODE_INDEX inner index =>
      let* o := cxpr_lookback_literal_offset index in
      match match o with Some o => cxpr_lookback_add_unsigned offset o | None => None end with
      | Some sum => peel_offsets inner sum
      | None => Done (target, offset)
      end
  | _ => Done (target, offset)
  end.

Definition is_index (a : cxpr_expr_ast) : bool :=
  match ast_node a with CXPR_NODE_INDEX _ _ => true | _ => false end.

(** The target and index of a capability: a peeled target gets the sum. *)
Definition capability_access (target index : cxpr_expr_ast) : run (cxpr_expr_ast * cxpr_expr_ast) :=
  let* o := cxpr_lookback_literal_offset index in
  match o with
  | None => Done (target, index)
  | Some offset =>
      let* first := match ast_node target with
                    | CXPR_NODE_INDEX _ inner_index =>
                        let* o := cxpr_lookback_literal_offset inner_index in
                        Done (match o with
                              | Some o => cxpr_lookback_add_unsigned offset o
                              | None => None
                              end)
                    | _ => Done None
                    end in
      match first with
      | None => Done (target, index)
      | Some _ =>
          let* '(peeled, sum) := peel_offsets target offset in
          Done (peeled, new_node (CXPR_NODE_NUMBER (of_Z sum)))
      end
  end.

(** The target and index of the registry's resolver: all targets are peeled or
    none. *)
Definition lookback_access (target index : cxpr_expr_ast) : run (cxpr_expr_ast * cxpr_expr_ast) :=
  let* o := cxpr_lookback_literal_offset index in
  match o with
  | None => Done (target, index)
  | Some offset =>
      let* '(peeled, sum) := peel_offsets target offset in
      Done (if is_index peeled || negb (is_index target) then (target, index)
            else (peeled, new_node (CXPR_NODE_NUMBER (of_Z sum))))
  end.

(** [cxpr_registry_select_index_capability] with its error: the capability and
    [handled]. *)
Definition select_capability (target : cxpr_expr_ast)
    : M L W (option cxpr_index_capability_entry * bool) :=
  match cxpr_registry_select_index_capability reg target with
  | sel_none => ret (None, false)
  | sel_one c => ret (Some c, true)
  | sel_conflict =>
      put_error CXPR_ERR_TYPE_MISMATCH "Index target references multiple capabilities" ;;
      ret (None, true)
  end.

Definition cxpr_registry_resolve_index_capability (target : cxpr_expr_ast) (index : Z)
    : M L W (option res) :=
  let! '(capability, _) := select_capability target in
  match capability with
  | None => ret None
  | Some c =>
      let! out := host_capability (cap_resolve c) target index (cap_userdata c) in
      let! bad := failing in
      match out with
      | Some v => ret (if bad then None else Some v)
      | None =>
          if bad then ret None
          else put_error CXPR_ERR_TYPE_MISMATCH
                 "Index capability failed to resolve its owned target" ;; ret None
      end
  end.

(** Resolve through a capability, or go on with [k] when the target has none. *)
Definition try_capability (t : nat) (target index : cxpr_expr_ast) (k : M L W res) : M L W res :=
  let! '(capability, handled) := select_capability target in
  match capability with
  | None => if handled then ret nan_res else k
  | Some _ =>
      let! v := rec t index in
      unless_failing nan_res
        (match index_value (fst v) (of_Z INT64_MAX) with
         | None =>
             value_free v ;;
             cxpr_eval_error CXPR_ERR_INVALID_INDEX "Index must be a finite non-negative integer"
         | Some d =>
             let! i := convert_index d INT64_MAX in
             let! resolved := cxpr_registry_resolve_index_capability target i in
             value_free v ;; ret (default nan_res resolved)
         end)
  end.

Definition is_identifier (a : cxpr_expr_ast) : bool :=
  match ast_node a with CXPR_NODE_IDENTIFIER _ => true | _ => false end.

(** A target that is no array: the resolver, then a capability of a compound
    target. *)
Definition eval_history (t : nat) (target index cap_target cap_index : cxpr_expr_ast) : M L W res :=
  let not_indexable := cxpr_eval_error CXPR_ERR_TYPE_MISMATCH "Index target is not indexable" in
  let by_capability :=
    if is_identifier cap_target then not_indexable
    else try_capability t cap_target cap_index not_indexable in
  match reg_lookback reg with
  | None => by_capability
  | Some resolver =>
      let! '(target, index) := lift (lookback_access target index) in
      let! resolved := host_lookback resolver target index (reg_lookback_userdata reg) in
      match resolved with
      | Some v => ret v
      | None => unless_failing nan_res by_capability
      end
  end.

(** The value of the target: an array is indexed; a failure is forgotten when the
    registry has a resolver. *)
Definition eval_target (t : nat) (target index cap_target cap_index : cxpr_expr_ast) : M L W res :=
  let! v := rec t target in
  let! bad := failing in
  if bad then
    match reg_lookback reg with
    | None => ret nan_res
    | Some _ =>
        let! e := get_err in
        set_err (mk_error CXPR_OK None (err_position e) (err_line e) (err_column e)) ;;
        eval_history t target index cap_target cap_index
    end
  else
    match fst v with
    | VArray array =>
        let! element := cxpr_eval_array_index array t index in
        value_free v ;; ret element
    | _ => value_free v ;; eval_history t target index cap_target cap_index
    end.

(** Everything behind the test for an array bound to the name. *)
Definition eval_index_compound (t : nat) (target index : cxpr_expr_ast) : M L W res :=
  let! '(cap_target, cap_index) := lift (capability_access target index) in
  let rest := eval_target t target index cap_target cap_index in
  if is_identifier cap_target || match reg_lookback reg with None => true | Some _ => false end
  then try_capability t cap_target cap_index rest
  else rest.

Definition eval_index (t : nat) (target index : cxpr_expr_ast) : M L W res :=
  match ast_node target with
  | CXPR_NODE_IDENTIFIER name =>
      let! bound := on_ctx (λ ctx, ctx_get_typed ctx name) in
      match bound with
      | Some (VArray array, own) =>
          let! element := cxpr_eval_array_index array t index in
          value_free (VArray array, own) ;; ret element
      | Some v => value_free v ;; eval_index_compound t target index
      | None => eval_index_compound t target index
      end
  | _ => eval_index_compound t target index
  end.

(** *** Calls *)

(** The scalars of struct arguments, at most 32 of them. *)
Fixpoint struct_arg_fields (name : string) (fields : list string) (out : list float64)
    : M L W (option (list float64)) :=
  match fields with
  | [] => ret (Some out)
  | field :: fields =>
      if length out <? 32 then
        let! v := on_ctx (λ ctx, ctx_get_field ctx name field) in
        match v with
        | None => put_error CXPR_ERR_UNKNOWN_IDENTIFIER "Unknown struct field" ;; ret None
        | Some v =>
            let! ok := cxpr_require_type v CXPR_VALUE_NUMBER
                         "Struct function arguments must be scalar doubles" in
            match ok, v with
            | true, VNum d => struct_arg_fields name fields (out ++ [d])
            | _, _ => ret None
            end
        end
      else ret (Some out)
  end.

Fixpoint struct_args (fields : list string) (args : list cxpr_expr_ast) (out : list float64)
    : M L W (option (list float64)) :=
  match args with
  | [] => ret (Some out)
  | a :: args =>
      if length out <? 32 then
        match ast_node a with
        | CXPR_NODE_IDENTIFIER name =>
            let! out := struct_arg_fields name fields out in
            match out with Some out => struct_args fields args out | None => ret None end
        | _ => put_error CXPR_ERR_SYNTAX "Struct argument must be an identifier" ;; ret None
        end
      else ret (Some out)
  end.

Definition eval_struct_function (e : cxpr_func_entry) (f : cxpr_func_ptr) (ordered : list cxpr_expr_ast)
    : M L W res :=
  if negb (length ordered =? fe_struct_argc e)
  then cxpr_eval_error CXPR_ERR_WRONG_ARITY "Wrong number of struct arguments"
  else
    let! out := struct_args (fe_struct_fields e) ordered [] in
    match out with
    | None => ret nan_res
    | Some args =>
        let! d := on_world (call_sync f args (fe_userdata e)) in ret (owned (VNum d))
    end.

(** All arguments are evaluated before the error is looked at. *)
Fixpoint native_args (t : nat) (args : list cxpr_expr_ast) : M L W (list float64) :=
  match args with
  | [] => ret []
  | a :: args =>
      let! d := cxpr_eval_scalar_arg t a in
      let! ds := native_args t args in ret (d :: ds)
  end.

Definition native_arity (k : native_kind) : nat :=
  match k with NATIVE_NULLARY => 0 | NATIVE_UNARY => 1 | NATIVE_BINARY => 2 | NATIVE_TERNARY => 3 end.

Definition eval_native (t : nat) (fn : scalar_ptr) (ordered : list cxpr_expr_ast) : M L W res :=
  let! args := native_args t ordered in
  let call := let! d := on_world (call_scalar fn args) in ret (owned (VNum d)) in
  match ordered with
  | [] => call
  | _ => unless_failing nan_res call
  end.

(** The loop over typed arguments: [None] when one fails. *)
Fixpoint typed_args (t : nat) (args : list cxpr_expr_ast) : M L W (option (list res)) :=
  match args with
  | [] => ret (Some [])
  | a :: args =>
      let! v := rec t a in
      unless_failing None
        (let! vs := typed_args t args in ret (option_map (cons v) vs))
  end.

(** [coalesce] returns one of its arguments, other functions a value of the
    caller. *)
Fixpoint coalesce_owner (args : list res) : bool :=
  match args with
  | [] => true
  | (v, own) :: args => if is_null v then coalesce_owner args else own
  end.
Definition result_owner (e : cxpr_func_entry) (args : list res) : bool :=
  match fe_typed_func e, fe_value_func e with
  | None, Some fn_coalesce => coalesce_owner args
  | _, _ => true
  end.

Definition eval_registry_call (e : cxpr_func_entry) (name : string) (t : nat)
    (ordered : list cxpr_expr_ast) : M L W res :=
  if 32 <? length ordered
  then cxpr_eval_error CXPR_ERR_WRONG_ARITY "Too many function arguments"
  else
    let! args := typed_args t ordered in
    match args with
    | None => ret nan_res
    | Some args =>
        let! '(v, err) := on_world (λ w,
          let* '(v, err, w) := cxpr_registry_call_typed reg name (fst <$> args) w in
          Done ((v, err), w)) in
        set_err err ;; ret (v, result_owner e args)
    end.

(** [if(c, a, b)] evaluates one branch. *)
Definition eval_if (t : nat) (c a b : cxpr_expr_ast) : M L W res :=
  let! cond := rec t c in
  unless_failing nan_res
    (match fst cond with
     | VBool take => rec t (if take then a else b)
     | _ => cxpr_eval_error CXPR_ERR_TYPE_MISMATCH "if() condition must be bool"
     end).

(** A call of a C function with its bound arguments. *)
Definition eval_plain_call (e : cxpr_func_entry) (name : string) (t : nat)
    (ordered : list cxpr_expr_ast) : M L W res :=
  let argc := length ordered in
  let checked :=
    if (argc <? fe_min_args e) || (fe_max_args e <? argc)
    then cxpr_eval_error CXPR_ERR_WRONG_ARITY "Wrong number of arguments"
    else
      match fe_native e with
      | Some (kind, fn) =>
          if argc =? native_arity kind then eval_native t fn ordered
          else eval_registry_call e name t ordered
      | None => eval_registry_call e name t ordered
      end in
  match ordered with
  | [c; a; b] => if String.eqb name "if" then eval_if t c a b else checked
  | _ => checked
  end.

(** The struct function, the producer behind named arguments, or a plain call. *)
Definition eval_bound_call (e : cxpr_func_entry) (name : string) (t : nat)
    (ordered : list cxpr_expr_ast) : M L W res :=
  match fe_struct_producer e, fe_sync_func e, fe_value_func e with
  | Some _, None, None =>
      let! s := cxpr_eval_struct_result e name t ordered None in produced_struct s
  | None, Some f, _ =>
      match fe_struct_fields e with
      | _ :: _ => eval_struct_function e f ordered
      | [] => eval_plain_call e name t ordered
      end
  | _, _, _ => eval_plain_call e name t ordered
  end.

(** A producer called by position: through the cache when its arguments are
    literals. *)
Definition eval_producer_call (e : cxpr_func_entry) (name : string) (t : nat)
    (args : list cxpr_expr_ast) (names : option (list (option string))) : M L W res :=
  let key := cxpr_eval_prepare_const_key_for_call name args names in
  let! ctx := get_ctx in
  let! cached := match key with
                 | Some k => lift (ctx_get_cached_struct ctx k)
                 | None => ret None
                 end in
  match cached with
  | Some s => ret (borrowed (VStruct s))
  | None => let! s := cxpr_eval_struct_result e name t args key in produced_struct s
  end.

Definition only_producer (e : cxpr_func_entry) : bool :=
  match fe_struct_producer e, fe_sync_func e, fe_value_func e with
  | Some _, None, None => true
  | _, _, _ => false
  end.

Definition is_defined (e : cxpr_func_entry) : bool :=
  match fe_defined_body e, fe_defined_return e with
  | None, [] => false
  | _, _ => true
  end.

Definition eval_call (call : cxpr_expr_ast) (t : nat) (name : string) (args : list cxpr_expr_ast)
    (names : option (list (option string))) : M L W res :=
  match registry_lookup reg name with
  | None =>
      cxpr_eval_error CXPR_ERR_UNKNOWN_FUNCTION (cxpr_eval_unknown_function_message name)
  | Some e =>
      match fe_handler e, fe_ast_func e with
      | Some handler, _ => host_ast handler call (fe_handler_userdata e)
      | None, Some f => host_ast f call (fe_userdata e)
      | None, None =>
          if only_producer e && negb (cxpr_expr_ast_named_args_present names)
          then eval_producer_call e name t args names
          else
            let! ordered := cxpr_eval_bind_call_args e args names in
            match ordered with
            | None => ret nan_res
            | Some ordered =>
                match fe_model_producer e with
                | Some (model, ud) => host_ast model call ud
                | None =>
                    if is_defined e then cxpr_eval_defined_function e t args names
                    else eval_bound_call e name t ordered
                end
            end
      end
  end.

Definition eval_producer_access (call : cxpr_expr_ast) (t : nat) (name : string)
    (args : list cxpr_expr_ast) (names : option (list (option string))) (field : string)
    : M L W res :=
  match registry_lookup reg name with
  | None =>
      cxpr_eval_error CXPR_ERR_UNKNOWN_FUNCTION (cxpr_eval_unknown_function_message name)
  | Some e =>
      match fe_handler e with
      | Some handler => host_ast handler call (fe_handler_userdata e)
      | None =>
          let! v := cxpr_eval_cached_producer_access call t name args names field in
          unless_failing nan_res (ret v)
      end
  end.

(** *** Operators and literals *)

Definition logical (op : cxpr_token_type) : bool :=
  match op with CXPR_TOK_AND | CXPR_TOK_OR => true | _ => false end.

Definition require_bool (v : cxpr_value) (k : bool → M L W res) : M L W res :=
  match v with
  | VBool b => k b
  | _ => cxpr_eval_error CXPR_ERR_TYPE_MISMATCH "Logical operators require bool"
  end.

Definition cxpr_eval_binary_op (t : nat) (op : cxpr_token_type) (left right : cxpr_expr_ast)
    : M L W res :=
  let! l := rec t left in
  unless_failing nan_res
    (if logical op then
       require_bool (fst l) (λ b,
         if Bool.eqb b (match op with CXPR_TOK_OR => true | _ => false end)
         then ret (owned (VBool b))
         else
           let! r := rec t right in
           unless_failing nan_res (require_bool (fst r) (λ b, ret (owned (VBool b)))))
     else
       let! r := rec t right in
       unless_failing nan_res (cxpr_eval_binary_values op (fst l) (fst r))).

Definition cxpr_eval_unary_op (t : nat) (op : cxpr_token_type) (operand : cxpr_expr_ast) : M L W res :=
  let! v := rec t operand in unless_failing nan_res (unary_value op (fst v)).

Definition cxpr_eval_ternary_op (t : nat) (condition yes no : cxpr_expr_ast) : M L W res :=
  let! c := rec t condition in
  unless_failing nan_res
    (match fst c with
     | VBool b => rec t (if b then yes else no)
     | _ => cxpr_eval_error CXPR_ERR_TYPE_MISMATCH "Ternary condition must be bool"
     end).

Fixpoint array_elements (t : nat) (els : list cxpr_expr_ast) : M L W (option (list cxpr_value)) :=
  match els with
  | [] => ret (Some [])
  | a :: els =>
      let! v := rec t a in
      unless_failing None
        (let! vs := array_elements t els in ret (option_map (cons (fst v)) vs))
  end.

Definition eval_array (t : nat) (els : list cxpr_expr_ast) : M L W res :=
  let! vs := array_elements t els in
  ret (match vs with Some vs => owned (VArray vs) | None => nan_res end).

(** The fields of a record see the ones before them: each value is bound in the
    record's overlay, the innermost context. *)
Fixpoint record_fields (t : nat) (fields : list (string * cxpr_expr_ast)) (done : list res)
    : M L W (option (list res)) :=
  match fields with
  | [] => ret (Some done)
  | (name, a) :: fields =>
      let! v := rec t a in
      let! bad := failing in
      if bad then free_all (done ++ [v]) ;; ret None
      else
        on_head (λ c, ctx_set_value c name (fst v)) ;;
        record_fields t fields (done ++ [v])
  end.

Definition eval_record (t : nat) (names : list string) (values : list cxpr_expr_ast) : M L W res :=
  match values with
  | [] => ret (owned (VStruct []))
  | _ =>
      let! ctx := get_ctx in
      let! record_ctx := lift (ctx_overlay_new ctx) in
      push record_ctx ;;
      let! fields := record_fields t (zip names values) [] in
      pop ;;
      match fields with
      | None => ret nan_res
      | Some fields => free_all fields ;; ret (owned (VStruct (zip names (fst <$> fields))))
      end
  end.

(** *** Nodes *)

Definition cxpr_eval_node_uncached (t : nat) (a : cxpr_expr_ast) : M L W res :=
  match ast_node a with
  | CXPR_NODE_NUMBER v => ret (owned (VNum v))
  | CXPR_NODE_INT64 v => ret (owned (VInt64 v))
  | CXPR_NODE_BOOL v => ret (owned (VBool v))
  | CXPR_NODE_ARRAY els => eval_array t els
  | CXPR_NODE_RECORD names values => eval_record t names values
  | CXPR_NODE_STRING v => ret (borrowed (VString v))
  | CXPR_NODE_IDENTIFIER name =>
      let! v := on_ctx (λ ctx, ctx_get_typed ctx name) in
      match v with
      | Some v => ret v
      | None =>
          cxpr_eval_error CXPR_ERR_UNKNOWN_IDENTIFIER (cxpr_eval_unknown_identifier_message name)
      end
  | CXPR_NODE_VARIABLE name =>
      let! v := on_ctx (λ ctx, ctx_get_param_typed ctx name) in
      match v with
      | Some v => ret v
      | None =>
          cxpr_eval_error CXPR_ERR_UNKNOWN_IDENTIFIER (cxpr_eval_unknown_parameter_message name)
      end
  | CXPR_NODE_FIELD_ACCESS base object field full_key =>
      cxpr_eval_field_access t base (default EmptyString object) field
        (default EmptyString full_key)
  | CXPR_NODE_CHAIN_ACCESS path full_key => cxpr_eval_chain_access path full_key
  | CXPR_NODE_INDEX target index => eval_index t target index
  | CXPR_NODE_BINARY_OP op lhs rhs => cxpr_eval_binary_op t op lhs rhs
  | CXPR_NODE_UNARY_OP op operand => cxpr_eval_unary_op t op operand
  | CXPR_NODE_FUNCTION_CALL name args names => eval_call a t name args names
  | CXPR_NODE_PRODUCER_ACCESS name args names field _ =>
      eval_producer_access a t name args names field
  | CXPR_NODE_TERNARY condition yes no => cxpr_eval_ternary_op t condition yes no
  end.

Definition eval_memoised (t : nat) (a : cxpr_expr_ast) : M L W res :=
  let hash := cxpr_eval_ast_hash a in
  let! m := memo in
  let! cached := λ s, lift (cxpr_eval_memo_get (live s) m a hash) s in
  match cached with
  | Some v => ret (owned v)
  | None =>
      let! v := cxpr_eval_node_uncached t a in
      unless_failing v
        (let! m := memo in
         set_memo (cxpr_eval_memo_set m a t hash (fst v)) ;; ret v)
  end.

(** [cxpr_eval_node] with [rec] for the nested calls. *)
Definition eval_node_step (t : nat) (a : cxpr_expr_ast) : M L W res :=
  let! offset := eval_lookback_offset in
  if fneb offset fzero || negb (cxpr_eval_ast_memoable a reg)
  then cxpr_eval_node_uncached t a
  else eval_memoised t a.
End eval.

(** ** The evaluator *)

Section top.
Context {L W : Type} `{!EvalContext L} `{!HostCode W} `{!HexFormat} `{!EvalHost L W}.

Fixpoint cxpr_eval_node (fuel : nat) (reg : cxpr_registry) (t : nat) (a : cxpr_expr_ast) : M L W res :=
  match fuel with
  | 0 => λ _, OutOfFuel
  | S fuel => eval_node_step reg (cxpr_eval_node fuel reg) t a
  end.

(** The tree of the caller outlives the evaluation. *)
Definition caller_tree : nat := 0.

(** [cxpr_eval_ast_value] ([api.c]): one evaluation pass. *)
Definition cxpr_eval_ast_value (fuel : nat) (reg : cxpr_registry) (a : cxpr_expr_ast) : M L W res :=
  set_err error_zero ;;
  let! m := memo in
  set_memo (cxpr_eval_memo_enter m) ;;
  let! v := cxpr_eval_node fuel reg caller_tree a in
  let! m := memo in
  set_memo (cxpr_eval_memo_leave m) ;; ret v.
End top.
