(* ===== verification/TreeContext.v ===== *)
(** * TreeContext: contexts of [src/context] as contexts of the evaluator

    [Context.v] implements the interface [EvalContext] the tree evaluator is
    written against.  Allocation succeeds and a new entry array gets an address no
    cache remembers; a name is passed at an address that depends on its text. *)

From Stdlib Require Import Ascii String ZArith Lia.
From stdpp Require Import base list strings gmap fin_maps.
From S2P Require Import Prelude Float64 Types ValueCopy OpenTable Hashmap StructMap Bindings Context ContextProofs Ast EvalState.
Local Open Scope run_scope.
Local Open Scope nat_scope.

Section instance.
Context (addr : string → Z).

Definition at_name (name : string) : cname := mk_name (addr name) name.

(** ** Who owns a value *)

Definition is_string (v : cxpr_value) : bool := match v with VString _ => true | _ => false end.

Definition scope_hit (c : cxpr_context) (name : string) : bool :=
  match expression_scope c with
  | Some lookup => match lookup name with Some _ => true | None => false end
  | None => false
  end.

(** Results of an attached evaluator and strings are not copied. *)
Fixpoint typed_borrowed (chain : list cxpr_context) (name : cname) : run bool :=
  match chain with
  | [] => Done false
  | c :: parents =>
      let* '(v, _) := get_typed_local c name in
      match v with
      | Some v => Done (scope_hit c (name_str name) || is_string v)
      | None => typed_borrowed parents name
      end
  end.

(** String parameters are not copied; the string field of a struct is. *)
Fixpoint param_borrowed (chain : list cxpr_context) (name : cname) : run bool :=
  match chain with
  | [] => Done false
  | c :: parents =>
      let* v := get_param_local c name in
      match v with
      | Some v =>
          Done (is_string v &&
                match cxpr_context_get_local_param_string c name with Some _ => true | None => false end)
      | None => param_borrowed parents name
      end
  end.

Definition get_typed_owned (chain : list cxpr_context) (name : string)
    : run (option res * list cxpr_context) :=
  let* '(v, chain') := cxpr_context_get_typed chain (at_name name) in
  let* b := typed_borrowed chain (at_name name) in
  Done ((λ v, (v, negb b)) <$> v, chain').

Definition get_param_typed_owned (chain : list cxpr_context) (name : string)
    : run (option res * list cxpr_context) :=
  let* '(v, chain') := cxpr_context_get_param_typed chain (at_name name) in
  let* b := param_borrowed chain (at_name name) in
  Done ((λ v, (v, negb (is_string v && b))) <$> v, chain').

Definition get_scalar (chain : list cxpr_context) (name : string)
    : run (option float64 * list cxpr_context) :=
  let* '(d, found, chain) := cxpr_context_get chain (at_name name) in
  Done (if (found : bool) then Some d else None, chain).

(** ** New addresses *)

Definition fresh_address (s : num_store) : Z :=
  (1 + map_fold (λ _ b m, Z.max (Z.abs (hb_base b)) m)
         (map_fold (λ _ b m, Z.max (Z.abs (pb_base b)) m) 0 (ns_ptr_cache s)) (ns_cache s))%Z.

Definition env_for (c : cxpr_context) : env := env_at (fresh_address (variables c)).

(** ** Prefixed scalars ([src/eval/calls.c]) *)

(** The rest of a key behind the prefix and a separator. *)
Fixpoint behind_prefix (prefix key : string) : option string :=
  match prefix, key with
  | EmptyString, String c rest => if (c =? ".")%char || (c =? "_")%char then Some rest else None
  | String p prefix, String k key => if (p =? k)%char then behind_prefix prefix key else None
  | _, EmptyString => None
  end.

(** The scalars of one context, in the order of its table. *)
Fixpoint copy_slots (dst : cxpr_context) (slots : list (option cxpr_hashmap_entry))
    (src_prefix dst_prefix : string) (copied : bool) : run (bool * cxpr_context) :=
  match slots with
  | [] => Done (copied, dst)
  | None :: slots => copy_slots dst slots src_prefix dst_prefix copied
  | Some entry :: slots =>
      match behind_prefix src_prefix (fst entry) with
      | None => copy_slots dst slots src_prefix dst_prefix copied
      | Some rest =>
          if 256 <=? strlen dst_prefix + 1 + strlen rest
          then copy_slots dst slots src_prefix dst_prefix copied
          else
            let* dst := cxpr_context_set (env_for dst) dst
                          (at_name (dst_prefix ++ String "." rest)) (snd entry) in
            copy_slots dst slots src_prefix dst_prefix true
      end
  end.

(** The parent's scalars are copied last. *)
Fixpoint cxpr_context_copy_prefixed_scalars (dst : cxpr_context) (src : list cxpr_context)
    (src_prefix dst_prefix : string) : run (bool * cxpr_context) :=
  match src with
  | [] => Done (false, dst)
  | c :: parents =>
      let* '(copied, dst) :=
        copy_slots dst (default [] (hm_entries (ns_map (variables c)))) src_prefix dst_prefix false in
      let* '(more, dst) := cxpr_context_copy_prefixed_scalars dst parents src_prefix dst_prefix in
      Done (more || copied, dst)
  end.

#[export] Instance context_eval : EvalContext cxpr_context := {
  ctx_get_typed := get_typed_owned;
  ctx_get_param_typed := get_param_typed_owned;
  ctx_get := get_scalar;
  ctx_get_param chain name := cxpr_context_get_param chain (at_name name);
  ctx_get_struct chain name := cxpr_context_get_struct chain (at_name name);
  ctx_get_cached_struct chain name := cxpr_context_get_cached_struct chain (at_name name);
  ctx_get_field chain name field := cxpr_context_get_field chain (at_name name) field;
  ctx_scope c := expression_scope c;
  ctx_overlay_new _ := Done (cxpr_context_new 1 2);
  ctx_set c name d := cxpr_context_set (env_for c) c (at_name name) d;
  ctx_set_value c name v := cxpr_context_set_value (env_for c) c (at_name name) v;
  ctx_set_struct c name s := cxpr_context_set_struct (env_for c) c (at_name name) s;
  ctx_set_cached_struct c name s := cxpr_context_set_cached_struct (env_for c) c (at_name name) s;
  ctx_copy_prefixed_scalars := cxpr_context_copy_prefixed_scalars
}.
End instance.
