(* ===== verification/TreeSem.v ===== *)
(** * TreeSem: what an expression means

    A big-step semantics of the expressions built from literals, variables,
    parameters, operators, conditionals, arrays and calls of C functions, as a
    relation between a tree and its value under an environment.  It has no memo,
    no error record and no state: an expression that has no value is an error.
    The evaluators of the source are compared with it. *)

From Stdlib Require Import Ascii String ZArith Lia.
From stdpp Require Import base list strings.
From S2P Require Import Prelude Float64 Types ValueCopy Ast References CallArgs Registry Builtins Parser ParserProofs EvalSupport EvalSupportProofs ValueOps EvalState TreeEval.
Local Open Scope run_scope.
Local Open Scope nat_scope.

(** ** Operators *)

Definition valop_value (r : run valop_result) : option cxpr_value :=
  match r with Done (Handled v) => Some v | _ => None end.

Section semantics.
Context {W : Type} `{!HostCode W} (reg : cxpr_registry).
Context (vars pars : string → option cxpr_value).

Definition arithmetic_result (op : cxpr_token_type) (a b : cxpr_value) : option cxpr_value :=
  match a, b with
  | VNum x, VNum y =>
      if divides op && feqb y fzero then None else Some (VNum (arithmetic op x y))
  | _, _ =>
      match cxpr_tok_to_arith_valop op with
      | Some vop => valop_value (cxpr_value_binary_op vop a b)
      | None => None
      end
  end.

Definition comparison_result (op : cxpr_token_type) (a b : cxpr_value) : option cxpr_value :=
  match a, b with
  | VNum x, VNum y => Some (VBool (compare_numbers op x y))
  | _, _ => valop_value (cxpr_value_binary_op (comparison_valop op) a b)
  end.

Definition equality_result (op : cxpr_token_type) (a b : cxpr_value) : option cxpr_value :=
  (λ e, VBool (match op with CXPR_TOK_EQ => e | _ => negb e end)) <$> cxpr_eval_values_equal a b.

(** The value of an operator that evaluates both operands. *)
Definition binary_result (op : cxpr_token_type) (a b : cxpr_value) : option cxpr_value :=
  match op with
  | CXPR_TOK_PLUS | CXPR_TOK_MINUS | CXPR_TOK_STAR | CXPR_TOK_SLASH | CXPR_TOK_PERCENT
  | CXPR_TOK_POWER => arithmetic_result op a b
  | CXPR_TOK_LT | CXPR_TOK_LTE | CXPR_TOK_GT | CXPR_TOK_GTE => comparison_result op a b
  | CXPR_TOK_EQ | CXPR_TOK_NEQ => equality_result op a b
  | _ => None
  end.

Definition unary_result (op : cxpr_token_type) (v : cxpr_value) : option cxpr_value :=
  match op, v with
  | CXPR_TOK_MINUS, VInt64 i => if (i =? INT64_MIN)%Z then None else Some (VInt64 (- i))
  | CXPR_TOK_MINUS, VNum d => Some (VNum (fneg d))
  | CXPR_TOK_NOT, VBool b => Some (VBool (negb b))
  | _, _ => None
  end.

(** The operand that decides [and] and [or] alone. *)
Definition absorbing (op : cxpr_token_type) : bool :=
  match op with CXPR_TOK_OR => true | _ => false end.

(** ** Functions *)

(** What a function returns for argument values, whatever the host's state. *)
Definition applies (e : cxpr_func_entry) (args : list cxpr_value) (v : cxpr_value) : Prop :=
  fe_min_args e ≤ length args ≤ fe_max_args e ∧
  match fe_native e with
  | Some (_, fn) =>
      ∃ ds d, args = VNum <$> ds ∧ v = VNum d ∧ ∀ w, call_scalar fn ds w = Done (d, w)
  | None => ∀ w, call_entry e args w = Done (v, error_zero, w)
  end.

(** The call the evaluator treats as a conditional. *)
Definition conditional (name : string) (args : list cxpr_expr_ast) : bool :=
  String.eqb name "if" && (length args =? 3).

(** ** Values *)

Inductive evaluates : cxpr_expr_ast → cxpr_value → Prop :=
  | E_number s d : evaluates (Ast s (CXPR_NODE_NUMBER d)) (VNum d)
  | E_int64 s i : evaluates (Ast s (CXPR_NODE_INT64 i)) (VInt64 i)
  | E_bool s b : evaluates (Ast s (CXPR_NODE_BOOL b)) (VBool b)
  | E_string s str : evaluates (Ast s (CXPR_NODE_STRING str)) (VString str)
  | E_identifier s name v : vars name = Some v → evaluates (Ast s (CXPR_NODE_IDENTIFIER name)) v
  | E_variable s name v : pars name = Some v → evaluates (Ast s (CXPR_NODE_VARIABLE name)) v
  | E_array s els vs : evaluates_all els vs → evaluates (Ast s (CXPR_NODE_ARRAY els)) (VArray vs)
  | E_unary s op x v r :
      evaluates x v → unary_result op v = Some r → evaluates (Ast s (CXPR_NODE_UNARY_OP op x)) r
  | E_binary s op x y vx vy r :
      logical op = false → evaluates x vx → evaluates y vy → binary_result op vx vy = Some r →
      evaluates (Ast s (CXPR_NODE_BINARY_OP op x y)) r
  | E_short s op x y :
      logical op = true → evaluates x (VBool (absorbing op)) →
      evaluates (Ast s (CXPR_NODE_BINARY_OP op x y)) (VBool (absorbing op))
  | E_logical s op x y b :
      logical op = true → evaluates x (VBool (negb (absorbing op))) → evaluates y (VBool b) →
      evaluates (Ast s (CXPR_NODE_BINARY_OP op x y)) (VBool b)
  | E_ternary s c x y b v :
      evaluates c (VBool b) → evaluates (if b then x else y) v →
      evaluates (Ast s (CXPR_NODE_TERNARY c x y)) v
  | E_if s name args names e c x y b v :
      registry_lookup reg name = Some e →
      cxpr_call_bind_args args names (cxpr_registry_entry_param_names e) = Done (inl [c; x; y]) →
      name = "if"%string → evaluates c (VBool b) → evaluates (if b then x else y) v →
      evaluates (Ast s (CXPR_NODE_FUNCTION_CALL name args names)) v
  | E_call s name args names e ordered vs v :
      registry_lookup reg name = Some e →
      cxpr_call_bind_args args names (cxpr_registry_entry_param_names e) = Done (inl ordered) →
      conditional name ordered = false → evaluates_all ordered vs → applies e vs v →
      evaluates (Ast s (CXPR_NODE_FUNCTION_CALL name args names)) v
with evaluates_all : list cxpr_expr_ast → list cxpr_value → Prop :=
  | E_nil : evaluates_all [] []
  | E_cons a args v vs : evaluates a v → evaluates_all args vs → evaluates_all (a :: args) (v :: vs).

Scheme evaluates_min := Minimality for evaluates Sort Prop
  with evaluates_all_min := Minimality for evaluates_all Sort Prop.
Combined Scheme evaluates_mutual from evaluates_min, evaluates_all_min.

Lemma VNum_inj (ds ds' : list float64) : VNum <$> ds = VNum <$> ds' → ds = ds'.
Proof.
  revert ds'. induction ds as [|d ds IH]; intros [|d' ds'] H; try done.
  rewrite !fmap_cons in H. injection H as -> H. f_equal. by apply IH.
Qed.

(** ** The semantics is deterministic *)

Lemma applies_det e args v v' : W → applies e args v → applies e args v' → v = v'.
Proof.
  intros w [_ H] [_ H']. destruct (fe_native e) as [[k fn]|].
  - destruct H as (ds & d & -> & -> & H), H' as (ds' & d' & ->%VNum_inj & -> & H').
    specialize (H w). rewrite (H' w) in H. by injection H as ->.
  - specialize (H w). rewrite (H' w) in H. by injection H as ->.
Qed.

(** Inversion of the evaluation of a node whose kind is known. *)
Ltac inv_eval :=
  match goal with
  | H : evaluates (Ast _ _) _ |- _ => inversion H; clear H; simplify_eq
  | H : evaluates_all [] _ |- _ => inversion H; clear H; simplify_eq
  | H : evaluates_all (_ :: _) _ |- _ => inversion H; clear H; simplify_eq
  end.

Ltac same_value :=
  match goal with
  | H : cxpr_call_bind_args ?a ?n ?p = Done _, H' : cxpr_call_bind_args ?a ?n ?p = Done _ |- _ =>
      rewrite H in H'; simplify_eq
  | IH : ∀ v', evaluates ?a v' → _ = v', H : evaluates ?a _ |- _ => apply IH in H; simplify_eq
  | IH : ∀ v', evaluates_all ?a v' → _ = v', H : evaluates_all ?a _ |- _ => apply IH in H; simplify_eq
  | H : ?b = negb ?b |- _ => destruct b; discriminate H
  | H : negb ?b = ?b |- _ => destruct b; discriminate H
  end.

Lemma evaluates_det_mutual : W →
  (∀ a v, evaluates a v → ∀ v', evaluates a v' → v = v') ∧
  (∀ args vs, evaluates_all args vs → ∀ vs', evaluates_all args vs' → vs = vs').
Proof.
  intros w. apply evaluates_mutual; intros; inv_eval; try congruence; repeat same_value; try done.
  by eapply applies_det.
Qed.

Lemma evaluates_det a v v' : W → evaluates a v → evaluates a v' → v = v'.
Proof. intros w H. by apply (proj1 (evaluates_det_mutual w)). Qed.
Lemma evaluates_all_det args vs vs' : W → evaluates_all args vs → evaluates_all args vs' → vs = vs'.
Proof. intros w H. by apply (proj2 (evaluates_det_mutual w)). Qed.

(** ** Spans and absent name arrays have no meaning *)

Lemma bind_full_names {A} (args : list A) names params :
  names_ok names (length args) →
  cxpr_call_bind_args args (full_names (length args) names) params =
  cxpr_call_bind_args args names params.
Proof.
  intros Hn. unfold full_names, names_of. destruct names as [names|]; [done|].
  rewrite !bind_args_eq. unfold bind_result. destruct (CXPR_CALL_SLOTS <? length args); [done|].
  assert (Hp : cxpr_expr_ast_named_args_present (Some (replicate (length args) None)) = false).
  { clear Hn. unfold cxpr_expr_ast_named_args_present. induction (length args) as [|n IH]; [done|exact IH]. }
  by rewrite Hp.
Qed.

Lemma bind_erased args args' names names' params ordered :
  map erase args = map erase args' → full_names (length args) names = full_names (length args') names' →
  names_ok names (length args) → names_ok names' (length args') →
  cxpr_call_bind_args args names params = Done (inl ordered) →
  ∃ ordered', cxpr_call_bind_args args' names' params = Done (inl ordered') ∧
    map erase ordered = map erase ordered'.
Proof.
  intros He Hf Hn Hn' Hb. rewrite <- bind_full_names in Hb by done.
  pose proof (bind_args_map erase args (full_names (length args) names) params) as Hm.
  change (erase <$> args) with (map erase args) in Hm. rewrite Hb, He, Hf in Hm. cbn [run_bind] in Hm.
  pose proof (bind_args_map erase args' (full_names (length args') names') params) as Hm'.
  change (erase <$> args') with (map erase args') in Hm'. rewrite Hm, bind_full_names in Hm' by done.
  destruct (cxpr_call_bind_args args' names' params) as [[o|e]| |]; try discriminate.
  cbn [run_bind] in Hm'. injection Hm' as Hm'. by exists o.
Qed.
(** The trees the lemma is about: name arrays have the length of their lists. *)
Definition names_fit (a : cxpr_expr_ast) : Prop :=
  match ast_node a with
  | CXPR_NODE_FUNCTION_CALL _ args names => names_ok names (length args)
  | _ => True
  end.

Lemma bind_forall {A} (P : A → Prop) args names params ordered :
  Forall P args → cxpr_call_bind_args args names params = Done (inl ordered) → Forall P ordered.
Proof.
  intros HP Hb.
  assert (Hs : ∃ args' : list {x | P x}, proj1_sig <$> args' = args).
  { clear Hb. induction HP as [|x l Hx _ [l0 <-]]; [by exists []|]. by exists (exist P x Hx :: l0). }
  destruct Hs as [args' <-]. rewrite bind_args_map in Hb.
  destruct (cxpr_call_bind_args args' names params) as [[o|e]| |]; try discriminate.
  cbn [run_bind] in Hb. injection Hb as <-. apply Forall_fmap. apply Forall_forall.
  intros [x Hx] _. exact Hx.
Qed.

Lemma conditional_length name l l' : length l = length l' → conditional name l = conditional name l'.
Proof. unfold conditional. by intros ->. Qed.

Lemma bind_respects args args' names names' params ordered :
  Forall (ast_all names_fit) args → Forall (ast_all names_fit) args' →
  names_ok names (length args) → names_ok names' (length args') →
  map erase args = map erase args' → names_of (length args) names = names_of (length args') names' →
  cxpr_call_bind_args args names params = Done (inl ordered) →
  ∃ ordered', cxpr_call_bind_args args' names' params = Done (inl ordered') ∧
    map erase ordered = map erase ordered' ∧
    Forall (ast_all names_fit) ordered ∧ Forall (ast_all names_fit) ordered'.
Proof.
  intros Ha Ha' Hn Hn' He Hf Hb.
  destruct (bind_erased args args' names names' params ordered He) as (o & Ho & Hoe); try done.
  { unfold full_names. by f_equal. }
  exists o. split_and!; [done|done|exact (bind_forall _ _ _ _ _ Ha Hb)|exact (bind_forall _ _ _ _ _ Ha' Ho)].
Qed.

(** The shape of a tree that is equal up to spans. *)
Ltac erased_shape b :=
  let s := fresh "s" in let d := fresh "d" in
  destruct b as [s d]; destruct d as [| | | | | | | |[]| | | | | | |];
  match goal with H : erase _ = erase _ |- _ => simpl in H; try discriminate H end.

Ltac open_nodes :=
  repeat match goal with
  | H : ast_all names_fit (Ast _ _) |- _ => apply ast_all_inv in H as [? H]; simpl in H
  | H : Forall _ (_ :: _) |- _ => apply Forall_cons in H as [? H]
  end.

Lemma erased_respects_mutual :
  (∀ a v, evaluates a v → ∀ b, ast_all names_fit a → ast_all names_fit b → erase a = erase b →
     evaluates b v) ∧
  (∀ args vs, evaluates_all args vs → ∀ args', Forall (ast_all names_fit) args →
     Forall (ast_all names_fit) args' → map erase args = map erase args' → evaluates_all args' vs).
Proof.
  apply evaluates_mutual; intros;
    try (match goal with b : cxpr_expr_ast |- _ => erased_shape b end; simplify_eq/=; open_nodes).
  all: try (econstructor; by eauto).
  - econstructor; [by eauto|]. destruct b; eauto.
  - match goal with H : cxpr_call_bind_args _ _ _ = _ |- _ =>
      destruct (bind_respects args args0 names arg_names _ _ ltac:(done) ltac:(done) ltac:(done) ltac:(done)
        ltac:(done) ltac:(done) H) as ([|c' [|x' [|y' [|]]]] & Hb & He & Hf & Hf') end; try done.
    injection He as Hc Hx Hy. apply Forall_cons in Hf as [? [? [? _]%Forall_cons]%Forall_cons],
      Hf' as [? [? [? _]%Forall_cons]%Forall_cons].
    eapply E_if; [done|done|done|by eauto|]. destruct b; eauto.
  - match goal with H : cxpr_call_bind_args _ _ _ = _ |- _ =>
      destruct (bind_respects args args0 names arg_names _ _ ltac:(done) ltac:(done) ltac:(done) ltac:(done)
        ltac:(done) ltac:(done) H) as (ordered' & Hb & He & Hf & Hf') end.
    eapply E_call; [done|done| |by eauto|done].
    erewrite conditional_length; [done|]. symmetry. by eapply map_erase_length.
  - destruct args'; [constructor|done].
  - destruct args' as [|a' args']; [done|]. simpl in *. open_nodes. simplify_eq. constructor; eauto.
Qed.

Lemma evaluates_erased a b v :
  ast_all names_fit a → ast_all names_fit b → erase a = erase b → evaluates a v → evaluates b v.
Proof. intros. by eapply (proj1 erased_respects_mutual). Qed.

(** ** The fragment *)

(** Values without fields and without the types whose arithmetic may overflow. *)
Definition basic (v : cxpr_value) : bool :=
  match v with VStruct _ | VTimestamp _ | VDuration _ => false | _ => true end.

(** A C function whose result depends on its arguments alone. *)
Record plain_entry (e : cxpr_func_entry) : Prop := {
  pl_handler : fe_handler e = None;
  pl_ast : fe_ast_func e = None;
  pl_producer : fe_struct_producer e = None;
  pl_model : fe_model_producer e = None;
  pl_defined : is_defined e = false;
  pl_fields : fe_struct_fields e = [];
  pl_params : length (cxpr_registry_entry_param_names e) ≤ CXPR_CALL_SLOTS;
  pl_native k fn :
    fe_native e = Some (k, fn) →
    fe_min_args e = native_arity k ∧ fe_max_args e = native_arity k ∧
    ∀ ds, length ds = native_arity k → ∃ d, ∀ w, call_scalar fn ds w = Done (d, w);
  pl_call :
    fe_native e = None →
    no_scalar_func e = false ∧ 1 ≤ fe_min_args e ∧
    ∀ vs, Forall (λ v, basic v = true) vs →
      ∃ v err, (∀ w, call_entry e vs w = Done (v, err, w)) ∧
        (err = error_zero ∧ basic v = true ∨ err_code err ≠ CXPR_OK)
}.

(** Nodes with a meaning above; a call may name an unknown function. *)
Definition core_node (a : cxpr_expr_ast) : Prop :=
  match ast_node a with
  | CXPR_NODE_NUMBER _ | CXPR_NODE_INT64 _ | CXPR_NODE_BOOL _ | CXPR_NODE_STRING _
  | CXPR_NODE_IDENTIFIER _ | CXPR_NODE_VARIABLE _ | CXPR_NODE_ARRAY _ | CXPR_NODE_UNARY_OP _ _
  | CXPR_NODE_BINARY_OP _ _ _ | CXPR_NODE_TERNARY _ _ _ => True
  | CXPR_NODE_FUNCTION_CALL name _ _ =>
      match registry_lookup reg name with Some e => plain_entry e | None => True end
  | _ => False
  end.

Definition core (a : cxpr_expr_ast) : Prop := ast_all core_node a ∧ ast_all node_ok a.

Lemma node_ok_names_fit a : ast_all node_ok a → ast_all names_fit a.
Proof.
  induction a as [s d IH] using ast_ind. intros [[Hs _] Hc]%ast_all_inv. constructor.
  - unfold names_fit. unfold shape_ok in Hs. simpl in *. by destruct d.
  - simpl in *. induction Hc; constructor; inversion IH; auto.
Qed.

(** *** Values stay basic *)

Hypothesis vars_basic : ∀ name v, vars name = Some v → basic v = true.
Hypothesis pars_basic : ∀ name v, pars name = Some v → basic v = true.

Lemma unary_basic op v r : unary_result op v = Some r → basic r = true.
Proof. destruct op, v; simpl; try done; repeat case_match; intros; by simplify_eq. Qed.

Definition result_basic (r : valop_result) : Prop :=
  match r with
  | Handled v => basic v = true
  | ValError code _ => code ≠ CXPR_OK
  | NotHandled => True
  end.

Lemma int64_op_basic op x y : result_basic (int64_binary_op op x y).
Proof. unfold int64_binary_op. destruct op; repeat case_match; done. Qed.

(** The typed operators are defined on basic values and give basic values. *)
Lemma valop_basic op a b :
  basic a = true → basic b = true → ∃ r, cxpr_value_binary_op op a b = Done r ∧ result_basic r.
Proof.
  intros Ha Hb. destruct a, b; try discriminate Ha; try discriminate Hb; eexists;
    (split; [reflexivity|]); try done; apply int64_op_basic.
Qed.

Lemma binary_basic op a b r :
  basic a = true → basic b = true → binary_result op a b = Some r → basic r = true.
Proof.
  intros Ha Hb.
  assert (Hv : ∀ vop, valop_value (cxpr_value_binary_op vop a b) = Some r → basic r = true).
  { intros vop. destruct (valop_basic vop a b Ha Hb) as ([] & -> & Hr); simpl; try done.
    by intros [= <-]. }
  unfold binary_result, arithmetic_result, comparison_result, equality_result.
  destruct op; try done;
    try (intros H; apply fmap_Some in H as (? & _ & ->); done);
    destruct a, b; simpl in *; try done; try (by apply Hv); repeat case_match; intros; by simplify_eq.
Qed.

Lemma applies_basic e args v :
  W → plain_entry e → Forall (λ v, basic v = true) args → applies e args v → basic v = true.
Proof.
  intros w Hp Hb [_ H]. destruct (fe_native e) as [[k fn]|] eqn:E.
  - by destruct H as (ds & d & _ & -> & _).
  - destruct (pl_call e Hp E) as (_ & _ & Hc). destruct (Hc args Hb) as (v' & err & Hcall & Ho).
    specialize (H w). rewrite (Hcall w) in H. injection H as -> ->. by destruct Ho as [[_ ?]|Ho].
Qed.

Lemma core_children a : core a → Forall core (children (ast_node a)).
Proof.
  intros [[_ Hc]%ast_all_inv [_ Hn]%ast_all_inv].
  induction Hc; constructor; inversion Hn; [by split|auto].
Qed.

Lemma core_plain s name args names e :
  core (Ast s (CXPR_NODE_FUNCTION_CALL name args names)) → registry_lookup reg name = Some e →
  plain_entry e.
Proof. intros [[Hc _]%ast_all_inv _] He. unfold core_node in Hc. simpl in Hc. by rewrite He in Hc. Qed.

Ltac core_subtrees :=
  repeat match goal with
  | H : core (Ast _ _) |- _ =>
      let Hc := fresh "Hc" in pose proof (core_children _ H) as Hc; simpl in Hc; revert H
  | H : Forall _ (_ :: _) |- _ => apply Forall_cons in H as [? H]
  end; intros.

Lemma evaluates_basic_mutual : W →
  (∀ a v, evaluates a v → core a → basic v = true) ∧
  (∀ args vs, evaluates_all args vs → Forall core args → Forall (λ v, basic v = true) vs).
Proof.
  intros w. apply evaluates_mutual; intros; core_subtrees; try done;
    eauto using unary_basic, binary_basic.
  - match goal with b : bool |- _ => destruct b end; eauto.
  - match goal with H : cxpr_call_bind_args _ _ _ = _ |- _ => apply (bind_forall core) in H; [|done] end.
    core_subtrees. match goal with b : bool |- _ => destruct b end; eauto.
  - match goal with H : cxpr_call_bind_args _ _ _ = _ |- _ => apply (bind_forall core) in H; [|done] end.
    eapply (applies_basic _ vs); eauto using core_plain.
Qed.

Lemma evaluates_basic a v : W → core a → evaluates a v → basic v = true.
Proof. intros w Hc H. by apply (proj1 (evaluates_basic_mutual w) a v). Qed.
End semantics.
