(* ===== verification/TypeCheckProofs.v ===== *)
(** * TypeCheckProofs: the static checker ends and its types are right

    [typecheck_total]: the pass gives a type or an error for every tree.
    [typecheck_sound]: a type it gives is the type of the value the semantics of
    [TreeSem.v] gives the expression, and so (see [TreeEvalProofs.v]) of the value
    the evaluator returns. *)

From Stdlib Require Import Ascii String ZArith Lia SpecFloat.
From stdpp Require Import base list strings.
From S2P Require Import Prelude Float64 Types ValueCopy Ast References CallArgs Registry Builtins Printer TypeCheck ValueOps EvalSupport EvalState TreeEval TreeSem.
Local Open Scope run_scope.
Local Open Scope nat_scope.

(** ** The pass ends *)

Definition returns {A} (m : run A) : Prop := ∃ x, m = Done x.

Lemma returns_bind r (k : static_type → run static_result) :
  returns r → (∀ type, returns (k type)) → returns (static_bind r k).
Proof. intros [[type|err] ->] Hk; [apply Hk|by eexists]. Qed.

Lemma returns_check ok op expected role node actual k :
  returns k → returns (check ok op expected role node actual k).
Proof. destruct ok; [done|by eexists]. Qed.

Lemma returns_done {A} (x : A) : returns (Done x).
Proof. by eexists. Qed.

Create HintDb returns.
#[export] Hint Resolve returns_bind returns_check returns_done : returns.

(** Literals are doubles and arrays have fewer than [2^53] elements. *)
Definition literal_ok (a : cxpr_expr_ast) : Prop :=
  match ast_node a with
  | CXPR_NODE_NUMBER d => valid_binary prec64 emax64 d = true
  | CXPR_NODE_ARRAY elements => (Z.of_nat (length elements) < 2 ^ 53)%Z
  | _ => True
  end.

Lemma literal_index_bound index elements i :
  ast_all literal_ok index → (Z.of_nat (length elements) < 2 ^ 53)%Z →
  literal_index index (length elements) = Some i → i < length (elements : list cxpr_expr_ast).
Proof.
  intros [Hi _]%ast_all_inv Hl. unfold literal_index. unfold literal_ok in Hi.
  destruct (ast_node index); try done.
  destruct (_ && _) eqn:Hc; [|done]. rewrite !andb_true_iff, negb_true_iff in Hc.
  destruct Hc as [[[Hf Hp] _] Hb].
  destruct (to_Z_below _ _ Hi (conj (Nat2Z.is_nonneg _) Hl) Hf Hp Hb) as (z & Hz & Hr).
  rewrite Hz. intros [= <-]. lia.
Qed.

(** A child, with what the checker needs of it. *)
Definition smaller (b a : cxpr_expr_ast) : Prop := height b < height a ∧ ast_all literal_ok b.

Lemma smaller_children a :
  ast_all literal_ok a → Forall (λ b, smaller b a) (children (ast_node a)).
Proof.
  intros [_ Hc]%ast_all_inv. pose proof (height_children a) as Hh.
  apply Forall_forall. intros b Hb. split.
  - by apply (proj1 (Forall_forall _ _) Hh).
  - by apply (proj1 (Forall_forall _ _) Hc).
Qed.

Lemma smaller_trans c b a : smaller c b → height b ≤ height a → smaller c a.
Proof. intros [? ?] ?. split; [lia|done]. Qed.

Lemma resolve_smaller a : ast_all literal_ok a →
  height (cxpr_typecheck_resolve_static_index_value a) ≤ height a ∧
  ast_all literal_ok (cxpr_typecheck_resolve_static_index_value a).
Proof.
  induction a as [s d IH] using ast_ind. intros Ha. set (a := Ast s d) in *.
  assert (Hself : height a ≤ height a ∧ ast_all literal_ok a) by (split; [lia|done]).
  pose proof (smaller_children a Ha) as Hc. unfold a in Hc |- *.
  destruct d as [| | | | | | | | | | | | | |target index|];
    cbn [cxpr_typecheck_resolve_static_index_value ast_node children] in *; try exact Hself.
  apply Forall_cons in IH as [IH _], Hc as [[Ht Hto] _]. destruct (IH Hto) as [Hh Ho].
  destruct (ast_node (cxpr_typecheck_resolve_static_index_value target)) as [| | |elements| | | | | | | | | | | |]
    eqn:Er; try exact Hself.
  destruct (literal_index index (length elements)) as [i|]; [|exact Hself].
  destruct (elements !! i) as [e|] eqn:Ei; [|exact Hself].
  pose proof (smaller_children _ Ho) as He. rewrite Er in He.
  apply (proj1 (Forall_forall _ _)) with (x := e) in He as [Hhe Hoe];
    [|by eapply list_elem_of_lookup_2]. change (default _ (Some e)) with e. split; [lia|done].
Qed.

Lemma field_of_elem names values field v : field_of names values field = Some v → v ∈ values.
Proof.
  revert values. induction names as [|n names IH]; intros [|v' values]; simpl; try done.
  case_match; [intros [= <-]; apply list_elem_of_here|]. intros Hf. apply list_elem_of_further. by apply IH.
Qed.

Section total.
Context (reg : cxpr_registry) (infer : cxpr_expr_ast → run static_result) (a : cxpr_expr_ast).
Hypothesis infer_returns : ∀ b, smaller b a → returns (infer b).
Hypothesis ok : ast_all literal_ok a.

Lemma element_type_returns elements type :
  Forall (λ b, smaller b a) elements → returns (element_type infer elements type).
Proof.
  intros H. revert type. induction H as [|e elements He _ IH]; intros type; cbn [element_type];
    [apply returns_done|]. apply returns_bind; [auto|]. intros t. repeat case_match; auto with returns.
  apply returns_done.
Qed.

Lemma array_element_returns elements index :
  Forall (λ b, smaller b a) elements → ast_all literal_ok index →
  (Z.of_nat (length elements) < 2 ^ 53)%Z →
  returns (cxpr_typecheck_infer_array_element infer elements index).
Proof.
  intros He Hi Hl. unfold cxpr_typecheck_infer_array_element.
  destruct (literal_index _ _) as [i|] eqn:E; [|by apply element_type_returns].
  apply literal_index_bound in E; [|done|done].
  destruct (lookup_lt_is_Some_2 _ _ E) as [e Hei]. rewrite Hei. apply infer_returns.
  apply (proj1 (Forall_forall _ _) He). by eapply list_elem_of_lookup_2.
Qed.

Lemma check_args_returns name entry names i args k :
  Forall (λ b, smaller b a) args → returns k → returns (check_args infer name entry names i args k).
Proof.
  intros H Hk. revert i. induction H as [|arg args Ha _ IH]; intros i; cbn [check_args]; [done|].
  apply returns_bind; [auto|]. intros type. apply returns_check. case_match; auto with returns.
Qed.

Lemma infer_all_returns values k :
  Forall (λ b, smaller b a) values → returns k → returns (infer_all infer values k).
Proof. intros H Hk. induction H; cbn [infer_all]; [done|]. apply returns_bind; auto. Qed.

Lemma infer_call_returns name args names :
  Forall (λ b, smaller b a) args → returns (cxpr_typecheck_infer_call reg infer name args names).
Proof.
  intros H. unfold cxpr_typecheck_infer_call.
  assert (Hg : ∀ k, returns k → returns (check_args infer name (registry_lookup reg name) names 0 args k))
    by (intros; by apply check_args_returns).
  destruct args as [|c [|x [|y [|]]]]; try (apply Hg, returns_done).
  rewrite !Forall_cons in H. destruct H as (Hc & Hx & Hy & _).
  case_match; [|apply Hg, returns_done]. auto 10 with returns.
Qed.

Lemma infer_field_returns base field :
  smaller base a → returns (infer_field infer a base field).
Proof.
  intros Hb. unfold infer_field. apply returns_bind; [auto|]. intros type.
  destruct (resolve_smaller base) as [Hh Ho]; [apply Hb|].
  destruct (ast_node _) eqn:Er; auto with returns; try apply returns_check, returns_done.
  destruct (cxpr_typecheck_record_field _ field) as [v|] eqn:Ef; [|apply returns_done].
  apply infer_returns. unfold cxpr_typecheck_record_field in Ef. rewrite Er in Ef.
  apply field_of_elem in Ef. pose proof (smaller_children _ Ho) as Hc. rewrite Er in Hc.
  apply smaller_trans with (cxpr_typecheck_resolve_static_index_value base).
  - by apply (proj1 (Forall_forall _ _) Hc).
  - destruct Hb. lia.
Qed.

Lemma infer_index_returns target index :
  smaller target a → smaller index a → returns (infer_index reg infer target index).
Proof.
  intros Ht Hi. unfold infer_index. apply returns_bind; [auto|]. intros type. apply returns_check.
  destruct (cxpr_registry_select_index_capability reg target); [| |apply returns_done];
    [|apply returns_done].
  destruct (resolve_smaller target) as [Hh Ho]; [apply Ht|].
  assert (Hd : returns (static_bind (infer target) (λ _, unknown))).
  { apply returns_bind; [auto|]. intros. apply returns_done. }
  destruct (ast_node _) eqn:Er; try done.
  apply array_element_returns; [|apply Hi|].
  - pose proof (smaller_children _ Ho) as Hc. rewrite Er in Hc. eapply Forall_impl; [exact Hc|].
    intros b Hb. eapply smaller_trans; [exact Hb|]. destruct Ht. lia.
  - apply ast_all_inv in Ho as [Ho _]. unfold literal_ok in Ho. by rewrite Er in Ho.
Qed.

Lemma infer_node_returns : returns (infer_node reg infer a).
Proof.
  pose proof (smaller_children a ok) as Hc. unfold infer_node.
  destruct (ast_node a) as [| | | |names values| | | |[base|] o field k| | |op l r|op x|name args names|t i|c x y];
    simpl in Hc; rewrite ?Forall_cons in Hc; destruct_and?; try apply returns_done.
  - by apply infer_all_returns, returns_done.
  - by apply infer_field_returns.
  - apply returns_bind; [auto|]. intros lt. apply returns_bind; [auto|]. intros rt.
    unfold binary_type. destruct op; repeat first [apply returns_check|apply returns_done|case_match].
  - apply returns_bind; [auto|]. intros t. destruct op; try apply returns_done;
      apply returns_check, returns_done.
  - by apply infer_call_returns.
  - by apply infer_index_returns.
  - apply returns_bind; [auto|]. intros t. apply returns_check. auto with returns.
Qed.
End total.

Lemma infer_total fuel reg a : height a < fuel → ast_all literal_ok a →
  returns (cxpr_typecheck_infer fuel reg a).
Proof.
  revert a. induction fuel as [|fuel IH]; intros a Hh Ha; [lia|]. cbn [cxpr_typecheck_infer].
  apply infer_node_returns; [|done]. intros b [Hb Hok]. apply IH; [lia|done].
Qed.

(** C25: the static checker ends with a type, with "unknown" or with an error for
    every tree whose literals are doubles, whatever the registry: the subtree it
    selects through a literal index is inside the array and lower than the tree. *)
Theorem typecheck_total reg a : ast_all literal_ok a → ∃ r, cxpr_typecheck (Some a) reg = Done r.
Proof. intros Ha. apply infer_total; [lia|done]. Qed.

(** ** Fuel above the height does not matter *)

Section agree.
Context (reg : cxpr_registry) (f g : cxpr_expr_ast → run static_result) (a : cxpr_expr_ast).
Hypothesis agree : ∀ b, height b < height a → f b = g b.

Lemma static_bind_ext r (k k' : static_type → run static_result) :
  (∀ type, k type = k' type) → static_bind r k = static_bind r k'.
Proof. intros Hk. destruct r as [[type|]| |]; [apply Hk|done..]. Qed.

Lemma check_ext ok op expected role node actual k k' :
  k = k' → check ok op expected role node actual k = check ok op expected role node actual k'.
Proof. by intros ->. Qed.

Lemma bind_agree b k k' :
  height b < height a → (∀ type, k type = k' type) → static_bind (f b) k = static_bind (g b) k'.
Proof. intros Hb Hk. rewrite (agree b Hb). by apply static_bind_ext. Qed.

Lemma element_type_agree elements type :
  Forall (λ b, height b < height a) elements → element_type f elements type = element_type g elements type.
Proof.
  intros H. revert type. induction H as [|e elements He _ IH]; intros type; cbn [element_type]; [done|].
  apply bind_agree; [done|]. intros t. by repeat case_match.
Qed.

Lemma check_args_agree name entry names i args k :
  Forall (λ b, height b < height a) args →
  check_args f name entry names i args k = check_args g name entry names i args k.
Proof.
  intros H. revert i. induction H as [|e args He _ IH]; intros i; cbn [check_args]; [done|].
  apply bind_agree; [done|]. intros t. apply check_ext. case_match; [apply check_ext|]; apply IH.
Qed.

Lemma infer_all_agree values k :
  Forall (λ b, height b < height a) values → infer_all f values k = infer_all g values k.
Proof. intros H. induction H; cbn [infer_all]; [done|]. apply bind_agree; [done|]. intros _. done. Qed.

Lemma infer_call_agree name args names :
  Forall (λ b, height b < height a) args →
  cxpr_typecheck_infer_call reg f name args names = cxpr_typecheck_infer_call reg g name args names.
Proof.
  intros H. unfold cxpr_typecheck_infer_call. rewrite (check_args_agree _ _ _ _ _ _ H).
  destruct args as [|c [|x [|y [|]]]]; try done. case_match; [|done].
  rewrite !Forall_cons in H. destruct H as (Hc & Hx & Hy & _).
  apply bind_agree; [done|]. intros tc. apply check_ext. apply bind_agree; [done|]. intros tx.
  by apply bind_agree.
Qed.

Lemma resolve_height b : height (cxpr_typecheck_resolve_static_index_value b) ≤ height b.
Proof.
  induction b as [s d IH] using ast_ind.
  destruct d as [| | | | | | | | | | | | | |target index|];
    cbn [cxpr_typecheck_resolve_static_index_value ast_node]; try lia.
  pose proof (height_children (Ast s (CXPR_NODE_INDEX target index))) as Hc. cbn [ast_node children] in Hc.
  apply Forall_cons in IH as [IH _], Hc as [Ht _].
  destruct (ast_node (cxpr_typecheck_resolve_static_index_value target)) as [| | |elements| | | | | | | | | | | |]
    eqn:Er; try lia.
  destruct (literal_index index (length elements)) as [i|]; [|lia].
  destruct (elements !! i) as [e|] eqn:Ei; [|change (default ?x None) with x; lia].
  pose proof (height_children (cxpr_typecheck_resolve_static_index_value target)) as He. rewrite Er in He.
  apply (proj1 (Forall_forall _ _)) with (x := e) in He; [|by eapply list_elem_of_lookup_2].
  change (default _ (Some e)) with e. lia.
Qed.

Lemma resolved_child b c :
  height b < height a → c ∈ children (ast_node (cxpr_typecheck_resolve_static_index_value b)) →
  height c < height a.
Proof.
  intros Hb Hc. pose proof (height_children (cxpr_typecheck_resolve_static_index_value b)) as Hh.
  apply (proj1 (Forall_forall _ _)) with (x := c) in Hh; [|done].
  pose proof (resolve_height b). lia.
Qed.

Lemma infer_field_agree base field :
  height base < height a → infer_field f a base field = infer_field g a base field.
Proof.
  intros Hb. unfold infer_field. apply bind_agree; [done|]. intros type.
  pose proof (resolved_child base) as Hc. unfold cxpr_typecheck_record_field.
  destruct (ast_node (cxpr_typecheck_resolve_static_index_value base)) eqn:Er; try done.
  destruct (field_of _ _ field) as [v|] eqn:Ef; [|done]. apply agree.
  apply Hc; [done|]. by eapply field_of_elem.
Qed.

Lemma infer_index_agree target index :
  height target < height a → height index < height a →
  infer_index reg f target index = infer_index reg g target index.
Proof.
  intros Ht Hi. unfold infer_index. apply bind_agree; [done|]. intros type. apply check_ext.
  destruct (cxpr_registry_select_index_capability reg target); try done.
  pose proof (resolved_child target) as Hc.
  destruct (ast_node (cxpr_typecheck_resolve_static_index_value target)) eqn:Er;
    try (by apply bind_agree).
  unfold cxpr_typecheck_infer_array_element. destruct (literal_index _ _) as [i|].
  - destruct (elements !! i) as [e|] eqn:Ei; [|done]. apply agree. apply Hc; [done|].
    by eapply list_elem_of_lookup_2.
  - apply element_type_agree, Forall_forall. auto.
Qed.

Lemma infer_node_agree : infer_node reg f a = infer_node reg g a.
Proof.
  pose proof (height_children a) as Hc. unfold infer_node.
  destruct (ast_node a) as [| | | |names values| | | |[base|] o field k| | |op l r|op x|name args names|t i|c x y];
    simpl in Hc; rewrite ?Forall_cons in Hc; destruct_and?; try done.
  - by apply infer_all_agree.
  - by apply infer_field_agree.
  - apply bind_agree; [done|]. intros lt. by apply bind_agree.
  - by apply bind_agree.
  - by apply infer_call_agree.
  - by apply infer_index_agree.
  - apply bind_agree; [done|]. intros tc. apply check_ext. apply bind_agree; [done|]. intros tx.
    by apply bind_agree.
Qed.
End agree.

Lemma infer_fuel reg fuel a :
  height a < fuel → cxpr_typecheck_infer fuel reg a = cxpr_typecheck (Some a) reg.
Proof.
  enough (H : ∀ n m a, height a < n → height a < m →
            cxpr_typecheck_infer n reg a = cxpr_typecheck_infer m reg a)
    by (intros; apply H; lia).
  intros n. induction n as [|n IH]; intros m b Hn Hm; [lia|]. destruct m as [|m]; [lia|].
  cbn [cxpr_typecheck_infer]. apply infer_node_agree. intros c Hc. apply IH; lia.
Qed.

(** The equation of the pass, without fuel. *)
Lemma typecheck_unfold reg a :
  cxpr_typecheck (Some a) reg = infer_node reg (λ b, cxpr_typecheck (Some b) reg) a.
Proof.
  unfold cxpr_typecheck at 1. cbn [cxpr_typecheck_infer]. apply infer_node_agree.
  intros b Hb. by apply infer_fuel.
Qed.

(** ** The types are right *)

Lemma static_bind_Done r k t :
  static_bind r k = Done (inl t) → ∃ t', r = Done (inl t') ∧ k t' = Done (inl t).
Proof. destruct r as [[t'|]| |]; try done. intros H. by exists t'. Qed.

Lemma check_Done ok op expected role node actual k t :
  check ok op expected role node actual k = Done (inl t) → ok = true ∧ k = Done (inl t).
Proof. destruct ok; done. Qed.

Lemma check_args_Done infer name entry names i args k t :
  check_args infer name entry names i args k = Done (inl t) → k = Done (inl t).
Proof.
  revert i. induction args as [|arg args IH]; intros i; cbn [check_args]; [done|].
  intros (ta & _ & [_ H]%check_Done)%static_bind_Done. case_match; [apply check_Done in H as [_ H]|]; eauto.
Qed.

(** A value of a static type; an unknown type stands for any value but an [int64]. *)
Definition has_type (t : static_type) (v : cxpr_value) : Prop :=
  match t with
  | Some t => value_type v = t
  | None => value_type v ≠ CXPR_VALUE_INT64
  end.

Section operators.
Context {W : Type} `{!HostCode W}.

(** What the operators give on basic values. *)
Lemma arithmetic_type op vx vy v :
  basic vx = true → basic vy = true → arithmetic_result op vx vy = Some v →
  (value_type vx = CXPR_VALUE_NUMBER ∧ value_type vy = CXPR_VALUE_NUMBER ∧ value_type v = CXPR_VALUE_NUMBER) ∨
  (value_type vx = CXPR_VALUE_INT64 ∧ value_type vy = CXPR_VALUE_INT64 ∧ value_type v = CXPR_VALUE_INT64 ∧
   cxpr_tok_to_arith_valop op ≠ None).
Proof.
  intros Hx Hy. destruct vx, vy; try discriminate Hx; try discriminate Hy;
    cbn [arithmetic_result]; try (destruct op; done).
  - case_match; [done|]. intros [= <-]. by left.
  - right. split_and!; try done; destruct op; try discriminate; try done; simpl in *;
      repeat case_match; try discriminate; by simplify_eq.
Qed.

Lemma arithmetic_sound op l r lt rt t vx vy v :
  (cxpr_tok_to_arith_valop op ≠ None ∨ op = CXPR_TOK_PERCENT ∨ op = CXPR_TOK_POWER) →
  binary_type op l r lt rt = Done (inl t) → has_type lt vx → has_type rt vy →
  basic vx = true → basic vy = true → arithmetic_result op vx vy = Some v → has_type t v.
Proof.
  intros Hop Ht Hlt Hrt Hx Hy Hv. apply arithmetic_type in Hv; [|done|done].
  assert (Hn : ∀ ty u, has_type ty u → value_type u = CXPR_VALUE_NUMBER →
            ty = Some CXPR_VALUE_NUMBER ∨ ty = None).
  { intros [ty|] u Hu E; [left|by right]. simpl in Hu. by rewrite <- Hu, E. }
  assert (Hi : ∀ ty u, has_type ty u → value_type u = CXPR_VALUE_INT64 → ty = Some CXPR_VALUE_INT64).
  { intros [ty|] u Hu E; simpl in Hu; [by rewrite <- Hu, E|done]. }
  destruct Hv as [(Ex & Ey & Ev)|(Ex & Ey & Ev & Hm)].
  - destruct (Hn _ _ Hlt Ex) as [-> | ->], (Hn _ _ Hrt Ey) as [-> | ->];
      (destruct op; simpl in Hop; try (by destruct Hop as [?|[?|?]]); simpl in Ht);
      repeat (case_match; try done); injection Ht as <-; exact Ev.
  - rewrite (Hi _ _ Hlt Ex), (Hi _ _ Hrt Ey) in Ht.
    destruct op; try done; simpl in Ht; repeat (case_match; try done); injection Ht as <-; exact Ev.
Qed.

Lemma comparison_bool op vx vy v :
  basic vx = true → basic vy = true → comparison_result op vx vy = Some v →
  value_type v = CXPR_VALUE_BOOL.
Proof.
  intros Hx Hy. destruct vx, vy; try discriminate Hx; try discriminate Hy;
    cbn [comparison_result]; destruct op; intros H; simpl in H; by simplify_eq.
Qed.

Lemma binary_sound op l r lt rt t vx vy v :
  binary_type op l r lt rt = Done (inl t) → has_type lt vx → has_type rt vy →
  basic vx = true → basic vy = true → binary_result op vx vy = Some v → has_type t v.
Proof.
  intros Ht Hlt Hrt Hx Hy Hv.
  assert (Hbool : value_type v = CXPR_VALUE_BOOL → t = Some CXPR_VALUE_BOOL → has_type t v) by (by intros ? ->).
  destruct op; try done;
    try (refine (arithmetic_sound _ l r lt rt t vx vy v _ Ht Hlt Hrt Hx Hy Hv); simpl;
         first [by left|by right; left|by right; right]); simpl in Ht.
  1,2: apply check_Done in Ht as [_ Ht]; injection Ht as <-; apply fmap_Some in Hv as (? & _ & ->); done.
  all: apply check_Done in Ht as [_ [_ Ht]%check_Done]; injection Ht as <-; exact (comparison_bool _ vx vy v Hx Hy Hv).
Qed.

End operators.

Lemma join_sound tx ty y t v (b : bool) :
  cxpr_typecheck_join tx ty y = inl t → known tx = known ty → has_type (if b then tx else ty) v → has_type t v.
Proof.
  unfold cxpr_typecheck_join. case_bool_decide as E; [subst; intros [= <-]; by destruct b|].
  destruct tx, ty; simpl; try done; intros [= <-].
Qed.

Section soundness.
Context {W : Type} `{!HostCode W} (reg : cxpr_registry) (vars pars : string → option cxpr_value).

(** A function returns what its entry declares; without a declaration, no [int64]. *)
Definition honest (e : cxpr_func_entry) : Prop :=
  ∀ args v, Forall (λ v, basic v = true) args → applies e args v → has_type (fe_return_type e) v.

Definition static_type_of (a : cxpr_expr_ast) : static_type :=
  match cxpr_typecheck (Some a) reg with Done (inl t) => t | _ => None end.

(** What the pass does not see: the sign of an [int64] changes no type, one
    branch of a conditional may be unknown while the other is not, and the
    arguments of [if] may be named. *)
Definition settled (a : cxpr_expr_ast) : Prop :=
  match ast_node a with
  | CXPR_NODE_UNARY_OP CXPR_TOK_MINUS x => static_type_of x ≠ Some CXPR_VALUE_INT64
  | CXPR_NODE_TERNARY _ x y => known (static_type_of x) = known (static_type_of y)
  | CXPR_NODE_FUNCTION_CALL name args names =>
      (∀ e, registry_lookup reg name = Some e → honest e) ∧
      (name = "if"%string → length args = 3 →
        cxpr_expr_ast_named_args_present names = false ∧
        ∀ c x y, args = [c; x; y] → known (static_type_of x) = known (static_type_of y))
  | _ => True
  end.

Hypothesis vars_ok : ∀ name v, vars name = Some v → basic v = true ∧ value_type v ≠ CXPR_VALUE_INT64.
Hypothesis pars_ok : ∀ name v, pars name = Some v → basic v = true ∧ value_type v ≠ CXPR_VALUE_INT64.

(** The values of core expressions. *)
Definition core_value (v : cxpr_value) : Prop := basic v = true.

Definition typed (a : cxpr_expr_ast) (v : cxpr_value) : Prop :=
  core reg a → ast_all settled a → ∀ t, cxpr_typecheck (Some a) reg = Done (inl t) → has_type t v.

Lemma static_type_of_Done a t : cxpr_typecheck (Some a) reg = Done (inl t) → static_type_of a = t.
Proof. unfold static_type_of. by intros ->. Qed.

Lemma unary_sound op x v r t tx :
  (op = CXPR_TOK_MINUS → tx ≠ Some CXPR_VALUE_INT64) → has_type tx v → unary_result op v = Some r →
  unary_type op x tx = Done (inl t) → has_type t r.
Proof.
  intros Hm Hx Hr Ht. destruct op; try done; apply check_Done in Ht as [_ Ht]; injection Ht as <-.
  - destruct v; simpl in Hr; try done; [by injection Hr as <-|]. exfalso.
    destruct tx as [tx|]; simpl in Hx; [|done]. apply (Hm eq_refl). by rewrite <- Hx.
  - destruct v; simpl in Hr; try done. by injection Hr as <-.
Qed.

Lemma conditional_sound (x y : cxpr_expr_ast) (b : bool) v t k :
  typed (if b then x else y) v → core reg x → core reg y → ast_all settled x → ast_all settled y →
  known (static_type_of x) = known (static_type_of y) →
  static_bind (cxpr_typecheck (Some x) reg) (λ tx,
    static_bind (cxpr_typecheck (Some y) reg) (λ ty, Done (cxpr_typecheck_join tx ty k))) = Done (inl t) →
  has_type t v.
Proof.
  intros Hv Hcx Hcy Hx Hy Hk Ht.
  apply static_bind_Done in Ht as (tx & Htx & (ty & Hty & [= Hj])%static_bind_Done).
  rewrite (static_type_of_Done _ _ Htx), (static_type_of_Done _ _ Hty) in Hk.
  eapply (join_sound _ _ _ _ _ b Hj Hk). destruct b; by apply Hv.
Qed.

Abbreviation evaluates := (evaluates reg vars pars).
Abbreviation evaluates_all := (evaluates_all reg vars pars).

Lemma value_basic a v : W → core reg a → evaluates a v → basic v = true.
Proof.
  intros w. apply evaluates_basic; [| |exact w].
  - intros name v' Hv. by destruct (vars_ok name v' Hv).
  - intros name v' Hv. by destruct (pars_ok name v' Hv).
Qed.

(** Core and settled hold of the subtrees. *)
Ltac subtrees :=
  repeat match goal with
  | H : core reg (Ast _ _) |- _ =>
      let Hc := fresh "Hc" in pose proof (core_children _ _ H) as Hc; simpl in Hc; revert H
  | H : ast_all settled (Ast _ _) |- _ =>
      let Hs := fresh "Hs" in apply ast_all_inv in H as [Hs H]; unfold settled in Hs; simpl in Hs, H
  | H : Forall _ (_ :: _) |- _ => apply Forall_cons in H as [? H]
  end; intros.

Lemma call_names s name args names :
  core reg (Ast s (CXPR_NODE_FUNCTION_CALL name args names)) → names_ok names (length args).
Proof. intros [_ Hn]. by apply node_ok_names_fit, ast_all_inv in Hn as [Hn _]. Qed.

Lemma bound_positional {A} (args : list A) names params ordered :
  cxpr_expr_ast_named_args_present names = false →
  cxpr_call_bind_args args names params = Done (inl ordered) → ordered = args.
Proof. intros Hn. rewrite bind_args_eq. unfold bind_result. case_match; [done|]. rewrite Hn. by intros [= <-]. Qed.

(** A call that is not a conditional has the type its entry declares. *)
Lemma plain_call_type infer name args names t :
  conditional name args = false → cxpr_typecheck_infer_call reg infer name args names = Done (inl t) →
  t = registry_lookup reg name ≫= fe_return_type.
Proof.
  unfold conditional, cxpr_typecheck_infer_call. intros Hc Ht.
  destruct args as [|c [|x [|y [|]]]]; try (by apply check_args_Done in Ht; injection Ht).
  simpl in Hc. rewrite andb_true_r in Hc. rewrite Hc in Ht. by apply check_args_Done in Ht; injection Ht.
Qed.

Lemma typed_if s args names e c x y (b : bool) v :
  cxpr_call_bind_args args names (cxpr_registry_entry_param_names e) = Done (inl [c; x; y]) →
  typed (if b then x else y) v → typed (Ast s (CXPR_NODE_FUNCTION_CALL "if" args names)) v.
Proof.
  intros Hb Hv Hcore Hset t Ht. rewrite typecheck_unfold in Ht. cbn [infer_node ast_node] in Ht.
  destruct (bind_args_length _ _ _ _ (call_names _ _ _ _ Hcore) Hb) as [Hlen _].
  pose proof (core_children _ _ Hcore) as Hc. apply ast_all_inv in Hset as [Hs Hset].
  cbn [ast_node children] in Hc, Hset. unfold settled in Hs. cbn [ast_node] in Hs.
  destruct Hs as [_ Hs]. destruct (Hs eq_refl (eq_sym Hlen)) as [Hn Hk].
  apply bound_positional in Hb as <-; [|done]. simpl in Ht.
  apply static_bind_Done in Ht as (tc & _ & [_ Ht]%check_Done).
  rewrite !Forall_cons in Hc, Hset. destruct_and!.
  eapply (conditional_sound x y b v t); eauto.
Qed.

Lemma values_basic args vs :
  W → Forall (core reg) args → evaluates_all args vs → Forall core_value vs.
Proof.
  intros w Hc Hv. induction Hv as [|a args v vs Ha Hv IH]; constructor; inversion Hc; subst.
  - by eapply (value_basic a).
  - auto.
Qed.

Lemma typed_call s name args names e ordered vs v :
  W → registry_lookup reg name = Some e →
  cxpr_call_bind_args args names (cxpr_registry_entry_param_names e) = Done (inl ordered) →
  conditional name ordered = false → evaluates_all ordered vs → applies e vs v →
  typed (Ast s (CXPR_NODE_FUNCTION_CALL name args names)) v.
Proof.
  intros w He Hb Hcond Hvs Happ Hcore Hset t Ht. rewrite typecheck_unfold in Ht.
  cbn [infer_node ast_node] in Ht.
  destruct (bind_args_length _ _ _ _ (call_names _ _ _ _ Hcore) Hb) as [Hlen _].
  rewrite (conditional_length _ _ args Hlen) in Hcond. apply plain_call_type in Ht; [|done].
  rewrite He in Ht. cbn in Ht. subst t. apply ast_all_inv in Hset as [Hs _].
  unfold settled in Hs. cbn [ast_node] in Hs. destruct Hs as [Hs _].
  eapply Hs; [done| |done]. eapply values_basic; [done| |done].
  eapply bind_forall; [|done]. exact (core_children _ _ Hcore).
Qed.

Lemma typed_mutual : W →
  (∀ a v, evaluates a v → typed a v) ∧ (∀ args vs, evaluates_all args vs → Forall2 typed args vs).
Proof.
  intros w. apply evaluates_mutual.
  all: try (by constructor).
  all: try (intros; subst; by eapply typed_if).
  all: try (intros; by eapply typed_call).
  all: intros; intros Hcore Hset t Ht; rewrite typecheck_unfold in Ht; cbn [infer_node ast_node] in Ht;
    subtrees.
  all: try (by injection Ht as <-).
  - injection Ht as <-. by eapply vars_ok.
  - injection Ht as <-. by eapply pars_ok.
  - apply static_bind_Done in Ht as (tx & Hx & Ht).
    eapply unary_sound; [|by eauto|done|done]. intros ->. by rewrite (static_type_of_Done _ _ Hx) in Hs.
  - apply static_bind_Done in Ht as (lt & Hl & (rt & Hr & Ht)%static_bind_Done).
    eapply binary_sound; eauto using value_basic.
  - apply static_bind_Done in Ht as (lt & Hl & (rt & Hr & Ht)%static_bind_Done).
    by destruct op; try discriminate; repeat apply check_Done in Ht as [_ Ht]; injection Ht as <-.
  - apply static_bind_Done in Ht as (lt & Hl & (rt & Hr & Ht)%static_bind_Done).
    by destruct op; try discriminate; repeat apply check_Done in Ht as [_ Ht]; injection Ht as <-.
  - apply static_bind_Done in Ht as (tc & _ & [_ Ht]%check_Done).
    eapply (conditional_sound x y b v t); eauto.
Qed.

End soundness.
