(* ===== verification/TreeEvalProofs.v ===== *)
(** * TreeEvalProofs: the tree evaluator computes the value of an expression

    On the fragment of [TreeSem.v] the evaluator of [TreeEval.v] ends, and it
    succeeds with a value exactly when that is the value of the expression; the
    memo table, the caches of the context and the error record of the source do
    not show. *)

From Stdlib Require Import Ascii String ZArith Lia.
From stdpp Require Import base list strings.
From S2P Require Import Prelude Float64 Types ValueCopy Ast References CallArgs Registry Builtins Parser ParserProofs EvalSupport EvalSupportProofs ValueOps EvalState TreeEval TreeSem.
Local Open Scope run_scope.
Local Open Scope eval_scope.
Local Open Scope nat_scope.

(** ** What the evaluator relies on

    [ctx_rep ctx vars pars]: the context binds the names as [vars] and the
    parameters as [pars]; looking a name up keeps that. *)
Class EvalContextLaws (L : Type) `{!EvalContext L} : Type := {
  ctx_rep : list L → (string → option cxpr_value) → (string → option cxpr_value) → Prop;
  rep_get_typed ctx vars pars name :
    ctx_rep ctx vars pars →
    ∃ r ctx', ctx_get_typed ctx name = Done (r, ctx') ∧ fst <$> r = vars name ∧
      ctx_rep ctx' vars pars;
  rep_get_param_typed ctx vars pars name :
    ctx_rep ctx vars pars →
    ∃ r ctx', ctx_get_param_typed ctx name = Done (r, ctx') ∧ fst <$> r = pars name ∧
      ctx_rep ctx' vars pars
}.

Section correctness.
Context {L W : Type} `{!EvalContext L} `{!EvalContextLaws L} `{!HostCode W} `{!HexFormat} `{!EvalHost L W}.
Context (reg : cxpr_registry) (vars pars : string → option cxpr_value).
Hypothesis vars_basic : ∀ name v, vars name = Some v → basic v = true.
Hypothesis pars_basic : ∀ name v, pars name = Some v → basic v = true.

Abbreviation evaluates := (evaluates reg vars pars).
Abbreviation evaluates_all := (evaluates_all reg vars pars).
Implicit Types s : est L W.

(** ** States *)

Definition ok s : Prop := err_code (es_err s) = CXPR_OK.

#[local] Instance ok_dec s : Decision (ok s) := _.

(** Every memo entry is the value of its tree. *)
Definition entry_good (en : cxpr_eval_memo_entry) : Prop :=
  me_tree en = caller_tree ∧ ast_all node_ok (me_ast en) ∧ evaluates (me_ast en) (me_value en).

Abbreviation memo_of s := (hd memo_empty (es_memos s)).

Record good s : Prop := {
  good_ctx : ctx_rep (es_ctx s) vars pars;
  good_live : live s caller_tree = true;
  good_memo : Forall entry_good (memo_entries (memo_of s))
}.

(** What an evaluation leaves alone. *)
Definition frame s s' : Prop :=
  es_world s' = es_world s ∧ es_offset s' = es_offset s ∧ es_freed s' = es_freed s ∧
  tail (es_memos s') = tail (es_memos s) ∧ memo_depth (memo_of s') = memo_depth (memo_of s) ∧
  es_next s' = es_next s.

Lemma frame_trans s1 s2 s3 : frame s1 s2 → frame s2 s3 → frame s1 s3.
Proof. unfold frame. intuition congruence. Qed.

(** [computes s m P N]: [m] ends in a good state.  From a state without an error it
    ends without one and its result satisfies [P], or it reports an error and [N]
    holds; an error that is already there stays one. *)
Definition computes {A} s (m : M L W A) (P : A → Prop) (N : Prop) : Prop :=
  ∃ x s', m s = Done (x, s') ∧ good s' ∧ frame s s' ∧
    (¬ ok s → ¬ ok s') ∧ (ok s → ok s' ∧ P x ∨ ¬ ok s' ∧ N).

Section rules.
Context {A B : Type}.
Implicit Types (P : A → Prop) (Q : B → Prop) (N : Prop).

Lemma computes_ret s (x : A) P N : good s → (ok s → P x) → computes s (ret x) P N.
Proof. intros Hg HP. exists x, s. split_and!; auto. done. Qed.

Lemma computes_weaken s (m : M L W A) P P' N N' :
  computes s m P N → (∀ x, P x → P' x) → (N → N') → computes s m P' N'.
Proof. intros (x & s' & Hm & Hg & Hf & Hn & Ho) HP HN. exists x, s'. split_and!; naive_solver. Qed.

(** Sequencing: the rest starts with a value, or in a state with an error. *)
Lemma computes_bind s (m : M L W A) (k : A → M L W B) P Q N N' :
  computes s m P N →
  (∀ x s', good s' → frame s s' → (ok s' → ok s ∧ P x) → computes s' (k x) Q N') →
  (N → N') → computes s (bind m k) Q N'.
Proof.
  intros (x & s1 & Hm & Hg & Hf & Hbad & Hok) Hk HN.
  destruct (Hk x s1 Hg Hf) as (y & s2 & Hy & Hg2 & Hf2 & Hbad2 & Hok2).
  { intros Ho. destruct (decide (ok s)); naive_solver. }
  exists y, s2. unfold bind. rewrite Hm. cbn [run_bind]. split_and!; try done.
  - by eapply frame_trans.
  - naive_solver.
  - naive_solver.
Qed.

(** The usual sequence of the source: stop at an error. *)
Lemma computes_unless s (m : M L W A) (y : A → B) (k : A → M L W B) P Q N N' :
  computes s m P N →
  (∀ x s', good s' → frame s s' → ok s' → P x → computes s' (k x) Q N') →
  (N → N') → computes s (let! x := m in unless_failing (y x) (k x)) Q N'.
Proof.
  intros Hm Hk HN. eapply computes_bind; [exact Hm| |exact HN].
  intros x s' Hg Hf Hx. unfold unless_failing, failing, bind, get_err, ret. unfold computes. cbn [run_bind].
  destruct (decide (ok s')) as [Ho|Ho].
  - rewrite bool_decide_true by done. apply Hk; naive_solver.
  - rewrite bool_decide_false by done. exists (y x), s'. split_and!; done.
Qed.
End rules.

Lemma good_put_err s e : good s → good (put_err e s).
Proof. by intros [? ? ?]. Qed.

Lemma computes_put_error {A} s code message (x : A) P (N : Prop) :
  good s → code ≠ CXPR_OK → (ok s → N) → computes s (put_error code message ;; ret x) P N.
Proof.
  intros Hg Hc HN. eexists x, _. split_and!; [reflexivity|by apply good_put_err|done|done|auto].
Qed.

Lemma computes_error s code message (P : res → Prop) (N : Prop) :
  good s → code ≠ CXPR_OK → (ok s → N) → computes s (cxpr_eval_error code message) P N.
Proof. apply computes_put_error. Qed.

(** [no_value a], [no_values args]: the evaluation is an error. *)
Definition no_value (a : cxpr_expr_ast) : Prop := ∀ v, ¬ evaluates a v.
Definition no_values (args : list cxpr_expr_ast) : Prop := ∀ vs, ¬ evaluates_all args vs.

Lemma no_values_head a args : no_value a → no_values (a :: args).
Proof. intros Ha vs Hv. inversion Hv; subst. by eapply Ha. Qed.
Lemma no_values_tail a args : no_values args → no_values (a :: args).
Proof. intros Ha vs Hv. inversion Hv; subst. by eapply Ha. Qed.

Lemma evaluates_all_length args vs : evaluates_all args vs → length vs = length args.
Proof. revert vs. induction args as [|a args IH]; intros vs Hv; inversion Hv; subst; simpl; auto. Qed.

(** ** Operators *)

(** A value operation succeeds exactly when its result is defined. *)
Definition outcome s (m : M L W res) (r : option cxpr_value) : Prop :=
  computes s m (λ x, r = Some (fst x)) (r = None).

Lemma outcome_valop s op a b message :
  good s → basic a = true → basic b = true →
  outcome s (let! r := lift (cxpr_value_binary_op op a b) in
             valop_outcome r (cxpr_eval_error CXPR_ERR_TYPE_MISMATCH message))
    (valop_value (cxpr_value_binary_op op a b)).
Proof.
  intros Hg Ha Hb. destruct (valop_basic op a b Ha Hb) as (r & Hr & Hb').
  unfold outcome, computes, lift, bind. rewrite Hr. cbn [run_bind].
  destruct r as [v| |code m]; simpl.
  - by apply computes_ret.
  - by apply computes_error.
  - by apply computes_error.
Qed.

Ltac op_case := first [by apply computes_ret|by apply computes_error].

Lemma outcome_arithmetic s op a b :
  good s → basic a = true → basic b = true →
  outcome s (cxpr_eval_arithmetic_op op a b) (arithmetic_result op a b).
Proof.
  intros Hg Ha Hb.
  assert (Hv : outcome s
    (let mismatch := cxpr_eval_error CXPR_ERR_TYPE_MISMATCH "Arithmetic requires double operands" in
     match cxpr_tok_to_arith_valop op with
     | Some vop => let! r := lift (cxpr_value_binary_op vop a b) in valop_outcome r mismatch
     | None => mismatch
     end)
    (match cxpr_tok_to_arith_valop op with
     | Some vop => valop_value (cxpr_value_binary_op vop a b)
     | None => None
     end)).
  { destruct (cxpr_tok_to_arith_valop op); [by apply outcome_valop|op_case]. }
  unfold cxpr_eval_arithmetic_op, arithmetic_result.
  destruct a as [x| | | | | | | |]; try exact Hv. destruct b as [y| | | | | | | |]; try exact Hv.
  unfold outcome. destruct (divides op && feqb y fzero); op_case.
Qed.

Lemma outcome_comparison s op a b :
  good s → basic a = true → basic b = true →
  outcome s (cxpr_eval_comparison_op op a b) (comparison_result op a b).
Proof.
  intros Hg Ha Hb.
  pose proof (outcome_valop s (comparison_valop op) a b "Comparison requires double operands" Hg Ha Hb) as Hv.
  unfold cxpr_eval_comparison_op, comparison_result.
  destruct a as [x| | | | | | | |]; try exact Hv. destruct b as [y| | | | | | | |]; try exact Hv.
  unfold outcome. op_case.
Qed.

Lemma outcome_binary s op a b :
  good s → basic a = true → basic b = true →
  outcome s (cxpr_eval_binary_values op a b) (binary_result op a b).
Proof.
  intros Hg Ha Hb. unfold cxpr_eval_binary_values, binary_result.
  destruct op; try (by apply outcome_arithmetic); try (by apply outcome_comparison); unfold outcome;
    try op_case; unfold cxpr_eval_equality_op, equality_result;
    destruct (cxpr_eval_values_equal a b); op_case.
Qed.

Lemma outcome_unary s op v : good s → outcome s (unary_value op v) (unary_result op v).
Proof.
  intros Hg. unfold outcome, unary_value, unary_result.
  destruct op; try (destruct v; op_case); destruct v; try op_case. case_match; op_case.
Qed.

(** ** Nodes, with [rec] for the nested evaluations *)

Definition evaluated s (m : M L W res) (a : cxpr_expr_ast) : Prop :=
  computes s m (λ r, evaluates a (fst r)) (no_value a).

Section nodes.
Context (n : nat) (rec : nat → cxpr_expr_ast → M L W res).
Hypothesis rec_ok : ∀ s a, good s → core reg a → height a < n → evaluated s (rec caller_tree a) a.

Abbreviation small a := (core reg a ∧ height a < n).

Lemma rec_small s a : good s → small a → evaluated s (rec caller_tree a) a.
Proof. intros Hg [? ?]. by apply rec_ok. Qed.

Lemma det a v v' : W → evaluates a v → evaluates a v' → v = v'.
Proof. apply evaluates_det. Qed.

Lemma small_basic a v : W → small a → evaluates a v → basic v = true.
Proof. intros w [Hc _]. by apply (evaluates_basic reg vars pars). Qed.

(** A nested evaluation, then an operation on its value. *)
Lemma computes_rec {B} s a (y : B) (k : res → M L W B) Q (N : Prop) :
  good s → small a →
  (∀ r s', good s' → frame s s' → ok s' → evaluates a (fst r) → computes s' (k r) Q N) →
  (no_value a → N) →
  computes s (let! r := rec caller_tree a in unless_failing y (k r)) Q N.
Proof. intros Hg Hs Hk HN. by apply (computes_unless s _ (λ _, y) _ _ _ _ _ (rec_small s a Hg Hs)). Qed.

(** Values of the same tree are the same. *)
Ltac unify_values :=
  repeat match goal with
  | s : est L W, H : TreeSem.evaluates _ _ _ ?a ?v, H' : TreeSem.evaluates _ _ _ ?a ?v' |- _ =>
      lazymatch v with v' => fail | _ => idtac end;
      pose proof (det a v v' (es_world s) H H'); clear H'; simplify_eq
  end.

(** The same call binds the same arguments. *)
Ltac same_call :=
  repeat match goal with
  | H : registry_lookup ?r ?f = Some _, H' : registry_lookup ?r ?f = Some _ |- _ =>
      rewrite H in H'; simplify_eq
  | H : cxpr_call_bind_args ?a ?n ?p = Done _, H' : cxpr_call_bind_args ?a ?n ?p = Done _ |- _ =>
      rewrite H in H'; simplify_eq
  end.

(** The node has no value: none of its rules applies. *)
Ltac refute :=
  let v := fresh "v" in let Hv := fresh "Hv" in
  intros v Hv; inversion Hv; clear Hv; simplify_eq; same_call; unify_values;
  first [done|congruence|match goal with
         | H : no_value ?a, H' : TreeSem.evaluates _ _ _ ?a _ |- _ => exact (H _ H')
         | H : ?b = negb ?b |- _ => by destruct b
         | H : negb ?b = ?b |- _ => by destruct b end].

Lemma eval_unary s sp op x :
  good s → small x →
  evaluated s (cxpr_eval_unary_op rec caller_tree op x) (Ast sp (CXPR_NODE_UNARY_OP op x)).
Proof.
  intros Hg Hx. apply computes_rec; [done|done| |intros ?; refute].
  intros r s' Hg' _ _ Hr. eapply computes_weaken; [by apply outcome_unary| |].
  - intros r' Hv. by econstructor.
  - intros Hnone. refute.
Qed.

Lemma eval_require_bool s v (k : bool → M L W res) Q (N : Prop) :
  good s → (∀ b, v = VBool b → computes s (k b) Q N) → ((∀ b, v ≠ VBool b) → N) →
  computes s (require_bool v k) Q N.
Proof. intros Hg Hk HN. destruct v; simpl; try (apply computes_error; auto); by apply Hk. Qed.

Lemma eval_logical s sp op x y (vx : cxpr_value) :
  good s → logical op = true → small y → evaluates x vx →
  evaluated s
    (require_bool vx (λ b,
       if Bool.eqb b (match op with CXPR_TOK_OR => true | _ => false end) then ret (owned (VBool b))
       else let! r := rec caller_tree y in
            unless_failing nan_res (require_bool (fst r) (λ b, ret (owned (VBool b))))))
    (Ast sp (CXPR_NODE_BINARY_OP op x y)).
Proof.
  intros Hg Hop Hy Hx. change (match op with CXPR_TOK_OR => true | _ => false end) with (absorbing op).
  apply eval_require_bool; [done| |intros Hb; refute]. intros b ->.
  destruct (Bool.eqb b (absorbing op)) eqn:Eb.
  { apply eqb_prop in Eb as ->. apply computes_ret; [done|]. intros _. by apply E_short. }
  assert (Hb : b = negb (absorbing op)) by (destruct b, (absorbing op); done). clear Eb. subst b.
  apply computes_rec; [done|done| |].
  - intros r s' Hg' _ _ Hr. apply eval_require_bool; [done| |].
    + intros b Hb. apply computes_ret; [done|]. intros _. apply E_logical; [done|done|]. by rewrite <- Hb.
    + intros Hb. refute.
  - intros Hn. refute.
Qed.

Lemma eval_binary s sp op x y :
  good s → small x → small y →
  evaluated s (cxpr_eval_binary_op rec caller_tree op x y) (Ast sp (CXPR_NODE_BINARY_OP op x y)).
Proof.
  intros Hg Hx Hy. apply computes_rec; [done|done| |intros ?; refute].
  intros rx s1 Hg1 _ _ Hrx. destruct (logical op) eqn:Hop; [by apply eval_logical|].
  apply computes_rec; [done|done| |intros ?; refute].
  intros ry s2 Hg2 _ _ Hry.
  eapply computes_weaken; [apply (outcome_binary s2 op (fst rx) (fst ry) Hg2)| |].
  - by apply (small_basic x _ (es_world s)).
  - by apply (small_basic y _ (es_world s)).
  - intros r Hr. by eapply E_binary.
  - intros Hnone. refute.
Qed.

Lemma eval_ternary s sp c x y :
  good s → small c → small x → small y →
  evaluated s (cxpr_eval_ternary_op rec caller_tree c x y) (Ast sp (CXPR_NODE_TERNARY c x y)).
Proof.
  intros Hg Hc Hx Hy. apply computes_rec; [done|done| |intros ?; refute].
  intros r s1 Hg1 _ _ Hr.
  destruct (fst r) as [|b| | | | | | |] eqn:Er; try (apply computes_error; [done|done|intros _; refute]).
  eapply computes_weaken; [apply rec_small; [done|by destruct b]| |].
  - intros r' Hr'. by eapply E_ternary.
  - intros Hn. refute.
Qed.

(** *** Lists of nodes *)

Lemma eval_array_elements s els :
  good s → Forall (λ a, small a) els →
  computes s (array_elements rec caller_tree els)
    (λ o, ∃ vs, o = Some vs ∧ evaluates_all els vs) (no_values els).
Proof.
  intros Hg Hs. revert s Hg. induction Hs as [|a els Ha Hs IH]; intros s Hg; simpl.
  - apply computes_ret; [done|]. intros _. exists []. by split; [|constructor].
  - apply computes_rec; [done|done| |apply no_values_head].
    intros r s1 Hg1 _ _ Hr. eapply computes_bind; [by apply IH| |apply no_values_tail].
    intros o s2 Hg2 _ Ho. apply computes_ret; [done|].
    intros (_ & vs & -> & Hvs)%Ho. eexists. split; [done|]. by constructor.
Qed.

Lemma eval_array_node s sp els :
  good s → Forall (λ a, small a) els →
  evaluated s (eval_array rec caller_tree els) (Ast sp (CXPR_NODE_ARRAY els)).
Proof.
  intros Hg Hs. eapply computes_bind; [by apply eval_array_elements| |].
  - intros o s1 Hg1 _ Ho. apply computes_ret; [done|]. intros (_ & vs & -> & Hvs)%Ho. by constructor.
  - intros Hn v Hv. inversion Hv; subst. by eapply Hn.
Qed.

Lemma eval_scalar_arg s a :
  good s → small a →
  computes s (cxpr_eval_scalar_arg rec caller_tree a)
    (λ d, evaluates a (VNum d)) (∀ d, ¬ evaluates a (VNum d)).
Proof.
  intros Hg Ha. apply computes_rec; [done|done| |intros Hn d; apply Hn].
  intros r s1 Hg1 _ _ Hr. unfold cxpr_require_type.
  destruct (fst r) as [d| | | | | | | |] eqn:Er; simpl;
    try (apply computes_put_error; [done|done|]; intros _ d Hd; unify_values; done).
  by apply computes_ret.
Qed.

Lemma eval_native_args s args :
  good s → Forall (λ a, small a) args →
  computes s (native_args rec caller_tree args)
    (λ ds, evaluates_all args (VNum <$> ds)) (∀ ds, ¬ evaluates_all args (VNum <$> ds)).
Proof.
  intros Hg Hs. revert s Hg. induction Hs as [|a args Ha Hs IH]; intros s Hg; simpl.
  - apply computes_ret; [done|]. intros _. constructor.
  - eapply computes_bind; [by apply eval_scalar_arg| |].
    + intros d s1 Hg1 _ Hd. eapply computes_bind; [by apply IH| |].
      * intros ds s2 Hg2 _ Hds. apply computes_ret; [done|]. intros [[_ ?]%Hd ?]%Hds. by constructor.
      * intros Hn [|d' ds] Hv; inversion Hv; subst. by eapply Hn.
    + intros Hn [|d' ds] Hv; inversion Hv; subst. by eapply Hn.
Qed.

(** The loop ends with the values exactly when it ends without an error. *)
Lemma eval_typed_args s args :
  good s → Forall (λ a, small a) args → ok s ∨ args ≠ [] →
  ∃ o s', typed_args rec caller_tree args s = Done (o, s') ∧ good s' ∧ frame s s' ∧
    ((∃ rs, o = Some rs ∧ ok s ∧ ok s' ∧ evaluates_all args (fst <$> rs)) ∨
     (o = None ∧ ¬ ok s' ∧ (ok s → no_values args))).
Proof.
  intros Hg Hs. revert s Hg. induction Hs as [|a args Ha Hs IH]; intros s Hg Hok; simpl.
  - exists (Some []), s. split_and!; try done. left. exists []. destruct Hok; [|done].
    split_and!; try done. constructor.
  - destruct (rec_small s a Hg Ha) as (r & s1 & Hr & Hg1 & Hf1 & Hbad & Hgo).
    unfold unless_failing, failing, bind, get_err, ret. rewrite Hr. cbn [run_bind].
    destruct (decide (ok s1)) as [Ho|Ho].
    + rewrite bool_decide_true by done. simpl.
      destruct (IH s1 Hg1 (or_introl Ho)) as (o & s2 & -> & Hg2 & Hf2 & Hcase). cbn [run_bind].
      exists (option_map (cons r) o), s2. split_and!; [done|done|by eapply frame_trans|].
      destruct (decide (ok s)) as [Hs0|Hs0]; [|naive_solver].
      destruct (Hgo Hs0) as [[_ Hv]|[? _]]; [|done].
      destruct Hcase as [(rs & -> & _ & ? & Hall)|(-> & ? & Hn)].
      * left. exists (r :: rs). split_and!; try done. by constructor.
      * right. split_and!; try done. intros _. by apply no_values_tail, Hn.
    + rewrite bool_decide_false by done. simpl. exists None, s1. split_and!; try done. right.
      split_and!; try done. intros Hs0. apply no_values_head. naive_solver.
Qed.

(** *** Calls *)

Definition call_value (e : cxpr_func_entry) (ordered : list cxpr_expr_ast) (v : cxpr_value) : Prop :=
  ∃ vs, evaluates_all ordered vs ∧ applies e vs v.

Lemma all_det args vs vs' : W → evaluates_all args vs → evaluates_all args vs' → vs = vs'.
Proof. apply evaluates_all_det. Qed.

Lemma small_all_basic args vs :
  W → Forall (λ a, small a) args → evaluates_all args vs → Forall (λ v, basic v = true) vs.
Proof.
  intros w Hs Hv. eapply (proj2 (evaluates_basic_mutual reg vars pars vars_basic pars_basic w)); [done|].
  eapply Forall_impl; [exact Hs|]. by intros a [? _].
Qed.

(** A function of the host or of the library without a native variant. *)
Lemma eval_registry_call_ok s e name ordered :
  good s → Forall (λ a, small a) ordered → registry_lookup reg name = Some e → plain_entry e →
  fe_native e = None → fe_min_args e ≤ length ordered ≤ fe_max_args e → length ordered ≤ 32 →
  computes s (eval_registry_call reg rec e name caller_tree ordered)
    (λ r, call_value e ordered (fst r)) (∀ v, ¬ call_value e ordered v).
Proof.
  intros Hg Hs Hl Hp Hn Hargs H32. destruct (pl_call e Hp Hn) as (Hsc & Hmin & Hcall).
  unfold eval_registry_call. destruct (Nat.ltb_spec 32 (length ordered)); [lia|].
  destruct (eval_typed_args s ordered Hg Hs) as (o & s1 & Hrun & Hg1 & Hf1 & Hcase).
  { right. intros ->. simpl in *. lia. }
  unfold computes, bind. rewrite Hrun. cbn [run_bind]. clear Hrun.
  destruct Hcase as [(rs & -> & Ho & Ho1 & Hall)|(-> & Hbad & Hno)].
  2:{ exists nan_res, s1. split_and!; try done. intros Hs0. right. split; [done|].
      intros v (vs & Hvs & _). by eapply (Hno Hs0). }
  assert (Hb : Forall (λ v, basic v = true) (fst <$> rs)) by by eapply (small_all_basic ordered _ (es_world s)).
  destruct (Hcall _ Hb) as (v & err & Hc & Hout).
  unfold on_world, cxpr_registry_call_typed. rewrite Hl, Hsc, Hc. cbn [run_bind].
  eexists _, _. split_and!; [reflexivity|by destruct Hg1|by destruct Hf1|done|].
  intros _. destruct Hout as [[-> Hv]|Herr].
  - left. split; [done|]. exists (fst <$> rs). split; [done|]. split; [|by rewrite Hn].
    by rewrite (evaluates_all_length _ _ Hall).
  - right. split; [done|]. intros v' (vs & Hvs & _ & Happ). rewrite Hn in Happ.
    rewrite (all_det _ _ _ (es_world s) Hvs Hall) in Happ. specialize (Happ (es_world s)).
    rewrite Hc in Happ. by simplify_eq.
Qed.

(** A native function is called on the numbers of its arguments. *)
Lemma eval_native_ok s e k fn ordered :
  good s → Forall (λ a, small a) ordered → plain_entry e → fe_native e = Some (k, fn) →
  length ordered = native_arity k →
  computes s (eval_native rec caller_tree fn ordered)
    (λ r, call_value e ordered (fst r)) (∀ v, ¬ call_value e ordered v).
Proof.
  intros Hg Hs Hp Hn Hlen. destruct (pl_native e Hp k fn Hn) as (Hmin & Hmax & Hcall).
  assert (Hrun : ∀ s1 ds, good s1 → length ds = native_arity k →
    computes s1 (let! d := on_world (call_scalar fn ds) in ret (owned (VNum d)))
      (λ r, ∃ d, fst r = VNum d ∧ ∀ w, call_scalar fn ds w = Done (d, w)) False).
  { intros s1 ds Hg1 Hds. destruct (Hcall ds Hds) as (d & Hd).
    unfold computes, on_world, bind. rewrite Hd. cbn [run_bind].
    eexists _, _. split_and!; [reflexivity|by destruct Hg1|done|done|]. intros Ho. left. eauto. }
  assert (Hval : ∀ ds (r : res), evaluates_all ordered (VNum <$> ds) →
    (∃ d, fst r = VNum d ∧ ∀ w, call_scalar fn ds w = Done (d, w)) → call_value e ordered (fst r)).
  { intros ds r Hall (d & -> & Hd). exists (VNum <$> ds). split; [done|].
    pose proof (evaluates_all_length _ _ Hall). unfold applies. rewrite Hn. split; [lia|eauto]. }
  assert (Hno : (∀ ds, ¬ evaluates_all ordered (VNum <$> ds)) → ∀ v, ¬ call_value e ordered v).
  { intros Hno v (vs & Hvs & _ & Happ). rewrite Hn in Happ. destruct Happ as (ds & d & -> & _). by eapply Hno. }
  unfold eval_native. destruct ordered as [|a ordered].
  - simpl. eapply computes_weaken; [by apply (Hrun s [])| |done]. intros r. apply (Hval []). constructor.
  - eapply (computes_unless s _ (λ _, nan_res)); [by apply eval_native_args| |exact Hno].
    intros ds s1 Hg1 _ _ Hds. eapply computes_weaken; [apply Hrun; [done|]| |done].
    + pose proof (evaluates_all_length _ _ Hds) as Hl. rewrite length_fmap in Hl. congruence.
    + intros r. by apply Hval.
Qed.

Lemma eval_if_ok s c x y :
  good s → small c → small x → small y →
  computes s (eval_if rec caller_tree c x y)
    (λ r, ∃ b, evaluates c (VBool b) ∧ evaluates (if b then x else y) (fst r))
    (∀ v b, evaluates c (VBool b) → ¬ evaluates (if b then x else y) v).
Proof.
  intros Hg Hc Hx Hy. apply computes_rec; [done|done| |intros Hn v b Hb; by destruct (Hn _ Hb)].
  intros r s1 Hg1 _ _ Hr.
  destruct (fst r) as [|b| | | | | | |] eqn:Er;
    try (apply computes_error; [done|done|intros _ v b Hb; by unify_values]).
  eapply computes_weaken; [apply rec_small; [done|by destruct b]| |].
  - intros r' Hr'. by exists b.
  - intros Hn v b' Hb'. unify_values. apply Hn.
Qed.

(** The call after its arguments are bound. *)
Lemma eval_plain_call_ok s e name ordered :
  good s → Forall (λ a, small a) ordered → registry_lookup reg name = Some e → plain_entry e →
  length ordered ≤ 32 → conditional name ordered = false →
  computes s (eval_plain_call reg rec e name caller_tree ordered)
    (λ r, call_value e ordered (fst r)) (∀ v, ¬ call_value e ordered v).
Proof.
  intros Hg Hs Hl Hp H32 Hc.
  assert (Hchecked : computes s
    (if (length ordered <? fe_min_args e) || (fe_max_args e <? length ordered)
     then cxpr_eval_error CXPR_ERR_WRONG_ARITY "Wrong number of arguments"
     else
       match fe_native e with
       | Some (kind, fn) =>
           if length ordered =? native_arity kind then eval_native rec caller_tree fn ordered
           else eval_registry_call reg rec e name caller_tree ordered
       | None => eval_registry_call reg rec e name caller_tree ordered
       end) (λ r, call_value e ordered (fst r)) (∀ v, ¬ call_value e ordered v)).
  { destruct ((length ordered <? fe_min_args e) || (fe_max_args e <? length ordered)) eqn:Ha.
    - apply computes_error; [done|done|]. intros _ v (vs & Hvs & Hb & _).
      apply evaluates_all_length in Hvs. apply orb_true_iff in Ha as [?%Nat.ltb_lt|?%Nat.ltb_lt]; lia.
    - apply orb_false_iff in Ha as [?%Nat.ltb_ge ?%Nat.ltb_ge]. destruct (fe_native e) as [[k fn]|] eqn:Hn.
      + destruct (pl_native e Hp k fn Hn) as (? & ? & _). rewrite (proj2 (Nat.eqb_eq _ _)) by lia.
        eapply eval_native_ok; [done|done|done|done|lia].
      + by apply eval_registry_call_ok. }
  unfold eval_plain_call. unfold conditional in Hc.
  destruct ordered as [|c [|x [|y [|]]]]; try exact Hchecked.
  destruct (String.eqb name "if"); [discriminate|exact Hchecked].
Qed.

Lemma small_bound sp name args names e ordered :
  core reg (Ast sp (CXPR_NODE_FUNCTION_CALL name args names)) → Forall (λ a, small a) args →
  cxpr_call_bind_args args names (cxpr_registry_entry_param_names e) = Done (inl ordered) →
  Forall (λ a, small a) ordered ∧ length ordered ≤ 32.
Proof.
  intros [_ [[Hn _] _]%ast_all_inv] Hs Hb. split; [by eapply (bind_forall (λ a, small a))|].
  destruct (bind_args_length args names _ ordered Hn Hb) as [-> ?]. done.
Qed.

Lemma eval_bound_ok s sp name args names e ordered :
  let call := Ast sp (CXPR_NODE_FUNCTION_CALL name args names) in
  good s → core reg call → Forall (λ a, small a) args → registry_lookup reg name = Some e →
  cxpr_call_bind_args args names (cxpr_registry_entry_param_names e) = Done (inl ordered) →
  evaluated s (eval_bound_call reg rec e name caller_tree ordered) call.
Proof.
  intros call Hg Hc Hs Hl Hb. pose proof (core_plain reg sp name args names e Hc Hl) as Hp.
  destruct (small_bound sp name args names e ordered Hc Hs Hb) as [Ho H32].
  assert (Hbound : eval_bound_call reg rec e name caller_tree ordered =
                   eval_plain_call reg rec e name caller_tree ordered).
  { unfold eval_bound_call. rewrite (pl_producer e Hp), (pl_fields e Hp). by destruct (fe_sync_func e). }
  rewrite Hbound. destruct (conditional name ordered) eqn:Hcond.
  - unfold conditional in Hcond. apply andb_true_iff in Hcond as [Hif Hlen].
    destruct ordered as [|c [|x [|y [|]]]]; try discriminate Hlen.
    apply Forall_cons in Ho as [? [? [? _]%Forall_cons]%Forall_cons]. unfold eval_plain_call. rewrite Hif.
    apply String.eqb_eq in Hif as ->. eapply computes_weaken; [by apply eval_if_ok| |].
    + intros r (b & Hcv & Hr). by eapply E_if.
    + intros Hn v Hv. inversion Hv; simplify_eq; same_call. by eapply Hn.
  - eapply computes_weaken; [by apply eval_plain_call_ok| |].
    + intros r (vs & Hvs & Happ). by eapply E_call.
    + intros Hn v Hv. inversion Hv; simplify_eq; same_call. eapply Hn. eexists. by split.
Qed.

Lemma eval_call_ok s sp name args names :
  let call := Ast sp (CXPR_NODE_FUNCTION_CALL name args names) in
  good s → core reg call → Forall (λ a, small a) args →
  evaluated s (eval_call reg rec call caller_tree name args names) call.
Proof.
  intros call Hg Hc Hs. unfold eval_call.
  destruct (registry_lookup reg name) as [e|] eqn:Hl; [|apply computes_error; [done|done|intros _; refute]].
  pose proof (core_plain reg sp name args names e Hc Hl) as Hp.
  unfold only_producer. rewrite (pl_handler e Hp), (pl_ast e Hp), (pl_producer e Hp), (pl_model e Hp),
    (pl_defined e Hp). simpl.
  destruct (bind_args_defined args names _ (pl_params e Hp)) as (b & Hb).
  unfold evaluated, cxpr_eval_bind_call_args, lift, bind, computes. rewrite Hb. cbn [run_bind].
  destruct b as [ordered|[code message]]; simpl.
  - by apply (eval_bound_ok s sp name args names e ordered).
  - apply bind_args_error in Hb as Hcode. by apply computes_error; [..|intros _; refute].
Qed.

(** *** Names *)

(** A lookup of the context: [found] is its value in the environment. *)
Lemma eval_lookup s (get : list L → string → run (option res * list L)) name found message :
  good s →
  (∃ r ctx', get (es_ctx s) name = Done (r, ctx') ∧ fst <$> r = found ∧ ctx_rep ctx' vars pars) →
  outcome s (let! v := on_ctx (λ ctx, get ctx name) in
             match v with
             | Some v => ret v
             | None => cxpr_eval_error CXPR_ERR_UNKNOWN_IDENTIFIER message
             end) found.
Proof.
  intros Hg (r & ctx' & Hget & <- & Hrep).
  assert (Hg' : good (put_ctx ctx' s)) by (destruct Hg; by constructor).
  unfold outcome, computes, on_ctx, bind. rewrite Hget. cbn [run_bind]. destruct r as [v|].
  - exists v, (put_ctx ctx' s). split_and!; try done. by left.
  - by apply (computes_error (put_ctx ctx' s)).
Qed.

Lemma eval_identifier s sp name :
  good s → core reg (Ast sp (CXPR_NODE_IDENTIFIER name)) →
  evaluated s (cxpr_eval_node_uncached reg rec caller_tree (Ast sp (CXPR_NODE_IDENTIFIER name)))
    (Ast sp (CXPR_NODE_IDENTIFIER name)).
Proof.
  intros Hg _. eapply computes_weaken.
  - apply (eval_lookup s ctx_get_typed name (vars name)); [done|]. apply rep_get_typed, Hg.
  - intros r Hr. by constructor.
  - intros Hn. refute.
Qed.

Lemma eval_variable s sp name :
  good s → core reg (Ast sp (CXPR_NODE_VARIABLE name)) →
  evaluated s (cxpr_eval_node_uncached reg rec caller_tree (Ast sp (CXPR_NODE_VARIABLE name)))
    (Ast sp (CXPR_NODE_VARIABLE name)).
Proof.
  intros Hg _. eapply computes_weaken.
  - apply (eval_lookup s ctx_get_param_typed name (pars name)); [done|]. apply rep_get_param_typed, Hg.
  - intros r Hr. by constructor.
  - intros Hn. refute.
Qed.

Lemma eval_uncached s a :
  good s → core reg a → height a ≤ n →
  evaluated s (cxpr_eval_node_uncached reg rec caller_tree a) a.
Proof.
  intros Hg Hc Hh.
  assert (Hs : Forall (λ a, small a) (children (ast_node a))).
  { pose proof (core_children reg a Hc) as H1. pose proof (height_children a) as H2.
    apply Forall_and. split; [done|]. eapply Forall_impl; [exact H2|]. simpl. lia. }
  destruct a as [sp d]. pose proof Hc as [[Hnode _]%ast_all_inv _].
  destruct d; try done; try (by apply computes_ret; [|intros _; constructor]);
    unfold cxpr_eval_node_uncached; cbn [ast_node children] in *.
  - by apply eval_array_node.
  - by apply eval_identifier.
  - by apply eval_variable.
  - apply Forall_cons in Hs as [? [? _]%Forall_cons]. by apply eval_binary.
  - apply Forall_cons in Hs as [? _]. by apply eval_unary.
  - by apply eval_call_ok.
  - apply Forall_cons in Hs as [? [? [? _]%Forall_cons]%Forall_cons]. by apply eval_ternary.
Qed.

(** *** The memo *)

Lemma memo_search_good s a hash entries :
  good s → ast_all node_ok a → Forall entry_good entries →
  ∃ o, memo_search (live s) entries a hash = Done o ∧ ∀ v, o = Some v → evaluates a v.
Proof.
  intros Hg Ha. induction 1 as [|en entries [Ht [Hok Hev]] _ IH]; simpl; [by exists None|].
  destruct (_ =? _)%Z; [|done]. rewrite Ht, (good_live s Hg).
  destruct (cxpr_eval_ast_equal (me_ast en) a) eqn:He; [|done].
  exists (Some (me_value en)). split; [done|]. intros v [= <-].
  apply equal_decides_all in He; [|done|done].
  by apply (evaluates_erased reg vars pars (me_ast en) a); [apply node_ok_names_fit|apply node_ok_names_fit|..].
Qed.

Lemma memo_set_good m a hash v :
  ast_all node_ok a → evaluates a v → Forall entry_good (memo_entries m) →
  Forall entry_good (memo_entries (cxpr_eval_memo_set m a caller_tree hash v)) ∧
  memo_depth (cxpr_eval_memo_set m a caller_tree hash v) = memo_depth m.
Proof.
  intros Ha Hv Hm. unfold cxpr_eval_memo_set. destruct (memo_depth m =? 0); [done|].
  destruct v; simpl; try done; (split; [|done]); apply Forall_app; (split; [done|]); apply Forall_singleton; by split_and!.
Qed.

Lemma eval_step s a :
  good s → core reg a → height a ≤ n → evaluated s (eval_node_step reg rec caller_tree a) a.
Proof.
  intros Hg Hc Hh. unfold eval_node_step, eval_lookback_offset, bind, evaluated, computes.
  cbn [run_bind]. destruct (_ || _); [by apply eval_uncached|].
  destruct Hc as [Hcore Hok]. pose proof (good_memo s Hg) as Hm.
  assert (Hget : ∃ o, cxpr_eval_memo_get (live s) (memo_of s) a (cxpr_eval_ast_hash a) = Done o ∧
            ∀ v, o = Some v → evaluates a v).
  { unfold cxpr_eval_memo_get. destruct (_ =? 0); [by exists None|]. by apply memo_search_good. }
  destruct Hget as (o & Hget & Ho). unfold eval_memoised, memo, lift, bind. cbn [run_bind].
  rewrite Hget. cbn [run_bind]. destruct o as [v|].
  { apply (computes_ret s (owned v)); [done|]. intros _. by apply Ho. }
  eapply (computes_unless s _ (λ v, v)); [by apply eval_uncached| |done].
  intros v s1 Hg1 Hf1 Ho1 Hv. unfold bind, computes, set_memo. cbn [run_bind].
  destruct (memo_set_good (memo_of s1) a (cxpr_eval_ast_hash a) (fst v) Hok Hv (good_memo s1 Hg1)) as [Hm1 Hd1].
  eexists v, _. split_and!; [reflexivity|by destruct Hg1|by split_and!|done|by left].
Qed.
End nodes.

(** ** The evaluator *)

Lemma height_pos a : 1 ≤ height a.
Proof. destruct a as [s d]. simpl. lia. Qed.

Lemma eval_node_correct fuel s a :
  good s → core reg a → height a ≤ fuel → evaluated s (cxpr_eval_node fuel reg caller_tree a) a.
Proof.
  revert s a. induction fuel as [|fuel IH]; intros s a Hg Hc Hh.
  - pose proof (height_pos a). lia.
  - simpl. apply (eval_step (S fuel)); [|done|done|done]. intros. apply IH; [done|done|lia].
Qed.

(** One evaluation pass: the memo table is entered, used and left. *)
Lemma eval_pass_frame fuel s a :
  core reg a → height a ≤ fuel → ctx_rep (es_ctx s) vars pars → live s caller_tree = true →
  memo_depth (memo_of s) = 0 →
  ∃ r s', cxpr_eval_ast_value fuel reg a s = Done (r, s') ∧ ctx_rep (es_ctx s') vars pars ∧
    es_world s' = es_world s ∧ memo_of s' = memo_empty ∧ es_offset s' = es_offset s ∧
    es_freed s' = es_freed s ∧ tail (es_memos s') = tail (es_memos s) ∧ es_next s' = es_next s ∧
    (ok s' ∧ evaluates a (fst r) ∨ ¬ ok s' ∧ no_value a).
Proof.
  intros Hc Hh Hctx Hlive Hdepth. unfold cxpr_eval_ast_value, set_err, memo, set_memo, bind, cxpr_eval_memo_enter.
  cbn [run_bind es_memos put_err put_memos hd tail]. rewrite Hdepth. simpl.
  match goal with |- context [cxpr_eval_node fuel reg caller_tree a ?x] => set (s0 := x) end.
  assert (Hg0 : good s0) by (constructor; [done|done|constructor]).
  destruct (eval_node_correct fuel s0 a Hg0 Hc Hh) as (r & s1 & -> & Hg1 & Hf1 & _ & Hout).
  cbn [run_bind]. destruct Hf1 as (Hw & Ho & Hfr & Ht & Hd1 & Hnext). simpl in Hd1.
  exists r. eexists. split_and!; [reflexivity|apply Hg1|done|simpl|done|done|done|done|by apply Hout].
  unfold cxpr_eval_memo_leave. by rewrite Hd1.
Qed.

Lemma eval_pass fuel s a :
  core reg a → height a ≤ fuel → ctx_rep (es_ctx s) vars pars → live s caller_tree = true →
  memo_depth (memo_of s) = 0 →
  ∃ r s', cxpr_eval_ast_value fuel reg a s = Done (r, s') ∧ ctx_rep (es_ctx s') vars pars ∧
    es_world s' = es_world s ∧ memo_of s' = memo_empty ∧
    (ok s' ∧ evaluates a (fst r) ∨ ¬ ok s' ∧ no_value a).
Proof.
  intros Hc Hh Hctx Hlive Hdepth.
  destruct (eval_pass_frame fuel s a Hc Hh Hctx Hlive Hdepth) as (r & s' & ? & ? & ? & ? & _ & _ & _ & _ & ?).
  by exists r, s'.
Qed.
End correctness.

(** ** The claims *)

Section theorem.
Context {L W : Type} `{!EvalContext L} `{!EvalContextLaws L} `{!HostCode W} `{!HexFormat} `{!EvalHost L W}.

End theorem.
