(* ===== verification/TreeContextLaws.v ===== *)
(** * TreeContextLaws: contexts keep what the tree evaluator relies on

    The contexts of [src/context] satisfy the laws of [TreeEvalProofs.v]: a chain
    of contexts binds names and parameters as its views say, lookups of names and
    of parameters find those bindings, and neither changes them. *)

From Stdlib Require Import Ascii String ZArith Lia.
From stdpp Require Import base list strings gmap fin_maps.
From S2P Require Import Prelude Float64 Types ValueCopy OpenTable Hashmap StructMap Bindings Context ContextProofs Ast References CallArgs Registry RegistryProofs Builtins EvalSupport EvalSupportProofs EvalState TreeEval TreeContext TreeSem TreeEvalProofs.
Local Open Scope run_scope.
Local Open Scope nat_scope.

(** ** Parameters *)

Record pview : Type := mk_pview {
  p_num : gmap string float64;
  p_bool : gmap string bool;
  p_int : gmap string Z;
  p_str : gmap string string;
  p_arr : gmap string cxpr_array_value
}.

Record params_ok (c : cxpr_context) (p : pview) : Prop := {
  ok_pnum : store_ok (params c) (p_num p);
  ok_pbool : linear_ok (bool_params c) ∧ linear_contents (bool_params c) = p_bool p;
  ok_pint : linear_ok (int64_params c) ∧ linear_contents (int64_params c) = p_int p;
  ok_pstr : linear_ok (string_params c) ∧ linear_contents (string_params c) = p_str p;
  ok_parr : stores (array_params c) (p_arr p)
}.

(** The whole state of a context that lookups read. *)
Abbreviation full_view := ((option (string → option cxpr_value) * view) * pview)%type.
Definition full_ok (c : cxpr_context) (f : full_view) : Prop := ctx_ok c f.1 ∧ params_ok c f.2.

(** The field [root.field] of a struct. *)
Definition dotted_lookup (w : view) (name : string) : option cxpr_value :=
  match dotted_name name with
  | Some (root, field) =>
      match w_struct w !! root with Some s => field_of s field | None => None end
  | None => None
  end.

(** The order of a parameter lookup in one context, without numbers. *)
Definition param_lookup (f : full_view) (name : string) : option cxpr_value :=
  (VBool <$> p_bool f.2 !! name) <or> (VInt64 <$> p_int f.2 !! name) <or>
  (VString <$> p_str f.2 !! name) <or> (VArray <$> p_arr f.2 !! name) <or>
  (VStruct <$> w_struct f.1.2 !! name) <or> dotted_lookup f.1.2 name.

Fixpoint number_lookup (fs : list full_view) (name : string) : option float64 :=
  match fs with
  | [] => None
  | f :: fs => p_num f.2 !! name <or> number_lookup fs name
  end.

(** Numbers of all ancestors come before the other types of the parent. *)
Fixpoint chain_param (fs : list full_view) (name : string) : option cxpr_value :=
  match fs with
  | [] => None
  | f :: fs' => param_lookup f name <or> (VNum <$> number_lookup fs name) <or> chain_param fs' name
  end.

(** ** Lookups *)

Lemma get_typed_local_moves c name r c' :
  get_typed_local c name = Done (r, c') → c' = c ∨ ∃ v, c' = set_variables v c.
Proof.
  unfold get_typed_local. case_match; [intros; simplify_eq; by left|].
  do 3 (destruct (_ c name); [intros; simplify_eq; by left|]).
  intros (a & _ & Hget)%run_bind_Done. destruct a; [simplify_eq; by left|].
  apply run_bind_Done in Hget as ([number v] & _ & Hget). right. exists v.
  destruct number; [by simplify_eq|]. apply run_bind_Done in Hget as (x & _ & Hget).
  destruct x; [by simplify_eq|]. apply run_bind_Done in Hget as (y & _ & Hget). by simplify_eq.
Qed.

(** A lookup of a name finds its binding and changes caches only. *)
Lemma get_typed_full c f name :
  full_ok c f →
  ∃ c', get_typed_local c name = Done (scoped_lookup f.1 (name_str name), c') ∧ full_ok c' f.
Proof.
  intros [Hc Hp]. destruct (get_typed_local_spec c f.1 name Hc) as (c' & Hget & Hc').
  exists c'. split; [done|]. split; [done|].
  apply get_typed_local_moves in Hget as [->|[v ->]]; [done|]. by destruct Hp.
Qed.

Lemma get_typed_chain chain fs name :
  Forall2 full_ok chain fs →
  ∃ chain', cxpr_context_get_typed chain name = Done (chain_lookup fs.*1 (name_str name), chain') ∧
    Forall2 full_ok chain' fs.
Proof.
  induction 1 as [|c f chain fs Hc Hchain IH]; simpl; [by exists []|].
  destruct (get_typed_full c f name Hc) as (c' & -> & Hc'). cbn [run_bind].
  destruct (scoped_lookup f.1 (name_str name)); simpl.
  - eexists. split; [done|]. by constructor.
  - destruct IH as (chain' & -> & Hchain'). cbn [run_bind]. eexists. split; [done|]. by constructor.
Qed.

Lemma typed_borrowed_defined chain fs name :
  Forall2 full_ok chain fs → ∃ b, typed_borrowed chain name = Done b.
Proof.
  induction 1 as [|c f chain fs Hc Hchain IH]; simpl; [by exists false|].
  destruct (get_typed_full c f name Hc) as (c' & -> & _). cbn [run_bind].
  destruct (scoped_lookup _ _); [by eexists|done].
Qed.

Lemma get_param_local_spec c f name :
  full_ok c f → get_param_local c name = Done (param_lookup f (name_str name)).
Proof.
  intros [[_ [_ _ _ _ _ Hs _]] [_ [Hb Eb] [Hi Ei] [Hst Est] Ha]]. unfold get_param_local, param_lookup.
  unfold cxpr_context_get_local_param_bool, cxpr_bool_map_get. rewrite linear_get_spec, Eb by done.
  destruct (p_bool f.2 !! name_str name); [done|].
  unfold cxpr_context_get_local_param_int64, cxpr_int64_map_get. rewrite linear_get_spec, Ei by done.
  destruct (p_int f.2 !! name_str name); [done|].
  unfold cxpr_context_get_local_param_string, cxpr_string_map_get. rewrite linear_get_spec, Est by done.
  destruct (p_str f.2 !! name_str name); [done|].
  unfold cxpr_context_lookup_array_map. rewrite (named_lookup_spec _ _ _ Ha). cbn [run_bind].
  destruct (p_arr f.2 !! name_str name); [simpl; by rewrite copied_array_id|].
  unfold cxpr_context_lookup_struct_map. rewrite (named_lookup_spec _ _ _ Hs). cbn [run_bind].
  destruct (w_struct f.1.2 !! name_str name); [simpl; by rewrite copied_struct_id|]. simpl.
  unfold dotted_lookup. destruct (dotted_name (name_str name)) as [[root field]|]; [|done].
  rewrite (named_lookup_spec _ _ _ Hs). done.
Qed.

Lemma get_param_chain chain fs name :
  Forall2 full_ok chain fs →
  ∃ chain', cxpr_context_get_param chain name = Done (number_lookup fs (name_str name), chain') ∧
    Forall2 full_ok chain' fs.
Proof.
  induction 1 as [|c f chain fs Hc Hchain IH]; simpl; [by exists []|].
  destruct (store_lookup_spec (params c) (p_num f.2) name) as (s & -> & Hs & _); [apply Hc|]. cbn [run_bind].
  assert (Hc' : full_ok (set_params s c) f) by (destruct Hc as [[? Hv] Hp]; split; [split; [done|by destruct Hv]|by destruct Hp]).
  destruct (p_num f.2 !! name_str name); simpl.
  - eexists. split; [done|]. by constructor.
  - destruct IH as (chain' & -> & Hchain'). cbn [run_bind]. eexists. split; [done|]. by constructor.
Qed.

Lemma get_param_typed_chain chain fs name :
  Forall2 full_ok chain fs →
  ∃ chain', cxpr_context_get_param_typed chain name = Done (chain_param fs (name_str name), chain') ∧
    Forall2 full_ok chain' fs.
Proof.
  induction 1 as [|c f chain fs Hc Hchain IH]; [by exists []|]. cbn [cxpr_context_get_param_typed chain_param].
  rewrite (get_param_local_spec c f name Hc). cbn [run_bind].
  destruct (param_lookup f (name_str name)); [eexists; split; [done|by constructor]|].
  destruct (get_param_chain (c :: chain) (f :: fs) name) as (chain' & -> & Hchain'); [by constructor|].
  cbn [run_bind]. destruct (number_lookup (f :: fs) (name_str name)); [by eexists|].
  inversion Hchain' as [|c' ? rest ? Hc' Hrest]; subst. destruct IH as (chain'' & -> & Hchain''). cbn [run_bind].
  eexists. split; [done|]. by constructor.
Qed.

Lemma param_borrowed_defined chain fs name :
  Forall2 full_ok chain fs → ∃ b, param_borrowed chain name = Done b.
Proof.
  induction 1 as [|c f chain fs Hc Hchain IH]; simpl; [by exists false|].
  rewrite (get_param_local_spec c f name Hc). cbn [run_bind]. destruct (param_lookup _ _); [by eexists|done].
Qed.

(** ** The laws *)

Section laws.
Context (addr : string → Z).

Definition chain_rep (chain : list cxpr_context) (vars pars : string → option cxpr_value) : Prop :=
  ∃ fs, Forall2 full_ok chain fs ∧ (∀ name, vars name = chain_lookup fs.*1 name) ∧
    (∀ name, pars name = chain_param fs name).

Lemma fst_paired (b : cxpr_value → bool) (o : option cxpr_value) :
  fst <$> ((λ v, (v, b v)) <$> o) = o.
Proof. by destruct o. Qed.

#[refine, export] Instance context_laws : EvalContextLaws cxpr_context (EvalContext0 := context_eval addr) :=
  { ctx_rep := chain_rep }.
Proof.
  - intros chain vars pars name (fs & Hc & Hv & Hp). simpl. unfold get_typed_owned.
    destruct (get_typed_chain chain fs (at_name addr name) Hc) as (chain' & -> & Hc').
    destruct (typed_borrowed_defined chain fs (at_name addr name) Hc) as [b ->]. cbn [run_bind].
    eexists _, chain'. split_and!; [done|by rewrite fst_paired|by exists fs].
  - intros chain vars pars name (fs & Hc & Hv & Hp). simpl. unfold get_param_typed_owned.
    destruct (get_param_typed_chain chain fs (at_name addr name) Hc) as (chain' & -> & Hc').
    destruct (param_borrowed_defined chain fs (at_name addr name) Hc) as [b ->]. cbn [run_bind].
    eexists _, chain'. split_and!; [done|by rewrite fst_paired|by exists fs].
Defined.
End laws.
