(* ===== verification/TreeExamples.v ===== *)
(** * TreeExamples: the tree evaluator on the functions of the library

    The functions [cxpr_register_math] registers satisfy what [TreeSem.v] asks of
    a function, so the correctness theorem of [TreeEvalProofs.v] applies to them;
    and inputs on which the evaluator does not do what it means to. *)

From Stdlib Require Import Ascii String ZArith Lia.
From stdpp Require Import base list strings gmap fin_maps.
From S2P Require Import Prelude Float64 Types ValueCopy OpenTable Hashmap StructMap Bindings Context ContextProofs Lexer Ast References CallArgs Registry RegistryProofs Builtins Parser Define EvalSupport EvalSupportProofs Formulas ValueOps EvalState TreeEval TreeContext TreeSem TreeEvalProofs TreeContextLaws.
Local Open Scope run_scope.
Local Open Scope nat_scope.

(** ** The functions of the library *)

Section math.
Context {W : Type} `{!HostCode W}.

Lemma coalesce_basic vs : Forall (λ v, basic v = true) vs → basic (cxpr_fn_coalesce vs) = true.
Proof. induction 1 as [|v vs Hv _ IH]; simpl; [done|]. by destruct (is_null v). Qed.

(** Calling the entry is defined and leaves the host alone. *)
Definition call_defined (e : cxpr_func_entry) : Prop :=
  ∀ vs, Forall (λ v, basic v = true) vs →
    ∃ v err, (∀ w : W, call_entry e vs w = Done (v, err, w)) ∧
      (err = error_zero ∧ basic v = true ∨ err_code err ≠ CXPR_OK).

(** The function behind the checks of [call_entry]. *)
Lemma checked_defined e :
  (∀ vs, Forall (λ v, basic v = true) vs → fe_min_args e ≤ length vs →
     match fe_arg_types e with Some types => types_match vs types | None => true end = true →
     ∃ v err, (∀ w : W,
       match fe_typed_func e, fe_value_func e with
       | Some f, _ => let* '(v, w) := call_typed_func f vs (fe_userdata e) w in Done (v, error_zero, w)
       | None, Some f => let* '(v, w) := call_value_func f vs (fe_userdata e) w in Done (v, error_zero, w)
       | None, None =>
           if 32 <? length vs then call_error CXPR_ERR_WRONG_ARITY "Too many function arguments" w
           else
             match scalar_args vs, fe_sync_func e with
             | None, _ => call_error CXPR_ERR_TYPE_MISMATCH "Function arguments must be numbers" w
             | Some ds, Some f =>
                 let* '(d, w) := call_sync f ds (fe_userdata e) w in Done (VNum d, error_zero, w)
             | Some _, None => Undef
             end
       end = Done (v, err, w)) ∧ (err = error_zero ∧ basic v = true ∨ err_code err ≠ CXPR_OK)) →
  call_defined e.
Proof.
  intros Hf vs Hb. unfold call_entry.
  destruct ((length vs <? fe_min_args e) || (fe_max_args e <? length vs)) eqn:Ha.
  { eexists _, _. split; [reflexivity|by right]. }
  apply orb_false_iff in Ha as [Ha%Nat.ltb_ge _].
  destruct (match fe_arg_types e with Some types => types_match vs types | None => true end) eqn:Ht.
  - by apply Hf.
  - eexists _, _. split; [reflexivity|by right].
Qed.

Lemma sync_defined e f :
  fe_typed_func e = None → fe_value_func e = None → fe_sync_func e = Some f →
  (∀ ds, ∃ d, ∀ w : W, call_sync f ds (fe_userdata e) w = Done (d, w)) → call_defined e.
Proof.
  intros Ht Hv Hs Hf. apply checked_defined. intros vs _ _ _. rewrite Ht, Hv, Hs.
  destruct (32 <? length vs); [eexists _, _; split; [reflexivity|by right]|].
  destruct (scalar_args vs) as [ds|]; [|eexists _, _; split; [reflexivity|by right]].
  destruct (Hf ds) as [d Hd]. exists (VNum d), error_zero. split; [|by left]. intros w. by rewrite Hd.
Qed.

Lemma coalesce_defined e :
  fe_typed_func e = None → fe_value_func e = Some fn_coalesce → call_defined e.
Proof.
  intros Ht Hv. apply checked_defined. intros vs Hb _ _. rewrite Ht, Hv.
  exists (cxpr_fn_coalesce vs), error_zero. split; [done|]. left. split; [done|]. by apply coalesce_basic.
Qed.

(** [isnan], [isfinite] and [is_null] read their first argument. *)
Lemma typed_defined e f :
  fe_typed_func e = Some f → 1 ≤ fe_min_args e →
  f = fn_is_null ∨ (f = fn_isnan ∨ f = fn_isfinite) ∧ fe_arg_types e = Some number_arg →
  call_defined e.
Proof.
  intros Ht Hmin Hf. apply checked_defined. intros [|v vs] Hb Hl Hty; simpl in Hl; [lia|]. rewrite Ht.
  destruct Hf as [->|[Hf Ha]]; [eexists _, _; split; [reflexivity|by left]|].
  rewrite Ha in Hty. destruct v; simpl in Hty; try discriminate Hty.
  destruct Hf as [->| ->]; (eexists _, _; split; [reflexivity|by left]).
Qed.

Definition math_entries : list cxpr_func_entry :=
  Eval vm_compute in reg_entries (cxpr_register_math cxpr_registry_new).

Ltac native_case :=
  intros k fn [= <- <-]; split; [done|]; split; [done|];
  intros [|x [|y [|z [|]]]] Hlen; try discriminate Hlen; eexists; intros w; reflexivity.

Ltac call_case :=
  intros _; split; [done|]; split; [simpl; lia|];
  first [by apply coalesce_defined
        |eapply sync_defined; [done|done|done|intros ds; eexists; intros w; reflexivity]
        |eapply typed_defined; [done|simpl; lia|by auto]].

(** Every function of the library but [contains] and [within]. *)
Lemma math_plain : Forall (λ e, fe_ast_func e = None → plain_entry e) math_entries.
Proof.
  unfold math_entries.
  repeat (apply Forall_cons; split;
    [intros Hast; first [discriminate Hast|constructor;
       first [done|unfold CXPR_CALL_SLOTS; simpl; lia|native_case|by intros ? ? [=]|call_case|by intros [=]]]|]).
  apply Forall_nil_2.
Qed.
End math.

(** The library's functions in the registry. *)
Definition math_registry : cxpr_registry := cxpr_register_math cxpr_registry_new.

(** The nodes with a meaning, for this registry. *)
Definition math_node (a : cxpr_expr_ast) : bool :=
  match ast_node a with
  | CXPR_NODE_RECORD _ _ | CXPR_NODE_FIELD_ACCESS _ _ _ _ | CXPR_NODE_CHAIN_ACCESS _ _
  | CXPR_NODE_INDEX _ _ | CXPR_NODE_PRODUCER_ACCESS _ _ _ _ _ => false
  | CXPR_NODE_FUNCTION_CALL name _ _ => negb (String.eqb name "contains" || String.eqb name "within")
  | _ => true
  end.

Lemma math_tree_functions :
  Forall (λ e, fe_ast_func e = None ∨ fe_name e = "contains"%string ∨ fe_name e = "within"%string) math_entries.
Proof. unfold math_entries. repeat (apply Forall_cons; split; [auto|]). apply Forall_nil_2. Qed.

Lemma math_entries_registry : reg_entries math_registry = math_entries.
Proof. vm_compute. reflexivity. Qed.

#[local] Opaque math_entries math_registry.

Lemma math_lookup name e :
  registry_lookup math_registry name = Some e → e ∈ math_entries ∧ fe_name e = name.
Proof.
  unfold registry_lookup, cxpr_registry_find. rewrite math_entries_registry.
  destruct (find_entry name math_entries) as [i|] eqn:Hf; [|done].
  apply find_entry_lookup in Hf as (e' & He & Hname). rewrite He. intros [= <-].
  split; [by eapply list_elem_of_lookup_2|done].
Qed.

Lemma math_core_node {W} `{!HostCode W} a : math_node a = true → core_node math_registry a.
Proof.
  unfold math_node, core_node. destruct (ast_node a); intros Hn;
    lazymatch goal with |- True => exact I | |- False => discriminate Hn | _ => idtac end.
  destruct (registry_lookup math_registry name) as [e|] eqn:Hl; [|exact I].
  apply math_lookup in Hl as [He Hname]. apply (proj1 (Forall_forall _ _) math_plain e He).
  destruct (proj1 (Forall_forall _ _) math_tree_functions e He) as [H|[H|H]]; [done|..];
    rewrite H in Hname; by subst name.
Qed.

Ltac math_tree :=
  apply ast_all_node; [apply math_core_node; reflexivity|];
  cbn [ast_node children]; repeat (apply Forall_cons; split; [math_tree|]); apply Forall_nil_2.

#[local] Transparent math_registry.

(** ** A host

    The functions of the math library are not computed: any results will do. *)
#[local] Instance example_host : HostCode unit := {
  libm _ args := match args with x :: _ => x | [] => fnan end;
  host_scalar _ _ w := (fnan, w);
  host_sync _ _ _ w := (fnan, w);
  host_value _ _ _ w := (VNull, w);
  host_typed _ _ _ w := (VNull, w)
}.

Definition one_address (name : string) : Z := 100.

#[local] Instance example_contexts : EvalContext cxpr_context := context_eval one_address.
#[local] Existing Instance print_hex_format.

#[local] Instance example_callbacks : EvalHost cxpr_context unit := {
  host_producer _ _ count _ w := (replicate count (VNum fone), w);
  host_ast _ _ _ := cxpr_eval_error CXPR_ERR_SYNTAX "not supported";
  host_lookback _ _ _ _ := ret None;
  host_capability _ _ _ _ := ret None
}.

Definition state_of (c : cxpr_context) : est cxpr_context unit :=
  mk_est [c] [memo_empty] error_zero tt fzero 1 [].

(** The tree of a text. *)
Definition tree_of (source : string) : cxpr_expr_ast :=
  match cxpr_expr_ast_parse (Some cxpr_expr_parser_new) (Some source) error_zero with
  | Done (Some a, _, _) => a
  | _ => new_node (CXPR_NODE_IDENTIFIER "")
  end.

Definition empty_pview : pview := mk_pview ∅ ∅ ∅ ∅ ∅.
Definition int64_full : full_view := ((None, int64_view), empty_pview).

Lemma int64_full_ok : full_ok int64_context int64_full.
Proof.
  split; [by split; [|apply int64_context_ok]|].
  split; try (split; [apply linear_empty_ok|done]); [by apply (store_init_ok 2)|by apply stores_null].
Qed.

Definition example_tree : cxpr_expr_ast :=
  Eval vm_compute in tree_of "x < x ? missing : max(2, abs(1))".

Lemma example_core : core math_registry example_tree.
Proof. split; [unfold example_tree; math_tree|repeat (constructor || discriminate)]. Qed.


Example example_tree_value :
  (let* '(r, s') := cxpr_eval_ast_value 4 math_registry example_tree (state_of int64_context) in
   Done (r, es_err s')) = Done (owned (VNum (of_Z 2)), error_zero).
Proof. vm_compute. reflexivity. Qed.

(** ** Inputs on which the evaluator does not do what it means to *)

Fixpoint define_all (defs : list string) (r : cxpr_registry) : run cxpr_registry :=
  match defs with
  | [] => Done r
  | d :: defs => let* '(_, r) := cxpr_registry_define_fn r d in define_all defs r
  end.

(** Evaluating a text where [a] is -3, after some functions were defined. *)
Definition evaluate (defs : list string) (r : cxpr_registry) (source : string)
    : run (res * cxpr_error) :=
  let* r := define_all defs r in
  let* c := cxpr_context_set (env_at 77) (cxpr_context_new 1 2) (at_name one_address "a") (of_Z (-3)) in
  let* '(v, s) := cxpr_eval_ast_value 50 r (tree_of source) (state_of c) in
  Done (v, es_err s).

(** A memo entry outlives its tree.  A call of a defined function is evaluated
    on a substituted copy of its body, the calls in that copy are memoised under
    pointers into it, and the copy is freed: a later call with the same hash is
    compared with freed memory. *)
Theorem memo_keeps_freed_tree :
  evaluate ["f(x) => abs(x)"] math_registry "f(a) + abs(a)" = Undef ∧
  evaluate [] math_registry "abs(a) + abs(a)" = Done (owned (VNum (of_Z 6)), error_zero).
Proof. split; vm_compute; reflexivity. Qed.

(** A record frees the values of its fields after copying them; a string
    literal is not a copy, so the tree loses its text. *)
Theorem record_frees_literal :
  evaluate [] math_registry "{s: 'x'}" = Undef ∧
  evaluate [] math_registry "{s: 1}" = Done (owned (VStruct [("s"%string, VNum fone)]), error_zero).
Proof. split; vm_compute; reflexivity. Qed.

(** Substitution captures names.  The argument of a defined function is put
    into a record of its body, where the fields before it are in scope: for
    [f(x) => {a: 5, b: x}] the call [f(a)] has [b = 5], although [a] is -3. *)
Theorem inlining_captures_fields :
  ∃ own, evaluate ["f(x) => {a: 5, b: x}"] math_registry "f(a)" =
    Done ((VStruct [("a"%string, VNum (of_Z 5)); ("b"%string, VNum (of_Z 5))], own), error_zero).
Proof. eexists. vm_compute. reflexivity. Qed.

(** A registry with a host function without arguments that is not native. *)
Definition ticking_registry : cxpr_registry :=
  cxpr_registry_add math_registry "tick" (fn_sync 5) 0 0 ud_null None.

(** The arguments of a native function are all evaluated before the error is
    looked at, and a call through the registry starts by clearing the error: the
    unknown name in the first argument goes unnoticed. *)
Theorem native_call_loses_error :
  ∃ d, evaluate [] ticking_registry "add(missing, tick())" = Done (owned (VNum d), error_zero) ∧
  ∃ r err, evaluate [] ticking_registry "add(tick(), missing)" = Done (r, err) ∧
    err_code err = CXPR_ERR_UNKNOWN_IDENTIFIER.
Proof. eexists. split; [vm_compute; reflexivity|]. eexists _, _. split; vm_compute; reflexivity. Qed.
