(* ===== verification/TypeCheckExamples.v ===== *)
(** * TypeCheckExamples: the static checker and the printer on concrete sources

    Witnesses of the theorems of [TypeCheckProofs.v], and inputs on which the
    checker and the printer do not do what they mean to. *)

From Stdlib Require Import Ascii String ZArith Lia SpecFloat.
From stdpp Require Import base list strings.
From S2P Require Import Prelude Float64 Types ValueCopy Ast References CallArgs Registry Builtins Parser ParserProofs Printer TypeCheck ValueOps EvalSupport EvalState TreeEval TreeSem TypeCheckProofs TreeExamples.
Local Open Scope run_scope.
Local Open Scope nat_scope.

(** A host whose functions are never called. *)
#[local] Instance idle_host : HostCode unit := {
  libm _ args := match args with x :: _ => x | [] => fnan end;
  host_scalar _ _ w := (fnan, w);
  host_sync _ _ _ w := (fnan, w);
  host_value _ _ _ w := (VNull, w);
  host_typed _ _ _ w := (VNull, w)
}.

(** A decidable property of every node of a concrete tree. *)
Ltac every_node :=
  apply ast_all_node; [vm_compute; first [reflexivity|exact I|discriminate]|];
  cbn [ast_node children]; repeat (apply Forall_cons; split; [every_node|]); apply Forall_nil_2.

Definition comparison_tree : cxpr_expr_ast := Eval vm_compute in tree_of "x + 1 > 2 ? [1, 'a'][0] : -x".
Definition settled_tree : cxpr_expr_ast := Eval vm_compute in tree_of "x + 1 > 2 ? 3 : -x".

Lemma typecheck_total_witness :
  ast_all literal_ok comparison_tree ∧ ∃ r, cxpr_typecheck (Some comparison_tree) cxpr_registry_new = Done r.
Proof.
  assert (H : ast_all literal_ok comparison_tree)
    by (unfold comparison_tree; every_node).
  split; [exact H|exact (typecheck_total cxpr_registry_new comparison_tree H)].
Defined.

Definition two : float64 := Eval vm_compute in of_Z 2.
Definition three : float64 := Eval vm_compute in of_Z 3.

Definition x_is_two (name : string) : option cxpr_value :=
  if String.eqb name "x" then Some (VNum two) else None.


(** ** Inputs on which they do not do what they mean to *)

Definition no_value (name : string) : option cxpr_value := None.

(** The minus of an [int64] has the static type of a number: [-5i64 + 3i64] has
    the value [-2i64] and is rejected before it is evaluated. *)
Theorem typecheck_rejects_negated_int64 :
  evaluates cxpr_registry_new no_value no_value (tree_of "-5i64 + 3i64") (VInt64 (-2)) ∧
  ∃ err, cxpr_typecheck (Some (tree_of "-5i64 + 3i64")) cxpr_registry_new = Done (inr err) ∧
    err_code err = CXPR_ERR_TYPE_MISMATCH ∧
    err_message err = Some "type error: '+' requires matching numeric types, but right operand '3i64' has type int64"%string.
Proof.
  split; [|eexists; vm_compute; done].
  replace (tree_of "-5i64 + 3i64") with (ltac:(let t := eval vm_compute in (tree_of "-5i64 + 3i64") in exact t))
    by (vm_compute; reflexivity).
  eapply E_binary with (vx := VInt64 (-5)); [done| |apply E_int64|vm_compute; reflexivity].
  eapply E_unary; [apply E_int64|vm_compute; reflexivity].
Qed.

(** The text of a tree, read again. *)
Definition reparsed (source : string) : option (string * cxpr_expr_ast) :=
  text ← cxpr_expr_ast_to_string (tree_of source); Some (text, erase (tree_of text)).

(** Printing changes meanings.  The printer gives [not] the precedence of a sign,
    the parser reads it below the comparisons: [(not a) == b] is printed as
    [not a == b], which is read as [not (a == b)].  Comparisons lose their
    parentheses too: [(a < b) < c] is printed as the chain [a < b < c]. *)
Theorem printer_changes_meaning :
  reparsed "(not a) == b" = Some ("not a == b"%string, erase (tree_of "not (a == b)")) ∧
  erase (tree_of "(not a) == b") ≠ erase (tree_of "not (a == b)") ∧
  reparsed "(a < b) < c" = Some ("a < b < c"%string, erase (tree_of "a < b and b < c")) ∧
  reparsed "-a ^ 2 - (b - c) * 0.1" =
    Some ("-a ^ 2 - (b - c) * 0.1"%string, erase (tree_of "-a ^ 2 - (b - c) * 0.1")).
Proof. vm_compute. split_and!; try reflexivity. discriminate. Qed.

(** The digits [printf] gives, against known texts. *)
Example printed_numbers :
  map cxpr_print_number [strtod "0.1"; strtod "1e22"; strtod "0.30000000000000004"; strtod "1e-7";
                         strtod "100"; fneg (strtod "2.5"); strtod "123456789012345678"] =
  ["0.1"; "1e+22"; "0.30000000000000004"; "1e-07"; "100"; "-2.5"; "1.2345678901234568e+17"]%string.
Proof. vm_compute. reflexivity. Qed.
