(* ===== verification/IR.v ===== *)
(** * IR: instructions and the validators of the fast executors

    [src/ir/internal.h] (opcodes, instructions, programs) and
    [src/ir/validate.c]: the abstract interpretation that decides whether a
    compiled program may run on an unchecked operand stack.  Both validators
    are one worklist algorithm over a stack description ([nat] for the scalar
    executor, a pair of counts for the boolean one); the theorems show that they
    end, that they never leave their fixed arrays, and that they accept exactly
    the programs with a consistent stack description. *)

From Stdlib Require Import Ascii String ZArith Lia.
From stdpp Require Import base list strings sets.
From S2P Require Import Prelude Float64 Types Ast.
Local Open Scope run_scope.

Inductive cxpr_opcode : Type :=
  | CXPR_OP_PUSH_CONST | CXPR_OP_PUSH_INT64 | CXPR_OP_PUSH_BOOL | CXPR_OP_PUSH_STRING
  | CXPR_OP_BUILD_ARRAY | CXPR_OP_LOAD_LOCAL | CXPR_OP_LOAD_LOCAL_SQUARE | CXPR_OP_LOAD_VAR
  | CXPR_OP_LOAD_VAR_SQUARE | CXPR_OP_LOAD_PARAM | CXPR_OP_LOAD_PARAM_SQUARE
  | CXPR_OP_LOAD_FIELD | CXPR_OP_LOAD_FIELD_SQUARE | CXPR_OP_LOAD_NAMED_FIELD
  | CXPR_OP_LOAD_CHAIN | CXPR_OP_ADD | CXPR_OP_SUB | CXPR_OP_MUL | CXPR_OP_SQUARE | CXPR_OP_DIV
  | CXPR_OP_MOD | CXPR_OP_CMP_EQ | CXPR_OP_CMP_NEQ | CXPR_OP_CMP_LT | CXPR_OP_CMP_LTE
  | CXPR_OP_CMP_GT | CXPR_OP_CMP_GTE | CXPR_OP_NOT | CXPR_OP_NEG | CXPR_OP_SIGN | CXPR_OP_SQRT
  | CXPR_OP_ABS | CXPR_OP_FLOOR | CXPR_OP_CEIL | CXPR_OP_ROUND | CXPR_OP_POW | CXPR_OP_CLAMP
  | CXPR_OP_CALL_PRODUCER | CXPR_OP_CALL_PRODUCER_CONST | CXPR_OP_CALL_PRODUCER_CONST_FIELD
  | CXPR_OP_GET_FIELD | CXPR_OP_CALL_UNARY | CXPR_OP_CALL_BINARY | CXPR_OP_CALL_TERNARY
  | CXPR_OP_CALL_FUNC | CXPR_OP_CALL_DEFINED | CXPR_OP_CALL_AST | CXPR_OP_JUMP
  | CXPR_OP_JUMP_IF_FALSE | CXPR_OP_JUMP_IF_TRUE | CXPR_OP_LOOKBACK_PUSH | CXPR_OP_LOOKBACK_POP
  | CXPR_OP_LOOKBACK_RESOLVE | CXPR_OP_STORE_LOCAL | CXPR_OP_RETURN | CXPR_OP_INDEX.

Definition CXPR_IR_STACK_CAPACITY : nat := 64.
Definition CXPR_MAX_CALL_ARGS : nat := 32.

(** ** Registry entries

    The part of [cxpr_func_entry] the validators and fast executors read.  A
    callback runs host code: it may change the host's state [W].  The tag
    [native_kind] and the union [native_scalar] are one sum. *)
Inductive native_scalar (W : Type) : Type :=
  | CXPR_NATIVE_KIND_NONE
  | CXPR_NATIVE_KIND_NULLARY (f : W → float64 * W)
  | CXPR_NATIVE_KIND_UNARY (f : float64 → W → float64 * W)
  | CXPR_NATIVE_KIND_BINARY (f : float64 → float64 → W → float64 * W)
  | CXPR_NATIVE_KIND_TERNARY (f : float64 → float64 → float64 → W → float64 * W).
Arguments CXPR_NATIVE_KIND_NONE {W}.
Arguments CXPR_NATIVE_KIND_NULLARY {W} f.
Arguments CXPR_NATIVE_KIND_UNARY {W} f.
Arguments CXPR_NATIVE_KIND_BINARY {W} f.
Arguments CXPR_NATIVE_KIND_TERNARY {W} f.

(** [fe_return_type] is [None] when [has_return_type] is false; of [typed_func]
    only its presence is read. *)
Record cxpr_func_entry (W : Type) : Type := mk_func {
  fe_sync_func : option (list float64 → W → float64 * W);
  fe_value_func : option (list cxpr_value → W → cxpr_value * W);
  fe_typed_func : bool;
  fe_native : native_scalar W;
  fe_return_type : option cxpr_value_type
}.
Arguments mk_func {W} fe_sync_func fe_value_func fe_typed_func fe_native fe_return_type.
Arguments fe_sync_func {W} c.
Arguments fe_value_func {W} c.
Arguments fe_typed_func {W} c.
Arguments fe_native {W} c.
Arguments fe_return_type {W} c.

(** ** Instructions

    The members of the operand union are separate fields; an opcode reads the
    member the compiler has set for it.  [ir_payload] is the call's tree. *)
Record cxpr_ir_instr (W : Type) : Type := mk_instr {
  ir_op : cxpr_opcode;
  ir_name : option string;
  ir_payload : option cxpr_expr_ast;
  ir_func : option (cxpr_func_entry W);
  ir_value : float64;
  ir_hash : Z;
  ir_index : nat
}.
Arguments mk_instr {W} ir_op ir_name ir_payload ir_func ir_value ir_hash ir_index.
Arguments ir_op {W} c.
Arguments ir_name {W} c.
Arguments ir_payload {W} c.
Arguments ir_func {W} c.
Arguments ir_value {W} c.
Arguments ir_hash {W} c.
Arguments ir_index {W} c.

(** [None] for a NULL [code]. *)
Record cxpr_ir_program (W : Type) : Type := mk_program {
  prog_code : option (list (cxpr_ir_instr W))
}.
Arguments mk_program {W} prog_code.
Arguments prog_code {W} c.

(** ** Stack effects *)

(** [pops] and [pushes]; [None] for [false]. *)
Definition cxpr_ir_scalar_stack_effect {W} (instr : cxpr_ir_instr W) : option (nat * nat) :=
  match ir_op instr with
  | CXPR_OP_PUSH_CONST | CXPR_OP_PUSH_BOOL | CXPR_OP_LOAD_LOCAL | CXPR_OP_LOAD_LOCAL_SQUARE
  | CXPR_OP_LOAD_VAR | CXPR_OP_LOAD_VAR_SQUARE | CXPR_OP_LOAD_PARAM
  | CXPR_OP_LOAD_PARAM_SQUARE => Some (0, 1)
  | CXPR_OP_ADD | CXPR_OP_SUB | CXPR_OP_MUL | CXPR_OP_DIV | CXPR_OP_MOD | CXPR_OP_POW
  | CXPR_OP_CMP_EQ | CXPR_OP_CMP_NEQ | CXPR_OP_CMP_LT | CXPR_OP_CMP_LTE | CXPR_OP_CMP_GT
  | CXPR_OP_CMP_GTE | CXPR_OP_CALL_BINARY => Some (2, 1)
  | CXPR_OP_CLAMP | CXPR_OP_CALL_TERNARY => Some (3, 1)
  | CXPR_OP_SQUARE | CXPR_OP_NOT | CXPR_OP_NEG | CXPR_OP_SIGN | CXPR_OP_SQRT | CXPR_OP_ABS
  | CXPR_OP_FLOOR | CXPR_OP_CEIL | CXPR_OP_ROUND | CXPR_OP_CALL_UNARY
  | CXPR_OP_GET_FIELD => Some (1, 1)
  | CXPR_OP_CALL_PRODUCER_CONST_FIELD =>
      if 32 <? ir_index instr then None else Some (0, 1)
  | CXPR_OP_CALL_FUNC | CXPR_OP_CALL_DEFINED =>
      if 32 <? ir_index instr then None else Some (ir_index instr, 1)
  | CXPR_OP_JUMP_IF_FALSE | CXPR_OP_JUMP_IF_TRUE => Some (1, 0)
  | CXPR_OP_JUMP => Some (0, 0)
  | CXPR_OP_RETURN => Some (1, 0)
  | _ => None
  end.

Record cxpr_ir_fast_stack_state : Type := mk_fast_state {
  fs_numbers : nat;
  fs_bools : nat
}.

#[export] Instance cxpr_ir_fast_stack_state_eq_dec : EqDecision cxpr_ir_fast_stack_state.
Proof. solve_decision. Defined.

(** [func->value_func && has_return_type && return_type == BOOL] *)
Definition declares {W} (f : cxpr_func_entry W) (t : cxpr_value_type) : bool :=
  bool_decide (fe_return_type f = Some t).

Definition is_some {A} (o : option A) : bool := match o with Some _ => true | None => false end.

Definition cxpr_ir_bool_fast_stack_effect {W} (instr : cxpr_ir_instr W)
    (state : cxpr_ir_fast_stack_state) : option cxpr_ir_fast_stack_state :=
  let '(mk_fast_state numbers bools) := state in
  match ir_op instr with
  | CXPR_OP_PUSH_CONST | CXPR_OP_LOAD_LOCAL | CXPR_OP_LOAD_LOCAL_SQUARE | CXPR_OP_LOAD_VAR
  | CXPR_OP_LOAD_VAR_SQUARE | CXPR_OP_LOAD_PARAM | CXPR_OP_LOAD_PARAM_SQUARE =>
      Some (mk_fast_state (numbers + 1) bools)
  | CXPR_OP_PUSH_BOOL => Some (mk_fast_state numbers (bools + 1))
  | CXPR_OP_ADD | CXPR_OP_SUB | CXPR_OP_MUL | CXPR_OP_DIV | CXPR_OP_MOD | CXPR_OP_POW =>
      if numbers <? 2 then None else Some (mk_fast_state (numbers - 1) bools)
  | CXPR_OP_CMP_EQ | CXPR_OP_CMP_NEQ | CXPR_OP_CMP_LT | CXPR_OP_CMP_LTE | CXPR_OP_CMP_GT
  | CXPR_OP_CMP_GTE =>
      if numbers <? 2 then None else Some (mk_fast_state (numbers - 2) (bools + 1))
  | CXPR_OP_SQUARE | CXPR_OP_NEG | CXPR_OP_SIGN | CXPR_OP_SQRT | CXPR_OP_ABS | CXPR_OP_FLOOR
  | CXPR_OP_CEIL | CXPR_OP_ROUND | CXPR_OP_CALL_UNARY =>
      if 1 <=? numbers then Some state else None
  | CXPR_OP_NOT => if 1 <=? bools then Some state else None
  | CXPR_OP_CLAMP | CXPR_OP_CALL_TERNARY =>
      if numbers <? 3 then None else Some (mk_fast_state (numbers - 2) bools)
  | CXPR_OP_CALL_BINARY =>
      if numbers <? 2 then None else Some (mk_fast_state (numbers - 1) bools)
  | CXPR_OP_CALL_FUNC =>
      if (32 <? ir_index instr) || (numbers <? ir_index instr) then None
      else
        let numbers := numbers - ir_index instr in
        match ir_func instr with
        | Some f =>
            if is_some (fe_value_func f) && declares f CXPR_VALUE_BOOL
            then Some (mk_fast_state numbers (bools + 1))
            else if negb (fe_typed_func f) then Some (mk_fast_state (numbers + 1) bools)
            else None
        | None => None
        end
  | CXPR_OP_CALL_DEFINED =>
      if (32 <? ir_index instr) || (numbers <? ir_index instr) then None
      else
        let numbers := numbers - ir_index instr in
        match ir_func instr with
        | Some f =>
            if declares f CXPR_VALUE_BOOL then Some (mk_fast_state numbers (bools + 1))
            else if declares f CXPR_VALUE_NUMBER then Some (mk_fast_state (numbers + 1) bools)
            else None
        | None => None
        end
  | CXPR_OP_JUMP_IF_FALSE | CXPR_OP_JUMP_IF_TRUE =>
      if bools <? 1 then None else Some (mk_fast_state numbers (bools - 1))
  | CXPR_OP_JUMP => Some state
  | CXPR_OP_RETURN =>
      if negb (numbers =? 0) || negb (bools =? 1) then None
      else Some (mk_fast_state numbers 0)
  | _ => None
  end.

(** What both validators derive from an instruction and the stack before it:
    the stack behind it, or [None] when they reject the program. *)
Definition scalar_transfer {W} (instr : cxpr_ir_instr W) (depth : nat) : option nat :=
  match cxpr_ir_scalar_stack_effect instr with
  | None => None
  | Some (pops, pushes) =>
      if depth <? pops then None
      else
        let next_depth := depth - pops + pushes in
        if CXPR_IR_STACK_CAPACITY <? next_depth then None
        else
          match ir_op instr with
          | CXPR_OP_RETURN => if negb (depth =? 1) then None else Some next_depth
          | _ => Some next_depth
          end
  end.

Definition bool_transfer {W} (instr : cxpr_ir_instr W) (state : cxpr_ir_fast_stack_state)
    : option cxpr_ir_fast_stack_state :=
  match cxpr_ir_bool_fast_stack_effect instr state with
  | None => None
  | Some next =>
      if (CXPR_IR_STACK_CAPACITY <? fs_numbers next) || (CXPR_IR_STACK_CAPACITY <? fs_bools next)
      then None else Some next
  end.

(** The instructions that may run behind the one at [ip]. *)
Definition successors {W} (ip : nat) (instr : cxpr_ir_instr W) : list nat :=
  match ir_op instr with
  | CXPR_OP_RETURN => []
  | CXPR_OP_JUMP => [ir_index instr]
  | CXPR_OP_JUMP_IF_FALSE | CXPR_OP_JUMP_IF_TRUE => [ir_index instr; ip + 1]
  | _ => [ip + 1]
  end.

(** ** The worklist

    [states] has an entry per instruction, [None] where nothing is known yet
    ([SIZE_MAX] in [depths], [false] in [seen]); [work] is the worklist, last
    entry first. *)
Definition work_size : nat := 256.

Section worklist.
Context {W D : Type} `{EqDecision D}.
Variable transfer : cxpr_ir_instr W → D → option D.
Variable enqueue : nat → D → list (option D) → list nat
                   → run (option (list (option D) * list nat)).

Fixpoint enqueue_all (targets : list nat) (d : D) (states : list (option D)) (work : list nat)
    : run (option (list (option D) * list nat)) :=
  match targets with
  | [] => Done (Some (states, work))
  | target :: targets' =>
      let* r := enqueue target d states work in
      match r with
      | None => Done None
      | Some (states, work) => enqueue_all targets' d states work
      end
  end.

Fixpoint validate_loop (code : list (cxpr_ir_instr W)) (fuel : nat)
    (states : list (option D)) (work : list nat) : run bool :=
  match work with
  | [] => Done true
  | ip :: work' =>
      match fuel with
      | O => OutOfFuel
      | S fuel' =>
          match code !! ip, states !! ip with
          | Some instr, Some (Some d) =>
              match transfer instr d with
              | None => Done false
              | Some next =>
                  let* r := enqueue_all (successors ip instr) next states work' in
                  match r with
                  | None => Done false
                  | Some (states, work) => validate_loop code fuel' states work
                  end
              end
          | _, _ => Undef
          end
      end
  end.

Definition validate (d0 : D) (program : cxpr_ir_program W) : run bool :=
  match prog_code program with
  | None => Done false
  | Some code =>
      let count := length code in
      if (count =? 0) || (256 <? count) then Done false
      else validate_loop code count (<[0 := Some d0]> (replicate count None)) [0]
  end.
End worklist.

(** The scalar validator writes [worklist[work_count++]] without a check. *)
Definition scalar_enqueue (target : nat) (next_depth : nat) (depths : list (option nat))
    (worklist : list nat) : run (option (list (option nat) * list nat)) :=
  match depths !! target with
  | None => Done None
  | Some None =>
      if work_size <=? length worklist then Undef
      else Done (Some (<[target := Some next_depth]> depths, target :: worklist))
  | Some (Some d) =>
      if negb (d =? next_depth) then Done None else Done (Some (depths, worklist))
  end.

Definition cxpr_ir_bool_fast_enqueue (target : nat) (state : cxpr_ir_fast_stack_state)
    (states : list (option cxpr_ir_fast_stack_state)) (worklist : list nat)
    : run (option (list (option cxpr_ir_fast_stack_state) * list nat)) :=
  if (length states <=? target) || (work_size <=? length worklist) then Done None
  else
    match states !! target with
    | Some (Some s) =>
        if (fs_numbers s =? fs_numbers state) && (fs_bools s =? fs_bools state)
        then Done (Some (states, worklist)) else Done None
    | _ => Done (Some (<[target := Some state]> states, target :: worklist))
    end.

Definition cxpr_ir_validate_scalar_fast_program {W} (program : cxpr_ir_program W) : run bool :=
  validate scalar_transfer scalar_enqueue 0 program.

Definition cxpr_ir_validate_bool_fast_program {W} (program : cxpr_ir_program W) : run bool :=
  validate bool_transfer cxpr_ir_bool_fast_enqueue (mk_fast_state 0 0) program.

(** ** Specification of the validators

    A consistent stack description gives the first instruction the empty stack
    and is closed under the transfer function along every successor. *)
Definition processed {W D} (transfer : cxpr_ir_instr W → D → option D)
    (states : list (option D)) (ip : nat) (instr : cxpr_ir_instr W) (d : D) : Prop :=
  ∃ next, transfer instr d = Some next ∧
    ∀ t, t ∈ successors ip instr → states !! t = Some (Some next).

Definition consistent {W D} (transfer : cxpr_ir_instr W → D → option D)
    (code : list (cxpr_ir_instr W)) (states : list (option D)) : Prop :=
  length states = length code ∧
  ∀ ip instr d, code !! ip = Some instr → states !! ip = Some (Some d) →
    processed transfer states ip instr d.

Definition extends {D} (states states' : list (option D)) : Prop :=
  length states = length states' ∧
  ∀ i d, states !! i = Some (Some d) → states' !! i = Some (Some d).

(** The number of instructions nothing is known of. *)
Fixpoint unseen {D} (states : list (option D)) : nat :=
  match states with
  | [] => 0
  | None :: states' => S (unseen states')
  | Some _ :: states' => unseen states'
  end.

Lemma unseen_insert {D} (states : list (option D)) i d :
  states !! i = Some None → S (unseen (<[i := Some d]> states)) = unseen states.
Proof.
  revert i; induction states as [|[s|] states IH]; intros [|i] Hi; simplify_eq/=; auto.
Qed.

Lemma unseen_replicate {D} n : unseen (replicate n (@None D)) = n.
Proof. induction n; simpl; auto. Qed.

Lemma extends_refl {D} (states : list (option D)) : extends states states.
Proof. by split. Qed.

Lemma extends_trans {D} (a b c : list (option D)) : extends a b → extends b c → extends a c.
Proof. intros [? Hab] [? Hbc]. split; [congruence|auto]. Qed.

Lemma extends_insert {D} (states : list (option D)) i d :
  states !! i = Some None → extends states (<[i := Some d]> states).
Proof.
  intros Hi. split; [by rewrite length_insert|]. intros j e Hj.
  rewrite list_lookup_insert_ne; [done|]. intros ->. congruence.
Qed.

Lemma extends_insert_below {D} (states S : list (option D)) i d :
  extends states S → S !! i = Some (Some d) → extends (<[i := Some d]> states) S.
Proof.
  intros [Hl He] Hi. split; [by rewrite length_insert|]. intros j e.
  rewrite list_lookup_insert_Some. naive_solver.
Qed.

Lemma processed_extends {W D} (transfer : cxpr_ir_instr W → D → option D) states states' ip instr d :
  extends states states' → processed transfer states ip instr d →
  processed transfer states' ip instr d.
Proof. intros [_ He] (next & ? & Hs). exists next; split; auto. Qed.

Section validator.
Context {W D : Type} `{EqDecision D}.
Context (transfer : cxpr_ir_instr W → D → option D).
Context (enqueue : nat → D → list (option D) → list nat
                   → run (option (list (option D) * list nat))).

(** What the two versions of the enqueue step have in common while the
    worklist has a free entry. *)
Definition enqueue_spec (target : nat) (d : D) (states : list (option D)) (work : list nat)
    : option (list (option D) * list nat) :=
  match states !! target with
  | None => None
  | Some None => Some (<[target := Some d]> states, target :: work)
  | Some (Some d') => if decide (d' = d) then Some (states, work) else None
  end.

Hypothesis enqueue_ok : ∀ target d states work,
  length work < work_size → enqueue target d states work = Done (enqueue_spec target d states work).

(** The effect of [enqueue_all]: [r = None] only when no description above
    [states] has [d] at every target. *)
Definition enqueued (targets : list nat) (d : D) (states : list (option D)) (work : list nat)
    (r : option (list (option D) * list nat)) : Prop :=
  match r with
  | None => ∀ S, extends states S → (∀ t, t ∈ targets → S !! t = Some (Some d)) → False
  | Some (states', work') =>
      extends states states' ∧
      length work' + unseen states' = length work + unseen states ∧
      (∀ t, t ∈ targets → states' !! t = Some (Some d)) ∧
      (∀ i, i ∈ work → i ∈ work') ∧
      (∀ i e, states' !! i = Some (Some e) → states !! i = Some (Some e) ∨ i ∈ work') ∧
      (∀ i, i ∈ work' → i ∈ work ∨ states' !! i = Some (Some d)) ∧
      (∀ S, extends states S → (∀ t, t ∈ targets → S !! t = Some (Some d)) → extends states' S)
  end.

Lemma enqueue_one target d states work :
  enqueued [target] d states work (enqueue_spec target d states work).
Proof.
  unfold enqueue_spec, enqueued.
  destruct (states !! target) as [[d'|]|] eqn:Ht.
  - destruct (decide (d' = d)) as [->|Hne].
    + split_and!; auto using extends_refl. by intros t ->%list_elem_of_singleton.
    + intros S [_ He] Hs. specialize (He _ _ Ht).
      rewrite (Hs target) in He by apply list_elem_of_here. congruence.
  - assert (target < length states) by (apply lookup_lt_Some in Ht; lia).
    pose proof (unseen_insert _ _ d Ht). simpl.
    repeat match goal with |- _ ∧ _ => split end.
    + by apply extends_insert.
    + lia.
    + intros t ->%list_elem_of_singleton. by rewrite list_lookup_insert_eq.
    + intros i Hi. by right.
    + intros i e. rewrite list_lookup_insert_Some.
      intros [(-> & _)|[_ Hs]]; [right; apply list_elem_of_here|by left].
    + intros i [->|]%elem_of_cons; [right|by left]. by rewrite list_lookup_insert_eq.
    + intros S HS Hs. apply extends_insert_below; [done|]. apply Hs, list_elem_of_here.
  - intros S [Hl _] Hs. specialize (Hs target). apply lookup_ge_None in Ht.
    rewrite lookup_ge_None_2 in Hs by lia. specialize (Hs (list_elem_of_here _ _)). done.
Qed.

Lemma enqueue_all_ok targets d states work :
  length work + unseen states < work_size →
  ∃ r, enqueue_all enqueue targets d states work = Done r ∧ enqueued targets d states work r.
Proof.
  revert states work; induction targets as [|t targets IH]; intros states work Hw.
  - exists (Some (states, work)). split; [done|]. simpl.
    split_and!; auto using extends_refl. by intros t ?%elem_of_nil.
  - cbn [enqueue_all]. rewrite enqueue_ok by lia. cbn [run_bind].
    pose proof (enqueue_one t d states work) as H1.
    destruct (enqueue_spec t d states work) as [[s1 w1]|]; simpl in H1.
    + destruct H1 as (E1 & M1 & T1 & K1 & N1 & B1 & S1).
      destruct (IH s1 w1) as (r & Hr & HR); [lia|]. exists r. split; [done|].
      destruct r as [[s2 w2]|]; simpl in HR |- *.
      * destruct HR as (E2 & M2 & T2 & K2 & N2 & B2 & S2).
        repeat match goal with |- _ ∧ _ => split end.
        -- by eapply extends_trans.
        -- lia.
        -- intros i [->|]%elem_of_cons; [|auto]. apply E2, T1. set_solver.
        -- auto.
        -- intros i e He. destruct (N2 i e He) as [Hs1|]; [|auto].
           destruct (N1 i e Hs1); auto.
        -- intros i Hi. destruct (B2 i Hi) as [Hi'|]; [|auto].
           destruct (B1 i Hi') as [|Hs]; [auto|right]. by apply E2.
        -- intros S HS Hs. apply S2; [apply S1|]; set_solver.
      * intros S HS Hs. apply (HR S); [apply S1|]; set_solver.
    + exists None. split; [done|]. intros S HS Hs. apply (H1 S HS). set_solver.
Qed.

Definition work_ok (code : list (cxpr_ir_instr W)) (states : list (option D)) (work : list nat)
    : Prop :=
  length states = length code ∧
  (∀ i, i ∈ work → ∃ d, states !! i = Some (Some d)) ∧
  (∀ ip instr d, code !! ip = Some instr → states !! ip = Some (Some d) →
     ip ∈ work ∨ processed transfer states ip instr d).

Lemma work_ok_step code states ip work instr d next states' work' :
  work_ok code states (ip :: work) → code !! ip = Some instr →
  states !! ip = Some (Some d) → transfer instr d = Some next →
  enqueued (successors ip instr) next states work (Some (states', work')) →
  work_ok code states' work'.
Proof.
  intros (Hl & Hw & Hp) Hi Hd Ht (E & _ & T & K & N & B & _). split; [destruct E; congruence|].
  split.
  - intros i Hi'. destruct (B i Hi') as [Hiw|]; [|eauto].
    destruct (Hw i) as [e He]; [set_solver|]. exists e. by apply E.
  - intros jp j e Hj He. destruct (N jp e He) as [Hs|]; [|auto].
    destruct (Hp jp j e Hj Hs) as [[-> |Hjw]%elem_of_cons|Hpr]; [right|by left; auto|right].
    + simplify_eq. by exists next.
    + by eapply processed_extends.
Qed.

Lemma validate_loop_ok code fuel states work :
  work_ok code states work → length work + unseen states ≤ fuel → fuel ≤ work_size →
  ∃ b, validate_loop transfer enqueue code fuel states work = Done b ∧
    if b then ∃ S, consistent transfer code S ∧ extends states S
    else ∀ S, consistent transfer code S → extends states S → False.
Proof.
  revert states work; induction fuel as [|fuel IH]; intros states [|ip work] Hok Hf Hb;
    simpl in Hf; try lia.
  1, 2: exists true; split; [done|]; exists states; split; [|apply extends_refl];
    destruct Hok as (Hl & _ & Hp); split; [done|]; intros jp j d Hj Hd;
    destruct (Hp jp j d Hj Hd) as [Hin|]; [by apply elem_of_nil in Hin|done].
  cbn [validate_loop]. pose proof Hok as (Hl & Hw & Hp).
  destruct (Hw ip) as [d Hd]; [set_solver|].
  destruct (lookup_lt_is_Some_2 code ip) as [instr Hi].
  { apply lookup_lt_Some in Hd. lia. }
  rewrite Hi, Hd. destruct (transfer instr d) as [next|] eqn:Ht.
  - destruct (enqueue_all_ok (successors ip instr) next states work) as (r & Hr & HR); [lia|].
    rewrite Hr. cbn [run_bind]. destruct r as [[states' work']|].
    + pose proof HR as (E & M & _ & _ & _ & _ & HS).
      destruct (IH states' work') as (b & Hv & Hb').
      { by eapply work_ok_step. }
      { lia. }
      { lia. }
      exists b. split; [done|]. destruct b.
      * destruct Hb' as (S & HcS & HeS). exists S. split; [done|]. by eapply extends_trans.
      * intros S HcS HeS. apply (Hb' S HcS). apply HS; [done|]. intros t Htt.
        destruct HcS as [_ HcS]. destruct (HcS ip instr d Hi) as (n' & Hn & Hs).
        { by apply HeS. }
        simplify_eq. auto.
    + exists false. split; [done|]. intros S HcS HeS. apply (HR S HeS). intros t Htt.
      destruct HcS as [_ HcS]. destruct (HcS ip instr d Hi) as (n' & Hn & Hs).
      { by apply HeS. }
      simplify_eq. auto.
  - exists false. split; [done|]. intros S [_ HcS] HeS.
    destruct (HcS ip instr d Hi) as (n' & Hn & _); [by apply HeS|congruence].
Qed.

(** A program the validator accepts. *)
Definition accepted (d0 : D) (program : cxpr_ir_program W) : Prop :=
  ∃ code S, prog_code program = Some code ∧ 1 ≤ length code ≤ 256 ∧
    consistent transfer code S ∧ S !! 0 = Some (Some d0).

Lemma validate_decides d0 program :
  ∃ b, validate transfer enqueue d0 program = Done b ∧ (b = true ↔ accepted d0 program).
Proof.
  unfold validate, accepted. destruct (prog_code program) as [code|] eqn:Hcode.
  2: { exists false. split; [done|]. split; [done|]. naive_solver. }
  destruct ((length code =? 0) || (256 <? length code)) eqn:Hc.
  { exists false. split; [done|]. split; [done|].
    intros (code' & S & ? & ? & _). simplify_eq.
    rewrite orb_true_iff, Nat.eqb_eq, Nat.ltb_lt in Hc. lia. }
  rewrite orb_false_iff, Nat.eqb_neq, Nat.ltb_ge in Hc. destruct Hc as [Hc0 Hc].
  set (init := <[0 := Some d0]> (replicate (length code) None)).
  assert (Hinit : ∀ i e, init !! i = Some (Some e) → i = 0 ∧ e = d0).
  { intros i e. unfold init. rewrite list_lookup_insert_Some, lookup_replicate. naive_solver. }
  assert (H0 : init !! 0 = Some (Some d0)).
  { unfold init. apply list_lookup_insert_eq. rewrite length_replicate. lia. }
  assert (Hl : length init = length code).
  { unfold init. by rewrite length_insert, length_replicate. }
  assert (Hu : S (unseen init) = length code).
  { unfold init. rewrite unseen_insert; [apply unseen_replicate|].
    apply lookup_replicate. split; [done|lia]. }
  destruct (validate_loop_ok code (length code) init [0]) as (b & Hv & Hb).
  { split; [done|]. split.
    - intros i ->%list_elem_of_singleton. eauto.
    - intros ip instr d _ [-> _]%Hinit. left. set_solver. }
  { simpl. lia. }
  { unfold work_size. lia. }
  exists b. split; [done|]. destruct b; split; try done.
  - intros _. destruct Hb as (S & HS & He). exists code, S.
    split; [done|]. split; [lia|]. split; [done|]. by apply He.
  - intros (code' & S & ? & _ & HS & HS0). simplify_eq. exfalso. apply (Hb S HS).
    split; [destruct HS; congruence|]. intros i e [-> ->]%Hinit. done.
Qed.
End validator.

Lemma scalar_enqueue_ok target d states work :
  length work < work_size →
  scalar_enqueue target d states work = Done (enqueue_spec target d states work).
Proof.
  intros Hw. unfold scalar_enqueue, enqueue_spec.
  destruct (states !! target) as [[e|]|]; [| |done].
  - destruct (decide (e = d)) as [->|]; [by rewrite Nat.eqb_refl|].
    by rewrite (proj2 (Nat.eqb_neq e d)).
  - by rewrite (proj2 (Nat.leb_gt _ _)).
Qed.

Lemma bool_enqueue_ok target d states work :
  length work < work_size →
  cxpr_ir_bool_fast_enqueue target d states work = Done (enqueue_spec target d states work).
Proof.
  intros Hw. unfold cxpr_ir_bool_fast_enqueue, enqueue_spec.
  rewrite (proj2 (Nat.leb_gt work_size _)), orb_false_r by done.
  destruct (states !! target) as [[[n b]|]|] eqn:Ht.
  - rewrite (proj2 (Nat.leb_gt _ _)) by (apply lookup_lt_Some in Ht; lia).
    destruct d as [n' b']; simpl. destruct (decide _) as [[= -> ->]|Hne].
    + by rewrite !Nat.eqb_refl.
    + destruct (Nat.eqb_spec n n'), (Nat.eqb_spec b b'); try done. congruence.
  - by rewrite (proj2 (Nat.leb_gt _ _)) by (apply lookup_lt_Some in Ht; lia).
  - by rewrite (proj2 (Nat.leb_le _ _)) by (apply lookup_ge_None in Ht; lia).
Qed.

(** [cxpr_ir_validate_scalar_fast_program] always ends with an answer, its
    worklist never leaves its 256 entries, and the answer is [true] exactly for
    the programs of 1 to 256 instructions that have one operand-stack depth per
    reachable instruction, at most 64, under which no instruction pops more than
    is there, every successor exists and every return finds one value. *)
Theorem scalar_validator_decides {W} (program : cxpr_ir_program W) :
  ∃ b, cxpr_ir_validate_scalar_fast_program program = Done b ∧
       (b = true ↔ accepted scalar_transfer 0 program).
Proof. apply validate_decides, scalar_enqueue_ok. Qed.

(** [cxpr_ir_validate_bool_fast_program] always ends with an answer, and the
    answer is [true] exactly for the programs of 1 to 256 instructions that have
    one pair of stack depths (numbers, booleans) per reachable instruction, each
    at most 64, under which every instruction finds its operands on the right
    stack, every successor exists and every return finds exactly one boolean. *)
Theorem bool_validator_decides {W} (program : cxpr_ir_program W) :
  ∃ b, cxpr_ir_validate_bool_fast_program program = Done b ∧
       (b = true ↔ accepted bool_transfer (mk_fast_state 0 0) program).
Proof. apply validate_decides, bool_enqueue_ok. Qed.

Lemma scalar_accepted {W} (program : cxpr_ir_program W) :
  cxpr_ir_validate_scalar_fast_program program = Done true → accepted scalar_transfer 0 program.
Proof.
  intros Hv. destruct (validate_decides scalar_transfer _ scalar_enqueue_ok 0 program)
    as (b & Hb & Hiff). unfold cxpr_ir_validate_scalar_fast_program in Hv.
  rewrite Hv in Hb. simplify_eq. by apply Hiff.
Qed.

Lemma bool_accepted {W} (program : cxpr_ir_program W) :
  cxpr_ir_validate_bool_fast_program program = Done true →
  accepted bool_transfer (mk_fast_state 0 0) program.
Proof.
  intros Hv. destruct (validate_decides bool_transfer _ bool_enqueue_ok (mk_fast_state 0 0) program)
    as (b & Hb & Hiff). unfold cxpr_ir_validate_bool_fast_program in Hv.
  rewrite Hv in Hb. simplify_eq. by apply Hiff.
Qed.
