(* ===== verification/IRFast.v ===== *)
(** * IRFast: the unchecked executors of compiled programs

    [src/ir/exec/fast.c]: [cxpr_ir_exec_scalar_fast] keeps every operand on one
    stack of doubles, [cxpr_ir_exec_bool_fast] splits numbers and booleans over
    two stacks.  Neither checks a stack bound: a read below the stack, a write
    above its 64 entries, a call through a missing callback and a dispatch to one
    of the two opcodes without a table entry are [Undef].  The theorems show that
    none of it happens to a program its validator ([IR.v]) accepts. *)

From Stdlib Require Import Ascii String ZArith Lia.
From stdpp Require Import base list strings sets relations.
From S2P Require Import Prelude Float64 Types Ast IR.
Local Open Scope run_scope.

(** ** The host interface

    What the executors call outside [fast.c], on a state [W] that holds the
    context, the program's lookup cache, the memo table and the callbacks'
    userdata: the cached lookup of a variable or [$parameter] by the
    instruction at [ip] ([cxpr_ir_exec_lookup_root_cached] and
    [cxpr_ir_lookup_cached_scalar]), the memo table of calls, the evaluation of
    a defined function (its value, or the error it leaves in [err]), and [pow]
    of [<math.h>]. *)
Class FastHost (W : Type) : Type := {
  lookup_scalar : bool → nat → cxpr_ir_instr W → W → option float64 * W;
  cxpr_ir_call_memo_get : cxpr_ir_instr W → W → option cxpr_value * W;
  cxpr_ir_call_memo_set : cxpr_ir_instr W → cxpr_value → W → W;
  cxpr_ir_call_defined_scalar : cxpr_ir_instr W → list cxpr_value → W
                                → (cxpr_value + cxpr_error) * W;
  pow : float64 → float64 → float64
}.

(** ** Errors *)

(** [err] was cleared on entry. *)
Definition error_of (code : cxpr_error_code) (message : string) : cxpr_error :=
  mk_error code (Some message) 0 0 0.

Definition cxpr_ir_runtime_error (message : string) : cxpr_error := error_of CXPR_ERR_SYNTAX message.

Definition cxpr_ir_make_not_found (message : string) : cxpr_error :=
  error_of CXPR_ERR_UNKNOWN_IDENTIFIER message.

(** The message buffer has 256 characters, the terminator included. *)
Definition quoted_message (prefix : string) (name : option string) : string :=
  match name with
  | None | Some EmptyString => prefix
  | Some name => str_take 255 (prefix ++ " '" ++ name ++ "'")
  end.

Definition cxpr_ir_unknown_param_message {W} (instr : cxpr_ir_instr W) : string :=
  quoted_message "Unknown parameter variable" (ir_name instr).

Definition cxpr_ir_unknown_identifier_message {W} (instr : cxpr_ir_instr W) : string :=
  quoted_message "Unknown identifier" (ir_name instr).

(** ** Operations on doubles shared by both executors *)

(** [(value > 0.0) - (value < 0.0)] as a double. *)
Definition sign_of (value : float64) : float64 :=
  of_Z (Z.b2z (fgtb value fzero) - Z.b2z (fltb value fzero)).

Definition square (x : float64) : float64 := fmul x x.

Definition clamp (value a b : float64) : float64 :=
  let value := if fltb value a then a else value in
  if fgtb value b then b else value.

Definition comparison (op : cxpr_opcode) (a b : float64) : bool :=
  match op with
  | CXPR_OP_CMP_EQ => feqb a b
  | CXPR_OP_CMP_NEQ => fneb a b
  | CXPR_OP_CMP_LT => fltb a b
  | CXPR_OP_CMP_LTE => fleb a b
  | CXPR_OP_CMP_GT => fgtb a b
  | _ => fgeb a b
  end.

(** The last [n] operands in the order they were pushed, and the rest of the
    stack, top first; [None] when the stack has fewer. *)
Definition pop_args {A} (n : nat) (stack : list A) : option (list A * list A) :=
  if length stack <? n then None else Some (rev (take n stack), drop n stack).

(** A call through the union member the opcode expects. *)
Definition native_apply {W} (n : native_scalar W) (args : list float64) (w : W)
    : option (float64 * W) :=
  match n, args with
  | CXPR_NATIVE_KIND_UNARY f, [a] => Some (f a w)
  | CXPR_NATIVE_KIND_BINARY f, [a; b] => Some (f a b w)
  | CXPR_NATIVE_KIND_TERNARY f, [a; b; c] => Some (f a b c w)
  | _, _ => None
  end.

Inductive stepped (St R : Type) : Type :=
  | Next (st : St)
  | Stop (r : R).
Arguments Next {St R} st.
Arguments Stop {St R} r.

(** The iteration of a dispatch loop. *)
Fixpoint run_steps {St R} (step : St → run (stepped St R)) (fuel : nat) (st : St) : run R :=
  match fuel with
  | O => OutOfFuel
  | S fuel' =>
      let* s := step st in
      match s with
      | Next st => run_steps step fuel' st
      | Stop r => Done r
      end
  end.

(** ** The scalar executor *)

Record scalar_state (W : Type) : Type := mk_scalar {
  s_ip : nat;
  s_stack : list float64;
  s_locals : list float64;
  s_world : W
}.
Arguments mk_scalar {W} s_ip s_stack s_locals s_world.
Arguments s_ip {W} s.
Arguments s_stack {W} s.
Arguments s_locals {W} s.
Arguments s_world {W} s.

(** The returned double, the final [err], and what the caller still sees. *)
Record scalar_result (W : Type) : Type := mk_scalar_result {
  sr_value : float64;
  sr_error : cxpr_error;
  sr_locals : list float64;
  sr_world : W
}.
Arguments mk_scalar_result {W} sr_value sr_error sr_locals sr_world.
Arguments sr_value {W} s.
Arguments sr_error {W} s.
Arguments sr_locals {W} s.
Arguments sr_world {W} s.

Section scalar.
Context {W : Type} `{FastHost W}.
Abbreviation step_result := (run (stepped (scalar_state W) (scalar_result W))).

Definition s_fail (e : cxpr_error) (st : scalar_state W) : step_result :=
  Done (Stop (mk_scalar_result fnan e (s_locals st) (s_world st))).

(** [stack[sp++] = v; ++ip] *)
Definition s_push (v : float64) (st : scalar_state W) : step_result :=
  if CXPR_IR_STACK_CAPACITY <=? length (s_stack st) then Undef
  else Done (Next (mk_scalar (s_ip st + 1) (v :: s_stack st) (s_locals st) (s_world st))).

Definition s_goto (ip : nat) (st : scalar_state W) : step_result :=
  Done (Next (mk_scalar ip (s_stack st) (s_locals st) (s_world st))).

Definition s_with (stack : list float64) (w : W) (st : scalar_state W) : scalar_state W :=
  mk_scalar (s_ip st) stack (s_locals st) w.

(** [stack[sp - 1] = f(stack[sp - 1])] *)
Definition s_unary (f : float64 → float64) (st : scalar_state W) : step_result :=
  match s_stack st with
  | v :: rest => s_push (f v) (s_with rest (s_world st) st)
  | _ => Undef
  end.

Definition s_binary (f : float64 → float64 → float64) (st : scalar_state W) : step_result :=
  match s_stack st with
  | b :: a :: rest => s_push (f a b) (s_with rest (s_world st) st)
  | _ => Undef
  end.

Definition s_divide (f : float64 → float64 → float64) (message : string) (st : scalar_state W)
    : step_result :=
  match s_stack st with
  | b :: a :: rest =>
      if feqb b fzero then s_fail (error_of CXPR_ERR_DIVISION_BY_ZERO message) st
      else s_push (f a b) (s_with rest (s_world st) st)
  | _ => Undef
  end.

Definition s_load_local (f : float64 → float64) (instr : cxpr_ir_instr W) (st : scalar_state W)
    : step_result :=
  match s_locals st !! ir_index instr with
  | None => s_fail (cxpr_ir_runtime_error "Unknown local variable") st
  | Some v => s_push (f v) st
  end.

Definition s_load (param : bool) (f : float64 → float64) (instr : cxpr_ir_instr W)
    (st : scalar_state W) : step_result :=
  let '(found, w) := lookup_scalar param (s_ip st) instr (s_world st) in
  let st := s_with (s_stack st) w st in
  match found with
  | None =>
      s_fail (cxpr_ir_make_not_found
                (if param then cxpr_ir_unknown_param_message instr
                 else cxpr_ir_unknown_identifier_message instr)) st
  | Some v => s_push (f v) st
  end.

(** The value of a call: a number, or a boolean as [1.0] or [0.0]. *)
Definition s_push_scalar (v : cxpr_value) (otherwise : cxpr_error) (st : scalar_state W)
    : step_result :=
  match v with
  | VNum d => s_push d st
  | VBool b => s_push (of_bool b) st
  | _ => s_fail otherwise st
  end.

Definition memo_error : cxpr_error :=
  cxpr_ir_runtime_error "Memoized function result is not scalar".

Definition s_call_native (arity : nat) (instr : cxpr_ir_instr W) (st : scalar_state W)
    : step_result :=
  match pop_args arity (s_stack st) with
  | None => Undef
  | Some (args, rest) =>
      let st := s_with rest (s_world st) st in
      let '(cached, w) := cxpr_ir_call_memo_get instr (s_world st) in
      let st := s_with rest w st in
      match cached with
      | Some v => s_push_scalar v memo_error st
      | None =>
          match ir_func instr with
          | None => Undef
          | Some f =>
              match native_apply (fe_native f) args (s_world st) with
              | None => Undef
              | Some (value, w) =>
                  s_push value (s_with rest (cxpr_ir_call_memo_set instr (VNum value) w) st)
              end
          end
      end
  end.

Definition s_call_func (instr : cxpr_ir_instr W) (st : scalar_state W) : step_result :=
  match ir_func instr with
  | None => Undef
  | Some f =>
      if fe_typed_func f then
        s_fail (cxpr_ir_runtime_error "Typed function requires typed execution path") st
      else
        match pop_args (ir_index instr) (s_stack st) with
        | None => Undef
        | Some (args, rest) =>
            let st := s_with rest (s_world st) st in
            let '(cached, w) := cxpr_ir_call_memo_get instr (s_world st) in
            let st := s_with rest w st in
            match cached with
            | Some v => s_push_scalar v memo_error st
            | None =>
                match fe_value_func f, fe_sync_func f with
                | Some value_func, _ =>
                    if CXPR_MAX_CALL_ARGS <? ir_index instr then Undef
                    else
                      let '(v, w) := value_func (map VNum args) (s_world st) in
                      match v with
                      | VNum _ | VBool _ =>
                          s_push_scalar v memo_error
                            (s_with rest (cxpr_ir_call_memo_set instr v w) st)
                      | _ => s_fail (cxpr_ir_runtime_error "Function did not evaluate to scalar")
                               (s_with rest w st)
                      end
                | None, Some sync_func =>
                    let '(d, w) := sync_func args (s_world st) in
                    s_push d (s_with rest (cxpr_ir_call_memo_set instr (VNum d) w) st)
                | None, None => Undef
                end
            end
        end
  end.

Definition s_call_defined (instr : cxpr_ir_instr W) (st : scalar_state W) : step_result :=
  match pop_args (ir_index instr) (s_stack st) with
  | None => Undef
  | Some (args, rest) =>
      if CXPR_MAX_CALL_ARGS <? ir_index instr then Undef
      else
        let '(result, w) := cxpr_ir_call_defined_scalar instr (map VNum args) (s_world st) in
        match result with
        | inr e => s_fail e (s_with (s_stack st) w st)
        | inl v =>
            s_push_scalar v
              (error_of CXPR_ERR_TYPE_MISMATCH "Defined function returned non-scalar")
              (s_with rest w st)
        end
  end.

Definition s_jump_if (taken : float64 → bool) (instr : cxpr_ir_instr W) (st : scalar_state W)
    : step_result :=
  match s_stack st with
  | v :: rest =>
      s_goto (if taken v then ir_index instr else s_ip st + 1) (s_with rest (s_world st) st)
  | [] => Undef
  end.

Definition s_store_local (instr : cxpr_ir_instr W) (st : scalar_state W) : step_result :=
  if length (s_locals st) <=? ir_index instr then
    s_fail (cxpr_ir_runtime_error "Unknown local variable") st
  else
    match s_stack st with
    | v :: rest =>
        Done (Next (mk_scalar (s_ip st + 1) rest (<[ir_index instr := v]> (s_locals st))
                      (s_world st)))
    | [] => Undef
    end.

Definition s_return (st : scalar_state W) : step_result :=
  match s_stack st with
  | [v] => Done (Stop (mk_scalar_result v error_zero (s_locals st) (s_world st)))
  | _ => s_fail (cxpr_ir_runtime_error "IR stack imbalance on return") st
  end.

(** One pass through [CXPR_FAST_DISPATCH] and the label it jumps to. *)
Definition scalar_step (code : list (cxpr_ir_instr W)) (st : scalar_state W) : step_result :=
  match code !! s_ip st with
  | None => s_fail (cxpr_ir_runtime_error "IR program fell off end without return") st
  | Some instr =>
      match ir_op instr with
      | CXPR_OP_PUSH_CONST => s_push (ir_value instr) st
      | CXPR_OP_PUSH_BOOL => s_push (of_bool (fneb (ir_value instr) fzero)) st
      | CXPR_OP_LOAD_LOCAL => s_load_local id instr st
      | CXPR_OP_LOAD_LOCAL_SQUARE => s_load_local square instr st
      | CXPR_OP_LOAD_VAR => s_load false id instr st
      | CXPR_OP_LOAD_VAR_SQUARE => s_load false square instr st
      | CXPR_OP_LOAD_PARAM => s_load true id instr st
      | CXPR_OP_LOAD_PARAM_SQUARE => s_load true square instr st
      | CXPR_OP_ADD => s_binary fadd st
      | CXPR_OP_SUB => s_binary fsub st
      | CXPR_OP_MUL => s_binary fmul st
      | CXPR_OP_DIV => s_divide fdiv "Division by zero" st
      | CXPR_OP_MOD => s_divide fmod "Modulo by zero" st
      | CXPR_OP_POW => s_binary pow st
      | CXPR_OP_CMP_EQ | CXPR_OP_CMP_NEQ | CXPR_OP_CMP_LT | CXPR_OP_CMP_LTE | CXPR_OP_CMP_GT
      | CXPR_OP_CMP_GTE => s_binary (λ a b, of_bool (comparison (ir_op instr) a b)) st
      | CXPR_OP_SQUARE => s_unary square st
      | CXPR_OP_NOT => s_unary (λ v, of_bool (feqb v fzero)) st
      | CXPR_OP_NEG => s_unary fneg st
      | CXPR_OP_SIGN => s_unary sign_of st
      | CXPR_OP_SQRT => s_unary fsqrt st
      | CXPR_OP_ABS => s_unary fabs st
      | CXPR_OP_FLOOR => s_unary ffloor st
      | CXPR_OP_CEIL => s_unary fceil st
      | CXPR_OP_ROUND => s_unary fround st
      | CXPR_OP_CLAMP =>
          match s_stack st with
          | b :: a :: value :: rest => s_push (clamp value a b) (s_with rest (s_world st) st)
          | _ => Undef
          end
      | CXPR_OP_CALL_UNARY => s_call_native 1 instr st
      | CXPR_OP_CALL_BINARY => s_call_native 2 instr st
      | CXPR_OP_CALL_TERNARY => s_call_native 3 instr st
      | CXPR_OP_CALL_FUNC => s_call_func instr st
      | CXPR_OP_CALL_DEFINED => s_call_defined instr st
      | CXPR_OP_JUMP => s_goto (ir_index instr) st
      | CXPR_OP_JUMP_IF_FALSE => s_jump_if (λ v, feqb v fzero) instr st
      | CXPR_OP_JUMP_IF_TRUE => s_jump_if (λ v, fneb v fzero) instr st
      | CXPR_OP_STORE_LOCAL => s_store_local instr st
      | CXPR_OP_RETURN => s_return st
      | CXPR_OP_PUSH_INT64 | CXPR_OP_BUILD_ARRAY => Undef
      | _ => s_fail (cxpr_ir_runtime_error "Unsupported fast IR opcode") st
      end
  end.

Definition cxpr_ir_exec_scalar_fast (fuel : nat) (program : cxpr_ir_program W) (w : W)
    (locals : list float64) : run (scalar_result W) :=
  match prog_code program with
  | None => Done (mk_scalar_result fnan (cxpr_ir_runtime_error "Empty IR program") locals w)
  | Some code => run_steps (scalar_step code) fuel (mk_scalar 0 [] locals w)
  end.
End scalar.

(** ** The boolean executor *)

Record bool_state (W : Type) : Type := mk_bool {
  b_ip : nat;
  b_nstack : list float64;
  b_bstack : list bool;
  b_world : W
}.
Arguments mk_bool {W} b_ip b_nstack b_bstack b_world.
Arguments b_ip {W} b.
Arguments b_nstack {W} b.
Arguments b_bstack {W} b.
Arguments b_world {W} b.

(** [br_value] is [*out_value] when the function returns [true], [None] when it
    returns [false]. *)
Record bool_result (W : Type) : Type := mk_bool_result {
  br_value : option bool;
  br_error : cxpr_error;
  br_world : W
}.
Arguments mk_bool_result {W} br_value br_error br_world.
Arguments br_value {W} b.
Arguments br_error {W} b.
Arguments br_world {W} b.

Section boolean.
Context {W : Type} `{FastHost W}.
Variable locals : list float64.
Abbreviation step_result := (run (stepped (bool_state W) (bool_result W))).

Definition b_fail (e : cxpr_error) (st : bool_state W) : step_result :=
  Done (Stop (mk_bool_result None e (b_world st))).

Definition b_npush (v : float64) (st : bool_state W) : step_result :=
  if CXPR_IR_STACK_CAPACITY <=? length (b_nstack st) then Undef
  else Done (Next (mk_bool (b_ip st + 1) (v :: b_nstack st) (b_bstack st) (b_world st))).

Definition b_bpush (v : bool) (st : bool_state W) : step_result :=
  if CXPR_IR_STACK_CAPACITY <=? length (b_bstack st) then Undef
  else Done (Next (mk_bool (b_ip st + 1) (b_nstack st) (v :: b_bstack st) (b_world st))).

Definition b_with (nstack : list float64) (w : W) (st : bool_state W) : bool_state W :=
  mk_bool (b_ip st) nstack (b_bstack st) w.

Definition b_unary (f : float64 → float64) (st : bool_state W) : step_result :=
  match b_nstack st with
  | v :: rest => b_npush (f v) (b_with rest (b_world st) st)
  | [] => Undef
  end.

Definition b_binary (f : float64 → float64 → float64) (st : bool_state W) : step_result :=
  match b_nstack st with
  | b :: a :: rest => b_npush (f a b) (b_with rest (b_world st) st)
  | _ => Undef
  end.

Definition b_compare (f : float64 → float64 → bool) (st : bool_state W) : step_result :=
  match b_nstack st with
  | b :: a :: rest => b_bpush (f a b) (b_with rest (b_world st) st)
  | _ => Undef
  end.

Definition b_divide (f : float64 → float64 → float64) (message : string) (st : bool_state W)
    : step_result :=
  match b_nstack st with
  | b :: a :: rest =>
      if feqb b fzero then b_fail (error_of CXPR_ERR_DIVISION_BY_ZERO message) st
      else b_npush (f a b) (b_with rest (b_world st) st)
  | _ => Undef
  end.

Definition b_load_local (f : float64 → float64) (instr : cxpr_ir_instr W) (st : bool_state W)
    : step_result :=
  match locals !! ir_index instr with
  | None => b_fail (cxpr_ir_runtime_error "Unknown local variable") st
  | Some v => b_npush (f v) st
  end.

Definition b_load (param : bool) (f : float64 → float64) (instr : cxpr_ir_instr W)
    (st : bool_state W) : step_result :=
  let '(found, w) := lookup_scalar param (b_ip st) instr (b_world st) in
  let st := b_with (b_nstack st) w st in
  match found with
  | None =>
      b_fail (cxpr_ir_make_not_found
                (if param then cxpr_ir_unknown_param_message instr
                 else cxpr_ir_unknown_identifier_message instr)) st
  | Some v => b_npush (f v) st
  end.

(** The value of a call goes to the stack of its runtime type. *)
Definition b_push_typed (v : cxpr_value) (otherwise : cxpr_error) (st : bool_state W)
    : step_result :=
  match v with
  | VBool b => b_bpush b st
  | VNum d => b_npush d st
  | _ => b_fail otherwise st
  end.

Definition b_call_native (arity : nat) (instr : cxpr_ir_instr W) (st : bool_state W)
    : step_result :=
  match pop_args arity (b_nstack st) with
  | None => Undef
  | Some (args, rest) =>
      let st := b_with rest (b_world st) st in
      let '(cached, w) := cxpr_ir_call_memo_get instr (b_world st) in
      let st := b_with rest w st in
      match cached with
      | Some v => b_push_typed v memo_error st
      | None =>
          match ir_func instr with
          | None => Undef
          | Some f =>
              match native_apply (fe_native f) args (b_world st) with
              | None => Undef
              | Some (value, w) =>
                  b_npush value (b_with rest (cxpr_ir_call_memo_set instr (VNum value) w) st)
              end
          end
      end
  end.

Definition b_call_func (instr : cxpr_ir_instr W) (st : bool_state W) : step_result :=
  match ir_func instr with
  | None => Undef
  | Some f =>
      if fe_typed_func f then
        b_fail (cxpr_ir_runtime_error "Typed function requires typed execution path") st
      else
        match pop_args (ir_index instr) (b_nstack st) with
        | None => Undef
        | Some (args, rest) =>
            let st := b_with rest (b_world st) st in
            let '(cached, w) := cxpr_ir_call_memo_get instr (b_world st) in
            let st := b_with rest w st in
            match cached with
            | Some v => b_push_typed v memo_error st
            | None =>
                match fe_value_func f, fe_sync_func f with
                | Some value_func, _ =>
                    if CXPR_MAX_CALL_ARGS <? ir_index instr then Undef
                    else
                      let '(v, w) := value_func (map VNum args) (b_world st) in
                      match v with
                      | VNum _ | VBool _ =>
                          b_push_typed v memo_error
                            (b_with rest (cxpr_ir_call_memo_set instr v w) st)
                      | _ => b_fail (cxpr_ir_runtime_error "Function did not evaluate to scalar")
                               (b_with rest w st)
                      end
                | None, Some sync_func =>
                    let '(d, w) := sync_func args (b_world st) in
                    b_npush d (b_with rest (cxpr_ir_call_memo_set instr (VNum d) w) st)
                | None, None => Undef
                end
            end
        end
  end.

Definition b_call_defined (instr : cxpr_ir_instr W) (st : bool_state W) : step_result :=
  match pop_args (ir_index instr) (b_nstack st) with
  | None => Undef
  | Some (args, rest) =>
      let '(cached, w) := cxpr_ir_call_memo_get instr (b_world st) in
      let st := b_with (b_nstack st) w st in
      match cached with
      | Some v =>
          b_push_typed v
            (error_of CXPR_ERR_TYPE_MISMATCH "Memoized defined function returned non-scalar")
            (b_with rest (b_world st) st)
      | None =>
          if CXPR_MAX_CALL_ARGS <? ir_index instr then Undef
          else
            let '(result, w) := cxpr_ir_call_defined_scalar instr (map VNum args) (b_world st) in
            match result with
            | inr e => b_fail e (b_with (b_nstack st) w st)
            | inl v =>
                match v with
                | VNum _ | VBool _ =>
                    b_push_typed v memo_error
                      (b_with rest (cxpr_ir_call_memo_set instr v w) st)
                | _ => b_fail
                         (error_of CXPR_ERR_TYPE_MISMATCH "Defined function returned non-scalar")
                         (b_with rest w st)
                end
            end
      end
  end.

Definition b_jump_if (taken : bool → bool) (instr : cxpr_ir_instr W) (st : bool_state W)
    : step_result :=
  match b_bstack st with
  | bv :: rest =>
      Done (Next (mk_bool (if taken bv then ir_index instr else b_ip st + 1)
                    (b_nstack st) rest (b_world st)))
  | [] => Undef
  end.

Definition b_not (st : bool_state W) : step_result :=
  match b_bstack st with
  | bv :: rest =>
      Done (Next (mk_bool (b_ip st + 1) (b_nstack st) (negb bv :: rest) (b_world st)))
  | [] => Undef
  end.

Definition b_return (st : bool_state W) : step_result :=
  match b_nstack st, b_bstack st with
  | [], [bv] => Done (Stop (mk_bool_result (Some bv) error_zero (b_world st)))
  | _, _ => b_fail (cxpr_ir_runtime_error "IR stack imbalance on bool return") st
  end.

Definition bool_step (code : list (cxpr_ir_instr W)) (st : bool_state W) : step_result :=
  match code !! b_ip st with
  | None => b_fail (cxpr_ir_runtime_error "IR program fell off end without return") st
  | Some instr =>
      match ir_op instr with
      | CXPR_OP_PUSH_CONST => b_npush (ir_value instr) st
      | CXPR_OP_PUSH_BOOL => b_bpush (fneb (ir_value instr) fzero) st
      | CXPR_OP_LOAD_LOCAL => b_load_local id instr st
      | CXPR_OP_LOAD_LOCAL_SQUARE => b_load_local square instr st
      | CXPR_OP_LOAD_VAR => b_load false id instr st
      | CXPR_OP_LOAD_VAR_SQUARE => b_load false square instr st
      | CXPR_OP_LOAD_PARAM => b_load true id instr st
      | CXPR_OP_LOAD_PARAM_SQUARE => b_load true square instr st
      | CXPR_OP_ADD => b_binary fadd st
      | CXPR_OP_SUB => b_binary fsub st
      | CXPR_OP_MUL => b_binary fmul st
      | CXPR_OP_DIV => b_divide fdiv "Division by zero" st
      | CXPR_OP_MOD => b_divide fmod "Modulo by zero" st
      | CXPR_OP_POW => b_binary pow st
      | CXPR_OP_CMP_EQ | CXPR_OP_CMP_NEQ | CXPR_OP_CMP_LT | CXPR_OP_CMP_LTE | CXPR_OP_CMP_GT
      | CXPR_OP_CMP_GTE => b_compare (comparison (ir_op instr)) st
      | CXPR_OP_SQUARE => b_unary square st
      | CXPR_OP_NOT => b_not st
      | CXPR_OP_NEG => b_unary fneg st
      | CXPR_OP_SIGN => b_unary sign_of st
      | CXPR_OP_SQRT => b_unary fsqrt st
      | CXPR_OP_ABS => b_unary fabs st
      | CXPR_OP_FLOOR => b_unary ffloor st
      | CXPR_OP_CEIL => b_unary fceil st
      | CXPR_OP_ROUND => b_unary fround st
      | CXPR_OP_CLAMP =>
          match b_nstack st with
          | b :: a :: value :: rest => b_npush (clamp value a b) (b_with rest (b_world st) st)
          | _ => Undef
          end
      | CXPR_OP_CALL_UNARY => b_call_native 1 instr st
      | CXPR_OP_CALL_BINARY => b_call_native 2 instr st
      | CXPR_OP_CALL_TERNARY => b_call_native 3 instr st
      | CXPR_OP_CALL_FUNC => b_call_func instr st
      | CXPR_OP_CALL_DEFINED => b_call_defined instr st
      | CXPR_OP_JUMP =>
          Done (Next (mk_bool (ir_index instr) (b_nstack st) (b_bstack st) (b_world st)))
      | CXPR_OP_JUMP_IF_FALSE => b_jump_if negb instr st
      | CXPR_OP_JUMP_IF_TRUE => b_jump_if id instr st
      | CXPR_OP_RETURN => b_return st
      | CXPR_OP_PUSH_INT64 | CXPR_OP_BUILD_ARRAY => Undef
      | _ => b_fail (cxpr_ir_runtime_error "Unsupported bool fast IR opcode") st
      end
  end.

(** [has_out] is false for a NULL [out_value]. *)
Definition cxpr_ir_exec_bool_fast (fuel : nat) (program : cxpr_ir_program W) (w : W)
    (has_out : bool) : run (bool_result W) :=
  if negb has_out then
    Done (mk_bool_result None (error_of CXPR_ERR_TYPE_MISMATCH "Output pointer is NULL") w)
  else
    match prog_code program with
    | None => Done (mk_bool_result None (cxpr_ir_runtime_error "Empty IR program") w)
    | Some code => run_steps (bool_step code) fuel (mk_bool 0 [] [] w)
    end.
End boolean.
