(* ===== verification/IRSafety.v ===== *)
(** * IRSafety: validated programs run safely

    The link between the validators of [IR.v] and the executors of [IRFast.v]:
    along every run of an accepted program the stacks have the depths the
    validator computed, so no step is undefined, and a program whose jumps go
    forward, as the compiler emits them, returns within one step per
    instruction. *)

From Stdlib Require Import Ascii String ZArith Lia.
From stdpp Require Import base list strings sets relations.
From S2P Require Import Prelude Float64 Types Ast IR IRFast.

(** The call instructions carry the callback their opcode calls. *)
Definition linked {W} (instr : cxpr_ir_instr W) : bool :=
  match ir_op instr, ir_func instr with
  | CXPR_OP_CALL_UNARY, Some f =>
      match fe_native f with CXPR_NATIVE_KIND_UNARY _ => true | _ => false end
  | CXPR_OP_CALL_BINARY, Some f =>
      match fe_native f with CXPR_NATIVE_KIND_BINARY _ => true | _ => false end
  | CXPR_OP_CALL_TERNARY, Some f =>
      match fe_native f with CXPR_NATIVE_KIND_TERNARY _ => true | _ => false end
  | CXPR_OP_CALL_FUNC, Some f =>
      fe_typed_func f || is_some (fe_value_func f) || is_some (fe_sync_func f)
  | CXPR_OP_CALL_UNARY, None | CXPR_OP_CALL_BINARY, None | CXPR_OP_CALL_TERNARY, None
  | CXPR_OP_CALL_FUNC, None => false
  | _, _ => true
  end.

Lemma pop_args_ok {A} n (stack : list A) :
  n ≤ length stack →
  ∃ args rest, pop_args n stack = Some (args, rest) ∧ length args = n ∧
    length rest = length stack - n.
Proof.
  intros Hn. unfold pop_args. rewrite (proj2 (Nat.ltb_ge _ _)) by lia.
  eexists _, _. split; [done|]. rewrite length_rev, length_take, length_drop. lia.
Qed.

(** The stack depth an effect leaves. *)
Lemma scalar_transfer_inv {W} (instr : cxpr_ir_instr W) depth next :
  scalar_transfer instr depth = Some next →
  ∃ pops pushes, cxpr_ir_scalar_stack_effect instr = Some (pops, pushes) ∧ pops ≤ depth ∧
    next = depth - pops + pushes ∧ next ≤ CXPR_IR_STACK_CAPACITY ∧
    (ir_op instr = CXPR_OP_RETURN → depth = 1).
Proof.
  unfold scalar_transfer. destruct (cxpr_ir_scalar_stack_effect instr) as [[pops pushes]|]; [|done].
  destruct (Nat.ltb_spec depth pops); [done|].
  destruct (Nat.ltb_spec CXPR_IR_STACK_CAPACITY (depth - pops + pushes)); [done|].
  intros Ht. exists pops, pushes.
  destruct (ir_op instr); simplify_eq; split_and!; auto; try done.
  all: destruct (Nat.eqb_spec depth 1); simplify_eq/=; auto.
Qed.

Section scalar_safety.
Context {W : Type} `{FastHost W}.
Implicit Types (st : scalar_state W) (instr : cxpr_ir_instr W).

(** A step that ends the program, or goes on at one of [targets] with [next]
    operands. *)
Definition s_lands (targets : list nat) (next : nat)
    (r : run (stepped (scalar_state W) (scalar_result W))) : Prop :=
  match r with
  | Done (Next st') => s_ip st' ∈ targets ∧ length (s_stack st') = next
  | Done (Stop _) => True
  | _ => False
  end.

Lemma s_push_lands v st ip next :
  ip = s_ip st + 1 → next = S (length (s_stack st)) → next ≤ CXPR_IR_STACK_CAPACITY →
  s_lands [ip] next (s_push v st).
Proof.
  intros -> -> Hn. unfold s_push. rewrite (proj2 (Nat.leb_gt _ _)) by lia.
  split; [apply list_elem_of_here|done].
Qed.

Lemma s_push_scalar_lands v e st ip next :
  ip = s_ip st + 1 → next = S (length (s_stack st)) → next ≤ CXPR_IR_STACK_CAPACITY →
  s_lands [ip] next (s_push_scalar v e st).
Proof. intros. destruct v; simpl; auto using s_push_lands. Qed.

Lemma s_call_native_lands arity instr st next :
  arity ≤ length (s_stack st) → next = length (s_stack st) - arity + 1 →
  next ≤ CXPR_IR_STACK_CAPACITY →
  (∃ f, ir_func instr = Some f ∧
     ∀ args w, length args = arity → is_some (native_apply (fe_native f) args w) = true) →
  s_lands [s_ip st + 1] next (s_call_native arity instr st).
Proof.
  intros Ha Hn Hc (f & Hf & Hnat). unfold s_call_native.
  destruct (pop_args_ok arity (s_stack st) Ha) as (args & rest & -> & Hl & Hr).
  destruct (cxpr_ir_call_memo_get _ _) as [[v|] w0].
  - apply s_push_scalar_lands; simpl; lia.
  - rewrite Hf. specialize (Hnat args w0 Hl).
    simpl. destruct (native_apply _ _ _) as [[value w]|]; [|done].
    apply s_push_lands; simpl; lia.
Qed.

Lemma s_call_func_lands instr st next f :
  ir_func instr = Some f →
  fe_typed_func f || is_some (fe_value_func f) || is_some (fe_sync_func f) = true →
  ir_index instr ≤ length (s_stack st) → ir_index instr ≤ CXPR_MAX_CALL_ARGS →
  next = length (s_stack st) - ir_index instr + 1 → next ≤ CXPR_IR_STACK_CAPACITY →
  s_lands [s_ip st + 1] next (s_call_func instr st).
Proof.
  intros Hf Hl Ha Hm Hn Hc. unfold s_call_func. rewrite Hf.
  destruct (fe_typed_func f); [done|]. simpl in Hl.
  destruct (pop_args_ok (ir_index instr) (s_stack st) Ha) as (args & rest & -> & Hla & Hr).
  destruct (cxpr_ir_call_memo_get _ _) as [[v|] w0].
  { apply s_push_scalar_lands; simpl; lia. }
  rewrite (proj2 (Nat.ltb_ge _ _)) by lia.
  destruct (fe_value_func f) as [vf|]; simpl in Hl.
  - simpl. destruct (vf (map VNum args) w0) as [v w].
    destruct v; try done; apply s_push_lands; simpl; lia.
  - destruct (fe_sync_func f) as [sf|]; [|done].
    simpl. destruct (sf args w0). apply s_push_lands; simpl; lia.
Qed.

Lemma s_call_defined_lands instr st next :
  ir_index instr ≤ length (s_stack st) → ir_index instr ≤ CXPR_MAX_CALL_ARGS →
  next = length (s_stack st) - ir_index instr + 1 → next ≤ CXPR_IR_STACK_CAPACITY →
  s_lands [s_ip st + 1] next (s_call_defined instr st).
Proof.
  intros Ha Hm Hn Hc. unfold s_call_defined.
  destruct (pop_args_ok (ir_index instr) (s_stack st) Ha) as (args & rest & -> & Hla & Hr).
  rewrite (proj2 (Nat.ltb_ge _ _)) by lia.
  destruct (cxpr_ir_call_defined_scalar _ _ _) as [[v|e] w]; [|done].
  apply s_push_scalar_lands; simpl; lia.
Qed.

Lemma native_linked instr arity :
  linked instr = true →
  (ir_op instr, arity) ∈ [(CXPR_OP_CALL_UNARY, 1); (CXPR_OP_CALL_BINARY, 2); (CXPR_OP_CALL_TERNARY, 3)] →
  ∃ f, ir_func instr = Some f ∧
    ∀ args (w : W), length args = arity → is_some (native_apply (fe_native f) args w) = true.
Proof.
  unfold linked. rewrite !elem_of_cons, elem_of_nil. intros Hl Ho.
  assert (ir_func instr ≠ None).
  { intros Hf. rewrite Hf in Hl.
    destruct Ho as [[= Ho _]|[[= Ho _]|[[= Ho _]|[]]]]; by rewrite Ho in Hl. }
  destruct (ir_func instr) as [f|]; [|done].
  exists f. split; [done|]. intros args w Ha.
  destruct Ho as [[= Ho ->]|[[= Ho ->]|[[= Ho ->]|[]]]]; rewrite Ho in Hl;
    destruct (fe_native f); try done; destruct args as [|? [|? [|? [|]]]]; done.
Qed.

Lemma s_unary_lands f st next :
  1 ≤ length (s_stack st) → next = length (s_stack st) - 1 + 1 →
  next ≤ CXPR_IR_STACK_CAPACITY → s_lands [s_ip st + 1] next (s_unary f st).
Proof.
  unfold s_unary. destruct (s_stack st); simpl; [lia|]. intros. apply s_push_lands; simpl; lia.
Qed.

Lemma s_binary_lands f st next :
  2 ≤ length (s_stack st) → next = length (s_stack st) - 2 + 1 →
  next ≤ CXPR_IR_STACK_CAPACITY → s_lands [s_ip st + 1] next (s_binary f st).
Proof.
  unfold s_binary. destruct (s_stack st) as [|? [|]]; simpl; [lia..|].
  intros. apply s_push_lands; simpl; lia.
Qed.

Lemma s_divide_lands f msg st next :
  2 ≤ length (s_stack st) → next = length (s_stack st) - 2 + 1 →
  next ≤ CXPR_IR_STACK_CAPACITY → s_lands [s_ip st + 1] next (s_divide f msg st).
Proof.
  unfold s_divide. destruct (s_stack st) as [|? [|]]; simpl; [lia..|].
  intros. destruct (feqb _ _); [done|]. apply s_push_lands; simpl; lia.
Qed.

Lemma s_load_local_lands f instr st next :
  next = length (s_stack st) - 0 + 1 → next ≤ CXPR_IR_STACK_CAPACITY →
  s_lands [s_ip st + 1] next (s_load_local f instr st).
Proof.
  unfold s_load_local. destruct (s_locals st !! _); [|done]. intros. apply s_push_lands; lia.
Qed.

Lemma s_load_lands param f instr st next :
  next = length (s_stack st) - 0 + 1 → next ≤ CXPR_IR_STACK_CAPACITY →
  s_lands [s_ip st + 1] next (s_load param f instr st).
Proof.
  unfold s_load. destruct (lookup_scalar _ _ _ _) as [[v|] w]; [|done].
  intros. apply s_push_lands; simpl; lia.
Qed.

Lemma s_jump_if_lands taken instr st next :
  1 ≤ length (s_stack st) → next = length (s_stack st) - 1 + 0 →
  s_lands [ir_index instr; s_ip st + 1] next (s_jump_if taken instr st).
Proof.
  unfold s_jump_if. destruct (s_stack st) as [|v rest]; simpl; [lia|]. intros _ ->.
  split; [|lia]. destruct (taken v); set_solver.
Qed.

Lemma scalar_step_lands code st instr next :
  code !! s_ip st = Some instr → linked instr = true →
  scalar_transfer instr (length (s_stack st)) = Some next →
  s_lands (successors (s_ip st) instr) next (scalar_step code st).
Proof.
  intros Hi Hl (pops & pushes & He & Hp & -> & Hc & Hret)%scalar_transfer_inv.
  unfold scalar_step. rewrite Hi. unfold cxpr_ir_scalar_stack_effect in He. unfold successors.
  pose proof (native_linked instr) as Hnat.
  destruct (ir_op instr) eqn:Ho; simplify_eq; try done;
    try (destruct (Nat.ltb_spec 32 (ir_index instr)); simplify_eq; []);
    try first
      [ apply s_push_lands; lia | apply s_load_local_lands; lia | apply s_load_lands; lia
      | apply s_unary_lands; lia | apply s_binary_lands; lia | apply s_divide_lands; lia
      | apply s_jump_if_lands; lia | apply s_call_defined_lands; unfold CXPR_MAX_CALL_ARGS; lia
      | apply s_call_native_lands; [lia..|apply Hnat; set_solver] ].
  - (* CLAMP *)
    destruct (s_stack st) as [|? [|? [|]]]; simpl in Hp; try lia. apply s_push_lands; simpl in *; lia.
  - (* CALL_FUNC *)
    unfold linked in Hl. rewrite Ho in Hl. destruct (ir_func instr) as [f|] eqn:Hf; [|done].
    eapply s_call_func_lands; [done|done|unfold CXPR_MAX_CALL_ARGS; lia..].
  - (* JUMP *) split; [apply list_elem_of_here|simpl; lia].
  - (* RETURN *) unfold s_return. destruct (s_stack st) as [|? [|]]; done.
Qed.
End scalar_safety.

(** ** Runs *)

(** The instructions behind which the compiler jumps are always later ones. *)
Definition forward {W} (ip : nat) (instr : cxpr_ir_instr W) : bool :=
  forallb (λ t, ip <? t) (successors ip instr).

Definition forward_jumps {W} (code : list (cxpr_ir_instr W)) : bool :=
  forallb (λ x, forward x.1 x.2) (imap pair code).

Lemma forward_jumps_lt {W} (code : list (cxpr_ir_instr W)) ip instr t :
  forward_jumps code = true → code !! ip = Some instr → t ∈ successors ip instr → ip < t.
Proof.
  unfold forward_jumps. rewrite forallb_forall. intros Hf Hi Ht.
  assert (Hin : In (ip, instr) (imap pair code)).
  { apply list_elem_of_In, list_elem_of_lookup. exists ip.
    rewrite list_lookup_imap, Hi. done. }
  specialize (Hf _ Hin). unfold forward in Hf. rewrite forallb_forall in Hf.
  apply Nat.ltb_lt, Hf. by apply list_elem_of_In.
Qed.

Lemma linked_lookup {W} (code : list (cxpr_ir_instr W)) ip instr :
  forallb linked code = true → code !! ip = Some instr → linked instr = true.
Proof.
  rewrite forallb_forall. intros Hl Hi. apply Hl, list_elem_of_In, list_elem_of_lookup. eauto.
Qed.

(** A loop whose steps keep an invariant and decrease a measure ends. *)
Lemma run_steps_ends {St R} (step : St → run (stepped St R)) (inv : St → Prop)
    (measure : St → nat) :
  (∀ st, inv st → ∃ r, step st = Done r ∧
     match r with Next st' => inv st' ∧ measure st' < measure st | Stop _ => True end) →
  ∀ fuel st, inv st → measure st < fuel → ∃ r, run_steps step fuel st = Done r.
Proof.
  intros Hstep. induction fuel as [|fuel IH]; intros st Hst Hm; [lia|].
  destruct (Hstep st Hst) as ([st'|r] & Hr & Hn); cbn [run_steps]; rewrite Hr; cbn [run_bind].
  - destruct Hn. apply IH; [done|lia].
  - eauto.
Qed.

Section scalar_runs.
Context {W : Type} `{FastHost W}.

(** One step of the scalar executor, as a relation. *)
Definition s_next (code : list (cxpr_ir_instr W)) (st st' : scalar_state W) : Prop :=
  scalar_step code st = Done (Next st').

(** The validator's description holds of a state. *)
Definition s_described (depths : list (option nat)) (st : scalar_state W) : Prop :=
  depths !! s_ip st = Some (Some (length (s_stack st))) ∧
  length (s_stack st) ≤ CXPR_IR_STACK_CAPACITY.

Lemma scalar_step_described code depths st :
  consistent scalar_transfer code depths → forallb linked code = true →
  s_described depths st →
  ∃ instr r, code !! s_ip st = Some instr ∧ scalar_step code st = Done r ∧
    (ir_op instr = CXPR_OP_RETURN → length (s_stack st) = 1) ∧
    match r with
    | Next st' => s_described depths st' ∧ s_ip st' ∈ successors (s_ip st) instr
    | Stop _ => True
    end.
Proof.
  intros [Hlen Hcons] Hl [Hd Hc].
  destruct (lookup_lt_is_Some_2 code (s_ip st)) as [instr Hi].
  { apply lookup_lt_Some in Hd. lia. }
  destruct (Hcons _ _ _ Hi Hd) as (next & Ht & Hs).
  pose proof (scalar_step_lands code st instr next Hi (linked_lookup _ _ _ Hl Hi) Ht) as Hland.
  apply scalar_transfer_inv in Ht as (pops & pushes & _ & _ & _ & Hn & Hret).
  destruct (scalar_step code st) as [[st'|r]| |]; simpl in Hland; try done.
  - destruct Hland as [Hip <-]. exists instr, (Next st'). split_and!; try done.
    split; [by apply Hs|done].
  - by exists instr, (Stop r).
Qed.

Lemma scalar_initial depths w locals :
  depths !! 0 = Some (Some 0) → s_described depths (mk_scalar 0 [] locals w).
Proof. intros H0. split; [done|]. simpl. lia. Qed.

Lemma scalar_reachable code depths st st' :
  consistent scalar_transfer code depths → forallb linked code = true →
  s_described depths st → rtc (s_next code) st st' → s_described depths st'.
Proof.
  intros Hcons Hl Hd. induction 1 as [st|st st1 st2 H1 _ IH]; [done|]. apply IH.
  destruct (scalar_step_described code depths st Hcons Hl Hd) as (instr & r & _ & Hr & _ & Hn).
  unfold s_next in H1. rewrite H1 in Hr. simplify_eq. by destruct Hn.
Qed.
End scalar_runs.

(** C26: in every state the scalar executor reaches from the start of a program
    that [cxpr_ir_validate_scalar_fast_program] accepts (and whose call
    instructions carry their callbacks), the instruction pointer is at an
    instruction, the operand stack holds at most 64 values, the next step is
    defined (no read below or write above the stack, no missing callback, no
    dispatch to a NULL label), and a return finds exactly one value. *)
Theorem scalar_fast_safe {W} `{FastHost W} (program : cxpr_ir_program W) code w locals st :
  prog_code program = Some code →
  cxpr_ir_validate_scalar_fast_program program = Done true →
  forallb linked code = true →
  rtc (s_next code) (mk_scalar 0 [] locals w) st →
  ∃ instr r, code !! s_ip st = Some instr ∧ length (s_stack st) ≤ CXPR_IR_STACK_CAPACITY ∧
    scalar_step code st = Done r ∧ (ir_op instr = CXPR_OP_RETURN → length (s_stack st) = 1).
Proof.
  intros Hp Hv Hl Hr. destruct (scalar_accepted _ Hv) as (code' & depths & ? & _ & Hcons & H0).
  simplify_eq.
  assert (Hd : s_described depths st).
  { eapply scalar_reachable; eauto using scalar_initial. }
  destruct (scalar_step_described code depths st Hcons Hl Hd) as (instr & r & ? & ? & ? & _).
  exists instr, r. destruct Hd. auto.
Qed.

(** The scalar executor returns on every program its validator accepts whose
    calls are linked and whose jumps go forward, whatever the host answers: the
    loop ends within as many steps as there are instructions. *)
Theorem scalar_fast_returns {W} `{FastHost W} (program : cxpr_ir_program W) code w locals :
  prog_code program = Some code →
  cxpr_ir_validate_scalar_fast_program program = Done true →
  forallb linked code = true → forward_jumps code = true →
  ∃ r, cxpr_ir_exec_scalar_fast (length code) program w locals = Done r.
Proof.
  intros Hp Hv Hl Hf. destruct (scalar_accepted _ Hv) as (code' & depths & ? & Hlen & Hcons & H0).
  simplify_eq. unfold cxpr_ir_exec_scalar_fast. rewrite Hp.
  apply (run_steps_ends _ (s_described depths) (λ st, length code - 1 - s_ip st));
    simpl; [|by apply scalar_initial|lia].
  intros st Hd.
  destruct (scalar_step_described code depths st Hcons Hl Hd) as (instr & r & Hi & Hr & _ & Hn).
  exists r. split; [done|]. destruct r as [st'|]; [|done]. destruct Hn as [Hd' Hs].
  split; [done|]. pose proof (forward_jumps_lt _ _ _ _ Hf Hi Hs).
  destruct Hd' as [Hd'%lookup_lt_Some _]. destruct Hcons. lia.
Qed.

(** ** The boolean executor

    A call's value goes to the stack of its runtime type, while the validator
    counts on the declared one: safety needs a host that keeps its
    declarations. *)

(** The type the validator expects of a call's value. *)
Definition expected_type {W} (instr : cxpr_ir_instr W) : cxpr_value_type :=
  match ir_op instr, ir_func instr with
  | CXPR_OP_CALL_FUNC, Some f =>
      if is_some (fe_value_func f) && declares f CXPR_VALUE_BOOL
      then CXPR_VALUE_BOOL else CXPR_VALUE_NUMBER
  | CXPR_OP_CALL_DEFINED, Some f =>
      if declares f CXPR_VALUE_BOOL then CXPR_VALUE_BOOL else CXPR_VALUE_NUMBER
  | _, _ => CXPR_VALUE_NUMBER
  end.

(** A scalar value has the expected type (a value that is not scalar is
    reported as an error). *)
Definition fits {W} (instr : cxpr_ir_instr W) (v : cxpr_value) : Prop :=
  match v with
  | VNum _ | VBool _ => value_type v = expected_type instr
  | _ => True
  end.

Lemma fits_num {W} (instr : cxpr_ir_instr W) d :
  expected_type instr = CXPR_VALUE_NUMBER → fits instr (VNum d).
Proof. by intros He; simpl; rewrite He. Qed.

(** The contract of the host for the calls of [code]; [I] is an invariant of the
    host's state (the memo table holds values of the expected type). *)
Record typed_host {W} `{FastHost W} (code : list (cxpr_ir_instr W)) (I : W → Prop) : Prop := {
  th_lookup : ∀ param ip instr w, I w → I (snd (lookup_scalar param ip instr w));
  th_memo_get : ∀ instr w cached w', instr ∈ code → I w →
    cxpr_ir_call_memo_get instr w = (cached, w') → I w' ∧ ∀ v, cached = Some v → fits instr v;
  th_memo_set : ∀ instr w v, instr ∈ code → I w → fits instr v →
    I (cxpr_ir_call_memo_set instr v w);
  th_native : ∀ instr f args w d w', instr ∈ code → ir_func instr = Some f → I w →
    native_apply (fe_native f) args w = Some (d, w') → I w';
  th_sync : ∀ instr f sync args w, instr ∈ code → ir_func instr = Some f →
    fe_sync_func f = Some sync → I w → I (snd (sync args w));
  th_value : ∀ instr f value_func args w, instr ∈ code → ir_op instr = CXPR_OP_CALL_FUNC →
    ir_func instr = Some f → fe_value_func f = Some value_func → I w →
    fits instr (fst (value_func args w)) ∧ I (snd (value_func args w));
  th_defined : ∀ instr args w, instr ∈ code → ir_op instr = CXPR_OP_CALL_DEFINED → I w →
    I (snd (cxpr_ir_call_defined_scalar instr args w)) ∧
    ∀ v, fst (cxpr_ir_call_defined_scalar instr args w) = inl v → fits instr v
}.

(** The stack description behind a call with [argc] arguments. *)
Definition after_call {W} (instr : cxpr_ir_instr W) (argc numbers bools : nat)
    : cxpr_ir_fast_stack_state :=
  match expected_type instr with
  | CXPR_VALUE_BOOL => mk_fast_state (numbers - argc) (bools + 1)
  | _ => mk_fast_state (numbers - argc + 1) bools
  end.

Section bool_safety.
Context {W : Type} `{FastHost W}.
Context (locals : list float64) (code : list (cxpr_ir_instr W)) (I : W → Prop).
Hypothesis Hhost : typed_host code I.
Implicit Types (st : bool_state W) (instr : cxpr_ir_instr W).

Definition b_depths (st : bool_state W) : cxpr_ir_fast_stack_state :=
  mk_fast_state (length (b_nstack st)) (length (b_bstack st)).

Definition b_small (d : cxpr_ir_fast_stack_state) : Prop :=
  fs_numbers d ≤ CXPR_IR_STACK_CAPACITY ∧ fs_bools d ≤ CXPR_IR_STACK_CAPACITY.

Definition b_lands (targets : list nat) (next : cxpr_ir_fast_stack_state)
    (r : run (stepped (bool_state W) (bool_result W))) : Prop :=
  match r with
  | Done (Next st') => b_ip st' ∈ targets ∧ b_depths st' = next ∧ I (b_world st')
  | Done (Stop _) => True
  | _ => False
  end.

Lemma b_npush_lands v st ip next :
  ip = b_ip st + 1 → I (b_world st) →
  next = mk_fast_state (S (length (b_nstack st))) (length (b_bstack st)) → b_small next →
  b_lands [ip] next (b_npush v st).
Proof.
  intros -> HI -> [Hn _]. simpl in Hn. unfold b_npush. rewrite (proj2 (Nat.leb_gt _ _)) by lia.
  split; [apply list_elem_of_here|done].
Qed.

Lemma b_bpush_lands v st ip next :
  ip = b_ip st + 1 → I (b_world st) →
  next = mk_fast_state (length (b_nstack st)) (S (length (b_bstack st))) → b_small next →
  b_lands [ip] next (b_bpush v st).
Proof.
  intros -> HI -> [_ Hn]. simpl in Hn. unfold b_bpush. rewrite (proj2 (Nat.leb_gt _ _)) by lia.
  split; [apply list_elem_of_here|done].
Qed.

(** The value of a call behind its arguments. *)
Lemma b_push_typed_lands instr v e st ip next argc numbers :
  fits instr v → ip = b_ip st + 1 → I (b_world st) →
  length (b_nstack st) = numbers - argc →
  next = after_call instr argc numbers (length (b_bstack st)) → b_small next →
  b_lands [ip] next (b_push_typed v e st).
Proof.
  intros Hfit Hip HI Hl -> Hs. unfold after_call in *.
  destruct v; try done; simpl in Hfit; rewrite <- Hfit in *; simpl.
  - apply b_npush_lands; try done. f_equal. lia.
  - apply b_bpush_lands; try done. f_equal; lia.
Qed.

Lemma b_call_native_lands arity instr st next :
  instr ∈ code → expected_type instr = CXPR_VALUE_NUMBER → I (b_world st) →
  arity ≤ length (b_nstack st) →
  next = after_call instr arity (length (b_nstack st)) (length (b_bstack st)) → b_small next →
  (∃ f, ir_func instr = Some f ∧
     ∀ args w, length args = arity → is_some (native_apply (fe_native f) args w) = true) →
  b_lands [b_ip st + 1] next (b_call_native arity instr st).
Proof.
  intros Hin Hexp HI Ha Hn Hs (f & Hf & Hnat). unfold b_call_native.
  destruct (pop_args_ok arity (b_nstack st) Ha) as (args & rest & -> & Hl & Hr).
  destruct (cxpr_ir_call_memo_get _ _) as [cached w0] eqn:Hmemo.
  destruct (th_memo_get _ _ Hhost instr (b_world st) cached w0) as [HI0 Hfit0]; try done.
  destruct cached as [v|].
  - eapply b_push_typed_lands; try done. by apply Hfit0.
  - rewrite Hf. specialize (Hnat args w0 Hl). cbn [b_world b_with].
    destruct (native_apply _ _ _) as [[value w]|] eqn:Hap; [|done].
    apply b_npush_lands; try done.
    + simpl. eapply th_memo_set; [done..| |by apply fits_num]. by eapply th_native.
    + rewrite Hn. unfold after_call. rewrite Hexp. simpl. f_equal. lia.
Qed.

Lemma b_call_func_lands instr st next f :
  instr ∈ code → ir_op instr = CXPR_OP_CALL_FUNC → ir_func instr = Some f → I (b_world st) →
  fe_typed_func f || is_some (fe_value_func f) || is_some (fe_sync_func f) = true →
  ir_index instr ≤ length (b_nstack st) → ir_index instr ≤ CXPR_MAX_CALL_ARGS →
  next = after_call instr (ir_index instr) (length (b_nstack st)) (length (b_bstack st)) →
  b_small next →
  b_lands [b_ip st + 1] next (b_call_func instr st).
Proof.
  intros Hin Ho Hf HI Hl Ha Hm Hn Hs. unfold b_call_func. rewrite Hf.
  destruct (fe_typed_func f); [done|]. simpl in Hl.
  destruct (pop_args_ok (ir_index instr) (b_nstack st) Ha) as (args & rest & -> & Hla & Hr).
  destruct (cxpr_ir_call_memo_get _ _) as [cached w0] eqn:Hmemo.
  destruct (th_memo_get _ _ Hhost instr (b_world st) cached w0) as [HI0 Hfit0]; try done.
  destruct cached as [v|].
  { eapply b_push_typed_lands; try done. by apply Hfit0. }
  rewrite (proj2 (Nat.ltb_ge _ _)) by lia. cbn [b_world b_with].
  destruct (fe_value_func f) as [vf|] eqn:Hvf; simpl in Hl.
  - destruct (th_value _ _ Hhost instr f vf (map VNum args) w0) as [Hfit HI']; try done.
    destruct (vf (map VNum args) w0) as [v w]. simpl in Hfit, HI'.
    assert (HI2 : I (cxpr_ir_call_memo_set instr v w)) by (by eapply th_memo_set).
    destruct v; try done; by eapply b_push_typed_lands.
  - destruct (fe_sync_func f) as [sf|] eqn:Hsf; [|done].
    pose proof (th_sync _ _ Hhost instr f sf args w0 Hin Hf Hsf HI0) as HI'.
    destruct (sf args w0) as [d w]. simpl in HI'.
    assert (Hexp : expected_type instr = CXPR_VALUE_NUMBER).
    { unfold expected_type. by rewrite Ho, Hf, Hvf. }
    apply b_npush_lands; try done.
    + simpl. eapply th_memo_set; [done..|by apply fits_num].
    + rewrite Hn. unfold after_call. rewrite Hexp. simpl. f_equal. lia.
Qed.

Lemma b_call_defined_lands instr st next :
  instr ∈ code → ir_op instr = CXPR_OP_CALL_DEFINED → I (b_world st) →
  ir_index instr ≤ length (b_nstack st) → ir_index instr ≤ CXPR_MAX_CALL_ARGS →
  next = after_call instr (ir_index instr) (length (b_nstack st)) (length (b_bstack st)) →
  b_small next →
  b_lands [b_ip st + 1] next (b_call_defined instr st).
Proof.
  intros Hin Ho HI Ha Hm Hn Hs. unfold b_call_defined.
  destruct (pop_args_ok (ir_index instr) (b_nstack st) Ha) as (args & rest & -> & Hla & Hr).
  destruct (cxpr_ir_call_memo_get _ _) as [cached w0] eqn:Hmemo.
  destruct (th_memo_get _ _ Hhost instr (b_world st) cached w0) as [HI0 Hfit0]; try done.
  destruct cached as [v|].
  { eapply b_push_typed_lands; try done. by apply Hfit0. }
  rewrite (proj2 (Nat.ltb_ge _ _)) by lia.
  destruct (th_defined _ _ Hhost instr (map VNum args) w0) as [HI' Hfit]; try done.
  destruct (cxpr_ir_call_defined_scalar _ _ _) as [[v|e] w]; [|done]. simpl in HI', Hfit.
  assert (HI2 : I (cxpr_ir_call_memo_set instr v w)) by (eapply th_memo_set; eauto).
  specialize (Hfit v eq_refl).
  destruct v; try done; by eapply b_push_typed_lands.
Qed.

Lemma b_unary_lands f st next :
  I (b_world st) → 1 ≤ length (b_nstack st) → next = b_depths st → b_small next →
  b_lands [b_ip st + 1] next (b_unary f st).
Proof.
  unfold b_unary, b_depths. destruct (b_nstack st); simpl; [lia|]. intros. by apply b_npush_lands.
Qed.

Lemma b_binary_lands f st next :
  I (b_world st) → 2 ≤ length (b_nstack st) →
  next = mk_fast_state (length (b_nstack st) - 1) (length (b_bstack st)) → b_small next →
  b_lands [b_ip st + 1] next (b_binary f st).
Proof.
  unfold b_binary. destruct (b_nstack st) as [|? [|]]; simpl; [lia..|].
  intros. by apply b_npush_lands.
Qed.

Lemma b_compare_lands f st next :
  I (b_world st) → 2 ≤ length (b_nstack st) →
  next = mk_fast_state (length (b_nstack st) - 2) (length (b_bstack st) + 1) → b_small next →
  b_lands [b_ip st + 1] next (b_compare f st).
Proof.
  unfold b_compare. destruct (b_nstack st) as [|? [|]]; simpl; [lia..|].
  intros HI Hl -> Hs. apply b_bpush_lands; try done. simpl. f_equal; lia.
Qed.

Lemma b_divide_lands f msg st next :
  I (b_world st) → 2 ≤ length (b_nstack st) →
  next = mk_fast_state (length (b_nstack st) - 1) (length (b_bstack st)) → b_small next →
  b_lands [b_ip st + 1] next (b_divide f msg st).
Proof.
  unfold b_divide. destruct (b_nstack st) as [|? [|]]; simpl; [lia..|].
  intros. destruct (feqb _ _); [done|]. by apply b_npush_lands.
Qed.

Lemma b_load_local_lands f instr st next :
  I (b_world st) → next = mk_fast_state (length (b_nstack st) + 1) (length (b_bstack st)) →
  b_small next → b_lands [b_ip st + 1] next (b_load_local locals f instr st).
Proof.
  unfold b_load_local. intros HI -> Hs. destruct (locals !! _); [|done].
  apply b_npush_lands; try done. f_equal; lia.
Qed.

Lemma b_load_lands param f instr st next :
  I (b_world st) → next = mk_fast_state (length (b_nstack st) + 1) (length (b_bstack st)) →
  b_small next → b_lands [b_ip st + 1] next (b_load param f instr st).
Proof.
  unfold b_load. intros HI -> Hs.
  pose proof (th_lookup _ _ Hhost param (b_ip st) instr _ HI) as HI'.
  destruct (lookup_scalar _ _ _ _) as [[v|] w]; [|done].
  apply b_npush_lands; try done. simpl. f_equal; lia.
Qed.

Lemma b_jump_if_lands taken instr st next :
  I (b_world st) → 1 ≤ length (b_bstack st) →
  next = mk_fast_state (length (b_nstack st)) (length (b_bstack st) - 1) →
  b_lands [ir_index instr; b_ip st + 1] next (b_jump_if taken instr st).
Proof.
  unfold b_jump_if. destruct (b_bstack st) as [|v rest]; simpl; [lia|]. intros HI _ ->.
  split; [destruct (taken v); set_solver|]. split; [|done]. unfold b_depths. simpl. f_equal; lia.
Qed.

Lemma bool_transfer_inv instr d next :
  bool_transfer instr d = Some next →
  cxpr_ir_bool_fast_stack_effect instr d = Some next ∧ b_small next.
Proof.
  unfold bool_transfer, b_small. destruct (cxpr_ir_bool_fast_stack_effect instr d); [|done].
  destruct (Nat.ltb_spec CXPR_IR_STACK_CAPACITY (fs_numbers c)); [done|].
  destruct (Nat.ltb_spec CXPR_IR_STACK_CAPACITY (fs_bools c)); [done|]. naive_solver.
Qed.

(** The validator's counts behind a call are those of the expected type. *)
Lemma call_effect_inv instr numbers bools next :
  ir_op instr = CXPR_OP_CALL_FUNC ∨ ir_op instr = CXPR_OP_CALL_DEFINED →
  cxpr_ir_bool_fast_stack_effect instr (mk_fast_state numbers bools) = Some next →
  ir_index instr ≤ numbers ∧ ir_index instr ≤ CXPR_MAX_CALL_ARGS ∧
  next = after_call instr (ir_index instr) numbers bools.
Proof.
  unfold cxpr_ir_bool_fast_stack_effect, after_call, expected_type. intros Ho.
  destruct Ho as [Ho|Ho]; rewrite Ho.
  all: destruct (Nat.ltb_spec 32 (ir_index instr)); [done|].
  all: destruct (Nat.ltb_spec numbers (ir_index instr)); [done|]; simpl.
  all: destruct (ir_func instr) as [f|]; [|done]; unfold CXPR_MAX_CALL_ARGS; repeat case_match;
    intros; simplify_eq; auto with lia.
Qed.

Lemma bool_step_lands st instr next :
  code !! b_ip st = Some instr → linked instr = true → I (b_world st) →
  bool_transfer instr (b_depths st) = Some next →
  b_lands (successors (b_ip st) instr) next (bool_step locals code st).
Proof.
  intros Hi Hl HI [He Hs]%bool_transfer_inv.
  assert (Hin : instr ∈ code) by (by eapply list_elem_of_lookup_2).
  pose proof (native_linked instr) as Hnat. pose proof He as He'.
  unfold bool_step, successors. rewrite Hi.
  unfold cxpr_ir_bool_fast_stack_effect, b_depths in He.
  destruct (ir_op instr) eqn:Ho; try done;
    lazymatch type of Ho with
    | _ = CXPR_OP_CALL_FUNC =>
        destruct (call_effect_inv instr _ _ next (or_introl Ho) He') as (? & ? & ->);
        unfold linked in Hl; rewrite Ho in Hl; destruct (ir_func instr) eqn:Hf; [|done];
        by eapply b_call_func_lands
    | _ = CXPR_OP_CALL_DEFINED =>
        destruct (call_effect_inv instr _ _ next (or_intror Ho) He') as (? & ? & ->);
        by apply b_call_defined_lands
    | _ =>
        repeat match type of He with
        | context [?n <? ?m] => destruct (Nat.ltb_spec n m); try done
        | context [?n <=? ?m] => destruct (Nat.leb_spec n m); try done
        end; simplify_eq
    end;
    try first
      [ by apply b_load_local_lands | by apply b_load_lands | by apply b_unary_lands
      | by apply b_binary_lands | by apply b_compare_lands | by apply b_divide_lands
      | by apply b_jump_if_lands
      | apply b_npush_lands; try done; f_equal; lia
      | apply b_bpush_lands; try done; f_equal; lia
      | by (split; [apply list_elem_of_here|split])
      | apply b_call_native_lands; try done;
          [ unfold expected_type; by rewrite Ho
          | unfold after_call, expected_type; rewrite Ho; f_equal; lia
          | apply Hnat; [done|set_solver] ] ].
  - (* NOT *)
    unfold b_not. destruct (b_bstack st) as [|v rest]; simpl in *; [lia|].
    by split; [apply list_elem_of_here|split].
  - (* CLAMP *)
    destruct (b_nstack st) as [|? [|? [|]]]; simpl in *; try lia. by apply b_npush_lands.
  - (* RETURN *)
    unfold b_return. by destruct (b_nstack st), (b_bstack st) as [|? [|]].
Qed.

Definition b_next (st st' : bool_state W) : Prop := bool_step locals code st = Done (Next st').

Definition b_described (states : list (option cxpr_ir_fast_stack_state)) (st : bool_state W)
    : Prop :=
  states !! b_ip st = Some (Some (b_depths st)) ∧ b_small (b_depths st) ∧ I (b_world st).

Lemma bool_step_described states st :
  consistent bool_transfer code states → forallb linked code = true →
  b_described states st →
  ∃ instr r, code !! b_ip st = Some instr ∧ bool_step locals code st = Done r ∧
    (ir_op instr = CXPR_OP_RETURN → b_depths st = mk_fast_state 0 1) ∧
    match r with
    | Next st' => b_described states st' ∧ b_ip st' ∈ successors (b_ip st) instr
    | Stop _ => True
    end.
Proof.
  intros [Hlen Hcons] Hl (Hd & Hc & HI).
  destruct (lookup_lt_is_Some_2 code (b_ip st)) as [instr Hi].
  { apply lookup_lt_Some in Hd. lia. }
  destruct (Hcons _ _ _ Hi Hd) as (next & Ht & Hs).
  pose proof (bool_step_lands st instr next Hi (linked_lookup _ _ _ Hl Hi) HI Ht) as Hland.
  apply bool_transfer_inv in Ht as [He Hn].
  assert (Hret : ir_op instr = CXPR_OP_RETURN → b_depths st = mk_fast_state 0 1).
  { intros Ho. unfold cxpr_ir_bool_fast_stack_effect, b_depths in *. rewrite Ho in He.
    destruct (Nat.eqb_spec (length (b_nstack st)) 0), (Nat.eqb_spec (length (b_bstack st)) 1);
      try done. by f_equal. }
  destruct (bool_step locals code st) as [[st'|r]| |]; simpl in Hland; try done.
  - destruct Hland as (Hip & <- & HI'). exists instr, (Next st').
    assert (b_described states st') by (split; [exact (Hs _ Hip)|by split]). auto.
  - by exists instr, (Stop r).
Qed.

Lemma bool_reachable states st st' :
  consistent bool_transfer code states → forallb linked code = true →
  b_described states st → rtc b_next st st' → b_described states st'.
Proof.
  intros Hcons Hl Hd. induction 1 as [st|st st1 st2 H1 _ IH]; [done|]. apply IH.
  destruct (bool_step_described states st Hcons Hl Hd) as (instr & r & _ & Hr & _ & Hn).
  unfold b_next in H1. rewrite H1 in Hr. simplify_eq. by destruct Hn.
Qed.

Lemma bool_initial states w :
  states !! 0 = Some (Some (mk_fast_state 0 0)) → I w → b_described states (mk_bool 0 [] [] w).
Proof. intros H0 HI. split; [done|]. split; [|done]. split; simpl; lia. Qed.
End bool_safety.

(** C27: in every state the boolean executor reaches from the start of a program
    that [cxpr_ir_validate_bool_fast_program] accepts, with linked calls and a
    host that keeps its declared result types, the instruction pointer is at an
    instruction, neither stack holds more than 64 values, the next step is
    defined, and a return finds no number and exactly one boolean. *)
Theorem bool_fast_safe {W} `{FastHost W} (program : cxpr_ir_program W) code locals I w st :
  prog_code program = Some code →
  cxpr_ir_validate_bool_fast_program program = Done true →
  forallb linked code = true → typed_host code I → I w →
  rtc (b_next locals code) (mk_bool 0 [] [] w) st →
  ∃ instr r, code !! b_ip st = Some instr ∧ b_small (b_depths st) ∧
    bool_step locals code st = Done r ∧
    (ir_op instr = CXPR_OP_RETURN → b_depths st = mk_fast_state 0 1).
Proof.
  intros Hp Hv Hl Hh HI Hr. destruct (bool_accepted _ Hv) as (code' & states & ? & _ & Hcons & H0).
  simplify_eq.
  assert (Hd : b_described I states st) by (eapply bool_reachable; eauto using bool_initial).
  destruct (bool_step_described locals code I Hh states st Hcons Hl Hd)
    as (instr & r & ? & ? & ? & _).
  exists instr, r. destruct Hd as (_ & ? & _). auto.
Qed.

(** The boolean executor returns on every program its validator accepts whose
    calls are linked, whose jumps go forward and whose host keeps its declared
    result types, within as many steps as there are instructions. *)
Theorem bool_fast_returns {W} `{FastHost W} (program : cxpr_ir_program W) code locals I w :
  prog_code program = Some code →
  cxpr_ir_validate_bool_fast_program program = Done true →
  forallb linked code = true → forward_jumps code = true → typed_host code I → I w →
  ∃ r, cxpr_ir_exec_bool_fast locals (length code) program w true = Done r.
Proof.
  intros Hp Hv Hl Hf Hh HI.
  destruct (bool_accepted _ Hv) as (code' & states & ? & Hlen & Hcons & H0).
  simplify_eq. unfold cxpr_ir_exec_bool_fast. cbn [negb]. rewrite Hp.
  apply (run_steps_ends _ (b_described I states) (λ st, length code - 1 - b_ip st));
    simpl; [|by apply bool_initial|lia].
  intros st Hd.
  destruct (bool_step_described locals code I Hh states st Hcons Hl Hd)
    as (instr & r & Hi & Hr & _ & Hn).
  exists r. split; [done|]. destruct r as [st'|]; [|done]. destruct Hn as [Hd' Hs].
  split; [done|]. pose proof (forward_jumps_lt _ _ _ _ Hf Hi Hs).
  destruct Hd' as [Hd'%lookup_lt_Some _]. destruct Hcons. lia.
Qed.

(** ** A host

    A host without a memo table and without defined functions; its state is the
    list of variables. *)
#[export] Instance simple_host : FastHost (list (string * float64)) := {
  lookup_scalar _ _ instr w :=
    (match ir_name instr with
     | Some name => snd <$> find (λ b, (b.1 =? name)%string) w
     | None => None
     end, w);
  cxpr_ir_call_memo_get _ w := (None, w);
  cxpr_ir_call_memo_set _ _ w := w;
  cxpr_ir_call_defined_scalar _ _ w := (inr (cxpr_ir_runtime_error "no defined function"), w);
  pow a _ := a
}.

Abbreviation simple_instr := (cxpr_ir_instr (list (string * float64))).

Definition simple_op (op : cxpr_opcode) : simple_instr := mk_instr op None None None fzero 0 0.

(** [x > 1 ? x : 2], compiled. *)
Definition ternary_code : list simple_instr :=
  [ mk_instr CXPR_OP_LOAD_VAR (Some "x"%string) None None fzero 0 0;
    mk_instr CXPR_OP_PUSH_CONST None None None fone 0 0;
    simple_op CXPR_OP_CMP_GT;
    mk_instr CXPR_OP_JUMP_IF_FALSE None None None fzero 0 6;
    mk_instr CXPR_OP_LOAD_VAR (Some "x"%string) None None fzero 0 0;
    mk_instr CXPR_OP_JUMP None None None fzero 0 7;
    mk_instr CXPR_OP_PUSH_CONST None None None (of_Z 2) 0 0;
    simple_op CXPR_OP_RETURN ].

(** A function that is declared to return a boolean, and does. *)
Definition is_big : cxpr_func_entry (list (string * float64)) :=
  mk_func None
    (Some (λ args w, (VBool match args with VNum d :: _ => fgtb d (of_Z 100) | _ => false end, w)))
    false CXPR_NATIVE_KIND_NONE (Some CXPR_VALUE_BOOL).

(** [is_big(x) and x > 1], compiled. *)
Definition and_code : list simple_instr :=
  [ mk_instr CXPR_OP_LOAD_VAR (Some "x"%string) None None fzero 0 0;
    mk_instr CXPR_OP_CALL_FUNC None None (Some is_big) fzero 0 1;
    mk_instr CXPR_OP_JUMP_IF_FALSE None None None fzero 0 7;
    mk_instr CXPR_OP_LOAD_VAR (Some "x"%string) None None fzero 0 0;
    mk_instr CXPR_OP_PUSH_CONST None None None fone 0 0;
    simple_op CXPR_OP_CMP_GT;
    mk_instr CXPR_OP_JUMP None None None fzero 0 8;
    mk_instr CXPR_OP_PUSH_BOOL None None None fzero 0 0;
    simple_op CXPR_OP_RETURN ].

Lemma and_code_host : typed_host and_code (λ _, True).
Proof.
  split; try done.
  - intros instr w cached w' _ _ [= <- <-]. by split.
  - intros instr f vf args w Hin Ho Hf Hvf _. split; [|done].
    unfold and_code in Hin. rewrite !elem_of_cons, elem_of_nil in Hin.
    destruct_or! Hin; subst instr; simplify_eq/=; done.
Qed.

Lemma scalar_fast_safe_witness :
  ∃ st, rtc (s_next ternary_code) (mk_scalar 0 [] [] [("x"%string, of_Z 5)]) st ∧ s_ip st = 7 ∧
  ∃ instr r, ternary_code !! s_ip st = Some instr ∧
    length (s_stack st) ≤ CXPR_IR_STACK_CAPACITY ∧ scalar_step ternary_code st = Done r ∧
    (ir_op instr = CXPR_OP_RETURN → length (s_stack st) = 1).
Proof.
  exists (mk_scalar 7 [of_Z 5] [] [("x"%string, of_Z 5)]).
  assert (Hr : rtc (s_next ternary_code) (mk_scalar 0 [] [] [("x"%string, of_Z 5)])
                 (mk_scalar 7 [of_Z 5] [] [("x"%string, of_Z 5)])).
  { do 6 (eapply rtc_l; [vm_compute; reflexivity|]). apply rtc_refl. }
  split; [exact Hr|]. split; [reflexivity|].
  apply (scalar_fast_safe (mk_program (Some ternary_code)) ternary_code
           [("x"%string, of_Z 5)] []); [reflexivity|vm_compute; reflexivity|reflexivity|exact Hr].
Defined.

Lemma scalar_fast_returns_witness :
  ∃ r, cxpr_ir_exec_scalar_fast 8 (mk_program (Some ternary_code)) [("x"%string, of_Z 5)] []
       = Done r.
Proof.
  apply (scalar_fast_returns (mk_program (Some ternary_code)) ternary_code);
    [reflexivity|vm_compute; reflexivity|reflexivity|reflexivity].
Defined.

Lemma bool_fast_safe_witness :
  ∃ st, rtc (b_next [] and_code) (mk_bool 0 [] [] [("x"%string, of_Z 500)]) st ∧ b_ip st = 8 ∧
  ∃ instr r, and_code !! b_ip st = Some instr ∧ b_small (b_depths st) ∧
    bool_step [] and_code st = Done r ∧
    (ir_op instr = CXPR_OP_RETURN → b_depths st = mk_fast_state 0 1).
Proof.
  exists (mk_bool 8 [] [true] [("x"%string, of_Z 500)]).
  assert (Hr : rtc (b_next [] and_code) (mk_bool 0 [] [] [("x"%string, of_Z 500)])
                 (mk_bool 8 [] [true] [("x"%string, of_Z 500)])).
  { do 7 (eapply rtc_l; [vm_compute; reflexivity|]). apply rtc_refl. }
  split; [exact Hr|]. split; [reflexivity|].
  apply (bool_fast_safe (mk_program (Some and_code)) and_code [] (λ _, True)
           [("x"%string, of_Z 500)]);
    [reflexivity|vm_compute; reflexivity|reflexivity|exact and_code_host|exact Logic.I|exact Hr].
Defined.

Lemma bool_fast_returns_witness :
  ∃ r, cxpr_ir_exec_bool_fast [] 9 (mk_program (Some and_code)) [("x"%string, of_Z 500)] true
       = Done r.
Proof.
  apply (bool_fast_returns (mk_program (Some and_code)) and_code [] (λ _, True));
    [reflexivity|vm_compute; reflexivity|reflexivity|reflexivity|exact and_code_host
    |exact Logic.I].
Defined.

Example ternary_result :
  (sr_value <$> match cxpr_ir_exec_scalar_fast 8 (mk_program (Some ternary_code))
                        [("x"%string, of_Z 5)] [] with Done r => Some r | _ => None end)
  = Some (of_Z 5).
Proof. vm_compute. reflexivity. Qed.

(** A function declared to return a number that returns a boolean. *)
Definition liar : cxpr_func_entry (list (string * float64)) :=
  mk_func None (Some (λ _ w, (VBool true, w))) false CXPR_NATIVE_KIND_NONE
    (Some CXPR_VALUE_NUMBER).

Definition liar_code : list simple_instr :=
  [ mk_instr CXPR_OP_CALL_FUNC None None (Some liar) fzero 0 0;
    mk_instr CXPR_OP_PUSH_CONST None None None fone 0 0;
    simple_op CXPR_OP_CMP_GT;
    simple_op CXPR_OP_RETURN ].

(** The contract of [bool_fast_safe] is needed: [f() > 1], where [f] is
    declared to return a number and returns a boolean, is accepted by
    [cxpr_ir_validate_bool_fast_program], and the comparison then reads below the
    bottom of the number stack. *)
Theorem bool_fast_trusts_declared_types :
  cxpr_ir_validate_bool_fast_program (mk_program (Some liar_code)) = Done true ∧
  forallb linked liar_code = true ∧
  cxpr_ir_exec_bool_fast [] 4 (mk_program (Some liar_code)) [] true = Undef.
Proof. vm_compute. auto. Qed.
