(* ===== verification/IRCompile.v ===== *)
(** * IRCompile: from trees to instructions ([src/ir/compile.c],
    [src/ir/compile/node.c], [shared.c], [infer.c], [src/ir/program.c],
    [src/ir/cache_key.c])

    One definition per function.  The compiler folds constant calls by calling
    the registered C function, so it runs in a state: the code so far, the error
    record and the host's state.  A function that returns [bool] is a computation
    of a [bool]; [&&!] is the early return of [false].

    An instruction here is the struct of [internal.h] with the operand union as a
    sum; [fast_view] is what the validators of [IR.v] read of it.  A pointer to a
    node is the node with the number of its tree.

    Recursion: constant folding and lowering are on fuel, one unit per nested
    call; the other functions are bounded by the depth limits of the source.
    Allocation succeeds. *)

From Stdlib Require Import Ascii String ZArith Lia.
From stdpp Require Import base list strings.
From S2P Require Import Prelude Float64 Types IR OpenTable Hashmap Ast References CallArgs Registry Builtins EvalSupport EvalState TreeEval.
Local Open Scope run_scope.
Local Open Scope nat_scope.

Definition CXPR_IR_INLINE_DEPTH_LIMIT : nat := 8.
Definition CXPR_IR_INFER_DEPTH_LIMIT : nat := 32.

(** ** Instructions *)

Inductive ir_operand : Type :=
  | op_none
  | op_value (d : float64)
  | op_int64 (i : Z)
  | op_hash (h : Z)
  | op_index (n : nat)
  | op_ast (t : nat) (a : cxpr_expr_ast).

Inductive ir_payload_ptr : Type :=
  | pay_none
  | pay_tree (t : nat) (a : cxpr_expr_ast)
  | pay_args (values : list float64).

Record ir_instr : Type := mk_ir {
  ii_op : cxpr_opcode;
  ii_name : option string;
  ii_aux_name : option string;
  ii_payload : ir_payload_ptr;
  ii_func : option cxpr_func_entry;
  ii_operand : ir_operand
}.

(** Instructions by the fields their opcode has. *)
Definition instr_op (op : cxpr_opcode) : ir_instr := mk_ir op None None pay_none None op_none.
Definition instr_value (op : cxpr_opcode) (d : float64) : ir_instr :=
  mk_ir op None None pay_none None (op_value d).
Definition instr_index (op : cxpr_opcode) (n : nat) : ir_instr :=
  mk_ir op None None pay_none None (op_index n).
Definition instr_name (op : cxpr_opcode) (name : string) : ir_instr :=
  mk_ir op (Some name) None pay_none None op_none.
Definition instr_load (op : cxpr_opcode) (name : string) (payload : ir_payload_ptr) : ir_instr :=
  mk_ir op (Some name) None payload None (op_hash (cxpr_hash_string name)).
Definition instr_call_ast (t : nat) (a : cxpr_expr_ast) : ir_instr :=
  mk_ir CXPR_OP_CALL_AST None None pay_none None (op_ast t a).
Definition instr_call (op : cxpr_opcode) (e : cxpr_func_entry) (t : nat) (a : cxpr_expr_ast) (argc : nat)
    : ir_instr :=
  mk_ir op None None (pay_tree t a) (Some e) (op_index argc).

(** [instr->index]; the zeroed union reads as 0. *)
Definition ii_index (i : ir_instr) : nat := match ii_operand i with op_index n => n | _ => 0 end.

(** ** Names *)

Definition cxpr_ir_is_special_builtin_name (name : string) : bool :=
  existsb (String.eqb name) ["if"; "sqrt"; "abs"; "pow"; "sign"; "floor"; "ceil"; "round"; "clamp"]%string.

Fixpoint cxpr_ir_local_index (name : string) (local_names : list string) : option nat :=
  match local_names with
  | [] => None
  | n :: names => if String.eqb n name then Some 0 else S <$> cxpr_ir_local_index name names
  end.

(** A substitution frame: the parameters of an inlined function with its
    arguments.  A stack of frames has the innermost first; [parent] is its tail. *)
Definition subst_frame : Type := list (string * (nat * cxpr_expr_ast)).

Fixpoint frame_lookup (frame : subst_frame) (name : string) : option (nat * cxpr_expr_ast) :=
  match frame with
  | [] => None
  | (n, arg) :: frame => if String.eqb n name then Some arg else frame_lookup frame name
  end.

(** The argument, and the frames its owner has below it. *)
Fixpoint cxpr_ir_subst_lookup (frames : list subst_frame) (name : string)
    : option (nat * cxpr_expr_ast * list subst_frame) :=
  match frames with
  | [] => None
  | frame :: frames =>
      match frame_lookup frame name with
      | Some arg => Some (arg, frames)
      | None => cxpr_ir_subst_lookup frames name
      end
  end.

(** ** Shapes of trees *)

Fixpoint cxpr_ir_ast_equal (lhs rhs : cxpr_expr_ast) {struct lhs} : bool :=
  let '(Ast _ l) := lhs in
  let '(Ast _ r) := rhs in
  match l, r with
  | CXPR_NODE_NUMBER x, CXPR_NODE_NUMBER y => feqb x y
  | CXPR_NODE_INT64 x, CXPR_NODE_INT64 y => (x =? y)%Z
  | CXPR_NODE_BOOL x, CXPR_NODE_BOOL y => Bool.eqb x y
  | CXPR_NODE_IDENTIFIER x, CXPR_NODE_IDENTIFIER y
  | CXPR_NODE_VARIABLE x, CXPR_NODE_VARIABLE y => String.eqb x y
  | CXPR_NODE_FIELD_ACCESS b _ f k, CXPR_NODE_FIELD_ACCESS b' _ f' k' =>
      match b, b' with
      | Some b, Some b' => cxpr_ir_ast_equal b b' && String.eqb f f'
      | None, None => cxpr_eval_opt_string_equal k k'
      | _, _ => false
      end
  | CXPR_NODE_CHAIN_ACCESS p _, CXPR_NODE_CHAIN_ACCESS p' _ => all2 String.eqb p p'
  | CXPR_NODE_PRODUCER_ACCESS n xs ns f _, CXPR_NODE_PRODUCER_ACCESS n' ys ms f' _ =>
      String.eqb n n' && String.eqb f f' && (length xs =? length ys) &&
      cxpr_eval_arg_names_equal ns ms (length xs) && all2 cxpr_ir_ast_equal xs ys
  | CXPR_NODE_UNARY_OP op x, CXPR_NODE_UNARY_OP op' y => tok_eqb op op' && cxpr_ir_ast_equal x y
  | CXPR_NODE_BINARY_OP op a b, CXPR_NODE_BINARY_OP op' a' b' =>
      tok_eqb op op' && cxpr_ir_ast_equal a a' && cxpr_ir_ast_equal b b'
  | CXPR_NODE_FUNCTION_CALL n xs ns, CXPR_NODE_FUNCTION_CALL n' ys ms =>
      String.eqb n n' && (length xs =? length ys) &&
      cxpr_eval_arg_names_equal ns ms (length xs) && all2 cxpr_ir_ast_equal xs ys
  | CXPR_NODE_INDEX t i, CXPR_NODE_INDEX t' i' => cxpr_ir_ast_equal t t' && cxpr_ir_ast_equal i i'
  | CXPR_NODE_TERNARY c t f, CXPR_NODE_TERNARY c' t' f' =>
      cxpr_ir_ast_equal c c' && cxpr_ir_ast_equal t t' && cxpr_ir_ast_equal f f'
  | _, _ => false
  end.

Fixpoint cxpr_ir_ast_contains_string_literal (a : cxpr_expr_ast) : bool :=
  let '(Ast _ d) := a in
  match d with
  | CXPR_NODE_STRING _ => true
  | CXPR_NODE_BINARY_OP _ l r =>
      cxpr_ir_ast_contains_string_literal l || cxpr_ir_ast_contains_string_literal r
  | CXPR_NODE_UNARY_OP _ x => cxpr_ir_ast_contains_string_literal x
  | CXPR_NODE_FUNCTION_CALL _ args _ | CXPR_NODE_PRODUCER_ACCESS _ args _ _ _ =>
      existsb cxpr_ir_ast_contains_string_literal args
  | CXPR_NODE_INDEX t i => cxpr_ir_ast_contains_string_literal t || cxpr_ir_ast_contains_string_literal i
  | CXPR_NODE_TERNARY c t f =>
      cxpr_ir_ast_contains_string_literal c || cxpr_ir_ast_contains_string_literal t ||
      cxpr_ir_ast_contains_string_literal f
  | _ => false
  end.

Fixpoint cxpr_ir_arg_needs_catchor_passthrough (a : cxpr_expr_ast) : bool :=
  let '(Ast _ d) := a in
  match d with
  | CXPR_NODE_IDENTIFIER _ | CXPR_NODE_FIELD_ACCESS _ _ _ _ | CXPR_NODE_CHAIN_ACCESS _ _
  | CXPR_NODE_FUNCTION_CALL _ _ _ | CXPR_NODE_PRODUCER_ACCESS _ _ _ _ _ | CXPR_NODE_INDEX _ _ => true
  | CXPR_NODE_BINARY_OP _ l r =>
      cxpr_ir_arg_needs_catchor_passthrough l || cxpr_ir_arg_needs_catchor_passthrough r
  | CXPR_NODE_UNARY_OP _ x => cxpr_ir_arg_needs_catchor_passthrough x
  | CXPR_NODE_TERNARY c t f =>
      cxpr_ir_arg_needs_catchor_passthrough c || cxpr_ir_arg_needs_catchor_passthrough t ||
      cxpr_ir_arg_needs_catchor_passthrough f
  | _ => false
  end.

Definition cxpr_ir_runtime_call_needs_catchor_passthrough (a : cxpr_expr_ast) : bool :=
  match ast_node a with
  | CXPR_NODE_FUNCTION_CALL _ args _ | CXPR_NODE_PRODUCER_ACCESS _ args _ _ _ =>
      existsb cxpr_ir_arg_needs_catchor_passthrough args
  | _ => false
  end.

Fixpoint cxpr_ir_index_has_literal_array_base (target : cxpr_expr_ast) : bool :=
  let '(Ast _ d) := target in
  match d with
  | CXPR_NODE_INDEX target _ => cxpr_ir_index_has_literal_array_base target
  | CXPR_NODE_ARRAY _ => true
  | _ => false
  end.

Definition cxpr_ir_simple_lookback_target (a : cxpr_expr_ast) : bool :=
  match ast_node a with
  | CXPR_NODE_IDENTIFIER _ | CXPR_NODE_FIELD_ACCESS _ _ _ _ | CXPR_NODE_CHAIN_ACCESS _ _
  | CXPR_NODE_PRODUCER_ACCESS _ _ _ _ _ => true
  | _ => false
  end.

(** ** Functions of the registry *)

Definition has {A} (o : option A) : bool := match o with Some _ => true | None => false end.
Definition has_items {A} (l : list A) : bool := negb (length l =? 0).

Definition cxpr_ir_defined_is_scalar_only (e : cxpr_func_entry) : bool :=
  has (fe_defined_body e) &&
  forallb (λ i, negb (has_fields e i)) (seq 0 (length (fe_defined_param_names e))).

Section shapes.
Context (reg : cxpr_registry).

(** [levels] counts down from one more than the depth limit. *)
Fixpoint cxpr_ir_defined_body_needs_ast_eval (levels : nat) : cxpr_expr_ast → bool :=
  match levels with
  | O => λ _, false
  | S levels =>
      fix needs (a : cxpr_expr_ast) : bool :=
        let '(Ast _ d) := a in
        match d with
        | CXPR_NODE_FUNCTION_CALL name args _ =>
            match registry_lookup reg name with
            | Some e =>
                has (fe_ast_func e) || has (fe_handler e) ||
                match fe_defined_body e with
                | Some body => cxpr_ir_defined_body_needs_ast_eval levels body
                | None => false
                end
            | None => false
            end || existsb needs args
        | CXPR_NODE_PRODUCER_ACCESS _ args _ _ _ => existsb needs args
        | CXPR_NODE_INDEX t i => needs t || needs i
        | CXPR_NODE_BINARY_OP _ l r => needs l || needs r
        | CXPR_NODE_UNARY_OP _ x => needs x
        | CXPR_NODE_TERNARY c t f => needs c || needs t || needs f
        | CXPR_NODE_FIELD_ACCESS (Some base) _ _ _ => needs base
        | CXPR_NODE_ARRAY els => existsb needs els
        | CXPR_NODE_RECORD _ vals => existsb needs vals
        | _ => false
        end
  end.

Definition cxpr_ir_defined_call_can_inline (e : cxpr_func_entry) (args : list cxpr_expr_ast) : bool :=
  match fe_defined_body e with
  | Some body =>
      negb (has_items (fe_defined_return e)) &&
      (length (fe_defined_param_names e) =? length args) &&
      negb (cxpr_ir_defined_body_needs_ast_eval (S CXPR_IR_INLINE_DEPTH_LIMIT) body) &&
      forallb (λ i, negb (has_fields e i)) (seq 0 (length (fe_defined_param_names e)))
  | None => false
  end.

(** ** Result kinds ([infer.c]) *)

Inductive result_kind : Type := CXPR_IR_RESULT_UNKNOWN | CXPR_IR_RESULT_DOUBLE | CXPR_IR_RESULT_BOOL.

#[global] Instance result_kind_eq_dec : EqDecision result_kind.
Proof. solve_decision. Defined.

Definition is_kind (k k' : result_kind) : bool := bool_decide (k = k').

(** [k] when the operands have the kind [need], unknown otherwise. *)
Definition when_both (need k : result_kind) (l r : result_kind) : result_kind :=
  if is_kind l need && is_kind r need then k else CXPR_IR_RESULT_UNKNOWN.

Definition infer_binary_kind (op : cxpr_token_type) (l r : result_kind) : result_kind :=
  if is_kind l CXPR_IR_RESULT_UNKNOWN || is_kind r CXPR_IR_RESULT_UNKNOWN then CXPR_IR_RESULT_UNKNOWN
  else
    match op with
    | CXPR_TOK_PLUS | CXPR_TOK_MINUS | CXPR_TOK_STAR | CXPR_TOK_SLASH | CXPR_TOK_PERCENT
    | CXPR_TOK_POWER => when_both CXPR_IR_RESULT_DOUBLE CXPR_IR_RESULT_DOUBLE l r
    | CXPR_TOK_LT | CXPR_TOK_LTE | CXPR_TOK_GT | CXPR_TOK_GTE =>
        when_both CXPR_IR_RESULT_DOUBLE CXPR_IR_RESULT_BOOL l r
    | CXPR_TOK_AND | CXPR_TOK_OR => when_both CXPR_IR_RESULT_BOOL CXPR_IR_RESULT_BOOL l r
    | CXPR_TOK_EQ | CXPR_TOK_NEQ => if is_kind l r then CXPR_IR_RESULT_BOOL else CXPR_IR_RESULT_UNKNOWN
    | _ => CXPR_IR_RESULT_UNKNOWN
    end.

Definition infer_conditional_kind (c x y : result_kind) : result_kind :=
  if is_kind c CXPR_IR_RESULT_BOOL && is_kind x y then x else CXPR_IR_RESULT_UNKNOWN.

(** What a function with number arguments returns. *)
Definition declared_kind (type : option cxpr_value_type) : result_kind :=
  match type with
  | Some CXPR_VALUE_BOOL => CXPR_IR_RESULT_BOOL
  | Some CXPR_VALUE_NUMBER => CXPR_IR_RESULT_DOUBLE
  | _ => CXPR_IR_RESULT_UNKNOWN
  end.

(** [levels] counts down from one more than the depth limit. *)
Fixpoint cxpr_ir_infer_fast_result_kind (levels : nat) (a : cxpr_expr_ast) : result_kind :=
  match levels with
  | O => CXPR_IR_RESULT_UNKNOWN
  | S levels =>
      let infer := cxpr_ir_infer_fast_result_kind levels in
      let call name args :=
        match registry_lookup reg name with
        | None => CXPR_IR_RESULT_UNKNOWN
        | Some e =>
            if has (fe_ast_func e) || has (fe_model_producer e)
               || (has_items (fe_struct_fields e) && negb (has (fe_struct_producer e)))
               || (has (fe_struct_producer e) && negb (has (fe_sync_func e)))
               || has (fe_typed_func e)
               || negb (forallb (λ arg, is_kind (infer arg) CXPR_IR_RESULT_DOUBLE) args)
            then CXPR_IR_RESULT_UNKNOWN
            else if has (fe_sync_func e) && negb (has (fe_value_func e)) && negb (has (fe_defined_body e))
            then CXPR_IR_RESULT_DOUBLE
            else if has (fe_value_func e) && has (fe_return_type e) then declared_kind (fe_return_type e)
            else
              match fe_defined_body e with
              | Some body =>
                  if cxpr_ir_defined_is_scalar_only e then infer body else CXPR_IR_RESULT_UNKNOWN
              | None => CXPR_IR_RESULT_UNKNOWN
              end
        end in
      match ast_node a with
      | CXPR_NODE_NUMBER _ | CXPR_NODE_IDENTIFIER _ | CXPR_NODE_VARIABLE _ => CXPR_IR_RESULT_DOUBLE
      | CXPR_NODE_BOOL _ => CXPR_IR_RESULT_BOOL
      | CXPR_NODE_UNARY_OP op x =>
          match op, infer x with
          | CXPR_TOK_MINUS, CXPR_IR_RESULT_DOUBLE => CXPR_IR_RESULT_DOUBLE
          | CXPR_TOK_NOT, CXPR_IR_RESULT_BOOL => CXPR_IR_RESULT_BOOL
          | _, _ => CXPR_IR_RESULT_UNKNOWN
          end
      | CXPR_NODE_BINARY_OP op l r => infer_binary_kind op (infer l) (infer r)
      | CXPR_NODE_TERNARY c x y => infer_conditional_kind (infer c) (infer x) (infer y)
      | CXPR_NODE_FUNCTION_CALL name args _ =>
          match args with
          | [c; x; y] =>
              if String.eqb name "if" then infer_conditional_kind (infer c) (infer x) (infer y)
              else call name args
          | _ => call name args
          end
      | _ => CXPR_IR_RESULT_UNKNOWN
      end
  end.
End shapes.

(** ** Constant folding ([program.c]) *)

Section fold.
Context {W : Type} `{!HostCode W} (reg : cxpr_registry).

(** The conversion of an accepted index to [size_t]. *)
Definition size_index (v : cxpr_value) : run (option Z) :=
  match index_value v (of_Z SIZE_MAX) with
  | None => Done None
  | Some d =>
      match to_Z d with
      | Some z => if (z <=? SIZE_MAX)%Z then Done (Some z) else Undef
      | None => Undef
      end
  end.

(** The element a constant index selects. *)
Definition selected (elements : list cxpr_expr_ast) (v : option cxpr_value)
    : run (option cxpr_expr_ast) :=
  match v with
  | None => Done None
  | Some v =>
      let* i := size_index v in
      Done (match i with
            | Some i => if (i <? Z.of_nat (length elements))%Z then elements !! Z.to_nat i else None
            | None => None
            end)
  end.

Definition constant_unary (op : cxpr_token_type) (v : cxpr_value) : option cxpr_value :=
  match op, v with
  | CXPR_TOK_MINUS, VNum d => Some (VNum (fneg d))
  | CXPR_TOK_NOT, VBool b => Some (VBool (negb b))
  | _, _ => None
  end.

Definition constant_binary (op : cxpr_token_type) (l r : cxpr_value) : option cxpr_value :=
  match op, l, r with
  | CXPR_TOK_PLUS, VNum a, VNum b => Some (VNum (fadd a b))
  | CXPR_TOK_MINUS, VNum a, VNum b => Some (VNum (fsub a b))
  | CXPR_TOK_STAR, VNum a, VNum b => Some (VNum (fmul a b))
  | CXPR_TOK_SLASH, VNum a, VNum b => if feqb b fzero then None else Some (VNum (fdiv a b))
  | CXPR_TOK_PERCENT, VNum a, VNum b => if feqb b fzero then None else Some (VNum (fmod a b))
  | CXPR_TOK_POWER, VNum a, VNum b =>
      let numeric := fpow a b in if fisfinite numeric then Some (VNum numeric) else None
  | CXPR_TOK_LT, VNum a, VNum b => Some (VBool (fltb a b))
  | CXPR_TOK_LTE, VNum a, VNum b => Some (VBool (fleb a b))
  | CXPR_TOK_GT, VNum a, VNum b => Some (VBool (fgtb a b))
  | CXPR_TOK_GTE, VNum a, VNum b => Some (VBool (fgeb a b))
  | CXPR_TOK_AND, VBool a, VBool b => Some (VBool (a && b))
  | CXPR_TOK_OR, VBool a, VBool b => Some (VBool (a || b))
  | CXPR_TOK_EQ, VNum a, VNum b => Some (VBool (feqb a b))
  | CXPR_TOK_EQ, VBool a, VBool b => Some (VBool (Bool.eqb a b))
  | CXPR_TOK_EQ, VString a, VString b => Some (VBool (String.eqb a b))
  | CXPR_TOK_NEQ, VNum a, VNum b => Some (VBool (fneb a b))
  | CXPR_TOK_NEQ, VBool a, VBool b => Some (VBool (negb (Bool.eqb a b)))
  | CXPR_TOK_NEQ, VString a, VString b => Some (VBool (negb (String.eqb a b)))
  | _, _, _ => None
  end.

(** A C function on numbers, and nothing else: its calls are folded. *)
Definition foldable (e : cxpr_func_entry) (argc : nat) : option cxpr_func_ptr :=
  if has (fe_value_func e) || has (fe_typed_func e) || has (fe_ast_func e) || has (fe_handler e)
     || has (fe_struct_producer e) || has_items (fe_struct_fields e) || has (fe_defined_body e)
     || (argc <? fe_min_args e) || (fe_max_args e <? argc)
  then None else fe_sync_func e.

(** Folding calls C functions: [None] is [false]. *)
Definition folding : Type := W → run (option cxpr_value * W).

(** The nested calls of folding: on a node, and on the base of an index. *)
Section step.
Context (fold : cxpr_expr_ast → folding).
Context (array_of : cxpr_expr_ast → W → run (option cxpr_expr_ast * W)).

Fixpoint fold_numbers (args : list cxpr_expr_ast) (w : W) : run (option (list float64) * W) :=
  match args with
  | [] => Done (Some [], w)
  | a :: args =>
      let* '(v, w) := fold a w in
      match v with
      | Some (VNum d) =>
          let* '(ds, w) := fold_numbers args w in Done (cons d <$> ds, w)
      | _ => Done (None, w)
      end
  end.

(** A constant condition selects the branch. *)
Definition fold_conditional (c x y : cxpr_expr_ast) (w : W) : run (option cxpr_value * W) :=
  let* '(v, w) := fold c w in
  match v with
  | Some (VBool b) => fold (if b then x else y) w
  | _ => Done (None, w)
  end.

Definition fold_call (name : string) (args : list cxpr_expr_ast) (w : W) : run (option cxpr_value * W) :=
  match registry_lookup reg name with
  | None => Done (None, w)
  | Some e =>
      match foldable e (length args) with
      | None => Done (None, w)
      | Some f =>
          let* '(ds, w) := fold_numbers args w in
          match ds with
          | None => Done (None, w)
          | Some ds =>
              let* '(numeric, w) := call_sync f ds (fe_userdata e) w in
              Done (if fisfinite numeric then Some (VNum numeric) else None, w)
          end
      end
  end.

Definition fold_index (target index : cxpr_expr_ast) (w : W) : run (option cxpr_value * W) :=
  let* '(array, w) := array_of target w in
  match ast_node <$> array with
  | Some (CXPR_NODE_ARRAY elements) =>
      let* '(v, w) := fold index w in
      let* element := selected elements v in
      match element with
      | None => Done (None, w)
      | Some e =>
          let* '(v, w) := fold e w in
          Done (match v with Some (VNum _) | Some (VBool _) => v | _ => None end, w)
      end
  | _ =>
      let* offset := cxpr_lookback_literal_offset index in
      match offset with Some _ => fold target w | None => Done (None, w) end
  end.

Definition constant_step (a : cxpr_expr_ast) (w : W) : run (option cxpr_value * W) :=
  match ast_node a with
  | CXPR_NODE_NUMBER d => Done (Some (VNum d), w)
  | CXPR_NODE_INT64 i => Done (Some (VInt64 i), w)
  | CXPR_NODE_BOOL b => Done (Some (VBool b), w)
  | CXPR_NODE_STRING s => Done (Some (VString s), w)
  | CXPR_NODE_INDEX target index => fold_index target index w
  | CXPR_NODE_UNARY_OP op x =>
      let* '(v, w) := fold x w in Done (v ≫= constant_unary op, w)
  | CXPR_NODE_BINARY_OP op x y =>
      let* '(l, w) := fold x w in
      match l with
      | None => Done (None, w)
      | Some l => let* '(r, w) := fold y w in Done (r ≫= constant_binary op l, w)
      end
  | CXPR_NODE_FUNCTION_CALL name args names =>
      if cxpr_expr_ast_named_args_present names || (CXPR_MAX_CALL_ARGS <? length args)
      then Done (None, w)
      else
        match args with
        | [c; x; y] =>
            if String.eqb name "if" then fold_conditional c x y w else fold_call name args w
        | _ => fold_call name args w
        end
  | CXPR_NODE_TERNARY c x y => fold_conditional c x y w
  | _ => Done (None, w)
  end.

(** [cxpr_ir_constant_array_value_ast] *)
Definition array_step (a : cxpr_expr_ast) (w : W) : run (option cxpr_expr_ast * W) :=
  match ast_node a with
  | CXPR_NODE_ARRAY _ => Done (Some a, w)
  | CXPR_NODE_INDEX target index =>
      let* '(array, w) := array_of target w in
      match ast_node <$> array with
      | Some (CXPR_NODE_ARRAY elements) =>
          let* '(v, w) := fold index w in
          let* element := selected elements v in Done (element, w)
      | _ => Done (None, w)
      end
  | _ => Done (None, w)
  end.
End step.

Fixpoint cxpr_ir_constant_typed_value (fuel : nat) (a : cxpr_expr_ast) (w : W)
    : run (option cxpr_value * W) :=
  match fuel with
  | O => OutOfFuel
  | S fuel =>
      constant_step (cxpr_ir_constant_typed_value fuel) (cxpr_ir_constant_array_value_ast fuel) a w
  end
with cxpr_ir_constant_array_value_ast (fuel : nat) (a : cxpr_expr_ast) (w : W)
    : run (option cxpr_expr_ast * W) :=
  match fuel with
  | O => OutOfFuel
  | S fuel =>
      array_step (cxpr_ir_constant_typed_value fuel) (cxpr_ir_constant_array_value_ast fuel) a w
  end.
End fold.

(** ** Lowering ([node.c]) *)

Record cst (W : Type) : Type := mk_cst {
  cs_code : list ir_instr;
  cs_err : cxpr_error;
  cs_world : W
}.
Arguments mk_cst {W}. Arguments cs_code {W}. Arguments cs_err {W}. Arguments cs_world {W}.

Definition lowering (W A : Type) : Type := cst W → run (A * cst W).

Declare Scope lower_scope.
Delimit Scope lower_scope with lower.

Section emitting.
Context {W : Type}.

Definition lret {A} (x : A) : lowering W A := λ s, Done (x, s).
Definition lbind {A B} (m : lowering W A) (k : A → lowering W B) : lowering W B :=
  λ s, let* '(x, s) := m s in k x s.

(** [if (!m) return false; return k;] *)
Definition land (m k : lowering W bool) : lowering W bool :=
  lbind m (λ ok, if ok then k else lret false).

Definition cxpr_ir_emit (i : ir_instr) : lowering W bool :=
  λ s, Done (true, mk_cst (cs_code s ++ [i]) (cs_err s) (cs_world s)).

Definition cxpr_ir_next_index : lowering W nat := λ s, Done (length (cs_code s), s).

Definition patch_index (target : nat) (i : ir_instr) : ir_instr :=
  mk_ir (ii_op i) (ii_name i) (ii_aux_name i) (ii_payload i) (ii_func i) (op_index target).

(** Nothing happens past the end. *)
Definition cxpr_ir_patch_target (at_ target : nat) : lowering W bool :=
  λ s, Done (true, mk_cst (alter (patch_index target) at_ (cs_code s)) (cs_err s) (cs_world s)).

(** [err->code = code; err->message = message; return false;] *)
Definition lower_error (code : cxpr_error_code) (message : string) : lowering W bool :=
  λ s, Done (false, mk_cst (cs_code s)
                      (mk_error code (Some message) (err_position (cs_err s)) (err_line (cs_err s))
                         (err_column (cs_err s))) (cs_world s)).

(** Patch an earlier jump to the next instruction. *)
Definition patch_here (at_ : nat) : lowering W bool :=
  lbind cxpr_ir_next_index (cxpr_ir_patch_target at_).
End emitting.

Notation "m '&&!' k" := (land m k) (at level 100, right associativity) : lower_scope.
Notation "'let#' x ':=' m 'in' k" := (lbind m (fun x => k))
  (at level 200, x binder, m at level 100, k at level 200) : lower_scope.
Local Open Scope lower_scope.

Definition cxpr_ir_unknown_function_message (name : string) : string :=
  quoted "Unknown function '" name "Unknown function".

Section lower.
Context {W : Type} `{!HostCode W} `{!HexFormat} (reg : cxpr_registry) (local_names : list string).
Abbreviation LW := (lowering W).

(** Folding, in the state of the compiler. *)
Definition constant (fuel : nat) (a : cxpr_expr_ast) : LW (option cxpr_value) :=
  λ s, let* '(v, w) := cxpr_ir_constant_typed_value reg fuel a (cs_world s) in
       Done (v, mk_cst (cs_code s) (cs_err s) w).

(** [cxpr_ir_build_constant_producer_key] with the values it folds. *)
Definition cxpr_ir_build_constant_producer_key (fuel : nat) (name : string) (args : list cxpr_expr_ast)
    : LW (option (string * list float64)) :=
  if CXPR_MAX_CALL_ARGS <? length args then lret None
  else
    λ s, let* '(ds, w) := fold_numbers (cxpr_ir_constant_typed_value reg fuel) args (cs_world s) in
         Done (ds ≫= (λ ds, (λ key, (key, ds)) <$> cxpr_build_struct_cache_key name ds),
               mk_cst (cs_code s) (cs_err s) w).

(** The most direct load of a leaf; [false] when there is none. *)
Fixpoint cxpr_ir_emit_leaf_load (square : bool) (subst : list subst_frame) (a : cxpr_expr_ast)
    : LW bool :=
  let load plain squared := if square then squared else plain : cxpr_opcode in
  match ast_node a with
  | CXPR_NODE_IDENTIFIER name =>
      match subst with
      | frame :: parents =>
          match frame_lookup frame name with
          | Some (_, mapped) => cxpr_ir_emit_leaf_load square parents mapped
          | None => cxpr_ir_emit_leaf_load square parents a
          end
      | [] =>
          match cxpr_ir_local_index name local_names with
          | Some i => cxpr_ir_emit (instr_index (load CXPR_OP_LOAD_LOCAL CXPR_OP_LOAD_LOCAL_SQUARE) i)
          | None =>
              cxpr_ir_emit (instr_load (load CXPR_OP_LOAD_VAR CXPR_OP_LOAD_VAR_SQUARE) name pay_none)
          end
      end
  | CXPR_NODE_VARIABLE name =>
      cxpr_ir_emit (instr_load (load CXPR_OP_LOAD_PARAM CXPR_OP_LOAD_PARAM_SQUARE) name pay_none)
  | CXPR_NODE_FIELD_ACCESS None _ _ full_key =>
      cxpr_ir_emit (instr_load (load CXPR_OP_LOAD_FIELD CXPR_OP_LOAD_FIELD_SQUARE)
                      (opt_text full_key) pay_none)
  | _ => lret false
  end.

(** [f(bar)] for [f(p) => p.field]: the field of the named argument. *)
Definition cxpr_ir_emit_defined_direct_field_call (e : cxpr_func_entry) (args : list cxpr_expr_ast)
    : LW bool :=
  let body_field :=
    match ast_node <$> fe_defined_body e with
    | Some (CXPR_NODE_FIELD_ACCESS None object field _) => Some (opt_text object, field)
    | Some (CXPR_NODE_CHAIN_ACCESS [param; field] _) => Some (param, field)
    | _ => None
    end in
  match body_field with
  | None => lret false
  | Some (param, field) =>
      match cxpr_ir_local_index param (fe_defined_param_names e) with
      | None => lret false
      | Some i =>
          match ast_node <$> args !! i with
          | Some (CXPR_NODE_IDENTIFIER name) =>
              let flat_key := (name ++ String "." field)%string in
              if 256 <=? strlen flat_key then lret false
              else cxpr_ir_emit (mk_ir CXPR_OP_LOAD_NAMED_FIELD (Some name) (Some field) pay_none None
                                   (op_hash (cxpr_hash_string flat_key)))
          | _ => lret false
          end
      end
  end.

Section step.
Context (fuel : nat).
Context (rec : list subst_frame → nat → nat → cxpr_expr_ast → LW bool).
Context (subst : list subst_frame) (inline_depth : nat).

Abbreviation node := (rec subst inline_depth).

Fixpoint compile_all (t : nat) (args : list cxpr_expr_ast) : LW bool :=
  match args with
  | [] => lret true
  | a :: args => node t a &&! compile_all t args
  end.

(** The jumps of a conditional. *)
Definition compile_conditional (t : nat) (c x y : cxpr_expr_ast) : LW bool :=
  node t c &&!
  let# false_jump := cxpr_ir_next_index in
  cxpr_ir_emit (instr_op CXPR_OP_JUMP_IF_FALSE) &&!
  node t x &&!
  let# end_jump := cxpr_ir_next_index in
  cxpr_ir_emit (instr_op CXPR_OP_JUMP) &&!
  patch_here false_jump &&!
  node t y &&!
  patch_here end_jump.

(** A constant left operand decides, or leaves the right one alone. *)
Definition constant_operand (x : cxpr_expr_ast) (absorbing : bool) (t : nat) (y : cxpr_expr_ast)
    (otherwise : LW bool) : LW bool :=
  let# l := constant fuel x in
  match l with
  | Some (VBool b) =>
      if Bool.eqb b absorbing
      then cxpr_ir_emit (instr_value CXPR_OP_PUSH_BOOL (of_bool absorbing))
      else node t y
  | _ => otherwise
  end.

Definition push_bool (b : bool) : LW bool := cxpr_ir_emit (instr_value CXPR_OP_PUSH_BOOL (of_bool b)).

Definition compile_and (t : nat) (x y : cxpr_expr_ast) : LW bool :=
  constant_operand x false t y (
  node t x &&!
  let# left_false_jump := cxpr_ir_next_index in
  cxpr_ir_emit (instr_op CXPR_OP_JUMP_IF_FALSE) &&!
  node t y &&!
  let# right_false_jump := cxpr_ir_next_index in
  cxpr_ir_emit (instr_op CXPR_OP_JUMP_IF_FALSE) &&!
  push_bool true &&!
  let# end_jump := cxpr_ir_next_index in
  cxpr_ir_emit (instr_op CXPR_OP_JUMP) &&!
  patch_here left_false_jump &&!
  patch_here right_false_jump &&!
  push_bool false &&!
  patch_here end_jump).

Definition compile_or (t : nat) (x y : cxpr_expr_ast) : LW bool :=
  constant_operand x true t y (
  node t x &&!
  let# left_true_jump := cxpr_ir_next_index in
  cxpr_ir_emit (instr_op CXPR_OP_JUMP_IF_TRUE) &&!
  node t y &&!
  let# right_false_jump := cxpr_ir_next_index in
  cxpr_ir_emit (instr_op CXPR_OP_JUMP_IF_FALSE) &&!
  push_bool true &&!
  let# end_jump := cxpr_ir_next_index in
  cxpr_ir_emit (instr_op CXPR_OP_JUMP) &&!
  patch_here left_true_jump &&!
  push_bool true &&!
  let# skip_false_jump := cxpr_ir_next_index in
  cxpr_ir_emit (instr_op CXPR_OP_JUMP) &&!
  patch_here right_false_jump &&!
  push_bool false &&!
  patch_here end_jump &&!
  patch_here skip_false_jump).

Definition binary_opcode (op : cxpr_token_type) : option cxpr_opcode :=
  match op with
  | CXPR_TOK_PLUS => Some CXPR_OP_ADD | CXPR_TOK_MINUS => Some CXPR_OP_SUB
  | CXPR_TOK_STAR => Some CXPR_OP_MUL | CXPR_TOK_SLASH => Some CXPR_OP_DIV
  | CXPR_TOK_PERCENT => Some CXPR_OP_MOD | CXPR_TOK_POWER => Some CXPR_OP_POW
  | CXPR_TOK_EQ => Some CXPR_OP_CMP_EQ | CXPR_TOK_NEQ => Some CXPR_OP_CMP_NEQ
  | CXPR_TOK_LT => Some CXPR_OP_CMP_LT | CXPR_TOK_LTE => Some CXPR_OP_CMP_LTE
  | CXPR_TOK_GT => Some CXPR_OP_CMP_GT | CXPR_TOK_GTE => Some CXPR_OP_CMP_GTE
  | _ => None
  end.

(** The product of equal operands is a square. *)
Definition compile_square (t : nat) (x : cxpr_expr_ast) : LW bool :=
  let# leaf := cxpr_ir_emit_leaf_load true subst x in
  if leaf then lret true
  else node t x &&! cxpr_ir_emit (instr_op CXPR_OP_SQUARE).

Definition compile_binary (t : nat) (op : cxpr_token_type) (x y : cxpr_expr_ast) : LW bool :=
  match op with
  | CXPR_TOK_AND => compile_and t x y
  | CXPR_TOK_OR => compile_or t x y
  | _ =>
      if tok_eqb op CXPR_TOK_STAR && cxpr_ir_ast_equal x y then compile_square t x
      else
        node t x &&! node t y &&!
        match binary_opcode op with
        | Some opcode => cxpr_ir_emit (instr_op opcode)
        | None =>
            lower_error CXPR_ERR_SYNTAX
              "IR v1 currently supports arithmetic and comparison binary operators"
        end
  end.

Definition compile_unary (t : nat) (op : cxpr_token_type) (x : cxpr_expr_ast) : LW bool :=
  match op with
  | CXPR_TOK_NOT => node t x &&! cxpr_ir_emit (instr_op CXPR_OP_NOT)
  | CXPR_TOK_MINUS => node t x &&! cxpr_ir_emit (instr_op CXPR_OP_NEG)
  | _ => lower_error CXPR_ERR_SYNTAX "IR currently supports only unary minus and not"
  end.

Definition compile_identifier (t : nat) (a : cxpr_expr_ast) (name : string) : LW bool :=
  match cxpr_ir_subst_lookup subst name with
  | Some (t', mapped, parents) => rec parents inline_depth t' mapped
  | None =>
      match cxpr_ir_local_index name local_names with
      | Some i => cxpr_ir_emit (instr_index CXPR_OP_LOAD_LOCAL i)
      | None => cxpr_ir_emit (instr_load CXPR_OP_LOAD_VAR name (pay_tree t a))
      end
  end.

Definition compile_field (t : nat) (a : cxpr_expr_ast) (base : option cxpr_expr_ast) (field : string)
    (full_key : option string) : LW bool :=
  match base with
  | Some base =>
      let handled :=
        match ast_node base with
        | CXPR_NODE_FUNCTION_CALL name _ _ =>
            match registry_lookup reg name with Some e => has (fe_handler e) | None => false end
        | _ => false
        end in
      if handled then cxpr_ir_emit (instr_call_ast t a)
      else node t base &&! cxpr_ir_emit (instr_name CXPR_OP_GET_FIELD field)
  | None => cxpr_ir_emit (instr_load CXPR_OP_LOAD_FIELD (opt_text full_key) (pay_tree t a))
  end.

(** A call of a record function, and the field of its record. *)
Definition compile_defined (t : nat) (a : cxpr_expr_ast) (e : cxpr_func_entry)
    (args : list cxpr_expr_ast) (argc : nat) : LW bool :=
  compile_all t args &&! cxpr_ir_emit (instr_call CXPR_OP_CALL_DEFINED e t a argc).

Definition compile_producer (t : nat) (a : cxpr_expr_ast) (name : string) (args : list cxpr_expr_ast)
    (names : option (list (option string))) (field : string) : LW bool :=
  let unknown := lower_error CXPR_ERR_UNKNOWN_FUNCTION (cxpr_ir_unknown_function_message name) in
  let argc := length args in
  match registry_lookup reg name with
  | None => unknown
  | Some e =>
      if has (fe_handler e) then cxpr_ir_emit (instr_call_ast t a)
      else if negb (produces_struct e) then unknown
      else
        λ s, let* bound := cxpr_call_bind_args args names (cxpr_registry_entry_param_names e) in
        match bound with
        | inr (code, message) => lower_error code message s
        | inl ordered =>
            (if has_items (fe_defined_return e) && negb (has (fe_model_producer e)) then
               compile_defined t a e ordered argc &&!
               cxpr_ir_emit (instr_name CXPR_OP_GET_FIELD field)
             else
               let# key := cxpr_ir_build_constant_producer_key fuel name ordered in
               match key with
               | Some (key, values) =>
                   cxpr_ir_emit (mk_ir CXPR_OP_CALL_PRODUCER_CONST_FIELD (Some key) (Some field)
                                   (pay_args values) (Some e) (op_index argc))
               | None =>
                   compile_all t ordered &&!
                   cxpr_ir_emit (mk_ir CXPR_OP_CALL_PRODUCER (Some name) None pay_none (Some e)
                                   (op_index argc)) &&!
                   cxpr_ir_emit (instr_name CXPR_OP_GET_FIELD field)
               end) s
        end
  end.

(** Literal offsets are added up; the target gets a resolver, or is loaded at the
    offset. *)
Definition compile_index (t : nat) (a target index : cxpr_expr_ast) : LW bool :=
  if cxpr_ir_index_has_literal_array_base target then
    node t target &&! node t index &&! cxpr_ir_emit (instr_op CXPR_OP_INDEX)
  else
    λ s, let* offset := cxpr_lookback_literal_offset index in
    match offset with
    | None => cxpr_ir_emit (instr_call_ast t a) s
    | Some offset =>
        let* '(target, offset) := peel_offsets target offset in
        (if negb (cxpr_ir_simple_lookback_target target) then
           cxpr_ir_emit (mk_ir CXPR_OP_LOOKBACK_RESOLVE None None (pay_tree t target) None
                           (op_index (Z.to_nat offset)))
         else
           cxpr_ir_emit (instr_index CXPR_OP_LOOKBACK_PUSH (Z.to_nat offset)) &&!
           node t target &&!
           cxpr_ir_emit (instr_op CXPR_OP_LOOKBACK_POP)) s
    end.

(** The functions with an opcode of their own. *)
Definition intrinsic (name : string) (argc : nat) : option cxpr_opcode :=
  let named n k := String.eqb name n && (argc =? k) in
  if named "sqrt"%string 1 then Some CXPR_OP_SQRT
  else if named "abs"%string 1 then Some CXPR_OP_ABS
  else if named "pow"%string 2 then Some CXPR_OP_POW
  else if named "sign"%string 1 then Some CXPR_OP_SIGN
  else if named "floor"%string 1 then Some CXPR_OP_FLOOR
  else if named "ceil"%string 1 then Some CXPR_OP_CEIL
  else if named "round"%string 1 then Some CXPR_OP_ROUND
  else if named "clamp"%string 3 then Some CXPR_OP_CLAMP
  else None.

Definition native_opcode (e : cxpr_func_entry) (argc : nat) : cxpr_opcode :=
  match fe_native e with
  | Some (NATIVE_UNARY, _) => if argc =? 1 then CXPR_OP_CALL_UNARY else CXPR_OP_CALL_FUNC
  | Some (NATIVE_BINARY, _) => if argc =? 2 then CXPR_OP_CALL_BINARY else CXPR_OP_CALL_FUNC
  | Some (NATIVE_TERNARY, _) => if argc =? 3 then CXPR_OP_CALL_TERNARY else CXPR_OP_CALL_FUNC
  | _ => CXPR_OP_CALL_FUNC
  end.

(** A call of a struct producer whose struct is the value. *)
Definition compile_producer_call (t : nat) (e : cxpr_func_entry) (name : string)
    (args : list cxpr_expr_ast) : LW bool :=
  compile_all t args &&!
  let# key := cxpr_ir_build_constant_producer_key fuel name args in
  cxpr_ir_emit (mk_ir (if has key then CXPR_OP_CALL_PRODUCER_CONST else CXPR_OP_CALL_PRODUCER)
                  (Some (match key with Some (key, _) => key | None => name end)) None pay_none
                  (Some e) (op_index (length args))).

(** A call of an expression function: its body with the arguments in a frame, or
    a call when the bodies are nested too deeply. *)
Definition compile_expression_call (t : nat) (a : cxpr_expr_ast) (e : cxpr_func_entry)
    (args : list cxpr_expr_ast) : LW bool :=
  match fe_defined_body e with
  | Some body =>
      if cxpr_ir_defined_call_can_inline reg e args then
        if inline_depth <? CXPR_IR_INLINE_DEPTH_LIMIT
        then rec (zip (fe_defined_param_names e) ((λ arg, (t, arg)) <$> args) :: subst)
               (S inline_depth) registry_tree body
        else compile_defined t a e args (length args)
      else cxpr_ir_emit (instr_call_ast t a)
  | None => cxpr_ir_emit (instr_call_ast t a)
  end.

(** A registered function without an opcode of its own. *)
Definition compile_entry_call (t : nat) (a : cxpr_expr_ast) (e : cxpr_func_entry) (name : string)
    (args : list cxpr_expr_ast) : LW bool :=
  let argc := length args in
  if has (fe_ast_func e) then cxpr_ir_emit (instr_call_ast t a)
  else if (String.eqb name "min" || String.eqb name "max") && (1 <=? argc) && (argc <=? 8) then
    compile_all t args &&! cxpr_ir_emit (instr_call CXPR_OP_CALL_FUNC e t a argc)
  else if has (fe_handler e) &&
          (cxpr_ir_ast_contains_string_literal a || cxpr_ir_runtime_call_needs_catchor_passthrough a)
  then cxpr_ir_emit (instr_call_ast t a)
  else if (has (fe_sync_func e) || has (fe_value_func e) || has (fe_typed_func e))
          && negb (has_items (fe_struct_fields e)) && negb (has (fe_defined_body e)) then
    compile_all t args &&! cxpr_ir_emit (instr_call (native_opcode e argc) e t a argc)
  else if has (fe_struct_producer e) && negb (has (fe_sync_func e)) then
    compile_producer_call t e name args
  else
    let# direct := cxpr_ir_emit_defined_direct_field_call e args in
    if direct then lret true
    else if has_items (fe_defined_return e) then compile_defined t a e args argc
    else compile_expression_call t a e args.

Definition compile_call (t : nat) (a : cxpr_expr_ast) (name : string) (args : list cxpr_expr_ast)
    (names : option (list (option string))) : LW bool :=
  let plain :=
    match registry_lookup reg name with
    | None =>
        if cxpr_ir_is_special_builtin_name name then cxpr_ir_emit (instr_call_ast t a)
        else lower_error CXPR_ERR_UNKNOWN_FUNCTION (cxpr_ir_unknown_function_message name)
    | Some e =>
        match intrinsic name (length args) with
        | Some opcode => compile_all t args &&! cxpr_ir_emit (instr_op opcode)
        | None => compile_entry_call t a e name args
        end
    end in
  if cxpr_expr_ast_named_args_present names then cxpr_ir_emit (instr_call_ast t a)
  else
    match args with
    | [c; x; y] => if String.eqb name "if" then compile_conditional t c x y else plain
    | _ => plain
    end.

(** A folded number, boolean or string; other constants are lowered. *)
Definition push_constant (v : option cxpr_value) (otherwise : LW bool) : LW bool :=
  match v with
  | Some (VString s) => cxpr_ir_emit (instr_name CXPR_OP_PUSH_STRING s)
  | Some (VBool b) => push_bool b
  | Some (VNum d) => cxpr_ir_emit (instr_value CXPR_OP_PUSH_CONST d)
  | _ => otherwise
  end.

Definition compile_step (t : nat) (a : cxpr_expr_ast) : LW bool :=
  let# folded := constant fuel a in
  push_constant folded
  match ast_node a with
  | CXPR_NODE_NUMBER d => cxpr_ir_emit (instr_value CXPR_OP_PUSH_CONST d)
  | CXPR_NODE_INT64 i => cxpr_ir_emit (mk_ir CXPR_OP_PUSH_INT64 None None pay_none None (op_int64 i))
  | CXPR_NODE_BOOL b => push_bool b
  | CXPR_NODE_STRING s => cxpr_ir_emit (instr_name CXPR_OP_PUSH_STRING s)
  | CXPR_NODE_ARRAY elements =>
      compile_all t elements &&! cxpr_ir_emit (instr_index CXPR_OP_BUILD_ARRAY (length elements))
  | CXPR_NODE_RECORD _ _ => cxpr_ir_emit (instr_call_ast t a)
  | CXPR_NODE_IDENTIFIER name => compile_identifier t a name
  | CXPR_NODE_VARIABLE name => cxpr_ir_emit (instr_load CXPR_OP_LOAD_PARAM name pay_none)
  | CXPR_NODE_FIELD_ACCESS base _ field full_key => compile_field t a base field full_key
  | CXPR_NODE_CHAIN_ACCESS _ full_key =>
      cxpr_ir_emit (instr_load CXPR_OP_LOAD_CHAIN full_key (pay_tree t a))
  | CXPR_NODE_PRODUCER_ACCESS name args names field _ => compile_producer t a name args names field
  | CXPR_NODE_INDEX target index => compile_index t a target index
  | CXPR_NODE_FUNCTION_CALL name args names => compile_call t a name args names
  | CXPR_NODE_BINARY_OP op x y => compile_binary t op x y
  | CXPR_NODE_UNARY_OP op x => compile_unary t op x
  | CXPR_NODE_TERNARY c x y => compile_conditional t c x y
  end.
End step.

Fixpoint cxpr_ir_compile_node (fuel : nat) (subst : list subst_frame) (inline_depth t : nat)
    (a : cxpr_expr_ast) : LW bool :=
  match fuel with
  | O => λ _, OutOfFuel
  | S fuel => compile_step (S fuel) (cxpr_ir_compile_node fuel) subst inline_depth t a
  end.
End lower.

(** ** Programs ([compile.c], [program.c]) *)

(** [None] for a program whose code is NULL; the lookup cache starts empty. *)
Record ir_program : Type := mk_ir_program {
  ip_code : option (list ir_instr);
  ip_ast : option (nat * cxpr_expr_ast);
  ip_fast_result_kind : result_kind
}.

Definition cxpr_ir_program_reset : ir_program := mk_ir_program None None CXPR_IR_RESULT_UNKNOWN.

Section programs.
Context {W : Type} `{!HostCode W} `{!HexFormat} (reg : cxpr_registry).

(** What the validators read of an entry and an instruction: the presence of
    functions and the declared type. *)
Definition entry_view (e : cxpr_func_entry) : IR.cxpr_func_entry unit :=
  IR.mk_func ((λ _ _ w, (fzero, w)) <$> fe_sync_func e) ((λ _ _ w, (VNull, w)) <$> fe_value_func e)
    (has (fe_typed_func e)) CXPR_NATIVE_KIND_NONE (fe_return_type e).

Definition fast_view (i : ir_instr) : IR.cxpr_ir_instr unit :=
  IR.mk_instr (ii_op i) (ii_name i) None (entry_view <$> ii_func i) fzero 0%Z (ii_index i).

(** A program that does not validate keeps its code and loses its fast kind. *)
Definition validated_kind (kind : result_kind) (code : list ir_instr) : run result_kind :=
  let program := IR.mk_program (Some (fast_view <$> code)) in
  match kind with
  | CXPR_IR_RESULT_BOOL =>
      let* valid := cxpr_ir_validate_bool_fast_program program in
      Done (if (valid : bool) then kind else CXPR_IR_RESULT_UNKNOWN)
  | CXPR_IR_RESULT_DOUBLE =>
      let* valid := cxpr_ir_validate_scalar_fast_program program in
      Done (if (valid : bool) then kind else CXPR_IR_RESULT_UNKNOWN)
  | CXPR_IR_RESULT_UNKNOWN => Done kind
  end.

Definition cxpr_ir_compile_with_locals (fuel : nat) (t : nat) (a : cxpr_expr_ast)
    (local_names : list string) (w : W) : run (bool * ir_program * cxpr_error * W) :=
  let kind := cxpr_ir_infer_fast_result_kind reg (S CXPR_IR_INFER_DEPTH_LIMIT) a in
  let* '(ok, s) :=
    (cxpr_ir_compile_node reg local_names fuel [] 0 t a &&! cxpr_ir_emit (instr_op CXPR_OP_RETURN))
      (mk_cst [] error_zero w) in
  if (ok : bool) then
    let* kind := validated_kind kind (cs_code s) in
    Done (true, mk_ir_program (Some (cs_code s)) (Some (t, a)) kind, cs_err s, cs_world s)
  else Done (false, cxpr_ir_program_reset, cs_err s, cs_world s).

Definition cxpr_ir_compile (fuel : nat) (t : nat) (a : cxpr_expr_ast) (w : W)
    : run (bool * ir_program * cxpr_error * W) := cxpr_ir_compile_with_locals fuel t a [] w.
End programs.
