(* ===== verification/IRTyped.v ===== *)
(** * IRTyped: the typed executor ([src/ir/exec/typed.c], [calls.c], [lookup.c])

    The executor runs the instructions of [IRCompile.v] on a stack of typed
    values, in the state of [EvalState.v].  A stack is its values, the top first;
    the arrays and elements it frees itself are copies of its own, and their release
    is not modelled.  The lookups an instruction caches are computed anew (the caches are
    coherent with the context, see [IRLookup.v]).

    [cxpr_ir_exec_typed] ends with a value, and with an error in the record when
    the value is the NaN of a failure. *)

From Stdlib Require Import Ascii String ZArith Lia.
From stdpp Require Import base list strings.
From S2P Require Import Prelude Float64 Types ValueCopy IR OpenTable Hashmap StructMap Ast References CallArgs Registry Builtins Printer TypeCheck EvalSupport Formulas ValueOps EvalState TreeEval IRCompile.
Local Open Scope run_scope.
Local Open Scope eval_scope.
Local Open Scope nat_scope.

(** ** Contexts as the executor uses them

    [ctx_scalar] is [cxpr_ir_lookup_cached_scalar] (of parameters when the flag is
    set), [ctx_prehashed] is [cxpr_ir_context_get_prehashed]. *)
Class IRContext (L : Type) : Type := {
  ctx_param_bool : list L → string → option bool;
  ctx_param_string : list L → string → option string;
  ctx_scalar : bool → list L → string → run (option float64);
  ctx_prehashed : list L → string → run (option float64)
}.

Record machine : Type := mk_machine {
  mc_ip : nat;
  mc_stack : list cxpr_value;
  mc_lookback_stack : list Z;
  mc_lookback_offset : Z;
  mc_lookback_depth : nat
}.

Definition machine_init : machine := mk_machine 0 [] [] 0 0.

(** The machine goes on, or the executor returns. *)
Definition transition : Type := machine + cxpr_value.

(** Characters up to the first dot, and behind it. *)
Fixpoint split_dot (s : string) : option (string * string) :=
  match s with
  | EmptyString => None
  | String c s =>
      if (c =? ".")%char then Some (EmptyString, s)
      else (λ '(root, rest), (String c root, rest)) <$> split_dot s
  end.

(** [strtok_r] on dots: the parts that are not empty. *)
Fixpoint dot_parts (s : string) (part : string) : list string :=
  let finish rest := match part with EmptyString => rest | _ => part :: rest end in
  match s with
  | EmptyString => finish []
  | String c s =>
      if (c =? ".")%char then finish (dot_parts s EmptyString)
      else dot_parts s (part ++ String c EmptyString)%string
  end.

(** The text before each dot with the text behind it, from the front. *)
Fixpoint dot_prefixes (s prefix : string) : list (string * string) :=
  match s with
  | EmptyString => []
  | String c s =>
      let further := dot_prefixes s (prefix ++ String c EmptyString)%string in
      if (c =? ".")%char then (prefix, s) :: further else further
  end.

(** The parts between the dots, empty ones included. *)
Fixpoint split_parts (s part : string) : list string :=
  match s with
  | EmptyString => [part]
  | String c s =>
      if (c =? ".")%char then part :: split_parts s EmptyString
      else split_parts s (part ++ String c EmptyString)%string
  end.

Definition cxpr_ir_unknown_lookup_message (kind name : string) : string :=
  str_take 511 (match name with
                | EmptyString => "Unknown " ++ kind
                | _ => "Unknown " ++ kind ++ " '" ++ name ++ "'"
                end).
Definition cxpr_ir_unknown_param_message (name : string) : string :=
  quoted "Unknown parameter variable '" name "Unknown parameter variable".
Definition cxpr_ir_unknown_identifier_message (name : string) : string :=
  quoted "Unknown identifier '" name "Unknown identifier".

Section exec.
Context {L W : Type} `{!EvalContext L} `{!IRContext L} `{!HostCode W} `{!HexFormat} `{!EvalHost L W}.
Context (reg : cxpr_registry).

(** ** Errors *)

(** [err->code = code; err->message = message; return cxpr_num(NAN);] *)
Definition ir_error (code : cxpr_error_code) (message : string) : M L W cxpr_value :=
  put_error code message ;; ret (VNum fnan).
Definition cxpr_ir_runtime_error (message : string) : M L W cxpr_value := ir_error CXPR_ERR_SYNTAX message.
Definition cxpr_ir_make_not_found (message : string) : M L W cxpr_value :=
  ir_error CXPR_ERR_UNKNOWN_IDENTIFIER message.

(** Leave the loop. *)
Definition return_ (m : M L W cxpr_value) : M L W transition := let! v := m in ret (inr v).
Definition fail (code : cxpr_error_code) (message : string) : M L W transition :=
  return_ (ir_error code message).
Definition type_fail (message : string) : M L W transition := fail CXPR_ERR_TYPE_MISMATCH message.

(** [if (err->code != CXPR_OK) return cxpr_num(NAN);] *)
Definition go_on (k : M L W transition) : M L W transition := unless_failing (inr (VNum fnan)) k.

(** ** The stack *)

Definition with_stack (stack : list cxpr_value) (m : machine) : machine :=
  mk_machine (mc_ip m) stack (mc_lookback_stack m) (mc_lookback_offset m) (mc_lookback_depth m).
Definition at_ip (ip : nat) (m : machine) : machine :=
  mk_machine ip (mc_stack m) (mc_lookback_stack m) (mc_lookback_offset m) (mc_lookback_depth m).

(** [CXPR_TYPED_PUSH], and the next instruction. *)
Definition cxpr_ir_stack_push (v : cxpr_value) (m : machine) : M L W transition :=
  if CXPR_IR_STACK_CAPACITY <=? length (mc_stack m) then fail CXPR_ERR_SYNTAX "IR stack overflow"
  else ret (inl (at_ip (S (mc_ip m)) (with_stack (v :: mc_stack m) m))).

Definition cxpr_ir_push_squared (v : cxpr_value) (m : machine) : M L W transition :=
  match v with
  | VNum d => cxpr_ir_stack_push (VNum (fmul d d)) m
  | _ => type_fail "Square operation requires double operand"
  end.

Definition underflow : M L W transition := fail CXPR_ERR_SYNTAX "IR stack underflow".

Definition cxpr_ir_pop1 (m : machine) (k : cxpr_value → machine → M L W transition) : M L W transition :=
  match mc_stack m with
  | v :: stack => k v (with_stack stack m)
  | [] => underflow
  end.

(** The left operand is below the right one. *)
Definition cxpr_ir_pop2 (m : machine) (k : cxpr_value → cxpr_value → machine → M L W transition)
    : M L W transition :=
  match mc_stack m with
  | b :: a :: stack => k a b (with_stack stack m)
  | _ => underflow
  end.

(** The topmost [count] values, the lowest first. *)
Definition pop_many (count : nat) (m : machine) (k : list cxpr_value → machine → M L W transition)
    : M L W transition :=
  if length (mc_stack m) <? count then underflow
  else k (rev (take count (mc_stack m))) (with_stack (drop count (mc_stack m)) m).

(** ** The memo table of calls ([calls.c]) *)

(** The tree of a memoable call. *)
Definition cxpr_ir_call_instr_memoable (i : ir_instr) : option (nat * cxpr_expr_ast) :=
  match ii_func i, ii_payload i with
  | Some e, pay_tree t a =>
      match ast_node a with
      | CXPR_NODE_FUNCTION_CALL _ _ _ =>
          if negb (has (fe_handler e)) && negb (has (fe_ast_func e)) &&
             negb (has (fe_struct_producer e) && negb (has (fe_sync_func e)) && negb (has (fe_value_func e)))
          then Some (t, a) else None
      | _ => None
      end
  | _, _ => None
  end.

Definition cxpr_ir_call_memo_get (i : ir_instr) : M L W (option cxpr_value) :=
  match cxpr_ir_call_instr_memoable i with
  | Some (_, a) =>
      let! m := memo in
      λ s, lift (cxpr_eval_memo_get (live s) m a (cxpr_eval_ast_hash a)) s
  | None => ret None
  end.

Definition cxpr_ir_call_memo_set (i : ir_instr) (v : cxpr_value) : M L W unit :=
  match cxpr_ir_call_instr_memoable i with
  | Some (t, a) => let! m := memo in set_memo (cxpr_eval_memo_set m a t (cxpr_eval_ast_hash a) v)
  | None => ret tt
  end.

(** A call whose arguments are popped: from the memo, or [call] and remembered. *)
Definition memoised_call (i : ir_instr) (m : machine) (call : M L W cxpr_value) : M L W transition :=
  let! cached := cxpr_ir_call_memo_get i in
  match cached with
  | Some v => cxpr_ir_stack_push v m
  | None =>
      let! v := call in
      go_on (cxpr_ir_call_memo_set i v ;; cxpr_ir_stack_push v m)
  end.

(** ** Evaluating trees ([api.c])

    [cxpr_eval_ast]: [None] is [false]. *)
Definition cxpr_eval_ast (fuel : nat) (a : cxpr_expr_ast) : M L W (option res) :=
  set_err error_zero ;;
  let! checked := lift (cxpr_typecheck (Some a) reg) in
  match checked with
  | inr err => set_err err ;; ret None
  | inl _ =>
      let! v := cxpr_eval_ast_value fuel reg a in
      unless_failing None (ret (Some v))
  end.

(** ** Producers ([calls.c]) *)

(** The arguments as numbers. *)
Fixpoint number_args (args : list cxpr_value) : option (list float64) :=
  match args with
  | [] => Some []
  | VNum d :: args => cons d <$> number_args args
  | _ => None
  end.

(** The checks of an entry, before its producer. *)
Definition checked_producer (e : cxpr_func_entry) (argc : nat) (k : Z → M L W cxpr_value) : M L W cxpr_value :=
  match fe_struct_producer e with
  | None => cxpr_ir_runtime_error "Invalid producer opcode"
  | Some producer =>
      if (argc <? fe_min_args e) || (fe_max_args e <? argc)
      then ir_error CXPR_ERR_WRONG_ARITY "Wrong number of arguments"
      else if (CXPR_MAX_CALL_ARGS <? argc) || (CXPR_MAX_PRODUCER_FIELDS <? length (fe_struct_fields e))
      then cxpr_ir_runtime_error "Producer arity too large"
      else k producer
  end.

Definition cached_struct (key : string) : M L W (option cxpr_struct_value) :=
  let! ctx := get_ctx in lift (ctx_get_cached_struct ctx key).

(** The struct under the key, produced when it is not there yet. *)
Definition struct_under (e : cxpr_func_entry) (producer : Z) (key : string) (args : list float64)
    : M L W cxpr_struct_value :=
  let! existing := cached_struct key in
  match existing with
  | Some s => ret s
  | None =>
      let! s := produce e producer args in
      on_head (λ c, ctx_set_cached_struct c key s) ;;
      let! existing := cached_struct key in
      match existing with Some s => ret s | None => undef end
  end.

Definition cxpr_ir_call_producer_cached (e : cxpr_func_entry) (name : string) (cache_key : option string)
    (args : list cxpr_value) : M L W cxpr_value :=
  checked_producer e (length args) (λ producer,
    let! existing := match cache_key with Some key => cached_struct key | None => ret None end in
    match existing with
    | Some s => ret (VStruct s)
    | None =>
        match number_args args with
        | None => ir_error CXPR_ERR_TYPE_MISMATCH "Producer arguments must be doubles"
        | Some values =>
            match (match cache_key with Some key => Some key
                    | None => cxpr_build_struct_cache_key name values end) with
            | None => ir_error CXPR_ERR_OUT_OF_MEMORY "Out of memory"
            | Some key => let! s := struct_under e producer key values in ret (VStruct s)
            end
        end
    end).

(** The field of a produced struct. *)
Definition producer_field (s : cxpr_struct_value) (field : string) : M L W cxpr_value :=
  match cxpr_struct_get_field s field with
  | Some v => ret v
  | None => cxpr_ir_make_not_found "Unknown field access"
  end.

Definition cxpr_ir_call_producer_field_cached (e : cxpr_func_entry) (name : string)
    (cache_key : option string) (args : list cxpr_value) (field : string) : M L W cxpr_value :=
  let! produced := cxpr_ir_call_producer_cached e name cache_key args in
  unless_failing (VNum fnan)
    match produced with
    | VStruct s => producer_field s field
    | _ => cxpr_ir_runtime_error "Field access requires struct operand"
    end.

Definition cxpr_ir_call_producer_const_field (e : cxpr_func_entry) (cache_key : string)
    (args : list float64) (argc : nat) (field : string) : M L W cxpr_value :=
  checked_producer e argc (λ producer,
    let! s := struct_under e producer cache_key args in producer_field s field).

(** ** Defined functions ([calls.c]) *)

(** The flat fields of a struct parameter, copied from the variables of the
    argument's name. *)
Fixpoint copy_flat_fields (root param : string) (fields : list string) (tmp : L) : M L W (option L) :=
  match fields with
  | [] => ret (Some tmp)
  | field :: fields =>
      let! dotted := on_ctx (λ ctx, ctx_get ctx (key256 root "." field)) in
      let! value := match dotted with
                    | Some d => ret (Some d)
                    | None => on_ctx (λ ctx, ctx_get ctx (key256 root "_" field))
                    end in
      match value with
      | None => put_error CXPR_ERR_UNKNOWN_IDENTIFIER "Unknown struct field" ;; ret None
      | Some d =>
          let! tmp := lift (ctx_set tmp (key256 param "." field) d) in
          copy_flat_fields root param fields tmp
      end
  end.

(** The parameters in the overlay. *)
Fixpoint bind_values (e : cxpr_func_entry) (i : nat) (arg_trees : list cxpr_expr_ast)
    (bindings : list (string * cxpr_value)) (tmp : L) : M L W (option L) :=
  match bindings with
  | [] => ret (Some tmp)
  | (param, v) :: bindings =>
      let plain := let! tmp := lift (set_param_value tmp param v) in
                   bind_values e (S i) arg_trees bindings tmp in
      match has_fields e i, v, ast_node <$> arg_trees !! i with
      | true, VStruct _, _ => plain
      | true, _, Some (CXPR_NODE_IDENTIFIER root) =>
          let! tmp := copy_flat_fields root param (param_fields e i) tmp in
          match tmp with
          | Some tmp => bind_values e (S i) arg_trees bindings tmp
          | None => ret None
          end
      | _, _, _ => plain
      end
  end.

(** The bodies of a record function, evaluated in the innermost context; a failure
    releases the fields before it. *)
Fixpoint eval_field_bodies (fuel : nat) (bodies : list (string * cxpr_expr_ast)) (done : list res)
    : M L W (option (list res)) :=
  match bodies with
  | [] => ret (Some done)
  | (_, body) :: bodies =>
      let! v := cxpr_eval_ast fuel body in
      match v with
      | None => free_all done ;; ret None
      | Some v => eval_field_bodies fuel bodies (done ++ [v])
      end
  end.

(** [call] is the node the instruction was compiled from.  The last part of the
    source's function runs only for a body without a call node, which the compiler
    does not emit. *)
Definition cxpr_ir_call_defined_scalar (fuel : nat) (e : cxpr_func_entry) (t : nat) (call : cxpr_expr_ast)
    (args : list cxpr_value) : M L W cxpr_value :=
  if negb (has (fe_defined_body e)) && negb (has_items (fe_defined_return e))
  then cxpr_ir_runtime_error "NULL IR defined function entry"
  else if negb (length args =? length (fe_defined_param_names e))
  then ir_error CXPR_ERR_WRONG_ARITY "Wrong number of arguments"
  else
    match fe_defined_return e, ast_node call with
    | [], CXPR_NODE_FUNCTION_CALL _ arg_trees names =>
        let! v := cxpr_eval_defined_function (cxpr_eval_node fuel reg) e t arg_trees names in
        ret (fst v)
    | [], _ => undef
    | bodies, node =>
        let arg_trees := match node with CXPR_NODE_FUNCTION_CALL _ trees _ => trees | _ => [] end in
        let! ctx := get_ctx in
        let! tmp := lift (ctx_overlay_new ctx) in
        let! tmp := bind_values e 0 arg_trees (zip (fe_defined_param_names e) args) tmp in
        match tmp with
        | None => ret (VNum fnan)
        | Some tmp =>
            push tmp ;;
            let! fields := eval_field_bodies fuel bodies [] in
            match fields with
            | Some vs =>
                free_all vs ;; pop ;;
                ret (VStruct (zip (fst <$> bodies) (fst <$> vs)))
            | None => pop ;; ret (VNum fnan)
            end
        end
    end.

(** ** Loads ([lookup.c]) *)

Definition cxpr_ir_call_producer (e : cxpr_func_entry) (name : string) (args : list cxpr_value)
    : M L W cxpr_value := cxpr_ir_call_producer_cached e name None args.
Definition cxpr_ir_call_producer_field (e : cxpr_func_entry) (name : string) (args : list cxpr_value)
    (field : string) : M L W cxpr_value := cxpr_ir_call_producer_field_cached e name None args field.

(** [found] or go on. *)
Definition or_else {A} (m : M L W (option A)) (k : M L W A) : M L W A :=
  let! v := m in match v with Some v => ret v | None => k end.

(** The struct of a producer without parameters. *)
Definition field_of_producer (root field : string) (k : M L W cxpr_value) : M L W cxpr_value :=
  match registry_lookup reg root with
  | Some e =>
      if has (fe_struct_producer e) && (fe_min_args e =? 0) && (fe_max_args e =? 0) then
        let! produced := cxpr_ir_call_producer e root [] in
        unless_failing (VNum fnan)
          (or_else match produced with
                   | VStruct s => ret (cxpr_struct_get_field s field)
                   | _ => on_ctx (λ ctx, ctx_get_field ctx root field)
                   end k)
      else k
  | None => k
  end.

Definition prehashed (name : string) : M L W (option cxpr_value) :=
  let! ctx := get_ctx in
  let! d := lift (ctx_prehashed ctx name) in ret (VNum <$> d).

Definition cxpr_ir_load_field_value (name : string) : M L W cxpr_value :=
  match split_dot name with
  | None => cxpr_ir_runtime_error "Malformed field access"
  | Some (root, field) =>
      if (strlen root =? 0) || (128 <=? strlen root)
      then cxpr_ir_runtime_error "Field access root too long"
      else
        or_else (scope_lookup name) (
        let! scoped := scope_lookup root in
        match scoped with
        | Some (VStruct _) | None =>
            or_else (on_ctx (λ ctx, ctx_get_field ctx root field)) (
            field_of_producer root field (
            or_else (prehashed name)
              (cxpr_ir_make_not_found (cxpr_ir_unknown_lookup_message "field access" name))))
        | Some _ => cxpr_ir_make_not_found "Expression-scope chain has no struct prefix"
        end)
  end.

Definition cxpr_ir_load_named_field_value (name aux_name : string) : M L W cxpr_value :=
  or_else (on_ctx (λ ctx, ctx_get_field ctx name aux_name)) (
  let flat_key := (name ++ String "." aux_name)%string in
  if 256 <=? strlen flat_key then cxpr_ir_runtime_error "Field access root too long"
  else
    or_else (prehashed flat_key)
      (cxpr_ir_make_not_found (cxpr_ir_unknown_lookup_message "field access" name))).

(** The fields along [path]; [unknown] names the segments left in a message. *)
Fixpoint walk_chain (unknown : list string → string) (current : cxpr_struct_value) (path : list string)
    : M L W cxpr_value :=
  match path with
  | [] => cxpr_ir_runtime_error "Malformed chain access"
  | segment :: rest =>
      match cxpr_struct_get_field current segment, rest with
      | None, _ =>
          cxpr_ir_make_not_found (cxpr_ir_unknown_lookup_message "identifier" (unknown path))
      | Some v, [] => ret v
      | Some (VStruct next), _ => walk_chain unknown next rest
      | Some _, _ => ir_error CXPR_ERR_TYPE_MISMATCH "Chained access requires struct intermediate"
      end
  end.

(** The last prefix whose result is a struct, and whether a prefix has a result. *)
Fixpoint last_prefix (prefixes : list (string * string)) (best : option (cxpr_struct_value * string))
    (found : bool) : M L W (option (cxpr_struct_value * string) * bool) :=
  match prefixes with
  | [] => ret (best, found)
  | (prefix, rest) :: prefixes =>
      let! scoped := scope_lookup prefix in
      match scoped with
      | Some (VStruct s) =>
          last_prefix prefixes (match prefix with EmptyString => best | _ => Some (s, rest) end) true
      | Some _ => last_prefix prefixes best true
      | None => last_prefix prefixes best found
      end
  end.

Definition chain_in_context (name : string) : M L W cxpr_value :=
  match dot_parts name EmptyString with
  | [] => cxpr_ir_runtime_error "Malformed chain access"
  | root :: path =>
      let! ctx := get_ctx in
      let! s := lift (ctx_get_struct ctx root) in
      let! s := match s with
                | Some s => ret (Some s)
                | None =>
                    let! v := on_ctx (λ ctx, ctx_get_typed ctx root) in
                    ret (match v with Some (VStruct s, _) => Some s | _ => None end)
                end in
      match s with
      | Some current => walk_chain (hd EmptyString) current path
      | None => cxpr_ir_make_not_found (cxpr_ir_unknown_lookup_message "identifier" root)
      end
  end.

(** The text behind the prefix is split at every dot; no text is no path. *)
Definition cxpr_ir_load_chain_value (name : string) : M L W cxpr_value :=
  let! scoped := has_scope in
  if scoped then
    let! '(best, found) := last_prefix (dot_prefixes name EmptyString) None false in
    match best with
    | Some (s, rest) =>
        walk_chain (String.concat ".") s
          (match rest with EmptyString => [] | _ => split_parts rest EmptyString end)
    | None =>
        if found then cxpr_ir_make_not_found "Expression-scope chain has no struct prefix"
        else chain_in_context name
    end
  else chain_in_context name.

Definition cached_scalar (param : bool) (name : string) : M L W (option cxpr_value) :=
  let! ctx := get_ctx in
  let! d := lift (ctx_scalar param ctx name) in ret (VNum <$> d).

Definition cxpr_ir_load_variable_typed (name : string) : M L W (option cxpr_value) :=
  let! scoped := scope_lookup name in
  match scoped with
  | Some v => ret (Some v)
  | None =>
      let! typed := on_ctx (λ ctx, ctx_get_typed ctx name) in
      match typed with
      | Some (v, _) => ret (Some v)
      | None => cached_scalar false name
      end
  end.

(** ** Lookback ([typed.c]) *)

Definition offset_index (offset : Z) : cxpr_expr_ast := new_node (CXPR_NODE_NUMBER (of_Z offset)).

(** The registry's resolver. *)
Definition lookback (resolver : cxpr_lookback_resolver_ptr) (target : cxpr_expr_ast) (offset : Z)
    : M L W (option cxpr_value) :=
  let! v := host_lookback resolver target (offset_index offset) (reg_lookback_userdata reg) in
  ret (fst <$> v).

(** A capability, of an offset that fits in [int64_t]; otherwise [k]. *)
Definition capability_or_resolver (target : cxpr_expr_ast) (offset : Z) : M L W (option cxpr_value) :=
  let by_resolver :=
    match reg_lookback reg with
    | Some resolver => lookback resolver target offset
    | None => ret None
    end in
  if (offset <=? INT64_MAX)%Z then
    let! v := cxpr_registry_resolve_index_capability reg target offset in
    match v with
    | Some v => ret (Some (fst v))
    | None => unless_failing None by_resolver
    end
  else by_resolver.

(** [None] is [false]. *)
Definition cxpr_ir_resolve_lookback_target (target : cxpr_expr_ast) (offset : Z)
    : M L W (option cxpr_value) :=
  match ast_node target with
  | CXPR_NODE_IDENTIFIER name =>
      let! bound := on_ctx (λ ctx, ctx_get_typed ctx name) in
      match bound with
      | Some (VArray array, own) =>
          value_free (VArray array, own) ;;
          match (if (offset <? Z.of_nat (length array))%Z then array !! Z.to_nat offset else None) with
          | Some v => ret (Some v)
          | None => put_error CXPR_ERR_INVALID_INDEX "Array index out of range" ;; ret None
          end
      | Some v => value_free v ;; capability_or_resolver target offset
      | None => capability_or_resolver target offset
      end
  | _ =>
      match reg_lookback reg with
      | Some resolver =>
          let! v := lookback resolver target offset in
          unless_failing None
            match v with
            | Some v => ret (Some v)
            | None => capability_or_resolver target offset
            end
      | None => capability_or_resolver target offset
      end
  end.

(** The target of a load without a tree, made from its names. *)
Definition load_target (i : ir_instr) : option cxpr_expr_ast :=
  let name := opt_text (ii_name i) in
  match ii_op i with
  | CXPR_OP_LOAD_VAR | CXPR_OP_LOAD_VAR_SQUARE => Some (new_node (CXPR_NODE_IDENTIFIER name))
  | CXPR_OP_LOAD_FIELD | CXPR_OP_LOAD_FIELD_SQUARE =>
      if 256 <=? strlen name then None
      else
        match split_dot name with
        | Some (EmptyString, _) | Some (_, EmptyString) | None => None
        | Some (root, field) =>
            Some (new_node (CXPR_NODE_FIELD_ACCESS None (Some root) field (Some name)))
        end
  | CXPR_OP_LOAD_NAMED_FIELD =>
      Some (new_node (CXPR_NODE_FIELD_ACCESS None (Some name) (opt_text (ii_aux_name i)) None))
  | CXPR_OP_LOAD_CHAIN =>
      let segments := dot_parts name EmptyString in
      if (512 <=? strlen name) || (32 <? length segments) || (length segments <? 2) then None
      else Some (new_node (CXPR_NODE_CHAIN_ACCESS segments name))
  | _ => None
  end.

Definition cxpr_ir_resolve_lookback_instr (i : ir_instr) (offset : Z) : M L W (option cxpr_value) :=
  match ii_payload i with
  | pay_tree _ target => cxpr_ir_resolve_lookback_target target offset
  | pay_none =>
      match load_target i with
      | Some target => cxpr_ir_resolve_lookback_target target offset
      | None => ret None
      end
  | pay_args _ => undef
  end.

(** ** Operators *)

(** [None] when the executor returns with the error. *)
Definition refuse (code : cxpr_error_code) (message : string) : M L W (option cxpr_value) :=
  put_error code message ;; ret None.

(** The outcome of [cxpr_value_binary_op] on operands that are not both numbers. *)
Definition other_operands (r : valop_result) (message : string) : M L W (option cxpr_value) :=
  match r with
  | Handled v => ret (Some v)
  | ValError code message => refuse code message
  | NotHandled => refuse CXPR_ERR_TYPE_MISMATCH message
  end.

Definition arithmetic_vop (op : cxpr_opcode) : option cxpr_valop :=
  match op with
  | CXPR_OP_ADD => Some CXPR_VALOP_ADD | CXPR_OP_SUB => Some CXPR_VALOP_SUB
  | CXPR_OP_MUL => Some CXPR_VALOP_MUL | CXPR_OP_DIV => Some CXPR_VALOP_DIV
  | _ => None
  end.

Definition arithmetic_instr (op : cxpr_opcode) (a b : cxpr_value) : M L W (option cxpr_value) :=
  let message := "Arithmetic requires double operands"%string in
  match a, b with
  | VNum x, VNum y =>
      match op with
      | CXPR_OP_ADD => ret (Some (VNum (fadd x y)))
      | CXPR_OP_SUB => ret (Some (VNum (fsub x y)))
      | CXPR_OP_MUL => ret (Some (VNum (fmul x y)))
      | CXPR_OP_DIV =>
          if feqb y fzero then refuse CXPR_ERR_DIVISION_BY_ZERO "Division by zero"
          else ret (Some (VNum (fdiv x y)))
      | CXPR_OP_MOD =>
          if feqb y fzero then refuse CXPR_ERR_DIVISION_BY_ZERO "Modulo by zero"
          else ret (Some (VNum (fmod x y)))
      | _ => ret (Some (VNum (fpow x y)))
      end
  | _, _ =>
      match arithmetic_vop op with
      | Some vop => let! r := lift (cxpr_value_binary_op vop a b) in other_operands r message
      | None => refuse CXPR_ERR_TYPE_MISMATCH message
      end
  end.

Definition equality_instr (equal : bool) (a b : cxpr_value) : M L W (option cxpr_value) :=
  let truth (same : bool) := ret (Some (VBool (if equal then same else negb same))) in
  match a, b with
  | VNum x, VNum y => truth (feqb x y)
  | VBool x, VBool y => truth (Bool.eqb x y)
  | VString x, VString y => truth (String.eqb x y)
  | VNull, VNull => truth true
  | VTimestamp x, VTimestamp y | VDuration x, VDuration y | VInt64 x, VInt64 y => truth (x =? y)%Z
  | _, _ => refuse CXPR_ERR_TYPE_MISMATCH "Equality requires matching scalar operands"
  end.

Definition comparison_vop (op : cxpr_opcode) : cxpr_valop :=
  match op with
  | CXPR_OP_CMP_LT => CXPR_VALOP_LT | CXPR_OP_CMP_LTE => CXPR_VALOP_LTE
  | CXPR_OP_CMP_GT => CXPR_VALOP_GT | _ => CXPR_VALOP_GTE
  end.

Definition comparison_instr (op : cxpr_opcode) (a b : cxpr_value) : M L W (option cxpr_value) :=
  match a, b with
  | VNum x, VNum y =>
      ret (Some (VBool (match op with
                        | CXPR_OP_CMP_LT => fltb x y | CXPR_OP_CMP_LTE => fleb x y
                        | CXPR_OP_CMP_GT => fgtb x y | _ => fgeb x y
                        end)))
  | _, _ =>
      let! r := lift (cxpr_value_binary_op (comparison_vop op) a b) in
      other_operands r "Comparison requires double operands"
  end.

(** The instructions on two operands. *)
Definition binary_instr (op : cxpr_opcode) : option (cxpr_value → cxpr_value → M L W (option cxpr_value)) :=
  match op with
  | CXPR_OP_ADD | CXPR_OP_SUB | CXPR_OP_MUL | CXPR_OP_DIV | CXPR_OP_MOD | CXPR_OP_POW =>
      Some (arithmetic_instr op)
  | CXPR_OP_CMP_EQ => Some (equality_instr true)
  | CXPR_OP_CMP_NEQ => Some (equality_instr false)
  | CXPR_OP_CMP_LT | CXPR_OP_CMP_LTE | CXPR_OP_CMP_GT | CXPR_OP_CMP_GTE => Some (comparison_instr op)
  | _ => None
  end.

(** The intrinsics on one number. *)
Definition numeric_intrinsic (op : cxpr_opcode) : option (float64 → float64) :=
  match op with
  | CXPR_OP_NEG => Some fneg
  | CXPR_OP_SIGN => Some (λ x, of_Z (Z.b2z (fgtb x fzero) - Z.b2z (fltb x fzero)))
  | CXPR_OP_SQRT => Some fsqrt
  | CXPR_OP_ABS => Some fabs
  | CXPR_OP_FLOOR => Some ffloor
  | CXPR_OP_CEIL => Some fceil
  | CXPR_OP_ROUND => Some fround
  | _ => None
  end.

(** ** Instructions *)

Section run.
Context (fuel : nat) (code : list ir_instr) (locals : list float64).

Definition next (m : machine) : machine := at_ip (S (mc_ip m)) m.

(** Push what the instruction computed, or return with its error. *)
Definition push_result (v : option cxpr_value) (m : machine) : M L W transition :=
  match v with
  | Some v => cxpr_ir_stack_push v m
  | None => ret (inr (VNum fnan))
  end.

(** Push a value unless there is an error. *)
Definition push_checked (load : M L W cxpr_value) (m : machine) : M L W transition :=
  let! v := load in go_on (cxpr_ir_stack_push v m).
Definition push_checked_squared (load : M L W cxpr_value) (m : machine) : M L W transition :=
  let! v := load in go_on (cxpr_ir_push_squared v m).

(** A load at the lookback offset. *)
Definition resolved (v : M L W (option cxpr_value)) (k : cxpr_value → M L W transition) : M L W transition :=
  let! v := v in
  match v with
  | Some v => k v
  | None => go_on (fail CXPR_ERR_SYNTAX "Lookback resolver failed")
  end.

(** A load by the loader, or through lookback inside of an index. *)
Definition load_or_resolve (i : ir_instr) (m : machine) (load : M L W cxpr_value)
    (push_ : cxpr_value → machine → M L W transition) : M L W transition :=
  if 0 <? mc_lookback_depth m
  then resolved (cxpr_ir_resolve_lookback_instr i (mc_lookback_offset m)) (λ v, go_on (push_ v m))
  else let! v := load in go_on (push_ v m).

(** Variables: the error record is not looked at. *)
Definition step_load_var (i : ir_instr) (m : machine)
    (push_ : cxpr_value → machine → M L W transition) : M L W transition :=
  let name := opt_text (ii_name i) in
  if 0 <? mc_lookback_depth m
  then resolved (cxpr_ir_resolve_lookback_instr i (mc_lookback_offset m)) (λ v, push_ v m)
  else
    let! v := cxpr_ir_load_variable_typed name in
    match v with
    | Some v => push_ v m
    | None => return_ (cxpr_ir_make_not_found (cxpr_ir_unknown_identifier_message name))
    end.

Definition step_load_param (i : ir_instr) (m : machine) : M L W transition :=
  let name := opt_text (ii_name i) in
  let! ctx := get_ctx in
  match ctx_param_bool ctx name with
  | Some b => cxpr_ir_stack_push (VBool b) m
  | None =>
      match ctx_param_string ctx name with
      | Some s => cxpr_ir_stack_push (VString s) m
      | None =>
          let! v := cached_scalar true name in
          match v with
          | Some v => cxpr_ir_stack_push v m
          | None => return_ (cxpr_ir_make_not_found (cxpr_ir_unknown_param_message name))
          end
      end
  end.

Definition step_load_param_square (i : ir_instr) (m : machine) : M L W transition :=
  let name := opt_text (ii_name i) in
  let! v := cached_scalar true name in
  match v with
  | Some v => cxpr_ir_push_squared v m
  | None => return_ (cxpr_ir_make_not_found (cxpr_ir_unknown_param_message name))
  end.

Definition step_load_local (i : ir_instr) (m : machine)
    (push_ : cxpr_value → machine → M L W transition) : M L W transition :=
  match locals !! ii_index i with
  | Some d => push_ (VNum d) m
  | None => fail CXPR_ERR_SYNTAX "Unknown local variable"
  end.

Definition step_index (m : machine) : M L W transition :=
  cxpr_ir_pop2 m (λ a b m,
    match a with
    | VArray elements =>
        match index_value b (of_Z SIZE_MAX) with
        | None => fail CXPR_ERR_INVALID_INDEX "Array index must be a finite non-negative integer"
        | Some d =>
            let! index := convert_index d SIZE_MAX in
            match (if (index <? Z.of_nat (length elements))%Z then elements !! Z.to_nat index else None) with
            | None => fail CXPR_ERR_INDEX_OUT_OF_RANGE "Array index is out of range"
            | Some v => cxpr_ir_stack_push v m
            end
        end
    | _ => type_fail "Index target is not an array"
    end).

Definition step_not (m : machine) : M L W transition :=
  cxpr_ir_pop1 m (λ a m,
    match a with
    | VBool b => cxpr_ir_stack_push (VBool (negb b)) m
    | _ => type_fail "Logical not requires bool operand"
    end).

Definition step_numeric (op : cxpr_opcode) (f : float64 → float64) (m : machine) : M L W transition :=
  cxpr_ir_pop1 m (λ a m,
    match a, op with
    | VNum d, _ => cxpr_ir_stack_push (VNum (f d)) m
    | VInt64 i, CXPR_OP_NEG =>
        if (i =? INT64_MIN)%Z then fail CXPR_ERR_SYNTAX "int64 negation overflow"
        else cxpr_ir_stack_push (VInt64 (- i)) m
    | _, _ => type_fail "Numeric intrinsic requires double operand"
    end).

Definition step_clamp (m : machine) : M L W transition :=
  cxpr_ir_pop2 m (λ lo hi m, cxpr_ir_pop1 m (λ a m,
    match a, lo, hi with
    | VNum a, VNum lo, VNum hi =>
        let a := if fltb a lo then lo else a in
        cxpr_ir_stack_push (VNum (if fgtb a hi then hi else a)) m
    | _, _, _ => type_fail "clamp() requires double operands"
    end)).

(** A native function on the topmost numbers. *)
Definition step_native (i : ir_instr) (count : nat) (m : machine) : M L W transition :=
  pop_many count m (λ args m,
    match number_args args with
    | None => type_fail "Function arguments must be doubles"
    | Some ds =>
        let! cached := cxpr_ir_call_memo_get i in
        match cached with
        | Some v => cxpr_ir_stack_push v m
        | None =>
            match ii_func i ≫= fe_native with
            | Some (kind, fn) =>
                if native_arity kind =? count then
                  let! d := on_world (call_scalar fn ds) in
                  cxpr_ir_call_memo_set i (VNum d) ;;
                  cxpr_ir_stack_push (VNum d) m
                else undef
            | None => undef
            end
        end
    end).

(** [instr->func]; the compiler sets it for every call. *)
Definition with_func (i : ir_instr) (k : cxpr_func_entry → M L W transition) : M L W transition :=
  match ii_func i with Some e => k e | None => undef end.

Definition call_registry (name : string) (args : list cxpr_value) : M L W cxpr_value :=
  let! '(v, err) := on_world (λ w,
    let* '(v, err, w) := cxpr_registry_call_typed reg name args w in Done ((v, err), w)) in
  set_err err ;; ret v.

Definition step_call_func (i : ir_instr) (m : machine) : M L W transition :=
  if (length (mc_stack m) <? ii_index i) then underflow
  else if CXPR_MAX_CALL_ARGS <? ii_index i
  then fail CXPR_ERR_SYNTAX "Too many function arguments"
  else with_func i (λ e, pop_many (ii_index i) m (λ args m,
         memoised_call i m (call_registry (fe_name e) args))).

Definition step_call_defined (i : ir_instr) (m : machine) : M L W transition :=
  with_func i (λ e, pop_many (ii_index i) m (λ args m,
    memoised_call i m
      match ii_payload i with
      | pay_tree t a => cxpr_ir_call_defined_scalar fuel e t a args
      | _ => undef
      end)).

(** The field name of a following [CXPR_OP_GET_FIELD], which is done at once. *)
Definition fused_field (m : machine) : option string :=
  match code !! S (mc_ip m) with
  | Some i => match ii_op i with CXPR_OP_GET_FIELD => Some (opt_text (ii_name i)) | _ => None end
  | None => None
  end.

Definition step_producer (i : ir_instr) (m : machine) (name : cxpr_func_entry → string)
    (cache_key : option string) : M L W transition :=
  with_func i (λ e, pop_many (ii_index i) m (λ args m,
    match fused_field m with
    | Some field =>
        push_checked (cxpr_ir_call_producer_field_cached e (name e) cache_key args field)
          (at_ip (S (mc_ip m)) m)
    | None => push_checked (cxpr_ir_call_producer_cached e (name e) cache_key args) m
    end)).

Definition step_producer_const_field (i : ir_instr) (m : machine) : M L W transition :=
  with_func i (λ e,
    match ii_payload i with
    | pay_args values =>
        push_checked (cxpr_ir_call_producer_const_field e (opt_text (ii_name i)) values (ii_index i)
                        (opt_text (ii_aux_name i))) m
    | _ => undef
    end).

Definition step_get_field (i : ir_instr) (m : machine) : M L W transition :=
  cxpr_ir_pop1 m (λ a m,
    match a with
    | VStruct s =>
        match cxpr_struct_get_field s (opt_text (ii_name i)) with
        | Some v => cxpr_ir_stack_push v m
        | None => return_ (cxpr_ir_make_not_found "Unknown field access")
        end
    | _ => type_fail "Field access requires struct operand"
    end).

Definition step_call_ast (i : ir_instr) (m : machine) : M L W transition :=
  match ii_operand i with
  | op_ast _ a =>
      if 0 <? mc_lookback_depth m
      then resolved (cxpr_ir_resolve_lookback_target a (mc_lookback_offset m))
             (λ v, go_on (cxpr_ir_stack_push v m))
      else
        let! v := cxpr_eval_ast fuel a in
        go_on match v with Some v => cxpr_ir_stack_push (fst v) m | None => undef end
  | _ => undef
  end.

Definition step_jump_if (b : bool) (i : ir_instr) (m : machine) : M L W transition :=
  cxpr_ir_pop1 m (λ a m,
    match a with
    | VBool c => ret (inl (if Bool.eqb c b then at_ip (ii_index i) m else next m))
    | _ => type_fail "Conditional jump requires bool operand"
    end).

(** *** Lookback instructions *)

(** The outer offset is saved before the sum is checked. *)
Definition step_lookback_push (i : ir_instr) (m : machine) : M L W transition :=
  let n := Z.of_nat (ii_index i) in
  if CXPR_IR_STACK_CAPACITY <=? length (mc_lookback_stack m)
  then fail CXPR_ERR_SYNTAX "Lookback offset stack overflow"
  else if (SIZE_MAX - mc_lookback_offset m <? n)%Z then fail CXPR_ERR_SYNTAX "Lookback offset overflow"
  else ret (inl (mk_machine (S (mc_ip m)) (mc_stack m) (mc_lookback_offset m :: mc_lookback_stack m)
                   (mc_lookback_offset m + n)%Z (S (mc_lookback_depth m)))).

Definition step_lookback_pop (m : machine) : M L W transition :=
  match mc_lookback_stack m, mc_lookback_depth m with
  | [], _ => fail CXPR_ERR_SYNTAX "Lookback offset stack underflow"
  | _ :: _, O => fail CXPR_ERR_SYNTAX "Lookback depth underflow"
  | offset :: saved, S depth => ret (inl (mk_machine (S (mc_ip m)) (mc_stack m) saved offset depth))
  end.

(** An array bound to the name of the target. *)
Definition resolve_bound (target : cxpr_expr_ast) (offset : Z) : M L W (option cxpr_value) :=
  match ast_node target with
  | CXPR_NODE_IDENTIFIER name =>
      let! bound := on_ctx (λ ctx, ctx_get_typed ctx name) in
      match bound with
      | Some (VArray array, own) =>
          let element := if (offset <? Z.of_nat (length array))%Z then array !! Z.to_nat offset else None in
          (match element with
           | Some _ => ret tt
           | None => put_error CXPR_ERR_INVALID_INDEX "Array index out of range"
           end) ;;
          value_free (VArray array, own) ;; ret element
      | Some v => value_free v ;; ret None
      | None => ret None
      end
  | _ => ret None
  end.

(** The conversion of the offset to [int64_t] wraps. *)
Definition to_int64 (z : Z) : Z := if (INT64_MAX <? z)%Z then (z - 2 ^ 64)%Z else z.

(** The array, the resolver for a compound target, a capability, the resolver for
    a name, each when the one before did not resolve. *)
Definition resolve_compound (target : cxpr_expr_ast) (offset : Z) : M L W (option cxpr_value) :=
  let otherwise v k := match v : option cxpr_value with Some v => ret (Some v) | None => k end in
  let by_resolver :=
    match reg_lookback reg with Some r => lookback r target offset | None => ret None end in
  let! v := resolve_bound target offset in
  let! v := otherwise v (if is_identifier target then ret None else by_resolver) in
  otherwise v (
  let! bad := failing in
  let! v := if bad then ret None
            else cxpr_registry_resolve_index_capability reg target (to_int64 offset) in
  otherwise (fst <$> v) (
  let! failed := failing in
  let handled := negb bad && failed in
  if is_identifier target && negb handled then by_resolver else ret None)).

Definition step_lookback_resolve (i : ir_instr) (m : machine) : M L W transition :=
  match ii_payload i with
  | pay_tree _ target =>
      let n := Z.of_nat (ii_index i) in
      if negb (has (reg_lookback reg)) && negb (has_items (reg_capabilities reg))
      then fail CXPR_ERR_SYNTAX "Index requires registry capability or lookback resolver"
      else if (SIZE_MAX - mc_lookback_offset m <? n)%Z
      then fail CXPR_ERR_SYNTAX "Lookback offset overflow"
      else resolved (resolve_compound target (mc_lookback_offset m + n))
             (λ v, go_on (cxpr_ir_stack_push v m))
  | _ => fail CXPR_ERR_SYNTAX "Index requires registry capability or lookback resolver"
  end.

Definition step_return (m : machine) : M L W transition :=
  cxpr_ir_pop1 m (λ v m,
    match mc_stack m with
    | [] => ret (inr v)
    | _ => fail CXPR_ERR_SYNTAX "IR stack not empty at return"
    end).

(** *** The [switch] of the executor *)

Definition typed_step (i : ir_instr) (m : machine) : M L W transition :=
  let name := opt_text (ii_name i) in
  match ii_op i with
  | CXPR_OP_PUSH_CONST =>
      match ii_operand i with op_value d => cxpr_ir_stack_push (VNum d) m | _ => undef end
  | CXPR_OP_PUSH_INT64 =>
      match ii_operand i with op_int64 z => cxpr_ir_stack_push (VInt64 z) m | _ => undef end
  | CXPR_OP_PUSH_BOOL =>
      match ii_operand i with op_value d => cxpr_ir_stack_push (VBool (fneb d fzero)) m | _ => undef end
  | CXPR_OP_PUSH_STRING => cxpr_ir_stack_push (VString name) m
  | CXPR_OP_BUILD_ARRAY => pop_many (ii_index i) m (λ vs m, cxpr_ir_stack_push (VArray vs) m)
  | CXPR_OP_INDEX => step_index m
  | CXPR_OP_LOAD_LOCAL => step_load_local i m cxpr_ir_stack_push
  | CXPR_OP_LOAD_LOCAL_SQUARE => step_load_local i m cxpr_ir_push_squared
  | CXPR_OP_LOAD_VAR => step_load_var i m cxpr_ir_stack_push
  | CXPR_OP_LOAD_VAR_SQUARE => step_load_var i m cxpr_ir_push_squared
  | CXPR_OP_LOAD_PARAM => step_load_param i m
  | CXPR_OP_LOAD_PARAM_SQUARE => step_load_param_square i m
  | CXPR_OP_LOAD_FIELD => load_or_resolve i m (cxpr_ir_load_field_value name) cxpr_ir_stack_push
  | CXPR_OP_LOAD_FIELD_SQUARE => load_or_resolve i m (cxpr_ir_load_field_value name) cxpr_ir_push_squared
  | CXPR_OP_LOAD_NAMED_FIELD =>
      load_or_resolve i m (cxpr_ir_load_named_field_value name (opt_text (ii_aux_name i)))
        cxpr_ir_stack_push
  | CXPR_OP_LOAD_CHAIN => load_or_resolve i m (cxpr_ir_load_chain_value name) cxpr_ir_stack_push
  | CXPR_OP_ADD | CXPR_OP_SUB | CXPR_OP_MUL | CXPR_OP_DIV | CXPR_OP_MOD | CXPR_OP_POW
  | CXPR_OP_CMP_EQ | CXPR_OP_CMP_NEQ | CXPR_OP_CMP_LT | CXPR_OP_CMP_LTE | CXPR_OP_CMP_GT
  | CXPR_OP_CMP_GTE =>
      cxpr_ir_pop2 m (λ a b m,
        match binary_instr (ii_op i) with
        | Some operate => let! v := operate a b in push_result v m
        | None => undef
        end)
  | CXPR_OP_SQUARE => cxpr_ir_pop1 m cxpr_ir_push_squared
  | CXPR_OP_NOT => step_not m
  | CXPR_OP_NEG | CXPR_OP_SIGN | CXPR_OP_SQRT | CXPR_OP_ABS | CXPR_OP_FLOOR | CXPR_OP_CEIL
  | CXPR_OP_ROUND =>
      match numeric_intrinsic (ii_op i) with Some f => step_numeric (ii_op i) f m | None => undef end
  | CXPR_OP_CLAMP => step_clamp m
  | CXPR_OP_CALL_UNARY => step_native i 1 m
  | CXPR_OP_CALL_BINARY => step_native i 2 m
  | CXPR_OP_CALL_TERNARY => step_native i 3 m
  | CXPR_OP_CALL_FUNC => step_call_func i m
  | CXPR_OP_CALL_DEFINED => step_call_defined i m
  | CXPR_OP_CALL_PRODUCER => step_producer i m (λ _, name) None
  | CXPR_OP_CALL_PRODUCER_CONST => step_producer i m fe_name (Some name)
  | CXPR_OP_CALL_PRODUCER_CONST_FIELD => step_producer_const_field i m
  | CXPR_OP_GET_FIELD => step_get_field i m
  | CXPR_OP_CALL_AST => step_call_ast i m
  | CXPR_OP_JUMP => ret (inl (at_ip (ii_index i) m))
  | CXPR_OP_JUMP_IF_FALSE => step_jump_if false i m
  | CXPR_OP_JUMP_IF_TRUE => step_jump_if true i m
  | CXPR_OP_LOOKBACK_PUSH => step_lookback_push i m
  | CXPR_OP_LOOKBACK_POP => step_lookback_pop m
  | CXPR_OP_LOOKBACK_RESOLVE => step_lookback_resolve i m
  | CXPR_OP_STORE_LOCAL => fail CXPR_ERR_SYNTAX "STORE_LOCAL requires scalar fast execution"
  | CXPR_OP_RETURN => step_return m
  end.

(** [while (ip < program->count)], at most [steps] instructions. *)
Fixpoint typed_loop (steps : nat) (m : machine) : M L W cxpr_value :=
  match code !! mc_ip m with
  | None => cxpr_ir_runtime_error "IR program fell off end without return"
  | Some i =>
      match steps with
      | O => λ _, OutOfFuel
      | S steps =>
          let! r := typed_step i m in
          match r with
          | inl m => typed_loop steps m
          | inr v => ret v
          end
      end
  end.
End run.

Definition cxpr_ir_exec_typed (fuel steps : nat) (program : ir_program) (locals : list float64)
    : M L W cxpr_value :=
  set_err error_zero ;;
  match ip_code program with
  | None => cxpr_ir_runtime_error "Empty IR program"
  | Some code => typed_loop fuel code locals steps machine_init
  end.
End exec.
