(* ===== verification/IRCompileProofs.v ===== *)
(** * IRCompileProofs: compiled code computes the value of an expression

    On the fragment of [TreeSem.v], with the restrictions of [compiled_node], the
    compiler of [IRCompile.v] succeeds, and the typed executor of [IRTyped.v] runs
    its code to the value of the expression.  The proof is by segments: the code of
    a node, wherever it stands, pushes the value of the node and leaves the rest of
    the stack alone. *)

From Stdlib Require Import Ascii String ZArith Lia.
From stdpp Require Import base list strings.
From S2P Require Import Prelude Float64 Types ValueCopy IR OpenTable Hashmap StructMap Ast References CallArgs Registry Builtins Parser ParserProofs EvalSupport EvalSupportProofs ValueOps EvalState TreeEval TreeSem TreeEvalProofs IRCompile IRTyped.
Local Open Scope run_scope.
Local Open Scope eval_scope.
Local Open Scope lower_scope.
Local Open Scope nat_scope.

(** ** The fragment *)

Section fragment.
Context {W : Type} `{!HostCode W} (reg : cxpr_registry) (vars pars : string → option cxpr_value).

(** What the opcode of an intrinsic function computes. *)
Definition intrinsic_result (op : cxpr_opcode) (args : list cxpr_value) : option cxpr_value :=
  match op, args with
  | CXPR_OP_POW, [VNum x; VNum y] => Some (VNum (fpow x y))
  | CXPR_OP_CLAMP, [VNum x; VNum lo; VNum hi] =>
      let x := if fltb x lo then lo else x in Some (VNum (if fgtb x hi then hi else x))
  | _, [VNum x] => (λ f : float64 → float64, VNum (f x)) <$> numeric_intrinsic op
  | _, _ => None
  end.

(** A function the compiler may call, fold or replace by its opcode. *)
Record compiled_entry (e : cxpr_func_entry) : Prop := {
  ce_name : registry_lookup reg (fe_name e) = Some e;
  ce_callable : no_scalar_func e = false;
  ce_fold f ds :
    foldable e (length ds) = Some f → length ds ≤ CXPR_MAX_CALL_ARGS →
    ∃ d, (∀ w, call_sync f ds (fe_userdata e) w = Done (d, w)) ∧ applies e (VNum <$> ds) (VNum d);
  ce_call vs v : applies e vs v → ∀ w, call_entry e vs w = Done (v, error_zero, w)
}.

Definition compiled_node (a : cxpr_expr_ast) : Prop :=
  match ast_node a with
  | CXPR_NODE_UNARY_OP op _ => op = CXPR_TOK_MINUS ∨ op = CXPR_TOK_NOT
  | CXPR_NODE_BINARY_OP op x y =>
      (logical op = true ∨ is_Some (binary_opcode op)) ∧
      (op = CXPR_TOK_STAR → cxpr_ir_ast_equal x y = true →
       erase x = erase y ∧ ∀ i, ¬ evaluates reg vars pars x (VInt64 i))
  | CXPR_NODE_FUNCTION_CALL name args names =>
      cxpr_expr_ast_named_args_present names = false ∧
      ∃ e, registry_lookup reg name = Some e ∧ compiled_entry e ∧
        ∀ op vs v, intrinsic name (length args) = Some op → applies e vs v → intrinsic_result op vs = Some v
  | _ => True
  end.

Definition compilable (a : cxpr_expr_ast) : Prop := core reg a ∧ ast_all compiled_node a.

Lemma compilable_children a : compilable a → Forall compilable (children (ast_node a)).
Proof.
  intros [Hc [_ Hn]%ast_all_inv]. apply core_children in Hc.
  induction Hc; constructor; inversion Hn; [by split|auto].
Qed.

Lemma compilable_node a : compilable a → compiled_node a.
Proof. by intros [_ [? _]%ast_all_inv]. Qed.

(** Calls of the fragment bind their arguments in order. *)
Lemma bind_unnamed {A} (args : list A) names params :
  cxpr_expr_ast_named_args_present names = false → length args ≤ CXPR_MAX_CALL_ARGS →
  cxpr_call_bind_args args names params = Done (inl args).
Proof.
  intros Hn Hl. rewrite bind_args_eq. unfold bind_result. rewrite Hn. simpl.
  by rewrite (proj2 (Nat.ltb_ge _ _)) by exact Hl.
Qed.

Lemma bound_unnamed {A} (args ordered : list A) names params :
  cxpr_expr_ast_named_args_present names = false →
  cxpr_call_bind_args args names params = Done (inl ordered) → ordered = args.
Proof.
  intros Hn. rewrite bind_args_eq. unfold bind_result. rewrite Hn. simpl. case_match; [done|]. by intros [= ->].
Qed.

(** ** Constant folding *)

Abbreviation fold := (cxpr_ir_constant_typed_value reg).
Abbreviation evaluates := (evaluates reg vars pars).
Abbreviation evaluates_all := (evaluates_all reg vars pars).

(** Folding ends, does not change the host, and a constant is the value. *)
Definition folds (a : cxpr_expr_ast) (m : W → run (option cxpr_value * W)) : Prop :=
  ∀ w, ∃ o, m w = Done (o, w) ∧ ∀ v, o = Some v → evaluates a v.

Lemma constant_unary_sound op v r : constant_unary op v = Some r → unary_result op v = Some r.
Proof. by destruct op, v; simpl; try discriminate. Qed.

Lemma constant_binary_sound s op x y l r v :
  evaluates x l → evaluates y r → constant_binary op l r = Some v →
  evaluates (Ast s (CXPR_NODE_BINARY_OP op x y)) v.
Proof.
  intros Hx Hy Hc.
  destruct op; destruct l as [dx|bx| |sx| | | | |], r as [dy|by_| |sy| | | | |]; try discriminate Hc; simpl in Hc;
    try (eapply E_binary; [done|exact Hx|exact Hy|]; simpl; repeat case_match; by simplify_eq).
  - injection Hc as <-. destruct bx; [by eapply E_logical|by apply E_short].
  - injection Hc as <-. destruct bx; [by apply E_short|by eapply E_logical].
Qed.

Section fold_step.
Context (n : nat) (rec : cxpr_expr_ast → W → run (option cxpr_value * W)).
Context (array_of : cxpr_expr_ast → W → run (option cxpr_expr_ast * W)).
Hypothesis rec_folds : ∀ a, compilable a → height a < n → folds a (rec a).

Abbreviation small a := (compilable a ∧ height a < n).

Lemma rec_folds_small a : small a → folds a (rec a).
Proof. intros [? ?]. by apply rec_folds. Qed.

Lemma fold_numbers_sound args w :
  Forall (λ a, small a) args →
  ∃ o, fold_numbers rec args w = Done (o, w) ∧
    ∀ ds, o = Some ds → length ds = length args ∧ evaluates_all args (VNum <$> ds).
Proof.
  induction 1 as [|a args Ha _ IH]; simpl.
  - exists (Some []). split; [done|]. intros ds [= <-]. split; [done|constructor].
  - destruct (rec_folds_small a Ha w) as (o & -> & Ho). cbn [run_bind].
    destruct o as [[d| | | | | | | |]|]; try (by exists None).
    destruct IH as (o' & -> & Ho'). cbn [run_bind]. eexists. split; [done|].
    intros ds (ds' & -> & ->)%fmap_Some. destruct (Ho' ds' eq_refl) as [Hl Hall].
    split; [by rewrite length_cons, Hl|]. rewrite fmap_cons. constructor; [by apply Ho|done].
Qed.

Lemma fold_conditional_sound c x y w (a : cxpr_expr_ast) :
  small c → small x → small y →
  (∀ b v, evaluates c (VBool b) → evaluates (if b then x else y) v → evaluates a v) →
  ∃ o, fold_conditional rec c x y w = Done (o, w) ∧ ∀ v, o = Some v → evaluates a v.
Proof.
  intros Hc Hx Hy Ha. unfold fold_conditional.
  destruct (rec_folds_small c Hc w) as (o & -> & Ho). cbn [run_bind].
  destruct o as [[|b| | | | | | |]|]; try (by exists None).
  destruct (rec_folds_small (if b then x else y) (ltac:(by destruct b)) w) as (o' & -> & Ho').
  exists o'. split; [done|]. intros v Hv. eapply Ha; [by apply Ho|by apply Ho'].
Qed.

Lemma fold_call_sound s name args names e w :
  let a := Ast s (CXPR_NODE_FUNCTION_CALL name args names) in
  Forall (λ a, small a) args → registry_lookup reg name = Some e → compiled_entry e →
  cxpr_expr_ast_named_args_present names = false → length args ≤ CXPR_MAX_CALL_ARGS →
  conditional name args = false →
  ∃ o, fold_call reg rec name args w = Done (o, w) ∧ ∀ v, o = Some v → evaluates a v.
Proof.
  intros a Hs He Hce Hn Hl Hc. unfold fold_call. rewrite He.
  destruct (foldable e (length args)) as [f|] eqn:Ef; [|by exists None].
  destruct (fold_numbers_sound args w Hs) as (o & -> & Ho). cbn [run_bind].
  destruct o as [ds|]; [|by exists None]. destruct (Ho ds eq_refl) as [Hlen Hall].
  rewrite <- Hlen in Ef. destruct (ce_fold e Hce f ds Ef) as (d & Hd & Happ); [by rewrite Hlen|]. rewrite Hd. cbn [run_bind].
  eexists. split; [done|]. intros v Hv. case_match; [|done]. injection Hv as <-.
  eapply E_call; [done|by apply bind_unnamed|done|done|done].
Qed.

Lemma fold_call_node_sound s name args names w :
  let a := Ast s (CXPR_NODE_FUNCTION_CALL name args names) in
  compilable a → Forall (λ a, small a) args →
  ∃ o, constant_step reg rec array_of a w = Done (o, w) ∧ ∀ v, o = Some v → evaluates a v.
Proof.
  intros a Ha Hs. destruct (compilable_node a Ha) as (Hn & e & He & Hce & _).
  unfold constant_step. simpl. rewrite Hn. simpl.
  destruct (CXPR_MAX_CALL_ARGS <? length args) eqn:Hl; [by exists None|]. apply Nat.ltb_ge in Hl.
  assert (Hcall : conditional name args = false →
    ∃ o, fold_call reg rec name args w = Done (o, w) ∧ ∀ v, o = Some v → evaluates a v).
  { intros Hc. by eapply fold_call_sound. }
  unfold conditional in Hcall. destruct args as [|c [|x [|y [|]]]]; simpl in Hcall;
    rewrite ?andb_false_r, ?andb_true_r in Hcall; try (by apply Hcall).
  destruct (String.eqb name "if") eqn:Eif; [|by apply Hcall].
  apply Forall_cons in Hs as [? [? [? _]%Forall_cons]%Forall_cons].
  apply fold_conditional_sound; [done|done|done|]. intros b v Hb Hv.
  eapply E_if; [done|by apply bind_unnamed|by apply String.eqb_eq|done|done].
Qed.

Lemma constant_step_sound a :
  compilable a → height a ≤ n → folds a (constant_step reg rec array_of a).
Proof.
  intros Ha Hh w.
  assert (Hs : Forall (λ a, small a) (children (ast_node a))).
  { pose proof (compilable_children a Ha) as H1. pose proof (height_children a) as H2.
    apply Forall_and. split; [done|]. eapply Forall_impl; [exact H2|]. simpl. lia. }
  pose proof Ha as [[[Hnode _]%ast_all_inv _] _].
  destruct a as [s d]. destruct d; try done; cbn [ast_node children] in *;
    try (eexists; split; [reflexivity|intros v [= <-]; constructor]).
  - apply Forall_cons in Hs as [Hx [Hy _]%Forall_cons]. unfold constant_step. cbn [ast_node].
    destruct (rec_folds_small _ Hx w) as (ol & -> & Hol). cbn [run_bind]. destruct ol as [l|]; [|by exists None].
    destruct (rec_folds_small _ Hy w) as (or & -> & Hor). cbn [run_bind]. eexists. split; [done|].
    intros v (r & -> & Hv)%bind_Some. eapply constant_binary_sound; eauto.
  - apply Forall_cons in Hs as [Hx _]. unfold constant_step. cbn [ast_node].
    destruct (rec_folds_small _ Hx w) as (ol & -> & Hol). cbn [run_bind]. eexists. split; [done|].
    intros v (r & -> & Hv)%bind_Some. econstructor; [by apply Hol|by apply constant_unary_sound].
  - by apply fold_call_node_sound.
  - apply Forall_cons in Hs as [? [? [? _]%Forall_cons]%Forall_cons].
    apply fold_conditional_sound; [done|done|done|]. intros b v Hb Hv. by eapply E_ternary.
Qed.
End fold_step.

Lemma fold_sound fuel a : compilable a → height a ≤ fuel → folds a (fold fuel a).
Proof.
  revert a. induction fuel as [|fuel IH]; intros a Ha Hh; [pose proof (height_pos a); lia|].
  apply (constant_step_sound (S fuel)); [|done|done]. intros b Hb Hbh. apply IH; [done|lia].
Qed.
End fragment.

(** ** Stack use *)

(** The slots the code of a tree needs at most. *)
Fixpoint stack_need (a : cxpr_expr_ast) : nat :=
  let '(Ast _ d) := a in
  let fix need_all (args : list cxpr_expr_ast) : nat :=
    match args with
    | [] => 0
    | a :: args => Nat.max (stack_need a) (S (need_all args))
    end in
  match d with
  | CXPR_NODE_ARRAY args | CXPR_NODE_FUNCTION_CALL _ args _ => Nat.max 1 (need_all args)
  | CXPR_NODE_UNARY_OP _ x => stack_need x
  | CXPR_NODE_BINARY_OP _ x y => Nat.max (stack_need x) (S (stack_need y))
  | CXPR_NODE_TERNARY c x y => Nat.max (stack_need c) (Nat.max (stack_need x) (stack_need y))
  | _ => 1
  end.

Fixpoint stack_needs (args : list cxpr_expr_ast) : nat :=
  match args with
  | [] => 0
  | a :: args => Nat.max (stack_need a) (S (stack_needs args))
  end.

Lemma stack_need_array s els : stack_need (Ast s (CXPR_NODE_ARRAY els)) = Nat.max 1 (stack_needs els).
Proof. reflexivity. Qed.
Lemma stack_need_call s name args names :
  stack_need (Ast s (CXPR_NODE_FUNCTION_CALL name args names)) = Nat.max 1 (stack_needs args).
Proof. reflexivity. Qed.

Lemma stack_need_pos a : 1 ≤ stack_need a.
Proof.
  induction a as [s d IH] using ast_ind. destruct d; cbn [children] in IH; try (simpl; lia);
    repeat (apply Forall_cons in IH as [? IH]); simpl; lia.
Qed.

(** ** Runs of the typed executor *)

(** What the executor relies on: the context binds names and parameters as [vars]
    and [pars], and a parameter is found by the lookups of [LOAD_PARAM]. *)
Class IRContextLaws (L : Type) `{!EvalContext L} `{!IRContext L} `{!EvalContextLaws L} : Type := {
  ctx_loads : list L → (string → option cxpr_value) → (string → option cxpr_value) → Prop;
  loads_rep ctx vars pars : ctx_loads ctx vars pars → ctx_rep ctx vars pars;
  loads_get_typed ctx vars pars name :
    ctx_loads ctx vars pars →
    ∃ r ctx', ctx_get_typed ctx name = Done (r, ctx') ∧ fst <$> r = vars name ∧ ctx_loads ctx' vars pars;
  loads_scope c parents vars pars lookup name v :
    ctx_loads (c :: parents) vars pars → ctx_scope c = Some lookup → lookup name = Some v →
    vars name = Some v;
  loads_param ctx vars pars name v :
    ctx_loads ctx vars pars → pars name = Some v →
    match ctx_param_bool ctx name, ctx_param_string ctx name with
    | Some b, _ => v = VBool b
    | None, Some s => v = VString s
    | None, None => ∃ d, ctx_scalar true ctx name = Done (Some d) ∧ v = VNum d
    end;
  loads_param_number ctx vars pars name d :
    ctx_loads ctx vars pars → pars name = Some (VNum d) → ctx_scalar true ctx name = Done (Some d)
}.

Section runs.
Context {L W : Type} `{!EvalContext L} `{!IRContext L} `{!EvalContextLaws L} `{!IRContextLaws L}.
Context `{!HostCode W} `{!HexFormat} `{!EvalHost L W}.
Context (reg : cxpr_registry) (vars pars : string → option cxpr_value) (fx : nat).
Implicit Types s : est L W.
Implicit Types code seg : list ir_instr.

Abbreviation evaluates := (evaluates reg vars pars).
Abbreviation evaluates_all := (evaluates_all reg vars pars).
Abbreviation memo_of s := (hd memo_empty (es_memos s)).

(** A state without an error in which the memo table is right. *)
Record ready s : Prop := {
  ready_ctx : ctx_loads (es_ctx s) vars pars;
  ready_live : live s caller_tree = true;
  ready_memo : Forall (entry_good reg vars pars) (memo_entries (memo_of s));
  ready_ok : err_code (es_err s) = CXPR_OK
}.

Lemma ready_good s : ready s → good reg vars pars s.
Proof. intros [? ? ? ?]. constructor; [by apply loads_rep|done|done]. Qed.

(** A machine outside of lookback. *)
Definition mach (ip : nat) (stack : list cxpr_value) : machine := mk_machine ip stack [] 0 0.

Abbreviation step_of code i m := (typed_step (W := W) reg fx code [] i m).

Inductive steps code : nat → machine → est L W → machine → est L W → Prop :=
  | steps_none m s : steps code 0 m s m s
  | steps_more n i m s m1 s1 m2 s2 :
      code !! mc_ip m = Some i → step_of code i m s = Done (inl m1, s1) →
      steps code n m1 s1 m2 s2 → steps code (S n) m s m2 s2.

Lemma steps_trans code n n' m s m1 s1 m2 s2 :
  steps code n m s m1 s1 → steps code n' m1 s1 m2 s2 → steps code (n + n') m s m2 s2.
Proof. induction 1; simpl; [done|]. intros. econstructor; eauto. Qed.

Lemma steps_loop code n k m s m' s' :
  steps code n m s m' s' → typed_loop reg fx code [] (n + k) m s = typed_loop reg fx code [] k m' s'.
Proof.
  induction 1 as [|n i m s m1 s1 m2 s2 Hi Hs _ IH]; [done|]. simpl. rewrite Hi.
  unfold bind at 1. rewrite Hs. exact IH.
Qed.

(** From [ip] with [stack] to [ip'] with [stack'] in at most [bound] steps. *)
Definition moves code ip stack s ip' stack' bound : Prop :=
  ∃ n s', n ≤ bound ∧ steps code n (mach ip stack) s (mach ip' stack') s' ∧ ready s' ∧ frame s s'.

Lemma moves_none code ip stack s : ready s → moves code ip stack s ip stack 0.
Proof. intros Hr. exists 0, s. split_and!; [done|constructor|done|done..]. Qed.

Lemma moves_trans code ip stack s ip1 stack1 b1 ip2 stack2 b2 :
  moves code ip stack s ip1 stack1 b1 →
  (∀ s1, ready s1 → moves code ip1 stack1 s1 ip2 stack2 b2) →
  moves code ip stack s ip2 stack2 (b1 + b2).
Proof.
  intros (n1 & s1 & Hn1 & Hs1 & Hr1 & Hf1) Hk. destruct (Hk s1 Hr1) as (n2 & s2 & Hn2 & Hs2 & Hr2 & Hf2).
  exists (n1 + n2), s2. split_and!; [lia|by eapply steps_trans|done|by eapply frame_trans..].
Qed.

Lemma moves_weaken code ip stack s ip' stack' b b' :
  moves code ip stack s ip' stack' b → b ≤ b' → moves code ip stack s ip' stack' b'.
Proof. intros (n & s' & Hn & Hm) Hb. exists n, s'. split; [lia|done]. Qed.

Lemma moves_one code ip stack s i ip' stack' s' :
  code !! ip = Some i → step_of code i (mach ip stack) s = Done (inl (mach ip' stack'), s') →
  ready s' → frame s s' → moves code ip stack s ip' stack' 1.
Proof.
  intros Hi Hs Hr Hf. exists 1, s'. split_and!; [done| |done|apply Hf..].
  econstructor; [exact Hi|exact Hs|constructor].
Qed.

(** ** Segments *)

(** [seg] stands in [code] at [base]. *)
Definition placed code base seg : Prop :=
  ∃ before after, code = before ++ seg ++ after ∧ length before = base.

Lemma placed_app code base seg seg' :
  placed code base (seg ++ seg') → placed code base seg ∧ placed code (base + length seg) seg'.
Proof.
  intros (before & after & -> & <-). split.
  - exists before, (seg' ++ after). by rewrite <- !app_assoc.
  - exists (before ++ seg), after. rewrite length_app. by rewrite <- !app_assoc.
Qed.

Lemma placed_at code base i seg : placed code base (i :: seg) → code !! base = Some i.
Proof. intros (before & after & -> & <-). by rewrite lookup_app_r, Nat.sub_diag by lia. Qed.

Lemma placed_cons code base i seg :
  placed code base (i :: seg) → code !! base = Some i ∧ placed code (S base) seg.
Proof.
  intros Hp. split; [by eapply placed_at|].
  apply (placed_app code base [i] seg) in Hp as [_ Hp]. simpl in Hp. by replace (S base) with (base + 1) by lia.
Qed.

(** The segment pushes the values, the last on top, within [need] slots. *)
Definition runs base seg need (vs : list cxpr_value) : Prop :=
  ∀ code stack s, placed code base seg → ready s → length stack + need ≤ CXPR_IR_STACK_CAPACITY →
    moves code base stack s (base + length seg) (rev vs ++ stack) (length seg).

(** The instruction replaces the arguments by a value. *)
Definition replaces i (vs : list cxpr_value) (v : cxpr_value) : Prop :=
  ∀ code ip stack s, ready s → length stack < CXPR_IR_STACK_CAPACITY →
    ∃ s', step_of code i (mach ip (rev vs ++ stack)) s = Done (inl (mach (S ip) (v :: stack)), s') ∧
      ready s' ∧ frame s s'.

Lemma runs_instr base seg need i vs v :
  runs base seg need vs → replaces i vs v → 1 ≤ need → runs base (seg ++ [i]) need [v].
Proof.
  intros Hs Hi Hn code stack s [Hp Hpi]%placed_app Hr Hl. rewrite length_app.
  eapply moves_trans; [by apply Hs|]. intros s1 Hr1.
  destruct (Hi code (base + length seg) stack s1 Hr1) as (s' & Hstep & Hr' & Hf); [lia|].
  eapply moves_one; [by eapply placed_at| |done|done].
  replace (base + (length seg + length [i])) with (S (base + length seg)) by (simpl; lia). exact Hstep.
Qed.

Lemma runs_nil base : runs base [] 0 [].
Proof. intros code stack s _ Hr _. rewrite Nat.add_0_r. by apply moves_none. Qed.

Lemma runs_weaken base seg need need' vs : runs base seg need vs → need ≤ need' → runs base seg need' vs.
Proof. intros Hs Hn code stack s Hp Hr Hl. apply Hs; [done|done|lia]. Qed.

Lemma runs_push base i v : replaces i [] v → runs base [i] 1 [v].
Proof.
  intros Hi. apply (runs_instr base [] 1 i [] v); [|done|lia].
  apply (runs_weaken _ _ 0); [apply runs_nil|lia].
Qed.

Lemma runs_app base seg seg' need need' vs vs' :
  runs base seg need vs → runs (base + length seg) seg' need' vs' →
  runs base (seg ++ seg') (Nat.max need (length vs + need')) (vs ++ vs').
Proof.
  intros Hs Hs' code stack s [Hp Hp']%placed_app Hr Hl. rewrite length_app, Nat.add_assoc, rev_app_distr, <- app_assoc.
  eapply moves_trans; [apply Hs; [done|done|lia]|]. intros s1 Hr1.
  apply Hs'; [done|done|]. rewrite length_app, length_rev. lia.
Qed.

(** ** Instructions *)

Lemma frame_refl s : frame s s.
Proof. done. Qed.

Lemma push_runs v ip stack s :
  length stack < CXPR_IR_STACK_CAPACITY →
  cxpr_ir_stack_push v (mach ip stack) s = Done (inl (mach (S ip) (v :: stack)), s).
Proof. intros Hl. unfold cxpr_ir_stack_push. cbn [mach mc_stack]. by rewrite (proj2 (Nat.leb_gt _ _)) by done. Qed.

(** An instruction that computes without touching the state. *)
Lemma replaces_pure i vs v :
  (∀ code ip stack s, ready s → length stack < CXPR_IR_STACK_CAPACITY →
     step_of code i (mach ip (rev vs ++ stack)) s = Done (inl (mach (S ip) (v :: stack)), s)) →
  replaces i vs v.
Proof. intros Hi code ip stack s Hr Hl. exists s. split; [by apply Hi|by split]. Qed.

Ltac pure := apply replaces_pure; intros code ip stack s Hr Hl; try (by apply push_runs).

Lemma replaces_number d : replaces (instr_value CXPR_OP_PUSH_CONST d) [] (VNum d).
Proof. pure. Qed.
Lemma replaces_int64 z : replaces (mk_ir CXPR_OP_PUSH_INT64 None None pay_none None (op_int64 z)) [] (VInt64 z).
Proof. pure. Qed.
Lemma replaces_string str : replaces (instr_name CXPR_OP_PUSH_STRING str) [] (VString str).
Proof. pure. Qed.
Lemma replaces_bool b : replaces (instr_value CXPR_OP_PUSH_BOOL (of_bool b)) [] (VBool b).
Proof. destruct b; pure. Qed.

Lemma pop_many_runs {k : list cxpr_value → machine → M L W transition} ip vs stack s :
  pop_many (length vs) (mach ip (rev vs ++ stack)) k s = k vs (mach ip stack) s.
Proof.
  unfold pop_many. cbn [mach mc_stack]. rewrite length_app, length_rev.
  rewrite (proj2 (Nat.ltb_ge _ _)) by lia. rewrite <- (length_rev vs), take_app_length, drop_app_length.
  by rewrite rev_involutive.
Qed.

Lemma replaces_array vs : replaces (instr_index CXPR_OP_BUILD_ARRAY (length vs)) vs (VArray vs).
Proof. pure. unfold typed_step. cbn [instr_index ii_op ii_index ii_operand]. rewrite pop_many_runs. by apply push_runs. Qed.

Lemma replaces_square d : replaces (instr_op CXPR_OP_SQUARE) [VNum d] (VNum (fmul d d)).
Proof. pure. Qed.

Lemma replaces_unary op v r opcode :
  unary_result op v = Some r →
  opcode = (match op with CXPR_TOK_NOT => CXPR_OP_NOT | _ => CXPR_OP_NEG end) →
  replaces (instr_op opcode) [v] r.
Proof.
  intros Hv ->. destruct op, v; try discriminate Hv; simpl in Hv; simplify_eq; try (by pure).
  case_match eqn:Hi; simplify_eq. pure. unfold typed_step. cbn [instr_op ii_op numeric_intrinsic].
  unfold step_numeric, cxpr_ir_pop1. cbn [mach mc_stack rev app]. rewrite Hi. by apply push_runs.
Qed.

(** A computed operand pair. *)
Lemma replaces_operands opcode (operate : cxpr_value → cxpr_value → M L W (option cxpr_value)) a b v :
  binary_instr opcode = Some operate → (∀ s, operate a b s = Done (Some v, s)) →
  replaces (instr_op opcode) [a; b] v.
Proof.
  intros Hb Ho. pure.
  assert (Hstep : step_of code (instr_op opcode) (mach ip (rev [a; b] ++ stack)) s =
                  (let! v := operate a b in push_result v (mach ip stack)) s).
  { destruct opcode; try discriminate Hb; unfold typed_step; cbn [instr_op ii_op]; rewrite Hb; reflexivity. }
  rewrite Hstep. unfold bind. rewrite Ho. cbn [run_bind push_result]. by apply push_runs.
Qed.

Lemma valop_instr op a b v message s :
  valop_value (cxpr_value_binary_op op a b) = Some v →
  (let! r := lift (cxpr_value_binary_op op a b) in other_operands r message) s = Done (Some v, s).
Proof.
  unfold bind, lift. destruct (cxpr_value_binary_op op a b) as [[r| |]| |]; simpl; try discriminate.
  by intros [= ->].
Qed.

Lemma binary_instr_runs op opcode a b v :
  binary_opcode op = Some opcode → binary_result op a b = Some v →
  ∃ operate, binary_instr (L := L) (W := W) opcode = Some operate ∧ ∀ s, operate a b s = Done (Some v, s).
Proof.
  intros Ho Hv. destruct op; try discriminate Ho; injection Ho as <-; eexists; (split; [reflexivity|]);
    intros s; unfold binary_result, arithmetic_result, comparison_result, equality_result in Hv;
    destruct a, b; simpl in Hv; try discriminate Hv; try (by injection Hv as <-);
    try (by apply valop_instr); unfold arithmetic_instr; repeat case_match; by simplify_eq.
Qed.

Lemma replaces_binary op opcode a b v :
  binary_opcode op = Some opcode → binary_result op a b = Some v → replaces (instr_op opcode) [a; b] v.
Proof.
  intros Ho Hv. destruct (binary_instr_runs op opcode a b v Ho Hv) as (operate & Hb & Hr).
  by eapply replaces_operands.
Qed.

(** *** Intrinsic functions *)

Lemma replaces_numeric op f d :
  numeric_intrinsic op = Some f → replaces (instr_op op) [VNum d] (VNum (f d)).
Proof. intros Hf. destruct op; try discriminate Hf; injection Hf as <-; pure. Qed.

Lemma replaces_intrinsic op name argc vs v :
  intrinsic name argc = Some op → intrinsic_result op vs = Some v → replaces (instr_op op) vs v.
Proof.
  intros Hi Hv.
  assert (Hop : is_Some (numeric_intrinsic op) ∨ op = CXPR_OP_POW ∨ op = CXPR_OP_CLAMP).
  { unfold intrinsic in Hi. repeat case_match; simplify_eq; eauto. }
  destruct Hop as [[f Hf]|[->| ->]].
  - assert (Hr : ∃ d, vs = [VNum d] ∧ v = VNum (f d)).
    { destruct op; try discriminate Hf; destruct vs as [|[] [|]]; try discriminate Hv; simpl in Hv;
        injection Hf as <-; injection Hv as <-; eauto. }
    destruct Hr as (d & -> & ->). by apply replaces_numeric.
  - destruct vs as [|[x| | | | | | | |] [|[y| | | | | | | |] [|]]]; try discriminate Hv. injection Hv as <-.
    by apply (replaces_binary CXPR_TOK_POWER).
  - destruct vs as [|[x| | | | | | | |] [|[lo| | | | | | | |] [|[hi| | | | | | | |] [|]]]]; try discriminate Hv.
    injection Hv as <-. pure.
Qed.

(** *** Loads *)

Lemma ready_put_ctx s ctx : ready s → ctx_loads ctx vars pars → ready (put_ctx ctx s).
Proof. intros [? ? ? ?] Hc. by constructor. Qed.

(** The innermost evaluator's result, when it has one, is the binding. *)
Lemma scope_lookup_ready name s :
  ready s → ∃ o, scope_lookup name s = Done (o, s) ∧ ∀ v, o = Some v → vars name = Some v.
Proof.
  intros Hr. unfold scope_lookup, get_ctx, bind, ret. cbn [run_bind]. eexists. split; [reflexivity|].
  intros v. pose proof (ready_ctx s Hr) as Hc. destruct (es_ctx s) as [|c parents]; [done|].
  destruct (ctx_scope c) as [lookup|] eqn:Hs; [|done]. by eapply loads_scope.
Qed.

Lemma load_variable_ready name v s :
  ready s → vars name = Some v →
  ∃ s', cxpr_ir_load_variable_typed name s = Done (Some v, s') ∧ ready s' ∧ frame s s'.
Proof.
  intros Hr Hv. unfold cxpr_ir_load_variable_typed, bind.
  destruct (scope_lookup_ready name s Hr) as (o & -> & Ho). cbn [run_bind].
  destruct o as [v'|]; [exists s; specialize (Ho _ eq_refl); simplify_eq; by split|].
  destruct (loads_get_typed (es_ctx s) vars pars name (ready_ctx s Hr)) as (r & ctx' & Hget & Hvar & Hl).
  unfold on_ctx. rewrite Hget. cbn [run_bind]. rewrite Hv in Hvar.
  destruct r as [[v' own]|]; [|discriminate Hvar]. injection Hvar as ->.
  exists (put_ctx ctx' s). split; [done|]. split; [by apply ready_put_ctx|done].
Qed.

Lemma replaces_variable name payload v :
  vars name = Some v → replaces (instr_load CXPR_OP_LOAD_VAR name payload) [] v.
Proof.
  intros Hv code ip stack s Hr Hl. destruct (load_variable_ready name v s Hr Hv) as (s' & Hs & Hr' & Hf).
  exists s'. split; [|done]. unfold typed_step, step_load_var, bind. cbn -[cxpr_ir_load_variable_typed CXPR_IR_STACK_CAPACITY].
  rewrite Hs. cbn [run_bind]. by apply push_runs.
Qed.

Lemma replaces_variable_square name payload d :
  vars name = Some (VNum d) → replaces (instr_load CXPR_OP_LOAD_VAR_SQUARE name payload) [] (VNum (fmul d d)).
Proof.
  intros Hv code ip stack s Hr Hl. destruct (load_variable_ready name _ s Hr Hv) as (s' & Hs & Hr' & Hf).
  exists s'. split; [|done]. unfold typed_step, step_load_var, bind. cbn -[cxpr_ir_load_variable_typed CXPR_IR_STACK_CAPACITY fmul].
  rewrite Hs. cbn [run_bind]. by apply push_runs.
Qed.

Lemma replaces_param name v :
  pars name = Some v → replaces (instr_load CXPR_OP_LOAD_PARAM name pay_none) [] v.
Proof.
  intros Hv. pure. pose proof (loads_param (es_ctx s) vars pars name v (ready_ctx s Hr) Hv) as Hp.
  unfold typed_step, step_load_param, bind, get_ctx. cbn -[CXPR_IR_STACK_CAPACITY].
  destruct (ctx_param_bool (es_ctx s) name) as [b|]; [subst v; by apply push_runs|].
  destruct (ctx_param_string (es_ctx s) name) as [str|]; [subst v; by apply push_runs|].
  destruct Hp as (d & Hd & ->). unfold cached_scalar, bind, get_ctx, lift, ret. cbn [run_bind]. rewrite Hd.
  by apply push_runs.
Qed.

Lemma replaces_param_square name d :
  pars name = Some (VNum d) → replaces (instr_load CXPR_OP_LOAD_PARAM_SQUARE name pay_none) [] (VNum (fmul d d)).
Proof.
  intros Hv. pure. pose proof (loads_param_number (es_ctx s) vars pars name d (ready_ctx s Hr) Hv) as Hd.
  unfold typed_step, step_load_param_square, cached_scalar, bind, get_ctx, lift, ret.
  cbn -[CXPR_IR_STACK_CAPACITY fmul]. rewrite Hd. by apply push_runs.
Qed.

(** *** Calls *)

Section calls.
Context (a : cxpr_expr_ast) (v : cxpr_value) (i : ir_instr).
Hypothesis node_ok_a : ast_all node_ok a.
Hypothesis value_a : evaluates a v.
Hypothesis payload_a : ii_payload i = pay_tree caller_tree a.

Ltac memoable := match goal with |- context [if ?b then Some (caller_tree, a) else None] => destruct b end.

Lemma memo_get_ready s :
  ready s → ∃ o, cxpr_ir_call_memo_get i s = Done (o, s) ∧ ∀ v', o = Some v' → v' = v.
Proof.
  intros Hr. unfold cxpr_ir_call_memo_get, cxpr_ir_call_instr_memoable. rewrite payload_a.
  destruct (ii_func i) as [e|]; [|by exists None].
  destruct (ast_node a); try (by exists None). memoable; [|by exists None].
  assert (Hget : ∃ o, cxpr_eval_memo_get (live s) (memo_of s) a (cxpr_eval_ast_hash a) = Done o ∧
            ∀ v', o = Some v' → evaluates a v').
  { unfold cxpr_eval_memo_get. destruct (_ =? 0); [by exists None|].
    apply (memo_search_good reg vars pars s); [by apply ready_good|done|by apply ready_memo]. }
  destruct Hget as (o & Hget & Ho). exists o. unfold memo, bind, lift. cbn [run_bind]. rewrite Hget.
  split; [done|]. intros v' Hv. by apply (evaluates_det reg vars pars a _ _ (es_world s)); [apply Ho|].
Qed.

Lemma memo_set_ready s :
  ready s → ∃ s', cxpr_ir_call_memo_set i v s = Done (tt, s') ∧ ready s' ∧ frame s s'.
Proof.
  intros Hr. unfold cxpr_ir_call_memo_set, cxpr_ir_call_instr_memoable. rewrite payload_a.
  destruct (ii_func i) as [e|]; [|by exists s]. destruct (ast_node a); try (by exists s).
  memoable; [|by exists s]. unfold memo, bind, set_memo. cbn [run_bind]. eexists. split; [reflexivity|].
  destruct (memo_set_good reg vars pars (memo_of s) a (cxpr_eval_ast_hash a) v node_ok_a value_a (ready_memo s Hr)).
  split; [|by split_and!]. by destruct Hr.
Qed.

(** A value that is not in the memo is computed and remembered. *)
Lemma remember_runs ip stack s :
  ready s → length stack < CXPR_IR_STACK_CAPACITY →
  ∃ s', (cxpr_ir_call_memo_set i v ;; cxpr_ir_stack_push v (mach ip stack)) s =
          Done (inl (mach (S ip) (v :: stack)), s') ∧ ready s' ∧ frame s s'.
Proof.
  intros Hr Hl. destruct (memo_set_ready s Hr) as (s' & Hs & Hr' & Hf). exists s'. split; [|done].
  unfold bind. rewrite Hs. cbn [run_bind]. by apply push_runs.
Qed.
End calls.

Lemma number_args_map ds : number_args (VNum <$> ds) = Some ds.
Proof. induction ds as [|d ds IH]; [done|]. rewrite fmap_cons. simpl. by rewrite IH. Qed.

Lemma step_native_runs e k fn a argc opcode count ds d ip stack s :
  fe_native e = Some (k, fn) → native_arity k = count → length ds = count →
  ast_all node_ok a → evaluates a (VNum d) → (∀ w, call_scalar fn ds w = Done (d, w)) →
  ready s → length stack < CXPR_IR_STACK_CAPACITY →
  ∃ s', step_native (instr_call opcode e caller_tree a argc) count (mach ip (rev (VNum <$> ds) ++ stack)) s =
          Done (inl (mach (S ip) (VNum d :: stack)), s') ∧ ready s' ∧ frame s s'.
Proof.
  intros Hn Hk Hl Ha Hv Hd Hr Hs. unfold step_native.
  replace count with (length (VNum <$> ds)) by (by rewrite length_fmap). rewrite pop_many_runs, number_args_map.
  unfold bind at 1. destruct (memo_get_ready a (VNum d) (instr_call opcode e caller_tree a argc) Ha Hv eq_refl s Hr) as (o & -> & Ho).
  cbn [run_bind]. destruct o as [v'|].
  { rewrite (Ho _ eq_refl). exists s. split; [by apply push_runs|by split]. }
  cbn [instr_call ii_func]. simpl (Some e ≫= fe_native). rewrite Hn, length_fmap, Hl, Hk, Nat.eqb_refl.
  unfold bind at 1. unfold on_world. rewrite Hd. cbn [run_bind].
  replace (put_world (es_world s) s) with s by (by destruct s). exact (remember_runs a (VNum d) (instr_call opcode e caller_tree a argc) Ha Hv eq_refl ip stack s Hr Hs).
Qed.

Lemma step_call_func_runs e a argc code vs v ip stack s :
  compiled_entry reg e → applies e vs v → length vs ≤ CXPR_MAX_CALL_ARGS → argc = length vs →
  ast_all node_ok a → evaluates a v → ready s → length stack < CXPR_IR_STACK_CAPACITY →
  ∃ s', step_of code (instr_call CXPR_OP_CALL_FUNC e caller_tree a argc) (mach ip (rev vs ++ stack)) s =
          Done (inl (mach (S ip) (v :: stack)), s') ∧ ready s' ∧ frame s s'.
Proof.
  intros Hce Happ Hl -> Ha Hv Hr Hs. set (i := instr_call _ _ _ _ _).
  change (typed_step (W := W) reg fx code [] i) with (step_call_func reg (L := L) (W := W) i). unfold step_call_func, with_func, memoised_call.
  change (ii_index i) with (length vs). change (ii_func i) with (Some e). cbn [mach mc_stack].
  rewrite length_app, length_rev. destruct (Nat.ltb_spec (length vs + length stack) (length vs)); [lia|].
  destruct (Nat.ltb_spec CXPR_MAX_CALL_ARGS (length vs)); [lia|].
  change (mk_machine ip (rev vs ++ stack) [] 0 0) with (mach ip (rev vs ++ stack)). rewrite pop_many_runs.
  unfold bind at 1.
  destruct (memo_get_ready a v i Ha Hv eq_refl s Hr) as (o & -> & Ho). cbn [run_bind]. destruct o as [v'|].
  { rewrite (Ho _ eq_refl). exists s. split; [by apply push_runs|by split]. }
  assert (Hcall : call_registry reg (fe_name e) vs s = Done (v, put_err error_zero s)).
  { unfold call_registry, bind, on_world, cxpr_registry_call_typed, set_err.
    rewrite (ce_name reg e Hce), (ce_callable reg e Hce), (ce_call reg e Hce vs v Happ). by destruct s. }
  unfold bind at 1. rewrite Hcall. cbn [run_bind].
  assert (Hr' : ready (put_err error_zero s)) by (by destruct Hr).
  unfold go_on, unless_failing, failing, bind at 1, get_err. cbn [run_bind].
  exact (remember_runs a v i Ha Hv eq_refl ip stack _ Hr' Hs).
Qed.

(** ** Lowering *)

Abbreviation LW := (lowering W).

(** [m] succeeds, appends a segment that satisfies [P] at its place, and changes
    nothing else. *)
Definition emits (m : LW bool) (P : nat → list ir_instr → Prop) : Prop :=
  ∀ before err w, ∃ seg,
    m (mk_cst before err w) = Done (true, mk_cst (before ++ seg) err w) ∧ P (length before) seg.

Lemma emits_emit i (P : nat → list ir_instr → Prop) : (∀ base, P base [i]) → emits (cxpr_ir_emit i) P.
Proof. intros HP before err w. exists [i]. by split. Qed.

Lemma emits_weaken m (P Q : nat → list ir_instr → Prop) :
  emits m P → (∀ base seg, P base seg → Q base seg) → emits m Q.
Proof. intros Hm HPQ before err w. destruct (Hm before err w) as (seg & Hs & HP). exists seg. auto. Qed.

Lemma emits_land m k (P Q R : nat → list ir_instr → Prop) :
  emits m P → emits k Q →
  (∀ base seg seg', P base seg → Q (base + length seg) seg' → R base (seg ++ seg')) →
  emits (m &&! k) R.
Proof.
  intros Hm Hk HR before err w. destruct (Hm before err w) as (seg & Hs & HP).
  destruct (Hk (before ++ seg) err w) as (seg' & Hs' & HQ). exists (seg ++ seg').
  unfold land, lbind. rewrite Hs. cbn [run_bind]. rewrite Hs', app_assoc. split; [done|].
  apply HR; [done|]. by rewrite <- length_app.
Qed.

(** *** Steps of the compiler behind [before ++ seg] *)

Section sequence.
Context (before : list ir_instr) (err : cxpr_error) (w : W).
Abbreviation behind seg := (mk_cst (before ++ seg) err w).

Lemma start_behind : mk_cst before err w = behind [].
Proof. by rewrite app_nil_r. Qed.

Lemma lower_next {A} (k : nat → LW A) seg :
  (let# i := cxpr_ir_next_index in k i) (behind seg) = k (length before + length seg) (behind seg).
Proof. unfold lbind, cxpr_ir_next_index. cbn [run_bind cs_code]. by rewrite length_app. Qed.

Lemma lower_emit i k seg : (cxpr_ir_emit i &&! k) (behind seg) = k (behind (seg ++ [i])).
Proof. unfold land, lbind, cxpr_ir_emit. cbn [run_bind cs_code cs_err cs_world]. by rewrite app_assoc. Qed.

Lemma lower_node m (P : nat → list ir_instr → Prop) seg :
  emits m P →
  ∃ seg', P (length before + length seg) seg' ∧
    ∀ k, (m &&! k) (behind seg) = k (behind (seg ++ seg')).
Proof.
  intros Hm. destruct (Hm (before ++ seg) err w) as (seg' & Hs & HP). exists seg'.
  rewrite length_app in HP. split; [done|]. intros k. unfold land, lbind. rewrite Hs. cbn [run_bind].
  by rewrite app_assoc.
Qed.

Lemma alter_at {A} (f : A → A) l x r : alter f (length l) (l ++ x :: r) = l ++ f x :: r.
Proof. induction l as [|y l IH]; simpl; [done|]. by f_equal. Qed.

Lemma lower_patch_last at_ seg seg1 i seg2 :
  seg = seg1 ++ i :: seg2 → at_ = length before + length seg1 →
  patch_here at_ (behind seg) =
  Done (true, behind (seg1 ++ patch_index (length before + length seg) i :: seg2)).
Proof.
  intros -> ->. unfold patch_here, lbind, cxpr_ir_next_index, cxpr_ir_patch_target.
  cbn [run_bind cs_code cs_err cs_world].
  rewrite <- length_app, <- length_app, !(app_assoc before seg1), alter_at. done.
Qed.

Lemma lower_patch at_ k seg seg1 i seg2 :
  seg = seg1 ++ i :: seg2 → at_ = length before + length seg1 →
  (patch_here at_ &&! k) (behind seg) =
  k (behind (seg1 ++ patch_index (length before + length seg) i :: seg2)).
Proof. intros H1 H2. unfold land, lbind. by rewrite (lower_patch_last at_ seg seg1 i seg2 H1 H2). Qed.
End sequence.

Ltac lens := rewrite ?length_app; simpl; rewrite ?length_app; simpl; lia.
(** The hypothesis about a segment, at an equal place. *)
Ltac place H := match goal with |- ?P ?a ?base ?seg => match type of H with _ _ ?base' _ => replace base with base' by lens; exact H end end.

Ltac flat := simpl; repeat (rewrite <- !app_assoc; simpl).
(** Code that differs in how its jump targets are written. *)
Ltac same_code :=
  lazymatch goal with
  | |- ?l ++ _ = ?l ++ _ => apply (f_equal (app l)); same_code
  | |- _ :: _ = _ :: _ => apply (f_equal2 cons); same_code
  | |- patch_index ?t ?i = patch_index ?t' ?i => replace t with t' by lens; reflexivity
  | |- _ => reflexivity
  end.

(** The jumps of a conditional. *)
Definition jump_to (op : cxpr_opcode) (target : nat) : ir_instr := patch_index target (instr_op op).

Definition conditional_code (base : nat) (sc sx sy : list ir_instr) : list ir_instr :=
  let no := base + length sc + 1 + length sx + 1 in
  sc ++ jump_to CXPR_OP_JUMP_IF_FALSE no :: sx ++ jump_to CXPR_OP_JUMP (no + length sy) :: sy.

Section lowering.
Context (n : nat) (rec : list subst_frame → nat → nat → cxpr_expr_ast → LW bool).

(** The code of a node pushes its value. *)
Definition node_code (a : cxpr_expr_ast) (base : nat) (seg : list ir_instr) : Prop :=
  ∀ v, evaluates a v → runs base seg (stack_need a) [v].

Abbreviation compilable := (compilable reg vars pars).
Abbreviation small a := (compilable a ∧ height a < n).
Hypothesis rec_emits : ∀ a, compilable a → height a < n → emits (rec [] 0 caller_tree a) (node_code a).
Abbreviation node := (rec [] 0 caller_tree).

Lemma node_emits a : small a → emits (node a) (node_code a).
Proof. intros [? ?]. by apply rec_emits. Qed.

Definition list_code (args : list cxpr_expr_ast) (base : nat) (seg : list ir_instr) : Prop :=
  ∀ vs, evaluates_all args vs → runs base seg (stack_needs args) vs.

Lemma compile_all_emits args :
  Forall (λ a, small a) args → emits (compile_all rec [] 0 caller_tree args) (list_code args).
Proof.
  induction 1 as [|a args Ha _ IH]; simpl.
  - intros before err w. exists []. rewrite app_nil_r. split; [done|]. intros vs Hvs. inversion Hvs; subst. apply runs_nil.
  - eapply emits_land; [by apply node_emits|exact IH|]. intros base seg seg' Hn Hl vs Hvs.
    inversion Hvs as [|? ? v vs' Hv Hvs']; subst. specialize (Hn v Hv). specialize (Hl vs' Hvs').
    exact (runs_app base seg seg' _ _ [v] vs' Hn Hl).
Qed.

(** Arguments, then the instruction that replaces them. *)
Lemma replaced_emits args i (Q : nat → list ir_instr → Prop) :
  Forall (λ a, small a) args →
  (∀ base seg, list_code args base seg → Q base (seg ++ [i])) →
  emits (compile_all rec [] 0 caller_tree args &&! cxpr_ir_emit i) Q.
Proof.
  intros Hs HQ. eapply emits_land; [by apply compile_all_emits|by apply (emits_emit i (λ _ seg, seg = [i]))|].
  intros base seg seg' Hl ->. by apply HQ.
Qed.

Lemma conditional_emits c x y (P : nat → list ir_instr → Prop) :
  small c → small x → small y →
  (∀ base sc sx sy, node_code c base sc → node_code x (base + length sc + 1) sx →
     node_code y (base + length sc + 1 + length sx + 1) sy → P base (conditional_code base sc sx sy)) →
  emits (compile_conditional rec [] 0 caller_tree c x y) P.
Proof.
  intros Hc Hx Hy HP before err w. unfold compile_conditional. rewrite (start_behind before err w).
  destruct (lower_node before err w _ _ [] (node_emits c Hc)) as (sc & Pc & ->). rewrite app_nil_l.
  rewrite lower_next, lower_emit.
  destruct (lower_node before err w _ _ (sc ++ [instr_op CXPR_OP_JUMP_IF_FALSE]) (node_emits x Hx)) as (sx & Px & ->).
  rewrite lower_next, lower_emit.
  rewrite (lower_patch before err w _ _ _ sc (instr_op CXPR_OP_JUMP_IF_FALSE) (sx ++ [instr_op CXPR_OP_JUMP]));
    [|by rewrite <- !app_assoc|done].
  match goal with |- context [mk_cst (before ++ ?l) err w] => set (seg := l) end.
  destruct (lower_node before err w _ _ seg (node_emits y Hy)) as (sy & Py & ->).
  rewrite (lower_patch_last before err w _ _ (sc ++ patch_index (length before + length sc + 1 + length sx + 1)
             (instr_op CXPR_OP_JUMP_IF_FALSE) :: sx) (instr_op CXPR_OP_JUMP) sy);
    [|subst seg; flat; same_code|lens].
  eexists. split; [reflexivity|]. cbn [length] in Px. subst seg.
  match goal with |- P _ ?l => replace l with (conditional_code (length before) sc sx sy) end.
  - apply HP; [by rewrite Nat.add_0_r in Pc|by place Px|by place Py].
  - unfold conditional_code, jump_to. flat. same_code.
Qed.

(** The jumps of [and] and [or]. *)
Definition push_of (b : bool) : ir_instr := instr_value CXPR_OP_PUSH_BOOL (of_bool b).

Definition and_code (base : nat) (sx sy : list ir_instr) : list ir_instr :=
  let no := base + length sx + 1 + length sy + 3 in
  sx ++ jump_to CXPR_OP_JUMP_IF_FALSE no ::
  sy ++ [jump_to CXPR_OP_JUMP_IF_FALSE no; push_of true; jump_to CXPR_OP_JUMP (no + 1); push_of false].

Definition or_code (base : nat) (sx sy : list ir_instr) : list ir_instr :=
  let yes := base + length sx + 1 + length sy + 3 in
  sx ++ jump_to CXPR_OP_JUMP_IF_TRUE yes ::
  sy ++ [jump_to CXPR_OP_JUMP_IF_FALSE (yes + 2); push_of true; jump_to CXPR_OP_JUMP (yes + 3);
         push_of true; jump_to CXPR_OP_JUMP (yes + 3); push_of false].

Section short.
Context (x y : cxpr_expr_ast) (P : nat → list ir_instr → Prop).
Hypothesis small_x : small x.
Hypothesis small_y : small y.

(** The code of both operands with what follows it. *)
Lemma and_emits :
  (∀ base sx sy, node_code x base sx → node_code y (base + length sx + 1) sy → P base (and_code base sx sy)) →
  emits (
    node x &&!
    let# left_false_jump := cxpr_ir_next_index in
    cxpr_ir_emit (instr_op CXPR_OP_JUMP_IF_FALSE) &&!
    node y &&!
    let# right_false_jump := cxpr_ir_next_index in
    cxpr_ir_emit (instr_op CXPR_OP_JUMP_IF_FALSE) &&!
    push_bool true &&!
    let# end_jump := cxpr_ir_next_index in
    cxpr_ir_emit (instr_op CXPR_OP_JUMP) &&!
    patch_here left_false_jump &&!
    patch_here right_false_jump &&!
    push_bool false &&!
    patch_here end_jump) P.
Proof.
  intros HP before err w. rewrite (start_behind before err w).
  destruct (lower_node before err w _ _ [] (node_emits x small_x)) as (sx & Px & ->). rewrite app_nil_l.
  rewrite lower_next, lower_emit.
  destruct (lower_node before err w _ _ (sx ++ [instr_op CXPR_OP_JUMP_IF_FALSE]) (node_emits y small_y)) as (sy & Py & ->).
  rewrite lower_next, lower_emit. unfold push_bool. rewrite lower_emit, lower_next, lower_emit.
  rewrite (lower_patch before err w _ _ _ sx (instr_op CXPR_OP_JUMP_IF_FALSE)
             (sy ++ [instr_op CXPR_OP_JUMP_IF_FALSE; push_of true; instr_op CXPR_OP_JUMP])) by (flat; done || lens).
  match goal with |- context [mk_cst (before ++ sx ++ ?i :: _) err w] => set (j1 := i) end.
  rewrite (lower_patch before err w _ _ _ (sx ++ j1 :: sy) (instr_op CXPR_OP_JUMP_IF_FALSE)
             [push_of true; instr_op CXPR_OP_JUMP]) by (flat; done || lens).
  match goal with |- context [mk_cst (before ++ _ ++ ?i :: _) err w] => set (j2 := i) end.
  rewrite lower_emit.
  rewrite (lower_patch_last before err w _ _ (sx ++ j1 :: sy ++ [j2; push_of true]) (instr_op CXPR_OP_JUMP)
             [push_of false]) by (flat; done || lens).
  eexists. split; [reflexivity|].
  match goal with |- P _ ?l => replace l with (and_code (length before) sx sy) end.
  - apply HP; [by place Px|by place Py].
  - subst j1 j2. unfold and_code, jump_to. flat. same_code.
Qed.

Lemma or_emits :
  (∀ base sx sy, node_code x base sx → node_code y (base + length sx + 1) sy → P base (or_code base sx sy)) →
  emits (
    node x &&!
    let# left_true_jump := cxpr_ir_next_index in
    cxpr_ir_emit (instr_op CXPR_OP_JUMP_IF_TRUE) &&!
    node y &&!
    let# right_false_jump := cxpr_ir_next_index in
    cxpr_ir_emit (instr_op CXPR_OP_JUMP_IF_FALSE) &&!
    push_bool true &&!
    let# end_jump := cxpr_ir_next_index in
    cxpr_ir_emit (instr_op CXPR_OP_JUMP) &&!
    patch_here left_true_jump &&!
    push_bool true &&!
    let# skip_false_jump := cxpr_ir_next_index in
    cxpr_ir_emit (instr_op CXPR_OP_JUMP) &&!
    patch_here right_false_jump &&!
    push_bool false &&!
    patch_here end_jump &&!
    patch_here skip_false_jump) P.
Proof.
  intros HP before err w. rewrite (start_behind before err w).
  destruct (lower_node before err w _ _ [] (node_emits x small_x)) as (sx & Px & ->). rewrite app_nil_l.
  rewrite lower_next, lower_emit.
  destruct (lower_node before err w _ _ (sx ++ [instr_op CXPR_OP_JUMP_IF_TRUE]) (node_emits y small_y)) as (sy & Py & ->).
  rewrite lower_next, lower_emit. unfold push_bool. rewrite lower_emit, lower_next, lower_emit.
  rewrite (lower_patch before err w _ _ _ sx (instr_op CXPR_OP_JUMP_IF_TRUE)
             (sy ++ [instr_op CXPR_OP_JUMP_IF_FALSE; push_of true; instr_op CXPR_OP_JUMP])) by (flat; done || lens).
  match goal with |- context [mk_cst (before ++ sx ++ ?i :: _) err w] => set (j1 := i) end.
  rewrite lower_emit, lower_next, lower_emit.
  rewrite (lower_patch before err w _ _ _ (sx ++ j1 :: sy) (instr_op CXPR_OP_JUMP_IF_FALSE)
             [push_of true; instr_op CXPR_OP_JUMP; push_of true; instr_op CXPR_OP_JUMP]) by (flat; done || lens).
  match goal with |- context [mk_cst (before ++ _ ++ ?i :: _) err w] => set (j2 := i) end.
  rewrite lower_emit.
  rewrite (lower_patch before err w _ _ _ (sx ++ j1 :: sy ++ [j2; push_of true]) (instr_op CXPR_OP_JUMP)
             [push_of true; instr_op CXPR_OP_JUMP; push_of false]) by (flat; done || lens).
  match goal with |- context [mk_cst (before ++ _ ++ ?i :: _) err w] => set (j3 := i) end.
  rewrite (lower_patch_last before err w _ _ (sx ++ j1 :: sy ++ [j2; push_of true; j3; push_of true])
             (instr_op CXPR_OP_JUMP) [push_of false]) by (flat; done || lens).
  eexists. split; [reflexivity|].
  match goal with |- P _ ?l => replace l with (or_code (length before) sx sy) end.
  - apply HP; [by place Px|by place Py].
  - subst j1 j2 j3. unfold or_code, jump_to. flat. same_code.
Qed.
End short.

(** ** Jumps *)

Lemma jump_moves code ip stack s target :
  code !! ip = Some (jump_to CXPR_OP_JUMP target) → ready s → moves code ip stack s target stack 1.
Proof. intros Hi Hr. by eapply (moves_one _ _ _ _ _ _ _ s). Qed.

Lemma jump_if_moves (op : cxpr_opcode) (b c : bool) code ip stack s target :
  code !! ip = Some (jump_to op target) → ready s →
  op = (if b then CXPR_OP_JUMP_IF_TRUE else CXPR_OP_JUMP_IF_FALSE) →
  moves code ip (VBool c :: stack) s (if Bool.eqb c b then target else S ip) stack 1.
Proof. intros Hi Hr ->. eapply (moves_one _ _ _ _ _ _ _ s); [exact Hi| |done|done]. by destruct b, c. Qed.

Lemma push_moves (b : bool) code ip stack s :
  code !! ip = Some (push_of b) → ready s → length stack < CXPR_IR_STACK_CAPACITY →
  moves code ip stack s (S ip) (VBool b :: stack) 1.
Proof.
  intros Hi Hr Hl. destruct (replaces_bool b code ip stack s Hr Hl) as (s' & Hs & Hr' & Hf).
  by eapply moves_one.
Qed.

Ltac split_placed :=
  repeat match goal with
  | H : placed _ _ (_ ++ _) |- _ => apply placed_app in H as [? H]
  | H : placed _ _ (_ :: _) |- _ => apply placed_cons in H as [? H]
  end.

(** The instruction at an equal place. *)
Ltac at_place := match goal with H : ?code !! ?j = Some ?i |- ?code !! ?k = Some _ => replace k with j by lens; exact H end.

Lemma conditional_runs base sc sx sy need (b : bool) v :
  runs base sc need [VBool b] →
  (if b then runs (base + length sc + 1) sx need [v]
   else runs (base + length sc + 1 + length sx + 1) sy need [v]) →
  runs base (conditional_code base sc sx sy) need [v].
Proof.
  intros Hc Hb code stack s Hp Hr Hl. set (no := base + length sc + 1 + length sx + 1) in *.
  replace (base + length (conditional_code base sc sx sy)) with (no + length sy)
    by (unfold conditional_code; subst no; lens).
  replace (length (conditional_code base sc sx sy)) with (length sc + (1 + (length sx + 1 + length sy)))
    by (unfold conditional_code; lens).
  unfold conditional_code in Hp. change (base + length sc + 1 + length sx + 1) with no in Hp.
  apply placed_app in Hp as [Hpc Hp]. apply placed_cons in Hp as [Hjump Hp].
  apply placed_app in Hp as [Hpx Hp]. apply placed_cons in Hp as [Hend Hpy].
  eapply moves_trans; [by apply (Hc code stack s)|]. intros s1 Hr1. simpl (rev _ ++ _).
  eapply moves_trans; [by apply (jump_if_moves _ false b code _ stack s1 no Hjump Hr1)|]. intros s2 Hr2.
  destruct b; simpl.
  - replace (S (base + length sc)) with (base + length sc + 1) by lia. eapply moves_weaken.
    { eapply moves_trans; [apply (Hb code stack s2); [by place Hpx|done|done]|]. intros s3 Hr3.
      eapply jump_moves; [by at_place|done]. }
    lia.
  - eapply moves_weaken; [apply (Hb code stack s2); [by place Hpy|done|done]|lia].
Qed.

Lemma and_runs base sx sy need (bx by_ : bool) :
  runs base sx need [VBool bx] → (bx = true → runs (base + length sx + 1) sy need [VBool by_]) → 1 ≤ need →
  runs base (and_code base sx sy) need [VBool (bx && by_)].
Proof.
  intros Hx Hy Hn code stack s Hp Hr Hl. set (no := base + length sx + 1 + length sy + 3) in *.
  replace (base + length (and_code base sx sy)) with (S no) by (unfold and_code; subst no; lens).
  replace (length (and_code base sx sy)) with (length sx + (1 + (length sy + (1 + 3)))) by (unfold and_code; lens).
  unfold and_code in Hp. change (base + length sx + 1 + length sy + 3) with no in Hp.
  apply placed_app in Hp as [Hpx Hp]. apply placed_cons in Hp as [Hjx Hp].
  apply placed_app in Hp as [Hpy Hp]. apply placed_cons in Hp as [Hjy [Ht [Hj [Hf _]%placed_cons]%placed_cons]%placed_cons].
  assert (Hno : ∀ s', ready s' → moves code no stack s' (S no) (VBool false :: stack) 1).
  { intros s' Hr'. apply push_moves; [by at_place|done|lia]. }
  eapply moves_trans; [by apply (Hx code stack s)|]. intros s1 Hr1. simpl (rev _ ++ _).
  eapply moves_trans; [by apply (jump_if_moves _ false bx code _ stack s1 no Hjx Hr1)|]. intros s2 Hr2.
  destruct bx; simpl; [|eapply moves_weaken; [by apply Hno|lia]].
  replace (S (base + length sx)) with (base + length sx + 1) by lia.
  eapply moves_trans; [apply (Hy eq_refl code stack s2); [by place Hpy|done|done]|]. intros s3 Hr3. simpl (rev _ ++ _).
  eapply (moves_trans _ _ _ _ _ _ 1).
  { eapply (jump_if_moves _ false by_ code _ stack s3 no); [by at_place|done|done]. }
  intros s4 Hr4. destruct by_; simpl; [|eapply moves_weaken; [by apply Hno|lia]].
  eapply moves_weaken.
  { eapply moves_trans; [eapply (push_moves true); [by at_place|done|lia]|]. intros s5 Hr5.
    eapply jump_moves; [|done]. replace (S no) with (no + 1) by lia. by at_place. }
  lia.
Qed.

Lemma or_runs base sx sy need (bx by_ : bool) :
  runs base sx need [VBool bx] → (bx = false → runs (base + length sx + 1) sy need [VBool by_]) → 1 ≤ need →
  runs base (or_code base sx sy) need [VBool (bx || by_)].
Proof.
  intros Hx Hy Hn code stack s Hp Hr Hl. set (yes := base + length sx + 1 + length sy + 3) in *.
  replace (base + length (or_code base sx sy)) with (yes + 3) by (unfold or_code; subst yes; lens).
  replace (length (or_code base sx sy)) with (length sx + (1 + (length sy + (1 + 5)))) by (unfold or_code; lens).
  unfold or_code in Hp. change (base + length sx + 1 + length sy + 3) with yes in Hp.
  apply placed_app in Hp as [Hpx Hp]. apply placed_cons in Hp as [Hjx Hp]. apply placed_app in Hp as [Hpy Hp].
  apply placed_cons in Hp as [Hjy [Ht [Hj [Ht' [Hj' [Hf _]%placed_cons]%placed_cons]%placed_cons]%placed_cons]%placed_cons].
  assert (Hyes : ∀ s', ready s' → moves code yes stack s' (yes + 3) (VBool true :: stack) 2).
  { intros s' Hr'. apply (moves_trans _ _ _ _ (S yes) (VBool true :: stack) 1 _ _ 1);
      [apply push_moves; [by at_place|done|lia]|]. intros s5 Hr5. eapply jump_moves; [by at_place|done]. }
  eapply moves_trans; [by apply (Hx code stack s)|]. intros s1 Hr1. simpl (rev _ ++ _).
  eapply moves_trans; [by apply (jump_if_moves _ true bx code _ stack s1 yes Hjx Hr1)|]. intros s2 Hr2.
  destruct bx; simpl; [eapply moves_weaken; [by apply Hyes|lia]|].
  replace (S (base + length sx)) with (base + length sx + 1) by lia.
  eapply moves_trans; [apply (Hy eq_refl code stack s2); [by place Hpy|done|done]|]. intros s3 Hr3. simpl (rev _ ++ _).
  eapply (moves_trans _ _ _ _ _ _ 1).
  { eapply (jump_if_moves _ false by_ code _ stack s3 (yes + 2)); [by at_place|done|done]. }
  intros s4 Hr4. destruct by_; simpl.
  - eapply moves_weaken.
    { eapply moves_trans; [eapply (push_moves true); [by at_place|done|lia]|]. intros s5 Hr5.
      eapply jump_moves; [by at_place|done]. }
    lia.
  - replace (yes + 3) with (S (yes + 2)) by lia. apply (moves_weaken _ _ _ _ _ _ 1); [|lia].
    apply push_moves; [by at_place|done|lia].
Qed.

(** ** Nodes *)

Hypothesis vars_basic : ∀ name v, vars name = Some v → basic v = true.
Hypothesis pars_basic : ∀ name v, pars name = Some v → basic v = true.

(** A value that is known at compile time. *)
Lemma constant_code a i v base : evaluates a v → replaces i [] v → node_code a base [i].
Proof.
  intros Hv Hi v' Hv' code stack s Hp Hr Hl.
  rewrite <- (evaluates_det reg vars pars a v v' (es_world s) Hv Hv').
  apply (runs_push base i v Hi code stack s); [done|done|]. pose proof (stack_need_pos a). lia.
Qed.

Lemma emits_folded {A} fuel a (k : option cxpr_value → LW A) before err w :
  compilable a → height a ≤ fuel →
  ∃ o, (let# o := constant reg fuel a in k o) (mk_cst before err w) = k o (mk_cst before err w) ∧
    ∀ v, o = Some v → evaluates a v.
Proof.
  intros Ha Hh. destruct (fold_sound reg vars pars fuel a Ha Hh w) as (o & Ho & Hv).
  exists o. split; [|done]. unfold lbind, constant. cbn [cs_world cs_code cs_err]. by rewrite Ho.
Qed.

Lemma emits_constant fuel a (k : option cxpr_value → LW bool) (P : nat → list ir_instr → Prop) :
  compilable a → height a ≤ fuel → (∀ o, (∀ v, o = Some v → evaluates a v) → emits (k o) P) →
  emits (let# o := constant reg fuel a in k o) P.
Proof.
  intros Ha Hh Hk before err w. destruct (emits_folded fuel a k before err w Ha Hh) as (o & -> & Ho).
  by apply Hk.
Qed.

Lemma push_constant_emits a o (otherwise : LW bool) :
  (∀ v, o = Some v → evaluates a v) → emits otherwise (node_code a) →
  emits (push_constant o otherwise) (node_code a).
Proof.
  intros Ho Hw. unfold push_constant. destruct o as [[d|b| |str| | | | |]|]; try done;
    apply emits_emit; intros base; (eapply constant_code; [by apply Ho|]).
  - apply replaces_number.
  - apply replaces_bool.
  - apply replaces_string.
Qed.

Lemma array_emits sp els :
  Forall (λ a, small a) els →
  emits (compile_all rec [] 0 caller_tree els &&! cxpr_ir_emit (instr_index CXPR_OP_BUILD_ARRAY (length els)))
    (node_code (Ast sp (CXPR_NODE_ARRAY els))).
Proof.
  intros Hs. apply replaced_emits; [done|]. intros base seg Hl v Hv.
  inversion Hv as [| | | | | |? ? vs Hvs| | | | | | |]; subst. rewrite stack_need_array.
  eapply (runs_instr base seg _ _ vs); [eapply runs_weaken; [by apply Hl|lia]| |lia].
  rewrite <- (evaluates_all_length reg vars pars els vs Hvs). apply replaces_array.
Qed.

Lemma unary_emits sp op x :
  small x → op = CXPR_TOK_MINUS ∨ op = CXPR_TOK_NOT →
  emits (compile_unary rec [] 0 caller_tree op x) (node_code (Ast sp (CXPR_NODE_UNARY_OP op x))).
Proof.
  intros Hx Hop.
  assert (Hrun : ∀ i, (∀ v r, unary_result op v = Some r → replaces i [v] r) →
    emits (node x &&! cxpr_ir_emit i) (node_code (Ast sp (CXPR_NODE_UNARY_OP op x)))).
  { intros i Hi. eapply emits_land; [by apply node_emits|by apply (emits_emit i (λ _ seg, seg = [i]))|].
    intros base seg seg' Hn -> r Hr. inversion Hr; subst. simpl (stack_need _).
    eapply runs_instr; [by apply Hn|by apply Hi|apply stack_need_pos]. }
  destruct Hop as [->| ->]; apply Hrun; intros v r Hr; by eapply replaces_unary.
Qed.

(** *** Logical operators *)

(** The operand that is left of a constant one, or the constant. *)
Lemma constant_operand_emits fuel sp op x y (otherwise : LW bool) :
  let a := Ast sp (CXPR_NODE_BINARY_OP op x y) in
  logical op = true → compilable x → height x ≤ fuel → small y → emits otherwise (node_code a) →
  emits (constant_operand reg fuel rec [] 0 x (absorbing op) caller_tree y otherwise) (node_code a).
Proof.
  intros a Hop Hx Hh Hy Hw. unfold constant_operand. apply emits_constant; [done|done|]. intros o Ho.
  destruct o as [[|b| | | | | | |]|]; try done. specialize (Ho _ eq_refl).
  destruct (Bool.eqb b (absorbing op)) eqn:Hb.
  - apply eqb_prop in Hb as ->. apply emits_emit. intros base.
    eapply constant_code; [by apply E_short|apply replaces_bool].
  - eapply emits_weaken; [by apply node_emits|]. intros base seg Hn v Hv.
    apply runs_weaken with (need := stack_need y); [|simpl; lia].
    inversion Hv as [| | | | | | | |? ? ? ? ? ? ? Hl|? ? ? ? _ Hx'|? ? ? ? ? _ Hx' Hy'| | |]; subst.
    + by rewrite Hop in Hl.
    + intros code stack s. pose proof (evaluates_det reg vars pars x _ _ (es_world s) Ho Hx') as Heq.
      injection Heq as ->. by rewrite eqb_reflx in Hb.
    + by apply Hn.
Qed.

Lemma logical_inv sp op x y v :
  logical op = true → evaluates (Ast sp (CXPR_NODE_BINARY_OP op x y)) v →
  ∃ bx by_, evaluates x (VBool bx) ∧ (bx = negb (absorbing op) → evaluates y (VBool by_)) ∧
    v = VBool (if Bool.eqb bx (absorbing op) then bx else by_).
Proof.
  intros Hop Hv. inversion Hv as [| | | | | | | |? ? ? ? ? ? ? Hl|? ? ? ? _ Hx|? ? ? ? b _ Hx Hy| | |]; subst.
  - by rewrite Hop in Hl.
  - exists (absorbing op), true. split_and!; [done| |by rewrite eqb_reflx]. by destruct (absorbing op).
  - exists (negb (absorbing op)), b. split_and!; [done|done|]. by destruct (absorbing op).
Qed.

Lemma and_node_emits fuel sp x y :
  compilable x → height x ≤ fuel → small x → small y →
  emits (compile_and reg fuel rec [] 0 caller_tree x y) (node_code (Ast sp (CXPR_NODE_BINARY_OP CXPR_TOK_AND x y))).
Proof.
  intros Hc Hh Hx Hy. apply (constant_operand_emits fuel sp CXPR_TOK_AND); [done|done|done|done|].
  apply and_emits; [done|done|]. intros base sx sy Px Py v Hv.
  destruct (logical_inv sp CXPR_TOK_AND x y v eq_refl Hv) as (bx & by_ & Hbx & Hby & ->).
  replace (if Bool.eqb bx (absorbing CXPR_TOK_AND) then bx else by_) with (bx && by_) by (by destruct bx).
  apply and_runs; [|intros ->|simpl; lia].
  - eapply runs_weaken; [by apply Px|simpl; lia].
  - eapply runs_weaken; [by apply Py, Hby|simpl; lia].
Qed.

Lemma or_node_emits fuel sp x y :
  compilable x → height x ≤ fuel → small x → small y →
  emits (compile_or reg fuel rec [] 0 caller_tree x y) (node_code (Ast sp (CXPR_NODE_BINARY_OP CXPR_TOK_OR x y))).
Proof.
  intros Hc Hh Hx Hy. apply (constant_operand_emits fuel sp CXPR_TOK_OR); [done|done|done|done|].
  apply or_emits; [done|done|]. intros base sx sy Px Py v Hv.
  destruct (logical_inv sp CXPR_TOK_OR x y v eq_refl Hv) as (bx & by_ & Hbx & Hby & ->).
  replace (if Bool.eqb bx (absorbing CXPR_TOK_OR) then bx else by_) with (bx || by_) by (by destruct bx).
  apply or_runs; [|intros ->|simpl; lia].
  - eapply runs_weaken; [by apply Px|simpl; lia].
  - eapply runs_weaken; [by apply Py, Hby|simpl; lia].
Qed.

(** *** Arithmetic *)

(** The square of a basic value that is no integer is the square of a number. *)
Lemma square_number v r :
  basic v = true → (∀ i, v ≠ VInt64 i) → binary_result CXPR_TOK_STAR v v = Some r →
  ∃ d, v = VNum d ∧ r = VNum (fmul d d).
Proof.
  intros Hb Hi Hr. destruct v as [d| | | | | | | |i]; try discriminate Hb; try discriminate Hr.
  - injection Hr as <-. by exists d.
  - by destruct (Hi i).
Qed.

Lemma square_inv sp x y v :
  W → core reg x → core reg y → erase x = erase y → (∀ i, ¬ evaluates x (VInt64 i)) →
  evaluates (Ast sp (CXPR_NODE_BINARY_OP CXPR_TOK_STAR x y)) v →
  ∃ d, evaluates x (VNum d) ∧ v = VNum (fmul d d).
Proof.
  intros w Hx Hy He Hi Hv.
  inversion Hv as [| | | | | | | |? ? ? ? vx vy ? _ Hvx Hvy Hr|? ? ? ? Hl|? ? ? ? ? Hl| | |]; subst; try discriminate Hl.
  assert (Hvy' : evaluates y vx).
  { apply (evaluates_erased reg vars pars x y); [apply node_ok_names_fit, Hx|apply node_ok_names_fit, Hy|done|done]. }
  rewrite (evaluates_det reg vars pars y vy vx w Hvy Hvy') in Hr.
  destruct (square_number vx v) as (d & -> & ->); [| |done|by exists d].
  - by apply (evaluates_basic reg vars pars vars_basic pars_basic x vx w).
  - intros i ->. by apply (Hi i).
Qed.

Section square.
Context (sp : option cxpr_source_span) (x y : cxpr_expr_ast).
Hypothesis small_x : small x.
Hypothesis core_y : core reg y.
Hypothesis equal_xy : erase x = erase y.
Hypothesis no_int64 : ∀ i, ¬ evaluates x (VInt64 i).

Lemma square_code base seg :
  (∀ d, evaluates x (VNum d) → runs base seg (stack_need x) [VNum (fmul d d)]) →
  node_code (Ast sp (CXPR_NODE_BINARY_OP CXPR_TOK_STAR x y)) base seg.
Proof.
  intros Hs v Hv code stack s Hp Hr Hl.
  destruct (square_inv sp x y v (es_world s)) as (d & Hd & ->); [by destruct small_x as [[? _] _]|done..|].
  apply (Hs d Hd code stack s); [done|done|]. cbn [stack_need] in Hl. lia.
Qed.

(** A leaf is loaded and squared by one instruction. *)
Lemma leaf_square i (k : LW bool) :
  (∀ s : cst W, (let# leaf := cxpr_ir_emit_leaf_load [] true [] x in if leaf then lret true else k) s =
        cxpr_ir_emit i s) →
  (∀ d, evaluates x (VNum d) → replaces i [] (VNum (fmul d d))) →
  emits (let# leaf := cxpr_ir_emit_leaf_load [] true [] x in if leaf then lret true else k)
    (node_code (Ast sp (CXPR_NODE_BINARY_OP CXPR_TOK_STAR x y))).
Proof.
  intros Hk Hi before err w. rewrite Hk. exists [i]. split; [done|]. apply square_code. intros d Hd.
  eapply runs_weaken; [by apply runs_push, Hi|apply stack_need_pos].
Qed.

End square.

Lemma square_emits sp x y :
  small x → core reg y → erase x = erase y → (∀ i, ¬ evaluates x (VInt64 i)) →
  emits (compile_square [] rec [] 0 caller_tree x) (node_code (Ast sp (CXPR_NODE_BINARY_OP CXPR_TOK_STAR x y))).
Proof.
  intros Hx Hy He Hi. assert (Hrun : emits (node x &&! cxpr_ir_emit (instr_op CXPR_OP_SQUARE))
    (node_code (Ast sp (CXPR_NODE_BINARY_OP CXPR_TOK_STAR x y)))).
  { eapply emits_land; [by apply node_emits|by apply (emits_emit _ (λ _ seg, seg = [instr_op CXPR_OP_SQUARE]))|].
    intros base seg seg' Hn ->. apply square_code; [done..|]. intros d Hd.
    eapply runs_instr; [by apply Hn|apply replaces_square|apply stack_need_pos]. }
  unfold compile_square. pose proof Hx as [[[[Hnode _]%ast_all_inv _] _] _].
  destruct x as [sx d]; destruct d; try done; try exact Hrun.
  - eapply leaf_square; [done..|]. intros d Hd. inversion Hd; subst. by apply replaces_variable_square.
  - eapply leaf_square; [done..|]. intros d Hd. inversion Hd; subst. by apply replaces_param_square.
Qed.

Lemma binary_emits fuel sp op x y :
  compilable (Ast sp (CXPR_NODE_BINARY_OP op x y)) → height x ≤ fuel → small x → small y →
  emits (compile_binary reg [] fuel rec [] 0 caller_tree op x y) (node_code (Ast sp (CXPR_NODE_BINARY_OP op x y))).
Proof.
  intros Hc Hh Hx Hy. destruct (compilable_node reg vars pars _ Hc) as [Hop Hsq].
  assert (Hplain : logical op = false → ∀ opcode, binary_opcode op = Some opcode →
    emits (node x &&! node y &&! cxpr_ir_emit (instr_op opcode)) (node_code (Ast sp (CXPR_NODE_BINARY_OP op x y)))).
  { intros Hl opcode Ho. apply (emits_weaken _ (λ base seg, ∃ sx sy, seg = sx ++ (sy ++ [instr_op opcode]) ∧
      node_code x base sx ∧ node_code y (base + length sx) sy)).
    - eapply emits_land; [by apply node_emits| |].
      + eapply emits_land; [by apply node_emits|by apply (emits_emit _ (λ _ seg, seg = [instr_op opcode]))|].
        intros base seg seg' Hn ->. instantiate (1 := λ base seg, ∃ sy, seg = sy ++ [instr_op opcode] ∧ node_code y base sy). by exists seg.
      + intros base sx seg Hnx (sy & -> & Hny). by exists sx, sy.
    - intros base seg (sx & sy & -> & Hnx & Hny) v Hv.
      inversion Hv as [| | | | | | | |? ? ? ? vx vy ? _ Hvx Hvy Hr|? ? ? ? Hl'|? ? ? ? ? Hl'| | |]; subst;
        try (by rewrite Hl in Hl'). rewrite app_assoc.
      eapply (runs_instr _ _ _ _ [vx; vy]); [|by eapply replaces_binary|simpl; lia].
      exact (runs_app base sx sy _ _ [vx] [vy] (Hnx vx Hvx) (Hny vy Hvy)). }
  destruct op; try (destruct Hop as [Hop|[? Hop]]; discriminate Hop); cbn [compile_binary];
    try (by apply Hplain); try (by apply and_node_emits; destruct Hx); try (by apply or_node_emits; destruct Hx).
  destruct (tok_eqb _ _ && _) eqn:He; [|by apply Hplain].
  apply andb_true_iff in He as [_ He]. destruct (Hsq eq_refl He) as [Hex Hni].
  apply square_emits; [done|by destruct Hy as [[? _] _]|done|done].
Qed.

(** *** Calls *)

Lemma call_inv sp name args names e v :
  cxpr_expr_ast_named_args_present names = false → conditional name args = false →
  registry_lookup reg name = Some e → evaluates (Ast sp (CXPR_NODE_FUNCTION_CALL name args names)) v →
  ∃ vs, evaluates_all args vs ∧ applies e vs v ∧ length vs ≤ CXPR_MAX_CALL_ARGS.
Proof.
  intros Hn Hc He Hv.
  inversion Hv as [| | | | | | | | | | | |? ? ? ? e' c x y ? ? He' Hb Hif|? ? ? ? e' ordered vs ? He' Hb ? Hall Happ]; subst.
  - apply (bound_unnamed _ _ _ _ Hn) in Hb. subst args. discriminate Hc.
  - rewrite He in He'. injection He' as <-. pose proof (bound_unnamed _ _ _ _ Hn Hb). subst ordered. exists vs. split_and!; [done|done|].
    rewrite (evaluates_all_length reg vars pars args vs Hall).
    rewrite bind_args_eq in Hb. unfold bind_result in Hb. case_match eqn:Hl; [done|]. by apply Nat.ltb_ge in Hl.
Qed.

Lemma replaces_call e a opcode vs v :
  plain_entry e → compiled_entry reg e → applies e vs v → length vs ≤ CXPR_MAX_CALL_ARGS →
  ast_all node_ok a → evaluates a v →
  opcode = CXPR_OP_CALL_FUNC ∨ opcode = native_opcode e (length vs) →
  replaces (instr_call opcode e caller_tree a (length vs)) vs v.
Proof.
  intros Hp Hce Happ Hl Ha Hv Hop.
  assert (Hfunc : replaces (instr_call CXPR_OP_CALL_FUNC e caller_tree a (length vs)) vs v).
  { intros code ip stack s Hr Hs. by apply step_call_func_runs. }
  destruct Hop as [->| ->]; [done|]. unfold native_opcode.
  destruct (fe_native e) as [[k fn]|] eqn:Hn; [|done].
  pose proof Happ as [Harity Hcall]. rewrite Hn in Hcall. destruct Hcall as (ds & d & -> & -> & Hd).
  destruct (pl_native e Hp k fn Hn) as (Hmin & Hmax & _). rewrite length_fmap in *.
  assert (Hk : length ds = native_arity k) by lia.
  rewrite Hk in Hfunc |- *. destruct k; simpl; [exact Hfunc|..];
    intros code ip stack s Hr Hs; by eapply step_native_runs.
Qed.

Lemma call_code sp name args names e opcode base seg :
  let a := Ast sp (CXPR_NODE_FUNCTION_CALL name args names) in
  compilable a → conditional name args = false → registry_lookup reg name = Some e → compiled_entry reg e →
  opcode = CXPR_OP_CALL_FUNC ∨ opcode = native_opcode e (length args) →
  list_code args base seg →
  node_code a base (seg ++ [instr_call opcode e caller_tree a (length args)]).
Proof.
  intros a Ha Hc He Hce Hop Hl v Hv. destruct (compilable_node reg vars pars a Ha) as (Hn & _).
  destruct (call_inv sp name args names e v Hn Hc He Hv) as (vs & Hall & Happ & H32). subst a. rewrite stack_need_call.
  pose proof (evaluates_all_length reg vars pars args vs Hall) as Hlen. rewrite <- Hlen in *.
  eapply (runs_instr base seg _ _ vs); [eapply runs_weaken; [by apply Hl|lia]| |lia].
  destruct Ha as [Hcore _]. pose proof (core_plain reg sp name args names e Hcore He). destruct Hcore as [_ ?].
  by apply replaces_call.
Qed.

Lemma entry_call_emits fuel sp name args names e :
  let a := Ast sp (CXPR_NODE_FUNCTION_CALL name args names) in
  compilable a → Forall (λ a, small a) args → conditional name args = false →
  registry_lookup reg name = Some e → compiled_entry reg e →
  emits (compile_entry_call reg fuel rec [] 0 caller_tree a e name args) (node_code a).
Proof.
  intros a Ha Hs Hc He Hce. pose proof Ha as [Hcore _]. pose proof (core_plain reg sp name args names e Hcore He) as Hp.
  unfold compile_entry_call. rewrite (pl_ast e Hp). simpl (has _).
  destruct (_ && (1 <=? _) && _).
  { apply replaced_emits; [done|]. intros base seg Hl. apply call_code; auto. }
  rewrite (pl_handler e Hp), (pl_fields e Hp). simpl (has _ && _).
  assert (Hb : fe_defined_body e = None) by (pose proof (pl_defined e Hp) as Hd; unfold is_defined in Hd; by destruct (fe_defined_body e)).
  rewrite Hb. pose proof (ce_callable reg e Hce) as Hcall. unfold no_scalar_func in Hcall.
  replace (has (fe_sync_func e) || has (fe_value_func e) || has (fe_typed_func e)) with true
    by (destruct (fe_sync_func e), (fe_value_func e), (fe_typed_func e); done).
  simpl (_ && _). apply replaced_emits; [done|]. intros base seg Hl. apply call_code; auto.
Qed.

Lemma intrinsic_emits sp name args names e op :
  let a := Ast sp (CXPR_NODE_FUNCTION_CALL name args names) in
  compilable a → Forall (λ a, small a) args → conditional name args = false →
  registry_lookup reg name = Some e → intrinsic name (length args) = Some op →
  (∀ vs v, applies e vs v → intrinsic_result op vs = Some v) →
  emits (compile_all rec [] 0 caller_tree args &&! cxpr_ir_emit (instr_op op)) (node_code a).
Proof.
  intros a Ha Hs Hc He Hi Hagree. destruct (compilable_node reg vars pars a Ha) as (Hn & _).
  apply replaced_emits; [done|]. intros base seg Hl v Hv.
  destruct (call_inv sp name args names e v Hn Hc He Hv) as (vs & Hall & Happ & _). subst a. rewrite stack_need_call.
  eapply (runs_instr base seg _ _ vs); [eapply runs_weaken; [by apply Hl|lia]| |lia].
  eapply replaces_intrinsic; [exact Hi|by apply Hagree].
Qed.

(** A condition with its branches, as a ternary or as a call. *)
Lemma branches_emits (a c x y : cxpr_expr_ast) :
  small c → small x → small y →
  (∀ v, evaluates a v → ∃ b, evaluates c (VBool b) ∧ evaluates (if b then x else y) v) →
  stack_need c ≤ stack_need a → stack_need x ≤ stack_need a → stack_need y ≤ stack_need a →
  emits (compile_conditional rec [] 0 caller_tree c x y) (node_code a).
Proof.
  intros Hc Hx Hy Hinv Hnc Hnx Hny. apply conditional_emits; [done|done|done|].
  intros base sc sx sy Pc Px Py v Hv. destruct (Hinv v Hv) as (b & Hb & Hbv).
  apply (conditional_runs _ _ _ _ _ b); [by eapply runs_weaken; [apply Pc|]|].
  destruct b; [by eapply runs_weaken; [apply Px|]|by eapply runs_weaken; [apply Py|]].
Qed.

Lemma call_emits fuel sp name args names :
  let a := Ast sp (CXPR_NODE_FUNCTION_CALL name args names) in
  compilable a → Forall (λ a, small a) args →
  emits (compile_call reg fuel rec [] 0 caller_tree a name args names) (node_code a).
Proof.
  intros a Ha Hs. destruct (compilable_node reg vars pars a Ha) as (Hn & e & He & Hce & Hagree).
  unfold compile_call. rewrite Hn.
  assert (Hplain : conditional name args = false → emits
    match registry_lookup reg name with
    | None =>
        if cxpr_ir_is_special_builtin_name name then cxpr_ir_emit (instr_call_ast caller_tree a)
        else lower_error CXPR_ERR_UNKNOWN_FUNCTION (cxpr_ir_unknown_function_message name)
    | Some e =>
        match intrinsic name (length args) with
        | Some opcode => compile_all rec [] 0 caller_tree args &&! cxpr_ir_emit (instr_op opcode)
        | None => compile_entry_call reg fuel rec [] 0 caller_tree a e name args
        end
    end (node_code a)).
  { intros Hc. rewrite He. destruct (intrinsic name (length args)) as [op|] eqn:Hi.
    - eapply intrinsic_emits; eauto.
    - by apply entry_call_emits. }
  unfold conditional in Hplain. destruct args as [|c [|x [|y [|]]]];
    try (by apply Hplain; rewrite andb_false_r).
  destruct (String.eqb name "if") eqn:Hif; [|by apply Hplain]. clear Hplain.
  apply Forall_cons in Hs as [? [? [? _]%Forall_cons]%Forall_cons]. apply String.eqb_eq in Hif as ->.
  apply branches_emits; try done; subst a; rewrite ?stack_need_call; cbn [stack_needs]; try lia.
  intros v Hv. inversion Hv as [| | | | | | | | | | | |? ? ? ? ? ? ? ? b ? ? Hb ? Hc Hbv|? ? ? ? ? ? ? ? ? Hb Hcond]; subst;
    apply (bound_unnamed _ _ _ _ Hn) in Hb; [injection Hb as -> -> ->; by exists b|subst; discriminate Hcond].
Qed.

Lemma step_emits fuel a :
  compilable a → height a ≤ n → height a ≤ fuel →
  emits (compile_step reg [] fuel rec [] 0 caller_tree a) (node_code a).
Proof.
  intros Ha Hh Hf.
  assert (Hs : Forall (λ a, small a) (children (ast_node a))).
  { pose proof (compilable_children reg vars pars a Ha) as H1. pose proof (height_children a) as H2.
    apply Forall_and. split; [done|]. eapply Forall_impl; [exact H2|]. simpl. lia. }
  pose proof Ha as [[[Hnode _]%ast_all_inv _] _].
  unfold compile_step. apply emits_constant; [done|done|]. intros o Ho. apply push_constant_emits; [done|]. clear o Ho.
  destruct a as [sp d]. destruct d; try done; cbn [ast_node children] in *.
  - apply emits_emit. intros base. eapply constant_code; [constructor|apply replaces_number].
  - apply emits_emit. intros base. eapply constant_code; [constructor|apply replaces_int64].
  - apply emits_emit. intros base. eapply constant_code; [constructor|apply replaces_bool].
  - by apply array_emits.
  - apply emits_emit. intros base. eapply constant_code; [constructor|apply replaces_string].
  - apply emits_emit. intros base v Hv. inversion Hv; subst. by apply runs_push, replaces_variable.
  - apply emits_emit. intros base v Hv. inversion Hv; subst. by apply runs_push, replaces_param.
  - pose proof (height_children (Ast sp (CXPR_NODE_BINARY_OP op left right))) as Hch. cbn [children ast_node] in Hch.
    apply Forall_cons in Hch as [Hl _]. apply Forall_cons in Hs as [? [? _]%Forall_cons].
    apply binary_emits; [done|lia|done|done].
  - apply Forall_cons in Hs as [? _]. apply unary_emits; [done|]. exact (compilable_node reg vars pars _ Ha).
  - by apply call_emits.
  - apply Forall_cons in Hs as [? [? [? _]%Forall_cons]%Forall_cons].
    apply branches_emits; try done; cbn [stack_need]; try lia.
    intros v Hv. inversion Hv; subst. by eexists.
Qed.
End lowering.

Lemma compile_node_emits fuel a :
  (∀ name v, vars name = Some v → basic v = true) → (∀ name v, pars name = Some v → basic v = true) →
  compilable reg vars pars a → height a ≤ fuel →
  emits (cxpr_ir_compile_node reg [] fuel [] 0 caller_tree a) (node_code a).
Proof.
  intros Hvars Hpars. revert a. induction fuel as [|fuel IH]; intros a Ha Hh; [pose proof (height_pos a); lia|].
  apply (step_emits (S fuel)); [|done|done|done|done|done]. intros b Hb Hbh. apply IH; [done|lia].
Qed.
End runs.

(** ** Programs *)

Lemma validated_kind_total kind code : ∃ kind', validated_kind kind code = Done kind'.
Proof.
  unfold validated_kind. destruct kind; [by eexists| |].
  - destruct (validate_decides scalar_transfer scalar_enqueue scalar_enqueue_ok 0
      (IR.mk_program (Some (fast_view <$> code)))) as (b & Hb & _).
    unfold cxpr_ir_validate_scalar_fast_program. rewrite Hb. by eexists.
  - destruct (validate_decides bool_transfer cxpr_ir_bool_fast_enqueue bool_enqueue_ok (mk_fast_state 0 0)
      (IR.mk_program (Some (fast_view <$> code)))) as (b & Hb & _).
    unfold cxpr_ir_validate_bool_fast_program. rewrite Hb. by eexists.
Qed.

Section programs.
Context {L W : Type} `{!EvalContext L} `{!IRContext L} `{!EvalContextLaws L} `{!IRContextLaws L}.
Context `{!HostCode W} `{!HexFormat} `{!EvalHost L W}.
Context (reg : cxpr_registry) (vars pars : string → option cxpr_value).
Hypothesis vars_basic : ∀ name v, vars name = Some v → basic v = true.
Hypothesis pars_basic : ∀ name v, pars name = Some v → basic v = true.
Implicit Types s : est L W.

Lemma compile_runs fx fuel a w :
  compilable reg vars pars a → height a ≤ fuel →
  ∃ program seg,
    cxpr_ir_compile reg fuel caller_tree a w = Done (true, program, error_zero, w) ∧
    ip_code program = Some (seg ++ [instr_op CXPR_OP_RETURN]) ∧
    node_code (L := L) (W := W) reg vars pars fx a 0 seg.
Proof.
  intros Ha Hh. unfold cxpr_ir_compile, cxpr_ir_compile_with_locals.
  destruct (compile_node_emits reg vars pars fx fuel a vars_basic pars_basic Ha Hh [] error_zero w) as (seg & Hseg & Hcode).
  unfold land, lbind. rewrite Hseg. cbn [run_bind cxpr_ir_emit cs_code cs_err cs_world app].
  destruct (validated_kind_total (cxpr_ir_infer_fast_result_kind reg (S CXPR_IR_INFER_DEPTH_LIMIT) a)
    (seg ++ [instr_op CXPR_OP_RETURN])) as (kind & ->). cbn [run_bind].
  eexists _, seg. split_and!; [reflexivity|done|done].
Qed.

(** The return behind the code of a tree. *)
Lemma exec_runs fx steps program seg a v s :
  ip_code program = Some (seg ++ [instr_op CXPR_OP_RETURN]) → node_code reg vars pars fx a 0 seg →
  evaluates reg vars pars a v → stack_need a ≤ CXPR_IR_STACK_CAPACITY →
  ready reg vars pars (put_err error_zero s) → length seg < steps →
  ∃ s', cxpr_ir_exec_typed reg fx steps program [] s = Done (v, s') ∧
    ready reg vars pars s' ∧ frame (put_err error_zero s) s'.
Proof.
  intros Hp Hcode Hv Hneed Hr Hsteps.
  destruct (Hcode v Hv (seg ++ [instr_op CXPR_OP_RETURN]) [] (put_err error_zero s)) as (n & s' & Hn & Hrun & Hr' & Hf);
    [by exists [], [instr_op CXPR_OP_RETURN]|done|done|].
  exists s'. split; [|done]. unfold cxpr_ir_exec_typed, bind, set_err. cbn [run_bind]. rewrite Hp.
  replace steps with (n + S (steps - n - 1)) by lia. change machine_init with (mach 0 []).
  rewrite (steps_loop _ _ _ _ _ _ _ _ _ Hrun). cbn [typed_loop mach mc_ip]. simpl (0 + _).
  rewrite lookup_app_r, Nat.sub_diag by lia. reflexivity.
Qed.
End programs.

(** ** The claims *)

Section theorem.
Context {L W : Type} `{!EvalContext L} `{!IRContext L} `{!EvalContextLaws L} `{!IRContextLaws L}.
Context `{!HostCode W} `{!HexFormat} `{!EvalHost L W}.


End theorem.
