(* ===== verification/IRContexts.v ===== *)
(** * IRContexts: contexts of [src/context] under the typed executor

    [Context.v] implements the lookups of [IRTyped.v] and satisfies the laws of
    [IRCompileProofs.v].  The executor asks a chain of contexts for a boolean
    parameter, then for a string, then for a number, each up to the root, while a
    typed lookup asks context by context: the laws hold where both find the same
    value ([params_agree]). *)

From Stdlib Require Import Ascii String ZArith Lia.
From stdpp Require Import base list strings gmap fin_maps.
From S2P Require Import Prelude Float64 Types ValueCopy OpenTable Hashmap StructMap Bindings Context ContextProofs IRLookup Ast EvalState TreeEval TreeContext TreeSem TreeEvalProofs TreeContextLaws IRTyped IRCompileProofs.
Local Open Scope run_scope.
Local Open Scope nat_scope.

Section instance.
Context (addr : string → Z).

(** The walk of [cxpr_ir_lookup_cached_scalar] along the parents, without cache. *)
Fixpoint scalar_in_chain (param : bool) (chain : list cxpr_context) (name : string) : run (option float64) :=
  match chain with
  | [] => Done None
  | c :: parents =>
      let* entry := find_entry (store_of param c) name (cxpr_hash_string name) in
      match (if param then None else cxpr_context_get_local_bool c (at_name addr name)), entry with
      | Some b, _ => Done (Some (if b then fone else fzero))
      | None, Some (_, v) => Done (Some v)
      | None, None => scalar_in_chain param parents name
      end
  end.

(** The result of an attached evaluator comes first. *)
Definition lookup_scalar (param : bool) (chain : list cxpr_context) (name : string) : run (option float64) :=
  match chain with
  | [] => Undef
  | c :: _ =>
      match (if param then None else
               match expression_scope c with Some lookup => lookup name | None => None end) with
      | Some (VNum d) => Done (Some d)
      | Some (VBool b) => Done (Some (if b then fone else fzero))
      | Some _ => Done None
      | None => scalar_in_chain param chain name
      end
  end.

Fixpoint cxpr_ir_context_get_prehashed (chain : list cxpr_context) (name : string) : run (option float64) :=
  match chain with
  | [] => Done None
  | c :: parents =>
      match cxpr_context_get_local_bool c (at_name addr name) with
      | Some b => Done (Some (if b then fone else fzero))
      | None =>
          let* '(v, found) :=
            cxpr_hashmap_get_prehashed (ns_map (variables c)) name (cxpr_hash_string name) in
          if (found : bool) then Done (Some v) else cxpr_ir_context_get_prehashed parents name
      end
  end.

#[export] Instance context_ir : IRContext cxpr_context := {
  ctx_param_bool chain name := cxpr_context_get_param_bool chain (at_name addr name);
  ctx_param_string chain name := cxpr_context_get_param_string chain (at_name addr name);
  ctx_scalar := lookup_scalar;
  ctx_prehashed := cxpr_ir_context_get_prehashed
}.
End instance.

(** ** What the lookups find *)

Fixpoint bool_lookup (fs : list full_view) (name : string) : option bool :=
  match fs with
  | [] => None
  | f :: fs => p_bool f.2 !! name <or> bool_lookup fs name
  end.

Fixpoint string_lookup (fs : list full_view) (name : string) : option string :=
  match fs with
  | [] => None
  | f :: fs => p_str f.2 !! name <or> string_lookup fs name
  end.

(** The parameter [LOAD_PARAM] loads. *)
Definition loaded_param (fs : list full_view) (name : string) : option cxpr_value :=
  (VBool <$> bool_lookup fs name) <or> (VString <$> string_lookup fs name) <or>
  (VNum <$> number_lookup fs name).

Definition params_agree (fs : list full_view) : Prop :=
  ∀ name v, chain_param fs name = Some v → loaded_param fs name = Some v.

Lemma param_bool_spec chain fs name :
  Forall2 full_ok chain fs → cxpr_context_get_param_bool chain name = bool_lookup fs (name_str name).
Proof.
  induction 1 as [|c f chain fs [_ [_ [Hb Eb] _ _ _]] _ IH]; simpl; [done|].
  unfold cxpr_bool_map_get. rewrite linear_get_spec, Eb by done.
  by destruct (p_bool f.2 !! name_str name).
Qed.

Lemma param_string_spec chain fs name :
  Forall2 full_ok chain fs → cxpr_context_get_param_string chain name = string_lookup fs (name_str name).
Proof.
  induction 1 as [|c f chain fs [_ [_ _ _ [Hs Es] _]] _ IH]; simpl; [done|].
  unfold cxpr_string_map_get. rewrite linear_get_spec, Es by done.
  by destruct (p_str f.2 !! name_str name).
Qed.

Lemma param_scalar_spec addr chain fs name :
  Forall2 full_ok chain fs → scalar_in_chain addr true chain name = Done (number_lookup fs name).
Proof.
  induction 1 as [|c f chain fs [_ [[es [Hwf Hm]] _ _ _ _]] _ IH]; simpl; [done|].
  pose proof (find_entry_spec name (params c) es Hwf) as Hf. rewrite Hm in Hf.
  destruct (p_num f.2 !! name) as [v|]; [destruct Hf as (slot & -> & _)|rewrite Hf]; [done|exact IH].
Qed.

(** ** The laws *)

Section laws.
Context (addr : string → Z).

Definition chain_loads (chain : list cxpr_context) (vars pars : string → option cxpr_value) : Prop :=
  chain ≠ [] ∧ ∃ fs, Forall2 full_ok chain fs ∧ (∀ name, vars name = chain_lookup fs.*1 name) ∧
    (∀ name, pars name = chain_param fs name) ∧ params_agree fs.

Lemma scalar_of_param chain fs name :
  chain ≠ [] → Forall2 full_ok chain fs → lookup_scalar addr true chain name = Done (number_lookup fs name).
Proof. intros Hn Hc. destruct chain as [|c parents]; [done|]. by apply param_scalar_spec. Qed.

#[refine, export] Instance ir_context_laws :
    IRContextLaws cxpr_context (EvalContext0 := context_eval addr) (IRContext0 := context_ir addr)
      (EvalContextLaws0 := context_laws addr) :=
  { ctx_loads := chain_loads }.
Proof.
  - intros chain vars pars (_ & fs & Hc & Hv & Hp & _). by exists fs.
  - intros chain vars pars name (Hne & fs & Hc & Hv & Hp & Ha). simpl. unfold get_typed_owned.
    destruct (get_typed_chain chain fs (at_name addr name) Hc) as (chain' & -> & Hc').
    destruct (typed_borrowed_defined chain fs (at_name addr name) Hc) as [b ->]. cbn [run_bind].
    eexists _, chain'. split; [done|]. split; [by rewrite fst_paired|]. split; [|by exists fs].
    intros ->. inversion Hc'; subst. by inversion Hc; subst.
  - intros c parents vars pars lookup name v (_ & fs & Hc & Hv & _) Hs Hl. inversion Hc as [|? f ? fs' [[Hscope _] _] _]; subst.
    rewrite Hv. simpl in Hs |- *. unfold scoped_lookup. rewrite <- Hscope, Hs, Hl. done.
  - intros chain vars pars name v (Hne & fs & Hc & _ & Hp & Ha) Hv. rewrite Hp in Hv. apply Ha in Hv.
    simpl. rewrite (param_bool_spec chain fs _ Hc), (param_string_spec chain fs _ Hc). simpl.
    unfold loaded_param in Hv. destruct (bool_lookup fs name); [by injection Hv as <-|].
    destruct (string_lookup fs name); [by injection Hv as <-|]. simpl in Hv.
    destruct (number_lookup fs name) as [d|] eqn:Hd; [|done]. exists d.
    rewrite (scalar_of_param chain fs name Hne Hc), Hd. by injection Hv as <-.
  - intros chain vars pars name d (Hne & fs & Hc & _ & Hp & Ha) Hv. rewrite Hp in Hv. apply Ha in Hv.
    unfold loaded_param in Hv. simpl. rewrite (scalar_of_param chain fs name Hne Hc). f_equal.
    destruct (bool_lookup fs name); [discriminate|]. destruct (string_lookup fs name); [discriminate|].
    simpl in Hv. destruct (number_lookup fs name); [by injection Hv as <-|discriminate].
Defined.
End laws.
