(* ===== verification/IRExamples.v ===== *)
(** * IRExamples: compiled code on the functions of the library

    The functions [cxpr_register_math] registers may be compiled, so the theorems
    of [IRCompileProofs.v] apply to expressions over them; and inputs on which the
    compiled code and the tree evaluator differ. *)

From Stdlib Require Import Ascii String ZArith Lia SpecFloat.
From stdpp Require Import base list strings gmap fin_maps.
From S2P Require Import Prelude Float64 Types ValueCopy IR OpenTable Hashmap StructMap Bindings Context ContextProofs Lexer Ast References CallArgs Registry RegistryProofs Builtins Parser ParserProofs Define EvalSupport EvalSupportProofs Formulas ValueOps EvalState TreeEval TreeContext TreeSem TreeEvalProofs TreeContextLaws TreeExamples IRCompile IRTyped IRCompileProofs IRContexts.
Local Open Scope run_scope.
Local Open Scope nat_scope.

(** ** The functions of the library *)

Section math.
Context {W : Type} `{!HostCode W}.

(** A function whose native form and whose adapter call the same code. *)
Lemma native_compiled reg e k fn :
  registry_lookup reg (fe_name e) = Some e → no_scalar_func e = false →
  fe_native e = Some (k, fn) → fe_min_args e = native_arity k → fe_max_args e = native_arity k →
  (∀ f ds, foldable e (length ds) = Some f → length ds = native_arity k →
     ∃ d, (∀ w : W, call_sync f ds (fe_userdata e) w = Done (d, w)) ∧ ∀ w : W, call_scalar fn ds w = Done (d, w)) →
  (∀ ds d, length ds = native_arity k → (∀ w : W, call_scalar fn ds w = Done (d, w)) →
     ∀ w : W, call_entry e (VNum <$> ds) w = Done (VNum d, error_zero, w)) →
  compiled_entry (W := W) reg e.
Proof.
  intros Hl Hs Hn Hmin Hmax Hfold Hcall. constructor; [done|done| |].
  - intros f ds Hf _.
    assert (Hlen : length ds = native_arity k).
    { unfold foldable in Hf. rewrite Hmin, Hmax in Hf. repeat (case_match; try discriminate Hf).
      match goal with H : _ || _ = false |- _ => apply orb_false_iff in H as [H1 ?%Nat.ltb_ge]; apply orb_false_iff in H1 as [_ ?%Nat.ltb_ge] end. lia. }
    destruct (Hfold f ds Hf Hlen) as (d & Hd & Hd'). exists d. split; [done|].
    unfold applies. rewrite Hn, length_fmap. split; [lia|]. by exists ds, d.
  - intros vs v [Ha Happ]. rewrite Hn in Happ. destruct Happ as (ds & d & -> & -> & Hd).
    rewrite length_fmap in Ha. apply Hcall; [lia|done].
Qed.

Lemma scalar_args_numbers ds : scalar_args (VNum <$> ds) = Some ds.
Proof. induction ds as [|d ds IH]; [done|]. rewrite fmap_cons. simpl. by rewrite IH. Qed.

(** A C function on numbers without a native form. *)
Lemma sync_compiled reg e f :
  registry_lookup reg (fe_name e) = Some e → fe_native e = None → fe_sync_func e = Some f →
  fe_arg_types e = None →
  (∀ ds, ∃ d, ∀ w : W, call_sync f ds (fe_userdata e) w = Done (d, w)) →
  compiled_entry (W := W) reg e.
Proof.
  intros Hl Hn Hs Ht Hf. constructor; [done|unfold no_scalar_func; by rewrite Hs| |].
  - intros f' ds Hfold Hlen. destruct (Hf ds) as (d & Hd). exists d.
    unfold foldable in Hfold. rewrite Hs in Hfold. case_match eqn:Hc; [discriminate|]. injection Hfold as <-.
    split; [done|]. unfold applies. rewrite Hn, length_fmap.
    repeat (apply orb_false_iff in Hc as [Hc ?]). split; [split; by apply Nat.ltb_ge|]. intros w.
    unfold call_entry. rewrite length_fmap, Ht, Hs, scalar_args_numbers.
    destruct (fe_typed_func e); [done|]. destruct (fe_value_func e); [done|].
    rewrite (proj2 (Nat.ltb_ge 32 _)) by exact Hlen.
    repeat match goal with H : (_ <? _) = false |- _ => rewrite H end. simpl. by rewrite Hd.
  - intros vs v [_ Happ]. by rewrite Hn in Happ.
Qed.

(** A function without a C function on numbers is not folded. *)
Lemma typed_compiled reg e :
  registry_lookup reg (fe_name e) = Some e → no_scalar_func e = false → fe_native e = None →
  fe_sync_func e = None → compiled_entry (W := W) reg e.
Proof.
  intros Hl Hs Hn Hf. constructor; [done|done| |].
  - intros f ds Hfold. unfold foldable in Hfold. rewrite Hf in Hfold. by case_match.
  - intros vs v [_ Happ]. by rewrite Hn in Happ.
Qed.

Lemma done_inj {A} (x y : A) (w : W) : Done (x, w) = Done (y, w) → x = y.
Proof. congruence. Qed.

Ltac native_entry :=
  eapply native_compiled;
    [vm_compute; reflexivity|reflexivity|reflexivity|reflexivity|reflexivity|
     intros f [|x [|y [|z [|]]]] Hf Hlen; try discriminate Hlen; injection Hf as <-; eexists;
       split; intros w; reflexivity|
     intros [|x [|y [|z [|]]]] d Hlen Hd w; try discriminate Hlen; rewrite <- (done_inj _ d w (Hd w)); reflexivity].

Ltac sync_entry :=
  eapply sync_compiled;
    [vm_compute; reflexivity|reflexivity|reflexivity|reflexivity|intros ds; eexists; intros w; reflexivity].

Ltac typed_entry := apply typed_compiled; [vm_compute; reflexivity|reflexivity|reflexivity|reflexivity].

#[local] Opaque CXPR_PI CXPR_E.

Lemma math_compiled :
  Forall (λ e, fe_ast_func e = None → compiled_entry (W := W) math_registry e) math_entries.
Proof.
  unfold math_entries.
  repeat (apply Forall_cons; split;
    [intros Hast; first [discriminate Hast|sync_entry|typed_entry|native_entry]|]).
  apply Forall_nil_2.
Qed.

(** The opcodes agree with the registered functions, [clamp] aside. *)
Lemma sign_opcode x : of_Z (Z.b2z (fgtb x fzero) - Z.b2z (fltb x fzero)) = cxpr_sign x.
Proof. destruct x as [[]|[]| |[] m e]; vm_compute; reflexivity. Qed.

Lemma math_intrinsics (w : W) name argc op e vs v :
  intrinsic name argc = Some op → name ≠ "clamp"%string → registry_lookup math_registry name = Some e →
  applies e vs v → intrinsic_result op vs = Some v.
Proof.
  intros Hi Hc He Happ.
  assert (Hname : (name, op) ∈ [("sqrt"%string, CXPR_OP_SQRT); ("abs"%string, CXPR_OP_ABS); ("pow"%string, CXPR_OP_POW);
    ("sign"%string, CXPR_OP_SIGN); ("floor"%string, CXPR_OP_FLOOR); ("ceil"%string, CXPR_OP_CEIL); ("round"%string, CXPR_OP_ROUND)]).
  { clear He Happ. unfold intrinsic in Hi. cbv zeta beta in Hi.
    repeat match type of Hi with
    | (if ?b then Some _ else _) = _ =>
        destruct b eqn:Hb; [apply andb_true_iff in Hb as [Hb%String.eqb_eq _]; injection Hi as <-; subst name|clear Hb]
    end; try discriminate Hi; try (by destruct Hc); repeat constructor. }
  clear Hi Hc.
  repeat (apply elem_of_cons in Hname as [Hname|Hname]; [injection Hname as -> ->|]); [..|clear He; by apply elem_of_nil in Hname].
  all: vm_compute in He; injection He as <-; destruct Happ as [Harity (ds & d & -> & -> & Hd)];
    rewrite length_fmap in Harity; destruct ds as [|x [|y [|]]]; simpl in Harity; try lia.
  all: rewrite <- (done_inj _ d w (Hd w)); try reflexivity.
  simpl. by rewrite sign_opcode.
Qed.

(** A sufficient test for [compiled_node]. *)
Definition math_compiled_node (a : cxpr_expr_ast) : bool :=
  match ast_node a with
  | CXPR_NODE_UNARY_OP op _ => match op with CXPR_TOK_MINUS | CXPR_TOK_NOT => true | _ => false end
  | CXPR_NODE_BINARY_OP op x y =>
      (logical op || has (binary_opcode op)) && negb (tok_eqb op CXPR_TOK_STAR && cxpr_ir_ast_equal x y)
  | CXPR_NODE_FUNCTION_CALL name _ names =>
      negb (cxpr_expr_ast_named_args_present names) && has (registry_lookup math_registry name) &&
      negb (existsb (String.eqb name) ["contains"; "within"; "clamp"]%string)
  | _ => true
  end.

Lemma math_compiled_lookup name e :
  registry_lookup math_registry name = Some e → name ≠ "contains"%string → name ≠ "within"%string →
  compiled_entry (W := W) math_registry e.
Proof.
  intros He Hc Hw. apply math_lookup in He as [He Hname]. apply (proj1 (Forall_forall _ _) math_compiled e He).
  destruct (proj1 (Forall_forall _ _) math_tree_functions e He) as [H|[H|H]]; [exact H|..]; rewrite H in Hname; congruence.
Qed.

Lemma math_compiled_ok (w : W) vars pars a :
  math_compiled_node a = true → compiled_node (W := W) math_registry vars pars a.
Proof.
  unfold math_compiled_node, compiled_node. destruct (ast_node a); try (intros _; exact I).
  - intros [Ho Hs]%andb_true_iff. split.
    + apply orb_true_iff in Ho as [Ho|Ho]; [by left|right]. by destruct (binary_opcode op).
    + intros -> He. by rewrite He in Hs.
  - destruct op; try discriminate; auto.
  - intros [[Hn Hl]%andb_true_iff Hb]%andb_true_iff. apply negb_true_iff in Hn, Hb. split; [exact Hn|].
    destruct (registry_lookup math_registry name) as [e|] eqn:He; [|discriminate Hl].
    cbn [existsb] in Hb. apply orb_false_iff in Hb as [Hb1%String.eqb_neq [Hb2%String.eqb_neq [Hb3%String.eqb_neq _]%orb_false_iff]%orb_false_iff].
    exists e. split; [reflexivity|]. split; [exact (math_compiled_lookup name e He Hb1 Hb2)|].
    intros op vs v Hi Happ. exact (math_intrinsics w name _ op e vs v Hi Hb3 He Happ).
Qed.
End math.

Ltac compiled_tree :=
  apply ast_all_node; [apply (math_compiled_ok tt); vm_compute; reflexivity|];
  cbn [ast_node children]; repeat (apply Forall_cons; split; [compiled_tree|]); apply Forall_nil_2.

(** ** An expression *)

#[local] Existing Instance example_host.
#[local] Existing Instance example_contexts.
#[local] Existing Instance example_callbacks.
#[local] Existing Instance print_hex_format.
#[local] Instance example_lookups : IRContext cxpr_context := context_ir one_address.
#[local] Instance example_laws : EvalContextLaws cxpr_context := context_laws one_address.
#[local] Instance example_ir_laws : IRContextLaws cxpr_context := ir_context_laws one_address.

Definition compiled_tree : cxpr_expr_ast :=
  Eval vm_compute in tree_of "x < 9i64 and not (max(2, abs(-1.5)) == 3)".

Lemma compiled_tree_ok vars pars : compilable (W := unit) math_registry vars pars compiled_tree.
Proof.
  split; [split|].
  - unfold compiled_tree. math_tree.
  - repeat (constructor || discriminate).
  - unfold compiled_tree. compiled_tree.
Qed.

Abbreviation x_vars := (chain_lookup [int64_full.1]).
Abbreviation no_pars := (chain_param [int64_full]).

Lemma x_vars_basic name v : x_vars name = Some v → basic v = true.
Proof.
  intros Hv. unfold chain_lookup, scoped_lookup, view_lookup in Hv. simpl in Hv. rewrite !lookup_empty in Hv.
  destruct (decide (name = "x"%string)) as [->|Hn]; [by injection Hv as <-|by rewrite lookup_singleton_ne in Hv].
Qed.

Lemma no_pars_none name : no_pars name = None.
Proof.
  unfold chain_param, param_lookup, dotted_lookup. simpl. rewrite !lookup_empty.
  destruct (dotted_name name) as [[]|]; [by rewrite lookup_empty|done].
Qed.

Lemma x_loads : ctx_loads [int64_context] x_vars no_pars.
Proof.
  split; [done|]. exists [int64_full]. split_and!; [constructor; [apply int64_full_ok|constructor]|done|done|].
  intros name v Hv. by rewrite no_pars_none in Hv.
Qed.

Definition two : float64 := Eval vm_compute in strtod "2".
Definition one_and_half : float64 := Eval vm_compute in strtod "1.5".

Lemma compiled_tree_value : evaluates (W := unit) math_registry x_vars no_pars compiled_tree (VBool true).
Proof.
  unfold compiled_tree. apply E_logical; [reflexivity| |].
  - eapply E_binary with (vx := VInt64 7); [reflexivity|constructor; reflexivity|constructor|vm_compute; reflexivity].
  - eapply E_unary with (v := VBool false); [|reflexivity].
    eapply E_binary with (vx := VNum two); [reflexivity| |constructor|vm_compute; reflexivity].
    eapply E_call with (vs := [VNum two; VNum one_and_half]); [vm_compute; reflexivity|reflexivity|reflexivity| |].
    + constructor; [constructor|]. constructor; [|constructor].
      eapply E_call with (vs := [VNum (fneg one_and_half)]); [vm_compute; reflexivity|reflexivity|reflexivity| |].
      * constructor; [eapply E_unary; [constructor|reflexivity]|constructor].
      * split; [simpl; lia|]. exists [fneg one_and_half], one_and_half.
        split_and!; [reflexivity|reflexivity|intros w; vm_compute; reflexivity].
    + split; [simpl; lia|]. intros w. vm_compute. reflexivity.
Qed.

(** ** Witnesses *)



(** ** Inputs on which the evaluators differ *)

(** Compile and run a text where [a] is -3, after some functions were defined. *)
Definition compile_and_run (defs : list string) (r : cxpr_registry) (source : string)
    : run (cxpr_value * cxpr_error_code) :=
  let* r := define_all defs r in
  let* c := cxpr_context_set (env_at 77) (cxpr_context_new 1 2) (at_name one_address "a") (of_Z (-3)) in
  let* '(ok, program, err, _) := cxpr_ir_compile r 50 caller_tree (tree_of source) tt in
  if (ok : bool) then
    let* '(v, s) := cxpr_ir_exec_typed r 50 100 program [] (state_of c) in Done (v, err_code (es_err s))
  else Done (VNum fnan, err_code err).

Definition evaluate_tree (defs : list string) (r : cxpr_registry) (source : string)
    : run (cxpr_value * cxpr_error_code) :=
  let* '(v, err) := evaluate defs r source in Done (fst v, err_code err).

(** The clamp opcode takes its bounds in the order given; the registered function
    swaps bounds that are the wrong way round. *)
Lemma clamp_opcode_keeps_bounds :
  compile_and_run [] math_registry "clamp(a + 5, 3, 1)" = Done (VNum (of_Z 1), CXPR_OK) ∧
  evaluate_tree [] math_registry "clamp(a + 5, 3, 1)" = Done (VNum (of_Z 2), CXPR_OK).
Proof. split; vm_compute; reflexivity. Qed.

(** An [and] with a constant true on its left is compiled to its right operand,
    whose type is then not checked. *)
Lemma true_and_skips_the_check :
  compile_and_run [] math_registry "true and 5" = Done (VNum (of_Z 5), CXPR_OK) ∧
  evaluate_tree [] math_registry "true and 5" = Done (VNum fnan, CXPR_ERR_TYPE_MISMATCH).
Proof. split; vm_compute; reflexivity. Qed.

(** The opcodes of the built-in functions are chosen by name, so that a program's
    own definition of such a name is used by the tree evaluator only. *)
Lemma redefined_builtin_ignored :
  compile_and_run ["abs(x) => 7"] math_registry "abs(a)" = Done (VNum (of_Z 3), CXPR_OK) ∧
  evaluate_tree ["abs(x) => 7"] math_registry "abs(a)" = Done (VNum (of_Z 7), CXPR_OK).
Proof. split; vm_compute; reflexivity. Qed.

(** A call of an unknown function is an error of the compiler, also in a branch
    that is not taken. *)
Lemma unknown_function_rejected_early :
  compile_and_run [] math_registry "a > 0 ? nosuch(1) : 2" = Done (VNum fnan, CXPR_ERR_UNKNOWN_FUNCTION) ∧
  evaluate_tree [] math_registry "a > 0 ? nosuch(1) : 2" = Done (VNum (of_Z 2), CXPR_OK).
Proof. split; vm_compute; reflexivity. Qed.

(** A square is one instruction that takes a double, a product also takes int64. *)
Lemma square_rejects_int64 :
  compile_and_run ["sq(x) => x * x"] math_registry "sq(3i64)" = Done (VNum fnan, CXPR_ERR_TYPE_MISMATCH) ∧
  evaluate_tree ["sq(x) => x * x"] math_registry "sq(3i64)" = Done (VInt64 9, CXPR_OK).
Proof. split; vm_compute; reflexivity. Qed.

(** Eight functions, each calling the one before. *)
Definition chain_defs : list string :=
  ["f1(x) => x + 1"; "f2(x) => f1(x) + 1"; "f3(x) => f2(x) + 1"; "f4(x) => f3(x) + 1"; "f5(x) => f4(x) + 1";
   "f6(x) => f5(x) + 1"; "f7(x) => f6(x) + 1"; "f8(x) => f7(x) + 1"; "f9(x) => f8(x) + 1"]%string.

(** Eight levels of functions are inlined and the two evaluators agree; the
    ninth is called through an instruction that evaluates the call's own arguments,
    where the inlined functions' parameters have no values. *)
Theorem deep_inlining_loses_arguments :
  compile_and_run chain_defs math_registry "f8(a)" = Done (VNum (of_Z 5), CXPR_OK) ∧
  evaluate_tree chain_defs math_registry "f8(a)" = Done (VNum (of_Z 5), CXPR_OK) ∧
  compile_and_run chain_defs math_registry "f9(a)" = Done (VNum fnan, CXPR_ERR_UNKNOWN_IDENTIFIER) ∧
  evaluate_tree chain_defs math_registry "f9(a)" = Done (VNum (of_Z 6), CXPR_OK).
Proof. split_and!; vm_compute; reflexivity. Qed.
