(* ===== verification/EvalApi.v ===== *)
(** * EvalApi: the entry points of evaluation ([src/eval/api.c],
    [src/ir/exec/api.c], [cxpr_expr_compile] of [src/ir/program.c])

    [cxpr_eval_ast_number] tries three evaluators: the compiled program of the
    tree, a walk over the tree on doubles, and the tree evaluator.
    [cxpr_eval_at_offset] evaluates an expression some samples back: a compound
    expression is rewritten, anything else goes to the resolvers of the registry.

    The compiled program a node caches is the program of the node for the version
    of the registry it is asked with ([cached_program_coherent] in
    [EvalApiProofs.v]); the functions here compile it.  The program an entry caches
    for the body of a function has no version: [prepared] says what is cached, by
    the function's name.

    A program runs at most one step per instruction: its jumps go forward. *)

From Stdlib Require Import Ascii String ZArith Lia.
From stdpp Require Import base list strings.
From S2P Require Import Prelude Float64 Types ValueCopy IR IRFast Ast References CallArgs Registry Builtins EvalSupport EvalState TreeEval TypeCheck IRCompile IRTyped.
Local Open Scope run_scope.
Local Open Scope eval_scope.
Local Open Scope nat_scope.

(** ** Contexts as the entry points use them

    [ctx_root_number] is the number bound in a context without a parent (a
    parameter when the flag is set); [ctx_no_bools] is [bools.count == 0]. *)
Class ApiContext (L : Type) : Type := {
  ctx_root_number : bool → list L → string → run (option float64);
  ctx_no_bools : L → bool
}.

(** ** The fast executors on the state of an evaluation *)

Section fast.
Context {L W : Type} `{!EvalContext L} `{!IRContext L} `{!HostCode W} `{!HexFormat} `{!EvalHost L W}.
Context (reg : cxpr_registry) (fuel : nat) (t : nat).

(** What the host leaves: a state, or undefined behaviour of the host's part. *)
Abbreviation fast_world := (run (est L W)).

Definition in_world {A} (m : M L W A) (otherwise : A) (w : fast_world) : A * fast_world :=
  match w with
  | Done s =>
      match m s with
      | Done (x, s) => (x, Done s)
      | OutOfFuel => (otherwise, OutOfFuel)
      | Undef => (otherwise, Undef)
      end
  | OutOfFuel => (otherwise, OutOfFuel)
  | Undef => (otherwise, Undef)
  end.

Definition scalar_callback (fn : scalar_ptr) (args : list float64) : fast_world → float64 * fast_world :=
  in_world (on_world (call_scalar fn args)) fnan.

Definition fast_entry (e : cxpr_func_entry) : IR.cxpr_func_entry fast_world :=
  IR.mk_func
    ((λ f args, in_world (on_world (call_sync f args (fe_userdata e))) fnan) <$> fe_sync_func e)
    ((λ f args, in_world (on_world (call_value_func f args (fe_userdata e))) (VNum fnan)) <$> fe_value_func e)
    (has (fe_typed_func e))
    match fe_native e with
    | Some (NATIVE_NULLARY, fn) => CXPR_NATIVE_KIND_NULLARY (scalar_callback fn [])
    | Some (NATIVE_UNARY, fn) => CXPR_NATIVE_KIND_UNARY (λ a, scalar_callback fn [a])
    | Some (NATIVE_BINARY, fn) => CXPR_NATIVE_KIND_BINARY (λ a b, scalar_callback fn [a; b])
    | Some (NATIVE_TERNARY, fn) => CXPR_NATIVE_KIND_TERNARY (λ a b c, scalar_callback fn [a; b; c])
    | None => CXPR_NATIVE_KIND_NONE
    end
    (fe_return_type e).

Definition fast_instr (i : ir_instr) : IR.cxpr_ir_instr fast_world :=
  IR.mk_instr (ii_op i) (ii_name i)
    match ii_payload i with pay_tree _ a => Some a | _ => None end
    (fast_entry <$> ii_func i)
    match ii_operand i with op_value d => d | _ => fzero end
    match ii_operand i with op_hash h => h | _ => 0%Z end
    (ii_index i).

(** The instruction of a call with its entry, which is the one of the call's name. *)
Definition call_instr (i : IR.cxpr_ir_instr fast_world) : option ir_instr :=
  match ir_payload i, ir_func i with
  | Some a, Some _ =>
      match ast_node a with
      | CXPR_NODE_FUNCTION_CALL name _ _ =>
          Some (mk_ir (ir_op i) (ir_name i) None (pay_tree t a) (registry_lookup reg name) op_none)
      | _ => None
      end
  | _, _ => None
  end.

Definition fast_defined (i : IR.cxpr_ir_instr fast_world) (args : list cxpr_value)
    : M L W (cxpr_value + cxpr_error) :=
  match ir_payload i, e ← call_instr i; ii_func e with
  | Some a, Some e =>
      let! v := cxpr_ir_call_defined_scalar reg fuel e t a args in
      let! bad := failing in
      if bad then let! err := get_err in ret (inr err) else ret (inl v)
  | _, _ => undef
  end.

#[export] Instance est_fast_host : FastHost fast_world := {
  lookup_scalar param _ i :=
    in_world (match ir_name i with
              | Some name => λ s, lift (ctx_scalar param (es_ctx s) name) s
              | None => undef
              end) None;
  IRFast.cxpr_ir_call_memo_get i :=
    in_world (match call_instr i with
              | Some i => IRTyped.cxpr_ir_call_memo_get i
              | None => ret None
              end) None;
  IRFast.cxpr_ir_call_memo_set i v w :=
    snd (in_world (match call_instr i with
                   | Some i => IRTyped.cxpr_ir_call_memo_set i v
                   | None => ret tt
                   end) tt w);
  IRFast.cxpr_ir_call_defined_scalar i args := in_world (fast_defined i args) (inr error_zero);
  pow a b := libm "pow" [a; b]
}.

Definition fast_program (p : ir_program) : IR.cxpr_ir_program fast_world :=
  IR.mk_program (map fast_instr <$> ip_code p).

Definition program_steps (p : ir_program) : nat := length (default [] (ip_code p)).

Definition run_scalar_fast (p : ir_program) (locals : list float64) : M L W float64 :=
  λ s, let* r := cxpr_ir_exec_scalar_fast (program_steps p) (fast_program p) (Done s) locals in
       let* s := sr_world r in
       Done (sr_value r, put_err (sr_error r) s).

(** [None] is [false]. *)
Definition run_bool_fast (p : ir_program) (locals : list float64) : M L W (option bool) :=
  λ s, let* r := cxpr_ir_exec_bool_fast locals (program_steps p) (fast_program p) (Done s) true in
       let* s := br_world r in
       Done (br_value r, put_err (br_error r) s).
End fast.

(** ** Programs ([src/ir/program.c], [src/ir/exec/api.c]) *)

(** What the entry of a defined function has cached: nothing, a failed
    compilation, or a program. *)
Inductive prepared_program : Type := not_prepared | prepare_failed | prepared_as (p : ir_program).

Section api.
Context {L W : Type} `{!EvalContext L} `{!IRContext L} `{!ApiContext L} `{!HostCode W} `{!HexFormat}.
Context `{!EvalHost L W}.
Context (reg : cxpr_registry) (prepared : string → prepared_program).

(** The tree is copied: its nodes get a number of their own.  [None] is NULL. *)
Definition cxpr_expr_compile (fuel : nat) (t : nat) (a : cxpr_expr_ast) : M L W (option ir_program) :=
  set_err error_zero ;;
  let! checked := lift (cxpr_typecheck (Some a) reg) in
  match checked with
  | inr err => set_err err ;; ret None
  | inl _ =>
      let! '(ok, program, err) := on_world (λ w,
        let* '(ok, program, err, w) := cxpr_ir_compile reg fuel t a w in Done ((ok, program, err), w)) in
      set_err err ;; ret (if (ok : bool) then Some program else None)
  end.

Definition prepared_result (p : prepared_program) : option ir_program :=
  match p with prepared_as p => Some p | _ => None end.

(** The program of a function's body; [None] is [false]. *)
Definition cxpr_ir_prepare_defined_program (fuel : nat) (e : cxpr_func_entry)
    : M L W (option ir_program) :=
  match fe_defined_body e with
  | Some body =>
      if negb (cxpr_ir_defined_is_scalar_only e) then ret None
      else
        match prepared (fe_name e) with
        | not_prepared =>
            let! '(ok, program, err) := on_world (λ w,
              let* '(ok, program, err, w) :=
                cxpr_ir_compile_with_locals reg fuel registry_tree body (fe_defined_param_names e) w in
              Done ((ok, program, err), w)) in
            set_err err ;; ret (if (ok : bool) then Some program else None)
        | p => ret (prepared_result p)
        end
  | None => ret None
  end.

(** [err] is NULL: the record of the caller stays. *)
Definition without_err {A} (m : M L W A) : M L W A :=
  let! err := get_err in let! x := m in set_err err ;; ret x.

Definition not_a_double : M L W unit :=
  put_error CXPR_ERR_TYPE_MISMATCH "Expression did not evaluate to double".

Definition is_double_program (p : ir_program) : bool :=
  match ip_fast_result_kind p with CXPR_IR_RESULT_DOUBLE => true | _ => false end.

Definition cxpr_ir_exec_with_locals (fuel t : nat) (p : ir_program) (locals : list float64)
    : M L W float64 :=
  if is_double_program p then run_scalar_fast reg fuel t p locals
  else
    let! v := cxpr_ir_exec_typed reg fuel (program_steps p) p locals in
    unless_failing fnan
      (match v with
       | VNum d => ret d
       | _ => not_a_double ;; ret fnan
       end).

Definition cxpr_ir_exec_value_with_locals (fuel t : nat) (p : ir_program) (locals : list float64)
    : M L W cxpr_value :=
  match ip_fast_result_kind p with
  | CXPR_IR_RESULT_DOUBLE => let! d := run_scalar_fast reg fuel t p locals in ret (VNum d)
  | CXPR_IR_RESULT_BOOL =>
      let! b := run_bool_fast reg fuel t p locals in
      ret match b with Some b => VBool b | None => VNum fnan end
  | CXPR_IR_RESULT_UNKNOWN => cxpr_ir_exec_typed reg fuel (program_steps p) p locals
  end.

Definition cxpr_ir_exec (fuel t : nat) (p : ir_program) : M L W float64 :=
  cxpr_ir_exec_with_locals fuel t p [].

Definition cxpr_ir_program_is_bare_identifier (p : ir_program) : bool :=
  match ip_code p with
  | Some [i; j] =>
      match ii_op i, ii_op j with CXPR_OP_LOAD_VAR, CXPR_OP_RETURN => true | _, _ => false end
  | _ => false
  end.

(** The typed executor with an error record of its own, which replaces the
    caller's when the run has no error; [k] otherwise. *)
Definition typed_if_ok (fuel : nat) (p : ir_program) (k : M L W cxpr_value) : M L W cxpr_value :=
  let! err := get_err in
  let! v := cxpr_ir_exec_typed reg fuel (program_steps p) p [] in
  let! bad := failing in
  if bad then set_err err ;; k else ret v.

Definition cxpr_expr_compiled_eval_value (fuel t : nat) (p : ir_program) : M L W cxpr_value :=
  match ip_fast_result_kind p with
  | CXPR_IR_RESULT_DOUBLE =>
      let fast :=
        let! d := run_scalar_fast reg fuel t p [] in
        let! bad := failing in
        if bad then typed_if_ok fuel p (ret (VNum fnan)) else ret (VNum d) in
      if cxpr_ir_program_is_bare_identifier p then typed_if_ok fuel p fast else fast
  | CXPR_IR_RESULT_BOOL =>
      let! b := run_bool_fast reg fuel t p [] in
      ret match b with Some b => VBool b | None => VNum fnan end
  | CXPR_IR_RESULT_UNKNOWN => cxpr_ir_exec_typed reg fuel (program_steps p) p []
  end.

Definition cxpr_expr_compiled_eval (fuel t : nat) (p : ir_program) : M L W (option cxpr_value) :=
  let! v := cxpr_expr_compiled_eval_value fuel t p in unless_failing None (ret (Some v)).

Definition cxpr_expr_compiled_eval_number (fuel t : nat) (p : ir_program) : M L W (option float64) :=
  if is_double_program p then
    let! d := run_scalar_fast reg fuel t p [] in unless_failing None (ret (Some d))
  else
    let! v := cxpr_expr_compiled_eval_value fuel t p in
    unless_failing None
      (match v with
       | VNum d => ret (Some d)
       | _ => not_a_double ;; ret None
       end).

Definition cxpr_expr_compiled_eval_bool (fuel t : nat) (p : ir_program) : M L W (option bool) :=
  match ip_fast_result_kind p with
  | CXPR_IR_RESULT_BOOL => run_bool_fast reg fuel t p []
  | _ =>
      let! v := cxpr_expr_compiled_eval_value fuel t p in
      unless_failing None
        (match v with
         | VBool b => ret (Some b)
         | _ => put_error CXPR_ERR_TYPE_MISMATCH "Expression did not evaluate to bool" ;; ret None
         end)
  end.
(** ** The compiled program of a tree *)

Fixpoint all_true (f : cxpr_expr_ast → M L W bool) (l : list cxpr_expr_ast) : M L W bool :=
  match l with
  | [] => ret true
  | a :: l => let! ok := f a in if ok then all_true f l else ret false
  end.

(** Functions that get more than numbers. *)
Definition beyond_numbers (e : cxpr_func_entry) : bool :=
  has (fe_handler e) || has (fe_ast_func e) || has (fe_struct_producer e) || has_items (fe_struct_fields e) ||
  has (fe_value_func e) || has (fe_typed_func e).

Definition wrong_arity (e : cxpr_func_entry) (argc : nat) : bool :=
  (argc <? fe_min_args e) || (fe_max_args e <? argc).

(** A function that calls itself is followed without end. *)
Fixpoint cxpr_eval_ast_auto_compile_safe (fuel : nat) (a : cxpr_expr_ast) : M L W bool :=
  match fuel with
  | O => λ _, OutOfFuel
  | S fuel =>
      let safe := cxpr_eval_ast_auto_compile_safe fuel in
      match ast_node a with
      | CXPR_NODE_NUMBER _ | CXPR_NODE_BOOL _ | CXPR_NODE_IDENTIFIER _ | CXPR_NODE_VARIABLE _ => ret true
      | CXPR_NODE_UNARY_OP _ x => safe x
      | CXPR_NODE_BINARY_OP _ x y => all_true safe [x; y]
      | CXPR_NODE_TERNARY c x y => all_true safe [c; x; y]
      | CXPR_NODE_FUNCTION_CALL name args _ =>
          if cxpr_expr_ast_call_uses_named_args a then ret false
          else
            match registry_lookup reg name with
            | None => ret false
            | Some e =>
                if wrong_arity e (length args) || beyond_numbers e ||
                   (has (fe_sync_func e) && negb (has (fe_native e)) && negb (has (fe_defined_body e)))
                then ret false
                else
                  let! ok :=
                    match fe_defined_body e with
                    | Some body =>
                        let! p := without_err (cxpr_ir_prepare_defined_program fuel e) in
                        if has p then safe body else ret false
                    | None => ret true
                    end in
                  if ok then all_true safe args else ret false
            end
      | _ => ret false
      end
  end.

(** The compiler's error stays in a record of its own. *)
Definition cxpr_eval_ast_cached_program (fuel t : nat) (a : cxpr_expr_ast) : M L W (option ir_program) :=
  let! safe := cxpr_eval_ast_auto_compile_safe fuel a in
  if safe then without_err (cxpr_expr_compile fuel t a) else ret None.

(** ** Evaluation on doubles

    [None] is [false]: the walk does not handle the node.  A handled node may have
    left an error. *)

Definition failed_number (code : cxpr_error_code) (message : string) : M L W (option float64) :=
  put_error code message ;; ret (Some fnan).

Definition cxpr_eval_function_call_memoable_cached (e : cxpr_func_entry) : bool :=
  negb (has (fe_handler e)) && negb (has (fe_ast_func e)) &&
  negb (has (fe_struct_producer e) && negb (has (fe_sync_func e)) && negb (has (fe_value_func e))).

(** The number of a name. *)
Definition fast_identifier (name : string) : M L W (option float64) :=
  let! ctx := get_ctx in
  let! found :=
    match ctx with
    | [] => undef
    | c :: _ =>
        if has (ctx_scope c) then on_ctx (λ ctx, ctx_get ctx name)
        else if ctx_no_bools c then
          let! root := lift (ctx_root_number false ctx name) in
          match root with
          | Some d => ret (Some d)
          | None => lift (ctx_prehashed ctx name)
          end
        else
          let! d := lift (ctx_prehashed ctx name) in
          match d with
          | Some d => ret (Some d)
          | None => on_ctx (λ ctx, ctx_get ctx name)
          end
    end in
  match found with
  | Some d => ret (Some d)
  | None => failed_number CXPR_ERR_UNKNOWN_IDENTIFIER (cxpr_eval_unknown_identifier_message name)
  end.

(** A parameter with a dot or the name of a struct may be a field: [inl] ends. *)
Definition fast_param_field (name : string) : M L W (option float64 + unit) :=
  let! ctx := get_ctx in
  let! struct := if has (split_dot name) then ret true
                 else let! s := lift (ctx_get_struct ctx name) in ret (has s) in
  if struct then
    let! v := on_ctx (λ ctx, ctx_get_param_typed ctx name) in
    match v with
    | Some v =>
        value_free v ;;
        ret (inl match fst v with VNum d => Some d | _ => None end)
    | None => ret (inr tt)
    end
  else ret (inr tt).

Definition fast_param (name : string) : M L W (option float64) :=
  let! field := fast_param_field name in
  match field with
  | inl r => ret r
  | inr _ =>
      let! ctx := get_ctx in
      let! root := lift (ctx_root_number true ctx name) in
      let! found := match root with
                    | Some d => ret (Some d)
                    | None => on_ctx (λ ctx, ctx_get_param ctx name)
                    end in
      match found with
      | Some d => ret (Some d)
      | None => failed_number CXPR_ERR_UNKNOWN_IDENTIFIER "Unknown parameter variable"
      end
  end.

Section walk.
Context (fuel t : nat).
Context (number_fast : cxpr_expr_ast → M L W (option float64)).
Context (bool_fast : cxpr_expr_ast → M L W (option bool)).

(** [if (!f(x)) return false;] before [k] *)
Definition fast_bind {A B} (m : M L W (option A)) (k : A → M L W (option B)) : M L W (option B) :=
  let! x := m in match x with Some x => k x | None => ret None end.

Definition fast_arithmetic (op : cxpr_token_type) (x y : cxpr_expr_ast) : M L W (option float64) :=
  fast_bind (number_fast x) (λ x,
  fast_bind (number_fast y) (λ y,
    match op with
    | CXPR_TOK_SLASH | CXPR_TOK_PERCENT =>
        if feqb y fzero
        then failed_number CXPR_ERR_DIVISION_BY_ZERO
               (match op with CXPR_TOK_SLASH => "Division by zero" | _ => "Modulo by zero" end)
        else ret (Some (arithmetic op x y))
    | _ => ret (Some (arithmetic op x y))
    end)).

Definition fast_comparison (op : cxpr_token_type) (x y : cxpr_expr_ast) : M L W (option bool) :=
  fast_bind (number_fast x) (λ x,
  fast_bind (number_fast y) (λ y,
    ret (Some match op with
              | CXPR_TOK_EQ => feqb x y
              | CXPR_TOK_NEQ => fneb x y
              | _ => compare_numbers op x y
              end))).

Definition bool_step_fast (a : cxpr_expr_ast) : M L W (option bool) :=
  match ast_node a with
  | CXPR_NODE_BOOL b => ret (Some b)
  | CXPR_NODE_UNARY_OP CXPR_TOK_NOT x => fast_bind (bool_fast x) (λ b, ret (Some (negb b)))
  | CXPR_NODE_BINARY_OP op x y =>
      match op with
      | CXPR_TOK_AND => fast_bind (bool_fast x) (λ b, if (b : bool) then bool_fast y else ret (Some false))
      | CXPR_TOK_OR => fast_bind (bool_fast x) (λ b, if (b : bool) then ret (Some true) else bool_fast y)
      | CXPR_TOK_EQ | CXPR_TOK_NEQ | CXPR_TOK_LT | CXPR_TOK_LTE | CXPR_TOK_GT | CXPR_TOK_GTE =>
          fast_comparison op x y
      | _ => ret None
      end
  | _ => ret None
  end.

Definition fast_producer (a : cxpr_expr_ast) (name : string) (args : list cxpr_expr_ast)
    (names : option (list (option string))) (field : string) : M L W (option float64) :=
  match registry_lookup reg name with
  | Some e =>
      if negb (has (fe_struct_producer e)) || has (fe_handler e) || cxpr_expr_ast_call_uses_named_args a
      then ret None
      else
        let! v := cxpr_eval_cached_producer_access reg (cxpr_eval_node fuel reg) a t name args names field in
        unless_failing (Some fnan)
          (ret match fst v with
               | VNum d => Some d
               | VBool b => Some (of_bool b)
               | _ => None
               end)
  | None => ret None
  end.

(** The arguments of a call; [failed] for an argument that left an error. *)
Fixpoint fast_args (failed : M L W (option float64)) (args : list cxpr_expr_ast) (done : list float64)
    (k : list float64 → M L W (option float64)) : M L W (option float64) :=
  match args with
  | [] => k done
  | a :: args =>
      fast_bind (number_fast a) (λ d,
        let! bad := failing in if bad then failed else fast_args failed args (done ++ [d]) k)
  end.

Definition fast_remember (a : cxpr_expr_ast) (memoable : bool) (d : float64) : M L W (option float64) :=
  (if memoable then
     let! m := memo in set_memo (cxpr_eval_memo_set m a t (cxpr_eval_ast_hash a) (VNum d))
   else ret tt) ;;
  ret (Some d).

Definition fast_defined_call (a : cxpr_expr_ast) (e : cxpr_func_entry) (args : list cxpr_expr_ast)
    (memoable : bool) : M L W (option float64) :=
  let unhandled := set_err error_zero ;; ret None in
  if negb (length args =? length (fe_defined_param_names e)) ||
     existsb (has_fields e) (seq 0 (length (fe_defined_param_names e)))
  then ret None
  else
    fast_args unhandled args [] (λ values,
      let! p := cxpr_ir_prepare_defined_program fuel e in
      match p with
      | None => unhandled
      | Some p =>
          let! d := cxpr_ir_exec_with_locals fuel registry_tree p values in
          let! bad := failing in
          if bad then ret (Some d) else fast_remember a memoable d
      end).

Definition fast_plain_call (a : cxpr_expr_ast) (e : cxpr_func_entry) (name : string)
    (args : list cxpr_expr_ast) (memoable : bool) : M L W (option float64) :=
  let remember (d : M L W float64) := let! d := d in fast_remember a memoable d in
  fast_args (ret (Some fnan)) args [] (λ values,
    let sync :=
      match fe_sync_func e with
      | Some f => remember (on_world (call_sync f values (fe_userdata e)))
      | None => ret None
      end in
    match fe_native e with
    | Some (kind, fn) =>
        if native_arity kind =? length values then remember (on_world (call_scalar fn values))
        else if String.eqb name "if" && (length values =? 3) then ret None
        else sync
    | None =>
        match fe_sync_func e with
        | Some _ => sync
        | None => ret None
        end
    end).

Definition fast_call (a : cxpr_expr_ast) (name : string) (args : list cxpr_expr_ast)
    : M L W (option float64) :=
  if (CXPR_MAX_CALL_ARGS <? length args) || cxpr_expr_ast_call_uses_named_args a then ret None
  else
    match registry_lookup reg name with
    | None => ret None
    | Some e =>
        if beyond_numbers e then ret None
        else if wrong_arity e (length args)
        then failed_number CXPR_ERR_WRONG_ARITY "Wrong number of arguments"
        else
          let memoable := cxpr_eval_function_call_memoable_cached e in
          let! cached :=
            if memoable then
              let! m := memo in λ s, lift (cxpr_eval_memo_get (live s) m a (cxpr_eval_ast_hash a)) s
            else ret None in
          match cached with
          | Some (VNum d) => ret (Some d)
          | Some _ => ret None
          | None =>
              if has (fe_defined_body e) then fast_defined_call a e args memoable
              else fast_plain_call a e name args memoable
          end
    end.

Definition number_step_fast (a : cxpr_expr_ast) : M L W (option float64) :=
  match ast_node a with
  | CXPR_NODE_NUMBER d => ret (Some d)
  | CXPR_NODE_IDENTIFIER name => fast_identifier name
  | CXPR_NODE_VARIABLE name => fast_param name
  | CXPR_NODE_UNARY_OP CXPR_TOK_MINUS x => fast_bind (number_fast x) (λ d, ret (Some (fneg d)))
  | CXPR_NODE_BINARY_OP op x y =>
      match op with
      | CXPR_TOK_PLUS | CXPR_TOK_MINUS | CXPR_TOK_STAR | CXPR_TOK_SLASH | CXPR_TOK_PERCENT | CXPR_TOK_POWER =>
          fast_arithmetic op x y
      | _ => ret None
      end
  | CXPR_NODE_TERNARY c x y => fast_bind (bool_fast c) (λ b, number_fast (if (b : bool) then x else y))
  | CXPR_NODE_PRODUCER_ACCESS name args names field _ => fast_producer a name args names field
  | CXPR_NODE_FUNCTION_CALL name args _ => fast_call a name args
  | _ => ret None
  end.
End walk.

(** The two mutually recursive functions of the source. *)
Fixpoint eval_fast (fuel t : nat) (a : cxpr_expr_ast) : M L W (option float64) * M L W (option bool) :=
  match fuel with
  | O => ((λ _, OutOfFuel), (λ _, OutOfFuel))
  | S fuel =>
      let number a := fst (eval_fast fuel t a) in
      let boolean a := snd (eval_fast fuel t a) in
      (number_step_fast fuel t number boolean a, bool_step_fast number boolean a)
  end.

Definition cxpr_eval_number_fast (fuel t : nat) (a : cxpr_expr_ast) : M L W (option float64) :=
  fst (eval_fast fuel t a).
Definition cxpr_eval_bool_fast (fuel t : nat) (a : cxpr_expr_ast) : M L W (option bool) :=
  snd (eval_fast fuel t a).

(** ** Values of one type *)

(** [cxpr_eval_ast_value] and [cxpr_eval_ast] on a tree with a number. *)
Definition eval_value_of (fuel t : nat) (a : cxpr_expr_ast) : M L W res :=
  set_err error_zero ;;
  let! m := memo in
  set_memo (cxpr_eval_memo_enter m) ;;
  let! v := cxpr_eval_node fuel reg t a in
  let! m := memo in
  set_memo (cxpr_eval_memo_leave m) ;; ret v.

Definition eval_of (fuel t : nat) (a : cxpr_expr_ast) : M L W (option res) :=
  set_err error_zero ;;
  let! checked := lift (cxpr_typecheck (Some a) reg) in
  match checked with
  | inr err => set_err err ;; ret None
  | inl _ =>
      let! v := eval_value_of fuel t a in
      unless_failing None (ret (Some v))
  end.

(** The walk over the tree with the memo table active. *)
Definition number_walk (fuel t : nat) (a : cxpr_expr_ast) : M L W (option float64) :=
  let! m := memo in
  set_memo (cxpr_eval_memo_enter m) ;;
  let! d := cxpr_eval_number_fast fuel t a in
  let! m := memo in
  set_memo (cxpr_eval_memo_leave m) ;; ret d.

Definition cxpr_eval_ast_number (fuel t : nat) (a : cxpr_expr_ast) : M L W (option float64) :=
  set_err error_zero ;;
  let! program := cxpr_eval_ast_cached_program fuel t a in
  let! compiled := match program with
                   | Some p => cxpr_expr_compiled_eval_number fuel t p
                   | None => ret None
                   end in
  match compiled with
  | Some d => ret (Some d)
  | None =>
      let! bad := failing in
      (if bad then set_err error_zero else ret tt) ;;
      let! d := number_walk fuel t a in
      match d with
      | Some d => unless_failing None (ret (Some d))
      | None =>
          let! v := eval_value_of fuel t a in
          unless_failing None
            (match fst v with
             | VNum d => ret (Some d)
             | _ => not_a_double ;; ret None
             end)
      end
  end.

Definition cxpr_eval_ast_bool (fuel t : nat) (a : cxpr_expr_ast) : M L W (option bool) :=
  set_err error_zero ;;
  let! checked := lift (cxpr_typecheck_bool_root (Some a) reg) in
  match checked with
  | Some err => set_err err ;; ret None
  | None =>
      let! v := eval_value_of fuel t a in
      unless_failing None
        (match fst v with
         | VBool b => ret (Some b)
         | _ => put_error CXPR_ERR_TYPE_MISMATCH "Expression did not evaluate to bool" ;; ret None
         end)
  end.

(** ** Evaluation some samples back *)

Definition cxpr_eval_simple_lookback_target (a : cxpr_expr_ast) : bool :=
  match ast_node a with
  | CXPR_NODE_IDENTIFIER _ | CXPR_NODE_FIELD_ACCESS _ _ _ _ | CXPR_NODE_CHAIN_ACCESS _ _
  | CXPR_NODE_PRODUCER_ACCESS _ _ _ _ _ => true
  | _ => false
  end.

(** A fresh error record. *)
Definition fresh_error {A} (code : cxpr_error_code) (message : string) : M L W (option A) :=
  set_err (mk_error code (Some message) 0 0 0) ;; ret None.

Definition literal_offset (index : cxpr_expr_ast) : M L W (option Z) :=
  let! o := lift (cxpr_lookback_literal_offset index) in
  match o with
  | Some o => ret (Some o)
  | None => put_error CXPR_ERR_SYNTAX "lookback requires constant integer index" ;; ret None
  end.

(** The index for the resolvers: an enclosing offset is added. *)
Definition resolver_index (index : cxpr_expr_ast) : M L W (option cxpr_expr_ast) :=
  let! base := eval_lookback_offset in
  if fneb base fzero then
    let! o := literal_offset index in
    match o with
    | None => ret None
    | Some o =>
        let value := fadd (of_Z o) base in
        if negb (fisfinite value) || fltb value fzero
        then fresh_error CXPR_ERR_SYNTAX "Lookback offset must be a finite non-negative number"
        else ret (Some (new_node (CXPR_NODE_NUMBER value)))
    end
  else ret (Some index).

Definition whole_index (d : float64) : bool :=
  fisfinite d && negb (fltb d fzero) && feqb (ffloor d) d && fleb d (of_Z INT64_MAX).

(** A capability answers or fails ([inl]), or the target has none. *)
Definition by_capability (a : cxpr_expr_ast) (raw : float64) : M L W (option res + unit) :=
  let! i := convert_index raw INT64_MAX in
  let handled := match cxpr_registry_select_index_capability reg a with sel_none => false | _ => true end in
  let! out := cxpr_registry_resolve_index_capability reg a i in
  match out with
  | Some v => ret (inl (Some v))
  | None => let! bad := failing in ret (if handled || bad then inl None else inr tt)
  end.

Definition otherwise {A} (m : M L W (A + unit)) (k : M L W A) : M L W A :=
  let! r := m in match r with inl x => ret x | inr _ => k end.

(** A name with a capability of its own. *)
Definition named_capability (fuel t : nat) (a index : cxpr_expr_ast) : M L W (option res + unit) :=
  match ast_node a with
  | CXPR_NODE_IDENTIFIER name =>
      if has (cxpr_registry_find_index_capability reg name) then
        let! raw := cxpr_eval_ast_number fuel t index in
        match raw with
        | None => ret (inl None)
        | Some raw =>
            if whole_index raw then by_capability a raw
            else put_error CXPR_ERR_INVALID_INDEX "Index must be a finite non-negative integer" ;;
                 ret (inl None)
        end
      else ret (inr tt)
  | _ => ret (inr tt)
  end.

Definition registry_resolver (a index : cxpr_expr_ast) : M L W (option res + unit) :=
  match reg_lookback reg with
  | Some resolver =>
      let! v := host_lookback resolver a index (reg_lookback_userdata reg) in
      let! bad := failing in
      ret match v with
          | Some v => inl (if bad then None else Some v)
          | None => if bad then inl None else inr tt
          end
  | None => ret (inr tt)
  end.

Definition compound_capability (fuel t : nat) (a index : cxpr_expr_ast) : M L W (option res + unit) :=
  if is_identifier a then ret (inr tt)
  else
    let! raw := cxpr_eval_ast_number fuel t index in
    match raw with
    | None => ret (inl None)
    | Some raw => if whole_index raw then by_capability a raw else ret (inr tt)
    end.

Definition set_offset (offset : float64) : M L W unit :=
  λ s, Done (tt, mk_est (es_ctx s) (es_memos s) (es_err s) (es_world s) offset (es_next s) (es_freed s)).

(** The offset applies to the lookbacks inside the expression. *)
Definition eval_with_offset (fuel t : nat) (a index : cxpr_expr_ast) : M L W (option res) :=
  let! previous := eval_lookback_offset in
  let! o := literal_offset index in
  match o with
  | None => ret None
  | Some o =>
      set_offset (fadd previous (of_Z o)) ;;
      let! v := eval_value_of fuel t a in
      set_offset previous ;;
      unless_failing None (ret (Some v))
  end.

Definition cxpr_eval_ast_at_lookback (fuel t : nat) (a index : cxpr_expr_ast) : M L W (option res) :=
  let! adjusted := resolver_index index in
  match adjusted with
  | None => ret None
  | Some adjusted =>
      otherwise (named_capability fuel t a adjusted) (
      otherwise (registry_resolver a adjusted) (
      otherwise (compound_capability fuel t a adjusted) (
      if negb (cxpr_eval_simple_lookback_target a) then eval_with_offset fuel t a index
      else fresh_error CXPR_ERR_SYNTAX "Native lookback requires a registry lookback resolver")))
  end.
End api.

(** The names of an expression [offset] samples back; a lookback inside goes
    further back. *)
Fixpoint shift_names (offset : float64) (a : cxpr_expr_ast) : cxpr_expr_ast :=
  match a with
  | Ast span node =>
      match node with
      | CXPR_NODE_NUMBER _ | CXPR_NODE_INT64 _ | CXPR_NODE_BOOL _ | CXPR_NODE_STRING _
      | CXPR_NODE_VARIABLE _ => a
      | CXPR_NODE_IDENTIFIER _ | CXPR_NODE_FIELD_ACCESS _ _ _ _ | CXPR_NODE_CHAIN_ACCESS _ _
      | CXPR_NODE_PRODUCER_ACCESS _ _ _ _ _ =>
          cxpr_expr_ast_index_new a (cxpr_expr_ast_number_new offset)
      | CXPR_NODE_ARRAY elements => Ast span (CXPR_NODE_ARRAY (map (shift_names offset) elements))
      | CXPR_NODE_RECORD names values =>
          Ast span (CXPR_NODE_RECORD names (map (shift_names offset) values))
      | CXPR_NODE_BINARY_OP op x y =>
          Ast span (CXPR_NODE_BINARY_OP op (shift_names offset x) (shift_names offset y))
      | CXPR_NODE_UNARY_OP op x => Ast span (CXPR_NODE_UNARY_OP op (shift_names offset x))
      | CXPR_NODE_FUNCTION_CALL name args names =>
          Ast span (CXPR_NODE_FUNCTION_CALL name (map (shift_names offset) args) names)
      | CXPR_NODE_INDEX target index =>
          Ast span (CXPR_NODE_INDEX target
                      (cxpr_expr_ast_binary_new CXPR_TOK_PLUS index (cxpr_expr_ast_number_new offset)))
      | CXPR_NODE_TERNARY c x y =>
          Ast span (CXPR_NODE_TERNARY (shift_names offset c) (shift_names offset x) (shift_names offset y))
      end
  end.

Definition cxpr_eval_apply_literal_offset (a : cxpr_expr_ast) (offset : float64) : cxpr_expr_ast :=
  if feqb offset fzero then a else shift_names offset a.

Section offsets.
Context {L W : Type} `{!EvalContext L} `{!IRContext L} `{!ApiContext L} `{!HostCode W} `{!HexFormat}.
Context `{!EvalHost L W}.
Context (reg : cxpr_registry) (prepared : string → prepared_program).

Definition is_call (a : cxpr_expr_ast) : bool :=
  match ast_node a with CXPR_NODE_FUNCTION_CALL _ _ _ => true | _ => false end.

(** The shifted copy is freed after its evaluation. *)
Definition cxpr_eval_at_offset (fuel t : nat) (a : cxpr_expr_ast) (lookback : float64)
    : M L W (option res) :=
  if negb (fisfinite lookback) || fltb lookback fzero
  then fresh_error CXPR_ERR_SYNTAX "Lookback offset must be a finite non-negative number"
  else if fneb lookback fzero && negb (cxpr_eval_simple_lookback_target a) &&
          negb (has (reg_lookback reg) && is_call a)
  then
    let! shifted := new_tree in
    let! v := eval_of reg fuel shifted (cxpr_eval_apply_literal_offset a lookback) in
    free_tree shifted ;; ret v
  else cxpr_eval_ast_at_lookback reg prepared fuel t a (new_node (CXPR_NODE_NUMBER lookback)).

Definition cxpr_eval_ast_at_offset (fuel t : nat) (a : cxpr_expr_ast) (lookback : float64)
    : M L W (option res) := cxpr_eval_at_offset fuel t a lookback.

Definition cxpr_eval_ast_number_at_offset (fuel t : nat) (a : cxpr_expr_ast) (lookback : float64)
    : M L W (option float64) :=
  let! v := cxpr_eval_ast_at_offset fuel t a lookback in
  match v with
  | None => ret None
  | Some (VNum d, _) => ret (Some d)
  | Some _ => fresh_error CXPR_ERR_TYPE_MISMATCH "Expected number"
  end.

Definition cxpr_eval_ast_bool_at_offset (fuel t : nat) (a : cxpr_expr_ast) (lookback : float64)
    : M L W (option bool) :=
  set_err error_zero ;;
  let! checked := lift (cxpr_typecheck_bool_root (Some a) reg) in
  match checked with
  | Some err => set_err err ;; ret None
  | None =>
      let! v := cxpr_eval_ast_at_offset fuel t a lookback in
      match v with
      | None => ret None
      | Some (VBool b, _) => ret (Some b)
      | Some _ => fresh_error CXPR_ERR_TYPE_MISMATCH "Expected bool"
      end
  end.
End offsets.
