(* ===== verification/Timeseries.v ===== *)
(** * Timeseries: functions over the past values of an expression
    ([src/timeseries.c])

    The functions get the call's tree and evaluate its first argument at
    increasing offsets.  [EvalApi.v] evaluates at an offset; the loops count up to
    the value of the second argument. *)

From Stdlib Require Import Ascii String ZArith Lia.
From stdpp Require Import base list strings.
From S2P Require Import Prelude Float64 Types Ast References Registry Builtins EvalSupport EvalState TreeEval TypeCheck IRCompile IRTyped EvalApi.
Local Open Scope run_scope.
Local Open Scope eval_scope.
Local Open Scope nat_scope.

Inductive trend_mode : Type := CXPR_TIMESERIES_TREND_RISING | CXPR_TIMESERIES_TREND_FALLING.
Inductive cross_mode : Type := CXPR_TIMESERIES_CROSS_ABOVE | CXPR_TIMESERIES_CROSS_BELOW.
Inductive window_mode : Type := CXPR_TIMESERIES_WINDOW_HIGHEST | CXPR_TIMESERIES_WINDOW_LOWEST.
Inductive agg_mode : Type :=
  | CXPR_TIMESERIES_AGG_SUM | CXPR_TIMESERIES_AGG_MEAN | CXPR_TIMESERIES_AGG_HIGHEST
  | CXPR_TIMESERIES_AGG_LOWEST | CXPR_TIMESERIES_AGG_STDDEV.
Inductive net_mode : Type := CXPR_TIMESERIES_NET_UP | CXPR_TIMESERIES_NET_DOWN.

(** [llround]; outside the range of [long long] the result is unspecified and
    taken to be the one of the x86-64 conversion. *)
Definition llround (d : float64) : Z :=
  match to_Z (fround d) with
  | Some z => if in_int64 z then z else INT64_MIN
  | None => INT64_MIN
  end.

(** The double is an integer from [least] on. *)
Definition whole_samples (d : float64) (least : Z) : option Z :=
  let n := llround d in
  if negb (fisfinite d) || fgtb (fabs (fsub d (of_Z n))) offset_tolerance || (n <? least)%Z
  then None else Some n.

(** [(double)i] *)
Definition offset_of (i : nat) : float64 := of_Z (Z.of_nat i).

(** [1e-12] *)
Definition roc_epsilon : float64 := of_decimal 1 (-12).

Section timeseries.
Context {L W : Type} `{!EvalContext L} `{!IRContext L} `{!ApiContext L} `{!HostCode W} `{!HexFormat}.
Context `{!EvalHost L W}.
Context (reg : cxpr_registry) (prepared : string → prepared_program) (fuel t : nat).

Abbreviation eval_number := (cxpr_eval_ast_number reg prepared fuel t).
Abbreviation number_at := (cxpr_eval_ast_number_at_offset reg prepared fuel t).
Abbreviation bool_at := (cxpr_eval_ast_bool_at_offset reg prepared fuel t).

Definition not_a_call : M L W unit := put_error CXPR_ERR_SYNTAX "Time-series function expects a call AST".

(** [if (!f(...)) return otherwise;] before [k] *)
Definition or_return {A} (otherwise : cxpr_value) (m : M L W (option A)) (k : A → M L W cxpr_value)
    : M L W cxpr_value :=
  let! x := m in match x with Some x => k x | None => ret otherwise end.

Definition fail_with {A} (code : cxpr_error_code) (message : string) : M L W (option A) :=
  put_error code message ;; ret None.

(** A NULL argument is not reached behind the test of their number. *)
Definition call_arg (args : list cxpr_expr_ast) (i : nat) (k : cxpr_expr_ast → M L W cxpr_value)
    : M L W cxpr_value :=
  match args !! i with Some a => k a | None => undef end.

Definition samples_of (a : cxpr_expr_ast) (least : Z) (message : string) : M L W (option Z) :=
  let! d := eval_number a in
  match d with
  | None => ret None
  | Some d =>
      match whole_samples d least with
      | Some n => ret (Some n)
      | None => fail_with CXPR_ERR_SYNTAX message
      end
  end.

Definition cxpr_timeseries_read_samples (call : cxpr_expr_ast) (least : Z) : M L W (option Z) :=
  match ast_node call with
  | CXPR_NODE_FUNCTION_CALL _ args _ =>
      match args with
      | [_; samples] =>
          samples_of samples least "Time-series samples must be an integer above the minimum"
      | _ => fail_with CXPR_ERR_WRONG_ARITY "Time-series function expects value, samples"
      end
  | _ => fail_with CXPR_ERR_SYNTAX "Time-series function expects a call AST"
  end.

(** The arguments of a call; [otherwise] when the tree is no call. *)
Definition with_args (otherwise : cxpr_value) (call : cxpr_expr_ast)
    (k : list cxpr_expr_ast → M L W cxpr_value) : M L W cxpr_value :=
  match ast_node call with
  | CXPR_NODE_FUNCTION_CALL _ args _ => k args
  | _ => not_a_call ;; ret otherwise
  end.

(** The number of arguments is one of [counts]. *)
Definition check_argc (otherwise : cxpr_value) (args : list cxpr_expr_ast) (count : nat) (message : string)
    (k : M L W cxpr_value) : M L W cxpr_value :=
  if length args =? count then k
  else put_error CXPR_ERR_WRONG_ARITY message ;; ret otherwise.

(** The first argument and the number of samples. *)
Definition value_samples (otherwise : cxpr_value) (call : cxpr_expr_ast) (least : Z)
    (k : cxpr_expr_ast → Z → M L W cxpr_value) : M L W cxpr_value :=
  with_args otherwise call (λ args,
    or_return otherwise (cxpr_timeseries_read_samples call least) (λ n,
      call_arg args 0 (λ value, k value n))).

(** ** Trends *)

(** The pairs [i .. i + count - 1] are ordered. *)
Fixpoint trend_loop (mode : trend_mode) (value : cxpr_expr_ast) (i count : nat) : M L W cxpr_value :=
  match count with
  | O => ret (VBool true)
  | S count =>
      or_return (VBool false) (number_at value (offset_of i)) (λ lhs,
      or_return (VBool false) (number_at value (offset_of (S i))) (λ rhs,
        if match mode with
           | CXPR_TIMESERIES_TREND_RISING => fgtb lhs rhs
           | CXPR_TIMESERIES_TREND_FALLING => fltb lhs rhs
           end
        then trend_loop mode value (S i) count else ret (VBool false)))
  end.

Definition cxpr_timeseries_trend_eval (mode : trend_mode) (call : cxpr_expr_ast) : M L W cxpr_value :=
  with_args (VBool false) call (λ args,
    check_argc (VBool false) args 2
      (match mode with
       | CXPR_TIMESERIES_TREND_RISING => "rising(...) expects value, samples"
       | CXPR_TIMESERIES_TREND_FALLING => "falling(...) expects value, samples"
       end)
      (value_samples (VBool false) call 2 (λ value n, trend_loop mode value 0 (Z.to_nat n - 1)))).

Definition cxpr_timeseries_cross_eval (mode : cross_mode) (call : cxpr_expr_ast) : M L W cxpr_value :=
  with_args (VBool false) call (λ args,
    check_argc (VBool false) args 2
      (match mode with
       | CXPR_TIMESERIES_CROSS_ABOVE => "cross_above(...) expects left, right"
       | CXPR_TIMESERIES_CROSS_BELOW => "cross_below(...) expects left, right"
       end)
      (call_arg args 0 (λ x, call_arg args 1 (λ y,
        or_return (VBool false) (number_at x (offset_of 0)) (λ l,
        or_return (VBool false) (number_at y (offset_of 0)) (λ r,
        or_return (VBool false) (number_at x (offset_of 1)) (λ pl,
        or_return (VBool false) (number_at y (offset_of 1)) (λ pr,
          ret (VBool match mode with
                     | CXPR_TIMESERIES_CROSS_ABOVE => fleb pl pr && fgtb l r
                     | CXPR_TIMESERIES_CROSS_BELOW => fgeb pl pr && fltb l r
                     end))))))))).

(** ** Changes *)

(** The current value and the one [samples] back. *)
Definition value_and_previous (otherwise : cxpr_value) (call : cxpr_expr_ast)
    (k : float64 → float64 → cxpr_value) : M L W cxpr_value :=
  value_samples otherwise call 1 (λ a n,
    or_return otherwise (number_at a (offset_of 0)) (λ value,
    or_return otherwise (number_at a (of_Z n)) (λ previous, ret (k value previous)))).

Definition cxpr_timeseries_delta (call : cxpr_expr_ast) : M L W cxpr_value :=
  value_and_previous (VNum fnan) call (λ value previous, VNum (fsub value previous)).

Definition cxpr_timeseries_roc (call : cxpr_expr_ast) : M L W cxpr_value :=
  value_and_previous (VNum fnan) call (λ value previous,
    VNum (if feqb previous fzero then fnan else fdiv (fsub value previous) previous)).

Definition cxpr_timeseries_window_roc (call : cxpr_expr_ast) : M L W cxpr_value :=
  value_and_previous (VNum fnan) call (λ value previous,
    VNum (if fisnan value then fnan
          else if fisnan previous || fleb (fabs previous) roc_epsilon then fzero
          else fmul (fdiv (fsub value previous) previous) (of_Z 100))).

Definition cxpr_timeseries_net_eval (mode : net_mode) (call : cxpr_expr_ast) : M L W cxpr_value :=
  with_args (VBool false) call (λ args,
    check_argc (VBool false) args 2
      (match mode with
       | CXPR_TIMESERIES_NET_UP => "net_up(...) expects value, samples"
       | CXPR_TIMESERIES_NET_DOWN => "net_down(...) expects value, samples"
       end)
      (value_and_previous (VBool false) call (λ value previous,
         VBool (fisfinite value && fisfinite previous &&
                match mode with
                | CXPR_TIMESERIES_NET_UP => fgtb value previous
                | CXPR_TIMESERIES_NET_DOWN => fltb value previous
                end)))).

(** ** Windows *)

(** The values at [i .. i + count - 1], each given to [f] with its offset. *)
Fixpoint sample_loop {A} (value : cxpr_expr_ast) (f : nat → float64 → A → A) (i count : nat) (acc : A)
    : M L W (option A) :=
  match count with
  | O => ret (Some acc)
  | S count =>
      let! d := number_at value (offset_of i) in
      match d with
      | Some d => sample_loop value f (S i) count (f i d acc)
      | None => ret None
      end
  end.

Definition cxpr_timeseries_window_eval (mode : window_mode) (call : cxpr_expr_ast) : M L W cxpr_value :=
  let step i value out :=
    if (i =? 0) || match mode with
                   | CXPR_TIMESERIES_WINDOW_HIGHEST => fgtb value out
                   | CXPR_TIMESERIES_WINDOW_LOWEST => fltb value out
                   end
    then value else out in
  value_samples (VNum fnan) call 1 (λ a n,
    or_return (VNum fnan) (sample_loop a step 0 (Z.to_nat n) fzero) (λ out, ret (VNum out))).

(** The variables of the aggregation loop. *)
Record aggregate : Type := mk_aggregate {
  ag_sum : float64;
  ag_sumsq : float64;
  ag_extreme : float64;
  ag_count : nat
}.

Definition aggregate_step (mode : agg_mode) (value : float64) (g : aggregate) : aggregate :=
  if fisnan value then g
  else
    mk_aggregate (fadd (ag_sum g) value) (fadd (ag_sumsq g) (fmul value value))
      (if (ag_count g =? 0) || match mode with
                               | CXPR_TIMESERIES_AGG_HIGHEST => fgtb value (ag_extreme g)
                               | CXPR_TIMESERIES_AGG_LOWEST => fltb value (ag_extreme g)
                               | _ => false
                               end
       then value else ag_extreme g)
      (S (ag_count g)).

Definition aggregate_result (mode : agg_mode) (g : aggregate) : float64 :=
  let count := offset_of (ag_count g) in
  if ag_count g =? 0 then fzero
  else
    match mode with
    | CXPR_TIMESERIES_AGG_HIGHEST | CXPR_TIMESERIES_AGG_LOWEST => ag_extreme g
    | CXPR_TIMESERIES_AGG_MEAN => fdiv (ag_sum g) count
    | CXPR_TIMESERIES_AGG_STDDEV =>
        let mean := fdiv (ag_sum g) count in
        let variance := fsub (fdiv (ag_sumsq g) count) (fmul mean mean) in
        fsqrt (if fgtb variance fzero then variance else fzero)
    | CXPR_TIMESERIES_AGG_SUM => ag_sum g
    end.

Definition cxpr_timeseries_window_agg_eval (mode : agg_mode) (call : cxpr_expr_ast) : M L W cxpr_value :=
  value_samples (VNum fnan) call 1 (λ a n,
    or_return (VNum fnan)
      (sample_loop a (λ _, aggregate_step mode) 0 (Z.to_nat n) (mk_aggregate fzero fzero fzero 0)) (λ g,
      ret (VNum (aggregate_result mode g)))).

(** The second argument of a call with three, then the third. *)
Definition samples_and (call : cxpr_expr_ast) (arity_message samples_message : string)
    (k : cxpr_expr_ast → Z → float64 → M L W cxpr_value) : M L W cxpr_value :=
  with_args (VNum fnan) call (λ args,
    match args with
    | [value; samples; third] =>
        or_return (VNum fnan) (eval_number samples) (λ n,
        or_return (VNum fnan) (eval_number third) (λ x,
          match whole_samples n 1 with
          | Some n => k value n x
          | None => put_error CXPR_ERR_SYNTAX samples_message ;; ret (VNum fnan)
          end))
    | _ => put_error CXPR_ERR_WRONG_ARITY arity_message ;; ret (VNum fnan)
    end).

(** The extreme value, its offset and the number of values. *)
Definition extreme_step (mode : float64) (i : nat) (value : float64) (acc : float64 * nat * nat)
    : float64 * nat * nat :=
  let '(extreme, index, count) := acc in
  if fisnan value then acc
  else if (count =? 0) || (fgeb mode fzero && fgtb value extreme) || (fltb mode fzero && fltb value extreme)
  then (value, i, S count) else (extreme, index, S count).

Definition cxpr_timeseries_bars_since_extreme (call : cxpr_expr_ast) : M L W cxpr_value :=
  samples_and call "bars_since_extreme expects value, samples, mode"
    "bars_since_extreme samples must be a positive integer" (λ a n mode,
      or_return (VNum fnan) (sample_loop a (extreme_step mode) 0 (Z.to_nat n) (fzero, 0, 0)) (λ r,
        let '(_, index, count) := r in
        ret (VNum (if count =? 0 then fzero else offset_of index)))).

Definition absdev_step (center value : float64) (acc : float64 * nat) : float64 * nat :=
  let '(sum, count) := acc in
  if fisnan value then acc else (fadd sum (fabs (fsub value center)), S count).

Definition cxpr_timeseries_window_mean_absdev (call : cxpr_expr_ast) : M L W cxpr_value :=
  samples_and call "window_mean_absdev expects value, samples, center"
    "window_mean_absdev samples must be a positive integer" (λ a n center,
      if fisnan center then ret (VNum fzero)
      else
        or_return (VNum fnan) (sample_loop a (λ _, absdev_step center) 0 (Z.to_nat n) (fzero, 0)) (λ r,
          let '(sum, count) := r in
          ret (VNum (if count =? 0 then fzero else fdiv sum (offset_of count))))).

Definition wma_step (samples : Z) (i : nat) (value : float64) (acc : float64 * float64)
    : float64 * float64 :=
  let '(weighted, weights) := acc in
  let weight := of_Z (samples - Z.of_nat i) in
  if fisnan value then acc else (fadd weighted (fmul value weight), fadd weights weight).

Definition cxpr_timeseries_window_wma (call : cxpr_expr_ast) : M L W cxpr_value :=
  value_samples (VNum fnan) call 1 (λ a n,
    or_return (VNum fnan) (sample_loop a (wma_step n) 0 (Z.to_nat n) (fzero, fzero)) (λ r,
      let '(weighted, weights) := r in
      ret (VNum (if fgtb weights fzero then fdiv weighted weights else fzero)))).

(** ** Conditions *)

Fixpoint repeat_loop (value : cxpr_expr_ast) (i count : nat) : M L W cxpr_value :=
  match count with
  | O => ret (VBool true)
  | S count =>
      or_return (VBool false) (bool_at value (offset_of i)) (λ b,
        if (b : bool) then repeat_loop value (S i) count else ret (VBool false))
  end.

Definition cxpr_timeseries_repeat (call : cxpr_expr_ast) : M L W cxpr_value :=
  with_args (VNum fnan) call (λ args,
    check_argc (VBool false) args 2 "repeat(...) expects condition, samples"
      (value_samples (VBool false) call 1 (λ a n, repeat_loop a 0 (Z.to_nat n)))).

Definition cxpr_timeseries_read_overlap_bars (args : list cxpr_expr_ast) : M L W (option Z) :=
  match args with
  | [_; _] => ret (Some 0%Z)
  | [_; _; bars] => samples_of bars 0 "overlaps(...) bars must be an integer >= 0"
  | _ => fail_with CXPR_ERR_WRONG_ARITY "overlaps(...) expects left, right[, bars]"
  end.

(** A side that was seen is not evaluated again. *)
Definition seen_at (seen : bool) (a : cxpr_expr_ast) (i : nat) : M L W (option bool) :=
  if seen then ret (Some false) else bool_at a (offset_of i).

Fixpoint overlap_loop (x y : cxpr_expr_ast) (x_seen y_seen : bool) (i count : nat) : M L W cxpr_value :=
  match count with
  | O => ret (VBool false)
  | S count =>
      or_return (VBool false) (seen_at x_seen x i) (λ vx,
      or_return (VBool false) (seen_at y_seen y i) (λ vy,
        let x_seen := x_seen || vx in
        let y_seen := y_seen || vy in
        if x_seen && y_seen then ret (VBool true) else overlap_loop x y x_seen y_seen (S i) count))
  end.

Definition cxpr_timeseries_overlap_eval (call : cxpr_expr_ast) : M L W cxpr_value :=
  with_args (VNum fnan) call (λ args,
    or_return (VBool false) (cxpr_timeseries_read_overlap_bars args) (λ bars,
      call_arg args 0 (λ x, call_arg args 1 (λ y,
        overlap_loop x y false false 0 (S (Z.to_nat bars)))))).

(** ** The functions by their symbols, as [Builtins.v] registers them *)
Definition cxpr_timeseries_call (symbol : string) (call : cxpr_expr_ast) : M L W cxpr_value :=
  let named f := String.eqb symbol f in
  if named "rising" then cxpr_timeseries_trend_eval CXPR_TIMESERIES_TREND_RISING call
  else if named "falling" then cxpr_timeseries_trend_eval CXPR_TIMESERIES_TREND_FALLING call
  else if named "cross_above" then cxpr_timeseries_cross_eval CXPR_TIMESERIES_CROSS_ABOVE call
  else if named "cross_below" then cxpr_timeseries_cross_eval CXPR_TIMESERIES_CROSS_BELOW call
  else if named "net_up" then cxpr_timeseries_net_eval CXPR_TIMESERIES_NET_UP call
  else if named "net_down" then cxpr_timeseries_net_eval CXPR_TIMESERIES_NET_DOWN call
  else if named "repeat" then cxpr_timeseries_repeat call
  else if named "overlaps" then cxpr_timeseries_overlap_eval call
  else if named "delta" then cxpr_timeseries_delta call
  else if named "roc" then cxpr_timeseries_roc call
  else if named "highest" then cxpr_timeseries_window_eval CXPR_TIMESERIES_WINDOW_HIGHEST call
  else if named "lowest" then cxpr_timeseries_window_eval CXPR_TIMESERIES_WINDOW_LOWEST call
  else if named "window_sum" then cxpr_timeseries_window_agg_eval CXPR_TIMESERIES_AGG_SUM call
  else if named "window_mean" then cxpr_timeseries_window_agg_eval CXPR_TIMESERIES_AGG_MEAN call
  else if named "window_wma" then cxpr_timeseries_window_wma call
  else if named "window_highest_value" then cxpr_timeseries_window_agg_eval CXPR_TIMESERIES_AGG_HIGHEST call
  else if named "window_lowest_value" then cxpr_timeseries_window_agg_eval CXPR_TIMESERIES_AGG_LOWEST call
  else if named "window_stddev" then cxpr_timeseries_window_agg_eval CXPR_TIMESERIES_AGG_STDDEV call
  else if named "window_roc" then cxpr_timeseries_window_roc call
  else if named "bars_since_extreme" then cxpr_timeseries_bars_since_extreme call
  else if named "window_mean_absdev" then cxpr_timeseries_window_mean_absdev call
  else undef.
End timeseries.
