(* ===== verification/History.v ===== *)
(** * History: numeric columns behind names ([src/history.c])

    A history binds names to columns of doubles and a cursor.  It is registered as
    the index capability of its names: [name[k]] is the value [k] before the
    cursor, and a compound expression is evaluated in an overlay where the names
    have the values of that place.

    The columns are immutable storage of the host, described by the doubles at
    [base], [base + stride], ...; the cursor is a variable of the host; a provider
    asks a callback of the host for both. *)

From Stdlib Require Import Ascii String ZArith Lia.
From stdpp Require Import base list strings.
From S2P Require Import Prelude Float64 Types Ast References Registry Builtins EvalSupport EvalState TreeEval TypeCheck IRCompile IRTyped EvalApi.
Local Open Scope run_scope.
Local Open Scope eval_scope.
Local Open Scope nat_scope.

Inductive cxpr_history_bounds_policy : Type :=
  | CXPR_HISTORY_BOUNDS_ERROR
  | CXPR_HISTORY_BOUNDS_CLAMP_FIRST
  | CXPR_HISTORY_BOUNDS_LEGACY_NAN.

(** [src_name] is [None] for NULL. *)
Record cxpr_history_numeric_source : Type := mk_source {
  src_name : option string;
  src_values : list float64;
  src_stride : Z;
  src_count : Z
}.

(** [hs_cursor] and [hs_view] are [None] for NULL. *)
Record cxpr_history_numeric_state (W : Type) : Type := mk_history {
  hs_sources : list cxpr_history_numeric_source;
  hs_cursor : option (W → Z);
  hs_view : option (string → W → option (cxpr_history_numeric_source * Z) * W);
  hs_policy : cxpr_history_bounds_policy
}.
Arguments mk_history {W}. Arguments hs_sources {W}. Arguments hs_cursor {W}.
Arguments hs_view {W}. Arguments hs_policy {W}.

(** The offset an overlay is marked with; only the engine reads it. *)
Class HistoryContext (L : Type) : Type := { ctx_set_history_offset : L → Z → L }.

(** ** Registration *)

Definition named (s : cxpr_history_numeric_source) : bool :=
  match src_name s with Some (String _ _) => true | _ => false end.

Definition same_name (a b : cxpr_history_numeric_source) : bool :=
  match src_name a, src_name b with Some a, Some b => String.eqb a b | _, _ => false end.

(** A source with a name, storage and a count whose bytes can be addressed. *)
Definition source_ok (has_base : bool) (s : cxpr_history_numeric_source) : bool :=
  let stride := if (src_stride s =? 0)%Z then 8%Z else src_stride s in
  named s && has_base && negb (src_count s =? 0)%Z &&
  (src_count s - 1 <=? (SIZE_MAX - 8) / stride)%Z.

(** No two sources have one name. *)
Fixpoint distinct_names (earlier sources : list cxpr_history_numeric_source) : bool :=
  match sources with
  | [] => true
  | s :: sources => negb (existsb (same_name s) earlier) && distinct_names (earlier ++ [s]) sources
  end.

(** The address of [cxpr_history_numeric_index], and of [cxpr_history_numeric_free]. *)
Definition fn_history_index : Z := (-1)%Z.
Definition fn_history_free : cxpr_userdata_free_fn := free_host (-2).

(** [ud] is the address of the new state; the registry is unchanged and there is
    no state when the registration is refused. *)
Definition cxpr_register_history_numeric_sources {W} (reg : cxpr_registry)
    (sources : list cxpr_history_numeric_source) (has_base : cxpr_history_numeric_source → bool)
    (cursor : option (W → Z)) (policy : cxpr_history_bounds_policy) (ud : userdata)
    : option (cxpr_registry * cxpr_history_numeric_state W) :=
  match cursor, sources with
  | Some cursor, _ :: _ =>
      if forallb (λ s, source_ok (has_base s) s) sources && distinct_names [] sources then
        let '(ok, reg) :=
          cxpr_registry_add_index_capability_targets reg "history" (default EmptyString ∘ src_name <$> sources)
            CXPR_VALUE_NUMBER fn_history_index ud (Some fn_history_free) in
        if (ok : bool) then Some (reg, mk_history sources (Some cursor) None policy) else None
      else None
  | _, _ => None
  end.

Definition cxpr_register_history_contiguous_numbers {W} (reg : cxpr_registry) (name : option string)
    (values : option (list float64)) (cursor : option (W → Z)) (policy : cxpr_history_bounds_policy)
    (ud : userdata) : option (cxpr_registry * cxpr_history_numeric_state W) :=
  let column := default [] values in
  cxpr_register_history_numeric_sources reg
    [mk_source name column 8 (Z.of_nat (length column))] (λ _, has values) cursor policy ud.

(** The state keeps the names only. *)
Definition cxpr_register_history_numeric_provider {W} (reg : cxpr_registry) (names : list (option string))
    (view : option (string → W → option (cxpr_history_numeric_source * Z) * W))
    (policy : cxpr_history_bounds_policy) (ud : userdata)
    : option (cxpr_registry * cxpr_history_numeric_state W) :=
  let sources := (λ n, mk_source n [] 0 0) <$> names in
  match names, view with
  | _ :: _, Some view =>
      if forallb named sources && distinct_names [] sources then
        let '(ok, reg) :=
          cxpr_registry_add_index_capability_targets reg "history" (default EmptyString <$> names)
            CXPR_VALUE_NUMBER fn_history_index ud (Some fn_history_free) in
        if (ok : bool) then Some (reg, mk_history sources None (Some view) policy) else None
      else None
  | _, _ => None
  end.

(** ** Lookups *)

Section history.
Context {L W : Type} `{!EvalContext L} `{!HostCode W} `{!HexFormat} `{!EvalHost L W} `{!HistoryContext L}.
Context (reg : cxpr_registry) (fuel : nat).
Context (state : cxpr_history_numeric_state W).

Definition cursor_value : M L W Z :=
  match hs_cursor state with
  | Some cursor => λ s, Done (cursor (es_world s), s)
  | None => undef
  end.

(** The source of a name with its cursor. *)
Definition cxpr_history_find_source (name : string) : M L W (option (cxpr_history_numeric_source * Z)) :=
  match find (λ s, match src_name s with Some n => String.eqb n name | None => false end) (hs_sources state) with
  | None => ret None
  | Some source =>
      match hs_view state with
      | Some view => on_world (λ w, Done (view name w))
      | None => let! cursor := cursor_value in ret (Some (source, cursor))
      end
  end.

(** Reading outside the column is undefined. *)
Definition read_column (source : cxpr_history_numeric_source) (position : Z) : M L W (option float64) :=
  match src_values source !! Z.to_nat position with
  | Some d => ret (Some d)
  | None => undef
  end.

Definition history_error {A} (code : cxpr_error_code) (message : string) : M L W (option A) :=
  put_error code message ;; ret None.

(** [None] is [false]. *)
Definition cxpr_history_value_at (source : cxpr_history_numeric_source) (cursor offset : Z)
    : M L W (option float64) :=
  if (cursor <? 0)%Z || (src_count source <=? cursor)%Z then
    match hs_policy state with
    | CXPR_HISTORY_BOUNDS_LEGACY_NAN => ret (Some fnan)
    | _ => history_error CXPR_ERR_INDEX_OUT_OF_RANGE "History cursor is out of range"
    end
  else
    let position := (cursor - offset)%Z in
    if (position <? 0)%Z then
      match hs_policy state with
      | CXPR_HISTORY_BOUNDS_CLAMP_FIRST => read_column source 0
      | CXPR_HISTORY_BOUNDS_LEGACY_NAN => ret (Some fnan)
      | CXPR_HISTORY_BOUNDS_ERROR =>
          history_error CXPR_ERR_INDEX_OUT_OF_RANGE "History offset is out of range"
      end
    else read_column source position.

(** The array of references the target was counted to have; the entries behind the
    distinct ones are not initialised. *)
Definition references_of (target : cxpr_expr_ast) : list (option string) :=
  let count := buf_count (cxpr_expr_ast_references target 0) in
  let names := buf_names (cxpr_expr_ast_references target count) in
  (λ i, names !! i) <$> seq 0 count.

Fixpoint has_source (references : list (option string)) : M L W bool :=
  match references with
  | [] => ret false
  | None :: _ => undef
  | Some name :: references =>
      let! source := cxpr_history_find_source name in
      match source with
      | Some _ => ret true
      | None => has_source references
      end
  end.

(** The values of the sources [offset] samples back, set in the overlay. *)
Fixpoint bind_sources (references : list (option string)) (offset : Z) (shifted : L) : M L W (option L) :=
  match references with
  | [] => ret (Some shifted)
  | None :: _ => undef
  | Some name :: references =>
      let! source := cxpr_history_find_source name in
      match source with
      | None => bind_sources references offset shifted
      | Some (source, cursor) =>
          let! d := cxpr_history_value_at source cursor offset in
          match d, src_name source with
          | None, _ => ret None
          | Some d, Some name =>
              let! shifted := lift (ctx_set shifted name d) in bind_sources references offset shifted
          | Some _, None => undef
          end
      end
  end.

(** An offset as the index of an array is checked. *)
Definition history_offset (v : res) : M L W (option Z) :=
  match index_value (fst v) (of_Z INT64_MAX) with
  | Some d => let! i := convert_index d INT64_MAX in value_free v ;; ret (Some i)
  | None =>
      value_free v ;;
      history_error CXPR_ERR_INVALID_INDEX "History offset must be a finite non-negative integer"
  end.

(** [t] and [ti] are the trees of the target and of the index.  [None] is [false]:
    the target has no source.  An error leaves the result as it was. *)
Definition cxpr_history_numeric_resolve (t : nat) (target : cxpr_expr_ast) (ti : nat) (index : cxpr_expr_ast)
    : M L W (option res) :=
  if negb (has (hs_cursor state)) && negb (has (hs_view state)) then ret None
  else
    let references := references_of target in
    let! found := has_source references in
    if negb found then ret None
    else
      let! v := eval_of reg fuel ti index in
      match v with
      | None => ret (Some nan_res)
      | Some v =>
          let! offset := history_offset v in
          match offset with
          | None => ret (Some nan_res)
          | Some offset =>
              let! ctx := get_ctx in
              let! shifted := lift (ctx_overlay_new ctx) in
              let shifted := ctx_set_history_offset shifted offset in
              let! bound := bind_sources references offset shifted in
              match bound with
              | None => ret (Some nan_res)
              | Some shifted =>
                  push shifted ;;
                  let! out := eval_of reg fuel t target in
                  pop ;; ret (Some (default nan_res out))
              end
          end
      end.

(** The index is a new tree. *)
Definition cxpr_history_numeric_index (t : nat) (target : cxpr_expr_ast) (index : Z) : M L W (option res) :=
  let! index_tree := new_tree in
  let! v := cxpr_history_numeric_resolve t target index_tree (cxpr_expr_ast_number_new (of_Z index)) in
  free_tree index_tree ;; ret v.
End history.
