(* ===== verification/LibraryHost.v ===== *)
(** * LibraryHost: the callbacks the library registers itself
    ([src/registry/defaults.c], [src/timeseries.c], [src/history.c])

    [contains] and [within] get the tree of the call; so do the functions of
    [Timeseries.v]; a history of [History.v] is an index capability.  They evaluate
    subtrees, which may call them again: [library_host] is the host whose callbacks
    are these functions, one level of nesting per unit of [depth]; the other
    callbacks are those of a given host. *)

From Stdlib Require Import Ascii String ZArith Lia.
From stdpp Require Import base list strings.
From S2P Require Import Prelude Float64 Types Ast References Registry Builtins EvalSupport EvalState TreeEval TypeCheck IRCompile IRTyped EvalApi Timeseries History.
Local Open Scope run_scope.
Local Open Scope eval_scope.
Local Open Scope nat_scope.

(** ** Functions on trees ([defaults.c]) *)

(** [None] is 0: the values are no scalars. *)
Definition cxpr_contains_scalar_equal (left right : cxpr_value) : option bool :=
  if bool_decide (value_type left = value_type right) then
    match left, right with
    | VNum a, VNum b => Some (feqb a b)
    | VBool a, VBool b => Some (Bool.eqb a b)
    | VString a, VString b => Some (String.eqb a b)
    | VNull, VNull => Some true
    | VTimestamp a, VTimestamp b | VDuration a, VDuration b => Some (a =? b)%Z
    | _, _ => None
    end
  else Some false.

Definition cxpr_contains_param_index (name : string) : option nat :=
  if existsb (String.eqb name) ["source"; "value"]%string then Some 0
  else if existsb (String.eqb name) ["values"; "array"; "set"]%string then Some 1
  else None.

Definition cxpr_within_param_index (name : string) : option nat :=
  if existsb (String.eqb name) ["source"; "value"]%string then Some 0
  else if existsb (String.eqb name) ["min"; "lo"]%string then Some 1
  else if existsb (String.eqb name) ["max"; "hi"]%string then Some 2
  else if String.eqb name "include_min" then Some 3
  else if String.eqb name "include_max" then Some 4
  else None.

Inductive order_error : Type := positional_after_named | unknown_argument | duplicate_argument.

(** The arguments in their places; [ordered] has the places filled so far. *)
Fixpoint order_args (param_index : string → option nat) (args : list (cxpr_expr_ast * option string))
    (positional : nat) (seen_named : bool) (ordered : list (option cxpr_expr_ast))
    : list (option cxpr_expr_ast) + order_error :=
  match args with
  | [] => inl ordered
  | (a, None) :: args =>
      if seen_named then inr positional_after_named
      else order_args param_index args (S positional) false (<[positional := Some a]> ordered)
  | (a, Some name) :: args =>
      match param_index name with
      | None => inr unknown_argument
      | Some i =>
          match ordered !! i with
          | Some None => order_args param_index args positional true (<[i := Some a]> ordered)
          | _ => inr duplicate_argument
          end
      end
  end.

Definition args_with_names (args : list cxpr_expr_ast) (names : option (list (option string)))
    : list (cxpr_expr_ast * option string) :=
  imap (λ i a, (a, match names with Some names => default None (names !! i) | None => None end)) args.

Definition order_message (f : string) (e : order_error) : string :=
  match e with
  | positional_after_named => "Positional arguments cannot follow named arguments"
  | unknown_argument => "Unknown named argument for " ++ f ++ "()"
  | duplicate_argument => "Duplicate argument for " ++ f ++ "()"
  end.

Section builtins.
Context {L W : Type} `{!EvalContext L} `{!HostCode W} `{!HexFormat} `{!EvalHost L W}.
Context (reg : cxpr_registry) (fuel t : nat).

Definition bool_error (code : cxpr_error_code) (message : string) : M L W cxpr_value :=
  put_error code message ;; ret (VBool false).

Fixpoint contains_loop (source : cxpr_value) (values : list cxpr_value) : M L W cxpr_value :=
  match values with
  | [] => ret (VBool false)
  | v :: values =>
      match cxpr_contains_scalar_equal source v with
      | None => bool_error CXPR_ERR_TYPE_MISMATCH "contains() supports scalar values only"
      | Some true => ret (VBool true)
      | Some false => contains_loop source values
      end
  end.

Definition cxpr_fn_contains (args : list cxpr_expr_ast) (names : option (list (option string)))
    : M L W cxpr_value :=
  if negb (length args =? 2)
  then bool_error CXPR_ERR_WRONG_ARITY "contains() expects source and values"
  else
    match order_args cxpr_contains_param_index (args_with_names args names) 0 false (replicate 2 None) with
    | inr e => bool_error CXPR_ERR_SYNTAX (order_message "contains" e)
    | inl [Some source; Some values] =>
        or_return (VBool false) (eval_of reg fuel t source) (λ source,
        or_return (VBool false) (eval_of reg fuel t values) (λ values,
          match fst values with
          | VArray elements => contains_loop (fst source) elements
          | _ => bool_error CXPR_ERR_TYPE_MISMATCH "contains() values argument must be an array"
          end))
    | inl _ => bool_error CXPR_ERR_WRONG_ARITY "contains() requires source and values"
    end.

Definition cxpr_within_eval_number (a : cxpr_expr_ast) : M L W (option float64) :=
  let! v := eval_of reg fuel t a in
  match v with
  | None => ret None
  | Some (VNum d, _) => ret (Some d)
  | Some _ => fail_with CXPR_ERR_TYPE_MISMATCH "within() source, min, and max must be numbers"
  end.

(** An absent flag is true. *)
Definition cxpr_within_eval_bool (a : option cxpr_expr_ast) : M L W (option bool) :=
  match a with
  | None => ret (Some true)
  | Some a =>
      let! v := eval_of reg fuel t a in
      match v with
      | None => ret None
      | Some (VBool b, _) => ret (Some b)
      | Some _ => fail_with CXPR_ERR_TYPE_MISMATCH "within() include_min/include_max must be bool"
      end
  end.

Definition cxpr_fn_within (args : list cxpr_expr_ast) (names : option (list (option string)))
    : M L W cxpr_value :=
  if (length args <? 3) || (5 <? length args)
  then bool_error CXPR_ERR_WRONG_ARITY
         "within() expects source, min, max, and optional include_min/include_max"
  else
    match order_args cxpr_within_param_index (args_with_names args names) 0 false (replicate 5 None) with
    | inr e => bool_error CXPR_ERR_SYNTAX (order_message "within" e)
    | inl [Some source; Some min; Some max; include_min; include_max] =>
        or_return (VBool false) (cxpr_within_eval_number source) (λ source,
        or_return (VBool false) (cxpr_within_eval_number min) (λ min,
        or_return (VBool false) (cxpr_within_eval_number max) (λ max,
        or_return (VBool false) (cxpr_within_eval_bool include_min) (λ include_min,
        or_return (VBool false) (cxpr_within_eval_bool include_max) (λ include_max,
          ret (VBool ((if (include_min : bool) then fgeb source min else fgtb source min) &&
                      (if (include_max : bool) then fleb source max else fltb source max))))))))
    | inl _ => bool_error CXPR_ERR_WRONG_ARITY "within() requires source, min, and max"
    end.
End builtins.

(** ** The host *)

Section host.
Context {L W : Type} `{!EvalContext L} `{!IRContext L} `{!ApiContext L} `{!HistoryContext L}.
Context `{!HostCode W} `{!HexFormat}.
Context (base : EvalHost L W) (reg : cxpr_registry) (prepared : string → prepared_program) (fuel : nat).
Context (histories : userdata → option (cxpr_history_numeric_state W)).

(** The call's arguments as a function on trees gets them. *)
Definition on_call (call : cxpr_expr_ast)
    (f : list cxpr_expr_ast → option (list (option string)) → M L W cxpr_value) : M L W res :=
  match ast_node call with
  | CXPR_NODE_FUNCTION_CALL _ args names => let! v := f args names in ret (owned v)
  | _ => undef
  end.

Fixpoint library_host (depth : nat) : EvalHost L W :=
  let nested {A} (m : EvalHost L W → M L W A) : M L W A :=
    match depth with
    | O => λ _, OutOfFuel
    | S depth => m (library_host depth)
    end in
  {| host_producer := @host_producer L W base;
     host_ast f call ud :=
       match f with
       | fn_contains => nested (λ h, on_call call (cxpr_fn_contains (EvalHost0 := h) reg fuel caller_tree))
       | fn_within => nested (λ h, on_call call (cxpr_fn_within (EvalHost0 := h) reg fuel caller_tree))
       | fn_timeseries symbol => nested (λ h,
           let! v := cxpr_timeseries_call (EvalHost0 := h) reg prepared fuel caller_tree symbol call in
           ret (owned v))
       | fn_ast _ => @host_ast L W base f call ud
       end;
     host_lookback := @host_lookback L W base;
     host_capability resolve target index ud :=
       if (resolve =? fn_history_index)%Z then
         match histories ud with
         | Some state => nested (λ h,
             cxpr_history_numeric_index (EvalHost0 := h) reg fuel state caller_tree target index)
         | None => undef
         end
       else @host_capability L W base resolve target index ud |}.
End host.
