(* ===== verification/FloatOrder.v ===== *)
(** * FloatOrder: comparisons of doubles are a weak order

    [SFltb] compares sign, exponent and significand in that order; on doubles that
    are not NaN it is a strict weak order.  Zeros of both signs are equivalent. *)

From Stdlib Require Import ZArith Lia SpecFloat.
From stdpp Require Import base list.
From S2P Require Import Prelude Float64.
Local Open Scope Z_scope.

(** Sign and size, exponent, significand. *)
Definition order_key (x : float64) : Z * Z * Z :=
  match x with
  | S754_zero _ | S754_nan => (0, 0, 0)
  | S754_infinity false => (2, 0, 0)
  | S754_infinity true => (-2, 0, 0)
  | S754_finite false m e => (1, e, Z.pos m)
  | S754_finite true m e => (-1, - e, Z.neg m)
  end.

Definition key_lt (a b : Z * Z * Z) : Prop :=
  a.1.1 < b.1.1 ∨ a.1.1 = b.1.1 ∧ (a.1.2 < b.1.2 ∨ a.1.2 = b.1.2 ∧ a.2 < b.2).

Lemma fltb_key x y :
  fltb x y = true ↔ fisnan x = false ∧ fisnan y = false ∧ key_lt (order_key x) (order_key y).
Proof.
  unfold fltb, SFltb, key_lt.
  destruct x as [sx|[]| |[] mx ex], y as [sy|[]| |[] my ey]; simpl; split; intros H;
    repeat match goal with H : _ ∧ _ |- _ => destruct H end; try discriminate; try lia; split_and?; try done; try lia.
  all: destruct (Z.compare_spec ex ey) as [->|?|?]; simpl in *; try discriminate; try lia; try done.
  all: change (Pos.compare_cont Eq mx my) with (Pos.compare mx my) in *;
       destruct (Pos.compare_spec mx my); simpl in *; try discriminate; try lia; try done.
Qed.

Section weak_order.
Implicit Types x y z : float64.

Lemma fltb_irrefl x : fltb x x = false.
Proof. apply not_true_iff_false. rewrite fltb_key. unfold key_lt. lia. Qed.

Lemma fltb_asym x y : fltb x y = true → fltb y x = false.
Proof. rewrite <-not_true_iff_false, !fltb_key. unfold key_lt. lia. Qed.

Lemma fltb_trans x y z : fltb x y = true → fltb y z = true → fltb x z = true.
Proof. rewrite !fltb_key. unfold key_lt. intuition lia. Qed.

Lemma fltb_negtrans x y z :
  fisnan x = false → fisnan y = false → fisnan z = false →
  fltb x y = false → fltb y z = false → fltb x z = false.
Proof.
  intros Hx Hy Hz. rewrite <-!not_true_iff_false, !fltb_key, Hx, Hy, Hz. unfold key_lt. lia.
Qed.

Lemma fleb_fltb x y : fisnan x = false → fisnan y = false → fleb x y = negb (fltb y x).
Proof.
  unfold fleb, fltb, SFleb, SFltb. intros Hx Hy.
  destruct x as [sx|[]| |[] mx ex], y as [sy|[]| |[] my ey]; try done; simpl;
    rewrite (Z.compare_antisym ex ey); destruct (ex ?= ey); try done; simpl;
    change (Pos.compare_cont Eq my mx) with (my ?= mx)%positive;
    change (Pos.compare_cont Eq mx my) with (mx ?= my)%positive;
    rewrite (Pos.compare_antisym mx my); by destruct (mx ?= my)%positive.
Qed.
End weak_order.
