(* ===== verification/TimeseriesProofs.v ===== *)
(** * TimeseriesProofs: what the time-series functions compute

    A series gives an expression's value at each offset.  When the expression
    evaluates to its series, the functions compute the reference definitions: an
    extreme value is one of the samples and no sample is beyond it, a trend holds
    when all neighbours are ordered, two conditions overlap when each held within
    the bars. *)

From Stdlib Require Import Ascii String ZArith Lia.
From stdpp Require Import base list strings.
From S2P Require Import Prelude Float64 FloatOrder Types Ast References Registry Builtins EvalSupport EvalState TreeEval TypeCheck IRCompile IRTyped EvalApi Timeseries.
Local Open Scope run_scope.
Local Open Scope eval_scope.
Local Open Scope nat_scope.

(** ** Extreme values *)

(** [m] is the first of the samples [0 .. n - 1] that no sample beats. *)
Definition first_best (beats : float64 → float64 → bool) (f : nat → float64) (n k : nat) : Prop :=
  k < n ∧ (∀ j, j < n → beats (f j) (f k) = false) ∧ (∀ j, j < k → beats (f k) (f j) = true).

(** [beats] is a strict weak order on the samples. *)
Definition orders (beats : float64 → float64 → bool) (f : nat → float64) (n : nat) : Prop :=
  (∀ i, i < n → beats (f i) (f i) = false) ∧
  (∀ i j, i < n → j < n → beats (f i) (f j) = true → beats (f j) (f i) = false) ∧
  (∀ i j k, i < n → j < n → k < n →
     beats (f i) (f j) = false → beats (f j) (f k) = false → beats (f i) (f k) = false).

Lemma fltb_orders f n : (∀ i, i < n → fisnan (f i) = false) → orders fltb f n.
Proof.
  intros Hf. split_and!.
  - intros i _. apply fltb_irrefl.
  - intros i j _ _. apply fltb_asym.
  - intros i j k Hi Hj Hk. apply fltb_negtrans; auto.
Qed.

Lemma fgtb_orders f n : (∀ i, i < n → fisnan (f i) = false) → orders fgtb f n.
Proof.
  intros Hf. split_and!.
  - intros i _. apply fltb_irrefl.
  - intros i j _ _. apply fltb_asym.
  - intros i j k Hi Hj Hk H1 H2. apply (fltb_negtrans (f k) (f j) (f i)); auto.
Qed.

(** One more sample: it replaces the best when it beats it. *)
Lemma first_best_next beats f n k :
  orders beats f (S n) → first_best beats f n k →
  first_best beats f (S n) (if beats (f n) (f k) then n else k).
Proof.
  intros (Hirr & Hasym & Hneg) (Hk & Hbest & Hfirst). destruct (beats (f n) (f k)) eqn:Hn.
  - split_and!; [lia| |].
    + intros j Hj. destruct (decide (j = n)) as [->|]; [apply Hirr; lia|].
      apply (Hneg j k n); [lia..|apply Hbest; lia|apply Hasym; [lia..|done]].
    + intros j Hj. destruct (beats (f n) (f j)) eqn:Hb; [done|].
      by rewrite (Hneg n j k ltac:(lia) ltac:(lia) ltac:(lia) Hb (Hbest j ltac:(lia))) in Hn.
  - split_and!; [lia| |done].
    intros j Hj. destruct (decide (j = n)) as [->|]; [done|apply Hbest; lia].
Qed.

Lemma first_best_one beats f : orders beats f 1 → first_best beats f 1 0.
Proof. intros (Hirr & _). split_and!; [lia| |lia]. intros j Hj. replace j with 0 by lia. apply Hirr. lia. Qed.

Lemma first_best_unique beats f n k k' : first_best beats f n k → first_best beats f n k' → k = k'.
Proof.
  intros (Hk & Hb & Hf) (Hk' & Hb' & Hf').
  destruct (Nat.lt_trichotomy k k') as [Hlt|[->|Hlt]]; [|done|].
  - specialize (Hf' k Hlt). by rewrite (Hb k' Hk') in Hf'.
  - specialize (Hf k' Hlt). by rewrite (Hb' k Hk) in Hf.
Qed.

Lemma orders_less beats f n m : m ≤ n → orders beats f n → orders beats f m.
Proof.
  intros Hm (H1 & H2 & H3). split_and!.
  - intros i Hi. apply H1. lia.
  - intros i j Hi Hj. apply H2; lia.
  - intros i j k Hi Hj Hk. apply H3; lia.
Qed.

(** ** Reference definitions *)

(** The samples that are numbers, newest first. *)
Definition numbers (f : nat → float64) (n : nat) : list float64 :=
  filter (λ d, fisnan d = false) (f <$> seq 0 n).

Definition total (values : list float64) : float64 := foldl fadd fzero values.

(** ** Series *)

Section series.
Context {L W : Type} `{!EvalContext L} `{!IRContext L} `{!ApiContext L} `{!HostCode W} `{!HexFormat}.
Context `{!EvalHost L W}.
Context (reg : cxpr_registry) (prepared : string → prepared_program) (fuel t : nat).
(** The states the evaluation stays in. *)
Context (I : est L W → Prop).
Implicit Types s : est L W.

Abbreviation eval_number := (cxpr_eval_ast_number reg prepared fuel t).
Abbreviation number_at := (cxpr_eval_ast_number_at_offset reg prepared fuel t).
Abbreviation bool_at := (cxpr_eval_ast_bool_at_offset reg prepared fuel t).

(** A computation that gives [x] and stays in [I]. *)
Definition gives {A} (m : M L W A) (x : A) : Prop := ∀ s, I s → ∃ s', m s = Done (x, s') ∧ I s'.

(** [a] has the value [f i] at every offset [i < n]. *)
Definition number_series (a : cxpr_expr_ast) (f : nat → float64) (n : nat) : Prop :=
  ∀ i, i < n → gives (number_at a (offset_of i)) (Some (f i)).
Definition bool_series (a : cxpr_expr_ast) (f : nat → bool) (n : nat) : Prop :=
  ∀ i, i < n → gives (bool_at a (offset_of i)) (Some (f i)).

(** [a] gives the number of samples [n]. *)
Definition counts (a : cxpr_expr_ast) (least n : Z) : Prop :=
  ∃ d, gives (eval_number a) (Some d) ∧ whole_samples d least = Some n.

Lemma gives_ret {A} (x : A) : gives (ret x) x.
Proof. intros s Hs. by exists s. Qed.

Lemma gives_bind {A B} (m : M L W A) (k : A → M L W B) x y :
  gives m x → gives (k x) y → gives (bind m k) y.
Proof.
  intros Hm Hk s Hs. destruct (Hm s Hs) as (s1 & E1 & H1). destruct (Hk s1 H1) as (s2 & E2 & H2).
  exists s2. unfold bind. rewrite E1. cbn [run_bind]. by split.
Qed.

Lemma gives_or_return {A} otherwise (m : M L W (option A)) k x v :
  gives m (Some x) → gives (k x) v → gives (or_return otherwise m k) v.
Proof. intros Hm Hk. unfold or_return. by eapply gives_bind. Qed.

Lemma number_series_less a f n m : m ≤ n → number_series a f n → number_series a f m.
Proof. intros Hm Ha i Hi. apply Ha. lia. Qed.

Lemma gives_samples_of a least n message :
  counts a least n → gives (samples_of reg prepared fuel t a least message) (Some n).
Proof.
  intros (d & Hd & Hn). unfold samples_of. eapply gives_bind; [exact Hd|]. simpl. rewrite Hn. apply gives_ret.
Qed.

Lemma gives_value_samples otherwise span name value samples names least n k v :
  counts samples least n → gives (k value n) v →
  gives (value_samples reg prepared fuel t otherwise
           (Ast span (CXPR_NODE_FUNCTION_CALL name [value; samples] names)) least k) v.
Proof.
  intros Hn Hk. unfold value_samples, with_args. simpl. eapply gives_or_return; [|exact Hk].
  by apply gives_samples_of.
Qed.

(** ** Loops *)

Lemma sample_loop_gives {A} a f n (g : nat → float64 → A → A) i count acc :
  number_series a f n → i + count ≤ n →
  gives (sample_loop reg prepared fuel t a g i count acc)
    (Some (foldl (λ acc j, g j (f j) acc) acc (seq i count))).
Proof.
  intros Ha. revert i acc. induction count as [|count IH]; intros i acc Hi; cbn [sample_loop seq foldl].
  { apply gives_ret. }
  eapply gives_bind; [apply Ha; lia|]. simpl. apply IH. lia.
Qed.

Lemma foldl_step {A} (g : A → nat → A) n acc : foldl g acc (seq 0 (S n)) = g (foldl g acc (seq 0 n)) n.
Proof. by rewrite seq_S, foldl_app. Qed.

Definition extreme_beats (mode : window_mode) : float64 → float64 → bool :=
  match mode with
  | CXPR_TIMESERIES_WINDOW_HIGHEST => fgtb
  | CXPR_TIMESERIES_WINDOW_LOWEST => fltb
  end.

Lemma extreme_orders mode f n : (∀ i, i < n → fisnan (f i) = false) → orders (extreme_beats mode) f n.
Proof. destruct mode; [apply fgtb_orders|apply fltb_orders]. Qed.

(** The loop that keeps the first sample no other beats. *)
Lemma extreme_fold beats f n acc :
  0 < n → orders beats f n →
  ∃ k, first_best beats f n k ∧
    foldl (λ out j, if (j =? 0) || beats (f j) out then f j else out) acc (seq 0 n) = f k.
Proof.
  intros Hn. destruct n as [|n]; [lia|]. clear Hn. induction n as [|n IH]; intros Ho.
  { exists 0. split; [by apply first_best_one|done]. }
  destruct IH as (k & Hk & Hfold); [by apply (orders_less _ _ (S (S n))); [lia|]|].
  eexists. split; [by apply first_best_next|]. rewrite foldl_step, Hfold. simpl. by destruct (beats (f (S n)) (f k)).
Qed.

Definition extreme_call (span : option cxpr_source_span) (name : string) (value samples : cxpr_expr_ast)
    (names : option (list (option string))) : cxpr_expr_ast :=
  Ast span (CXPR_NODE_FUNCTION_CALL name [value; samples] names).

Lemma window_extreme mode span name value samples names f n :
  counts samples 1 n → number_series value f (Z.to_nat n) → (∀ i, i < Z.to_nat n → fisnan (f i) = false) →
  ∃ k, first_best (extreme_beats mode) f (Z.to_nat n) k ∧
    gives (cxpr_timeseries_window_eval reg prepared fuel t mode (extreme_call span name value samples names))
      (VNum (f k)).
Proof.
  intros Hc Ha Hnan. assert (0 < Z.to_nat n).
  { destruct Hc as (d & _ & Hw). unfold whole_samples in Hw. case_match eqn:Hm; [discriminate|].
    injection Hw as <-. apply orb_false_iff in Hm as [_ Hm]. apply Z.ltb_ge in Hm. lia. }
  destruct (extreme_fold (extreme_beats mode) f (Z.to_nat n) fzero) as (k & Hk & Hfold);
    [done|by apply extreme_orders|].
  exists k. split; [done|]. unfold cxpr_timeseries_window_eval, extreme_call.
  eapply gives_value_samples; [done|]. eapply gives_or_return; [by eapply sample_loop_gives|]. simpl.
  assert (foldl _ fzero (seq 0 (Z.to_nat n)) = f k) as -> by (rewrite <-Hfold; by destruct mode).
  apply gives_ret.
Qed.

(** ** Trends and conditions *)

Definition trend_beats (mode : trend_mode) : float64 → float64 → bool :=
  match mode with
  | CXPR_TIMESERIES_TREND_RISING => fgtb
  | CXPR_TIMESERIES_TREND_FALLING => fltb
  end.

Lemma trend_loop_gives mode a f n i count :
  number_series a f n → i + count < n →
  gives (trend_loop reg prepared fuel t mode a i count)
    (VBool (forallb (λ j, trend_beats mode (f j) (f (S j))) (seq i count))).
Proof.
  intros Ha. revert i. induction count as [|count IH]; intros i Hi; cbn [trend_loop seq forallb].
  { apply gives_ret. }
  eapply gives_or_return; [apply Ha; lia|]. eapply gives_or_return; [apply Ha; lia|]. simpl.
  destruct mode; simpl.
  - destruct (fgtb (f i) (f (S i))); simpl; [apply IH; lia|apply gives_ret].
  - destruct (fltb (f i) (f (S i))); simpl; [apply IH; lia|apply gives_ret].
Qed.

Lemma repeat_loop_gives a f n i count :
  bool_series a f n → i + count ≤ n →
  gives (repeat_loop reg prepared fuel t a i count) (VBool (forallb f (seq i count))).
Proof.
  intros Ha. revert i. induction count as [|count IH]; intros i Hi; cbn [repeat_loop seq forallb].
  { apply gives_ret. }
  eapply gives_or_return; [apply Ha; lia|]. simpl. destruct (f i); simpl; [apply IH; lia|apply gives_ret].
Qed.

Lemma overlap_loop_gives x y f g n x_seen y_seen i count :
  bool_series x f n → bool_series y g n → i + count ≤ n → x_seen && y_seen = false →
  gives (overlap_loop reg prepared fuel t x y x_seen y_seen i count)
    (VBool ((x_seen || existsb f (seq i count)) && (y_seen || existsb g (seq i count)))).
Proof.
  intros Hx Hy. revert x_seen y_seen i. induction count as [|count IH]; intros x_seen y_seen i Hi Hs;
    cbn [overlap_loop seq existsb].
  { rewrite !orb_false_r, Hs. apply gives_ret. }
  assert (Hsee : ∀ seen a h, bool_series a h n → gives (seen_at reg prepared fuel t seen a i) (Some (negb seen && h i))).
  { intros [] a h Ha; simpl; [apply gives_ret|]. apply Ha. lia. }
  eapply gives_or_return; [by apply Hsee|]. eapply gives_or_return; [by apply Hsee|]. cbv zeta.
  replace (x_seen || (f i || existsb f (seq (S i) count)))
    with ((x_seen || negb x_seen && f i) || existsb f (seq (S i) count)) by (destruct x_seen, (f i); done).
  replace (y_seen || (g i || existsb g (seq (S i) count)))
    with ((y_seen || negb y_seen && g i) || existsb g (seq (S i) count)) by (destruct y_seen, (g i); done).
  destruct ((x_seen || _) && (y_seen || _)) eqn:Hboth.
  - apply andb_true_iff in Hboth as [-> ->]. apply gives_ret.
  - apply IH; [lia|done].
Qed.

(** ** Aggregates *)

Lemma aggregate_fold mode f n g :
  foldl (λ g j, aggregate_step mode (f j) g) g (seq 0 n) =
  foldl (λ g d, aggregate_step mode d g) g (numbers f n).
Proof.
  unfold numbers. revert g. generalize 0. induction n as [|n IH]; intros i g; [done|].
  cbn [seq fmap list_fmap foldl]. destruct (fisnan (f i)) eqn:Hn.
  - rewrite filter_cons_False by (by rewrite Hn). rewrite IH. f_equal. unfold aggregate_step. by rewrite Hn.
  - rewrite filter_cons_True by done. cbn [foldl]. apply IH.
Qed.

(** The sums and the count after the numbers [l]. *)
Lemma aggregate_sums mode l g :
  Forall (λ d, fisnan d = false) l →
  let r := foldl (λ g d, aggregate_step mode d g) g l in
  ag_sum r = foldl fadd (ag_sum g) l ∧
  ag_sumsq r = foldl fadd (ag_sumsq g) ((λ d, fmul d d) <$> l) ∧ ag_count r = ag_count g + length l.
Proof.
  intros Hl. revert g. induction Hl as [|d l Hd Hl IH]; intros g; cbn [foldl fmap list_fmap length].
  { by rewrite Nat.add_0_r. }
  destruct (IH (aggregate_step mode d g)) as (-> & -> & ->). unfold aggregate_step. rewrite Hd. simpl.
  split_and!; [done|done|lia].
Qed.

Definition aggregate_beats (mode : agg_mode) : float64 → float64 → bool :=
  match mode with
  | CXPR_TIMESERIES_AGG_HIGHEST => fgtb
  | CXPR_TIMESERIES_AGG_LOWEST => fltb
  | _ => λ _ _, false
  end.

Lemma first_best_ext beats f g n k :
  (∀ i, i < n → f i = g i) → first_best beats f n k → first_best beats g n k.
Proof.
  intros Hfg (Hk & Hb & Hf). split_and!; [done| |].
  - intros j Hj. rewrite <-!Hfg by lia. by apply Hb.
  - intros j Hj. rewrite <-!Hfg by lia. by apply Hf.
Qed.

Lemma aggregate_orders mode l :
  Forall (λ d, fisnan d = false) l → orders (aggregate_beats mode) (λ i, nth i l fzero) (length l).
Proof.
  intros Hl. assert (Hn : ∀ i, i < length l → fisnan (nth i l fzero) = false).
  { intros i Hi. destruct (nth_lookup_or_length l i fzero) as [Hx|]; [|lia].
    by apply (Forall_lookup_1 _ _ _ _ Hl Hx). }
  destruct mode; simpl; try (by split_and!; intros); [by apply fgtb_orders|by apply fltb_orders].
Qed.

Lemma aggregate_extreme mode l g :
  Forall (λ d, fisnan d = false) l → l ≠ [] → ag_count g = 0 →
  ∃ k, first_best (aggregate_beats mode) (λ i, nth i l fzero) (length l) k ∧
    ag_extreme (foldl (λ g d, aggregate_step mode d g) g l) = nth k l fzero.
Proof.
  intros Hl Hne Hg. induction l as [|d l IH] using rev_ind; [done|]. clear Hne.
  pose proof (aggregate_orders mode _ Hl) as Ho. apply Forall_app in Hl as [Hl Hd]. rewrite Forall_singleton in Hd.
  rewrite foldl_snoc, length_app in *. cbn [length] in *. rewrite Nat.add_1_r in *. unfold aggregate_step at 1.
  rewrite Hd. cbn [ag_extreme]. destruct (aggregate_sums mode l g Hl) as (_ & _ & ->). rewrite Hg.
  destruct (decide (l = [])) as [->|Hne]; [exists 0; split; [by apply first_best_one|done]|].
  destruct (IH Hl Hne) as (k & Hk & Hext). assert (length l ≠ 0) by (by destruct l).
  rewrite (proj2 (Nat.eqb_neq _ _)) by lia. rewrite Hext.
  assert (Hk' : first_best (aggregate_beats mode) (λ i, nth i (l ++ [d]) fzero) (length l) k)
    by (eapply first_best_ext; [|exact Hk]; intros i Hi; cbv beta; symmetry; apply app_nth1; exact Hi).
  destruct Hk as (Hlt & _). apply (first_best_next _ _ _ _ Ho) in Hk'. cbv beta in Hk'.
  assert (Hd' : nth (length l) (l ++ [d]) fzero = d) by (by rewrite app_nth2, Nat.sub_diag by lia).
  assert (Hk1 : nth k (l ++ [d]) fzero = nth k l fzero) by (by apply app_nth1).
  rewrite Hd', Hk1 in Hk'. eexists. split; [exact Hk'|].
  destruct mode; cbn [aggregate_beats orb]; try congruence;
    by match goal with |- context [if ?c then length l else _] => destruct c end.
Qed.

(** What an aggregate is of the numbers [l]; an extreme is chosen by [k]. *)
Definition aggregate_of (mode : agg_mode) (l : list float64) (k : nat) : float64 :=
  let count := offset_of (length l) in
  match l, mode with
  | [], _ => fzero
  | _, CXPR_TIMESERIES_AGG_SUM => total l
  | _, CXPR_TIMESERIES_AGG_MEAN => fdiv (total l) count
  | _, CXPR_TIMESERIES_AGG_STDDEV =>
      let mean := fdiv (total l) count in
      let variance := fsub (fdiv (total ((λ d, fmul d d) <$> l)) count) (fmul mean mean) in
      fsqrt (if fgtb variance fzero then variance else fzero)
  | _, _ => nth k l fzero
  end.

Lemma aggregate_result_of mode l :
  Forall (λ d, fisnan d = false) l →
  ∃ k, (l ≠ [] → first_best (aggregate_beats mode) (λ i, nth i l fzero) (length l) k) ∧
    aggregate_result mode (foldl (λ g d, aggregate_step mode d g) (mk_aggregate fzero fzero fzero 0) l) =
    aggregate_of mode l k.
Proof.
  intros Hl. destruct (decide (l = [])) as [->|Hne]; [by exists 0|].
  destruct (aggregate_sums mode l (mk_aggregate fzero fzero fzero 0) Hl) as (Hs & Hq & Hc).
  destruct (aggregate_extreme mode l (mk_aggregate fzero fzero fzero 0) Hl Hne eq_refl) as (k & Hk & He).
  exists k. split; [done|]. unfold aggregate_result. rewrite Hs, Hq, Hc, He. simpl.
  destruct l; [done|]. by destruct mode.
Qed.

Lemma numbers_numbers f n : Forall (λ d, fisnan d = false) (numbers f n).
Proof. apply Forall_forall. unfold numbers. by intros d [Hd _]%list_elem_of_filter. Qed.

(** ** The functions *)

(** The highest (lowest) value of a window is the newest sample no sample of the
    window beats: when the expression evaluates to the series [f] at the offsets
    of the window and no sample is NaN, [highest] and [lowest] return the sample at
    the first offset [k] whose value no other sample exceeds (falls below). *)
Theorem window_extreme_correct mode span name value samples names f n :
  counts samples 1 n → number_series value f (Z.to_nat n) → (∀ i, i < Z.to_nat n → fisnan (f i) = false) →
  ∃ k, k < Z.to_nat n ∧ (∀ j, j < Z.to_nat n → extreme_beats mode (f j) (f k) = false) ∧
    (∀ j, j < k → extreme_beats mode (f k) (f j) = true) ∧
    gives (cxpr_timeseries_window_eval reg prepared fuel t mode (extreme_call span name value samples names))
      (VNum (f k)).
Proof.
  intros Hc Ha Hn. destruct (window_extreme mode span name value samples names f n Hc Ha Hn) as (k & (H1 & H2 & H3) & Hg).
  by exists k.
Qed.

(** C11: the window aggregates are those of the samples that are numbers: their sum in
    the order of the offsets, its quotient by their count, the deviation computed
    from the sums of values and squares, the newest highest or lowest number; 0
    when no sample is a number. *)
Theorem window_aggregate_correct mode span name value samples names f n :
  counts samples 1 n → number_series value f (Z.to_nat n) →
  ∃ k, (numbers f (Z.to_nat n) ≠ [] →
          first_best (aggregate_beats mode) (λ i, nth i (numbers f (Z.to_nat n)) fzero)
            (length (numbers f (Z.to_nat n))) k) ∧
    gives (cxpr_timeseries_window_agg_eval reg prepared fuel t mode (extreme_call span name value samples names))
      (VNum (aggregate_of mode (numbers f (Z.to_nat n)) k)).
Proof.
  intros Hc Ha. destruct (aggregate_result_of mode _ (numbers_numbers f (Z.to_nat n))) as (k & Hk & He).
  exists k. split; [done|]. unfold cxpr_timeseries_window_agg_eval, extreme_call.
  eapply gives_value_samples; [done|]. eapply gives_or_return; [by eapply sample_loop_gives|]. simpl.
  rewrite aggregate_fold, He. apply gives_ret.
Qed.

(** [rising] and [falling] hold exactly when every sample of the window beats the
    one before it. *)
Theorem trend_correct mode span name value samples names f n :
  counts samples 2 n → number_series value f (Z.to_nat n) →
  ∃ b, gives (cxpr_timeseries_trend_eval reg prepared fuel t mode (extreme_call span name value samples names))
         (VBool b) ∧
    (b = true ↔ ∀ i, S i < Z.to_nat n → trend_beats mode (f i) (f (S i)) = true).
Proof.
  intros Hc Ha. eexists. split.
  - unfold cxpr_timeseries_trend_eval, extreme_call, with_args, check_argc. cbn [ast_node length Nat.eqb].
    eapply gives_value_samples; [done|]. apply (trend_loop_gives _ _ f (Z.to_nat n)); [done|].
    destruct Hc as (d & _ & Hw). unfold whole_samples in Hw. case_match eqn:Hm; [discriminate|].
    injection Hw as <-. apply orb_false_iff in Hm as [_ Hm]. apply Z.ltb_ge in Hm. lia.
  - rewrite forallb_forall. split.
    + intros Hall i Hi. apply Hall. apply in_seq. lia.
    + intros Hall i Hi%in_seq. apply Hall. lia.
Qed.

(** Two conditions overlap exactly when each of them held at some offset up to
    the number of bars. *)
Theorem overlap_correct span name x y bars names f g n :
  counts bars 0 n → bool_series x f (S (Z.to_nat n)) → bool_series y g (S (Z.to_nat n)) →
  ∃ b, gives (cxpr_timeseries_overlap_eval reg prepared fuel t
                (Ast span (CXPR_NODE_FUNCTION_CALL name [x; y; bars] names))) (VBool b) ∧
    (b = true ↔ (∃ i, i ≤ Z.to_nat n ∧ f i = true) ∧ ∃ j, j ≤ Z.to_nat n ∧ g j = true).
Proof.
  intros Hc Hx Hy. eexists. split.
  - unfold cxpr_timeseries_overlap_eval, with_args. simpl.
    eapply gives_or_return; [by apply gives_samples_of|]. simpl.
    by apply (overlap_loop_gives x y f g (S (Z.to_nat n)) false false 0 (S (Z.to_nat n))).
  - cbn [orb]. rewrite andb_true_iff, !existsb_exists. split.
    + intros [(i & Hi%in_seq & Hf) (j & Hj%in_seq & Hg)]. split; [exists i|exists j]; split; (lia || done).
    + intros [(i & Hi & Hf) (j & Hj & Hg)]. split; [exists i|exists j]; (split; [apply in_seq; lia|done]).
Qed.
End series.
