(* ===== verification/HistoryProofs.v ===== *)
(** * HistoryProofs: an indexed expression is the expression some samples back

    [HistoryContextLaws] says what a history relies on of the overlay it evaluates
    in.  Resolving [expression[k]] evaluates the expression where its sources have
    the values [k] before the cursor: it succeeds exactly when the expression has a
    value there, with that value, and leaves the caller's bindings alone. *)

From Stdlib Require Import Ascii String ZArith Lia SpecFloat.
From stdpp Require Import base list strings sets.
From S2P Require Import Prelude Float64 Types Ast References CallArgs Registry Builtins EvalSupport EvalState TreeEval TreeSem TypeCheck TreeEvalProofs IRCompile IRTyped EvalApi History.
Local Open Scope run_scope.
Local Open Scope eval_scope.
Local Open Scope nat_scope.

(** ** What a history relies on *)

Definition bound (name : string) (v : cxpr_value) (vars : string → option cxpr_value)
    (other : string) : option cxpr_value := if String.eqb other name then Some v else vars other.

(** [over_rep n vars pars ctx vars' pars']: an overlay with [n] numbers set in it
    over a context that binds [vars] and [pars]; the two bind [vars'] and [pars'].
    [under_rep] is what a context satisfies whose parameters an overlay does not
    change. *)
Class HistoryContextLaws (L : Type) `{!EvalContext L} `{!EvalContextLaws L} `{!HistoryContext L} : Type := {
  under_rep : list L → (string → option cxpr_value) → (string → option cxpr_value) → Prop;
  over_rep : nat → (string → option cxpr_value) → (string → option cxpr_value) → list L →
    (string → option cxpr_value) → (string → option cxpr_value) → Prop;
  under_ctx ctx vars pars : under_rep ctx vars pars → ctx_rep ctx vars pars;
  over_get_typed n vars pars ctx vars' pars' name :
    over_rep n vars pars ctx vars' pars' →
    ∃ r ctx', ctx_get_typed ctx name = Done (r, ctx') ∧ fst <$> r = vars' name ∧
      over_rep n vars pars ctx' vars' pars';
  over_get_param_typed n vars pars ctx vars' pars' name :
    over_rep n vars pars ctx vars' pars' →
    ∃ r ctx', ctx_get_param_typed ctx name = Done (r, ctx') ∧ fst <$> r = pars' name ∧
      over_rep n vars pars ctx' vars' pars';
  over_new ctx vars pars offset :
    under_rep ctx vars pars →
    ∃ c, ctx_overlay_new ctx = Done c ∧ over_rep 0 vars pars (ctx_set_history_offset c offset :: ctx) vars pars;
  over_set n c ctx vars pars vars' pars' name d :
    n < 50 → over_rep n vars pars (c :: ctx) vars' pars' →
    ∃ c', ctx_set c name d = Done c' ∧
      over_rep (S n) vars pars (c' :: ctx) (bound name (VNum d) vars') pars';
  over_pop n ctx vars pars vars' pars' :
    over_rep n vars pars ctx vars' pars' → under_rep (tail ctx) vars pars
}.

(** The evaluator in the overlay. *)
Definition over_laws {L} `{!EvalContext L} `{!EvalContextLaws L} `{!HistoryContext L} `{!HistoryContextLaws L}
    (n : nat) (vars pars : string → option cxpr_value) : EvalContextLaws L :=
  {| ctx_rep := over_rep n vars pars;
     rep_get_typed ctx vars' pars' name := over_get_typed n vars pars ctx vars' pars' name;
     rep_get_param_typed ctx vars' pars' name := over_get_param_typed n vars pars ctx vars' pars' name |}.

(** ** An expression depends on the names it mentions *)

Section locality.
Context {W : Type} `{!HostCode W}.
Context (reg : cxpr_registry) (vars vars' pars : string → option cxpr_value).

Abbreviation agrees a := (∀ name, name ∈ reference_names a → vars name = vars' name).

Lemma agrees_children s d : agrees (Ast s d) → visited_children d = children d →
  Forall (λ e, agrees e) (children d).
Proof.
  intros Hag Hv. apply Forall_forall. intros e He name Hn. apply Hag. rewrite occurrences_eq, Hv.
  apply elem_of_app. right. apply list_elem_of_In, in_flat_map. exists e.
  split; [by apply list_elem_of_In|]. by apply list_elem_of_In.
Qed.

Ltac open_agrees :=
  repeat match goal with
  | Hag : ∀ name, name ∈ reference_names (Ast _ _) → _ |- _ =>
      apply agrees_children in Hag; [|done]; simpl in Hag
  | Hf : Forall _ (_ :: _) |- _ => apply Forall_cons in Hf as [? Hf]
  end.

Lemma evaluates_local_mutual :
  (∀ a v, evaluates reg vars pars a v → agrees a → evaluates reg vars' pars a v) ∧
  (∀ args vs, evaluates_all reg vars pars args vs → Forall (λ a, agrees a) args →
     evaluates_all reg vars' pars args vs).
Proof.
  apply evaluates_mutual; intros.
  5: { constructor. match goal with Hag : agrees _ |- _ => rewrite <-Hag; [done|] end. simpl. set_solver. }
  all: open_agrees.
  all: try (econstructor; by eauto).
  - econstructor; [by eauto|]. destruct b; eauto.
  - match goal with Hb : cxpr_call_bind_args _ _ _ = _ |- _ =>
      pose proof (bind_forall _ _ _ _ _ ltac:(eassumption) Hb) as Ho end.
    open_agrees. eapply E_if; [done|done|done|by eauto|]. destruct b; eauto.
  - eapply E_call; [done|done|done| |done]. match goal with IH : _ → evaluates_all _ _ _ _ _ |- _ => apply IH end.
    by eapply bind_forall.
Qed.

Lemma evaluates_local a v : evaluates reg vars pars a v → agrees a → evaluates reg vars' pars a v.
Proof. apply evaluates_local_mutual. Qed.
End locality.

(** ** Names that are mentioned once *)

Lemma distinct_acc_NoDup {A} `{EqDecision A} (l acc : list A) :
  NoDup (acc ++ l) →
  fold_left (fun acc x => if bool_decide (x ∈ acc) then acc else acc ++ [x]) l acc = acc ++ l.
Proof.
  revert acc. induction l as [|x l IH]; intros acc Hnd; simpl; [by rewrite app_nil_r|].
  rewrite bool_decide_false.
  - rewrite IH; rewrite <-app_assoc; done.
  - apply NoDup_app in Hnd as (_ & Hd & _). set_solver.
Qed.

Lemma distinct_NoDup {A} `{EqDecision A} (l : list A) : NoDup l → distinct l = l.
Proof. apply (distinct_acc_NoDup l []). Qed.

(** Without an array to search in, every mention is counted. *)
Lemma references_counted a : buf_count (cxpr_expr_ast_references a 0) = length (reference_names a).
Proof.
  change (cxpr_expr_ast_references a 0) with (cxpr_collect_references 0 a buf_empty).
  rewrite (walk_occurrences 0 own_reference no_edge _ (collect_references_eq 0)).
  assert (Hfold : ∀ (l : list string) n, fold_left (add_unique 0) l (mk_buf [] n) = mk_buf [] (n + length l : nat)).
  { clear a. induction l as [|x l IH]; intros n; simpl; [by rewrite Nat.add_0_r|].
    unfold add_unique at 2. simpl. rewrite IH. f_equal. lia. }
  by unfold buf_empty; rewrite (Hfold (reference_names a) 0).
Qed.

(** ** Offsets *)

Local Open Scope Z_scope.
Lemma index_exact k : (0 ≤ k < 2 ^ 53)%Z →
  index_value (VNum (of_Z k)) (of_Z INT64_MAX) = Some (of_Z k) ∧ to_Z (of_Z k) = Some k.
Proof.
  intros Hk. destruct (decide (k = 0)) as [->|Hk0]; [by vm_compute|].
  rewrite of_Z_small by lia.
  assert (Hl : 0 <= Z.log2 k <= 52).
  { split; [apply Z.log2_nonneg|]. cut (Z.log2 k < 53); [lia|]. apply Z.log2_lt_pow2; lia. }
  set (l := Z.log2 k) in *. set (q := Z.to_pos (k * 2 ^ (52 - l))).
  assert (Hq : Z.pos q = k * 2 ^ (52 - l)) by (unfold q; rewrite Z2Pos.id; lia).
  assert (Hint : (if 0 <=? l - 52 then Z.pos q * 2 ^ (l - 52) else Z.pos q / 2 ^ (- (l - 52))) = k).
  { rewrite Hq. destruct (Z.leb_spec 0 (l - 52)).
    - replace (l - 52) with 0 by lia. replace (52 - l) with 0 by lia. lia.
    - replace (- (l - 52)) with (52 - l) by lia. by rewrite Z.div_mul by lia. }
  split.
  - unfold index_value. replace (ffloor _) with (of_Z k).
    + rewrite of_Z_small by lia. fold l q.
      change (of_Z INT64_MAX) with (S754_finite false 4503599627370496 11).
      unfold fneb, SFeqb, fgtb, SFltb, SFcompare. rewrite Z.compare_refl.
      change (Pos.compare_cont Eq q q) with (Pos.compare q q). rewrite Pos.compare_refl.
      by replace (11 ?= l - 52) with Gt by (symmetry; apply Z.compare_gt_iff; lia).
    + unfold ffloor, round_with. destruct (0 <=? l - 52) eqn:He; rewrite ?He in *.
      * rewrite of_Z_small by lia. done.
      * simpl. by rewrite Hint.
  - simpl. f_equal. destruct (0 <=? l - 52) eqn:He; [done|]. by rewrite Z.quot_div_nonneg by lia.
Qed.
Local Open Scope nat_scope.

(** ** Columns *)

(** The double [offset] before the cursor under a policy; [None] is an error. *)
Definition sample (policy : cxpr_history_bounds_policy) (source : cxpr_history_numeric_source)
    (cursor offset : Z) : option float64 :=
  if (cursor <? 0)%Z || (Z.of_nat (length (src_values source)) <=? cursor)%Z then
    match policy with CXPR_HISTORY_BOUNDS_LEGACY_NAN => Some fnan | _ => None end
  else if (cursor <? offset)%Z then
    match policy with
    | CXPR_HISTORY_BOUNDS_CLAMP_FIRST => src_values source !! 0
    | CXPR_HISTORY_BOUNDS_LEGACY_NAN => Some fnan
    | CXPR_HISTORY_BOUNDS_ERROR => None
    end
  else src_values source !! Z.to_nat (cursor - offset).

(** The storage has the length the source says. *)
Definition column_ok (source : cxpr_history_numeric_source) : Prop :=
  src_count source = Z.of_nat (length (src_values source)).

Section history.
Context {L W : Type} `{!EvalContext L} `{!EvalContextLaws L} `{!HistoryContext L} `{!HistoryContextLaws L}.
Context `{!HostCode W} `{!HexFormat} `{!EvalHost L W}.
Context (reg : cxpr_registry) (fuel : nat) (state : cxpr_history_numeric_state W) (cur : W → Z).
Context (vars pars : string → option cxpr_value).
Implicit Types s : est L W.
Hypothesis Hview : hs_view state = None.
Hypothesis Hcursor : hs_cursor state = Some cur.
Hypothesis Hcolumns : Forall column_ok (hs_sources state).

Definition source_of (name : string) : option cxpr_history_numeric_source :=
  find (λ source, match src_name source with Some n => String.eqb n name | None => false end) (hs_sources state).

Lemma source_of_ok name source : source_of name = Some source → column_ok source ∧ src_name source = Some name.
Proof.
  intros [Hin Hn]%find_some. split.
  - rewrite Forall_forall in Hcolumns. apply Hcolumns. by apply list_elem_of_In.
  - destruct (src_name source); [|done]. by apply String.eqb_eq in Hn as ->.
Qed.

Lemma find_source_run name s :
  cxpr_history_find_source state name s = Done ((λ source, (source, cur (es_world s))) <$> source_of name, s).
Proof.
  unfold cxpr_history_find_source, source_of. destruct (find _ _); [|done].
  by rewrite Hview; unfold cursor_value; rewrite Hcursor.
Qed.

(** Reading a column is in its bounds. *)
Lemma value_at_run source cursor offset s :
  column_ok source → (0 ≤ offset)%Z →
  match sample (hs_policy state) source cursor offset with
  | Some d => cxpr_history_value_at state source cursor offset s = Done (Some d, s)
  | None => ∃ err, cxpr_history_value_at state source cursor offset s = Done (None, put_err err s) ∧
              err_code err = CXPR_ERR_INDEX_OUT_OF_RANGE
  end.
Proof.
  intros Hok Ho. unfold sample, cxpr_history_value_at. rewrite Hok.
  destruct ((cursor <? 0)%Z || _) eqn:Hb; [by destruct (hs_policy state); eauto|].
  apply orb_false_iff in Hb as [Hc0%Z.ltb_ge Hlt%Z.leb_gt].
  replace ((cursor - offset) <? 0)%Z with (cursor <? offset)%Z
    by (destruct (Z.ltb_spec cursor offset), (Z.ltb_spec (cursor - offset) 0); lia || done).
  assert (Hread : ∀ p, (0 ≤ p)%Z → (p < Z.of_nat (length (src_values source)))%Z →
            ∃ d, src_values source !! Z.to_nat p = Some d ∧ read_column source p s = Done (Some d, s)).
  { intros p Hp0 Hp. destruct (lookup_lt_is_Some_2 (src_values source) (Z.to_nat p)) as [d Hd]; [lia|].
    exists d. split; [done|]. unfold read_column. by rewrite Hd. }
  destruct (Z.ltb_spec cursor offset).
  - destruct (hs_policy state); [by eauto| |done].
    destruct (Hread 0%Z) as (d & Hd & Hr); [lia|lia|]. change (Z.to_nat 0) with 0 in Hd. by rewrite Hd.
  - destruct (Hread (cursor - offset)%Z) as (d & Hd & Hr); [lia|lia|]. by rewrite Hd.
Qed.

(** ** The names of an expression, some samples back *)

Definition past (cursor k : Z) (name : string) : option cxpr_value :=
  match source_of name with
  | Some source => VNum <$> sample (hs_policy state) source cursor k
  | None => vars name
  end.

(** Every source that is mentioned has a value there. *)
Definition reached (cursor k : Z) (name : string) : Prop :=
  match source_of name with
  | Some source => is_Some (sample (hs_policy state) source cursor k)
  | None => True
  end.

#[local] Instance reached_dec cursor k name : Decision (reached cursor k name).
Proof. unfold reached. destruct (source_of name); apply _. Defined.

Definition bound_upto (cursor k : Z) (names : list string) (vars' : string → option cxpr_value) : Prop :=
  ∀ name, vars' name = if bool_decide (name ∈ names) then past cursor k name else vars name.

Lemma bound_upto_source cursor k names vars' name source d :
  source_of name = Some source → sample (hs_policy state) source cursor k = Some d →
  bound_upto cursor k names vars' → bound_upto cursor k (names ++ [name]) (bound name (VNum d) vars').
Proof.
  intros Hsrc Hd Hb other. unfold bound. destruct (String.eqb_spec other name) as [->|Hne].
  - rewrite bool_decide_true by set_solver. unfold past. by rewrite Hsrc, Hd.
  - rewrite Hb. by rewrite (bool_decide_ext _ (other ∈ names ++ [name])) by set_solver.
Qed.

Lemma bound_upto_plain cursor k names vars' name :
  source_of name = None → bound_upto cursor k names vars' → bound_upto cursor k (names ++ [name]) vars'.
Proof.
  intros Hsrc Hb other. rewrite Hb. destruct (decide (other = name)) as [->|].
  - rewrite (bool_decide_true (name ∈ names ++ [name])) by set_solver. unfold past. rewrite Hsrc.
    by case_bool_decide.
  - by rewrite (bool_decide_ext _ (other ∈ names ++ [name])) by set_solver.
Qed.

Lemma bind_sources_run k refs names n c s vars' :
  (0 ≤ k)%Z → n + length refs ≤ 50 → over_rep n vars pars (c :: es_ctx s) vars' pars →
  bound_upto (cur (es_world s)) k names vars' →
  if decide (Forall (reached (cur (es_world s)) k) refs) then
    ∃ c' n' vars'', bind_sources state (Some <$> refs) k c s = Done (Some c', s) ∧
      over_rep n' vars pars (c' :: es_ctx s) vars'' pars ∧
      bound_upto (cur (es_world s)) k (names ++ refs) vars''
  else ∃ err, bind_sources state (Some <$> refs) k c s = Done (None, put_err err s) ∧
         err_code err = CXPR_ERR_INDEX_OUT_OF_RANGE.
Proof.
  intros Hk. set (cursor := cur (es_world s)).
  revert names n c vars'. induction refs as [|name refs IH]; intros names n c vars' Hn Hover Hb.
  { rewrite decide_True by constructor. exists c, n, vars'. by rewrite app_nil_r. }
  rewrite fmap_cons. cbn [bind_sources]. unfold bind. rewrite find_source_run. cbn [run_bind].
  simpl in Hn. fold cursor.
  destruct (source_of name) as [source|] eqn:Hsrc; cbn [fmap option_fmap option_map].
  - destruct (source_of_ok _ _ Hsrc) as [Hok Hname]. rewrite Hname.
    pose proof (value_at_run source cursor k s Hok Hk) as Hval.
    destruct (sample (hs_policy state) source cursor k) as [d|] eqn:Hd.
    + rewrite Hval. cbn [run_bind].
      destruct (over_set n c (es_ctx s) vars pars vars' pars name d) as (c' & Hset & Hover'); [lia|done|].
      unfold lift. rewrite Hset. cbn [run_bind].
      specialize (IH (names ++ [name]) (S n) c' _ ltac:(lia) Hover' ltac:(by eapply bound_upto_source)).
      rewrite <-app_assoc in IH.
      rewrite (decide_ext (Forall _ (name :: refs)) (Forall (reached cursor k) refs)); [exact IH|].
      rewrite Forall_cons. unfold reached at 1. rewrite Hsrc, Hd. naive_solver.
    + rewrite decide_False.
      * destruct Hval as (err & -> & Hcode). by exists err.
      * rewrite Forall_cons. unfold reached at 1. rewrite Hsrc, Hd. by intros [[? ?] _].
  - specialize (IH (names ++ [name]) n c _ ltac:(lia) Hover ltac:(by apply bound_upto_plain)). rewrite <-app_assoc in IH.
    rewrite (decide_ext (Forall _ (name :: refs)) (Forall (reached cursor k) refs)); [exact IH|].
    rewrite Forall_cons. unfold reached at 1. rewrite Hsrc. naive_solver.
Qed.

Lemma has_source_run refs s :
  has_source state (Some <$> refs) s = Done (existsb (λ name, has (source_of name)) refs, s).
Proof.
  induction refs as [|name refs IH]; [done|]. rewrite fmap_cons. cbn [has_source existsb].
  unfold bind. rewrite find_source_run. cbn [run_bind]. by destruct (source_of name).
Qed.

(** ** Resolving *)

Lemma references_of_distinct target :
  NoDup (reference_names target) → references_of target = Some <$> reference_names target.
Proof.
  intros Hnd. unfold references_of.
  assert (Hcount : buf_count (cxpr_expr_ast_references target 0) = length (reference_names target)).
  { apply references_counted. }
  rewrite Hcount. destruct (references_collected target (length (reference_names target))) as (Hn & _ & _).
  rewrite Hn, distinct_NoDup, take_ge by done. apply list_eq. intros i.
  rewrite !list_lookup_fmap. destruct (decide (i < length (reference_names target))) as [Hi|Hi].
  - rewrite lookup_seq_lt by done. simpl.
    destruct (lookup_lt_is_Some_2 _ _ Hi) as [x Hx]. by rewrite Hx.
  - rewrite (lookup_ge_None_2 (seq _ _)) by (rewrite length_seq; lia). by rewrite lookup_ge_None_2 by lia.
Qed.

Hypothesis Hvars : ∀ name v, vars name = Some v → basic v = true.
Hypothesis Hpars : ∀ name v, pars name = Some v → basic v = true.

Lemma past_basic cursor k names vars' : bound_upto cursor k names vars' →
  ∀ name v, vars' name = Some v → basic v = true.
Proof.
  intros Hb name v. rewrite Hb. case_bool_decide; [|by eauto]. unfold past.
  destruct (source_of name); [|by eauto]. by intros (d & _ & ->)%fmap_Some.
Qed.

(** The states a callback is called in: the caller's pass is active. *)
Record ready s : Prop := {
  ready_ctx : under_rep (es_ctx s) vars pars;
  ready_live : live s caller_tree = true;
  ready_next : caller_tree < es_next s;
  ready_memo : ∃ m ms, es_memos s = m :: ms ∧ 0 < memo_depth m
}.

(** What a callback leaves alone. *)
Definition kept s s' : Prop :=
  es_world s' = es_world s ∧ es_memos s' = es_memos s ∧ es_offset s' = es_offset s ∧ es_next s ≤ es_next s'.

Lemma literal_run ti d s :
  0 < fuel → ready s →
  eval_of reg fuel ti (cxpr_expr_ast_number_new d) s = Done (Some (owned (VNum d)), put_err error_zero s).
Proof.
  intros Hf [_ _ _ ([entries [|n]] & ms & Hm & Hd)]; [simpl in Hd; lia|].
  destruct s as [ctx memos err w off next freed]. simpl in Hm. subst memos.
  assert (Hnode : ∀ s, cxpr_eval_node fuel reg ti (cxpr_expr_ast_number_new d) s = Done (owned (VNum d), s)).
  { intros s. destruct fuel as [|f]; [lia|]. simpl. unfold eval_node_step, bind, eval_lookback_offset. cbn [run_bind].
    by destruct (fneb (es_offset s) fzero). }
  unfold eval_of, eval_value_of, bind, set_err, lift, memo, set_memo. simpl. by rewrite Hnode.
Qed.

Lemma offset_run k s :
  (0 ≤ k < 2 ^ 53)%Z → history_offset (owned (VNum (of_Z k))) s = Done (Some k, s).
Proof.
  intros Hk. destruct (index_exact k Hk) as [Hi Hz]. unfold history_offset, owned. cbn [fst]. rewrite Hi.
  unfold bind, convert_index. rewrite Hz. rewrite (proj2 (Z.leb_le k INT64_MAX)); [done|].
  unfold INT64_MAX. lia.
Qed.

(** The target in the overlay: a pass of its own, then the overlay is freed. *)
Lemma overlay_pass target c n s ty vars' :
  core reg target → height target ≤ fuel → cxpr_typecheck (Some target) reg = Done (inl ty) →
  (∀ name v, vars' name = Some v → basic v = true) →
  ready s → over_rep n vars pars (c :: es_ctx s) vars' pars →
  ∃ out s', (push c ;; let! out := eval_of reg fuel caller_tree target in
             pop ;; ret (Some (default nan_res out))) s = Done (Some out, s') ∧
    ready s' ∧ kept s s' ∧
    (err_code (es_err s') = CXPR_OK ∧ evaluates reg vars' pars target (fst out) ∨
     err_code (es_err s') ≠ CXPR_OK ∧ ∀ v, ¬ evaluates reg vars' pars target v).
Proof.
  intros Hcore Hh Hty Hbasic [Hctx Hlive Hnext (m & ms & Hm & Hd)] Hover.
  set (s0 := put_err error_zero (put_memos (memo_empty :: es_memos s) (put_ctx (c :: es_ctx s) s))).
  destruct (eval_pass_frame (EvalContextLaws0 := over_laws n vars pars) reg vars' pars Hbasic Hpars fuel s0 target
    Hcore Hh Hover Hlive eq_refl) as (r & s1 & Hrun & Hover1 & Hw & Hm1 & Ho & Hfr & Ht & Hnx & Hout).
  exists (if decide (err_code (es_err s1) = CXPR_OK) then r else nan_res),
    (put_memos (tail (es_memos s1)) (put_ctx (tail (es_ctx s1)) s1)).
  split_and!.
  - unfold eval_of, bind, lift, push, set_err. cbn [run_bind]. rewrite Hty. cbn [run_bind].
    change (eval_value_of reg fuel caller_tree target) with (cxpr_eval_ast_value fuel reg target).
    match goal with |- context [cxpr_eval_ast_value fuel reg target ?x] => change x with s0 end.
    rewrite Hrun. cbn [run_bind]. unfold unless_failing, failing, bind, get_err, ret. cbn [run_bind].
    destruct (decide _) as [Hc|Hc]; [by rewrite bool_decide_true|by rewrite bool_decide_false].
  - constructor; simpl; [exact (over_pop _ _ _ _ _ _ Hover1)| | |].
    + unfold live. cbn. by rewrite Hfr.
    + by rewrite Hnx.
    + exists m, ms. rewrite Ht. split; [exact Hm|done].
  - split_and!; simpl; [done|by rewrite Ht|done|by rewrite Hnx].
  - destruct Hout as [[Hok Hv]|[Hok Hno]]; simpl; [left|right].
    + split; [done|]. by rewrite decide_True.
    + by split.
Qed.

(** [target[k]] is the target in the past, when the past has every source. *)
Definition answered_as (target : cxpr_expr_ast) (k : Z) (s s' : est L W) (r : res) : Prop :=
  let cursor := cur (es_world s) in
  err_code (es_err s') = CXPR_OK ∧ Forall (reached cursor k) (reference_names target) ∧
    evaluates reg (past cursor k) pars target (fst r) ∨
  err_code (es_err s') ≠ CXPR_OK ∧ ¬ (Forall (reached cursor k) (reference_names target) ∧
    ∃ v, evaluates reg (past cursor k) pars target v).

Section target.
Context (target : cxpr_expr_ast) (ty : static_type).
Hypothesis Hcore : core reg target.
Hypothesis Hheight : height target ≤ fuel.
Hypothesis Hty : cxpr_typecheck (Some target) reg = Done (inl ty).
Hypothesis Hnd : NoDup (reference_names target).
Hypothesis Hlen : length (reference_names target) ≤ 50.
Hypothesis Hsrc : existsb (λ name, has (source_of name)) (reference_names target) = true.

(** The bindings of the overlay are those of the past on the names of the target. *)
Lemma evaluates_past cursor k vars' v :
  bound_upto cursor k (reference_names target) vars' →
  evaluates reg vars' pars target v ↔ evaluates reg (past cursor k) pars target v.
Proof.
  intros Hb. split; intros He; eapply evaluates_local; [done| |done|]; intros name Hn;
    rewrite Hb; by rewrite bool_decide_true.
Qed.

Lemma ready_err err s : ready s → ready (put_err err s).
Proof. intros [Hctx Hlive Hnext Hm]. by constructor. Qed.

Lemma history_resolve_run ti k s :
  (0 ≤ k < 2 ^ 53)%Z → ready s →
  ∃ r s', cxpr_history_numeric_resolve reg fuel state caller_tree target ti
            (cxpr_expr_ast_number_new (of_Z k)) s = Done (Some r, s') ∧
    ready s' ∧ kept s s' ∧ answered_as target k s s' r.
Proof.
  intros Hk Hs. assert (Hfuel : 0 < fuel) by (pose proof (height_pos target); lia).
  unfold cxpr_history_numeric_resolve. rewrite Hcursor, (references_of_distinct _ Hnd). cbn [has negb andb]. cbv zeta.
  unfold bind at 1. rewrite has_source_run, Hsrc. cbn [run_bind negb].
  unfold bind at 1. rewrite (literal_run ti (of_Z k) s Hfuel Hs). cbn [run_bind].
  unfold bind at 1. rewrite (offset_run k _ Hk). cbn [run_bind].
  set (s1 := put_err error_zero s). assert (Hs1 : ready s1) by by apply ready_err.
  unfold bind at 1. unfold get_ctx. cbn [run_bind].
  destruct (over_new (es_ctx s1) vars pars k (ready_ctx _ Hs1)) as (c & Hnew & Hover).
  unfold bind at 1. unfold lift. rewrite Hnew. cbn [run_bind].
  pose proof (bind_sources_run k (reference_names target) [] 0 (ctx_set_history_offset c k) s1 vars
    ltac:(lia) Hlen Hover ltac:(done)) as Hbind.
  unfold bind at 1. destruct (decide _) as [Hreach|Hreach] in Hbind.
  - destruct Hbind as (c' & n' & vars' & -> & Hover' & Hb). cbn [run_bind].
    destruct (overlay_pass target c' n' s1 ty vars' Hcore Hheight Hty (past_basic _ _ _ _ Hb) Hs1 Hover')
      as (r & s' & Hrun & Hs' & Hkept & Hout).
    exists r, s'. split_and!; [exact Hrun|done|done|].
    destruct Hout as [[Hok He]|[Hbad Hno]]; [left|right].
    + split_and!; [done|done|]. by apply (evaluates_past _ _ _ _ Hb).
    + split; [done|]. intros [_ [v Hv]]. apply (Hno v). by apply (evaluates_past _ _ _ _ Hb).
  - destruct Hbind as (err & -> & Herr). cbn [run_bind]. exists nan_res, (put_err err s1).
    split_and!; [done|by apply ready_err|by split_and!|]. right.
    split; [by cbn; rewrite Herr|]. by intros [? _].
Qed.

Lemma history_index_run k s :
  (0 ≤ k < 2 ^ 53)%Z → ready s →
  ∃ r s', cxpr_history_numeric_index reg fuel state caller_tree target k s = Done (Some r, s') ∧
    ready s' ∧ kept s s' ∧ answered_as target k s s' r.
Proof.
  intros Hk Hs. unfold cxpr_history_numeric_index, new_tree. unfold bind at 1. cbn [run_bind].
  set (s0 := mk_est (es_ctx s) (es_memos s) (es_err s) (es_world s) (es_offset s) (S (es_next s)) (es_freed s)).
  assert (Hs0 : ready s0).
  { destruct Hs as [Hctx Hlive Hnext Hm]. constructor; [done|done| |done]. unfold s0. cbn. lia. }
  destruct (history_resolve_run (es_next s) k s0 Hk Hs0) as (r & s1 & Hrun & Hs1 & (Hw & Hm & Ho & Hn) & Hres).
  unfold bind at 1. rewrite Hrun. cbn [run_bind]. unfold bind, free_tree, ret. cbn [run_bind].
  do 2 eexists. split; [reflexivity|]. split_and!.
  - destruct Hs1 as [Hctx Hlive Hnext Hm1], Hs as [_ _ Hnext0 _]. constructor; [done| |done|done].
    apply bool_decide_eq_true in Hlive. apply bool_decide_eq_true. cbn.
    apply not_elem_of_cons. split; [lia|done].
  - unfold s0 in Hn. cbn in Hn. split_and!; [done|done|done|]. cbn. lia.
  - exact Hres.
Qed.
End target.
End history.

Section theorem.
Context {L W : Type} `{!EvalContext L} `{!EvalContextLaws L} `{!HistoryContext L} `{!HistoryContextLaws L}.
Context `{!HostCode W} `{!HexFormat} `{!EvalHost L W}.

End theorem.
