(* ===== verification/HistoryContexts.v ===== *)
(** * HistoryContexts: contexts of [src/context] under a history

    An overlay is a new context in which numbers are set.  It satisfies the laws a
    history relies on: a lookup finds the number set last, then what its parents
    bind; every number that is set at most doubles its table, which bounds the
    numbers that fit in the address space. *)

From Stdlib Require Import Ascii String ZArith Lia.
From stdpp Require Import base list strings gmap fin_maps.
From S2P Require Import Prelude Float64 Types ValueCopy OpenTable Hashmap StructMap Bindings Context ContextProofs IRLookup Ast EvalState TreeEval TreeContext TreeSem TreeEvalProofs TreeContextLaws IRTyped EvalApi History HistoryProofs.
Local Open Scope run_scope.
Local Open Scope nat_scope.

(** ** The tables of an overlay *)

Lemma hashmap_grow_capacity mem map b map' :
  cxpr_hashmap_grow mem map = Done (b, map') → hm_capacity map' ≤ hm_capacity map * 2.
Proof.
  unfold cxpr_hashmap_grow. intros Hgrow. repeat case_match; simplify_eq/=; try lia.
  apply run_bind_Done in Hgrow as (es & _ & Hgrow). simplify_eq/=. lia.
Qed.

Lemma hashmap_set_capacity mem map key hash v b map' :
  cxpr_hashmap_set_prehashed mem map key hash v = Done (b, map') → hm_capacity map' ≤ hm_capacity map * 2.
Proof.
  unfold cxpr_hashmap_set_prehashed. intros (entry & _ & Hset)%run_bind_Done.
  assert (Hgrown : ∀ b' map1, (if overloaded (hm_count map) (hm_capacity map)
      then cxpr_hashmap_grow mem map else Done (true, map)) = Done (b', map1) →
      hm_capacity map1 ≤ hm_capacity map * 2).
  { intros b' map1. destruct (overloaded _ _); [apply hashmap_grow_capacity|]. intros; simplify_eq/=. lia. }
  destruct entry, (hm_entries map); simplify_eq/=; [lia|..];
    apply run_bind_Done in Hset as ([b' map1] & Hr%Hgrown & Hset);
    destruct (hm_capacity map1 =? 0); try done; destruct (hm_entries map1); try done;
    apply run_bind_Done in Hset as (slot & _ & Hset); by simplify_eq/=.
Qed.

Lemma cached_entry_capacity s name hash entry s' :
  cxpr_context_lookup_cached_entry s name hash = Done (entry, s') → ns_map s' = ns_map s.
Proof.
  unfold cxpr_context_lookup_cached_entry. intros Hl.
  repeat (case_match || apply run_bind_Done in Hl as (? & _ & Hl) || simplify_eq/=); done.
Qed.

Lemma refresh_pointer_map s name entry : ns_map (cxpr_context_refresh_pointer_cache s name entry) = ns_map s.
Proof. by destruct entry. Qed.

Lemma write_value_capacity s slot v s' :
  write_value s slot v = Done s' → hm_capacity (ns_map s') = hm_capacity (ns_map s).
Proof. unfold write_value. intros Hw. by repeat (case_match || simplify_eq/=). Qed.

Lemma set_hashed_capacity mem b s name hash v s' :
  cxpr_context_set_hashed mem b s name hash v = Done s' →
  hm_capacity (ns_map s') ≤ hm_capacity (ns_map s) * 2.
Proof.
  unfold cxpr_context_set_hashed. intros (entry & _ & Hset)%run_bind_Done.
  destruct entry; [apply write_value_capacity in Hset; lia|].
  apply run_bind_Done in Hset as ([entry s1] & Hl%cached_entry_capacity & Hset).
  destruct entry as [slot|].
  { apply write_value_capacity in Hset. rewrite refresh_pointer_map, Hl in Hset. lia. }
  apply run_bind_Done in Hset as ([added map] & Hadd%hashmap_set_capacity & Hset).
  apply run_bind_Done in Hset as (s2 & Hs2 & Hset). apply run_bind_Done in Hset as (e & _ & Hset).
  unfold cxpr_context_refresh_cache in Hs2. apply run_bind_Done in Hs2 as (e' & _ & Hs2).
  injection Hset as <-. rewrite refresh_pointer_map. injection Hs2 as <-. cbn. by rewrite <-Hl.
Qed.

(** ** Addresses *)

Lemma fold_max_bound {A} (f : A → Z) (init : Z) (m : gmap Z A) :
  (init ≤ map_fold (λ _ b z, Z.max (f b) z) init m)%Z ∧
  map_Forall (λ _ b, f b ≤ map_fold (λ _ b z, Z.max (f b) z) init m)%Z m.
Proof.
  apply (map_fold_weak_ind (λ z m, (init ≤ z)%Z ∧ map_Forall (λ _ b, f b ≤ z)%Z m)).
  - split; [lia|apply map_Forall_empty].
  - intros k b m' z Hk [Hi Hm]. split; [lia|]. apply map_Forall_insert_2; [lia|].
    eapply map_Forall_impl; [exact Hm|]. simpl. lia.
Qed.

Lemma fresh_address_ok s : fresh_base (fresh_address s) s.
Proof.
  unfold fresh_address.
  destruct (fold_max_bound (λ b, Z.abs (pb_base b)) 0 (ns_ptr_cache s)) as [Hp0 Hp].
  set (p := map_fold _ 0%Z (ns_ptr_cache s)) in *.
  destruct (fold_max_bound (λ b, Z.abs (hb_base b)) p (ns_cache s)) as [Hh0 Hh].
  set (h := map_fold _ p (ns_cache s)) in *.
  apply fresh_base_intro; [unfold NULL; lia| |];
    (eapply map_Forall_impl; [eassumption|]); simpl; lia.
Qed.

(** ** Overlays *)

Definition overlay (st pst : num_store) : cxpr_context :=
  set_params pst (set_variables st (cxpr_context_new 1 2)).

Definition overlay_view (nums : gmap string float64) : full_view :=
  ((None, mk_view nums ∅ ∅ ∅ ∅ ∅ ∅), mk_pview ∅ ∅ ∅ ∅ ∅).

(** A context whose numeric parameters are not hidden by parameters of other types. *)
Definition numbers_visible (fs : list full_view) : Prop :=
  ∀ name d, number_lookup fs name = Some d → chain_param fs name = Some (VNum d).

Definition chain_under (chain : list cxpr_context) (vars pars : string → option cxpr_value) : Prop :=
  ∃ fs, Forall2 full_ok chain fs ∧ (∀ name, vars name = chain_lookup fs.*1 name) ∧
    (∀ name, pars name = chain_param fs name) ∧ numbers_visible fs.

Definition chain_over (n : nat) (vars pars : string → option cxpr_value) (chain : list cxpr_context)
    (vars' pars' : string → option cxpr_value) : Prop :=
  ∃ st pst nums parents, chain = overlay st pst :: parents ∧
    store_ok st nums ∧ store_ok pst ∅ ∧ hm_capacity (ns_map st) ≤ 32 * 2 ^ n ∧
    chain_under parents vars pars ∧
    (∀ name, vars' name = (VNum <$> nums !! name) <or> vars name) ∧ (∀ name, pars' name = pars name).

Lemma overlay_full st pst nums : store_ok st nums → store_ok pst ∅ → full_ok (overlay st pst) (overlay_view nums).
Proof.
  intros Hst Hpst. split; [split; [done|]|]; split; simpl; try done;
    try (split; [apply linear_empty_ok|done]); by apply stores_null.
Qed.

Lemma overlay_typed st pst nums name :
  store_ok st nums →
  ∃ st', get_typed_local (overlay st pst) name = Done (VNum <$> nums !! name_str name, overlay st' pst) ∧
    store_ok st' nums ∧ ns_map st' = ns_map st.
Proof.
  intros Hst. destruct (store_lookup_spec st nums name Hst) as (st' & Hl & Hst' & Hm & _).
  exists st'. split; [|done]. unfold get_typed_local. simpl. rewrite Hl. cbn [run_bind].
  by destruct (nums !! name_str name).
Qed.

Lemma overlay_set addr st pst nums name d n :
  store_ok st nums → hm_capacity (ns_map st) ≤ 32 * 2 ^ n → n < 50 →
  ∃ st', ctx_set (EvalContext := context_eval addr) (overlay st pst) name d = Done (overlay st' pst) ∧
    store_ok st' (<[name := d]> nums) ∧ hm_capacity (ns_map st') ≤ 32 * 2 ^ S n.
Proof.
  intros Hst Hcap Hn.
  assert (Hroom : has_room alloc_all (ns_map st)).
  { right. split; [done|]. apply Z.le_trans with (Z.of_nat (32 * 2 ^ 49)).
    - apply inj_le. etrans; [exact Hcap|]. apply Nat.mul_le_mono_l, Nat.pow_le_mono_r; lia.
    - rewrite Nat2Z.inj_mul, Nat2Z.inj_pow. vm_compute. discriminate. }
  destruct (set_hashed_spec alloc_all (fresh_address st) st nums (at_name addr name) d Hst (fresh_address_ok st)
    eq_refl Hroom) as (st' & Hset & Hst' & _).
  exists st'. split_and!; [|done|].
  - simpl in Hset. simpl. unfold cxpr_context_set, cxpr_context_set_prehashed.
    cbn -[cxpr_context_set_hashed cxpr_hash_string]. by rewrite Hset.
  - apply set_hashed_capacity in Hset. simpl. lia.
Qed.

(** ** The laws *)

Section laws.
Context (addr : string → Z).

#[export] Instance context_history : HistoryContext cxpr_context := { ctx_set_history_offset c _ := c }.

Lemma chain_over_typed n vars pars chain vars' pars' name :
  chain_over n vars pars chain vars' pars' →
  ∃ r chain', get_typed_owned addr chain name = Done (r, chain') ∧ fst <$> r = vars' name ∧
    chain_over n vars pars chain' vars' pars'.
Proof.
  intros (st & pst & nums & parents & -> & Hst & Hpst & Hcap & (fs & Hfs & Hv & Hp & Hvis) & Hv' & Hp').
  destruct (overlay_typed st pst nums (at_name addr name) Hst) as (st' & Hl & Hst' & Hm). simpl in Hl.
  destruct (get_typed_chain parents fs (at_name addr name) Hfs) as (parents' & Hget & Hfs').
  destruct (typed_borrowed_defined parents fs (at_name addr name) Hfs) as [b Hb].
  unfold get_typed_owned. cbn [cxpr_context_get_typed typed_borrowed]. rewrite Hl. cbn [run_bind].
  rewrite Hv', Hv. destruct (nums !! name) as [d|] eqn:Hd; cbn [fmap option_fmap option_map orelse].
  - eexists _, _. split; [reflexivity|]. split; [done|].
    exists st', pst, nums, parents. rewrite Hm. split_and!; try done. by exists fs.
  - rewrite Hget. cbn [run_bind]. rewrite Hb. cbn [run_bind].
    eexists _, _. split; [reflexivity|]. split; [by rewrite fst_paired|].
    exists st', pst, nums, parents'. rewrite Hm. split_and!; try done. by exists fs.
Qed.

Lemma overlay_param st pst nums parents fs name :
  store_ok st nums → store_ok pst ∅ → Forall2 full_ok parents fs → numbers_visible fs →
  ∃ pst' parents', cxpr_context_get_param_typed (overlay st pst :: parents) name =
      Done (chain_param fs (name_str name), overlay st pst' :: parents') ∧
    store_ok pst' ∅ ∧ Forall2 full_ok parents' fs.
Proof.
  intros Hst Hpst Hfs Hvis.
  destruct (store_lookup_spec pst ∅ name Hpst) as (pst' & Hl & Hpst' & _). rewrite lookup_empty in Hl.
  assert (Hloc : get_param_local (overlay st pst) name = Done None).
  { unfold get_param_local. simpl. by destruct (dotted_name _) as [[? ?]|]. }
  cbn [cxpr_context_get_param_typed]. rewrite Hloc. cbn [run_bind].
  cbn [cxpr_context_get_param]. change (params (overlay st pst)) with pst. rewrite Hl. cbn [run_bind].
  destruct (get_param_chain parents fs name Hfs) as (parents1 & -> & Hfs1). cbn [run_bind].
  destruct (number_lookup fs (name_str name)) as [d|] eqn:Hn.
  - exists pst', parents1. rewrite (Hvis _ _ Hn). done.
  - destruct (get_param_typed_chain parents fs name Hfs) as (parents2 & -> & Hfs2). cbn [run_bind].
    by exists pst', parents2.
Qed.

Lemma chain_over_param n vars pars chain vars' pars' name :
  chain_over n vars pars chain vars' pars' →
  ∃ r chain', get_param_typed_owned addr chain name = Done (r, chain') ∧ fst <$> r = pars' name ∧
    chain_over n vars pars chain' vars' pars'.
Proof.
  intros (st & pst & nums & parents & -> & Hst & Hpst & Hcap & (fs & Hfs & Hv & Hp & Hvis) & Hv' & Hp').
  destruct (overlay_param st pst nums parents fs (at_name addr name) Hst Hpst Hfs Hvis)
    as (pst' & parents' & Hget & Hpst' & Hfs').
  assert (Hok : Forall2 full_ok (overlay st pst :: parents) (overlay_view nums :: fs)).
  { constructor; [|done]. by apply overlay_full. }
  destruct (param_borrowed_defined _ _ (at_name addr name) Hok) as [b Hb].
  unfold get_param_typed_owned. rewrite Hget. cbn [run_bind]. rewrite Hb. cbn [run_bind].
  eexists _, _. split; [reflexivity|]. split; [by rewrite fst_paired, Hp', Hp|].
  exists st, pst', nums, parents'. split_and!; try done. by exists fs.
Qed.

#[refine, export] Instance history_context_laws :
    HistoryContextLaws cxpr_context (EvalContext0 := context_eval addr) (EvalContextLaws0 := context_laws addr) :=
  { under_rep := chain_under; over_rep := chain_over }.
Proof.
  - intros chain vars pars (fs & Hfs & Hv & Hp & _). by exists fs.
  - intros. by apply chain_over_typed.
  - intros. by apply chain_over_param.
  - intros chain vars pars offset Hunder. eexists. split; [reflexivity|].
    exists (store_init 1), (store_init 2), ∅, chain.
    split_and!; [done|by apply store_init_ok|by apply store_init_ok|exact (Nat.le_refl 32)|done| |done].
    intros name. by rewrite lookup_empty.
  - intros n c chain vars pars vars' pars' name d Hn
      (st & pst & nums & parents & E & Hst & Hpst & Hcap & Hunder & Hv' & Hp'). injection E as -> <-.
    destruct (overlay_set addr st pst nums name d n Hst Hcap Hn) as (st' & Hset & Hst' & Hcap').
    exists (overlay st' pst). split; [exact Hset|].
    exists st', pst, (<[name := d]> nums), chain. split_and!; try done.
    intros other. unfold bound. destruct (String.eqb_spec other name) as [->|Hne].
    + by rewrite lookup_insert_eq.
    + by rewrite lookup_insert_ne.
  - intros n chain vars pars vars' pars' (st & pst & nums & parents & -> & _ & _ & _ & Hunder & _). exact Hunder.
Defined.
End laws.
