(* ===== verification/HistoryWindows.v ===== *)
(** * HistoryWindows: windows over a history

    The pieces together: a name with a history is a series, so the time-series
    functions that the evaluator calls through [library_host] compute their
    reference definitions over the columns of the history. *)

From Stdlib Require Import Ascii String ZArith Lia.
From stdpp Require Import base list strings sets.
From S2P Require Import Prelude Float64 FloatOrder Types Ast References Registry Builtins EvalSupport EvalState TreeEval TreeSem TypeCheck TreeEvalProofs IRCompile IRTyped EvalApi Timeseries History LibraryHost TimeseriesProofs HistoryProofs.
Local Open Scope run_scope.
Local Open Scope eval_scope.
Local Open Scope nat_scope.

(** An exact index passes the checks of the offset functions. *)
Lemma index_checks d : index_value (VNum d) (of_Z INT64_MAX) = Some d →
  fisfinite d = true ∧ fltb d fzero = false ∧ whole_index d = true.
Proof.
  unfold index_value. destruct (negb (fisfinite d) || _ || _ || _) eqn:Hb; [done|]. intros _.
  apply orb_false_iff in Hb as [[[Hfin Hneg]%orb_false_iff Hfl]%orb_false_iff Hmax].
  apply negb_false_iff in Hfin, Hfl. split_and!; [done|done|]. unfold whole_index.
  rewrite Hfin, Hneg, (fleb_fltb d); [|by destruct d|done]. unfold fgtb in Hmax. fold (fltb (of_Z INT64_MAX) d) in Hmax.
  rewrite Hmax, andb_true_r. exact Hfl.
Qed.

Section literal.
Context {L W : Type} `{!EvalContext L} `{!IRContext L} `{!ApiContext L} `{!HostCode W} `{!HexFormat}.
Context `{!EvalHost L W}.
Context (reg : cxpr_registry) (prepared : string → prepared_program).

(** A number is compiled, cached and read back. *)
Lemma literal_number fuel t d (s : est L W) m ms :
  2 < fuel → es_memos s = m :: ms → 0 < memo_depth m →
  cxpr_eval_ast_number reg prepared fuel t (new_node (CXPR_NODE_NUMBER d)) s = Done (Some d, put_err error_zero s).
Proof.
  intros Hf Hm Hd. destruct fuel as [|[|[|f]]]; [lia..|].
  destruct s; simpl in *; subst. destruct m as [en [|n]]; [simpl in *; lia|]. reflexivity.
Qed.
End literal.

Section windows.
Context {L W : Type} `{!EvalContext L} `{!EvalContextLaws L} `{!HistoryContext L} `{!HistoryContextLaws L}.
Context `{!IRContext L} `{!ApiContext L} `{!HostCode W} `{!HexFormat}.
Context (base : EvalHost L W) (reg : cxpr_registry) (prepared : string → prepared_program) (fuel : nat).
Context (histories : userdata → option (cxpr_history_numeric_state W)).
Context (state : cxpr_history_numeric_state W) (cur : W → Z) (vars pars : string → option cxpr_value).
Context (name : string) (source : cxpr_history_numeric_source) (capability : cxpr_index_capability_entry).
Context (cursor : Z).
Implicit Types s : est L W.

Hypothesis Hview : hs_view state = None.
Hypothesis Hcursor : hs_cursor state = Some cur.
Hypothesis Hcolumns : Forall column_ok (hs_sources state).
Hypothesis Hvars : ∀ name v, vars name = Some v → basic v = true.
Hypothesis Hpars : ∀ name v, pars name = Some v → basic v = true.
Hypothesis Hfuel : 2 < fuel.
Hypothesis Hsource : source_of state name = Some source.
Hypothesis Hfind : cxpr_registry_find_index_capability reg name = Some capability.
Hypothesis Hresolve : cap_resolve capability = fn_history_index.
Hypothesis Hstate : histories (cap_userdata capability) = Some state.

Abbreviation host depth := (library_host base reg prepared fuel histories depth).
Abbreviation column i := (default fnan (sample (hs_policy state) source cursor (Z.of_nat i))).

(** The states of a call: outside a lookback, with the cursor in place. *)
Definition at_cursor s : Prop := ready vars pars s ∧ es_offset s = fzero ∧ cur (es_world s) = cursor.

Lemma at_cursor_err err s : at_cursor s → at_cursor (put_err err s).
Proof. intros (Hs & Ho & Hc). split_and!; [by apply ready_err|done|done]. Qed.

Lemma identifier_core span : core reg (Ast span (CXPR_NODE_IDENTIFIER name)).
Proof. split; constructor; try done; constructor. Qed.

(** One sample through the history. *)
Lemma capability_sample depth span i s d :
  (Z.of_nat i < 2 ^ 53)%Z → sample (hs_policy state) source cursor (Z.of_nat i) = Some d → at_cursor s →
  ∃ s' owner, cxpr_registry_resolve_index_capability (EvalHost0 := host (S depth)) reg
           (Ast span (CXPR_NODE_IDENTIFIER name)) (Z.of_nat i) s = Done (Some (VNum d, owner), s') ∧ at_cursor s'.
Proof.
  intros Hi Hd (Hs & Ho & Hc). set (a := Ast span (CXPR_NODE_IDENTIFIER name)).
  assert (Hsrc : existsb (λ n, has (source_of state n)) (reference_names a) = true) by (simpl; by rewrite Hsource).
  destruct (history_index_run (EvalHost0 := host depth) reg fuel state cur vars pars Hview Hcursor Hcolumns Hvars
    Hpars a None (identifier_core span) ltac:(simpl; lia) eq_refl (NoDup_singleton name) ltac:(simpl; lia)
    Hsrc (Z.of_nat i) s ltac:(lia) Hs) as (r & s' & Hrun & Hs' & (Hw & Hm & Hoff & _) & Hres).
  assert (Hpast : past state vars cursor (Z.of_nat i) name = Some (VNum d)) by (unfold past; by rewrite Hsource, Hd).
  unfold answered_as in Hres. rewrite Hc in Hres.
  destruct Hres as [(Hok & _ & He)|[_ []]].
  - inversion He as [| | | |? ? v Hv E| | | | | | | | |]; subst. rewrite Hpast in Hv. injection Hv as Hv.
    exists s', (snd r). split; [|split_and!; [done|by rewrite Hoff|by rewrite Hw]].
    unfold cxpr_registry_resolve_index_capability, select_capability, cxpr_registry_select_index_capability.
    change (ast_node a) with (CXPR_NODE_IDENTIFIER (A := cxpr_expr_ast) name). cbn match. rewrite Hfind. unfold bind at 1. cbn [run_bind ret].
    unfold bind at 1. cbn [library_host host_capability]. rewrite Hresolve, Hstate.
    rewrite Z.eqb_refl, Hrun. cbn [run_bind].
    unfold failing, bind, get_err, ret. cbn [run_bind]. rewrite bool_decide_true by done. cbn [negb].
    by destruct r; simpl in *; subst.
  - split; [|exists (VNum d); by constructor]. apply Forall_singleton. unfold reached. rewrite Hsource. by exists d.
Qed.

Lemma number_at_sample depth span i s d :
  (Z.of_nat i < 2 ^ 53)%Z → sample (hs_policy state) source cursor (Z.of_nat i) = Some d → at_cursor s →
  ∃ s', cxpr_eval_ast_number_at_offset (EvalHost0 := host (S depth)) reg prepared fuel caller_tree
          (Ast span (CXPR_NODE_IDENTIFIER name)) (offset_of i) s = Done (Some d, s') ∧ at_cursor s'.
Proof.
  intros Hi Hd Hs. destruct (index_exact (Z.of_nat i) ltac:(lia)) as [Hidx Hto].
  destruct (index_checks _ Hidx) as (Hfin & Hneg & Hwhole).
  assert (Hs1 : at_cursor (put_err error_zero s)) by by apply at_cursor_err.
  destruct (capability_sample depth span i _ d Hi Hd Hs1) as (s' & owner & Hrun & Hs').
  exists s'. split; [|done]. destruct Hs as ([_ _ _ (m & ms & Hm & Hdep)] & Ho & Hc).
  assert (Hnamed : named_capability (EvalHost0 := host (S depth)) reg prepared fuel caller_tree
      (Ast span (CXPR_NODE_IDENTIFIER name)) (new_node (CXPR_NODE_NUMBER (of_Z (Z.of_nat i)))) s =
      Done (inl (Some (VNum d, owner)), s')).
  { unfold named_capability. cbn [ast_node]. rewrite Hfind. cbn [has]. unfold bind at 1.
    rewrite (literal_number _ _ _ _ _ _ m ms Hfuel Hm Hdep). cbn [run_bind]. rewrite Hwhole.
    unfold by_capability, convert_index. rewrite Hto, (proj2 (Z.leb_le _ _)) by (unfold INT64_MAX; lia).
    unfold bind at 1. cbn [run_bind ret]. unfold bind at 1. rewrite Hrun. done. }
  unfold cxpr_eval_ast_number_at_offset, cxpr_eval_ast_at_offset, cxpr_eval_at_offset, offset_of.
  rewrite Hfin, Hneg. cbn [negb orb cxpr_eval_simple_lookback_target ast_node]. rewrite andb_false_r. cbn [andb].
  unfold cxpr_eval_ast_at_lookback. unfold bind at 1. unfold bind at 1. unfold resolver_index, bind at 1, eval_lookback_offset.
  cbn [run_bind]. rewrite Ho. change (fneb fzero fzero) with false. cbn match.
  unfold ret at 1. cbn [run_bind]. unfold otherwise at 1. unfold bind at 1. rewrite Hnamed. done.
Qed.

(** A name with a history is the series of its column. *)
Lemma source_series depth span n :
  (Z.of_nat n ≤ 2 ^ 53)%Z → (∀ i, i < n → is_Some (sample (hs_policy state) source cursor (Z.of_nat i))) →
  number_series (EvalHost0 := host (S depth)) reg prepared fuel caller_tree at_cursor
    (Ast span (CXPR_NODE_IDENTIFIER name)) (λ i, column i) n.
Proof.
  intros Hn Hall i Hi s Hs. destruct (Hall i Hi) as [d Hd]. rewrite Hd.
  apply number_at_sample; [lia|done|done].
Qed.

Lemma literal_counts depth least d n :
  whole_samples d least = Some n →
  counts (EvalHost0 := host (S depth)) reg prepared fuel caller_tree at_cursor
    (new_node (CXPR_NODE_NUMBER d)) least n.
Proof.
  intros Hw. exists d. split; [|done]. intros s Hs. pose proof Hs as ([_ _ _ (m & ms & Hm & Hd)] & _).
  eexists. split; [by apply (literal_number _ _ _ _ _ _ m ms)|]. by apply at_cursor_err.
Qed.

(** The samples of a window that lies in the column. *)
Lemma window_sample n i :
  (Z.of_nat n ≤ cursor + 1)%Z → (cursor < Z.of_nat (length (src_values source)))%Z → i < n →
  sample (hs_policy state) source cursor (Z.of_nat i) = src_values source !! Z.to_nat (cursor - Z.of_nat i) ∧
  is_Some (src_values source !! Z.to_nat (cursor - Z.of_nat i)).
Proof.
  intros Hn Hc Hi. unfold sample.
  rewrite (proj2 (Z.ltb_ge _ _)), (proj2 (Z.leb_gt _ _)), (proj2 (Z.ltb_ge _ _)) by lia.
  split; [done|]. apply lookup_lt_is_Some_2. lia.
Qed.

Definition extreme_symbol (mode : window_mode) : string :=
  match mode with
  | CXPR_TIMESERIES_WINDOW_HIGHEST => "highest"
  | CXPR_TIMESERIES_WINDOW_LOWEST => "lowest"
  end.

Definition window_call (mode : window_mode) (span : option cxpr_source_span) (d : float64)
    (names : option (list (option string))) : cxpr_expr_ast :=
  extreme_call span (extreme_symbol mode) (Ast span (CXPR_NODE_IDENTIFIER name))
    (new_node (CXPR_NODE_NUMBER d)) names.

Lemma extreme_dispatch `{!EvalHost L W} mode r p f t call :
  cxpr_timeseries_call r p f t (extreme_symbol mode) call = cxpr_timeseries_window_eval r p f t mode call.
Proof. by destruct mode. Qed.

Lemma timeseries_callback depth symbol call ud :
  host_ast (EvalHost := host (S depth)) (fn_timeseries symbol) call ud =
  (let! v := cxpr_timeseries_call (EvalHost0 := host depth) reg prepared fuel caller_tree symbol call in
   ret (owned v)).
Proof. done. Qed.

(** C10: [highest] and [lowest] over a history: called by the evaluator, outside of
    any lookback, with a name that a history without a host's own view serves
    through an index capability and a literal number of samples [n], at most 2^53,
    that the column has before the cursor, the callback returns a value of the last
    [n] of the column, and no value of these is beyond it; the state it is called in
    stays usable.  No value of the column is a NaN, and no binding is a timestamp, a
    duration or a struct. *)
Theorem highest_over_history depth mode span d names ud n s :
  whole_samples d 1 = Some n → (n ≤ cursor + 1)%Z → (n ≤ 2 ^ 53)%Z →
  (cursor < Z.of_nat (length (src_values source)))%Z →
  Forall (λ v, fisnan v = false) (src_values source) → at_cursor s →
  ∃ k v s', host_ast (EvalHost := host (S (S depth))) (fn_timeseries (extreme_symbol mode))
        (window_call mode span d names) ud s = Done (owned (VNum v), s') ∧ at_cursor s' ∧
    (0 ≤ k < n)%Z ∧ src_values source !! Z.to_nat (cursor - k) = Some v ∧
    (∀ j w, (0 ≤ j < n)%Z → src_values source !! Z.to_nat (cursor - j) = Some w → extreme_beats mode w v = false).
Proof.
  intros Hd Hn Hmax Hc Hnan Hs.
  assert (Hpos : (1 ≤ n)%Z).
  { unfold whole_samples in Hd. case_match eqn:Hm; [discriminate|]. injection Hd as <-.
    apply orb_false_iff in Hm as [_ Hm]. by apply Z.ltb_ge in Hm. }
  assert (Hwin : ∀ i, i < Z.to_nat n → ∃ v, column i = v ∧ src_values source !! Z.to_nat (cursor - Z.of_nat i) = Some v
                 ∧ is_Some (sample (hs_policy state) source cursor (Z.of_nat i))).
  { intros i Hi. destruct (window_sample (Z.to_nat n) i) as [He [v Hv]]; [lia..|]. exists v. by rewrite He, Hv. }
  destruct (window_extreme (EvalHost0 := host (S depth)) reg prepared fuel caller_tree at_cursor mode span
    (extreme_symbol mode) (Ast span (CXPR_NODE_IDENTIFIER name)) (new_node (CXPR_NODE_NUMBER d)) names
    (λ i, column i) n) as (k & (Hk & Hbest & _) & Hgives).
  - by apply literal_counts.
  - apply source_series; [lia|]. intros i Hi. by destruct (Hwin i Hi) as (v & _ & _ & ?).
  - intros i Hi. destruct (Hwin i Hi) as (v & -> & Hv & _). by apply (Forall_lookup_1 _ _ _ _ Hnan Hv).
  - destruct (Hgives s Hs) as (s' & Hrun & Hs'). destruct (Hwin k Hk) as (v & Ev & Hv & _).
    exists (Z.of_nat k), v, s'. rewrite Ev in Hrun. split_and!; [|done|lia|lia|done|].
    + rewrite timeseries_callback, extreme_dispatch. unfold bind, window_call. by rewrite Hrun.
    + intros j w Hj Hw. destruct (Hwin (Z.to_nat j) ltac:(lia)) as (w' & Ew & Hw' & _).
      rewrite Z2Nat.id in Hw' by lia. rewrite Hw in Hw'. injection Hw' as ->.
      rewrite <-Ew, <-Ev. apply Hbest. lia.
Qed.
End windows.
