(* ===== verification/HistoryExamples.v ===== *)
(** * HistoryExamples: concrete histories and windows

    The theorems on histories and windows at a history of five closing prices, and
    inputs on which the functions do not do what they mean to. *)

From Stdlib Require Import Ascii String ZArith Lia.
From stdpp Require Import base list strings gmap fin_maps.
From S2P Require Import Prelude Float64 FloatOrder Types ValueCopy OpenTable Hashmap StructMap Bindings Context ContextProofs IRLookup Ast References Registry Builtins Parser Define EvalSupport EvalSupportProofs EvalState TreeEval TreeContext TreeSem TypeCheck TreeEvalProofs TreeContextLaws TreeExamples IRCompile IRTyped IRContexts EvalApi Timeseries History LibraryHost TimeseriesProofs HistoryProofs HistoryContexts HistoryWindows.
Local Open Scope run_scope.
Local Open Scope eval_scope.
Local Open Scope nat_scope.

#[local] Existing Instance example_host.
#[local] Existing Instance example_contexts.
#[local] Existing Instance example_callbacks.
#[local] Existing Instance print_hex_format.
#[local] Instance example_lookups : IRContext cxpr_context := context_ir one_address.
#[local] Instance example_laws : EvalContextLaws cxpr_context := context_laws one_address.
#[local] Instance example_history_laws : HistoryContextLaws cxpr_context := history_context_laws one_address.

(** [ctx_root_number] is asked of the context without parents. *)
#[local] Instance context_api : ApiContext cxpr_context := {
  ctx_root_number param chain name :=
    match chain with
    | [c] => let* e := IRLookup.find_entry (store_of param c) name (cxpr_hash_string name) in Done (snd <$> e)
    | _ => Done None
    end;
  ctx_no_bools c := match lm_entries (bools c) with [] => true | _ => false end
}.

(** ** Five closing prices *)

Definition closes : list float64 := of_Z <$> [1; 5; 3; 8; 4]%Z.
Definition close_source : cxpr_history_numeric_source := mk_source (Some "close"%string) closes 8 5.
Definition last_bar (_ : unit) : Z := 4.

Definition close_state : cxpr_history_numeric_state unit :=
  mk_history [close_source] (Some last_bar) None CXPR_HISTORY_BOUNDS_ERROR.

Definition with_closes (r : cxpr_registry) : cxpr_registry :=
  match cxpr_register_history_contiguous_numbers r (Some "close"%string) (Some closes) (Some last_bar)
          CXPR_HISTORY_BOUNDS_ERROR (ud_host 5) with
  | Some (r, _) => r
  | None => r
  end.

Definition close_registry : cxpr_registry := with_closes cxpr_registry_new.

Example close_registered :
  cxpr_register_history_contiguous_numbers cxpr_registry_new (Some "close"%string) (Some closes) (Some last_bar)
    CXPR_HISTORY_BOUNDS_ERROR (ud_host 5) = Some (close_registry, close_state).
Proof. vm_compute. reflexivity. Qed.

Definition unbound (name : string) : option cxpr_value := None.

(** A pass is active in an empty context. *)
Definition open_state : est cxpr_context unit :=
  mk_est [cxpr_context_new 1 2] [mk_memo [] 1] error_zero tt fzero 1 [].

Lemma unbound_lookup name : chain_lookup ([overlay_view ∅].*1) name = None.
Proof. unfold chain_lookup, scoped_lookup, view_lookup. simpl. by rewrite !lookup_empty. Qed.

Lemma unbound_param name : chain_param [overlay_view ∅] name = None.
Proof.
  unfold chain_param, param_lookup, dotted_lookup. simpl. rewrite !lookup_empty.
  destruct (dotted_name name) as [[]|]; [rewrite lookup_empty|]; done.
Qed.

Lemma open_state_ready : ready unbound unbound open_state.
Proof.
  constructor; [|done|unfold open_state, caller_tree; simpl; lia|exists (mk_memo [] 1), []; split; [done|simpl; lia]].
  exists [overlay_view ∅]. split_and!.
  - constructor; [|constructor]. apply (overlay_full (store_init 1) (store_init 2)); by apply store_init_ok.
  - intros name. by rewrite unbound_lookup.
  - intros name. by rewrite unbound_param.
  - intros name d. simpl. by rewrite lookup_empty.
Qed.

Definition twice_close : cxpr_expr_ast := Eval vm_compute in tree_of "close * 2".

Lemma twice_close_core : core close_registry twice_close.
Proof. split; repeat (constructor || discriminate). Qed.


(** ** Windows *)

Abbreviation close_host depth :=
  (library_host example_callbacks close_registry (λ _, not_prepared) 4 (λ _, Some close_state) depth).
Abbreviation close_series := (source_series example_callbacks close_registry (λ _, not_prepared) 4
  (λ _, Some close_state) close_state last_bar unbound unbound "close" close_source
  (mk_capability "history" "close" CXPR_VALUE_NUMBER fn_history_index (ud_host 5) (Some fn_history_free)) 4
  eq_refl eq_refl ltac:(repeat constructor) ltac:(done) ltac:(done) ltac:(lia) eq_refl eq_refl eq_refl eq_refl).

Definition close_name : cxpr_expr_ast := new_node (CXPR_NODE_IDENTIFIER "close").
Definition literal (z : Z) : cxpr_expr_ast := new_node (CXPR_NODE_NUMBER (of_Z z)).

Lemma open_at_cursor : at_cursor last_bar unbound unbound 4 open_state.
Proof. split_and!; [exact open_state_ready|done|done]. Qed.

Lemma close_samples n : n ≤ 5 →
  ∀ i, i < n → is_Some (sample (hs_policy close_state) close_source 4 (Z.of_nat i)).
Proof. intros Hn i Hi. destruct i as [|[|[|[|[|]]]]]; [vm_compute; eauto..|lia]. Qed.

Lemma highest_over_history_witness :
  ∃ v s', host_ast (EvalHost := close_host 2) (fn_timeseries "highest")
            (window_call "close" CXPR_TIMESERIES_WINDOW_HIGHEST None (of_Z 3) None) ud_null open_state
          = Done (owned (VNum v), s') ∧ v = of_Z 8.
Proof.
  destruct (highest_over_history example_callbacks close_registry (λ _, not_prepared) 4
    (λ _, Some close_state) close_state last_bar unbound unbound "close" close_source
    (mk_capability "history" "close" CXPR_VALUE_NUMBER fn_history_index (ud_host 5) (Some fn_history_free)) 4
    eq_refl eq_refl ltac:(repeat constructor) ltac:(done) ltac:(done) ltac:(lia) eq_refl eq_refl eq_refl eq_refl
    0 CXPR_TIMESERIES_WINDOW_HIGHEST None (of_Z 3) None ud_null 3 open_state eq_refl ltac:(lia) ltac:(lia)
    ltac:(simpl; lia) ltac:(repeat constructor) open_at_cursor) as (k & v & s' & Hrun & _ & Hk & Hv & Hbest).
  exists v, s'. split; [exact Hrun|].
  pose proof (Hbest 1%Z (of_Z 8) ltac:(lia) eq_refl) as H8. clear Hrun Hbest.
  assert (Hk3 : k = 0%Z ∨ k = 1%Z ∨ k = 2%Z) by lia.
  destruct Hk3 as [->|[->| ->]]; vm_compute in Hv; injection Hv as <-; vm_compute in H8; [done|by vm_compute|done].
Defined.

Lemma window_aggregate_correct_witness :
  ∃ v s', cxpr_timeseries_window_agg_eval (EvalHost0 := close_host 1) close_registry (λ _, not_prepared) 4
            caller_tree CXPR_TIMESERIES_AGG_SUM (extreme_call None "window_sum" close_name (literal 3) None)
            open_state = Done (VNum v, s') ∧ v = of_Z 15.
Proof.
  destruct (window_aggregate_correct (EvalHost0 := close_host 1) close_registry (λ _, not_prepared) 4 caller_tree
    (at_cursor last_bar unbound unbound 4) CXPR_TIMESERIES_AGG_SUM None "window_sum" close_name (literal 3) None
    (λ i, default fnan (sample (hs_policy close_state) close_source 4 (Z.of_nat i))) 3) as (k & _ & Hg).
  - apply literal_counts; [lia|reflexivity].
  - apply (close_series 0 None 3 ltac:(lia) (close_samples 3 ltac:(lia))).
  - destruct (Hg open_state open_at_cursor) as (s' & Hrun & _). eexists _, s'. split; [exact Hrun|].
    vm_compute. reflexivity.
Defined.

Lemma trend_correct_witness :
  ∃ b s', cxpr_timeseries_trend_eval (EvalHost0 := close_host 1) close_registry (λ _, not_prepared) 4
            caller_tree CXPR_TIMESERIES_TREND_RISING (extreme_call None "rising" close_name (literal 2) None)
            open_state = Done (VBool b, s') ∧ b = false.
Proof.
  destruct (trend_correct (EvalHost0 := close_host 1) close_registry (λ _, not_prepared) 4 caller_tree
    (at_cursor last_bar unbound unbound 4) CXPR_TIMESERIES_TREND_RISING None "rising" close_name (literal 2) None
    (λ i, default fnan (sample (hs_policy close_state) close_source 4 (Z.of_nat i))) 2) as (b & Hg & Hb).
  - apply literal_counts; [lia|reflexivity].
  - apply (close_series 0 None 2 ltac:(lia) (close_samples 2 ltac:(lia))).
  - destruct (Hg open_state open_at_cursor) as (s' & Hrun & _). exists b, s'. split; [exact Hrun|].
    destruct b; [|done]. discriminate (proj1 Hb eq_refl 0 ltac:(lia)).
Defined.

(** Conditions that are literals. *)
Definition steady (s : est cxpr_context unit) : Prop :=
  ∃ err next freed, s = mk_est [] [mk_memo [] 1] err tt fzero next freed.

Abbreviation always_at b i :=
  (cxpr_eval_ast_bool_at_offset (EvalHost0 := close_host 0) close_registry (λ _, not_prepared) 4 caller_tree
     (new_node (CXPR_NODE_BOOL b)) (offset_of i)).

Lemma literal_condition b : bool_series (EvalHost0 := close_host 0) close_registry (λ _, not_prepared) 4 caller_tree
  steady (new_node (CXPR_NODE_BOOL b)) (λ _, b) 2.
Proof.
  intros [|[|i]] Hi s (err & next & freed & ->); [| |lia].
  - exists (mk_est [] [mk_memo [] 1] error_zero tt fzero next freed).
    split; [vm_compute; reflexivity|by eexists _, _, _].
  - exists (mk_est [] [mk_memo [] 1] error_zero tt fzero (S next) (next :: freed)).
    split; [vm_compute; reflexivity|by eexists _, _, _].
Qed.

Lemma overlap_correct_witness :
  ∃ b s', cxpr_timeseries_overlap_eval (EvalHost0 := close_host 0) close_registry (λ _, not_prepared) 4 caller_tree
            (new_node (CXPR_NODE_FUNCTION_CALL "overlaps"
               [new_node (CXPR_NODE_BOOL true); new_node (CXPR_NODE_BOOL false); literal 1] None))
            (mk_est [] [mk_memo [] 1] error_zero tt fzero 1 []) = Done (VBool b, s') ∧ b = false.
Proof.
  destruct (overlap_correct (EvalHost0 := close_host 0) close_registry (λ _, not_prepared) 4 caller_tree
    steady None "overlaps" (new_node (CXPR_NODE_BOOL true)) (new_node (CXPR_NODE_BOOL false)) (literal 1) None
    (λ _, true) (λ _, false) 1) as (b & Hg & Hb).
  - exists (of_Z 1). split; [|reflexivity]. intros s (err & next & freed & ->).
    exists (mk_est [] [mk_memo [] 1] error_zero tt fzero next freed).
    split; [vm_compute; reflexivity|by eexists _, _, _].
  - apply literal_condition.
  - apply literal_condition.
  - destruct (Hg (mk_est [] [mk_memo [] 1] error_zero tt fzero 1 [])) as (s' & Hrun & _); [by eexists _, _, _|].
    exists b, s'. split; [exact Hrun|]. destruct b; [|done]. by destruct (proj1 Hb eq_refl) as [_ (j & _ & ?)].
Defined.

(** ** Where the functions differ from what they mean *)

Definition library_registry : cxpr_registry := with_closes (cxpr_register_defaults cxpr_registry_new).

(** The evaluation of a text at the last bar, where [close] is 4. *)
Definition at_last_bar (source : string) : run (cxpr_value * cxpr_error_code) :=
  let* c := cxpr_context_set (env_at 77) (cxpr_context_new 1 2) (at_name one_address "close") (of_Z 4) in
  let host := library_host example_callbacks library_registry (λ _, not_prepared) 30
                (λ _, Some close_state) 6 in
  let* '(v, s) := cxpr_eval_ast_value (EvalHost0 := host) 30 library_registry (tree_of source) (state_of c) in
  Done (fst v, err_code (es_err s)).

Example previous_close : at_last_bar "close[1]" = Done (VNum (of_Z 8), CXPR_OK).
Proof. vm_compute. reflexivity. Qed.

Example highest_close : at_last_bar "highest(close, 3)" = Done (VNum (of_Z 8), CXPR_OK).
Proof. vm_compute. reflexivity. Qed.

Example highest_of_expression : at_last_bar "highest(close * 2, 3)" = Done (VNum (of_Z 16), CXPR_OK).
Proof. vm_compute. reflexivity. Qed.

Example window_too_long : at_last_bar "highest(close, 6)" = Done (VNum fnan, CXPR_ERR_INDEX_OUT_OF_RANGE).
Proof. vm_compute. reflexivity. Qed.

(** A target that mentions a name twice reads pointers that were never stored: the
    references are counted with repetitions and stored without. *)
Theorem repeated_reference_undefined :
  at_last_bar "(close + close)[1]" = Undef ∧ at_last_bar "(close * 2)[1]" = Done (VNum (of_Z 16), CXPR_OK).
Proof. split; vm_compute; reflexivity. Qed.

(** Named arguments are taken by position: the samples are the value. *)
Theorem named_window_arguments_ignored :
  at_last_bar "highest(value=close, samples=3)" = Done (VNum (of_Z 8), CXPR_OK) ∧
  at_last_bar "highest(samples=3, value=close)" = Done (VNum (of_Z 3), CXPR_OK).
Proof. split; vm_compute; reflexivity. Qed.
