(* ===== verification/EvalApiProofs.v ===== *)
(** * EvalApiProofs: the caches and the paths of the entry points

    The compiled program a node caches is the one of the registry and version it is
    asked with.  A function that calls itself is followed without end by the check
    before the compilation.  Inputs on which the three evaluators behind
    [cxpr_eval_ast_number] differ. *)

From Stdlib Require Import Ascii String ZArith Lia.
From stdpp Require Import base list strings gmap fin_maps.
From S2P Require Import Prelude Float64 Types ValueCopy OpenTable Hashmap StructMap Bindings Context ContextProofs IRLookup Ast References Registry Builtins Parser Define EvalSupport EvalSupportProofs EvalState TreeEval TreeContext TreeExamples IRCompile IRTyped IRContexts IRExamples EvalApi HistoryExamples.
Local Open Scope run_scope.
Local Open Scope eval_scope.
Local Open Scope nat_scope.

(** ** The program a node caches *)

(** The fields [compiled_registry], [compiled_registry_version], [compiled_cache]
    and [compiled_cache_failed] of a node; a registry is its address. *)
Record compiled_cache : Type := mk_cache {
  cc_registry : option Z;
  cc_version : Z;
  cc_program : option ir_program;
  cc_failed : bool
}.

Definition cache_new : compiled_cache := mk_cache None 0 None false.

(** What the compilation of the node ends with: the node is not compiled
    automatically, it does not compile, or a program. *)
Inductive compile_outcome : Type := not_safe | not_compiled | compiled_to (p : ir_program).

Definition outcome_program (o : compile_outcome) : option ir_program :=
  match o with compiled_to p => Some p | _ => None end.

(** [cxpr_eval_ast_cached_program] on the fields of the node. *)
Definition cached_program_step (registry version : Z) (outcome : compile_outcome) (c : compiled_cache)
    : option ir_program * compiled_cache :=
  let c := if bool_decide (cc_registry c = Some registry) && (cc_version c =? version)%Z then c
           else mk_cache (Some registry) version None false in
  match cc_program c with
  | Some p => (Some p, c)
  | None =>
      if cc_failed c then (None, c)
      else
        match outcome with
        | not_safe => (None, c)
        | not_compiled => (None, mk_cache (cc_registry c) (cc_version c) None true)
        | compiled_to p => (Some p, mk_cache (cc_registry c) (cc_version c) (Some p) false)
        end
  end.

(** The requests in order. *)
Fixpoint cached_programs (outcome : Z → Z → compile_outcome) (requests : list (Z * Z)) (c : compiled_cache)
    : list (option ir_program) :=
  match requests with
  | [] => []
  | (registry, version) :: requests =>
      let '(p, c) := cached_program_step registry version (outcome registry version) c in
      p :: cached_programs outcome requests c
  end.

Section cache.
Context (outcome : Z → Z → compile_outcome).

Definition cache_coherent (c : compiled_cache) : Prop :=
  match cc_registry c with
  | None => cc_program c = None ∧ cc_failed c = false
  | Some registry =>
      (∀ p, cc_program c = Some p → outcome registry (cc_version c) = compiled_to p) ∧
      (cc_failed c = true → outcome registry (cc_version c) = not_compiled)
  end.

Lemma cached_step_coherent registry version c :
  cache_coherent c →
  let r := cached_program_step registry version (outcome registry version) c in
  fst r = outcome_program (outcome registry version) ∧ cache_coherent (snd r).
Proof.
  intros Hc. unfold cached_program_step. cbv zeta.
  set (c' := if bool_decide (cc_registry c = Some registry) && (cc_version c =? version)%Z then c
             else mk_cache (Some registry) version None false).
  assert (Hc' : cc_registry c' = Some registry ∧ cc_version c' = version ∧ cache_coherent c').
  { unfold c'. destruct (bool_decide _ && _) eqn:Hb; [|by split_and!].
    apply andb_true_iff in Hb as [Hr%bool_decide_eq_true Hv%Z.eqb_eq]. done. }
  destruct Hc' as (Hr & Hv & Hco). unfold cache_coherent in Hco. rewrite Hr, Hv in Hco.
  destruct Hco as [Hp Hf].
  destruct (cc_program c') as [p|] eqn:Ep; simpl.
  { rewrite (Hp p eq_refl). split; [done|]. unfold cache_coherent. by rewrite Hr, Hv, Ep. }
  destruct (cc_failed c') eqn:Ef; simpl.
  { rewrite (Hf eq_refl). split; [done|]. unfold cache_coherent. by rewrite Hr, Hv, Ep, Ef. }
  destruct (outcome registry version) as [| |p] eqn:Eo; simpl; (split; [done|]); unfold cache_coherent; simpl;
    rewrite Hr, Hv; split; intros; rewrite ?Ep, ?Ef in *; congruence.
Qed.
End cache.

(** C12: the compiled program a node caches is coherent: when a registry's address
    and version determine its contents, every request in any sequence of requests
    with any registries returns what compiling the node for that registry and
    version gives, whatever was requested before. *)
Theorem cached_program_coherent outcome requests :
  cached_programs outcome requests cache_new =
  (λ '(registry, version), outcome_program (outcome registry version)) <$> requests.
Proof.
  assert (Hall : ∀ c, cache_coherent outcome c → cached_programs outcome requests c =
    (λ '(registry, version), outcome_program (outcome registry version)) <$> requests); [|by apply Hall].
  induction requests as [|[registry version] requests IH]; intros c Hc; [done|]. cbn [cached_programs].
  destruct (cached_step_coherent outcome registry version c Hc) as [Hp Hc'].
  destruct (cached_program_step _ _ _ c) as [p c']. simpl in Hp, Hc'. by rewrite fmap_cons, Hp, IH.
Qed.

(** ** A function that calls itself *)

#[local] Existing Instance example_host.
#[local] Existing Instance example_contexts.
#[local] Existing Instance example_callbacks.
#[local] Existing Instance print_hex_format.
#[local] Existing Instance example_lookups.
#[local] Existing Instance context_api.

Definition self_calling : cxpr_registry :=
  Eval vm_compute in
    match cxpr_registry_define_fn cxpr_registry_new "f(x) => f(x)" with
    | Done (_, r) => r
    | _ => cxpr_registry_new
    end.

Definition self_call (a : cxpr_expr_ast) : Prop :=
  ∃ x, ast_node a = CXPR_NODE_FUNCTION_CALL "f" [x] (Some [None]).

(** The body is such a call again. *)
Lemma self_call_unsafe p fuel a s :
  self_call a →
  cxpr_eval_ast_auto_compile_safe (L := cxpr_context) (W := unit) self_calling (λ _, prepared_as p) fuel a s
  = OutOfFuel.
Proof.
  revert a s. induction fuel as [|fuel IH]; intros a s [x Ha]; [done|].
  cbn [cxpr_eval_ast_auto_compile_safe]. unfold cxpr_expr_ast_call_uses_named_args. rewrite Ha.
  cbn -[cxpr_eval_ast_auto_compile_safe]. unfold bind at 1. unfold without_err, bind. 
  cbn -[cxpr_eval_ast_auto_compile_safe]. rewrite IH; [done|]. by eexists.
Qed.

(** No amount of work ends the check of a call of a function that calls itself,
    once the body's program is there, whatever the program: the check before the
    automatic compilation, and with it [cxpr_eval_ast_number], does not return. *)
Theorem recursive_function_never_checked p fuel s :
  cxpr_eval_ast_auto_compile_safe (L := cxpr_context) (W := unit) self_calling (λ _, prepared_as p) fuel
    (tree_of "f(1)") s = OutOfFuel.
Proof. apply self_call_unsafe. vm_compute. by eexists. Qed.

(** ** The evaluators behind one call *)

(** [cxpr_eval_ast_number] and [cxpr_eval_ast_value] of a text in a context. *)
Definition number_of (c : cxpr_context) (source : string) : run (option float64 * cxpr_error_code) :=
  let* '(d, s) := cxpr_eval_ast_number math_registry (λ _, not_prepared) 30 caller_tree (tree_of source)
                    (state_of c) in
  Done (d, err_code (es_err s)).

Definition value_of (c : cxpr_context) (source : string) : run (cxpr_value * cxpr_error_code) :=
  let* '(v, s) := cxpr_eval_ast_value 30 math_registry (tree_of source) (state_of c) in
  Done (fst v, err_code (es_err s)).

Definition flag_context : cxpr_context :=
  match cxpr_context_set_bool (env_at 77) (cxpr_context_new 1 2) (at_name one_address "flag") true with
  | Done c => c
  | _ => cxpr_context_new 1 2
  end.

(** Integers are no numbers to the compiled program and to the walk on doubles: an
    expression that only compares them fails, though the tree evaluator has its
    value. *)
Theorem int64_comparison_rejected :
  number_of int64_context "x == x ? 1 : 2" = Done (None, CXPR_ERR_UNKNOWN_IDENTIFIER) ∧
  value_of int64_context "x == x ? 1 : 2" = Done (VNum (of_Z 1), CXPR_OK).
Proof. split; vm_compute; reflexivity. Qed.

(** A boolean is a number to the compiled program and none to the tree evaluator. *)
Theorem boolean_counts_as_number :
  number_of flag_context "flag + 1" = Done (Some (of_Z 2), CXPR_OK) ∧
  value_of flag_context "flag + 1" = Done (VNum fnan, CXPR_ERR_TYPE_MISMATCH).
Proof. split; vm_compute; reflexivity. Qed.
