(* ===== verification/Memory.v ===== *)
(** * Memory: contiguous blocks of cells ([memcpy], [memmove], [memset])

    A block of memory the source addresses with an offset is the list of its
    cells.  Reading or writing a range that is not inside the block is
    undefined behaviour.  Offsets and lengths are [size_t] values, so they are
    integers; the range is tested before they are used as positions. *)

From Stdlib Require Import ZArith Lia.
From stdpp Require Import base list.
From S2P Require Import Prelude.
Local Open Scope run_scope.

(** The test that a product fits, as the source writes it. *)
Lemma quotient_lt a b c : (0 < b)%Z → (a / b < c ↔ a < c * b)%Z.
Proof.
  intros Hb. split; intros H; [|apply Z.div_lt_upper_bound; lia].
  pose proof (Z.mod_pos_bound a b Hb). pose proof (Z.div_mod a b). nia.
Qed.

Section memory.
  Context {A : Type}.
  Implicit Types mem cells : list A.

(** The range [off, off + n) lies inside a block of [mem]'s size. *)
Definition in_block mem (off n : Z) : bool :=
  (0 <=? off)%Z && (0 <=? n)%Z && (off + n <=? Z.of_nat (length mem))%Z.

(** The cells of a range (the source of a [memcpy]). *)
Definition mem_read mem (off n : Z) : run (list A) :=
  if in_block mem off n then Done (take (Z.to_nat n) (drop (Z.to_nat off) mem)) else Undef.

(** The block after the cells of a range are replaced (the target of a
    [memcpy]). *)
Definition mem_write mem (off : Z) cells : run (list A) :=
  if in_block mem off (Z.of_nat (length cells))
  then Done (list_inserts (Z.to_nat off) cells mem) else Undef.

(** [memmove] inside one block: the range is read before it is written. *)
Definition mem_move mem (dst src n : Z) : run (list A) :=
  let* cells := mem_read mem src n in
  mem_write mem dst cells.

(** [memset] *)
Definition mem_fill mem (off : Z) (x : A) (n : Z) : run (list A) :=
  if in_block mem off n
  then Done (list_inserts (Z.to_nat off) (replicate (Z.to_nat n) x) mem) else Undef.

(** Fresh memory of [n] cells; its contents are whatever the allocator
    returns. *)
Definition fresh (junk : nat → A) (n : Z) : list A := junk <$> seq 0 (Z.to_nat n).

(** ** Lemmas *)

(** The cells of a range, at natural positions. *)
Definition cells_at mem (off n : nat) : list A := take n (drop off mem).

Lemma in_block_spec mem off n :
  in_block mem off n = true ↔ (0 ≤ off ∧ 0 ≤ n ∧ off + n ≤ Z.of_nat (length mem))%Z.
Proof. unfold in_block. rewrite !andb_true_iff, !Z.leb_le. lia. Qed.

Lemma in_block_nat mem off n : off + n ≤ length mem → in_block mem (Z.of_nat off) (Z.of_nat n) = true.
Proof. intros. apply in_block_spec. lia. Qed.

Lemma mem_read_at mem off n :
  off + n ≤ length mem → mem_read mem (Z.of_nat off) (Z.of_nat n) = Done (cells_at mem off n).
Proof. intros. unfold mem_read. rewrite in_block_nat by done. by rewrite !Nat2Z.id. Qed.

Lemma mem_write_at mem off cells :
  off + length cells ≤ length mem →
  mem_write mem (Z.of_nat off) cells = Done (list_inserts off cells mem).
Proof. intros. unfold mem_write. rewrite in_block_nat by done. by rewrite Nat2Z.id. Qed.

Lemma mem_fill_at mem off x n :
  off + n ≤ length mem →
  mem_fill mem (Z.of_nat off) x (Z.of_nat n) = Done (list_inserts off (replicate n x) mem).
Proof. intros. unfold mem_fill. rewrite in_block_nat by done. by rewrite !Nat2Z.id. Qed.

Lemma mem_move_at mem dst src n :
  src + n ≤ length mem → dst + n ≤ length mem →
  mem_move mem (Z.of_nat dst) (Z.of_nat src) (Z.of_nat n) =
    Done (list_inserts dst (cells_at mem src n) mem).
Proof.
  intros Hs Hd. unfold mem_move. rewrite mem_read_at by done. cbn [run_bind].
  rewrite mem_write_at; [done|]. unfold cells_at. rewrite length_take, length_drop. lia.
Qed.

Lemma length_cells_at mem off n : off + n ≤ length mem → length (cells_at mem off n) = n.
Proof. intros. unfold cells_at. rewrite length_take, length_drop. lia. Qed.

Lemma lookup_cells_at mem off n k : k < n → cells_at mem off n !! k = mem !! (off + k).
Proof. intros. unfold cells_at. by rewrite lookup_take_lt, lookup_drop by lia. Qed.

Lemma length_fresh junk n : length (fresh junk n) = Z.to_nat n.
Proof. unfold fresh. by rewrite length_fmap, length_seq. Qed.

(** The cell at [k] after a range is replaced. *)
Lemma lookup_inserts mem off cells k :
  off + length cells ≤ length mem →
  list_inserts off cells mem !! k =
    if decide (off ≤ k < off + length cells) then cells !! (k - off) else mem !! k.
Proof.
  intros Hin. case_decide as Hk.
  - apply list_lookup_inserts; lia.
  - destruct (decide (k < off)); [by apply list_lookup_inserts_lt|].
    apply list_lookup_inserts_ge. lia.
Qed.

(** Replacing a range of as many cells, by parts. *)
Lemma inserts_app mem off cells :
  off + length cells ≤ length mem →
  list_inserts off cells mem = take off mem ++ cells ++ drop (off + length cells) mem.
Proof.
  intros Hin. apply list_eq. intros k. rewrite lookup_inserts by done. case_decide as Hk.
  - rewrite lookup_app_r, lookup_app_l by (rewrite length_take; lia).
    by rewrite length_take, Nat.min_l by lia.
  - destruct (decide (k < off)).
    + by rewrite lookup_app_l, lookup_take_lt by (rewrite ?length_take; lia).
    + rewrite !lookup_app_r by (rewrite ?length_take; lia).
      rewrite length_take, lookup_drop. f_equal. lia.
Qed.

(** Cells outside a replaced range are read as before, cells inside it are the
    ones written. *)
Lemma cells_at_inserts_other mem off cells off' n :
  off + length cells ≤ length mem → off' + n ≤ off ∨ off + length cells ≤ off' →
  cells_at (list_inserts off cells mem) off' n = cells_at mem off' n.
Proof.
  intros Hin Hd. apply list_eq. intros k. destruct (decide (k < n)) as [Hk|Hk].
  - rewrite !lookup_cells_at, lookup_inserts by done. case_decide; [lia|done].
  - unfold cells_at. rewrite !lookup_ge_None_2; rewrite ?length_take; lia || done.
Qed.

Lemma cells_at_inserts_same mem off cells :
  off + length cells ≤ length mem →
  cells_at (list_inserts off cells mem) off (length cells) = cells.
Proof.
  intros Hin. apply list_eq. intros k. destruct (decide (k < length cells)) as [Hk|Hk].
  - rewrite lookup_cells_at, lookup_inserts by done. case_decide; [f_equal; lia|lia].
  - unfold cells_at. rewrite !lookup_ge_None_2; rewrite ?length_take; lia || done.
Qed.

(** Writes to disjoint ranges commute. *)
Lemma inserts_commute mem off cells off' cells' :
  off + length cells ≤ length mem → off' + length cells' ≤ length mem →
  off' + length cells' ≤ off ∨ off + length cells ≤ off' →
  list_inserts off cells (list_inserts off' cells' mem) =
    list_inserts off' cells' (list_inserts off cells mem).
Proof.
  intros H1 H2 Hd. apply list_eq. intros k.
  rewrite !lookup_inserts by (rewrite ?length_inserts; done). repeat case_decide; lia || done.
Qed.

(** A range inside a written range, and a range of a range. *)
Lemma cells_at_inserts_inside mem off cells k n :
  off + length cells ≤ length mem → k + n ≤ length cells →
  cells_at (list_inserts off cells mem) (off + k) n = cells_at cells k n.
Proof.
  intros Hin Hk. apply list_eq. intros x. destruct (decide (x < n)) as [Hx|Hx].
  - rewrite !lookup_cells_at, lookup_inserts by done. case_decide; [f_equal; lia|lia].
  - unfold cells_at. rewrite !lookup_ge_None_2; rewrite ?length_take; lia || done.
Qed.

Lemma cells_at_cells_at mem off m k n :
  k + n ≤ m → cells_at (cells_at mem off m) k n = cells_at mem (off + k) n.
Proof.
  intros Hk. apply list_eq. intros x. destruct (decide (x < n)) as [Hx|Hx].
  - rewrite !lookup_cells_at by lia. f_equal. lia.
  - unfold cells_at. rewrite !lookup_ge_None_2; rewrite ?length_take; lia || done.
Qed.

(** ** Arrays of blocks *)

(** The first [n] blocks of [w] cells. *)
Definition blocks_of (w n : nat) mem : list (list A) := (λ i, cells_at mem (i * w) w) <$> seq 0 n.

Lemma length_blocks_of w n mem : length (blocks_of w n mem) = n.
Proof. unfold blocks_of. by rewrite length_fmap, length_seq. Qed.

Lemma lookup_blocks_of w n mem i : i < n → blocks_of w n mem !! i = Some (cells_at mem (i * w) w).
Proof. intros. unfold blocks_of. by rewrite list_lookup_fmap, lookup_seq_lt. Qed.

Lemma blocks_of_ext w n mem mem' :
  (∀ i, i < n → cells_at mem (i * w) w = cells_at mem' (i * w) w) → blocks_of w n mem = blocks_of w n mem'.
Proof.
  intros He. apply list_eq. intros i. destruct (decide (i < n)) as [Hi|Hi].
  - by rewrite !lookup_blocks_of, He by done.
  - by rewrite !lookup_ge_None_2 by (rewrite length_blocks_of; lia).
Qed.

(** The [n] blocks written one after another at the start of [mem] are kept by
    a copy of their bytes. *)
Lemma blocks_of_copy w n mem mem' :
  n * w ≤ length mem → n * w ≤ length mem' →
  blocks_of w n (list_inserts 0 (cells_at mem 0 (n * w)) mem') = blocks_of w n mem.
Proof.
  intros H1 H2. apply blocks_of_ext. intros i Hi.
  assert (i * w + w ≤ n * w) by nia.
  change (i * w) with (0 + i * w) at 1.
  rewrite cells_at_inserts_inside by (rewrite length_cells_at; lia).
  by rewrite cells_at_cells_at by lia.
Qed.

Lemma blocks_insert w n mem i block :
  i ≤ n → S n * w ≤ length mem → length block = w →
  blocks_of w (S n)
    (list_inserts (i * w) block (list_inserts (S i * w) (cells_at mem (i * w) ((n - i) * w)) mem)) =
  take i (blocks_of w n mem) ++ block :: drop i (blocks_of w n mem).
Proof.
  intros Hi Hlen Hb. apply list_eq. intros k.
  assert (Hw : i * w + (n - i) * w = n * w) by nia.
  assert (Hmove : length (cells_at mem (i * w) ((n - i) * w)) = (n - i) * w) by (apply length_cells_at; lia).
  destruct (decide (k < S n)) as [Hk|Hk]; cycle 1.
  { rewrite !lookup_ge_None_2; [done| |rewrite length_blocks_of; lia].
    rewrite length_app, length_take. simpl. rewrite length_drop, length_blocks_of. lia. }
  rewrite lookup_blocks_of by lia.
  destruct (decide (k < i)) as [Hlt|Hge].
  - rewrite lookup_app_l, lookup_take_lt, lookup_blocks_of by (rewrite ?length_take, ?length_blocks_of; lia).
    f_equal. assert (k * w + w ≤ i * w) by nia.
    rewrite !cells_at_inserts_other; rewrite ?length_inserts, ?Hmove, ?Hb; lia || done.
  - rewrite lookup_app_r by (rewrite length_take; lia).
    rewrite length_take, length_blocks_of, Nat.min_l by lia.
    destruct (decide (k = i)) as [->|Hne].
    + rewrite Nat.sub_diag. cbn [lookup list_lookup]. f_equal.
      rewrite <- (cells_at_inserts_same (list_inserts (S i * w) (cells_at mem (i * w) ((n - i) * w)) mem)
        (i * w) block) at 2 by (rewrite length_inserts; lia). by rewrite Hb.
    + replace (k - i) with (S (k - S i)) by lia. simpl. rewrite lookup_drop, lookup_blocks_of by lia. f_equal.
      assert (S i * w ≤ k * w) by nia.
      rewrite cells_at_inserts_other by (rewrite ?length_inserts; lia).
      replace (k * w) with (S i * w + (k - S i) * w) by nia.
      assert ((k - S i) * w + w ≤ (n - i) * w) by nia.
      rewrite cells_at_inserts_inside, cells_at_cells_at by lia. f_equal. nia.
Qed.

Lemma blocks_remove w n mem i :
  i < n → n * w ≤ length mem →
  blocks_of w (n - 1) (list_inserts (i * w) (cells_at mem (S i * w) ((n - i - 1) * w)) mem) =
  delete i (blocks_of w n mem).
Proof.
  intros Hi Hlen. apply list_eq. intros k.
  assert (Hw : S i * w + (n - i - 1) * w = n * w) by nia.
  assert (Hmove : length (cells_at mem (S i * w) ((n - i - 1) * w)) = (n - i - 1) * w)
    by (apply length_cells_at; lia).
  destruct (decide (k < n - 1)) as [Hk|Hk]; cycle 1.
  { rewrite !lookup_ge_None_2; [done| |rewrite length_blocks_of; lia].
    rewrite length_delete, length_blocks_of; [lia|]. apply lookup_lt_is_Some. rewrite length_blocks_of. lia. }
  rewrite lookup_blocks_of by lia. destruct (decide (k < i)) as [Hlt|Hge].
  - rewrite list_lookup_delete_lt, lookup_blocks_of by lia. f_equal.
    assert (k * w + w ≤ i * w) by nia. apply cells_at_inserts_other; lia.
  - rewrite list_lookup_delete_ge, lookup_blocks_of by lia. f_equal.
    replace (k * w) with (i * w + (k - i) * w) by nia.
    assert ((k - i) * w + w ≤ (n - i - 1) * w) by nia.
    rewrite cells_at_inserts_inside, cells_at_cells_at by lia. f_equal. nia.
Qed.

Lemma blocks_of_one n mem : n ≤ length mem → blocks_of 1 n mem = (λ x, [x]) <$> take n mem.
Proof.
  intros Hn. apply list_eq. intros i. rewrite list_lookup_fmap. destruct (decide (i < n)) as [Hi|Hi].
  - rewrite lookup_blocks_of, lookup_take_lt by lia. rewrite Nat.mul_1_r. unfold cells_at.
    destruct (lookup_lt_is_Some_2 mem i ltac:(lia)) as [x Hx].
    rewrite Hx, (drop_S _ _ _ Hx). done.
  - rewrite !lookup_ge_None_2; [done|rewrite length_take; lia|rewrite length_blocks_of; lia].
Qed.

Lemma fmap_single_inj (l l' : list A) : (λ x, [x]) <$> l = (λ x, [x]) <$> l' → l = l'.
Proof. apply list_fmap_eq_inj. by intros x y [= ->]. Qed.

(** Insertion and removal in an array with [n] entries in use. *)
Lemma array_insert n mem i x :
  i ≤ n → S n ≤ length mem →
  take (S n) (list_inserts i [x] (list_inserts (S i) (cells_at mem i (n - i)) mem)) =
  take i (take n mem) ++ x :: drop i (take n mem).
Proof.
  intros Hi Hn. apply fmap_single_inj.
  rewrite <- (blocks_of_one (S n)) by (rewrite !length_inserts; lia).
  rewrite fmap_app, fmap_cons, fmap_take, fmap_drop, <- !(blocks_of_one n) by lia.
  pose proof (blocks_insert 1 n mem i [x] Hi) as Hb. rewrite !Nat.mul_1_r in Hb. apply Hb; [lia|done].
Qed.

Lemma array_remove n mem i :
  i < n → n ≤ length mem →
  take (n - 1) (list_inserts i (cells_at mem (S i) (n - i - 1)) mem) = delete i (take n mem).
Proof.
  intros Hi Hn. apply fmap_single_inj. rewrite <- blocks_of_one by (rewrite ?length_inserts; lia).
  pose proof (blocks_remove 1 n mem i Hi) as Hb. rewrite !Nat.mul_1_r in Hb. rewrite Hb by lia.
  rewrite blocks_of_one by lia. symmetry. apply list_eq. intros k.
  rewrite list_lookup_fmap. destruct (decide (k < i)).
  - by rewrite !list_lookup_delete_lt, list_lookup_fmap by lia.
  - by rewrite !list_lookup_delete_ge, list_lookup_fmap by lia.
Qed.

End memory.
