(* ===== verification/Bulk.v ===== *)
(** * Bulk: evaluation of a generated model over many elements
    ([src/bulk.c], [include/cxpr/bulk.h], [include/cxpr/generated.h])

    The host owns the storage.  Its scalar cells are a map from addresses (an
    object and an index in it) to values, so that columns may share an object;
    its state blocks are one block of bytes.  A generated model is a
    descriptor with callbacks, which are functions of the descriptor: the tick
    maps a state block, inputs and parameters to the state block after it and
    the outputs it writes. *)

From Stdlib Require Import Ascii String ZArith Lia.
From stdpp Require Import base list strings gmap.
From S2P Require Import Prelude Float64 Types Memory.
Local Open Scope run_scope.
Local Open Scope Z_scope.

(** ** Generated model descriptors *)

Definition CXPR_GENERATED_MODEL_ABI_VERSION : Z := 5.
Definition CXPR_GENERATED_MODEL_MAX_INPUTS : Z := 64.
Definition CXPR_GENERATED_MODEL_MAX_OUTPUTS : Z := 64.
Definition CXPR_GENERATED_MODEL_MAX_PARAMS : Z := 64.

Inductive cxpr_generated_value_type : Type :=
  | CXPR_GENERATED_VALUE_UNKNOWN | CXPR_GENERATED_VALUE_NUMBER
  | CXPR_GENERATED_VALUE_BOOL | CXPR_GENERATED_VALUE_INT64.

(** State block, inputs and parameters to the state block after the tick and
    the outputs it wrote, from the first one on. *)
Abbreviation cxpr_generated_tick_fn :=
  (list Z → list cxpr_value → list cxpr_value → list Z * list cxpr_value).
Abbreviation cxpr_generated_reset_fn := (list Z → list Z).

(** The fields that bulk evaluation reads.  The arrays have 64 entries; those behind the end of a list
    are zero, as a static initializer leaves them.  [gd_state_size] is what
    the callback returns, [None] when the pointer is NULL. *)
Record cxpr_generated_model_descriptor : Type := mk_descriptor {
  gd_name : option string;
  gd_tick : option cxpr_generated_tick_fn;
  gd_state_size : option Z;
  gd_param_count : Z;
  gd_input_names : list (option string);
  gd_input_types : list cxpr_generated_value_type;
  gd_input_count : Z;
  gd_output_names : list (option string);
  gd_output_types : list cxpr_generated_value_type;
  gd_output_count : Z;
  gd_abi_version : Z;
  gd_reset : option cxpr_generated_reset_fn;
  gd_param_names : list (option string);
  gd_param_types : list cxpr_generated_value_type
}.

Definition name_entry (names : list (option string)) (i : nat) : option string :=
  default None (names !! i).

Definition type_entry (types : list cxpr_generated_value_type) (i : nat) : cxpr_generated_value_type :=
  default CXPR_GENERATED_VALUE_UNKNOWN (types !! i).

(** One entry of a schema: it has a name and a scalar type. *)
Definition entry_valid (names : list (option string)) (types : list cxpr_generated_value_type)
    (i : nat) : bool :=
  match name_entry names i, type_entry types i with
  | Some _, (CXPR_GENERATED_VALUE_NUMBER | CXPR_GENERATED_VALUE_BOOL | CXPR_GENERATED_VALUE_INT64) => true
  | _, _ => false
  end.

Definition entries_valid names types (count : Z) : bool :=
  forallb (entry_valid names types) (seq 0 (Z.to_nat count)).

Definition cxpr_generated_model_descriptor_abi_valid
    (descriptor : option cxpr_generated_model_descriptor) : bool :=
  match descriptor with
  | None => false
  | Some d =>
      if negb (gd_abi_version d =? CXPR_GENERATED_MODEL_ABI_VERSION) ||
         negb (bool_decide (is_Some (gd_name d))) ||
         match gd_tick d with None => true | Some _ => false end ||
         negb (bool_decide (is_Some (gd_state_size d))) ||
         (CXPR_GENERATED_MODEL_MAX_INPUTS <? gd_input_count d) ||
         (CXPR_GENERATED_MODEL_MAX_OUTPUTS <? gd_output_count d) ||
         (CXPR_GENERATED_MODEL_MAX_PARAMS <? gd_param_count d)
      then false
      else entries_valid (gd_input_names d) (gd_input_types d) (gd_input_count d) &&
           entries_valid (gd_output_names d) (gd_output_types d) (gd_output_count d) &&
           entries_valid (gd_param_names d) (gd_param_types d) (gd_param_count d)
  end.

(** ** Views and memory *)

(** The address of a scalar cell: an object of the host and an index. *)
Abbreviation cell := (nat * Z)%type.

(** [cxpr_bulk_column] and [cxpr_bulk_const_column] *)
Record cxpr_bulk_column : Type := mk_column {
  col_values : option cell;
  col_stride : Z
}.

(** [bv_states] says whether the pointer to the state blocks is set. *)
Record cxpr_bulk_view : Type := mk_view {
  bv_inputs : option (list cxpr_bulk_column);
  bv_input_count : Z;
  bv_params : option cell;
  bv_param_count : Z;
  bv_outputs : option (list cxpr_bulk_column);
  bv_output_count : Z;
  bv_states : bool;
  bv_state_stride : Z;
  bv_element_count : Z
}.

Record bulk_memory : Type := mk_memory {
  bm_values : gmap cell cxpr_value;
  bm_states : list Z
}.

Inductive cxpr_bulk_status : Type :=
  | CXPR_BULK_OK
  | CXPR_BULK_INVALID_ARGUMENT
  | CXPR_BULK_INVALID_DESCRIPTOR
  | CXPR_BULK_SCHEMA_MISMATCH
  | CXPR_BULK_MISSING_BUFFER
  | CXPR_BULK_STATE_STRIDE_TOO_SMALL
  | CXPR_BULK_RANGE_OUT_OF_BOUNDS.

#[export] Instance cxpr_bulk_status_eq_dec : EqDecision cxpr_bulk_status.
Proof. solve_decision. Defined.

Definition cxpr_bulk_status_message (status : cxpr_bulk_status) : string :=
  match status with
  | CXPR_BULK_OK => "bulk view is valid"
  | CXPR_BULK_INVALID_ARGUMENT => "invalid bulk argument"
  | CXPR_BULK_INVALID_DESCRIPTOR => "invalid generated model descriptor"
  | CXPR_BULK_SCHEMA_MISMATCH => "bulk view does not match model schema"
  | CXPR_BULK_MISSING_BUFFER => "bulk view requires a data buffer"
  | CXPR_BULK_STATE_STRIDE_TOO_SMALL => "bulk state stride is smaller than model state"
  | CXPR_BULK_RANGE_OUT_OF_BOUNDS => "bulk range is out of bounds"
  end.

(** ** Validation *)

(** The offset of the last element does not fit a [size_t]. *)
Definition stride_overflows (elements stride : Z) : bool :=
  (0 <? elements) && (0 <? stride) && (SIZE_MAX / stride <? elements - 1).

Definition input_problem (elements : Z) (c : cxpr_bulk_column) : cxpr_bulk_status :=
  match col_values c with
  | None => CXPR_BULK_MISSING_BUFFER
  | Some _ =>
      if stride_overflows elements (col_stride c) then CXPR_BULK_INVALID_ARGUMENT else CXPR_BULK_OK
  end.

Definition output_problem (elements : Z) (c : cxpr_bulk_column) : cxpr_bulk_status :=
  match col_values c with
  | None => CXPR_BULK_MISSING_BUFFER
  | Some _ =>
      if (1 <? elements) && (col_stride c =? 0) then CXPR_BULK_MISSING_BUFFER
      else if stride_overflows elements (col_stride c) then CXPR_BULK_INVALID_ARGUMENT
      else CXPR_BULK_OK
  end.

(** The first problem of the first [n] columns. *)
Fixpoint columns_problem (problem : cxpr_bulk_column → cxpr_bulk_status)
    (columns : list cxpr_bulk_column) (n : nat) : run cxpr_bulk_status :=
  match n, columns with
  | O, _ => Done CXPR_BULK_OK
  | S n, c :: columns =>
      match problem c with
      | CXPR_BULK_OK => columns_problem problem columns n
      | status => Done status
      end
  | S _, [] => Undef
  end.

(** [if (status != CXPR_BULK_OK) return status;] before [k] *)
Definition unless_problem (m : run cxpr_bulk_status) (k : run cxpr_bulk_status) : run cxpr_bulk_status :=
  let* status := m in
  match status with CXPR_BULK_OK => k | status => Done status end.

Definition states_problem (state_size : Z) (v : cxpr_bulk_view) : cxpr_bulk_status :=
  if negb (state_size =? 0) && negb (bv_states v) then CXPR_BULK_MISSING_BUFFER
  else if negb (state_size =? 0) && (bv_state_stride v <? state_size)
  then CXPR_BULK_STATE_STRIDE_TOO_SMALL
  else if negb (state_size =? 0) && stride_overflows (bv_element_count v) (bv_state_stride v)
  then CXPR_BULK_INVALID_ARGUMENT
  else CXPR_BULK_OK.

Definition cxpr_bulk_validate (descriptor : option cxpr_generated_model_descriptor)
    (view : option cxpr_bulk_view) : run cxpr_bulk_status :=
  match view with
  | None => Done CXPR_BULK_INVALID_ARGUMENT
  | Some v =>
      if negb (cxpr_generated_model_descriptor_abi_valid descriptor)
      then Done CXPR_BULK_INVALID_DESCRIPTOR
      else
        match descriptor with
        | None => Undef
        | Some d =>
            if negb (bv_input_count v =? gd_input_count d) ||
               negb (bv_output_count v =? gd_output_count d) ||
               negb (bv_param_count v =? gd_param_count d)
            then Done CXPR_BULK_SCHEMA_MISMATCH
            else if (negb (bv_input_count v =? 0) && negb (bool_decide (is_Some (bv_inputs v)))) ||
                    (negb (bv_output_count v =? 0) && negb (bool_decide (is_Some (bv_outputs v)))) ||
                    (negb (bv_param_count v =? 0) && negb (bool_decide (is_Some (bv_params v))))
            then Done CXPR_BULK_MISSING_BUFFER
            else
              unless_problem (columns_problem (input_problem (bv_element_count v))
                                (default [] (bv_inputs v)) (Z.to_nat (bv_input_count v)))
             (unless_problem (columns_problem (output_problem (bv_element_count v))
                                (default [] (bv_outputs v)) (Z.to_nat (bv_output_count v)))
             (match gd_state_size d with
              | Some state_size => Done (states_problem state_size v)
              | None => Undef
              end))
        end
  end.

(** ** Execution *)

Definition value_cell (values : gmap cell cxpr_value) (at_cell : cell) : run cxpr_value :=
  match values !! at_cell with Some x => Done x | None => Undef end.

(** [column.values + index] *)
Definition column_cell (c : cxpr_bulk_column) (index : Z) : run cell :=
  match col_values c with Some (object, base) => Done (object, base + index) | None => Undef end.

(** [inputs[j] = view->inputs[j].values[stride ? i * stride : 0]] for the first
    [n] columns *)
Fixpoint read_inputs (values : gmap cell cxpr_value) (columns : list cxpr_bulk_column) (i : Z) (n : nat)
    : run (list cxpr_value) :=
  match n, columns with
  | O, _ => Done []
  | S n, c :: columns =>
      let* at_cell := column_cell c (if col_stride c =? 0 then 0 else wrap64 (i * col_stride c)) in
      let* x := value_cell values at_cell in
      let* xs := read_inputs values columns i n in
      Done (x :: xs)
  | S _, [] => Undef
  end.

(** The parameters the tick reads. *)
Fixpoint read_params (values : gmap cell cxpr_value) (params : option cell) (n : nat)
    : run (list cxpr_value) :=
  match n, params with
  | O, _ => Done []
  | S n, Some (object, base) =>
      let* x := value_cell values (object, base) in
      let* xs := read_params values (Some (object, base + 1)) n in
      Done (x :: xs)
  | S _, None => Undef
  end.

(** [view->outputs[j].values[i * stride] = outputs[j]] for the first [n]
    columns; an output the tick did not write is an uninitialised cell of the
    array on the stack. *)
Fixpoint write_outputs (values : gmap cell cxpr_value) (columns : list cxpr_bulk_column) (i : Z)
    (outputs : list cxpr_value) (n : nat) : run (gmap cell cxpr_value) :=
  match n, columns, outputs with
  | O, _, _ => Done values
  | S n, c :: columns, x :: outputs =>
      let* at_cell := column_cell c (wrap64 (i * col_stride c)) in
      let* _ := value_cell values at_cell in
      write_outputs (<[at_cell := x]> values) columns i outputs n
  | S _, _, _ => Undef
  end.

(** The body of the loop over the elements. *)
Definition run_element (d : cxpr_generated_model_descriptor) (v : cxpr_bulk_view) (i : Z)
    (m : bulk_memory) : run bulk_memory :=
  match gd_tick d, gd_state_size d with
  | Some tick, Some state_size =>
      let offset := wrap64 (i * bv_state_stride v) in
      let* state := if bv_states v then mem_read (bm_states m) offset state_size else Done [] in
      let* inputs := read_inputs (bm_values m) (default [] (bv_inputs v)) i (Z.to_nat (gd_input_count d)) in
      let* params := read_params (bm_values m) (bv_params v) (Z.to_nat (gd_param_count d)) in
      let (state', outputs) := tick state inputs params in
      let* states := if bv_states v then mem_write (bm_states m) offset state' else Done (bm_states m) in
      let* values := write_outputs (bm_values m) (default [] (bv_outputs v)) i outputs
                       (Z.to_nat (gd_output_count d)) in
      Done (mk_memory values states)
  | _, _ => Undef
  end.

Fixpoint run_elements (d : cxpr_generated_model_descriptor) (v : cxpr_bulk_view) (i : Z) (n : nat)
    (m : bulk_memory) : run bulk_memory :=
  match n with
  | O => Done m
  | S n => let* m := run_element d v i m in run_elements d v (i + 1) n m
  end.

(** [begin > element_count || count > element_count - begin] *)
Definition range_outside (v : cxpr_bulk_view) (first count : Z) : bool :=
  (bv_element_count v <? first) || (bv_element_count v - first <? count).

Definition cxpr_bulk_run_range (descriptor : option cxpr_generated_model_descriptor)
    (view : option cxpr_bulk_view) (first count : Z) (m : bulk_memory)
    : run (cxpr_bulk_status * bulk_memory) :=
  let* status := cxpr_bulk_validate descriptor view in
  match status, descriptor, view with
  | CXPR_BULK_OK, Some d, Some v =>
      if range_outside v first count then Done (CXPR_BULK_RANGE_OUT_OF_BOUNDS, m)
      else if count =? 0 then Done (CXPR_BULK_OK, m)
      else let* m := run_elements d v first (Z.to_nat count) m in Done (CXPR_BULK_OK, m)
  | CXPR_BULK_OK, _, _ => Undef
  | status, _, _ => Done (status, m)
  end.

Definition view_elements (view : option cxpr_bulk_view) : Z :=
  match view with Some v => bv_element_count v | None => 0 end.

Definition cxpr_bulk_run descriptor view m : run (cxpr_bulk_status * bulk_memory) :=
  cxpr_bulk_run_range descriptor view 0 (view_elements view) m.

(** One element's block to its initial state: the model's reset, or zeros. *)
Definition reset_block (d : cxpr_generated_model_descriptor) (states : list Z) (offset state_size : Z)
    : run (list Z) :=
  match gd_reset d with
  | Some reset =>
      let* state := mem_read states offset state_size in
      mem_write states offset (reset state)
  | None => mem_fill states offset 0 state_size
  end.

Fixpoint reset_elements (d : cxpr_generated_model_descriptor) (v : cxpr_bulk_view) (state_size i : Z)
    (n : nat) (states : list Z) : run (list Z) :=
  match n with
  | O => Done states
  | S n =>
      let* states := reset_block d states (wrap64 (i * bv_state_stride v)) state_size in
      reset_elements d v state_size (i + 1) n states
  end.

Definition cxpr_bulk_reset_range (descriptor : option cxpr_generated_model_descriptor)
    (view : option cxpr_bulk_view) (first count : Z) (m : bulk_memory)
    : run (cxpr_bulk_status * bulk_memory) :=
  let* status := cxpr_bulk_validate descriptor view in
  match status, descriptor, view with
  | CXPR_BULK_OK, Some d, Some v =>
      match gd_state_size d with
      | None => Undef
      | Some state_size =>
          if range_outside v first count then Done (CXPR_BULK_RANGE_OUT_OF_BOUNDS, m)
          else if state_size =? 0 then Done (CXPR_BULK_OK, m)
          else
            let* states := reset_elements d v state_size first (Z.to_nat count) (bm_states m) in
            Done (CXPR_BULK_OK, mk_memory (bm_values m) states)
      end
  | CXPR_BULK_OK, _, _ => Undef
  | status, _, _ => Done (status, m)
  end.

Definition cxpr_bulk_reset descriptor view m : run (cxpr_bulk_status * bulk_memory) :=
  cxpr_bulk_reset_range descriptor view 0 (view_elements view) m.
