(* ===== verification/BulkProofs.v ===== *)
(** * BulkProofs: a bulk run is one independent tick per element

    Under the contract of [include/cxpr/bulk.h] (storage that covers every
    access, output cells that are distinct and not read as inputs or
    parameters) a validated run over a range gives every element of the range
    the result of the tick on its own state and inputs, and changes nothing
    else; so disjoint ranges can run in any order.  Validation makes every
    offset exact in [size_t] arithmetic. *)

From Stdlib Require Import Ascii String ZArith Lia.
From stdpp Require Import base list strings gmap.
From S2P Require Import Prelude Float64 Types Memory Bulk.
Local Open Scope run_scope.
Local Open Scope Z_scope.

(** ** The contract of a view *)

(** A value of [size_t]. *)
Definition in_size (z : Z) : Prop := 0 ≤ z ≤ SIZE_MAX.

(** The cell of a column for an element. *)
Definition element_cell (c : cxpr_bulk_column) (i : Z) : option cell :=
  match col_values c with Some (object, base) => Some (object, base + i * col_stride c) | None => None end.

Section contract.
Context (d : cxpr_generated_model_descriptor) (v : cxpr_bulk_view).
Context (tick : cxpr_generated_tick_fn) (size : Z).

Definition input_columns : list cxpr_bulk_column :=
  take (Z.to_nat (gd_input_count d)) (default [] (bv_inputs v)).
Definition output_columns : list cxpr_bulk_column :=
  take (Z.to_nat (gd_output_count d)) (default [] (bv_outputs v)).
Definition param_cell (k : nat) : option cell :=
  match bv_params v with Some (object, base) => Some (object, base + Z.of_nat k) | None => None end.
Definition element (i : Z) : Prop := 0 ≤ i < bv_element_count v.

(** The view's numbers are [size_t] values and the model's callbacks are set;
    the tick keeps the size of its block and writes every output. *)
Record view_typed : Prop := {
  vt_tick : gd_tick d = Some tick;
  vt_state_size : gd_state_size d = Some size;
  vt_size : in_size size;
  vt_elements : in_size (bv_element_count v);
  vt_stride : in_size (bv_state_stride v);
  vt_counts : 0 ≤ gd_input_count d ∧ 0 ≤ gd_output_count d ∧ 0 ≤ gd_param_count d;
  vt_columns : Forall (λ c, in_size (col_stride c)) (input_columns ++ output_columns);
  vt_block : ∀ state inputs params, length state = Z.to_nat size →
    length (tick state inputs params).1 = Z.to_nat size ∧
    (Z.to_nat (gd_output_count d) ≤ length (tick state inputs params).2)%nat
}.

Definition held (m : bulk_memory) (a : option cell) : Prop :=
  ∃ p, a = Some p ∧ is_Some (bm_values m !! p).

(** The host's storage covers every access. *)
Record covered (m : bulk_memory) : Prop := {
  cov_inputs : ∀ c i, c ∈ input_columns → element i → held m (element_cell c i);
  cov_outputs : ∀ c i, c ∈ output_columns → element i → held m (element_cell c i);
  cov_params : ∀ k, (k < Z.to_nat (gd_param_count d))%nat → held m (param_cell k);
  cov_states : bv_states v = true → ∀ i, element i →
    i * bv_state_stride v + size ≤ Z.of_nat (length (bm_states m));
  cov_object : Z.of_nat (length (bm_states m)) ≤ SIZE_MAX
}.

(** Output cells are distinct and are not read. *)
Record separate : Prop := {
  sep_outputs : ∀ j c i j' c' i', output_columns !! j = Some c → output_columns !! j' = Some c' →
    element i → element i' → element_cell c i = element_cell c' i' → j = j' ∧ i = i';
  sep_inputs : ∀ c i c' i', c ∈ input_columns → c' ∈ output_columns →
    element i → element i' → element_cell c i ≠ element_cell c' i';
  sep_params : ∀ k c i, (k < Z.to_nat (gd_param_count d))%nat → c ∈ output_columns → element i →
    param_cell k ≠ element_cell c i
}.

(** ** What a run computes *)

Definition state_at (m : bulk_memory) (i : Z) : list Z :=
  if bv_states v then cells_at (bm_states m) (Z.to_nat (i * bv_state_stride v)) (Z.to_nat size) else [].
Definition inputs_at (m : bulk_memory) (i : Z) : list cxpr_value :=
  omap (λ c, element_cell c i ≫= (bm_values m !!.)) input_columns.
Definition params_at (m : bulk_memory) : list cxpr_value :=
  omap (λ k, param_cell k ≫= (bm_values m !!.)) (seq 0 (Z.to_nat (gd_param_count d))).

(** The tick of one element. *)
Definition ticked (m : bulk_memory) (i : Z) : list Z * list cxpr_value :=
  tick (state_at m i) (inputs_at m i) (params_at m).

(** [a] is an output cell of an element in [P]. *)
Definition written (P : Z → Prop) (a : cell) : Prop :=
  ∃ i j c, P i ∧ output_columns !! j = Some c ∧ element_cell c i = Some a.

(** Byte [k] belongs to the state block of an element in [P]. *)
Definition owned (P : Z → Prop) (k : nat) : Prop :=
  ∃ i, P i ∧ i * bv_state_stride v ≤ Z.of_nat k < i * bv_state_stride v + size.

(** The elements in [P] have ticked once, and nothing else has changed. *)
Record elements_ticked (P : Z → Prop) (m m' : bulk_memory) : Prop := {
  et_states : ∀ i, P i → state_at m' i = (ticked m i).1;
  et_outputs : ∀ i j c a, P i → output_columns !! j = Some c → element_cell c i = Some a →
    bm_values m' !! a = (ticked m i).2 !! j;
  et_cells : ∀ a, written P a ∨ bm_values m' !! a = bm_values m !! a;
  et_bytes : ∀ k, (bv_states v = true ∧ owned P k) ∨ bm_states m' !! k = bm_states m !! k;
  et_length : length (bm_states m') = length (bm_states m);
  et_held : ∀ a, is_Some (bm_values m !! a) → is_Some (bm_values m' !! a)
}.

Context (Htyped : view_typed) (Hsep : separate).

(** Blocks of different elements do not share a byte. *)
Hypothesis Hstride : size ≠ 0 → size ≤ bv_state_stride v.

Lemma owned_by P i k : i * bv_state_stride v ≤ Z.of_nat k < i * bv_state_stride v + size →
  owned P k → P i.
Proof.
  intros Hk (i' & HP & Hk'). assert (size ≤ bv_state_stride v) by (apply Hstride; lia).
  replace i with i'; [done|]. nia.
Qed.

Lemma state_at_other P m m' i :
  elements_ticked P m m' → element i → ¬ P i → state_at m' i = state_at m i.
Proof.
  intros HT Hi HnP. unfold state_at. destruct (bv_states v) eqn:Hs; [|done].
  apply list_eq. intros k. destruct (decide (k < Z.to_nat size)%nat) as [Hk|Hk].
  - rewrite !lookup_cells_at by done.
    destruct (et_bytes _ _ _ HT (Z.to_nat (i * bv_state_stride v) + k)) as [[_ Ho]|Heq]; [|done].
    exfalso. apply HnP. eapply owned_by; [|exact Ho]. unfold element, in_size in *.
    pose proof (vt_size Htyped). pose proof (vt_stride Htyped). unfold in_size in *. nia.
  - unfold cells_at. rewrite !lookup_ge_None_2; [done|rewrite length_take; lia..].
Qed.

Lemma cell_other P m m' a :
  elements_ticked P m m' → ¬ written P a → bm_values m' !! a = bm_values m !! a.
Proof. intros HT Hn. by destruct (et_cells _ _ _ HT a). Qed.

Lemma inputs_at_kept P m m' i :
  elements_ticked P m m' → (∀ k, P k → element k) → element i → inputs_at m' i = inputs_at m i.
Proof.
  intros HT HP Hi. unfold inputs_at. apply list_omap_ext, Forall2_same_length_lookup_2; [done|].
  intros k c c' Hc Hc'. simplify_eq. destruct (element_cell c i) as [a|] eqn:Ha; [|done]. simpl.
  eapply cell_other; [done|]. intros (i' & j & c' & Hi' & Hj & Ha').
  eapply sep_inputs; [done|by eapply list_elem_of_lookup_2|by eapply list_elem_of_lookup_2|
    exact Hi|by apply HP|congruence].
Qed.

Lemma params_at_kept P m m' :
  elements_ticked P m m' → (∀ k, P k → element k) → params_at m' = params_at m.
Proof.
  intros HT HP. unfold params_at. apply list_omap_ext, Forall2_same_length_lookup_2; [done|].
  intros n k k' Hk Hk'. simplify_eq. destruct (param_cell k) as [a|] eqn:Ha; [|done]. simpl.
  apply lookup_seq in Hk as [-> Hlt].
  eapply cell_other; [done|]. intros (i' & j & c' & Hi' & Hj & Ha').
  eapply sep_params; [done|exact Hlt|by eapply list_elem_of_lookup_2|by apply HP|].
  rewrite Ha'. exact Ha.
Qed.

Lemma ticked_kept P m m' i :
  elements_ticked P m m' → (∀ k, P k → element k) → element i → ¬ P i → ticked m' i = ticked m i.
Proof.
  intros. unfold ticked. by erewrite state_at_other, inputs_at_kept, params_at_kept.
Qed.

(** ** Runs over disjoint sets of elements compose *)

Lemma elements_ticked_none P m : (∀ i, ¬ P i) → elements_ticked P m m.
Proof. intros HP. split; eauto; intros; exfalso; eapply HP; eauto. Qed.

Lemma elements_ticked_app P Q m m1 m2 :
  (∀ i, P i → element i) → (∀ i, Q i → element i) → (∀ i, P i → ¬ Q i) →
  elements_ticked P m m1 → elements_ticked Q m1 m2 → elements_ticked (λ i, P i ∨ Q i) m m2.
Proof.
  intros HP HQ Hd H1 H2. split.
  - intros i [Hi|Hi].
    + erewrite state_at_other by eauto. by eapply et_states.
    + rewrite (et_states _ _ _ H2 _ Hi). erewrite ticked_kept; eauto. intros ?. by eapply Hd.
  - intros i j c a [Hi|Hi] Hj Ha.
    + erewrite (cell_other Q); [by eapply et_outputs|done|].
      intros (i' & j' & c' & Hi' & Hj' & Ha').
      edestruct (sep_outputs Hsep j c i j' c' i') as [_ ->]; eauto; [congruence|]. by eapply Hd.
    + rewrite (et_outputs _ _ _ H2 _ _ _ _ Hi Hj Ha). erewrite ticked_kept; eauto. intros ?. by eapply Hd.
  - intros a. destruct (et_cells _ _ _ H1 a) as [(i & j & c & ?)|<-].
    + left. exists i, j, c. naive_solver.
    + destruct (et_cells _ _ _ H2 a) as [(i & j & c & ?)|<-]; [left|by right]. exists i, j, c. naive_solver.
  - intros k. destruct (et_bytes _ _ _ H1 k) as [[Hs (i & ?)]|<-].
    + left. split; [done|]. exists i. naive_solver.
    + destruct (et_bytes _ _ _ H2 k) as [[Hs (i & ?)]|<-]; [left|by right]. split; [done|]. exists i. naive_solver.
  - rewrite (et_length _ _ _ H2). by eapply et_length.
  - intros a Ha. eapply et_held, et_held; eauto.
Qed.

Lemma byte_in_state m i k (o : nat) :
  bv_states v = true → o = Z.to_nat (i * bv_state_stride v) → (o ≤ k < o + Z.to_nat size)%nat →
  bm_states m !! k = state_at m i !! (k - o)%nat.
Proof.
  intros Hs -> Hk. unfold state_at. rewrite Hs, lookup_cells_at by lia. f_equal. lia.
Qed.

Lemma elements_ticked_byte P m m1 m2 k :
  (∀ i, P i → element i) → elements_ticked P m m1 → elements_ticked P m m2 →
  bv_states v = true → owned P k → bm_states m1 !! k = bm_states m2 !! k.
Proof.
  intros HP H1 H2 Hs (i & Hi & Hk). pose proof (vt_stride Htyped) as Hst. unfold in_size in Hst.
  pose proof (HP _ Hi) as He. unfold element in He.
  assert (Hr : (Z.to_nat (i * bv_state_stride v) ≤ k <
                Z.to_nat (i * bv_state_stride v) + Z.to_nat size)%nat) by nia.
  rewrite !(byte_in_state _ i k _ Hs eq_refl Hr).
  by rewrite (et_states _ _ _ H1 _ Hi), (et_states _ _ _ H2 _ Hi).
Qed.

(** The result of a run is determined by the memory before it. *)
Lemma elements_ticked_unique P m m1 m2 :
  (∀ i, P i → element i) → elements_ticked P m m1 → elements_ticked P m m2 → m1 = m2.
Proof.
  intros HP H1 H2. destruct m1 as [vs1 st1] eqn:E1, m2 as [vs2 st2] eqn:E2. f_equal.
  - apply map_eq. intros a. change vs1 with (bm_values (mk_memory vs1 st1)).
    change vs2 with (bm_values (mk_memory vs2 st2)). rewrite <- E1, <- E2 in *.
    assert (Hw : written P a → bm_values m1 !! a = bm_values m2 !! a).
    { intros (i & j & c & Hi & Hj & Ha).
      by rewrite (et_outputs _ _ _ H1 _ _ _ _ Hi Hj Ha), (et_outputs _ _ _ H2 _ _ _ _ Hi Hj Ha). }
    destruct (et_cells _ _ _ H1 a) as [?|E]; [by apply Hw|].
    destruct (et_cells _ _ _ H2 a) as [Ha|E']; [by apply Hw|congruence].
  - apply list_eq. intros k. change st1 with (bm_states (mk_memory vs1 st1)).
    change st2 with (bm_states (mk_memory vs2 st2)). rewrite <- E1, <- E2 in *.
    destruct (et_bytes _ _ _ H1 k) as [[Hs Ho]|E]; [by eapply elements_ticked_byte|].
    destruct (et_bytes _ _ _ H2 k) as [[Hs Ho]|E']; [by eapply elements_ticked_byte|congruence].
Qed.
End contract.

(** ** One element *)

Lemma exact_offset elements stride i :
  stride_overflows elements stride = false → in_size stride → 0 ≤ i < elements →
  wrap64 (i * stride) = i * stride.
Proof.
  unfold stride_overflows, in_size, wrap64, SIZE_MAX. intros Ho Hs Hi.
  destruct (decide (stride = 0)) as [->|Hn]; [by rewrite Z.mul_0_r|].
  rewrite !andb_false_iff, !Z.ltb_ge in Ho.
  assert (i * stride ≤ 2 ^ 64 - 1).
  { assert (i ≤ (2 ^ 64 - 1) / stride) by lia.
    transitivity ((2 ^ 64 - 1) / stride * stride); [nia|].
    rewrite Z.mul_comm. apply Z.mul_div_le. lia. }
  apply Z.mod_small. nia.
Qed.

Lemma columns_problem_ok problem columns n :
  columns_problem problem columns n = Done CXPR_BULK_OK →
  length (take n columns) = n ∧ Forall (λ c, problem c = CXPR_BULK_OK) (take n columns).
Proof.
  revert columns. induction n as [|n IH]; intros columns Hp; [by rewrite take_0|].
  destruct columns as [|c columns]; [done|]. simpl in *.
  destruct (problem c) eqn:Hc; try done. destruct (IH _ Hp) as [<- ?].
  split; [by rewrite length_take, Nat.min_l by (rewrite length_take; lia)|by constructor].
Qed.

(** A column's index for an element is exact and its cell is in the storage. *)
Definition column_ready (values : gmap cell cxpr_value) (i : Z) (c : cxpr_bulk_column) : Prop :=
  wrap64 (i * col_stride c) = i * col_stride c ∧
  ∃ a, element_cell c i = Some a ∧ is_Some (values !! a).

Lemma column_cell_ready values i c :
  column_ready values i c →
  ∃ a, column_cell c (wrap64 (i * col_stride c)) = Done a ∧
       column_cell c (if col_stride c =? 0 then 0 else wrap64 (i * col_stride c)) = Done a ∧
       element_cell c i = Some a ∧ is_Some (values !! a).
Proof.
  intros [Hw (a & Ha & Hv)]. exists a. unfold column_cell, element_cell in *. rewrite Hw.
  destruct (col_values c) as [[o b]|]; [|done]. simplify_eq. split_and!; try done.
  case_match eqn:E; [|done]. apply Z.eqb_eq in E. rewrite E. do 3 f_equal. lia.
Qed.

Lemma value_cell_held values a : is_Some (values !! a) →
  ∃ x, values !! a = Some x ∧ value_cell values a = Done x.
Proof. intros [x Hx]. exists x. unfold value_cell. by rewrite Hx. Qed.

Lemma read_inputs_ready values columns i n :
  length (take n columns) = n → Forall (column_ready values i) (take n columns) →
  read_inputs values columns i n = Done (omap (λ c, element_cell c i ≫= (values !!.)) (take n columns)).
Proof.
  revert n. induction columns as [|c columns IH]; intros [|n] Hn HF; try done.
  simpl in Hn. injection Hn as Hn. rewrite firstn_cons, Forall_cons in HF. destruct HF as [Hc HF].
  apply column_cell_ready in Hc as (a & _ & Hc & Ha & Hv).
  apply value_cell_held in Hv as (x & Hx & Hvx).
  cbn [read_inputs take]. rewrite Hc. cbn [run_bind]. rewrite Hvx. cbn [run_bind].
  rewrite IH by done. simpl. by rewrite Ha; simpl; rewrite Hx.
Qed.

Lemma omap_after_fmap {A B C} (f : A → B) (g : B → option C) (l : list A) :
  omap g (f <$> l) = omap (λ x, g (f x)) l.
Proof. induction l as [|x l IH]; [done|]. simpl. destruct (g (f x)); [f_equal|]; exact IH. Qed.

Lemma read_params_ready values object base n :
  (∀ k, (k < n)%nat → is_Some (values !! (object, base + Z.of_nat k))) →
  read_params values (Some (object, base)) n =
    Done (omap (λ k : nat, values !! (object, base + Z.of_nat k)) (seq 0 n)).
Proof.
  revert base. induction n as [|n IH]; intros base Hh; [done|].
  destruct (value_cell_held values (object, base + Z.of_nat 0) (Hh 0%nat ltac:(lia))) as (x & Hx & Hv).
  cbn [read_params seq]. rewrite Z.add_0_r in Hv. rewrite Hv. cbn [run_bind].
  rewrite IH; cycle 1.
  { intros k Hk. replace (base + 1 + Z.of_nat k) with (base + Z.of_nat (S k)) by lia. apply Hh. lia. }
  cbn [run_bind]. cbn [omap list_omap]. rewrite Hx, <- fmap_S_seq, omap_after_fmap. do 2 f_equal.
  apply list_omap_ext, Forall2_same_length_lookup_2; [done|]. intros ? k k' ? ?. simplify_eq. simpl.
  do 2 f_equal. lia.
Qed.

(** The cells an element's outputs go to. *)
Definition output_of (columns : list cxpr_bulk_column) (i : Z) (j : nat) (a : cell) : Prop :=
  ∃ c, columns !! j = Some c ∧ element_cell c i = Some a.

Lemma write_outputs_ready columns i n values outputs :
  length (take n columns) = n → Forall (column_ready values i) (take n columns) →
  (n ≤ length outputs)%nat →
  (∀ j j' a, output_of (take n columns) i j a → output_of (take n columns) i j' a → j = j') →
  ∃ values', write_outputs values columns i outputs n = Done values' ∧
    (∀ j a, output_of (take n columns) i j a → values' !! a = outputs !! j) ∧
    (∀ a, (∃ j, output_of (take n columns) i j a) ∨ values' !! a = values !! a) ∧
    (∀ a, is_Some (values !! a) → is_Some (values' !! a)).
Proof.
  revert n values outputs. induction columns as [|c columns IH]; intros [|n] values outputs Hn HF Ho Hd;
    try done; try (exists values; split_and!; eauto; intros j a (c' & Hc' & _); by rewrite ?take_0 in Hc').
  simpl in Hn. injection Hn as Hn. rewrite firstn_cons, Forall_cons in HF. destruct HF as [Hc HF].
  apply column_cell_ready in Hc as (a & Hc & _ & Ha & Hv).
  destruct outputs as [|x outputs]; [simpl in Ho; lia|].
  destruct (IH n (<[a := x]> values) outputs) as (values' & Hw & Hout & Hcells & Hheld); [done| |simpl in Ho; lia| |].
  { eapply Forall_impl; [exact HF|]. intros c' [Hw (a' & Ha' & Hv')]. split; [done|]. exists a'.
    split; [done|]. destruct (decide (a = a')) as [->|]; [by rewrite lookup_insert_eq|by rewrite lookup_insert_ne]. }
  { intros j j' a' (c1 & Hj & Ha1) (c2 & Hj' & Ha2).
    enough (S j = S j') by lia. apply (Hd _ _ a'); [by exists c1|by exists c2]. }
  exists values'. cbn [write_outputs]. rewrite Hc. cbn [run_bind].
  destruct (value_cell_held _ _ Hv) as (y & _ & ->). cbn [run_bind]. split; [done|].
  assert (Hhead : ∀ j, ¬ output_of (take n columns) i j a).
  { intros j (c' & Hj & Ha'). assert (S j = 0)%nat; [|done]. apply (Hd _ _ a); [by exists c'|by exists c]. }
  split_and!.
  - intros [|j] a' (c' & Hj & Ha'); simpl in Hj; simplify_eq; [|apply (Hout j); by exists c'].
    destruct (Hcells a) as [[j Hj]| ->]; [by destruct (Hhead j)|].
    by rewrite lookup_insert_eq.
  - intros a'. destruct (Hcells a') as [(j & c' & Hj & Ha')| ->]; [left; exists (S j), c'; done|].
    destruct (decide (a = a')) as [<-|]; [left; exists 0%nat, c; done|]. right. by rewrite lookup_insert_ne.
  - intros a' Ha'. apply Hheld. destruct (decide (a = a')) as [->|]; [by rewrite lookup_insert_eq|by rewrite lookup_insert_ne].
Qed.

(** ** Validated views *)

Record validated (d : cxpr_generated_model_descriptor) (v : cxpr_bulk_view) (size : Z) : Prop := {
  vd_inputs : length (input_columns d v) = Z.to_nat (gd_input_count d) ∧
    Forall (λ c, input_problem (bv_element_count v) c = CXPR_BULK_OK) (input_columns d v);
  vd_outputs : length (output_columns d v) = Z.to_nat (gd_output_count d) ∧
    Forall (λ c, output_problem (bv_element_count v) c = CXPR_BULK_OK) (output_columns d v);
  vd_params : gd_param_count d ≠ 0 → is_Some (bv_params v);
  vd_stride : size ≠ 0 → size ≤ bv_state_stride v;
  vd_states : size ≠ 0 → bv_states v = true
}.

Lemma unless_problem_ok m k :
  unless_problem m k = Done CXPR_BULK_OK → m = Done CXPR_BULK_OK ∧ k = Done CXPR_BULK_OK.
Proof. unfold unless_problem. destruct m as [[]| |]; done. Qed.

Lemma states_problem_ok size v :
  states_problem size v = CXPR_BULK_OK →
  (size ≠ 0 → size ≤ bv_state_stride v) ∧ (size ≠ 0 → bv_states v = true).
Proof.
  unfold states_problem. destruct (Z.eqb_spec size 0); [done|]. simpl.
  destruct (bv_states v); [|done]. simpl. case_match eqn:E; [done|]. apply Z.ltb_ge in E. done.
Qed.

Lemma validate_ok d v size :
  gd_state_size d = Some size → cxpr_bulk_validate (Some d) (Some v) = Done CXPR_BULK_OK →
  validated d v size.
Proof.
  intros Hsize. unfold cxpr_bulk_validate. rewrite Hsize. do 3 (case_match; [done|]).
  rename H0 into Hc, H1 into Hb. rewrite !orb_false_iff, !negb_false_iff, !Z.eqb_eq in Hc.
  destruct Hc as [[Hi Ho] Hp]. rewrite Hi, Ho, Hp in *.
  intros Hok. apply unless_problem_ok in Hok as [Hin Hok]. apply unless_problem_ok in Hok as [Hout Hst].
  injection Hst as Hst. apply states_problem_ok in Hst as [? ?].
  apply columns_problem_ok in Hin, Hout. split; auto.
  intros Hn. rewrite !orb_false_iff, !andb_false_iff, !negb_false_iff, Z.eqb_eq in Hb.
  destruct Hb as [_ [Hb|Hb]]; [rewrite Z.eqb_eq in Hb; lia|]. by apply bool_decide_eq_true in Hb.
Qed.

Lemma validate_abi d v :
  cxpr_bulk_validate (Some d) (Some v) = Done CXPR_BULK_OK →
  cxpr_generated_model_descriptor_abi_valid (Some d) = true.
Proof. unfold cxpr_bulk_validate. by destruct cxpr_generated_model_descriptor_abi_valid. Qed.

(** ** Runs *)

Section runs.
Context (d : cxpr_generated_model_descriptor) (v : cxpr_bulk_view).
Context (tick : cxpr_generated_tick_fn) (size : Z).
Context (Htyped : view_typed d v tick size) (Hsep : separate d v).
Context (Hvd : validated d v size).
Abbreviation ticks := (elements_ticked d v tick size).

Lemma covered_kept P m m' : ticks P m m' → covered d v size m → covered d v size m'.
Proof.
  intros HT Hc. destruct HT as [_ _ _ _ Hlen Hheld]. split.
  - intros c i ??. destruct (cov_inputs _ _ _ _ Hc c i) as (a & ? & ?); [done..|]. exists a. eauto.
  - intros c i ??. destruct (cov_outputs _ _ _ _ Hc c i) as (a & ? & ?); [done..|]. exists a. eauto.
  - intros k ?. destruct (cov_params _ _ _ _ Hc k) as (a & ? & ?); [done|]. exists a. eauto.
  - rewrite Hlen. apply (cov_states _ _ _ _ Hc).
  - rewrite Hlen. apply (cov_object _ _ _ _ Hc).
Qed.

Lemma inputs_ready m i :
  covered d v size m → element v i → Forall (column_ready (bm_values m) i) (input_columns d v).
Proof.
  intros Hc Hi. destruct (vd_inputs _ _ _ Hvd) as [_ Hok]. pose proof (vt_columns _ _ _ _ Htyped) as Hs.
  rewrite Forall_app in Hs. destruct Hs as [Hs _].
  apply Forall_forall. intros c Hin. rewrite Forall_forall in Hok, Hs.
  specialize (Hok c Hin). specialize (Hs c Hin). simpl in *. split.
  - eapply exact_offset; [|done|exact Hi]. unfold input_problem in Hok.
    destruct (col_values c); [|done]. by case_match.
  - destruct (cov_inputs _ _ _ _ Hc c i) as (a & ? & ?); [done..|]. eauto.
Qed.

Lemma outputs_ready m i :
  covered d v size m → element v i → Forall (column_ready (bm_values m) i) (output_columns d v).
Proof.
  intros Hc Hi. destruct (vd_outputs _ _ _ Hvd) as [_ Hok]. pose proof (vt_columns _ _ _ _ Htyped) as Hs.
  rewrite Forall_app in Hs. destruct Hs as [_ Hs].
  apply Forall_forall. intros c Hin. rewrite Forall_forall in Hok, Hs.
  specialize (Hok c Hin). specialize (Hs c Hin). simpl in *. split.
  - eapply exact_offset; [|done|exact Hi]. unfold output_problem in Hok.
    destruct (col_values c); [|done]. case_match; [done|]. by case_match.
  - destruct (cov_outputs _ _ _ _ Hc c i) as (a & ? & ?); [done..|]. eauto.
Qed.

Lemma params_ready m :
  covered d v size m →
  read_params (bm_values m) (bv_params v) (Z.to_nat (gd_param_count d)) = Done (params_at d v m).
Proof.
  intros Hc. pose proof (cov_params _ _ _ _ Hc) as Hp. unfold params_at, param_cell in *.
  destruct (bv_params v) as [[o b]|] eqn:E.
  - apply read_params_ready. intros k Hk. destruct (Hp k Hk) as (a & Ha & ?). by simplify_eq.
  - destruct (Z.to_nat (gd_param_count d)) eqn:En; [done|].
    destruct (vd_params _ _ _ Hvd) as [? ?]; [|congruence]. intros Hz. rewrite Hz in En. done.
Qed.

(** The offset of an element's block, exact in [size_t] arithmetic. *)
Lemma state_offset m i :
  covered d v size m → bv_states v = true → element v i →
  wrap64 (i * bv_state_stride v) = Z.of_nat (Z.to_nat (i * bv_state_stride v)) ∧
  (Z.to_nat (i * bv_state_stride v) + Z.to_nat size ≤ length (bm_states m))%nat.
Proof.
  intros Hc Hs Hi. pose proof (cov_states _ _ _ _ Hc Hs i Hi). pose proof (cov_object _ _ _ _ Hc).
  pose proof (vt_stride _ _ _ _ Htyped). pose proof (vt_size _ _ _ _ Htyped).
  unfold in_size, element, SIZE_MAX in *. unfold wrap64. rewrite Z.mod_small; nia.
Qed.

Lemma length_state_at m i :
  covered d v size m → element v i → length (state_at v size m i) = Z.to_nat size.
Proof.
  intros Hc Hi. unfold state_at. destruct (bv_states v) eqn:Hs.
  - apply length_cells_at. by apply state_offset.
  - destruct (decide (size = 0)) as [->|Hn]; [done|]. by rewrite (vd_states _ _ _ Hvd Hn) in Hs.
Qed.

(** The state bytes after an element's block is written. *)
Definition states_after (m : bulk_memory) (i : Z) (state : list Z) : list Z :=
  if bv_states v then list_inserts (Z.to_nat (i * bv_state_stride v)) state (bm_states m)
  else bm_states m.

Lemma states_ready m i state :
  covered d v size m → element v i → length state = Z.to_nat size →
  (if bv_states v then mem_read (bm_states m) (wrap64 (i * bv_state_stride v)) size else Done []) =
    Done (state_at v size m i) ∧
  (if bv_states v then mem_write (bm_states m) (wrap64 (i * bv_state_stride v)) state
   else Done (bm_states m)) = Done (states_after m i state).
Proof.
  intros Hc Hi Hlen. unfold state_at, states_after. destruct (bv_states v) eqn:Hs; [|done].
  destruct (state_offset m i Hc Hs Hi) as [-> Hin].
  replace size with (Z.of_nat (Z.to_nat size)) at 1
    by (pose proof (vt_size _ _ _ _ Htyped); unfold in_size in *; lia).
  by rewrite mem_read_at, mem_write_at by lia.
Qed.

Lemma states_after_spec m i state vs :
  covered d v size m → element v i → length state = Z.to_nat size →
  let m' := mk_memory vs (states_after m i state) in
  state_at v size m' i = state ∧ length (bm_states m') = length (bm_states m) ∧
  ∀ k, (bv_states v = true ∧ owned v size (eq i) k) ∨ bm_states m' !! k = bm_states m !! k.
Proof.
  intros Hc Hi Hlen m'. subst m'. unfold state_at, states_after. simpl. destruct (bv_states v) eqn:Hs.
  - destruct (state_offset m i Hc Hs Hi) as [_ Hin]. split_and!.
    + rewrite <- Hlen. apply cells_at_inserts_same. lia.
    + apply length_inserts.
    + intros k. rewrite lookup_inserts by lia. case_decide as Hk; [left|by right].
      split; [done|]. exists i. split; [done|].
      pose proof (vt_stride _ _ _ _ Htyped). pose proof (vt_size _ _ _ _ Htyped).
      unfold in_size, element in *. nia.
  - split_and!; [|done|by right]. destruct (decide (size = 0)) as [->|Hn].
    + by apply nil_length_inv in Hlen.
    + by rewrite (vd_states _ _ _ Hvd Hn) in Hs.
Qed.

Lemma run_element_ticks m i :
  covered d v size m → element v i →
  ∃ m', run_element d v i m = Done m' ∧ ticks (eq i) m m'.
Proof.
  intros Hc Hi. pose proof (length_state_at m i Hc Hi) as Hlen.
  destruct (vt_block _ _ _ _ Htyped _ (inputs_at d v m i) (params_at d v m) Hlen) as [Hb Ho].
  destruct (states_ready m i _ Hc Hi Hb) as [Hread Hwrite].
  destruct (write_outputs_ready (default [] (bv_outputs v)) i (Z.to_nat (gd_output_count d))
    (bm_values m) (ticked d v tick size m i).2) as (vs & Hvs & Hout & Hcells & Hheld);
    [by apply (vd_outputs _ _ _ Hvd)|by apply outputs_ready|done| |].
  { intros j j' a (c & Hj & Ha) (c' & Hj' & Ha').
    destruct (sep_outputs _ _ Hsep j c i j' c' i) as [-> _]; try done. congruence. }
  exists (mk_memory vs (states_after m i (ticked d v tick size m i).1)). split.
  - unfold run_element. rewrite (vt_tick _ _ _ _ Htyped), (vt_state_size _ _ _ _ Htyped), Hread.
    cbn [run_bind]. rewrite read_inputs_ready;
      [|by apply (vd_inputs _ _ _ Hvd)|by apply inputs_ready]. cbn [run_bind].
    rewrite params_ready by done. cbn [run_bind].
    fold (input_columns d v) (inputs_at d v m i). fold (ticked d v tick size m i) in Hwrite |- *.
    destruct (ticked d v tick size m i) as [state outputs]. simpl in *. rewrite Hwrite. cbn [run_bind].
    by rewrite Hvs.
  - destruct (states_after_spec m i _ vs Hc Hi Hb) as (Hs & Hl & Hbytes). split; try done.
    + by intros ? <-.
    + intros ? j c a <- Hj Ha. apply (Hout j). by exists c.
    + intros a. destruct (Hcells a) as [(j & c & Hj & Ha)|E]; [left|by right]. by exists i, j, c.
Qed.

Lemma elements_ticked_ext P Q m m' : (∀ i, P i ↔ Q i) → ticks P m m' → ticks Q m m'.
Proof.
  intros HPQ [H1 H2 H3 H4 H5 H6]. split; try done.
  - intros i Hi. apply H1. by apply HPQ.
  - intros i j c a Hi. apply H2. by apply HPQ.
  - intros a. destruct (H3 a) as [(i & j & c & Hi & ?)| ->]; [left|by right].
    exists i, j, c. by rewrite <- HPQ.
  - intros k. destruct (H4 k) as [(Hs & i & Hi & ?)| ->]; [left|by right].
    split; [done|]. exists i. by rewrite <- HPQ.
Qed.

(** The elements of [first, first + count). *)
Definition in_range (first count i : Z) : Prop := first ≤ i < first + count.

Lemma run_elements_ticks n m i :
  covered d v size m → 0 ≤ i → i + Z.of_nat n ≤ bv_element_count v →
  ∃ m', run_elements d v i n m = Done m' ∧ ticks (in_range i (Z.of_nat n)) m m'.
Proof.
  revert m i. induction n as [|n IH]; intros m i Hc Hi Hn.
  - exists m. split; [done|]. apply elements_ticked_none. unfold in_range. intros. lia.
  - destruct (run_element_ticks m i Hc) as (m1 & Hrun & H1); [unfold element; lia|].
    destruct (IH m1 (i + 1)) as (m2 & Hrest & H2); [by eapply covered_kept|lia..|].
    exists m2. cbn [run_elements]. rewrite Hrun. cbn [run_bind]. split; [done|].
    eapply elements_ticked_ext; [|eapply (elements_ticked_app _ _ _ _ Htyped Hsep
      (vd_stride _ _ _ Hvd) (eq i) (in_range (i + 1) (Z.of_nat n))); eauto].
    all: unfold in_range, element; intros; lia.
Qed.
End runs.

(** ** The public operations *)

Section public.
Context (d : cxpr_generated_model_descriptor) (v : cxpr_bulk_view).
Context (tick : cxpr_generated_tick_fn) (size : Z).
Context (Htyped : view_typed d v tick size) (Hsep : separate d v).
Context (Hvalid : cxpr_bulk_validate (Some d) (Some v) = Done CXPR_BULK_OK).

Lemma run_range_ticks m first count :
  covered d v size m → 0 ≤ first → 0 ≤ count → first + count ≤ bv_element_count v →
  ∃ m', cxpr_bulk_run_range (Some d) (Some v) first count m = Done (CXPR_BULK_OK, m') ∧
    elements_ticked d v tick size (in_range first count) m m'.
Proof.
  intros Hc Hf Hn Hb. pose proof (validate_ok _ _ _ (vt_state_size _ _ _ _ Htyped) Hvalid) as Hvd.
  unfold cxpr_bulk_run_range. rewrite Hvalid. cbn [run_bind].
  assert (Ho : range_outside v first count = false).
  { unfold range_outside. rewrite orb_false_iff, !Z.ltb_ge. lia. }
  rewrite Ho. destruct (Z.eqb_spec count 0) as [->|Hz].
  - exists m. split; [done|]. apply elements_ticked_none. unfold in_range. intros. lia.
  - destruct (run_elements_ticks d v tick size Htyped Hsep Hvd (Z.to_nat count) m first Hc) as (m' & Hrun & HT);
      [lia..|]. exists m'. rewrite Hrun. rewrite Z2Nat.id in HT by lia. done.
Qed.

(** C13: a bulk run over a range inside a validated view never leaves the
    storage that the contract provides and gives every element of the range
    exactly one tick of the model: its state block and its output cells are
    what the tick computes from the element's own state block, its inputs and
    the shared parameters, all as they were before the run, and every other
    cell and every other byte keeps its value. *)
Theorem bulk_run_range_correct m first count :
  covered d v size m → 0 ≤ first → 0 ≤ count → first + count ≤ bv_element_count v →
  ∃ m', cxpr_bulk_run_range (Some d) (Some v) first count m = Done (CXPR_BULK_OK, m') ∧
    (∀ i, in_range first count i → state_at v size m' i = (ticked d v tick size m i).1) ∧
    (∀ i j c a, in_range first count i → output_columns d v !! j = Some c → element_cell c i = Some a →
       bm_values m' !! a = (ticked d v tick size m i).2 !! j) ∧
    (∀ a, ¬ written d v (in_range first count) a → bm_values m' !! a = bm_values m !! a) ∧
    (∀ k, ¬ owned v size (in_range first count) k → bm_states m' !! k = bm_states m !! k).
Proof.
  intros Hc Hf Hn Hb. destruct (run_range_ticks m first count Hc Hf Hn Hb) as (m' & Hrun & HT).
  exists m'. split; [done|]. split_and!; [apply HT..| |].
  - intros a Ha. by destruct (et_cells _ _ _ _ _ _ _ HT a).
  - intros k Hk. by destruct (et_bytes _ _ _ _ _ _ _ HT k) as [[_ ?]|].
Qed.

(** C14: disjoint ranges of a bulk view can run in either order, which is what
    lets a host run them in parallel: both orders succeed and end in the same
    memory, the one a single run over both ranges' elements ends in. *)
Theorem bulk_ranges_commute m first count first' count' :
  covered d v size m → 0 ≤ first → 0 ≤ count → first + count ≤ first' → 0 ≤ count' →
  first' + count' ≤ bv_element_count v →
  ∃ m1 m2 m', cxpr_bulk_run_range (Some d) (Some v) first count m = Done (CXPR_BULK_OK, m1) ∧
    cxpr_bulk_run_range (Some d) (Some v) first' count' m1 = Done (CXPR_BULK_OK, m') ∧
    cxpr_bulk_run_range (Some d) (Some v) first' count' m = Done (CXPR_BULK_OK, m2) ∧
    cxpr_bulk_run_range (Some d) (Some v) first count m2 = Done (CXPR_BULK_OK, m').
Proof.
  intros Hc Hf Hn Hd Hn' Hb. pose proof (validate_ok _ _ _ (vt_state_size _ _ _ _ Htyped) Hvalid) as Hvd.
  destruct (run_range_ticks m first count Hc) as (m1 & R1 & T1); [lia..|].
  destruct (run_range_ticks m first' count' Hc) as (m2 & R2 & T2); [lia..|].
  destruct (run_range_ticks m1 first' count') as (ma & Ra & Ta); [by eapply covered_kept|lia..|].
  destruct (run_range_ticks m2 first count) as (mb & Rb & Tb); [by eapply covered_kept|lia..|].
  exists m1, m2, ma. split_and!; try done. rewrite Rb. do 2 f_equal.
  assert (He : ∀ i, in_range first count i → element v i) by (unfold in_range, element; lia).
  assert (He' : ∀ i, in_range first' count' i → element v i) by (unfold in_range, element; lia).
  assert (Hdis : ∀ i, in_range first count i → ¬ in_range first' count' i) by (unfold in_range; lia).
  pose proof (elements_ticked_app _ _ _ _ Htyped Hsep (vd_stride _ _ _ Hvd) _ _ _ _ _ He He' Hdis T1 Ta) as Hab.
  pose proof (elements_ticked_app _ _ _ _ Htyped Hsep (vd_stride _ _ _ Hvd) _ _ _ _ _ He' He
    (λ i H' H, Hdis i H H') T2 Tb) as Hba.
  eapply (elements_ticked_unique _ _ _ _ Htyped (vd_stride _ _ _ Hvd)); [|exact Hba|].
  - intros i [?|?]; eauto.
  - eapply elements_ticked_ext; [|exact Hab]. naive_solver.
Qed.
End public.

(** ** Reset *)

(** The model whose tick resets the block. *)
Definition reset_fn (d : cxpr_generated_model_descriptor) (size : Z) (state : list Z) : list Z :=
  match gd_reset d with Some reset => reset state | None => replicate (Z.to_nat size) 0 end.

Definition reset_tick (d : cxpr_generated_model_descriptor) (size : Z) : cxpr_generated_tick_fn :=
  λ state _ _, (reset_fn d size state, []).

Definition resetter (d : cxpr_generated_model_descriptor) (size : Z) : cxpr_generated_model_descriptor :=
  mk_descriptor (gd_name d) (Some (reset_tick d size)) (gd_state_size d) 0 [] [] 0 [] [] 0
    (gd_abi_version d) None [] [].

Section reset.
Context (d : cxpr_generated_model_descriptor) (v : cxpr_bulk_view) (size : Z).
Context (Hsize : gd_state_size d = Some size) (Hs : in_size size) (He : in_size (bv_element_count v)).
Context (Hstride : in_size (bv_state_stride v)).
Context (Hreset : ∀ state, length state = Z.to_nat size → length (reset_fn d size state) = Z.to_nat size).
Context (Hvalid : cxpr_bulk_validate (Some d) (Some v) = Done CXPR_BULK_OK).

Lemma resetter_typed : view_typed (resetter d size) v (reset_tick d size) size.
Proof. split; simpl; auto with lia. Qed.

Lemma resetter_separate : separate (resetter d size) v.
Proof. split; unfold output_columns; simpl; intros *; rewrite ?take_0; set_solver. Qed.

Lemma resetter_validated : validated (resetter d size) v size.
Proof.
  destruct (validate_ok _ _ _ Hsize Hvalid) as [_ _ _ ? ?].
  split; unfold input_columns, output_columns; simpl; auto; done.
Qed.

Lemma covered_resetter m : covered d v size m → covered (resetter d size) v size m.
Proof.
  intros [_ _ _ H1 H2]. split; try done; unfold input_columns, output_columns; simpl; intros *;
    rewrite ?take_0; try set_solver. lia.
Qed.

Lemma read_no_inputs values columns i : read_inputs values columns i 0 = Done [].
Proof. by destruct columns. Qed.

Lemma write_no_outputs values columns i outputs : write_outputs values columns i outputs 0 = Done values.
Proof. by destruct columns. Qed.

Lemma reset_elements_run m i n :
  covered d v size m → size ≠ 0 → 0 ≤ i → i + Z.of_nat n ≤ bv_element_count v →
  run_elements (resetter d size) v i n m =
    (let* states := reset_elements d v size i n (bm_states m) in Done (mk_memory (bm_values m) states)).
Proof.
  intros Hc Hn. apply covered_resetter in Hc. revert m i Hc.
  induction n as [|n IH]; intros m i Hc Hi Hb; [by destruct m|].
  destruct (run_element_ticks _ _ _ _ resetter_typed resetter_separate resetter_validated m i Hc)
    as (m' & Hrun & HT); [unfold element; lia|].
  cbn [run_elements reset_elements]. rewrite Hrun. cbn [run_bind].
  rewrite IH; [|eapply covered_kept; [exact HT|done]|lia..].
  assert (Hl : length (state_at v size m i) = Z.to_nat size).
  { eapply length_state_at; [exact resetter_typed|exact resetter_validated|done|unfold element; lia]. }
  pose proof (vd_states _ _ _ resetter_validated Hn) as Hst.
  destruct (state_offset _ _ _ _ resetter_typed m i Hc Hst) as [Hw Hin]; [unfold element; lia|].
  enough (Hblock : reset_block d (bm_states m) (wrap64 (i * bv_state_stride v)) size = Done (bm_states m') ∧
          bm_values m' = bm_values m) by (destruct Hblock as [-> ->]; done).
  revert Hrun. unfold run_element, resetter, reset_tick, reset_fn, reset_block. simpl. rewrite Hsize, Hst, Hw.
  replace size with (Z.of_nat (Z.to_nat size)) by (unfold in_size in *; lia). rewrite mem_read_at by lia.
  change (Z.to_nat 0) with 0%nat. cbn [run_bind]. rewrite read_no_inputs. cbn [run_bind read_params].
  destruct (gd_reset d) as [reset|] eqn:Hr; cbn [run_bind].
  - destruct (mem_write _ _ _) eqn:E; cbn [run_bind]; rewrite ?write_no_outputs; cbn [run_bind]; intros Heq; by simplify_eq.
  - rewrite Nat2Z.id, mem_write_at, mem_fill_at by (rewrite ?length_replicate; lia). cbn [run_bind].
    rewrite write_no_outputs. cbn [run_bind]. intros Heq. by simplify_eq.
Qed.

(** Resetting a range of a validated view puts every state block of the
    range into the model's initial state (its reset callback's, or zeros), and
    leaves every scalar cell and every byte outside those blocks as it was; a
    model without state is accepted and changes nothing. *)
Theorem bulk_reset_range_correct m first count :
  covered d v size m → 0 ≤ first → 0 ≤ count → first + count ≤ bv_element_count v →
  ∃ m', cxpr_bulk_reset_range (Some d) (Some v) first count m = Done (CXPR_BULK_OK, m') ∧
    (∀ i, in_range first count i → state_at v size m' i = reset_fn d size (state_at v size m i)) ∧
    bm_values m' = bm_values m ∧
    (∀ k, ¬ owned v size (in_range first count) k → bm_states m' !! k = bm_states m !! k).
Proof.
  intros Hc Hf Hn Hb. unfold cxpr_bulk_reset_range. rewrite Hvalid, Hsize. cbn [run_bind].
  assert (Ho : range_outside v first count = false).
  { unfold range_outside. rewrite orb_false_iff, !Z.ltb_ge. lia. }
  rewrite Ho. destruct (Z.eqb_spec size 0) as [E0|Hz].
  - exists m. split_and!; try done. intros i Hi. assert (element v i) by (unfold in_range, element in *; lia).
    assert (Hl : length (state_at v size m i) = 0%nat).
    { erewrite length_state_at; [|exact resetter_typed|exact resetter_validated|by apply covered_resetter|done]. lia. }
    pose proof (Hreset (state_at v size m i)) as Hr. rewrite Hl in Hr. specialize (Hr ltac:(lia)).
    replace (Z.to_nat size) with 0%nat in Hr by lia.
    apply nil_length_inv in Hl, Hr. congruence.
  - pose proof (run_elements_ticks _ _ _ _ resetter_typed resetter_separate resetter_validated
      (Z.to_nat count) m first (covered_resetter _ Hc) Hf ltac:(lia)) as (m' & Hrun & HT).
    rewrite reset_elements_run in Hrun by (done || lia). rewrite Z2Nat.id in HT by lia.
    destruct (reset_elements _ _ _ _ _ _) as [states| |]; cbn [run_bind] in Hrun; simplify_eq.
    eexists. split; [done|]. split_and!; [|done|].
    + intros i Hi. apply (et_states _ _ _ _ _ _ _ HT i Hi).
    + intros k Hk. by destruct (et_bytes _ _ _ _ _ _ _ HT k) as [[_ ?]|].
Qed.
End reset.
