(* ===== verification/BulkStore.v ===== *)
(** * BulkStore: state blocks of a dynamic population
    ([src/bulk_state_store.c])

    Two parallel arrays, the agents' identifiers in ascending order and their
    state blocks.  The outcome of the allocations an operation makes, and what
    the fresh memory holds, are arguments of the operation. *)

From Stdlib Require Import Ascii String ZArith Lia.
From stdpp Require Import base list strings gmap.
From S2P Require Import Prelude Float64 Types Memory Bulk.
Local Open Scope run_scope.
Local Open Scope Z_scope.

(** ** Data *)

Inductive cxpr_bulk_state_store_status : Type :=
  | CXPR_BULK_STATE_STORE_OK
  | CXPR_BULK_STATE_STORE_INVALID_ARGUMENT
  | CXPR_BULK_STATE_STORE_INVALID_DESCRIPTOR
  | CXPR_BULK_STATE_STORE_DUPLICATE_ID
  | CXPR_BULK_STATE_STORE_ID_NOT_FOUND
  | CXPR_BULK_STATE_STORE_ALLOCATION_FAILED.

(** [None] stands for a NULL array. *)
Record cxpr_bulk_state_store : Type := mk_state_store {
  ss_descriptor : cxpr_generated_model_descriptor;
  ss_ids : option (list Z);
  ss_states : option (list Z);
  ss_state_size : Z;
  ss_state_stride : Z;
  ss_count : Z;
  ss_capacity : Z
}.

(** An allocation that fails, or that gives memory with some contents. *)
Abbreviation allocation := (option (nat → Z)).

(** [_Alignof(max_align_t)] of the x86-64 and AArch64 LP64 targets *)
Definition max_alignment : Z := 16.

(** [sizeof(uint64_t)] *)
Definition id_size : Z := 8.

Definition aligned_stride (size : Z) : Z :=
  if size =? 0 then 0
  else if SIZE_MAX - (max_alignment - 1) <? size then 0
  else (size + max_alignment - 1) / max_alignment * max_alignment.

Definition cxpr_bulk_state_store_status_message (status : cxpr_bulk_state_store_status) : string :=
  match status with
  | CXPR_BULK_STATE_STORE_OK => "bulk state store operation succeeded"
  | CXPR_BULK_STATE_STORE_INVALID_ARGUMENT => "invalid bulk state store argument"
  | CXPR_BULK_STATE_STORE_INVALID_DESCRIPTOR => "invalid generated model descriptor"
  | CXPR_BULK_STATE_STORE_DUPLICATE_ID => "bulk state store agent ID already exists"
  | CXPR_BULK_STATE_STORE_ID_NOT_FOUND => "bulk state store agent ID was not found"
  | CXPR_BULK_STATE_STORE_ALLOCATION_FAILED => "bulk state store allocation failed"
  end.

(** ** Search *)

(** [store->ids[index]] *)
Definition id_at (st : cxpr_bulk_state_store) (index : Z) : run Z :=
  match ss_ids st with
  | None => Undef
  | Some ids =>
      if in_block ids index 1
      then match ids !! Z.to_nat index with Some x => Done x | None => Undef end else Undef
  end.

Fixpoint lower_bound_loop (fuel : nat) (st : cxpr_bulk_state_store) (id first count : Z) : run Z :=
  if 0 <? count then
    match fuel with
    | O => OutOfFuel
    | S fuel =>
        let step := count / 2 in
        let index := first + step in
        let* x := id_at st index in
        if x <? id then lower_bound_loop fuel st id (index + 1) (count - (step + 1))
        else lower_bound_loop fuel st id first step
    end
  else Done first.

(** The position of the first identifier that is not below [id], and whether
    it is [id]. *)
Definition lower_bound (st : cxpr_bulk_state_store) (id : Z) : run (Z * bool) :=
  let* first := lower_bound_loop (Z.to_nat (ss_count st)) st id 0 (ss_count st) in
  if first <? ss_count st then
    let* x := id_at st first in Done (first, x =? id)
  else Done (first, false).

(** ** Capacity *)

(** [memcpy(fresh, old, n)] when [n] is not zero *)
Definition copy_prefix (fresh_mem : list Z) (old : option (list Z)) (n : Z) : run (list Z) :=
  if n =? 0 then Done fresh_mem
  else match old with
       | None => Undef
       | Some old => let* cells := mem_read old 0 n in mem_write fresh_mem 0 cells
       end.

(** [None] when the function returns 0. *)
Definition reserve (st : cxpr_bulk_state_store) (capacity : Z) (ids_alloc states_alloc : allocation)
    : run (option cxpr_bulk_state_store) :=
  if capacity <=? ss_capacity st then Done (Some st)
  else if (SIZE_MAX / id_size <? capacity) ||
          (negb (ss_state_stride st =? 0) && (SIZE_MAX / ss_state_stride st <? capacity))
  then Done None
  else
    match ids_alloc, (if ss_state_stride st =? 0 then Some None
                      else match states_alloc with Some junk => Some (Some junk) | None => None end) with
    | Some ids_junk, Some states_junk =>
        let* ids := copy_prefix (fresh ids_junk capacity) (ss_ids st) (ss_count st) in
        let* states :=
          match states_junk with
          | None => Done None
          | Some junk =>
              let* states := copy_prefix (fresh junk (wrap64 (capacity * ss_state_stride st)))
                               (ss_states st) (wrap64 (ss_count st * ss_state_stride st)) in
              Done (Some states)
          end in
        Done (Some (mk_state_store (ss_descriptor st) (Some ids) states (ss_state_size st)
                      (ss_state_stride st) (ss_count st) capacity))
    | _, _ => Done None
    end.

(** ** Operations *)

Definition cxpr_bulk_state_store_new (descriptor : option cxpr_generated_model_descriptor)
    (allocated : bool) : run (cxpr_bulk_state_store_status * option cxpr_bulk_state_store) :=
  if negb (cxpr_generated_model_descriptor_abi_valid descriptor)
  then Done (CXPR_BULK_STATE_STORE_INVALID_DESCRIPTOR, None)
  else
    match descriptor with
    | Some d =>
        match gd_state_size d with
        | None => Undef
        | Some state_size =>
            let stride := aligned_stride state_size in
            if negb (state_size =? 0) && (stride =? 0)
            then Done (CXPR_BULK_STATE_STORE_ALLOCATION_FAILED, None)
            else if negb allocated then Done (CXPR_BULK_STATE_STORE_ALLOCATION_FAILED, None)
            else Done (CXPR_BULK_STATE_STORE_OK,
                       Some (mk_state_store d None None state_size stride 0 0))
        end
    | None => Undef
    end.

Definition cxpr_bulk_state_store_count (store : option cxpr_bulk_state_store) : Z :=
  match store with Some st => ss_count st | None => 0 end.

Definition cxpr_bulk_state_store_state_stride (store : option cxpr_bulk_state_store) : Z :=
  match store with Some st => ss_state_stride st | None => 0 end.

Definition cxpr_bulk_state_store_ids (store : option cxpr_bulk_state_store) : option (list Z) :=
  match store with Some st => ss_ids st | None => None end.

(** An array that the code uses without a test of its pointer. *)
Definition array_of (a : option (list Z)) : run (list Z) :=
  match a with Some l => Done l | None => Undef end.

(** The new agent's block: zeros, then the model's reset. *)
Definition init_block (d : cxpr_generated_model_descriptor) (states : list Z) (offset size stride : Z)
    : run (list Z) :=
  let* states := mem_fill states offset 0 stride in
  match gd_reset d with
  | None => Done states
  | Some reset =>
      let* state := mem_read states offset size in
      mem_write states offset (reset state)
  end.

(** The part of [cxpr_bulk_state_store_add] after the capacity is there. *)
Definition insert_agent (st : cxpr_bulk_state_store) (index id : Z) : run cxpr_bulk_state_store :=
  let stride := ss_state_stride st in
  let count := ss_count st in
  let* ids := array_of (ss_ids st) in
  let* ids := mem_move ids (index + 1) index (count - index) in
  let* ids := mem_write ids index [id] in
  let* states :=
    if stride =? 0 then Done (ss_states st)
    else
      let* states := array_of (ss_states st) in
      let* states := mem_move states (wrap64 ((index + 1) * stride)) (wrap64 (index * stride))
                       (wrap64 ((count - index) * stride)) in
      let* states := init_block (ss_descriptor st) states (wrap64 (index * stride))
                       (ss_state_size st) stride in
      Done (Some states) in
  Done (mk_state_store (ss_descriptor st) (Some ids) states (ss_state_size st) stride (count + 1)
          (ss_capacity st)).

Definition cxpr_bulk_state_store_add (store : option cxpr_bulk_state_store) (agent_id : Z)
    (ids_alloc states_alloc : allocation)
    : run (cxpr_bulk_state_store_status * option cxpr_bulk_state_store) :=
  match store with
  | None => Done (CXPR_BULK_STATE_STORE_INVALID_ARGUMENT, None)
  | Some st =>
      let* '(index, found) := lower_bound st agent_id in
      if found then Done (CXPR_BULK_STATE_STORE_DUPLICATE_ID, Some st)
      else
        let* grown :=
          if ss_count st =? ss_capacity st then
            let capacity := if ss_capacity st =? 0 then 8 else wrap64 (ss_capacity st * 2) in
            if capacity <? ss_capacity st then Done None
            else reserve st capacity ids_alloc states_alloc
          else Done (Some st) in
        match grown with
        | None => Done (CXPR_BULK_STATE_STORE_ALLOCATION_FAILED, Some st)
        | Some st => let* st := insert_agent st index agent_id in Done (CXPR_BULK_STATE_STORE_OK, Some st)
        end
  end.

(** The part of [cxpr_bulk_state_store_remove] after the search. *)
Definition remove_agent (st : cxpr_bulk_state_store) (index : Z) : run cxpr_bulk_state_store :=
  let stride := ss_state_stride st in
  let count := ss_count st in
  let* ids := array_of (ss_ids st) in
  let* ids := mem_move ids index (index + 1) (count - index - 1) in
  let* states :=
    if stride =? 0 then Done (ss_states st)
    else
      let* states := array_of (ss_states st) in
      let* states := mem_move states (wrap64 (index * stride)) (wrap64 ((index + 1) * stride))
                       (wrap64 ((count - index - 1) * stride)) in
      Done (Some states) in
  Done (mk_state_store (ss_descriptor st) (Some ids) states (ss_state_size st) stride (count - 1)
          (ss_capacity st)).

Definition cxpr_bulk_state_store_remove (store : option cxpr_bulk_state_store) (agent_id : Z)
    : run (cxpr_bulk_state_store_status * option cxpr_bulk_state_store) :=
  match store with
  | None => Done (CXPR_BULK_STATE_STORE_INVALID_ARGUMENT, None)
  | Some st =>
      let* '(index, found) := lower_bound st agent_id in
      if negb found then Done (CXPR_BULK_STATE_STORE_ID_NOT_FOUND, Some st)
      else let* st := remove_agent st index in Done (CXPR_BULK_STATE_STORE_OK, Some st)
  end.

(** The offset of the block in the store's states; [None] for NULL. *)
Definition cxpr_bulk_state_store_find (store : option cxpr_bulk_state_store) (agent_id : Z)
    : run (option Z) :=
  match store with
  | None => Done None
  | Some st =>
      let* '(index, found) := lower_bound st agent_id in
      if negb found || (ss_state_stride st =? 0) then Done None
      else Done (Some (wrap64 (index * ss_state_stride st)))
  end.

Definition cxpr_bulk_state_store_find_const := cxpr_bulk_state_store_find.

Definition cxpr_bulk_state_store_bind_view (store : option cxpr_bulk_state_store)
    (view : option cxpr_bulk_view) : cxpr_bulk_state_store_status * option cxpr_bulk_view :=
  match store, view with
  | Some st, Some v =>
      (CXPR_BULK_STATE_STORE_OK,
       Some (mk_view (bv_inputs v) (bv_input_count v) (bv_params v) (bv_param_count v) (bv_outputs v)
               (bv_output_count v) (match ss_states st with Some _ => true | None => false end)
               (ss_state_stride st) (ss_count st)))
  | _, _ => (CXPR_BULK_STATE_STORE_INVALID_ARGUMENT, view)
  end.
