(* ===== verification/BulkStoreProofs.v ===== *)
(** * BulkStoreProofs: the store is a finite map in ascending order

    The invariant of [BulkStore.v]'s arrays, the search, and the refinement of
    a map from identifiers to state blocks by every operation, whatever the
    allocations do. *)

From Stdlib Require Import Ascii String ZArith Lia Sorting.Sorted.
From stdpp Require Import base list strings gmap sorting.
From S2P Require Import Prelude Float64 Types Memory Bulk BulkProofs BulkStore.
Local Open Scope run_scope.
Local Open Scope Z_scope.

(** ** The agents of a store *)

Definition agent_ids (st : cxpr_bulk_state_store) : list Z :=
  match ss_ids st with Some ids => take (Z.to_nat (ss_count st)) ids | None => [] end.

Definition agent_blocks (st : cxpr_bulk_state_store) : list (list Z) :=
  match ss_states st with
  | Some states => blocks_of (Z.to_nat (ss_state_stride st)) (Z.to_nat (ss_count st)) states
  | None => replicate (Z.to_nat (ss_count st)) []
  end.

Definition agents (st : cxpr_bulk_state_store) : list (Z * list Z) := zip (agent_ids st) (agent_blocks st).

Definition agent_map (st : cxpr_bulk_state_store) : gmap Z (list Z) := list_to_map (agents st).

(** A model's state right after it is added: zeros, then the reset on the
    model's part of the block. *)
Definition initial_state (d : cxpr_generated_model_descriptor) (size stride : Z) : list Z :=
  match gd_reset d with
  | None => replicate (Z.to_nat stride) 0
  | Some reset => reset (replicate (Z.to_nat size) 0) ++ replicate (Z.to_nat stride - Z.to_nat size) 0
  end.

(** A reset callback writes its own block. *)
Definition reset_in_block (d : cxpr_generated_model_descriptor) (size : Z) : Prop :=
  ∀ reset state, gd_reset d = Some reset → length state = Z.to_nat size →
    length (reset state) = Z.to_nat size.

Record store_ok (st : cxpr_bulk_state_store) : Prop := {
  so_count : 0 ≤ ss_count st ≤ ss_capacity st;
  so_ids : match ss_ids st with
           | None => ss_capacity st = 0
           | Some ids => Z.of_nat (length ids) = ss_capacity st
           end;
  so_room : ss_capacity st * id_size ≤ SIZE_MAX;
  so_size : 0 ≤ ss_state_size st ≤ ss_state_stride st;
  so_states : match ss_states st with
              | None => ss_state_stride st = 0 ∨ ss_capacity st = 0
              | Some states => ss_state_stride st ≠ 0 ∧
                  Z.of_nat (length states) = ss_capacity st * ss_state_stride st
              end;
  so_bytes : ss_capacity st * ss_state_stride st ≤ SIZE_MAX;
  so_reset : reset_in_block (ss_descriptor st) (ss_state_size st);
  so_sorted : StronglySorted Z.lt (agent_ids st)
}.

Lemma length_agent_ids st : store_ok st → length (agent_ids st) = Z.to_nat (ss_count st).
Proof.
  intros [Hc Hi _ _ _ _ _ _]. unfold agent_ids. destruct (ss_ids st) as [ids|]; simpl; [|lia].
  rewrite length_take. lia.
Qed.

Lemma length_agent_blocks st : length (agent_blocks st) = Z.to_nat (ss_count st).
Proof.
  unfold agent_blocks. destruct (ss_states st); [apply length_blocks_of|apply length_replicate].
Qed.

(** ** Search *)

Lemma id_at_agent st k :
  store_ok st → (k < Z.to_nat (ss_count st))%nat →
  ∃ x, agent_ids st !! k = Some x ∧ id_at st (Z.of_nat k) = Done x.
Proof.
  intros [Hc Hi _ _ _ _ _ _] Hk. unfold agent_ids, id_at. destruct (ss_ids st) as [ids|]; [|lia].
  destruct (lookup_lt_is_Some_2 ids k ltac:(lia)) as [x Hx]. exists x.
  rewrite lookup_take_lt by done. rewrite Nat2Z.id, Hx.
  assert (Hb : in_block ids (Z.of_nat k) 1 = true) by (apply in_block_spec; lia). by rewrite Hb.
Qed.

Lemma sorted_lookup_lt (ids : list Z) n n' x x' :
  StronglySorted Z.lt ids → ids !! n = Some x → ids !! n' = Some x' → (n < n')%nat → x < x'.
Proof.
  intros Hs Hn Hn' Hlt. rewrite <- (take_drop (S n) ids) in Hs.
  eapply StronglySorted_app_1_elem_of; [exact Hs| |].
  - apply list_elem_of_lookup_2 with n. by rewrite lookup_take_lt by lia.
  - apply list_elem_of_lookup_2 with (n' - S n)%nat. rewrite lookup_drop. rewrite <- Hn'. f_equal. lia.
Qed.

(** Every identifier before [k] is below [id], and every one from [k'] on is
    not. *)
Definition splits_at (ids : list Z) (id : Z) (k k' : nat) : Prop :=
  (∀ n x, ids !! n = Some x → (n < k)%nat → x < id) ∧
  (∀ n x, ids !! n = Some x → (k' ≤ n)%nat → id ≤ x).

Lemma splits_below ids id k k' n x :
  StronglySorted Z.lt ids → splits_at ids id k k' → ids !! n = Some x → x < id → splits_at ids id (S n) k'.
Proof.
  intros Hs [H1 H2] Hn Hx. split; [|done]. intros n' x' Hn' Hlt.
  destruct (decide (n' = n)) as [->|]; [by simplify_eq|].
  assert (x' < x); [|lia]. by eapply (sorted_lookup_lt ids n' n); eauto with lia.
Qed.

Lemma splits_above ids id k k' n x :
  StronglySorted Z.lt ids → splits_at ids id k k' → ids !! n = Some x → id ≤ x → splits_at ids id k n.
Proof.
  intros Hs [H1 H2] Hn Hx. split; [done|]. intros n' x' Hn' Hle.
  destruct (decide (n' = n)) as [->|]; [by simplify_eq|].
  assert (x < x'); [|lia]. by eapply (sorted_lookup_lt ids n n'); eauto with lia.
Qed.

Lemma lower_bound_loop_splits st id fuel first count :
  store_ok st → 0 ≤ first → 0 ≤ count → first + count ≤ ss_count st → (Z.to_nat count ≤ fuel)%nat →
  splits_at (agent_ids st) id (Z.to_nat first) (Z.to_nat (first + count)) →
  ∃ k, lower_bound_loop fuel st id first count = Done (Z.of_nat k) ∧
    (k ≤ Z.to_nat (ss_count st))%nat ∧ splits_at (agent_ids st) id k k.
Proof.
  intros Hok. revert first count. induction fuel as [|fuel IH]; intros first count Hf Hc Hb Hn Hs; simpl.
  all: destruct (Z.ltb_spec 0 count) as [Hpos|Hz];
    [|exists (Z.to_nat first); rewrite Z2Nat.id by lia; split; [done|]; split; [lia|];
      by replace (first + count) with first in Hs by lia]. { lia. }
  assert (Hstep : 0 ≤ count / 2 < count) by (split; [apply Z.div_pos|apply Z.div_lt]; lia).
  destruct (id_at_agent st (Z.to_nat (first + count / 2)) Hok) as (x & Hx & Hread); [lia|].
  rewrite Z2Nat.id in Hread by lia. rewrite Hread. cbn [run_bind].
  destruct (Z.ltb_spec x id) as [Hlt|Hge]; apply IH; try lia.
  - replace (first + count / 2 + 1 + (count - (count / 2 + 1))) with (first + count) by lia.
    replace (Z.to_nat (first + count / 2 + 1)) with (S (Z.to_nat (first + count / 2))) by lia.
    eapply splits_below; eauto. apply Hok.
  - eapply splits_above; eauto. apply Hok.
Qed.

Lemma splits_member ids id k :
  StronglySorted Z.lt ids → splits_at ids id k k → id ∈ ids ↔ ids !! k = Some id.
Proof.
  intros Hs [H1 H2]. split; [|apply list_elem_of_lookup_2].
  intros [n Hn]%list_elem_of_lookup_1. enough (n = k) as -> by done.
  destruct (decide (n < k)%nat); [specialize (H1 n id Hn); lia|].
  destruct (decide (n = k)); [done|].
  destruct (lookup_lt_is_Some_2 ids k) as [x Hx]; [apply lookup_lt_Some in Hn; lia|].
  specialize (H2 k x Hx). assert (x < id) by (by eapply (sorted_lookup_lt ids k n); eauto with lia). lia.
Qed.

(** The search returns the identifier's place, present or not. *)
Lemma lower_bound_splits st id :
  store_ok st →
  ∃ k, lower_bound st id = Done (Z.of_nat k, bool_decide (id ∈ agent_ids st)) ∧
    (k ≤ Z.to_nat (ss_count st))%nat ∧ splits_at (agent_ids st) id k k.
Proof.
  intros Hok. pose proof (so_count _ Hok) as Hc.
  destruct (lower_bound_loop_splits st id (Z.to_nat (ss_count st)) 0 (ss_count st) Hok)
    as (k & Hloop & Hk & Hs); [lia..| |].
  { split; [lia|]. intros n x Hn Hle. apply lookup_lt_Some in Hn. rewrite length_agent_ids in Hn by done. lia. }
  exists k. split_and!; try done. unfold lower_bound. rewrite Hloop. cbn [run_bind].
  pose proof (splits_member _ _ _ (so_sorted _ Hok) Hs) as Hm.
  destruct (Z.ltb_spec (Z.of_nat k) (ss_count st)) as [Hlt|Hge].
  - destruct (id_at_agent st k Hok) as (x & Hx & ->); [lia|]. cbn [run_bind]. do 2 f_equal.
    rewrite Hx in Hm. destruct (Z.eqb_spec x id) as [->|Hne].
    + symmetry. apply bool_decide_eq_true. by apply Hm.
    + symmetry. apply bool_decide_eq_false. rewrite Hm. congruence.
  - do 2 f_equal. symmetry. apply bool_decide_eq_false. rewrite Hm, lookup_ge_None_2; [done|].
    rewrite length_agent_ids by done. lia.
Qed.

(** ** Insertion *)

(** The arrays and numbers of a store, up to the agents in it. *)
Definition same_shape (st st' : cxpr_bulk_state_store) : Prop :=
  ss_descriptor st' = ss_descriptor st ∧ ss_state_size st' = ss_state_size st ∧
  ss_state_stride st' = ss_state_stride st.

Lemma exact_bytes st n :
  store_ok st → 0 ≤ n ≤ ss_capacity st →
  wrap64 (n * ss_state_stride st) = Z.of_nat (Z.to_nat n * Z.to_nat (ss_state_stride st)).
Proof.
  intros Hok Hn. pose proof (so_bytes _ Hok). pose proof (so_size _ Hok). unfold SIZE_MAX, wrap64 in *.
  rewrite Z.mod_small by nia. rewrite Nat2Z.inj_mul, !Z2Nat.id by lia. done.
Qed.

Lemma length_initial_state d size stride :
  reset_in_block d size → 0 ≤ size ≤ stride → length (initial_state d size stride) = Z.to_nat stride.
Proof.
  intros Hr Hs. unfold initial_state. destruct (gd_reset d) as [reset|] eqn:E.
  - rewrite length_app, (Hr reset _ E), !length_replicate by apply length_replicate. lia.
  - apply length_replicate.
Qed.

Lemma init_block_at d states k size stride :
  reset_in_block d size → 0 ≤ size ≤ stride → (k + Z.to_nat stride ≤ length states)%nat →
  init_block d states (Z.of_nat k) size stride = Done (list_inserts k (initial_state d size stride) states).
Proof.
  intros Hr Hs Hin. unfold init_block, initial_state.
  replace stride with (Z.of_nat (Z.to_nat stride)) at 1 by lia. rewrite mem_fill_at by done. cbn [run_bind].
  destruct (gd_reset d) as [reset|] eqn:E; [|done].
  assert (Hz : cells_at (list_inserts k (replicate (Z.to_nat stride) 0) states) k (Z.to_nat size) =
               replicate (Z.to_nat size) 0).
  { rewrite <- (Nat.add_0_r k) at 2. rewrite cells_at_inserts_inside by (rewrite length_replicate; lia).
    unfold cells_at. rewrite drop_0, take_replicate. f_equal. lia. }
  replace size with (Z.of_nat (Z.to_nat size)) at 1 by lia.
  rewrite mem_read_at by (rewrite length_inserts; lia). cbn [run_bind].
  rewrite Hz. set (z := replicate (Z.to_nat size) 0).
  assert (Hlen : length (reset z) = Z.to_nat size) by (apply (Hr reset); [done|apply length_replicate]).
  rewrite mem_write_at by (rewrite length_inserts, Hlen; lia). f_equal.
  apply list_eq. intros n. rewrite !lookup_inserts
    by (rewrite ?length_inserts, ?length_app, ?length_replicate; lia).
  rewrite length_app, !length_replicate, Hlen. repeat case_decide; try lia; try done.
  - by rewrite lookup_app_l by lia.
  - rewrite lookup_app_r, !lookup_replicate_2 by lia. done.
Qed.

Lemma insert_states st k :
  store_ok st → ss_count st < ss_capacity st → (k ≤ Z.to_nat (ss_count st))%nat → ss_state_stride st ≠ 0 →
  ∃ states states' , ss_states st = Some states ∧
    (let* states := mem_move states (wrap64 ((Z.of_nat k + 1) * ss_state_stride st))
       (wrap64 (Z.of_nat k * ss_state_stride st)) (wrap64 ((ss_count st - Z.of_nat k) * ss_state_stride st)) in
     init_block (ss_descriptor st) states (wrap64 (Z.of_nat k * ss_state_stride st))
       (ss_state_size st) (ss_state_stride st)) = Done states' ∧
    length states' = length states ∧
    blocks_of (Z.to_nat (ss_state_stride st)) (S (Z.to_nat (ss_count st))) states' =
      take k (agent_blocks st) ++ initial_state (ss_descriptor st) (ss_state_size st) (ss_state_stride st)
        :: drop k (agent_blocks st).
Proof.
  intros Hok Hlt Hk Hnz. pose proof (so_states _ Hok) as Hst. pose proof (so_size _ Hok) as Hsz.
  pose proof (so_count _ Hok) as Hc. unfold agent_blocks.
  destruct (ss_states st) as [states|]; [|lia]. destruct Hst as [_ Hlen].
  exists states. rewrite !exact_bytes by (done || lia).
  set (w := Z.to_nat (ss_state_stride st)) in *. set (n := Z.to_nat (ss_count st)) in *.
  assert (Hl : (S n * w ≤ length states)%nat) by nia.
  replace (Z.to_nat (Z.of_nat k + 1)) with (S k) by lia. rewrite Nat2Z.id.
  replace (Z.to_nat (ss_count st - Z.of_nat k)) with (n - k)%nat by lia.
  assert (Hm : (k * w + (n - k) * w = n * w)%nat) by nia.
  rewrite mem_move_at by lia. cbn [run_bind].
  rewrite init_block_at; [|apply Hok|done|rewrite length_inserts; fold w; nia].
  eexists. split; [done|]. split; [done|]. split; [by rewrite !length_inserts|].
  apply blocks_insert; [lia|lia|]. apply length_initial_state; [apply Hok|done].
Qed.

Lemma insert_agent_ok st k id :
  store_ok st → ss_count st < ss_capacity st → (k ≤ Z.to_nat (ss_count st))%nat →
  StronglySorted Z.lt (take k (agent_ids st) ++ id :: drop k (agent_ids st)) →
  ∃ st', insert_agent st (Z.of_nat k) id = Done st' ∧ store_ok st' ∧ same_shape st st' ∧
    ss_count st' = ss_count st + 1 ∧
    agent_ids st' = take k (agent_ids st) ++ id :: drop k (agent_ids st) ∧
    agent_blocks st' = take k (agent_blocks st) ++
      initial_state (ss_descriptor st) (ss_state_size st) (ss_state_stride st) :: drop k (agent_blocks st).
Proof.
  intros Hok Hlt Hk Hsort. pose proof Hok as [Hc Hids Hroom Hsz Hst Hbytes Hreset _].
  unfold insert_agent. destruct (ss_ids st) as [ids|] eqn:Ei; [|lia]. cbn [run_bind array_of].
  set (n := Z.to_nat (ss_count st)) in *.
  assert (Hmove : mem_move ids (Z.of_nat k + 1) (Z.of_nat k) (ss_count st - Z.of_nat k) =
                  Done (list_inserts (S k) (cells_at ids k (n - k)) ids)).
  { rewrite <- mem_move_at by lia. f_equal; lia. }
  rewrite Hmove. cbn [run_bind].
  rewrite mem_write_at by (rewrite length_inserts; simpl; lia). cbn [run_bind].
  assert (Hnew : take (S n) (list_inserts k [id] (list_inserts (S k) (cells_at ids k (n - k)) ids)) =
                 take k (agent_ids st) ++ id :: drop k (agent_ids st)).
  { unfold agent_ids. rewrite Ei. apply array_insert; lia. }
  set (ids' := list_inserts k [id] _) in *.
  assert (Hl' : length ids' = length ids) by (unfold ids'; by rewrite !length_inserts).
  assert (Hcount : Z.to_nat (ss_count st + 1) = S n) by lia.
  destruct (Z.eqb_spec (ss_state_stride st) 0) as [Hz|Hnz]; cbn [run_bind].
  - assert (Hnone : ss_states st = None) by (destruct (ss_states st); [tauto|done]).
    set (st' := mk_state_store _ _ _ _ _ _ _). exists st'. split; [done|].
    assert (HI : agent_ids st' = take k (agent_ids st) ++ id :: drop k (agent_ids st)).
    { rewrite <- Hnew, <- Hcount. done. }
    split_and!; try done; [split; simpl; rewrite ?HI, ?Hnone; done || lia|].
    unfold agent_blocks. simpl. rewrite Hcount, Hnone. fold n.
    rewrite take_replicate, drop_replicate. replace (k `min` n)%nat with k by lia.
    assert (Hi : initial_state (ss_descriptor st) (ss_state_size st) (ss_state_stride st) = []).
    { apply nil_length_inv. rewrite length_initial_state by done. lia. }
    rewrite Hi. change ([] :: replicate (n - k) []) with (replicate (S (n - k)) (@nil Z)).
    rewrite <- replicate_add. f_equal. lia.
  - destruct (insert_states st k Hok Hlt Hk Hnz) as (states & states' & Es & Hrun & Hl & Hblocks).
    rewrite Es. cbn [run_bind array_of].
    unfold run_bind in Hrun at 1. destruct (mem_move states _ _ _) as [moved| |]; try done.
    cbn [run_bind]. rewrite Hrun. cbn [run_bind].
    set (st' := mk_state_store _ _ _ _ _ _ _). exists st'. split; [done|].
    assert (HI : agent_ids st' = take k (agent_ids st) ++ id :: drop k (agent_ids st)).
    { rewrite <- Hnew, <- Hcount. done. }
    split_and!; try done; [split; simpl; rewrite ?HI; try done; try lia|].
    + rewrite Es in Hst. split; [done|]. lia.
    + rewrite <- Hblocks. unfold agent_blocks. simpl. by rewrite Hcount.
Qed.

(** ** Growth *)

Lemma copy_prefix_at junk old n capacity :
  match old with Some l => (n ≤ length l)%nat | None => n = 0%nat end → (n ≤ Z.to_nat capacity)%nat →
  copy_prefix (fresh junk capacity) old (Z.of_nat n) =
    Done (list_inserts 0 (match old with Some l => cells_at l 0 n | None => [] end) (fresh junk capacity)).
Proof.
  intros Ho Hn. unfold copy_prefix. destruct (Z.eqb_spec (Z.of_nat n) 0) as [Hz|Hnz].
  - assert (n = 0%nat) as -> by lia. f_equal. by destruct old.
  - destruct old as [l|]; [|lia]. change 0 with (Z.of_nat 0) at 1 2.
    rewrite mem_read_at by lia. cbn [run_bind].
    rewrite mem_write_at; [done|]. rewrite length_cells_at, length_fresh; lia.
Qed.

Lemma take_copied (old : option (list Z)) junk n capacity :
  match old with Some l => (n ≤ length l)%nat | None => n = 0%nat end → (n ≤ Z.to_nat capacity)%nat →
  take n (list_inserts 0 (match old with Some l => cells_at l 0 n | None => [] end) (fresh junk capacity)) =
    match old with Some l => take n l | None => [] end.
Proof.
  intros Ho Hn. destruct old as [l|]; [|by subst].
  change (take n (list_inserts 0 (cells_at l 0 n) (fresh junk capacity)))
    with (cells_at (list_inserts 0 (cells_at l 0 n) (fresh junk capacity)) 0 n).
  rewrite <- (length_cells_at l 0 n) at 2 by lia.
  rewrite cells_at_inserts_same by (rewrite length_cells_at, ?length_fresh; lia). done.
Qed.

(** The growth is refused because memory is short or the size of an array
    would not fit a [size_t]. *)
Definition growth_fails (stride capacity : Z) (ids_alloc states_alloc : allocation) : Prop :=
  ids_alloc = None ∨ states_alloc = None ∨ SIZE_MAX < capacity * id_size ∨ SIZE_MAX < capacity * stride.

Lemma grown_states st capacity junk :
  store_ok st → ss_capacity st < capacity → ss_state_stride st ≠ 0 →
  capacity * ss_state_stride st ≤ SIZE_MAX →
  ∃ states', copy_prefix (fresh junk (wrap64 (capacity * ss_state_stride st))) (ss_states st)
      (wrap64 (ss_count st * ss_state_stride st)) = Done states' ∧
    Z.of_nat (length states') = capacity * ss_state_stride st ∧
    blocks_of (Z.to_nat (ss_state_stride st)) (Z.to_nat (ss_count st)) states' = agent_blocks st.
Proof.
  intros Hok Hcap Hnz Hfits. pose proof Hok as [Hc Hids Hroom Hsz Hst Hbytes _ _].
  rewrite (exact_bytes st (ss_count st)) by (done || lia).
  assert (Hw : wrap64 (capacity * ss_state_stride st) = capacity * ss_state_stride st).
  { unfold wrap64, SIZE_MAX in *. apply Z.mod_small. nia. }
  rewrite Hw. set (w := Z.to_nat (ss_state_stride st)) in *. set (n := Z.to_nat (ss_count st)) in *.
  assert (Hold : match ss_states st with Some l => (n * w ≤ length l)%nat | None => (n * w = 0)%nat end).
  { destruct (ss_states st); [nia|]. assert (n = 0%nat) as -> by lia. done. }
  assert (Hroom' : (n * w ≤ Z.to_nat (capacity * ss_state_stride st))%nat) by nia.
  rewrite copy_prefix_at by done. eexists. split; [done|]. split.
  - rewrite length_inserts, length_fresh. nia.
  - unfold agent_blocks. fold w n. destruct (ss_states st) as [states|].
    + apply blocks_of_copy; [done|]. by rewrite length_fresh.
    + assert (n = 0%nat) as -> by lia. done.
Qed.

Lemma reserve_ok st capacity ids_alloc states_alloc :
  store_ok st → ss_capacity st < capacity →
  (growth_fails (ss_state_stride st) capacity ids_alloc states_alloc ∧
   reserve st capacity ids_alloc states_alloc = Done None) ∨
  ∃ st', reserve st capacity ids_alloc states_alloc = Done (Some st') ∧ store_ok st' ∧ same_shape st st' ∧
    ss_count st' = ss_count st ∧ ss_capacity st' = capacity ∧
    agent_ids st' = agent_ids st ∧ agent_blocks st' = agent_blocks st.
Proof.
  intros Hok Hcap. pose proof Hok as [Hc Hids Hroom Hsz Hst Hbytes Hreset Hsorted].
  unfold reserve, growth_fails. destruct (Z.leb_spec capacity (ss_capacity st)) as [|_]; [lia|].
  destruct (_ || _) eqn:Hover.
  { left. split; [|done]. do 2 right. rewrite orb_true_iff, andb_true_iff, !Z.ltb_lt, negb_true_iff, Z.eqb_neq in Hover.
    unfold id_size in *. destruct Hover as [Ho|[Hnz Ho]]; [left|right]; apply quotient_lt in Ho; lia. }
  rewrite orb_false_iff, andb_false_iff, !Z.ltb_ge, negb_false_iff, Z.eqb_eq in Hover.
  destruct Hover as [Hov1 Hov2]. apply Z.nlt_ge in Hov1. rewrite quotient_lt in Hov1 by (unfold id_size; lia).
  destruct ids_alloc as [ids_junk|]; [|left; auto].
  set (n := Z.to_nat (ss_count st)).
  assert (Hidsn : match ss_ids st with Some l => (n ≤ length l)%nat | None => n = 0%nat end)
    by (destruct (ss_ids st); lia).
  pose proof (copy_prefix_at ids_junk (ss_ids st) n capacity Hidsn ltac:(lia)) as Hcopy.
  pose proof (take_copied (ss_ids st) ids_junk n capacity Hidsn ltac:(lia)) as Hids'.
  replace (Z.of_nat n) with (ss_count st) in Hcopy by lia.
  set (ids' := list_inserts 0 _ _) in *.
  assert (Hl' : length ids' = Z.to_nat capacity) by (unfold ids'; rewrite length_inserts; apply length_fresh).
  destruct (Z.eqb_spec (ss_state_stride st) 0) as [Hz|Hnz].
  - right. rewrite Hcopy. cbn [run_bind].
    assert (Hnone : ss_states st = None) by (destruct (ss_states st); [tauto|done]).
    set (st' := mk_state_store _ _ _ _ _ _ _). exists st'. split; [done|].
    assert (HI : agent_ids st' = agent_ids st) by exact Hids'.
    split_and!; try done; [|unfold agent_blocks; simpl; by rewrite Hnone].
    split; simpl; rewrite ?HI; done || lia.
  - destruct states_alloc as [junk|]; [|left; auto]. right. rewrite Hcopy. cbn [run_bind].
    destruct Hov2 as [Hov2|Hov2]; [lia|]. apply Z.nlt_ge in Hov2. rewrite quotient_lt in Hov2 by lia.
    destruct (grown_states st capacity junk Hok Hcap Hnz ltac:(lia)) as (states' & Hs & Hl & Hb).
    rewrite Hs. cbn [run_bind].
    set (st' := mk_state_store _ _ _ _ _ _ _). exists st'. split; [done|].
    assert (HI : agent_ids st' = agent_ids st) by exact Hids'.
    split_and!; try done. split; simpl; rewrite ?HI; done || lia.
Qed.

(** ** Removal *)

Lemma remove_states st k :
  store_ok st → (k < Z.to_nat (ss_count st))%nat → ss_state_stride st ≠ 0 →
  ∃ states states', ss_states st = Some states ∧
    mem_move states (wrap64 (Z.of_nat k * ss_state_stride st))
      (wrap64 ((Z.of_nat k + 1) * ss_state_stride st))
      (wrap64 ((ss_count st - Z.of_nat k - 1) * ss_state_stride st)) = Done states' ∧
    length states' = length states ∧
    blocks_of (Z.to_nat (ss_state_stride st)) (Z.to_nat (ss_count st) - 1) states' = delete k (agent_blocks st).
Proof.
  intros Hok Hk Hnz. pose proof (so_states _ Hok) as Hst. pose proof (so_size _ Hok) as Hsz.
  pose proof (so_count _ Hok) as Hc. unfold agent_blocks.
  destruct (ss_states st) as [states|]; [|lia]. destruct Hst as [_ Hlen].
  exists states. rewrite !exact_bytes by (done || lia).
  set (w := Z.to_nat (ss_state_stride st)) in *. set (n := Z.to_nat (ss_count st)) in *.
  replace (Z.to_nat (Z.of_nat k + 1)) with (S k) by lia. rewrite Nat2Z.id.
  replace (Z.to_nat (ss_count st - Z.of_nat k - 1)) with (n - k - 1)%nat by lia.
  assert (Hm : (S k * w + (n - k - 1) * w = n * w)%nat) by nia.
  assert (Hl : (n * w ≤ length states)%nat) by nia.
  rewrite mem_move_at by lia. eexists. split; [done|]. split; [done|]. split; [by rewrite !length_inserts|].
  by apply blocks_remove.
Qed.

Lemma sorted_delete (ids : list Z) k : StronglySorted Z.lt ids → StronglySorted Z.lt (delete k ids).
Proof.
  revert k. induction ids as [|x ids IH]; intros [|k] Hs; try done; apply StronglySorted_cons in Hs as [Hx Hs].
  - done.
  - apply StronglySorted_cons. split; [|by apply IH].
    eapply Forall_forall. intros y Hy. rewrite Forall_forall in Hx. apply Hx.
    eapply elem_of_submseteq; [exact Hy|]. apply sublist_submseteq, sublist_delete.
Qed.

Lemma remove_agent_ok st k :
  store_ok st → (k < Z.to_nat (ss_count st))%nat →
  ∃ st', remove_agent st (Z.of_nat k) = Done st' ∧ store_ok st' ∧ same_shape st st' ∧
    agent_ids st' = delete k (agent_ids st) ∧ agent_blocks st' = delete k (agent_blocks st).
Proof.
  intros Hok Hk. pose proof Hok as [Hc Hids Hroom Hsz Hst Hbytes Hreset Hsort].
  unfold remove_agent. destruct (ss_ids st) as [ids|] eqn:Ei; [|lia]. cbn [run_bind array_of].
  set (n := Z.to_nat (ss_count st)) in *.
  assert (Hmove : mem_move ids (Z.of_nat k) (Z.of_nat k + 1) (ss_count st - Z.of_nat k - 1) =
                  Done (list_inserts k (cells_at ids (S k) (n - k - 1)) ids)).
  { rewrite <- mem_move_at by lia. f_equal; lia. }
  rewrite Hmove. cbn [run_bind].
  assert (Hnew : take (n - 1) (list_inserts k (cells_at ids (S k) (n - k - 1)) ids) = delete k (agent_ids st)).
  { unfold agent_ids. rewrite Ei. apply array_remove; lia. }
  set (ids' := list_inserts k _ _) in *.
  assert (Hl' : length ids' = length ids) by (unfold ids'; by rewrite !length_inserts).
  assert (Hcount : Z.to_nat (ss_count st - 1) = (n - 1)%nat) by lia.
  pose proof (sorted_delete _ k Hsort) as Hsort'.
  destruct (Z.eqb_spec (ss_state_stride st) 0) as [Hz|Hnz]; cbn [run_bind].
  - assert (Hnone : ss_states st = None) by (destruct (ss_states st); [tauto|done]).
    set (st' := mk_state_store _ _ _ _ _ _ _). exists st'. split; [done|].
    assert (HI : agent_ids st' = delete k (agent_ids st)) by (rewrite <- Hnew, <- Hcount; done).
    split_and!; try done; [split; simpl; rewrite ?HI, ?Hnone; done || lia|].
    unfold agent_blocks. simpl. rewrite Hcount, Hnone. fold n. apply list_eq. intros i.
    destruct (decide (i < k)%nat); [rewrite list_lookup_delete_lt by done|rewrite list_lookup_delete_ge by lia];
      apply option_eq; intros; rewrite !lookup_replicate; intuition lia.
  - destruct (remove_states st k Hok Hk Hnz) as (states & states' & Es & Hrun & Hl & Hblocks).
    rewrite Es. cbn [run_bind array_of]. rewrite Hrun. cbn [run_bind].
    set (st' := mk_state_store _ _ _ _ _ _ _). exists st'. split; [done|].
    assert (HI : agent_ids st' = delete k (agent_ids st)) by (rewrite <- Hnew, <- Hcount; done).
    split_and!; try done; [split; simpl; rewrite ?HI; try done; try lia|].
    + rewrite Es in Hst. split; [done|]. lia.
    + rewrite <- Hblocks. unfold agent_blocks. simpl. by rewrite Hcount.
Qed.

(** ** Refinement of a finite map *)

Inductive store_op : Type :=
  | OpAdd (id : Z) (ids_alloc states_alloc : allocation)
  | OpRemove (id : Z).

Definition apply_op (st : cxpr_bulk_state_store) (op : store_op)
    : run (cxpr_bulk_state_store_status * option cxpr_bulk_state_store) :=
  match op with
  | OpAdd id ids_alloc states_alloc => cxpr_bulk_state_store_add (Some st) id ids_alloc states_alloc
  | OpRemove id => cxpr_bulk_state_store_remove (Some st) id
  end.

(** The capacity an insertion into a full store of [n] agents asks for. *)
Definition next_capacity (n : Z) : Z := if n =? 0 then 8 else 2 * n.

(** What the operations do to a map from identifiers to blocks. *)
Inductive map_step (init : list Z) (stride : Z) (m : gmap Z (list Z))
    : store_op → cxpr_bulk_state_store_status → gmap Z (list Z) → Prop :=
  | step_added id a b : m !! id = None →
      map_step init stride m (OpAdd id a b) CXPR_BULK_STATE_STORE_OK (<[id := init]> m)
  | step_duplicate id a b : is_Some (m !! id) →
      map_step init stride m (OpAdd id a b) CXPR_BULK_STATE_STORE_DUPLICATE_ID m
  | step_no_memory id a b : m !! id = None →
      growth_fails stride (next_capacity (Z.of_nat (size m))) a b →
      map_step init stride m (OpAdd id a b) CXPR_BULK_STATE_STORE_ALLOCATION_FAILED m
  | step_removed id : is_Some (m !! id) →
      map_step init stride m (OpRemove id) CXPR_BULK_STATE_STORE_OK (delete id m)
  | step_absent id : m !! id = None →
      map_step init stride m (OpRemove id) CXPR_BULK_STATE_STORE_ID_NOT_FOUND m.

Lemma agents_fst st : store_ok st → (agents st).*1 = agent_ids st.
Proof.
  intros Hok. unfold agents. rewrite fst_zip; [done|].
  rewrite length_agent_ids, length_agent_blocks by done. lia.
Qed.

Lemma sorted_NoDup (ids : list Z) : StronglySorted Z.lt ids → NoDup ids.
Proof.
  induction 1 as [|x ids _ IH Hx]; constructor; [|done].
  intros Hin. rewrite Forall_forall in Hx. specialize (Hx x Hin). lia.
Qed.

Lemma agents_NoDup st : store_ok st → NoDup (agents st).*1.
Proof. intros Hok. rewrite agents_fst by done. apply sorted_NoDup, Hok. Qed.

Lemma agent_map_None st id : store_ok st → agent_map st !! id = None ↔ id ∉ agent_ids st.
Proof. intros Hok. unfold agent_map. rewrite <- agents_fst by done. by rewrite not_elem_of_list_to_map. Qed.

Lemma agent_map_size st : store_ok st → Z.of_nat (size (agent_map st)) = ss_count st.
Proof.
  intros Hok. unfold agent_map. rewrite <- (length_map_to_list (list_to_map (agents st))).
  rewrite (Permutation_length (map_to_list_to_map (agents st) (agents_NoDup _ Hok))).
  unfold agents. rewrite length_zip_with, length_agent_ids, length_agent_blocks by done.
  pose proof (so_count _ Hok). lia.
Qed.

Lemma splits_sorted_insert (ids : list Z) id k :
  StronglySorted Z.lt ids → splits_at ids id k k → id ∉ ids → (k ≤ length ids)%nat →
  StronglySorted Z.lt (take k ids ++ id :: drop k ids).
Proof.
  intros Hs [H1 H2] Hnew Hk. rewrite <- (take_drop k ids) in Hs.
  assert (Hlow : ∀ x, x ∈ take k ids → x < id).
  { intros x [n Hn]%list_elem_of_lookup_1. pose proof (lookup_lt_Some _ _ _ Hn) as Hlt.
    rewrite length_take in Hlt. apply (H1 n); [|lia]. by rewrite lookup_take_lt in Hn by lia. }
  assert (Hhigh : ∀ x, x ∈ drop k ids → id < x).
  { intros x [n Hn]%list_elem_of_lookup_1. rewrite lookup_drop in Hn.
    assert (id ≤ x) by (eapply H2; [exact Hn|lia]). destruct (decide (x = id)) as [->|]; [|lia].
    exfalso. apply Hnew. by eapply list_elem_of_lookup_2. }
  apply StronglySorted_app. split_and!.
  - intros x y Hx Hy. apply elem_of_cons in Hy as [->|Hy]; [by apply Hlow|].
    transitivity id; [by apply Hlow|by apply Hhigh].
  - by eapply StronglySorted_app_1_l.
  - apply StronglySorted_cons. split; [by apply Forall_forall|by eapply StronglySorted_app_1_r].
Qed.

Lemma agents_inserted st st' k id block :
  store_ok st → store_ok st' → (k ≤ Z.to_nat (ss_count st))%nat → id ∉ agent_ids st →
  agent_ids st' = take k (agent_ids st) ++ id :: drop k (agent_ids st) →
  agent_blocks st' = take k (agent_blocks st) ++ block :: drop k (agent_blocks st) →
  agent_map st' = <[id := block]> (agent_map st).
Proof.
  intros Hok Hok' Hk Hnew Hi Hb. unfold agent_map.
  change (<[id := block]> (list_to_map (agents st) : gmap Z (list Z)))
    with (list_to_map ((id, block) :: agents st) : gmap Z (list Z)).
  apply list_to_map_proper; [by apply agents_NoDup|]. unfold agents. rewrite Hi, Hb.
  rewrite zip_with_app by (rewrite !length_take, length_agent_ids, length_agent_blocks; done).
  cbn [zip_with]. rewrite <- zip_with_take, <- zip_with_drop, <- Permutation_middle.
  by rewrite take_drop.
Qed.

Lemma agents_removed st st' k id :
  store_ok st → store_ok st' → agent_ids st !! k = Some id →
  agent_ids st' = delete k (agent_ids st) → agent_blocks st' = delete k (agent_blocks st) →
  agent_map st' = delete id (agent_map st).
Proof.
  intros Hok Hok' Hk Hi Hb. pose proof (lookup_lt_Some _ _ _ Hk) as Hlt. rewrite length_agent_ids in Hlt by done.
  destruct (lookup_lt_is_Some_2 (agent_blocks st) k) as [block Hblock]; [by rewrite length_agent_blocks|].
  assert (Ha : agents st !! k = Some (id, block)).
  { unfold agents. rewrite lookup_zip_with, Hk, Hblock. done. }
  assert (Hd : agents st' = delete k (agents st)).
  { unfold agents. rewrite Hi, Hb. rewrite !delete_take_drop.
    rewrite zip_with_app by (rewrite !length_take, length_agent_ids, length_agent_blocks; done).
    by rewrite <- zip_with_take, <- zip_with_drop. }
  unfold agent_map. rewrite Hd.
  pose proof (agents_NoDup _ Hok) as Hn.
  pose proof (delete_Permutation _ _ _ Ha) as Hp.
  rewrite (list_to_map_proper (agents st) ((id, block) :: delete k (agents st))) by done.
  rewrite Hp in Hn. rewrite fmap_cons, NoDup_cons in Hn. destruct Hn as [Hn _]. simpl.
  rewrite delete_insert_id; [done|]. by apply not_elem_of_list_to_map.
Qed.

Definition initial_of (st : cxpr_bulk_state_store) : list Z :=
  initial_state (ss_descriptor st) (ss_state_size st) (ss_state_stride st).

Lemma same_shape_initial st st' : same_shape st st' → initial_of st' = initial_of st.
Proof. intros (Hd & Hs & Hw). unfold initial_of. by rewrite Hd, Hs, Hw. Qed.

Lemma add_insert st k id :
  store_ok st → ss_count st < ss_capacity st → id ∉ agent_ids st → (k ≤ Z.to_nat (ss_count st))%nat →
  splits_at (agent_ids st) id k k →
  ∃ st', insert_agent st (Z.of_nat k) id = Done st' ∧ store_ok st' ∧ same_shape st st' ∧
    agent_map st' = <[id := initial_of st]> (agent_map st).
Proof.
  intros Hok Hlt Hnew Hk Hs.
  destruct (insert_agent_ok st k id Hok Hlt Hk) as (st' & Hrun & Hok' & Hsh & _ & Hi & Hb).
  { apply splits_sorted_insert; [apply Hok|done..|by rewrite length_agent_ids]. }
  exists st'. split_and!; try done. by eapply agents_inserted.
Qed.

Lemma next_capacity_grows st :
  store_ok st → ss_count st = ss_capacity st →
  (if ss_capacity st =? 0 then 8 else wrap64 (ss_capacity st * 2)) = next_capacity (ss_count st) ∧
  ss_capacity st < next_capacity (ss_count st).
Proof.
  intros Hok He. pose proof (so_room _ Hok). pose proof (so_count _ Hok). unfold next_capacity. rewrite He.
  destruct (Z.eqb_spec (ss_capacity st) 0); [lia|]. unfold wrap64, id_size, SIZE_MAX in *.
  rewrite Z.mod_small; lia.
Qed.

Lemma add_refines st id ids_alloc states_alloc :
  store_ok st →
  ∃ status st', cxpr_bulk_state_store_add (Some st) id ids_alloc states_alloc = Done (status, Some st') ∧
    store_ok st' ∧ same_shape st st' ∧
    map_step (initial_of st) (ss_state_stride st) (agent_map st) (OpAdd id ids_alloc states_alloc) status
      (agent_map st').
Proof.
  intros Hok. destruct (lower_bound_splits st id Hok) as (k & Hlb & Hk & Hs).
  unfold cxpr_bulk_state_store_add. rewrite Hlb. cbn [run_bind].
  pose proof (agent_map_None st id Hok) as Hnone.
  case_bool_decide as Hin.
  { exists CXPR_BULK_STATE_STORE_DUPLICATE_ID, st. split_and!; try done. constructor.
    apply not_eq_None_Some. rewrite Hnone. by intros []. }
  pose proof (so_count _ Hok) as Hc. destruct (Z.eqb_spec (ss_count st) (ss_capacity st)) as [He|Hne].
  - destruct (next_capacity_grows st Hok He) as [-> Hgrow].
    destruct (Z.ltb_spec (next_capacity (ss_count st)) (ss_capacity st)) as [|_]; [lia|].
    destruct (reserve_ok st _ ids_alloc states_alloc Hok Hgrow)
      as [[Hf ->]|(st1 & -> & Hok1 & Hsh1 & Hc1 & Hcap1 & Hi1 & Hb1)]; cbn [run_bind].
    + exists CXPR_BULK_STATE_STORE_ALLOCATION_FAILED, st. split_and!; try done.
      constructor; [by apply Hnone|by rewrite agent_map_size].
    + destruct (add_insert st1 k id Hok1) as (st2 & -> & Hok2 & Hsh2 & Hm2); rewrite ?Hc1, ?Hi1; try done; [lia|].
      cbn [run_bind]. exists CXPR_BULK_STATE_STORE_OK, st2. split_and!; try done.
      { unfold same_shape in *. destruct Hsh1 as (<- & <- & <-). done. }
      rewrite Hm2, (same_shape_initial _ _ Hsh1). unfold agent_map, agents. rewrite Hi1, Hb1.
      constructor. by apply Hnone.
  - cbn [run_bind]. destruct (add_insert st k id Hok) as (st2 & -> & Hok2 & Hsh2 & Hm2); [lia|done..|].
    cbn [run_bind]. exists CXPR_BULK_STATE_STORE_OK, st2. split_and!; try done. rewrite Hm2.
    constructor. by apply Hnone.
Qed.

Lemma remove_refines st id :
  store_ok st →
  ∃ status st', cxpr_bulk_state_store_remove (Some st) id = Done (status, Some st') ∧
    store_ok st' ∧ same_shape st st' ∧
    map_step (initial_of st) (ss_state_stride st) (agent_map st) (OpRemove id) status (agent_map st').
Proof.
  intros Hok. destruct (lower_bound_splits st id Hok) as (k & Hlb & Hk & Hs).
  unfold cxpr_bulk_state_store_remove. rewrite Hlb. cbn [run_bind].
  pose proof (agent_map_None st id Hok) as Hnone. case_bool_decide as Hin; simpl.
  - pose proof (proj1 (splits_member _ _ _ (so_sorted _ Hok) Hs) Hin) as Hat.
    destruct (remove_agent_ok st k Hok) as (st' & -> & Hok' & Hsh & Hi & Hb).
    { apply lookup_lt_Some in Hat. by rewrite length_agent_ids in Hat. }
    cbn [run_bind]. exists CXPR_BULK_STATE_STORE_OK, st'. split_and!; try done.
    rewrite (agents_removed st st' k id) by done. constructor. apply not_eq_None_Some. rewrite Hnone. by intros [].
  - exists CXPR_BULK_STATE_STORE_ID_NOT_FOUND, st. split_and!; try done. constructor. by apply Hnone.
Qed.

(** ** Sequences of operations *)

Fixpoint apply_ops (st : cxpr_bulk_state_store) (ops : list store_op)
    : run (list cxpr_bulk_state_store_status * cxpr_bulk_state_store) :=
  match ops with
  | [] => Done ([], st)
  | op :: ops =>
      let* '(status, store) := apply_op st op in
      match store with
      | None => Undef
      | Some st =>
          let* '(statuses, st) := apply_ops st ops in
          Done (status :: statuses, st)
      end
  end.

Inductive map_steps (init : list Z) (stride : Z)
    : gmap Z (list Z) → list store_op → list cxpr_bulk_state_store_status → gmap Z (list Z) → Prop :=
  | steps_nil m : map_steps init stride m [] [] m
  | steps_cons m op status m' ops statuses m'' :
      map_step init stride m op status m' → map_steps init stride m' ops statuses m'' →
      map_steps init stride m (op :: ops) (status :: statuses) m''.

Lemma op_refines st op :
  store_ok st →
  ∃ status st', apply_op st op = Done (status, Some st') ∧ store_ok st' ∧ same_shape st st' ∧
    map_step (initial_of st) (ss_state_stride st) (agent_map st) op status (agent_map st').
Proof. intros Hok. destruct op; [by apply add_refines|by apply remove_refines]. Qed.

Lemma ops_refine ops st :
  store_ok st →
  ∃ statuses st', apply_ops st ops = Done (statuses, st') ∧ store_ok st' ∧ same_shape st st' ∧
    map_steps (initial_of st) (ss_state_stride st) (agent_map st) ops statuses (agent_map st').
Proof.
  revert st. induction ops as [|op ops IH]; intros st Hok.
  - exists [], st. split_and!; try done. constructor.
  - destruct (op_refines st op Hok) as (status & st1 & H1 & Hok1 & Hsh1 & Hstep).
    destruct (IH st1 Hok1) as (statuses & st2 & H2 & Hok2 & Hsh2 & Hsteps).
    exists (status :: statuses), st2. cbn [apply_ops]. rewrite H1. cbn [run_bind]. rewrite H2. cbn [run_bind].
    rewrite (same_shape_initial _ _ Hsh1) in Hsteps. pose proof Hsh1 as (_ & _ & Hw). rewrite Hw in Hsteps.
    split_and!; try done; [|by econstructor].
    unfold same_shape in *. destruct Hsh1 as (<- & <- & <-). done.
Qed.

Lemma aligned_stride_spec size :
  0 ≤ size ≤ SIZE_MAX → aligned_stride size = 0 ∨ (size ≤ aligned_stride size ≤ SIZE_MAX).
Proof.
  intros Hs. unfold aligned_stride. destruct (Z.eqb_spec size 0); [by left|].
  destruct (Z.ltb_spec (SIZE_MAX - (max_alignment - 1)) size); [by left|right].
  unfold max_alignment, SIZE_MAX in *. set (q := (size + 16 - 1) / 16).
  pose proof (Z.div_mod (size + 16 - 1) 16 ltac:(lia)) as Hd. fold q in Hd.
  pose proof (Z.mod_pos_bound (size + 16 - 1) 16 ltac:(lia)). lia.
Qed.

Lemma new_store_ok d size st :
  gd_state_size d = Some size → in_size size → reset_in_block d size →
  cxpr_bulk_state_store_new (Some d) true = Done (CXPR_BULK_STATE_STORE_OK, Some st) →
  store_ok st ∧ agent_map st = ∅ ∧ ss_descriptor st = d ∧ ss_state_size st = size.
Proof.
  intros Hsize Hs Hr. unfold cxpr_bulk_state_store_new. case_match; [done|]. rewrite Hsize.
  destruct (negb (size =? 0) && (aligned_stride size =? 0)) eqn:E; [done|]. simpl. intros [= <-].
  pose proof (aligned_stride_spec size Hs) as Ha. rewrite andb_false_iff, negb_false_iff, Z.eqb_eq, Z.eqb_neq in E.
  assert (0 ≤ size ≤ aligned_stride size) by (unfold in_size in *; destruct E as [->|]; [done|lia]).
  split_and!; try done. split; simpl; try done; unfold SIZE_MAX in *; try lia; auto. constructor.
Qed.

(** C15: from creation on, the state store refines a map from agent identifiers
    to state blocks over any sequence of additions and removals, whatever its
    allocations return: each operation's status and effect are the map's (a
    new agent starts in the model's initial state, every other agent keeps its
    exact block, a duplicate, an absent identifier or a failed allocation
    changes nothing), the operations never read or write outside their arrays,
    and the identifiers stay in strictly ascending order. *)
Theorem state_store_refines_map d size st ops :
  gd_state_size d = Some size → in_size size → reset_in_block d size →
  cxpr_bulk_state_store_new (Some d) true = Done (CXPR_BULK_STATE_STORE_OK, Some st) →
  ∃ statuses st', apply_ops st ops = Done (statuses, st') ∧ StronglySorted Z.lt (agent_ids st') ∧
    map_steps (initial_state d size (ss_state_stride st)) (ss_state_stride st) ∅ ops statuses (agent_map st').
Proof.
  intros Hsize Hs Hr Hnew. destruct (new_store_ok d size st Hsize Hs Hr Hnew) as (Hok & Hm & Hd & Hz).
  destruct (ops_refine ops st Hok) as (statuses & st' & Hrun & Hok' & _ & Hsteps).
  exists statuses, st'. unfold initial_of in Hsteps. rewrite Hm, Hd, Hz in Hsteps. split_and!; try done. apply Hok'.
Qed.

(** The block of an identifier is found at the offset the store returns. *)
Lemma state_store_find_correct st id :
  store_ok st → ss_state_stride st ≠ 0 →
  match cxpr_bulk_state_store_find (Some st) id with
  | Done (Some offset) => ∃ states, ss_states st = Some states ∧ 0 ≤ offset ∧
      agent_map st !! id = Some (cells_at states (Z.to_nat offset) (Z.to_nat (ss_state_stride st)))
  | Done None => agent_map st !! id = None
  | _ => False
  end.
Proof.
  intros Hok Hnz. destruct (lower_bound_splits st id Hok) as (k & Hlb & Hk & Hs).
  unfold cxpr_bulk_state_store_find. rewrite Hlb. cbn [run_bind].
  case_bool_decide as Hin; simpl; [|by apply agent_map_None].
  destruct (Z.eqb_spec (ss_state_stride st) 0); [done|].
  pose proof (proj1 (splits_member _ _ _ (so_sorted _ Hok) Hs) Hin) as Hat.
  pose proof (lookup_lt_Some _ _ _ Hat) as Hlt. rewrite length_agent_ids in Hlt by done.
  pose proof (so_count _ Hok). pose proof (so_states _ Hok) as Hst.
  destruct (ss_states st) as [states|] eqn:Es; [|lia].
  exists states. split; [done|]. rewrite exact_bytes by (done || lia). split; [lia|]. rewrite !Nat2Z.id.
  apply elem_of_list_to_map; [by apply agents_NoDup|]. apply list_elem_of_lookup_2 with k.
  unfold agents, agent_blocks. rewrite Es, lookup_zip_with, Hat, lookup_blocks_of by done. done.
Qed.

(** ** A run over the store's population *)

(** The store after a run has written its blocks. *)
Definition with_states (st : cxpr_bulk_state_store) (states : list Z) : cxpr_bulk_state_store :=
  mk_state_store (ss_descriptor st) (ss_ids st) (Some states) (ss_state_size st) (ss_state_stride st)
    (ss_count st) (ss_capacity st).

Lemma bind_view_fields st v v' :
  cxpr_bulk_state_store_bind_view (Some st) (Some v) = (CXPR_BULK_STATE_STORE_OK, Some v') →
  bv_states v' = bool_decide (is_Some (ss_states st)) ∧ bv_state_stride v' = ss_state_stride st ∧
  bv_element_count v' = ss_count st.
Proof. simpl. intros [= <-]. simpl. by destruct (ss_states st). Qed.

(** A block of a bound view is the model's part and its padding. *)
Lemma bound_block st v states vs k :
  store_ok st → bv_states v = true → bv_state_stride v = ss_state_stride st →
  let m := mk_memory vs states in let w := Z.to_nat (ss_state_stride st) in
  let n := Z.to_nat (ss_state_size st) in
  cells_at states (k * w) w = state_at v (ss_state_size st) m (Z.of_nat k) ++ cells_at states (k * w + n) (w - n).
Proof.
  intros Hok Hs Hw m w n. unfold state_at. rewrite Hs, Hw. pose proof (so_size _ Hok) as Hz.
  replace (Z.to_nat (Z.of_nat k * ss_state_stride st)) with (k * w)%nat by lia. fold n.
  unfold cells_at. simpl. rewrite <- drop_drop, take_take_drop. f_equal. lia.
Qed.

Lemma padding_kept st v tick vs states m' k :
  store_ok st → bv_states v = true → bv_state_stride v = ss_state_stride st →
  elements_ticked (ss_descriptor st) v tick (ss_state_size st) (in_range 0 (ss_count st)) (mk_memory vs states) m' →
  let w := Z.to_nat (ss_state_stride st) in let n := Z.to_nat (ss_state_size st) in
  cells_at (bm_states m') (k * w + n) (w - n) = cells_at states (k * w + n) (w - n).
Proof.
  intros Hok Hs Hw HT w n. pose proof (so_size _ Hok) as Hz. apply list_eq. intros x.
  destruct (decide (x < w - n)%nat) as [Hx|Hx]; cycle 1.
  { unfold cells_at. rewrite !lookup_ge_None_2; [done|rewrite length_take; lia..]. }
  rewrite !lookup_cells_at by done.
  destruct (et_bytes _ _ _ _ _ _ _ HT (k * w + n + x)%nat) as [[_ (i & Hi & Hr)]|E]; [|done].
  exfalso. rewrite Hw in Hr. unfold in_range in Hi.
  assert (Hk : Z.of_nat (k * w + n + x) = Z.of_nat k * ss_state_stride st + ss_state_size st + Z.of_nat x) by lia.
  rewrite Hk in Hr. assert (Z.of_nat x < ss_state_stride st - ss_state_size st) by lia.
  destruct (Z.lt_trichotomy i (Z.of_nat k)) as [|[->|]]; nia.
Qed.

(** C16: running a model over the population of a state store gives each agent
    one tick: with the view bound to the store, the agent at place [k] of the
    ascending order ends with the tick of its own block and the inputs of
    element [k], the padding behind the model's state is kept, and the store
    is still well formed with the same agents. *)
Theorem state_store_run_correct st v v' tick states vs :
  store_ok st → ss_states st = Some states →
  cxpr_bulk_state_store_bind_view (Some st) (Some v) = (CXPR_BULK_STATE_STORE_OK, Some v') →
  view_typed (ss_descriptor st) v' tick (ss_state_size st) → separate (ss_descriptor st) v' →
  cxpr_bulk_validate (Some (ss_descriptor st)) (Some v') = Done CXPR_BULK_OK →
  covered (ss_descriptor st) v' (ss_state_size st) (mk_memory vs states) →
  ∃ m', cxpr_bulk_run (Some (ss_descriptor st)) (Some v') (mk_memory vs states) = Done (CXPR_BULK_OK, m') ∧
    store_ok (with_states st (bm_states m')) ∧
    ∀ k id block, agents st !! k = Some (id, block) →
      let n := Z.to_nat (ss_state_size st) in
      agents (with_states st (bm_states m')) !! k = Some (id,
        (tick (take n block) (inputs_at (ss_descriptor st) v' (mk_memory vs states) (Z.of_nat k))
              (params_at (ss_descriptor st) v' (mk_memory vs states))).1 ++ drop n block).
Proof.
  intros Hok Es Hbind Htyped Hsep Hvalid Hcov.
  destruct (bind_view_fields _ _ _ Hbind) as (Hs & Hw & Hn). rewrite Es in Hs. simpl in Hs. clear Hbind.
  pose proof (so_count _ Hok) as Hc. pose proof (so_states _ Hok) as Hst. rewrite Es in Hst.
  destruct (run_range_ticks _ _ _ _ Htyped Hsep Hvalid (mk_memory vs states) 0 (ss_count st) Hcov)
    as (m' & Hrun & HT); [lia..|].
  exists m'. pose proof (et_length _ _ _ _ _ _ _ HT) as Hlen. simpl in Hlen. split_and!.
  - unfold cxpr_bulk_run. simpl. by rewrite Hn.
  - destruct Hok. split; try done. simpl. by rewrite Hlen.
  - intros k id block Hk n. unfold agents in *. rewrite lookup_zip_with in *.
    unfold agent_ids in *. simpl. destruct (ss_ids st) as [ids|] eqn:Ei; [|done].
    destruct (take _ ids !! k) as [x|] eqn:Hx; [|done]. simpl in *.
    assert (Hlt : (k < Z.to_nat (ss_count st))%nat) by (apply lookup_lt_Some in Hx; rewrite length_take in Hx; lia).
    unfold agent_blocks in *. simpl. rewrite Es in Hk.
    rewrite lookup_blocks_of in Hk |- * by done. simplify_eq/=. do 2 f_equal.
    destruct m' as [vs' states']. simpl in *.
    rewrite (bound_block st v' states' vs' k Hok Hs Hw). pose proof (padding_kept st v' tick vs states _ k Hok Hs Hw HT) as Hpad. simpl in Hpad. rewrite Hpad.
    rewrite (et_states _ _ _ _ _ _ _ HT) by (unfold in_range; lia). unfold ticked.
    rewrite (bound_block st v' states vs k Hok Hs Hw).
    assert (Hl : length (state_at v' (ss_state_size st) (mk_memory vs states) (Z.of_nat k)) = n).
    { eapply length_state_at; [exact Htyped|by eapply validate_ok; [apply Htyped|]|done|unfold element; lia]. }
    by rewrite take_app_length', drop_app_length' by done.
Qed.
