(* ===== verification/BulkSnapshot.v ===== *)
(** * BulkSnapshot: saved state blocks of a bulk view
    ([src/bulk_snapshot.c])

    A snapshot is a block of bytes: a header of 56 bytes (magic, versions, a
    hash of the model's layout, sizes and a checksum) and the elements' active
    state bytes.  Integers are written byte by byte, least significant first. *)

From Stdlib Require Import Ascii String ZArith Lia.
From stdpp Require Import base list strings gmap.
From S2P Require Import Prelude Float64 Types Memory Bulk BulkStore.
Local Open Scope run_scope.
Local Open Scope Z_scope.

Definition CXPR_BULK_SNAPSHOT_FORMAT_VERSION : Z := 1.
Definition CXPR_BULK_SNAPSHOT_HEADER_SIZE : Z := 56.

(** [{'C', 'X', 'P', 'R', 'B', 'S', 'N', 'P'}] *)
Definition cxpr_bulk_snapshot_magic : list Z := [67; 88; 80; 82; 66; 83; 78; 80].

Inductive cxpr_bulk_snapshot_status : Type :=
  | CXPR_BULK_SNAPSHOT_OK
  | CXPR_BULK_SNAPSHOT_INVALID_ARGUMENT
  | CXPR_BULK_SNAPSHOT_INVALID_DESCRIPTOR
  | CXPR_BULK_SNAPSHOT_INVALID_FORMAT
  | CXPR_BULK_SNAPSHOT_UNSUPPORTED_VERSION
  | CXPR_BULK_SNAPSHOT_LAYOUT_MISMATCH
  | CXPR_BULK_SNAPSHOT_ELEMENT_COUNT_MISMATCH
  | CXPR_BULK_SNAPSHOT_STATE_STRIDE_TOO_SMALL
  | CXPR_BULK_SNAPSHOT_CHECKSUM_MISMATCH
  | CXPR_BULK_SNAPSHOT_ALLOCATION_FAILED.

(** [None] stands for NULL. *)
Record cxpr_bulk_snapshot : Type := mk_snapshot {
  bs_data : option (list Z);
  bs_size : Z
}.

Definition cxpr_bulk_snapshot_status_message (status : cxpr_bulk_snapshot_status) : string :=
  match status with
  | CXPR_BULK_SNAPSHOT_OK => "bulk snapshot is valid"
  | CXPR_BULK_SNAPSHOT_INVALID_ARGUMENT => "invalid bulk snapshot argument"
  | CXPR_BULK_SNAPSHOT_INVALID_DESCRIPTOR => "invalid generated model descriptor"
  | CXPR_BULK_SNAPSHOT_INVALID_FORMAT => "invalid bulk snapshot format"
  | CXPR_BULK_SNAPSHOT_UNSUPPORTED_VERSION => "unsupported bulk snapshot version"
  | CXPR_BULK_SNAPSHOT_LAYOUT_MISMATCH => "bulk snapshot model layout does not match"
  | CXPR_BULK_SNAPSHOT_ELEMENT_COUNT_MISMATCH => "bulk snapshot element count does not match"
  | CXPR_BULK_SNAPSHOT_STATE_STRIDE_TOO_SMALL => "bulk snapshot state stride is too small"
  | CXPR_BULK_SNAPSHOT_CHECKSUM_MISMATCH => "bulk snapshot checksum does not match"
  | CXPR_BULK_SNAPSHOT_ALLOCATION_FAILED => "bulk snapshot allocation failed"
  end.

(** ** Integers as bytes *)

(** [(unsigned char)(value >> (i * 8))] *)
Definition byte_of (value : Z) (i : nat) : Z := Z.land (Z.shiftr value (8 * Z.of_nat i)) 255.

Definition le_bytes (n : nat) (value : Z) : list Z := byte_of value <$> seq 0 n.
Definition u32_le (value : Z) : list Z := le_bytes 4 value.
Definition u64_le (value : Z) : list Z := le_bytes 8 value.

Definition write_u32_le (data : list Z) (offset value : Z) : run (list Z) :=
  mem_write data offset (u32_le value).
Definition write_u64_le (data : list Z) (offset value : Z) : run (list Z) :=
  mem_write data offset (u64_le value).

(** [value |= src[i] << (i * 8)] for the bytes from place [i] on *)
Fixpoint le_value (value : Z) (i : nat) (bytes : list Z) {struct bytes} : Z :=
  match bytes with
  | [] => value
  | b :: bytes => le_value (Z.lor value (Z.shiftl b (8 * Z.of_nat i))) (S i) bytes
  end.

Definition read_u32_le (data : list Z) (offset : Z) : run Z :=
  let* bytes := mem_read data offset 4 in Done (le_value 0 0 bytes).
Definition read_u64_le (data : list Z) (offset : Z) : run Z :=
  let* bytes := mem_read data offset 8 in Done (le_value 0 0 bytes).

(** ** Hashes *)

Definition FNV_OFFSET : Z := 14695981039346656037.
Definition FNV_PRIME : Z := 1099511628211.

Definition hash_byte (hash b : Z) : Z := wrap64 (Z.lxor hash b * FNV_PRIME).
Definition hash_bytes (hash : Z) (bytes : list Z) : Z := foldl hash_byte hash bytes.
Definition hash_u64 (hash value : Z) : Z := hash_bytes hash (u64_le value).

Fixpoint string_bytes (s : string) : list Z :=
  match s with
  | EmptyString => []
  | String c s => ascii_code c :: string_bytes s
  end.

Definition hash_name (hash : Z) (name : string) : Z :=
  hash_bytes (hash_u64 hash (Z.of_nat (strlen name))) (string_bytes name).

Definition value_type_code (t : cxpr_generated_value_type) : Z :=
  match t with
  | CXPR_GENERATED_VALUE_UNKNOWN => 0
  | CXPR_GENERATED_VALUE_NUMBER => 1
  | CXPR_GENERATED_VALUE_BOOL => 2
  | CXPR_GENERATED_VALUE_INT64 => 3
  end.

(** The names and types of entries [i .. i + n - 1]; a NULL name is not
    reached in a valid descriptor. *)
Fixpoint hash_entries (hash : Z) (names : list (option string)) (types : list cxpr_generated_value_type)
    (i n : nat) {struct n} : run Z :=
  match n with
  | O => Done hash
  | S n =>
      match name_entry names i with
      | None => Undef
      | Some name =>
          hash_entries (hash_u64 (hash_name hash name) (value_type_code (type_entry types i)))
            names types (S i) n
      end
  end.

Definition descriptor_layout_hash (d : cxpr_generated_model_descriptor) (state_layout_id : Z) : run Z :=
  match gd_name d, gd_state_size d with
  | Some name, Some state_size =>
      let hash := hash_name FNV_OFFSET name in
      let hash := hash_u64 hash state_layout_id in
      let hash := hash_u64 hash (gd_abi_version d) in
      let hash := hash_u64 hash state_size in
      let hash := hash_u64 hash (gd_input_count d) in
      let* hash := hash_entries hash (gd_input_names d) (gd_input_types d) 0 (Z.to_nat (gd_input_count d)) in
      let hash := hash_u64 hash (gd_output_count d) in
      let* hash := hash_entries hash (gd_output_names d) (gd_output_types d) 0 (Z.to_nat (gd_output_count d)) in
      let hash := hash_u64 hash (gd_param_count d) in
      hash_entries hash (gd_param_names d) (gd_param_types d) 0 (Z.to_nat (gd_param_count d))
  | _, _ => Undef
  end.

Definition payload_checksum (bytes : list Z) : Z := hash_bytes FNV_OFFSET bytes.

(** ** Snapshots *)

(** [memcpy(payload + i * state_size, states + i * stride, state_size)] for
    elements [i .. i + n - 1] *)
Fixpoint save_blocks (data states : list Z) (state_size stride : Z) (i : Z) (n : nat) {struct n} : run (list Z) :=
  match n with
  | O => Done data
  | S n =>
      let* state := mem_read states (wrap64 (i * stride)) state_size in
      let* data := mem_write data (CXPR_BULK_SNAPSHOT_HEADER_SIZE + wrap64 (i * state_size)) state in
      save_blocks data states state_size stride (i + 1) n
  end.

(** [data + 0 .. data + 55], after the payload is in place *)
Definition write_header (d : cxpr_generated_model_descriptor) (state_layout_id state_size count payload_size : Z)
    (data : list Z) : run (list Z) :=
  let* data := mem_write data 0 cxpr_bulk_snapshot_magic in
  let* data := write_u32_le data 8 CXPR_BULK_SNAPSHOT_FORMAT_VERSION in
  let* data := write_u32_le data 12 CXPR_BULK_SNAPSHOT_HEADER_SIZE in
  let* data := write_u32_le data 16 (gd_abi_version d) in
  let* data := write_u32_le data 20 0 in
  let* layout := descriptor_layout_hash d state_layout_id in
  let* data := write_u64_le data 24 layout in
  let* data := write_u64_le data 32 state_size in
  let* data := write_u64_le data 40 count in
  let* payload := mem_read data CXPR_BULK_SNAPSHOT_HEADER_SIZE payload_size in
  write_u64_le data 48 (payload_checksum payload).

(** The state bytes of a view are inaccessible or too narrow. *)
Definition states_unusable (state_size : Z) (v : cxpr_bulk_view) : bool :=
  negb (state_size =? 0) && (negb (bv_states v) || (bv_state_stride v <? state_size)).

(** [out] is the caller's snapshot ([None] for a NULL argument); the result
    holds what it is after the call. *)
Definition cxpr_bulk_snapshot_create (descriptor : option cxpr_generated_model_descriptor)
    (state_layout_id : Z) (view : option cxpr_bulk_view) (states : list Z)
    (out : option cxpr_bulk_snapshot) (data_alloc : allocation)
    : run (cxpr_bulk_snapshot_status * option cxpr_bulk_snapshot) :=
  match view, out with
  | Some v, Some _ =>
      if state_layout_id =? 0 then Done (CXPR_BULK_SNAPSHOT_INVALID_ARGUMENT, out)
      else
        let cleared := Some (mk_snapshot None 0) in
        if negb (cxpr_generated_model_descriptor_abi_valid descriptor)
        then Done (CXPR_BULK_SNAPSHOT_INVALID_DESCRIPTOR, cleared)
        else
          match descriptor with
          | None => Undef
          | Some d =>
              match gd_state_size d with
              | None => Undef
              | Some state_size =>
                  let count := bv_element_count v in
                  if states_unusable state_size v
                  then Done (CXPR_BULK_SNAPSHOT_STATE_STRIDE_TOO_SMALL, cleared)
                  else if negb (state_size =? 0) && (SIZE_MAX / state_size <? count)
                  then Done (CXPR_BULK_SNAPSHOT_INVALID_ARGUMENT, cleared)
                  else
                    let payload_size := wrap64 (state_size * count) in
                    if SIZE_MAX - CXPR_BULK_SNAPSHOT_HEADER_SIZE <? payload_size
                    then Done (CXPR_BULK_SNAPSHOT_INVALID_ARGUMENT, cleared)
                    else
                      match data_alloc with
                      | None => Done (CXPR_BULK_SNAPSHOT_ALLOCATION_FAILED, cleared)
                      | Some junk =>
                          let size := CXPR_BULK_SNAPSHOT_HEADER_SIZE + payload_size in
                          let* data := save_blocks (fresh junk size) states state_size (bv_state_stride v) 0
                                         (if state_size =? 0 then 0 else Z.to_nat count) in
                          let* data := write_header d state_layout_id state_size count payload_size data in
                          Done (CXPR_BULK_SNAPSHOT_OK, Some (mk_snapshot (Some data) size))
                      end
              end
          end
  | _, _ => Done (CXPR_BULK_SNAPSHOT_INVALID_ARGUMENT, out)
  end.

(** [memcpy(states + i * stride, payload + i * state_size, state_size)] for
    elements [i .. i + n - 1] *)
Fixpoint load_blocks (data states : list Z) (state_size stride : Z) (i : Z) (n : nat) {struct n} : run (list Z) :=
  match n with
  | O => Done states
  | S n =>
      let* state := mem_read data (CXPR_BULK_SNAPSHOT_HEADER_SIZE + wrap64 (i * state_size)) state_size in
      let* states := mem_write states (wrap64 (i * stride)) state in
      load_blocks data states state_size stride (i + 1) n
  end.

(** The size, the magic and the header size are not a snapshot's.  The tests
    are made in this order, and the first that fails decides. *)
Definition format_invalid (data : list Z) (size : Z) : run bool :=
  if size <? CXPR_BULK_SNAPSHOT_HEADER_SIZE then Done true
  else
    let* magic := mem_read data 0 8 in
    if negb (bool_decide (magic = cxpr_bulk_snapshot_magic)) then Done true
    else
      let* header := read_u32_le data 12 in
      Done (negb (header =? CXPR_BULK_SNAPSHOT_HEADER_SIZE)).

Definition layout_differs (d : cxpr_generated_model_descriptor) (state_layout_id : Z) (data : list Z)
    : run bool :=
  let* abi := read_u32_le data 16 in
  if negb (abi =? gd_abi_version d) then Done true
  else
    let* stored := read_u64_le data 24 in
    let* layout := descriptor_layout_hash d state_layout_id in
    Done (negb (stored =? layout)).

(** The tests behind the header's format; [None] when all of them pass. *)
Definition restore_problem (d : cxpr_generated_model_descriptor) (state_layout_id state_size : Z)
    (data : list Z) (size : Z) (v : cxpr_bulk_view) : run (option cxpr_bulk_snapshot_status) :=
  let* version := read_u32_le data 8 in
  if negb (version =? CXPR_BULK_SNAPSHOT_FORMAT_VERSION)
  then Done (Some CXPR_BULK_SNAPSHOT_UNSUPPORTED_VERSION)
  else
    let* differs := layout_differs d state_layout_id data in
    if differs then Done (Some CXPR_BULK_SNAPSHOT_LAYOUT_MISMATCH)
    else
      let* stored_state_size := read_u64_le data 32 in
      let* stored_count := read_u64_le data 40 in
      if negb (stored_state_size =? state_size) then Done (Some CXPR_BULK_SNAPSHOT_LAYOUT_MISMATCH)
      else if negb (stored_count =? bv_element_count v)
      then Done (Some CXPR_BULK_SNAPSHOT_ELEMENT_COUNT_MISMATCH)
      else if states_unusable state_size v then Done (Some CXPR_BULK_SNAPSHOT_STATE_STRIDE_TOO_SMALL)
      else if negb (state_size =? 0) && (SIZE_MAX / state_size <? bv_element_count v)
      then Done (Some CXPR_BULK_SNAPSHOT_INVALID_FORMAT)
      else
        let expected := wrap64 (state_size * bv_element_count v) in
        if (SIZE_MAX - CXPR_BULK_SNAPSHOT_HEADER_SIZE <? expected) ||
           negb (size =? CXPR_BULK_SNAPSHOT_HEADER_SIZE + expected)
        then Done (Some CXPR_BULK_SNAPSHOT_INVALID_FORMAT)
        else
          let* checksum := read_u64_le data 48 in
          let* payload := mem_read data CXPR_BULK_SNAPSHOT_HEADER_SIZE expected in
          if negb (checksum =? payload_checksum payload)
          then Done (Some CXPR_BULK_SNAPSHOT_CHECKSUM_MISMATCH)
          else Done None.

(** The status and the view's state bytes after the call. *)
Definition cxpr_bulk_snapshot_restore (descriptor : option cxpr_generated_model_descriptor)
    (state_layout_id : Z) (snapshot : option cxpr_bulk_snapshot) (view : option cxpr_bulk_view)
    (states : list Z) : run (cxpr_bulk_snapshot_status * list Z) :=
  match snapshot, view with
  | Some (mk_snapshot (Some data) size), Some v =>
      if state_layout_id =? 0 then Done (CXPR_BULK_SNAPSHOT_INVALID_ARGUMENT, states)
      else if negb (cxpr_generated_model_descriptor_abi_valid descriptor)
      then Done (CXPR_BULK_SNAPSHOT_INVALID_DESCRIPTOR, states)
      else
        match descriptor with
        | None => Undef
        | Some d =>
            match gd_state_size d with
            | None => Undef
            | Some state_size =>
                let* invalid := format_invalid data size in
                if invalid then Done (CXPR_BULK_SNAPSHOT_INVALID_FORMAT, states)
                else
                  let* problem := restore_problem d state_layout_id state_size data size v in
                  match problem with
                  | Some status => Done (status, states)
                  | None =>
                      let* states := load_blocks data states state_size (bv_state_stride v) 0
                                       (if state_size =? 0 then 0 else Z.to_nat (bv_element_count v)) in
                      Done (CXPR_BULK_SNAPSHOT_OK, states)
                  end
            end
        end
  | _, _ => Done (CXPR_BULK_SNAPSHOT_INVALID_ARGUMENT, states)
  end.

Definition cxpr_bulk_snapshot_free (snapshot : option cxpr_bulk_snapshot) : option cxpr_bulk_snapshot :=
  match snapshot with Some _ => Some (mk_snapshot None 0) | None => None end.
