(* ===== verification/BulkSnapshotProofs.v ===== *)
(** * BulkSnapshotProofs: snapshots restore what was saved and reject what was
    changed

    Integers survive their bytes, the FNV-1a step is a bijection, and a restore
    accepts a block of bytes exactly when every field of its header is the
    model's and the checksum is the payload's; so it inverts a creation, and
    refuses a snapshot in which one byte has changed. *)

From Stdlib Require Import Ascii String ZArith Lia.
From stdpp Require Import base list strings gmap.
From S2P Require Import Prelude Float64 Types Memory Bulk BulkProofs BulkStore BulkSnapshot.
Local Open Scope run_scope.
Local Open Scope Z_scope.

(** ** Integers as bytes *)

Definition is_byte (b : Z) : Prop := 0 ≤ b < 256.

(** The number the bytes stand for. *)
Fixpoint le_sum (bytes : list Z) : Z :=
  match bytes with [] => 0 | b :: bytes => b + 256 * le_sum bytes end.

Lemma le_sum_bound bytes : Forall is_byte bytes → 0 ≤ le_sum bytes < 256 ^ Z.of_nat (length bytes).
Proof.
  induction 1 as [|b bytes Hb _ IH]; [done|]. cbn [le_sum length].
  rewrite Nat2Z.inj_succ, Z.pow_succ_r by lia. unfold is_byte in Hb. lia.
Qed.

Lemma lor_above value b n : 0 ≤ n → 0 ≤ value < 2 ^ n → Z.lor value (Z.shiftl b n) = value + b * 2 ^ n.
Proof.
  intros Hn Hv. rewrite <- Z.shiftl_mul_pow2 by done.
  assert (Hl : Z.land value (Z.shiftl b n) = 0).
  { apply Z.bits_inj'. intros k Hk. rewrite Z.land_spec, Z.bits_0.
    destruct (decide (k < n)); [by rewrite Z.shiftl_spec_low, andb_false_r|].
    rewrite <- (Z.mod_small value (2 ^ n)) by lia. rewrite Z.mod_pow2_bits_high by lia. done. }
  rewrite (Z.add_nocarry_lxor _ _ Hl). symmetry. by apply Z.lxor_lor.
Qed.

Lemma le_value_sum bytes value i :
  Forall is_byte bytes → 0 ≤ value < 2 ^ (8 * Z.of_nat i) →
  le_value value i bytes = value + 2 ^ (8 * Z.of_nat i) * le_sum bytes.
Proof.
  intros HF. revert value i. induction HF as [|b bytes Hb _ IH]; intros value i Hv; cbn [le_value le_sum]; [lia|].
  rewrite lor_above by lia.
  assert (He : 2 ^ (8 * Z.of_nat (S i)) = 256 * 2 ^ (8 * Z.of_nat i)).
  { rewrite Nat2Z.inj_succ, Z.mul_succ_r, Z.pow_add_r by lia. lia. }
  unfold is_byte in Hb. rewrite IH; rewrite He; nia.
Qed.

Lemma byte_of_div value i : 0 ≤ value → byte_of value i = value / 256 ^ Z.of_nat i mod 256.
Proof.
  intros Hv. unfold byte_of. change 255 with (Z.ones 8).
  rewrite Z.land_ones, Z.shiftr_div_pow2 by lia. rewrite Z.pow_mul_r by lia. done.
Qed.

Lemma le_bytes_S n value :
  0 ≤ value → le_bytes (S n) value = value mod 256 :: le_bytes n (value / 256).
Proof.
  intros Hv. unfold le_bytes. cbn [seq]. rewrite fmap_cons, <- fmap_S_seq, <- list_fmap_compose. f_equal.
  - rewrite byte_of_div by done. by rewrite Z.div_1_r.
  - apply list_fmap_ext. intros i x _. simpl. rewrite !byte_of_div by (done || apply Z.div_pos; lia).
    rewrite Nat2Z.inj_succ, Z.pow_succ_r by lia. by rewrite Z.div_div by lia.
Qed.

Lemma le_bytes_bytes n value : 0 ≤ value → Forall is_byte (le_bytes n value).
Proof.
  intros Hv. apply Forall_fmap, Forall_forall. intros i _. simpl. rewrite byte_of_div by done.
  apply Z.mod_pos_bound. lia.
Qed.

Lemma length_le_bytes n value : length (le_bytes n value) = n.
Proof. unfold le_bytes. by rewrite length_fmap, length_seq. Qed.

Lemma le_sum_bytes n value : 0 ≤ value < 256 ^ Z.of_nat n → le_sum (le_bytes n value) = value.
Proof.
  revert value. induction n as [|n IH]; intros value Hv; [cbn in *; lia|].
  rewrite Nat2Z.inj_succ, Z.pow_succ_r in Hv by lia.
  rewrite le_bytes_S by lia. cbn [le_sum]. rewrite IH.
  - pose proof (Z.div_mod value 256). lia.
  - split; [apply Z.div_pos; lia|]. apply Z.div_lt_upper_bound; lia.
Qed.

Lemma le_bytes_sum bytes : Forall is_byte bytes → le_bytes (length bytes) (le_sum bytes) = bytes.
Proof.
  induction 1 as [|b bytes Hb HF IH]; [done|]. pose proof (le_sum_bound _ HF) as Hs.
  cbn [length le_sum]. unfold is_byte in Hb. rewrite le_bytes_S by lia. f_equal.
  - rewrite (Z.mul_comm 256), Z_mod_plus_full. apply Z.mod_small. lia.
  - transitivity (le_bytes (length bytes) (le_sum bytes)); [|exact IH]. f_equal. rewrite (Z.mul_comm 256), Z.div_add by lia. rewrite Z.div_small by lia. lia.
Qed.

(** Reading gives a value exactly when the bytes are the ones filled for it. *)
Lemma le_value_iff bytes n value :
  Forall is_byte bytes → length bytes = n → 0 ≤ value < 256 ^ Z.of_nat n →
  le_value 0 0 bytes = value ↔ bytes = le_bytes n value.
Proof.
  intros HF <- Hv. rewrite le_value_sum by (done || lia). rewrite Z.add_0_l, Z.mul_1_l. split.
  - intros <-. by rewrite le_bytes_sum.
  - intros ->. by apply le_sum_bytes.
Qed.

(** ** The hash *)

Definition is_word (h : Z) : Prop := 0 ≤ h < 2 ^ 64.

(** The inverse of the prime modulo [2 ^ 64]. *)
Definition FNV_INVERSE : Z := 14886173955864302971.

Lemma prime_invertible x y :
  is_word x → is_word y → wrap64 (x * FNV_PRIME) = wrap64 (y * FNV_PRIME) → x = y.
Proof.
  unfold is_word, wrap64. intros Hx Hy He.
  rewrite <- (Z.mod_small x (2 ^ 64)), <- (Z.mod_small y (2 ^ 64)) by done.
  assert (Hinv : (FNV_PRIME * FNV_INVERSE) mod 2 ^ 64 = 1) by (vm_compute; reflexivity).
  rewrite <- (Z.mul_1_r x), <- (Z.mul_1_r y), <- Hinv, !Zmult_mod_idemp_r, !Z.mul_assoc.
  by rewrite <- (Zmult_mod_idemp_l (x * FNV_PRIME)), He, Zmult_mod_idemp_l.
Qed.

Lemma word_high h n : is_word h → 64 ≤ n → Z.testbit h n = false.
Proof.
  intros Hh Hn. unfold is_word in Hh. rewrite <- (Z.mod_small h (2 ^ 64)) by done.
  by apply Z.mod_pow2_bits_high.
Qed.

Lemma lxor_word h b : is_word h → is_word b → is_word (Z.lxor h b).
Proof.
  intros Hh Hb. unfold is_word. assert (0 ≤ Z.lxor h b) by (apply Z.lxor_nonneg; unfold is_word in *; lia).
  split; [done|]. destruct (decide (Z.lxor h b = 0)) as [->|]; [lia|]. apply Z.log2_lt_pow2; [lia|].
  apply Z.nle_gt. intros Hle. assert (Z.testbit (Z.lxor h b) (Z.log2 (Z.lxor h b)) = true) as Ht
    by (apply Z.bit_log2; lia). rewrite Z.lxor_spec, !word_high in Ht by done. done.
Qed.

Lemma byte_word b : is_byte b → is_word b.
Proof. unfold is_byte, is_word. lia. Qed.

Lemma hash_byte_word h b : is_word (hash_byte h b).
Proof. apply wrap64_range. Qed.

Lemma lxor_cancel_r a b c : Z.lxor a c = Z.lxor b c → a = b.
Proof.
  intros He. rewrite <- (Z.lxor_0_r a), <- (Z.lxor_0_r b), <- (Z.lxor_nilpotent c).
  by rewrite <- !Z.lxor_assoc, He.
Qed.

Lemma hash_byte_inj h h' b b' :
  is_word h → is_word h' → is_byte b → is_byte b' → hash_byte h b = hash_byte h' b' →
  Z.lxor h b = Z.lxor h' b'.
Proof. intros. apply prime_invertible; [by apply lxor_word, byte_word..|done]. Qed.

Lemma hash_bytes_word h bytes : is_word h → is_word (hash_bytes h bytes).
Proof. revert h. induction bytes as [|b bytes IH]; intros h Hh; [done|]. apply IH, hash_byte_word. Qed.

Lemma hash_bytes_inj h h' bytes :
  is_word h → is_word h' → Forall is_byte bytes → hash_bytes h bytes = hash_bytes h' bytes → h = h'.
Proof.
  intros Hh Hh' HF. revert h h' Hh Hh'. induction HF as [|b bytes Hb _ IH]; intros h h' Hh Hh' He; [done|].
  apply (lxor_cancel_r _ _ b), hash_byte_inj; try done. apply IH; [apply hash_byte_word..|done].
Qed.

(** Changing one byte changes the hash. *)
Lemma hash_bytes_change h bytes k b b' :
  is_word h → Forall is_byte bytes → is_byte b' → bytes !! k = Some b → b ≠ b' →
  hash_bytes h (<[k := b']> bytes) ≠ hash_bytes h bytes.
Proof.
  intros Hh HF Hb' Hk Hne He. revert h k Hh Hk He.
  induction HF as [|x bytes Hx HF IH]; intros h [|k] Hh Hk He; simplify_eq/=.
  - apply hash_bytes_inj in He; [|apply hash_byte_word..|done].
    apply hash_byte_inj in He; try done. rewrite !(Z.lxor_comm h) in He. by apply lxor_cancel_r in He.
  - by apply (IH _ k (hash_byte_word h x) Hk).
Qed.

(** ** The layout hash of a valid descriptor *)

Lemma hash_u64_word h value : is_word h → is_word (hash_u64 h value).
Proof. apply hash_bytes_word. Qed.

Lemma hash_name_word h name : is_word h → is_word (hash_name h name).
Proof. intros. by apply hash_bytes_word, hash_u64_word. Qed.

Lemma entries_valid_names names types count k :
  entries_valid names types count = true → (k < Z.to_nat count)%nat → is_Some (name_entry names k).
Proof.
  unfold entries_valid. rewrite forallb_forall. intros HF Hk. specialize (HF k).
  rewrite in_seq in HF. specialize (HF ltac:(lia)). unfold entry_valid in HF.
  by destruct (name_entry names k).
Qed.

Lemma hash_entries_done names types n h i :
  (∀ k, (i ≤ k < i + n)%nat → is_Some (name_entry names k)) → is_word h →
  ∃ h', hash_entries h names types i n = Done h' ∧ is_word h'.
Proof.
  revert h i. induction n as [|n IH]; intros h i Hn Hh; cbn [hash_entries]; [by exists h|].
  destruct (Hn i) as [name ->]; [lia|]. apply IH; [intros; apply Hn; lia|].
  by apply hash_u64_word, hash_name_word.
Qed.

Lemma abi_valid_fields d :
  cxpr_generated_model_descriptor_abi_valid (Some d) = true →
  gd_abi_version d = 5 ∧ is_Some (gd_name d) ∧ is_Some (gd_state_size d) ∧
  entries_valid (gd_input_names d) (gd_input_types d) (gd_input_count d) = true ∧
  entries_valid (gd_output_names d) (gd_output_types d) (gd_output_count d) = true ∧
  entries_valid (gd_param_names d) (gd_param_types d) (gd_param_count d) = true.
Proof.
  unfold cxpr_generated_model_descriptor_abi_valid. case_match eqn:E; [done|].
  rewrite !orb_false_iff, !negb_false_iff, !bool_decide_eq_true, Z.eqb_eq in E.
  rewrite !andb_true_iff. unfold CXPR_GENERATED_MODEL_ABI_VERSION in *. tauto.
Qed.

Lemma layout_hash_done d id :
  cxpr_generated_model_descriptor_abi_valid (Some d) = true →
  ∃ h, descriptor_layout_hash d id = Done h ∧ is_word h.
Proof.
  intros Hv. apply abi_valid_fields in Hv as (_ & [name Hname] & [size Hsize] & Hi & Ho & Hp).
  unfold descriptor_layout_hash. rewrite Hname, Hsize.
  assert (H0 : is_word FNV_OFFSET) by (unfold is_word, FNV_OFFSET; lia).
  match goal with |- context [hash_entries ?h0 (gd_input_names d)] =>
    destruct (hash_entries_done (gd_input_names d) (gd_input_types d) (Z.to_nat (gd_input_count d)) h0 0)
      as (h1 & -> & Hw1) end.
  { intros k Hk. by eapply entries_valid_names; [exact Hi|lia]. }
  { by repeat first [apply hash_u64_word|apply hash_name_word]. }
  cbn [run_bind].
  destruct (hash_entries_done (gd_output_names d) (gd_output_types d) (Z.to_nat (gd_output_count d))
    (hash_u64 h1 (gd_output_count d)) 0) as (h2 & -> & Hw2);
    [intros k Hk; by eapply entries_valid_names; [exact Ho|lia]|by apply hash_u64_word|].
  cbn [run_bind]. apply hash_entries_done; [|by apply hash_u64_word].
  intros k Hk. by eapply entries_valid_names; [exact Hp|lia].
Qed.

(** ** Copies of blocks *)

(** Block [k] of [size] cells goes from [sbase + k * sw] to [dbase + k * dw],
    for the blocks [i .. i + n - 1]. *)
Fixpoint copy_blocks (src dst : list Z) (sbase sw dbase dw size i n : nat) {struct n} : list Z :=
  match n with
  | O => dst
  | S n =>
      copy_blocks src (list_inserts (dbase + i * dw) (cells_at src (sbase + i * sw) size) dst)
        sbase sw dbase dw size (S i) n
  end.

Lemma length_copy_blocks src dst sbase sw dbase dw size i n :
  length (copy_blocks src dst sbase sw dbase dw size i n) = length dst.
Proof. revert dst i. induction n as [|n IH]; intros dst i; [done|]. simpl. by rewrite IH, length_inserts. Qed.

(** Byte [j] is not in a target block. *)
Definition outside_blocks (dbase dw size i n j : nat) : Prop :=
  ∀ k, (i ≤ k < i + n)%nat → (j < dbase + k * dw ∨ dbase + k * dw + size ≤ j)%nat.

Lemma copy_blocks_other src dst sbase sw dbase dw size i n j :
  (∀ k, (i ≤ k < i + n)%nat → (sbase + k * sw + size ≤ length src)%nat) →
  (∀ k, (i ≤ k < i + n)%nat → (dbase + k * dw + size ≤ length dst)%nat) →
  outside_blocks dbase dw size i n j →
  copy_blocks src dst sbase sw dbase dw size i n !! j = dst !! j.
Proof.
  revert dst i. induction n as [|n IH]; intros dst i Hs Hd Hj; [done|]. simpl.
  assert (Hl : length (cells_at src (sbase + i * sw) size) = size) by (apply length_cells_at, Hs; lia).
  rewrite IH.
  - rewrite lookup_inserts by (rewrite Hl; apply Hd; lia). rewrite Hl.
    specialize (Hj i ltac:(lia)). case_decide; [lia|done].
  - intros k Hk. apply Hs. lia.
  - intros k Hk. rewrite length_inserts. apply Hd. lia.
  - intros k Hk. apply Hj. lia.
Qed.

Lemma copy_blocks_same src dst sbase sw dbase dw size i n k :
  (∀ k, (i ≤ k < i + n)%nat → (sbase + k * sw + size ≤ length src)%nat) →
  (∀ k, (i ≤ k < i + n)%nat → (dbase + k * dw + size ≤ length dst)%nat) →
  (size ≤ dw)%nat → (i ≤ k < i + n)%nat →
  cells_at (copy_blocks src dst sbase sw dbase dw size i n) (dbase + k * dw) size =
    cells_at src (sbase + k * sw) size.
Proof.
  revert dst i. induction n as [|n IH]; intros dst i Hs Hd Hw Hk; [lia|]. simpl.
  assert (Hl : length (cells_at src (sbase + i * sw) size) = size) by (apply length_cells_at, Hs; lia).
  assert (Hs' : ∀ k, (S i ≤ k < S i + n)%nat → (sbase + k * sw + size ≤ length src)%nat) by (intros; apply Hs; lia).
  set (dst' := list_inserts _ _ _).
  assert (Hd' : ∀ k, (S i ≤ k < S i + n)%nat → (dbase + k * dw + size ≤ length dst')%nat).
  { intros. unfold dst'. rewrite length_inserts. apply Hd. lia. }
  destruct (decide (k = i)) as [->|Hne]; [|apply IH; try done; lia].
  transitivity (cells_at dst' (dbase + i * dw) size).
  - apply list_eq. intros x. destruct (decide (x < size)%nat) as [Hx|Hx].
    + rewrite !lookup_cells_at by done. apply copy_blocks_other; try done. intros k' Hk'. nia.
    + unfold cells_at. rewrite !lookup_ge_None_2; [done|rewrite length_take; lia..].
  - rewrite <- Hl at 1. apply cells_at_inserts_same. rewrite Hl. apply Hd. lia.
Qed.

Lemma exact_index i w bound :
  0 ≤ w → (i * Z.to_nat w ≤ bound)%nat → Z.of_nat bound ≤ SIZE_MAX →
  wrap64 (Z.of_nat i * w) = Z.of_nat (i * Z.to_nat w).
Proof. intros Hw Hi Hb. unfold wrap64, SIZE_MAX in *. rewrite Z.mod_small; nia. Qed.

Lemma save_blocks_copy data states size stride i n :
  0 ≤ size → 0 ≤ stride → Z.of_nat (length data) ≤ SIZE_MAX → Z.of_nat (length states) ≤ SIZE_MAX →
  (∀ k, (i ≤ k < i + n)%nat → (0 + k * Z.to_nat stride + Z.to_nat size ≤ length states)%nat) →
  (∀ k, (i ≤ k < i + n)%nat → (56 + k * Z.to_nat size + Z.to_nat size ≤ length data)%nat) →
  save_blocks data states size stride (Z.of_nat i) n =
    Done (copy_blocks states data 0 (Z.to_nat stride) 56 (Z.to_nat size) (Z.to_nat size) i n).
Proof.
  intros Hz Hw Hld Hls. revert data i Hld. induction n as [|n IH]; intros data i Hld Hs Hd; [done|].
  cbn [save_blocks copy_blocks]. pose proof (Hs i ltac:(lia)) as Hsi. pose proof (Hd i ltac:(lia)) as Hdi.
  rewrite (exact_index i stride (length states)), (exact_index i size (length data)) by (done || lia).
  replace size with (Z.of_nat (Z.to_nat size)) at 1 by lia. rewrite mem_read_at by lia. cbn [run_bind].
  replace (CXPR_BULK_SNAPSHOT_HEADER_SIZE + Z.of_nat (i * Z.to_nat size))
    with (Z.of_nat (56 + i * Z.to_nat size)) by (unfold CXPR_BULK_SNAPSHOT_HEADER_SIZE; lia).
  rewrite mem_write_at by (rewrite length_cells_at; lia). cbn [run_bind].
  replace (Z.of_nat i + 1) with (Z.of_nat (S i)) by lia. apply IH.
  - by rewrite length_inserts.
  - intros k Hk. apply Hs. lia.
  - intros k Hk. rewrite length_inserts. apply Hd. lia.
Qed.

Lemma load_blocks_copy data states size stride i n :
  0 ≤ size → 0 ≤ stride → Z.of_nat (length data) ≤ SIZE_MAX → Z.of_nat (length states) ≤ SIZE_MAX →
  (∀ k, (i ≤ k < i + n)%nat → (56 + k * Z.to_nat size + Z.to_nat size ≤ length data)%nat) →
  (∀ k, (i ≤ k < i + n)%nat → (0 + k * Z.to_nat stride + Z.to_nat size ≤ length states)%nat) →
  load_blocks data states size stride (Z.of_nat i) n =
    Done (copy_blocks data states 56 (Z.to_nat size) 0 (Z.to_nat stride) (Z.to_nat size) i n).
Proof.
  intros Hz Hw Hld Hls Hd. revert states i Hls Hd. induction n as [|n IH]; intros states i Hls Hd Hs; [done|].
  cbn [load_blocks copy_blocks]. pose proof (Hs i ltac:(lia)) as Hsi. pose proof (Hd i ltac:(lia)) as Hdi.
  rewrite (exact_index i stride (length states)), (exact_index i size (length data)) by (done || lia).
  replace (CXPR_BULK_SNAPSHOT_HEADER_SIZE + Z.of_nat (i * Z.to_nat size))
    with (Z.of_nat (56 + i * Z.to_nat size)) by (unfold CXPR_BULK_SNAPSHOT_HEADER_SIZE; lia).
  replace size with (Z.of_nat (Z.to_nat size)) at 2 by lia. rewrite mem_read_at by lia. cbn [run_bind].
  rewrite mem_write_at by (rewrite length_cells_at; lia). cbn [run_bind].
  replace (Z.of_nat i + 1) with (Z.of_nat (S i)) by lia. apply IH.
  - by rewrite length_inserts.
  - intros k Hk. apply Hd. lia.
  - intros k Hk. rewrite length_inserts. apply Hs. lia.
Qed.

(** ** The header *)

(** The fields of a snapshot are those of the model and the view, and the
    checksum is the payload's. *)
Record snapshot_fields (d : cxpr_generated_model_descriptor) (layout size count : Z) (data : list Z) : Prop := {
  sf_length : Z.of_nat (length data) = 56 + size * count;
  sf_magic : cells_at data 0 8 = cxpr_bulk_snapshot_magic;
  sf_version : cells_at data 8 4 = u32_le 1;
  sf_header : cells_at data 12 4 = u32_le 56;
  sf_abi : cells_at data 16 4 = u32_le (gd_abi_version d);
  sf_layout : cells_at data 24 8 = u64_le layout;
  sf_size : cells_at data 32 8 = u64_le size;
  sf_count : cells_at data 40 8 = u64_le count;
  sf_checksum : cells_at data 48 8 = u64_le (payload_checksum (drop 56 data))
}.

Ltac solve_cells :=
  repeat first
    [ rewrite cells_at_inserts_other by (rewrite ?length_inserts, ?length_le_bytes; cbn [length]; lia)
    | lazymatch goal with
      | |- cells_at (list_inserts ?o ?c ?m) ?o ?n = ?c => apply (cells_at_inserts_same m o c)
      end ];
  rewrite ?length_inserts, ?length_le_bytes; cbn [length cxpr_bulk_snapshot_magic]; try lia; try done.

Lemma write_u32_at data off value :
  (off + 4 ≤ length data)%nat → write_u32_le data (Z.of_nat off) value = Done (list_inserts off (u32_le value) data).
Proof. intros. apply mem_write_at. unfold u32_le. by rewrite length_le_bytes. Qed.

Lemma write_u64_at data off value :
  (off + 8 ≤ length data)%nat → write_u64_le data (Z.of_nat off) value = Done (list_inserts off (u64_le value) data).
Proof. intros. apply mem_write_at. unfold u64_le. by rewrite length_le_bytes. Qed.

Lemma drop_56_inserts (data : list Z) off cells :
  (off + length cells ≤ 56)%nat → (56 ≤ length data)%nat → drop 56 (list_inserts off cells data) = drop 56 data.
Proof.
  intros Ho Hl. apply list_eq. intros k. rewrite !lookup_drop, lookup_inserts by lia. case_decide; [lia|done].
Qed.

Lemma write_header_fields d id layout size count p data :
  descriptor_layout_hash d id = Done layout → p = size * count → 0 ≤ p →
  Z.of_nat (length data) = 56 + p →
  ∃ data', write_header d id size count p data = Done data' ∧
    snapshot_fields d layout size count data' ∧ drop 56 data' = drop 56 data.
Proof.
  intros Hlay Hp Hp0 Hlen. unfold write_header.
  change 0 with (Z.of_nat 0) at 1. rewrite mem_write_at by (cbn [length cxpr_bulk_snapshot_magic]; lia). cbn [run_bind].
  change 8 with (Z.of_nat 8) at 1. rewrite write_u32_at by (rewrite ?length_inserts; lia). cbn [run_bind].
  change 12 with (Z.of_nat 12) at 1. rewrite write_u32_at by (rewrite ?length_inserts; lia). cbn [run_bind].
  change 16 with (Z.of_nat 16) at 1. rewrite write_u32_at by (rewrite ?length_inserts; lia). cbn [run_bind].
  change 20 with (Z.of_nat 20) at 1. rewrite write_u32_at by (rewrite ?length_inserts; lia). cbn [run_bind].
  rewrite Hlay. cbn [run_bind].
  change 24 with (Z.of_nat 24) at 1. rewrite write_u64_at by (rewrite ?length_inserts; lia). cbn [run_bind].
  change 32 with (Z.of_nat 32) at 1. rewrite write_u64_at by (rewrite ?length_inserts; lia). cbn [run_bind].
  change 40 with (Z.of_nat 40) at 1. rewrite write_u64_at by (rewrite ?length_inserts; lia). cbn [run_bind].
  set (filled := list_inserts 40 _ _).
  assert (Hw : length filled = length data) by (unfold filled; by rewrite !length_inserts).
  assert (Hpay : mem_read filled CXPR_BULK_SNAPSHOT_HEADER_SIZE p = Done (drop 56 filled)).
  { unfold mem_read. assert (Hb : in_block filled CXPR_BULK_SNAPSHOT_HEADER_SIZE p = true)
      by (apply in_block_spec; unfold CXPR_BULK_SNAPSHOT_HEADER_SIZE; lia).
    rewrite Hb. f_equal. apply take_ge. rewrite length_drop. unfold CXPR_BULK_SNAPSHOT_HEADER_SIZE. lia. }
  rewrite Hpay. cbn [run_bind]. change 48 with (Z.of_nat 48) at 1. rewrite write_u64_at by lia.
  assert (Hdrop : drop 56 filled = drop 56 data).
  { unfold filled. rewrite !drop_56_inserts;
      rewrite ?length_inserts; unfold u32_le, u64_le; rewrite ?length_le_bytes; cbn [length cxpr_bulk_snapshot_magic]; lia || done. }
  eexists. split; [done|]. split; cycle 1.
  { rewrite drop_56_inserts by (unfold u64_le; rewrite ?length_le_bytes; lia). done. }
  assert (Hsum : drop 56 (list_inserts 48 (u64_le (payload_checksum (drop 56 filled))) filled) = drop 56 filled).
  { apply drop_56_inserts; [unfold u64_le; rewrite length_le_bytes|]; lia. }
  split; rewrite ?Hsum; [rewrite length_inserts; lia|..]; clear Hsum Hdrop Hpay Hlay;
    unfold filled, u32_le, u64_le, CXPR_BULK_SNAPSHOT_FORMAT_VERSION, CXPR_BULK_SNAPSHOT_HEADER_SIZE in *;
    solve_cells.
Qed.

(** ** Restoring *)

Lemma cells_at_bytes data off n : Forall is_byte data → Forall is_byte (cells_at data off n).
Proof. intros. by apply Forall_take, Forall_drop. Qed.

Lemma field_test data off n value :
  Forall is_byte data → (off + n ≤ length data)%nat → 0 ≤ value < 256 ^ Z.of_nat n →
  (le_value 0 0 (cells_at data off n) =? value) = bool_decide (cells_at data off n = le_bytes n value).
Proof.
  intros HF Hl Hv. apply eq_bool_prop_intro.
  rewrite Is_true_true, Z.eqb_eq, bool_decide_spec. apply le_value_iff; [by apply cells_at_bytes| |done].
  by apply length_cells_at.
Qed.

Lemma read_u32_test data off value :
  Forall is_byte data → (off + 4 ≤ length data)%nat → 0 ≤ value < 2 ^ 32 →
  ∃ x, read_u32_le data (Z.of_nat off) = Done x ∧
    (x =? value) = bool_decide (cells_at data off 4 = u32_le value).
Proof.
  intros. eexists. split; [|by apply field_test]. unfold read_u32_le.
  change 4 with (Z.of_nat 4). by rewrite mem_read_at.
Qed.

Lemma read_u64_test data off value :
  Forall is_byte data → (off + 8 ≤ length data)%nat → 0 ≤ value < 2 ^ 64 →
  ∃ x, read_u64_le data (Z.of_nat off) = Done x ∧
    (x =? value) = bool_decide (cells_at data off 8 = u64_le value).
Proof.
  intros. eexists. split; [|by apply field_test]. unfold read_u64_le.
  change 8 with (Z.of_nat 8). by rewrite mem_read_at.
Qed.

(** The view's state bytes cover the blocks of its elements. *)
Definition states_held (v : cxpr_bulk_view) (size : Z) (states : list Z) : Prop :=
  Z.of_nat (length states) ≤ SIZE_MAX ∧
  (size ≠ 0 → bv_states v = true → ∀ k, (k < Z.to_nat (bv_element_count v))%nat →
     (0 + k * Z.to_nat (bv_state_stride v) + Z.to_nat size ≤ length states)%nat).

Definition block_count (v : cxpr_bulk_view) (size : Z) : nat :=
  if size =? 0 then 0 else Z.to_nat (bv_element_count v).

(** The state bytes after the payload's blocks are copied. *)
Definition restored (v : cxpr_bulk_view) (size : Z) (data states : list Z) : list Z :=
  copy_blocks data states 56 (Z.to_nat size) 0 (Z.to_nat (bv_state_stride v)) (Z.to_nat size) 0
    (block_count v size).

(** A test that fails: the status is an error. *)
Ltac refuse := left; split; [eexists; split; [reflexivity|discriminate]|].

Section restore.
Context (d : cxpr_generated_model_descriptor) (id layout size : Z) (v : cxpr_bulk_view).
Context (Habi : cxpr_generated_model_descriptor_abi_valid (Some d) = true).
Context (Hsize : gd_state_size d = Some size) (Hlayout : descriptor_layout_hash d id = Done layout).
Context (Hid : id ≠ 0) (Hz : in_size size) (Hn : in_size (bv_element_count v)).
Context (Hw : in_size (bv_state_stride v)).

Abbreviation fields := (snapshot_fields d layout size (bv_element_count v)).

Lemma format_test data :
  Forall is_byte data →
  format_invalid data (Z.of_nat (length data)) = Done true ∧ ¬ fields data ∨
  format_invalid data (Z.of_nat (length data)) = Done false ∧ (56 ≤ length data)%nat ∧
    cells_at data 0 8 = cxpr_bulk_snapshot_magic ∧ cells_at data 12 4 = u32_le 56.
Proof.
  intros HF. unfold format_invalid, CXPR_BULK_SNAPSHOT_HEADER_SIZE.
  destruct (Z.ltb_spec (Z.of_nat (length data)) 56) as [Hlt|Hge].
  { left. split; [done|]. intros [Hl _ _ _ _ _ _ _ _]. unfold in_size in *. nia. }
  assert (Hread : mem_read data 0 8 = Done (cells_at data 0 8)) by (apply (mem_read_at data 0 8); lia).
  rewrite Hread. cbn [run_bind].
  case_bool_decide as Hm; cbn [negb]; [|left; split; [done|]; by intros []].
  destruct (read_u32_test data 12 56) as (x & Hx & Ht); [done|lia|lia|].
  change (Z.of_nat 12) with 12 in Hx. rewrite Hx. cbn [run_bind]. rewrite Ht. case_bool_decide as Hh.
  - right. split_and!; try done. lia.
  - left. split; [done|]. by intros [].
Qed.

Lemma layout_test data :
  Forall is_byte data → (56 ≤ length data)%nat →
  layout_differs d id data = Done true ∧ ¬ fields data ∨
  layout_differs d id data = Done false ∧ cells_at data 16 4 = u32_le (gd_abi_version d) ∧
    cells_at data 24 8 = u64_le layout.
Proof.
  intros HF Hl. unfold layout_differs. pose proof (abi_valid_fields d Habi) as (Hv & _).
  destruct (layout_hash_done d id Habi) as (h & Hh & Hword). rewrite Hlayout in Hh. injection Hh as <-.
  destruct (read_u32_test data 16 (gd_abi_version d)) as (x & Hx & Ht); [done|lia|lia|].
  change (Z.of_nat 16) with 16 in Hx. rewrite Hx. cbn [run_bind]. rewrite Ht.
  case_bool_decide as Ha; cbn [negb]; [|left; split; [done|]; by intros []].
  destruct (read_u64_test data 24 layout) as (y & Hy & Hty); [done|lia|exact Hword|].
  change (Z.of_nat 24) with 24 in Hy. rewrite Hy, Hlayout. cbn [run_bind]. rewrite Hty.
  case_bool_decide as Hb; [by right|left; split; [done|]; by intros []].
Qed.

(** The payload's size as the code computes it. *)
Lemma payload_size_test (data : list Z) :
  Z.of_nat (length data) ≤ SIZE_MAX → (56 ≤ length data)%nat →
  let expected := wrap64 (size * bv_element_count v) in
  let rejected := (negb (size =? 0) && (SIZE_MAX / size <? bv_element_count v)) ||
    ((SIZE_MAX - CXPR_BULK_SNAPSHOT_HEADER_SIZE <? expected) ||
     negb (Z.of_nat (length data) =? CXPR_BULK_SNAPSHOT_HEADER_SIZE + expected)) in
  (rejected = false ↔ Z.of_nat (length data) = 56 + size * bv_element_count v) ∧
  (rejected = false → expected = size * bv_element_count v).
Proof.
  intros Hl Hl' expected rejected. subst expected rejected. unfold CXPR_BULK_SNAPSHOT_HEADER_SIZE, in_size in *.
  rewrite !orb_false_iff, andb_false_iff, !negb_false_iff, !Z.ltb_ge, !Z.eqb_eq.
  assert (Hexact : size * bv_element_count v ≤ SIZE_MAX →
    wrap64 (size * bv_element_count v) = size * bv_element_count v).
  { intros. unfold wrap64, SIZE_MAX in *. apply Z.mod_small. nia. }
  assert (Hdiv : size ≠ 0 → bv_element_count v ≤ SIZE_MAX / size ↔ size * bv_element_count v ≤ SIZE_MAX).
  { intros Hnz. rewrite <- !Z.nlt_ge, quotient_lt by lia. lia. }
  destruct (decide (size = 0)) as [->|Hnz].
  - rewrite Z.mul_0_l in *. change (wrap64 0) with 0. unfold SIZE_MAX in *. lia.
  - rewrite (Hdiv Hnz). split; [split|].
    + intros ([?|Hc] & Hc' & He); [done|]. by rewrite Hexact in He.
    + intros He. rewrite Hexact by lia. split; [right; lia|]. lia.
    + intros ([?|Hc] & Hc' & He); [done|]. by apply Hexact.
Qed.

Lemma restore_problem_test data :
  Forall is_byte data → Z.of_nat (length data) ≤ SIZE_MAX → (56 ≤ length data)%nat →
  cells_at data 0 8 = cxpr_bulk_snapshot_magic → cells_at data 12 4 = u32_le 56 →
  let accepted := fields data ∧ states_unusable size v = false in
  (∃ status, restore_problem d id size data (Z.of_nat (length data)) v = Done (Some status) ∧
     status ≠ CXPR_BULK_SNAPSHOT_OK) ∧ ¬ accepted ∨
  restore_problem d id size data (Z.of_nat (length data)) v = Done None ∧ accepted.
Proof.
  intros HF Hmax Hl Hmagic Hheader accepted. subst accepted. unfold restore_problem, CXPR_BULK_SNAPSHOT_FORMAT_VERSION.
  destruct (read_u32_test data 8 1) as (x & Hx & Ht); [done|lia|lia|].
  change (Z.of_nat 8) with 8 in Hx. rewrite Hx. cbn [run_bind]. rewrite Ht.
  case_bool_decide as Hver; cbn [negb]; [|refuse; by intros [[]]].
  destruct (layout_test data HF Hl) as [[-> Hno]|(-> & Habi' & Hlay')]; cbn [run_bind];
    [refuse; by intros []|].
  destruct (read_u64_test data 32 size) as (y & Hy & Hty); [done|lia|unfold in_size, SIZE_MAX in *; lia|].
  destruct (read_u64_test data 40 (bv_element_count v)) as (y' & Hy' & Hty');
    [done|lia|unfold in_size, SIZE_MAX in *; lia|].
  change (Z.of_nat 32) with 32 in Hy. change (Z.of_nat 40) with 40 in Hy'.
  rewrite Hy. cbn [run_bind]. rewrite Hy'. cbn [run_bind]. rewrite Hty.
  destruct (decide (cells_at data 32 8 = u64_le size)) as [Hs|Hs];
    [rewrite (bool_decide_true _ Hs)|rewrite (bool_decide_false _ Hs)]; cbn [negb]; [|refuse; by intros [[]]].
  rewrite Hty'. case_bool_decide as Hc; cbn [negb]; [|refuse; by intros [[]]].
  destruct (states_unusable size v) eqn:Hu; [refuse; by intros []|].
  destruct (payload_size_test data Hmax Hl) as [Hlen Hexact]. cbn zeta in Hlen, Hexact.
  destruct (negb (size =? 0) && _) eqn:E1; cbn [orb] in *; [refuse; intros [[Hf _ _ _ _ _ _ _ _] _]; by apply Hlen in Hf|].
  destruct (_ || _) eqn:E2; [refuse; intros [[Hf _ _ _ _ _ _ _ _] _]; by apply Hlen in Hf|].
  rewrite Hexact by done. pose proof (proj1 Hlen eq_refl) as Hl56. clear Hlen Hexact E1 E2.
  assert (Hpay : mem_read data CXPR_BULK_SNAPSHOT_HEADER_SIZE (size * bv_element_count v) = Done (drop 56 data)).
  { unfold mem_read, CXPR_BULK_SNAPSHOT_HEADER_SIZE, in_size in *.
    assert (Hb : in_block data 56 (size * bv_element_count v) = true) by (apply in_block_spec; nia).
    rewrite Hb. f_equal. apply take_ge. rewrite length_drop. lia. }
  destruct (read_u64_test data 48 (payload_checksum (drop 56 data))) as (z & Hzr & Htz); [done|lia| |].
  { apply hash_bytes_word. unfold is_word, FNV_OFFSET. lia. }
  change (Z.of_nat 48) with 48 in Hzr. rewrite Hzr. cbn [run_bind]. rewrite Hpay. cbn [run_bind]. rewrite Htz.
  case_bool_decide as Hk; cbn [negb]; [right|refuse; by intros [[]]].
  split; [done|]. split; [|done]. by split.
Qed.

(** A restore accepts a snapshot exactly when its fields are the model's and
    the view's states are usable; otherwise it changes nothing. *)
Lemma restore_decides data states :
  Forall is_byte data → Z.of_nat (length data) ≤ SIZE_MAX → states_held v size states →
  let accepted := fields data ∧ states_unusable size v = false in
  let result := cxpr_bulk_snapshot_restore (Some d) id
    (Some (mk_snapshot (Some data) (Z.of_nat (length data)))) (Some v) states in
  (∃ status, result = Done (status, states) ∧ status ≠ CXPR_BULK_SNAPSHOT_OK) ∧ ¬ accepted ∨
  result = Done (CXPR_BULK_SNAPSHOT_OK, restored v size data states) ∧ accepted.
Proof.
  intros HF Hmax [Hls Hheld] accepted result. subst result. unfold cxpr_bulk_snapshot_restore.
  destruct (Z.eqb_spec id 0); [done|]. rewrite Habi, Hsize. cbn [negb].
  destruct (format_test data HF) as [[-> Hno]|(-> & Hl & Hmagic & Hheader)]; cbn [run_bind].
  { refuse. by intros []. }
  destruct (restore_problem_test data HF Hmax Hl Hmagic Hheader) as [[(status & -> & Hne) Hno]|[-> Hacc]];
    cbn [run_bind]; [left; eauto|]. right. split; [|done]. destruct Hacc as [Hf Hu].
  fold (block_count v size). change 0 with (Z.of_nat 0) at 1. rewrite load_blocks_copy; [done| | |done..| |].
  - apply Hz.
  - apply Hw.
  - intros k Hk. pose proof (sf_length _ _ _ _ _ Hf) as Hlen. unfold block_count, in_size in *.
    destruct (Z.eqb_spec size 0); [lia|]. nia.
  - intros k Hk. unfold block_count, states_unusable in *. destruct (Z.eqb_spec size 0); [lia|]. simpl in Hu.
    rewrite orb_false_iff, negb_false_iff in Hu. apply Hheld; [done|apply Hu|lia].
Qed.
End restore.

(** ** Creating *)

Lemma mem_write_bytes data off cells data' :
  mem_write data off cells = Done data' → Forall is_byte data → Forall is_byte cells → Forall is_byte data'.
Proof.
  unfold mem_write. case_match eqn:E; [|done]. intros [= <-] Hd Hc. apply in_block_spec in E.
  rewrite inserts_app by lia. rewrite !Forall_app. split_and!; [by apply Forall_take|done|by apply Forall_drop].
Qed.

Lemma magic_bytes : Forall is_byte cxpr_bulk_snapshot_magic.
Proof. unfold cxpr_bulk_snapshot_magic, is_byte. repeat (constructor; [lia|]). constructor. Qed.

Lemma write_u32_bytes data off value data' :
  write_u32_le data off value = Done data' → 0 ≤ value → Forall is_byte data → Forall is_byte data'.
Proof. intros Hw Hv Hd. eapply mem_write_bytes; [exact Hw|done|by apply le_bytes_bytes]. Qed.

Lemma write_u64_bytes data off value data' :
  write_u64_le data off value = Done data' → 0 ≤ value → Forall is_byte data → Forall is_byte data'.
Proof. intros Hw Hv Hd. eapply mem_write_bytes; [exact Hw|done|by apply le_bytes_bytes]. Qed.

Lemma write_header_bytes d id size count p data data' :
  write_header d id size count p data = Done data' →
  cxpr_generated_model_descriptor_abi_valid (Some d) = true → 0 ≤ size → 0 ≤ count →
  Forall is_byte data → Forall is_byte data'.
Proof.
  intros Hrun Habi Hs Hc Hd. pose proof (abi_valid_fields d Habi) as (Hv & _).
  destruct (layout_hash_done d id Habi) as (h & Hh & Hword). unfold write_header in Hrun.
  apply run_bind_Done in Hrun as (d1 & H1 & Hrun). apply run_bind_Done in Hrun as (d2 & H2 & Hrun).
  apply run_bind_Done in Hrun as (d3 & H3 & Hrun). apply run_bind_Done in Hrun as (d4 & H4 & Hrun).
  apply run_bind_Done in Hrun as (d5 & H5 & Hrun). rewrite Hh in Hrun. cbn [run_bind] in Hrun.
  apply run_bind_Done in Hrun as (d6 & H6 & Hrun). apply run_bind_Done in Hrun as (d7 & H7 & Hrun).
  apply run_bind_Done in Hrun as (d8 & H8 & Hrun). apply run_bind_Done in Hrun as (payload & _ & H9).
  unfold is_word in Hword. eapply write_u64_bytes; [exact H9| |].
  { apply (hash_bytes_word FNV_OFFSET). unfold is_word, FNV_OFFSET. lia. }
  eapply write_u64_bytes; [exact H8|lia|]. eapply write_u64_bytes; [exact H7|lia|].
  eapply write_u64_bytes; [exact H6|lia|]. eapply write_u32_bytes; [exact H5|lia|].
  eapply write_u32_bytes; [exact H4|lia|]. eapply write_u32_bytes; [exact H3|by vm_compute|].
  eapply write_u32_bytes; [exact H2|by vm_compute|]. eapply mem_write_bytes; [exact H1|done|apply magic_bytes].
Qed.

Lemma copy_blocks_bytes src dst sbase sw dbase dw size i n :
  Forall is_byte src → Forall is_byte dst →
  (∀ k, (i ≤ k < i + n)%nat → (sbase + k * sw + size ≤ length src)%nat) →
  (∀ k, (i ≤ k < i + n)%nat → (dbase + k * dw + size ≤ length dst)%nat) →
  Forall is_byte (copy_blocks src dst sbase sw dbase dw size i n).
Proof.
  intros Hs. revert dst i. induction n as [|n IH]; intros dst i Hd Hi Hj; [done|]. simpl.
  pose proof (Hi i ltac:(lia)) as Hsi. pose proof (Hj i ltac:(lia)) as Hdi. apply IH.
  - rewrite inserts_app by (rewrite length_cells_at; lia). rewrite !Forall_app.
    split_and!; [by apply Forall_take|by apply cells_at_bytes|by apply Forall_drop].
  - intros k Hk. apply Hi. lia.
  - intros k Hk. rewrite length_inserts. apply Hj. lia.
Qed.

(** The blocks a snapshot of a view saves. *)
Definition saved_block (v : cxpr_bulk_view) (size : Z) (states : list Z) (k : nat) : list Z :=
  cells_at states (0 + k * Z.to_nat (bv_state_stride v)) (Z.to_nat size).

(** The allocator returns memory of bytes. *)
Definition byte_memory (junk : nat → Z) : Prop := ∀ n, is_byte (junk n).

Section create.
Context (d : cxpr_generated_model_descriptor) (id layout size : Z) (v : cxpr_bulk_view).
Context (Habi : cxpr_generated_model_descriptor_abi_valid (Some d) = true).
Context (Hsize : gd_state_size d = Some size) (Hlayout : descriptor_layout_hash d id = Done layout).
Context (Hid : id ≠ 0) (Hz : in_size size) (Hn : in_size (bv_element_count v)).
Context (Hw : in_size (bv_state_stride v)).

(** A creation fits: the payload and the header have a [size_t] size. *)
Definition snapshot_fits : Prop := 56 + size * bv_element_count v ≤ SIZE_MAX.

Lemma create_fields states out junk :
  states_unusable size v = false → snapshot_fits → states_held v size states →
  Forall is_byte states → byte_memory junk →
  ∃ data, cxpr_bulk_snapshot_create (Some d) id (Some v) states (Some out) (Some junk) =
      Done (CXPR_BULK_SNAPSHOT_OK, Some (mk_snapshot (Some data) (Z.of_nat (length data)))) ∧
    snapshot_fields d layout size (bv_element_count v) data ∧ Forall is_byte data ∧
    ∀ k, (k < block_count v size)%nat →
      cells_at data (56 + k * Z.to_nat size) (Z.to_nat size) = saved_block v size states k.
Proof.
  intros Hu Hfits [Hls Hheld] Hbytes Hjunk. unfold cxpr_bulk_snapshot_create, snapshot_fits in *.
  destruct (Z.eqb_spec id 0); [done|]. rewrite Habi, Hsize, Hu. cbn [negb].
  assert (Hexact : wrap64 (size * bv_element_count v) = size * bv_element_count v).
  { unfold wrap64, in_size, SIZE_MAX in *. apply Z.mod_small. nia. }
  rewrite Hexact. fold (block_count v size).
  assert (Hroom : negb (size =? 0) && (SIZE_MAX / size <? bv_element_count v) = false).
  { destruct (Z.eqb_spec size 0); [done|]. simpl. apply Z.ltb_ge, Z.nlt_ge. unfold in_size in *.
    rewrite quotient_lt by lia. lia. }
  rewrite Hroom. unfold CXPR_BULK_SNAPSHOT_HEADER_SIZE.
  destruct (Z.ltb_spec (SIZE_MAX - 56) (size * bv_element_count v)); [lia|].
  set (mem := fresh junk (56 + size * bv_element_count v)).
  assert (Hmem : Z.of_nat (length mem) = 56 + size * bv_element_count v).
  { unfold mem. rewrite length_fresh. unfold in_size in *. nia. }
  assert (Hsrc : ∀ k, (0 ≤ k < 0 + block_count v size)%nat →
    (0 + k * Z.to_nat (bv_state_stride v) + Z.to_nat size ≤ length states)%nat).
  { intros k Hk. unfold block_count, states_unusable in *. destruct (Z.eqb_spec size 0); [lia|]. simpl in Hu.
    rewrite orb_false_iff, negb_false_iff in Hu. apply Hheld; [done|apply Hu|lia]. }
  assert (Hdst : ∀ k, (0 ≤ k < 0 + block_count v size)%nat →
    (56 + k * Z.to_nat size + Z.to_nat size ≤ length mem)%nat).
  { intros k Hk. unfold block_count, in_size in *. destruct (Z.eqb_spec size 0); [lia|]. nia. }
  change 0 with (Z.of_nat 0) at 1.
  rewrite save_blocks_copy; [|apply Hz|apply Hw|lia|done..]. cbn [run_bind].
  set (saved := copy_blocks _ _ _ _ _ _ _ _ _).
  assert (Hsaved : length saved = length mem) by apply length_copy_blocks.
  destruct (write_header_fields d id layout size (bv_element_count v) _ saved Hlayout eq_refl)
    as (data & Hrun & Hf & Hdrop); [unfold in_size in *; nia|lia|].
  rewrite Hrun. cbn [run_bind]. exists data. split; [by rewrite (sf_length _ _ _ _ _ Hf)|]. split; [done|].
  split; [eapply write_header_bytes; [exact Hrun|done|apply Hz|apply Hn|]|].
  { apply copy_blocks_bytes; try done. apply Forall_fmap, Forall_forall. intros; apply Hjunk. }
  intros k Hk. unfold saved_block. rewrite <- (copy_blocks_same states mem 0 (Z.to_nat (bv_state_stride v)) 56
    (Z.to_nat size) (Z.to_nat size) 0 (block_count v size) k) by (done || lia). fold saved.
  unfold cells_at. by rewrite <- !(drop_drop _ _ 56), Hdrop.
Qed.
End create.

(** ** Saving and restoring *)

Section persistence.
Context (d : cxpr_generated_model_descriptor) (id size : Z).
Context (Habi : cxpr_generated_model_descriptor_abi_valid (Some d) = true).
Context (Hsize : gd_state_size d = Some size) (Hid : id ≠ 0) (Hz : in_size size).

(** A view whose states can be saved or restored. *)
Record usable_view (v : cxpr_bulk_view) (states : list Z) : Prop := {
  uv_count : in_size (bv_element_count v);
  uv_stride : in_size (bv_state_stride v);
  uv_usable : states_unusable size v = false;
  uv_held : states_held v size states
}.

Context (v : cxpr_bulk_view) (states : list Z) (out : cxpr_bulk_snapshot) (junk : nat → Z).
Context (Hv : usable_view v states) (Hfits : snapshot_fits size v).
Context (Hbytes : Forall is_byte states) (Hjunk : byte_memory junk).

(** C17: a snapshot restores what was saved: creating one of a view succeeds
    whenever memory is there and its size fits, and restoring it into any
    usable view of the same model with as many elements, whatever its stride
    and its contents, gives every element the state block it had and leaves
    every byte between the blocks alone. *)
Theorem snapshot_roundtrip v' states' :
  usable_view v' states' → bv_element_count v' = bv_element_count v →
  ∃ snapshot states'',
    cxpr_bulk_snapshot_create (Some d) id (Some v) states (Some out) (Some junk) =
      Done (CXPR_BULK_SNAPSHOT_OK, Some snapshot) ∧
    cxpr_bulk_snapshot_restore (Some d) id (Some snapshot) (Some v') states' =
      Done (CXPR_BULK_SNAPSHOT_OK, states'') ∧
    (∀ k, (k < block_count v size)%nat → saved_block v' size states'' k = saved_block v size states k) ∧
    (∀ j, outside_blocks 0 (Z.to_nat (bv_state_stride v')) (Z.to_nat size) 0 (block_count v' size) j →
       states'' !! j = states' !! j).
Proof.
  intros [Hn' Hw' Hu' Hh'] Hcount. destruct Hv as [Hn Hw Hu Hh].
  destruct (layout_hash_done d id Habi) as (layout & Hlay & _).
  destruct (create_fields d id layout size v Habi Hsize Hlay Hid Hz Hn Hw states out junk Hu Hfits Hh Hbytes Hjunk)
    as (data & Hcreate & Hf & Hdb & Hblocks).
  assert (Hmax : Z.of_nat (length data) ≤ SIZE_MAX) by (rewrite (sf_length _ _ _ _ _ Hf); exact Hfits).
  destruct (restore_decides d id layout size v' Habi Hsize Hlay Hid Hz Hn' Hw' data states' Hdb Hmax Hh')
    as [[_ Hno]|[Hrestore _]]; [destruct Hno; split; [by rewrite Hcount|done]|].
  eexists _, _. split; [exact Hcreate|]. split; [exact Hrestore|].
  assert (Hbc : block_count v' size = block_count v size) by (unfold block_count; by rewrite Hcount).
  assert (Hsrc : ∀ k, (0 ≤ k < 0 + block_count v' size)%nat → (56 + k * Z.to_nat size + Z.to_nat size ≤ length data)%nat).
  { intros k Hk. pose proof (sf_length _ _ _ _ _ Hf). unfold block_count, in_size in *.
    destruct (Z.eqb_spec size 0); [lia|]. nia. }
  assert (Hdst : ∀ k, (0 ≤ k < 0 + block_count v' size)%nat →
    (0 + k * Z.to_nat (bv_state_stride v') + Z.to_nat size ≤ length states')%nat ∧
    (Z.to_nat size ≤ Z.to_nat (bv_state_stride v'))%nat).
  { intros k Hk. unfold block_count, states_unusable in *. destruct (Z.eqb_spec size 0); [lia|]. simpl in Hu'.
    rewrite orb_false_iff, negb_false_iff, Z.ltb_ge in Hu'. split; [apply Hh'; [done|apply Hu'|lia]|lia]. }
  split.
  - intros k Hk. rewrite <- Hblocks by done. unfold saved_block, restored. rewrite Hbc in *.
    apply copy_blocks_same; [done|intros; by apply Hdst|apply (Hdst k); lia|lia].
  - intros j Hj. apply copy_blocks_other; [done|intros; by apply Hdst|done].
Qed.

(** A byte outside the reserved word decides one of the fields. *)
Lemma changed_fields layout n data k b b' :
  snapshot_fields d layout size n data → Forall is_byte data → is_byte b' →
  data !! k = Some b → b ≠ b' → (k < 20 ∨ 24 ≤ k)%nat →
  ¬ snapshot_fields d layout size n (<[k := b']> data).
Proof.
  intros Hf HF Hb' Hk Hne Hrange Hf'.
  assert (Hsame : ∀ off m, (off ≤ k < off + m)%nat →
    cells_at (<[k := b']> data) off m = cells_at data off m → False).
  { intros off m Hin He. apply (f_equal (.!! (k - off)%nat)) in He.
    rewrite !lookup_cells_at in He by lia. replace (off + (k - off))%nat with k in He by lia.
    rewrite list_lookup_insert_eq in He by (by eapply lookup_lt_Some). congruence. }
  destruct Hf as [? F0 F8 F12 F16 F24 F32 F40 F48], Hf' as [? G0 G8 G12 G16 G24 G32 G40 G48].
  destruct (decide (k < 56)%nat) as [Hlt|Hge].
  - rewrite drop_insert_lt in G48 by lia.
    destruct (decide (k < 8)%nat); [apply (Hsame 0 8)%nat; [lia|congruence]|].
    destruct (decide (k < 12)%nat); [apply (Hsame 8 4)%nat; [lia|congruence]|].
    destruct (decide (k < 16)%nat); [apply (Hsame 12 4)%nat; [lia|congruence]|].
    destruct (decide (k < 24)%nat); [apply (Hsame 16 4)%nat; [lia|congruence]|].
    destruct (decide (k < 32)%nat); [apply (Hsame 24 8)%nat; [lia|congruence]|].
    destruct (decide (k < 40)%nat); [apply (Hsame 32 8)%nat; [lia|congruence]|].
    destruct (decide (k < 48)%nat); [apply (Hsame 40 8)%nat; [lia|congruence]|].
    apply (Hsame 48 8)%nat; [lia|congruence].
  - assert (Hoff : is_word FNV_OFFSET) by (unfold is_word, FNV_OFFSET; lia).
    assert (Hcells : cells_at (<[k := b']> data) 48 8 = cells_at data 48 8).
    { unfold cells_at. apply list_eq. intros x. destruct (decide (x < 8)%nat).
      - rewrite !lookup_take_lt, !lookup_drop, list_lookup_insert_ne by lia. done.
      - rewrite !lookup_ge_None_2; rewrite ?length_take; lia || done. }
    rewrite G48, F48 in Hcells. unfold u64_le in Hcells. apply (f_equal le_sum) in Hcells.
    rewrite !le_sum_bytes in Hcells by (apply (hash_bytes_word _ _ Hoff)).
    rewrite drop_insert_ge in Hcells by lia. revert Hcells.
    apply (hash_bytes_change _ _ (k - 56) b b' Hoff); try done; [by apply Forall_drop|].
    rewrite lookup_drop. rewrite <- Hk. f_equal. lia.
Qed.

(** C18: a snapshot in which any one byte has changed, apart from the four
    reserved bytes of its header, is refused, and so is one that was cut or
    extended: the restore reports an error, reads nothing outside the bytes it
    is given and changes none of the view's states.  A changed payload byte is
    always caught by the checksum, because the hash step is a bijection. *)
Theorem snapshot_change_refused v' states' data data' :
  usable_view v' states' → bv_element_count v' = bv_element_count v →
  cxpr_bulk_snapshot_create (Some d) id (Some v) states (Some out) (Some junk) =
    Done (CXPR_BULK_SNAPSHOT_OK, Some (mk_snapshot (Some data) (Z.of_nat (length data)))) →
  (∃ k b b', data !! k = Some b ∧ is_byte b' ∧ b ≠ b' ∧ (k < 20 ∨ 24 ≤ k)%nat ∧ data' = <[k := b']> data) ∨
  (length data' ≠ length data ∧ Forall is_byte data' ∧ Z.of_nat (length data') ≤ SIZE_MAX) →
  ∃ status,
    cxpr_bulk_snapshot_restore (Some d) id
      (Some (mk_snapshot (Some data') (Z.of_nat (length data')))) (Some v') states' = Done (status, states') ∧
    status ≠ CXPR_BULK_SNAPSHOT_OK.
Proof.
  intros [Hn' Hw' Hu' Hh'] Hcount Hcreate Hchange. destruct Hv as [Hn Hw Hu Hh].
  destruct (layout_hash_done d id Habi) as (layout & Hlay & _).
  destruct (create_fields d id layout size v Habi Hsize Hlay Hid Hz Hn Hw states out junk Hu Hfits Hh Hbytes Hjunk)
    as (data0 & Hcreate0 & Hf & Hdb & _).
  rewrite Hcreate in Hcreate0. injection Hcreate0 as <- _.
  assert (Hmax : Z.of_nat (length data) ≤ SIZE_MAX) by (rewrite (sf_length _ _ _ _ _ Hf); exact Hfits).
  assert (Hbad : Forall is_byte data' ∧ Z.of_nat (length data') ≤ SIZE_MAX ∧
                 ¬ snapshot_fields d layout size (bv_element_count v) data').
  { destruct Hchange as [(k & b & b' & Hk & Hb & Hne & Hr & ->)|(Hl & HF & Hm)].
    - split_and!; [by apply Forall_insert|by rewrite length_insert|by eapply changed_fields].
    - split_and!; [done..|]. intros Hf'. pose proof (sf_length _ _ _ _ _ Hf). pose proof (sf_length _ _ _ _ _ Hf'). lia. }
  destruct Hbad as (HF & Hm & Hno). rewrite <- Hcount in Hno.
  destruct (restore_decides d id layout size v' Habi Hsize Hlay Hid Hz Hn' Hw' data' states' HF Hm Hh')
    as [[Hres _]|[_ [Hacc _]]]; [exact Hres|by destruct Hno].
Qed.
End persistence.
