(* ===== verification/BulkExamples.v ===== *)
(** * BulkExamples: a small generated model

    A model with two state bytes, one input and one output, run, stored and
    saved; the hypotheses of the theorems of the bulk files hold for it. *)

From Stdlib Require Import Ascii String ZArith Lia Sorting.Sorted.
From stdpp Require Import base list strings gmap.
From S2P Require Import Prelude Float64 Types Memory Bulk BulkProofs BulkStore BulkStoreProofs BulkSnapshot BulkSnapshotProofs.
Local Open Scope run_scope.
Local Open Scope Z_scope.

(** Counts its ticks in the first byte and returns its input. *)
Definition counter_tick : cxpr_generated_tick_fn := λ state inputs _,
  (match state with s :: rest => (s + 1) mod 256 :: rest | [] => [] end, inputs ++ [VNull]).

(** Keeps the first byte of a block and sets the second. *)
Definition counter_reset : cxpr_generated_reset_fn := λ state, <[1%nat := 9]> state.

Definition counter_model : cxpr_generated_model_descriptor :=
  mk_descriptor (Some "counter"%string) (Some counter_tick) (Some 2) 0
    [Some "x"%string] [CXPR_GENERATED_VALUE_NUMBER] 1
    [Some "y"%string] [CXPR_GENERATED_VALUE_NUMBER] 1 5 (Some counter_reset) [] [].

Definition counter_input : cxpr_bulk_column := mk_column (Some (0%nat, 0)) 1.
Definition counter_output : cxpr_bulk_column := mk_column (Some (1%nat, 0)) 1.

Definition counter_view (stride elements : Z) : cxpr_bulk_view :=
  mk_view (Some [counter_input]) 1 None 0 (Some [counter_output]) 1 true stride elements.

Definition counter_values : gmap cell cxpr_value :=
  list_to_map [((0%nat, 0), VBool true); ((0%nat, 1), VBool false); ((1%nat, 0), VNull); ((1%nat, 1), VNull)].

Definition counter_memory : bulk_memory := mk_memory counter_values (replicate 32 0).

Lemma counter_typed stride elements :
  in_size stride → in_size elements → view_typed counter_model (counter_view stride elements) counter_tick 2.
Proof.
  intros Hs He. split; try done; simpl.
  - repeat constructor; done.
  - intros state inputs params Hl. rewrite length_app. simpl. split; [by destruct state|]. change (Pos.to_nat 1) with 1%nat. lia.
Qed.

Lemma counter_separate stride elements : separate counter_model (counter_view stride elements).
Proof.
  split.
  - intros [|j] c i [|j'] c' i' Hj Hj'; simpl in *; simplify_eq; unfold element_cell; simpl.
    intros _ _ He. simplify_eq. split; [done|lia].
  - intros c i c' i' Hc Hc' _ _. unfold input_columns, output_columns in *. simpl in *.
    apply list_elem_of_singleton in Hc as ->, Hc' as ->. done.
  - intros k c i Hk. simpl in Hk. lia.
Qed.

Lemma counter_covered stride states :
  16 ≤ stride → stride + 2 ≤ Z.of_nat (length states) ≤ SIZE_MAX →
  covered counter_model (counter_view stride 2) 2 (mk_memory counter_values states).
Proof.
  intros Hs Hl. split.
  - intros c i Hc Hi. unfold input_columns, element in *. simpl in *. apply list_elem_of_singleton in Hc as ->.
    unfold held, element_cell. simpl. eexists. split; [done|].
    assert (i = 0 ∨ i = 1) as [-> | ->] by lia; vm_compute; eauto.
  - intros c i Hc Hi. unfold output_columns, element in *. simpl in *. apply list_elem_of_singleton in Hc as ->.
    unfold held, element_cell. simpl. eexists. split; [done|].
    assert (i = 0 ∨ i = 1) as [-> | ->] by lia; vm_compute; eauto.
  - intros k Hk. simpl in Hk. lia.
  - intros _ i Hi. unfold element in Hi. simpl in *. nia.
  - simpl. lia.
Qed.

Lemma counter_valid : cxpr_bulk_validate (Some counter_model) (Some (counter_view 16 2)) = Done CXPR_BULK_OK.
Proof. vm_compute. reflexivity. Qed.

Lemma bulk_run_range_witness :
  ∃ m', cxpr_bulk_run_range (Some counter_model) (Some (counter_view 16 2)) 1 1 counter_memory =
      Done (CXPR_BULK_OK, m') ∧
    (∀ i, in_range 1 1 i → state_at (counter_view 16 2) 2 m' i =
       (ticked counter_model (counter_view 16 2) counter_tick 2 counter_memory i).1) ∧
    (∀ i j c a, in_range 1 1 i → output_columns counter_model (counter_view 16 2) !! j = Some c →
       element_cell c i = Some a → bm_values m' !! a =
       (ticked counter_model (counter_view 16 2) counter_tick 2 counter_memory i).2 !! j) ∧
    (∀ a, ¬ written counter_model (counter_view 16 2) (in_range 1 1) a →
       bm_values m' !! a = bm_values counter_memory !! a) ∧
    (∀ k, ¬ owned (counter_view 16 2) 2 (in_range 1 1) k → bm_states m' !! k = bm_states counter_memory !! k).
Proof.
  apply (bulk_run_range_correct counter_model (counter_view 16 2) counter_tick 2).
  - apply counter_typed; unfold in_size, SIZE_MAX; lia.
  - apply counter_separate.
  - exact counter_valid.
  - apply counter_covered; unfold SIZE_MAX; rewrite ?length_replicate; lia.
  - lia.
  - lia.
  - simpl. lia.
Defined.

Lemma bulk_ranges_commute_witness :
  ∃ m1 m2 m', cxpr_bulk_run_range (Some counter_model) (Some (counter_view 16 2)) 0 1 counter_memory =
      Done (CXPR_BULK_OK, m1) ∧
    cxpr_bulk_run_range (Some counter_model) (Some (counter_view 16 2)) 1 1 m1 = Done (CXPR_BULK_OK, m') ∧
    cxpr_bulk_run_range (Some counter_model) (Some (counter_view 16 2)) 1 1 counter_memory =
      Done (CXPR_BULK_OK, m2) ∧
    cxpr_bulk_run_range (Some counter_model) (Some (counter_view 16 2)) 0 1 m2 = Done (CXPR_BULK_OK, m').
Proof.
  apply (bulk_ranges_commute counter_model (counter_view 16 2) counter_tick 2).
  - apply counter_typed; unfold in_size, SIZE_MAX; lia.
  - apply counter_separate.
  - exact counter_valid.
  - apply counter_covered; unfold SIZE_MAX; rewrite ?length_replicate; lia.
  - lia.
  - lia.
  - lia.
  - lia.
  - simpl. lia.
Defined.

Lemma counter_reset_keeps state :
  length state = Z.to_nat 2 → length (reset_fn counter_model 2 state) = Z.to_nat 2.
Proof. intros Hl. change (length (<[1%nat := 9]> state) = Z.to_nat 2). by rewrite length_insert. Qed.

Lemma bulk_reset_range_witness :
  ∃ m', cxpr_bulk_reset_range (Some counter_model) (Some (counter_view 16 2)) 0 2 counter_memory =
      Done (CXPR_BULK_OK, m') ∧
    (∀ i, in_range 0 2 i → state_at (counter_view 16 2) 2 m' i =
       reset_fn counter_model 2 (state_at (counter_view 16 2) 2 counter_memory i)) ∧
    bm_values m' = bm_values counter_memory ∧
    (∀ k, ¬ owned (counter_view 16 2) 2 (in_range 0 2) k → bm_states m' !! k = bm_states counter_memory !! k).
Proof.
  apply (bulk_reset_range_correct counter_model (counter_view 16 2) 2); try (unfold in_size, SIZE_MAX; simpl; lia).
  - reflexivity.
  - apply counter_reset_keeps.
  - exact counter_valid.
  - apply counter_covered; unfold SIZE_MAX; rewrite ?length_replicate; lia.
Defined.

(** ** The population *)

Definition empty_store : cxpr_bulk_state_store := mk_state_store counter_model None None 2 16 0 0.

Definition memory_of_zeros : allocation := Some (λ _, 0).

Definition population_ops : list store_op :=
  [OpAdd 7 memory_of_zeros memory_of_zeros; OpAdd 3 None None; OpAdd 7 None None; OpRemove 9; OpAdd 5 None None;
   OpRemove 7].

Lemma counter_reset_in_block : reset_in_block counter_model 2.
Proof. intros reset state [= <-] Hl. unfold counter_reset. by rewrite length_insert. Qed.

Lemma state_store_refines_map_witness :
  ∃ statuses st', apply_ops empty_store population_ops = Done (statuses, st') ∧
    StronglySorted Z.lt (agent_ids st') ∧
    map_steps (initial_state counter_model 2 16) 16 ∅ population_ops statuses (agent_map st').
Proof.
  apply (state_store_refines_map counter_model 2 empty_store population_ops).
  - reflexivity.
  - unfold in_size, SIZE_MAX. lia.
  - apply counter_reset_in_block.
  - vm_compute. reflexivity.
Defined.

(** Two agents, added out of order. *)
Definition population : cxpr_bulk_state_store :=
  mk_state_store counter_model (Some [3; 5; 0; 0; 0; 0; 0; 0]) (Some (replicate 128 0)) 2 16 2 8.

Lemma population_ok : store_ok population.
Proof.
  split; simpl; unfold id_size, SIZE_MAX; try lia.
  - apply counter_reset_in_block.
  - repeat constructor; lia.
Qed.

Lemma state_store_run_witness :
  ∃ m', cxpr_bulk_run (Some counter_model) (Some (counter_view 16 2))
      (mk_memory counter_values (replicate 128 0)) = Done (CXPR_BULK_OK, m') ∧
    store_ok (with_states population (bm_states m')) ∧
    ∀ k id block, agents population !! k = Some (id, block) →
      let n := Z.to_nat 2 in
      agents (with_states population (bm_states m')) !! k = Some (id,
        (counter_tick (take n block)
           (inputs_at counter_model (counter_view 16 2) (mk_memory counter_values (replicate 128 0)) (Z.of_nat k))
           (params_at counter_model (counter_view 16 2) (mk_memory counter_values (replicate 128 0)))).1
        ++ drop n block).
Proof.
  apply (state_store_run_correct population (counter_view 0 0) (counter_view 16 2) counter_tick).
  - exact population_ok.
  - reflexivity.
  - reflexivity.
  - apply counter_typed; unfold in_size, SIZE_MAX; lia.
  - apply counter_separate.
  - exact counter_valid.
  - apply counter_covered; unfold SIZE_MAX; rewrite ?length_replicate; lia.
Defined.

(** ** A snapshot *)

Lemma counter_abi : cxpr_generated_model_descriptor_abi_valid (Some counter_model) = true.
Proof. vm_compute. reflexivity. Qed.

Lemma counter_usable stride states :
  16 ≤ stride ≤ 64 → stride + 2 ≤ Z.of_nat (length states) ≤ SIZE_MAX →
  usable_view 2 (counter_view stride 2) states.
Proof.
  intros Hs Hl. split; unfold in_size, SIZE_MAX in *; simpl; try lia.
  - unfold states_unusable. simpl. apply Z.ltb_ge. lia.
  - split; [unfold SIZE_MAX; lia|]. simpl. intros _ _ k Hk. change (Pos.to_nat 2) with 2%nat in *. nia.
Qed.

Definition no_snapshot : cxpr_bulk_snapshot := mk_snapshot None 0.

Lemma snapshot_roundtrip_witness :
  ∃ snapshot states'',
    cxpr_bulk_snapshot_create (Some counter_model) 77 (Some (counter_view 16 2)) (replicate 32 5)
      (Some no_snapshot) memory_of_zeros = Done (CXPR_BULK_SNAPSHOT_OK, Some snapshot) ∧
    cxpr_bulk_snapshot_restore (Some counter_model) 77 (Some snapshot) (Some (counter_view 24 2))
      (replicate 48 1) = Done (CXPR_BULK_SNAPSHOT_OK, states'') ∧
    (∀ k, (k < block_count (counter_view 16 2) 2)%nat →
       saved_block (counter_view 24 2) 2 states'' k = saved_block (counter_view 16 2) 2 (replicate 32 5) k) ∧
    (∀ j, outside_blocks 0 (Z.to_nat 24) (Z.to_nat 2) 0 (block_count (counter_view 24 2) 2) j →
       states'' !! j = replicate 48 1 !! j).
Proof.
  apply (snapshot_roundtrip counter_model 77 2 counter_abi eq_refl); try lia.
  - unfold in_size, SIZE_MAX. lia.
  - apply counter_usable; unfold SIZE_MAX; rewrite ?length_replicate; lia.
  - unfold snapshot_fits, SIZE_MAX. simpl. lia.
  - apply Forall_replicate. unfold is_byte. lia.
  - intros n. unfold is_byte. lia.
  - apply counter_usable; unfold SIZE_MAX; rewrite ?length_replicate; lia.
  - reflexivity.
Defined.

(** The bytes of the snapshot above. *)
Definition counter_snapshot : list Z :=
  match cxpr_bulk_snapshot_create (Some counter_model) 77 (Some (counter_view 16 2)) (replicate 32 5)
          (Some no_snapshot) memory_of_zeros with
  | Done (_, Some (mk_snapshot (Some data) _)) => data
  | _ => []
  end.

Lemma snapshot_change_refused_witness :
  ∃ status,
    cxpr_bulk_snapshot_restore (Some counter_model) 77
      (Some (mk_snapshot (Some (<[58%nat := 4]> counter_snapshot))
               (Z.of_nat (length (<[58%nat := 4]> counter_snapshot)))))
      (Some (counter_view 24 2)) (replicate 48 1) = Done (status, replicate 48 1) ∧
    status ≠ CXPR_BULK_SNAPSHOT_OK.
Proof.
  apply (snapshot_change_refused counter_model 77 2 counter_abi eq_refl ltac:(lia)
    ltac:(unfold in_size, SIZE_MAX; lia) (counter_view 16 2) (replicate 32 5) no_snapshot (λ _, 0))
    with (data := counter_snapshot).
  - apply counter_usable; unfold SIZE_MAX; rewrite ?length_replicate; lia.
  - unfold snapshot_fits, SIZE_MAX. simpl. lia.
  - apply Forall_replicate. unfold is_byte. lia.
  - intros n. unfold is_byte. lia.
  - apply counter_usable; unfold SIZE_MAX; rewrite ?length_replicate; lia.
  - reflexivity.
  - vm_compute. reflexivity.
  - left. exists 58%nat, 5, 4. split; [vm_compute; reflexivity|]. unfold is_byte. split_and!; [lia..|reflexivity].
Defined.

(** The reserved word of the header is not looked at: a change there is
    accepted. *)
Example reserved_word_ignored :
  cxpr_bulk_snapshot_restore (Some counter_model) 77
    (Some (mk_snapshot (Some (<[20%nat := 99]> counter_snapshot)) 60)) (Some (counter_view 24 2)) (replicate 48 1) =
  cxpr_bulk_snapshot_restore (Some counter_model) 77
    (Some (mk_snapshot (Some counter_snapshot) 60)) (Some (counter_view 24 2)) (replicate 48 1).
Proof. vm_compute. reflexivity. Qed.
