(* ===== verification/Resample.v ===== *)
(** * Resample: fixed durations and resample calls ([src/resample.c])

    A duration text is a decimal count and a unit; its canonical form has no
    leading zeros.  The theorems say exactly which texts are durations, that
    the nanoseconds never overflow, and that the canonical text reads back. *)

From Stdlib Require Import Ascii String ZArith Lia.
From stdpp Require Import base list strings.
From S2P Require Import Prelude Float64 Types Lexer Ast References.
Local Open Scope string_scope.
Local Open Scope Z_scope.

(** ** Durations *)

Definition CXPR_RESAMPLE_CANONICAL_CAPACITY : nat := 32.

Record cxpr_resample_interval : Type := mk_interval {
  ri_duration_ns : Z;
  ri_canonical : string
}.

Definition UINT64_MAX : Z := 2 ^ 64 - 1.

(** [set_error] *)
Definition resample_error (code : cxpr_error_code) (message : string) : cxpr_error :=
  mk_error code (Some message) 0 0 0.

Definition locate_error (err : cxpr_error) (a : cxpr_expr_ast) : cxpr_error :=
  match ast_span a with
  | None => err
  | Some span =>
      mk_error (err_code err) (err_message err) (pos_offset (span_start span))
        (pos_line (span_start span)) (pos_column (span_start span))
  end.

Definition duration_units : list (string * Z) :=
  [("ns", 1); ("us", 1000); ("ms", 1000000); ("s", 1000000000); ("m", 60000000000);
   ("h", 3600000000000); ("d", 86400000000000)].

Definition parse_unit (unit : string) : option (Z * string) :=
  match List.find (λ u, (unit =? u.1)%string) duration_units with
  | Some (name, factor) => Some (factor, name)
  | None => None
  end.

(** The loop over the digits: the count, the number of digits and the text
    behind them; [None] when the count would overflow. *)
Fixpoint read_count (text : string) (count : Z) (offset : nat) : option (Z * nat * string) :=
  match text with
  | EmptyString => Some (count, offset, text)
  | String c rest =>
      if is_digit c then
        if (UINT64_MAX - digit_val c) / 10 <? count then None
        else read_count rest (wrap64 (count * 10 + digit_val c)) (S offset)
      else Some (count, offset, text)
  end.

(** [snprintf] into a buffer of [capacity] bytes: the text when it fits with
    its terminator. *)
Definition fits_buffer (capacity : nat) (text : string) : bool := (strlen text <? capacity)%nat.

(** The error (zero on success) and the interval. *)
Definition cxpr_parse_fixed_duration (text : option string) : cxpr_error * option cxpr_resample_interval :=
  match text with
  | None | Some EmptyString =>
      (resample_error CXPR_ERR_SYNTAX "Fixed duration must be a positive integer and unit", None)
  | Some text =>
      match read_count text 0 0 with
      | None => (resample_error CXPR_ERR_SYNTAX "Fixed duration overflows", None)
      | Some (count, offset, rest) =>
          if (offset =? 0)%nat || (count =? 0)
          then (resample_error CXPR_ERR_SYNTAX "Fixed duration must be greater than zero", None)
          else
            match parse_unit rest with
            | None =>
                (resample_error CXPR_ERR_SYNTAX
                   "Unsupported fixed-duration unit; expected ns, us, ms, s, m, h, or d", None)
            | Some (factor, unit) =>
                if INT64_MAX / factor <? count
                then (resample_error CXPR_ERR_SYNTAX "Fixed duration overflows nanoseconds", None)
                else
                  let canonical := print_dec count ++ unit in
                  if fits_buffer CXPR_RESAMPLE_CANONICAL_CAPACITY canonical
                  then (error_zero, Some (mk_interval (wrap64 (count * factor)) canonical))
                  else (resample_error CXPR_ERR_SYNTAX "Canonical fixed duration is too long", None)
            end
      end
  end.

(** ** Resample calls *)

Record cxpr_resample_call : Type := mk_resample_call {
  rc_source : cxpr_expr_ast;
  rc_every : cxpr_resample_interval
}.

Definition cxpr_expr_ast_call_arg_name (names : option (list (option string))) (i : nat) : option string :=
  match names with Some names => default None (names !! i) | None => None end.

Definition source_capable (a : cxpr_expr_ast) : bool :=
  match cxpr_expr_ast_kind_of a with
  | KIND_IDENTIFIER | KIND_FIELD_ACCESS | KIND_CHAIN_ACCESS | KIND_PRODUCER_ACCESS | KIND_FUNCTION_CALL => true
  | _ => false
  end.

Definition cxpr_resample_call_parse (a : cxpr_expr_ast) : cxpr_error * option cxpr_resample_call :=
  match ast_node a with
  | CXPR_NODE_FUNCTION_CALL name args names =>
      if negb (name =? "resample")%string
      then (resample_error CXPR_ERR_TYPE_MISMATCH "Expected a resample call", None)
      else
        match args with
        | [source; interval] =>
            let second := cxpr_expr_ast_call_arg_name names 1 in
            if match cxpr_expr_ast_call_arg_name names 0, second with
               | Some _, _ => true
               | None, Some second => negb (second =? "every")%string
               | None, None => false
               end
            then (resample_error CXPR_ERR_SYNTAX
                    "resample accepts a positional source and positional or named every argument", None)
            else
              match ast_node interval with
              | CXPR_NODE_STRING text =>
                  match cxpr_parse_fixed_duration (Some text) with
                  | (err, None) => (locate_error err interval, None)
                  | (err, Some every) =>
                      if source_capable source then (err, Some (mk_resample_call source every))
                      else (locate_error (resample_error CXPR_ERR_TYPE_MISMATCH
                              "resample source must be a provider/source-capable expression") source, None)
                  end
              | _ =>
                  (locate_error (resample_error CXPR_ERR_TYPE_MISMATCH
                     "resample every must be a compile-time string literal") interval, None)
              end
        | _ => (resample_error CXPR_ERR_WRONG_ARITY "resample expects source and every", None)
        end
  | _ => (resample_error CXPR_ERR_TYPE_MISMATCH "Expected a resample call", None)
  end.

(** ** Validation of a tree *)

(** The two results of a validation: whether it passed, and the error. *)
Abbreviation validation := (cxpr_error → bool * cxpr_error).

Definition passes : validation := λ err, (true, err).
Definition fails_with (e : cxpr_error) : validation := λ _, (false, e).

(** [v && w], and a loop that stops at the first failure *)
Definition then_validate (v w : validation) : validation := λ err,
  match v err with (true, err) => w err | r => r end.
Definition all_valid (vs : list validation) : validation := foldr then_validate passes vs.

Definition is_resample_call (a : cxpr_expr_ast) : bool :=
  match ast_node a with CXPR_NODE_FUNCTION_CALL name _ _ => (name =? "resample")%string | _ => false end.

(** The value of an index that is a literal; under any unary operator it
    counts as negated. *)
Definition resample_literal_index (index : cxpr_expr_ast) : option float64 :=
  match ast_node index with
  | CXPR_NODE_NUMBER value => Some value
  | CXPR_NODE_UNARY_OP _ operand =>
      match ast_node operand with CXPR_NODE_NUMBER value => Some (fneg value) | _ => None end
  | _ => None
  end.

Definition UINT32_MAX : Z := 2 ^ 32 - 1.

Definition index_invalid (value : float64) : bool :=
  negb (fisfinite value) || fltb value fzero || negb (feqb (ffloor value) value) ||
  fgtb value (of_Z UINT32_MAX).

Definition check_resample_index (target index : cxpr_expr_ast) : validation :=
  if is_resample_call target then
    match resample_literal_index index with
    | Some value =>
        if index_invalid value
        then fails_with (resample_error CXPR_ERR_INVALID_INDEX
                           "resample index must be a finite non-negative integer")
        else passes
    | None => passes
    end
  else passes.

Definition check_resample_call (a : cxpr_expr_ast) : validation :=
  if is_resample_call a then
    match cxpr_resample_call_parse a with
    | (err, Some _) => λ _, (true, err)
    | (err, None) => fails_with err
    end
  else passes.

Fixpoint cxpr_resample_validate_ast (a : cxpr_expr_ast) : validation :=
  match ast_node a with
  | CXPR_NODE_FUNCTION_CALL _ args _ =>
      then_validate (check_resample_call a) (all_valid (map cxpr_resample_validate_ast args))
  | CXPR_NODE_PRODUCER_ACCESS _ args _ _ _ => all_valid (map cxpr_resample_validate_ast args)
  | CXPR_NODE_BINARY_OP _ l r => then_validate (cxpr_resample_validate_ast l) (cxpr_resample_validate_ast r)
  | CXPR_NODE_UNARY_OP _ operand => cxpr_resample_validate_ast operand
  | CXPR_NODE_INDEX target index =>
      then_validate (check_resample_index target index)
        (then_validate (cxpr_resample_validate_ast target) (cxpr_resample_validate_ast index))
  | CXPR_NODE_TERNARY c t f =>
      then_validate (cxpr_resample_validate_ast c)
        (then_validate (cxpr_resample_validate_ast t) (cxpr_resample_validate_ast f))
  | CXPR_NODE_ARRAY elements => all_valid (map cxpr_resample_validate_ast elements)
  | CXPR_NODE_RECORD _ values => all_valid (map cxpr_resample_validate_ast values)
  | CXPR_NODE_FIELD_ACCESS (Some base) _ _ _ => cxpr_resample_validate_ast base
  | _ => passes
  end.

(** ** Which texts are durations *)

(** [text] is [count] in decimal digits, with leading zeros or not, and a
    unit of [factor] nanoseconds. *)
Definition duration_text (text : string) (count factor : Z) (unit : string) : Prop :=
  ∃ digits, text = digits ++ unit ∧ all_chars isdigit digits = true ∧ digits ≠ "" ∧
    dec_value 0 digits = count ∧ (unit, factor) ∈ duration_units.

Lemma parse_unit_iff unit factor name :
  parse_unit unit = Some (factor, name) ↔ name = unit ∧ (unit, factor) ∈ duration_units.
Proof.
  unfold parse_unit. split.
  - destruct (List.find _ _) as [[n f]|] eqn:E; [|done]. intros [= <- <-].
    apply List.find_some in E as [Hin Heq]. apply String.eqb_eq in Heq. simpl in Heq. subst.
    split; [done|]. by apply list_elem_of_In.
  - intros [-> Hin]. unfold duration_units in Hin. rewrite !elem_of_cons, elem_of_nil in Hin.
    destruct_or?; simplify_eq; done.
Qed.

Lemma unit_head unit factor :
  (unit, factor) ∈ duration_units → ∃ c t, unit = String c t ∧ is_digit c = false.
Proof.
  intros Hin. unfold duration_units in Hin. rewrite !elem_of_cons, elem_of_nil in Hin.
  destruct_or?; simplify_eq; simpl; eauto.
Qed.

Lemma unit_facts unit factor :
  (unit, factor) ∈ duration_units → 0 < factor ≤ INT64_MAX ∧ (strlen unit ≤ 2)%nat.
Proof.
  intros Hin. unfold duration_units in Hin. rewrite !elem_of_cons, elem_of_nil in Hin.
  unfold INT64_MAX. destruct_or?; simplify_eq; simpl; lia.
Qed.

Lemma digit_val_bound c : is_digit c = true → 0 ≤ digit_val c ≤ 9.
Proof. unfold is_digit, digit_val. rewrite andb_true_iff, !Z.leb_le. lia. Qed.

Lemma dec_value_digit acc c s :
  is_digit c = true → dec_value acc (String c s) = dec_value (acc * 10 + digit_val c) s.
Proof. intros Hc. unfold dec_value. simpl. rewrite Hc. apply read_digits_count. Qed.

Lemma dec_value_grows acc s : 0 ≤ acc → all_chars isdigit s = true → acc ≤ dec_value acc s.
Proof.
  revert acc. induction s as [|c s IH]; intros acc Ha Hs; [done|]. simpl in Hs.
  apply andb_prop in Hs as [Hc Hs]. unfold isdigit in Hc. pose proof (digit_val_bound c Hc).
  rewrite dec_value_digit by done. specialize (IH (acc * 10 + digit_val c) ltac:(lia) Hs). lia.
Qed.

(** The loop reads the digits; it gives up exactly when their value is above
    the largest count. *)
Lemma read_count_digits digits rest count offset :
  all_chars isdigit digits = true → 0 ≤ count →
  match rest with EmptyString => True | String c _ => is_digit c = false end →
  count ≤ UINT64_MAX →
  read_count (digits ++ rest) count offset =
    if UINT64_MAX <? dec_value count digits then None
    else Some (dec_value count digits, (offset + strlen digits)%nat, rest).
Proof.
  intros Hd. revert count offset. induction digits as [|c digits IH]; intros count offset Hc Hr Hm.
  - change (dec_value count "") with count. destruct (Z.ltb_spec UINT64_MAX count); [lia|]. simpl.
    rewrite Nat.add_0_r. destruct rest as [|c rest]; [done|]. simpl. by rewrite Hr.
  - simpl in Hd. apply andb_prop in Hd as [Hdig Hd]. unfold isdigit in Hdig. simpl. rewrite Hdig.
    pose proof (digit_val_bound c Hdig). rewrite dec_value_digit by done.
    pose proof (dec_value_grows (count * 10 + digit_val c) digits ltac:(lia) Hd).
    assert (Hover : (UINT64_MAX - digit_val c) / 10 < count ↔ UINT64_MAX < count * 10 + digit_val c).
    { pose proof (Z.div_mod (UINT64_MAX - digit_val c) 10 ltac:(lia)).
      pose proof (Z.mod_pos_bound (UINT64_MAX - digit_val c) 10 ltac:(lia)). lia. }
    destruct (Z.ltb_spec ((UINT64_MAX - digit_val c) / 10) count) as [Hlt|Hge].
    + destruct (Z.ltb_spec UINT64_MAX (dec_value (count * 10 + digit_val c) digits)); [done|].
      apply Hover in Hlt. lia.
    + rewrite wrap64_small by (unfold UINT64_MAX in *; lia). rewrite IH by (done || lia). simpl. rewrite Nat.add_succ_r. done.
Qed.

(** A text is its leading digits and what is behind them. *)
Lemma digits_split text :
  ∃ digits rest, text = digits ++ rest ∧ all_chars isdigit digits = true ∧
    match rest with EmptyString => True | String c _ => is_digit c = false end.
Proof.
  induction text as [|c text (digits & rest & -> & Hd & Hr)]; [by exists "", ""|].
  destruct (is_digit c) eqn:Hc.
  - exists (String c digits), rest. split_and!; [done| |done]. simpl. unfold isdigit. by rewrite Hc.
  - by exists "", (String c (digits ++ rest)).
Qed.

Lemma digits_prefix_unique d r d' r' :
  d ++ r = d' ++ r' → all_chars isdigit d = true → all_chars isdigit d' = true →
  match r with EmptyString => True | String c _ => is_digit c = false end →
  match r' with EmptyString => True | String c _ => is_digit c = false end → d = d' ∧ r = r'.
Proof.
  revert d'. induction d as [|c d IH]; intros [|c' d'] He Hd Hd' Hr Hr'; simpl in *.
  - done.
  - change (r = String c' (d' ++ r')) in He. rewrite He in Hr. apply andb_prop in Hd' as [Hc _]. unfold isdigit in Hc. congruence.
  - change (String c (d ++ r) = r') in He. rewrite <- He in Hr'. apply andb_prop in Hd as [Hc _]. unfold isdigit in Hc. congruence.
  - change (String c (d ++ r) = String c' (d' ++ r')) in He. injection He as -> He. apply andb_prop in Hd as [_ Hd], Hd' as [_ Hd'].
    by destruct (IH _ He Hd Hd' Hr Hr') as [-> ->].
Qed.

(** The interval a duration stands for. *)
Definition interval_of (count factor : Z) (unit : string) : cxpr_resample_interval :=
  mk_interval (count * factor) (print_dec count ++ unit).

Lemma canonical_fits count factor unit :
  (unit, factor) ∈ duration_units → 0 < count → count * factor ≤ INT64_MAX →
  fits_buffer CXPR_RESAMPLE_CANONICAL_CAPACITY (print_dec count ++ unit) = true.
Proof.
  intros Hu Hc Hm. destruct (unit_facts _ _ Hu) as [Hf Hl]. unfold fits_buffer. apply Nat.ltb_lt.
  rewrite strlen_append. destruct (print_dec_spec count ltac:(lia)) as (_ & _ & _ & Hk).
  specialize (Hk 19%nat ltac:(lia)). assert (count < 10 ^ Z.of_nat 19) by (unfold INT64_MAX in *; nia).
  unfold CXPR_RESAMPLE_CANONICAL_CAPACITY. lia.
Qed.

(** What the parser does with a text split into digits and the rest. *)
Lemma parse_duration_split digits rest :
  all_chars isdigit digits = true →
  match rest with EmptyString => True | String c _ => is_digit c = false end →
  (∃ factor, (rest, factor) ∈ duration_units ∧ digits ≠ "" ∧ 0 < dec_value 0 digits ∧
     dec_value 0 digits * factor ≤ INT64_MAX ∧
     cxpr_parse_fixed_duration (Some (digits ++ rest)) =
       (error_zero, Some (interval_of (dec_value 0 digits) factor rest))) ∨
  (¬ ∃ factor, (rest, factor) ∈ duration_units ∧ digits ≠ "" ∧ 0 < dec_value 0 digits ∧
     dec_value 0 digits * factor ≤ INT64_MAX) ∧
  ∃ message, cxpr_parse_fixed_duration (Some (digits ++ rest)) = (resample_error CXPR_ERR_SYNTAX message, None).
Proof.
  intros Hd Hr. pose proof (read_count_digits digits rest 0 0 Hd ltac:(lia) Hr ltac:(by vm_compute)) as Hread.
  pose proof (dec_value_grows 0 digits ltac:(lia) Hd) as Hpos. unfold cxpr_parse_fixed_duration.
  destruct (digits ++ rest) as [|c0 text] eqn:Htext.
  { right. split; [|by eexists]. intros (factor & _ & Hne & _). destruct digits; [done|]. by simpl in Htext. }
  rewrite Hread. destruct (Z.ltb_spec UINT64_MAX (dec_value 0 digits)) as [Hover|Hfit].
  { right. split; [|by eexists]. intros (factor & Hu & _ & _ & Hm). destruct (unit_facts _ _ Hu).
    unfold UINT64_MAX, INT64_MAX in *. nia. }
  cbn [Nat.add]. destruct (_ || _) eqn:Hz.
  { right. split; [|by eexists]. intros (factor & Hu & Hne & Hp & _). rewrite orb_true_iff, Nat.eqb_eq, Z.eqb_eq in Hz.
    destruct Hz; [|lia]. by destruct digits. }
  rewrite orb_false_iff, Nat.eqb_neq, Z.eqb_neq in Hz.
  destruct (parse_unit rest) as [[factor name]|] eqn:Hunit; cycle 1.
  { right. split; [|by eexists]. intros (factor & Hu & _).
    by rewrite (proj2 (parse_unit_iff rest factor rest) (conj eq_refl Hu)) in Hunit. }
  apply parse_unit_iff in Hunit as [-> Hu]. destruct (unit_facts _ _ Hu) as [Hf _].
  assert (Hcmp : INT64_MAX / factor < dec_value 0 digits ↔ INT64_MAX < dec_value 0 digits * factor).
  { pose proof (Z.mod_pos_bound INT64_MAX factor ltac:(lia)). pose proof (Z.div_mod INT64_MAX factor ltac:(lia)). nia. }
  destruct (Z.ltb_spec (INT64_MAX / factor) (dec_value 0 digits)) as [Hlt|Hge].
  { right. split; [|by eexists]. intros (factor' & Hu' & _ & _ & Hm).
    assert (factor' = factor) as ->; [|lia].
    pose proof (proj2 (parse_unit_iff rest factor' rest) (conj eq_refl Hu')).
    pose proof (proj2 (parse_unit_iff rest factor rest) (conj eq_refl Hu)). congruence. }
  left. exists factor. split_and!; try done; [intros ->; by apply Hz|lia|lia|].
  rewrite (canonical_fits _ factor); [|done|lia|lia]. rewrite wrap64_small; [done|unfold INT64_MAX in *; lia].
Qed.

(** C39: the texts [cxpr_parse_fixed_duration] accepts are exactly a positive
    decimal count and one of the seven units whose nanoseconds fit an
    [int64_t]; the interval is that number of nanoseconds and the count
    without leading zeros followed by the unit.  Every other text is a syntax
    error, and the buffer for the canonical text always suffices. *)
Theorem fixed_duration_correct text :
  (∃ count factor unit, duration_text text count factor unit ∧ 0 < count ∧ count * factor ≤ INT64_MAX ∧
     cxpr_parse_fixed_duration (Some text) = (error_zero, Some (interval_of count factor unit))) ∨
  (¬ ∃ count factor unit, duration_text text count factor unit ∧ 0 < count ∧ count * factor ≤ INT64_MAX) ∧
  ∃ message, cxpr_parse_fixed_duration (Some text) = (resample_error CXPR_ERR_SYNTAX message, None).
Proof.
  destruct (digits_split text) as (digits & rest & -> & Hd & Hr).
  destruct (parse_duration_split digits rest Hd Hr) as [(factor & Hu & Hne & Hp & Hm & Heq)|[Hno Herr]].
  - left. exists (dec_value 0 digits), factor, rest. split_and!; try done. by exists digits.
  - right. split; [|done]. intros (count & factor & unit & (digits' & He & Hd' & Hne & Hv & Hu) & Hp & Hm).
    destruct (unit_head unit factor Hu) as (c & t & Hc & Hnd).
    apply Hno. destruct (digits_prefix_unique _ _ _ _ He Hd Hd' Hr) as [-> ->]; [by rewrite Hc|].
    exists factor. by rewrite Hv.
Qed.

(** The canonical text of an interval is itself accepted and gives the
    same interval, so canonical texts are a normal form of durations. *)
Theorem canonical_duration_roundtrip text interval :
  (cxpr_parse_fixed_duration (Some text)).2 = Some interval →
  cxpr_parse_fixed_duration (Some (ri_canonical interval)) = (error_zero, Some interval).
Proof.
  destruct (digits_split text) as (digits & rest & -> & Hd & Hr).
  destruct (parse_duration_split digits rest Hd Hr) as [(factor & Hu & Hne & Hp & Hm & ->)|[_ (message & ->)]]; [|done].
  cbn [snd]. intros [= <-]. destruct (print_dec_spec (dec_value 0 digits) ltac:(lia)) as (Hd' & Hv & Hl & _).
  unfold interval_of. cbn [ri_canonical].
  destruct (parse_duration_split (print_dec (dec_value 0 digits)) rest Hd' Hr)
    as [(factor' & Hu' & _ & _ & _ & ->)|[Hno _]].
  - rewrite Hv. pose proof (proj2 (parse_unit_iff rest factor' rest) (conj eq_refl Hu')).
    pose proof (proj2 (parse_unit_iff rest factor rest) (conj eq_refl Hu)).
    assert (factor' = factor) as -> by congruence. done.
  - destruct Hno. exists factor. rewrite Hv. split_and!; try done. intros E. rewrite E in Hl. simpl in Hl. lia.
Qed.

Lemma canonical_duration_witness :
  cxpr_parse_fixed_duration (Some "090m") = (error_zero, Some (mk_interval 5400000000000 "90m")) ∧
  cxpr_parse_fixed_duration (Some "90m") = (error_zero, Some (mk_interval 5400000000000 "90m")).
Proof.
  split; [vm_compute; reflexivity|].
  apply (canonical_duration_roundtrip "090m" (mk_interval 5400000000000 "90m")). vm_compute. reflexivity.
Defined.

(** ** Validation looks at every node *)

(** Whether a validation passes does not depend on the error before it. *)
Definition decides (v : validation) (P : Prop) : Prop :=
  (P ∧ ∀ err, (v err).1 = true) ∨ (¬ P ∧ ∀ err, (v err).1 = false).

Lemma decides_passes : decides passes True.
Proof. by left. Qed.

Lemma decides_then v w P Q : decides v P → decides w Q → decides (then_validate v w) (P ∧ Q).
Proof.
  unfold decides, then_validate. intros [[HP Hv]|[HP Hv]] Hw.
  - destruct Hw as [[HQ Hw]|[HQ Hw]]; [left|right]; (split; [tauto|]); intros err; specialize (Hv err);
      destruct (v err) as [[] e]; try done; apply Hw.
  - right. split; [tauto|]. intros err. specialize (Hv err). by destruct (v err) as [[] e].
Qed.

Lemma decides_all {A} (f : A → validation) (P : A → Prop) l :
  Forall (λ x, decides (f x) (P x)) l → decides (all_valid (map f l)) (Forall P l).
Proof.
  induction 1 as [|x l Hx _ IH]; [by left; split; [constructor|]|].
  pose proof (decides_then _ _ _ _ Hx IH) as Hd. unfold decides in *. rewrite Forall_cons. exact Hd.
Qed.

Lemma decides_iff v P Q : decides v P → (P ↔ Q) → decides v Q.
Proof. unfold decides. tauto. Qed.

(** The node is no malformed resample call and no resample call with a bad
    literal index. *)
Definition resample_node_ok (a : cxpr_expr_ast) : Prop :=
  (is_resample_call a = true → is_Some (cxpr_resample_call_parse a).2) ∧
  match ast_node a with
  | CXPR_NODE_INDEX target index =>
      is_resample_call target = true → ∀ value, resample_literal_index index = Some value → index_invalid value = false
  | _ => True
  end.

Lemma decides_call a : decides (check_resample_call a) (is_resample_call a = true → is_Some (cxpr_resample_call_parse a).2).
Proof.
  unfold check_resample_call, decides. destruct (is_resample_call a); [|by left].
  destruct (cxpr_resample_call_parse a) as [err [c|]]; simpl; [left|right]; (split; [|done]); [eauto|].
  intros Hs. by destruct (Hs eq_refl).
Qed.

Lemma decides_index target index :
  decides (check_resample_index target index)
    (is_resample_call target = true → ∀ value, resample_literal_index index = Some value → index_invalid value = false).
Proof.
  unfold check_resample_index, decides. destruct (is_resample_call target); [|by left].
  destruct (resample_literal_index index) as [value|]; [|by left].
  destruct (index_invalid value) eqn:E; [right|left]; (split; [|done]); [|congruence].
  intros Hs. by rewrite (Hs eq_refl value eq_refl) in E.
Qed.

Lemma ast_all_iff P a : ast_all P a ↔ P a ∧ Forall (ast_all P) (children (ast_node a)).
Proof. split; [apply ast_all_inv|]. intros [? ?]. by constructor. Qed.

Lemma resample_validate_decides a : decides (cxpr_resample_validate_ast a) (ast_all resample_node_ok a).
Proof.
  induction a as [s data IH] using ast_ind. eapply decides_iff; [|symmetry; apply ast_all_iff].
  unfold resample_node_ok at 1.
  destruct data as [| | |els|ns vs| | | |[b|] ? ? ?| |n args ? ? ?|op l r|op x|n args ?|t i|c t f];
    cbn [cxpr_resample_validate_ast ast_node children] in *;
    rewrite ?Forall_cons, ?Forall_nil in IH; cbn [is_resample_call ast_node].
  all: try (eapply decides_iff; [apply decides_passes|]; rewrite ?Forall_nil; naive_solver).
  - eapply decides_iff; [by apply decides_all|]. naive_solver.
  - eapply decides_iff; [by apply decides_all|]. naive_solver.
  - eapply decides_iff; [apply IH|]. rewrite Forall_cons, Forall_nil. naive_solver.
  - eapply decides_iff; [by apply decides_all|]. naive_solver.
  - eapply decides_iff; [by apply decides_then; apply IH|]. rewrite !Forall_cons, Forall_nil. naive_solver.
  - eapply decides_iff; [apply IH|]. rewrite Forall_cons, Forall_nil. naive_solver.
  - eapply decides_iff; [apply decides_then; [apply decides_call|by apply decides_all]|]. simpl. tauto.
  - eapply decides_iff; [apply decides_then; [apply decides_index|apply decides_then; apply IH]|].
    rewrite !Forall_cons, Forall_nil. simpl. naive_solver.
  - eapply decides_iff; [apply decides_then; [apply IH|apply decides_then; apply IH]|].
    rewrite !Forall_cons, Forall_nil. naive_solver.
Qed.

(** The validation of an expression tree passes exactly when, at every
    node of the tree, a call of [resample] has a source that can be resampled
    and a fixed duration, and a literal index of such a call is a whole number
    from 0 to 2^32 - 1; it does not depend on the error it was given. *)
Theorem resample_validate_correct a err :
  (cxpr_resample_validate_ast a err).1 = true ↔ ast_all resample_node_ok a.
Proof.
  destruct (resample_validate_decides a) as [[HP Hv]|[HP Hv]]; rewrite Hv; [done|]. split; [done|]. intros H. by apply HP in H.
Qed.

