(* ===== verification/Provider.v ===== *)
(** * Provider: host-provided functions and calls of them
    ([src/provider/provider.c], [src/runtime/call.c], and the argument ranges
    and parameter names of [src/provider/registry.c])

    A provider is a table of callbacks of the host, which are functions here.
    The parameter specification of a direct source points to an array in static
    storage that every such specification shares; its one entry is a state that
    the functions pass on. *)

From Stdlib Require Import Ascii String ZArith Lia.
From stdpp Require Import base list strings.
From S2P Require Import Prelude Float64 Types Ast References Registry Builtins EvalSupport EvalState TreeEval TypeCheck IRCompile IRTyped EvalApi Resample.
Local Open Scope string_scope.
Local Open Scope run_scope.
Local Open Scope nat_scope.

(** ** Specifications *)

Record cxpr_provider_scope_spec : Type := mk_scope_spec {
  ps_param_name : option string;
  ps_optional : bool
}.

(** The flags of [cxpr_provider_fn_flags] that are read here. *)
Record cxpr_provider_fn_spec : Type := mk_fn_spec {
  pf_name : option string;
  pf_min_args : nat;
  pf_max_args : nat;
  pf_source_min_args : nat;
  pf_source_max_args : nat;
  pf_params : option (list (option string));
  pf_param_count : nat;
  pf_source_input : bool;
  pf_scope : option cxpr_provider_scope_spec
}.

Record cxpr_provider_source_spec : Type := mk_source_spec {
  pr_name : option string;
  pr_min_args : nat;
  pr_max_args : nat;
  pr_scope : option cxpr_provider_scope_spec
}.

Inductive cxpr_expr_arg_kind : Type := CXPR_EXPR_ARG_NUMERIC | CXPR_EXPR_ARG_SCALAR_SOURCE.

(** The array of names: the provider's own, or the shared one. *)
Inductive spec_names : Type :=
  | OwnNames (names : option (list (option string)))
  | StaticNames.

(** [index_sugar_name] and [lookback_sugar_name] are filled from each other. *)
Record cxpr_expr_param_spec : Type := mk_param_spec {
  es_names : spec_names;
  es_kinds : option (list cxpr_expr_arg_kind);
  es_count : nat;
  es_min_count : nat;
  es_index_sugar_name : option string;
  es_lookback_sugar_name : option string;
  es_has_timeframe_param : bool
}.

(** The entry of [static const char* names[1]]. *)
Definition static_names : Type := option string.

Record cxpr_provider : Type := mk_provider {
  pv_fn_spec_find : string → option cxpr_provider_fn_spec;
  pv_source_spec_find : string → option cxpr_provider_source_spec;
  pv_expr_param_spec_for : option (string → option cxpr_expr_param_spec)
}.

(** A provider whose table is incomplete is [None], like a NULL one:
    [cxpr_provider_is_valid] refuses both. *)
Definition provider_ref : Type := option cxpr_provider.

Definition cxpr_provider_fn_spec_find (p : provider_ref) (name : option string) : option cxpr_provider_fn_spec :=
  match p, name with Some p, Some name => pv_fn_spec_find p name | _, _ => None end.

Definition cxpr_provider_source_spec_find (p : provider_ref) (name : option string)
    : option cxpr_provider_source_spec :=
  match p, name with Some p, Some name => pv_source_spec_find p name | _, _ => None end.

(** [scope && scope->param_name && scope->param_name[0] != '\0'] *)
Definition named_scope (scope : option cxpr_provider_scope_spec) : option (cxpr_provider_scope_spec * string) :=
  match scope with
  | Some s => match ps_param_name s with
              | Some EmptyString | None => None
              | Some name => Some (s, name)
              end
  | None => None
  end.

Definition with_sugar (spec : cxpr_expr_param_spec) : cxpr_expr_param_spec :=
  let index := match es_index_sugar_name spec with Some n => Some n | None => es_lookback_sugar_name spec end in
  let lookback := match es_lookback_sugar_name spec with Some n => Some n | None => index end in
  mk_param_spec (es_names spec) (es_kinds spec) (es_count spec) (es_min_count spec) index lookback
    (es_has_timeframe_param spec).

(** The static array after the call, and the specification. *)
Definition cxpr_provider_expr_param_spec_for (p : provider_ref) (name : option string) (st : static_names)
    : static_names * option cxpr_expr_param_spec :=
  match p, name with
  | Some pv, Some n =>
      match match pv_expr_param_spec_for pv with Some f => f n | None => None end with
      | Some spec => (st, Some (with_sugar spec))
      | None =>
          match cxpr_provider_source_spec_find p name with
          | Some source =>
              match named_scope (pr_scope source) with
              | Some (scope, scope_name) =>
                  (Some scope_name,
                   Some (mk_param_spec StaticNames None 1 (if ps_optional scope then 0 else 1) None None false))
              | None => (st, None)
              end
          | None => (st, None)
          end
      end
  | _, _ => (st, None)
  end.

(** [spec.names[index]], with [None] for a NULL entry. *)
Definition spec_name (spec : cxpr_expr_param_spec) (st : static_names) (index : nat) : run (option string) :=
  match es_names spec with
  | StaticNames => if index =? 0 then Done st else Undef
  | OwnNames (Some names) => match names !! index with Some name => Done name | None => Undef end
  | OwnNames None => Undef
  end.

(** [spec.kinds && spec.kinds[index] == CXPR_EXPR_ARG_SCALAR_SOURCE] *)
Definition is_scalar_source (spec : cxpr_expr_param_spec) (index : nat) : run bool :=
  match es_kinds spec with
  | None => Done false
  | Some kinds =>
      match kinds !! index with
      | Some CXPR_EXPR_ARG_SCALAR_SOURCE => Done true
      | Some CXPR_EXPR_ARG_NUMERIC => Done false
      | None => Undef
      end
  end.

(** ** The arguments of a call *)

(** The name, arguments and argument names of a function call or a producer
    access. *)
Definition call_parts (a : cxpr_expr_ast)
    : option (string * list cxpr_expr_ast * option (list (option string))) :=
  match ast_node a with
  | CXPR_NODE_FUNCTION_CALL name args names => Some (name, args, names)
  | CXPR_NODE_PRODUCER_ACCESS name args names _ _ => Some (name, args, names)
  | _ => None
  end.

Definition cxpr_runtime_call_arg_raw (a : cxpr_expr_ast) (index : nat) : option cxpr_expr_ast :=
  match call_parts a with Some (_, args, _) => args !! index | None => None end.
Definition cxpr_runtime_call_arg_name (a : cxpr_expr_ast) (index : nat) : option string :=
  match call_parts a with Some (_, _, names) => cxpr_expr_ast_call_arg_name names index | None => None end.
Definition cxpr_runtime_call_argc (a : cxpr_expr_ast) : nat :=
  match call_parts a with Some (_, args, _) => length args | None => 0 end.
Definition cxpr_runtime_call_name (a : cxpr_expr_ast) : option string :=
  match call_parts a with Some (name, _, _) => Some name | None => None end.

(** The first argument at or behind [i] with the given name. *)
Fixpoint find_named (a : cxpr_expr_ast) (name : string) (i n : nat) : option nat :=
  match n with
  | O => None
  | S n =>
      match cxpr_runtime_call_arg_name a i with
      | Some arg_name => if (arg_name =? name)%string then Some i else find_named a name (S i) n
      | None => find_named a name (S i) n
      end
  end.

Definition cxpr_runtime_call_find_named_arg_raw (a : cxpr_expr_ast) (name : string) : option cxpr_expr_ast :=
  if (name =? "")%string then None
  else match find_named a name 0 (cxpr_runtime_call_argc a) with
       | Some i => cxpr_runtime_call_arg_raw a i
       | None => None
       end.

Fixpoint spec_index_loop (spec : cxpr_expr_param_spec) (st : static_names) (name : string) (i n : nat)
    : run (option nat) :=
  match n with
  | O => Done None
  | S n =>
      let* entry := spec_name spec st i in
      match entry with
      | Some entry => if (entry =? name)%string then Done (Some i) else spec_index_loop spec st name (S i) n
      | None => spec_index_loop spec st name (S i) n
      end
  end.

Definition cxpr_runtime_call_spec_index_for_name (spec : cxpr_expr_param_spec) (st : static_names)
    (name : string) : run (option nat) :=
  match es_names spec with
  | OwnNames None => Done None
  | _ => spec_index_loop spec st name 0 (es_count spec)
  end.

(** [for (i = 0u; i < argc; ++i) { if (arg_name(i)) break; } return i;] *)
Fixpoint positional_from (a : cxpr_expr_ast) (i n : nat) : nat :=
  match n with
  | O => i
  | S n => match cxpr_runtime_call_arg_name a i with Some _ => i | None => positional_from a (S i) n end
  end.
Definition cxpr_runtime_call_positional_count (a : cxpr_expr_ast) : nat :=
  positional_from a 0 (cxpr_runtime_call_argc a).

(** The three arguments are not used. *)
Definition cxpr_runtime_call_omitted_leading_sources (_ : cxpr_expr_ast) (_ : cxpr_expr_param_spec) (_ : nat) : nat := 0.

Definition cxpr_runtime_call_scope_spec (p : provider_ref) (a : cxpr_expr_ast) : option (cxpr_provider_scope_spec * string) :=
  match cxpr_runtime_call_name a with
  | None => None
  | Some name =>
      match match cxpr_provider_fn_spec_find p (Some name) with
            | Some fn => named_scope (pf_scope fn) | None => None end with
      | Some scope => Some scope
      | None =>
          match cxpr_provider_source_spec_find p (Some name) with
          | Some source => named_scope (pr_scope source)
          | None => None
          end
      end
  end.

(** The loop of [cxpr_runtime_call_numeric_value_arg_count] from argument [i]
    on. *)
Fixpoint numeric_count_loop (spec : cxpr_expr_param_spec) (st : static_names) (a : cxpr_expr_ast)
    (omitted raw i n count : nat) {struct n} : run nat :=
  match n with
  | O => Done count
  | S n =>
      if raw <=? i then Done count
      else
        let* index :=
          match cxpr_runtime_call_arg_name a i with
          | None => Done (Some (i + omitted))
          | Some arg_name => cxpr_runtime_call_spec_index_for_name spec st arg_name
          end in
        match index with
        | None => numeric_count_loop spec st a omitted raw (S i) n count
        | Some index =>
            let* is_source := if index <? es_count spec then is_scalar_source spec index else Done false in
            numeric_count_loop spec st a omitted raw (S i) n (if is_source then count else S count)
        end
  end.

Definition cxpr_runtime_call_numeric_value_arg_count (p : provider_ref) (a : cxpr_expr_ast)
    (argc raw : nat) (st : static_names) : run (static_names * nat) :=
  match cxpr_provider_expr_param_spec_for p (cxpr_runtime_call_name a) st with
  | (st, None) => Done (st, raw)
  | (st, Some spec) =>
      let omitted := cxpr_runtime_call_omitted_leading_sources a spec (cxpr_runtime_call_positional_count a) in
      let* count := numeric_count_loop spec st a omitted raw 0 argc 0 in
      Done (st, if count <=? raw then count else raw)
  end.

(** The loop of [cxpr_provider_runtime_call_arg] that counts the arguments in
    front of the first named one: [if (arg_name) break; ++positional_count;]. *)
Fixpoint count_positional (a : cxpr_expr_ast) (i n positional_count : nat) : nat :=
  match n with
  | O => positional_count
  | S n =>
      match cxpr_runtime_call_arg_name a i with
      | Some _ => positional_count
      | None => count_positional a (S i) n (S positional_count)
      end
  end.

Definition cxpr_provider_runtime_call_arg (p : provider_ref) (a : cxpr_expr_ast) (index : nat)
    (st : static_names) : run (static_names * option cxpr_expr_ast) :=
  match cxpr_runtime_call_name a with
  | None => Done (st, None)
  | Some name =>
      match cxpr_provider_expr_param_spec_for p (Some name) st with
      | (st, None) => Done (st, cxpr_runtime_call_arg_raw a index)
      | (st, Some spec) =>
          if es_count spec <=? index then Done (st, cxpr_runtime_call_arg_raw a index)
          else
            let argc := cxpr_runtime_call_argc a in
            let positional := count_positional a 0 argc 0 in
            let omitted := cxpr_runtime_call_omitted_leading_sources a spec positional in
            if (omitted <=? index) && (index - omitted <? positional)
            then Done (st, cxpr_runtime_call_arg_raw a (index - omitted))
            else if argc <=? positional then Done (st, None)
            else
              let* name := spec_name spec st index in
              match name with
              | None => Undef
              | Some name =>
                  Done (st, match find_named a name positional (argc - positional) with
                            | Some i => cxpr_runtime_call_arg_raw a i
                            | None => None
                            end)
              end
      end
  end.

(** ** Decoded calls *)

Inductive cxpr_runtime_call_kind : Type :=
  | CXPR_RUNTIME_CALL_INVALID | CXPR_RUNTIME_CALL_FUNCTION | CXPR_RUNTIME_CALL_PRODUCER.

(** [timeframe] is always the same pointer as [scope_value]. *)
Record cxpr_runtime_call : Type := mk_runtime_call {
  ru_kind : cxpr_runtime_call_kind;
  ru_name : string;
  ru_field_name : option string;
  ru_scope_value : option string;
  ru_arg_count : nat;
  ru_value_arg_count : nat
}.

(** The text of a string literal that is not empty. *)
Definition scope_text (a : option cxpr_expr_ast) : option string :=
  match a with
  | Some a => match ast_node a with
              | CXPR_NODE_STRING EmptyString => None
              | CXPR_NODE_STRING text => Some text
              | _ => None
              end
  | None => None
  end.

Definition call_kind (a : cxpr_expr_ast) : cxpr_runtime_call_kind :=
  match ast_node a with
  | CXPR_NODE_FUNCTION_CALL _ _ _ => CXPR_RUNTIME_CALL_FUNCTION
  | CXPR_NODE_PRODUCER_ACCESS _ _ _ _ _ => CXPR_RUNTIME_CALL_PRODUCER
  | _ => CXPR_RUNTIME_CALL_INVALID
  end.

Definition call_field (a : cxpr_expr_ast) : option string :=
  match ast_node a with CXPR_NODE_PRODUCER_ACCESS _ _ _ field _ => Some field | _ => None end.

(** [None] when the function returns 0. *)
Definition cxpr_parse_runtime_call_provider (p : provider_ref) (a : cxpr_expr_ast) (st : static_names)
    : run (static_names * option cxpr_runtime_call) :=
  match call_parts a with
  | None => Done (st, None)
  | Some (name, args, _) =>
      let argc := length args in
      let call scope values := mk_runtime_call (call_kind a) name (call_field a) scope argc values in
      if argc =? 0 then Done (st, Some (call None 0))
      else
        match match cxpr_runtime_call_scope_spec p a with
              | Some (_, param) => scope_text (cxpr_runtime_call_find_named_arg_raw a param)
              | None => None
              end with
        | Some scope =>
            let* '(st, values) := cxpr_runtime_call_numeric_value_arg_count p a argc (argc - 1) st in
            Done (st, Some (call (Some scope) values))
        | None =>
            let scope := scope_text (args !! (argc - 1)) in
            let raw := match scope with Some _ => argc - 1 | None => argc end in
            let* '(st, values) := cxpr_runtime_call_numeric_value_arg_count p a argc raw st in
            Done (st, Some (call scope values))
        end
  end.

Definition cxpr_parse_runtime_call := cxpr_parse_runtime_call_provider None.

(** ** The scope of an expression *)

Record cxpr_resolved_scope : Type := mk_resolved_scope {
  rs_scope_name : string;
  rs_scope_value : string;
  rs_origin : cxpr_expr_ast
}.

(** The scope a call itself has. *)
Definition own_scope (p : provider_ref) (a : cxpr_expr_ast) (st : static_names)
    : run (static_names * option cxpr_resolved_scope) :=
  match cxpr_runtime_call_scope_spec p a with
  | None => Done (st, None)
  | Some (_, param) =>
      let* '(st, call) := cxpr_parse_runtime_call_provider p a st in
      match call with
      | Some call =>
          match ru_scope_value call with
          | Some value => Done (st, Some (mk_resolved_scope param value a))
          | None => Done (st, None)
          end
      | None => Done (st, None)
      end
  end.

(** The trees below a node that are searched, in order. *)
Definition scope_children (a : cxpr_expr_ast) : list cxpr_expr_ast :=
  match ast_node a with
  | CXPR_NODE_FUNCTION_CALL _ args _ => args
  | CXPR_NODE_PRODUCER_ACCESS _ args _ _ _ => args
  | CXPR_NODE_BINARY_OP _ l r => [l; r]
  | CXPR_NODE_UNARY_OP _ x => [x]
  | CXPR_NODE_INDEX t i => [t; i]
  | CXPR_NODE_TERNARY c t f => [c; t; f]
  | _ => []
  end.

Section search.
  Context (search : cxpr_expr_ast → static_names → run (static_names * option cxpr_resolved_scope)).

(** The first of the trees in which a scope is found. *)
Fixpoint first_scope (trees : list cxpr_expr_ast) (st : static_names)
    : run (static_names * option cxpr_resolved_scope) :=
  match trees with
  | [] => Done (st, None)
  | t :: trees =>
      let* '(st, found) := search t st in
      match found with
      | Some scope => Done (st, Some scope)
      | None => first_scope trees st
      end
  end.
End search.

Fixpoint cxpr_resolve_expression_scope (p : provider_ref) (root : cxpr_expr_ast) (st : static_names) {struct root}
    : run (static_names * option cxpr_resolved_scope) :=
  match p with
  | None => Done (st, None)
  | Some _ =>
      let* '(st, own) := own_scope p root st in
      match own with
      | Some scope => Done (st, Some scope)
      | None =>
          match ast_node root with
          | CXPR_NODE_FUNCTION_CALL _ args _ => first_scope (cxpr_resolve_expression_scope p) args st
          | CXPR_NODE_PRODUCER_ACCESS _ args _ _ _ => first_scope (cxpr_resolve_expression_scope p) args st
          | CXPR_NODE_BINARY_OP _ l r => first_scope (cxpr_resolve_expression_scope p) [l; r] st
          | CXPR_NODE_UNARY_OP _ x => first_scope (cxpr_resolve_expression_scope p) [x] st
          | CXPR_NODE_INDEX t i => first_scope (cxpr_resolve_expression_scope p) [t; i] st
          | CXPR_NODE_TERNARY c t f => first_scope (cxpr_resolve_expression_scope p) [c; t; f] st
          | _ => Done (st, None)
          end
      end
  end.

(** ** Numeric arguments *)

Section numeric.
Context {L W : Type} `{!EvalContext L} `{!IRContext L} `{!ApiContext L} `{!HostCode W} `{!HexFormat}.
Context `{!EvalHost L W}.
Context (reg : cxpr_registry) (prepared : string → prepared_program) (fuel t : nat).
Local Open Scope eval_scope.

(** [None] when a read is not possible. *)
Definition of_run {A} (m : run A) (k : A → M L W (static_names * option (list float64)))
    : M L W (static_names * option (list float64)) :=
  match m with
  | Done a => k a
  | OutOfFuel => λ _, OutOfFuel
  | Undef => undef
  end.

(** Parameters [index .. index + n - 1], up to [count] values in all. *)
Fixpoint spec_numbers (p : provider_ref) (spec : cxpr_expr_param_spec) (a : cxpr_expr_ast) (index n count : nat)
    (values : list float64) (st : static_names) {struct n} : M L W (static_names * option (list float64)) :=
  let finish := ret (st, if length values =? count then Some values else None) in
  match n with
  | O => finish
  | S n =>
      if count <=? length values then finish
      else
        of_run (is_scalar_source spec index) (λ is_source,
          if is_source then spec_numbers p spec a (S index) n count values st
          else
            of_run (cxpr_provider_runtime_call_arg p a index st) (λ found,
              match found with
              | (st, None) => ret (st, None)
              | (st, Some arg) =>
                  let! value := cxpr_eval_ast_number reg prepared fuel t arg in
                  match value with
                  | None => ret (st, None)
                  | Some value => spec_numbers p spec a (S index) n count (values ++ [value])%list st
                  end
              end))
  end.

(** Arguments [index .. index + n - 1]. *)
Fixpoint plain_numbers (p : provider_ref) (a : cxpr_expr_ast) (index n : nat)
    (values : list float64) (st : static_names) {struct n} : M L W (static_names * option (list float64)) :=
  match n with
  | O => ret (st, Some values)
  | S n =>
      of_run (cxpr_provider_runtime_call_arg p a index st) (λ found,
        match found with
        | (st, None) => ret (st, None)
        | (st, Some arg) =>
            let! value := cxpr_eval_ast_number reg prepared fuel t arg in
            match value with
            | None => ret (st, None)
            | Some value => plain_numbers p a (S index) n (values ++ [value])%list st
            end
        end)
  end.

Definition cxpr_provider_eval_runtime_call_number_args (p : provider_ref) (a : cxpr_expr_ast)
    (count out_capacity : nat) (st : static_names) : M L W (static_names * option (list float64)) :=
  if out_capacity <? count then ret (st, None)
  else
    match cxpr_provider_expr_param_spec_for p (cxpr_runtime_call_name a) st with
    | (st, Some spec) => spec_numbers p spec a 0 (es_count spec) count [] st
    | (st, None) => plain_numbers p a 0 count [] st
    end.
End numeric.

(** ** Registration *)

Definition CXPR_PROVIDER_NAMES : nat := 64.

(** The names in the order expressions give the arguments; [None] when the
    function returns 0 because a name is missing or there are too many.  The
    array has [pf_param_count] entries, or the call is undefined. *)
Definition cxpr_provider_expr_param_names (spec : cxpr_provider_fn_spec) (cap : nat) : run (option (list string)) :=
  match pf_params spec with
  | None => Done None
  | Some params =>
      if (pf_param_count spec =? 0) || (cap <? pf_param_count spec) then Done None
      else if length params <? pf_param_count spec then Undef
      else
        match mapM (λ p, match p with Some EmptyString | None => None | Some name => Some name end)
                (take (pf_param_count spec) params) with
        | None => Done None
        | Some names =>
            let names := (if pf_source_input spec then "source" :: names else names) in
            if cap <? length names then Done None
            else
              match named_scope (pf_scope spec) with
              | Some (_, scope) => Done (if cap <=? length names then None else Some (names ++ [scope])%list)
              | None => Done (Some names)
              end
        end
  end.

(** [override] is what the host's hook returns, when it has one and answers.
    The counts are far below the bounds of [size_t]. *)
Definition cxpr_provider_host_visible_arg_range (spec : cxpr_provider_fn_spec) (override : option (nat * nat))
    : nat * nat :=
  match override with
  | Some range => range
  | None =>
      let '(min_args, max_args) :=
        match named_scope (pf_scope spec) with
        | Some (scope, _) =>
            (if ps_optional scope then pf_min_args spec else pf_min_args spec + 1, pf_max_args spec + 1)
        | None => (pf_min_args spec, pf_max_args spec)
        end in
      if pf_source_input spec then
        let source_min := 1 + pf_source_min_args spec in
        let source_max := 1 + pf_source_max_args spec in
        let '(scoped_min, scoped_max) :=
          match named_scope (pf_scope spec) with
          | Some (scope, _) => (source_min + (if ps_optional scope then 0 else 1), source_max + 1)
          | None => (source_min, source_max)
          end in
        let min_args := if source_min <? min_args then source_min else min_args in
        let max_args := if max_args <? source_max then source_max else max_args in
        (if scoped_min <? min_args then scoped_min else min_args,
         if max_args <? scoped_max then scoped_max else max_args)
      else (min_args, max_args)
  end.
