(* ===== verification/ProviderProofs.v ===== *)
(** * ProviderProofs: scopes and arguments of provider calls

    The search for a scope gives the first scoped call in the order of the
    text; each argument of a well-formed call is given to the parameter it
    names; and two examples where the code does not do what it means to. *)

From Stdlib Require Import Ascii String ZArith Lia.
From stdpp Require Import base list strings.
From S2P Require Import Prelude Float64 Types Ast References Registry EvalSupport EvalState TreeEval EvalApi Resample Provider.
Local Open Scope string_scope.
Local Open Scope run_scope.
Local Open Scope nat_scope.

(** ** Specifications of a provider are consistent *)

(** The arrays of a specification have [count] entries. *)
Definition spec_ok (spec : cxpr_expr_param_spec) : Prop :=
  match es_names spec with
  | OwnNames (Some names) => es_count spec ≤ length names
  | OwnNames None => True
  | StaticNames => es_count spec ≤ 1
  end ∧
  match es_kinds spec with Some kinds => es_count spec ≤ length kinds | None => True end.

Definition provider_ok (p : cxpr_provider) : Prop :=
  ∀ f name spec, pv_expr_param_spec_for p = Some f → f name = Some spec → spec_ok spec.

Lemma spec_for_ok p name st st' spec :
  provider_ok p → cxpr_provider_expr_param_spec_for (Some p) name st = (st', Some spec) → spec_ok spec.
Proof.
  intros Hp. unfold cxpr_provider_expr_param_spec_for. destruct name as [n|]; [|done].
  destruct (match pv_expr_param_spec_for p with Some f => f n | None => None end) as [s|] eqn:Hs.
  - intros [= <- <-]. destruct (pv_expr_param_spec_for p) as [f|] eqn:Hf; [|done].
    pose proof (Hp f n s Hf Hs) as Hok. exact Hok.
  - destruct (cxpr_provider_source_spec_find _ _) as [source|]; [|done].
    destruct (named_scope (pr_scope source)) as [[scope scope_name]|]; [|done]. intros [= <- <-]. split; simpl; [lia|done].
Qed.

Lemma spec_name_done spec st index :
  spec_ok spec → es_names spec ≠ OwnNames None → index < es_count spec →
  ∃ name, spec_name spec st index = Done name.
Proof.
  intros [Hn _] Hne Hi. unfold spec_name. destruct (es_names spec) as [[names|]|]; [|done|].
  - destruct (lookup_lt_is_Some_2 names index) as [x ->]; [lia|]. eauto.
  - destruct (Nat.eqb_spec index 0); [eauto|lia].
Qed.

Lemma spec_index_done spec st name i n :
  spec_ok spec → es_names spec ≠ OwnNames None → i + n ≤ es_count spec →
  ∃ index, spec_index_loop spec st name i n = Done index ∧ (∀ k, index = Some k → k < es_count spec).
Proof.
  intros Hok Hne. revert i. induction n as [|n IH]; intros i Hi; cbn [spec_index_loop].
  - exists None. by split.
  - destruct (spec_name_done spec st i Hok Hne) as [entry ->]; [lia|]. cbn [run_bind].
    destruct entry as [entry|]; [|apply IH; lia].
    destruct (entry =? name)%string; [|apply IH; lia]. exists (Some i). split; [done|]. intros k [= <-]. lia.
Qed.

Lemma is_scalar_source_done spec index :
  spec_ok spec → index < es_count spec → ∃ b, is_scalar_source spec index = Done b.
Proof.
  intros [_ Hk] Hi. unfold is_scalar_source. destruct (es_kinds spec) as [kinds|]; [|eauto].
  destruct (lookup_lt_is_Some_2 kinds index) as [[] ->]; [lia|eauto..].
Qed.

Lemma numeric_count_done spec st a omitted raw i n count :
  spec_ok spec → ∃ count', numeric_count_loop spec st a omitted raw i n count = Done count'.
Proof.
  intros Hok. revert i count. induction n as [|n IH]; intros i count; cbn [numeric_count_loop]; [eauto|].
  destruct (raw <=? i); [eauto|].
  assert (Hindex : ∃ index, match cxpr_runtime_call_arg_name a i with
    | None => Done (Some (i + omitted)) | Some arg_name => cxpr_runtime_call_spec_index_for_name spec st arg_name end = Done index).
  { destruct (cxpr_runtime_call_arg_name a i) as [arg_name|]; [|eauto].
    unfold cxpr_runtime_call_spec_index_for_name.
    destruct (es_names spec) as [[names|]|] eqn:En; [|eauto|];
      (destruct (spec_index_done spec st arg_name 0 (es_count spec) Hok) as (k & -> & _); [congruence|lia|eauto]). }
  destruct Hindex as [index ->]. cbn [run_bind]. destruct index as [index|]; [|apply IH].
  destruct (Nat.ltb_spec index (es_count spec)) as [Hlt|Hge]; cbn [run_bind]; [|apply IH].
  destruct (is_scalar_source_done spec index Hok Hlt) as [b ->]. cbn [run_bind]. apply IH.
Qed.

Lemma numeric_value_done p a argc raw st :
  provider_ok p → ∃ st' n, cxpr_runtime_call_numeric_value_arg_count (Some p) a argc raw st = Done (st', n).
Proof.
  intros Hp. unfold cxpr_runtime_call_numeric_value_arg_count.
  destruct (cxpr_provider_expr_param_spec_for _ _ st) as [st' [spec|]] eqn:Hs; [|eauto].
  apply spec_for_ok in Hs; [|done]. edestruct (numeric_count_done spec st' a) as [c ->]; [exact Hs|].
  cbn [run_bind]. eauto.
Qed.

(** ** Scopes *)

(** The scope a call gives: the text of its scope argument, or of its last
    argument. *)
Definition call_scope (p : cxpr_provider) (a : cxpr_expr_ast) : option cxpr_resolved_scope :=
  match cxpr_runtime_call_scope_spec (Some p) a, call_parts a with
  | Some (_, param), Some (_, args, _) =>
      match scope_text (cxpr_runtime_call_find_named_arg_raw a param) with
      | Some value => Some (mk_resolved_scope param value a)
      | None =>
          match scope_text (last args) with
          | Some value => Some (mk_resolved_scope param value a)
          | None => None
          end
      end
  | _, _ => None
  end.

(** The nodes of a tree that are searched, in the order of the text. *)
Fixpoint searched (a : cxpr_expr_ast) : list cxpr_expr_ast :=
  a :: match ast_node a with
       | CXPR_NODE_FUNCTION_CALL _ args _ => concat (map searched args)
       | CXPR_NODE_PRODUCER_ACCESS _ args _ _ _ => concat (map searched args)
       | CXPR_NODE_BINARY_OP _ l r => searched l ++ searched r
       | CXPR_NODE_UNARY_OP _ x => searched x
       | CXPR_NODE_INDEX t i => searched t ++ searched i
       | CXPR_NODE_TERNARY c t f => searched c ++ searched t ++ searched f
       | _ => []
       end%list.

Lemma scope_spec_parts p a scope : cxpr_runtime_call_scope_spec p a = Some scope → is_Some (call_parts a).
Proof.
  unfold cxpr_runtime_call_scope_spec, cxpr_runtime_call_name. destruct (call_parts a); [eauto|done].
Qed.

Lemma own_scope_done p a st :
  provider_ok p → ∃ st', own_scope (Some p) a st = Done (st', call_scope p a).
Proof.
  intros Hp. unfold own_scope, call_scope.
  destruct (cxpr_runtime_call_scope_spec (Some p) a) as [[scope param]|] eqn:Hspec; [|eauto].
  destruct (scope_spec_parts _ _ _ Hspec) as [[[name args] names] Hparts].
  unfold cxpr_parse_runtime_call_provider. rewrite Hparts, Hspec.
  destruct (Nat.eqb_spec (length args) 0) as [Hl|Hl].
  { apply nil_length_inv in Hl. subst args. unfold cxpr_runtime_call_find_named_arg_raw, cxpr_runtime_call_argc.
    rewrite Hparts. cbn. destruct (param =? "")%string; simpl; eauto. }
  destruct (scope_text (cxpr_runtime_call_find_named_arg_raw a param)) as [value|].
  - destruct (numeric_value_done p a (length args) (length args - 1) st Hp) as (st' & n & ->). cbn [run_bind]. simpl. eauto.
  - match goal with |- context [cxpr_runtime_call_numeric_value_arg_count _ a ?n ?raw st] =>
      destruct (numeric_value_done p a n raw st Hp) as (st' & k & ->) end. cbn [run_bind].
    assert (Hlast : last args = args !! (length args - 1)) by (rewrite last_lookup; f_equal; lia).
    rewrite Hlast. simpl ru_scope_value. destruct (scope_text (args !! (length args - 1))); eauto.
Qed.

Definition first_of (p : cxpr_provider) (nodes : list cxpr_expr_ast) : option cxpr_resolved_scope :=
  head (omap (call_scope p) nodes).

Lemma first_of_app p l k :
  first_of p (l ++ k)%list = match first_of p l with Some s => Some s | None => first_of p k end.
Proof. unfold first_of. rewrite omap_app. by destruct (omap (call_scope p) l). Qed.

(** The search of a list of trees, when the search of each gives the first of
    its nodes. *)
Lemma first_scope_done p trees :
  Forall (λ t, ∀ st, ∃ st', cxpr_resolve_expression_scope (Some p) t st = Done (st', first_of p (searched t))) trees →
  ∀ st, ∃ st', first_scope (cxpr_resolve_expression_scope (Some p)) trees st =
    Done (st', first_of p (concat (map searched trees))).
Proof.
  induction 1 as [|t trees Ht _ IH]; intros st; cbn [first_scope map concat]; [eauto|].
  destruct (Ht st) as [st1 ->]. cbn [run_bind]. rewrite first_of_app.
  destruct (first_of p (searched t)); [eauto|apply IH].
Qed.

Lemma resolve_scope_done p a st :
  provider_ok p → ∃ st', cxpr_resolve_expression_scope (Some p) a st = Done (st', first_of p (searched a)).
Proof.
  intros Hp. revert st. induction a as [s data IH] using ast_ind. intros st.
  assert (Hstep : ∀ trees, (∀ x, In x trees → In x (children data)) → ∀ st, ∃ st',
    first_scope (cxpr_resolve_expression_scope (Some p)) trees st = Done (st', first_of p (concat (map searched trees)))).
  { intros trees Hin. apply first_scope_done. apply Forall_forall. intros x Hx. rewrite Forall_forall in IH.
    apply IH. by apply list_elem_of_In, Hin, list_elem_of_In. }
  destruct (own_scope_done p (Ast s data) st Hp) as [st1 Hown].
  assert (Hsearched : searched (Ast s data) = Ast s data :: concat (map searched (scope_children (Ast s data)))).
  { unfold scope_children. destruct data; simpl; rewrite ?app_nil_r; done. }
  rewrite Hsearched. unfold first_of. cbn [omap list_omap]. fold (first_of p).
  assert (Hcases : cxpr_resolve_expression_scope (Some p) (Ast s data) st =
    let* '(st, own) := own_scope (Some p) (Ast s data) st in
    match own with
    | Some scope => Done (st, Some scope)
    | None => first_scope (cxpr_resolve_expression_scope (Some p)) (scope_children (Ast s data)) st
    end).
  { unfold scope_children. destruct data; cbn [cxpr_resolve_expression_scope ast_node];
      (destruct (own_scope (Some p) _ st) as [[? []]| |]; reflexivity). }
  rewrite Hcases, Hown. cbn [run_bind]. destruct (call_scope p (Ast s data)) as [scope|]; [by eauto|].
  apply Hstep. unfold scope_children. intros x Hx. by destruct data.
Qed.

(** The search for the scope of an expression always returns and gives the
    scope of the first call, in the order of the text, whose function or source
    declares a scope and which has a scope text; it finds none exactly when no
    searched node has one.  The state of the shared name array does not
    matter. *)
Theorem resolve_scope_first (p : cxpr_provider) (root : cxpr_expr_ast) (st : static_names) (Hp : provider_ok p) :
  ∃ st', cxpr_resolve_expression_scope (Some p) root st = Done (st', head (omap (call_scope p) (searched root))).
Proof. apply (resolve_scope_done p root st Hp). Qed.

(** ** Arguments by parameter *)

Lemma find_named_some a name i n j :
  find_named a name i n = Some j →
  i ≤ j < i + n ∧ cxpr_runtime_call_arg_name a j = Some name ∧
  (∀ k, i ≤ k < j → cxpr_runtime_call_arg_name a k ≠ Some name).
Proof.
  revert i. induction n as [|n IH]; intros i; cbn [find_named]; [done|].
  assert (Hstep : cxpr_runtime_call_arg_name a i ≠ Some name → find_named a name (S i) n = Some j →
    i ≤ j < i + S n ∧ cxpr_runtime_call_arg_name a j = Some name ∧
    (∀ k, i ≤ k < j → cxpr_runtime_call_arg_name a k ≠ Some name)).
  { intros Hne Hf. apply IH in Hf as (Hj & Hname & Hmin). split; [lia|]. split; [done|]. intros k Hk.
    destruct (decide (k = i)) as [->|]; [done|]. apply Hmin. lia. }
  destruct (cxpr_runtime_call_arg_name a i) as [x|] eqn:Hx; [|by apply Hstep].
  destruct (String.eqb_spec x name) as [->|Hne]; [|apply Hstep; congruence].
  intros [= <-]. split; [lia|]. split; [done|]. lia.
Qed.

Lemma find_named_none a name i n j :
  find_named a name i n = None → i ≤ j < i + n → cxpr_runtime_call_arg_name a j ≠ Some name.
Proof.
  revert i. induction n as [|n IH]; intros i; cbn [find_named]; [lia|].
  destruct (cxpr_runtime_call_arg_name a i) as [x|] eqn:Hx.
  - destruct (String.eqb_spec x name) as [->|Hne]; [done|]. intros Hf Hj.
    destruct (decide (j = i)) as [->|]; [congruence|]. apply (IH (S i) Hf). lia.
  - intros Hf Hj. destruct (decide (j = i)) as [->|]; [congruence|]. apply (IH (S i) Hf). lia.
Qed.

(** No two arguments of a call have the same name. *)
Definition names_distinct (a : cxpr_expr_ast) : Prop :=
  ∀ i j name, cxpr_runtime_call_arg_name a i = Some name → cxpr_runtime_call_arg_name a j = Some name → i = j.

(** Argument [i] of the call is positional: it has no name, and none before it
    has one. *)
Definition is_positional (a : cxpr_expr_ast) (i : nat) : Prop :=
  i < cxpr_runtime_call_argc a ∧ ∀ j, j ≤ i → cxpr_runtime_call_arg_name a j = None.

(** Argument [i] of the call is for parameter [k]: a positional one by its
    place, any other by its name, unless a positional argument is for [k]. *)
Definition given_to (a : cxpr_expr_ast) (names : list (option string)) (i k : nat) : Prop :=
  (i = k ∧ is_positional a i) ∨
  (¬ is_positional a k ∧ ∃ name, cxpr_runtime_call_arg_name a i = Some name ∧ names !! k = Some (Some name)).

(** The loop counts exactly the positional arguments. *)
Lemma count_positional_from a i n :
  (∀ j, j < i → cxpr_runtime_call_arg_name a j = None) →
  ∀ k, k < count_positional a i n i ↔ k < i + n ∧ ∀ j, j ≤ k → j < i + n → cxpr_runtime_call_arg_name a j = None.
Proof.
  revert i. induction n as [|n IH]; intros i Hi k; cbn [count_positional].
  { rewrite Nat.add_0_r. split; [|tauto]. intros Hk. split; [done|]. intros j _ Hj. by apply Hi. }
  destruct (cxpr_runtime_call_arg_name a i) as [name|] eqn:Hname.
  - split; [intros Hk; split; [lia|]; intros j Hj _; apply Hi; lia|]. intros [_ Hk].
    destruct (Nat.lt_ge_cases k i) as [|Hge]; [done|]. specialize (Hk i Hge ltac:(lia)). congruence.
  - rewrite (IH (S i)), Nat.add_succ_comm; [done|]. intros j Hj.
    destruct (decide (j = i)) as [->|]; [done|]. apply Hi. lia.
Qed.

Lemma count_positional_iff a k :
  k < count_positional a 0 (cxpr_runtime_call_argc a) 0 ↔ is_positional a k.
Proof.
  rewrite count_positional_from by lia. unfold is_positional. simpl. split; intros [Hk Hn]; (split; [done|]).
  - intros j Hj. apply Hn; lia.
  - auto.
Qed.

Lemma arg_raw_lt a i x : cxpr_runtime_call_arg_raw a i = Some x → i < cxpr_runtime_call_argc a.
Proof.
  unfold cxpr_runtime_call_arg_raw, cxpr_runtime_call_argc. destruct (call_parts a) as [[[? args] ?]|]; [|done].
  apply lookup_lt_Some.
Qed.

(** C40: In a call of a function whose parameters the provider names, the
    argument handed over for a parameter is exactly the one the call gives to
    it: the argument at its place when neither that one nor any before it is
    named, and otherwise the argument with its name; a parameter that the call
    gives nothing is handed nothing.  The provider has a name for each of its
    parameters, and no two arguments have the same name.  No read is out of the
    bounds of the provider's arrays. *)
Theorem runtime_call_arg_bound (p : cxpr_provider) (f : string → option cxpr_expr_param_spec) (a : cxpr_expr_ast)
    (fname : string) (spec : cxpr_expr_param_spec) (names : list (option string)) (k : nat) (st : static_names)
    (Hf : pv_expr_param_spec_for p = Some f) (Hcall : cxpr_runtime_call_name a = Some fname)
    (Hspec : f fname = Some spec) (Hnames : es_names spec = OwnNames (Some names))
    (Hsome : ∀ i, i < es_count spec → ∃ name, names !! i = Some (Some name))
    (Hdistinct : names_distinct a) (Hk : k < es_count spec) :
  ∃ found, cxpr_provider_runtime_call_arg (Some p) a k st = Done (st, found) ∧
    ∀ x, found = Some x ↔ ∃ i, cxpr_runtime_call_arg_raw a i = Some x ∧ given_to a names i k.
Proof.
  unfold cxpr_provider_runtime_call_arg. rewrite Hcall. cbn [cxpr_provider_expr_param_spec_for]. rewrite Hf, Hspec.
  cbn [with_sugar es_count]. destruct (Nat.leb_spec (es_count spec) k) as [|_]; [lia|].
  cbn [cxpr_runtime_call_omitted_leading_sources Nat.leb andb]. rewrite Nat.sub_0_r.
  pose proof (count_positional_iff a) as Hpos. set (pos := count_positional _ _ _ _) in *.
  assert (Hnamed : ∀ i name, cxpr_runtime_call_arg_name a i = Some name → pos ≤ i).
  { intros i name Hi. destruct (Nat.lt_ge_cases i pos) as [[_ Hn]%Hpos|]; [|done]. rewrite Hn in Hi; done. }
  destruct (Nat.ltb_spec k pos) as [Hlt|Hge].
  { eexists; split; [reflexivity|]. intros x. split.
    - intros Hx. exists k. split; [done|]. left. by rewrite <- Hpos.
    - intros (i & Hx & [[-> _]|[Hk' _]]); [done|]. by rewrite <- Hpos in Hk'. }
  destruct (Nat.leb_spec (cxpr_runtime_call_argc a) pos) as [Hall|Hsomenamed].
  { eexists; split; [reflexivity|]. intros x. split; [done|].
    intros (i & Hx%arg_raw_lt & [[-> Hi%Hpos]|(_ & name & Hi%Hnamed & _)]); lia. }
  destruct (Hsome k Hk) as [name Hname]. unfold spec_name. cbn [with_sugar es_names]. rewrite Hnames, Hname.
  cbn [run_bind]. eexists; split; [reflexivity|]. intros x.
  destruct (find_named a name pos (cxpr_runtime_call_argc a - pos)) as [j|] eqn:Hfind.
  - apply find_named_some in Hfind as (Hj & Harg & _). split.
    + intros Hx. exists j. split; [done|]. right. rewrite <- Hpos. split; [lia|]. eauto.
    + intros (i & Hx & [[-> Hi%Hpos]|(_ & n' & Hn' & Hk')]); [lia|].
      assert (n' = name) as -> by congruence. by rewrite (Hdistinct j i name Harg Hn').
  - split; [done|]. intros (i & Hx & [[-> Hi%Hpos]|(_ & n' & Hn' & Hk')]); [lia|].
    assert (n' = name) as -> by congruence. apply arg_raw_lt in Hx. pose proof (Hnamed _ _ Hn').
    exfalso. by apply (find_named_none _ _ _ _ i Hfind); [lia|].
Qed.

(** ** Concrete calls *)

(** An indicator [ema(source, period, timeframe)] whose scope is the time frame,
    and two sources, [close] and [volume], with their own scope names. *)
Definition ema_names : list (option string) := [Some "source"; Some "period"; Some "timeframe"].
Definition ema_params : cxpr_expr_param_spec :=
  mk_param_spec (OwnNames (Some ema_names))
    (Some [CXPR_EXPR_ARG_SCALAR_SOURCE; CXPR_EXPR_ARG_NUMERIC; CXPR_EXPR_ARG_NUMERIC]) 3 1 None None true.
Definition ema_find (name : string) : option cxpr_expr_param_spec :=
  if (name =? "ema")%string then Some ema_params else None.
Definition market : cxpr_provider :=
  mk_provider
    (λ name, if (name =? "ema")%string
             then Some (mk_fn_spec (Some "ema") 1 2 0 0 None 0 true (Some (mk_scope_spec (Some "timeframe") true)))
             else None)
    (λ name, if (name =? "close")%string then Some (mk_source_spec (Some name) 0 0 (Some (mk_scope_spec (Some "timeframe") true)))
             else if (name =? "volume")%string then Some (mk_source_spec (Some name) 0 0 (Some (mk_scope_spec (Some "venue") true)))
             else None)
    (Some ema_find).

Definition text (s : string) : cxpr_expr_ast := new_node (CXPR_NODE_STRING s).
Definition ident (s : string) : cxpr_expr_ast := new_node (CXPR_NODE_IDENTIFIER s).
Definition ema_source_first : cxpr_expr_ast :=
  new_node (CXPR_NODE_FUNCTION_CALL "ema" [ident "price"; ident "n"; text "1d"]
    (Some [Some "source"; Some "period"; Some "timeframe"])).
Definition ema_source_last : cxpr_expr_ast :=
  new_node (CXPR_NODE_FUNCTION_CALL "ema" [ident "n"; text "1d"; ident "price"]
    (Some [Some "period"; Some "timeframe"; Some "source"])).
Definition scoped_sum : cxpr_expr_ast :=
  new_node (CXPR_NODE_BINARY_OP CXPR_TOK_PLUS (ident "x") (new_node (CXPR_NODE_UNARY_OP CXPR_TOK_MINUS ema_source_last))).

Lemma market_ok : provider_ok market.
Proof.
  intros f name spec [= <-]. unfold ema_find. destruct (name =? "ema")%string; [|done]. intros [= <-]. split; simpl; lia.
Qed.

Lemma resolve_scope_first_witness :
  ∃ st', cxpr_resolve_expression_scope (Some market) scoped_sum None =
    Done (st', Some (mk_resolved_scope "timeframe" "1d" ema_source_last)).
Proof. destruct (resolve_scope_first market scoped_sum None market_ok) as [st' ->]. by exists st'. Defined.

Lemma runtime_call_arg_bound_witness :
  ∃ found, cxpr_provider_runtime_call_arg (Some market) ema_source_last 0 None = Done (None, found) ∧
    ∀ x, found = Some x ↔ ∃ i, cxpr_runtime_call_arg_raw ema_source_last i = Some x ∧ given_to ema_source_last ema_names i 0.
Proof.
  apply (runtime_call_arg_bound market ema_find ema_source_last "ema" ema_params ema_names 0 None); try reflexivity.
  - intros [|[|[|i]]] Hi; simpl in *; eauto; lia.
  - intros [|[|[|i]]] [|[|[|j]]] name Hi Hj; cbn in Hi, Hj; by simplify_eq.
  - simpl. lia.
Defined.

(** The number of numeric arguments depends on the order of named arguments: a
    scope argument in front of the source is counted as one, although the scope
    was taken off the count already. *)
Example numeric_count_depends_on_order :
  ru_value_arg_count <$> (match cxpr_parse_runtime_call_provider (Some market) ema_source_first None with
                          | Done (_, call) => call | _ => None end) = Some 1 ∧
  ru_value_arg_count <$> (match cxpr_parse_runtime_call_provider (Some market) ema_source_last None with
                          | Done (_, call) => call | _ => None end) = Some 2.
Proof. split; reflexivity. Qed.

(** The specification of a source keeps its parameter's name only until that of
    another one is asked for. *)
Example source_specification_overwritten :
  let '(st1, spec) := cxpr_provider_expr_param_spec_for (Some market) (Some "close") None in
  let '(st2, _) := cxpr_provider_expr_param_spec_for (Some market) (Some "volume") st1 in
  (λ s, spec_name s st1 0) <$> spec = Some (Done (Some "timeframe")) ∧
  (λ s, spec_name s st2 0) <$> spec = Some (Done (Some "venue")).
Proof. split; reflexivity. Qed.
