(* ===== verification/Engine.v ===== *)
(** * Engine: sessions over sources and rules
    ([src/engine/internal.h], [source.c], [session.c] and the resolver of
    [lookback.c])

    A tick reads the sources, appends their values to rings, evaluates the rule
    set and reports the edges of watched expressions.  The context of a session,
    its evaluator and the evaluation of trees are interfaces; the host's
    functions are functions on its state [W].  Requests for memory during a tick
    are granted where no argument says otherwise, and a copied value is the
    value. *)

From Stdlib Require Import Ascii String ZArith Lia.
From stdpp Require Import base list strings.
From S2P Require Import Prelude Float64 Types Lexer Ast References IR Context.
Local Open Scope string_scope.
Local Open Scope run_scope.
Local Open Scope nat_scope.

(** ** Rings *)

(** A circular buffer, the newest sample at [rg_head]; [None] is a cell that was
    not written yet.  [engine_ring], the ring of an [engine_source] and the one of
    an [engine_arg_ring_entry] have these fields. *)
Record engine_ring (A : Type) : Type := mk_ring {
  rg_buf : option (list (option A));
  rg_cap : nat;
  rg_head : nat;
  rg_count : nat
}.
Arguments mk_ring {A}. Arguments rg_buf {A}. Arguments rg_cap {A}. Arguments rg_head {A}. Arguments rg_count {A}.

Definition ring_none {A} : engine_ring A := mk_ring None 0 0 0.
Definition ring_new {A} (cap : nat) : engine_ring A := mk_ring (Some (replicate cap None)) cap 0 0.
Definition ring_clear {A} (r : engine_ring A) : engine_ring A := mk_ring (rg_buf r) (rg_cap r) 0 0.

Definition engine_ring_append {A} (r : engine_ring A) (v : A) : run (engine_ring A) :=
  match rg_buf r with
  | None => Done r
  | Some cells =>
      if rg_cap r =? 0 then Done r
      else
        let head := (rg_head r + 1) mod rg_cap r in
        if head <? length cells then
          Done (mk_ring (Some (<[head := Some v]> cells)) (rg_cap r) head
                  (if rg_count r <? rg_cap r then rg_count r + 1 else rg_count r))
        else Undef
  end.

(** [None] when nothing was recorded that far back. *)
Definition engine_ring_read {A} (r : engine_ring A) (depth : nat) : run (option A) :=
  match rg_buf r with
  | None => Done None
  | Some cells =>
      if rg_count r <=? depth then Done None
      else if rg_cap r =? 0 then Undef
      else
        match cells !! ((rg_head r + rg_cap r - depth) mod rg_cap r) with
        | Some (Some v) => Done (Some v)
        | _ => Undef
        end
  end.

(** The write to [buf[head]] behind the evaluation of a tick. *)
Definition ring_fill_head {A} (r : engine_ring A) (v : A) : run (engine_ring A) :=
  match rg_buf r with
  | None => Done r
  | Some cells =>
      if rg_head r <? length cells
      then Done (mk_ring (Some (<[rg_head r := Some v]> cells)) (rg_cap r) (rg_head r) (rg_count r))
      else Undef
  end.

(** ** Interfaces *)

(** What a session asks of a context. *)
Class EngineContext (C : Type) : Type := {
  context_slot : Type;
  context_set : C → string → float64 → run C;
  context_bind : C → string → run (bool * context_slot);
  context_slot_valid : C → context_slot → bool;
  context_write : C → context_slot → float64 → run C;
  context_clear_cached : C → run C;
  context_clone : C → run C;
  context_set_param : C → string → cxpr_value → run C;
  context_get_param : C → string → run (option cxpr_value);
  context_with_parent : option C → C → C;
  context_parent : C → option C
}.

(** Doubles in the memory of the host, by address. *)
Class EngineMemory (W : Type) : Type := { host_double : W → Z → option float64 }.

Inductive engine_source_kind : Type := ENGINE_SRC_PULL | ENGINE_SRC_VIEW | ENGINE_SRC_COLUMN.
Inductive cxpr_engine_edge : Type := CXPR_EDGE_RISING | CXPR_EDGE_FALLING | CXPR_EDGE_LEVEL | CXPR_EDGE_CHANGED.

Section engine.
Context {C W : Type} `{!EngineContext C} `{!EngineMemory W}.

(** ** Sessions *)

(** [so_userdata] and [so_base] are addresses.  A view that has no value returns
    [None]. *)
Record engine_source : Type := mk_source {
  so_name : string;
  so_kind : engine_source_kind;
  so_pull_fn : option (string → list float64 → Z → W → W * float64);
  so_view_fn : option (Z → string → list float64 → Z → W → W * option float64);
  so_map_index_fn : option (Z → Z → W → W * Z);
  so_userdata : Z;
  so_base : option Z;
  so_stride : Z;
  so_count : Z;
  so_referenced : bool;
  so_hydrate_bare : bool;
  so_max_lookback : nat;
  so_ring : engine_ring float64;
  so_slot : context_slot;
  so_slot_bound : bool
}.

(** A pointer to a source is its index. *)
Record engine_source_memo_entry : Type := mk_memo {
  me_src : nat;
  me_args : list float64;
  me_offset : nat;
  me_value : float64
}.

Record engine_arg_ring_entry : Type := mk_arg_ring {
  ar_src : nat;
  ar_args : list float64;
  ar_ring : engine_ring float64;
  ar_last_append_cursor : Z
}.

(** The part of a session that evaluation reaches through the thread-local
    pointer, and the state of the host. *)
Record engine_state : Type := mk_state {
  st_ctx : C;
  st_cursor : Z;
  st_sources : list engine_source;
  st_expr_rings : list (engine_ring cxpr_value);
  st_memo : list engine_source_memo_entry;
  st_memo_cap : nat;
  st_arg_rings : list engine_arg_ring_entry;
  st_world : W
}.

Definition with_ctx (c : C) (st : engine_state) : engine_state :=
  mk_state c (st_cursor st) (st_sources st) (st_expr_rings st) (st_memo st) (st_memo_cap st) (st_arg_rings st)
    (st_world st).
Definition with_cursor (z : Z) (st : engine_state) : engine_state :=
  mk_state (st_ctx st) z (st_sources st) (st_expr_rings st) (st_memo st) (st_memo_cap st) (st_arg_rings st)
    (st_world st).
Definition with_sources (l : list engine_source) (st : engine_state) : engine_state :=
  mk_state (st_ctx st) (st_cursor st) l (st_expr_rings st) (st_memo st) (st_memo_cap st) (st_arg_rings st)
    (st_world st).
Definition with_expr_rings (l : list (engine_ring cxpr_value)) (st : engine_state) : engine_state :=
  mk_state (st_ctx st) (st_cursor st) (st_sources st) l (st_memo st) (st_memo_cap st) (st_arg_rings st)
    (st_world st).
Definition with_memo (l : list engine_source_memo_entry) (st : engine_state) : engine_state :=
  mk_state (st_ctx st) (st_cursor st) (st_sources st) (st_expr_rings st) l (st_memo_cap st) (st_arg_rings st)
    (st_world st).
Definition with_arg_rings (l : list engine_arg_ring_entry) (st : engine_state) : engine_state :=
  mk_state (st_ctx st) (st_cursor st) (st_sources st) (st_expr_rings st) (st_memo st) (st_memo_cap st) l
    (st_world st).
Definition with_world (w : W) (st : engine_state) : engine_state :=
  mk_state (st_ctx st) (st_cursor st) (st_sources st) (st_expr_rings st) (st_memo st) (st_memo_cap st)
    (st_arg_rings st) w.

Definition source_with_ring (r : engine_ring float64) (s : engine_source) : engine_source :=
  mk_source (so_name s) (so_kind s) (so_pull_fn s) (so_view_fn s) (so_map_index_fn s) (so_userdata s) (so_base s)
    (so_stride s) (so_count s) (so_referenced s) (so_hydrate_bare s) (so_max_lookback s) r (so_slot s) (so_slot_bound s).
Definition source_with_slot (slot : context_slot) (bound : bool) (s : engine_source) : engine_source :=
  mk_source (so_name s) (so_kind s) (so_pull_fn s) (so_view_fn s) (so_map_index_fn s) (so_userdata s) (so_base s)
    (so_stride s) (so_count s) (so_referenced s) (so_hydrate_bare s) (so_max_lookback s) (so_ring s) slot bound.

Fixpoint find_source_from (sources : list engine_source) (name : string) (i : nat) : option nat :=
  match sources with
  | [] => None
  | s :: sources => if (so_name s =? name)%string then Some i else find_source_from sources name (S i)
  end.
Definition engine_find_source_in (sources : list engine_source) (name : string) : option nat :=
  find_source_from sources name 0.

(** ** Calls of sources *)

(** [==] on doubles, so a NaN argument matches nothing. *)
Fixpoint engine_arg_tuple_equal (lhs rhs : list float64) : bool :=
  match lhs, rhs with
  | [], [] => true
  | x :: lhs, y :: rhs => feqb x y && engine_arg_tuple_equal lhs rhs
  | _, _ => false
  end.

Definition engine_source_memo_get (st : engine_state) (src : nat) (args : list float64) (offset : nat) : option float64 :=
  me_value <$> List.find (λ e, (me_src e =? src) && (me_offset e =? offset) && engine_arg_tuple_equal (me_args e) args)
    (st_memo st).

Definition engine_source_memo_set (st : engine_state) (src : nat) (args : list float64) (offset : nat) (value : float64)
    : engine_state :=
  if (CXPR_MAX_CALL_ARGS <? length args) || (st_memo_cap st <=? length (st_memo st)) then st
  else with_memo (st_memo st ++ [mk_memo src args offset value])%list st.

Fixpoint find_arg_ring (rings : list engine_arg_ring_entry) (src : nat) (args : list float64) (i : nat) : option nat :=
  match rings with
  | [] => None
  | r :: rings =>
      if (ar_src r =? src) && engine_arg_tuple_equal (ar_args r) args then Some i
      else find_arg_ring rings src args (S i)
  end.
Definition engine_arg_ring_find (st : engine_state) (src : nat) (args : list float64) : option nat :=
  if length args =? 0 then None else find_arg_ring (st_arg_rings st) src args 0.

(** [ok] answers the requests for a new entry and its ring. *)
Definition engine_arg_ring_get_or_create (ok : bool) (st : engine_state) (src : nat) (max_lookback : nat)
    (args : list float64) : engine_state * option nat :=
  if (length args =? 0) || (CXPR_MAX_CALL_ARGS <? length args) || (max_lookback =? 0) then (st, None)
  else
    match engine_arg_ring_find st src args with
    | Some i => (st, Some i)
    | None =>
        if ok then
          (with_arg_rings (st_arg_rings st ++ [mk_arg_ring src args (ring_new (max_lookback + 1)) (-1)])%list st,
           Some (length (st_arg_rings st)))
        else (st, None)
    end.

Definition engine_arg_ring_append (e : engine_arg_ring_entry) (value : float64) (cursor : Z)
    : run engine_arg_ring_entry :=
  match rg_buf (ar_ring e) with
  | None => Done e
  | Some _ =>
      if (rg_cap (ar_ring e) =? 0) || (ar_last_append_cursor e =? cursor)%Z then Done e
      else
        let* r := engine_ring_append (ar_ring e) value in
        Done (mk_arg_ring (ar_src e) (ar_args e) r cursor)
  end.

(** A call of a pull source with arguments that is looked back at somewhere. *)
Definition pull_with_args (ok : bool) (st : engine_state) (i : nat) (src : engine_source)
    (pull : string → list float64 → Z → W → W * float64) (args : list float64) (offset : nat)
    : run (engine_state * option float64) :=
  let '(st, ring) := engine_arg_ring_get_or_create ok st i (so_max_lookback src) args in
  let '(w, current) := pull (so_name src) args (so_userdata src) (st_world st) in
  let st := with_world w st in
  match ring with
  | None => Done (st, None)
  | Some k =>
      match st_arg_rings st !! k with
      | None => Undef
      | Some entry =>
          let* entry := engine_arg_ring_append entry current (st_cursor st) in
          let* v := engine_ring_read (ar_ring entry) offset in
          Done (with_arg_rings (<[k := entry]> (st_arg_rings st)) st, Some (default fnan v))
      end
  end.

Definition resolve_pull (ok : bool) (st : engine_state) (i : nat) (src : engine_source) (args : list float64)
    (offset : nat) : run (engine_state * option float64) :=
  let argc := length args in
  let call (pull : string → list float64 → Z → W → W * float64) :=
    let '(w, v) := pull (so_name src) args (so_userdata src) (st_world st) in
    Done (with_world w st, Some v) in
  match (if (0 <? argc) && (0 <? rg_cap (so_ring src)) then so_pull_fn src else None) with
  | Some pull => pull_with_args ok st i src pull args offset
  | None =>
      if (argc =? 0) && ((0 <? offset) || match rg_buf (so_ring src) with Some _ => true | None => false end) then
        let* v := engine_ring_read (so_ring src) offset in
        Done (st, Some (default fnan v))
      else match so_pull_fn src with
           | Some pull => call pull
           | None => Done (st, Some fnan)
           end
  end.

Definition resolve_view (st : engine_state) (src : engine_source) (args : list float64) (cursor : Z)
    : engine_state * float64 :=
  match so_view_fn src with
  | Some view =>
      if (0 <=? cursor)%Z then
        let '(w, index) :=
          match so_map_index_fn src with
          | Some map_index => map_index cursor (so_userdata src) (st_world st)
          | None => (st_world st, cursor)
          end in
        if (0 <=? index)%Z then
          let '(w, out) := view index (so_name src) args (so_userdata src) w in
          (with_world w st, default fnan out)
        else (with_world w st, fnan)
      else (st, fnan)
  | None => (st, fnan)
  end.

Definition resolve_column (st : engine_state) (src : engine_source) (args : list float64) (cursor : Z)
    : run float64 :=
  match so_base src with
  | Some base =>
      if (length args =? 0) && (0 <=? cursor)%Z && (cursor <? so_count src)%Z then
        match host_double (st_world st) (base + cursor * so_stride src)%Z with
        | Some v => Done v
        | None => Undef
        end
      else Done fnan
  | None => Done fnan
  end.

(** [None] is the failure of an allocation, which the caller's error names. *)
Definition engine_resolve_source_call (ok : bool) (st : engine_state) (i : nat) (args : list float64) (offset : nat)
    : run (engine_state * option float64) :=
  match st_sources st !! i with
  | None => Undef
  | Some src =>
      match engine_source_memo_get st i args offset with
      | Some v => Done (st, Some v)
      | None =>
          let cursor := (st_cursor st - Z.of_nat offset)%Z in
          let* '(st, out) :=
            match so_kind src with
            | ENGINE_SRC_PULL => resolve_pull ok st i src args offset
            | ENGINE_SRC_VIEW => let '(st, v) := resolve_view st src args cursor in Done (st, Some v)
            | ENGINE_SRC_COLUMN => let* v := resolve_column st src args cursor in Done (st, Some v)
            end in
          match out with
          | None => Done (st, None)
          | Some v => Done (engine_source_memo_set st i args offset v, Some v)
          end
      end
  end.

(** ** Lookback *)

Record engine_watch : Type := mk_watch { wa_expr_name : string; wa_edge : cxpr_engine_edge }.
Record engine_tracked_expr : Type := mk_tracked { tr_name : string; tr_max_depth : nat }.

(** The fields of a program a session reads. *)
Record cxpr_engine_program : Type := mk_program {
  pg_watches : list engine_watch;
  pg_tracked : list engine_tracked_expr;
  pg_external_params : list string
}.

Definition engine_error (code : cxpr_error_code) (message : string) : cxpr_error :=
  mk_error code (Some message) 0 0 0.

Fixpoint tracked_from (tracked : list engine_tracked_expr) (name : string) (i : nat) : option nat :=
  match tracked with
  | [] => None
  | t :: tracked => if (tr_name t =? name)%string then Some i else tracked_from tracked name (S i)
  end.
Definition engine_tracked_index (prog : cxpr_engine_program) (name : string) : option nat :=
  tracked_from (pg_tracked prog) name 0.

Definition engine_struct_field_value (v : cxpr_value) (field : string) : option cxpr_value :=
  match v with VStruct s => Context.field_of s field | _ => None end.

Definition engine_struct_path_value (v : cxpr_value) (segments : list string) : option cxpr_value :=
  match segments with
  | [] => None
  | _ => fold_left (λ v segment, v ≫= λ v, engine_struct_field_value v segment) segments (Some v)
  end.

Section rules.
(** An evaluator of a rule set: its evaluation, the result of a rule, and the
    evaluation of a tree in a context, with the thread-local offset. *)
Class EngineRules (E : Type) : Type := {
  rules_eval : E → engine_state → run (E * engine_state * cxpr_error);
  rules_get : E → string → option cxpr_value;
  eval_number : E → nat → cxpr_expr_ast → C → engine_state → run (engine_state * (float64 + cxpr_error));
  eval_tree : E → nat → cxpr_expr_ast → C → engine_state → run (engine_state * (cxpr_value + cxpr_error))
}.
End rules.

Context {E : Type} `{!EngineRules E}.

Definition engine_tracked_expression_value (prog : cxpr_engine_program) (ev : E) (st : engine_state)
    (index lookback : nat) : run (option cxpr_value) :=
  match st_expr_rings st !! index, pg_tracked prog !! index with
  | Some ring, Some t =>
      match (if lookback =? 0 then rules_get ev (tr_name t) else None) with
      | Some v => Done (Some v)
      | None => engine_ring_read ring lookback
      end
  | None, _ => Done None
  | Some _, None => Undef
  end.

(** The values of the arguments, or the error of the first that has none. *)
Fixpoint eval_args (ev : E) (tls : nat) (args : list cxpr_expr_ast) (c : C) (st : engine_state)
    : run (engine_state * (list float64 + cxpr_error)) :=
  match args with
  | [] => Done (st, inl [])
  | a :: args =>
      let* '(st, v) := eval_number ev tls a c st in
      match v with
      | inr e => Done (st, inr e)
      | inl v =>
          let* '(st, vs) := eval_args ev tls args c st in
          Done (st, match vs with inl vs => inl (v :: vs) | inr e => inr e end)
      end
  end.

Definition engine_eval_call_args (ev : E) (tls : nat) (args : list cxpr_expr_ast) (c : C) (st : engine_state)
    : run (engine_state * (list float64 + cxpr_error)) :=
  if CXPR_MAX_CALL_ARGS <? length args
  then Done (st, inr (engine_error CXPR_ERR_WRONG_ARITY "engine: source call has too many arguments"))
  else eval_args ev tls args c st.

Definition ring_error : cxpr_error :=
  engine_error CXPR_ERR_OUT_OF_MEMORY "engine: failed to allocate pull source argument ring".

(** The value and the error of a call [name(args)] during a tick. *)
Definition engine_source_call (ok : bool) (ev : E) (tls : nat) (name : string) (args : list cxpr_expr_ast) (c : C)
    (st : engine_state) : run (engine_state * (cxpr_value * option cxpr_error)) :=
  match engine_find_source_in (st_sources st) name with
  | None => Done (st, (VNum fnan, Some (engine_error CXPR_ERR_UNKNOWN_IDENTIFIER "engine: unknown source call")))
  | Some i =>
      let* '(st, vs) := engine_eval_call_args ev tls args c st in
      match vs with
      | inr e => Done (st, (VNum fnan, Some e))
      | inl vs =>
          let* '(st, v) := engine_resolve_source_call ok st i vs tls in
          Done (st, match v with Some v => (VNum v, None) | None => (VNum fnan, Some ring_error) end)
      end
  end.

Definition CXPR_ENGINE_LOOKBACK_OFFSET_KEY : string := "__cxpr_engine_lookback_offset".

(** Sources [i .. i + n - 1] of the session, into the context [c]. *)
Fixpoint hydrate_at (c : C) (offset i n : nat) (st : engine_state) {struct n} : run (C * engine_state) :=
  match n with
  | O => Done (c, st)
  | S n =>
      match st_sources st !! i with
      | None => Undef
      | Some src =>
          if negb (so_hydrate_bare src) then hydrate_at c offset (S i) n st
          else
            let* '(st, v) := engine_resolve_source_call true st i [] offset in
            let* c := context_set c (so_name src) (default fnan v) in
            hydrate_at c offset (S i) n st
      end
  end.
Definition engine_hydrate_sources_at_offset (c : C) (offset : nat) (st : engine_state) : run (C * engine_state) :=
  hydrate_at c offset 0 (length (st_sources st)) st.

(** What the resolver reports: a value, an error with the result [true], or a
    refusal with an error. *)
Inductive lookback_answer : Type :=
  | Answer (v : cxpr_value)
  | AnswerError (e : cxpr_error)
  | Refused (e : cxpr_error).

Definition engine_eval_inline_lookback (ev : E) (tls : nat) (target : cxpr_expr_ast) (offset : nat) (c : C)
    (st : engine_state) : run (engine_state * lookback_answer) :=
  let* shifted := context_clone c in
  let tls := tls + offset in
  let* shifted := context_set shifted CXPR_ENGINE_LOOKBACK_OFFSET_KEY (of_Z (Z.of_nat tls)) in
  let* '(shifted, st) := engine_hydrate_sources_at_offset shifted tls st in
  let* '(st, v) := eval_tree ev tls target shifted st in
  Done (st, match v with inl v => Answer v | inr e => AnswerError e end).

(** A source read [tls + n] samples back. *)
Definition lookback_source (ok : bool) (tls n i : nat) (args : list float64) (st : engine_state)
    : run (engine_state * lookback_answer) :=
  let* '(st, v) := engine_resolve_source_call ok st i args (tls + n) in
  Done (st, match v with Some v => Answer (VNum v) | None => AnswerError ring_error end).

(** A rule's result [n] ticks back, and a path into it. *)
Definition lookback_tracked (prog : cxpr_engine_program) (ev : E) (st : engine_state) (index n : nat)
    (path : cxpr_value → lookback_answer) : run (engine_state * lookback_answer) :=
  let* found := engine_tracked_expression_value prog ev st index n in
  Done (st, match found with Some v => path v | None => Answer (VNum fnan) end).

Definition tracked_ring (prog : cxpr_engine_program) (st : engine_state) (name : string) : option nat :=
  match engine_tracked_index prog name with
  | Some i => if i <? length (st_expr_rings st) then Some i else None
  | None => None
  end.

(** Targets that are not the engine's: [delegate] is the host's earlier resolver
    and [inline_policy] its policy, where it has them. *)
Definition lookback_other (delegate : option (engine_state → run (engine_state * lookback_answer)))
    (inline_policy : option (cxpr_expr_ast → bool)) (ev : E) (tls : nat) (target : cxpr_expr_ast) (n : nat) (c : C)
    (st : engine_state) : run (engine_state * lookback_answer) :=
  let is_identifier := match ast_node target with CXPR_NODE_IDENTIFIER _ => true | _ => false end in
  match delegate with
  | Some delegate =>
      if negb is_identifier && match inline_policy with Some policy => policy target | None => false end
      then engine_eval_inline_lookback ev tls target n c st
      else delegate st
  | None =>
      if negb is_identifier then engine_eval_inline_lookback ev tls target n c st
      else Done (st, Refused (engine_error CXPR_ERR_UNKNOWN_IDENTIFIER
             "engine: lookback target is neither a source nor a tracked expression"))
  end.

(** [target[n]] during a tick; [size_t] of an index that is not representable
    is undefined, and so is the comparison of the names of tracked expressions
    with the missing object of a field access on an expression. *)
Definition engine_lookback_resolver (ok : bool) (prog : cxpr_engine_program)
    (delegate : option (engine_state → run (engine_state * lookback_answer)))
    (inline_policy : option (cxpr_expr_ast → bool)) (ev : E) (tls : nat)
    (target index : cxpr_expr_ast) (c : C) (st : engine_state) : run (engine_state * lookback_answer) :=
  match ast_node index with
  | CXPR_NODE_NUMBER nd =>
      if fltb nd fzero then Done (st, Refused (engine_error CXPR_ERR_SYNTAX "engine: negative lookback"))
      else
        match to_Z nd with
        | None => Undef
        | Some z =>
            if (SIZE_MAX <? z)%Z then Undef
            else
            let n := Z.to_nat z in
            let other := lookback_other delegate inline_policy ev tls target n c in
            match ast_node target with
            | CXPR_NODE_FUNCTION_CALL name args _ =>
                match engine_find_source_in (st_sources st) name with
                | Some i =>
                    match so_kind <$> st_sources st !! i with
                    | Some ENGINE_SRC_COLUMN => engine_eval_inline_lookback ev tls target n c st
                    | _ =>
                        let* '(st, vs) := engine_eval_call_args ev tls args c st in
                        match vs with
                        | inr e => Done (st, AnswerError e)
                        | inl vs => lookback_source ok tls n i vs st
                        end
                    end
                | None => other st
                end
            | CXPR_NODE_IDENTIFIER name =>
                match engine_find_source_in (st_sources st) name with
                | Some i => lookback_source ok tls n i [] st
                | None =>
                    match tracked_ring prog st name with
                    | Some k => lookback_tracked prog ev st k n Answer
                    | None => other st
                    end
                end
            | CXPR_NODE_CHAIN_ACCESS (root :: segment :: path) _ =>
                match tracked_ring prog st root with
                | Some k =>
                    lookback_tracked prog ev st k n (λ v,
                      match engine_struct_path_value v (segment :: path) with
                      | Some v => Answer v
                      | None => AnswerError (engine_error CXPR_ERR_UNKNOWN_IDENTIFIER
                                  "engine: unknown tracked expression field path")
                      end)
                | None => other st
                end
            | CXPR_NODE_FIELD_ACCESS _ None _ _ => if length (pg_tracked prog) =? 0 then other st else Undef
            | CXPR_NODE_FIELD_ACCESS _ (Some object) field _ =>
                match tracked_ring prog st object with
                | Some k =>
                    lookback_tracked prog ev st k n (λ v,
                      match engine_struct_field_value v field with
                      | Some v => Answer v
                      | None => AnswerError (engine_error CXPR_ERR_UNKNOWN_IDENTIFIER
                                  "engine: unknown tracked expression field")
                      end)
                | None => other st
                end
            | _ => other st
            end
        end
  | _ => Done (st, Refused (engine_error CXPR_ERR_SYNTAX "engine: non-literal lookback index unsupported"))
  end.

(** ** Ticks *)

Record cxpr_engine_event : Type := mk_event {
  ev_expr_name : string;
  ev_edge : cxpr_engine_edge;
  ev_value : cxpr_value
}.

(** [se_prev] is the state of a watch: [prev_truthy], [prev_value] and
    [prev_valid]. *)
Record cxpr_engine_session : Type := mk_session {
  se_prog : cxpr_engine_program;
  se_eval : E;
  se_state : engine_state;
  se_prev : list (bool * float64 * bool);
  se_event_cap : nat
}.

Definition with_state (st : engine_state) (s : cxpr_engine_session) : cxpr_engine_session :=
  mk_session (se_prog s) (se_eval s) st (se_prev s) (se_event_cap s).
Definition with_prev (prev : list (bool * float64 * bool)) (s : cxpr_engine_session) : cxpr_engine_session :=
  mk_session (se_prog s) (se_eval s) (se_state s) prev (se_event_cap s).

Definition engine_value_to_double (v : cxpr_value) : float64 :=
  match v with VNum d => d | VBool b => if b then fone else fzero | _ => fnan end.

Definition engine_resolve_current_source (st : engine_state) (i : nat) (src : engine_source)
    : run (engine_state * float64) :=
  match so_kind src, so_pull_fn src with
  | ENGINE_SRC_PULL, Some pull =>
      let '(w, v) := pull (so_name src) [] (so_userdata src) (st_world st) in Done (with_world w st, v)
  | _, _ =>
      let* '(st, v) := engine_resolve_source_call true st i [] 0 in Done (st, default fnan v)
  end.

(** [src->kind == ENGINE_SRC_PULL && src->ring] *)
Definition has_ring (src : engine_source) : bool :=
  match so_kind src, rg_buf (so_ring src) with ENGINE_SRC_PULL, Some _ => true | _, _ => false end.

(** The current value goes to the context, through the bound slot when it is
    still valid. *)
Definition publish (src : engine_source) (v : float64) (c : C) : run (C * engine_source) :=
  if so_slot_bound src && context_slot_valid c (so_slot src) then
    let* c := context_write c (so_slot src) v in Done (c, src)
  else
    let* c := context_set c (so_name src) v in
    let* '(bound, slot) := context_bind c (so_name src) in
    Done (c, source_with_slot slot bound src).

(** One turn of the loop over the sources. *)
Definition hydrate_source (i : nat) (src : engine_source) (st : engine_state) : run engine_state :=
  if negb (so_hydrate_bare src) && negb (has_ring src) then Done st
  else
    let* '(st, v) := engine_resolve_current_source st i src in
    let* ring := if has_ring src then engine_ring_append (so_ring src) v else Done (so_ring src) in
    let* '(c, src) := publish (source_with_ring ring src) v (st_ctx st) in
    Done (with_sources (<[i := src]> (st_sources st)) (with_ctx c st)).

Fixpoint hydrate_sources (i n : nat) (st : engine_state) {struct n} : run engine_state :=
  match n with
  | O => Done st
  | S n =>
      match st_sources st !! i with
      | None => Undef
      | Some src => let* st := hydrate_source i src st in hydrate_sources (S i) n st
      end
  end.

(** A loop that updates every ring. *)
Fixpoint update_rings {A} (f : nat → engine_ring A → run (engine_ring A)) (i : nat) (rings : list (engine_ring A))
    : run (list (engine_ring A)) :=
  match rings with
  | [] => Done []
  | r :: rings =>
      let* r := f i r in
      let* rings := update_rings f (S i) rings in
      Done (r :: rings)
  end.

(** The slot of this tick is reserved before the evaluation. *)
Definition reserve_results (st : engine_state) : run engine_state :=
  let* rings := update_rings (λ _ r, engine_ring_append r (VNum fnan)) 0 (st_expr_rings st) in
  Done (with_expr_rings rings st).

Definition record_results (prog : cxpr_engine_program) (ev : E) (st : engine_state) : run engine_state :=
  let* rings := update_rings (λ i r,
    match pg_tracked prog !! i with
    | Some t => ring_fill_head r (default (VNum fnan) (rules_get ev (tr_name t)))
    | None => Undef
    end) 0 (st_expr_rings st) in
  Done (with_expr_rings rings st).

Definition edge_fires (edge : cxpr_engine_edge) (prev : bool * float64 * bool) (truthy : bool) (num : float64) : bool :=
  let '(prev_truthy, prev_value, prev_valid) := prev in
  match edge with
  | CXPR_EDGE_RISING => truthy && negb prev_truthy
  | CXPR_EDGE_FALLING => negb truthy && prev_truthy
  | CXPR_EDGE_LEVEL => truthy
  | CXPR_EDGE_CHANGED => prev_valid && negb (fisnan num && fisnan prev_value) && negb (feqb num prev_value)
  end.

Definition watch_type_error : cxpr_error :=
  engine_error CXPR_ERR_TYPE_MISMATCH "engine watch expression must evaluate to bool".

(** The loop over the watches: the states behind it, and the events or the
    error of the first watch that has no bool. *)
Fixpoint detect_edges (get : string → option cxpr_value) (cap : nat) (watches : list engine_watch)
    (prevs : list (bool * float64 * bool)) (events : list cxpr_engine_event)
    : run (list (bool * float64 * bool) * (list cxpr_engine_event + cxpr_error)) :=
  match watches, prevs with
  | [], _ => Done (prevs, inl events)
  | _ :: _, [] => Undef
  | w :: watches, prev :: prevs =>
      let step truthy num v :=
        let events := if edge_fires (wa_edge w) prev truthy num && (length events <? cap)
                      then (events ++ [mk_event (wa_expr_name w) (wa_edge w) v])%list else events in
        let* '(rest, r) := detect_edges get cap watches prevs events in
        Done ((truthy, num, true) :: rest, r) in
      match get (wa_expr_name w) with
      | Some (VBool b) => step b (engine_value_to_double (VBool b)) (VBool b)
      | Some _ => Done (prev :: prevs, inr watch_type_error)
      | None => step false fnan (VNum fnan)
      end
  end.

(** The events of the tick, or the error with which it returns false. *)
Definition cxpr_engine_tick (s : cxpr_engine_session)
    : run (cxpr_engine_session * (list cxpr_engine_event + cxpr_error)) :=
  let st := with_memo [] (with_cursor (st_cursor (se_state s) + 1) (se_state s)) in
  let* st := hydrate_sources 0 (length (st_sources st)) st in
  let* st := reserve_results st in
  let* '(ev, st, eval_err) := rules_eval (se_eval s) st in
  let s := mk_session (se_prog s) ev st (se_prev s) (se_event_cap s) in
  match err_code eval_err with
  | CXPR_OK =>
      let* st := record_results (se_prog s) ev st in
      let s := with_state st s in
      let* '(prev, events) := detect_edges (rules_get ev) (se_event_cap s) (pg_watches (se_prog s)) (se_prev s) [] in
      Done (with_prev prev s, events)
  | _ => Done (s, inr eval_err)
  end.

Definition cxpr_engine_tick_at (s : cxpr_engine_session) (index : Z)
    : run (cxpr_engine_session * (list cxpr_engine_event + cxpr_error)) :=
  if (index <? 0)%Z then Done (s, inr (engine_error CXPR_ERR_SYNTAX "engine: negative tick index"))
  else cxpr_engine_tick (with_state (with_cursor (index - 1) (se_state s)) s).

(** The parameters the parent has are copied; the parent is in place during the
    tick only. *)
Fixpoint copy_params (names : list string) (parent c : C) : run C :=
  match names with
  | [] => Done c
  | name :: names =>
      let* v := context_get_param parent name in
      match v with
      | Some v => let* c := context_set_param c name v in copy_params names parent c
      | None => copy_params names parent c
      end
  end.

Definition cxpr_engine_tick_fallback (s : cxpr_engine_session) (parent : option C)
    : run (cxpr_engine_session * (list cxpr_engine_event + cxpr_error)) :=
  match parent with
  | None => cxpr_engine_tick s
  | Some p =>
      let st := se_state s in
      let* c := copy_params (pg_external_params (se_prog s)) p (st_ctx st) in
      let previous := context_parent c in
      let* '(s, r) := cxpr_engine_tick (with_state (with_ctx (context_with_parent (Some p) c) st) s) in
      let st := se_state s in
      Done (with_state (with_ctx (context_with_parent previous (st_ctx st)) st) s, r)
  end.

Definition cxpr_engine_tick_at_fallback (s : cxpr_engine_session) (index : Z) (parent : option C)
    : run (cxpr_engine_session * (list cxpr_engine_event + cxpr_error)) :=
  if (index <? 0)%Z then Done (s, inr (engine_error CXPR_ERR_SYNTAX "engine: negative tick index"))
  else cxpr_engine_tick_fallback (with_state (with_cursor (index - 1) (se_state s)) s) parent.

Definition cxpr_engine_tick_index (s : cxpr_engine_session) : Z := st_cursor (se_state s).
Definition cxpr_engine_get (s : cxpr_engine_session) (name : string) : option cxpr_value := rules_get (se_eval s) name.

(** ** Life of a session *)

(** The session's copy of a source, with a ring when it is pulled and looked
    back at; [slot] is an unbound slot. *)
Definition session_source (slot : context_slot) (src : engine_source) : engine_source :=
  let ring := match so_kind src with
              | ENGINE_SRC_PULL =>
                  if so_referenced src && (0 <? so_max_lookback src) then ring_new (so_max_lookback src + 1) else ring_none
              | _ => ring_none
              end in
  source_with_slot slot false (source_with_ring ring src).

(** The rings of rules are cleared to numbers of value zero. *)
Definition tracked_ring_new (t : engine_tracked_expr) : engine_ring cxpr_value :=
  let cap := tr_max_depth t + 1 in mk_ring (Some (replicate cap (Some (VNum fzero)))) cap 0 0.

(** A session over a program with given sources, evaluator and context. *)
Definition cxpr_engine_session_new (prog : cxpr_engine_program) (sources : list engine_source) (slot : context_slot)
    (ev : E) (c : C) (w : W) : cxpr_engine_session :=
  mk_session prog ev
    (mk_state c (-1) (map (session_source slot) sources) (map tracked_ring_new (pg_tracked prog)) []
       (length sources * 16 + 32) [] w)
    (replicate (length (pg_watches prog)) (false, fzero, false)) (length (pg_watches prog)).

Definition cxpr_engine_session_reset (s : cxpr_engine_session) : run cxpr_engine_session :=
  let st := se_state s in
  let* c := context_clear_cached (st_ctx st) in
  Done (mk_session (se_prog s) (se_eval s)
    (mk_state c (-1)
       (map (λ src, source_with_slot (so_slot src) false (source_with_ring (ring_clear (so_ring src)) src)) (st_sources st))
       (map ring_clear (st_expr_rings st)) [] (st_memo_cap st)
       (map (λ e, mk_arg_ring (ar_src e) (ar_args e) (ring_clear (ar_ring e)) (-1)) (st_arg_rings st)) (st_world st))
    (replicate (length (pg_watches (se_prog s))) (false, fzero, false)) (se_event_cap s)).

(** The new sources, or [None] when the call returns false. *)
Definition update_source (accepts : engine_source_kind → bool) (f : engine_source → engine_source)
    (s : cxpr_engine_session) (name : string) : option cxpr_engine_session :=
  match engine_find_source_in (st_sources (se_state s)) name with
  | None => None
  | Some i =>
      match st_sources (se_state s) !! i with
      | None => None
      | Some src =>
          if accepts (so_kind src)
          then Some (with_state (with_sources (<[i := f src]> (st_sources (se_state s))) (se_state s)) s)
          else None
      end
  end.

Definition cxpr_engine_bind_column (s : cxpr_engine_session) (name : string) (base : option Z) (count : Z)
    : option cxpr_engine_session :=
  update_source (λ k, match k with ENGINE_SRC_COLUMN => true | _ => false end)
    (λ src, mk_source (so_name src) (so_kind src) (so_pull_fn src) (so_view_fn src) (so_map_index_fn src) (so_userdata src)
              base (so_stride src) count (so_referenced src) (so_hydrate_bare src) (so_max_lookback src) (so_ring src)
              (so_slot src) (so_slot_bound src)) s name.

Definition cxpr_engine_bind_userdata (s : cxpr_engine_session) (name : string) (userdata : Z)
    : option cxpr_engine_session :=
  update_source (λ k, match k with ENGINE_SRC_COLUMN => false | _ => true end)
    (λ src, mk_source (so_name src) (so_kind src) (so_pull_fn src) (so_view_fn src) (so_map_index_fn src) userdata
              (so_base src) (so_stride src) (so_count src) (so_referenced src) (so_hydrate_bare src) (so_max_lookback src)
              (so_ring src) (so_slot src) (so_slot_bound src)) s name.

Definition cxpr_engine_set_param_value (s : cxpr_engine_session) (name : string) (v : cxpr_value)
    : run cxpr_engine_session :=
  let* c := context_set_param (st_ctx (se_state s)) name v in
  Done (with_state (with_ctx c (se_state s)) s).
End engine.
