(* ===== verification/EngineProofs.v ===== *)
(** * EngineProofs: rings, ticks and lookback of an engine session

    A ring holds the latest samples of a series; a tick appends one sample to
    each ring, evaluates the rules on them and reports exactly the edges between
    the results of two ticks; a lookback of [n] is the sample of [n] ticks ago. *)

From Stdlib Require Import Ascii String ZArith Lia.
From stdpp Require Import base list strings gmap.
From S2P Require Import Prelude Float64 Types Lexer Ast References IR Context Engine.
Local Open Scope string_scope.
Local Open Scope run_scope.
Local Open Scope nat_scope.

(** ** Rings *)

Lemma ring_index h cap d : h < cap → d < cap → (h + cap - d) mod cap = if d <=? h then h - d else h + cap - d.
Proof.
  intros Hh Hd. destruct (Nat.leb_spec d h).
  - replace (h + cap - d) with ((h - d) + 1 * cap) by lia. rewrite Nat.Div0.mod_add, Nat.mod_small; lia.
  - rewrite Nat.mod_small; lia.
Qed.

Lemma ring_next h cap : h < cap → (h + 1) mod cap = if h + 1 =? cap then 0 else h + 1.
Proof.
  intros Hh. destruct (Nat.eqb_spec (h + 1) cap) as [->|]; [apply Nat.Div0.mod_same|]. apply Nat.mod_small. lia.
Qed.

(** The ring holds the first [cap] samples of [hist], the newest first. *)
Definition ring_holds {A} (r : engine_ring A) (cap : nat) (hist : list A) : Prop :=
  ∃ cells, rg_buf r = Some cells ∧ rg_cap r = cap ∧ length cells = cap ∧ rg_head r < cap ∧
    rg_count r = min cap (length hist) ∧
    ∀ d v, d < cap → hist !! d = Some v → cells !! ((rg_head r + cap - d) mod cap) = Some (Some v).

Lemma ring_append_holds {A} (r : engine_ring A) cap hist v :
  ring_holds r cap hist → ∃ r', engine_ring_append r v = Done r' ∧ ring_holds r' cap (v :: hist).
Proof.
  intros (cells & Hbuf & Hcap & Hlen & Hhead & Hcount & Hcells). unfold engine_ring_append. rewrite Hbuf, Hcap.
  destruct (Nat.eqb_spec cap 0) as [|_]; [lia|]. set (h' := (rg_head r + 1) mod cap).
  assert (Hh' : h' < cap) by (apply Nat.mod_upper_bound; lia).
  destruct (Nat.ltb_spec h' (length cells)) as [_|]; [|lia]. eexists. split; [reflexivity|].
  exists (<[h' := Some v]> cells). cbn [rg_buf rg_cap rg_head rg_count length].
  split; [done|]. split; [done|]. split; [by rewrite length_insert|]. split; [done|]. split.
  { destruct (Nat.ltb_spec (rg_count r) cap); lia. }
  intros d x Hd Hx. destruct d as [|d]; simpl in Hx.
  - injection Hx as ->. rewrite ring_index, Nat.sub_0_r by lia. simpl. rewrite list_lookup_insert_eq; [done|lia].
  - specialize (Hcells d x ltac:(lia) Hx).
    assert (Hsame : (h' + cap - S d) mod cap = (rg_head r + cap - d) mod cap ∧ (h' + cap - S d) mod cap ≠ h').
    { unfold h'. rewrite ring_next by done. destruct (Nat.eqb_spec (rg_head r + 1) cap).
      - rewrite !ring_index by lia. destruct (Nat.leb_spec (S d) 0), (Nat.leb_spec d (rg_head r)); lia.
      - rewrite !ring_index by lia. destruct (Nat.leb_spec (S d) (rg_head r + 1)), (Nat.leb_spec d (rg_head r)); lia. }
    destruct Hsame as [Heq Hne]. rewrite Heq in Hne. rewrite Heq, list_lookup_insert_ne; done.
Qed.

Lemma ring_read_holds {A} (r : engine_ring A) cap hist d :
  ring_holds r cap hist → engine_ring_read r d = Done (if d <? cap then hist !! d else None).
Proof.
  intros (cells & Hbuf & Hcap & Hlen & Hhead & Hcount & Hcells). unfold engine_ring_read. rewrite Hbuf, Hcount, Hcap.
  destruct (Nat.ltb_spec d cap) as [Hd|Hd].
  - destruct (Nat.leb_spec (min cap (length hist)) d) as [Hle|Hlt].
    + rewrite (lookup_ge_None_2 hist d); [done|lia].
    + destruct (Nat.eqb_spec cap 0); [lia|]. destruct (lookup_lt_is_Some_2 hist d) as [v Hv]; [lia|].
      by rewrite (Hcells d v Hd Hv), Hv.
  - destruct (Nat.leb_spec (min cap (length hist)) d); [done|lia].
Qed.

Lemma ring_fill_holds {A} (r : engine_ring A) cap old hist v :
  ring_holds r cap (old :: hist) → ∃ r', ring_fill_head r v = Done r' ∧ ring_holds r' cap (v :: hist).
Proof.
  intros (cells & Hbuf & Hcap & Hlen & Hhead & Hcount & Hcells). unfold ring_fill_head. rewrite Hbuf.
  destruct (Nat.ltb_spec (rg_head r) (length cells)) as [_|]; [|lia]. eexists. split; [reflexivity|].
  exists (<[rg_head r := Some v]> cells). cbn [rg_buf rg_cap rg_head rg_count].
  split; [done|]. split; [done|]. split; [by rewrite length_insert|]. split; [done|]. split; [done|].
  intros d x Hd Hx. destruct d as [|d]; simpl in Hx.
  - injection Hx as ->. rewrite ring_index by lia. simpl. rewrite Nat.sub_0_r, list_lookup_insert_eq; [done|lia].
  - rewrite list_lookup_insert_ne; [by apply (Hcells (S d))|]. rewrite ring_index by lia.
    destruct (Nat.leb_spec (S d) (rg_head r)); lia.
Qed.

Lemma ring_new_holds {A} cap : 0 < cap → ring_holds (A := A) (ring_new cap) cap [].
Proof.
  intros Hcap. exists (replicate cap None). simpl. rewrite length_replicate, Nat.min_0_r. repeat split; try lia.
  intros d v _ Hv. by rewrite lookup_nil in Hv.
Qed.

Lemma ring_clear_holds {A} (r : engine_ring A) cap hist : ring_holds r cap hist → ring_holds (ring_clear r) cap [].
Proof.
  intros (cells & Hbuf & Hcap & Hlen & Hhead & _ & _). exists cells. simpl. rewrite Hbuf, Hcap, Nat.min_0_r.
  repeat split; try lia. intros d v _ Hv. by rewrite lookup_nil in Hv.
Qed.

Fixpoint append_all {A} (r : engine_ring A) (vs : list A) : run (engine_ring A) :=
  match vs with
  | [] => Done r
  | v :: vs => let* r := engine_ring_append r v in append_all r vs
  end.

Lemma append_all_holds {A} (r : engine_ring A) cap hist vs :
  ring_holds r cap hist → ∃ r', append_all r vs = Done r' ∧ ring_holds r' cap (reverse vs ++ hist).
Proof.
  revert r hist. induction vs as [|v vs IH]; intros r hist Hr; cbn [append_all]; [eauto|].
  destruct (ring_append_holds r cap hist v Hr) as (r1 & -> & Hr1). cbn [run_bind].
  destruct (IH r1 (v :: hist) Hr1) as (r' & -> & Hr'). exists r'. split; [done|].
  by rewrite reverse_cons, <- (assoc_L app).
Qed.

(** C23: After any sequence of samples, a ring of [cap] cells answers a read [d]
    samples back with exactly the sample of that depth among the latest [cap],
    and with nothing for every other depth; no cell outside the buffer is touched
    and no cell that was not written is read. *)
Theorem engine_ring_correct {A} (cap : nat) (vs : list A) (Hcap : 0 < cap) :
  ∃ r, append_all (ring_new cap) vs = Done r ∧
    ∀ d, engine_ring_read r d = Done (if d <? cap then reverse vs !! d else None).
Proof.
  destruct (append_all_holds _ cap [] vs (ring_new_holds cap Hcap)) as (r & -> & Hr). exists r. split; [done|].
  intros d. rewrite (ring_read_holds r cap _ d Hr). by rewrite app_nil_r.
Qed.

Lemma engine_ring_correct_witness :
  ∃ r, append_all (ring_new 2) [10; 20; 30] = Done r ∧ engine_ring_read r 1 = Done (Some 20) ∧ engine_ring_read r 2 = Done None.
Proof.
  destruct (engine_ring_correct 2 [10; 20; 30]) as (r & Hr & Hread); [lia|]. exists r. split; [done|].
  split; rewrite Hread; reflexivity.
Defined.

(** ** What a session relies on *)

Class EngineContextLaws (C : Type) `{!EngineContext C} : Type := {
  (** the names the session sets *)
  session_name : string → Prop;
  (** the numbers a context shows *)
  context_shows : C → gmap string float64 → Prop;
  (** a slot is the one of a name, as long as it is valid *)
  slot_names : C → context_slot → string → Prop;
  context_set_law c m name v : context_shows c m → session_name name →
    ∃ c', context_set c name v = Done c' ∧ context_shows c' (<[name := v]> m) ∧
      (∀ slot x, slot_names c slot x → slot_names c' slot x);
  context_bind_law c m name : context_shows c m →
    ∃ bound slot, context_bind c name = Done (bound, slot) ∧ (bound = true → slot_names c slot name);
  context_write_law c m slot name v : context_shows c m → slot_names c slot name →
    context_slot_valid c slot = true →
    ∃ c', context_write c slot v = Done c' ∧ context_shows c' (<[name := v]> m) ∧
      (∀ slot x, slot_names c slot x → slot_names c' slot x);
  context_clear_cached_law c m : context_shows c m →
    ∃ c', context_clear_cached c = Done c' ∧ context_shows c' m
}.

Section proofs.
Context {C W : Type} `{!EngineContext C} `{!EngineMemory W} `{!EngineContextLaws C}.
Local Abbreviation source := (engine_source (C := C) (W := W)).
Local Abbreviation state := (engine_state (C := C) (W := W)).

(** The elements of a column stay in the host's memory. *)
Definition column_mapped (src : source) : Prop :=
  ∀ base k w, so_kind src = ENGINE_SRC_COLUMN → so_base src = Some base → (0 ≤ k < so_count src)%Z →
    is_Some (host_double w (base + k * so_stride src)%Z).

(** [hist] is what the source gave in the ticks so far, the latest first. *)
Record pulled_ok (c : C) (src : source) (hist : list float64) : Prop := {
  source_ring_ok : has_ring src = true → ring_holds (so_ring src) (so_max_lookback src + 1) hist;
  source_slot_ok : so_slot_bound src = true → slot_names c (so_slot src) (so_name src);
  source_column_ok : column_mapped src;
  source_name_ok : session_name (so_name src)
}.

Definition sources_ok (st : state) (hp : nat → list float64) : Prop :=
  ∀ i src, st_sources st !! i = Some src → pulled_ok (st_ctx st) src (hp i).

Lemma pulled_ok_slots c c' src hist :
  (∀ slot x, slot_names c slot x → slot_names c' slot x) → pulled_ok c src hist → pulled_ok c' src hist.
Proof. intros Hslots [Hr Hs Hc Hn]. split; auto. Qed.

(** What the host gives for a source at a tick: a pulled value; the element of a
    view at the index the cursor is mapped to; the element of a column at the
    cursor; NaN where there is none.  [w'] is the host behind it.  A pull source
    without a function gives nothing that is specified. *)
Definition gives (src : source) (cursor : Z) (w w' : W) (v : float64) : Prop :=
  match so_kind src with
  | ENGINE_SRC_PULL =>
      match so_pull_fn src with
      | Some pull => pull (so_name src) [] (so_userdata src) w = (w', v)
      | None => w' = w
      end
  | ENGINE_SRC_VIEW =>
      match so_view_fn src with
      | Some view =>
          if (0 <=? cursor)%Z then
            ∃ w1 index,
              match so_map_index_fn src with
              | Some map_index => map_index cursor (so_userdata src) w = (w1, index)
              | None => w1 = w ∧ index = cursor
              end ∧
              if (0 <=? index)%Z then ∃ out, view index (so_name src) [] (so_userdata src) w1 = (w', out) ∧ v = default fnan out
              else w' = w1 ∧ v = fnan
          else w' = w ∧ v = fnan
      | None => w' = w ∧ v = fnan
      end
  | ENGINE_SRC_COLUMN =>
      w' = w ∧
      v = match so_base src with
          | Some base =>
              if decide (0 ≤ cursor < so_count src)%Z
              then default fnan (host_double w (base + cursor * so_stride src)) else fnan
          | None => fnan
          end
  end.

(** The memo behind a call of source [i] without arguments that gave [v]. *)
Definition memo_grows (st : state) (i offset : nat) (v : float64) (m : list engine_source_memo_entry) : Prop :=
  m = st_memo st ∨ m = (st_memo st ++ [mk_memo i [] offset v])%list.

Lemma memo_set_shape (st : state) i offset v :
  ∃ m, engine_source_memo_set st i [] offset v = with_memo m st ∧ memo_grows st i offset v m.
Proof.
  unfold engine_source_memo_set, memo_grows. destruct (_ || _); [|eauto]. exists (st_memo st). split; [by destruct st|]. by left.
Qed.

Lemma resolve_bare_done (ok : bool) (st : state) hp i src offset :
  sources_ok st hp → st_sources st !! i = Some src →
  ∃ w m v, engine_resolve_source_call ok st i [] offset = Done (with_world w (with_memo m st), Some v) ∧
    memo_grows st i offset v m.
Proof.
  intros Hok Hi. unfold engine_resolve_source_call. rewrite Hi.
  assert (Hself : st = with_world (st_world st) (with_memo (st_memo st) st)) by (by destruct st).
  destruct (engine_source_memo_get st i [] offset) as [v|].
  { exists (st_world st), (st_memo st), v. rewrite <- Hself. split; [done|]. by left. }
  assert (Hset : ∀ w v, ∃ w' m v', Done (engine_source_memo_set (with_world w st) i [] offset v, Some v) =
    Done (with_world w' (with_memo m st), Some v') ∧ memo_grows st i offset v' m).
  { intros w v. destruct (memo_set_shape (with_world w st) i offset v) as (m & -> & Hgrow). by exists w, m, v. }
  assert (Hset' : ∀ v, ∃ w' m v', Done (engine_source_memo_set st i [] offset v, Some v) =
    Done (with_world w' (with_memo m st), Some v') ∧ memo_grows st i offset v' m).
  { intros v. specialize (Hset (st_world st) v). replace (with_world (st_world st) st) with st in Hset by (by destruct st). done. }
  destruct (so_kind src) eqn:Ekind.
  - unfold resolve_pull. cbn [length Nat.ltb Nat.leb andb Nat.eqb].
    destruct (rg_buf (so_ring src)) as [cells|] eqn:Ebuf; rewrite ?orb_true_r, ?orb_false_r.
    + assert (Hring : has_ring src = true) by (unfold has_ring; by rewrite Ekind, Ebuf).
      rewrite (ring_read_holds _ _ _ _ (source_ring_ok _ _ _ (Hok i src Hi) Hring)). cbn [run_bind]. apply Hset'.
    + destruct offset as [|k].
      * destruct (so_pull_fn src) as [pull|]; cbn [run_bind]; [|apply Hset'].
        destruct (pull _ _ _ _) as [w v]. cbn [run_bind]. apply Hset.
      * unfold engine_ring_read. rewrite Ebuf. cbn [run_bind]. apply Hset'.
  - unfold resolve_view. destruct (so_view_fn src) as [view|]; cbn [run_bind]; [|apply Hset'].
    destruct (0 <=? _)%Z; cbn [run_bind]; [|apply Hset'].
    destruct (match so_map_index_fn src with Some _ => _ | None => _ end) as [w index].
    destruct (0 <=? index)%Z; [|cbn [run_bind]; apply Hset].
    destruct (view _ _ _ _ _) as [w' out]. cbn [run_bind]. apply Hset.
  - unfold resolve_column. destruct (so_base src) as [base|] eqn:Ebase; cbn [run_bind]; [|apply Hset'].
    cbn [length Nat.eqb andb]. set (cursor := (st_cursor st - Z.of_nat offset)%Z).
    destruct (Z.leb_spec 0 cursor) as [H0|]; [|cbn [andb run_bind]; apply Hset'].
    destruct (Z.ltb_spec cursor (so_count src)) as [H1|]; [|cbn [andb run_bind]; apply Hset']. cbn [andb].
    destruct (source_column_ok _ _ _ (Hok i src Hi) base cursor (st_world st) Ekind Ebase) as [v ->]; [lia|].
    cbn [run_bind]. apply Hset'.
Qed.

Lemma memo_miss (st : state) i : (∀ e, e ∈ st_memo st → me_src e ≠ i) → engine_source_memo_get st i [] 0 = None.
Proof.
  intros Hmiss. unfold engine_source_memo_get. destruct (List.find _ _) as [e|] eqn:Hf; [|done].
  apply List.find_some in Hf as [Hin Hb]. rewrite <- list_elem_of_In in Hin. apply andb_true_iff in Hb as [Hb _].
  apply andb_true_iff in Hb as [Hb _]. apply Nat.eqb_eq in Hb. by destruct (Hmiss e Hin).
Qed.

Lemma current_done (st : state) hp i src :
  sources_ok st hp → st_sources st !! i = Some src → (∀ e, e ∈ st_memo st → me_src e ≠ i) →
  ∃ w m v, engine_resolve_current_source st i src = Done (with_world w (with_memo m st), v) ∧ memo_grows st i 0 v m ∧
    gives src (st_cursor st) (st_world st) w v.
Proof.
  intros Hok Hi Hmiss. unfold engine_resolve_current_source, engine_resolve_source_call.
  rewrite Hi, (memo_miss st i Hmiss), Z.sub_0_r.
  assert (Hset : ∀ w v, gives src (st_cursor st) (st_world st) w v →
    ∃ w' m v', Done (engine_source_memo_set (with_world w st) i [] 0 v, v) = Done (with_world w' (with_memo m st), v') ∧
      memo_grows st i 0 v' m ∧ gives src (st_cursor st) (st_world st) w' v').
  { intros w v Hg. destruct (memo_set_shape (with_world w st) i 0 v) as (m & -> & Hgrow). by exists w, m, v. }
  assert (Hset' : ∀ v, gives src (st_cursor st) (st_world st) (st_world st) v →
    ∃ w' m v', Done (engine_source_memo_set st i [] 0 v, v) = Done (with_world w' (with_memo m st), v') ∧
      memo_grows st i 0 v' m ∧ gives src (st_cursor st) (st_world st) w' v').
  { intros v Hg. specialize (Hset (st_world st) v Hg). by replace (with_world (st_world st) st) with st in Hset by (by destruct st). }
  destruct (so_kind src) eqn:Ekind; unfold gives in *; rewrite Ekind in *.
  - destruct (so_pull_fn src) as [pull|] eqn:Epull.
    { destruct (pull _ _ _ _) as [w v] eqn:Ep. exists w, (st_memo st), v. split; [by destruct st|]. split; [by left|done]. }
    unfold resolve_pull. cbn [length Nat.ltb Nat.leb andb Nat.eqb orb]. rewrite Epull.
    destruct (rg_buf (so_ring src)) as [cells|] eqn:Ebuf; cbn [run_bind default]; [|by apply Hset'].
    assert (Hring : has_ring src = true) by (unfold has_ring; by rewrite Ekind, Ebuf).
    rewrite (ring_read_holds _ _ _ _ (source_ring_ok _ _ _ (Hok i src Hi) Hring)). cbn [run_bind default]. by apply Hset'.
  - unfold resolve_view. destruct (so_view_fn src) as [view|]; cbn [run_bind default]; [|by apply Hset'].
    destruct (0 <=? st_cursor st)%Z; cbn [run_bind default]; [|by apply Hset'].
    destruct (match so_map_index_fn src with Some _ => _ | None => _ end) as [w index] eqn:Emap.
    assert (Hmap : match so_map_index_fn src with
      | Some map_index => map_index (st_cursor st) (so_userdata src) (st_world st) = (w, index)
      | None => w = st_world st ∧ index = st_cursor st end) by (destruct (so_map_index_fn src); [done|by injection Emap]).
    destruct (0 <=? index)%Z eqn:Eindex; cbn [run_bind default].
    + destruct (view _ _ _ _ _) as [w' out] eqn:Eview. cbn [run_bind default]. apply Hset. exists w, index.
      split; [done|]. rewrite Eindex. eauto.
    + apply Hset. exists w, index. split; [done|]. by rewrite Eindex.
  - unfold resolve_column. destruct (so_base src) as [base|] eqn:Ebase; cbn [run_bind default]; [|by apply Hset'].
    cbn [length Nat.eqb andb]. case_decide as Hrange.
    + rewrite (proj2 (Z.leb_le 0 (st_cursor st))), (proj2 (Z.ltb_lt (st_cursor st) (so_count src))) by lia. cbn [andb].
      destruct (source_column_ok _ _ _ (Hok i src Hi) base (st_cursor st) (st_world st) Ekind Ebase Hrange) as [v Hv].
      rewrite Hv in Hset' |- *. cbn [run_bind default] in Hset' |- *. by apply Hset'.
    + assert (Hout : (0 <=? st_cursor st)%Z && (st_cursor st <? so_count src)%Z = false).
      { apply andb_false_iff. rewrite Z.leb_gt, Z.ltb_ge. lia. }
      rewrite Hout. cbn [run_bind default]. by apply Hset'.
Qed.

Lemma publish_done (src : source) v c m :
  context_shows c m → session_name (so_name src) →
  (so_slot_bound src = true → slot_names c (so_slot src) (so_name src)) →
  ∃ c' slot bound, publish src v c = Done (c', source_with_slot slot bound src) ∧
    context_shows c' (<[so_name src := v]> m) ∧ (bound = true → slot_names c' slot (so_name src)) ∧
    (∀ slot x, slot_names c slot x → slot_names c' slot x).
Proof.
  intros Hm Hname Hslot. unfold publish. destruct (so_slot_bound src) eqn:Eb; cbn [andb].
  - destruct (context_slot_valid c (so_slot src)) eqn:Ev.
    + destruct (context_write_law c m (so_slot src) (so_name src) v Hm (Hslot eq_refl) Ev) as (c' & -> & Hm' & Hs).
      cbn [run_bind]. exists c', (so_slot src), true. split; [f_equal; f_equal; destruct src; simpl in *; by subst|]. eauto.
    + destruct (context_set_law c m (so_name src) v Hm Hname) as (c' & -> & Hm' & Hs). cbn [run_bind].
      destruct (context_bind_law c' _ (so_name src) Hm') as (b & slot & -> & Hb). cbn [run_bind]. eauto 10.
  - destruct (context_set_law c m (so_name src) v Hm Hname) as (c' & -> & Hm' & Hs). cbn [run_bind].
    destruct (context_bind_law c' _ (so_name src) Hm') as (b & slot & -> & Hb). cbn [run_bind]. eauto 10.
Qed.

(** ** Reading the sources *)

(** Where a source gets its values from. *)
Definition feed (src : source) :=
  (so_pull_fn src, so_view_fn src, so_map_index_fn src, so_userdata src, so_base src, so_stride src, so_count src).

(** The fields of a source that a tick keeps. *)
Definition shape (src : source) :=
  (so_name src, so_kind src, so_hydrate_bare src, has_ring src, so_max_lookback src, feed src).

Lemma gives_shape (src src' : source) : shape src' = shape src → gives src' = gives src.
Proof. unfold shape, feed, gives. intros [= -> -> _ _ _ -> -> -> -> -> -> ->]. reflexivity. Qed.

(** The source is read in every tick. *)
Definition refreshed (src : source) : bool := so_hydrate_bare src || has_ring src.

(** The histories behind a tick that gave [samples], [None] for a source that was
    not read; and the numbers the context shows. *)
Definition sampled (samples : list (option float64)) (hp : nat → list float64) (j : nat) : list float64 :=
  match samples !! j with Some (Some v) => v :: hp j | _ => hp j end.

Definition show_sample (m : gmap string float64) (x : source * option float64) : gmap string float64 :=
  match x.2 with Some v => <[so_name x.1 := v]> m | None => m end.
Definition published (sources : list source) (samples : list (option float64)) (m : gmap string float64)
    : gmap string float64 := fold_left show_sample (zip sources samples) m.

(** What [hydrate_source] leaves as it was. *)
Definition same_rest (st st' : state) : Prop :=
  st_cursor st' = st_cursor st ∧ st_expr_rings st' = st_expr_rings st ∧ st_arg_rings st' = st_arg_rings st ∧
  shape <$> st_sources st' = shape <$> st_sources st.

Lemma same_rest_refl st : same_rest st st.
Proof. repeat split. Qed.
Lemma same_rest_trans st st' st'' : same_rest st st' → same_rest st' st'' → same_rest st st''.
Proof. unfold same_rest. intros (->&->&->&->) (->&->&->&->). repeat split. Qed.

Lemma has_ring_kept (src : source) cap r' hist :
  has_ring src = true → ring_holds r' cap hist → has_ring (source_with_ring r' src) = true.
Proof.
  unfold has_ring. cbn [so_kind so_ring source_with_ring]. intros Hr (cells & -> & _). by destruct (so_kind src).
Qed.

Lemma sources_ok_world (st : state) w m hp : sources_ok st hp → sources_ok (with_world w (with_memo m st)) hp.
Proof. intros Hok i src Hi. by apply Hok. Qed.

(** The ring of a source behind a tick in which it gave [v]. *)
Lemma append_sample (src : source) c hist v :
  pulled_ok c src hist →
  ∃ ring, (if has_ring src then engine_ring_append (so_ring src) v else Done (so_ring src)) = Done ring ∧
    has_ring (source_with_ring ring src) = has_ring src ∧
    (has_ring src = true → ring_holds ring (so_max_lookback src + 1) (v :: hist)).
Proof.
  intros [Hring _ _ _]. destruct (has_ring src) eqn:E.
  - destruct (ring_append_holds _ _ _ v (Hring eq_refl)) as (r & -> & Hr). exists r. split; [done|]. split; [|done].
    by apply (has_ring_kept src _ r _ E Hr).
  - exists (so_ring src). split; [done|]. split; [|done]. rewrite <- E. by destruct src.
Qed.

(** A source that is read in every tick is read, any other is left alone. *)
Definition reading (src : source) (cursor : Z) (w : W) (sample : option float64) (w' : W) : Prop :=
  match sample with
  | Some v => refreshed src = true ∧ gives src cursor w w' v
  | None => refreshed src = false ∧ w' = w
  end.

(** The sources are read in their order. *)
Inductive readings (cursor : Z) : list source → W → list (option float64) → W → Prop :=
  | readings_nil w : readings cursor [] w [] w
  | readings_cons src sources w sample w1 samples w' :
      reading src cursor w sample w1 → readings cursor sources w1 samples w' →
      readings cursor (src :: sources) w (sample :: samples) w'.

Lemma readings_snoc cursor sources w samples w1 src sample w' :
  readings cursor sources w samples w1 → reading src cursor w1 sample w' →
  readings cursor (sources ++ [src]) w (samples ++ [sample]) w'.
Proof.
  induction 1 as [w|s sources w x w1 samples w2 Hx _ IH]; intros Hr; simpl; [by eapply readings_cons; [|constructor]|].
  eapply readings_cons; [exact Hx|]. by apply IH.
Qed.

Lemma hydrate_source_done (st : state) hp i src m :
  sources_ok st hp → st_sources st !! i = Some src → context_shows (st_ctx st) m →
  (∀ e, e ∈ st_memo st → me_src e ≠ i) →
  ∃ st' sample, hydrate_source i src st = Done st' ∧
    reading src (st_cursor st) (st_world st) sample (st_world st') ∧
    sources_ok st' (λ j, if decide (j = i) then (option_list sample ++ hp i)%list else hp j) ∧
    context_shows (st_ctx st') (show_sample m (src, sample)) ∧ same_rest st st' ∧
    ∀ e, e ∈ st_memo st' → e ∈ st_memo st ∨ (me_src e = i ∧ me_offset e = 0 ∧ sample = Some (me_value e)).
Proof.
  intros Hok Hi Hm Hmiss. unfold hydrate_source, reading, refreshed.
  destruct (negb (so_hydrate_bare src) && negb (has_ring src)) eqn:E.
  { rewrite <- negb_orb in E. apply negb_true_iff in E. exists st, None. rewrite E. split; [done|].
    split; [done|]. split; [|split; [done|split; [apply same_rest_refl|by left]]].
    intros j s Hj. case_decide; [subst; by apply Hok|by apply Hok]. }
  rewrite <- negb_orb in E. apply negb_false_iff in E.
  destruct (current_done st hp i src Hok Hi Hmiss) as (w & mm & v & -> & Hmm & Hgives). cbn [run_bind].
  destruct (append_sample src (st_ctx st) (hp i) v (Hok i src Hi)) as (ring & -> & Hhas & Hring). cbn [run_bind].
  destruct (publish_done (source_with_ring ring src) v (st_ctx st) m Hm (source_name_ok _ _ _ (Hok i src Hi)))
    as (c' & slot & bound & Hpub & Hm' & Hb & Hs).
  { apply (source_slot_ok _ _ _ (Hok i src Hi)). }
  cbn [with_world with_memo st_ctx] in Hpub |- *. rewrite Hpub. cbn [run_bind].
  eexists _, (Some v). split; [reflexivity|]. rewrite ?E. split; [by split|]. split; [|split; [done|split]].
  - intros j s. cbn [with_sources with_ctx with_world with_memo st_sources st_ctx]. intros Hj.
    case_decide as Hji.
    + subst j. rewrite list_lookup_insert_eq in Hj by (by eapply lookup_lt_Some). injection Hj as <-.
      split; [|done|apply (source_column_ok _ _ _ (Hok i src Hi))|apply (source_name_ok _ _ _ (Hok i src Hi))].
      intros Hh. cbn [source_with_slot source_with_ring so_ring so_max_lookback option_list app].
      apply Hring. rewrite <- Hhas. exact Hh.
    + rewrite list_lookup_insert_ne in Hj by done. by apply (pulled_ok_slots (st_ctx st)), Hok.
  - unfold same_rest. cbn [with_sources with_ctx with_world with_memo st_sources st_cursor st_expr_rings st_arg_rings].
    repeat split. rewrite list_fmap_insert. apply list_insert_id. rewrite list_lookup_fmap, Hi. simpl. f_equal.
    unfold shape. cbn [source_with_slot source_with_ring so_name so_kind so_hydrate_bare so_max_lookback].
    by rewrite <- Hhas.
  - cbn [with_sources with_ctx with_world with_memo st_memo]. intros e He.
    destruct Hmm as [->| ->]; [by left|]. apply elem_of_app in He as [He|He]; [by left|].
    apply list_elem_of_singleton in He as ->. by right.
Qed.

Lemma sources_ok_ext (st : state) hp hp' : (∀ j, hp j = hp' j) → sources_ok st hp → sources_ok st hp'.
Proof. intros Heq Hok i src Hi. rewrite <- Heq. by apply Hok. Qed.

Lemma sampled_snoc samples sample hp j :
  (if decide (j = length samples) then option_list sample ++ sampled samples hp j else sampled samples hp j)%list =
  sampled (samples ++ [sample]) hp j.
Proof.
  unfold sampled. case_decide as Hj.
  - subst j. rewrite (lookup_ge_None_2 samples) by lia. rewrite lookup_app_r by lia.
    rewrite Nat.sub_diag. simpl. by destruct sample.
  - destruct (decide (j < length samples)).
    + by rewrite lookup_app_l by lia.
    + rewrite (lookup_ge_None_2 samples) by lia. rewrite lookup_app_r by lia.
      rewrite lookup_ge_None_2; [done|]. simpl. lia.
Qed.

Lemma shape_lookup (l l' : list source) i src :
  shape <$> l' = shape <$> l → l !! i = Some src →
  ∃ src', l' !! i = Some src' ∧ shape src' = shape src.
Proof.
  intros Heq Hi. assert (Hl : (shape <$> l') !! i = Some (shape src)) by (rewrite Heq, list_lookup_fmap, Hi; done).
  rewrite list_lookup_fmap in Hl. destruct (l' !! i) as [src'|]; [|done]. exists src'. split; [done|]. simpl in Hl. congruence.
Qed.

Lemma show_sample_shape m (src src' : source) sample : shape src' = shape src → show_sample m (src', sample) = show_sample m (src, sample).
Proof. unfold shape, show_sample. simpl. intros [= -> _ _ _ _ _]. done. Qed.

(** The memo holds samples of this tick only. *)
Definition memo_of (st : state) (samples : list (option float64)) : Prop :=
  ∀ e, e ∈ st_memo st → me_offset e = 0 ∧ samples !! me_src e = Some (Some (me_value e)).

Lemma hydrate_sources_done (st0 st : state) hp m done todo samples :
  st_sources st0 = (done ++ todo)%list → length samples = length done →
  readings (st_cursor st0) done (st_world st0) samples (st_world st) →
  same_rest st0 st → sources_ok st (sampled samples hp) → context_shows (st_ctx st) (published done samples m) →
  memo_of st samples →
  ∃ st' samples', hydrate_sources (length done) (length todo) st = Done st' ∧
    readings (st_cursor st0) (done ++ todo) (st_world st0) samples' (st_world st') ∧ same_rest st0 st' ∧ sources_ok st' (sampled samples' hp) ∧
    context_shows (st_ctx st') (published (done ++ todo) samples' m) ∧ memo_of st' samples'.
Proof.
  revert st done samples. induction todo as [|src todo IH]; intros st done samples Hst0 Hlen Hdone Hrest Hok Hm Hmemo; simpl.
  { exists st, samples. rewrite app_nil_r. eauto 10. }
  destruct (shape_lookup (st_sources st0) (st_sources st) (length done) src) as (src' & Hsrc' & Hshape).
  { apply Hrest. } { rewrite Hst0, lookup_app_r, Nat.sub_diag by lia. done. }
  rewrite Hsrc'.
  destruct (hydrate_source_done st (sampled samples hp) (length done) src' _ Hok Hsrc' Hm)
    as (st1 & sample & -> & Hsample & Hok1 & Hm1 & Hrest1 & Hmemo1);
    [intros e [_ Hsrc%lookup_lt_Some]%Hmemo; lia|]. cbn [run_bind].
  assert (Hreading : reading src (st_cursor st0) (st_world st) sample (st_world st1)).
  { assert (Hrefreshed : refreshed src' = refreshed src) by (unfold refreshed; unfold shape in Hshape; congruence).
    destruct Hrest as [Hcur _]. rewrite Hcur in Hsample. unfold reading in *.
    by rewrite <- Hrefreshed, <- (gives_shape src src'). }
  destruct (IH st1 (done ++ [src])%list (samples ++ [sample])%list) as (st' & samples' & Hrun & H').
  - by rewrite <- (assoc_L app).
  - rewrite !length_app. simpl. lia.
  - by eapply readings_snoc.
  - by apply (same_rest_trans _ st).
  - apply (sources_ok_ext _ _ _ (sampled_snoc samples sample hp)). apply (sources_ok_ext _ _ _ (λ j, eq_refl)) in Hok1.
    intros j s Hj. specialize (Hok1 j s Hj). rewrite <- Hlen in Hok1. case_decide; subst; done.
  - unfold published. rewrite zip_with_app by done. rewrite fold_left_app. simpl.
    by rewrite (show_sample_shape _ src src' sample Hshape) in Hm1.
  - intros e He. destruct (Hmemo1 e He) as [Hold|(Hsrc & Hoff & Hval)].
    + destruct (Hmemo e Hold) as [Hoff Hval]. split; [done|]. rewrite lookup_app_l; [done|]. by eapply lookup_lt_Some.
    + split; [done|]. by rewrite Hsrc, lookup_app_r, Hlen, Nat.sub_diag, Hval by lia.
  - rewrite length_app, Nat.add_1_r in Hrun. exists st', samples'. rewrite Hrun. split; [done|].
    by rewrite <- (assoc_L app) in H'.
Qed.

(** ** Results of rules *)

Lemma update_rings_done {A} (f : nat → engine_ring A → run (engine_ring A)) (P : nat → engine_ring A → Prop) k rings :
  (∀ i r, rings !! i = Some r → ∃ r', f (k + i) r = Done r' ∧ P (k + i) r') →
  ∃ rings', update_rings f k rings = Done rings' ∧ length rings' = length rings ∧
    ∀ i r', rings' !! i = Some r' → P (k + i) r'.
Proof.
  revert k. induction rings as [|r rings IH]; intros k Hf; cbn [update_rings].
  { exists []. split; [done|]. split; [done|]. intros i r' Hi. by rewrite lookup_nil in Hi. }
  destruct (Hf 0 r eq_refl) as (r' & Hr & HP). rewrite Nat.add_0_r in Hr, HP. rewrite Hr. cbn [run_bind].
  destruct (IH (S k)) as (rings' & -> & Hlen & HP').
  { intros i x Hi. destruct (Hf (S i) x Hi) as (x' & Hx). rewrite <- Nat.add_succ_comm in Hx. eauto. }
  cbn [run_bind]. exists (r' :: rings'). split; [done|]. split; [simpl; lia|].
  intros [|i] x; simpl; [intros [= <-]; by rewrite Nat.add_0_r|]. intros Hi. rewrite <- Nat.add_succ_comm. by apply HP'.
Qed.

(** The ring of each tracked rule holds its results. *)
Definition rings_ok (tracked : list engine_tracked_expr) (rings : list (engine_ring cxpr_value))
    (hr : nat → list cxpr_value) : Prop :=
  ∀ i r, rings !! i = Some r → ∃ t, tracked !! i = Some t ∧ ring_holds r (tr_max_depth t + 1) (hr i).

Lemma reserve_done (prog : cxpr_engine_program) (st : state) hr :
  rings_ok (pg_tracked prog) (st_expr_rings st) hr →
  ∃ rings, reserve_results st = Done (with_expr_rings rings st) ∧ length rings = length (st_expr_rings st) ∧
    rings_ok (pg_tracked prog) rings (λ i, VNum fnan :: hr i).
Proof.
  intros Hok. unfold reserve_results.
  destruct (update_rings_done (λ _ r, engine_ring_append r (VNum fnan))
    (λ i r, ∃ t, pg_tracked prog !! i = Some t ∧ ring_holds r (tr_max_depth t + 1) (VNum fnan :: hr i)) 0 (st_expr_rings st))
    as (rings & -> & Hlen & Hrings).
  { intros i r Hi. destruct (Hok i r Hi) as (t & Ht & Hr). destruct (ring_append_holds r _ _ (VNum fnan) Hr) as (r' & -> & Hr').
    exists r'. eauto. }
  cbn [run_bind]. exists rings. split; [done|]. split; [done|]. intros i r Hi. by apply Hrings.
Qed.

Context {E : Type} `{!EngineRules (C := C) (W := W) E}.

(** The results of tracked rules behind a tick. *)
Definition recorded (prog : cxpr_engine_program) (ev : E) (hr : nat → list cxpr_value) (i : nat) : list cxpr_value :=
  match pg_tracked prog !! i with
  | Some t => default (VNum fnan) (rules_get ev (tr_name t)) :: hr i
  | None => hr i
  end.

Lemma record_done (prog : cxpr_engine_program) (ev : E) (st : state) hr :
  rings_ok (pg_tracked prog) (st_expr_rings st) (λ i, VNum fnan :: hr i) →
  ∃ rings, record_results prog ev st = Done (with_expr_rings rings st) ∧ length rings = length (st_expr_rings st) ∧
    rings_ok (pg_tracked prog) rings (recorded prog ev hr).
Proof.
  intros Hok. unfold record_results.
  match goal with |- context [update_rings ?f 0 _] =>
    destruct (update_rings_done f
      (λ i r, ∃ t, pg_tracked prog !! i = Some t ∧ ring_holds r (tr_max_depth t + 1) (recorded prog ev hr i)) 0 (st_expr_rings st))
      as (rings & -> & Hlen & Hrings) end.
  { intros i r Hi. destruct (Hok i r Hi) as (t & Ht & Hr). simpl. rewrite Ht.
    destruct (ring_fill_holds r _ _ _ (default (VNum fnan) (rules_get ev (tr_name t))) Hr) as (r' & -> & Hr').
    exists r'. split; [done|]. exists t. split; [done|]. unfold recorded. by rewrite Ht. }
  cbn [run_bind]. exists rings. split; [done|]. split; [done|]. intros i r Hi. by apply Hrings.
Qed.

(** ** Edges *)

Definition watched (v : option cxpr_value) : option bool := match v with Some (VBool b) => Some b | _ => None end.
Definition is_true (v : option cxpr_value) : bool := match v with Some (VBool b) => b | _ => false end.

(** The edge lies between the results [was] of the last tick, [None] before the
    first one, and [now]. *)
Definition edge_between (edge : cxpr_engine_edge) (was : option (option cxpr_value)) (now : option cxpr_value) : bool :=
  match edge with
  | CXPR_EDGE_RISING => is_true now && negb (is_true (default None was))
  | CXPR_EDGE_FALLING => negb (is_true now) && is_true (default None was)
  | CXPR_EDGE_LEVEL => is_true now
  | CXPR_EDGE_CHANGED => match was with Some was => bool_decide (watched was ≠ watched now) | None => false end
  end.

(** The state of a watch behind a tick with the results [last]. *)
Definition watch_prev (last : option (string → option cxpr_value)) (w : engine_watch) : bool * float64 * bool :=
  match last with
  | None => (false, fzero, false)
  | Some get =>
      (is_true (get (wa_expr_name w)),
       match watched (get (wa_expr_name w)) with Some b => engine_value_to_double (VBool b) | None => fnan end, true)
  end.

Definition watch_event (last : option (string → option cxpr_value)) (get : string → option cxpr_value) (w : engine_watch)
    : option cxpr_engine_event :=
  if edge_between (wa_edge w) ((λ f, f (wa_expr_name w)) <$> last) (get (wa_expr_name w))
  then Some (mk_event (wa_expr_name w) (wa_edge w) (default (VNum fnan) (get (wa_expr_name w)))) else None.

(** Every watched rule has a bool or no result. *)
Definition watches_bool (get : string → option cxpr_value) (watches : list engine_watch) : Prop :=
  Forall (λ w, ∀ v, get (wa_expr_name w) = Some v → ∃ b, v = VBool b) watches.

Lemma edge_fires_between edge last w (now : option cxpr_value) num :
  num = match watched now with Some b => engine_value_to_double (VBool b) | None => fnan end →
  edge_fires edge (watch_prev last w) (is_true now) num =
  edge_between edge ((λ f, f (wa_expr_name w)) <$> last) now.
Proof.
  intros ->. destruct last as [get|]; unfold watch_prev, edge_fires, edge_between; simpl.
  - destruct edge; try done. unfold watched.
    destruct now as [[]|], (get (wa_expr_name w)) as [[]|]; try reflexivity;
      repeat match goal with b : bool |- _ => destruct b end; reflexivity.
  - destruct edge; try done; by rewrite ?andb_false_r, ?andb_true_r.
Qed.

(** Watches with bools in front of others. *)
Lemma detect_edges_before last get cap before rest events :
  watches_bool get before → length events + length before ≤ cap →
  detect_edges get cap (before ++ rest) (map (watch_prev last) (before ++ rest)) events =
  let* '(prevs, r) := detect_edges get cap rest (map (watch_prev last) rest)
                        (events ++ omap (watch_event last get) before)%list in
  Done ((map (watch_prev (Some get)) before ++ prevs)%list, r).
Proof.
  revert events. induction before as [|w watches IH]; intros events Hb Hcap; cbn [detect_edges map app omap list_omap].
  { rewrite app_nil_r. by destruct (detect_edges _ _ _ _ _) as [[]| |]. }
  apply Forall_cons in Hb as [Hw Hb]. simpl in Hcap. set (now := get (wa_expr_name w)) in *.
  assert (Hstep : ∀ num v, num = match watched now with Some b => engine_value_to_double (VBool b) | None => fnan end →
      v = default (VNum fnan) now →
      (let events := if edge_fires (wa_edge w) (watch_prev last w) (is_true now) num && (length events <? cap)
                     then (events ++ [mk_event (wa_expr_name w) (wa_edge w) v])%list else events in
       let* '(rest, r) := detect_edges get cap (watches ++ rest) (map (watch_prev last) (watches ++ rest)) events in
       Done ((is_true now, num, true) :: rest, r)) =
      let* '(prevs, r) := detect_edges get cap rest (map (watch_prev last) rest)
                            (events ++ omap (watch_event last get) (w :: watches))%list in
      Done ((watch_prev (Some get) w :: map (watch_prev (Some get)) watches ++ prevs)%list, r)).
  { intros num v Hnum Hv. rewrite (edge_fires_between _ _ _ _ num Hnum). cbn [omap list_omap].
    assert (Hevent : watch_event last get w = if edge_between (wa_edge w) ((λ f, f (wa_expr_name w)) <$> last) now
      then Some (mk_event (wa_expr_name w) (wa_edge w) (default (VNum fnan) now)) else None) by reflexivity.
    rewrite Hevent. assert (Hprev : watch_prev (Some get) w = (is_true now, num, true)) by (unfold watch_prev; fold now; by rewrite Hnum).
    rewrite Hprev. destruct (edge_between _ _ now) eqn:Eedge; cbn [andb].
    - destruct (Nat.ltb_spec (length events) cap); [|lia].
      rewrite IH; [|done|rewrite length_app; simpl; lia]. rewrite <- (assoc_L app), Hv. simpl.
      by destruct (detect_edges _ _ _ _ _) as [[]| |].
    - rewrite IH; [|done|lia]. by destruct (detect_edges _ _ _ _ _) as [[]| |]. }
  destruct now as [v|] eqn:Enow; [|by apply (Hstep fnan (VNum fnan))].
  destruct (Hw v eq_refl) as [b ->]. by apply (Hstep (engine_value_to_double (VBool b)) (VBool b)).
Qed.

Lemma detect_edges_done last get cap watches :
  watches_bool get watches → length watches ≤ cap →
  detect_edges get cap watches (map (watch_prev last) watches) [] =
  Done (map (watch_prev (Some get)) watches, inl (omap (watch_event last get) watches)).
Proof.
  intros Hb Hcap. pose proof (detect_edges_before last get cap watches [] [] Hb Hcap) as Hd.
  rewrite app_nil_r in Hd. rewrite Hd. cbn [map detect_edges run_bind]. by rewrite app_nil_r.
Qed.

(** A watched rule with a result that is no bool ends the search. *)
Lemma detect_edges_fails last get cap before w after v :
  watches_bool get before → length before ≤ cap → get (wa_expr_name w) = Some v → value_type v ≠ CXPR_VALUE_BOOL →
  detect_edges get cap (before ++ w :: after) (map (watch_prev last) (before ++ w :: after)) [] =
  Done ((map (watch_prev (Some get)) before ++ map (watch_prev last) (w :: after))%list, inr watch_type_error).
Proof.
  intros Hb Hcap Hv Ht. rewrite detect_edges_before by done. cbn [map detect_edges]. rewrite Hv. by destruct v.
Qed.

Lemma detect_edges_total get cap watches prevs events :
  length watches = length prevs → ∃ prevs' r, detect_edges get cap watches prevs events = Done (prevs', r).
Proof.
  revert prevs events. induction watches as [|w watches IH]; intros [|prev prevs] events Hlen; try done; cbn [detect_edges].
  { eauto. }
  injection Hlen as Hlen.
  destruct (get (wa_expr_name w)) as [[]|]; eauto;
    match goal with |- context [detect_edges get cap watches prevs ?e] =>
      destruct (IH prevs e Hlen) as (p & r & ->) end; cbn [run_bind]; eauto.
Qed.

(** ** A tick *)

(** Evaluation of the rules always returns, and neither the rings nor the cursor
    nor the sources of the session are changed by the engine's callbacks. *)
Class EngineRulesLaws : Type := {
  rules_ok : E → Prop;
  rules_eval_law ev st hp m : rules_ok ev → sources_ok st hp → context_shows (st_ctx st) m →
    (∀ r, r ∈ st_expr_rings st → ∃ cap hist, ring_holds r cap hist) →
    ∃ ev' st' err m', rules_eval ev st = Done (ev', st', err) ∧ rules_ok ev' ∧
      st_cursor st' = st_cursor st ∧ st_sources st' = st_sources st ∧ st_expr_rings st' = st_expr_rings st ∧
      context_shows (st_ctx st') m' ∧ (∀ slot x, slot_names (st_ctx st) slot x → slot_names (st_ctx st') slot x)
}.
Context `{!EngineRulesLaws}.
Local Abbreviation session := (cxpr_engine_session (C := C) (W := W) (E := E)).

(** [hp] and [hr] are the histories of sources and tracked rules, [last] the
    results of the last successful tick. *)
Record session_ok (s : session) (hp : nat → list float64) (hr : nat → list cxpr_value)
    (last : option (string → option cxpr_value)) : Prop := {
  session_sources_ok : sources_ok (se_state s) hp;
  session_rings_ok : rings_ok (pg_tracked (se_prog s)) (st_expr_rings (se_state s)) hr;
  session_context_ok : ∃ m, context_shows (st_ctx (se_state s)) m;
  session_prev_ok : se_prev s = map (watch_prev last) (pg_watches (se_prog s));
  session_cap_ok : se_event_cap s = length (pg_watches (se_prog s));
  session_rules_ok : rules_ok (se_eval s)
}.

(** The samples of a source start with its first tick. *)
Lemma new_pulled_ok c slot (src : source) :
  column_mapped src → session_name (so_name src) → pulled_ok c (session_source slot src) [].
Proof.
  intros Hcol Hname. split; [|done|done|done]. unfold has_ring, session_source. cbn [source_with_slot source_with_ring so_kind so_ring so_max_lookback].
  destruct (so_kind src); [|done|done]. destruct (so_referenced src && (0 <? so_max_lookback src)); [|done].
  intros _. apply ring_new_holds. lia.
Qed.

Lemma tracked_ring_new_holds t : ring_holds (tracked_ring_new t) (tr_max_depth t + 1) [].
Proof.
  exists (replicate (tr_max_depth t + 1) (Some (VNum fzero))). unfold tracked_ring_new.
  cbn [rg_buf rg_cap rg_head rg_count length]. rewrite length_replicate, Nat.min_0_r.
  repeat split; try lia. intros d v _ Hv. by rewrite lookup_nil in Hv.
Qed.

Lemma new_watches prog : replicate (length (pg_watches prog)) (false, fzero, false) = map (watch_prev None) (pg_watches prog).
Proof. induction (pg_watches prog) as [|w l IH]; simpl; [done|]. by rewrite IH. Qed.

(** A new session has no history. *)
Lemma session_new_ok prog (sources : list source) slot (ev : E) c w m :
  context_shows c m → Forall (λ src, column_mapped src ∧ session_name (so_name src)) sources → rules_ok ev →
  session_ok (cxpr_engine_session_new prog sources slot ev c w) (λ _, []) (λ _, []) None.
Proof.
  intros Hm Hsrc Hev. split; cbn; [| |eauto|apply new_watches|done|done].
  - intros i src Hi. cbn in Hi. apply list_lookup_fmap_Some in Hi as (src0 & -> & Hi).
    rewrite Forall_lookup in Hsrc. destruct (Hsrc i src0 Hi). by apply new_pulled_ok.
  - intros i r Hi. apply list_lookup_fmap_Some in Hi as (t & -> & Hi). exists t. split; [done|]. apply tracked_ring_new_holds.
Qed.

(** A session that is reset has no history either, and the next tick is the
    first. *)
Lemma session_reset_ok (s : session) hp hr last :
  session_ok s hp hr last →
  ∃ s', cxpr_engine_session_reset s = Done s' ∧ session_ok s' (λ _, []) (λ _, []) None ∧ cxpr_engine_tick_index s' = (-1)%Z.
Proof.
  intros [Hsrc Hrings [m Hm] _ Hcap Hrules]. unfold cxpr_engine_session_reset.
  destruct (context_clear_cached_law _ m Hm) as (c' & -> & Hm'). cbn [run_bind]. eexists. split; [reflexivity|].
  split; [|done]. split; cbn; [| |eauto|apply new_watches|done|done].
  - intros i src Hi. cbn in Hi. apply list_lookup_fmap_Some in Hi as (src0 & -> & Hi). destruct (Hsrc i src0 Hi) as [Hr _ Hc Hn].
    split; [|done|done|done]. unfold has_ring in *. cbn [source_with_slot source_with_ring so_kind so_ring so_max_lookback ring_clear rg_buf].
    intros Hh. by apply (ring_clear_holds _ _ (hp i)), Hr.
  - intros i r Hi. apply list_lookup_fmap_Some in Hi as (r0 & -> & Hi). destruct (Hrings i r0 Hi) as (t & Ht & Hr).
    exists t. split; [done|]. by apply (ring_clear_holds _ _ (hr i)).
Qed.

(** The state in which the rules of the next tick are evaluated, when the context
    showed the numbers [m] and the sources gave [samples]. *)
Record evaluated_in (s : session) (m : gmap string float64) (samples : list (option float64))
    (hp : nat → list float64) (hr : nat → list cxpr_value) (st : state) : Prop := {
  eval_cursor : st_cursor st = (st_cursor (se_state s) + 1)%Z;
  eval_samples : readings (st_cursor st) (st_sources (se_state s)) (st_world (se_state s)) samples (st_world st);
  eval_sources : sources_ok st (sampled samples hp);
  eval_shapes : shape <$> st_sources st = shape <$> st_sources (se_state s);
  eval_context : context_shows (st_ctx st) (published (st_sources (se_state s)) samples m);
  eval_memo : memo_of st samples;
  eval_rings : rings_ok (pg_tracked (se_prog s)) (st_expr_rings st) (λ i, VNum fnan :: hr i)
}.

Lemma prepare_tick (s : session) hp hr last m :
  session_ok s hp hr last → context_shows (st_ctx (se_state s)) m →
  ∃ samples st1 st,
    (let st := with_memo [] (with_cursor (st_cursor (se_state s) + 1) (se_state s)) in
     hydrate_sources 0 (length (st_sources st)) st) = Done st1 ∧ reserve_results st1 = Done st ∧
    evaluated_in s m samples hp hr st.
Proof.
  intros Hs Hm. set (st0 := with_memo [] (with_cursor _ (se_state s))).
  destruct (hydrate_sources_done st0 st0 hp m [] (st_sources (se_state s)) []) as (st1 & samples & Hrun & Hsamples & Hrest & Hok & Hm1 & Hmemo).
  - done.
  - done.
  - apply readings_nil.
  - apply same_rest_refl.
  - intros i src Hi. unfold sampled. rewrite lookup_nil. by apply (session_sources_ok _ _ _ _ Hs).
  - done.
  - intros e He. by apply elem_of_nil in He.
  - destruct Hrest as (Hcur & Hrings & _ & Hshape).
    destruct (reserve_done (se_prog s) st1 hr) as (rings & Hres & _ & Hrok).
    { rewrite Hrings. apply (session_rings_ok _ _ _ _ Hs). }
    exists samples, st1, (with_expr_rings rings st1). split; [exact Hrun|]. split; [exact Hres|].
    split; try done. cbn [with_expr_rings st_cursor st_world]. by rewrite Hcur.
Qed.

Lemma rings_each_hold tracked rings hr r : rings_ok tracked rings hr → r ∈ rings → ∃ cap hist, ring_holds r cap hist.
Proof. intros Hok Hr. apply list_elem_of_lookup_1 in Hr as [i Hi]. destruct (Hok i r Hi) as (t & _ & Hr'). eauto. Qed.


(** ** Lookback *)

(** What a source with a ring gave [d] ticks ago, as far as its ring reaches. *)
Definition source_at (src : source) (hist : list float64) (d : nat) : float64 :=
  default fnan (if d <? so_max_lookback src + 1 then hist !! d else None).

Definition memo_ok (st : state) (hp : nat → list float64) : Prop :=
  ∀ e src, e ∈ st_memo st → me_args e = [] → st_sources st !! me_src e = Some src → has_ring src = true →
    me_value e = source_at src (hp (me_src e)) (me_offset e).

Lemma evaluated_memo_ok s m samples hp hr st : evaluated_in s m samples hp hr st → memo_ok st (sampled samples hp).
Proof.
  intros Hin e src He _ _ _. destruct (eval_memo _ _ _ _ _ _ Hin e He) as [Hoff Hval].
  unfold source_at, sampled. rewrite Hval, Hoff. destruct (Nat.ltb_spec 0 (so_max_lookback src + 1)); [done|lia].
Qed.

(** An index that is a literal of a natural number. *)
Definition literal (index : cxpr_expr_ast) (n : nat) : Prop :=
  ∃ d, ast_node index = CXPR_NODE_NUMBER d ∧ fltb d fzero = false ∧ to_Z d = Some (Z.of_nat n) ∧ (Z.of_nat n ≤ SIZE_MAX)%Z.

Lemma find_source_lookup (sources : list source) name k i :
  find_source_from sources name k = Some i → ∃ src, sources !! (i - k) = Some src ∧ so_name src = name ∧ k ≤ i.
Proof.
  revert k. induction sources as [|src sources IH]; intros k; cbn [find_source_from]; [done|].
  destruct (String.eqb_spec (so_name src) name) as [Hn|].
  - intros [= <-]. rewrite Nat.sub_diag. eauto.
  - intros Hf. destruct (IH (S k) Hf) as (s & Hs & Hn & Hle). exists s. split; [|split; [done|lia]].
    replace (i - k) with (S (i - S k)) by lia. done.
Qed.

Lemma memo_get_ok (st : state) hp i src offset v :
  memo_ok st hp → st_sources st !! i = Some src → has_ring src = true →
  engine_source_memo_get st i [] offset = Some v → v = source_at src (hp i) offset.
Proof.
  intros Hmemo Hi Hring. unfold engine_source_memo_get.
  destruct (List.find _ _) as [e|] eqn:Hf; [|done]. intros [= <-].
  apply List.find_some in Hf as [He Hkey]. apply andb_true_iff in Hkey as [Hkey Hargs].
  apply andb_true_iff in Hkey as [Hsrc Hoff]. apply Nat.eqb_eq in Hsrc, Hoff. subst.
  apply (Hmemo e src); [by apply list_elem_of_In| |done|done]. by destruct (me_args e).
Qed.

(** C20: During a tick, [name[n]] of a pull source with a ring is what the source
    gave [n] ticks ago, counted from the tick an enclosing lookback moved to, and
    NaN before its first sample; the memo of the tick never shows another value. *)
Theorem source_lookback_correct (ok : bool) prog delegate policy (ev : E) (tls n : nat) span (name : string)
    (index : cxpr_expr_ast) (c : C) (st : state) (hp : nat → list float64) (i : nat) (src : source)
    (Hok : sources_ok st hp) (Hmemo : memo_ok st hp) (Hfind : engine_find_source_in (st_sources st) name = Some i)
    (Hi : st_sources st !! i = Some src) (Hring : has_ring src = true) (Hindex : literal index n) :
  ∃ st', engine_lookback_resolver ok prog delegate policy ev tls (Ast span (CXPR_NODE_IDENTIFIER name)) index c st =
      Done (st', Answer (VNum (source_at src (hp i) (tls + n)))) ∧
    memo_ok st' hp ∧ sources_ok st' hp ∧ st_cursor st' = st_cursor st ∧ st_expr_rings st' = st_expr_rings st.
Proof.
  destruct Hindex as (d & Hd & Hneg & Hz & Hmax). unfold engine_lookback_resolver. rewrite Hd, Hneg, Hz.
  destruct (Z.ltb_spec SIZE_MAX (Z.of_nat n)); [lia|]. rewrite Nat2Z.id. cbn [ast_node]. rewrite Hfind.
  unfold lookback_source, engine_resolve_source_call. rewrite Hi.
  destruct (engine_source_memo_get st i [] (tls + n)) as [v|] eqn:Eget.
  { cbn [run_bind]. rewrite (memo_get_ok st hp i src _ v Hmemo Hi Hring Eget). eauto 10. }
  pose proof (source_ring_ok _ _ _ (Hok i src Hi) Hring) as Hholds.
  assert (Hpull : resolve_pull ok st i src [] (tls + n) = Done (st, Some (source_at src (hp i) (tls + n))) ∧
    so_kind src = ENGINE_SRC_PULL).
  { unfold has_ring in Hring. unfold resolve_pull. destruct (so_kind src), (rg_buf (so_ring src)); try done.
    cbn [length Nat.ltb Nat.leb andb Nat.eqb]. rewrite orb_true_r. by rewrite (ring_read_holds _ _ _ _ Hholds). }
  destruct Hpull as [Hpull ->]. rewrite Hpull. cbn [run_bind].
  destruct (memo_set_shape st i (tls + n) (source_at src (hp i) (tls + n))) as (m & -> & Hgrow).
  eexists. split; [reflexivity|]. split; [|done]. intros e src' He Hargs Hsrc' Hring'.
  cbn [with_memo st_memo st_sources] in *. destruct Hgrow as [->| ->]; [by apply (Hmemo e)|].
  apply elem_of_app in He as [He|He]; [by apply (Hmemo e)|]. apply list_elem_of_singleton in He as ->.
  simpl in *. by simplify_eq.
Qed.

Lemma tracked_from_lookup tracked name k i :
  tracked_from tracked name k = Some i → ∃ t, tracked !! (i - k) = Some t ∧ tr_name t = name ∧ k ≤ i.
Proof.
  revert k. induction tracked as [|t tracked IH]; intros k; cbn [tracked_from]; [done|].
  destruct (String.eqb_spec (tr_name t) name) as [Hn|].
  - intros [= <-]. rewrite Nat.sub_diag. eauto.
  - intros Hf. destruct (IH (S k) Hf) as (x & Hx & Hn & Hle). exists x. split; [|split; [done|lia]].
    replace (i - k) with (S (i - S k)) by lia. done.
Qed.

(** C21: During a tick, [rule[n]] of a tracked rule is the result the rule had [n]
    ticks ago, as far as the depth the program was scanned for, and NaN before its
    first result; [rule[0]] is the result of this tick once it is there. *)
Theorem rule_lookback_correct (ok : bool) prog delegate policy (ev : E) (tls n : nat) span (name : string)
    (index : cxpr_expr_ast) (c : C) (st : state) (hr : nat → list cxpr_value) (k : nat) (t : engine_tracked_expr)
    (Hrings : rings_ok (pg_tracked prog) (st_expr_rings st) (λ i, VNum fnan :: hr i))
    (Hfind : engine_find_source_in (st_sources st) name = None)
    (Htracked : engine_tracked_index prog name = Some k) (Hk : k < length (st_expr_rings st))
    (Ht : pg_tracked prog !! k = Some t) (Hindex : literal index n) :
  engine_lookback_resolver ok prog delegate policy ev tls (Ast span (CXPR_NODE_IDENTIFIER name)) index c st =
    Done (st, Answer (default (VNum fnan)
      (match n with
       | O => rules_get ev name
       | S n => if n <? tr_max_depth t then hr k !! n else None
       end))).
Proof.
  destruct Hindex as (d & Hd & Hneg & Hz & Hmax). unfold engine_lookback_resolver. rewrite Hd, Hneg, Hz.
  destruct (Z.ltb_spec SIZE_MAX (Z.of_nat n)); [lia|]. rewrite Nat2Z.id. cbn [ast_node]. rewrite Hfind.
  unfold tracked_ring. rewrite Htracked. destruct (Nat.ltb_spec k (length (st_expr_rings st))); [|lia].
  unfold lookback_tracked, engine_tracked_expression_value. rewrite Ht.
  destruct (lookup_lt_is_Some_2 (st_expr_rings st) k Hk) as [r Hr]. rewrite Hr.
  destruct (Hrings k r Hr) as (t' & Ht' & Hholds). assert (t' = t) as -> by congruence.
  assert (Hname : tr_name t = name).
  { unfold engine_tracked_index in Htracked. apply tracked_from_lookup in Htracked as (x & Hx & Hn & _).
    rewrite Nat.sub_0_r in Hx. congruence. }
  rewrite (ring_read_holds _ _ _ n Hholds), Hname. destruct n as [|n]; cbn [Nat.eqb].
  - destruct (rules_get ev name); cbn [run_bind]; [done|]. destruct (Nat.ltb_spec 0 (tr_max_depth t + 1)); [done|lia].
  - cbn [run_bind lookup list_lookup]. destruct (Nat.ltb_spec (S n) (tr_max_depth t + 1)), (Nat.ltb_spec n (tr_max_depth t));
      try lia; [by destruct (hr k !! n)|done].
Qed.
End proofs.
