(* ===== verification/EngineContexts.v ===== *)
(** * EngineContexts: contexts of [src/context] under a session

    A session sets the numbers of its sources in its own context and writes to
    bound slots.  The context satisfies the laws a session relies on as long as
    the addresses of released entry arrays are not used again and the session has
    at most fifty names: every new name at most doubles the table. *)

From Stdlib Require Import Ascii String ZArith Lia.
From stdpp Require Import base list strings gmap fin_maps.
From S2P Require Import Prelude Float64 Types ValueCopy OpenTable Hashmap StructMap Bindings Context ContextProofs EvalState TreeEval TreeContext HistoryContexts Engine EngineProofs.
Local Open Scope run_scope.
Local Open Scope nat_scope.

(** A context, the next address of the allocator, and the parent. *)
Inductive session_context : Type :=
  | SessionContext (c : cxpr_context) (next : Z) (parent : option session_context).

Definition own_context (s : session_context) : cxpr_context := let '(SessionContext c _ _) := s in c.
Definition next_address (s : session_context) : Z := let '(SessionContext _ next _) := s in next.

Fixpoint context_chain (s : session_context) : list cxpr_context :=
  let '(SessionContext c _ parent) := s in
  c :: match parent with Some p => context_chain p | None => [] end.

Section instance.
Context (addr : string → Z).

(** The address a new entry array would get. *)
Definition new_array (s : session_context) : Z :=
  Z.max (next_address s) (fresh_address (variables (own_context s))).

#[export] Instance session_contexts : EngineContext session_context := {
  context_slot := cxpr_context_slot;
  context_set s name v :=
    let '(SessionContext c _ parent) := s in
    let b := new_array s in
    let* c := cxpr_context_set (env_at b) c (at_name addr name) v in
    Done (SessionContext c (b + 1) parent);
  context_bind s name := cxpr_context_slot_bind (own_context s) (at_name addr name);
  context_slot_valid s slot := cxpr_context_slot_valid (own_context s) slot;
  context_write s slot v :=
    let '(SessionContext c next parent) := s in
    let* c := cxpr_context_slot_set c slot v in
    Done (SessionContext c next parent);
  context_clear_cached s :=
    let '(SessionContext c next parent) := s in
    let* c := cxpr_context_clear_cached_structs c in
    Done (SessionContext c next parent);
  context_clone s := Done s;
  context_set_param s name v :=
    let '(SessionContext c _ parent) := s in
    let b := Z.max (new_array s) (fresh_address (params c)) in
    let* c := cxpr_context_set_param_value (env_at b) c (at_name addr name) v in
    Done (SessionContext c (b + 1) parent);
  context_get_param s name :=
    let* '(v, _) := cxpr_context_get_param_typed (context_chain s) (at_name addr name) in Done v;
  context_with_parent parent s := let '(SessionContext c next _) := s in SessionContext c next parent;
  context_parent s := let '(SessionContext _ _ parent) := s in parent
}.

(** ** The laws *)

Lemma fresh_base_above b s : (fresh_address s ≤ b)%Z → fresh_base b s.
Proof.
  unfold fresh_address. intros Hb.
  destruct (fold_max_bound (λ b, Z.abs (pb_base b)) 0 (ns_ptr_cache s)) as [Hp0 Hp].
  set (p := map_fold _ 0%Z (ns_ptr_cache s)) in *.
  destruct (fold_max_bound (λ b, Z.abs (hb_base b)) p (ns_cache s)) as [Hh0 Hh].
  set (h := map_fold _ p (ns_cache s)) in *.
  apply fresh_base_intro; [unfold NULL; lia| |]; (eapply map_Forall_impl; [eassumption|]); simpl; lia.
Qed.

Lemma set_known_capacity mem b s es name v s' :
  store_wf s es → is_Some (table_map es !! name_str name) →
  cxpr_context_set_hashed mem b s name (cxpr_hash_string (name_str name)) v = Done s' →
  hm_capacity (ns_map s') = hm_capacity (ns_map s).
Proof.
  intros Hwf Hsome. unfold cxpr_context_set_hashed.
  destruct (pointer_lookup_spec s es name Hwf) as (r & -> & _). cbn [run_bind].
  destruct r as [slot|]; [apply write_value_capacity|].
  destruct (cached_lookup_spec s es name Hwf) as (r & s1 & -> & _ & (Hm1 & _) & Hr1). cbn [run_bind].
  destruct r as [slot|].
  - intros Hw%write_value_capacity. by rewrite refresh_pointer_map, Hm1 in Hw.
  - destruct Hr1 as [Hnone _]. rewrite Hnone in Hsome. by destruct Hsome.
Qed.

Context (names : gset string) (Hnames : size names ≤ 50).

(** The numbers of the session's names, in a table below the bound. *)
Definition session_shows (s : session_context) (m : gmap string float64) : Prop :=
  ∃ w, vars_ok (own_context s) w ∧ w_num w = m ∧ dom m ⊆ names ∧
    hm_capacity (ns_map (variables (own_context s))) ≤ 32 * 2 ^ size m ∧
    (ns_base (variables (own_context s)) < next_address s)%Z.

Definition session_slot (s : session_context) (slot : cxpr_context_slot) (name : string) : Prop :=
  (slot_base slot < next_address s)%Z ∧
  ∀ i, slot_ptr slot = Some i → slot_base slot = ns_base (variables (own_context s)) →
    ∃ es, hm_entries (ns_map (variables (own_context s))) = Some es ∧ holds es i name.

Lemma table_fits s m : session_shows s m → has_room alloc_all (ns_map (variables (own_context s))).
Proof.
  intros (w & _ & _ & Hdom & Hcap & _). right. split; [done|]. apply Z.le_trans with (Z.of_nat (32 * 2 ^ 50)).
  - apply inj_le. etrans; [exact Hcap|]. apply Nat.mul_le_mono_l, Nat.pow_le_mono_r; [lia|].
    rewrite <- size_dom. etrans; [by apply subseteq_size|done].
  - rewrite Nat2Z.inj_mul, Nat2Z.inj_pow. vm_compute. discriminate.
Qed.

Lemma set_capacity_bound mem b s es name v s' m :
  store_wf s es → table_map es = m → hm_capacity (ns_map s) ≤ 32 * 2 ^ size m →
  cxpr_context_set_hashed mem b s name (cxpr_hash_string (name_str name)) v = Done s' →
  hm_capacity (ns_map s') ≤ 32 * 2 ^ size (<[name_str name := v]> m).
Proof.
  intros Hwf <- Hcap Hset. destruct (table_map es !! name_str name) as [x|] eqn:Hx.
  - rewrite (set_known_capacity _ _ _ _ _ _ _ Hwf ltac:(eauto) Hset).
    rewrite map_size_insert_Some by eauto. done.
  - apply set_hashed_capacity in Hset. rewrite map_size_insert_None by done. simpl. lia.
Qed.

Lemma session_set_law s m name v :
  session_shows s m → name ∈ names →
  ∃ s', context_set s name v = Done s' ∧ session_shows s' (<[name := v]> m) ∧
    (∀ slot x, session_slot s slot x → session_slot s' slot x).
Proof.
  intros Hs Hname. pose proof (table_fits s m Hs) as Hroom. destruct Hs as (w & Hw & Hm & Hdom & Hcap & Hbase).
  destruct s as [c next parent]. cbn [own_context next_address] in *. simpl context_set.
  set (b := new_array _). assert (Hb : (next ≤ b)%Z) by apply Z.le_max_l.
  assert (Hfresh : fresh_base b (variables c)) by (apply fresh_base_above, Z.le_max_r).
  unfold cxpr_context_set, cxpr_context_set_prehashed.
  pose proof (drop_string_ok (at_name addr name) _ _ (drop_int64_ok (at_name addr name) _ _
    (drop_bool_ok (at_name addr name) _ _ Hw))) as Hw1.
  destruct (drop_compound_ok (at_name addr name) _ _ Hw1) as (a & st & Hk & Hw2). rewrite Hk. clear Hk Hw1.
  destruct (ok_num _ _ Hw) as (es & Hwf & Hes). rewrite Hm in Hes.
  destruct (set_hashed_wf alloc_all b (variables c) es (at_name addr name) v Hwf Hfresh eq_refl Hroom)
    as (vs & es' & Hset & Hwf' & Hes' & Hcase).
  change (variables (set_structs st _)) with (variables c). cbn [e_mem e_base env_at].
  rewrite Hset. cbn [run_bind]. eexists. split; [reflexivity|]. cbn [own_context next_address]. split.
  - exists (view_set name (VNum v) w). split_and!.
    + destruct Hw2. split; auto. cbn [w_num view_set]. rewrite Hm, <- Hes. by exists es'.
    + simpl. by rewrite Hm.
    + rewrite dom_insert_L. set_solver.
    + cbn [set_variables variables]. by eapply (set_capacity_bound _ _ _ _ _ _ _ m Hwf Hes Hcap Hset).
    + cbn [set_variables variables own_context next_address]. destruct Hcase as [(_ & _ & [-> | [-> _]])|(_ & _ & -> & _)]; lia.
  - intros slot x [Hlt Hslot]. cbn [own_context next_address] in *. split; [cbn; lia|].
    intros i Hi Heq. cbn [own_context set_variables variables] in *.
    assert (Hkept : ns_base vs = ns_base (variables c) ∧ keeps es es').
    { destruct Hcase as [(_ & _ & [Hb' | [Hb' Hkeep]])|(_ & _ & Hb' & Hkeep)]; [lia|done|done]. }
    destruct Hkept as [Hb' Hkeep]. rewrite Hb' in Heq. destruct (Hslot i Hi Heq) as (es0 & Hes0 & [y Hy]).
    rewrite (wf_entries _ _ (sw_map _ _ Hwf)) in Hes0. injection Hes0 as <-.
    exists es'. split; [apply (sw_map _ _ Hwf')|]. by eapply Hkeep.
Qed.

Lemma session_bind_law s m name :
  session_shows s m →
  ∃ bound slot, context_bind s name = Done (bound, slot) ∧ (bound = true → session_slot s slot name).
Proof.
  intros (w & Hw & Hm & _ & _ & Hbase). destruct (ok_num _ _ Hw) as (es & Hwf & _). simpl.
  unfold cxpr_context_slot_bind. pose proof (find_slot_spec _ es name (sw_map _ _ Hwf)) as Hfind.
  cbn [name_str at_name]. destruct (table_map es !! name) as [v|].
  - destruct Hfind as (i & -> & Hi). cbn [run_bind]. eexists _, _. split; [reflexivity|]. intros _. split; [done|].
    intros j [= <-] _. exists es. split; [apply (sw_map _ _ Hwf)|]. by exists v.
  - rewrite Hfind. cbn [run_bind]. by eexists _, _.
Qed.

Lemma session_write_law s m slot name v :
  session_shows s m → session_slot s slot name → context_slot_valid s slot = true →
  ∃ s', context_write s slot v = Done s' ∧ session_shows s' (<[name := v]> m) ∧
    (∀ slot x, session_slot s slot x → session_slot s' slot x).
Proof.
  intros (w & Hw & Hm & Hdom & Hcap & Hbase) [Hlt Hslot] Hvalid. destruct s as [c next parent].
  cbn [own_context next_address] in *. simpl in Hvalid |- *. unfold cxpr_context_slot_set. rewrite Hvalid.
  unfold cxpr_context_slot_valid in Hvalid. destruct (slot_ptr slot) as [i|] eqn:Hptr; [|done].
  apply Z.eqb_eq in Hvalid. destruct (ok_num _ _ Hw) as (es & Hwf & Hes). rewrite Hm in Hes.
  destruct (Hslot i eq_refl Hvalid) as (es0 & Hes0 & Hholds). rewrite (wf_entries _ _ (sw_map _ _ Hwf)) in Hes0.
  injection Hes0 as <-. destruct (write_value_spec _ es i name v Hwf Hholds) as (vs & es' & Hwrite & Hwf' & Hes' & Hb & _ & Hkeep).
  rewrite Hwrite. cbn [run_bind]. eexists. split; [reflexivity|].
  assert (Hin : name ∈ dom m).
  { destruct Hholds as [x Hx]. apply elem_of_dom. exists x. rewrite <- Hes.
    apply table_map_lookup; [apply (sw_map _ _ Hwf)|eauto]. }
  split.
  - exists (mk_view (<[name := v]> m) (w_bool w) (w_int w) (w_str w) (w_arr w) (w_struct w) (w_cached w)). split_and!.
    + destruct Hw. split; auto. cbn [w_num set_variables variables own_context]. rewrite <- Hes. by exists es'.
    + done.
    + rewrite dom_insert_L. set_solver.
    + cbn [own_context set_variables variables]. rewrite (write_value_capacity _ _ _ _ Hwrite).
      rewrite map_size_insert_Some by (by apply elem_of_dom). done.
    + cbn [own_context next_address set_variables variables]. by rewrite Hb.
  - intros slot' x [Hlt' Hslot']. split; [done|]. intros j Hj Heq. cbn [own_context set_variables variables] in *.
    rewrite Hb in Heq. destruct (Hslot' j Hj Heq) as (es1 & Hes1 & [y Hy]).
    rewrite (wf_entries _ _ (sw_map _ _ Hwf)) in Hes1. injection Hes1 as <-.
    exists es'. split; [apply (sw_map _ _ Hwf')|]. by eapply Hkeep.
Qed.

Lemma session_clear_cached_law s m :
  session_shows s m → ∃ s', context_clear_cached s = Done s' ∧ session_shows s' m.
Proof.
  intros (w & Hw & Hm & Hdom & Hcap & Hbase). destruct s as [c next parent]. cbn [own_context next_address] in *. simpl.
  unfold cxpr_context_clear_cached_structs, cxpr_struct_map_clear.
  destruct (named_clear_spec _ _ (ok_cached _ _ Hw)) as (cs & -> & Hcs & _). cbn [run_bind].
  eexists. split; [reflexivity|].
  exists (mk_view (w_num w) (w_bool w) (w_int w) (w_str w) (w_arr w) (w_struct w) ∅).
  split; [|done]. destruct Hw. by split.
Qed.

#[export] Instance session_context_laws : EngineContextLaws session_context := {
  session_name name := name ∈ names;
  context_shows := session_shows;
  slot_names := session_slot;
  context_set_law := session_set_law;
  context_bind_law := session_bind_law;
  context_write_law := session_write_law;
  context_clear_cached_law := session_clear_cached_law
}.
End instance.

(** A new context, with its tables at two addresses. *)
Definition new_session_context : session_context := SessionContext (cxpr_context_new 1 2) 3 None.

Lemma new_context_shows names : session_shows names new_session_context ∅.
Proof.
  exists empty_view. split; [by apply context_new_ok|]. split; [done|]. split; [set_solver|]. split; [|done].
  rewrite map_size_empty. vm_compute. lia.
Qed.
