(* ===== verification/EngineScan.v ===== *)
(** * EngineScan: which sources and rules a program looks back at
    (the scan of [src/engine/lookback.c])

    The scan of the rules marks the sources they mention and records how far back
    each is read, which decides the size of its ring.  The theorem says that in a
    rule without array literals, without an index on a field of an expression and
    without a degenerate [repeat] no identifier under literal lookbacks is missed;
    two examples show that the scan does miss reads in the first two. *)

From Stdlib Require Import Ascii String ZArith Lia.
From stdpp Require Import base list strings.
From S2P Require Import Prelude Float64 Types Lexer Ast References Resample IR Context Engine.
Local Open Scope string_scope.
Local Open Scope run_scope.
Local Open Scope Z_scope.

(** ** The scan *)

(** The fields of an [engine_source] that the scan reads and writes. *)
Record scan_source : Type := mk_scan_source {
  ss_name : string;
  ss_referenced : bool;
  ss_hydrate_bare : bool;
  ss_max_lookback : Z
}.

Record scan_tracked : Type := mk_scan_tracked { sk_name : string; sk_max_depth : Z }.

Record scan_program : Type := mk_scan {
  sp_exprs : list string;
  sp_sources : list scan_source;
  sp_tracked : list scan_tracked;
  sp_external_params : list string
}.

Definition engine_is_expr_name (p : scan_program) (name : string) : bool :=
  existsb (λ e, (e =? name)%string) (sp_exprs p).

(** The first source of the name, when there is one, with the updates of a
    reference to it. *)
Fixpoint mark_first (bare : bool) (lookback : Z) (name : string) (sources : list scan_source) : option (list scan_source) :=
  match sources with
  | [] => None
  | s :: sources =>
      if (ss_name s =? name)%string then
        Some (mk_scan_source (ss_name s) true (bare || ss_hydrate_bare s)
                (if ss_max_lookback s <? lookback then lookback else ss_max_lookback s) :: sources)
      else match mark_first bare lookback name sources with
           | Some sources => Some (s :: sources)
           | None => None
           end
  end.

(** [None] when no source has the name. *)
Definition mark_source (bare : bool) (lookback : Z) (name : string) (p : scan_program) : option scan_program :=
  match mark_first bare lookback name (sp_sources p) with
  | Some sources => Some (mk_scan (sp_exprs p) sources (sp_tracked p) (sp_external_params p))
  | None => None
  end.

Fixpoint deepen (name : string) (depth : Z) (tracked : list scan_tracked) : list scan_tracked :=
  match tracked with
  | [] => [mk_scan_tracked name depth]
  | t :: tracked =>
      if (sk_name t =? name)%string
      then mk_scan_tracked (sk_name t) (if sk_max_depth t <? depth then depth else sk_max_depth t) :: tracked
      else t :: deepen name depth tracked
  end.

Definition engine_track_expr (name : string) (depth : Z) (p : scan_program) : scan_program :=
  mk_scan (sp_exprs p) (sp_sources p) (deepen name depth (sp_tracked p)) (sp_external_params p).

Definition track_if_expr (name : string) (depth : Z) (p : scan_program) : scan_program :=
  if engine_is_expr_name p name then engine_track_expr name depth p else p.

Definition engine_track_external_param (name : string) (p : scan_program) : scan_program :=
  if (name =? "")%string || existsb (λ e, (e =? name)%string) (sp_external_params p) then p
  else mk_scan (sp_exprs p) (sp_sources p) (sp_tracked p) (sp_external_params p ++ [name])%list.

(** [(size_t)d], undefined outside the range of [size_t]. *)
Definition to_size (d : float64) : run Z :=
  match to_Z d with
  | Some z => if (0 <=? z) && (z <=? SIZE_MAX) then Done z else Undef
  | None => Undef
  end.

Definition scan_identifier (name : string) (depth : Z) (p : scan_program) : scan_program :=
  match mark_source true depth name p with
  | Some p => p
  | None => if 0 <? depth then track_if_expr name depth p else p
  end.

(** The lookback of the target of an index, and the program behind it. *)
Definition scan_index (target index : cxpr_expr_ast) (inherited : Z) (p : scan_program) : run (Z * scan_program) :=
  match ast_node index with
  | CXPR_NODE_NUMBER nd =>
      if negb (fgeb nd fzero) then Done (inherited, p)
      else
        match ast_node target with
        | CXPR_NODE_IDENTIFIER name =>
            let* n := to_size nd in
            let lookback := wrap64 (inherited + n) in
            Done (lookback, match mark_source true lookback name p with
                            | Some p => p
                            | None => track_if_expr name lookback p
                            end)
        | CXPR_NODE_CHAIN_ACCESS (root :: _ :: _) _ =>
            if engine_is_expr_name p root then
              let* n := to_size nd in
              Done (wrap64 (inherited + n), engine_track_expr root (wrap64 (inherited + n)) p)
            else Done (inherited, p)
        | CXPR_NODE_FIELD_ACCESS _ object _ _ =>
            match object with
            | Some root =>
                if engine_is_expr_name p root then
                  let* n := to_size nd in
                  Done (wrap64 (inherited + n), engine_track_expr root (wrap64 (inherited + n)) p)
                else Done (inherited, p)
            | None => Done (inherited, p)
            end
        | _ => let* n := to_size nd in Done (wrap64 (inherited + n), p)
        end
  | _ => Done (inherited, p)
  end.

(** The arguments of [repeat] that are its condition and its number of samples,
    [false] for the first and [true] for the second. *)
Definition names_condition (name : option string) : bool :=
  match name with None => true | Some n => (n =? "condition")%string || (n =? "value")%string end.
Definition names_samples (second : bool) (name : option string) : bool :=
  match name with None => second | Some n => (n =? "bars")%string || (n =? "samples")%string end.
Definition repeat_condition (n0 n1 : option string) : option bool :=
  if names_condition n0 then Some false else if names_condition n1 then Some true else None.
Definition repeat_samples (n0 n1 : option string) : option bool :=
  if names_samples true n1 then Some true else if names_samples false n0 then Some false else None.

Definition repeat_depth (count : float64) (inherited : Z) : run Z :=
  if fgeb count fone && feqb (ffloor count) count && fleb (fsub count fone) (of_Z (SIZE_MAX - inherited))
  then let* n := to_size (fsub count fone) in Done (wrap64 (inherited + n))
  else Done inherited.

(** The condition, the samples and the depth of a [repeat] with a literal number
    of samples. *)
Definition literal_repeat (name : string) (args : list cxpr_expr_ast) (arg_names : option (list (option string)))
    : option (bool * bool * float64) :=
  if (name =? "repeat")%string then
    match args with
    | [x; y] =>
        let n0 := cxpr_expr_ast_call_arg_name arg_names 0 in
        let n1 := cxpr_expr_ast_call_arg_name arg_names 1 in
        match repeat_condition n0 n1, repeat_samples n0 n1 with
        | Some condition, Some samples =>
            match ast_node (if samples then y else x) with
            | CXPR_NODE_NUMBER count => Some (condition, samples, count)
            | _ => None
            end
        | _, _ => None
        end
    | _ => None
    end
  else None.

Section each.
  Context (scan : cxpr_expr_ast → scan_program → run scan_program).

Fixpoint scan_each (l : list cxpr_expr_ast) (p : scan_program) : run scan_program :=
  match l with
  | [] => Done p
  | a :: l => let* p := scan a p in scan_each l p
  end.
End each.

Fixpoint engine_scan_ast_with_offset (a : cxpr_expr_ast) (inherited : Z) (p : scan_program) {struct a} : run scan_program :=
  let each l := scan_each (λ a, engine_scan_ast_with_offset a inherited) l p in
  match ast_node a with
  | CXPR_NODE_IDENTIFIER name => Done (scan_identifier name inherited p)
  | CXPR_NODE_INDEX target index =>
      let* '(lookback, p) := scan_index target index inherited p in
      let* p := engine_scan_ast_with_offset target lookback p in
      engine_scan_ast_with_offset index inherited p
  | CXPR_NODE_BINARY_OP _ l r => each [l; r]
  | CXPR_NODE_UNARY_OP _ x => each [x]
  | CXPR_NODE_TERNARY c t f => each [c; t; f]
  | CXPR_NODE_FUNCTION_CALL name args names =>
      let p := match mark_source false inherited name p with Some p => p | None => p end in
      match literal_repeat name args names, args with
      | Some (condition, samples, count), [x; y] =>
          let* depth := repeat_depth count inherited in
          let* p := engine_scan_ast_with_offset (if condition then y else x) depth p in
          engine_scan_ast_with_offset (if samples then y else x) inherited p
      | _, _ => scan_each (λ a, engine_scan_ast_with_offset a inherited) args p
      end
  | CXPR_NODE_RECORD _ values => each values
  | CXPR_NODE_FIELD_ACCESS (Some base) _ _ _ => engine_scan_ast_with_offset base inherited p
  | CXPR_NODE_FIELD_ACCESS None (Some root) _ _ => Done (track_if_expr root inherited p)
  | CXPR_NODE_CHAIN_ACCESS (root :: _) _ => Done (track_if_expr root inherited p)
  | CXPR_NODE_PRODUCER_ACCESS _ args _ _ _ => each args
  | _ => Done p
  end.

Definition engine_scan_ast (a : cxpr_expr_ast) (p : scan_program) : run scan_program :=
  engine_scan_ast_with_offset a 0 p.

(** ** What the scan has to find *)

(** The tree reads the name, as an identifier anywhere in it, under literal
    lookbacks of [d] samples in all. *)
Inductive reads : cxpr_expr_ast → Z → string → Prop :=
  | reads_name span name : reads (Ast span (CXPR_NODE_IDENTIFIER name)) 0 name
  | reads_target span target index nd z d name :
      ast_node index = CXPR_NODE_NUMBER nd → fgeb nd fzero = true → to_Z nd = Some z →
      reads target d name → reads (Ast span (CXPR_NODE_INDEX target index)) (z + d) name
  | reads_child span data child d name :
      In child (children data) → reads child d name → reads (Ast span data) d name.

(** The scan does not look into arrays, forgets the lookback of a field of an
    expression, and takes the second argument of [repeat] for the condition and the
    number of samples when the first has another name. *)
Definition plain_data (data : ast_data cxpr_expr_ast) : Prop :=
  match data with
  | CXPR_NODE_ARRAY _ => False
  | CXPR_NODE_FUNCTION_CALL name args names =>
      match literal_repeat name args names with Some (c, s, _) => c ≠ s | None => True end
  | _ => True
  end.

Definition is_field_access (a : cxpr_expr_ast) : bool :=
  match ast_node a with CXPR_NODE_FIELD_ACCESS _ _ _ _ => true | _ => false end.
Definition field_of_expression (a : cxpr_expr_ast) : bool :=
  match ast_node a with CXPR_NODE_FIELD_ACCESS (Some _) _ _ _ => true | _ => false end.

Definition scannable_node (a : cxpr_expr_ast) : Prop :=
  plain_data (ast_node a) ∧
  match ast_node a with CXPR_NODE_INDEX target _ => field_of_expression target = false | _ => True end.

(** None of the three is anywhere in the tree. *)
Definition scannable (a : cxpr_expr_ast) : Prop := ast_all scannable_node a.

(** The reads the scan finds in any tree. *)
Inductive scanned : cxpr_expr_ast → Z → string → Prop :=
  | scanned_name span name : scanned (Ast span (CXPR_NODE_IDENTIFIER name)) 0 name
  | scanned_target span target index nd z d name :
      ast_node index = CXPR_NODE_NUMBER nd → fgeb nd fzero = true → to_Z nd = Some z → is_field_access target = false →
      scanned target d name → scanned (Ast span (CXPR_NODE_INDEX target index)) (z + d) name
  | scanned_child span data child d name :
      plain_data data → In child (children data) → scanned child d name → scanned (Ast span data) d name.

(** In a scannable tree these are all its reads. *)
Lemma scannable_reads a d name : scannable a → reads a d name → scanned a d name.
Proof.
  intros Hs Hr. induction Hr as [span name|span target index nd z d name Hnd Hge Hz Hr IH|span data child d name Hin Hr IH];
    apply ast_all_inv in Hs as [[Hfree Hfield] Hall]; cbn [ast_node children] in *; rewrite Forall_forall in Hall.
  - constructor.
  - assert (Htarget : scanned target d name) by (apply IH, Hall; by left).
    apply (scanned_target _ _ _ nd); try done. destruct target as [s data]. unfold is_field_access, field_of_expression in *.
    cbn [ast_node] in *. destruct data as [| | | | | | | |[base|] object field key| | | | | | |]; try done.
    inversion Htarget as [| |? ? child ? ? _ Hin]; subst. destruct Hin.
  - apply (scanned_child _ _ child); [done|done|]. apply IH, Hall. by rewrite list_elem_of_In.
Qed.

(** The number literals of the tree are finite, one can be taken off those of at
    least one, and their sum is at most [b]. *)
Definition number_weight (d : float64) : option Z :=
  match to_Z d, to_Z (fsub d fone) with
  | Some x, Some y => if fgeb d fone && (y <? 0) then None else Some (Z.max 0 (Z.max x y))
  | _, _ => None
  end.

Inductive fits : cxpr_expr_ast → Z → Prop :=
  | fits_number span d z b : number_weight d = Some z → z ≤ b → fits (Ast span (CXPR_NODE_NUMBER d)) b
  | fits_node span data bs b :
      (∀ d, data ≠ CXPR_NODE_NUMBER d) → Forall2 fits (children data) bs → Forall (λ x, 0 ≤ x) bs →
      foldr Z.add 0 bs ≤ b → fits (Ast span data) b.

Definition source_named (p : scan_program) (name : string) : option scan_source :=
  List.find (λ s, (ss_name s =? name)%string) (sp_sources p).
Definition tracked_named (p : scan_program) (name : string) : option scan_tracked :=
  List.find (λ t, (sk_name t =? name)%string) (sp_tracked p).

(** The source is read in every tick and remembered [d] samples back; the rule is
    remembered [d] ticks back. *)
Definition source_covered (p : scan_program) (name : string) (d : Z) : Prop :=
  ∃ s, source_named p name = Some s ∧ ss_referenced s = true ∧ ss_hydrate_bare s = true ∧ d ≤ ss_max_lookback s.
Definition rule_covered (p : scan_program) (name : string) (d : Z) : Prop :=
  ∃ t, tracked_named p name = Some t ∧ d ≤ sk_max_depth t.

(** A read of the name [d] samples back is covered in [p'], for the sources and
    rules of [p]. *)
Definition covers (p p' : scan_program) (name : string) (d : Z) : Prop :=
  (is_Some (source_named p name) → source_covered p' name d) ∧
  (source_named p name = None → engine_is_expr_name p name = true → 0 < d → rule_covered p' name d).

(** ** Growth of the program *)

Record grows (p p' : scan_program) : Prop := {
  grows_exprs : sp_exprs p' = sp_exprs p;
  grows_none name : source_named p name = None → source_named p' name = None;
  grows_some name : is_Some (source_named p name) → is_Some (source_named p' name);
  grows_source name d : source_covered p name d → source_covered p' name d;
  grows_rule name d : rule_covered p name d → rule_covered p' name d
}.

Lemma grows_refl p : grows p p.
Proof. by split. Qed.
Lemma grows_trans p1 p2 p3 : grows p1 p2 → grows p2 p3 → grows p1 p3.
Proof. intros [] []. split; [congruence|auto..]. Qed.

Lemma covers_later p p1 p2 name d : covers p p1 name d → grows p1 p2 → covers p p2 name d.
Proof. intros [Hs Hr] [_ _ _ Gs Gr]. split; auto. Qed.
Lemma covers_earlier p p1 p2 name d : grows p p1 → covers p1 p2 name d → covers p p2 name d.
Proof.
  intros [Ge Gn Gs _ _] [Hs Hr]. split; [auto|]. intros Hn He. apply Hr; [auto|]. unfold engine_is_expr_name in *. by rewrite Ge.
Qed.
Lemma covers_le p p' name d d' : covers p p' name d → d' ≤ d → covers p p' name d'.
Proof.
  intros [Hs Hr] Hle. split.
  - intros H. destruct (Hs H) as (s & Hf & H1 & H2 & H3). exists s. split_and!; try done. lia.
  - intros Hn He Hd. destruct Hr as (t & Ht & Hm); [done|done|lia|]. exists t. split; [done|lia].
Qed.

Lemma mark_first_find bare lookback name l l' :
  mark_first bare lookback name l = Some l' →
  ∀ n, List.find (λ s, (ss_name s =? n)%string) l' =
    if decide (n = name) then
      (λ s, mk_scan_source (ss_name s) true (bare || ss_hydrate_bare s)
              (if ss_max_lookback s <? lookback then lookback else ss_max_lookback s)) <$>
        List.find (λ s, (ss_name s =? n)%string) l
    else List.find (λ s, (ss_name s =? n)%string) l.
Proof.
  revert l'. induction l as [|s l IH]; intros l' Hm n; cbn [mark_first] in Hm; [done|].
  destruct (String.eqb_spec (ss_name s) name) as [Heq|Hne].
  - injection Hm as <-. cbn [List.find ss_name]. rewrite Heq. case_decide as Hn.
    + subst n. rewrite String.eqb_refl. simpl. by rewrite Heq.
    + destruct (String.eqb_spec name n); [by subst|done].
  - destruct (mark_first bare lookback name l) as [l1|]; [|done]. injection Hm as <-. cbn [List.find].
    rewrite (IH l1 eq_refl n). destruct (String.eqb_spec (ss_name s) n) as [Heq'|]; [|done].
    case_decide; [by subst|done].
Qed.

Lemma mark_first_none bare lookback name l :
  mark_first bare lookback name l = None ↔ List.find (λ s, (ss_name s =? name)%string) l = None.
Proof.
  induction l as [|s l IH]; cbn [mark_first List.find]; [done|]. destruct (String.eqb_spec (ss_name s) name); [done|].
  rewrite <- IH. by destruct (mark_first bare lookback name l).
Qed.

Lemma mark_source_spec bare lookback name p :
  match mark_source bare lookback name p with
  | None => source_named p name = None
  | Some p' => grows p p' ∧ is_Some (source_named p name) ∧ (bare = true → source_covered p' name lookback)
  end.
Proof.
  unfold mark_source. destruct (mark_first bare lookback name (sp_sources p)) as [l|] eqn:E.
  2: by apply (mark_first_none bare lookback).
  pose proof (mark_first_find _ _ _ _ _ E) as Hfind.
  set (p' := mk_scan _ l _ _).
  assert (Hnamed : ∀ n, source_named p' n =
    if decide (n = name) then (λ s, mk_scan_source (ss_name s) true (bare || ss_hydrate_bare s)
      (if ss_max_lookback s <? lookback then lookback else ss_max_lookback s)) <$> source_named p n
    else source_named p n) by (intros n; apply Hfind).
  assert (Hsome : is_Some (source_named p name)).
  { destruct (source_named p name) eqn:En; [eauto|]. apply (mark_first_none bare lookback) in En. congruence. }
  split; [split|split; [done|]].
  - done.
  - intros n Hn. rewrite Hnamed, Hn. by case_decide.
  - intros n Hn. rewrite Hnamed. case_decide; [by apply fmap_is_Some|done].
  - intros n d (s & Hs & Hr & Hh & Hd). unfold source_covered. rewrite Hnamed. case_decide; [|eauto 10].
    rewrite Hs. eexists. split; [reflexivity|]. cbn. rewrite Hh, orb_true_r. split; [done|]. split; [done|].
    destruct (Z.ltb_spec (ss_max_lookback s) lookback); lia.
  - intros n d Hr. exact Hr.
  - intros ->. destruct Hsome as [s Hs]. unfold source_covered. rewrite Hnamed, decide_True, Hs by done.
    eexists. split; [reflexivity|]. cbn. split; [done|]. split; [done|]. destruct (Z.ltb_spec (ss_max_lookback s) lookback); lia.
Qed.

Lemma deepen_find name depth l n :
  List.find (λ t, (sk_name t =? n)%string) (deepen name depth l) =
  if decide (n = name) then
    Some (mk_scan_tracked name (match List.find (λ t, (sk_name t =? n)%string) l with
                                | Some t => if sk_max_depth t <? depth then depth else sk_max_depth t
                                | None => depth
                                end))
  else List.find (λ t, (sk_name t =? n)%string) l.
Proof.
  induction l as [|t l IH]; cbn [deepen List.find].
  - cbn [sk_name]. case_decide as Hn; [subst; by rewrite String.eqb_refl|]. destruct (String.eqb_spec name n); [by subst|done].
  - destruct (String.eqb_spec (sk_name t) name) as [Heq|Hne]; cbn [List.find sk_name].
    + rewrite Heq. case_decide as Hn; [subst; by rewrite String.eqb_refl|]. destruct (String.eqb_spec name n); [by subst|done].
    + destruct (String.eqb_spec (sk_name t) n) as [Heq'|]; [|apply IH]. case_decide; [by subst|done].
Qed.

Lemma track_expr_spec name depth p : grows p (engine_track_expr name depth p) ∧ rule_covered (engine_track_expr name depth p) name depth.
Proof.
  assert (Hnamed : ∀ n, tracked_named (engine_track_expr name depth p) n = _) by (intros n; apply deepen_find).
  split; [split|].
  - done.
  - done.
  - done.
  - done.
  - intros n d (t & Ht & Hd). unfold rule_covered. rewrite Hnamed. unfold tracked_named in Ht. rewrite Ht.
    case_decide; [|eauto]. eexists. split; [reflexivity|]. cbn. destruct (Z.ltb_spec (sk_max_depth t) depth); lia.
  - unfold rule_covered. rewrite Hnamed, decide_True by done. eexists. split; [reflexivity|]. cbn.
    destruct (List.find _ _) as [t|]; [destruct (Z.ltb_spec (sk_max_depth t) depth)|]; lia.
Qed.

Lemma track_if_grows name depth p : grows p (track_if_expr name depth p).
Proof. unfold track_if_expr. destruct (engine_is_expr_name p name); [apply track_expr_spec|apply grows_refl]. Qed.

(** A name that is marked as a source, or tracked as a rule. *)
Lemma mark_or_track name depth p :
  let p' := match mark_source true depth name p with Some p => p | None => track_if_expr name depth p end in
  grows p p' ∧ covers p p' name depth.
Proof.
  pose proof (mark_source_spec true depth name p) as H. destruct (mark_source true depth name p) as [p'|]; simpl.
  - destruct H as (Hg & Hs & Hc). split; [done|]. split; [auto|]. intros Hn. rewrite Hn in Hs. by destruct Hs.
  - split; [apply track_if_grows|]. split; [intros Hs; rewrite H in Hs; by destruct Hs|].
    intros _ He _. unfold track_if_expr. rewrite He. apply track_expr_spec.
Qed.

Lemma scan_identifier_spec name depth p :
  grows p (scan_identifier name depth p) ∧ covers p (scan_identifier name depth p) name depth.
Proof.
  pose proof (mark_or_track name depth p) as H. unfold scan_identifier.
  destruct (mark_source true depth name p) as [p'|] eqn:E; [exact H|]. destruct (Z.ltb_spec 0 depth); [exact H|].
  split; [apply grows_refl|]. destruct H as [_ [Hs Hr]]. pose proof (mark_source_spec true depth name p) as Hm. rewrite E in Hm.
  split; [intros Hsome; rewrite Hm in Hsome; by destruct Hsome|]. intros. lia.
Qed.

Lemma to_Z_nonneg d n : fgeb d fzero = true → to_Z d = Some n → 0 ≤ n.
Proof.
  destruct d as [s| | |s m e]; try done; cbn [to_Z].
  - intros _ [= <-]. lia.
  - destruct s; [done|]. intros _ [= <-]. destruct (Z.leb_spec 0 e).
    + apply Z.mul_nonneg_nonneg; [lia|]. apply Z.pow_nonneg. lia.
    + apply Z.quot_pos; [lia|]. apply Z.pow_pos_nonneg; lia.
Qed.

Lemma to_size_done d z :
  number_weight d = Some z → fgeb d fzero = true → z ≤ SIZE_MAX →
  ∃ n, to_Z d = Some n ∧ to_size d = Done n ∧ 0 ≤ n ≤ z.
Proof.
  unfold number_weight, to_size. destruct (to_Z d) as [n|] eqn:En; [|done]. destruct (to_Z (fsub d fone)) as [y|]; [|done].
  destruct (fgeb d fone && (y <? 0)); [done|]. intros [= <-] Hge Hmax. pose proof (to_Z_nonneg d n Hge En) as Hn.
  exists n. destruct (Z.leb_spec 0 n); [|lia]. destruct (Z.leb_spec n SIZE_MAX); [|lia]. split; [done|]. split; [done|]. lia.
Qed.

Lemma repeat_depth_done count z inherited :
  number_weight count = Some z → 0 ≤ inherited → inherited + z ≤ SIZE_MAX →
  ∃ depth, repeat_depth count inherited = Done depth ∧ inherited ≤ depth ≤ inherited + z.
Proof.
  unfold number_weight, repeat_depth, to_size. destruct (to_Z count) as [n|]; [|done].
  destruct (to_Z (fsub count fone)) as [y|]; [|done]. intros Hz H0 Hmax. destruct (fgeb count fone); cbn [andb] in Hz |- *.
  - destruct (Z.ltb_spec y 0); [done|]. injection Hz as <-.
    destruct (feqb (ffloor count) count && fleb (fsub count fone) (of_Z (SIZE_MAX - inherited))); cbn [andb]; [|exists inherited; split; [done|lia]].
    destruct (Z.leb_spec 0 y); [|lia]. destruct (Z.leb_spec y SIZE_MAX); [|lia]. cbn [andb run_bind].
    eexists. split; [reflexivity|]. unfold wrap64, SIZE_MAX in *. rewrite Z.mod_small; lia.
  - exists inherited. injection Hz as <-. split; [done|lia].
Qed.

(** The target of an index is scanned further back by the literal, and by
    nothing when it is a path into something that is not a rule. *)
Definition is_path (a : cxpr_expr_ast) : bool :=
  match ast_node a with CXPR_NODE_FIELD_ACCESS _ _ _ _ | CXPR_NODE_CHAIN_ACCESS _ _ => true | _ => false end.

Definition index_scanned (target index : cxpr_expr_ast) (bi inherited : Z) (p : scan_program)
    (r : run (Z * scan_program)) : Prop :=
  ∃ lookback p', r = Done (lookback, p') ∧ grows p p' ∧ inherited ≤ lookback ≤ inherited + bi ∧
    ∀ nd z, ast_node index = CXPR_NODE_NUMBER nd → fgeb nd fzero = true → to_Z nd = Some z →
      is_path target = false → lookback = inherited + z.

Lemma scan_index_spec target index bi inherited p :
  fits index bi → 0 ≤ bi → 0 ≤ inherited → inherited + bi ≤ SIZE_MAX →
  index_scanned target index bi inherited p (scan_index target index inherited p).
Proof.
  intros Hfits Hbi H0 Hmax.
  assert (Hskip : (∀ nd, ast_node index = CXPR_NODE_NUMBER nd → fgeb nd fzero = true → is_path target = true) →
    index_scanned target index bi inherited p (Done (inherited, p))).
  { intros Hno. exists inherited, p. split; [done|]. split; [apply grows_refl|]. split; [lia|].
    intros nd z Hnd Hge _ Hp. by rewrite (Hno nd Hnd Hge) in Hp. }
  unfold scan_index. destruct (ast_node index) eqn:Eindex; try (apply Hskip; intros; congruence).
  destruct (fgeb value fzero) eqn:Ege; cbn [negb]; [|apply Hskip; intros; congruence].
  assert (Hw : ∃ z, number_weight value = Some z ∧ z ≤ bi).
  { inversion Hfits as [span d z b Hw Hz|span data bs b Hne]; subst; simpl in Eindex; [|by destruct (Hne value)].
    injection Eindex as ->. eauto. }
  destruct Hw as (z & Hw & Hz). destruct (to_size_done value z Hw Ege ltac:(lia)) as (n & Hn & Hsize & Hle).
  assert (Hwrap : wrap64 (inherited + n) = inherited + n) by (unfold wrap64, SIZE_MAX in *; apply Z.mod_small; lia).
  assert (Hstay : ∀ p', grows p p' → index_scanned target index bi inherited p (Done (inherited + n, p'))).
  { intros p' Hg. exists (inherited + n), p'. split; [done|]. split; [done|]. split; [lia|].
    rewrite Eindex. intros nd z' [= <-] _ Hz' _. congruence. }
  rewrite Hsize. cbn [run_bind]. rewrite Hwrap.
  destruct (ast_node target) as [| | | | | |name| |base object field key|path key| | | | | |] eqn:Et;
    try (apply Hstay, grows_refl).
  - apply Hstay, mark_or_track.
  - assert (Hpath : is_path target = true) by (unfold is_path; by rewrite Et).
    destruct object as [root|]; [|by apply Hskip].
    destruct (engine_is_expr_name p root); [apply Hstay, track_expr_spec|by apply Hskip].
  - assert (Hpath : is_path target = true) by (unfold is_path; by rewrite Et).
    destruct path as [|root [|segment path]]; [apply Hstay, grows_refl..|].
    destruct (engine_is_expr_name p root); [apply Hstay, track_expr_spec|by apply Hskip].
Qed.

(** ** No read is missed *)

(** The scan of a tree that fits: it returns, and every read is covered. *)
Definition scans (a : cxpr_expr_ast) : Prop :=
  ∀ b depth p, fits a b → 0 ≤ depth → depth + b ≤ SIZE_MAX →
    ∃ p', engine_scan_ast_with_offset a depth p = Done p' ∧ grows p p' ∧
      ∀ d name, scanned a d name → covers p p' name (depth + d).

Lemma sum_nonneg bs : Forall (λ x, 0 ≤ x) bs → 0 ≤ foldr Z.add 0 bs.
Proof. induction 1; simpl; lia. Qed.

Lemma scan_each_spec l bs depth p :
  Forall scans l → Forall2 fits l bs → Forall (λ x, 0 ≤ x) bs → 0 ≤ depth → depth + foldr Z.add 0 bs ≤ SIZE_MAX →
  ∃ p', scan_each (λ a, engine_scan_ast_with_offset a depth) l p = Done p' ∧ grows p p' ∧
    ∀ child d name, In child l → scanned child d name → covers p p' name (depth + d).
Proof.
  intros Hscans Hfits Hbs H0. revert p. induction Hfits as [|a b l bs Ha Hl IH]; intros p Hsum; cbn [scan_each].
  { exists p. split; [done|]. split; [apply grows_refl|]. intros child d name []. }
  apply Forall_cons in Hscans as [Hsa Hsl]. apply Forall_cons in Hbs as [Hb Hbs]. pose proof (sum_nonneg bs Hbs) as Hs. simpl in Hsum.
  destruct (Hsa b depth p Ha H0) as (p1 & -> & Hg1 & Hc1); [lia|]. cbn [run_bind].
  destruct (IH Hsl Hbs p1) as (p' & -> & Hg & Hc); [lia|]. exists p'. split; [done|]. split; [by apply (grows_trans _ p1)|].
  intros child d name [<-|Hin] Hr.
  - by apply (covers_later _ p1); [apply Hc1|].
  - apply (covers_earlier _ p1); [done|]. by apply (Hc child).
Qed.

(** What is left of a read of a node that is neither a name nor an index. *)
Lemma scanned_inv span data d name :
  (∀ n, data ≠ CXPR_NODE_IDENTIFIER n) → (∀ t i, data ≠ CXPR_NODE_INDEX t i) →
  scanned (Ast span data) d name → plain_data data ∧ ∃ child, In child (children data) ∧ scanned child d name.
Proof.
  intros Hn Hi Hr. inversion Hr as [s n|s t i nd z d' n|s data' child d' n Hseen Hin Hc]; subst;
    [by destruct (Hn name)|by destruct (Hi t i)|eauto].
Qed.

Lemma fits_children span data b :
  (∀ d, data ≠ CXPR_NODE_NUMBER d) → fits (Ast span data) b →
  ∃ bs, Forall2 fits (children data) bs ∧ Forall (λ x, 0 ≤ x) bs ∧ foldr Z.add 0 bs ≤ b.
Proof. intros Hne Hf. inversion Hf; subst; [by destruct (Hne d)|eauto]. Qed.

(** A node whose children are scanned one by one at its own depth. *)
Lemma scan_children span data b depth p :
  Forall scans (children data) → (∀ d, data ≠ CXPR_NODE_NUMBER d) → (∀ n, data ≠ CXPR_NODE_IDENTIFIER n) →
  (∀ t i, data ≠ CXPR_NODE_INDEX t i) → fits (Ast span data) b → 0 ≤ depth → depth + b ≤ SIZE_MAX →
  ∃ p', scan_each (λ a, engine_scan_ast_with_offset a depth) (children data) p = Done p' ∧ grows p p' ∧
    ∀ d name, scanned (Ast span data) d name → covers p p' name (depth + d).
Proof.
  intros IH Hnum Hname Hindex Hfits H0 Hmax. destruct (fits_children _ _ _ Hnum Hfits) as (bs & Hbs & Hpos & Hsum).
  destruct (scan_each_spec (children data) bs depth p IH Hbs Hpos H0) as (p' & -> & Hg & Hc); [lia|].
  exists p'. split; [done|]. split; [done|]. intros d name Hr.
  apply scanned_inv in Hr as (_ & child & Hin & Hr); [|done|done]. by apply (Hc child).
Qed.

Lemma not_scanned span data d name :
  children data = [] → (∀ n, data ≠ CXPR_NODE_IDENTIFIER n) → (∀ t i, data ≠ CXPR_NODE_INDEX t i) → ¬ scanned (Ast span data) d name.
Proof. intros Hc Hn Hi Hr. apply scanned_inv in Hr as (_ & child & Hin & _); [|done|done]. rewrite Hc in Hin. destruct Hin. Qed.

Lemma scan_index_node span target index :
  Forall scans [target; index] → scans (Ast span (CXPR_NODE_INDEX target index)).
Proof.
  intros IH b depth p Hfits H0 Hmax. apply Forall_cons in IH as [Ht IH]. apply Forall_cons in IH as [Hi _].
  destruct (fits_children span (CXPR_NODE_INDEX target index) b ltac:(done) Hfits) as (bs & Hbs & Hpos & Hsum). cbn [children] in Hbs.
  apply Forall2_cons_inv_l in Hbs as (bt & bs1 & Hft & Hbs & ->). apply Forall2_cons_inv_l in Hbs as (bi & bs2 & Hfi & Hbs & ->).
  apply Forall2_nil_inv_l in Hbs as ->. apply Forall_cons in Hpos as [Hbt Hpos]. apply Forall_cons in Hpos as [Hbi _]. simpl in Hsum.
  destruct (scan_index_spec target index bi depth p Hfi Hbi H0 ltac:(lia)) as (lookback & p1 & Hscan & Hg1 & Hrange & Hexact).
  cbn [engine_scan_ast_with_offset ast_node]. rewrite Hscan. cbn [run_bind].
  destruct (Ht bt lookback p1 Hft) as (p2 & -> & Hg2 & Hc2); [lia|lia|]. cbn [run_bind].
  destruct (Hi bi depth p2 Hfi) as (p3 & -> & Hg3 & Hc3); [lia|lia|].
  assert (Hg13 : grows p p2) by (by apply (grows_trans _ p1)).
  exists p3. split; [done|]. split; [by apply (grows_trans _ p2)|]. intros d name Hr.
  assert (Htarget : ∀ d', scanned target d' name → covers p p3 name (lookback + d')).
  { intros d' Hr'. apply (covers_later _ p2); [|done]. apply (covers_earlier _ p1); auto. }
  inversion Hr as [|? ? ? nd z d' ? Hnd Hge Hz Hf Hr'|? ? child ? ? _ Hin Hr']; subst.
  - destruct (is_path target) eqn:Epath.
    + destruct target as [s data]. unfold is_path, is_field_access in *. cbn [ast_node] in *.
      destruct data; try done. by apply not_scanned in Hr'.
    + specialize (Htarget d' Hr'). rewrite (Hexact nd z Hnd Hge Hz eq_refl) in Htarget. by rewrite Z.add_assoc.
  - destruct Hin as [<-|[<-|[]]].
    + apply (covers_le _ _ _ (lookback + d)); [auto|lia].
    + apply (covers_earlier _ p2); auto.
Qed.

Lemma literal_repeat_args name args names c s count :
  literal_repeat name args names = Some (c, s, count) →
  ∃ x y : cxpr_expr_ast, args = [x; y] ∧ ast_node (if s then y else x) = CXPR_NODE_NUMBER count.
Proof.
  unfold literal_repeat. intros Hrep. repeat case_match; simplify_eq; eauto.
Qed.

Lemma scan_number a d depth p : ast_node a = CXPR_NODE_NUMBER d → engine_scan_ast_with_offset a depth p = Done p.
Proof. destruct a as [s data]. simpl. by intros ->. Qed.

Lemma number_budget a d b : fits a b → ast_node a = CXPR_NODE_NUMBER d → ∃ z, number_weight d = Some z ∧ z ≤ b.
Proof.
  intros Hf Hn. inversion Hf as [s d' z b' Hw Hz|s data bs b' Hne]; subst; simpl in Hn; [|by destruct (Hne d)].
  injection Hn as ->. eauto.
Qed.

Lemma scan_repeat span name (x y : cxpr_expr_ast) names c s count b depth p :
  scans x → scans y → literal_repeat name [x; y] names = Some (c, s, count) →
  fits (Ast span (CXPR_NODE_FUNCTION_CALL name [x; y] names)) b → 0 ≤ depth → depth + b ≤ SIZE_MAX →
  ∃ p', (let* k := repeat_depth count depth in
         let* p := engine_scan_ast_with_offset (if c then y else x) k p in
         engine_scan_ast_with_offset (if s then y else x) depth p) = Done p' ∧ grows p p' ∧
    (c ≠ s → ∀ child d name, In child [x; y] → scanned child d name → covers p p' name (depth + d)).
Proof.
  intros Hx Hy Hrep Hfits H0 Hmax.
  destruct (literal_repeat_args _ _ _ _ _ _ Hrep) as (x' & y' & Heq & Hcount). injection Heq as <- <-.
  destruct (fits_children span (CXPR_NODE_FUNCTION_CALL name [x; y] names) b ltac:(done) Hfits) as (bs & Hbs & Hpos & Hsum). cbn [children] in Hbs.
  apply Forall2_cons_inv_l in Hbs as (bx & bs1 & Hfx & Hbs & ->). apply Forall2_cons_inv_l in Hbs as (by' & bs2 & Hfy & Hbs & ->).
  apply Forall2_nil_inv_l in Hbs as ->. apply Forall_cons in Hpos as [Hbx Hpos]. apply Forall_cons in Hpos as [Hby _]. simpl in Hsum.
  set (bs' := if s then by' else bx). set (bc := if c then by' else bx).
  assert (Hfs : fits (if s then y else x) bs') by (by destruct s).
  assert (Hfc : fits (if c then y else x) bc) by (by destruct c).
  assert (Hss : scans (if s then y else x)) by (by destruct s).
  assert (Hsc : scans (if c then y else x)) by (by destruct c).
  destruct (number_budget _ _ _ Hfs Hcount) as (z & Hw & Hz).
  assert (Hbound : bs' ≤ b) by (subst bs'; destruct s; lia).
  destruct (repeat_depth_done count z depth Hw H0 ltac:(lia)) as (k & -> & Hk). cbn [run_bind].
  destruct (decide (c = s)) as [->|Hne].
  - rewrite (scan_number _ _ k p Hcount). cbn [run_bind]. rewrite (scan_number _ _ depth p Hcount).
    exists p. split; [done|]. split; [apply grows_refl|done].
  - assert (Hsplit : bs' + bc = bx + by') by (subst bs' bc; destruct c, s; done || lia).
    destruct (Hsc bc k p Hfc) as (p1 & -> & Hg1 & Hc1); [lia|lia|]. cbn [run_bind].
    destruct (Hss bs' depth p1 Hfs) as (p2 & -> & Hg2 & Hc2); [lia|lia|].
    exists p2. split; [done|]. split; [by apply (grows_trans _ p1)|]. intros _ child d n Hin Hr.
    assert (Hor : child = (if c then y else x) ∨ child = (if s then y else x)) by (destruct Hin as [<-|[<-|[]]], c, s; auto; done).
    destruct Hor as [->| ->].
    + apply (covers_le _ _ _ (k + d)); [|lia]. apply (covers_later _ p1); auto.
    + apply (covers_earlier _ p1); auto.
Qed.

Lemma scan_call_node span name args names :
  Forall scans args → scans (Ast span (CXPR_NODE_FUNCTION_CALL name args names)).
Proof.
  intros IH b depth p Hfits H0 Hmax. cbn [engine_scan_ast_with_offset ast_node].
  set (p0 := match mark_source false depth name p with Some p => p | None => p end).
  assert (Hg0 : grows p p0).
  { pose proof (mark_source_spec false depth name p) as H. subst p0. destruct (mark_source false depth name p); [apply H|apply grows_refl]. }
  assert (Hplain : ∃ p', scan_each (λ a, engine_scan_ast_with_offset a depth) args p0 = Done p' ∧ grows p p' ∧
    ∀ d n, scanned (Ast span (CXPR_NODE_FUNCTION_CALL name args names)) d n → covers p p' n (depth + d)).
  { destruct (scan_children span (CXPR_NODE_FUNCTION_CALL name args names) b depth p0) as (p' & Hp' & Hg & Hc); try done.
    exists p'. split; [exact Hp'|]. split; [by apply (grows_trans _ p0)|]. intros d n Hr. apply (covers_earlier _ p0); auto. }
  destruct (literal_repeat name args names) as [[[c s] count]|] eqn:Erep; [|exact Hplain].
  destruct (literal_repeat_args _ _ _ _ _ _ Erep) as (x & y & -> & _).
  apply Forall_cons in IH as [Hx IH]. apply Forall_cons in IH as [Hy _].
  destruct (scan_repeat span name x y names c s count b depth p0 Hx Hy Erep Hfits H0 Hmax) as (p' & -> & Hg & Hc).
  exists p'. split; [done|]. split; [by apply (grows_trans _ p0)|]. intros d n Hr.
  apply scanned_inv in Hr as (Hseen & child & Hin & Hr); [|done|done]. cbn [plain_data] in Hseen. rewrite Erep in Hseen.
  apply (covers_earlier _ p0); [done|]. by apply (Hc Hseen child).
Qed.

Lemma scan_tree a : scans a.
Proof.
  induction a as [span data IH] using ast_ind.
  assert (Hleaf : children data = [] → (∀ n, data ≠ CXPR_NODE_IDENTIFIER n) → (∀ t i, data ≠ CXPR_NODE_INDEX t i) →
    ∀ p p', grows p p' → ∃ p'', Done p' = Done p'' ∧ grows p p'' ∧
      ∀ depth d name, scanned (Ast span data) d name → covers p p'' name (depth + d)).
  { intros Hc Hn Hi p p' Hg. exists p'. split; [done|]. split; [done|]. intros depth d name Hr. by apply not_scanned in Hr. }
  destruct data as [| | | | | |name| |base object field key|path key| | | | | |]; intros b depth p Hfits H0 Hmax.
  all: try (by destruct (Hleaf eq_refl ltac:(done) ltac:(done) p p (grows_refl p)) as (p' & [= <-] & Hg & Hc); eauto).
  - exists p. split; [done|]. split; [apply grows_refl|]. intros d n Hr. apply scanned_inv in Hr as ([] & _); done.
  - by refine (scan_children span _ b depth p IH _ _ _ Hfits H0 Hmax).
  - exists (scan_identifier name depth p). split; [done|]. destruct (scan_identifier_spec name depth p) as [Hg Hc].
    split; [done|]. intros d n Hr. inversion Hr as [|?|? ? child ? ? _ Hin]; subst; [by rewrite Z.add_0_r|destruct Hin].
  - destruct base as [base|].
    + cbn [engine_scan_ast_with_offset ast_node].
      destruct (scan_children span (CXPR_NODE_FIELD_ACCESS (Some base) object field key) b depth p) as (p' & Hp' & Hr); try done.
      exists p'. split; [|done]. cbn [children scan_each] in Hp'. by destruct (engine_scan_ast_with_offset base depth p).
    + destruct object as [root|]; cbn [engine_scan_ast_with_offset ast_node].
      * destruct (Hleaf eq_refl ltac:(done) ltac:(done) p _ (track_if_grows root depth p)) as (p' & [= <-] & Hg & Hc). eauto.
      * destruct (Hleaf eq_refl ltac:(done) ltac:(done) p p (grows_refl p)) as (p' & [= <-] & Hg & Hc). eauto.
  - destruct path as [|root path]; cbn [engine_scan_ast_with_offset ast_node].
    + destruct (Hleaf eq_refl ltac:(done) ltac:(done) p p (grows_refl p)) as (p' & [= <-] & Hg & Hc). eauto.
    + destruct (Hleaf eq_refl ltac:(done) ltac:(done) p _ (track_if_grows root depth p)) as (p' & [= <-] & Hg & Hc). eauto.
  - by refine (scan_children span _ b depth p IH _ _ _ Hfits H0 Hmax).
  - by refine (scan_children span _ b depth p IH _ _ _ Hfits H0 Hmax).
  - by refine (scan_children span _ b depth p IH _ _ _ Hfits H0 Hmax).
  - by apply (scan_call_node span name args arg_names IH b).
  - by apply (scan_index_node span target index IH b).
  - by refine (scan_children span _ b depth p IH _ _ _ Hfits H0 Hmax).
Qed.

(** C22: The scan of a rule whose number literals are finite and small in sum
    always returns.  In a rule without array literals, without an index on a field
    of an expression and without a [repeat] whose condition is its number of
    samples -- the scan misses reads in these, see [array_elements_not_scanned] and
    [field_of_record_not_remembered] -- it misses no identifier: a source that the
    rule reads by name under literal lookbacks of [d] samples in all is read in
    every tick and remembered at least [d] samples back, and a rule that is looked
    back at by [d] is tracked at least that deep.  The sources and depths found
    before are kept.  What window functions read of the past by themselves is not
    counted. *)
Theorem scan_covers_reads (a : cxpr_expr_ast) (b : Z) (p : scan_program) (Hfits : fits a b) (Hmax : b ≤ SIZE_MAX)
    (Hscan : scannable a) :
  ∃ p', engine_scan_ast a p = Done p' ∧ grows p p' ∧ ∀ d name, reads a d name → covers p p' name d.
Proof.
  destruct (scan_tree a b 0 p Hfits) as (p' & Hrun & Hg & Hc); [lia|lia|]. exists p'. split; [done|]. split; [done|].
  intros d name Hr. apply (Hc d name), scannable_reads; done.
Qed.

(** ** Concrete rules *)

Definition number_node (n : Z) : cxpr_expr_ast := new_node (CXPR_NODE_NUMBER (of_Z n)).
Definition name_node (name : string) : cxpr_expr_ast := new_node (CXPR_NODE_IDENTIFIER name).
Definition index_node (a : cxpr_expr_ast) (n : Z) : cxpr_expr_ast := new_node (CXPR_NODE_INDEX a (number_node n)).
Definition sum_node (a b : cxpr_expr_ast) : cxpr_expr_ast := new_node (CXPR_NODE_BINARY_OP CXPR_TOK_PLUS a b).

(** A program with one source [px] and one rule [up]. *)
Definition px_program : scan_program := mk_scan ["up"] [mk_scan_source "px" false false 0] [] [].
(** [(px[1] + up)[2]] *)
Definition nested_rule : cxpr_expr_ast := index_node (sum_node (index_node (name_node "px") 1) (name_node "up")) 2.

Lemma nested_fits : fits nested_rule 3.
Proof.
  assert (Hnum : ∀ n, 0 <= n < 4 → fits (number_node n) n).
  { intros n Hn. assert (Hcase : n = 0 ∨ n = 1 ∨ n = 2 ∨ n = 3) by lia.
    apply (fits_number _ _ n); [by destruct_or! Hcase; subst; vm_compute|done]. }
  assert (Hname : ∀ name, fits (name_node name) 0) by (intros name; apply (fits_node _ _ []); [done|constructor|constructor|done]).
  apply (fits_node _ _ [1; 2]); [done| |repeat constructor; lia|done].
  constructor; [|constructor; [apply Hnum; lia|constructor]].
  apply (fits_node _ _ [1; 0]); [done| |repeat constructor; lia|done].
  constructor; [|constructor; [apply Hname|constructor]].
  apply (fits_node _ _ [0; 1]); [done| |repeat constructor; lia|done].
  constructor; [apply Hname|constructor; [apply Hnum; lia|constructor]].
Qed.

Lemma nested_reads : reads nested_rule 3 "px" ∧ reads nested_rule 2 "up".
Proof.
  split.
  - apply (reads_target _ _ _ (of_Z 2) 2 1); [reflexivity..|].
    apply (reads_child _ _ (index_node (name_node "px") 1)); [by left|].
    apply (reads_target _ _ _ (of_Z 1) 1 0); [reflexivity..|]. apply reads_name.
  - apply (reads_target _ _ _ (of_Z 2) 2 0); [reflexivity..|].
    apply (reads_child _ _ (name_node "up")); [by right; left|]. apply reads_name.
Qed.

Lemma nested_scannable : scannable nested_rule.
Proof. repeat (constructor; simpl; try done). Qed.

Lemma scan_covers_reads_witness :
  ∃ p', engine_scan_ast nested_rule px_program = Done p' ∧ source_covered p' "px" 3 ∧ rule_covered p' "up" 2.
Proof.
  destruct (scan_covers_reads nested_rule 3 px_program nested_fits) as (p' & Hrun & _ & Hc); [done|apply nested_scannable|].
  exists p'. split; [done|]. split.
  - apply (Hc 3 "px"); [apply nested_reads|]. by eexists.
  - apply (Hc 2 "up"); [apply nested_reads|done|done|lia].
Defined.

(** A source that is named in an array only is not read: a tick does not set it,
    and the rule fails with an unknown identifier. *)
Example array_elements_not_scanned :
  engine_scan_ast (new_node (CXPR_NODE_ARRAY [name_node "px"])) px_program = Done px_program.
Proof. reflexivity. Qed.

(** [({v: px}).v[2]]: the record is evaluated with the sources two samples back,
    but [px] is not remembered. *)
Example field_of_record_not_remembered :
  match engine_scan_ast
    (index_node (new_node (CXPR_NODE_FIELD_ACCESS (Some (new_node (CXPR_NODE_RECORD ["v"] [name_node "px"]))) None "v" None)) 2)
    px_program with
  | Done p => source_covered p "px" 0 ∧ ¬ source_covered p "px" 1
  | _ => False
  end.
Proof.
  cbn. split; [by eexists|]. intros (s & [= <-] & _ & _ & Hd). simpl in Hd. lia.
Qed.
