(* ===== verification/EngineExamples.v ===== *)
(** * EngineExamples: a session over one pulled price

    A host whose price source gives the samples of a list, a program that watches
    the rule [up] ([px > px[1]]), and the context of [src/context].  The rules are
    functions of the session's state; trees are evaluated with bounded depth, and
    a lookback inside a tree goes through the engine's resolver. *)

From Stdlib Require Import Ascii String ZArith Lia.
From stdpp Require Import base list strings gmap fin_maps.
From S2P Require Import Prelude Float64 Types Lexer Ast References IR Context TreeContext Engine EngineProofs EngineContexts.
Local Open Scope string_scope.
Local Open Scope run_scope.
Local Open Scope nat_scope.

(** The host has given the first [k] prices of a list. *)
Definition price_host : Type := nat.
#[export] Instance price_memory : EngineMemory price_host := {| host_double := λ _ _, None |}.

Definition no_address (name : string) : Z := 0.
Definition price_names : gset string := {["px"]}.
Lemma few_names : size price_names ≤ 50.
Proof. vm_compute. lia. Qed.

#[local] Instance contexts : EngineContext session_context := session_contexts no_address.
#[local] Instance context_laws : EngineContextLaws session_context := session_context_laws no_address price_names few_names.

Local Abbreviation state := (engine_state (C := session_context) (W := price_host)).
Local Abbreviation source := (engine_source (C := session_context) (W := price_host)).

Definition prices : list Z := [10; 11; 9; 12]%Z.
Definition give_price (name : string) (args : list float64) (userdata : Z) (k : price_host) : price_host * float64 :=
  (S k, of_Z (nth k prices 0%Z)).

(** ** Rules *)

Record direct_rules : Type := mk_rules {
  dr_rules : list (string * (state → cxpr_value));
  dr_results : list (string * cxpr_value)
}.

Definition result_of (ev : direct_rules) (name : string) : option cxpr_value :=
  snd <$> List.find (λ r, (fst r =? name)%string) (dr_results ev).

Definition number_error : cxpr_error := engine_error CXPR_ERR_TYPE_MISMATCH "not a number".

Definition tree_evaluator : Type :=
  direct_rules → nat → cxpr_expr_ast → session_context → state → run (state * (cxpr_value + cxpr_error)).

Definition rules_with (tree : tree_evaluator) : EngineRules (C := session_context) (W := price_host) direct_rules := {|
  rules_eval ev st := Done (mk_rules (dr_rules ev) (map (λ r, (fst r, snd r st)) (dr_rules ev)), st, error_zero);
  rules_get := result_of;
  eval_number ev tls a c st :=
    let* '(st, v) := tree ev tls a c st in
    Done (st, match v with inl (VNum d) => inl d | inl _ => inr number_error | inr e => inr e end);
  eval_tree := tree
|}.

(** Numbers, names of the context and lookbacks, to a depth of [fuel]. *)
Fixpoint tree_at (prog : cxpr_engine_program) (fuel : nat) : tree_evaluator := λ ev tls a c st,
  match fuel with
  | O => Undef
  | S fuel =>
      match ast_node a with
      | CXPR_NODE_NUMBER d => Done (st, inl (VNum d))
      | CXPR_NODE_IDENTIFIER name =>
          let* '(v, _) := cxpr_context_get_typed (context_chain c) (at_name no_address name) in
          Done (st, match v with Some v => inl v | None => inr number_error end)
      | CXPR_NODE_INDEX target index =>
          let* '(st, r) := engine_lookback_resolver (EngineRules0 := rules_with (tree_at prog fuel)) true prog None None
                             ev tls target index c st in
          Done (st, match r with Answer v => inl v | AnswerError e | Refused e => inr e end)
      | _ => Done (st, inr number_error)
      end
  end.

(** ** The program *)

Definition price_program : cxpr_engine_program :=
  mk_program [mk_watch "up" CXPR_EDGE_RISING; mk_watch "up" CXPR_EDGE_CHANGED] [mk_tracked "up" 2] [].

#[local] Instance rules : EngineRules (C := session_context) (W := price_host) direct_rules :=
  rules_with (tree_at price_program 3).

Definition new_slot : cxpr_context_slot := mk_slot None 0.
Definition price_source : source :=
  mk_source "px" ENGINE_SRC_PULL (Some give_price) None None 0 None 0 0 true true 2 ring_none new_slot false.

(** [px > px[1]], from the ring of [px]. *)
Definition up_rule (st : state) : cxpr_value :=
  match st_sources st !! 0 with
  | Some src =>
      match engine_ring_read (so_ring src) 0, engine_ring_read (so_ring src) 1 with
      | Done (Some now), Done (Some was) => VBool (fgtb now was)
      | _, _ => VBool false
      end
  | None => VBool false
  end.

Definition price_rules : direct_rules := mk_rules [("up", up_rule)] [].
Definition price_session : cxpr_engine_session :=
  cxpr_engine_session_new price_program [price_source] new_slot price_rules new_session_context 0.

#[local] Instance rules_laws : EngineRulesLaws (C := session_context) (W := price_host) (E := direct_rules).
Proof.
  refine {| rules_ok := λ _, True |}. intros ev st hp m _ _ Hm _. do 3 eexists. exists m. split; [reflexivity|]. done.
Defined.

Lemma price_session_ok : session_ok price_session (λ _, []) (λ _, []) None.
Proof.
  apply (session_new_ok price_program [price_source] new_slot price_rules new_session_context 0 ∅); [apply new_context_shows| |done].
  constructor; [|constructor]. split; [done|]. by apply elem_of_singleton.
Qed.

(** ** Ticks *)

Lemma up_rule_bool st : ∃ b, up_rule st = VBool b.
Proof.
  unfold up_rule. repeat case_match; eauto.
Qed.


(** The events of the first [n] ticks. *)
Fixpoint ticks (n : nat) (s : cxpr_engine_session) : run (cxpr_engine_session * list (list cxpr_engine_event)) :=
  match n with
  | O => Done (s, [])
  | S n =>
      let* '(s, r) := cxpr_engine_tick s in
      let* '(s, rest) := ticks n s in
      Done (s, match r with inl events => events | inr _ => [] end :: rest)
  end.

Definition run_value {A B} (f : A → B) (x : run A) (d : B) : B := match x with Done a => f a | _ => d end.

(** Prices 10, 11, 9 and 12: the rule rises in the second and in the fourth tick,
    and changes in each of the last three. *)
Example price_events :
  run_value (λ r, map (map ev_edge) (snd r)) (ticks 4 price_session) [] =
  [[]; [CXPR_EDGE_RISING; CXPR_EDGE_CHANGED]; [CXPR_EDGE_CHANGED]; [CXPR_EDGE_RISING; CXPR_EDGE_CHANGED]].
Proof. vm_compute. reflexivity. Qed.

(** ** Lookback *)

Definition number (n : Z) : cxpr_expr_ast := new_node (CXPR_NODE_NUMBER (of_Z n)).
Definition identifier (name : string) : cxpr_expr_ast := new_node (CXPR_NODE_IDENTIFIER name).

Lemma number_literal n : n < 10 → literal (number (Z.of_nat n)) n.
Proof.
  intros Hn. exists (of_Z (Z.of_nat n)). split; [done|].
  do 10 (destruct n as [|n]; [by vm_compute|]). lia.
Qed.

(** A session in its third tick. *)
Definition third_source : source :=
  source_with_ring (mk_ring (Some (Some <$> [of_Z 9; of_Z 10; of_Z 11])) 3 0 3) price_source.
Definition price_history (i : nat) : list float64 := if i =? 0 then [of_Z 9; of_Z 11; of_Z 10] else [].
Definition rule_history (i : nat) : list cxpr_value := if i =? 0 then [VBool true; VBool false] else [].
Definition third_tick : state :=
  mk_state new_session_context 2 [third_source]
    [mk_ring (Some (Some <$> [VNum fnan; VBool false; VBool true])) 3 0 3] [] 48 [] 3.

Lemma third_sources_ok : sources_ok third_tick price_history.
Proof.
  intros [|i] src; [|intros Hi; cbn in Hi; by destruct i]. intros [= <-]. split; [|done|done|by apply elem_of_singleton].
  intros _. exists (Some <$> [of_Z 9; of_Z 10; of_Z 11]). repeat split; [cbn; lia|].
  intros d v Hd. cbn in Hd. do 3 (destruct d as [|d]; [by intros [= <-]|]). lia.
Qed.

Lemma source_lookback_correct_witness :
  ∃ st', engine_lookback_resolver true price_program None None price_rules 1 (identifier "px") (number 1)
      new_session_context third_tick = Done (st', Answer (VNum (of_Z 10))).
Proof.
  destruct (source_lookback_correct true price_program None None price_rules 1 1 None "px" (number 1) new_session_context
    third_tick price_history 0 third_source third_sources_ok) as (st' & Hrun & _).
  - intros e src He. by apply elem_of_nil in He.
  - reflexivity.
  - reflexivity.
  - reflexivity.
  - apply (number_literal 1). lia.
  - exists st'. exact Hrun.
Defined.

Lemma rule_lookback_correct_witness :
  engine_lookback_resolver true price_program None None price_rules 0 (identifier "up") (number 2)
    new_session_context third_tick = Done (third_tick, Answer (VBool false)).
Proof.
  apply (rule_lookback_correct true price_program None None price_rules 0 2 None "up" (number 2) new_session_context
    third_tick rule_history 0 (mk_tracked "up" 2)).
  - intros [|i] r; [|intros Hi; cbn in Hi; by destruct i]. intros [= <-]. exists (mk_tracked "up" 2). split; [done|].
    eexists. split; [reflexivity|]. repeat split; [cbn; lia|].
    intros d v Hd. cbn in Hd. do 3 (destruct d as [|d]; [by intros [= <-]|]). lia.
  - reflexivity.
  - reflexivity.
  - cbn. lia.
  - reflexivity.
  - apply (number_literal 2). lia.
Defined.

Definition back (a : cxpr_expr_ast) (n : Z) : cxpr_expr_ast := new_node (CXPR_NODE_INDEX a (number n)).
Definition third_value (a : cxpr_expr_ast) (n : Z) : option lookback_answer :=
  run_value (λ r, Some (snd r))
    (engine_lookback_resolver true price_program None None price_rules 0 a (number n) new_session_context third_tick) None.

(** [(px[1])[1]] is [px[2]]: the lookbacks of a source add up. *)
Example source_lookbacks_add : third_value (back (identifier "px") 1) 1 = Some (Answer (VNum (of_Z 10))).
Proof. vm_compute. reflexivity. Qed.

(** [(up[1])[1]] is [up[1]]: the offset of the enclosing lookback is not added
    when the inner target is a rule, and the result of one tick ago is taken for
    the one of two ticks ago. *)
Example rule_lookbacks_do_not_add :
  third_value (back (identifier "up") 1) 1 = Some (Answer (VBool true)) ∧
  third_value (identifier "up") 2 = Some (Answer (VBool false)).
Proof. split; vm_compute; reflexivity. Qed.

(** [(a).v[1]] in a program that tracks a rule: the resolver compares the names of
    tracked rules with a null pointer. *)
Example field_of_expression_undefined index c st :
  ast_node index = CXPR_NODE_NUMBER (of_Z 1) →
  engine_lookback_resolver true price_program None None price_rules 0
    (new_node (CXPR_NODE_FIELD_ACCESS (Some (identifier "a")) None "v" None)) index c st = Undef.
Proof. intros Hindex. unfold engine_lookback_resolver. by rewrite Hindex. Qed.

(** ** Calls with arguments *)

(** A call [px(NaN)] in two ticks: the argument equals no other, so each tick adds
    an argument ring that is never found again. *)
Definition nan_call (st : state) : run (state * option float64) := engine_resolve_source_call true st 0 [fnan] 0.
Example nan_argument_rings_grow :
  run_value (λ st, length (st_arg_rings st))
    (let* '(st, _) := nan_call third_tick in
     let* '(st, _) := nan_call (with_memo [] (with_cursor 3 st)) in
     let* '(st, _) := nan_call (with_memo [] (with_cursor 4 st)) in Done st) 0 = 3.
Proof. vm_compute. reflexivity. Qed.

(** A rule that names [px] and calls [px()]: the first tick pulls the source into
    the context, the call pulls it again, and the two reads of one tick differ. *)
Definition twice_source : source :=
  mk_source "px" ENGINE_SRC_PULL (Some give_price) None None 0 None 0 0 true true 0 ring_none new_slot false.
Definition twice_session : cxpr_engine_session :=
  cxpr_engine_session_new (mk_program [] [] []) [twice_source] new_slot price_rules new_session_context 0.
Example bare_read_and_call_pull_twice :
  run_value Some
    (let* st := hydrate_sources 0 1 (se_state twice_session) in
     let* '(bare, _) := cxpr_context_get_typed (context_chain (st_ctx st)) (at_name no_address "px") in
     let* '(st, (called, _)) := engine_source_call true price_rules 0 "px" [] (st_ctx st) st in
     Done (st_world st, bare, called)) None = Some (2, Some (VNum (of_Z 10)), VNum (of_Z 11)).
Proof. vm_compute. reflexivity. Qed.
